(* ===== verification/_CoqProject ===== *)
-Q . S2P
Prelude.v
JsMap.v
Bytes.v
Text.v
Cbor.v
CborProofs.v
Schema.v
CborTheorems.v
Domains.v
Messages.v
Base64.v
StoreTypes.v
ControlStore.v
StoreInvariant.v
StoreTheorems.v
Watermark.v
JsNumber.v
CapTypes.v
Policy.v
PolicyProofs.v
CapCodec.v
CapCodecProofs.v
Reducer.v
ReducerProofs.v
LogTheorems.v
AuthorityTheorems.v
AdmissionTheorems.v
FileSystem.v
FeedForks.v
FeedForkTheorems.v
Int64.v
Decimal.v
DecimalTheorems.v
Vector.v
KernelText.v
Entropy.v
Json.v
JsonProofs.v
JsonTheorems.v
Membership.v
MembershipTheorems.v
SnapshotCodec.v
StorePersistence.v
StoreDurability.v
Logical.v
LogicalTheorems.v
Sql.v
SqlProofs.v
SqlTheorems.v
SqlScan.v
SqlScanTheorems.v
SqlCompiler.v
SqlCompilerTheorems.v
Transaction.v
ExecManifest.v
ExecManifestTheorems.v
MaterializerCodec.v
MaterializerTheorems.v
MaterializerRunner.v
RunnerTheorems.v
Workerd.v
Blobs.v
BlobsTheorems.v
Hpke.v
Wire.v
Epochs.v
WireTheorems.v
EpochTheorems.v
Async.v
Governance.v
GovernanceTheorems.v
GovernanceDelivery.v
GovernanceSample.v
Node.v
NodeProofs.v
NodeTheorems.v
NodeSample.v
NodeOrder.v
Snapshots.v
SnapshotTheorems.v
