(* ===== verification/Prelude.v ===== *)
(** * Chronolog DB: a verification library

    Chronolog is a replicated database: nodes append signed transactions to
    their own feeds, gossip them, validators attest them, and every node orders
    the admissible ones in the same way and replays them.  This library models
    the parts of the TypeScript sources (under [packages/]) that decide what
    every replica must agree on, and proves that they do.

    ** The parts and how they interact

    - [canonical] writes every signed or hashed record as deterministic CBOR.
      Files [Bytes], [Text], [Cbor] (bytes.ts, fixed.ts, cbor.ts), proofs in
      [CborProofs], [CborTheorems].
    - [protocol] defines the records of the wire, the domain-separated hashes
      and the total order of transactions.  Files [Schema] (schema.ts),
      [Domains] (primitives.ts, hash.ts), [Messages] (messages.ts).
    - [capabilities] reduces the signed log of capability revisions to the
      membership (who may author, validate, recover) and decides whether
      attestations satisfy a validation policy.  Files [CapTypes], [CapCodec]
      (codec.ts), [Policy] (policy.ts), [Reducer] (reducer.ts, recovery.ts,
      admission.ts); proofs in [PolicyProofs], [CapCodecProofs],
      [ReducerProofs], [LogTheorems], [AuthorityTheorems], [AdmissionTheorems].
    - [control-store] holds candidates, attestations, heartbeats and the order
      of the admissible transactions, logs its changes and persists snapshots.
      Files [Base64], [StoreTypes], [ControlStore]; proofs in
      [StoreInvariant], [StoreTheorems], [Watermark].  Its file
      persistence (persistence.ts) runs over a file system that can crash at any
      point: [FileSystem], [SnapshotCodec], [StorePersistence], [StoreDurability].
    - [node-core] feeds the store from the transport.  Its registry of feeds
      (feed-forks.ts) detects forks and is kept in a JSON file: [FeedForks],
      [FeedForkTheorems].
      The membership resolver (capability-membership.ts) answers from a reduced
      capability log: [Membership], [MembershipTheorems].  Envelopes are signed,
      sealed and split into blobs by wire.ts, cipher.ts and blobs.ts: [Blobs],
      [BlobsTheorems], [Wire], [WireTheorems].  The control plane (governance.ts)
      distributes revisions, recoveries and epochs over the feeds: [Governance],
      with [GovernanceTheorems] (the plane under every interleaving),
      [GovernanceDelivery] (from an administrator to a reader) and
      [GovernanceSample] (a small group).  The node (node.ts) ingests
      records, admits candidates, attests, publishes and hands the order to the
      materializer: [Node].  Its handlers are asynchronous; [Async] models
      [await] and the mutex of async.ts, a chain of promises, which it proves to be a
      lock with a line.  [NodeProofs] is the rely-guarantee proof of every handler;
      [NodeTheorems] has the jobs of that lock and everything that runs beside
      it as a step relation, and what follows for all reachable systems,
      [NodeOrder] what follows when the handlers do not interleave, [NodeSample]
      a concrete node that admits a transaction.  The trusted snapshots a node is
      set up from, and the archives that carry them, are those of snapshots.ts and
      snapshot-archive.ts: [Snapshots], [SnapshotTheorems].
    - [kernels] are the deterministic functions transactions may call.  Files
      [Int64], [Decimal], [DecimalTheorems], [Vector], [KernelText],
      [Entropy], [Json], [JsonProofs], [JsonTheorems].
    - [protocol] and [ir] also have the values and programs of transactions:
      [Logical], [LogicalTheorems] (ir/codec.ts), [Sql], [SqlProofs],
      [SqlTheorems] (sql.ts), [Transaction] (transaction messages).  The manifest
      that pins engine, functions and ceilings is the other half of ir/codec.ts:
      [ExecManifest], [ExecManifestTheorems].
    - [compiler-sqlite] decides whether a program computes the same on every replica
      (sql-compiler.ts): its scanner, the parameters it finds and the rewriting of
      ordered mutations are [SqlScan], with [SqlScanTheorems]; the checks of a syntax
      tree, the compilation of programs and the placing of bindings are [SqlCompiler],
      with [SqlCompilerTheorems].  The parser is a package of its own and a parameter.
    - [materializer] is the contract between the node and the engine that replays
      the order: [MaterializerCodec] (types.ts, runtime.ts, codec.ts),
      with [MaterializerTheorems], and
      [MaterializerRunner] (runner.ts, differential.ts) with [RunnerTheorems].
      An invocation names its inputs by content; the runner reads them from a
      store that is a parameter, a record of operations over any state.
    - [runtime-workerd] runs a kernel that is not trusted: controller.ts mediates its
      requests, coordinator.ts names an execution by its inputs and checks the
      response, publication.ts moves a reference to the selected output: [Workerd].
    - [crypto] wraps the key of an epoch for its readers: [Hpke] (hpke.ts), [Epochs]
      (epoch.ts) and [EpochTheorems].
    ** How the code is modelled

    A function that can throw returns a [result]; the error is the code of the
    exception, messages are left out.  A class with mutable state is a record
    and its methods run in a state-with-exceptions monad, so that a throw keeps
    the mutations made before it ([ControlStore.op], [FeedForks.fop]).  A
    JavaScript [Map] or [Set] is the association list of [JsMap], which
    remembers insertion order as the language does; a [Uint8Array] is a list of
    bytes, a string the list of its UTF-16 code units, a bigint a [Z], a number
    an integer kept within the checks the code makes.  Values that cross a
    component boundary are copied by the code ([structuredClone], [copyBytes]),
    so sharing does not occur and the copy is the identity.

    SHA-256, HMAC, Ed25519, the persistence layer and the host's collation are
    parameters; the hypotheses on them (digest lengths, the laws of a
    persistence layer) are stated where they are used, and every theorem that
    has one comes with a witness in which it holds.  No hypothesis says that
    hashes do not collide: theorems that need it conclude "or here is a
    collision", with the two inputs.

    ** What the theorems show

    - Encoding: round trip, strictness and injectivity of CBOR and of each
      record codec; a decoder accepts only the encoding of what it returns.
    - Order: the incrementally maintained order is the sort of the admissible
      candidates, so replicas with the same candidates agree; admission is
      monotone, cutoffs never regress, the change log is complete, a snapshot
      restores the store; watermarks are the greatest safe cutoffs.
    - Authority: a recovery needs its threshold of distinct keys and replaces
      the validators, revocations are final, timestamp floors are respected,
      the digest of the head determines the whole membership; the policy solver
      is complete and returns the least proof; an admission proof is backed by
      active validators.
    - Feeds: every feed is hash-linked and a fork is never accepted, across
      restarts and failing saves, but not across a power cut
      ([FeedForkTheorems.accepted_record_forgotten]).
    - Kernels: 64-bit arithmetic is exact or reports overflow, decimals agree
      with the rationals and round as specified, distances and neighbours are
      those of their definitions, bounded draws are unbiased, JSON without byte order
      marks reads back, and its parser terminates.
    - Messages: what a node signs and seals another opens, and what it accepts was
      signed by the key it names under the domain of its type.
    - Nodes: under every interleaving of its handlers and any number of restarts,
      admissions rest on attestations that count and meet the policy, announced
      cutoffs are on disk, the materializer gets exactly the order of the store, every
      record that was delivered is seen, on its way or due for a retry, and the mutex
      is a lock that loses no wake-up; run one after the other, the handlers never go
      back in the cutoffs they announce nor attest at or below one, while [NodeSample]
      has an interleaving in which a heartbeat overtakes an attestation.
    - Governance: the membership and the chain of epochs of every reachable control
      plane are those of its log and only grow; a rotation reaches the active
      readers and nobody else; what ends the start of a plane.  Two rotations at once
      replace the content key of the accepted one
      ([GovernanceSample.rotation_replaces_key]).
    - Materialisation: every message of the contract is written and read exactly
      (what the decoders accept beyond that is stated); an invocation resolves
      only to what it pins, with the reads it reports; the digest of an order and
      of a manifest bind them; backends that pass a fixture agree.
    - Compilation: a program that compiled reads nothing ambient and writes no object
      that is not the application's, with three gaps the file shows; its bindings can be
      placed; the two ways of
      numbering parameters agree; rewriting a source keeps its parameters, and quoting
      a name keeps it a name.
    - Durability: what the file persistence acknowledged survives a crash of the
      machine at any point, except what a process acknowledged after one that was
      killed ([StoreDurability.killed_process_loses_cutoff]).
    - Snapshots: a manifest is trusted exactly under the stated conditions; an archive
      cannot be altered unnoticed; replacing the database is safe against crashes.
    - Worker: however the requests of a kernel interleave, a result is backed by what
      the host did, and the coordinator accepts it if the formats can carry it; an
      execution key binds the inputs;
      a publication moves a reference at most once, however its backend fails.
    ** Fuel

    Recursion that is not structural takes fuel.  The CBOR decoder's fuel is
    its nesting limit, which the code has too; the JSON parser is given twice
    the length of the source and its string loop the length of what is left, and going
    past either is an error of its own, which [JsonTheorems.parse_terminates] shows
    never to occur; the binary search of the store is given the length of
    its index, and [StoreInvariant] shows that it never runs out; the rejection
    sampling of [Entropy] is bounded by the code itself.
    Asynchronous programs need none: [Async.proc] is a finite tree that branches
    on the state and on the answers of services.  That a service answers is not taken
    for granted: the step relations never force a turn, so an operation that waits for
    ever, and keeps the mutex, is among the runs of every theorem.
    ** Not modelled

    The SQL engine (DoltLite) and its driver (materializer-doltlite) are a parameter of
    the node, and so is the use of the compiler by it; the walk over a syntax tree
    (traverse) and the parser belong to a package and are parameters of the compiler.
    The transport (transport-ssb) is an interface.  Event subscriptions, queries and
    the shutdown of the node are left out.  Of a timer the delay is left out, and
    what its callback does is modelled: the periodic ones queue a job, which the step
    relation allows at any time, and the retry of failed records is a step of its own,
    since it also takes the set of records and the overflow mark ([Node.retry_start]).
    Key stores,
    the client, RPC, the React hooks and the test harnesses are not modelled.  Of the
    worker, the transport client, the bundles and the codec of its messages
    (host-client.ts, worker-bundle.ts, worker-codec.ts) are left out; they adapt the
    generated binding of the workerd database reducer.
*)

From Stdlib Require Import Sorting.Sorted.
From stdpp Require Import base list option numbers sorting.

#[export] Set Warnings "-clear-no-such-hyp".
#[local] Open Scope Z_scope.

(** ** Results: a JavaScript computation that returns or throws *)

Inductive result (E A : Type) : Type :=
  | Ok (a : A)
  | Err (e : E).
Arguments Ok {E A} a.
Arguments Err {E A} e.

#[export] Instance result_ret E : MRet (result E) := λ A a, Ok a.
#[export] Instance result_bind E : MBind (result E) := λ A B f m,
  match m with Ok a => f a | Err e => Err e end.
#[export] Instance result_fmap E : FMap (result E) := λ A B f m,
  match m with Ok a => Ok (f a) | Err e => Err e end.

#[export] Instance result_eq_dec E A `{EqDecision E, EqDecision A} : EqDecision (result E A).
Proof. solve_decision. Defined.

(** An assertion of the code base: [canonicalInvariant], [protocolInvariant]
    and [kernelAssert] all throw the given code when the condition is false. *)
Definition ensure {E} (condition : bool) (code : E) : result E unit :=
  if condition then Ok tt else Err code.

(** [array.map(f)] for an [f] that may throw: left to right, first error wins. *)
Section mapR.
Context {E A B : Type} (f : A → result E B).
Fixpoint mapR (l : list A) : result E (list B) :=
  match l with
  | [] => Ok []
  | x :: l' => y ← f x; ys ← mapR l'; Ok (y :: ys)
  end.
End mapR.

(** [for (const x of l) acc = f(acc, x)] for an [f] that may throw. *)
Fixpoint foldR {E A B} (f : B → A → result E B) (acc : B) (l : list A) : result E B :=
  match l with
  | [] => Ok acc
  | x :: l' => acc' ← f acc x; foldR f acc' l'
  end.

(** ** State with exceptions

    A throw keeps the mutations made before it, so the state survives the
    error: this is what a caller that catches the exception sees. *)

Definition SE (S E A : Type) : Type := S → S * result E A.

#[export] Instance SE_ret S E : MRet (SE S E) := λ A a s, (s, Ok a).
#[export] Instance SE_bind S E : MBind (SE S E) := λ A B f m s,
  match m s with
  | (s', Ok a) => f a s'
  | (s', Err e) => (s', Err e)
  end.

Definition get_state {S E} : SE S E S := λ s, (s, Ok s).
Definition put_state {S E} (s' : S) : SE S E unit := λ _, (s', Ok tt).
Definition modify {S E} (f : S → S) : SE S E unit := λ s, (f s, Ok tt).
Definition throw {S E A} (e : E) : SE S E A := λ s, (s, Err e).
Definition assert_state {S E} (condition : bool) (e : E) : SE S E unit :=
  λ s, (s, ensure condition e).

(** ** Comparators and [Array.prototype.sort] *)

(** A consistent comparator: a total preorder given by the sign of an integer. *)
Class Comparator {A} (cmp : A → A → Z) : Prop := {
  cmp_refl x : cmp x x = 0;
  cmp_flip x y : cmp x y < 0 ↔ 0 < cmp y x;
  cmp_trans x y z : cmp x y ≤ 0 → cmp y z ≤ 0 → cmp x z ≤ 0;
}.

(** Two values the comparator does not distinguish are equal. *)
Class StrictComparator {A} (cmp : A → A → Z) : Prop := {
  strict_comparator :: Comparator cmp;
  cmp_eq x y : cmp x y = 0 → x = y;
}.

(** [Array.prototype.sort] is stable; for a consistent comparator the stable
    result is unique, and insertion from the right computes it. *)
Fixpoint sort_insert {A} (cmp : A → A → Z) (x : A) (l : list A) : list A :=
  match l with
  | [] => [x]
  | y :: l' => if cmp x y <=? 0 then x :: y :: l' else y :: sort_insert cmp x l'
  end.

Definition js_sort {A} (cmp : A → A → Z) (l : list A) : list A :=
  foldr (sort_insert cmp) [] l.

(** ** Inversion of successful computations *)

Lemma Ok_inj {E A} (a b : A) : Ok (E:=E) a = Ok b → a = b.
Proof. congruence. Qed.

Lemma ensure_Ok {E} b (e : E) u : ensure b e = Ok u ↔ b = true.
Proof. destruct b, u; naive_solver. Qed.

Lemma bind_Ok {E A B} (m : result E A) (f : A → result E B) b :
  (x ← m; f x) = Ok b ↔ ∃ a, m = Ok a ∧ f a = Ok b.
Proof. destruct m; naive_solver. Qed.

Lemma bind_Err {E A B} (m : result E A) (f : A → result E B) e :
  (x ← m; f x) = Err e ↔ m = Err e ∨ ∃ a, m = Ok a ∧ f a = Err e.
Proof. destruct m; naive_solver. Qed.

Lemma fmap_Ok {E A B} (f : A → B) (m : result E A) b :
  f <$> m = Ok b ↔ ∃ a, m = Ok a ∧ b = f a.
Proof. destruct m; naive_solver. Qed.

(** [inv_ok] splits every hypothesis that says a sequence of computations
    returned, down to the facts its assertions establish. *)
Ltac inv_ok :=
  repeat match goal with
  | H : mret _ = Ok _ |- _ => apply Ok_inj in H
  | H : Ok _ = Ok _ |- _ => apply Ok_inj in H
  | H : Err _ = Ok _ |- _ => discriminate H
  | H : Ok _ = Err _ |- _ => discriminate H
  | H : ensure _ _ = Ok _ |- _ => apply ensure_Ok in H
  | H : (let '(_, _) := ?p in _) = Ok _ |- _ => destruct p as [? ?]; cbn beta iota in H
  | H : (_ ≫= _) = Ok _ |- _ =>
      let x := fresh "x" in apply bind_Ok in H as (x & ? & H)
  | H : _ <$> _ = Ok _ |- _ =>
      let x := fresh "x" in apply fmap_Ok in H as (x & ? & H)
  end.

Lemma mapR_Ok {E A B} (f : A → result E B) l l' :
  mapR f l = Ok l' ↔ Forall2 (λ x y, f x = Ok y) l l'.
Proof.
  split.
  - revert l'; induction l as [|x l IH]; intros l'; simpl; intros ?; inv_ok;
      subst; constructor; auto.
  - induction 1 as [|x y l l' Hx _ IH]; [done|]. simpl. rewrite Hx. simpl. by rewrite IH.
Qed.

Lemma mapR_length {E A B} (f : A → result E B) l l' :
  mapR f l = Ok l' → length l' = length l.
Proof. intros ?%mapR_Ok. symmetry. by eapply Forall2_length. Qed.

Lemma mapR_total {E A B} (f : A → result E B) (g : A → B) l :
  Forall (λ x, f x = Ok (g x)) l → mapR f l = Ok (g <$> l).
Proof. induction 1 as [|x l Hx _ IH]; [done|]. simpl. rewrite Hx. simpl. by rewrite IH. Qed.

Lemma foldR_app {E A B} (f : B → A → result E B) acc l1 l2 :
  foldR f acc (l1 ++ l2) = (acc' ← foldR f acc l1; foldR f acc' l2).
Proof.
  revert acc; induction l1 as [|x l1 IH]; intros acc; [done|].
  simpl. destruct (f acc x); [apply IH|done].
Qed.

Lemma foldR_fmap {E A B C} (f : B → C → result E B) (g : A → C) acc l :
  foldR f acc (g <$> l) = foldR (λ b x, f b (g x)) acc l.
Proof.
  revert acc. induction l as [|x l IH]; intros acc; [done|]. rewrite fmap_cons. cbn [foldR].
  destruct (f acc (g x)); [apply IH|done].
Qed.

(** An invariant of the accumulator is kept by a loop that returns. *)
Lemma foldR_inv {E A B} (P : B → Prop) (f : B → A → result E B) l acc acc' :
  (∀ b x b', P b → x ∈ l → f b x = Ok b' → P b') →
  P acc → foldR f acc l = Ok acc' → P acc'.
Proof.
  revert acc; induction l as [|x l IH]; intros acc Hstep Hacc; simpl; intros Hf; inv_ok.
  - by subst.
  - eapply IH; [| |done]; [|by eapply Hstep; [..|done]; [|left]].
    intros; eapply Hstep; [done|by right|done].
Qed.

Lemma Forall2_impl_elem {A B} (P Q : A → B → Prop) l k :
  (∀ x y, x ∈ l → y ∈ k → P x y → Q x y) → Forall2 P l k → Forall2 Q l k.
Proof.
  intros HPQ H. induction H as [|x y l k Hxy _ IH]; constructor.
  - apply HPQ; [left|left|done].
  - apply IH. intros x' y' Hx Hy. apply HPQ; by right.
Qed.

Lemma filter_all {A} (P : A → Prop) `{∀ x, Decision (P x)} l : Forall P l → filter P l = l.
Proof. induction 1 as [|x l Hx _ IH]; [done|]. rewrite filter_cons, decide_True by done. by rewrite IH. Qed.

Lemma filter_none {A} (P : A → Prop) `{∀ x, Decision (P x)} l : Forall (λ x, ¬ P x) l → filter P l = [].
Proof. induction 1 as [|x l Hx _ IH]; [done|]. by rewrite filter_cons, decide_False. Qed.

Lemma Forall2_diag_1 {A} (Q : A → A → Prop) l : Forall2 Q l l → Forall (λ x, Q x x) l.
Proof. induction l as [|x l IH]; inversion 1; constructor; auto. Qed.

Lemma mjoin_cons {A} (x : list A) l : mjoin (x :: l) = x ++ mjoin l.
Proof. done. Qed.

Lemma StronglySorted_weaken {A} (R R' : A → A → Prop) l :
  (∀ x y, R x y → R' x y) → StronglySorted R l → StronglySorted R' l.
Proof.
  intros HR. induction 1 as [|x l _ IH Hx]; constructor; [done|].
  eapply Forall_impl; [exact Hx|]. auto.
Qed.

Lemma StronglySorted_on {A B} (f : A → B) (R : B → B → Prop) l :
  StronglySorted R (f <$> l) ↔ StronglySorted (λ a b, R (f a) (f b)) l.
Proof.
  induction l as [|x l IH]; [split; constructor|]. rewrite fmap_cons.
  split; inversion 1; simplify_eq; (constructor; [by apply IH|by apply Forall_fmap]).
Qed.

(** ** The sort *)

(** A comparator on a projection. *)
Lemma comparator_on {A B} (f : A → B) (cmp : B → B → Z) `{!Comparator cmp} :
  Comparator (λ x y, cmp (f x) (f y)).
Proof.
  split; intros; [apply cmp_refl|apply cmp_flip|by eapply (cmp_trans _ (f y))].
Qed.

(** Sorting commutes with a map that the comparators agree on. *)
Lemma js_sort_fmap {A B} (f : A → B) (cmp : A → A → Z) (cmp' : B → B → Z) l :
  (∀ x y, cmp' (f x) (f y) = cmp x y) → js_sort cmp' (f <$> l) = f <$> js_sort cmp l.
Proof.
  intros Hf. unfold js_sort. induction l as [|x l IH]; [done|].
  rewrite fmap_cons. cbn [foldr]. rewrite IH. clear IH.
  generalize (foldr (sort_insert cmp) [] l) as k. induction k as [|y k IH]; [done|].
  rewrite fmap_cons. cbn [sort_insert]. rewrite Hf. destruct (cmp x y <=? 0); [done|].
  rewrite IH. done.
Qed.

Section sort.
Context {A : Type} (cmp : A → A → Z).

Lemma sort_insert_perm x l : sort_insert cmp x l ≡ₚ x :: l.
Proof.
  induction l as [|y l IH]; [done|]. simpl. case_match; [done|].
  rewrite IH. apply Permutation_swap.
Qed.

Lemma js_sort_perm l : js_sort cmp l ≡ₚ l.
Proof.
  induction l as [|x l IH]; [done|]. unfold js_sort in *; simpl.
  by rewrite sort_insert_perm, IH.
Qed.

Lemma js_sort_length l : length (js_sort cmp l) = length l.
Proof. apply Permutation_length, js_sort_perm. Qed.

Lemma elem_of_js_sort x l : x ∈ js_sort cmp l ↔ x ∈ l.
Proof. by rewrite js_sort_perm. Qed.

Lemma js_sort_NoDup l : NoDup (js_sort cmp l) ↔ NoDup l.
Proof. by rewrite js_sort_perm. Qed.

Context `{!Comparator cmp}.

Lemma cmp_total x y : cmp x y ≤ 0 ∨ cmp y x ≤ 0.
Proof. destruct (cmp_flip x y). lia. Qed.

Lemma cmp_lt_gt x y : 0 < cmp x y → cmp y x < 0.
Proof. intros. by apply (cmp_flip y x). Qed.

Lemma cmp_lt_trans x y z : cmp x y < 0 → cmp y z ≤ 0 → cmp x z < 0.
Proof.
  intros Hxy Hyz. destruct (Z_lt_le_dec (cmp x z) 0) as [|Hxz]; [done|].
  assert (cmp z x ≤ 0) by (destruct (cmp_flip z x); destruct (cmp_flip x z); lia).
  assert (cmp y x ≤ 0) by (by eapply (cmp_trans y z x)).
  apply (cmp_flip x y) in Hxy. lia.
Qed.

Lemma cmp_le_lt_trans x y z : cmp x y ≤ 0 → cmp y z < 0 → cmp x z < 0.
Proof.
  intros Hxy Hyz. destruct (Z_lt_le_dec (cmp x z) 0) as [|Hxz]; [done|].
  assert (cmp z x ≤ 0) by (destruct (cmp_flip z x); destruct (cmp_flip x z); lia).
  assert (cmp z y ≤ 0) by (by eapply (cmp_trans z x y)).
  apply (cmp_flip y z) in Hyz. lia.
Qed.

Lemma sort_insert_sorted x l :
  StronglySorted (λ x y, cmp x y ≤ 0) l → StronglySorted (λ x y, cmp x y ≤ 0) (sort_insert cmp x l).
Proof.
  induction 1 as [|y l Hl IH Hy]; simpl; [repeat constructor|].
  destruct (Z.leb_spec (cmp x y) 0).
  - constructor; [by constructor|]. constructor; [done|].
    eapply Forall_impl; [exact Hy|]. simpl. intros z Hz. by eapply cmp_trans.
  - constructor; [done|]. rewrite sort_insert_perm. constructor; [|done].
    destruct (cmp_total x y); lia.
Qed.

Lemma js_sort_sorted l : StronglySorted (λ x y, cmp x y ≤ 0) (js_sort cmp l).
Proof.
  induction l as [|x l IH]; [constructor|]. by apply sort_insert_sorted.
Qed.

(** Sorting an already sorted list changes nothing. *)
Lemma js_sort_id l : StronglySorted (λ x y, cmp x y ≤ 0) l → js_sort cmp l = l.
Proof.
  induction 1 as [|x l _ IH Hx]; [done|]. unfold js_sort in *; simpl. rewrite IH.
  destruct Hx as [|y l Hy _]; [done|]. simpl. by apply Z.leb_le in Hy as ->.
Qed.

Lemma strictly_sorted_inj l x y :
  StronglySorted (λ x y, cmp x y < 0) l → x ∈ l → y ∈ l → cmp x y ≤ 0 → cmp y x ≤ 0 → x = y.
Proof.
  induction 1 as [|z l _ IH Hz]; intros Hx Hy Hxy Hyx; [by apply elem_of_nil in Hx|].
  rewrite Forall_forall in Hz.
  apply elem_of_cons in Hx as [->|Hx]; apply elem_of_cons in Hy as [->|Hy]; auto.
  - apply Hz, (cmp_flip z y) in Hy. lia.
  - apply Hz, (cmp_flip z x) in Hx. lia.
Qed.

(** When no two elements tie, the result does not depend on the order the
    elements came in. *)
Lemma js_sort_perm_strict l1 l2 :
  l1 ≡ₚ l2 → StronglySorted (λ x y, cmp x y < 0) (js_sort cmp l1) →
  js_sort cmp l2 = js_sort cmp l1.
Proof.
  intros Hl Hs. apply (StronglySorted_unique_strong (λ x y, cmp x y ≤ 0)).
  - intros x y Hx Hy. apply (strictly_sorted_inj (js_sort cmp l1)); [done| |done].
    by rewrite elem_of_js_sort, Hl, <-elem_of_js_sort.
  - apply js_sort_sorted.
  - apply js_sort_sorted.
  - by rewrite !js_sort_perm.
Qed.
End sort.

Section strict_sort.
Context {A : Type} (cmp : A → A → Z) `{!StrictComparator cmp}.

#[local] Instance strict_antisymm : AntiSymm (=) (λ x y, cmp x y ≤ 0).
Proof.
  intros x y Hxy Hyx. apply cmp_eq. destruct (cmp_flip x y), (cmp_flip y x). lia.
Qed.

(** For a strict comparator the result depends only on the multiset. *)
Lemma js_sort_perm_eq l1 l2 : l1 ≡ₚ l2 → js_sort cmp l1 = js_sort cmp l2.
Proof.
  intros Hl. apply (StronglySorted_unique (λ x y, cmp x y ≤ 0)).
  - apply js_sort_sorted, _.
  - apply js_sort_sorted, _.
  - by rewrite !js_sort_perm.
Qed.

Lemma js_sort_unique l1 l2 :
  l1 ≡ₚ l2 → StronglySorted (λ x y, cmp x y ≤ 0) l2 → js_sort cmp l1 = l2.
Proof. intros Hl Hs. rewrite (js_sort_perm_eq _ _ Hl). by apply js_sort_id. Qed.

Lemma js_sort_strict l : NoDup l → StronglySorted (λ x y, cmp x y < 0) (js_sort cmp l).
Proof.
  intros Hl. rewrite <-(js_sort_NoDup cmp) in Hl.
  pose proof (js_sort_sorted cmp l) as Hs. induction Hs as [|x l' Hl' IH Hx]; [constructor|].
  apply NoDup_cons in Hl as [Hxl Hl]. constructor; [by apply IH|].
  rewrite Forall_forall in *. intros y Hy. specialize (Hx y Hy).
  destruct (decide (cmp x y = 0)) as [->%cmp_eq|]; [done|lia].
Qed.

Lemma strict_sorted_NoDup l : StronglySorted (λ x y, cmp x y < 0) l → NoDup l.
Proof.
  induction 1 as [|x l _ IH Hx]; [constructor|]. constructor; [|done].
  intros Hin. rewrite Forall_forall in Hx. specialize (Hx x Hin).
  rewrite cmp_refl in Hx. lia.
Qed.
End strict_sort.
