(* ===== verification/JsMap.v ===== *)
(** * JavaScript [Map] and [Set]

    A [Map] remembers the insertion order of its keys: [set] on a present key
    keeps the position and replaces the value, [set] on an absent key appends,
    and iteration follows that order.  Several components of the code base
    iterate over their maps (attestations of a transaction, heartbeats,
    checkpoints, solver states), so the order is part of the model.  A [Set] is
    a [Map] to [unit]. *)

From stdpp Require Import base list option sets.
From S2P Require Import Prelude.

Definition jsmap (K V : Type) : Type := list (K * V).

Section operations.
Context {K V : Type} `{EqDecision K}.
Implicit Types (m : jsmap K V).

Fixpoint map_get (k : K) (m : jsmap K V) : option V :=
  match m with
  | [] => None
  | (k', v) :: m' => if decide (k = k') then Some v else map_get k m'
  end.

Definition map_has (k : K) m : bool := bool_decide (is_Some (map_get k m)).

Fixpoint map_set (k : K) (v : V) (m : jsmap K V) : jsmap K V :=
  match m with
  | [] => [(k, v)]
  | (k', v') :: m' => if decide (k = k') then (k', v) :: m' else (k', v') :: map_set k v m'
  end.

Fixpoint map_delete (k : K) (m : jsmap K V) : jsmap K V :=
  match m with
  | [] => []
  | (k', v') :: m' => if decide (k = k') then m' else (k', v') :: map_delete k m'
  end.

Definition map_keys m : list K := m.*1.
Definition map_values m : list V := m.*2.

(** [new Map(entries)] *)
Definition map_of_entries (l : list (K * V)) : jsmap K V :=
  foldl (λ m kv, map_set kv.1 kv.2 m) [] l.

(** No key occurs twice: every map built with [set] is of this form. *)
Definition map_wf m : Prop := NoDup (map_keys m).
End operations.

Definition jsset (K : Type) : Type := jsmap K unit.
Definition set_add {K} `{EqDecision K} (k : K) (s : jsset K) : jsset K := map_set k tt s.
Definition set_has {K} `{EqDecision K} (k : K) (s : jsset K) : bool := map_has k s.

Section lemmas.
Context {K V : Type} `{EqDecision K}.
Implicit Types (m : jsmap K V).

Lemma map_get_set k k' v m :
  map_get k (map_set k' v m) = if decide (k = k') then Some v else map_get k m.
Proof.
  induction m as [|[k2 v2] m IH]; simpl; [done|].
  destruct (decide (k' = k2)); simpl; repeat case_decide; naive_solver.
Qed.
Lemma map_get_set_eq k v m : map_get k (map_set k v m) = Some v.
Proof. rewrite map_get_set. by case_decide. Qed.
Lemma map_get_set_ne k k' v m : k ≠ k' → map_get k (map_set k' v m) = map_get k m.
Proof. intros. rewrite map_get_set. by case_decide. Qed.

Lemma map_get_Some_elem k v m : map_get k m = Some v → (k, v) ∈ m.
Proof.
  induction m as [|[k2 v2] m IH]; simpl; [done|].
  case_decide; intros; simplify_eq; [left|right; auto].
Qed.

Lemma map_get_None k m : map_get k m = None ↔ k ∉ map_keys m.
Proof.
  induction m as [|[k2 v2] m IH]; simpl; [set_solver|].
  case_decide; set_solver.
Qed.

Lemma map_wf_get k v m : map_wf m → (k, v) ∈ m → map_get k m = Some v.
Proof.
  unfold map_wf. induction m as [|[k2 v2] m IH]; simpl; [set_solver|].
  intros [Hk Hm]%NoDup_cons [?|Hin]%elem_of_cons; simplify_eq; case_decide; auto; subst.
  - done.
  - destruct Hk. by apply (list_elem_of_fmap_2 fst) in Hin.
Qed.

Lemma map_has_true k m : map_has k m = true ↔ is_Some (map_get k m).
Proof. apply bool_decide_eq_true. Qed.
Lemma map_has_false k m : map_has k m = false ↔ map_get k m = None.
Proof. unfold map_has. rewrite bool_decide_eq_false. by rewrite eq_None_not_Some. Qed.

Lemma map_set_fresh k v m : map_get k m = None → map_set k v m = m ++ [(k, v)].
Proof.
  induction m as [|[k2 v2] m IH]; simpl; [done|].
  case_decide; [done|]. intros. by rewrite IH.
Qed.

Lemma map_keys_set k v m :
  map_keys (map_set k v m) = if map_has k m then map_keys m else map_keys m ++ [k].
Proof.
  unfold map_has. induction m as [|[k2 v2] m IH]; simpl; [done|].
  case_decide; simpl; [done|]. rewrite IH. by case_bool_decide.
Qed.

Lemma map_wf_nil : map_wf (V:=V) (K:=K) [].
Proof. constructor. Qed.

Lemma map_wf_set k v m : map_wf m → map_wf (map_set k v m).
Proof.
  unfold map_wf. rewrite map_keys_set. intros.
  destruct (map_has k m) eqn:Hk; [done|].
  apply map_has_false, map_get_None in Hk. apply NoDup_app.
  split; [done|]. split; [set_solver|apply NoDup_singleton].
Qed.

Lemma elem_of_map_set k v k' v' m :
  map_wf m → (k', v') ∈ map_set k v m ↔ (k' = k ∧ v' = v) ∨ (k' ≠ k ∧ (k', v') ∈ m).
Proof.
  intros Hm. split.
  - intros Hin. apply map_wf_get in Hin; [|by apply map_wf_set].
    rewrite map_get_set in Hin. case_decide; simplify_eq; [by left|].
    right. by eauto using map_get_Some_elem.
  - intros [[-> ->]|[Hne Hin]]; apply map_get_Some_elem; rewrite map_get_set;
      case_decide; try done. by apply map_wf_get.
Qed.

Lemma map_get_delete k k' m :
  map_wf m → map_get k (map_delete k' m) = if decide (k = k') then None else map_get k m.
Proof.
  unfold map_wf. induction m as [|[k2 v2] m IH]; simpl; [by case_decide|].
  intros [Hk Hm]%NoDup_cons. specialize (IH Hm).
  destruct (decide (k' = k2)) as [->|Hk']; simpl.
  - case_decide; subst; [by apply map_get_None|done].
  - rewrite IH. repeat case_decide; naive_solver.
Qed.

Lemma map_get_delete_ne k k' m : k ≠ k' → map_get k (map_delete k' m) = map_get k m.
Proof.
  intros Hk. induction m as [|[k2 v2] m IH]; simpl; [done|]. destruct (decide (k' = k2)) as [->|Hk']; simpl.
  - by rewrite decide_False.
  - by rewrite IH.
Qed.

Lemma elem_of_map_delete k k' v m : (k, v) ∈ map_delete k' m → (k, v) ∈ m.
Proof.
  induction m as [|[k2 v2] m IH]; simpl; [done|]. case_decide; [by right|].
  rewrite !elem_of_cons. naive_solver.
Qed.

Lemma map_wf_delete k m : map_wf m → map_wf (map_delete k m).
Proof.
  unfold map_wf, map_keys. induction m as [|[k2 v2] m IH]; simpl; [done|].
  intros [Hk Hm]%NoDup_cons. case_decide; [done|]. simpl. constructor; [|auto].
  intros ([k3 v3] & Heq & Hin%elem_of_map_delete)%list_elem_of_fmap. simpl in Heq. subst.
  apply Hk. by apply (list_elem_of_fmap_2 fst) in Hin.
Qed.

(** Rebuilding a map from its own entries gives the same map. *)
Lemma map_of_entries_id m : map_wf m → map_of_entries m = m.
Proof.
  unfold map_of_entries. cut (∀ m1, map_wf (m1 ++ m) →
    foldl (λ m kv, map_set kv.1 kv.2 m) m1 m = m1 ++ m).
  { intros H Hm. by apply (H []). }
  induction m as [|[k v] m IH]; intros m1 Hm; simpl; [by rewrite app_nil_r|].
  rewrite map_set_fresh.
  - rewrite IH; rewrite <-app_assoc; done.
  - apply map_get_None. unfold map_wf, map_keys in *. rewrite fmap_app, fmap_cons in Hm.
    apply NoDup_app in Hm. set_solver.
Qed.

(** An entry of a map that was built from entries is one of them. *)
Lemma map_of_entries_elem k v (l : list (K * V)) : map_get k (map_of_entries l) = Some v → (k, v) ∈ l.
Proof.
  unfold map_of_entries. cut (∀ m, map_get k (foldl (λ m kv, map_set kv.1 kv.2 m) m l) = Some v → map_get k m = Some v ∨ (k, v) ∈ l).
  { intros H Hl. by destruct (H [] Hl). }
  induction l as [|[k2 v2] l IH]; intros m; cbn [foldl fst snd]; [by left|]. intros [H|H]%IH; [|by do 2 right].
  rewrite map_get_set in H. case_decide; simplify_eq; [right; left|by left].
Qed.

(** Lookup does not depend on the insertion order. *)
Lemma map_get_perm k m m' : map_wf m → m ≡ₚ m' → map_get k m = map_get k m'.
Proof.
  intros Hm Hp. assert (map_wf m') as Hm' by (unfold map_wf, map_keys in *; by rewrite <-Hp).
  destruct (map_get k m) as [v|] eqn:Hk.
  - symmetry. apply map_wf_get; [done|]. rewrite <-Hp. by apply map_get_Some_elem.
  - symmetry. apply map_get_None. apply map_get_None in Hk. unfold map_keys in *. by rewrite <-Hp.
Qed.

(** A loop that adds entries with new keys builds the list of entries. *)
Lemma foldR_entries {E A} (f : jsmap K V → A → result E (jsmap K V)) (entry : A → K * V) (l : list A) :
  NoDup (entry <$> l).*1 →
  (∀ m x, x ∈ l → map_get (entry x).1 m = None → f m x = Ok (map_set (entry x).1 (entry x).2 m)) →
  foldR f [] l = Ok (entry <$> l).
Proof.
  cut (∀ m1 : jsmap K V, NoDup (m1 ++ (entry <$> l)).*1 →
    (∀ m x, x ∈ l → map_get (entry x).1 m = None → f m x = Ok (map_set (entry x).1 (entry x).2 m)) →
    foldR f m1 l = Ok (m1 ++ (entry <$> l))).
  { intros H. apply (H []). }
  induction l as [|x l IH]; intros m1 Hnd Hf; [simpl; by rewrite app_nil_r|].
  assert (map_get (entry x).1 m1 = None) as Hx.
  { apply map_get_None. unfold map_keys. rewrite fmap_cons, fmap_app, fmap_cons in Hnd. apply NoDup_app in Hnd. set_solver. }
  cbn [foldR]. rewrite Hf by (done || by left). cbn [mbind result_bind].
  rewrite map_set_fresh, <-surjective_pairing by done. rewrite fmap_cons in *.
  rewrite (cons_middle (entry x) m1 (entry <$> l)), app_assoc in *. apply IH; [done|]. intros m y Hy. apply Hf. by right.
Qed.
End lemmas.

Create HintDb jsmap.
#[export] Hint Resolve map_wf_nil map_wf_set map_get_set_eq : jsmap.
