(* ===== verification/Bytes.v ===== *)
(** * Byte strings: [packages/canonical/src/bytes.ts] and [fixed.ts]

    A [Uint8Array] is a list of [byte].  Storing a number in a [Uint8Array]
    keeps its low eight bits ([byte_of]); reading gives the unsigned value
    ([val]).  A JavaScript string is the list of its UTF-16 code units.  The
    [DataView] accessors used by [fixed.ts] and by the CBOR codec are the
    big-endian functions [be_bytes] and [be_value]. *)

From Stdlib Require Import Strings.Byte Ascii String.
From stdpp Require Import base list option numbers sorting.
From S2P Require Import Prelude.

#[local] Open Scope Z_scope.

(** ** Bytes and JavaScript strings *)

Definition bytes : Type := list byte.
Definition jsstring : Type := list Z.

Definition val (b : byte) : Z := Z.of_N (Byte.to_N b).
Definition byte_of (z : Z) : byte :=
  match Byte.of_N (Z.to_N (z mod 256)) with Some b => b | None => x00 end.

(** An ASCII literal of the source as a JavaScript string. *)
Definition js (s : string) : jsstring :=
  (λ a : ascii, Z.of_N (N_of_ascii a)) <$> list_ascii_of_string s.

#[export] Instance byte_eq_dec : EqDecision byte := Byte.byte_eq_dec.

Lemma val_range b : 0 ≤ val b < 256.
Proof. unfold val. pose proof (Byte.to_N_bounded b). lia. Qed.

Lemma val_byte_of z : val (byte_of z) = z mod 256.
Proof.
  unfold val, byte_of. pose proof (Z.mod_pos_bound z 256).
  destruct (Byte.of_N _) eqn:E; [apply Byte.to_of_N in E; lia|].
  apply Byte.of_N_None_iff in E. lia.
Qed.

Lemma byte_of_val b : byte_of (val b) = b.
Proof.
  unfold byte_of. rewrite Z.mod_small by apply val_range. unfold val.
  by rewrite N2Z.id, Byte.of_to_N.
Qed.

#[export] Instance val_inj : Inj (=) (=) val.
Proof. intros a b H. by rewrite <-(byte_of_val a), H, byte_of_val. Qed.

(** ** bytes.ts *)

(** [concatBytes(...parts)] *)
Definition concatBytes (parts : list bytes) : bytes := mjoin parts.

(** The loop of [compareBytes]: the sign of the first difference within the
    common length. *)
Fixpoint first_difference (left right : bytes) : option Z :=
  match left, right with
  | l :: left', r :: right' =>
      let difference := val l - val r in
      if negb (difference =? 0) then Some (if difference <? 0 then -1 else 1)
      else first_difference left' right'
  | _, _ => None
  end.

Definition compareBytes (left right : bytes) : Z :=
  match first_difference left right with
  | Some order => order
  | None =>
      if (length left =? length right)%nat then 0
      else if (length left <? length right)%nat then -1 else 1
  end.

Definition equalBytes (left right : bytes) : bool :=
  if negb (length left =? length right)%nat then false
  else
    foldl Z.lor 0 (zip_with (λ l r, Z.lxor (val l) (val r)) left right) =? 0.

(** [byte.toString(16).padStart(2, '0')]: two lower-case digits. *)
Definition hex_digit (n : Z) : Z := if n <? 10 then 48 + n else 87 + n.
Definition hex_byte (b : byte) : jsstring := [hex_digit (val b / 16); hex_digit (val b mod 16)].

Definition bytesToHex (value : bytes) : jsstring := mjoin (hex_byte <$> value).

(** A character of the class [[0-9a-fA-F]], and its value for [parseInt(_, 16)]. *)
Definition hex_value (c : Z) : option Z :=
  if (48 <=? c) && (c <=? 57) then Some (c - 48)
  else if (97 <=? c) && (c <=? 102) then Some (c - 87)
  else if (65 <=? c) && (c <=? 70) then Some (c - 55)
  else None.

Fixpoint hex_pairs (value : jsstring) : option bytes :=
  match value with
  | [] => Some []
  | c1 :: c2 :: value' =>
      match hex_value c1, hex_value c2, hex_pairs value' with
      | Some d1, Some d2, Some rest => Some (byte_of (d1 * 16 + d2) :: rest)
      | _, _, _ => None
      end
  | _ => None
  end.

(** The default [Array.prototype.sort]: strings by UTF-16 code units. *)
Fixpoint compareStrings (a b : jsstring) : Z :=
  match a, b with
  | [], [] => 0
  | [], _ => -1
  | _, [] => 1
  | x :: a', y :: b' => if x <? y then -1 else if y <? x then 1 else compareStrings a' b'
  end.

Definition copyBytes (value : bytes) : bytes := value.

(** ** Big-endian integers ([DataView] accessors with [littleEndian = false]) *)

Fixpoint be_bytes (n : nat) (z : Z) : bytes :=
  match n with
  | O => []
  | S n' => be_bytes n' (z / 256) ++ [byte_of z]
  end.

Definition be_value (l : bytes) : Z := foldl (λ acc b, acc * 256 + val b) 0 l.

Definition MAX_UINT64 : Z := 2 ^ 64 - 1.
Definition MAX_SAFE_INTEGER : Z := 2 ^ 53 - 1.

(** The error codes of [packages/canonical/src/errors.ts] and
    [packages/protocol/src/errors.ts]: the protocol layer rethrows a
    [CanonicalError] under the same code, so the two share one type. *)
Inductive ErrorCode :=
  | CBOR_INVALID | CBOR_NON_CANONICAL | CBOR_LIMIT_EXCEEDED | SCHEMA_INVALID
  | UNSUPPORTED_VERSION | INTEGER_OUT_OF_RANGE | INVALID_UTF8 | INVALID_KEY
  | INVALID_SIGNATURE | DIGEST_MISMATCH | WRONG_DOMAIN | DUPLICATE_TRANSACTION.

#[export] Instance ErrorCode_eq_dec : EqDecision ErrorCode.
Proof. solve_decision. Defined.

Definition canonicalInvariant (condition : bool) (code : ErrorCode) : result ErrorCode unit :=
  ensure condition code.
Definition protocolInvariant (condition : bool) (code : ErrorCode) : result ErrorCode unit :=
  ensure condition code.

(** [hexToBytes]: the regular expression accepts exactly the even-length
    strings of hexadecimal digits. *)
Definition hexToBytes (value : jsstring) : result ErrorCode bytes :=
  match hex_pairs value with
  | Some result => Ok result
  | None => Err SCHEMA_INVALID
  end.

(** ** fixed.ts *)

Definition uint32Bytes (value : Z) : result ErrorCode bytes :=
  canonicalInvariant ((Z.abs value <=? MAX_SAFE_INTEGER) && (0 <=? value) && (value <=? 2 ^ 32 - 1))
    INTEGER_OUT_OF_RANGE ≫= λ _, Ok (be_bytes 4 value).
Definition uint64Bytes (value : Z) : result ErrorCode bytes :=
  canonicalInvariant ((0 <=? value) && (value <=? 2 ^ 64 - 1)) INTEGER_OUT_OF_RANGE ≫= λ _,
  Ok (be_bytes 8 value).
Definition int64Bytes (value : Z) : result ErrorCode bytes :=
  canonicalInvariant ((- 2 ^ 63 <=? value) && (value <=? 2 ^ 63 - 1)) INTEGER_OUT_OF_RANGE ≫= λ _,
  Ok (be_bytes 8 value).
Definition bytesToUint32 (b : bytes) : result ErrorCode Z :=
  canonicalInvariant (length b =? 4)%nat SCHEMA_INVALID ≫= λ _, Ok (be_value b).
Definition bytesToUint64 (b : bytes) : result ErrorCode Z :=
  canonicalInvariant (length b =? 8)%nat SCHEMA_INVALID ≫= λ _, Ok (be_value b).
Definition bytesToInt64 (b : bytes) : result ErrorCode Z :=
  canonicalInvariant (length b =? 8)%nat SCHEMA_INVALID ≫= λ _,
  Ok (if be_value b <? 2 ^ 63 then be_value b else be_value b - 2 ^ 64).

(** ** Lemmas: concatenation *)

Lemma concatBytes_cons x l : concatBytes (x :: l) = x ++ concatBytes l.
Proof. done. Qed.
Lemma concatBytes_nil : concatBytes [] = [].
Proof. done. Qed.

(** ** Lemmas: the byte order *)

Lemma first_difference_Some l r d : first_difference l r = Some d → d = -1 ∨ d = 1.
Proof.
  revert r; induction l as [|x l IH]; intros [|y r]; simpl; try done.
  repeat case_match; naive_solver.
Qed.

Lemma first_difference_app p l r : first_difference (p ++ l) (p ++ r) = first_difference l r.
Proof. induction p as [|x p IH]; [done|]. simpl. by rewrite Z.sub_diag. Qed.

(** [compareBytes] by recursion: the form the proofs use. *)
Lemma compareBytes_nil_l r : compareBytes [] r = if decide (r = []) then 0 else -1.
Proof. by destruct r. Qed.
Lemma compareBytes_nil_r l : compareBytes l [] = if decide (l = []) then 0 else 1.
Proof. by destruct l. Qed.
Lemma compareBytes_cons x l y r :
  compareBytes (x :: l) (y :: r) =
  if val x <? val y then -1 else if val y <? val x then 1 else compareBytes l r.
Proof.
  unfold compareBytes. simpl.
  destruct (Z.eqb_spec (val x - val y) 0), (Z.ltb_spec (val x - val y) 0),
    (Z.ltb_spec (val x) (val y)), (Z.ltb_spec (val y) (val x)); simpl; try lia; done.
Qed.

Ltac byte_cases :=
  repeat match goal with
  | H : context [?a <? ?b] |- _ => destruct (Z.ltb_spec a b)
  | |- context [?a <? ?b] => destruct (Z.ltb_spec a b)
  end; try lia.

Lemma compareBytes_range l r :
  compareBytes l r = -1 ∨ compareBytes l r = 0 ∨ compareBytes l r = 1.
Proof.
  unfold compareBytes. destruct (first_difference l r) eqn:E.
  - apply first_difference_Some in E. naive_solver.
  - repeat case_match; auto.
Qed.

Lemma compareBytes_opp l r : compareBytes r l = - compareBytes l r.
Proof.
  revert r; induction l as [|x l IH]; intros [|y r]; try done.
  rewrite !compareBytes_cons. byte_cases. by rewrite IH.
Qed.

Lemma compareBytes_eq l r : compareBytes l r = 0 ↔ l = r.
Proof.
  revert r; induction l as [|x l IH]; intros [|y r]; try done.
  rewrite compareBytes_cons. split.
  - byte_cases. intros ->%IH. f_equal. apply (inj val). lia.
  - intros [= -> ->]. byte_cases. by apply IH.
Qed.

Lemma compareBytes_refl l : compareBytes l l = 0.
Proof. by apply compareBytes_eq. Qed.

#[export] Instance compareBytes_strict : StrictComparator compareBytes.
Proof.
  split; [split|].
  - apply compareBytes_refl.
  - intros l r. rewrite (compareBytes_opp l r). lia.
  - intros l; induction l as [|x l IH]; intros [|y r] [|z s]; try done.
    rewrite !compareBytes_cons. byte_cases. apply IH.
  - intros l r. apply compareBytes_eq.
Qed.

Lemma lor_fold_zero acc l :
  0 ≤ acc → Forall (λ z, 0 ≤ z) l → foldl Z.lor acc l = 0 ↔ acc = 0 ∧ Forall (λ z, z = 0) l.
Proof.
  intros Hacc Hl. revert acc Hacc.
  induction Hl as [|z l Hz Hl IH]; intros acc Hacc; simpl; [naive_solver|].
  rewrite IH by (by apply Z.lor_nonneg). rewrite Z.lor_eq_0_iff, Forall_cons. naive_solver.
Qed.

Lemma equalBytes_spec l r : equalBytes l r = true ↔ l = r.
Proof.
  unfold equalBytes. destruct (Nat.eqb_spec (length l) (length r)) as [Hlen|Hlen]; simpl;
    [|naive_solver].
  rewrite Z.eqb_eq, lor_fold_zero; [|done|].
  - revert r Hlen; induction l as [|x l IH]; intros [|y r] [=]; simpl; [naive_solver|].
    rewrite Forall_cons, Z.lxor_eq_0_iff. split.
    + intros (_ & Heq%(inj val) & Hall). f_equal; [done|]. by apply IH.
    + intros [= -> ->]. split_and!; [done..|]. by apply IH.
  - apply Forall_forall. intros z. rewrite elem_of_lookup_zip_with.
    intros (i & x & y & -> & _). apply Z.lxor_nonneg.
    pose proof (val_range x); pose proof (val_range y). lia.
Qed.

Lemma equalBytes_refl l : equalBytes l l = true.
Proof. by apply equalBytes_spec. Qed.
Lemma equalBytes_false l r : equalBytes l r = false ↔ l ≠ r.
Proof. rewrite <-not_true_iff_false, equalBytes_spec. done. Qed.

(** Guards of the form [!equalBytes(..)] become (in)equalities. *)
#[export] Instance equalBytes_reflect l r : Decision (equalBytes l r = true).
Proof. apply _. Defined.

(** ** Lemmas: hexadecimal *)

Lemma hex_value_digit n : 0 ≤ n < 16 → hex_value (hex_digit n) = Some n.
Proof.
  intros Hn. unfold hex_value, hex_digit. destruct (Z.ltb_spec n 10).
  - destruct (Z.leb_spec 48 (48 + n)), (Z.leb_spec (48 + n) 57); simpl; try lia. f_equal; lia.
  - destruct (Z.leb_spec (87 + n) 57); try lia. rewrite andb_false_r.
    destruct (Z.leb_spec 97 (87 + n)), (Z.leb_spec (87 + n) 102); simpl; try lia. f_equal; lia.
Qed.

Lemma hexToBytes_bytesToHex b : hexToBytes (bytesToHex b) = Ok b.
Proof.
  unfold hexToBytes. cut (hex_pairs (bytesToHex b) = Some b); [by intros ->|].
  induction b as [|x b IH]; [done|].
  change (bytesToHex (x :: b)) with (hex_digit (val x / 16) :: hex_digit (val x mod 16) :: bytesToHex b).
  pose proof (val_range x). cbn [hex_pairs].
  rewrite !hex_value_digit, IH; [|apply Z.mod_pos_bound; lia|].
  - do 2 f_equal. rewrite Z.mul_comm, <-Z.div_mod by done. apply byte_of_val.
  - split; [apply Z.div_pos; lia|apply Z.div_lt_upper_bound; lia].
Qed.

#[export] Instance bytesToHex_inj : Inj (=) (=) bytesToHex.
Proof.
  intros a b H. pose proof (hexToBytes_bytesToHex a) as Ha.
  rewrite H, hexToBytes_bytesToHex in Ha. by injection Ha.
Qed.

(** ** Lemmas: big-endian integers *)

Lemma be_bytes_length n z : length (be_bytes n z) = n.
Proof. revert z; induction n as [|n IH]; intros z; [done|]. simpl. rewrite length_app, IH. simpl. lia. Qed.

Lemma be_value_snoc l b : be_value (l ++ [b]) = be_value l * 256 + val b.
Proof. unfold be_value. by rewrite foldl_app. Qed.

Lemma be_value_app l r : be_value (l ++ r) = be_value l * 256 ^ Z.of_nat (length r) + be_value r.
Proof.
  induction r as [|b r IH] using rev_ind.
  - rewrite app_nil_r. unfold be_value at 3. simpl. lia.
  - rewrite app_assoc, !be_value_snoc, IH, length_app, Nat2Z.inj_add. simpl.
    rewrite Z.pow_add_r by lia. lia.
Qed.

Lemma be_value_cons b l : be_value (b :: l) = val b * 256 ^ Z.of_nat (length l) + be_value l.
Proof. change (b :: l) with ([b] ++ l). rewrite be_value_app. unfold be_value at 1. simpl. lia. Qed.

Lemma be_value_range l : 0 ≤ be_value l < 256 ^ Z.of_nat (length l).
Proof.
  induction l as [|b l IH] using rev_ind; [done|].
  rewrite be_value_snoc, length_app, Nat2Z.inj_add. simpl. rewrite Z.pow_add_r by lia.
  pose proof (val_range b). lia.
Qed.

Lemma be_value_bytes n z : be_value (be_bytes n z) = z mod 256 ^ Z.of_nat n.
Proof.
  revert z; induction n as [|n IH]; intros z; [by rewrite Z.mod_1_r|].
  simpl be_bytes. rewrite be_value_snoc, IH, val_byte_of.
  rewrite Nat2Z.inj_succ, Z.pow_succ_r by lia.
  rewrite Z.rem_mul_r by lia. lia.
Qed.

Lemma be_bytes_value l : be_bytes (length l) (be_value l) = l.
Proof.
  induction l as [|b l IH] using rev_ind; [done|].
  rewrite length_app, Nat.add_comm, be_value_snoc. simpl. pose proof (val_range b).
  rewrite Z.div_add_l, Z.div_small, Z.add_0_r, IH by lia. do 2 f_equal.
  apply (inj val). rewrite val_byte_of, Z.add_comm, Z.mod_add, Z.mod_small; lia.
Qed.

Lemma be_bytes_value_n n l : length l = n → be_bytes n (be_value l) = l.
Proof. intros <-. apply be_bytes_value. Qed.

#[global] Arguments be_bytes : simpl never.
#[global] Arguments be_value : simpl never.

(** ** fixed.ts round trips *)

(** Appending bits below a shifted number is addition. *)
Lemma lor_shiftl_pow a n x : 0 ≤ n → 0 ≤ x < 2 ^ n → Z.lor (Z.shiftl a n) x = a * 2 ^ n + x.
Proof.
  intros Hn Hx. assert (Z.land (Z.shiftl a n) x = 0) as Hland.
  { apply Z.bits_inj'. intros i Hi. rewrite Z.land_spec, Z.bits_0, Z.shiftl_spec by done.
    destruct (Z_lt_le_dec i n).
    - by rewrite Z.testbit_neg_r by lia.
    - rewrite <-(Z.mod_small x (2 ^ n)) by lia. by rewrite Z.mod_pow2_bits_high, andb_false_r by lia. }
  pose proof (Zbitwise.Z.add_lor_land (Z.shiftl a n) x) as H.
  rewrite Hland, Z.shiftl_mul_pow2 in H by lia. rewrite Z.shiftl_mul_pow2 by lia. lia.
Qed.

Lemma lor_shiftl_add acc x : 0 ≤ x < 256 → Z.lor (Z.shiftl acc 8) x = acc * 256 + x.
Proof. intros Hx. by apply (lor_shiftl_pow acc 8). Qed.

Lemma fold_shift_be_value b :
  foldl (λ acc b, Z.lor (Z.shiftl acc 8) (val b)) 0 b = be_value b.
Proof.
  induction b as [|x b IH] using rev_ind; [done|].
  rewrite foldl_app, be_value_snoc. simpl. rewrite IH. apply lor_shiftl_add, val_range.
Qed.

Lemma be_bytes_inj n i i' : 0 ≤ i < 256 ^ Z.of_nat n → 0 ≤ i' < 256 ^ Z.of_nat n → be_bytes n i = be_bytes n i' → i = i'.
Proof. intros Hi Hi' H. apply (f_equal be_value) in H. by rewrite !be_value_bytes, !Z.mod_small in H. Qed.

Lemma uint32_roundtrip value b : uint32Bytes value = Ok b → bytesToUint32 b = Ok value.
Proof.
  unfold uint32Bytes, canonicalInvariant. intros ?; inv_ok. subst.
  unfold bytesToUint32. rewrite be_bytes_length. simpl. rewrite be_value_bytes, Z.mod_small; [done|].
  lia.
Qed.

Lemma uint64_roundtrip value b : uint64Bytes value = Ok b → bytesToUint64 b = Ok value.
Proof.
  unfold uint64Bytes, canonicalInvariant. intros ?; inv_ok. subst.
  unfold bytesToUint64. rewrite be_bytes_length. simpl. rewrite be_value_bytes, Z.mod_small; [done|].
  lia.
Qed.

Lemma int64_roundtrip value b : int64Bytes value = Ok b → bytesToInt64 b = Ok value.
Proof.
  unfold int64Bytes, canonicalInvariant. intros ?; inv_ok. subst.
  unfold bytesToInt64, canonicalInvariant. rewrite be_bytes_length.
  cbn [Nat.eqb ensure mbind result_bind]. rewrite be_value_bytes.
  change (256 ^ Z.of_nat 8) with (2 ^ 64). apply (f_equal Ok).
  destruct (Z_lt_le_dec value 0).
  - replace (value mod 2 ^ 64) with (value + 2 ^ 64).
    + destruct (Z.ltb_spec (value + 2 ^ 64) (2 ^ 63)); lia.
    + apply Z.mod_unique with (-1); lia.
  - rewrite Z.mod_small by lia. destruct (Z.ltb_spec value (2 ^ 63)); lia.
Qed.
