(* ===== verification/Text.v ===== *)
(** * Text: [TextEncoder], [TextDecoder] and the canonical text functions

    [utf8] and [decodeUtf8] of [packages/canonical/src/bytes.ts] over the WHATWG
    encoder and the fatal decoder they use.  A JavaScript string is a list of
    UTF-16 code units ([jsstring]).  [TextEncoder.encode] replaces an unpaired
    surrogate by U+FFFD.  [new TextDecoder('utf-8', { fatal: true })] rejects
    every malformed sequence and, since [ignoreBOM] defaults to [false], drops
    one leading U+FEFF. *)

From Stdlib Require Import Strings.Byte Ascii String.
From stdpp Require Import base list option numbers.
From S2P Require Import Prelude Bytes.

#[local] Open Scope Z_scope.

(** ** UTF-16 *)

Definition is_high (u : Z) : bool := (0xD800 <=? u) && (u <=? 0xDBFF).
Definition is_low (u : Z) : bool := (0xDC00 <=? u) && (u <=? 0xDFFF).

(** Code units to scalar values; an unpaired surrogate becomes U+FFFD. *)
Fixpoint scalars (s : jsstring) : list Z :=
  match s with
  | [] => []
  | u :: s' =>
      if is_high u then
        match s' with
        | v :: s'' =>
            if is_low v then (0x10000 + (u - 0xD800) * 0x400 + (v - 0xDC00)) :: scalars s''
            else 0xFFFD :: scalars s'
        | [] => [0xFFFD]
        end
      else if is_low u then 0xFFFD :: scalars s'
      else u :: scalars s'
  end.

(** A scalar value as one or two code units. *)
Definition units_of (c : Z) : jsstring :=
  if c <? 0x10000 then [c]
  else [0xD800 + (c - 0x10000) / 0x400; 0xDC00 + (c - 0x10000) mod 0x400].

(** ** UTF-8 *)

Definition utf8_scalar (c : Z) : bytes :=
  if c <? 0x80 then [byte_of c]
  else if c <? 0x800 then [byte_of (0xC0 + c / 64); byte_of (0x80 + c mod 64)]
  else if c <? 0x10000 then
    [byte_of (0xE0 + c / 4096); byte_of (0x80 + c / 64 mod 64); byte_of (0x80 + c mod 64)]
  else
    [byte_of (0xF0 + c / 262144); byte_of (0x80 + c / 4096 mod 64);
     byte_of (0x80 + c / 64 mod 64); byte_of (0x80 + c mod 64)].

(** [new TextEncoder().encode(s)] *)
Definition textEncode (s : jsstring) : bytes := mjoin (utf8_scalar <$> scalars s).

Definition between (lo z hi : Z) : bool := (lo <=? z) && (z <=? hi).
Definition continuation (b : byte) : bool := between 0x80 (val b) 0xBF.

(** The range of the second byte depends on the first: it excludes overlong
    forms, surrogates and values above U+10FFFF. *)
Definition second_lo (v : Z) : Z := if v =? 0xE0 then 0xA0 else if v =? 0xF0 then 0x90 else 0x80.
Definition second_hi (v : Z) : Z := if v =? 0xED then 0x9F else if v =? 0xF4 then 0x8F else 0xBF.
Definition second_ok (b0 b1 : byte) : bool :=
  between (second_lo (val b0)) (val b1) (second_hi (val b0)).

Fixpoint decode_scalars (b : bytes) : option (list Z) :=
  match b with
  | [] => Some []
  | b0 :: r0 =>
      if val b0 <? 0x80 then cons (val b0) <$> decode_scalars r0
      else if between 0xC2 (val b0) 0xDF then
        match r0 with
        | b1 :: r1 =>
            if continuation b1 then
              cons ((val b0 - 0xC0) * 64 + (val b1 - 0x80)) <$> decode_scalars r1
            else None
        | _ => None
        end
      else if between 0xE0 (val b0) 0xEF then
        match r0 with
        | b1 :: b2 :: r2 =>
            if second_ok b0 b1 && continuation b2 then
              cons ((val b0 - 0xE0) * 4096 + (val b1 - 0x80) * 64 + (val b2 - 0x80))
                <$> decode_scalars r2
            else None
        | _ => None
        end
      else if between 0xF0 (val b0) 0xF4 then
        match r0 with
        | b1 :: b2 :: b3 :: r3 =>
            if second_ok b0 b1 && continuation b2 && continuation b3 then
              cons ((val b0 - 0xF0) * 262144 + (val b1 - 0x80) * 4096
                    + (val b2 - 0x80) * 64 + (val b3 - 0x80)) <$> decode_scalars r3
            else None
        | _ => None
        end
      else None
  end.

Definition BOM : bytes := [byte_of 0xEF; byte_of 0xBB; byte_of 0xBF].

Definition strip_bom (b : bytes) : bytes :=
  if decide (take 3 b = BOM) then drop 3 b else b.

(** [new TextDecoder('utf-8', { fatal: true }).decode(b)]; [None] is a throw. *)
Definition textDecode (b : bytes) : option jsstring :=
  (λ cs, mjoin (units_of <$> cs)) <$> decode_scalars (strip_bom b).

(** ** bytes.ts *)

Definition utf8 (value : jsstring) : result ErrorCode bytes :=
  let encoded := textEncode value in
  match textDecode encoded with
  | Some decoded => if decide (decoded = value) then Ok encoded else Err INVALID_UTF8
  | None => Err INVALID_UTF8
  end.

Definition decodeUtf8 (value : bytes) : result ErrorCode jsstring :=
  match textDecode value with
  | Some decoded => Ok decoded
  | None => Err INVALID_UTF8
  end.

(** ** Specification vocabulary *)

(** A Unicode scalar value. *)
Definition scalar_ok (c : Z) : bool := between 0 c 0xD7FF || between 0xE000 c 0x10FFFF.

(** A string is well formed when its surrogates are paired. *)
Fixpoint well_formed (s : jsstring) : bool :=
  match s with
  | [] => true
  | u :: s' =>
      if is_high u then match s' with v :: s'' => is_low v && well_formed s'' | [] => false end
      else negb (is_low u) && between 0 u 0xFFFF && well_formed s'
  end.

(** ** Lemmas *)

Lemma between_spec lo z hi : between lo z hi = true ↔ lo ≤ z ≤ hi.
Proof. unfold between. lia. Qed.

Ltac text_bools :=
  unfold scalar_ok, continuation, second_ok, is_high, is_low, between in *;
  repeat match goal with
  | H : context [?a <=? ?b] |- _ => destruct (Z.leb_spec a b); cbn [andb orb negb] in H
  | H : context [?a <? ?b] |- _ => destruct (Z.ltb_spec a b); cbn [andb orb negb] in H
  | |- context [?a <=? ?b] => destruct (Z.leb_spec a b); cbn [andb orb negb]
  | |- context [?a <? ?b] => destruct (Z.ltb_spec a b); cbn [andb orb negb]
  end; try discriminate; try lia.

Ltac byte_eq :=
  apply (inj val); rewrite val_byte_of; Z.to_euclidean_division_equations; lia.

(** One encoded scalar value, by the length of its encoding. *)
Lemma decode_one_1 b0 : val b0 < 0x80 → utf8_scalar (val b0) = [b0] ∧ scalar_ok (val b0) = true.
Proof.
  intros. pose proof (val_range b0). unfold utf8_scalar. split; [|text_bools; done].
  destruct (Z.ltb_spec (val b0) 0x80); [|lia]. f_equal. byte_eq.
Qed.

Lemma decode_one_2 b0 b1 :
  0xC2 ≤ val b0 ≤ 0xDF → 0x80 ≤ val b1 ≤ 0xBF →
  let c := (val b0 - 0xC0) * 64 + (val b1 - 0x80) in
  utf8_scalar c = [b0; b1] ∧ scalar_ok c = true.
Proof.
  intros H0 H1 c. assert (0x80 ≤ c < 0x800) by lia. split; [|text_bools; done].
  unfold utf8_scalar. destruct (Z.ltb_spec c 0x80), (Z.ltb_spec c 0x800); try lia.
  subst c. repeat f_equal; byte_eq.
Qed.

Lemma second_lo_hi v : second_lo v = 0x80 ∨ second_lo v = 0xA0 ∨ second_lo v = 0x90.
Proof. unfold second_lo. repeat case_match; auto. Qed.

Lemma decode_one_3 b0 b1 b2 :
  0xE0 ≤ val b0 ≤ 0xEF → second_lo (val b0) ≤ val b1 ≤ second_hi (val b0) → 0x80 ≤ val b2 ≤ 0xBF →
  let c := (val b0 - 0xE0) * 4096 + (val b1 - 0x80) * 64 + (val b2 - 0x80) in
  utf8_scalar c = [b0; b1; b2] ∧ scalar_ok c = true.
Proof.
  intros H0 H1 H2 c. unfold second_lo, second_hi in H1.
  destruct (Z.eqb_spec (val b0) 0xE0), (Z.eqb_spec (val b0) 0xF0), (Z.eqb_spec (val b0) 0xED),
    (Z.eqb_spec (val b0) 0xF4); try lia.
  all: assert (0x800 ≤ c < 0x10000 ∧ (c < 0xD800 ∨ 0xE000 ≤ c)) by lia.
  all: split; [|unfold scalar_ok, between; lia].
  all: unfold utf8_scalar; destruct (Z.ltb_spec c 0x80), (Z.ltb_spec c 0x800),
    (Z.ltb_spec c 0x10000); try lia; subst c; repeat f_equal; byte_eq.
Qed.

Lemma decode_one_4 b0 b1 b2 b3 :
  0xF0 ≤ val b0 ≤ 0xF4 → second_lo (val b0) ≤ val b1 ≤ second_hi (val b0) →
  0x80 ≤ val b2 ≤ 0xBF → 0x80 ≤ val b3 ≤ 0xBF →
  let c := (val b0 - 0xF0) * 262144 + (val b1 - 0x80) * 4096 + (val b2 - 0x80) * 64 + (val b3 - 0x80) in
  utf8_scalar c = [b0; b1; b2; b3] ∧ scalar_ok c = true.
Proof.
  intros H0 H1 H2 H3 c. unfold second_lo, second_hi in H1.
  destruct (Z.eqb_spec (val b0) 0xE0), (Z.eqb_spec (val b0) 0xF0), (Z.eqb_spec (val b0) 0xED),
    (Z.eqb_spec (val b0) 0xF4); try lia.
  all: assert (0x10000 ≤ c ≤ 0x10FFFF) by lia.
  all: split; [|unfold scalar_ok, between; lia].
  all: unfold utf8_scalar; destruct (Z.ltb_spec c 0x80), (Z.ltb_spec c 0x800),
    (Z.ltb_spec c 0x10000); try lia; subst c; repeat f_equal; byte_eq.
Qed.

(** The decoder accepts only the encoding of the scalar values it returns. *)
Lemma decode_scalars_sound b cs :
  decode_scalars b = Some cs → mjoin (utf8_scalar <$> cs) = b ∧ Forall (λ c, scalar_ok c = true) cs.
Proof.
  remember (length b) as n eqn:Hn. assert (length b ≤ n)%nat as Hle by lia. clear Hn.
  revert b cs Hle. induction n as [|n IH]; intros [|b0 r0] cs Hle; simpl in *;
    try (intros [= <-]; by split; [|constructor]); [lia|].
  assert (∀ r c cs', (length r ≤ n)%nat → cons c <$> decode_scalars r = Some cs' →
    scalar_ok c = true → mjoin (utf8_scalar <$> cs') = utf8_scalar c ++ r ∧
      Forall (λ c, scalar_ok c = true) cs') as Hstep.
  { intros r c cs' Hr Hc Hok. apply fmap_Some in Hc as (cs2 & Hcs2 & ->).
    destruct (IH r cs2) as [HA HB]; [done..|]. split; [|by constructor].
    change (utf8_scalar c ++ mjoin (utf8_scalar <$> cs2) = utf8_scalar c ++ r). by rewrite HA. }
  destruct (Z.ltb_spec (val b0) 0x80) as [H0|H0].
  { intros Hd. destruct (decode_one_1 b0) as [HA HB]; [lia|].
    apply Hstep in Hd; [|lia|done]. by rewrite HA in Hd. }
  destruct (between 0xC2 (val b0) 0xDF) eqn:E2; [apply between_spec in E2|clear E2].
  { destruct r0 as [|b1 r1]; [done|]. destruct (continuation b1) eqn:E; [|done].
    apply between_spec in E. intros Hd. destruct (decode_one_2 b0 b1) as [HA HB]; [lia..|].
    apply Hstep in Hd; [|simpl in *; lia|done]. by rewrite HA in Hd. }
  destruct (between 0xE0 (val b0) 0xEF) eqn:E3; [apply between_spec in E3|clear E3].
  { destruct r0 as [|b1 [|b2 r2]]; [done..|].
    destruct (second_ok b0 b1) eqn:E; [|done]. destruct (continuation b2) eqn:E'; [|done].
    apply between_spec in E, E'. intros Hd.
    destruct (decode_one_3 b0 b1 b2) as [HA HB]; [lia..|].
    apply Hstep in Hd; [|simpl in *; lia|done]. by rewrite HA in Hd. }
  destruct (between 0xF0 (val b0) 0xF4) eqn:E4; [apply between_spec in E4|done].
  destruct r0 as [|b1 [|b2 [|b3 r3]]]; [done..|].
  destruct (second_ok b0 b1) eqn:E; [|done]. destruct (continuation b2) eqn:E'; [|done].
  destruct (continuation b3) eqn:E''; [|done].
  apply between_spec in E, E', E''. intros Hd.
  destruct (decode_one_4 b0 b1 b2 b3) as [HA HB]; [lia..|].
  apply Hstep in Hd; [|simpl in *; lia|done]. by rewrite HA in Hd.
Qed.

(** ... and it inverts the encoder on scalar values: one lemma per length, in
    terms of the six-bit groups of the scalar value. *)
Lemma decode_group_2 x y r :
  2 ≤ x < 32 → 0 ≤ y < 64 →
  decode_scalars (byte_of (0xC0 + x) :: byte_of (0x80 + y) :: r) =
  cons (x * 64 + y) <$> decode_scalars r.
Proof.
  intros Hx Hy. cbn [decode_scalars]. unfold continuation, between.
  rewrite !val_byte_of, !Z.mod_small by lia.
  replace (192 + x <? 128) with false by lia.
  replace ((194 <=? 192 + x) && (192 + x <=? 223)) with true by lia.
  replace ((128 <=? 128 + y) && (128 + y <=? 191)) with true by lia.
  do 2 f_equal. lia.
Qed.

Lemma decode_group_3 x y z r :
  0 ≤ x < 16 → 0 ≤ y < 64 → 0 ≤ z < 64 → (x = 0 → 32 ≤ y) → (x = 13 → y < 32) →
  decode_scalars (byte_of (0xE0 + x) :: byte_of (0x80 + y) :: byte_of (0x80 + z) :: r) =
  cons (x * 4096 + y * 64 + z) <$> decode_scalars r.
Proof.
  intros Hx Hy Hz Hlow Hsur. cbn [decode_scalars].
  unfold continuation, second_ok, between, second_lo, second_hi.
  rewrite !val_byte_of, !Z.mod_small by lia.
  replace (224 + x <? 128) with false by lia.
  replace ((194 <=? 224 + x) && (224 + x <=? 223)) with false by lia.
  replace ((224 <=? 224 + x) && (224 + x <=? 239)) with true by lia.
  replace ((if 224 + x =? 224 then 160 else if 224 + x =? 240 then 144 else 128) <=? 128 + y)
    with true by (destruct (Z.eqb_spec (224 + x) 224), (Z.eqb_spec (224 + x) 240); lia).
  replace (128 + y <=? (if 224 + x =? 237 then 159 else if 224 + x =? 244 then 143 else 191))
    with true by (destruct (Z.eqb_spec (224 + x) 237), (Z.eqb_spec (224 + x) 244); lia).
  replace ((128 <=? 128 + z) && (128 + z <=? 191)) with true by lia.
  cbn [andb]. do 2 f_equal. lia.
Qed.

Lemma decode_group_4 w x y z r :
  0 ≤ w < 5 → 0 ≤ x < 64 → 0 ≤ y < 64 → 0 ≤ z < 64 → (w = 0 → 16 ≤ x) → (w = 4 → x < 16) →
  decode_scalars (byte_of (0xF0 + w) :: byte_of (0x80 + x) :: byte_of (0x80 + y)
                  :: byte_of (0x80 + z) :: r) =
  cons (w * 262144 + x * 4096 + y * 64 + z) <$> decode_scalars r.
Proof.
  intros Hw Hx Hy Hz Hlow Hhigh. cbn [decode_scalars].
  unfold continuation, second_ok, between, second_lo, second_hi.
  rewrite !val_byte_of, !Z.mod_small by lia.
  replace (240 + w <? 128) with false by lia.
  replace ((194 <=? 240 + w) && (240 + w <=? 223)) with false by lia.
  replace ((224 <=? 240 + w) && (240 + w <=? 239)) with false by lia.
  replace ((240 <=? 240 + w) && (240 + w <=? 244)) with true by lia.
  replace ((if 240 + w =? 224 then 160 else if 240 + w =? 240 then 144 else 128) <=? 128 + x)
    with true by (destruct (Z.eqb_spec (240 + w) 224), (Z.eqb_spec (240 + w) 240); lia).
  replace (128 + x <=? (if 240 + w =? 237 then 159 else if 240 + w =? 244 then 143 else 191))
    with true by (destruct (Z.eqb_spec (240 + w) 237), (Z.eqb_spec (240 + w) 244); lia).
  replace ((128 <=? 128 + y) && (128 + y <=? 191)) with true by lia.
  replace ((128 <=? 128 + z) && (128 + z <=? 191)) with true by lia.
  cbn [andb]. do 2 f_equal. lia.
Qed.

Lemma decode_scalars_cons c r :
  scalar_ok c = true → decode_scalars (utf8_scalar c ++ r) = cons c <$> decode_scalars r.
Proof.
  intros Hc. assert (0 ≤ c ≤ 0x10FFFF ∧ (c < 0xD800 ∨ 0xE000 ≤ c)) as Hr
    by (unfold scalar_ok, between in Hc; lia). clear Hc.
  unfold utf8_scalar.
  destruct (Z.ltb_spec c 0x80); [|destruct (Z.ltb_spec c 0x800); [|destruct (Z.ltb_spec c 0x10000)]];
    cbn [app].
  - cbn [decode_scalars]. rewrite val_byte_of, Z.mod_small by lia.
    destruct (Z.ltb_spec c 0x80); [done|lia].
  - rewrite decode_group_2 by (Z.to_euclidean_division_equations; lia).
    do 2 f_equal. Z.to_euclidean_division_equations; lia.
  - rewrite decode_group_3 by (Z.to_euclidean_division_equations; lia).
    do 2 f_equal. Z.to_euclidean_division_equations; lia.
  - rewrite decode_group_4 by (Z.to_euclidean_division_equations; lia).
    do 2 f_equal. Z.to_euclidean_division_equations; lia.
Qed.

Lemma decode_scalars_complete cs :
  Forall (λ c, scalar_ok c = true) cs → decode_scalars (mjoin (utf8_scalar <$> cs)) = Some cs.
Proof.
  induction 1 as [|c cs Hc _ IH]; [done|].
  change (mjoin (utf8_scalar <$> (c :: cs))) with (utf8_scalar c ++ mjoin (utf8_scalar <$> cs)).
  by rewrite decode_scalars_cons, IH.
Qed.

(** UTF-16: scalar values to code units and back. *)
Lemma scalars_units_cons c s : scalar_ok c = true → scalars (units_of c ++ s) = c :: scalars s.
Proof.
  intros Hc. assert (0 ≤ c ≤ 0x10FFFF ∧ (c < 0xD800 ∨ 0xE000 ≤ c)) as Hr
    by (unfold scalar_ok, between in Hc; lia). clear Hc. unfold units_of.
  destruct (Z.ltb_spec c 0x10000); cbn [app scalars]; unfold is_high, is_low.
  - replace ((55296 <=? c) && (c <=? 56319)) with false by lia.
    by replace ((56320 <=? c) && (c <=? 57343)) with false by lia.
  - set (q := (c - 65536) / 1024). set (m := (c - 65536) mod 1024).
    assert (0 ≤ q < 1024 ∧ 0 ≤ m < 1024 ∧ c = 65536 + q * 1024 + m) as (Hq & Hm & Hcq)
      by (subst q m; Z.to_euclidean_division_equations; lia).
    replace ((55296 <=? 55296 + q) && (55296 + q <=? 56319)) with true by lia.
    replace ((56320 <=? 56320 + m) && (56320 + m <=? 57343)) with true by lia.
    f_equal. lia.
Qed.

Lemma scalars_units cs :
  Forall (λ c, scalar_ok c = true) cs → scalars (mjoin (units_of <$> cs)) = cs.
Proof.
  induction 1 as [|c cs Hc _ IH]; [done|].
  change (mjoin (units_of <$> (c :: cs))) with (units_of c ++ mjoin (units_of <$> cs)).
  by rewrite scalars_units_cons, IH.
Qed.

(** A well-formed string is the code units of its scalar values. *)
Lemma well_formed_scalars s :
  well_formed s = true →
  mjoin (units_of <$> scalars s) = s ∧ Forall (λ c, scalar_ok c = true) (scalars s).
Proof.
  remember (length s) as n eqn:Hn. assert (length s ≤ n)%nat as Hle by lia. clear Hn.
  revert s Hle. induction n as [|n IH]; intros [|u s] Hle; simpl in *;
    try (intros; by split; [|constructor]); [lia|].
  destruct (is_high u) eqn:Hu.
  - destruct s as [|v s]; [done|]. intros [Hv Hs]%andb_true_iff. rewrite Hv.
    destruct (IH s) as [HA HB]; [simpl in *; lia|done|].
    unfold is_high, is_low in *.
    split; [|constructor; [unfold scalar_ok, between; lia|done]].
    set (c := 65536 + _ + _).
    change (units_of c ++ mjoin (units_of <$> scalars s) = [u; v] ++ s). rewrite HA. f_equal.
    subst c. unfold units_of. destruct (Z.ltb_spec (65536 + (u - 55296) * 1024 + (v - 56320)) 65536);
      [lia|]. repeat f_equal; Z.to_euclidean_division_equations; lia.
  - intros [[Hl Hb]%andb_true_iff Hs]%andb_true_iff. apply negb_true_iff in Hl. rewrite Hl.
    destruct (IH s) as [HA HB]; [lia|done|]. unfold is_high, is_low, between in *.
    split; [|constructor; [unfold scalar_ok, between; lia|done]].
    change (units_of u ++ mjoin (units_of <$> scalars s) = [u] ++ s). rewrite HA. f_equal.
    unfold units_of. destruct (Z.ltb_spec u 65536); [done|lia].
Qed.

Lemma well_formed_units cs :
  Forall (λ c, scalar_ok c = true) cs → well_formed (mjoin (units_of <$> cs)) = true.
Proof.
  induction 1 as [|c cs Hc _ IH]; [done|].
  change (mjoin (units_of <$> (c :: cs))) with (units_of c ++ mjoin (units_of <$> cs)).
  unfold scalar_ok, between in Hc. unfold units_of at 1.
  destruct (Z.ltb_spec c 0x10000); cbn [app well_formed]; unfold is_high, is_low, between; rewrite IH.
  - replace ((55296 <=? c) && (c <=? 56319)) with false by lia. lia.
  - replace ((55296 <=? _) && _) with true by (Z.to_euclidean_division_equations; lia).
    Z.to_euclidean_division_equations; lia.
Qed.

(** ** The byte-order mark *)

Lemma BOM_scalar : BOM = utf8_scalar 0xFEFF.
Proof. reflexivity. Qed.

Lemma strip_bom_ne b : take 3 b ≠ BOM → strip_bom b = b.
Proof. intros. unfold strip_bom. by case_decide. Qed.

Lemma strip_bom_app r : strip_bom (BOM ++ r) = r.
Proof. unfold strip_bom. by case_decide. Qed.

Lemma textEncode_bom s :
  well_formed s = true → take 3 (textEncode s) = BOM → ∃ s', s = 0xFEFF :: s'.
Proof.
  intros [Hs Hok]%well_formed_scalars Hbom. unfold textEncode in Hbom.
  pose proof (decode_scalars_complete _ Hok) as Hdec.
  rewrite <-(take_drop 3 (mjoin _)), Hbom, BOM_scalar, decode_scalars_cons in Hdec by done.
  apply fmap_Some in Hdec as (cs & _ & Hcs). rewrite Hcs in Hs.
  exists (mjoin (units_of <$> cs)). by rewrite <-Hs.
Qed.

Lemma textDecode_encode s :
  well_formed s = true → textDecode (textEncode s) = if decide (head s = Some 0xFEFF) then Some (tail s) else Some s.
Proof.
  intros Hwf. pose proof (well_formed_scalars s Hwf) as [Hs Hok]. unfold textDecode.
  destruct (decide (head s = Some 0xFEFF)) as [Hhd|Hhd].
  - destruct s as [|u s]; [done|]. injection Hhd as ->.
    change (textEncode (0xFEFF :: s)) with (BOM ++ textEncode s).
    change (well_formed s = true) in Hwf. apply well_formed_scalars in Hwf as [Hs' Hok'].
    rewrite strip_bom_app. unfold textEncode. rewrite decode_scalars_complete by done.
    simpl. by rewrite Hs'.
  - rewrite strip_bom_ne; [|intros [s' ->]%textEncode_bom; done].
    unfold textEncode. rewrite decode_scalars_complete by done. simpl. by rewrite Hs.
Qed.

(** ** utf8 and decodeUtf8 *)

Lemma utf8_Ok s b : utf8 s = Ok b ↔ b = textEncode s ∧ textDecode (textEncode s) = Some s.
Proof. unfold utf8. destruct (textDecode _); [case_decide|]; naive_solver. Qed.

Lemma textDecode_well_formed b s : textDecode b = Some s → well_formed s = true.
Proof.
  unfold textDecode. intros (cs & [_ Hok]%decode_scalars_sound & ->)%fmap_Some.
  by apply well_formed_units.
Qed.

Lemma utf8_decodeUtf8 s b : utf8 s = Ok b → decodeUtf8 b = Ok s.
Proof. intros [-> H]%utf8_Ok. unfold decodeUtf8. by rewrite H. Qed.

Lemma decodeUtf8_utf8 b s : decodeUtf8 b = Ok s → take 3 b ≠ BOM → utf8 s = Ok b.
Proof.
  unfold decodeUtf8. intros Hd Hbom. destruct (textDecode b) as [s'|] eqn:E; [|done].
  injection Hd as ->. apply utf8_Ok.
  assert (textEncode s = b) as Henc.
  { unfold textDecode in E. rewrite strip_bom_ne in E by done.
    apply fmap_Some in E as (cs & [Hb Hok]%decode_scalars_sound & ->).
    unfold textEncode. by rewrite scalars_units. }
  by rewrite Henc.
Qed.

Lemma utf8_inj s1 s2 b : utf8 s1 = Ok b → utf8 s2 = Ok b → s1 = s2.
Proof.
  intros H1%utf8_decodeUtf8 H2%utf8_decodeUtf8. congruence.
Qed.

(** The strings [utf8] accepts: paired surrogates, and no leading U+FEFF (the
    decoder it checks against drops that character). *)
Lemma utf8_domain s :
  (∃ b, utf8 s = Ok b) ↔ well_formed s = true ∧ head s ≠ Some 0xFEFF.
Proof.
  split.
  - intros [b [-> Hd]%utf8_Ok]. pose proof (textDecode_well_formed _ _ Hd) as Hwf.
    split; [done|]. intros Hhd. rewrite textDecode_encode in Hd by done.
    destruct (decide _); [|done]. destruct s as [|u s]; [done|].
    apply (inj Some), (f_equal length) in Hd. simpl in Hd. lia.
  - intros [Hwf Hhd]. exists (textEncode s). apply utf8_Ok. split; [done|].
    rewrite textDecode_encode by done. by case_decide.
Qed.

Lemma utf8_error s e : utf8 s = Err e → e = INVALID_UTF8.
Proof. unfold utf8. repeat case_match; congruence. Qed.
