(* ===== verification/Cbor.v ===== *)
(** * Deterministic CBOR: [packages/canonical/src/cbor.ts]

    The encoder [encodeCanonicalCbor], the bounded strict decoder (class
    [Decoder], here the functions of the remaining input) and
    [assertCanonicalCbor].  The decoder's offset is represented by the suffix
    of the input that is still to be read. *)

From Stdlib Require Import Strings.Byte.
From stdpp Require Import base list option numbers sorting.
From S2P Require Import Prelude JsMap Bytes Text.

#[local] Open Scope Z_scope.

(** ** Values *)

Inductive CborMapKey :=
  | KInt (z : Z)
  | KText (s : jsstring)
  | KBytes (b : bytes).

#[local] Set Warnings "-register-all".
Inductive CborValue :=
  | CNull
  | CBool (b : bool)
  | CInt (z : Z)
  | CText (s : jsstring)
  | CBytes (b : bytes)
  | CArray (l : list CborValue)
  | CMap (m : list (CborMapKey * CborValue)).

#[export] Instance CborMapKey_eq_dec : EqDecision CborMapKey.
Proof. solve_decision. Defined.

Definition key_value (k : CborMapKey) : CborValue :=
  match k with KInt z => CInt z | KText s => CText s | KBytes b => CBytes b end.

(** [map.set(key, value)] on a JavaScript [Map]: integers and strings are the
    same key when they are equal, a fresh [Uint8Array] is never the same key. *)
Definition cbor_map_set (k : CborMapKey) (v : CborValue) (m : list (CborMapKey * CborValue)) :
    list (CborMapKey * CborValue) :=
  match k with KBytes _ => m ++ [(k, v)] | _ => map_set k v m end.

Record DecodeLimits := mkDecodeLimits {
  maxBytes : Z;
  maxDepth : Z;
  maxArrayItems : Z;
  maxMapItems : Z;
  maxTextBytes : Z;
  maxBlobBytes : Z;
}.

Definition DEFAULT_DECODE_LIMITS : DecodeLimits := {|
    maxBytes := 16 * 1024 * 1024;
    maxDepth := 64;
    maxArrayItems := 1000000;
    maxMapItems := 100000;
    maxTextBytes := 4 * 1024 * 1024;
    maxBlobBytes := 16 * 1024 * 1024;
    |}.

Definition POSITIVE_BIGNUM_TAG : Z := 2.
Definition NEGATIVE_BIGNUM_TAG : Z := 3.

Definition zlen {A} (l : list A) : Z := Z.of_nat (length l).

(** ** The encoder *)

Definition initial_byte (major additional : Z) : byte :=
  byte_of (Z.lor (Z.shiftl major 5) additional).

Definition encodeHead (major value : Z) : result ErrorCode bytes :=
  canonicalInvariant ((0 <=? value) && (value <=? MAX_UINT64)) INTEGER_OUT_OF_RANGE ≫= λ _,
  if value <? 24 then Ok [initial_byte major value]
  else if value <=? 0xff then Ok [initial_byte major 24; byte_of value]
  else if value <=? 0xffff then
    Ok [initial_byte major 25; byte_of (Z.shiftr value 8); byte_of (Z.land value 0xff)]
  else if value <=? 0xffffffff then Ok (initial_byte major 26 :: be_bytes 4 value)
  else Ok (initial_byte major 27 :: be_bytes 8 value).

(** [for (let remaining = value; remaining > 0n; remaining >>= 8n)
       octets.push(Number(remaining & 0xffn))] *)
Fixpoint octets (fuel : nat) (remaining : Z) : bytes :=
  match fuel with
  | O => []
  | S fuel' =>
      if 0 <? remaining then byte_of (Z.land remaining 0xff) :: octets fuel' (Z.shiftr remaining 8)
      else []
  end.

(** One iteration per octet: [log2 value / 8 + 1] of them. *)
Definition octets_fuel (value : Z) : nat := Z.to_nat (Z.log2 value / 8 + 1).

Definition magnitudeBytes (value : Z) : result ErrorCode bytes :=
  canonicalInvariant (MAX_UINT64 <? value) INTEGER_OUT_OF_RANGE ≫= λ _,
  Ok (reverse (octets (octets_fuel value) value)).

Definition encodeBigint (value : Z) : result ErrorCode bytes :=
  let negative := value <? 0 in
  let magnitude := if negative then -1 - value else value in
  if magnitude <=? MAX_UINT64 then encodeHead (if negative then 1 else 0) magnitude
  else
    b ← magnitudeBytes magnitude;
    tag ← encodeHead 6 (if negative then NEGATIVE_BIGNUM_TAG else POSITIVE_BIGNUM_TAG);
    head ← encodeHead 2 (zlen b);
    Ok (concatBytes [tag; head; b]).

Definition encodeText (value : jsstring) : result ErrorCode bytes :=
  b ← utf8 value; head ← encodeHead 3 (zlen b); Ok (concatBytes [head; b]).

Definition encodeByteString (value : bytes) : result ErrorCode bytes :=
  head ← encodeHead 2 (zlen value); Ok (concatBytes [head; value]).

(** [encodeCanonicalCbor(key)] for a map key. *)
Definition encodeKey (k : CborMapKey) : result ErrorCode bytes :=
  match k with
  | KInt z => encodeBigint z
  | KText s => encodeText s
  | KBytes b => encodeByteString b
  end.

(** Length first, then bytewise. *)
Definition compareKeys (a b : bytes) : Z :=
  if (length a =? length b)%nat then compareBytes a b else zlen a - zlen b.

Definition compareEntries (a b : bytes * bytes) : Z := compareKeys a.1 b.1.

(** The loop that rejects two equal neighbouring keys. *)
Fixpoint check_duplicates (entries : list (bytes * bytes)) : result ErrorCode unit :=
  match entries with
  | a :: ((b :: _) as entries') =>
      canonicalInvariant (negb (equalBytes a.1 b.1)) CBOR_NON_CANONICAL ≫= λ _,
      check_duplicates entries'
  | _ => Ok tt
  end.

Definition encodeEntries (entries : list (bytes * bytes)) : result ErrorCode bytes :=
  let sorted := js_sort compareEntries entries in
  check_duplicates sorted ≫= λ _,
  head ← encodeHead 5 (zlen sorted);
  Ok (concatBytes (head :: mjoin ((λ e, [e.1; e.2]) <$> sorted))).

Fixpoint encodeCanonicalCbor (value : CborValue) : result ErrorCode bytes :=
  match value with
  | CNull => Ok [byte_of 0xf6]
  | CBool false => Ok [byte_of 0xf4]
  | CBool true => Ok [byte_of 0xf5]
  | CInt z => encodeBigint z
  | CText s => encodeText s
  | CBytes b => encodeByteString b
  | CArray l =>
      head ← encodeHead 4 (zlen l);
      items ← mapR encodeCanonicalCbor l;
      Ok (concatBytes (head :: items))
  | CMap m =>
      entries ← mapR (λ e, match e with (key, item) =>
        k ← encodeKey key; v ← encodeCanonicalCbor item; Ok (k, v) end) m;
      encodeEntries entries
  end.

(** ** The decoder *)

Definition decoder (A : Type) : Type := bytes → result ErrorCode (A * bytes).

Definition read_byte : decoder byte := λ rest,
  match rest with b :: rest' => Ok (b, rest') | [] => Err CBOR_INVALID end.

Definition read_bytes (size : Z) : decoder bytes := λ rest,
  canonicalInvariant ((Z.abs size <=? MAX_SAFE_INTEGER) && (0 <=? size) && (size <=? zlen rest))
    CBOR_INVALID ≫= λ _,
  Ok (take (Z.to_nat size) rest, drop (Z.to_nat size) rest).

Definition read_uint (size : Z) : decoder Z := λ rest,
  '(b, rest') ← read_bytes size rest; Ok (be_value b, rest').

Definition shortest (minimum : Z) (size : Z) : decoder Z := λ rest,
  '(v, rest') ← read_uint size rest;
  canonicalInvariant (minimum <=? v) CBOR_NON_CANONICAL ≫= λ _, Ok (v, rest').

Definition argument (additional : Z) : decoder Z := λ rest,
  if additional <? 24 then Ok (additional, rest)
  else if additional =? 24 then shortest 24 1 rest
  else if additional =? 25 then shortest 0x100 2 rest
  else if additional =? 26 then shortest 0x10000 4 rest
  else if additional =? 27 then shortest 0x100000000 8 rest
  else if additional =? 31 then Err CBOR_NON_CANONICAL
  else Err CBOR_INVALID.

Section Decoder.
Context (limits : DecodeLimits).

Definition bignum (tag depth : Z) : decoder Z := λ rest,
  canonicalInvariant ((tag =? POSITIVE_BIGNUM_TAG) || (tag =? NEGATIVE_BIGNUM_TAG)) CBOR_INVALID ≫= λ _,
  canonicalInvariant (depth <? maxDepth limits) CBOR_LIMIT_EXCEEDED ≫= λ _,
  '(initial, rest) ← read_byte rest;
  let major := Z.shiftr (val initial) 5 in
  let additional := Z.land (val initial) 31 in
  canonicalInvariant (major =? 2) CBOR_INVALID ≫= λ _,
  '(size, rest) ← argument additional rest;
  canonicalInvariant (size <=? MAX_SAFE_INTEGER) CBOR_LIMIT_EXCEEDED ≫= λ _,
  canonicalInvariant (size <=? maxBlobBytes limits) CBOR_LIMIT_EXCEEDED ≫= λ _,
  '(b, rest) ← read_bytes size rest;
  canonicalInvariant ((8 <? zlen b) && match b with b0 :: _ => negb (val b0 =? 0) | [] => true end)
  CBOR_NON_CANONICAL ≫= λ _,
  let magnitude := foldl (λ acc b, Z.lor (Z.shiftl acc 8) (val b)) 0 b in
  canonicalInvariant (MAX_UINT64 <? magnitude) CBOR_NON_CANONICAL ≫= λ _,
  Ok (if tag =? POSITIVE_BIGNUM_TAG then magnitude else -1 - magnitude, rest).

(** The loops of [value], over the recursive call [this.value(depth + 1)]. *)
Section loops.
Context (value : decoder CborValue).

Fixpoint decode_items (n : nat) : decoder (list CborValue) := λ rest,
  match n with
  | O => Ok ([], rest)
  | S n' =>
    '(item, rest) ← value rest;
    '(items, rest) ← decode_items n' rest;
    Ok (item :: items, rest)
  end.

Definition as_key (v : CborValue) : result ErrorCode CborMapKey :=
  match v with
  | CInt z => Ok (KInt z)
  | CText s => Ok (KText s)
  | CBytes b => Ok (KBytes b)
  | _ => Err CBOR_INVALID
  end.

Definition key_follows (previous : option bytes) (encoded : bytes) : bool :=
  match previous with
  | None => true
  | Some p =>
    if (length p =? length encoded)%nat then compareBytes p encoded <? 0
    else (length p <? length encoded)%nat
  end.

Fixpoint decode_entries (n : nat) (previous : option bytes)
  (map : list (CborMapKey * CborValue)) : decoder (list (CborMapKey * CborValue)) := λ rest,
  match n with
  | O => Ok (map, rest)
  | S n' =>
    '(key, rest1) ← value rest;
    k ← as_key key;
    let encoded := take (length rest - length rest1) rest in
    canonicalInvariant (key_follows previous encoded) CBOR_NON_CANONICAL ≫= λ _,
    '(item, rest2) ← value rest1;
    decode_entries n' (Some encoded) (cbor_map_set k item map) rest2
  end.
End loops.

(** [value] after the argument of the head has been read; [value] is the
    recursive call [this.value(depth + 1)]. *)
Definition decode_major (value : decoder CborValue) (depth major arg : Z) : decoder CborValue := λ rest,
  if major =? 6 then '(z, rest) ← bignum arg (depth + 1) rest; Ok (CInt z, rest)
  else if major =? 0 then Ok (CInt arg, rest)
  else if major =? 1 then Ok (CInt (-1 - arg), rest)
  else
    canonicalInvariant (arg <=? MAX_SAFE_INTEGER) CBOR_LIMIT_EXCEEDED ≫= λ _,
    if major =? 2 then
      canonicalInvariant (arg <=? maxBlobBytes limits) CBOR_LIMIT_EXCEEDED ≫= λ _,
      '(b, rest) ← read_bytes arg rest; Ok (CBytes b, rest)
    else if major =? 3 then
      canonicalInvariant (arg <=? maxTextBytes limits) CBOR_LIMIT_EXCEEDED ≫= λ _,
      '(b, rest) ← read_bytes arg rest; s ← decodeUtf8 b; Ok (CText s, rest)
    else if major =? 4 then
      canonicalInvariant (arg <=? maxArrayItems limits) CBOR_LIMIT_EXCEEDED ≫= λ _,
      '(items, rest) ← decode_items value (Z.to_nat arg) rest; Ok (CArray items, rest)
    else if major =? 5 then
      canonicalInvariant (arg <=? maxMapItems limits) CBOR_LIMIT_EXCEEDED ≫= λ _,
      '(map, rest) ← decode_entries value (Z.to_nat arg) None [] rest; Ok (CMap map, rest)
    else Err CBOR_INVALID.

(** [levels] bounds the recursion: a call at depth [d] has [maxDepth + 1 - d]
    of them, so they run out exactly when the depth check fails. *)
Fixpoint decode_value (levels : nat) (depth : Z) : decoder CborValue := λ rest,
  match levels with
  | O => Err CBOR_LIMIT_EXCEEDED
  | S levels' =>
      canonicalInvariant (depth <=? maxDepth limits) CBOR_LIMIT_EXCEEDED ≫= λ _,
      '(initial, rest) ← read_byte rest;
      let major := Z.shiftr (val initial) 5 in
      let additional := Z.land (val initial) 31 in
      if major =? 7 then
        if additional =? 20 then Ok (CBool false, rest)
        else if additional =? 21 then Ok (CBool true, rest)
        else if additional =? 22 then Ok (CNull, rest)
        else Err CBOR_INVALID
      else
        '(arg, rest) ← argument additional rest;
        decode_major (decode_value levels' (depth + 1)) depth major arg rest
  end.

Definition decode_levels : nat := Z.to_nat (maxDepth limits + 1).

Definition decodeCanonicalCbor (input : bytes) : result ErrorCode CborValue :=
  canonicalInvariant (zlen input <=? maxBytes limits) CBOR_LIMIT_EXCEEDED ≫= λ _,
  '(value, rest) ← decode_value decode_levels 0 input;
  canonicalInvariant (zlen rest =? 0) CBOR_INVALID ≫= λ _, Ok value.

Definition assertCanonicalCbor (input : bytes) : result ErrorCode CborValue :=
  value ← decodeCanonicalCbor input;
  encoded ← encodeCanonicalCbor value;
  canonicalInvariant (equalBytes encoded input) CBOR_NON_CANONICAL ≫= λ _, Ok value.
End Decoder.
