(* ===== verification/CborProofs.v ===== *)
(** * Proofs about the CBOR codec

    The round trip (what the encoder writes, the bounded decoder reads back),
    the strictness of the decoder (what it accepts is what the encoder writes),
    and the independence of the encoding from the insertion order of maps. *)

From Stdlib Require Import Strings.Byte Zbitwise.
From stdpp Require Import base list option numbers sorting sets.
From S2P Require Import Prelude JsMap Bytes Text Cbor.

#[local] Open Scope Z_scope.

(** ** Induction on values *)

Lemma CborValue_nested_ind (P : CborValue → Prop) :
  P CNull → (∀ b, P (CBool b)) → (∀ z, P (CInt z)) → (∀ s, P (CText s)) → (∀ b, P (CBytes b)) →
  (∀ l, Forall P l → P (CArray l)) →
  (∀ m, Forall (λ e, P e.2) m → P (CMap m)) →
  ∀ v, P v.
Proof.
  intros Hn Hb Hi Ht Hy Ha Hm. fix IH 1.
  intros [|b|z|s|b|l|m]; [exact Hn|apply Hb|apply Hi|apply Ht|apply Hy| |].
  - apply Ha. induction l as [|v l IHl]; constructor; [apply IH|apply IHl].
  - apply Hm. induction m as [|[k v] m IHm]; constructor; [apply IH|apply IHm].
Qed.

(** ** Heads *)

Lemma initial_byte_table :
  forallb (λ major, forallb (λ a,
    (Z.shiftr (val (initial_byte major a)) 5 =? major) &&
    (Z.land (val (initial_byte major a)) 31 =? a) &&
    (val (initial_byte major a) =? 32 * major + a)) (seqZ 0 32)) (seqZ 0 8) = true.
Proof. vm_compute. reflexivity. Qed.

Lemma initial_byte_spec major a :
  0 ≤ major < 8 → 0 ≤ a < 32 →
  Z.shiftr (val (initial_byte major a)) 5 = major ∧ Z.land (val (initial_byte major a)) 31 = a ∧
  val (initial_byte major a) = 32 * major + a.
Proof.
  intros Hm Ha. pose proof initial_byte_table as T.
  rewrite forallb_forall in T. specialize (T major). rewrite forallb_forall in T.
  rewrite <-list_elem_of_In, elem_of_seqZ in T.
  specialize (T ltac:(lia) a). rewrite <-list_elem_of_In, elem_of_seqZ in T.
  specialize (T ltac:(lia)). lia.
Qed.

(** Every byte is the initial byte of its major type and additional information. *)
Lemma initial_byte_split b :
  let major := Z.shiftr (val b) 5 in let a := Z.land (val b) 31 in
  0 ≤ major < 8 ∧ 0 ≤ a < 32 ∧ b = initial_byte major a.
Proof.
  pose proof (val_range b). rewrite Z.shiftr_div_pow2 by lia.
  change 31 with (Z.ones 5). rewrite Z.land_ones by lia.
  change (2 ^ 5) with 32. simpl.
  assert (0 ≤ val b / 32 < 8 ∧ 0 ≤ val b mod 32 < 32) as [Hm Ha]
    by (Z.to_euclidean_division_equations; lia).
  split_and!; [lia..|]. apply (inj val).
  destruct (initial_byte_spec _ _ Hm Ha) as (_ & _ & ->). by rewrite <-Z.div_mod.
Qed.

Lemma be_bytes_2 v : [byte_of (Z.shiftr v 8); byte_of (Z.land v 0xff)] = be_bytes 2 v.
Proof.
  rewrite Z.shiftr_div_pow2 by lia. change 0xff with (Z.ones 8). rewrite Z.land_ones by lia.
  change (2 ^ 8) with 256. unfold be_bytes. simpl. do 2 f_equal.
  apply (inj val). rewrite !val_byte_of. by rewrite Z.mod_mod.
Qed.

(** The additional information and the trailing bytes of a head. *)
Definition head_form (v a : Z) (t : bytes) : Prop :=
  (0 ≤ v < 24 ∧ a = v ∧ t = []) ∨
  (24 ≤ v < 0x100 ∧ a = 24 ∧ t = be_bytes 1 v) ∨
  (0x100 ≤ v < 0x10000 ∧ a = 25 ∧ t = be_bytes 2 v) ∨
  (0x10000 ≤ v < 0x100000000 ∧ a = 26 ∧ t = be_bytes 4 v) ∨
  (0x100000000 ≤ v ≤ MAX_UINT64 ∧ a = 27 ∧ t = be_bytes 8 v).

Lemma encodeHead_form major v h :
  encodeHead major v = Ok h ↔ ∃ a t, head_form v a t ∧ h = initial_byte major a :: t.
Proof.
  unfold encodeHead, head_form, canonicalInvariant. split.
  - intros ?; inv_ok. unfold MAX_UINT64 in *. rewrite be_bytes_2 in *.
    repeat case_match; inv_ok; subst; eexists _, _; (split; [|reflexivity]).
    + left. split_and!; (lia || done).
    + right; left. split_and!; (lia || done).
    + do 2 right; left. split_and!; (lia || done).
    + do 3 right; left. split_and!; (lia || done).
    + do 4 right. split_and!; (lia || done).
  - rewrite be_bytes_2. intros (a & t & Hf & ->). unfold MAX_UINT64 in *.
    destruct Hf as [(?&->&->)|[(?&->&->)|[(?&->&->)|[(?&->&->)|(?&->&->)]]]].
    all: assert ((0 <=? v) && (v <=? 2 ^ 64 - 1) = true) as -> by lia; cbn [ensure mbind result_bind].
    all: destruct (Z.ltb_spec v 24); try lia; try done.
    all: destruct (Z.leb_spec v 0xff); try lia; try done.
    all: destruct (Z.leb_spec v 0xffff); try lia; try done.
    all: destruct (Z.leb_spec v 0xffffffff); try lia; try done.
Qed.

Lemma head_form_range v a t : head_form v a t → 0 ≤ a < 32 ∧ 0 ≤ v ≤ MAX_UINT64.
Proof.
  unfold head_form, MAX_UINT64.
  intros [(?&->&_)|[(?&->&_)|[(?&->&_)|[(?&->&_)|(?&->&_)]]]]; try lia.
Qed.

Lemma read_bytes_app b rest size :
  size = zlen b → size ≤ MAX_SAFE_INTEGER → read_bytes size (b ++ rest) = Ok (b, rest).
Proof.
  intros -> Hs. unfold read_bytes, canonicalInvariant, zlen in *. rewrite length_app.
  rewrite !(proj2 (Z.leb_le _ _)) by lia. cbn [ensure mbind result_bind]. by rewrite Nat2Z.id, take_app_length, drop_app_length.
Qed.

Lemma read_bytes_Ok size rest b rest' :
  read_bytes size rest = Ok (b, rest') → rest = b ++ rest' ∧ size = zlen b ∧ size ≤ MAX_SAFE_INTEGER.
Proof.
  unfold read_bytes, canonicalInvariant. intros ?; inv_ok. simplify_eq. unfold zlen in *.
  split_and!; [by rewrite take_drop| |lia]. rewrite length_take. lia.
Qed.

Lemma shortest_app minimum n v rest :
  minimum ≤ v < 256 ^ Z.of_nat n → 0 ≤ v → (n ≤ 8)%nat →
  shortest minimum (Z.of_nat n) (be_bytes n v ++ rest) = Ok (v, rest).
Proof.
  intros Hv H0 Hn. unfold shortest, read_uint, canonicalInvariant.
  rewrite read_bytes_app by (unfold zlen, MAX_SAFE_INTEGER; rewrite ?be_bytes_length; lia).
  cbn [mbind result_bind]. rewrite be_value_bytes, Z.mod_small by lia.
  assert ((minimum <=? v) = true) as -> by lia. done.
Qed.

Lemma shortest_Ok minimum n rest v rest' :
  shortest minimum (Z.of_nat n) rest = Ok (v, rest') →
  rest = be_bytes n v ++ rest' ∧ minimum ≤ v < 256 ^ Z.of_nat n.
Proof.
  unfold shortest, read_uint, canonicalInvariant. intros ?; inv_ok. simplify_eq.
  match goal with H : read_bytes _ _ = Ok (?b', _) |- _ =>
    apply read_bytes_Ok in H as (-> & Hlen & _); rename b' into b end.
  assert (length b = n) as <- by (unfold zlen in *; lia).
  pose proof (be_value_range b). split; [by rewrite be_bytes_value|]. lia.
Qed.

(** A head read back, and the only head that reads as a given argument. *)
Lemma argument_app v a t rest : head_form v a t → argument a (t ++ rest) = Ok (v, rest).
Proof.
  unfold head_form, argument, MAX_UINT64.
  intros [(?&->&->)|[(?&->&->)|[(?&->&->)|[(?&->&->)|(?&->&->)]]]].
  - destruct (Z.ltb_spec v 24); [done|lia].
  - apply (shortest_app 24 1); lia.
  - apply (shortest_app 0x100 2); lia.
  - apply (shortest_app 0x10000 4); lia.
  - apply (shortest_app 0x100000000 8); lia.
Qed.

Lemma argument_Ok a rest v rest' :
  0 ≤ a < 32 → argument a rest = Ok (v, rest') → ∃ t, head_form v a t ∧ rest = t ++ rest'.
Proof.
  intros Ha. unfold argument, head_form, MAX_UINT64.
  destruct (Z.ltb_spec a 24).
  { intros; inv_ok; simplify_eq. exists []. split; [left; split_and!; (lia||done)|done]. }
  destruct (Z.eqb_spec a 24) as [->|].
  { intros [-> Hv]%(shortest_Ok 24 1). eexists. split; [|done]. right; left. split_and!; (lia||done). }
  destruct (Z.eqb_spec a 25) as [->|].
  { intros [-> Hv]%(shortest_Ok 0x100 2). eexists. split; [|done]. do 2 right; left. split_and!; (lia||done). }
  destruct (Z.eqb_spec a 26) as [->|].
  { intros [-> Hv]%(shortest_Ok 0x10000 4). eexists. split; [|done]. do 3 right; left. split_and!; (lia||done). }
  destruct (Z.eqb_spec a 27) as [->|].
  { intros [-> Hv]%(shortest_Ok 0x100000000 8). eexists. split; [|done]. do 4 right. split_and!; (lia||done). }
  by destruct (a =? 31).
Qed.

(** ** Bignums *)

Lemma octets_fuel_enough v : 0 < v → v < 256 ^ Z.of_nat (octets_fuel v).
Proof.
  intros Hv. unfold octets_fuel. pose proof (Z.log2_nonneg v).
  rewrite Z2Nat.id by (Z.to_euclidean_division_equations; lia).
  change 256 with (2 ^ 8). rewrite <-Z.pow_mul_r by (Z.to_euclidean_division_equations; lia).
  apply Z.log2_lt_pow2; [done|]. Z.to_euclidean_division_equations; lia.
Qed.

Lemma octets_step fuel r :
  0 < r → octets (S fuel) r = byte_of r :: octets fuel (r / 256).
Proof.
  intros Hr. cbn [octets]. destruct (Z.ltb_spec 0 r); [|lia].
  rewrite Z.shiftr_div_pow2 by lia. change 0xff with (Z.ones 8). rewrite Z.land_ones by lia.
  change (2 ^ 8) with 256. f_equal. apply (inj val). by rewrite !val_byte_of, Z.mod_mod.
Qed.

Lemma octets_zero fuel : octets fuel 0 = [].
Proof. by destruct fuel. Qed.

Definition lead_nonzero (b : bytes) : Prop := match b with [] => True | b0 :: _ => val b0 ≠ 0 end.

Lemma lead_nonzero_pos b : lead_nonzero b → b ≠ [] → 0 < be_value b.
Proof.
  destruct b as [|b0 b]; [done|]. simpl. intros H0 _. rewrite be_value_cons.
  pose proof (val_range b0). pose proof (be_value_range b).
  assert (0 < 256 ^ Z.of_nat (length b)) by (apply Z.pow_pos_nonneg; lia). nia.
Qed.

(** The minimal big-endian form is unique: the loop recovers it. *)
Lemma octets_be_value fuel b :
  lead_nonzero b → be_value b < 256 ^ Z.of_nat fuel → reverse (octets fuel (be_value b)) = b.
Proof.
  revert b; induction fuel as [|fuel IH]; intros b Hlead Hlt.
  - destruct b as [|b0 b]; [done|]. apply lead_nonzero_pos in Hlead; [|done]. simpl in Hlt. lia.
  - destruct b as [|x b _] using rev_ind; [done|].
    pose proof (val_range x).
    assert (0 < be_value (b ++ [x])) by (apply lead_nonzero_pos; [done|by destruct b]).
    rewrite octets_step, be_value_snoc, reverse_cons in * by done.
    rewrite Nat2Z.inj_succ, Z.pow_succ_r in Hlt by lia.
    rewrite Z.div_add_l, Z.div_small, Z.add_0_r by lia.
    rewrite IH; [| |lia].
    + do 2 f_equal. apply (inj val). rewrite val_byte_of, Z.add_comm, Z.mod_add, Z.mod_small by lia. done.
    + by destruct b.
Qed.

Lemma octets_spec fuel r :
  0 ≤ r < 256 ^ Z.of_nat fuel →
  be_value (reverse (octets fuel r)) = r ∧ lead_nonzero (reverse (octets fuel r)).
Proof.
  revert r; induction fuel as [|fuel IH]; intros r Hr.
  - simpl in Hr. assert (r = 0) as -> by lia. done.
  - destruct (decide (r = 0)) as [->|Hr0]; [by rewrite octets_zero|].
    rewrite octets_step, reverse_cons by lia.
    rewrite Nat2Z.inj_succ, Z.pow_succ_r in Hr by lia.
    destruct (IH (r / 256)) as [IHv IHl]; [Z.to_euclidean_division_equations; lia|].
    rewrite be_value_snoc, IHv, val_byte_of.
    split; [Z.to_euclidean_division_equations; lia|].
    destruct (reverse (octets fuel (r / 256))) eqn:E; [|done]. simpl.
    unfold be_value in IHv; simpl in IHv. rewrite val_byte_of.
    Z.to_euclidean_division_equations; lia.
Qed.

Lemma magnitudeBytes_Ok m b :
  magnitudeBytes m = Ok b ↔ MAX_UINT64 < m ∧ be_value b = m ∧ lead_nonzero b ∧ (8 < length b)%nat.
Proof.
  unfold magnitudeBytes, canonicalInvariant, MAX_UINT64. split.
  - intros ?; inv_ok; subst. pose proof (octets_fuel_enough m).
    destruct (octets_spec (octets_fuel m) m) as [Hv Hl]; [lia|].
    split_and!; [lia|done|done|].
    pose proof (be_value_range (reverse (octets (octets_fuel m) m))) as Hrange. rewrite Hv in Hrange.
    destruct (decide (8 < length (reverse (octets (octets_fuel m) m)))%nat) as [|Hn]; [done|].
    assert (256 ^ Z.of_nat (length (reverse (octets (octets_fuel m) m))) ≤ 256 ^ 8); [|lia].
    apply Z.pow_le_mono_r; lia.
  - intros (Hm & <- & Hl & Hlen).
    rewrite (proj2 (Z.ltb_lt _ _)) by lia. cbn [ensure mbind result_bind]. f_equal.
    apply octets_be_value; [done|]. apply octets_fuel_enough. lia.
Qed.

(** ** Key order *)

#[export] Instance compareKeys_strict : StrictComparator compareKeys.
Proof.
  unfold compareKeys, zlen. split; [split|].
  - intros x. rewrite Nat.eqb_refl. apply compareBytes_refl.
  - intros x y. rewrite (Nat.eqb_sym (length y)).
    destruct (Nat.eqb_spec (length x) (length y)); [apply cmp_flip|lia].
  - intros x y z.
    destruct (Nat.eqb_spec (length x) (length y)), (Nat.eqb_spec (length y) (length z)),
      (Nat.eqb_spec (length x) (length z)); try lia. apply cmp_trans.
  - intros x y. destruct (Nat.eqb_spec (length x) (length y)); [apply compareBytes_eq|lia].
Qed.

Lemma compareEntries_comparator : Comparator compareEntries.
Proof. apply (comparator_on fst compareKeys). Qed.

(** Rejecting equal neighbours of a sorted list makes it strictly sorted. *)
Lemma check_duplicates_strict entries u :
  StronglySorted (λ a b, compareEntries a b ≤ 0) entries → check_duplicates entries = Ok u →
  StronglySorted (λ a b, compareEntries a b < 0) entries.
Proof.
  pose proof compareEntries_comparator as Hcmp.
  induction 1 as [|a l Hl IH Ha]; [constructor|].
  destruct l as [|b l]; [repeat constructor|]. cbn [check_duplicates]. unfold canonicalInvariant.
  intros ?; inv_ok. specialize (IH ltac:(done)). constructor; [done|].
  assert (compareEntries a b < 0) as Hab.
  { apply Forall_inv in Ha. destruct (decide (compareEntries a b = 0)) as [E|]; [|lia].
    apply (cmp_eq a.1 b.1) in E. apply negb_true_iff, equalBytes_false in H0. done. }
  constructor; [done|]. apply Forall_inv_tail in Ha.
  inversion Hl as [|? ? _ Hb]; subst. eapply Forall_impl; [exact Hb|].
  intros c Hc. by eapply (cmp_lt_trans compareEntries a b c).
Qed.

Lemma strict_check_duplicates entries :
  StronglySorted (λ a b, compareEntries a b < 0) entries → check_duplicates entries = Ok tt.
Proof.
  induction 1 as [|a l Hl IH Ha]; [done|]. destruct l as [|b l]; [done|].
  cbn [check_duplicates]. apply Forall_inv in Ha.
  assert (equalBytes a.1 b.1 = false) as ->; [|done].
  apply equalBytes_false. intros E. unfold compareEntries in Ha. rewrite E, cmp_refl in Ha. lia.
Qed.

Lemma key_follows_lt p e : key_follows (Some p) e = true ↔ compareKeys p e < 0.
Proof.
  unfold key_follows, compareKeys, zlen. destruct (Nat.eqb_spec (length p) (length e)).
  - apply Z.ltb_lt.
  - rewrite Nat.ltb_lt. lia.
Qed.

Lemma cbor_map_set_fresh k v m : k ∉ m.*1 → cbor_map_set k v m = m ++ [(k, v)].
Proof.
  intros Hk. unfold cbor_map_set.
  destruct k; [apply map_set_fresh; by apply map_get_None..|done].
Qed.

(** ** The value the decoder reads back

    Maps come back in the order of their encoded keys. *)

Definition key_bytes (k : CborMapKey) : bytes :=
  match encodeKey k with Ok b => b | Err _ => [] end.

Fixpoint canonical_form (v : CborValue) : CborValue :=
  match v with
  | CArray l => CArray (canonical_form <$> l)
  | CMap m =>
      CMap ((λ e, e.2) <$> js_sort (λ a b, compareKeys a.1 b.1)
        ((λ e, match e with (k, item) => (key_bytes k, (k, canonical_form item)) end) <$> m))
  | _ => v
  end.

(** Within the decoder's limits. *)
Section fits.
Context (limits : DecodeLimits).

Definition int_fits (depth z : Z) : bool :=
  let magnitude := if z <? 0 then -1 - z else z in
  (magnitude <=? MAX_UINT64) ||
  ((depth + 1 <? maxDepth limits) &&
    match magnitudeBytes magnitude with
    | Ok b => (zlen b <=? maxBlobBytes limits) && (zlen b <=? MAX_SAFE_INTEGER)
    | Err _ => false
    end).

Definition text_fits (s : jsstring) : bool :=
  match utf8 s with
  | Ok b => (zlen b <=? maxTextBytes limits) && (zlen b <=? MAX_SAFE_INTEGER)
  | Err _ => false
  end.

Definition blob_fits (b : bytes) : bool :=
  (zlen b <=? maxBlobBytes limits) && (zlen b <=? MAX_SAFE_INTEGER).

Definition key_fits (depth : Z) (k : CborMapKey) : bool :=
  (depth <=? maxDepth limits) &&
  match k with KInt z => int_fits depth z | KText s => text_fits s | KBytes b => blob_fits b end.

Fixpoint fits (depth : Z) (v : CborValue) : bool :=
  (depth <=? maxDepth limits) &&
  match v with
  | CNull | CBool _ => true
  | CInt z => int_fits depth z
  | CText s => text_fits s
  | CBytes b => blob_fits b
  | CArray l =>
    (zlen l <=? maxArrayItems limits) && (zlen l <=? MAX_SAFE_INTEGER) &&
    forallb (fits (depth + 1)) l
  | CMap m =>
    (zlen m <=? maxMapItems limits) && (zlen m <=? MAX_SAFE_INTEGER) &&
    forallb (λ e, match e with (k, item) => key_fits (depth + 1) k && fits (depth + 1) item end) m
  end.
End fits.

(** ** Reading back a head *)

Lemma decode_value_head limits levels depth major v a t rest :
  head_form v a t → 0 ≤ major < 7 → depth ≤ maxDepth limits →
  decode_value limits (S levels) depth ((initial_byte major a :: t) ++ rest) =
  decode_major limits (decode_value limits levels (depth + 1)) depth major v rest.
Proof.
  intros Hf Hm Hd. pose proof (head_form_range _ _ _ Hf) as [Ha _].
  destruct (initial_byte_spec major a) as (Hmaj & Hadd & _); [lia..|].
  cbn [decode_value app read_byte]. unfold canonicalInvariant.
  rewrite (proj2 (Z.leb_le depth _)) by done. cbn [ensure mbind result_bind].
  rewrite Hmaj, Hadd, (argument_app v a t rest) by done.
  destruct (Z.eqb_spec major 7); [lia|done].
Qed.

Ltac head_of H :=
  let a := fresh "a" in let t := fresh "t" in let Hf := fresh "Hf" in
  apply encodeHead_form in H as (a & t & Hf & ->).

Lemma bignum_app limits tag depth m b h rest :
  tag = 2 ∨ tag = 3 → depth < maxDepth limits → magnitudeBytes m = Ok b →
  zlen b ≤ maxBlobBytes limits → zlen b ≤ MAX_SAFE_INTEGER → encodeHead 2 (zlen b) = Ok h →
  bignum limits tag depth (h ++ b ++ rest) = Ok (if tag =? 2 then m else -1 - m, rest).
Proof.
  intros Htag Hd (Hm & Hv & Hlead & Hlen)%magnitudeBytes_Ok Hblob Hsafe Hh. head_of Hh.
  pose proof (head_form_range _ _ _ Hf) as [Ha _].
  destruct (initial_byte_spec 2 a) as (Hmaj & Hadd & _); [lia..|].
  unfold bignum, canonicalInvariant, POSITIVE_BIGNUM_TAG, NEGATIVE_BIGNUM_TAG.
  replace ((tag =? 2) || (tag =? 3)) with true by lia.
  rewrite (proj2 (Z.ltb_lt depth _)) by done. cbn [ensure mbind result_bind app read_byte].
  rewrite Hmaj, Hadd, (argument_app _ _ _ _ Hf). change (2 =? 2) with true.
  cbn [ensure mbind result_bind].
  rewrite !(proj2 (Z.leb_le _ _)) by done. cbn [ensure mbind result_bind].
  rewrite read_bytes_app by done. cbn [mbind result_bind]. rewrite fold_shift_be_value, Hv.
  rewrite (proj2 (Z.ltb_lt 8 _)) by (unfold zlen; lia).
  assert (match b with [] => true | b0 :: _ => negb (val b0 =? 0) end = true) as ->.
  { destruct b as [|b0 b]; [done|]. simpl in Hlead. lia. }
  by rewrite (proj2 (Z.ltb_lt MAX_UINT64 m)) by done.
Qed.

Lemma decode_int limits levels depth z bs rest :
  encodeBigint z = Ok bs → int_fits limits depth z = true → depth ≤ maxDepth limits →
  decode_value limits (S levels) depth (bs ++ rest) = Ok (CInt z, rest).
Proof.
  unfold encodeBigint, int_fits. intros Henc Hfit Hd.
  set (m := if z <? 0 then -1 - z else z) in *.
  destruct (Z.leb_spec m MAX_UINT64).
  - head_of Henc. rewrite (decode_value_head _ _ _ _ _ _ _ _ Hf); [|by destruct (z <? 0)|done].
    unfold decode_major. subst m. destruct (Z.ltb_spec z 0); simpl; do 3 f_equal; lia.
  - simpl in Hfit. apply andb_true_iff in Hfit as [Hdepth Hfit]. inv_ok. subst.
    rename x into b. destruct (magnitudeBytes m) as [b'|] eqn:Hb; [|done]. inv_ok. subst b'.
    apply andb_true_iff in Hfit as [Hblob Hsafe].
    match goal with H : encodeHead 6 _ = Ok ?x |- _ => head_of H end.
    rewrite !concatBytes_cons; change (concatBytes []) with (@nil byte); rewrite app_nil_r, <-!app_assoc.
    rewrite (decode_value_head _ _ _ _ _ _ _ _ Hf) by lia.
    unfold decode_major. simpl.
    rewrite (bignum_app _ _ _ m b) by (done || lia || (destruct (z <? 0); auto)). simpl.
    subst m. destruct (Z.ltb_spec z 0); simpl; do 3 f_equal; lia.
Qed.

Lemma decode_text limits levels depth s bs rest :
  encodeText s = Ok bs → text_fits limits s = true → depth ≤ maxDepth limits →
  decode_value limits (S levels) depth (bs ++ rest) = Ok (CText s, rest).
Proof.
  unfold encodeText, text_fits. intros Henc Hfit Hd. inv_ok. subst. rename x into b.
  destruct (utf8 s) as [b'|] eqn:Hb; [|done]. inv_ok. subst b'.
  apply andb_true_iff in Hfit as [Ht Hs].
  match goal with H : encodeHead 3 _ = Ok ?x |- _ => head_of H end.
  rewrite !concatBytes_cons; change (concatBytes []) with (@nil byte); rewrite app_nil_r, <-!app_assoc.
  rewrite (decode_value_head _ _ _ _ _ _ _ _ Hf) by (lia || done). unfold decode_major. simpl.
  unfold canonicalInvariant. rewrite Hs. simpl. rewrite Ht. simpl.
  rewrite read_bytes_app by (done || lia). simpl. by rewrite (utf8_decodeUtf8 s).
Qed.

Lemma decode_blob limits levels depth b bs rest :
  encodeByteString b = Ok bs → blob_fits limits b = true → depth ≤ maxDepth limits →
  decode_value limits (S levels) depth (bs ++ rest) = Ok (CBytes b, rest).
Proof.
  unfold encodeByteString, blob_fits. intros Henc [Ht Hs]%andb_true_iff Hd. inv_ok. subst.
  match goal with H : encodeHead 2 _ = Ok ?x |- _ => head_of H end.
  rewrite !concatBytes_cons; change (concatBytes []) with (@nil byte); rewrite app_nil_r, <-!app_assoc.
  rewrite (decode_value_head _ _ _ _ _ _ _ _ Hf) by (lia || done). unfold decode_major. simpl.
  unfold canonicalInvariant. rewrite Hs. simpl. rewrite Ht. simpl.
  by rewrite read_bytes_app by (done || lia).
Qed.

Lemma decode_key limits levels depth k bs rest :
  encodeKey k = Ok bs → key_fits limits depth k = true →
  decode_value limits (S levels) depth (bs ++ rest) = Ok (key_value k, rest).
Proof.
  intros Henc [Hd Hfit]%andb_true_iff. apply Z.leb_le in Hd.
  destruct k; [by apply decode_int|by apply decode_text|by apply decode_blob].
Qed.

(** The loops read back what was written, item by item. *)
Lemma decode_items_app value (f : CborValue → CborValue) l bss rest :
  Forall2 (λ v b, ∀ rest, value (b ++ rest) = Ok (f v, rest)) l bss →
  decode_items value (length l) (mjoin bss ++ rest) = Ok (f <$> l, rest).
Proof.
  induction 1 as [|v b l bss Hv _ IH]; [done|].
  rewrite mjoin_cons. cbn [decode_items length].
  rewrite <-app_assoc, Hv.
  cbn [mbind result_bind]. by rewrite IH.
Qed.

Lemma decode_entries_app value (q : list (bytes * bytes * (CborMapKey * CborValue))) previous acc rest :
  Forall (λ e, (∀ rest, value (e.1.1 ++ rest) = Ok (key_value e.2.1, rest)) ∧
               (∀ rest, value (e.1.2 ++ rest) = Ok (e.2.2, rest))) q →
  StronglySorted (λ a b, compareKeys a.1.1 b.1.1 < 0) q →
  match q with e :: _ => key_follows previous e.1.1 = true | [] => True end →
  NoDup (acc.*1 ++ ((λ e, e.2.1) <$> q)) →
  decode_entries value (length q) previous acc
    (mjoin ((λ e, e.1.1 ++ e.1.2) <$> q) ++ rest) = Ok (acc ++ (snd <$> q), rest).
Proof.
  revert previous acc. induction q as [|[[kb vb] [k v]] q IH];
    intros previous acc Hval Hsort Hprev Hdup; [simpl; by rewrite app_nil_r|].
  inversion Hval as [|? ? [Hk Hv] Hval']; simplify_eq.
  inversion Hsort as [|? ? Hsort' Hlt]; simplify_eq. simpl in Hk, Hv, Hprev, Hlt.
  rewrite fmap_cons, mjoin_cons. cbn [decode_entries length fst snd].
  rewrite <-!app_assoc, Hk. cbn [mbind result_bind].
  assert (as_key (key_value k) = Ok k) as -> by (by destruct k). cbn [mbind result_bind].
  rewrite length_app, Nat.add_sub, take_app_length, Hprev. cbn [mbind result_bind ensure canonicalInvariant].
  rewrite Hv. cbn [mbind result_bind]. rewrite fmap_cons in Hdup. simpl in Hdup.
  rewrite cbor_map_set_fresh by (apply NoDup_app in Hdup; set_solver).
  rewrite IH; [by rewrite <-app_assoc|done|done| |].
  - destruct Hlt; [done|]. by apply key_follows_lt.
  - rewrite fmap_app, <-app_assoc. done.
Qed.

Lemma Forall_and_2 {A} (P Q : A → Prop) l : Forall P l → Forall Q l → Forall (λ x, P x ∧ Q x) l.
Proof. intros. by apply Forall_and. Qed.

(** ** The entries of an encoded map *)

Abbreviation quad := (bytes * bytes * (CborMapKey * CborValue))%type.

Definition encodes (q : quad) : Prop :=
  encodeKey q.2.1 = Ok q.1.1 ∧ encodeCanonicalCbor q.2.2 = Ok q.1.2.

Definition compareQuads (a b : quad) : Z := compareKeys a.1.1 b.1.1.

Lemma encode_entries_zip m entries :
  mapR (λ e, match e with (key, item) =>
    k ← encodeKey key; v ← encodeCanonicalCbor item; Ok (k, v) end) m = Ok entries ↔
  ∃ qs : list quad, qs.*1 = entries ∧ qs.*2 = m ∧ Forall encodes qs.
Proof.
  rewrite mapR_Ok. split.
  - induction 1 as [|[k v] [kb vb] m entries Hkv _ (qs & <- & <- & Hqs)]; [by exists []|].
    inv_ok. simplify_eq. exists ((kb, vb, (k, v)) :: qs). split_and!; [done..|by constructor].
  - intros (qs & <- & <- & Hqs). induction Hqs as [|[[kb vb] [k v]] qs [Hk Hv] _ IH]; [constructor|].
    rewrite !fmap_cons. constructor; [|done]. simpl in *. rewrite Hk. simpl. by rewrite Hv.
Qed.

Lemma concat_entries head (es : list (bytes * bytes)) :
  concatBytes (head :: mjoin ((λ e, [e.1; e.2]) <$> es)) = head ++ mjoin ((λ e, e.1 ++ e.2) <$> es).
Proof.
  rewrite concatBytes_cons. f_equal. unfold concatBytes.
  induction es as [|e es IH]; [done|]. rewrite !fmap_cons, !mjoin_cons.
  rewrite <-IH, <-app_assoc. done.
Qed.

Lemma encodeEntries_zip (qs : list quad) bs :
  encodeEntries qs.*1 = Ok bs ↔
  ∃ head, encodeHead 5 (zlen qs) = Ok head ∧
    bs = head ++ mjoin ((λ q, q.1.1 ++ q.1.2) <$> js_sort compareQuads qs) ∧
    StronglySorted (λ a b, compareQuads a b < 0) (js_sort compareQuads qs).
Proof.
  unfold encodeEntries. rewrite (js_sort_fmap fst compareQuads) by done.
  pose proof (comparator_on (λ q : quad, q.1.1) compareKeys) as Hq.
  assert (∀ (R : relation (bytes * bytes)) (l : list quad),
    StronglySorted R l.*1 ↔ StronglySorted (λ a b, R a.1 b.1) l) as Hss.
  { intros R l. apply StronglySorted_on. }
  assert (zlen (js_sort compareQuads qs).*1 = zlen qs) as Hlen
    by (unfold zlen; by rewrite length_fmap, js_sort_length).
  rewrite Hlen. split.
  - intros ?; inv_ok. subst. eexists. split; [done|]. split.
    + rewrite concat_entries. by rewrite <-list_fmap_compose.
    + apply (Hss (λ a b, compareEntries a b < 0)). eapply check_duplicates_strict; [|done].
      apply Hss. apply (js_sort_sorted _ _).
  - intros (head & Hh & -> & Hs).
    rewrite strict_check_duplicates by (by apply Hss). cbn [mbind result_bind]. rewrite Hh.
    cbn [mbind result_bind]. rewrite concat_entries. by rewrite <-list_fmap_compose.
Qed.

Lemma sorted_keys_NoDup (qs : list quad) :
  StronglySorted (λ a b, compareQuads a b < 0) qs → Forall encodes qs →
  NoDup ((λ q, q.2.1) <$> qs).
Proof.
  intros Hs Hq. apply (NoDup_fmap_1 key_bytes). rewrite <-list_fmap_compose.
  replace (key_bytes ∘ (λ q : quad, q.2.1) <$> qs) with ((λ q : quad, q.1.1) <$> qs).
  - clear Hq. induction Hs as [|q qs _ IH Hlt]; [constructor|]. rewrite fmap_cons.
    constructor; [|done]. intros (q' & Heq & Hin)%list_elem_of_fmap.
    rewrite Forall_forall in Hlt. specialize (Hlt q' Hin). unfold compareQuads in Hlt.
    rewrite Heq, cmp_refl in Hlt. lia.
  - apply list_fmap_ext. intros i q Hi. rewrite Forall_lookup in Hq.
    destruct (Hq i q Hi) as [Hk _]. unfold key_bytes. simpl. by rewrite Hk.
Qed.

Lemma canonical_form_map (qs : list quad) :
  Forall encodes qs →
  canonical_form (CMap qs.*2) =
  CMap ((λ q, (q.2.1, canonical_form q.2.2)) <$> js_sort compareQuads qs).
Proof.
  intros Hq. cbn [canonical_form]. f_equal.
  replace ((λ e, match e with (k, item) => (key_bytes k, (k, canonical_form item)) end) <$> qs.*2)
    with ((λ q : quad, (q.1.1, (q.2.1, canonical_form q.2.2))) <$> qs).
  - rewrite (js_sort_fmap _ compareQuads) by done. by rewrite <-list_fmap_compose.
  - rewrite <-list_fmap_compose. apply list_fmap_ext. intros i [[kb vb] [k v]] Hi.
    rewrite Forall_lookup in Hq. destruct (Hq i _ Hi) as [Hk _]. simpl in *.
    unfold key_bytes. by rewrite Hk.
Qed.

(** Reading back an array and a map, given that the items are read back. *)
Definition reads_back (value : decoder CborValue) (v : CborValue) : Prop :=
  ∀ b rest, encodeCanonicalCbor v = Ok b → value (b ++ rest) = Ok (canonical_form v, rest).

Lemma decode_array limits levels depth l bs rest :
  encodeCanonicalCbor (CArray l) = Ok bs → depth ≤ maxDepth limits →
  zlen l ≤ maxArrayItems limits → zlen l ≤ MAX_SAFE_INTEGER →
  Forall (reads_back (decode_value limits levels (depth + 1))) l →
  decode_value limits (S levels) depth (bs ++ rest) = Ok (canonical_form (CArray l), rest).
Proof.
  intros Henc Hd Hn Hsafe Hl. cbn [encodeCanonicalCbor] in Henc. inv_ok. subst bs. rename x0 into items.
  match goal with H : encodeHead 4 _ = Ok _ |- _ => head_of H end.
  rewrite concatBytes_cons, <-app_assoc, (decode_value_head _ _ _ _ _ _ _ _ Hf) by lia.
  unfold decode_major, canonicalInvariant. simpl.
  rewrite (proj2 (Z.leb_le _ MAX_SAFE_INTEGER)) by done. simpl.
  rewrite (proj2 (Z.leb_le _ (maxArrayItems limits))) by done. simpl.
  unfold zlen. rewrite Nat2Z.id. unfold concatBytes.
  rewrite (decode_items_app _ canonical_form); [done|].
  match goal with H : mapR _ _ = Ok _ |- _ => apply mapR_Ok in H; revert Hl; clear -H;
    induction H as [|v b l items Hv _ IH]; intros Hl; [constructor|] end.
  apply Forall_cons in Hl as [Hv' Hl]. constructor; [|by apply IH]. intros rest. by apply Hv'.
Qed.

Lemma decode_map limits levels depth m bs rest :
  encodeCanonicalCbor (CMap m) = Ok bs → depth ≤ maxDepth limits →
  zlen m ≤ maxMapItems limits → zlen m ≤ MAX_SAFE_INTEGER →
  Forall (λ e, ∀ b rest, encodeKey e.1 = Ok b →
    decode_value limits levels (depth + 1) (b ++ rest) = Ok (key_value e.1, rest)) m →
  Forall (λ e, reads_back (decode_value limits levels (depth + 1)) e.2) m →
  decode_value limits (S levels) depth (bs ++ rest) = Ok (canonical_form (CMap m), rest).
Proof.
  intros Henc Hd Hn Hsafe Hkeys Hitems. cbn [encodeCanonicalCbor] in Henc. inv_ok.
  match goal with H : mapR _ _ = Ok _ |- _ => apply encode_entries_zip in H as (qs & <- & <- & Hqs) end.
  apply encodeEntries_zip in Henc as (head & Hh & -> & Hs).
  rewrite canonical_form_map by done. unfold zlen in Hn, Hsafe, Hh. rewrite length_fmap in Hn, Hsafe.
  head_of Hh. rewrite <-app_assoc, (decode_value_head _ _ _ _ _ _ _ _ Hf) by lia.
  unfold decode_major, canonicalInvariant. simpl.
  rewrite (proj2 (Z.leb_le _ MAX_SAFE_INTEGER)) by done. simpl.
  rewrite (proj2 (Z.leb_le _ (maxMapItems limits))) by done. simpl.
  rewrite Nat2Z.id. rewrite <-(js_sort_length compareQuads qs).
  rewrite Forall_fmap in Hkeys, Hitems.
  pose proof (Forall_and_2 _ _ _ Hqs (Forall_and_2 _ _ _ Hkeys Hitems)) as Hall.
  rewrite <-(js_sort_perm compareQuads qs) in Hall.
  clear -Hall Hs. set (sq := js_sort compareQuads qs) in *.
  assert (NoDup ((λ q : quad, q.2.1) <$> sq)) as Hdup.
  { apply sorted_keys_NoDup; [done|]. eapply Forall_impl; [exact Hall|]. by intros q [? _]. }
  pose proof (decode_entries_app (decode_value limits levels (depth + 1))
    ((λ q : quad, (q.1, (q.2.1, canonical_form q.2.2))) <$> sq) None [] rest) as Hdec.
  rewrite length_fmap, <-!list_fmap_compose in Hdec. cbn [app] in Hdec.
  refine (eq_trans (f_equal (λ r, r ≫= _) (Hdec _ _ _ _)) _); [..|done].
  - apply Forall_fmap. eapply Forall_impl; [exact Hall|]. intros q ([Hk Hv] & Hk' & Hv'). simpl.
    split; intros rest'; [by apply Hk'|by apply Hv'].
  - clear -Hs. induction Hs as [|q sq _ IH Hlt]; [constructor|]. rewrite fmap_cons.
    constructor; [done|]. by apply Forall_fmap.
  - by destruct sq.
  - done.
Qed.

(** What the encoder writes, the decoder reads back, whatever follows. *)
Lemma decode_encode v : ∀ limits levels depth, fits limits depth v = true →
  maxDepth limits + 1 - depth ≤ Z.of_nat levels → reads_back (decode_value limits levels depth) v.
Proof.
  induction v as [|b|z|s|b|l IH|m IH] using CborValue_nested_ind;
    intros limits levels depth Hfit Hlev bs rest Henc;
    cbn [fits] in Hfit; apply andb_true_iff in Hfit as [Hd Hfit]; apply Z.leb_le in Hd;
    (destruct levels as [|levels]; [lia|]).
  - injection Henc as <-. cbn. unfold canonicalInvariant. by rewrite (proj2 (Z.leb_le depth _)).
  - destruct b; injection Henc as <-; cbn; unfold canonicalInvariant;
      by rewrite (proj2 (Z.leb_le depth _)).
  - by apply decode_int.
  - by apply decode_text.
  - by apply decode_blob.
  - apply andb_true_iff in Hfit as [[Hn Hsafe]%andb_true_iff Hall].
    apply decode_array; [done|lia..|]. rewrite Forall_forall in *. intros v Hv.
    apply IH; [done| |lia]. rewrite forallb_forall in Hall. by apply Hall, list_elem_of_In.
  - apply andb_true_iff in Hfit as [[Hn Hsafe]%andb_true_iff Hall].
    rewrite forallb_forall in Hall.
    apply decode_map; [done|lia..| |]; rewrite Forall_forall in *; intros [k v] Hkv;
      specialize (Hall (k, v) (proj1 (list_elem_of_In _ _) Hkv)); simpl in Hall;
      apply andb_true_iff in Hall as [Hk Hv].
    + intros b rest' Hb. destruct levels as [|levels]; [|by apply decode_key].
      apply andb_true_iff in Hk as [Hk _]. lia.
    + apply (IH _ Hkv); [done|lia].
Qed.

(** ** Strictness: the decoder accepts only canonical bytes

    The one exception is the byte-order mark that [TextDecoder] drops, so the
    statement asks for an input without the bytes [EF BB BF]. *)

Fixpoint contains_bom (b : bytes) : bool :=
  match b with
  | [] => false
  | _ :: b' => bool_decide (take 3 b = BOM) || contains_bom b'
  end.

Lemma contains_bom_suffix p s : contains_bom (p ++ s) = false → contains_bom s = false.
Proof. induction p as [|x p IH]; [done|]. simpl. intros [_ H]%orb_false_iff. auto. Qed.

Lemma contains_bom_prefix b s : contains_bom (b ++ s) = false → take 3 b ≠ BOM.
Proof.
  intros H Hb. assert (3 ≤ length b)%nat.
  { apply (f_equal length) in Hb. rewrite length_take in Hb. change (length BOM) with 3%nat in Hb. lia. }
  destruct b as [|x b]; [simpl in *; lia|]. simpl in H. apply orb_false_iff in H as [H _].
  apply bool_decide_eq_false in H. apply H. rewrite <-Hb.
  change (take 3 ((x :: b) ++ s) = take 3 (x :: b)). by apply take_app_le.
Qed.

(** A decoder whose successes are inverted by the encoder. *)
Definition strict (value : decoder CborValue) : Prop :=
  ∀ rest v rest', value rest = Ok (v, rest') → contains_bom rest = false →
    ∃ b, rest = b ++ rest' ∧ encodeCanonicalCbor v = Ok b.

Lemma bignum_Ok limits tag depth rest z rest' :
  bignum limits tag depth rest = Ok (z, rest') →
  ∃ m b h, (tag = 2 ∧ z = m ∨ tag = 3 ∧ z = -1 - m) ∧ magnitudeBytes m = Ok b ∧
    encodeHead 2 (zlen b) = Ok h ∧ rest = h ++ b ++ rest'.
Proof.
  unfold bignum, canonicalInvariant, POSITIVE_BIGNUM_TAG, NEGATIVE_BIGNUM_TAG.
  intros Hb. inv_ok. simplify_eq.
  destruct rest as [|initial rest]; [done|].
  match goal with H : read_byte _ = Ok _ |- _ => cbn in H; injection H as <- <- end.
  pose proof (initial_byte_split initial) as (Hmaj & Hadd & Hini).
  match goal with H : (Z.shiftr _ 5 =? 2) = true |- _ => apply Z.eqb_eq in H; rewrite H in Hini end.
  match goal with H : argument _ _ = Ok _ |- _ => apply argument_Ok in H as (t & Hf & ->); [|done] end.
  match goal with H : read_bytes _ _ = Ok (?b', _) |- _ =>
    apply read_bytes_Ok in H as (-> & -> & _); rename b' into b end.
  rewrite !fold_shift_be_value in *.
  match goal with H : (8 <? _) && _ = true |- _ => apply andb_true_iff in H as [Hlen Hlead] end.
  exists (be_value b), b, (initial :: t). split_and!.
  - destruct (Z.eqb_spec tag 2); [by left|]. right. split; [lia|done].
  - apply magnitudeBytes_Ok. unfold zlen in *. split_and!; [lia|done| |lia].
    destruct b as [|b0 b]; [done|]. simpl. lia.
  - apply encodeHead_form. eexists _, _. split; [done|]. f_equal. exact Hini.
  - done.
Qed.

Lemma encodeBigint_small z a t (major := if z <? 0 then 1 else 0) (v := if z <? 0 then -1 - z else z) :
  head_form v a t → encodeBigint z = Ok (initial_byte major a :: t).
Proof.
  intros Hf. unfold encodeBigint. pose proof (head_form_range _ _ _ Hf) as [_ Hv].
  fold v. rewrite (proj2 (Z.leb_le v _)) by lia. apply encodeHead_form. eauto.
Qed.

Lemma encodeBigint_large z m b h th :
  m = (if z <? 0 then -1 - z else z) → magnitudeBytes m = Ok b → encodeHead 2 (zlen b) = Ok h →
  encodeHead 6 (if z <? 0 then 3 else 2) = Ok th → encodeBigint z = Ok (th ++ h ++ b).
Proof.
  intros Hm Hb Hh Hth. unfold encodeBigint, POSITIVE_BIGNUM_TAG, NEGATIVE_BIGNUM_TAG. rewrite <-Hm.
  pose proof Hb as (Hbig & _)%magnitudeBytes_Ok.
  destruct (Z.leb_spec m MAX_UINT64); [lia|]. rewrite Hb. cbn [mbind result_bind]. rewrite Hth.
  cbn [mbind result_bind]. rewrite Hh. cbn [mbind result_bind]. rewrite !concatBytes_cons.
  change (concatBytes []) with (@nil byte). by rewrite app_nil_r.
Qed.

Lemma decode_items_Ok value n rest l rest' :
  strict value → decode_items value n rest = Ok (l, rest') → contains_bom rest = false →
  ∃ bss, rest = mjoin bss ++ rest' ∧ mapR encodeCanonicalCbor l = Ok bss ∧ length l = n.
Proof.
  intros Hs. unfold strict in Hs. revert rest l. induction n as [|n IH]; intros rest l Hd Hbom; cbn [decode_items] in Hd.
  - inv_ok. simplify_eq. by exists [].
  - inv_ok. simplify_eq.
    match goal with H : value _ = Ok _ |- _ => apply Hs in H as (vb & -> & Hb); [|done] end.
    match goal with H : decode_items _ _ _ = Ok _ |- _ =>
      apply IH in H as (bss & -> & Hbss & Hlen); [|by eapply contains_bom_suffix] end.
    exists (vb :: bss). rewrite mjoin_cons, <-app_assoc. split_and!; [done| |simpl; by rewrite Hlen].
    cbn [mapR]. rewrite Hb. cbn [mbind result_bind]. by rewrite Hbss.
Qed.

Lemma as_key_Ok v k : as_key v = Ok k → encodeCanonicalCbor v = encodeKey k.
Proof. destruct v; simpl; intros; inv_ok; simplify_eq; done. Qed.

(** The entries read so far have keys that precede the next one. *)
Definition keys_before (previous : option bytes) (acc : list (CborMapKey * CborValue)) : Prop :=
  ∀ k, k ∈ acc.*1 → ∃ kb p, encodeKey k = Ok kb ∧ previous = Some p ∧ compareKeys kb p ≤ 0.

Lemma keys_before_fresh previous acc k kb :
  keys_before previous acc → encodeKey k = Ok kb → key_follows previous kb = true → k ∉ acc.*1.
Proof.
  intros Hacc Hk Hf Hin. destruct (Hacc k Hin) as (kb' & p & Hk' & -> & Hle).
  rewrite Hk in Hk'. injection Hk' as <-. apply key_follows_lt in Hf.
  apply (cmp_flip p kb) in Hf. lia.
Qed.

Lemma keys_before_snoc previous acc k v kb :
  keys_before previous acc → encodeKey k = Ok kb → key_follows previous kb = true →
  keys_before (Some kb) (acc ++ [(k, v)]).
Proof.
  intros Hacc Hk Hf k'. rewrite fmap_app, elem_of_app. intros [Hin|Hin].
  - destruct (Hacc k' Hin) as (kb' & p & Hk' & -> & Hle). apply key_follows_lt in Hf.
    exists kb', kb. split_and!; [done..|]. apply Z.lt_le_incl.
    by apply (cmp_le_lt_trans compareKeys kb' p kb).
  - apply list_elem_of_singleton in Hin as ->. exists kb, kb. split_and!; [done..|].
    by rewrite cmp_refl.
Qed.

Lemma decode_entries_Ok value n previous acc rest m rest' :
  strict value → decode_entries value n previous acc rest = Ok (m, rest') →
  contains_bom rest = false → keys_before previous acc →
  ∃ qs : list quad, rest = mjoin ((λ q, q.1.1 ++ q.1.2) <$> qs) ++ rest' ∧ Forall encodes qs ∧
    StronglySorted (λ a b, compareQuads a b < 0) qs ∧
    Forall (λ q, key_follows previous q.1.1 = true) qs ∧ length qs = n ∧ m = acc ++ qs.*2.
Proof.
  intros Hs. unfold strict in Hs. revert previous acc rest.
  induction n as [|n IH]; intros previous acc rest Hd Hbom Hacc; cbn [decode_entries] in Hd.
  { inv_ok. simplify_eq. exists []. split_and!; try constructor. by rewrite app_nil_r. }
  unfold canonicalInvariant in Hd. inv_ok.
  match goal with H : value rest = Ok (?x, _) |- _ =>
    apply Hs in H as (kb & -> & Hkb); [|done]; rename x into key end.
  match goal with H : as_key _ = Ok ?x |- _ => rewrite (as_key_Ok _ _ H) in Hkb; rename x into k end.
  pose proof (contains_bom_suffix _ _ Hbom) as Hbom1.
  rewrite length_app, Nat.add_sub, take_app_length in *.
  match goal with H : value ?r = Ok (?x, _) |- _ =>
    apply Hs in H as (vb & -> & Hvb); [|done]; rename x into item end.
  rewrite cbor_map_set_fresh in Hd by (by eapply keys_before_fresh).
  apply IH in Hd as (qs & -> & Hqs & Hsort & Hfol & Hlen & ->);
    [|by eapply contains_bom_suffix|by eapply keys_before_snoc].
  exists ((kb, vb, (k, item)) :: qs). rewrite fmap_cons, mjoin_cons. simpl. rewrite <-!app_assoc.
  split_and!; [done|by constructor| | |by rewrite Hlen|done].
  - constructor; [done|]. eapply Forall_impl; [exact Hfol|].
    intros q Hq. by apply key_follows_lt in Hq.
  - constructor; [done|]. eapply Forall_impl; [exact Hfol|].
    intros q Hq. destruct previous as [p|]; [|done]. rewrite !key_follows_lt in *.
    by eapply (cmp_lt_trans compareKeys); [|apply Z.lt_le_incl].
Qed.

Lemma map_zlen_head (major : Z) (initial : byte) (arg : Z) t {A} (l : list A) :
  initial = initial_byte major (Z.land (val initial) 31) →
  head_form arg (Z.land (val initial) 31) t → length l = Z.to_nat arg →
  encodeHead major (zlen l) = Ok (initial :: t).
Proof.
  intros Hini Hf Hl. pose proof (head_form_range _ _ _ Hf) as [_ Harg].
  apply encodeHead_form. exists (Z.land (val initial) 31), t. split; [|f_equal; exact Hini].
  unfold zlen. rewrite Hl, Z2Nat.id by lia. done.
Qed.

(** The steps of the strictness proof: one value whose head has been read. *)
Section strict_steps.
Context (limits : DecodeLimits) (value : decoder CborValue) (Hval : strict value).
Context (depth major arg : Z) (initial : byte) (t : bytes).
Context (Hini : initial = initial_byte major (Z.land (val initial) 31)).
Context (Hf : head_form arg (Z.land (val initial) 31) t).

Definition strict_step (rest : bytes) : Prop := ∀ v rest',
  contains_bom rest = false → decode_major limits value depth major arg rest = Ok (v, rest') →
  ∃ b, rest = b ++ rest' ∧ encodeCanonicalCbor v = Ok ((initial :: t) ++ b).

Lemma strict_step_int rest : major = 0 ∨ major = 1 → strict_step rest.
Proof.
  pose proof (head_form_range _ _ _ Hf) as [_ Harg].
  intros Hm v rest' _ Hd. exists []. rewrite app_nil_r. unfold decode_major in Hd.
  destruct Hm as [Hm|Hm]; rewrite Hm in *; simpl in Hd; inv_ok; simplify_eq; (split; [done|]);
    cbn [encodeCanonicalCbor]; rewrite Hini at 1.
  - pose proof (encodeBigint_small arg) as He.
    destruct (Z.ltb_spec arg 0); [lia|]. by apply He.
  - pose proof (encodeBigint_small (-1 - arg)) as He.
    destruct (Z.ltb_spec (-1 - arg) 0); [|lia].
    replace (-1 - (-1 - arg)) with arg in He by lia. by apply He.
Qed.

Lemma strict_step_bignum rest : major = 6 → strict_step rest.
Proof.
  intros Hm v rest' _ Hd. unfold decode_major in Hd. rewrite Hm in *. simpl in Hd. inv_ok.
  simplify_eq. match goal with H : bignum _ _ _ _ = Ok _ |- _ =>
    apply bignum_Ok in H as (m & b & h & Hz & Hb & Hh & ->) end.
  pose proof Hb as (Hbig & _)%magnitudeBytes_Ok. unfold MAX_UINT64 in Hbig.
  exists (h ++ b). split; [by rewrite <-app_assoc|].
  apply (encodeBigint_large _ m); [destruct Hz as [[_ ->]|[_ ->]]; case_match; lia|done..|].
  apply encodeHead_form. eexists _, t. split; [|f_equal; exact Hini].
  destruct Hz as [[-> ->]|[-> ->]].
  - by destruct (Z.ltb_spec m 0); [lia|].
  - by destruct (Z.ltb_spec (-1 - m) 0); [|lia].
Qed.

Lemma strict_step_string rest : major = 2 ∨ major = 3 → strict_step rest.
Proof.
  intros Hm v rest' Hbom Hd. unfold decode_major, canonicalInvariant in Hd.
  destruct Hm as [Hm|Hm]; rewrite Hm in *; simpl in Hd; inv_ok; simplify_eq;
    (match goal with H : read_bytes _ _ = Ok (?b, _) |- _ =>
    apply read_bytes_Ok in H as (-> & Harg & _); exists b end); (split; [done|]);
    cbn [encodeCanonicalCbor]; unfold encodeByteString, encodeText.
  2: match goal with H : decodeUtf8 _ = Ok _ |- _ => apply decodeUtf8_utf8 in H;
    [rewrite H; cbn [mbind result_bind]|by eapply contains_bom_prefix] end.
  all: rewrite (map_zlen_head _ initial arg t) by (done || (unfold zlen in *; lia)).
  all: cbn [mbind result_bind]; rewrite !concatBytes_cons.
  all: change (concatBytes []) with (@nil byte); by rewrite app_nil_r.
Qed.

Lemma strict_step_array rest : major = 4 → strict_step rest.
Proof.
  intros Hm v rest' Hbom Hd. unfold decode_major, canonicalInvariant in Hd. rewrite Hm in *.
  simpl in Hd. inv_ok. simplify_eq. match goal with H : decode_items _ _ _ = Ok _ |- _ =>
    apply decode_items_Ok in H as (bss & -> & Hbss & Hlen); [|done..]; exists (mjoin bss) end.
  split; [done|]. cbn [encodeCanonicalCbor].
  rewrite (map_zlen_head 4 initial arg t) by done. cbn [mbind result_bind]. by rewrite Hbss.
Qed.

Lemma strict_step_map rest : major = 5 → strict_step rest.
Proof.
  intros Hm v rest' Hbom Hd. unfold decode_major, canonicalInvariant in Hd. rewrite Hm in *.
  simpl in Hd. inv_ok. simplify_eq. match goal with H : decode_entries _ _ _ _ _ = Ok _ |- _ =>
    apply decode_entries_Ok in H as (qs & -> & Hqs & Hsort & _ & Hlen & ->);
    [|done..|by intros ? ?%elem_of_nil] end.
  eexists. split; [done|]. cbn [encodeCanonicalCbor app].
  rewrite (proj2 (encode_entries_zip _ qs.*1)) by eauto. cbn [mbind result_bind].
  apply encodeEntries_zip. exists (initial :: t).
  rewrite js_sort_id; [split_and!; [by apply (map_zlen_head 5 initial arg t)|done|done]|].
  eapply StronglySorted_weaken; [|exact Hsort]. simpl. lia.
Qed.

Lemma decode_major_strict rest : 0 ≤ major < 7 → strict_step rest.
Proof.
  intros Hm. assert (major = 0 ∨ major = 1 ∨ major = 2 ∨ major = 3 ∨ major = 4 ∨ major = 5 ∨ major = 6)
    as [?|[?|[?|[?|[?|[?|?]]]]]] by lia;
    eauto using strict_step_int, strict_step_bignum, strict_step_string, strict_step_array,
    strict_step_map.
Qed.
End strict_steps.

Lemma decode_value_strict limits levels depth : strict (decode_value limits levels depth).
Proof.
  revert depth. induction levels as [|levels IH]; intros depth rest v rest' Hd Hbom; [done|].
  cbn [decode_value] in Hd. unfold canonicalInvariant in Hd. inv_ok.
  destruct rest as [|initial rest]; [done|].
  match goal with H : read_byte _ = Ok _ |- _ => cbn in H; injection H as <- <- end.
  pose proof (initial_byte_split initial) as (Hmaj & Hadd & Hini).
  pose proof (contains_bom_suffix [initial] rest Hbom) as Hbom'.
  destruct (Z.eqb_spec (Z.shiftr (val initial) 5) 7) as [E|E].
  - rewrite E in Hini. exists [initial].
    destruct (Z.eqb_spec (Z.land (val initial) 31) 20) as [E'|_];
      [|destruct (Z.eqb_spec (Z.land (val initial) 31) 21) as [E'|_];
      [|destruct (Z.eqb_spec (Z.land (val initial) 31) 22) as [E'|_]; [|done]]];
      inv_ok; simplify_eq; rewrite E' in Hini; rewrite Hini; done.
  - inv_ok. match goal with H : argument _ _ = Ok _ |- _ =>
      apply argument_Ok in H as (t & Hf & ->); [|done] end.
    apply (decode_major_strict _ _ (IH _) _ _ _ initial t) in Hd as (bb & -> & Henc);
      [|done|done|lia|by eapply contains_bom_suffix].
    exists ((initial :: t) ++ bb). split; [by rewrite <-app_assoc|done].
Qed.

(** ** Whole inputs *)

Lemma decode_value_complete limits v bs rest :
  encodeCanonicalCbor v = Ok bs → fits limits 0 v = true →
  decode_value limits (decode_levels limits) 0 (bs ++ rest) = Ok (canonical_form v, rest).
Proof.
  intros Henc Hfit. apply decode_encode; [done| |done]. unfold decode_levels.
  assert (0 ≤ maxDepth limits); [|lia].
  destruct v; cbn [fits] in Hfit; apply andb_true_iff in Hfit as [Hd _]; lia.
Qed.

(** The encoding of a map does not depend on the order of its entries. *)
Lemma encode_map_perm m1 m2 bs :
  m1 ≡ₚ m2 → encodeCanonicalCbor (CMap m1) = Ok bs → encodeCanonicalCbor (CMap m2) = Ok bs.
Proof.
  intros Hm. cbn [encodeCanonicalCbor]. intros Henc. inv_ok.
  match goal with H : mapR _ _ = Ok _ |- _ =>
    apply encode_entries_zip in H as (qs & <- & <- & Hqs) end.
  symmetry in Hm. destruct (Permutation_map_inv snd qs Hm) as (qs' & -> & Hperm).
  symmetry in Hperm. change (map snd qs') with qs'.*2.
  rewrite (proj2 (encode_entries_zip qs'.*2 qs'.*1)); [|exists qs'; split_and!; [done..|by rewrite Hperm]].
  cbn [mbind result_bind]. rewrite encodeEntries_zip in *.
  destruct Henc as (head & Hh & -> & Hs). exists head.
  assert (js_sort compareQuads qs' = js_sort compareQuads qs) as ->.
  { apply js_sort_perm_strict; [|done..]. apply (comparator_on (λ q : quad, q.1.1) compareKeys). }
  unfold zlen in *. by rewrite Hperm.
Qed.

Lemma encode_map_NoDup m bs : encodeCanonicalCbor (CMap m) = Ok bs → NoDup m.*1.
Proof.
  cbn [encodeCanonicalCbor]. intros Henc. inv_ok.
  match goal with H : mapR _ _ = Ok _ |- _ =>
    apply encode_entries_zip in H as (qs & <- & <- & Hqs) end.
  apply encodeEntries_zip in Henc as (head & _ & _ & Hs).
  pose proof (js_sort_perm compareQuads qs) as Hp.
  rewrite <-list_fmap_compose. change (NoDup ((λ q : quad, q.2.1) <$> qs)). rewrite <-Hp.
  apply sorted_keys_NoDup; [done|]. by rewrite Hp.
Qed.

(** The encoder separates values: equal bytes come from values that differ at
    most in the insertion order of their maps. *)
Lemma encode_inj limits v1 v2 bs :
  encodeCanonicalCbor v1 = Ok bs → encodeCanonicalCbor v2 = Ok bs →
  fits limits 0 v1 = true → fits limits 0 v2 = true → canonical_form v1 = canonical_form v2.
Proof.
  intros H1 H2 F1 F2.
  pose proof (decode_value_complete limits v1 bs [] H1 F1) as E1.
  pose proof (decode_value_complete limits v2 bs [] H2 F2) as E2.
  rewrite E1 in E2. by injection E2.
Qed.

(** What [assertCanonicalCbor] accepts is the encoding of what it returns. *)
Lemma assert_sound limits bs v :
  assertCanonicalCbor limits bs = Ok v → encodeCanonicalCbor v = Ok bs.
Proof.
  unfold assertCanonicalCbor, canonicalInvariant. intros H. inv_ok. simplify_eq.
  match goal with H : equalBytes _ _ = true |- _ => by apply equalBytes_spec in H as -> end.
Qed.

Lemma assert_complete limits bs v :
  fits limits 0 v = true → canonical_form v = v → zlen bs ≤ maxBytes limits →
  encodeCanonicalCbor v = Ok bs → assertCanonicalCbor limits bs = Ok v.
Proof.
  intros Hfit Hcan Hmax Henc.
  unfold assertCanonicalCbor, decodeCanonicalCbor, canonicalInvariant.
  rewrite (proj2 (Z.leb_le _ _)) by done. cbn [ensure mbind result_bind].
  rewrite <-(app_nil_r bs) at 1. rewrite (decode_value_complete _ v) by done.
  cbn [mbind result_bind ensure]. rewrite Hcan. change (zlen (@nil byte) =? 0) with true.
  cbn [mbind result_bind ensure]. rewrite Henc. cbn [mbind result_bind].
  by rewrite (proj2 (equalBytes_spec bs bs)).
Qed.


(** ** Fitting the limits by total size

    When the whole encoding is no longer than [maxBlobBytes], no byte string
    in it can exceed that limit: what is left to check is the shape. *)
Section shape.
Context (limits : DecodeLimits).

Definition small_int (z : Z) : bool := ((if z <? 0 then -1 - z else z) <=? MAX_UINT64).

Definition key_shape (depth : Z) (k : CborMapKey) : bool :=
  (depth <=? maxDepth limits) &&
  match k with KInt z => small_int z | KText s => text_fits limits s | KBytes _ => true end.

Fixpoint shape (depth : Z) (v : CborValue) : bool :=
  (depth <=? maxDepth limits) &&
  match v with
  | CNull | CBool _ | CBytes _ => true
  | CInt z => small_int z
  | CText s => text_fits limits s
  | CArray l =>
    (zlen l <=? maxArrayItems limits) && (zlen l <=? MAX_SAFE_INTEGER) &&
    forallb (shape (depth + 1)) l
  | CMap m =>
    (zlen m <=? maxMapItems limits) && (zlen m <=? MAX_SAFE_INTEGER) &&
    forallb (λ e, match e with (k, item) => key_shape (depth + 1) k && shape (depth + 1) item end) m
  end.

Lemma zlen_app {A} (l1 l2 : list A) : zlen (l1 ++ l2) = zlen l1 + zlen l2.
Proof. unfold zlen. rewrite length_app. lia. Qed.
Lemma zlen_nonneg {A} (l : list A) : 0 ≤ zlen l.
Proof. unfold zlen. lia. Qed.

Lemma zlen_mjoin {A} (x : list A) ls : x ∈ ls → zlen x ≤ zlen (mjoin ls).
Proof.
  induction ls as [|y ls IH]; [by intros ?%elem_of_nil|]. rewrite mjoin_cons, zlen_app.
  pose proof (zlen_nonneg y). pose proof (zlen_nonneg (mjoin ls)).
  intros [->|Hx]%elem_of_cons; [lia|]. specialize (IH Hx). lia.
Qed.

Lemma encode_array_item l bs v :
  encodeCanonicalCbor (CArray l) = Ok bs → v ∈ l →
  ∃ b, encodeCanonicalCbor v = Ok b ∧ zlen b ≤ zlen bs.
Proof.
  cbn [encodeCanonicalCbor]. intros Henc Hv. inv_ok. subst. rename x into head, x0 into items.
  match goal with H : mapR _ _ = Ok _ |- _ => apply mapR_Ok in H as Hall end.
  apply list_elem_of_lookup in Hv as [i Hi].
  destruct (Forall2_lookup_l _ _ _ _ _ Hall Hi) as (b & Hb & Henc). exists b. split; [done|].
  rewrite concatBytes_cons, zlen_app. pose proof (zlen_nonneg head).
  assert (zlen b ≤ zlen (concatBytes items)); [|lia].
  apply zlen_mjoin. by eapply list_elem_of_lookup_2.
Qed.

Lemma encode_map_item m bs k v :
  encodeCanonicalCbor (CMap m) = Ok bs → (k, v) ∈ m →
  (∃ b, encodeKey k = Ok b ∧ zlen b ≤ zlen bs) ∧
  (∃ b, encodeCanonicalCbor v = Ok b ∧ zlen b ≤ zlen bs).
Proof.
  cbn [encodeCanonicalCbor]. intros Henc Hkv. inv_ok.
  match goal with H : mapR _ _ = Ok _ |- _ =>
    apply encode_entries_zip in H as (qs & <- & <- & Hqs) end.
  apply encodeEntries_zip in Henc as (head & _ & -> & _).
  apply list_elem_of_fmap in Hkv as ([[kb vb] kv] & Hkv & Hq). simpl in Hkv. subst kv.
  rewrite Forall_forall in Hqs. destruct (Hqs _ Hq) as [Hk Hv]. simpl in *.
  assert (zlen (kb ++ vb) ≤ zlen (mjoin ((λ q : quad, q.1.1 ++ q.1.2) <$> js_sort compareQuads qs))) as Hle.
  { apply zlen_mjoin. apply list_elem_of_fmap. exists (kb, vb, (k, v)). split; [done|].
    by apply elem_of_js_sort. }
  rewrite (zlen_app kb) in Hle. pose proof (zlen_nonneg head) as Hh. pose proof (zlen_nonneg kb).
  pose proof (zlen_nonneg vb).
  split; [exists kb|exists vb]; (split; [done|rewrite zlen_app]);
    (etrans; [|exact (Z.add_le_mono _ _ _ _ Hh Hle)]; lia).
Qed.

Lemma encodeByteString_size b bs : encodeByteString b = Ok bs → zlen b ≤ zlen bs.
Proof.
  unfold encodeByteString. intros ?. inv_ok. subst. rewrite !concatBytes_cons, !zlen_app.
  pose proof (zlen_nonneg x). pose proof (zlen_nonneg (concatBytes [])). lia.
Qed.

Lemma blob_fits_size b bs :
  encodeByteString b = Ok bs → zlen bs ≤ maxBlobBytes limits → zlen bs ≤ MAX_SAFE_INTEGER →
  blob_fits limits b = true.
Proof.
  intros H%encodeByteString_size. unfold blob_fits. intros.
  rewrite !(proj2 (Z.leb_le _ _)) by lia. done.
Qed.

Lemma fits_of_shape v : ∀ depth bs,
  encodeCanonicalCbor v = Ok bs → zlen bs ≤ maxBlobBytes limits → zlen bs ≤ MAX_SAFE_INTEGER →
  shape depth v = true → fits limits depth v = true.
Proof.
  induction v as [|b|z|s|b|l IH|m IH] using CborValue_nested_ind;
    intros depth bs Henc Hmax Hsafe Hsh; cbn [shape fits] in *; try done;
    apply andb_true_iff in Hsh as [-> Hsh]; rewrite andb_true_l.
  - unfold int_fits. unfold small_int in Hsh. by rewrite Hsh.
  - by eapply blob_fits_size.
  - apply andb_true_iff in Hsh as [-> Hsh]. rewrite andb_true_l.
    rewrite forallb_forall in *. intros v Hv%list_elem_of_In.
    destruct (encode_array_item _ _ _ Henc Hv) as (b & Hb & Hle).
    rewrite Forall_forall in IH. eapply (IH v Hv); [done|lia..|]. apply Hsh. by apply list_elem_of_In.
  - apply andb_true_iff in Hsh as [-> Hsh]. rewrite andb_true_l.
    rewrite forallb_forall in *. intros [k v] Hkv%list_elem_of_In.
    destruct (encode_map_item _ _ _ _ Henc Hkv) as [(kb & Hkb & Hkle) (b & Hb & Hle)].
    specialize (Hsh (k, v) (proj1 (list_elem_of_In _ _) Hkv)). simpl in Hsh.
    apply andb_true_iff in Hsh as [Hk Hv]. apply andb_true_iff. split.
    + apply andb_true_iff in Hk as [Hd Hk]. unfold key_fits. rewrite Hd. destruct k; [|done|].
      * unfold int_fits. unfold small_int in Hk. by rewrite Hk.
      * eapply blob_fits_size; [done|lia..].
    + rewrite Forall_forall in IH. eapply (IH _ Hkv); [done|lia..|done].
Qed.
End shape.

(** With the default limits the bound on the whole input is the bound on a
    byte string. *)
Lemma default_fits v bs :
  encodeCanonicalCbor v = Ok bs → zlen bs ≤ maxBytes DEFAULT_DECODE_LIMITS →
  shape DEFAULT_DECODE_LIMITS 0 v = true → fits DEFAULT_DECODE_LIMITS 0 v = true.
Proof. intros Henc Hmax. eapply fits_of_shape; [done| |]; simpl in *; unfold MAX_SAFE_INTEGER; lia. Qed.
