(* ===== verification/Schema.v ===== *)
(** * Integer-keyed CBOR schemas: [packages/protocol/src/schema.ts]

    The helpers with which every protocol record is written to and read from a
    CBOR map with small integer keys.  [packages/canonical/src/schema.ts] has
    the same helpers with [CanonicalError]; the two it adds ([expectBoolean]
    and [expectUint]) are here too.  The lemmas give the two directions of a
    record codec once and for all: a map with exactly the known keys encodes
    like the [integerMap] of its fields, and such a map is read back. *)

From Stdlib Require Import Strings.Byte.
From stdpp Require Import base list option numbers sets sorting.
From S2P Require Import Prelude JsMap Bytes Text Cbor CborProofs.

#[local] Open Scope Z_scope.

Definition IntegerMap : Type := list (CborMapKey * CborValue).

(** ** Writing *)

Definition integerMap (entries : list (Z * option CborValue)) : IntegerMap :=
  foldl (λ result e, match e.2 with
                     | Some value => map_set (KInt e.1) value result
                     | None => result
                     end) [] entries.

(** ** Reading *)

Definition expectMap (value : CborValue) : result ErrorCode IntegerMap :=
  match value with CMap m => Ok m | _ => Err SCHEMA_INVALID end.

Definition expectArray (value : CborValue) : result ErrorCode (list CborValue) :=
  match value with CArray l => Ok l | _ => Err SCHEMA_INVALID end.

Definition expectBytes (value : CborValue) (len : option nat) : result ErrorCode bytes :=
  match value with
  | CBytes b =>
      match len with
      | Some n => protocolInvariant (length b =? n)%nat SCHEMA_INVALID ≫= λ _, Ok b
      | None => Ok b
      end
  | _ => Err SCHEMA_INVALID
  end.

Definition expectString (value : CborValue) : result ErrorCode jsstring :=
  match value with CText s => Ok s | _ => Err SCHEMA_INVALID end.

Definition expectBoolean (value : CborValue) : result ErrorCode bool :=
  match value with CBool b => Ok b | _ => Err SCHEMA_INVALID end.

Definition expectBigint (value : CborValue) : result ErrorCode Z :=
  match value with CInt z => Ok z | _ => Err SCHEMA_INVALID end.

Definition expectUint (value : CborValue) (maximum : Z) : result ErrorCode Z :=
  n ← expectBigint value;
  canonicalInvariant ((0 <=? n) && (n <=? maximum) && (n <=? MAX_SAFE_INTEGER)) INTEGER_OUT_OF_RANGE
    ≫= λ _, Ok n.

Definition expectUint64 (value : CborValue) : result ErrorCode Z :=
  integer ← expectBigint value;
  protocolInvariant ((0 <=? integer) && (integer <=? 2 ^ 64 - 1)) INTEGER_OUT_OF_RANGE ≫= λ _,
  Ok integer.

Definition expectInt64 (value : CborValue) : result ErrorCode Z :=
  integer ← expectBigint value;
  protocolInvariant ((- 2 ^ 63 <=? integer) && (integer <=? 2 ^ 63 - 1)) INTEGER_OUT_OF_RANGE ≫= λ _,
  Ok integer.

Definition optional (map : IntegerMap) (key : Z) : option CborValue := map_get (KInt key) map.

Definition required (map : IntegerMap) (key : Z) : result ErrorCode CborValue :=
  match map_get (KInt key) map with Some value => Ok value | None => Err SCHEMA_INVALID end.

Fixpoint assertKnownIntegerKeys (map : IntegerMap) (knownKeys : list Z) : result ErrorCode unit :=
  match map with
  | [] => Ok tt
  | (key, _) :: map' =>
      (match key with
       | KInt z => protocolInvariant (bool_decide (z ∈ knownKeys)) SCHEMA_INVALID
       | _ => Err SCHEMA_INVALID
       end) ≫= λ _, assertKnownIntegerKeys map' knownKeys
  end.

Definition expectVersion (map : IntegerMap) (expected : Z) : result ErrorCode unit :=
  field ← required map 0;
  version ← expectUint64 field;
  protocolInvariant (version =? expected) UNSUPPORTED_VERSION.

(** ** Lemmas: what the readers accept *)

Lemma expectMap_Ok v m : expectMap v = Ok m ↔ v = CMap m.
Proof. split; [destruct v; simpl; congruence|by intros ->]. Qed.
Lemma expectArray_Ok v l : expectArray v = Ok l ↔ v = CArray l.
Proof. split; [destruct v; simpl; congruence|by intros ->]. Qed.
Lemma expectString_Ok v s : expectString v = Ok s ↔ v = CText s.
Proof. split; [destruct v; simpl; congruence|by intros ->]. Qed.
Lemma expectBigint_Ok v z : expectBigint v = Ok z ↔ v = CInt z.
Proof. split; [destruct v; simpl; congruence|by intros ->]. Qed.

Lemma expectBytes_any v b : expectBytes v None = Ok b ↔ v = CBytes b.
Proof. split; [destruct v; simpl; congruence|by intros ->]. Qed.
Lemma expectBytes_sized v n b : expectBytes v (Some n) = Ok b ↔ v = CBytes b ∧ length b = n.
Proof.
  split.
  - destruct v; simpl; try done. unfold protocolInvariant. intros ?; inv_ok. simplify_eq.
    split; [done|]. by apply Nat.eqb_eq.
  - intros [-> <-]. simpl. by rewrite Nat.eqb_refl.
Qed.

Lemma expectUint64_Ok v z : expectUint64 v = Ok z ↔ v = CInt z ∧ 0 ≤ z ≤ MAX_UINT64.
Proof.
  unfold expectUint64, protocolInvariant, MAX_UINT64. split.
  - intros H. inv_ok. simplify_eq. rewrite expectBigint_Ok in *. split; [done|]. lia.
  - intros [-> Hz]. cbn [expectBigint mbind result_bind].
    rewrite !(proj2 (Z.leb_le _ _)) by lia. done.
Qed.

Lemma required_Ok m k v : required m k = Ok v ↔ map_get (KInt k) m = Some v.
Proof. unfold required. case_match; split; congruence. Qed.

Lemma expectVersion_Ok m n :
  expectVersion m n = Ok tt ↔ map_get (KInt 0) m = Some (CInt n) ∧ 0 ≤ n ≤ MAX_UINT64.
Proof.
  unfold expectVersion, protocolInvariant. split.
  - intros H. inv_ok. rewrite required_Ok, expectUint64_Ok in *.
    destruct_and!; subst. match goal with H : (_ =? _) = true |- _ => apply Z.eqb_eq in H; subst end.
    done.
  - intros [H Hn]. rewrite (proj2 (required_Ok _ _ _) H). cbn [mbind result_bind].
    rewrite (proj2 (expectUint64_Ok (CInt n) n)) by done. cbn [mbind result_bind].
    by rewrite Z.eqb_refl.
Qed.

Lemma assertKnownIntegerKeys_Ok m ks :
  assertKnownIntegerKeys m ks = Ok tt ↔ Forall (λ k, ∃ z, k = KInt z ∧ z ∈ ks) m.*1.
Proof.
  induction m as [|[k v] m IH]; [split; [constructor|done]|]. rewrite fmap_cons, Forall_cons, <-IH.
  simpl. unfold protocolInvariant. split.
  - intros H. inv_ok. destruct k as [z| |]; try done. split; [|done]. exists z.
    split; [done|]. inv_ok. by eapply bool_decide_eq_true.
  - intros [(z & -> & Hz) ->]. by rewrite bool_decide_eq_true_2 by done.
Qed.

(** ** Lemmas: records as integer-keyed maps *)

Definition field_entry (e : Z * option CborValue) : option (CborMapKey * CborValue) :=
  (λ v, (KInt e.1, v)) <$> e.2.

Lemma omap_keys_subseteq (es : list (Z * option CborValue)) k v :
  (k, v) ∈ omap field_entry es ↔ ∃ z, k = KInt z ∧ (z, Some v) ∈ es.
Proof.
  rewrite list_elem_of_omap. split.
  - intros ([z [v'|]] & Hin & Heq); [|done]. injection Heq as <- <-. by exists z.
  - intros (z & -> & Hin). by exists (z, Some v).
Qed.

(** With distinct keys [integerMap] lists the present fields in order. *)
Lemma integerMap_omap es : NoDup es.*1 → integerMap es = omap field_entry es.
Proof.
  induction es as [|[k o] es IH] using rev_ind; [done|].
  rewrite fmap_app, NoDup_app. intros (Hes & Hk & _). rewrite omap_app.
  unfold integerMap in *. rewrite foldl_app, (IH Hes). destruct o as [v|]; simpl; [|by rewrite app_nil_r].
  apply map_set_fresh, map_get_None.
  intros ([k' v'] & Hk' & Hin)%list_elem_of_fmap. simpl in Hk'; subst k'.
  apply omap_keys_subseteq in Hin as (z & [= <-] & Hin).
  apply (Hk k); [|set_solver]. apply list_elem_of_fmap. by exists (k, Some v').
Qed.

Lemma omap_keys_NoDup es : NoDup es.*1 → NoDup (omap field_entry es).*1.
Proof.
  induction es as [|[k o] es IH]; [constructor|]. rewrite fmap_cons, NoDup_cons. intros [Hk Hes].
  destruct o as [v|]; simpl; [|auto]. rewrite NoDup_cons. split; [|auto].
  intros ([k' v'] & Hk' & Hin)%list_elem_of_fmap. simpl in Hk'; subst k'.
  apply omap_keys_subseteq in Hin as (z & [= <-] & Hin).
  apply Hk. apply list_elem_of_fmap. by exists (k, Some v').
Qed.

Lemma integerMap_get es k o :
  NoDup es.*1 → (k, o) ∈ es → map_get (KInt k) (integerMap es) = o.
Proof.
  intros Hnd Hin. rewrite integerMap_omap by done. pose proof (omap_keys_NoDup es Hnd) as Hwf.
  destruct o as [v|].
  - apply map_wf_get; [done|]. apply omap_keys_subseteq. by exists k.
  - apply map_get_None. intros ([k' v'] & Hk' & Hin')%list_elem_of_fmap. simpl in Hk'; subst k'.
    apply omap_keys_subseteq in Hin' as (z & [= <-] & Hin').
    apply (map_wf_get k _ es Hnd) in Hin, Hin'. congruence.
Qed.

(** The keys of the protocol records: small, strictly ascending. *)
Fixpoint small_ascending (lo : Z) (ks : list Z) : bool :=
  match ks with
  | [] => true
  | k :: ks' => (lo <=? k) && (k <? 24) && small_ascending (k + 1) ks'
  end.

Lemma small_ascending_spec lo ks :
  small_ascending lo ks = true → Forall (λ k, lo ≤ k < 24) ks ∧ StronglySorted Z.lt ks.
Proof.
  revert lo. induction ks as [|k ks IH]; intros lo; [by repeat constructor|]. simpl.
  intros [[H1 H2]%andb_true_iff H3]%andb_true_iff. apply IH in H3 as [Hall Hs].
  assert (Forall (λ k', k + 1 ≤ k' < 24) ks) by done. split.
  - constructor; [lia|]. eapply Forall_impl; [done|]. simpl. lia.
  - constructor; [done|]. eapply Forall_impl; [done|]. simpl. lia.
Qed.

Lemma small_ascending_NoDup lo ks : small_ascending lo ks = true → NoDup ks.
Proof.
  intros [_ Hs]%small_ascending_spec. induction Hs as [|k ks _ IH Hk]; constructor; [|done].
  intros Hin. rewrite Forall_forall in Hk. specialize (Hk k Hin). lia.
Qed.

Lemma small_key_bytes k : 0 ≤ k < 24 → encodeKey (KInt k) = Ok [byte_of k].
Proof.
  intros Hk. unfold encodeKey, encodeBigint. rewrite (proj2 (Z.ltb_ge k 0)) by lia.
  unfold MAX_UINT64. rewrite (proj2 (Z.leb_le _ _)) by lia.
  unfold encodeHead, canonicalInvariant, MAX_UINT64. rewrite !(proj2 (Z.leb_le _ _)) by lia.
  cbn [andb ensure mbind result_bind]. by rewrite (proj2 (Z.ltb_lt k 24)) by lia.
Qed.

Lemma small_keys_lt k1 k2 : 0 ≤ k1 → k1 < k2 → k2 < 24 →
  compareKeys (key_bytes (KInt k1)) (key_bytes (KInt k2)) < 0.
Proof.
  intros. unfold key_bytes. rewrite !small_key_bytes by lia. unfold compareKeys. simpl length.
  rewrite Nat.eqb_refl, compareBytes_cons, !val_byte_of, !Z.mod_small by lia.
  by rewrite (proj2 (Z.ltb_lt k1 k2)).
Qed.

(** A record whose fields are in canonical form is in canonical form. *)
Lemma integerMap_canonical es :
  small_ascending 0 es.*1 = true →
  Forall (λ e, ∀ v, e.2 = Some v → canonical_form v = v) es →
  canonical_form (CMap (integerMap es)) = CMap (integerMap es).
Proof.
  intros Hks Hes. pose proof (small_ascending_NoDup _ _ Hks) as Hnd.
  apply small_ascending_spec in Hks as [Hrange Hsort].
  rewrite integerMap_omap by done. cbn [canonical_form]. f_equal.
  set (g := λ e : CborMapKey * CborValue, let '(k, item) := e in (key_bytes k, (k, canonical_form item))).
  assert (∀ x, x ∈ omap field_entry es → (g x).2 = x) as Hg.
  { intros [k v] Hin. apply omap_keys_subseteq in Hin as (z & -> & Hin). simpl.
    rewrite Forall_forall in Hes. by rewrite (Hes _ Hin v). }
  rewrite js_sort_id.
  - rewrite <-list_fmap_compose. rewrite <-(list_fmap_id (omap field_entry es)) at 2.
    apply list_fmap_ext. intros i x Hi. apply Hg. by eapply list_elem_of_lookup_2.
  - clear Hnd Hg Hes. induction es as [|[k o] es IH]; [constructor|].
    rewrite fmap_cons in *. inversion Hsort as [|?? Hs Hk]; subst. apply Forall_cons in Hrange as [? Hr].
    destruct o as [v|]; simpl; [|by apply IH]. constructor; [by apply IH|].
    apply Forall_fmap, Forall_forall. intros [k' v'] Hin.
    apply omap_keys_subseteq in Hin as (z & -> & Hin). simpl.
    assert (z ∈ es.*1) as Hz by (apply list_elem_of_fmap; by exists (z, Some v')).
    rewrite Forall_forall in Hk, Hr. specialize (Hk z Hz). specialize (Hr z Hz). simpl in *.
    assert (compareKeys (key_bytes (KInt k)) (key_bytes (KInt z)) < 0); [|lia].
    apply small_keys_lt; lia.
Qed.

(** The fields of a map, as [integerMap] writes them. *)
Definition fields_of (m : IntegerMap) (ks : list Z) : list (Z * option CborValue) :=
  (λ k, (k, optional m k)) <$> ks.

(** A map with known keys only has the encoding of the record of its fields. *)
Lemma record_encoding m ks bs :
  encodeCanonicalCbor (CMap m) = Ok bs → assertKnownIntegerKeys m ks = Ok tt → NoDup ks →
  encodeCanonicalCbor (CMap (integerMap (fields_of m ks))) = Ok bs.
Proof.
  intros Henc Hknown%assertKnownIntegerKeys_Ok Hks. pose proof (encode_map_NoDup _ _ Henc) as Hm.
  assert ((fields_of m ks).*1 = ks) as Hfst.
  { unfold fields_of. rewrite <-list_fmap_compose. apply list_fmap_id. }
  apply (encode_map_perm m); [|done]. rewrite integerMap_omap by (by rewrite Hfst).
  apply NoDup_Permutation.
  - by apply (NoDup_fmap_1 fst).
  - apply (NoDup_fmap_1 fst), omap_keys_NoDup. by rewrite Hfst.
  - intros [k v]. rewrite omap_keys_subseteq. unfold fields_of, optional. split.
    + intros Hin. rewrite Forall_forall in Hknown.
      destruct (Hknown k) as (z & -> & Hz); [by apply (list_elem_of_fmap_2 fst) in Hin|].
      exists z. split; [done|]. apply list_elem_of_fmap. exists z.
      split; [|done]. by rewrite (map_wf_get _ v).
    + intros (z & -> & (z' & [= -> Hv] & _)%list_elem_of_fmap). symmetry in Hv.
      by apply map_get_Some_elem.
Qed.

Lemma omap_length_le es : zlen (omap field_entry es) ≤ zlen es.
Proof.
  unfold zlen. apply Nat2Z.inj_le. induction es as [|[k o] es IH]; [done|].
  destruct o as [v|]; [by apply le_n_S|by apply le_S].
Qed.

(** A record of at most 24 fields of admissible shape has an admissible shape. *)
Lemma integerMap_shape limits depth es :
  small_ascending 0 es.*1 = true → zlen es ≤ 24 → 24 ≤ maxMapItems limits →
  depth + 1 ≤ maxDepth limits →
  Forall (λ e, ∀ v, e.2 = Some v → shape limits (depth + 1) v = true) es →
  shape limits depth (CMap (integerMap es)) = true.
Proof.
  intros Hks Hlen Hmax Hdepth Hes. pose proof (small_ascending_NoDup _ _ Hks) as Hnd.
  apply small_ascending_spec in Hks as [Hrange _].
  rewrite integerMap_omap by done. cbn [shape].
  pose proof (omap_length_le es).
  unfold MAX_SAFE_INTEGER. rewrite !(proj2 (Z.leb_le _ _)) by lia. rewrite !andb_true_l.
  apply forallb_forall. intros [k v] Hin%list_elem_of_In.
  apply omap_keys_subseteq in Hin as (z & -> & Hin). rewrite Forall_forall in Hes. rewrite Forall_forall in Hrange.
  rewrite (Hes _ Hin v), andb_true_r by done. unfold key_shape.
  assert (0 ≤ z < 24) by (apply Hrange, list_elem_of_fmap; by exists (z, Some v)).
  rewrite (proj2 (Z.leb_le _ _)) by lia. simpl. unfold small_int, MAX_UINT64.
  rewrite (proj2 (Z.ltb_ge z 0)) by lia. apply Z.leb_le. lia.
Qed.
