(* ===== verification/CborTheorems.v ===== *)
(** * What the deterministic CBOR codec guarantees

    The theorems on [packages/canonical/src/cbor.ts] that the rest of the
    system relies on: signed bytes decode to the value that was signed, a
    value has one encoding, and the decoder accepts only that encoding.  The
    examples at the end show where [TextDecoder]'s byte-order mark breaks the
    latter. *)

From Stdlib Require Import Strings.Byte.
From stdpp Require Import base list option numbers sorting sets.
From S2P Require Import Prelude JsMap Bytes Text Cbor CborProofs Schema.

#[local] Open Scope Z_scope.

(** a value that is encoded and is within the limits is decoded to itself,
    with the entries of its maps in canonical key order. *)
Theorem cbor_roundtrip limits v bs :
  encodeCanonicalCbor v = Ok bs → fits limits 0 v = true → zlen bs ≤ maxBytes limits →
  decodeCanonicalCbor limits bs = Ok (canonical_form v).
Proof.
  intros Henc Hfit Hmax. unfold decodeCanonicalCbor, canonicalInvariant.
  rewrite (proj2 (Z.leb_le _ _)) by done. cbn [ensure mbind result_bind].
  rewrite <-(app_nil_r bs). rewrite (decode_value_complete _ v) by done. done.
Qed.

Definition sample_value : CborValue :=
  CMap [(KText [0x62], CInt (-(2 ^ 70))); (KInt 7, CArray [CBool true; CNull; CBytes [x00; xff]]);
        (KInt (-1), CText [0x61; 0xd83d; 0xde00])].

Lemma cbor_roundtrip_witness : ∃ bs,
  encodeCanonicalCbor sample_value = Ok bs ∧
  decodeCanonicalCbor DEFAULT_DECODE_LIMITS bs = Ok (canonical_form sample_value).
Proof.
  eexists. split; [vm_compute; reflexivity|].
  apply cbor_roundtrip; [vm_compute; reflexivity|vm_compute; reflexivity|vm_compute; discriminate].
Defined.

(** C7: the decoder is strict.  Without the bytes of a byte-order mark, an
    accepted input is the canonical encoding of the decoded value: no other
    spelling of it is accepted. *)
Theorem cbor_strict limits bs v :
  decodeCanonicalCbor limits bs = Ok v → contains_bom bs = false →
  encodeCanonicalCbor v = Ok bs ∧ assertCanonicalCbor limits bs = Ok v.
Proof.
  intros Hd Hbom. assert (encodeCanonicalCbor v = Ok bs) as Henc.
  { unfold decodeCanonicalCbor, canonicalInvariant in Hd. inv_ok. simplify_eq.
    match goal with H : decode_value _ _ _ _ = Ok _ |- _ =>
      destruct (decode_value_strict _ _ _ _ _ _ H Hbom) as (b & -> & Henc) end.
    match goal with H : (zlen ?r =? 0) = true |- _ => destruct r; [by rewrite app_nil_r|done] end. }
  split; [done|]. unfold assertCanonicalCbor, canonicalInvariant. rewrite Hd.
  cbn [mbind result_bind]. rewrite Henc. cbn [mbind result_bind].
  by rewrite (proj2 (equalBytes_spec bs bs)).
Qed.

Lemma cbor_strict_witness :
  ∃ v, decodeCanonicalCbor DEFAULT_DECODE_LIMITS [xa1; x07; x82; xf5; x20] = Ok v ∧
    encodeCanonicalCbor v = Ok [xa1; x07; x82; xf5; x20] ∧
    assertCanonicalCbor DEFAULT_DECODE_LIMITS [xa1; x07; x82; xf5; x20] = Ok v.
Proof.
  eexists. split; [vm_compute; reflexivity|].
  apply cbor_strict; vm_compute; reflexivity.
Defined.

(** a value has one encoding whatever the order in which the entries of a
    map were inserted. *)
Theorem cbor_map_order_independent m1 m2 bs :
  m1 ≡ₚ m2 → encodeCanonicalCbor (CMap m1) = Ok bs → encodeCanonicalCbor (CMap m2) = Ok bs.
Proof. apply encode_map_perm. Qed.

Lemma cbor_map_order_independent_witness :
  encodeCanonicalCbor (CMap [(KInt 2, CNull); (KText [0x61], CBool true)]) =
    Ok [xa2; x02; xf6; x61; x61; xf5] ∧
  encodeCanonicalCbor (CMap [(KText [0x61], CBool true); (KInt 2, CNull)]) =
    Ok [xa2; x02; xf6; x61; x61; xf5].
Proof.
  split; [vm_compute; reflexivity|].
  apply (cbor_map_order_independent [(KInt 2, CNull); (KText [0x61], CBool true)]);
    [apply Permutation_swap|vm_compute; reflexivity].
Defined.

(** [assertCanonicalCbor] accepts exactly the canonical encodings of the
    values within the limits that are listed in canonical order. *)
Theorem assert_canonical_iff limits bs v :
  fits limits 0 v = true → canonical_form v = v → zlen bs ≤ maxBytes limits →
  assertCanonicalCbor limits bs = Ok v ↔ encodeCanonicalCbor v = Ok bs.
Proof.
  intros Hfit Hcan Hmax. split; [apply assert_sound|]. by apply assert_complete.
Qed.

Lemma assert_canonical_iff_witness :
  assertCanonicalCbor DEFAULT_DECODE_LIMITS [x82; x01; x40] = Ok (CArray [CInt 1; CBytes []]).
Proof.
  apply assert_canonical_iff; [vm_compute; reflexivity..|vm_compute; discriminate|].
  vm_compute; reflexivity.
Defined.

(** ** The byte-order mark

    [TextDecoder] drops a leading [EF BB BF], so the decoder alone accepts a
    text that is not the canonical spelling of what it returns, and two map
    keys that differ by it collapse; [assertCanonicalCbor] rejects both. *)

Example decode_drops_bom :
  decodeCanonicalCbor DEFAULT_DECODE_LIMITS [x63; xef; xbb; xbf] = Ok (CText []) ∧
  encodeCanonicalCbor (CText []) = Ok [x60] ∧
  assertCanonicalCbor DEFAULT_DECODE_LIMITS [x63; xef; xbb; xbf] = Err CBOR_NON_CANONICAL.
Proof. vm_compute. split_and!; reflexivity. Qed.

Example decode_merges_bom_keys :
  decodeCanonicalCbor DEFAULT_DECODE_LIMITS [xa2; x61; x61; x01; x64; xef; xbb; xbf; x61; x02] =
    Ok (CMap [(KText [0x61], CInt 2)]).
Proof. vm_compute. reflexivity. Qed.

(** * Injectivity of the encoding

    Equal bytes come from values that differ at most in the insertion order of
    their maps, for every encoding shorter than [Number.MAX_SAFE_INTEGER]
    bytes: no decode limit is involved, the decoder with generous limits is
    only a device of the proof. *)

(** How deep the decoder descends into a value, bignum payloads included. *)
Fixpoint height (v : CborValue) : Z :=
  match v with
  | CArray l => 3 + foldr (λ v m, Z.max (height v) m) 0 l
  | CMap m => 3 + foldr (λ e m, match e with (_, item) => Z.max (height item) m end) 0 m
  | _ => 2
  end.

Definition generous (depth : Z) : DecodeLimits :=
  mkDecodeLimits MAX_SAFE_INTEGER depth MAX_SAFE_INTEGER MAX_SAFE_INTEGER MAX_SAFE_INTEGER MAX_SAFE_INTEGER.

Lemma height_nonneg v : 2 ≤ height v.
Proof.
  destruct v as [| | | | |l|m]; cbn [height]; try lia.
  - induction l as [|v l IH]; cbn [foldr]; lia.
  - induction m as [|[k v] m IH]; cbn [foldr]; lia.
Qed.

Lemma height_array l v : v ∈ l → height v + 1 ≤ height (CArray l).
Proof.
  cbn [height]. induction l as [|w l IH]; [by intros ?%elem_of_nil|].
  intros [->|Hin]%elem_of_cons; cbn [foldr]; [lia|]. specialize (IH Hin). lia.
Qed.

Lemma height_map m k v : (k, v) ∈ m → height v + 1 ≤ height (CMap m).
Proof.
  cbn [height]. induction m as [|[k' w] m IH]; [by intros ?%elem_of_nil|].
  intros [[= -> ->]|Hin]%elem_of_cons; cbn [foldr]; [lia|]. specialize (IH Hin). lia.
Qed.

(** ** Sizes *)

Lemma zlen_app_l {A} (l1 l2 : list A) : zlen l1 ≤ zlen (l1 ++ l2).
Proof. rewrite zlen_app. pose proof (zlen_nonneg l2). lia. Qed.
Lemma zlen_app_r {A} (l1 l2 : list A) : zlen l2 ≤ zlen (l1 ++ l2).
Proof. rewrite zlen_app. pose proof (zlen_nonneg l1). lia. Qed.

Lemma encodeHead_size major v h : encodeHead major v = Ok h → 1 ≤ zlen h.
Proof. intros (a & t & _ & ->)%encodeHead_form. unfold zlen. cbn [length]. lia. Qed.

Lemma concat_size (head : bytes) rest : 1 ≤ zlen head → 1 ≤ zlen (concatBytes (head :: rest)).
Proof. intros H. rewrite concatBytes_cons, zlen_app. pose proof (zlen_nonneg (concatBytes rest)). lia. Qed.

Lemma encodeBigint_size z bs : encodeBigint z = Ok bs → 1 ≤ zlen bs.
Proof.
  unfold encodeBigint. case_match; intros Henc; [by eapply encodeHead_size|]. inv_ok. subst.
  apply concat_size. by eapply encodeHead_size.
Qed.

Lemma encodeText_size s bs : encodeText s = Ok bs → 1 ≤ zlen bs.
Proof. unfold encodeText. intros H. inv_ok. subst. apply concat_size. by eapply encodeHead_size. Qed.

Lemma encodeBytes_nonempty b bs : encodeByteString b = Ok bs → 1 ≤ zlen bs.
Proof. unfold encodeByteString. intros H. inv_ok. subst. apply concat_size. by eapply encodeHead_size. Qed.

Lemma encodeKey_size k bs : encodeKey k = Ok bs → 1 ≤ zlen bs.
Proof.
  destruct k; cbn [encodeKey]; [apply encodeBigint_size|apply encodeText_size|apply encodeBytes_nonempty].
Qed.

Lemma encode_size v bs : encodeCanonicalCbor v = Ok bs → 1 ≤ zlen bs.
Proof.
  destruct v as [|[]|z|s|b|l|m]; cbn [encodeCanonicalCbor].
  - by intros [= <-].
  - by intros [= <-].
  - by intros [= <-].
  - apply encodeBigint_size.
  - apply encodeText_size.
  - apply encodeBytes_nonempty.
  - intros H. inv_ok. subst. apply concat_size. by eapply encodeHead_size.
  - intros H. inv_ok.
    match goal with H : mapR _ _ = Ok _ |- _ => apply encode_entries_zip in H as (qs & <- & <- & Hqs) end.
    apply encodeEntries_zip in H as (head & Hh & -> & _).
    etrans; [by eapply encodeHead_size|]. apply zlen_app_l.
Qed.

Lemma mjoin_size (l : list bytes) : Forall (λ b, 1 ≤ zlen b) l → zlen l ≤ zlen (mjoin l).
Proof.
  induction 1 as [|b l Hb _ IH]; [done|]. rewrite mjoin_cons, zlen_app.
  change (b :: l) with ([b] ++ l). rewrite zlen_app. change (zlen [b]) with 1. lia.
Qed.

Lemma array_size l bs : encodeCanonicalCbor (CArray l) = Ok bs → zlen l ≤ zlen bs.
Proof.
  cbn [encodeCanonicalCbor]. intros H. inv_ok. subst. rename x into head, x0 into items.
  rename select (mapR _ _ = Ok _) into Hitems. pose proof (mapR_length _ _ _ Hitems) as Hn.
  apply mapR_Ok in Hitems. rewrite concatBytes_cons, zlen_app. pose proof (zlen_nonneg head).
  assert (zlen items ≤ zlen (mjoin items)) as Hle.
  { apply mjoin_size, Forall_forall. intros b (i & Hi)%list_elem_of_lookup.
    destruct (Forall2_lookup_r _ _ _ _ _ Hitems Hi) as (v & _ & Hv). by eapply encode_size. }
  unfold concatBytes, zlen in *. lia.
Qed.

Lemma map_size m bs : encodeCanonicalCbor (CMap m) = Ok bs → zlen m ≤ zlen bs.
Proof.
  cbn [encodeCanonicalCbor]. intros Henc. inv_ok.
  match goal with H : mapR _ _ = Ok _ |- _ => apply encode_entries_zip in H as (qs & <- & <- & Hqs) end.
  apply encodeEntries_zip in Henc as (head & _ & -> & _).
  assert (zlen ((λ q : quad, q.1.1 ++ q.1.2) <$> js_sort compareQuads qs) ≤
          zlen (mjoin ((λ q : quad, q.1.1 ++ q.1.2) <$> js_sort compareQuads qs))) as Hle.
  { apply mjoin_size, Forall_forall. intros b (q & -> & Hq%elem_of_js_sort)%list_elem_of_fmap.
    rewrite Forall_forall in Hqs. destruct (Hqs q Hq) as [Hk _].
    etrans; [by eapply encodeKey_size|]. apply zlen_app_l. }
  etrans; [|apply zlen_app_r]. etrans; [|exact Hle].
  unfold zlen. by rewrite !length_fmap, js_sort_length.
Qed.

(** ** Every encodable value fits generous limits *)

Section generous.
Context (limit : Z).
Implicit Types (bs : bytes).

Lemma generous_int z depth bs :
  encodeBigint z = Ok bs → zlen bs ≤ MAX_SAFE_INTEGER → depth + 2 ≤ limit →
  int_fits (generous limit) depth z = true.
Proof.
  unfold encodeBigint, int_fits. case_match; [done|]. intros Henc Hlen Hd. inv_ok. subst.
  rename select (magnitudeBytes _ = Ok _) into Hm. rewrite Hm.
  rewrite !concatBytes_cons, !zlen_app in Hlen. pose proof (zlen_nonneg (concatBytes [])).
  repeat match type of Hlen with context [zlen ?x] => match goal with
    | H : 0 ≤ zlen x |- _ => fail 1 | _ => pose proof (zlen_nonneg x) end end.
  cbn [maxDepth maxBlobBytes generous]. rewrite (proj2 (Z.ltb_lt _ _)) by lia.
  rewrite !(proj2 (Z.leb_le _ _)) by lia. by rewrite orb_true_r.
Qed.

Lemma generous_text s bs :
  encodeText s = Ok bs → zlen bs ≤ MAX_SAFE_INTEGER → text_fits (generous limit) s = true.
Proof.
  unfold encodeText, text_fits. intros H Hlen. inv_ok. subst.
  rename select (utf8 s = Ok _) into Hs. rewrite Hs.
  rewrite !concatBytes_cons, !zlen_app in Hlen. pose proof (zlen_nonneg (concatBytes [])).
  repeat match type of Hlen with context [zlen ?x] => match goal with
    | H : 0 ≤ zlen x |- _ => fail 1 | _ => pose proof (zlen_nonneg x) end end.
  cbn [maxTextBytes generous]. by rewrite !(proj2 (Z.leb_le _ _)) by lia.
Qed.

Lemma generous_key k depth bs :
  encodeKey k = Ok bs → zlen bs ≤ MAX_SAFE_INTEGER → depth + 2 ≤ limit →
  key_fits (generous limit) depth k = true.
Proof.
  intros Hk Hlen Hd. unfold key_fits. cbn [maxDepth generous]. rewrite (proj2 (Z.leb_le _ _)) by lia.
  rewrite andb_true_l. destruct k; cbn [encodeKey] in Hk.
  - by eapply generous_int.
  - by eapply generous_text.
  - by eapply blob_fits_size.
Qed.

Lemma generous_fits v : ∀ depth bs,
  encodeCanonicalCbor v = Ok bs → zlen bs ≤ MAX_SAFE_INTEGER → depth + height v ≤ limit →
  fits (generous limit) depth v = true.
Proof.
  induction v as [|b|z|s|b|l IH|m IH] using CborValue_nested_ind; intros depth bs Henc Hlen Hd;
    (match type of Hd with context [height ?v] => pose proof (height_nonneg v) end);
    cbn [fits maxDepth generous]; rewrite (proj2 (Z.leb_le depth _)) by lia;
    rewrite andb_true_l; try done.
  - by eapply generous_int.
  - by eapply generous_text.
  - by eapply blob_fits_size.
  - pose proof (array_size _ _ Henc). cbn [maxArrayItems generous].
    rewrite !(proj2 (Z.leb_le _ _)) by lia. rewrite !andb_true_l.
    apply forallb_forall. intros v Hv%list_elem_of_In.
    destruct (encode_array_item _ _ _ Henc Hv) as (b & Hb & Hle).
    rewrite Forall_forall in IH. eapply IH; [done..|lia|].
    pose proof (height_array _ _ Hv). lia.
  - pose proof (map_size _ _ Henc). cbn [maxMapItems generous].
    rewrite !(proj2 (Z.leb_le _ _)) by lia. rewrite !andb_true_l.
    apply forallb_forall. intros [k v] Hv%list_elem_of_In.
    destruct (encode_map_item _ _ _ _ Henc Hv) as [(kb & Hkb & Hkle) (b & Hb & Hle)].
    pose proof (height_map _ _ _ Hv). pose proof (height_nonneg v).
    rewrite (generous_key k (depth + 1) kb) by (done || lia). rewrite andb_true_l.
    rewrite Forall_forall in IH. eapply (IH (k, v)); [done..|lia|]. simpl. lia.
Qed.
End generous.

(** The encoder separates values up to the order of map entries. *)
Lemma encode_injective v1 v2 bs :
  encodeCanonicalCbor v1 = Ok bs → encodeCanonicalCbor v2 = Ok bs → zlen bs ≤ MAX_SAFE_INTEGER →
  canonical_form v1 = canonical_form v2.
Proof.
  intros H1 H2 Hlen. apply (encode_inj (generous (Z.max (height v1) (height v2))) _ _ bs); [done..| |];
    (eapply generous_fits; [done..|lia]).
Qed.

(** A field of a record is determined by the record's bytes. *)
Lemma canonical_map_get m k : NoDup m.*1 →
  ∀ m', canonical_form (CMap m) = CMap m' → map_get k m' = canonical_form <$> map_get k m.
Proof.
  cbn [canonical_form]. intros Hnd m' [= <-].
  set (g := λ e : CborMapKey * CborValue, let '(k, item) := e in (key_bytes k, (k, canonical_form item))).
  set (sorted := js_sort _ (g <$> m)).
  assert (((λ e, e.2) <$> sorted) ≡ₚ ((λ e, (e.1, canonical_form e.2)) <$> m)) as Hp.
  { unfold sorted. rewrite js_sort_perm, <-list_fmap_compose.
    match goal with |- ?l ≡ₚ ?r => replace l with r; [done|] end.
    apply list_fmap_ext. by intros i [k' v']. }
  assert (NoDup ((λ e, e.2) <$> sorted).*1) as Hwf.
  { rewrite Hp, <-list_fmap_compose. exact Hnd. }
  destruct (map_get k m) as [v|] eqn:Hk; cbn [fmap option_fmap option_map].
  - apply map_wf_get; [done|]. rewrite Hp. apply list_elem_of_fmap. exists (k, v).
    split; [done|]. by apply map_get_Some_elem.
  - apply map_get_None. unfold map_keys. rewrite Hp, <-list_fmap_compose. by apply map_get_None.
Qed.

Lemma record_field_determined es es' k bs :
  encodeCanonicalCbor (CMap (integerMap es)) = Ok bs →
  encodeCanonicalCbor (CMap (integerMap es')) = Ok bs → zlen bs ≤ MAX_SAFE_INTEGER →
  canonical_form <$> map_get (KInt k) (integerMap es) = canonical_form <$> map_get (KInt k) (integerMap es').
Proof.
  intros H1 H2 Hlen. pose proof (encode_injective _ _ _ H1 H2 Hlen) as Heq.
  destruct (canonical_form (CMap (integerMap es'))) as [| | | | | |m'] eqn:Hm'; try done.
  rewrite <-(canonical_map_get _ _ (encode_map_NoDup _ _ H1) _ Heq).
  by rewrite <-(canonical_map_get _ _ (encode_map_NoDup _ _ H2) _ Hm').
Qed.

(** * Forms within a decoder's limits

    Most records of the protocol are maps with few integer keys, of bounded depth,
    with small fields.  Such a form is in canonical order and within the limits of
    the decoder that will read it, whatever its values: [tidy height v] says so for
    every place in a message with room for [height] more levels.  A codec proves
    its forms tidy with [tidy_map]; that its bytes are read is then one lemma. *)

(** Limits with the usual depth and room for the records of the protocol. *)
Class RecordLimits (limits : DecodeLimits) : Prop := {
  record_depth : maxDepth limits = 64;
  record_items : 24 ≤ maxMapItems limits;
  record_bytes : maxBlobBytes limits ≤ maxBytes limits ∧ maxBlobBytes limits ≤ MAX_SAFE_INTEGER;
  record_array : maxArrayItems limits ≤ MAX_SAFE_INTEGER;
}.

#[export] Instance default_limits : RecordLimits DEFAULT_DECODE_LIMITS.
Proof. by split; vm_compute. Qed.

Section tidy.
Context (limits : DecodeLimits) `{!RecordLimits limits}.

Definition tidy (height : Z) (v : CborValue) : Prop :=
  canonical_form v = v ∧ ∀ depth, depth + height ≤ 64 → shape limits depth v = true.

Lemma tidy_weaken d d' v : tidy d v → d ≤ d' → tidy d' v.
Proof. intros [Hc Hs] Hd. split; [done|]. intros depth Hdepth. apply Hs. lia. Qed.

(** A value without parts. *)
Lemma tidy_leaf d v : 0 ≤ d → canonical_form v = v →
  match v with CNull | CBool _ | CBytes _ => True | CInt z => small_int z = true | CText s => text_fits limits s = true | _ => False end →
  tidy d v.
Proof.
  intros Hd Hc Hv. split; [done|]. intros depth H. destruct v; cbn [shape]; try done;
    rewrite record_depth, (proj2 (Z.leb_le _ _)) by lia; done.
Qed.

Lemma tidy_bytes b d : 0 ≤ d → tidy d (CBytes b).
Proof. intros Hd. by apply tidy_leaf. Qed.
Lemma tidy_null d : 0 ≤ d → tidy d CNull.
Proof. intros Hd. by apply tidy_leaf. Qed.
Lemma tidy_int z d : 0 ≤ d → 0 ≤ z ≤ MAX_UINT64 → tidy d (CInt z).
Proof.
  intros Hd Hz. apply tidy_leaf; [done..|]. unfold small_int. rewrite (proj2 (Z.ltb_ge z 0)) by lia. apply Z.leb_le. lia.
Qed.
Lemma tidy_text s d : 0 ≤ d → text_fits limits s = true → tidy d (CText s).
Proof. intros Hd Hs. by apply tidy_leaf. Qed.

Lemma tidy_record d es : small_ascending 0 es.*1 = true → zlen es ≤ 24 → 0 ≤ d →
  Forall (λ e, ∀ v, e.2 = Some v → tidy d v) es → tidy (d + 1) (CMap (integerMap es)).
Proof.
  intros Hks Hlen Hd Hes. split.
  - apply integerMap_canonical; [done|]. eapply Forall_impl; [exact Hes|]. simpl. intros e He v Hv. by apply He.
  - intros depth Hdepth. apply integerMap_shape; [done..|apply record_items|rewrite record_depth; lia|].
    eapply Forall_impl; [exact Hes|]. simpl. intros e He v Hv. apply He; [done|lia].
Qed.

Lemma tidy_array d l : zlen l ≤ maxArrayItems limits → 0 ≤ d → Forall (tidy d) l → tidy (d + 1) (CArray l).
Proof.
  intros Hlen Hd Hl. pose proof (record_array (limits:=limits)). split.
  - cbn [canonical_form]. f_equal. clear Hlen. induction Hl as [|v l [Hv _] _ IH]; [done|]. by rewrite fmap_cons, Hv, IH.
  - intros depth Hdepth. cbn [shape]. rewrite record_depth, !(proj2 (Z.leb_le _ _)) by lia. cbn [andb].
    apply forallb_forall. intros v Hv%list_elem_of_In. rewrite Forall_forall in Hl. apply (Hl v Hv). lia.
Qed.

(** A tidy form of which the bytes are within the limit on a byte string is read. *)
Lemma tidy_asserted d v b : tidy d v → d ≤ 64 → zlen b ≤ maxBlobBytes limits →
  encodeCanonicalCbor v = Ok b → assertCanonicalCbor limits b = Ok v.
Proof.
  intros [Hc Hs] Hd Hlen Hb. pose proof (record_bytes (limits:=limits)). apply assert_complete; [|done|lia|done].
  eapply fits_of_shape; [done..|lia|]. apply Hs. lia.
Qed.
End tidy.
Arguments tidy_asserted {limits _} d v b.
Arguments tidy_array {limits _} d l.
Arguments tidy_weaken {limits} d d' v.

(** The fields of a record, each of them tidy. *)
Ltac tidy_field :=
  intros ? [= <-];
  first [ apply tidy_bytes; [apply _|lia] | apply tidy_null; [apply _|lia]
        | apply tidy_int; [apply _|lia|unfold MAX_UINT64, MAX_SAFE_INTEGER in *; lia]
        | eassumption | by eapply tidy_weaken; [eassumption|lia] ].
Ltac tidy_fields := repeat (apply Forall_cons; split; [tidy_field|]); apply Forall_nil; exact I.
Ltac tidy_map := apply tidy_record; [apply _|reflexivity|done|lia|tidy_fields].
