(* ===== verification/Domains.v ===== *)
(** * Domain-separated hashing

    [packages/protocol/src/primitives.ts] prefixes the NUL-terminated name of
    a domain to the bytes that are hashed or signed;
    [packages/canonical/src/hash.ts] prefixes the length of the name as well.
    SHA-256 itself is WebCrypto's and a parameter of what uses it. *)

From Stdlib Require Import Strings.Byte Strings.String.
From stdpp Require Import base list option numbers sets sorting.
From S2P Require Import Prelude Bytes Text.

#[local] Open Scope Z_scope.

(** ** protocol/src/primitives.ts *)

Inductive ProtocolDomain :=
  | Dtransaction | DtransactionDigest | Dattestation | Dheartbeat | Denvelope | DpayloadChunk
  | DcanonicalResult | Dgenesis | DcapabilityRevision | DcapabilityGrant | DvalidationPolicy
  | DcapabilitySnapshot | DsnapshotManifest | DmaterializedLog | Drecovery | DepochManifest
  | DepochWrap | DepochPayload | DdrillEvidence.

Definition DOMAINS (d : ProtocolDomain) : jsstring :=
  js (match d with
      | Dtransaction => "chronolog/transaction-core/v1"
      | DtransactionDigest => "chronolog/transaction-digest/v1"
      | Dattestation => "chronolog/transaction-attestation/v1"
      | Dheartbeat => "chronolog/validator-heartbeat/v1"
      | Denvelope => "chronolog/envelope/v1"
      | DpayloadChunk => "chronolog/payload-chunk/v1"
      | DcanonicalResult => "chronolog/sql-result/v1"
      | Dgenesis => "chronolog/genesis/v1"
      | DcapabilityRevision => "chronolog/capability-revision/v1"
      | DcapabilityGrant => "chronolog/capability-grant/v1"
      | DvalidationPolicy => "chronolog/validation-policy/v1"
      | DcapabilitySnapshot => "chronolog/capability-snapshot/v1"
      | DsnapshotManifest => "chronolog/snapshot-manifest/v1"
      | DmaterializedLog => "chronolog/materialized-log/v1"
      | Drecovery => "chronolog/recovery/v1"
      | DepochManifest => "chronolog/epoch-manifest/v1"
      | DepochWrap => "chronolog/epoch-wrap/v1"
      | DepochPayload => "chronolog/epoch-payload/v1"
      | DdrillEvidence => "chronolog/drill-evidence/v1"
      end%string).

Definition domainSeparatedBytes (domain : ProtocolDomain) (payload : bytes) : result ErrorCode bytes :=
  name ← utf8 (DOMAINS domain); Ok (concatBytes [name; [x00]; payload]).

(** ** canonical/src/hash.ts *)

Inductive HashDomainKey :=
  | Htransaction | Hschema | HexecutionManifest | HqueryResult | Hexpectation | Hmodule | Hentropy.

Definition HASH_DOMAINS (d : HashDomainKey) : jsstring :=
  js (match d with
      | Htransaction => "chronolog/transaction"
      | Hschema => "chronolog/schema"
      | HexecutionManifest => "chronolog/execution-manifest"
      | HqueryResult => "chronolog/query-result"
      | Hexpectation => "chronolog/expectation"
      | Hmodule => "chronolog/module"
      | Hentropy => "chronolog/entropy"
      end%string).

(** [new DataView(size.buffer).setUint32(0, name.length, false)] *)
Definition canonicalDomainBytes (domain : HashDomainKey) (payload : bytes) : result ErrorCode bytes :=
  name ← utf8 (HASH_DOMAINS domain);
  let size := be_bytes 4 (Z.of_nat (length name)) in
  Ok (concatBytes [size; name; [x00]; payload]).

Section hashing.
Context (sha256 : bytes → bytes).

Definition hashDomain (domain : ProtocolDomain) (payload : bytes) : result ErrorCode bytes :=
  b ← domainSeparatedBytes domain payload; Ok (sha256 b).

Definition hashCanonicalDomain (domain : HashDomainKey) (payload : bytes) : result ErrorCode bytes :=
  b ← canonicalDomainBytes domain payload; Ok (sha256 b).

Definition assertDigest (domain : ProtocolDomain) (payload expected : bytes) : result ErrorCode unit :=
  digest ← hashDomain domain payload;
  protocolInvariant (equalBytes digest expected) DIGEST_MISMATCH.
End hashing.

Section signatures.
(** WebCrypto's Ed25519 verification: message, signature, raw public key. *)
Context (ed25519_verify : bytes → bytes → bytes → bool).

(** [importEd25519PublicKey] rejects keys that are not 32 bytes; any error
    inside the [try] makes the result [false]. *)
Definition verifyDomain (domain : ProtocolDomain) (payload signature publicKey : bytes) : bool :=
  if negb (length signature =? 64)%nat then false
  else if negb (length publicKey =? 32)%nat then false
  else match domainSeparatedBytes domain payload with
  | Ok message => ed25519_verify message signature publicKey
  | Err _ => false
  end.
End signatures.

(** ** Lemmas *)

Definition domain_name (d : ProtocolDomain) : bytes :=
  match utf8 (DOMAINS d) with Ok b => b | Err _ => [] end.
Definition hash_domain_name (d : HashDomainKey) : bytes :=
  match utf8 (HASH_DOMAINS d) with Ok b => b | Err _ => [] end.

Lemma domainSeparatedBytes_total d p :
  domainSeparatedBytes d p = Ok (domain_name d ++ x00 :: p).
Proof.
  unfold domainSeparatedBytes, domain_name.
  destruct d; (destruct (utf8 _) eqn:E; [|by vm_compute in E]); cbn [mbind result_bind];
    by rewrite !concatBytes_cons, concatBytes_nil, app_nil_r.
Qed.

Lemma canonicalDomainBytes_total d p :
  canonicalDomainBytes d p =
    Ok (be_bytes 4 (Z.of_nat (length (hash_domain_name d))) ++ hash_domain_name d ++ x00 :: p).
Proof.
  unfold canonicalDomainBytes, hash_domain_name.
  destruct d; (destruct (utf8 _) eqn:E; [|by vm_compute in E]); cbn [mbind result_bind]; cbv zeta;
    by rewrite !concatBytes_cons, concatBytes_nil, app_nil_r.
Qed.

Lemma domain_name_no_nul d : x00 ∉ domain_name d.
Proof. by apply (bool_decide_eq_true (x00 ∉ domain_name d)); destruct d; vm_compute. Qed.

(** The names are distinct: a domain is found again by its name. *)
Definition all_domains : list ProtocolDomain :=
  [Dtransaction; DtransactionDigest; Dattestation; Dheartbeat; Denvelope; DpayloadChunk;
   DcanonicalResult; Dgenesis; DcapabilityRevision; DcapabilityGrant; DvalidationPolicy;
   DcapabilitySnapshot; DsnapshotManifest; DmaterializedLog; Drecovery; DepochManifest;
   DepochWrap; DepochPayload; DdrillEvidence].
Definition domain_named (name : bytes) : option ProtocolDomain :=
  snd <$> list_find (λ d, domain_name d = name) all_domains.

Lemma domain_named_name d : domain_named (domain_name d) = Some d.
Proof. by destruct d; vm_compute. Qed.

Lemma domain_name_inj d d' : domain_name d = domain_name d' → d = d'.
Proof. intros H%(f_equal domain_named). rewrite !domain_named_name in H. congruence. Qed.

Lemma hash_domain_name_inj d d' : hash_domain_name d = hash_domain_name d' → d = d'.
Proof. by destruct d, d'; vm_compute. Qed.

Lemma hash_domain_name_length d : 0 ≤ Z.of_nat (length (hash_domain_name d)) < 256 ^ Z.of_nat 4.
Proof. by destruct d; vm_compute. Qed.

(** Two byte strings split at their first NUL in only one way. *)
Lemma nul_split_inj (a b p q : bytes) :
  x00 ∉ a → x00 ∉ b → a ++ x00 :: p = b ++ x00 :: q → a = b ∧ p = q.
Proof.
  revert b. induction a as [|x a IH]; intros [|y b] Ha Hb Heq; simplify_eq/=.
  - done.
  - destruct Hb. left.
  - destruct Ha. left.
  - destruct (IH b) as [-> ->]; [set_solver..|done|done].
Qed.

(** the protocol's domain separation is injective: bytes hashed or signed
    in one domain are never those of another domain or of another payload. *)
Theorem domain_separation d p d' p' b :
  domainSeparatedBytes d p = Ok b → domainSeparatedBytes d' p' = Ok b → d = d' ∧ p = p'.
Proof.
  rewrite !domainSeparatedBytes_total. intros [= <-] [= Heq].
  symmetry in Heq.
  apply nul_split_inj in Heq as [Hd ->]; [|apply domain_name_no_nul..].
  split; [by apply domain_name_inj|done].
Qed.

Lemma domain_separation_witness :
  Dheartbeat = Dheartbeat ∧ [x01; x00] = [x01; x00].
Proof.
  apply (domain_separation Dheartbeat [x01; x00] Dheartbeat [x01; x00]
           (domain_name Dheartbeat ++ [x00; x01; x00])); vm_compute; reflexivity.
Defined.

(** so is the length-prefixed scheme of the canonical package, and the two
    schemes never produce the same bytes. *)
Theorem canonical_domain_separation d p b :
  canonicalDomainBytes d p = Ok b →
  (∀ d' p', canonicalDomainBytes d' p' = Ok b → d = d' ∧ p = p') ∧
  (∀ d' p', domainSeparatedBytes d' p' ≠ Ok b).
Proof.
  rewrite canonicalDomainBytes_total. intros <-%Ok_inj. split.
  - intros d' p'. rewrite canonicalDomainBytes_total. intros Heq%Ok_inj. symmetry in Heq.
    apply app_inj_1 in Heq as [Hlen Heq]; [|by rewrite !be_bytes_length].
    apply app_inj_1 in Heq as [Hname [= ->]].
    + split; [by apply hash_domain_name_inj|done].
    + apply (f_equal be_value) in Hlen. rewrite !be_value_bytes, !Z.mod_small in Hlen; [lia|..];
        apply hash_domain_name_length.
  - intros d' p'. rewrite domainSeparatedBytes_total. intros Heq%Ok_inj.
    assert (head (domain_name d' ++ x00 :: p') = Some x63) as H1 by (destruct d'; vm_compute; done).
    rewrite Heq in H1. destruct d; vm_compute in H1; discriminate.
Qed.

Lemma canonical_domain_separation_witness :
  Hschema = Hschema ∧ [x07] = [x07].
Proof.
  destruct (canonicalDomainBytes Hschema [x07]) as [b|] eqn:E; [|vm_compute in E; discriminate].
  destruct (canonical_domain_separation Hschema [x07] b E) as [H _]. apply H. exact E.
Defined.

(** * The total order of transactions: [packages/protocol/src/messages.ts]

    The order key of a candidate, the comparator every replica sorts by and
    the duplicate check.  The comparator is a strict total order, so it is an
    instance of [StrictComparator] and the sort of any multiset of keys is
    unique. *)

Record TransactionOrderKey := mkOrderKey {
  ok_authorTimestampMs : Z;
  ok_authorId : bytes;
  ok_authorFeedSequence : Z;
  ok_txId : bytes;
}.

#[export] Instance TransactionOrderKey_eq_dec : EqDecision TransactionOrderKey.
Proof. solve_decision. Defined.

Record CandidateTransportIdentity := mkTransportIdentity {
  ti_authorFeedSequence : Z;
  ti_txId : bytes;
}.

Definition transactionOrderKey (authorTimestampMs : Z) (authorId : bytes)
    (transport : CandidateTransportIdentity) : result ErrorCode TransactionOrderKey :=
  protocolInvariant (0 <=? ti_authorFeedSequence transport) INTEGER_OUT_OF_RANGE ≫= λ _,
  Ok (mkOrderKey authorTimestampMs authorId (ti_authorFeedSequence transport) (ti_txId transport)).

Definition compareTransactionOrder (left right : TransactionOrderKey) : Z :=
  if negb (ok_authorTimestampMs left =? ok_authorTimestampMs right) then
    if ok_authorTimestampMs left <? ok_authorTimestampMs right then -1 else 1
  else
    let authorOrder := compareBytes (ok_authorId left) (ok_authorId right) in
    if negb (authorOrder =? 0) then authorOrder
    else if negb (ok_authorFeedSequence left =? ok_authorFeedSequence right) then
      if ok_authorFeedSequence left <? ok_authorFeedSequence right then -1 else 1
    else compareBytes (ok_txId left) (ok_txId right).

Fixpoint adjacent_distinct (sorted : list TransactionOrderKey) : result ErrorCode unit :=
  match sorted with
  | a :: ((b :: _) as rest) =>
      if compareTransactionOrder a b =? 0 then Err DUPLICATE_TRANSACTION else adjacent_distinct rest
  | _ => Ok tt
  end.

Definition assertUniqueOrderKeys (keys : list TransactionOrderKey) : result ErrorCode unit :=
  adjacent_distinct (js_sort compareTransactionOrder keys).

(** ** Lemmas: lexicographic composition of comparators *)

Definition cmpZ (a b : Z) : Z := if a =? b then 0 else if a <? b then -1 else 1.

#[export] Instance cmpZ_strict : StrictComparator cmpZ.
Proof.
  unfold cmpZ. split; [split|]; intros; repeat case_match; try lia.
Qed.

(** [c1], and where it ties [c2]. *)
Definition cmp_then {A} (c1 c2 : A → A → Z) (x y : A) : Z :=
  if c1 x y =? 0 then c2 x y else c1 x y.

Lemma cmp_then_comparator {A} (c1 c2 : A → A → Z) `{!Comparator c1, !Comparator c2} :
  Comparator (cmp_then c1 c2).
Proof.
  unfold cmp_then. split.
  - intros x. rewrite cmp_refl. simpl. apply cmp_refl.
  - intros x y. destruct (cmp_flip x y (cmp:=c1)), (cmp_flip y x (cmp:=c1)).
    destruct (Z.eqb_spec (c1 x y) 0), (Z.eqb_spec (c1 y x) 0); try lia. apply cmp_flip.
  - intros x y z.
    destruct (Z.eqb_spec (c1 x y) 0) as [Hxy|], (Z.eqb_spec (c1 y z) 0) as [Hyz|],
      (Z.eqb_spec (c1 x z) 0) as [Hxz|]; intros H1 H2.
    all: pose proof (cmp_trans x y z (cmp:=c1)) as T1.
    all: try (by eapply (cmp_trans x y z)); try lia.
    + destruct (cmp_flip x y (cmp:=c1)), (cmp_flip x z (cmp:=c1)), (cmp_flip y z (cmp:=c1)).
      pose proof (cmp_lt_trans c1 y z x). pose proof (cmp_flip z x (cmp:=c1)).
      pose proof (cmp_flip y x (cmp:=c1)). lia.
    + pose proof (cmp_lt_trans c1 x y z). lia.
    + pose proof (cmp_lt_trans c1 x y z). lia.
Qed.

(** [compareTransactionOrder] is the lexicographic order on timestamp, author,
    feed sequence and transaction id. *)
Definition lex_order : TransactionOrderKey → TransactionOrderKey → Z :=
  cmp_then (λ x y, cmpZ (ok_authorTimestampMs x) (ok_authorTimestampMs y))
    (cmp_then (λ x y, compareBytes (ok_authorId x) (ok_authorId y))
      (cmp_then (λ x y, cmpZ (ok_authorFeedSequence x) (ok_authorFeedSequence y))
        (λ x y, compareBytes (ok_txId x) (ok_txId y)))).

Lemma compareTransactionOrder_lex x y : compareTransactionOrder x y = lex_order x y.
Proof.
  unfold compareTransactionOrder, lex_order, cmp_then, cmpZ.
  destruct (Z.eqb_spec (ok_authorTimestampMs x) (ok_authorTimestampMs y)); simpl.
  - destruct (Z.eqb_spec (compareBytes (ok_authorId x) (ok_authorId y)) 0); simpl; [|done].
    destruct (Z.eqb_spec (ok_authorFeedSequence x) (ok_authorFeedSequence y)); simpl; [done|].
    by destruct (_ <? _).
  - by destruct (_ <? _).
Qed.

#[export] Instance compareTransactionOrder_strict : StrictComparator compareTransactionOrder.
Proof.
  assert (Comparator lex_order) as Hlex.
  { pose proof (comparator_on ok_authorTimestampMs cmpZ).
    pose proof (comparator_on ok_authorId compareBytes).
    pose proof (comparator_on ok_authorFeedSequence cmpZ).
    pose proof (comparator_on ok_txId compareBytes).
    unfold lex_order. repeat (apply cmp_then_comparator; [done|]). done. }
  split; [split|].
  - intros x. rewrite compareTransactionOrder_lex. apply (cmp_refl x (cmp:=lex_order)).
  - intros x y. rewrite !compareTransactionOrder_lex. apply (cmp_flip x y (cmp:=lex_order)).
  - intros x y z. rewrite !compareTransactionOrder_lex. apply (cmp_trans x y z (cmp:=lex_order)).
  - intros [t a f i] [t' a' f' i']. rewrite compareTransactionOrder_lex. unfold lex_order, cmp_then. simpl.
    destruct (Z.eqb_spec (cmpZ t t') 0) as [->%cmp_eq|]; [|done].
    destruct (Z.eqb_spec (compareBytes a a') 0) as [->%cmp_eq|]; [|done].
    destruct (Z.eqb_spec (cmpZ f f') 0) as [->%cmp_eq|]; [|done].
    by intros ->%cmp_eq.
Qed.

(** Keys of different transactions are never tied. *)
Lemma order_distinct x y : ok_txId x ≠ ok_txId y → compareTransactionOrder x y ≠ 0.
Proof. by intros Hne ->%cmp_eq. Qed.

Lemma adjacent_distinct_sorted l :
  StronglySorted (λ x y, compareTransactionOrder x y ≤ 0) l →
  adjacent_distinct l = Ok tt ↔ NoDup l.
Proof.
  induction 1 as [|x l Hl IH Hx]; [split; [constructor|done]|].
  rewrite NoDup_cons, <-IH. destruct l as [|y l]; [split; [|done]; intros _; split; [apply not_elem_of_nil|done]|].
  change (adjacent_distinct (x :: y :: l)) with
    (if compareTransactionOrder x y =? 0 then Err DUPLICATE_TRANSACTION else adjacent_distinct (y :: l)).
  apply Forall_cons in Hx as [Hxy _].
  inversion Hl as [|?? _ Hy]; subst. destruct (Z.eqb_spec (compareTransactionOrder x y) 0) as [->%cmp_eq|Hne].
  - split; [done|]. intros [Hy' _]. destruct Hy'. left.
  - split; [|by intros [_ H]]. intros H. split; [|done].
    intros [->|Hin]%elem_of_cons; [by rewrite cmp_refl in Hne|].
    rewrite Forall_forall in Hy. specialize (Hy x Hin).
    pose proof (cmp_flip x y (cmp:=compareTransactionOrder)). lia.
Qed.

(** the duplicate check accepts exactly the lists of distinct keys, and any
    two replicas holding the same keys sort them the same way. *)
Theorem order_deterministic keys :
  (assertUniqueOrderKeys keys = Ok tt ↔ NoDup keys) ∧
  StronglySorted (λ x y, compareTransactionOrder x y ≤ 0) (js_sort compareTransactionOrder keys) ∧
  (∀ keys', keys ≡ₚ keys' →
    js_sort compareTransactionOrder keys' = js_sort compareTransactionOrder keys).
Proof.
  unfold assertUniqueOrderKeys. split_and!.
  - rewrite adjacent_distinct_sorted by apply (js_sort_sorted _).
    apply js_sort_NoDup.
  - apply (js_sort_sorted _).
  - intros keys' Hk. symmetry. by apply js_sort_perm_eq; [apply _|].
Qed.
