(* ===== verification/Messages.v ===== *)
(** * Protocol messages: [packages/protocol/src/messages.ts]

    Validator attestations and heartbeats, the transport envelope with its
    inline or chunked payload, and the payload manifest.  Each codec writes an
    [integerMap] and reads it back strictly. *)

From Stdlib Require Import Strings.Byte.
From stdpp Require Import base list option numbers sets sorting.
From S2P Require Import Prelude JsMap Bytes Text Cbor CborProofs Schema Domains.

#[local] Open Scope Z_scope.

(** The protocol package decodes with the default limits. *)
Definition assertCanonical (b : bytes) : result ErrorCode CborValue :=
  assertCanonicalCbor DEFAULT_DECODE_LIMITS b.

Definition bytes_field (map : IntegerMap) (key : Z) (len : option nat) : result ErrorCode bytes :=
  v ← required map key; expectBytes v len.
Definition uint64_field (map : IntegerMap) (key : Z) : result ErrorCode Z :=
  v ← required map key; expectUint64 v.

(** ** Attestations *)

Inductive AttestationDecision := admit_decision.

Record ValidatorAttestation := mkAttestation {
  at_groupId : bytes;
  at_membershipRevision : bytes;
  at_validatorCapability : bytes;
  at_txId : bytes;
  at_validatorId : bytes;
  at_authorTimestampMs : Z;
  at_acceptedAboveMs : Z;
  at_candidateDigest : bytes;
  at_decision : AttestationDecision;
  at_policyVersion : Z;
}.

Definition attestationToCbor (value : ValidatorAttestation) : result ErrorCode CborValue :=
  protocolInvariant (at_acceptedAboveMs value <? at_authorTimestampMs value) SCHEMA_INVALID ≫= λ _,
  Ok (CMap (integerMap
    [(0, Some (CInt 1)); (1, Some (CBytes (at_groupId value)));
     (2, Some (CBytes (at_membershipRevision value)));
     (3, Some (CBytes (at_validatorCapability value))); (4, Some (CBytes (at_txId value)));
     (5, Some (CBytes (at_validatorId value))); (6, Some (CInt (at_authorTimestampMs value)));
     (7, Some (CInt (at_acceptedAboveMs value))); (8, Some (CBytes (at_candidateDigest value)));
     (9, Some (CInt 1)); (10, Some (CInt (at_policyVersion value)))])).

Definition encodeValidatorAttestation (value : ValidatorAttestation) : result ErrorCode bytes :=
  v ← attestationToCbor value; encodeCanonicalCbor v.

Definition decodeValidatorAttestation (b : bytes) : result ErrorCode ValidatorAttestation :=
  v ← assertCanonical b;
  map ← expectMap v;
  assertKnownIntegerKeys map [0; 1; 2; 3; 4; 5; 6; 7; 8; 9; 10] ≫= λ _,
  expectVersion map 1 ≫= λ _,
  decision ← uint64_field map 9;
  protocolInvariant (decision =? 1) SCHEMA_INVALID ≫= λ _,
  authorTimestampMs ← uint64_field map 6;
  acceptedAboveMs ← uint64_field map 7;
  protocolInvariant (acceptedAboveMs <? authorTimestampMs) SCHEMA_INVALID ≫= λ _,
  groupId ← bytes_field map 1 None;
  membershipRevision ← bytes_field map 2 None;
  validatorCapability ← bytes_field map 3 None;
  txId ← bytes_field map 4 None;
  validatorId ← bytes_field map 5 None;
  candidateDigest ← bytes_field map 8 (Some 32%nat);
  policyVersion ← uint64_field map 10;
  Ok (mkAttestation groupId membershipRevision validatorCapability txId validatorId
        authorTimestampMs acceptedAboveMs candidateDigest admit_decision policyVersion).

(** ** Heartbeats *)

Record ValidatorHeartbeat := mkHeartbeat {
  hb_groupId : bytes;
  hb_membershipRevision : bytes;
  hb_validatorCapability : bytes;
  hb_validatorId : bytes;
  hb_acceptanceCutoffMs : Z;
}.

Definition heartbeatToCbor (value : ValidatorHeartbeat) : CborValue :=
  CMap (integerMap
    [(0, Some (CInt 1)); (1, Some (CBytes (hb_groupId value)));
     (2, Some (CBytes (hb_membershipRevision value)));
     (3, Some (CBytes (hb_validatorCapability value))); (4, Some (CBytes (hb_validatorId value)));
     (5, Some (CInt (hb_acceptanceCutoffMs value)))]).

Definition encodeValidatorHeartbeat (value : ValidatorHeartbeat) : result ErrorCode bytes :=
  encodeCanonicalCbor (heartbeatToCbor value).

Definition decodeValidatorHeartbeat (b : bytes) : result ErrorCode ValidatorHeartbeat :=
  v ← assertCanonical b;
  map ← expectMap v;
  assertKnownIntegerKeys map [0; 1; 2; 3; 4; 5] ≫= λ _,
  expectVersion map 1 ≫= λ _,
  groupId ← bytes_field map 1 None;
  membershipRevision ← bytes_field map 2 None;
  validatorCapability ← bytes_field map 3 None;
  validatorId ← bytes_field map 4 None;
  acceptanceCutoffMs ← uint64_field map 5;
  Ok (mkHeartbeat groupId membershipRevision validatorCapability validatorId acceptanceCutoffMs).

(** ** Payload manifests *)

Record PayloadChunk := mkChunk { chunk_digest : bytes; chunk_size : Z }.

Record PayloadManifest := mkManifest {
  pm_totalDigest : bytes;
  pm_totalSize : Z;
  pm_chunks : list PayloadChunk;
}.

Section manifest_hashing.
Context (sha256 : bytes → bytes).

Definition payloadDigest (b : bytes) : result ErrorCode bytes := hashDomain sha256 Denvelope b.
Definition payloadChunkDigest (b : bytes) : result ErrorCode bytes := hashDomain sha256 DpayloadChunk b.

Definition createPayloadManifest (chunks : list bytes) : result ErrorCode PayloadManifest :=
  protocolInvariant (0 <? length chunks)%nat SCHEMA_INVALID ≫= λ _,
  let total := concatBytes chunks in
  totalDigest ← payloadDigest total;
  cs ← mapR (λ chunk, digest ← payloadChunkDigest chunk; Ok (mkChunk digest (zlen chunk))) chunks;
  Ok (mkManifest totalDigest (zlen total) cs).

(** The loop over the indices; the lengths are equal when it is reached. *)
Fixpoint verify_chunks (chunks : list bytes) (expected : list PayloadChunk) : result ErrorCode unit :=
  match chunks, expected with
  | chunk :: chunks', e :: expected' =>
    protocolInvariant (zlen chunk =? chunk_size e) DIGEST_MISMATCH ≫= λ _,
    digest ← payloadChunkDigest chunk;
    protocolInvariant (equalBytes digest (chunk_digest e)) DIGEST_MISMATCH ≫= λ _,
    verify_chunks chunks' expected'
  | _, _ => Ok tt
  end.

Definition verifyPayloadManifest (manifest : PayloadManifest) (chunks : list bytes) :
  result ErrorCode bytes :=
  protocolInvariant (length chunks =? length (pm_chunks manifest))%nat DIGEST_MISMATCH ≫= λ _,
  verify_chunks chunks (pm_chunks manifest) ≫= λ _,
  let payload := concatBytes chunks in
  protocolInvariant (zlen payload =? pm_totalSize manifest) DIGEST_MISMATCH ≫= λ _,
  digest ← payloadDigest payload;
  protocolInvariant (equalBytes digest (pm_totalDigest manifest)) DIGEST_MISMATCH ≫= λ _,
  Ok payload.
End manifest_hashing.

Definition chunkToCbor (chunk : PayloadChunk) : CborValue :=
  CMap (integerMap [(0, Some (CBytes (chunk_digest chunk))); (1, Some (CInt (chunk_size chunk)))]).

Definition manifestToCbor (manifest : PayloadManifest) : result ErrorCode CborValue :=
  protocolInvariant (0 <? length (pm_chunks manifest))%nat SCHEMA_INVALID ≫= λ _,
  Ok (CMap (integerMap
    [(0, Some (CBytes (pm_totalDigest manifest))); (1, Some (CInt (pm_totalSize manifest)));
     (2, Some (CArray (chunkToCbor <$> pm_chunks manifest)))])).

Definition chunkFromCbor (item : CborValue) : result ErrorCode PayloadChunk :=
  chunk ← expectMap item;
  assertKnownIntegerKeys chunk [0; 1] ≫= λ _,
  digest ← bytes_field chunk 0 (Some 32%nat);
  size ← uint64_field chunk 1;
  Ok (mkChunk digest size).

Definition manifestFromCbor (value : CborValue) : result ErrorCode PayloadManifest :=
  map ← expectMap value;
  assertKnownIntegerKeys map [0; 1; 2] ≫= λ _,
  items ← (v ← required map 2; expectArray v);
  chunks ← mapR chunkFromCbor items;
  protocolInvariant (0 <? length chunks)%nat SCHEMA_INVALID ≫= λ _,
  totalSize ← uint64_field map 1;
  protocolInvariant (foldl (λ sum chunk, sum + chunk_size chunk) 0 chunks =? totalSize) SCHEMA_INVALID
    ≫= λ _,
  totalDigest ← bytes_field map 0 (Some 32%nat);
  Ok (mkManifest totalDigest totalSize chunks).

(** ** Envelopes *)

Inductive EnvelopeMessageType :=
  | MTcandidate | MTattestation | MTheartbeat | MTcapability | MTrecovery | MTepochManifest
  | MTproofBundle | MTsnapshot.

#[export] Instance EnvelopeMessageType_eq_dec : EqDecision EnvelopeMessageType.
Proof. solve_decision. Defined.

Inductive EnvelopePayload :=
  | inline (b : bytes)
  | manifest (m : PayloadManifest).

Record ChronologEnvelope := mkEnvelope {
  env_groupRoute : bytes;
  env_messageType : EnvelopeMessageType;
  env_encryptionEpoch : option bytes;
  env_payloadDigest : bytes;
  env_payload : EnvelopePayload;
}.

Definition resolveEnvelopePayload (sha256 : bytes → bytes) (envelope : ChronologEnvelope)
    (chunks : list bytes) : result ErrorCode bytes :=
  payload ← match env_payload envelope with
            | inline b => Ok b
            | manifest m => verifyPayloadManifest sha256 m chunks
            end;
  digest ← payloadDigest sha256 payload;
  protocolInvariant (equalBytes digest (env_payloadDigest envelope)) DIGEST_MISMATCH ≫= λ _,
  Ok payload.

Definition MESSAGE_TYPES : list EnvelopeMessageType :=
  [MTcandidate; MTattestation; MTheartbeat; MTcapability; MTrecovery; MTepochManifest;
   MTproofBundle; MTsnapshot].

(** [MESSAGE_TYPES.indexOf(t)], -1 when absent. *)
Definition message_index (t : EnvelopeMessageType) : Z :=
  match list_find (λ x, x = t) MESSAGE_TYPES with Some (i, _) => Z.of_nat i | None => -1 end.

Definition payloadToCbor (p : EnvelopePayload) : result ErrorCode CborValue :=
  match p with
  | inline b => Ok (CArray [CInt 0; CBytes b])
  | manifest m => v ← manifestToCbor m; Ok (CArray [CInt 1; v])
  end.

Definition encodeEnvelope (value : ChronologEnvelope) : result ErrorCode bytes :=
  let messageIndex := message_index (env_messageType value) in
  protocolInvariant (0 <=? messageIndex) SCHEMA_INVALID ≫= λ _,
  payload ← payloadToCbor (env_payload value);
  encodeCanonicalCbor (CMap (integerMap
    [(0, Some (CInt 1)); (1, Some (CBytes (env_groupRoute value))); (2, Some (CInt messageIndex));
     (3, Some (match env_encryptionEpoch value with Some b => CBytes b | None => CNull end));
     (4, Some (CBytes (env_payloadDigest value))); (5, Some payload)])).

Definition payloadFromCbor (encodedPayload : list CborValue) : result ErrorCode EnvelopePayload :=
  match encodedPayload with
  | [tag; body] =>
      payloadType ← expectUint64 tag;
      if payloadType =? 0 then b ← expectBytes body None; Ok (inline b)
      else if payloadType =? 1 then m ← manifestFromCbor body; Ok (manifest m)
      else Err SCHEMA_INVALID
  | _ => Err SCHEMA_INVALID
  end.

Definition epochFromCbor (epoch : CborValue) : result ErrorCode (option bytes) :=
  match epoch with CNull => Ok None | CBytes b => Ok (Some b) | _ => Err SCHEMA_INVALID end.

Definition decodeEnvelope (b : bytes) : result ErrorCode ChronologEnvelope :=
  v ← assertCanonical b;
  map ← expectMap v;
  assertKnownIntegerKeys map [0; 1; 2; 3; 4; 5] ≫= λ _,
  expectVersion map 1 ≫= λ _,
  typeIndex ← uint64_field map 2;
  protocolInvariant (typeIndex <? zlen MESSAGE_TYPES) SCHEMA_INVALID ≫= λ _,
  messageType ← match MESSAGE_TYPES !! Z.to_nat typeIndex with
                | Some t => Ok t
                | None => Err SCHEMA_INVALID
                end;
  epoch ← (v ← required map 3; epochFromCbor v);
  encodedPayload ← (v ← required map 5; expectArray v);
  payload ← payloadFromCbor encodedPayload;
  groupRoute ← bytes_field map 1 None;
  payloadDigest ← bytes_field map 4 (Some 32%nat);
  Ok (mkEnvelope groupRoute messageType epoch payloadDigest payload).

(** ** Lemmas: fields *)

Lemma bytes_field_any m k b : bytes_field m k None = Ok b ↔ map_get (KInt k) m = Some (CBytes b).
Proof.
  unfold bytes_field. split.
  - intros H. inv_ok. rewrite required_Ok, expectBytes_any in *. by subst.
  - intros H. by rewrite (proj2 (required_Ok _ _ _) H).
Qed.

Lemma bytes_field_sized m k n b :
  bytes_field m k (Some n) = Ok b ↔ map_get (KInt k) m = Some (CBytes b) ∧ length b = n.
Proof.
  unfold bytes_field. split.
  - intros H. inv_ok. rewrite required_Ok, expectBytes_sized in *. destruct_and!. by subst.
  - intros [H Hn]. rewrite (proj2 (required_Ok _ _ _) H). cbn [mbind result_bind].
    by apply expectBytes_sized.
Qed.

Lemma uint64_field_Ok m k z :
  uint64_field m k = Ok z ↔ map_get (KInt k) m = Some (CInt z) ∧ 0 ≤ z ≤ MAX_UINT64.
Proof.
  unfold uint64_field. split.
  - intros H. inv_ok. rewrite required_Ok, expectUint64_Ok in *. destruct_and!. by subst.
  - intros [H Hz]. rewrite (proj2 (required_Ok _ _ _) H). cbn [mbind result_bind].
    by apply expectUint64_Ok.
Qed.

Lemma assertKnown_unit m ks u : assertKnownIntegerKeys m ks = Ok u → assertKnownIntegerKeys m ks = Ok tt.
Proof. by destruct u. Qed.

(** The strict direction: the bytes of an accepted record are the encoding of
    the record of its fields. *)
Lemma record_exact b v m ks u :
  assertCanonical b = Ok v → expectMap v = Ok m → assertKnownIntegerKeys m ks = Ok u → NoDup ks →
  encodeCanonicalCbor (CMap (integerMap (fields_of m ks))) = Ok b.
Proof.
  intros Hb%assert_sound ->%expectMap_Ok Hk%assertKnown_unit Hnd. by apply record_encoding.
Qed.

(** Reading a field of a written record. *)
Lemma integerMap_known es ks :
  NoDup es.*1 → (∀ k, k ∈ es.*1 → k ∈ ks) → assertKnownIntegerKeys (integerMap es) ks = Ok tt.
Proof.
  intros Hnd Hks. apply assertKnownIntegerKeys_Ok. rewrite integerMap_omap by done.
  apply Forall_fmap, Forall_forall. intros [k v] Hin.
  apply omap_keys_subseteq in Hin as (z & -> & Hin). exists z. split; [done|].
  apply Hks, list_elem_of_fmap. by exists (z, Some v).
Qed.

(** The other direction: a written record is read back as the map it was. *)
Lemma record_decoded es b :
  encodeCanonicalCbor (CMap (integerMap es)) = Ok b → zlen b ≤ maxBytes DEFAULT_DECODE_LIMITS →
  small_ascending 0 es.*1 && (zlen es <=? 24) = true →
  Forall (λ e, ∀ v, e.2 = Some v →
    canonical_form v = v ∧ shape DEFAULT_DECODE_LIMITS 1 v = true) es →
  assertCanonical b = Ok (CMap (integerMap es)).
Proof.
  intros Henc Hlen [Hks Hn%Z.leb_le]%andb_true_iff Hes.
  apply assert_complete; [| |done|done].
  - eapply default_fits; [done|done|]. apply integerMap_shape; [done..|].
    eapply Forall_impl; [exact Hes|]. naive_solver.
  - apply integerMap_canonical; [done|]. eapply Forall_impl; [exact Hes|]. naive_solver.
Qed.

(** Membership of a field in the literal list of a record. *)
Ltac find_field := first [apply list_elem_of_here | apply list_elem_of_further; find_field].

(** Rewrites the reading of field [k] of a written record. *)
Ltac literal_nodup := apply (small_ascending_NoDup 0); vm_compute; reflexivity.

Lemma required_integerMap es k v :
  NoDup es.*1 → (k, Some v) ∈ es → required (integerMap es) k = Ok v.
Proof. intros Hnd Hin. apply required_Ok. by apply integerMap_get. Qed.

Lemma bytes_read es k b :
  NoDup es.*1 → (k, Some (CBytes b)) ∈ es → bytes_field (integerMap es) k None = Ok b.
Proof. intros Hnd Hin. apply bytes_field_any. by apply integerMap_get. Qed.

Lemma bytes_read_sized es k b n :
  NoDup es.*1 → (k, Some (CBytes b)) ∈ es → length b = n →
  bytes_field (integerMap es) k (Some n) = Ok b.
Proof. intros Hnd Hin Hn. apply bytes_field_sized. split; [|done]. by apply integerMap_get. Qed.

Lemma uint64_read es k z :
  NoDup es.*1 → (k, Some (CInt z)) ∈ es → 0 ≤ z ≤ MAX_UINT64 → uint64_field (integerMap es) k = Ok z.
Proof. intros Hnd Hin Hz. apply uint64_field_Ok. split; [|done]. by apply integerMap_get. Qed.

Lemma version_read es n :
  NoDup es.*1 → (0, Some (CInt n)) ∈ es → 0 ≤ n ≤ MAX_UINT64 → expectVersion (integerMap es) n = Ok tt.
Proof. intros Hnd Hin Hz. apply expectVersion_Ok. split; [|done]. by apply integerMap_get. Qed.

Lemma uint64_one : 0 ≤ 1 ≤ MAX_UINT64.
Proof. done. Qed.

(** Reads the fields of a written record one after the other. *)
Ltac read_side := first [literal_nodup | find_field | exact uint64_one | lia].
Ltac read_record :=
  repeat (first
    [ erewrite version_read by read_side
    | erewrite uint64_read by read_side
    | erewrite bytes_read_sized by read_side
    | erewrite bytes_read by read_side
    | erewrite required_integerMap by read_side
    | rewrite (proj2 (Z.ltb_lt _ _)) by lia
    | rewrite Z.eqb_refl ];
    cbn [mbind result_bind ensure]).

(** ** Attestations *)

Definition attestation_valid (v : ValidatorAttestation) : Prop :=
  0 ≤ at_acceptedAboveMs v ∧ at_authorTimestampMs v ≤ MAX_UINT64 ∧
  0 ≤ at_policyVersion v ≤ MAX_UINT64 ∧ length (at_candidateDigest v) = 32%nat.

#[export] Instance attestation_valid_dec v : Decision (attestation_valid v).
Proof. unfold attestation_valid. apply _. Defined.

(** Turns the successful reads of a decoded record into facts on its map, and
    the strictness of the decoder into the encoding of the record. *)
Ltac field_facts :=
  repeat match goal with
  | H : bytes_field _ _ None = Ok _ |- _ => apply bytes_field_any in H
  | H : bytes_field _ _ (Some _) = Ok _ |- _ => apply bytes_field_sized in H as [? ?]
  | H : uint64_field _ _ = Ok _ |- _ => apply uint64_field_Ok in H as [? ?]
  | H : expectVersion _ _ = Ok ?u |- _ => destruct u; apply expectVersion_Ok in H as [? ?]
  | H : required _ _ = Ok _ |- _ => apply required_Ok in H
  | H : expectArray _ = Ok _ |- _ => apply expectArray_Ok in H
  | H : (_ =? _) = true |- _ => apply Z.eqb_eq in H
  | H : (_ <? _) = true |- _ => apply Z.ltb_lt in H
  end.

Ltac fold_fields Henc :=
  unfold fields_of, optional in Henc; cbn [fmap list_fmap] in Henc;
  repeat match goal with
  | H : map_get ?k ?m = Some _ |- _ =>
      match type of Henc with context [map_get k m] => rewrite H in Henc end
  end.

Ltac exact_encoding Henc :=
  match goal with
  | H1 : assertCanonical _ = Ok _, H2 : expectMap _ = Ok _,
    H3 : assertKnownIntegerKeys _ _ = Ok _ |- _ =>
      pose proof (record_exact _ _ _ _ _ H1 H2 H3 ltac:(literal_nodup)) as Henc
  end; fold_fields Henc.

Lemma attestation_exact b v :
  decodeValidatorAttestation b = Ok v → encodeValidatorAttestation v = Ok b ∧ attestation_valid v.
Proof.
  unfold decodeValidatorAttestation, protocolInvariant. intros H. inv_ok. field_facts. subst.
  exact_encoding Henc. split.
  - unfold encodeValidatorAttestation, attestationToCbor, protocolInvariant.
    cbn [at_acceptedAboveMs at_authorTimestampMs]. by rewrite (proj2 (Z.ltb_lt _ _)).
  - unfold attestation_valid. simpl. lia.
Qed.

Lemma small_uint z : 0 ≤ z ≤ MAX_UINT64 → small_int z = true.
Proof. intros. unfold small_int. rewrite (proj2 (Z.ltb_ge z 0)) by lia. apply Z.leb_le. lia. Qed.

(** The fields of a literal record that are bytes or unsigned integers. *)
Ltac plain_field :=
  intros ? [= <-]; split; [reflexivity|]; first [reflexivity | cbn [shape]; apply small_uint; lia].
Ltac plain_fields := repeat (apply Forall_cons; split; [plain_field|]); apply Forall_nil; exact I.

Lemma attestation_read_back v b :
  encodeValidatorAttestation v = Ok b → attestation_valid v →
  zlen b ≤ maxBytes DEFAULT_DECODE_LIMITS → decodeValidatorAttestation b = Ok v.
Proof.
  unfold encodeValidatorAttestation, attestationToCbor, protocolInvariant.
  intros Henc (H1 & H2 & H3 & H4) Hlen. inv_ok. subst. field_facts.
  unfold decodeValidatorAttestation, protocolInvariant.
  erewrite record_decoded; [|done|done|reflexivity|plain_fields].
  cbn [mbind result_bind expectMap].
  rewrite integerMap_known by (literal_nodup || done). cbn [mbind result_bind].
  read_record. by destruct v as [???????? [] ?].
Qed.

(** attestation codec.  The decoder accepts exactly the encodings of the
    valid attestations (within the input limit), and returns what was encoded:
    the bytes a signature covers determine the attestation and conversely. *)
Theorem attestation_codec b v :
  zlen b ≤ maxBytes DEFAULT_DECODE_LIMITS →
  decodeValidatorAttestation b = Ok v ↔ encodeValidatorAttestation v = Ok b ∧ attestation_valid v.
Proof.
  intros Hlen. split; [apply attestation_exact|]. intros [Henc Hv]. by apply attestation_read_back.
Qed.

Definition sample_attestation : ValidatorAttestation :=
  mkAttestation [x01] [x02] [] [x04; x05] [x06] 1700000000000 1699999999999
    (replicate 32 x07) admit_decision 3.

Lemma attestation_codec_witness : ∃ b,
  encodeValidatorAttestation sample_attestation = Ok b ∧
  decodeValidatorAttestation b = Ok sample_attestation.
Proof.
  eexists. split; [vm_compute; reflexivity|].
  apply attestation_codec; [vm_compute; discriminate|]. split; [vm_compute; reflexivity|].
  unfold attestation_valid. vm_compute. repeat split; discriminate.
Defined.

(** ** Heartbeats *)

Definition heartbeat_valid (v : ValidatorHeartbeat) : Prop :=
  0 ≤ hb_acceptanceCutoffMs v ≤ MAX_UINT64.

Lemma heartbeat_exact b v :
  decodeValidatorHeartbeat b = Ok v → encodeValidatorHeartbeat v = Ok b ∧ heartbeat_valid v.
Proof.
  unfold decodeValidatorHeartbeat. intros H. inv_ok. field_facts. subst.
  exact_encoding Henc. done.
Qed.

(** heartbeat codec, with the same two directions. *)
Theorem heartbeat_codec b v :
  zlen b ≤ maxBytes DEFAULT_DECODE_LIMITS →
  decodeValidatorHeartbeat b = Ok v ↔ encodeValidatorHeartbeat v = Ok b ∧ heartbeat_valid v.
Proof.
  intros Hlen. split; [apply heartbeat_exact|].
  unfold encodeValidatorHeartbeat, heartbeatToCbor, heartbeat_valid. intros [Henc Hv].
  unfold decodeValidatorHeartbeat.
  erewrite record_decoded; [|done|done|reflexivity|plain_fields].
  cbn [mbind result_bind expectMap].
  rewrite integerMap_known by (literal_nodup || done). cbn [mbind result_bind].
  read_record. by destruct v.
Qed.

Lemma heartbeat_codec_witness : ∃ b,
  encodeValidatorHeartbeat (mkHeartbeat [x01] [x02] [x03] [x04] 1700000000000) = Ok b ∧
  decodeValidatorHeartbeat b = Ok (mkHeartbeat [x01] [x02] [x03] [x04] 1700000000000).
Proof.
  eexists. split; [vm_compute; reflexivity|].
  apply heartbeat_codec; [vm_compute; discriminate|]. split; [vm_compute; reflexivity|].
  unfold heartbeat_valid. vm_compute. split; discriminate.
Defined.

(** ** Values with the same encoding *)

Definition same_encoding (v w : CborValue) : Prop := encodeCanonicalCbor v = encodeCanonicalCbor w.

Lemma array_same_encoding l l' :
  Forall2 same_encoding l l' → same_encoding (CArray l) (CArray l').
Proof.
  intros H. unfold same_encoding. cbn [encodeCanonicalCbor]. unfold zlen.
  rewrite (Forall2_length _ _ _ H). destruct (encodeHead _ _); [|done]. cbn [mbind result_bind].
  replace (mapR encodeCanonicalCbor l') with (mapR encodeCanonicalCbor l); [done|].
  induction H as [|x y l l' Hxy _ IH]; [done|]. simpl. rewrite Hxy, IH. done.
Qed.

Lemma record_same_encoding es es' :
  NoDup es.*1 → Forall2 (λ e e', e.1 = e'.1 ∧ option_Forall2 same_encoding e.2 e'.2) es es' →
  same_encoding (CMap (integerMap es)) (CMap (integerMap es')).
Proof.
  intros Hnd H. assert (es.*1 = es'.*1) as Hfst.
  { clear Hnd. induction H as [|e e' es es' [He _] _ IH]; [done|]. rewrite !fmap_cons. by rewrite He, IH. }
  rewrite !integerMap_omap by (done || by rewrite <-Hfst). clear Hnd Hfst.
  unfold same_encoding. cbn [encodeCanonicalCbor]. f_equal.
  induction H as [|[k o] [k' o'] es es' [Hk Ho] _ IH]; [done|]. simpl in Hk, Ho. subst k'.
  destruct Ho as [v v' Hv|]; [|done].
  change (omap field_entry ((k, Some v) :: es)) with ((KInt k, v) :: omap field_entry es).
  change (omap field_entry ((k, Some v') :: es')) with ((KInt k, v') :: omap field_entry es').
  cbn [mapR]. rewrite IH. unfold same_encoding in Hv. by rewrite Hv.
Qed.

(** ** Manifests *)

Definition chunk_valid (c : PayloadChunk) : Prop :=
  length (chunk_digest c) = 32%nat ∧ 0 ≤ chunk_size c ≤ MAX_UINT64.

Definition manifest_valid (m : PayloadManifest) : Prop :=
  pm_chunks m ≠ [] ∧ length (pm_totalDigest m) = 32%nat ∧ pm_totalSize m ≤ MAX_UINT64 ∧
  Forall chunk_valid (pm_chunks m) ∧
  pm_totalSize m = foldr (λ c sum, chunk_size c + sum) 0 (pm_chunks m).

Lemma sum_foldl cs acc :
  foldl (λ sum chunk, sum + chunk_size chunk) acc cs = acc + foldr (λ c sum, chunk_size c + sum) 0 cs.
Proof. revert acc. induction cs as [|c cs IH]; intros acc; simpl; [lia|]. rewrite IH. lia. Qed.

Lemma chunk_exact item c b :
  chunkFromCbor item = Ok c → encodeCanonicalCbor item = Ok b →
  encodeCanonicalCbor (chunkToCbor c) = Ok b ∧ chunk_valid c.
Proof.
  unfold chunkFromCbor. intros H Hb. inv_ok. field_facts. subst.
  match goal with H1 : expectMap _ = Ok _, H2 : assertKnownIntegerKeys _ _ = Ok _ |- _ =>
    apply expectMap_Ok in H1; subst; apply assertKnown_unit in H2;
    pose proof (record_encoding _ _ _ Hb H2 ltac:(literal_nodup)) as Henc end.
  fold_fields Henc. done.
Qed.

Lemma chunk_read_back c : chunk_valid c → chunkFromCbor (chunkToCbor c) = Ok c.
Proof.
  intros [H1 H2]. unfold chunkFromCbor, chunkToCbor. cbn [mbind result_bind expectMap].
  rewrite integerMap_known by (literal_nodup || done). cbn [mbind result_bind].
  read_record. by destruct c.
Qed.

Lemma chunk_plain c : chunk_valid c →
  canonical_form (chunkToCbor c) = chunkToCbor c ∧ ∀ depth, depth + 1 ≤ 64 →
  shape DEFAULT_DECODE_LIMITS depth (chunkToCbor c) = true.
Proof.
  intros [H1 H2]. split.
  - apply integerMap_canonical; [done|]. repeat constructor; by intros ? [= <-].
  - intros depth Hd. apply integerMap_shape; [done..|].
    repeat (apply Forall_cons; split; [intros ? [= <-]|]); [..|by apply Forall_nil];
      cbn [shape]; rewrite (proj2 (Z.leb_le _ _)) by (simpl; lia); [done|by apply small_uint].
Qed.

Lemma manifest_exact v m b :
  manifestFromCbor v = Ok m → encodeCanonicalCbor v = Ok b →
  ∃ w, manifestToCbor m = Ok w ∧ encodeCanonicalCbor w = Ok b ∧ manifest_valid m.
Proof.
  unfold manifestFromCbor, protocolInvariant. intros H Hb. inv_ok. field_facts. subst.
  match goal with H1 : expectMap _ = Ok _, H2 : assertKnownIntegerKeys _ _ = Ok _ |- _ =>
    apply expectMap_Ok in H1; subst; apply assertKnown_unit in H2;
    pose proof (record_encoding _ _ _ Hb H2 ltac:(literal_nodup)) as Henc end.
  fold_fields Henc. rename select (mapR chunkFromCbor _ = Ok _) into Hcs. apply mapR_Ok in Hcs.
  rename x1 into items, x2 into cs. rename select (_ = Some (CArray items)) into Hitems.
  assert (Forall2 (λ v c, same_encoding v (chunkToCbor c) ∧ chunk_valid c) items cs) as Hall.
  { destruct (encode_map_item _ _ _ _ Hb (map_get_Some_elem _ _ _ Hitems)) as [_ (ab & Hab & _)].
    refine (Forall2_impl_elem _ _ _ _ _ Hcs). intros item c Hin _ Hc.
    destruct (encode_array_item _ _ _ Hab Hin) as (ib & Hib & _).
    destruct (chunk_exact _ _ _ Hc Hib) as [Hw Hv]. split; [|done].
    unfold same_encoding. by rewrite Hib, Hw. }
  eexists. split.
  { unfold manifestToCbor, protocolInvariant. cbn [pm_chunks].
    rename select ((0 <? length cs)%nat = true) into Hn. by rewrite Hn. }
  split.
  - rewrite <-Henc. symmetry. apply record_same_encoding; [literal_nodup|].
    repeat constructor. cbn [snd]. apply array_same_encoding. cbn [pm_chunks].
    apply Forall2_fmap_r. eapply Forall2_impl; [exact Hall|]. naive_solver.
  - unfold manifest_valid. cbn [pm_chunks pm_totalDigest pm_totalSize].
    rewrite sum_foldl in *. split_and!; [by destruct cs|done|lia| |lia].
    apply (Forall2_Forall_r _ _ _ _ Hall), Forall_forall. naive_solver.
Qed.

(** At most as many chunks as the decoder's array limit. *)
Definition manifest_fits (m : PayloadManifest) : Prop :=
  zlen (pm_chunks m) ≤ maxArrayItems DEFAULT_DECODE_LIMITS.

Lemma manifest_read_back m w :
  manifestToCbor m = Ok w → manifest_valid m → manifestFromCbor w = Ok m.
Proof.
  unfold manifestToCbor, manifestFromCbor, protocolInvariant.
  intros Hw (Hne & Hd & Ht & Hcs & Hsum). inv_ok. subst. cbn [mbind result_bind expectMap].
  rewrite integerMap_known by (literal_nodup || done). cbn [mbind result_bind].
  assert (0 ≤ pm_totalSize m).
  { rewrite Hsum. clear -Hcs. induction Hcs as [|c cs [_ Hc] _ IH]; simpl; lia. }
  read_record. cbn [expectArray mbind result_bind].
  rewrite (proj2 (mapR_Ok _ _ (pm_chunks m))).
  - cbn [mbind result_bind]. rename select ((0 <? _)%nat = true) into Hn. rewrite Hn.
    cbn [ensure mbind result_bind]. read_record. rewrite sum_foldl, <-Hsum, Z.add_0_l, Z.eqb_refl.
    cbn [ensure mbind result_bind]. read_record. by destruct m.
  - apply Forall2_fmap_l, Forall_Forall2_diag. eapply Forall_impl; [exact Hcs|]. apply chunk_read_back.
Qed.

Lemma manifest_plain m w :
  manifestToCbor m = Ok w → manifest_valid m → manifest_fits m →
  canonical_form w = w ∧ shape DEFAULT_DECODE_LIMITS 2 w = true.
Proof.
  unfold manifestToCbor, protocolInvariant. intros Hw (Hne & Hd & Ht & Hcs & Hsum) Hfit. inv_ok. subst.
  assert (0 ≤ pm_totalSize m).
  { rewrite Hsum. clear -Hcs. induction Hcs as [|c cs [_ Hc] _ IH]; simpl; lia. }
  rewrite Forall_forall in Hcs. split.
  - apply integerMap_canonical; [done|].
    repeat (apply Forall_cons; split; [intros ? [= <-]; try done|]); [|by apply Forall_nil].
    cbn [canonical_form]. f_equal. rewrite <-list_fmap_compose. apply list_fmap_ext.
    intros i c Hc. by apply chunk_plain, Hcs, list_elem_of_lookup_2 with i.
  - apply integerMap_shape; [done..|].
    repeat (apply Forall_cons; split; [intros ? [= <-]; try done|]); [..|by apply Forall_nil].
    + cbn [shape]. by apply small_uint.
    + unfold manifest_fits in Hfit. cbn [shape]. unfold zlen in *. rewrite length_fmap.
      rewrite (proj2 (Z.leb_le _ _)) by done. rewrite (proj2 (Z.leb_le _ _)) by done.
      rewrite (proj2 (Z.leb_le _ _)) by (simpl in Hfit; unfold MAX_SAFE_INTEGER; lia).
      rewrite !andb_true_l. apply forallb_forall.
      intros v (c & -> & Hc)%list_elem_of_In%list_elem_of_fmap.
      by apply chunk_plain; [apply Hcs|].
Qed.

(** ** Envelopes *)

Definition payload_valid (p : EnvelopePayload) : Prop :=
  match p with inline _ => True | manifest m => manifest_valid m end.
Definition payload_fits (p : EnvelopePayload) : Prop :=
  match p with inline _ => True | manifest m => manifest_fits m end.
Definition envelope_valid (e : ChronologEnvelope) : Prop :=
  length (env_payloadDigest e) = 32%nat ∧ payload_valid (env_payload e).

Lemma message_index_lookup t : MESSAGE_TYPES !! Z.to_nat (message_index t) = Some t ∧
  0 ≤ message_index t < zlen MESSAGE_TYPES.
Proof. by destruct t. Qed.

Lemma lookup_message_index i t : MESSAGE_TYPES !! i = Some t → message_index t = Z.of_nat i.
Proof. do 8 (destruct i as [|i]; [by intros [= <-]|]). done. Qed.

Lemma payload_exact l p b :
  payloadFromCbor l = Ok p → encodeCanonicalCbor (CArray l) = Ok b →
  ∃ w, payloadToCbor p = Ok w ∧ encodeCanonicalCbor w = Ok b ∧ payload_valid p.
Proof.
  unfold payloadFromCbor. destruct l as [|tag [|body [|]]]; try done. intros H Hb. inv_ok.
  rename x into ty. rename select (expectUint64 tag = Ok ty) into Ht.
  apply expectUint64_Ok in Ht as [-> _].
  destruct (Z.eqb_spec ty 0) as [E|_]; [|destruct (Z.eqb_spec ty 1) as [E|_]; [|done]];
    subst ty; inv_ok; subst.
  - rewrite expectBytes_any in *. subst. by eexists.
  - destruct (encode_array_item _ _ body Hb) as (bb & Hbb & _); [right; left|].
    destruct (manifest_exact body x bb) as (w & Hw & Henc & Hv); [done..|].
    exists (CArray [CInt 1; w]). cbn [payloadToCbor]. rewrite Hw. split_and!; [done| |done].
    rewrite <-Hb. apply array_same_encoding. repeat constructor. unfold same_encoding. congruence.
Qed.

Lemma envelope_exact b e : decodeEnvelope b = Ok e → encodeEnvelope e = Ok b ∧ envelope_valid e.
Proof.
  unfold decodeEnvelope, protocolInvariant. intros H. inv_ok. field_facts. subst.
  rename select (assertCanonical b = Ok _) into Hb. pose proof (assert_sound _ _ _ Hb) as Hsound.
  exact_encoding Henc. rename select (payloadFromCbor _ = Ok _) into Hp.
  rename select (expectMap _ = Ok _) into Hm. apply expectMap_Ok in Hm. subst.
  rename select (map_get (KInt 5) _ = Some _) into Hfive.
  destruct (encode_map_item _ _ _ _ Hsound (map_get_Some_elem _ _ _ Hfive)) as [_ (pb & Hpb & _)].
  destruct (payload_exact _ _ _ Hp Hpb) as (w & Hw & Hwb & Hv). split; [|done].
  destruct (MESSAGE_TYPES !! _) as [t|] eqn:Ht; [|done]. inv_ok. subst.
  apply lookup_message_index in Ht. rewrite Z2Nat.id in Ht by lia.
  unfold encodeEnvelope, protocolInvariant.
  cbn [env_messageType env_payload env_groupRoute env_encryptionEpoch env_payloadDigest].
  rewrite Ht, (proj2 (Z.leb_le _ _)) by lia. cbn [ensure mbind result_bind]. rewrite Hw.
  cbn [mbind result_bind]. rewrite <-Henc. symmetry. apply record_same_encoding; [literal_nodup|].
  rename select (epochFromCbor _ = Ok _) into He.
  repeat constructor.
  - unfold epochFromCbor in He. by case_match; inv_ok; subst.
  - cbn [snd]. unfold same_encoding. congruence.
Qed.

Lemma payload_plain p w :
  payloadToCbor p = Ok w → payload_valid p → payload_fits p →
  canonical_form w = w ∧ shape DEFAULT_DECODE_LIMITS 1 w = true ∧
  ∃ l, w = CArray l ∧ payloadFromCbor l = Ok p.
Proof.
  destruct p as [b|m]; simpl payloadToCbor; intros H Hv Hf; inv_ok; subst.
  - split_and!; [done..|]. by eexists.
  - destruct (manifest_plain m x) as [Hcan Hsh]; [done..|].
    split_and!.
    + cbn [canonical_form fmap list_fmap]. by rewrite Hcan.
    + cbn [shape forallb]. change (1 + 1) with 2. by rewrite Hsh.
    + eexists. split; [done|]. cbn [payloadFromCbor].
      rewrite (proj2 (expectUint64_Ok (CInt 1) 1)) by (split; [done|exact uint64_one]).
      cbn [mbind result_bind]. simpl. by rewrite (manifest_read_back m x).
Qed.

Lemma envelope_read_back b e :
  zlen b ≤ maxBytes DEFAULT_DECODE_LIMITS → payload_fits (env_payload e) →
  encodeEnvelope e = Ok b → envelope_valid e → decodeEnvelope b = Ok e.
Proof.
  intros Hlen Hfit Henc [Hd Hv].
  destruct (message_index_lookup (env_messageType e)) as [Hlook Hidx].
  unfold encodeEnvelope, protocolInvariant in Henc. inv_ok.
  rename select (payloadToCbor _ = Ok _) into Hw.
  destruct (payload_plain _ _ Hw Hv Hfit) as (Hcan & Hsh & l & -> & Hp).
  assert (message_index (env_messageType e) ≤ MAX_UINT64) by (change (zlen MESSAGE_TYPES) with 8 in Hidx;
    unfold MAX_UINT64; lia).
  unfold decodeEnvelope, protocolInvariant.
  erewrite record_decoded; [|done|done|reflexivity|].
  2: { repeat (apply Forall_cons; split; [try plain_field|]); [..|by apply Forall_nil];
       intros ? [= <-]; [by destruct (env_encryptionEpoch e)|done]. }
  cbn [mbind result_bind expectMap].
  rewrite integerMap_known by (literal_nodup || done). cbn [mbind result_bind].
  read_record. rewrite Hlook. cbn [mbind result_bind]. read_record.
  replace (epochFromCbor _) with (Ok (E:=ErrorCode) (env_encryptionEpoch e))
    by (by destruct (env_encryptionEpoch e)).
  cbn [mbind result_bind]. read_record. cbn [expectArray mbind result_bind]. rewrite Hp.
  cbn [mbind result_bind]. read_record. by destruct e.
Qed.

(** envelope codec, inline and chunked payloads included. *)
Theorem envelope_codec b e :
  zlen b ≤ maxBytes DEFAULT_DECODE_LIMITS → payload_fits (env_payload e) →
  decodeEnvelope b = Ok e ↔ encodeEnvelope e = Ok b ∧ envelope_valid e.
Proof.
  intros Hlen Hfit. split; [apply envelope_exact|]. intros [Henc Hv]. by apply envelope_read_back.
Qed.

Definition sample_envelope : ChronologEnvelope :=
  mkEnvelope [x01; x02] MTepochManifest (Some [x09]) (replicate 32 x0a)
    (manifest (mkManifest (replicate 32 x0b) 300 [mkChunk (replicate 32 x0c) 100; mkChunk (replicate 32 x0d) 200])).

Lemma envelope_codec_witness : ∃ b,
  encodeEnvelope sample_envelope = Ok b ∧ decodeEnvelope b = Ok sample_envelope.
Proof.
  eexists. split; [vm_compute; reflexivity|].
  apply envelope_codec; [vm_compute; discriminate|vm_compute; discriminate|].
  split; [vm_compute; reflexivity|].
  unfold envelope_valid, payload_valid, manifest_valid, chunk_valid. simpl.
  repeat (split || constructor || discriminate); vm_compute; discriminate.
Defined.

(** ** Payload resolution *)

Section manifest_proofs.
Context (sha256 : bytes → bytes).

(** The bytes hashed for a payload in a domain. *)
Definition preimage (d : ProtocolDomain) (p : bytes) : bytes := domain_name d ++ x00 :: p.

(** Two given byte strings that are different and have the same digest. *)
Definition collision (x y : bytes) : Prop := x ≠ y ∧ sha256 x = sha256 y.

Lemma hashDomain_Ok d p h : hashDomain sha256 d p = Ok h ↔ h = sha256 (preimage d p).
Proof.
  unfold hashDomain. rewrite domainSeparatedBytes_total. cbn [mbind result_bind].
  split; [by intros [= <-]|by intros ->].
Qed.

Lemma preimage_inj d p d' p' : preimage d p = preimage d' p' → d = d' ∧ p = p'.
Proof.
  intros [Hd ->]%nul_split_inj; [|apply domain_name_no_nul..]. split; [by apply domain_name_inj|done].
Qed.

Lemma hashDomain_inj d p d' q h :
  hashDomain sha256 d p = Ok h → hashDomain sha256 d' q = Ok h →
  (d = d' ∧ p = q) ∨ collision (preimage d p) (preimage d' q).
Proof.
  rewrite !hashDomain_Ok. intros -> Hq.
  destruct (decide (preimage d p = preimage d' q)) as [Heq|Hne]; [left; by apply preimage_inj|by right].
Qed.

Lemma hashDomain_total d p : ∃ h, hashDomain sha256 d p = Ok h.
Proof. eexists. by apply hashDomain_Ok. Qed.

Lemma verify_chunks_created chunks cs :
  mapR (λ chunk, digest ← payloadChunkDigest sha256 chunk; Ok (mkChunk digest (zlen chunk))) chunks = Ok cs →
  verify_chunks sha256 chunks cs = Ok tt.
Proof.
  rewrite mapR_Ok. induction 1 as [|chunk c chunks cs Hc _ IH]; [done|]. inv_ok. subst.
  cbn [verify_chunks chunk_size chunk_digest]. unfold protocolInvariant. rewrite Z.eqb_refl.
  cbn [ensure mbind result_bind]. rename select (payloadChunkDigest _ _ = Ok _) into Hd.
  rewrite Hd. cbn [mbind result_bind]. rewrite equalBytes_refl. exact IH.
Qed.

Lemma verify_chunks_binding cs chunks1 chunks2 :
  verify_chunks sha256 chunks1 cs = Ok tt → verify_chunks sha256 chunks2 cs = Ok tt →
  length chunks1 = length cs → length chunks2 = length cs →
  chunks1 = chunks2 ∨ ∃ c1 c2, c1 ∈ chunks1 ∧ c2 ∈ chunks2 ∧
  collision (preimage DpayloadChunk c1) (preimage DpayloadChunk c2).
Proof.
  revert chunks1 chunks2. induction cs as [|c cs IH]; intros [|b1 chunks1] [|b2 chunks2]; try done;
    [by left|].
  cbn [verify_chunks]. unfold protocolInvariant. intros H1 H2 L1 L2. inv_ok.
  rewrite equalBytes_spec in *. subst.
  destruct (hashDomain_inj DpayloadChunk b1 DpayloadChunk b2 (chunk_digest c)) as [[_ ->]|Hc]; [done..| |].
  2: { right. exists b1, b2. split_and!; [left|left|done]. }
  destruct (IH chunks1 chunks2) as [->|(c1 & c2 & ? & ? & ?)]; [done|done|simpl in *; lia..|by left|].
  right. exists c1, c2. split_and!; [by right|by right|done].
Qed.

Lemma manifest_accepts chunks m : createPayloadManifest sha256 chunks = Ok m →
  verifyPayloadManifest sha256 m chunks = Ok (concatBytes chunks).
Proof.
  unfold createPayloadManifest, verifyPayloadManifest, protocolInvariant. intros H. inv_ok. subst.
  cbn [pm_chunks pm_totalSize pm_totalDigest]. rename select (mapR _ _ = Ok _) into Hcs.
  rewrite (mapR_length _ _ _ Hcs), Nat.eqb_refl. apply verify_chunks_created in Hcs.
  cbn [ensure mbind result_bind]. rewrite Hcs. cbn [mbind result_bind].
  rewrite Z.eqb_refl. cbn [ensure mbind result_bind].
  rename select (payloadDigest _ _ = Ok _) into Hd. rewrite Hd. cbn [mbind result_bind].
  by rewrite equalBytes_refl.
Qed.
End manifest_proofs.

(** a manifest created from chunks accepts them and yields their
    concatenation; any other list of chunks it accepts has a chunk that collides
    with one of them under SHA-256. *)
Theorem manifest_binds sha256 chunks m :
  createPayloadManifest sha256 chunks = Ok m →
  verifyPayloadManifest sha256 m chunks = Ok (concatBytes chunks) ∧
  (∀ chunks' p, verifyPayloadManifest sha256 m chunks' = Ok p →
    chunks' = chunks ∨ ∃ c1 c2, c1 ∈ chunks' ∧ c2 ∈ chunks ∧
      collision sha256 (preimage DpayloadChunk c1) (preimage DpayloadChunk c2)).
Proof.
  intros Hm. split; [by apply manifest_accepts|].
  revert Hm. unfold createPayloadManifest, verifyPayloadManifest, protocolInvariant. intros H. inv_ok. subst.
  cbn [pm_chunks pm_totalSize pm_totalDigest]. rename select (mapR _ _ = Ok _) into Hcs.
  pose proof (mapR_length _ _ _ Hcs) as Hlen. apply verify_chunks_created in Hcs.
  intros chunks' p Hp. inv_ok. rename select ((_ =? _)%nat = true) into Hn. apply Nat.eqb_eq in Hn.
    match goal with H : verify_chunks _ chunks' _ = Ok ?u |- _ => destruct u end.
    eapply verify_chunks_binding; [done|done|exact Hn|exact (eq_sym Hlen)].
Qed.

Lemma manifest_binds_witness :
  ∃ m, createPayloadManifest (λ b, b) [[x01]; [x02; x03]] = Ok m ∧
    verifyPayloadManifest (λ b, b) m [[x01]; [x02; x03]] = Ok [x01; x02; x03].
Proof.
  eexists. split; [vm_compute; reflexivity|].
  apply (manifest_binds (λ b, b) [[x01]; [x02; x03]]). vm_compute; reflexivity.
Defined.

(** an envelope resolves to one payload: two resolutions of the same
    envelope, whatever chunks were supplied, agree or are a SHA-256 collision. *)
Theorem envelope_payload_unique sha256 e chunks1 chunks2 p1 p2 :
  resolveEnvelopePayload sha256 e chunks1 = Ok p1 →
  resolveEnvelopePayload sha256 e chunks2 = Ok p2 →
  p1 = p2 ∨ collision sha256 (preimage Denvelope p1) (preimage Denvelope p2).
Proof.
  unfold resolveEnvelopePayload, protocolInvariant. intros H1 H2. inv_ok. subst.
  rewrite equalBytes_spec in *. subst.
  destruct (hashDomain_inj sha256 Denvelope p1 Denvelope p2 (env_payloadDigest e)) as [[_ ->]|]; auto.
Qed.

Lemma envelope_payload_unique_witness :
  ([x07] : bytes) = [x07] ∨ collision (λ b, b) (preimage Denvelope [x07]) (preimage Denvelope [x07]).
Proof.
  apply (envelope_payload_unique (λ b, b)
    (mkEnvelope [] MTcandidate None (domain_name Denvelope ++ [x00; x07]) (inline [x07])) [] []);
    vm_compute; reflexivity.
Defined.
