(* ===== verification/Base64.v ===== *)
(** * Base64url identifiers

    [Buffer.from(bytes).toString('base64url')] and its inverse
    [Buffer.from(key, 'base64url')], with which the control store and the
    node key their maps.  Three bytes are written as four characters of a
    64-letter alphabet, without padding.  The decoder is given on the strings
    the encoder produces; Node's decoder skips other characters, which never
    occur in these keys. *)

From Stdlib Require Import Strings.Byte.
From stdpp Require Import base list option numbers sets.
From S2P Require Import Prelude Bytes.

#[local] Open Scope Z_scope.

(** The code unit of a 6-bit digit: A-Z, a-z, 0-9, [-], [_]. *)
Definition b64_char (d : Z) : Z :=
  if d <? 26 then 65 + d
  else if d <? 52 then 97 + (d - 26)
  else if d <? 62 then 48 + (d - 52)
  else if d =? 62 then 45 else 95.

Definition b64_digit (c : Z) : option Z :=
  if (65 <=? c) && (c <=? 90) then Some (c - 65)
  else if (97 <=? c) && (c <=? 122) then Some (c - 97 + 26)
  else if (48 <=? c) && (c <=? 57) then Some (c - 48 + 52)
  else if c =? 45 then Some 62
  else if c =? 95 then Some 63
  else None.

Fixpoint base64url (b : bytes) : jsstring :=
  match b with
  | [] => []
  | [x] => [b64_char (val x / 4); b64_char (val x mod 4 * 16)]
  | [x; y] =>
      [b64_char (val x / 4); b64_char (val x mod 4 * 16 + val y / 16); b64_char (val y mod 16 * 4)]
  | x :: y :: z :: b' =>
      b64_char (val x / 4) :: b64_char (val x mod 4 * 16 + val y / 16) ::
      b64_char (val y mod 16 * 4 + val z / 64) :: b64_char (val z mod 64) :: base64url b'
  end.

Fixpoint base64url_decode (s : jsstring) : option bytes :=
  match s with
  | [] => Some []
  | [c1; c2] =>
      d1 ← b64_digit c1; d2 ← b64_digit c2; Some [byte_of (d1 * 4 + d2 / 16)]
  | [c1; c2; c3] =>
      d1 ← b64_digit c1; d2 ← b64_digit c2; d3 ← b64_digit c3;
      Some [byte_of (d1 * 4 + d2 / 16); byte_of (d2 mod 16 * 16 + d3 / 4)]
  | c1 :: c2 :: c3 :: c4 :: s' =>
      d1 ← b64_digit c1; d2 ← b64_digit c2; d3 ← b64_digit c3; d4 ← b64_digit c4;
      rest ← base64url_decode s';
      Some (byte_of (d1 * 4 + d2 / 16) :: byte_of (d2 mod 16 * 16 + d3 / 4) ::
            byte_of (d3 mod 4 * 64 + d4) :: rest)
  | _ => None
  end.

Lemma b64_digit_char d : 0 ≤ d < 64 → b64_digit (b64_char d) = Some d.
Proof.
  intros Hd. unfold b64_char.
  destruct (Z.ltb_spec d 26); [|destruct (Z.ltb_spec d 52); [|destruct (Z.ltb_spec d 62);
    [|destruct (Z.eqb_spec d 62)]]]; unfold b64_digit;
    repeat match goal with |- context [?a <=? ?b] =>
      first [rewrite (proj2 (Z.leb_le a b)) by lia | rewrite (proj2 (Z.leb_gt a b)) by lia] end;
    simpl; try (f_equal; lia).
  all: repeat match goal with |- context [?a =? ?b] => destruct (Z.eqb_spec a b) end; f_equal; lia.
Qed.

Lemma b64_char_not_colon d : 0 ≤ d < 64 → b64_char d ≠ 58.
Proof. intros Hd. unfold b64_char. repeat case_match; lia. Qed.

Lemma byte_of_eq z b : z = val b → byte_of z = b.
Proof. intros ->. apply byte_of_val. Qed.

Ltac b64_range := Z.to_euclidean_division_equations; lia.

Lemma base64url_decode_encode b : base64url_decode (base64url b) = Some b.
Proof.
  induction b as [b IH] using (induction_ltof1 _ (@length byte)).
  destruct b as [|x [|y [|z b]]]; [done|..]; cbn [base64url base64url_decode];
    try pose proof (val_range x); try pose proof (val_range y); try pose proof (val_range z);
    rewrite !b64_digit_char by b64_range; simpl.
  - do 2 f_equal. apply byte_of_eq. b64_range.
  - do 2 f_equal; [apply byte_of_eq; b64_range|]. f_equal. apply byte_of_eq. b64_range.
  - rewrite IH by (unfold ltof; simpl; lia). simpl. f_equal.
    f_equal; [apply byte_of_eq; b64_range|]. f_equal; [apply byte_of_eq; b64_range|].
    f_equal. apply byte_of_eq. b64_range.
Qed.

#[export] Instance base64url_inj : Inj (=) (=) base64url.
Proof. intros a b H%(f_equal base64url_decode). rewrite !base64url_decode_encode in H. congruence. Qed.

Lemma base64url_no_colon b : 58 ∉ base64url b.
Proof.
  induction b as [b IH] using (induction_ltof1 _ (@length byte)).
  destruct b as [|x [|y [|z b]]]; [apply not_elem_of_nil|..]; cbn [base64url];
    try pose proof (val_range x); try pose proof (val_range y); try pose proof (val_range z);
    rewrite ?not_elem_of_cons;
    repeat (split; [symmetry; apply b64_char_not_colon; b64_range|]);
    try apply not_elem_of_nil.
  apply IH. unfold ltof; simpl; lia.
Qed.

(** ** Base64 with padding *)

(** [Buffer.from(bytes).toString('base64')]: the same digits with [+] and [/]
    instead of [-] and [_], padded with [=] to a multiple of four. *)
Definition b64_standard (c : Z) : Z := if c =? 45 then 43 else if c =? 95 then 47 else c.

Definition base64 (b : bytes) : jsstring :=
  let s := b64_standard <$> base64url b in
  s ++ replicate ((4 - length s mod 4) mod 4)%nat 61.

Definition b64_url (c : Z) : Z := if c =? 43 then 45 else if c =? 47 then 95 else c.

(** A decoder of such texts: drop the padding, map the digits back. *)
Definition base64_decode (s : jsstring) : bytes :=
  default [] (base64url_decode (b64_url <$> filter (λ c, c ≠ 61) s)).

Lemma base64url_alphabet b : Forall (λ c, b64_url (b64_standard c) = c ∧ b64_standard c ≠ 61) (base64url b).
Proof.
  assert (∀ d, 0 ≤ d < 64 → b64_url (b64_standard (b64_char d)) = b64_char d ∧ b64_standard (b64_char d) ≠ 61) as Hd.
  { intros d Hd. unfold b64_url, b64_standard, b64_char. repeat case_match; lia. }
  induction b as [b IH] using (induction_ltof1 _ (@length byte)).
  destruct b as [|x [|y [|z b]]]; [constructor|..]; cbn [base64url];
    try pose proof (val_range x); try pose proof (val_range y); try pose proof (val_range z);
    repeat (constructor; [apply Hd; b64_range|]); try constructor.
  apply IH. unfold ltof; simpl; lia.
Qed.

Lemma base64_decode_encode b : base64_decode (base64 b) = b.
Proof.
  unfold base64_decode, base64. cbv zeta. pose proof (base64url_alphabet b) as Ha.
  set (pad := replicate _ 61). set (s := b64_standard <$> base64url b).
  change (filter (λ c : Z, c ≠ 61) (s ++ pad)) with (filter (λ c : Z, c ≠ 61) ((s : list Z) ++ pad)).
  rewrite filter_app, (filter_none _ pad), app_nil_r.
  - rewrite filter_all.
    + replace (b64_url <$> s) with (base64url b); [by rewrite base64url_decode_encode|].
      unfold s. clear -Ha. induction Ha as [|c l [Hc _] _ IH]; [done|]. rewrite !fmap_cons. by rewrite Hc, <-IH.
    + apply Forall_fmap. eapply Forall_impl; [exact Ha|]. by intros c [_ ?].
  - apply Forall_forall. intros c Hc. apply elem_of_replicate in Hc as [-> _]. naive_solver.
Qed.
