(* ===== verification/StoreTypes.v ===== *)
(** * The data of the control store: [packages/control-store/src/types.ts]

    The records the store keeps, its change log and snapshots, its error
    codes, and the interface ([Persistence]) it asks of a persistence layer,
    with the optional methods as [option]s. *)

From Stdlib Require Import Strings.Byte.
From stdpp Require Import base list option numbers.
From S2P Require Import Prelude JsMap Bytes Domains.

#[local] Open Scope Z_scope.

Inductive CandidateState :=
  | waiting_for_payload | pending_validation | admissible | invalid_protocol | unauthorized | quarantined.

Record StoredCandidate := mkCandidate {
  sc_txId : bytes;
  sc_groupId : bytes;
  sc_candidateDigest : bytes;
  sc_validationPolicy : bytes;
  sc_orderKey : TransactionOrderKey;
  sc_canonicalPayload : option bytes;
  sc_state : CandidateState;
  sc_stateReason : option jsstring;
  sc_proofAttestationIds : list bytes;
}.

(** [PutCandidateInput]: the proof may be left out. *)
Record PutCandidateInput := mkCandidateInput {
  in_txId : bytes;
  in_groupId : bytes;
  in_candidateDigest : bytes;
  in_validationPolicy : bytes;
  in_orderKey : TransactionOrderKey;
  in_canonicalPayload : option bytes;
  in_state : CandidateState;
  in_stateReason : option jsstring;
  in_proofAttestationIds : option (list bytes);
}.

Record StoredAttestation := mkStoredAttestation {
  sa_attestationId : bytes;
  sa_txId : bytes;
  sa_validatorId : bytes;
  sa_validatorCapability : bytes;
  sa_membershipRevision : bytes;
  sa_candidateDigest : bytes;
  sa_validatorFeedSequence : Z;
  sa_authorTimestampMs : Z;
  sa_acceptedAboveMs : Z;
  sa_policyVersion : Z;
  sa_transportAuthor : jsstring;
}.

Record StoredHeartbeat := mkStoredHeartbeat {
  sh_heartbeatId : bytes;
  sh_validatorId : bytes;
  sh_validatorCapability : bytes;
  sh_membershipRevision : bytes;
  sh_validatorFeedSequence : Z;
  sh_acceptanceCutoffMs : Z;
  sh_feedContiguous : bool;
}.

Inductive WatermarkPolicy :=
  | threshold_policy (policyId : jsstring) (validatorIds : list bytes) (threshold : Z)
  | proof_alternatives (policyId : jsstring) (minimalProofs : list (list bytes)).

Inductive WatermarkExplanation := established | insufficient_contiguous_heartbeats | invalid_policy.

Record WatermarkEvidence := mkWatermark {
  we_policyId : jsstring;
  we_cutoffMs : option Z;
  we_blockingValidatorIds : list bytes;
  we_heartbeatIds : list bytes;
  we_explanation : WatermarkExplanation;
}.

Record MaterializedHead := mkHead {
  mh_localRevision : Z;
  mh_headRef : jsstring;
  mh_orderLength : Z;
  mh_orderDigest : bytes;
}.

Record StoredCheckpoint := mkCheckpoint {
  cp_prefixLength : Z;
  cp_checkpointRef : jsstring;
  cp_prefixDigest : bytes;
  cp_pinned : bool;
}.

Record HistoryReopening := mkReopening {
  hr_id : jsstring;
  hr_floorMs : Z;
  hr_membershipRevision : bytes;
  hr_reason : jsstring;
}.

Record SettlementEvidence := mkSettlement {
  se_txId : bytes;
  se_candidateState : CandidateState;
  se_orderKey : TransactionOrderKey;
  se_proofAttestationIds : list bytes;
  se_watermark : WatermarkEvidence;
  se_belowWatermark : bool;
  se_unresolvedAttestationIds : list bytes;
  se_historyReopeningIds : list jsstring;
}.

(** A change-log entry without its sequence number, and with it. *)
Inductive DeltaBody :=
  | candidate_added (txId : bytes) (state : CandidateState)
  | candidate_state_changed (txId : bytes) (previousState state : CandidateState) (reason : option jsstring)
  | attestation_added (attestationId txId : bytes) (unresolvedCandidate : bool)
  | order_append (txId : bytes) (index previousLength : Z)
  | order_insert (txId : bytes) (index previousLength : Z)
  | heartbeat_advanced (heartbeatId validatorId : bytes) (cutoffMs : Z) (feedContiguous : bool)
  | materialized_head_published (head : MaterializedHead)
  | checkpoint_stored (checkpoint : StoredCheckpoint)
  | history_reopened (reopening : HistoryReopening).

Record ControlStoreDelta := mkDelta { d_sequence : Z; d_body : DeltaBody }.

Record ValidatorCutoffState := mkCutoff { vc_validatorId : bytes; vc_acceptedAboveMs : Z }.

Record ControlStoreSnapshot := mkSnapshot {
  ss_sequence : Z;
  ss_candidates : list StoredCandidate;
  ss_attestations : list StoredAttestation;
  ss_heartbeats : list StoredHeartbeat;
  ss_orderedTxIds : list bytes;
  ss_deltas : list ControlStoreDelta;
  ss_deltaFloor : option Z;
  ss_materializedHead : option MaterializedHead;
  ss_checkpoints : list StoredCheckpoint;
  ss_historyReopenings : list HistoryReopening;
  ss_validatorCutoffs : option (list ValidatorCutoffState);
}.

(** [Extract<CandidateState, 'pending_validation' | 'admissible'>] *)
Inductive EvaluationState := ev_pending_validation | ev_admissible.
Definition evaluation_state (e : EvaluationState) : CandidateState :=
  match e with ev_pending_validation => pending_validation | ev_admissible => admissible end.

Record AdmissionEvaluation := mkEvaluation {
  ae_state : EvaluationState;
  ae_proofAttestationIds : option (list bytes);
  ae_reason : option jsstring;
}.

Definition AdmissionEvaluator : Type := StoredCandidate → list StoredAttestation → AdmissionEvaluation.

(** ** Decidable equality *)

#[export] Instance CandidateState_eq_dec : EqDecision CandidateState.
Proof. solve_decision. Defined.
#[export] Instance StoredCandidate_eq_dec : EqDecision StoredCandidate.
Proof. solve_decision. Defined.
#[export] Instance StoredAttestation_eq_dec : EqDecision StoredAttestation.
Proof. solve_decision. Defined.
#[export] Instance StoredHeartbeat_eq_dec : EqDecision StoredHeartbeat.
Proof. solve_decision. Defined.
#[export] Instance MaterializedHead_eq_dec : EqDecision MaterializedHead.
Proof. solve_decision. Defined.
#[export] Instance StoredCheckpoint_eq_dec : EqDecision StoredCheckpoint.
Proof. solve_decision. Defined.
#[export] Instance HistoryReopening_eq_dec : EqDecision HistoryReopening.
Proof. solve_decision. Defined.

(** ** Errors *)

Inductive ConflictCode :=
  | CONTROL_STORE_VALIDATOR_CUTOFF_REGRESSION
  | CONTROL_STORE_CANDIDATE_CONFLICT
  | CONTROL_STORE_ATTESTATION_CONFLICT
  | CONTROL_STORE_CANDIDATE_NOT_ADMISSION_ELIGIBLE
  | CONTROL_STORE_INVALID_ADMISSION_PROOF
  | CONTROL_STORE_HEARTBEAT_CUTOFF_REGRESSION
  | CONTROL_STORE_HEARTBEAT_CONFLICT
  | CONTROL_STORE_HEAD_REVISION_REGRESSION
  | CONTROL_STORE_HEAD_REVISION_CONFLICT
  | CONTROL_STORE_HEAD_AHEAD_OF_ORDER
  | CONTROL_STORE_INVALID_CHECKPOINT_PREFIX
  | CONTROL_STORE_PINNED_CHECKPOINT_REPLACEMENT
  | CONTROL_STORE_REOPENING_CONFLICT
  | CONTROL_STORE_DELTA_HISTORY_RESET
  | CONTROL_STORE_UNKNOWN_CANDIDATE
  | CONTROL_STORE_DUPLICATE_ORDER_ENTRY
  | CONTROL_STORE_CORRUPT_DELTA_SEQUENCE
  | CONTROL_STORE_CORRUPT_DELTA_FLOOR
  | CONTROL_STORE_CORRUPT_ORDER_STATE
  | CONTROL_STORE_CORRUPT_DUPLICATE_ORDER
  | CONTROL_STORE_CORRUPT_ORDER
  | CONTROL_STORE_ADMISSION_NOT_MONOTONIC
  | CONTROL_STORE_TERMINAL_STATE
  | CONTROL_STORE_PAYLOAD_NOT_VERIFIED
  | CONTROL_STORE_PAYLOAD_STATE_REGRESSION.

(** What a store operation throws: a conflict, an error of the persistence
    layer passed through, the constructor's [RangeError], or a [TypeError]
    for an access that the code asserts cannot fail. *)
Inductive StoreError (E : Type) :=
  | Conflict (code : ConflictCode)
  | PersistenceFailed (e : E)
  | INVALID_DELTA_RETENTION
  | TypeError.
Arguments Conflict {E} code.
Arguments PersistenceFailed {E} e.
Arguments INVALID_DELTA_RETENTION {E}.
Arguments TypeError {E}.

(** ** The persistence interface *)

(** [P] is the state of the layer, [E] its errors.  [requestSave] registers the
    closure [() => this.snapshot()]; the closure reads the live store when it
    runs, so [flush] takes the snapshot of that moment. *)
Class Persistence (P E : Type) := {
  p_load : SE P E (option ControlStoreSnapshot);
  p_save : ControlStoreSnapshot → SE P E unit;
  p_loadValidatorCutoffs : option (SE P E (option (list ValidatorCutoffState)));
  p_initializeValidatorCutoffs : option (list ValidatorCutoffState → SE P E unit);
  p_saveValidatorCutoff : option (ValidatorCutoffState → SE P E unit);
  p_requestSave : option (SE P E unit);
  p_flush : option (ControlStoreSnapshot → SE P E unit);
  p_recoverCorruptSnapshot : option (SE P E bool);
}.

(** A store without persistence ([persistence === null]). *)
Definition NullPersistence : Persistence unit Empty_set := {|
    p_load := λ s, (s, Ok None);
    p_save := λ _ s, (s, Ok tt);
    p_loadValidatorCutoffs := None;
    p_initializeValidatorCutoffs := None;
    p_saveValidatorCutoff := None;
    p_requestSave := None;
    p_flush := None;
    p_recoverCorruptSnapshot := None;
    |}.
