(* ===== verification/ControlStore.v ===== *)
(** * The control store: [packages/control-store/src/control-store.ts]

    The class [ControlStore] as a state record and one definition per method.
    A method runs in the state-with-exceptions monad over the store and the
    state of its persistence layer, so a throw keeps the mutations made before
    it.  [clone], [structuredClone] and [copyBytes] are the identity on values:
    the store copies everything that crosses its boundary. *)

From Stdlib Require Import Strings.Byte.
From stdpp Require Import base list option numbers.
From S2P Require Import Prelude JsMap Bytes Base64 Domains StoreTypes.

#[local] Open Scope Z_scope.

(** ** State *)

Record ControlStore := mkStore {
  sequence : Z;
  deltaFloor : Z;
  maximumRetainedDeltas : Z;
  candidates : jsmap jsstring StoredCandidate;
  attestations : jsmap jsstring StoredAttestation;
  attestationsByTx : jsmap jsstring (jsset jsstring);
  heartbeats : jsmap jsstring StoredHeartbeat;
  validatorCutoffs : jsmap jsstring Z;
  orderedTxIds : list bytes;
  deltas : list ControlStoreDelta;
  checkpoints : jsmap Z StoredCheckpoint;
  historyReopenings : jsmap jsstring HistoryReopening;
  materializedHead : option MaterializedHead;
}.

Definition empty_store (maximum : Z) : ControlStore :=
  mkStore 0 0 maximum [] [] [] [] [] [] [] [] [] None.

(** Assignments to one field. *)
Definition set_candidates v s := mkStore (sequence s) (deltaFloor s) (maximumRetainedDeltas s) v
  (attestations s) (attestationsByTx s) (heartbeats s) (validatorCutoffs s) (orderedTxIds s)
  (deltas s) (checkpoints s) (historyReopenings s) (materializedHead s).
Definition set_attestations v w s := mkStore (sequence s) (deltaFloor s) (maximumRetainedDeltas s)
  (candidates s) v w (heartbeats s) (validatorCutoffs s) (orderedTxIds s)
  (deltas s) (checkpoints s) (historyReopenings s) (materializedHead s).
Definition set_heartbeats v s := mkStore (sequence s) (deltaFloor s) (maximumRetainedDeltas s)
  (candidates s) (attestations s) (attestationsByTx s) v (validatorCutoffs s) (orderedTxIds s)
  (deltas s) (checkpoints s) (historyReopenings s) (materializedHead s).
Definition set_validatorCutoffs v s := mkStore (sequence s) (deltaFloor s) (maximumRetainedDeltas s)
  (candidates s) (attestations s) (attestationsByTx s) (heartbeats s) v (orderedTxIds s)
  (deltas s) (checkpoints s) (historyReopenings s) (materializedHead s).
Definition set_orderedTxIds v s := mkStore (sequence s) (deltaFloor s) (maximumRetainedDeltas s)
  (candidates s) (attestations s) (attestationsByTx s) (heartbeats s) (validatorCutoffs s) v
  (deltas s) (checkpoints s) (historyReopenings s) (materializedHead s).
Definition set_deltas n floor v s := mkStore n floor (maximumRetainedDeltas s)
  (candidates s) (attestations s) (attestationsByTx s) (heartbeats s) (validatorCutoffs s)
  (orderedTxIds s) v (checkpoints s) (historyReopenings s) (materializedHead s).
Definition set_checkpoints v s := mkStore (sequence s) (deltaFloor s) (maximumRetainedDeltas s)
  (candidates s) (attestations s) (attestationsByTx s) (heartbeats s) (validatorCutoffs s)
  (orderedTxIds s) (deltas s) v (historyReopenings s) (materializedHead s).
Definition set_historyReopenings v s := mkStore (sequence s) (deltaFloor s) (maximumRetainedDeltas s)
  (candidates s) (attestations s) (attestationsByTx s) (heartbeats s) (validatorCutoffs s)
  (orderedTxIds s) (deltas s) (checkpoints s) v (materializedHead s).
Definition set_materializedHead v s := mkStore (sequence s) (deltaFloor s) (maximumRetainedDeltas s)
  (candidates s) (attestations s) (attestationsByTx s) (heartbeats s) (validatorCutoffs s)
  (orderedTxIds s) (deltas s) (checkpoints s) (historyReopenings s) v.

(** ** Helpers at the end of the file *)

Definition idKey (value : bytes) : jsstring := base64url value.

(** [`${idKey(membershipRevision)}:${idKey(validatorId)}`] *)
Definition heartbeatKey (membershipRevision validatorId : bytes) : jsstring :=
  idKey membershipRevision ++ [58] ++ idKey validatorId.

Definition bytesEqual (left right : bytes) : bool := equalBytes left right.

Definition sameBytesList (left right : list bytes) : bool :=
  (length left =? length right)%nat && forallb (λ p, bytesEqual p.1 p.2) (zip left right).

(** [sameValue]: deep structural equality of the plain records of this store. *)
Definition sameValue {A} `{EqDecision A} (left right : A) : bool := bool_decide (left = right).

Definition sameCandidateIdentity (left right : StoredCandidate) : bool :=
  sameValue (sc_txId left, sc_groupId left, sc_candidateDigest left, sc_validationPolicy left,
             sc_orderKey left, sc_canonicalPayload left)
            (sc_txId right, sc_groupId right, sc_candidateDigest right, sc_validationPolicy right,
             sc_orderKey right, sc_canonicalPayload right).

Definition TERMINAL_INVALID_STATES (state : CandidateState) : bool :=
  match state with invalid_protocol | unauthorized | quarantined => true | _ => false end.

Definition validateStateTransition (previous next : CandidateState) : result ConflictCode unit :=
  if bool_decide (previous = next) then Ok tt
  else if bool_decide (previous = admissible) then Err CONTROL_STORE_ADMISSION_NOT_MONOTONIC
  else if TERMINAL_INVALID_STATES previous then Err CONTROL_STORE_TERMINAL_STATE
  else if bool_decide (previous = waiting_for_payload) && negb (bool_decide (next = pending_validation))
          && negb (TERMINAL_INVALID_STATES next)
  then Err CONTROL_STORE_PAYLOAD_NOT_VERIFIED
  else if bool_decide (next = waiting_for_payload) then Err CONTROL_STORE_PAYLOAD_STATE_REGRESSION
  else Ok tt.

(** ** The change log *)

(** [splice(0, excess)] and the floor moves to the last removed sequence. *)
Definition trimDeltas (s : ControlStore) : ControlStore :=
  let excess := Z.of_nat (length (deltas s)) - maximumRetainedDeltas s in
  if excess <=? 0 then s
  else
    let removed := take (Z.to_nat excess) (deltas s) in
    set_deltas (sequence s) (match list.last removed with Some d => d_sequence d | None => deltaFloor s end)
      (drop (Z.to_nat excess) (deltas s)) s.

Definition appendDelta (body : DeltaBody) (s : ControlStore) : ControlStore * ControlStoreDelta :=
  let n := sequence s + 1 in
  let sequenced := mkDelta n body in
  (trimDeltas (set_deltas n (deltaFloor s) (deltas s ++ [sequenced]) s), sequenced).

(** ** Reading *)

Definition getCandidate (s : ControlStore) (txId : bytes) : option StoredCandidate :=
  map_get (idKey txId) (candidates s).

Definition listCandidates (s : ControlStore) : list StoredCandidate := map_values (candidates s).

Definition requiredCandidate (s : ControlStore) (txId : bytes) : result ConflictCode StoredCandidate :=
  match map_get (idKey txId) (candidates s) with
  | Some candidate => Ok candidate
  | None => Err CONTROL_STORE_UNKNOWN_CANDIDATE
  end.

Definition attestationsFor (s : ControlStore) (txId : bytes) : list StoredAttestation :=
  match map_get (idKey txId) (attestationsByTx s) with
  | None => []
  | Some refs => omap (λ ref, map_get ref (attestations s)) (map_keys refs)
  end.

Definition orderedCandidates (s : ControlStore) : result ConflictCode (list StoredCandidate) :=
  mapR (requiredCandidate s) (orderedTxIds s).

Definition orderedTransactionIds (s : ControlStore) : list bytes := orderedTxIds s.

(** The loop over the common length, then the length comparison. *)
Fixpoint first_order_difference (index : Z) (previous current : list bytes) : option Z :=
  match previous, current with
  | [], [] => None
  | p :: previous', c :: current' =>
      if negb (bytesEqual p c) then Some index else first_order_difference (index + 1) previous' current'
  | _, _ => Some index
  end.

Definition earliestOrderDifference (s : ControlStore) (previous : list bytes) : option Z :=
  first_order_difference 0 previous (orderedTxIds s).

Definition changesSince (s : ControlStore) (from : Z) : result ConflictCode (list ControlStoreDelta) :=
  if from <? deltaFloor s then Err CONTROL_STORE_DELTA_HISTORY_RESET
  else Ok (filter (λ d, from < d_sequence d) (deltas s)).

Definition unresolvedAttestations (s : ControlStore) : list StoredAttestation :=
  filter (λ a, map_has (idKey (sa_txId a)) (candidates s) = false) (map_values (attestations s)).

Definition nearestCheckpointBefore (s : ControlStore) (orderIndex : Z) : option StoredCheckpoint :=
  foldl (λ nearest checkpoint,
    if (cp_prefixLength checkpoint <=? orderIndex) &&
       match nearest with None => true | Some n => cp_prefixLength n <? cp_prefixLength checkpoint end
    then Some checkpoint else nearest) None (map_values (checkpoints s)).

(** [Buffer.from(key, 'base64url')] on the keys of the cutoff map. *)
Definition key_bytes_of (key : jsstring) : bytes :=
  match base64url_decode key with Some b => b | None => [] end.

Definition listValidatorCutoffs (s : ControlStore) : list ValidatorCutoffState :=
  (λ e, mkCutoff (key_bytes_of e.1) e.2) <$> validatorCutoffs s.

Definition snapshot (s : ControlStore) : ControlStoreSnapshot := {|
    ss_sequence := sequence s;
    ss_candidates := listCandidates s;
    ss_attestations := map_values (attestations s);
    ss_heartbeats := map_values (heartbeats s);
    ss_orderedTxIds := orderedTransactionIds s;
    ss_deltas := deltas s;
    ss_deltaFloor := Some (deltaFloor s);
    ss_materializedHead := materializedHead s;
    ss_checkpoints := map_values (checkpoints s);
    ss_historyReopenings := map_values (historyReopenings s);
    ss_validatorCutoffs := Some (listValidatorCutoffs s);
    |}.

Definition validatorCutoff (s : ControlStore) (validatorId : bytes) : option Z :=
  map_get (idKey validatorId) (validatorCutoffs s).

(** ** Watermarks *)

(** [#heartbeatFor]: the heartbeat of a validator in a membership revision, or
    the latest one over all revisions when none is given. *)
Definition heartbeatFor (s : ControlStore) (validatorId : bytes) (membershipRevision : option bytes) :
    option StoredHeartbeat :=
  match membershipRevision with
  | Some revision => map_get (heartbeatKey revision validatorId) (heartbeats s)
  | None =>
      foldl (λ latest heartbeat,
        if bytesEqual (sh_validatorId heartbeat) validatorId &&
           match latest with
           | None => true
           | Some l => sh_validatorFeedSequence l <? sh_validatorFeedSequence heartbeat
           end
        then Some heartbeat else latest) None (map_values (heartbeats s))
  end.

Definition no_watermark (policyId : jsstring) (explanation : WatermarkExplanation) : WatermarkEvidence :=
  mkWatermark policyId None [] [] explanation.

Definition established_watermark (policyId : jsstring) (cutoff : Z) (hs : list StoredHeartbeat) :
    WatermarkEvidence :=
  mkWatermark policyId (Some cutoff) (sh_validatorId <$> hs) (sh_heartbeatId <$> hs) established.

(** Ascending by cutoff. *)
Definition compareCutoffs (left right : StoredHeartbeat) : Z :=
  if sh_acceptanceCutoffMs left =? sh_acceptanceCutoffMs right then 0
  else if sh_acceptanceCutoffMs left <? sh_acceptanceCutoffMs right then -1 else 1.

(** The heartbeat of a validator whose feed is contiguous. *)
Definition contiguousHeartbeat (s : ControlStore) (membershipRevision : option bytes)
    (validatorId : bytes) : option StoredHeartbeat :=
  match heartbeatFor s validatorId membershipRevision with
  | Some heartbeat => if sh_feedContiguous heartbeat then Some heartbeat else None
  | None => None
  end.

Definition thresholdWatermark (s : ControlStore) (policyId : jsstring) (validatorIds : list bytes)
    (threshold : Z) (membershipRevision : option bytes) : WatermarkEvidence :=
  if negb (Z.abs threshold <=? MAX_SAFE_INTEGER) || (threshold <? 1) ||
     (Z.of_nat (length validatorIds) <? threshold) ||
     negb (length (foldl (λ set id, set_add (idKey id) set) [] validatorIds) =? length validatorIds)%nat
  then no_watermark policyId invalid_policy
  else
    let heartbeats := contiguousHeartbeat s membershipRevision <$> validatorIds in
    let available := js_sort compareCutoffs (omap id heartbeats) in
    let missing := Z.of_nat (length heartbeats) - Z.of_nat (length available) in
    let selectedIndex := threshold - 1 - missing in
    if (selectedIndex <? 0) || (Z.of_nat (length available) <=? selectedIndex)
    then no_watermark policyId insufficient_contiguous_heartbeats
    else
      match available !! Z.to_nat selectedIndex with
      | None => no_watermark policyId insufficient_contiguous_heartbeats
      | Some selected =>
          let cutoffMs := sh_acceptanceCutoffMs selected in
          established_watermark policyId cutoffMs
            (filter (λ h, cutoffMs ≤ sh_acceptanceCutoffMs h) available)
      end.

(** The inner loop of [watermark]: the contiguous heartbeat of the proof with
    the highest cutoff, the first one on a tie. *)
Definition bestHeartbeat (s : ControlStore) (membershipRevision : option bytes) (proof : list bytes) :
    option StoredHeartbeat :=
  foldl (λ best validatorId,
    match contiguousHeartbeat s membershipRevision validatorId with
    | Some heartbeat =>
        if match best with
           | None => true
           | Some b => sh_acceptanceCutoffMs b <? sh_acceptanceCutoffMs heartbeat
           end
        then Some heartbeat else best
    | None => best
    end) None proof.

(** The outer loop: [None] as soon as a proof has no contiguous heartbeat. *)
Fixpoint proofs_cutoff (s : ControlStore) (membershipRevision : option bytes)
    (proofs : list (list bytes)) (cutoff : option Z) (selected : jsmap jsstring StoredHeartbeat) :
    option (option Z * jsmap jsstring StoredHeartbeat) :=
  match proofs with
  | [] => Some (cutoff, selected)
  | proof :: proofs' =>
      match bestHeartbeat s membershipRevision proof with
      | None => None
      | Some best =>
          proofs_cutoff s membershipRevision proofs'
            (match cutoff with
             | Some c => if sh_acceptanceCutoffMs best <? c then Some (sh_acceptanceCutoffMs best) else cutoff
             | None => Some (sh_acceptanceCutoffMs best)
             end)
            (map_set (idKey (sh_validatorId best)) best selected)
      end
  end.

Definition watermark (s : ControlStore) (policy : WatermarkPolicy) (membershipRevision : option bytes) :
    WatermarkEvidence :=
  match policy with
  | threshold_policy policyId validatorIds threshold =>
      thresholdWatermark s policyId validatorIds threshold membershipRevision
  | proof_alternatives policyId proofs =>
      if (length proofs =? 0)%nat || existsb (λ proof, length proof =? 0)%nat proofs
      then no_watermark policyId invalid_policy
      else
        match proofs_cutoff s membershipRevision proofs None [] with
        | Some (Some cutoff, selected) =>
            established_watermark policyId cutoff
              (filter (λ h, cutoff ≤ sh_acceptanceCutoffMs h) (map_values selected))
        | _ => no_watermark policyId insufficient_contiguous_heartbeats
        end
  end.

Definition settlementEvidence (s : ControlStore) (txId : bytes) (policy : WatermarkPolicy)
    (membershipRevision : option bytes) : result ConflictCode SettlementEvidence :=
  candidate ← requiredCandidate s txId;
  let wm := watermark s policy membershipRevision in
  let unresolved := unresolvedAttestations s in
  let reopenings := js_sort compareStrings (hr_id <$>
    filter (λ event, hr_floorMs event ≤ ok_authorTimestampMs (sc_orderKey candidate))
      (map_values (historyReopenings s))) in
  Ok (mkSettlement txId (sc_state candidate) (sc_orderKey candidate) (sc_proofAttestationIds candidate) wm
        (match we_cutoffMs wm with
         | Some c => ok_authorTimestampMs (sc_orderKey candidate) <=? c
         | None => false
         end)
        (sa_attestationId <$> unresolved) reopenings).

(** ** Insertion into the order *)

(** [(low + high) >>> 1]: the shift works on 32-bit unsigned integers. *)
Definition middle_index (low high : Z) : Z := Z.shiftr ((low + high) mod 2 ^ 32) 1.

(** The binary search.  The interval shrinks at every step, so its length is
    fuel enough; an index out of the array is the [TypeError] of [idKey]. *)
Fixpoint search_order {E} (s : ControlStore) (orderKey : TransactionOrderKey) (fuel : nat) (low high : Z) :
    result (StoreError E) Z :=
  if low <? high then
    match fuel with
    | O => Err TypeError
    | S fuel' =>
        let middle := middle_index low high in
        match orderedTxIds s !! Z.to_nat middle with
        | None => Err TypeError
        | Some txId =>
            match requiredCandidate s txId with
            | Err code => Err (Conflict code)
            | Ok middleCandidate =>
                if compareTransactionOrder (sc_orderKey middleCandidate) orderKey <? 0
                then search_order s orderKey fuel' (middle + 1) high
                else search_order s orderKey fuel' low middle
            end
        end
    end
  else Ok low.

(** [splice(low, 0, txId)] *)
Definition splice_insert (index : Z) (x : bytes) (l : list bytes) : list bytes :=
  take (Z.to_nat index) l ++ x :: drop (Z.to_nat index) l.

Definition insertOrder {E} (candidate : StoredCandidate) (s : ControlStore) :
    ControlStore * result (StoreError E) ControlStoreDelta :=
  let n := length (orderedTxIds s) in
  match search_order s (sc_orderKey candidate) n 0 (Z.of_nat n) with
  | Err e => (s, Err e)
  | Ok low =>
      if (low <? Z.of_nat n) &&
         match orderedTxIds s !! Z.to_nat low with
         | Some txId => bytesEqual txId (sc_txId candidate)
         | None => false
         end
      then (s, Err (Conflict CONTROL_STORE_DUPLICATE_ORDER_ENTRY))
      else
        let previousLength := Z.of_nat n in
        let s := set_orderedTxIds (splice_insert low (sc_txId candidate) (orderedTxIds s)) s in
        let (s, delta) := appendDelta
          (if low =? previousLength then order_append (sc_txId candidate) low previousLength
           else order_insert (sc_txId candidate) low previousLength) s in
        (s, Ok delta)
  end.

(** ** Operations that change the store *)

Section operations.
Context {P E : Type} `{!Persistence P E}.

(** The store together with the state of its persistence layer. *)
Record world := mkWorld { w_store : ControlStore; w_disk : P }.

Definition op (A : Type) : Type := SE world (StoreError E) A.

Definition reads {A} (f : ControlStore → A) : op A := λ w, (w, Ok (f (w_store w))).
Definition reads_result {A} (f : ControlStore → result ConflictCode A) : op A := λ w,
  (w, match f (w_store w) with Ok a => Ok a | Err code => Err (Conflict code) end).
Definition updates (f : ControlStore → ControlStore) : op unit := λ w,
  (mkWorld (f (w_store w)) (w_disk w), Ok tt).
Definition runs {A} (f : ControlStore → ControlStore * result (StoreError E) A) : op A := λ w,
  let (s, r) := f (w_store w) in (mkWorld s (w_disk w), r).
Definition conflict {A} (code : ConflictCode) : op A := throw (Conflict code).

(** [try { m } catch (error) { handler(error) }] *)
Definition catching {A} (m : op A) (handler : StoreError E → op A) : op A := λ w,
  match m w with
  | (w', Ok a) => (w', Ok a)
  | (w', Err e) => handler e w'
  end.

(** A call of the persistence layer; its errors pass through. *)
Definition persistence {A} (m : SE P E A) : op A := λ w,
  let (d, r) := m (w_disk w) in
  (mkWorld (w_store w) d, match r with Ok a => Ok a | Err e => Err (PersistenceFailed e) end).

(** [persistence?.method?.(argument)] *)
Definition optionally {X} (method : option (X → SE P E unit)) (x : X) : op unit :=
  match method with Some m => persistence (m x) | None => mret tt end.

Definition append (body : DeltaBody) : op ControlStoreDelta :=
  runs (λ s, let (s, d) := appendDelta body s in (s, Ok d)).

Definition persist : op unit :=
  match p_requestSave with
  | Some request => persistence request
  | None => snap ← reads snapshot; persistence (p_save snap)
  end.

Definition flush : op unit :=
  snap ← reads snapshot; optionally p_flush snap.

Definition persistValidatorCutoff (validatorId : bytes) (acceptedAboveMs : Z) : op unit :=
  let key := idKey validatorId in
  previous ← reads (λ s, map_get key (validatorCutoffs s));
  let assign v := updates (λ s, set_validatorCutoffs (map_set key v (validatorCutoffs s)) s) in
  if match previous with Some p => acceptedAboveMs <? p | None => false end
  then conflict CONTROL_STORE_VALIDATOR_CUTOFF_REGRESSION
  else if bool_decide (previous = Some acceptedAboveMs) then mret tt
  else match p_saveValidatorCutoff with
  | Some save => persistence (save (mkCutoff validatorId acceptedAboveMs)) ;; assign acceptedAboveMs
  | None =>
    assign acceptedAboveMs ;;
    snap ← reads snapshot;
    catching (persistence (p_save snap)) (λ error,
      match previous with
      | None => updates (λ s, set_validatorCutoffs (map_delete key (validatorCutoffs s)) s)
      | Some p => assign p
      end ;; throw error)
  end.

Definition candidate_of_input (input : PutCandidateInput) : StoredCandidate :=
  mkCandidate (in_txId input) (in_groupId input) (in_candidateDigest input) (in_validationPolicy input)
  (in_orderKey input) (in_canonicalPayload input) (in_state input) (in_stateReason input)
  (default [] (in_proofAttestationIds input)).

Definition putCandidate (input : PutCandidateInput) : op (bool * list ControlStoreDelta) :=
  let txKey := idKey (in_txId input) in
  existing ← reads (λ s, map_get txKey (candidates s));
  let candidate := candidate_of_input input in
  match existing with
  | Some e =>
    if negb (sameCandidateIdentity e candidate) then conflict CONTROL_STORE_CANDIDATE_CONFLICT
    else mret (false, [])
  | None =>
    updates (λ s, set_candidates (map_set txKey candidate (candidates s)) s) ;;
    added ← append (candidate_added (sc_txId candidate) (sc_state candidate));
    inserted ← (if bool_decide (sc_state candidate = admissible)
      then d ← runs (insertOrder candidate); mret [d] else mret []);
    persist ;;
    mret (true, added :: inserted)
  end.

Definition putAttestation (attestation : StoredAttestation) : op (bool * option ControlStoreDelta) :=
  let key := idKey (sa_attestationId attestation) in
  existing ← reads (λ s, map_get key (attestations s));
  match existing with
  | Some e =>
    if negb (sameValue e attestation) then conflict CONTROL_STORE_ATTESTATION_CONFLICT
    else mret (false, None)
  | None =>
    let txKey := idKey (sa_txId attestation) in
    updates (λ s,
      let refs := default [] (map_get txKey (attestationsByTx s)) in
      set_attestations (map_set key attestation (attestations s))
      (map_set txKey (set_add key refs) (attestationsByTx s)) s) ;;
    unresolved ← reads (λ s, negb (map_has txKey (candidates s)));
    delta ← append (attestation_added (sa_attestationId attestation) (sa_txId attestation) unresolved);
    persist ;;
    mret (true, Some delta)
  end.

(** The loop that checks the proof of a transition. *)
Definition valid_proof (s : ControlStore) (key : jsstring) (proof : list bytes) : bool :=
  forallb (λ attestationId,
    match map_get (idKey attestationId) (attestations s) with
    | Some attestation => bool_decide (idKey (sa_txId attestation) = key)
    | None => false
    end) proof.

Definition setCandidateState (txId : bytes) (state : CandidateState)
  (proof : option (list bytes)) (reason : option jsstring) : op (list ControlStoreDelta) :=
  let key := idKey txId in
  candidate ← reads_result (λ s, requiredCandidate s txId);
  reads_result (λ _, validateStateTransition (sc_state candidate) state) ;;
  let proofAttestationIds := default (sc_proofAttestationIds candidate) proof in
  ok ← reads (λ s, valid_proof s key proofAttestationIds);
  if negb ok then conflict CONTROL_STORE_INVALID_ADMISSION_PROOF
  else if bool_decide (sc_state candidate = state) &&
  sameBytesList (sc_proofAttestationIds candidate) proofAttestationIds &&
  bool_decide (sc_stateReason candidate = reason)
  then mret []
  else
  let next := mkCandidate (sc_txId candidate) (sc_groupId candidate) (sc_candidateDigest candidate)
  (sc_validationPolicy candidate) (sc_orderKey candidate) (sc_canonicalPayload candidate) state
  (match reason with Some r => Some r | None => sc_stateReason candidate end)
  proofAttestationIds in
  updates (λ s, set_candidates (map_set key next (candidates s)) s) ;;
  changed ← append (candidate_state_changed (sc_txId next) (sc_state candidate) state reason);
  inserted ← (if negb (bool_decide (sc_state candidate = admissible)) && bool_decide (state = admissible)
    then d ← runs (insertOrder next); mret [d] else mret []);
  persist ;;
  mret (changed :: inserted).

Definition evaluateAdmission (txId : bytes) (evaluator : AdmissionEvaluator) : op AdmissionEvaluation :=
  candidate ← reads_result (λ s, requiredCandidate s txId);
  if bool_decide (sc_state candidate = admissible)
  then mret (mkEvaluation ev_admissible (Some (sc_proofAttestationIds candidate)) None)
  else if TERMINAL_INVALID_STATES (sc_state candidate) ||
  bool_decide (sc_state candidate = waiting_for_payload)
  then conflict CONTROL_STORE_CANDIDATE_NOT_ADMISSION_ELIGIBLE
  else
  known ← reads (λ s, attestationsFor s txId);
  let evaluation := evaluator candidate known in
  setCandidateState txId (evaluation_state (ae_state evaluation)) (ae_proofAttestationIds evaluation)
  (ae_reason evaluation) ;;
  mret evaluation.

Definition recordHeartbeat (heartbeat : StoredHeartbeat) : op (option ControlStoreDelta) :=
  let validatorKey := heartbeatKey (sh_membershipRevision heartbeat) (sh_validatorId heartbeat) in
  previous ← reads (λ s, map_get validatorKey (heartbeats s));
  let store :=
  updates (λ s, set_heartbeats (map_set validatorKey heartbeat (heartbeats s)) s) ;;
  delta ← append (heartbeat_advanced (sh_heartbeatId heartbeat) (sh_validatorId heartbeat)
    (sh_acceptanceCutoffMs heartbeat) (sh_feedContiguous heartbeat));
  persist ;;
  mret (Some delta) in
  match previous with
  | None => store
  | Some p =>
    if sh_validatorFeedSequence heartbeat <? sh_validatorFeedSequence p then mret None
    else if sh_acceptanceCutoffMs heartbeat <? sh_acceptanceCutoffMs p
    then conflict CONTROL_STORE_HEARTBEAT_CUTOFF_REGRESSION
    else if sh_validatorFeedSequence heartbeat =? sh_validatorFeedSequence p then
    if negb (sameValue p heartbeat) then conflict CONTROL_STORE_HEARTBEAT_CONFLICT else mret None
    else store
  end.

Definition publishMaterializedHead (head : MaterializedHead) : op (option ControlStoreDelta) :=
  current ← reads materializedHead;
  let publish :=
  length ← reads (λ s, Z.of_nat (length (orderedTxIds s)));
  if length <? mh_orderLength head then conflict CONTROL_STORE_HEAD_AHEAD_OF_ORDER
  else
  updates (set_materializedHead (Some head)) ;;
  delta ← append (materialized_head_published head);
  persist ;;
  mret (Some delta) in
  match current with
  | None => publish
  | Some c =>
    if mh_localRevision head <? mh_localRevision c then conflict CONTROL_STORE_HEAD_REVISION_REGRESSION
    else if mh_localRevision head =? mh_localRevision c then
    if negb (sameValue head c) then conflict CONTROL_STORE_HEAD_REVISION_CONFLICT else mret None
    else publish
  end.

Definition putCheckpoint (checkpoint : StoredCheckpoint) : op (option ControlStoreDelta) :=
  length ← reads (λ s, Z.of_nat (length (orderedTxIds s)));
  if (cp_prefixLength checkpoint <? 0) || (length <? cp_prefixLength checkpoint)
  then conflict CONTROL_STORE_INVALID_CHECKPOINT_PREFIX
  else
  previous ← reads (λ s, map_get (cp_prefixLength checkpoint) (checkpoints s));
  if match previous with Some p => sameValue p checkpoint | None => false end then mret None
  else if match previous with Some p => cp_pinned p | None => false end && negb (cp_pinned checkpoint)
  then conflict CONTROL_STORE_PINNED_CHECKPOINT_REPLACEMENT
  else
  updates (λ s, set_checkpoints (map_set (cp_prefixLength checkpoint) checkpoint (checkpoints s)) s) ;;
  delta ← append (checkpoint_stored checkpoint);
  persist ;;
  mret (Some delta).

Definition recordHistoryReopening (reopening : HistoryReopening) : op (option ControlStoreDelta) :=
  previous ← reads (λ s, map_get (hr_id reopening) (historyReopenings s));
  match previous with
  | Some p =>
    if negb (sameValue p reopening) then conflict CONTROL_STORE_REOPENING_CONFLICT else mret None
  | None =>
    updates (λ s, set_historyReopenings (map_set (hr_id reopening) reopening (historyReopenings s)) s) ;;
    delta ← append (history_reopened reopening);
    persist ;;
    mret (Some delta)
  end.
End operations.
Arguments world : clear implicits.
Arguments op : clear implicits.

(** ** Restart *)

Definition index_attestation (index : jsmap jsstring (jsset jsstring)) (a : StoredAttestation) :
    jsmap jsstring (jsset jsstring) :=
  let txKey := idKey (sa_txId a) in
  let refs := default [] (map_get txKey index) in
  map_set txKey (set_add (idKey (sa_attestationId a)) refs) index.

(** [#verifyRestoredOrder]: the delta sequences, then the order. *)
Fixpoint ascending_sequences (ds : list ControlStoreDelta) : bool :=
  match ds with
  | a :: ((b :: _) as ds') => (d_sequence a <? d_sequence b) && ascending_sequences ds'
  | _ => true
  end.

Definition verify_deltas (s : ControlStore) : result ConflictCode unit :=
  match deltas s with
  | [] => ensure (deltaFloor s =? sequence s) CONTROL_STORE_CORRUPT_DELTA_FLOOR
  | first :: _ =>
      ensure (match list.last (deltas s) with Some d => d_sequence d =? sequence s | None => true end)
        CONTROL_STORE_CORRUPT_DELTA_SEQUENCE ≫= λ _,
      ensure (d_sequence first =? deltaFloor s + 1) CONTROL_STORE_CORRUPT_DELTA_FLOOR ≫= λ _,
      ensure (ascending_sequences (deltas s)) CONTROL_STORE_CORRUPT_DELTA_SEQUENCE
  end.

Fixpoint verify_order (s : ControlStore) (previous : option StoredCandidate) (seen : jsset jsstring)
    (txIds : list bytes) : result ConflictCode unit :=
  match txIds with
  | [] => Ok tt
  | txId :: txIds' =>
      candidate ← requiredCandidate s txId;
      ensure (bool_decide (sc_state candidate = admissible)) CONTROL_STORE_CORRUPT_ORDER_STATE ≫= λ _,
      let key := idKey txId in
      ensure (negb (set_has key seen)) CONTROL_STORE_CORRUPT_DUPLICATE_ORDER ≫= λ _,
      ensure (match previous with
              | Some p => compareTransactionOrder (sc_orderKey p) (sc_orderKey candidate) <? 0
              | None => true
              end) CONTROL_STORE_CORRUPT_ORDER ≫= λ _,
      verify_order s (Some candidate) (set_add key seen) txIds'
  end.

Definition verifyRestoredOrder (s : ControlStore) : result ConflictCode unit :=
  verify_deltas s ≫= λ _, verify_order s None [] (orderedTxIds s).

(** [#restore] on the freshly constructed store. *)
Definition restore_state (maximum : Z) (snap : ControlStoreSnapshot) : ControlStore :=
  trimDeltas {|
    sequence := ss_sequence snap;
    deltaFloor := default 0 (ss_deltaFloor snap);
    maximumRetainedDeltas := maximum;
    candidates := foldl (λ m c, map_set (idKey (sc_txId c)) c m) [] (ss_candidates snap);
    attestations := foldl (λ m a, map_set (idKey (sa_attestationId a)) a m) [] (ss_attestations snap);
    attestationsByTx := foldl index_attestation [] (ss_attestations snap);
    heartbeats := foldl (λ m h, map_set (heartbeatKey (sh_membershipRevision h) (sh_validatorId h)) h m)
      [] (ss_heartbeats snap);
    validatorCutoffs := foldl (λ m c, map_set (idKey (vc_validatorId c)) (vc_acceptedAboveMs c) m) []
      (default [] (ss_validatorCutoffs snap));
    orderedTxIds := ss_orderedTxIds snap;
    deltas := ss_deltas snap;
    checkpoints := foldl (λ m c, map_set (cp_prefixLength c) c m) [] (ss_checkpoints snap);
    historyReopenings := foldl (λ m r, map_set (hr_id r) r m) [] (ss_historyReopenings snap);
    materializedHead := ss_materializedHead snap;
  |}.

Definition restore (maximum : Z) (snap : ControlStoreSnapshot) : ControlStore * result ConflictCode unit :=
  let s := restore_state maximum snap in (s, verifyRestoredOrder s).

Definition reset (s : ControlStore) : ControlStore := empty_store (maximumRetainedDeltas s).

Definition mergeValidatorCutoff (cutoff : ValidatorCutoffState) (s : ControlStore) : ControlStore :=
  let key := idKey (vc_validatorId cutoff) in
  if match map_get key (validatorCutoffs s) with
     | None => true
     | Some previous => previous <? vc_acceptedAboveMs cutoff
     end
  then set_validatorCutoffs (map_set key (vc_acceptedAboveMs cutoff) (validatorCutoffs s)) s
  else s.

Section constructor.
Context {P E : Type} `{!Persistence P E}.

(** [this.#restore(snapshot)] with the recovery of a corrupt snapshot. *)
Definition restore_or_recover (snap : ControlStoreSnapshot) : op P E unit := λ w,
  let (s, r) := restore (maximumRetainedDeltas (w_store w)) snap in
  let w := mkWorld s (w_disk w) in
  match r with
  | Ok _ => (w, Ok tt)
  | Err code =>
    match p_recoverCorruptSnapshot with
    | Some recover =>
      (recovered ← persistence recover;
        if (recovered : bool) then updates reset else throw (Conflict code)) w
    | None => (w, Err (Conflict code))
    end
  end.

(** [new ControlStore(persistence, { maximumRetainedDeltas })] *)
Definition new_ControlStore (maximum : Z) (disk : P) : world P * result (StoreError E) unit :=
  (if negb (Z.abs maximum <=? MAX_SAFE_INTEGER) || (maximum <? 1)
    then throw INVALID_DELTA_RETENTION
    else
    journalCutoffs ← match p_loadValidatorCutoffs with
    | Some load => persistence load
    | None => mret None
    end;
    loaded ← persistence p_load;
    match loaded with Some snap => restore_or_recover snap | None => mret tt end ;;
    updates (λ s, foldl (λ s c, mergeValidatorCutoff c s) s (default [] journalCutoffs)) ;;
    cutoffs ← reads listValidatorCutoffs;
    optionally p_initializeValidatorCutoffs cutoffs)
  (mkWorld (empty_store maximum) disk).
End constructor.
