(* ===== verification/StoreInvariant.v ===== *)
(** * The invariant of the control store

    The invariant, and that every operation of the store keeps it whatever
    its arguments, whatever the persistence layer does, and whether the
    operation returns or throws.  Its central clause is the refinement of the
    incremental index: [orderedTxIds] is at all times the sort, by the
    transaction order, of the admissible candidates. *)

From Stdlib Require Import Strings.Byte.
From stdpp Require Import base list option numbers sorting sets.
From S2P Require Import Prelude JsMap Bytes Domains Base64 StoreTypes ControlStore.

#[local] Open Scope Z_scope.

(** * The order index of the control store

    [#insertOrder] finds its place by binary search and splices the new
    transaction in.  The lemmas here show that on a sorted index the search
    ends at the only place that keeps the index sorted, that none of its
    internal errors can occur, and that the index is again the sort of the
    admissible order keys. *)

Abbreviation key_lt := (λ x y, compareTransactionOrder x y < 0).

Lemma middle_index_spec low high :
  0 ≤ low → low < high → high < 2 ^ 31 → low ≤ middle_index low high < high.
Proof.
  intros. unfold middle_index. rewrite Z.mod_small by lia. rewrite Z.shiftr_div_pow2 by lia.
  change (2 ^ 1) with 2. Z.to_euclidean_division_equations; lia.
Qed.

(** In a sorted list the keys below a given key form a prefix. *)
Definition below (k : TransactionOrderKey) (ks : list TransactionOrderKey) : nat :=
  length (filter (λ x, compareTransactionOrder x k < 0) ks).

Lemma below_le k ks : (below k ks ≤ length ks)%nat.
Proof. apply length_filter. Qed.

Lemma below_spec k ks i x :
  StronglySorted key_lt ks → ks !! i = Some x →
  compareTransactionOrder x k < 0 ↔ (i < below k ks)%nat.
Proof.
  unfold below. intros Hs. revert i. induction Hs as [|y ks Hs IH Hy]; intros i; [done|].
  rewrite filter_cons. destruct i as [|i]; simpl.
  - intros [= ->]. case_decide as Hx; simpl; [split; [lia|done]|].
    split; [done|]. intros Hlt. exfalso.
    destruct (filter _ ks) as [|z l] eqn:Hf; [simpl in Hlt; lia|].
    assert (z ∈ filter (λ x, compareTransactionOrder x k < 0) ks) as Hz by (rewrite Hf; left).
    apply list_elem_of_filter in Hz as [Hzk Hz]. rewrite Forall_forall in Hy.
    apply Hx. eapply cmp_lt_trans; [apply _|by apply Hy|lia].
  - intros Hi. case_decide as Hx; simpl; [rewrite (IH i Hi); lia|].
    rewrite (IH i Hi). split; [|lia]. intros Hlt. exfalso. apply Hx.
    apply list_elem_of_lookup_2 in Hi as Hin. rewrite Forall_forall in Hy.
    apply (IH i Hi) in Hlt. eapply cmp_lt_trans; [apply _|by apply Hy|lia].
Qed.

(** The index stands for a list of keys: each entry is the transaction of one
    key, and the store knows its candidate. *)
Definition indexes (s : ControlStore) (ks : list TransactionOrderKey) : Prop :=
  orderedTxIds s = ok_txId <$> ks ∧
  Forall (λ k, ∃ c, requiredCandidate s (ok_txId k) = Ok c ∧ sc_orderKey c = k) ks.

Lemma search_order_spec {E} s ks k fuel low high :
  indexes s ks → StronglySorted key_lt ks → Z.of_nat (length ks) < 2 ^ 31 →
  0 ≤ low ≤ Z.of_nat (below k ks) → Z.of_nat (below k ks) ≤ high ≤ Z.of_nat (length ks) →
  high - low ≤ Z.of_nat fuel →
  search_order (E:=E) s k fuel low high = Ok (Z.of_nat (below k ks)).
Proof.
  intros [Hord Hcand] Hs Hlen. revert low high. induction fuel as [|fuel IH]; intros low high Hlow Hhigh Hf.
  - assert (low = high) as -> by lia. simpl. rewrite Z.ltb_irrefl. do 2 f_equal. lia.
  - cbn [search_order]. destruct (Z.ltb_spec low high); [|do 2 f_equal; lia].
    pose proof (middle_index_spec low high ltac:(lia) ltac:(lia) ltac:(lia)) as Hm.
    set (middle := middle_index low high) in *. cbv zeta.
    destruct (lookup_lt_is_Some_2 ks (Z.to_nat middle)) as [x Hx]; [lia|].
    rewrite Hord, list_lookup_fmap, Hx. cbn [fmap option_fmap option_map].
    rewrite Forall_forall in Hcand.
    destruct (Hcand x) as (c & -> & ->); [by eapply list_elem_of_lookup_2|].
    pose proof (below_spec k ks _ _ Hs Hx) as Hb.
    destruct (Z.ltb_spec (compareTransactionOrder x k) 0).
    + apply IH; lia.
    + apply IH; lia.
Qed.

(** Inserting at the place found keeps the list strictly sorted. *)
Lemma insert_below_sorted k ks :
  StronglySorted key_lt ks → k ∉ ks →
  StronglySorted key_lt (take (below k ks) ks ++ k :: drop (below k ks) ks).
Proof.
  intros Hs Hk.
  assert (∀ x, x ∈ take (below k ks) ks → compareTransactionOrder x k < 0) as Hbefore.
  { intros x [i [Hx Hi]%lookup_take_Some]%list_elem_of_lookup.
    by apply (below_spec k ks i x Hs Hx). }
  assert (∀ x, x ∈ drop (below k ks) ks → compareTransactionOrder k x < 0) as Hafter.
  { intros x [i Hx]%list_elem_of_lookup. rewrite lookup_drop in Hx.
    pose proof (below_spec k ks _ x Hs Hx) as Hb.
    assert (x ≠ k) by (intros ->; by eapply Hk, list_elem_of_lookup_2).
    destruct (decide (compareTransactionOrder x k = 0)) as [->%cmp_eq|]; [done|].
    apply (cmp_lt_gt compareTransactionOrder). lia. }
  rewrite <-(take_drop (below k ks) ks) in Hs.
  apply StronglySorted_app in Hs as (H12 & H1 & H2).
  apply StronglySorted_app. split_and!; [|done|].
  - intros x y Hx [->|Hy]%elem_of_cons; [by apply Hbefore|by apply H12].
  - constructor; [done|]. by apply Forall_forall.
Qed.

Lemma sort_insert_below k ks :
  StronglySorted key_lt ks → k ∉ ks →
  js_sort compareTransactionOrder (k :: ks) = take (below k ks) ks ++ k :: drop (below k ks) ks.
Proof.
  intros Hs Hk. apply js_sort_unique; [apply _| |].
  - rewrite <-Permutation_middle. by rewrite take_drop.
  - eapply StronglySorted_weaken; [|by apply insert_below_sorted]. simpl. lia.
Qed.

(** ** The change log *)

(** The retained entries are numbered [deltaFloor + 1] to [sequence], without
    gaps, and there are at most [maximumRetainedDeltas] of them. *)
Definition delta_inv (s : ControlStore) : Prop :=
  1 ≤ maximumRetainedDeltas s ∧ 0 ≤ deltaFloor s ∧
  Z.of_nat (length (deltas s)) ≤ maximumRetainedDeltas s ∧
  d_sequence <$> deltas s = seqZ (deltaFloor s + 1) (Z.of_nat (length (deltas s))) ∧
  sequence s = deltaFloor s + Z.of_nat (length (deltas s)).

(** Everything but the change log. *)
Definition log_free (s : ControlStore) : ControlStore := set_deltas 0 0 [] s.

Lemma log_free_trim s : log_free (trimDeltas s) = log_free s.
Proof. unfold trimDeltas. by case_match. Qed.

Lemma appendDelta_frame body s : log_free (appendDelta body s).1 = log_free s.
Proof. unfold appendDelta. cbn [fst]. by rewrite log_free_trim. Qed.

Lemma appendDelta_sequence body s :
  sequence (appendDelta body s).1 = sequence s + 1 ∧ (appendDelta body s).2 = mkDelta (sequence s + 1) body.
Proof. unfold appendDelta, trimDeltas. cbn [fst snd]. by case_match. Qed.

Lemma appendDelta_inv body s : delta_inv s → delta_inv (appendDelta body s).1.
Proof.
  intros (Hmax & Hfloor & Hlen & Hseq & Htop). unfold appendDelta, trimDeltas. cbn [fst].
  cbn [deltas maximumRetainedDeltas set_deltas sequence deltaFloor].
  rewrite length_app. simpl length.
  assert (d_sequence <$> deltas s ++ [mkDelta (sequence s + 1) body] =
    seqZ (deltaFloor s + 1) (Z.of_nat (length (deltas s)) + 1)) as Hall.
  { rewrite seqZ_app by lia. rewrite fmap_app, Hseq. f_equal. simpl.
    change (seqZ ?x 1) with [x]. f_equal. lia. }
  destruct (Z.leb_spec (Z.of_nat (length (deltas s) + 1) - maximumRetainedDeltas s) 0).
  - unfold delta_inv. cbn [deltas maximumRetainedDeltas set_deltas sequence deltaFloor].
    rewrite length_app. simpl length. split_and!; [lia..| |lia].
    rewrite Hall. f_equal. lia.
  - assert (Z.of_nat (length (deltas s)) = maximumRetainedDeltas s) as Hfull by lia.
    replace (Z.to_nat _) with 1%nat by lia.
    destruct (deltas s) as [|d ds] eqn:Hds; [simpl in Hfull; lia|].
    simpl app in *. simpl in Hall. rewrite seqZ_cons in Hall by lia.
    injection Hall as Hd Hall. unfold delta_inv.
    cbn [deltas maximumRetainedDeltas set_deltas sequence deltaFloor take drop].
    rewrite !take_0, !drop_0. cbn [list.last]. rewrite length_app. simpl length in *.
    split_and!; [lia..| |lia]. etrans; [exact Hall|]. f_equal; lia.
Qed.

(** ** Inserting a transaction *)

Lemma insertOrder_spec {E} s ks c :
  indexes s ks → StronglySorted key_lt ks → Z.of_nat (length ks) < 2 ^ 31 →
  ok_txId (sc_orderKey c) = sc_txId c → sc_txId c ∉ orderedTxIds s →
  let n := Z.of_nat (below (sc_orderKey c) ks) in
  let len := Z.of_nat (length ks) in
  let s1 := set_orderedTxIds (ok_txId <$> js_sort compareTransactionOrder (sc_orderKey c :: ks)) s in
  let body := if n =? len then order_append (sc_txId c) n len else order_insert (sc_txId c) n len in
  insertOrder (E:=E) c s = ((appendDelta body s1).1, Ok (appendDelta body s1).2).
Proof.
  intros Hidx Hs Hlen Hc Hfresh n len s1 body. pose proof Hidx as [Hord _].
  assert (sc_orderKey c ∉ ks) as Hk.
  { intros Hin. apply Hfresh. rewrite Hord, <-Hc. apply list_elem_of_fmap. eauto. }
  unfold insertOrder. replace (length (orderedTxIds s)) with (length ks) by (by rewrite Hord, length_fmap).
  rewrite (search_order_spec s ks) by (try done; pose proof (below_le (sc_orderKey c) ks); lia).
  fold n. fold len. rewrite Hord, list_lookup_fmap.
  replace ((n <? len) && _) with false.
  - assert (splice_insert n (sc_txId c) (ok_txId <$> ks) =
      ok_txId <$> js_sort compareTransactionOrder (sc_orderKey c :: ks)) as ->.
    { unfold splice_insert, n. rewrite Nat2Z.id, sort_insert_below by done.
      by rewrite fmap_app, fmap_take, fmap_cons, fmap_drop, Hc. }
    fold s1. fold body. by destruct (appendDelta body s1).
  - symmetry. apply andb_false_iff. right. unfold n. rewrite Nat2Z.id.
    destruct (ks !! below (sc_orderKey c) ks) as [x|] eqn:Hx; [|done]. simpl.
    apply equalBytes_false. intros Heq. apply Hfresh. rewrite Hord, <-Heq.
    apply list_elem_of_fmap. exists x. split; [done|]. by eapply list_elem_of_lookup_2.
Qed.

#[export] Instance idKey_inj : Inj (=) (=) idKey := base64url_inj.

Lemma heartbeatKey_inj r1 v1 r2 v2 :
  heartbeatKey r1 v1 = heartbeatKey r2 v2 → r1 = r2 ∧ v1 = v2.
Proof.
  unfold heartbeatKey. intros H.
  assert (∀ a b c d : jsstring, 58 ∉ a → 58 ∉ c → a ++ [58] ++ b = c ++ [58] ++ d → a = c ∧ b = d) as Hsplit.
  { induction a as [|x a IH]; intros b [|y c] d Ha Hc Heq; simplify_eq/=; [done|set_solver..|].
    destruct (IH b c d) as [-> ->]; [set_solver..|done|done]. }
  destruct (Hsplit _ _ _ _ (base64url_no_colon r1) (base64url_no_colon r2) H) as [?%(inj idKey) ?%(inj idKey)].
  done.
Qed.

(** ** The invariant *)

Definition admissible_keys (cs : jsmap jsstring StoredCandidate) : list TransactionOrderKey :=
  sc_orderKey <$> filter (λ c, sc_state c = admissible) (map_values cs).

Definition candidate_ok (c : StoredCandidate) : Prop := ok_txId (sc_orderKey c) = sc_txId c.

Definition candidates_inv (cs : jsmap jsstring StoredCandidate) : Prop :=
  map_wf cs ∧ ∀ k c, (k, c) ∈ cs → k = idKey (sc_txId c) ∧ candidate_ok c.

Definition attestations_inv (s : ControlStore) : Prop :=
  map_wf (attestations s) ∧
  (∀ k a, (k, a) ∈ attestations s → k = idKey (sa_attestationId a)) ∧
  attestationsByTx s = foldl index_attestation [] (map_values (attestations s)).

Record facts_inv (s : ControlStore) : Prop := {
  fi_candidates : candidates_inv (candidates s);
  fi_order : orderedTxIds s = ok_txId <$> js_sort compareTransactionOrder (admissible_keys (candidates s));
  fi_attestations : attestations_inv s;
  fi_heartbeats : map_wf (heartbeats s) ∧
    ∀ k h, (k, h) ∈ heartbeats s → k = heartbeatKey (sh_membershipRevision h) (sh_validatorId h);
  fi_cutoffs : map_wf (validatorCutoffs s) ∧
    ∀ k v, (k, v) ∈ validatorCutoffs s → ∃ id, k = idKey id;
  fi_checkpoints : map_wf (checkpoints s) ∧
    ∀ k c, (k, c) ∈ checkpoints s → k = cp_prefixLength c ∧ 0 ≤ k ≤ Z.of_nat (length (orderedTxIds s));
  fi_reopenings : map_wf (historyReopenings s) ∧ ∀ k r, (k, r) ∈ historyReopenings s → k = hr_id r;
  fi_head : ∀ h, materializedHead s = Some h → mh_orderLength h ≤ Z.of_nat (length (orderedTxIds s));
}.

Record store_inv (s : ControlStore) : Prop := {
  si_facts : facts_inv (log_free s);
  si_deltas : delta_inv s;
}.

(** ** The admissible keys *)

Lemma map_set_split {K V} `{EqDecision K} (k : K) (o v : V) (m : jsmap K V) :
  map_get k m = Some o → ∃ l1 l2, m = l1 ++ (k, o) :: l2 ∧ map_set k v m = l1 ++ (k, v) :: l2.
Proof.
  induction m as [|[k' v'] m IH]; simpl; [done|]. case_decide; intros; simplify_eq.
  - by exists [], m.
  - destruct IH as (l1 & l2 & -> & ->); [done|]. by exists ((k', v') :: l1), l2.
Qed.

Lemma admissible_keys_fresh k c cs :
  map_get k cs = None →
  admissible_keys (map_set k c cs) =
    admissible_keys cs ++ (if decide (sc_state c = admissible) then [sc_orderKey c] else []).
Proof.
  intros Hk. unfold admissible_keys, map_values. rewrite map_set_fresh by done.
  rewrite fmap_app, filter_app, fmap_app. f_equal. simpl. rewrite filter_cons. by case_decide.
Qed.

(** Replacing a candidate by one with the same order key: the keys change only
    when it becomes admissible. *)
Lemma admissible_keys_replace k o c cs :
  map_get k cs = Some o → sc_orderKey c = sc_orderKey o →
  (sc_state o = admissible → sc_state c = admissible) →
  (if decide (sc_state o ≠ admissible ∧ sc_state c = admissible)
   then admissible_keys (map_set k c cs) ≡ₚ sc_orderKey c :: admissible_keys cs
   else admissible_keys (map_set k c cs) = admissible_keys cs).
Proof.
  intros Hk Hkey Hmono. destruct (map_set_split k o c cs Hk) as (l1 & l2 & -> & ->).
  unfold admissible_keys, map_values. rewrite !fmap_app, !filter_app, !fmap_app, !fmap_cons. simpl.
  rewrite !filter_cons.
  destruct (decide (sc_state o = admissible)) as [Ho|Ho];
    destruct (decide (sc_state c = admissible)) as [Hc|Hc];
    case_decide as Hd; try tauto; rewrite ?fmap_cons, ?Hkey; try done.
  by rewrite Permutation_middle.
Qed.

Lemma candidates_inv_get cs k c : candidates_inv cs → map_get k cs = Some c →
  k = idKey (sc_txId c) ∧ candidate_ok c.
Proof. intros [_ H] Hk%map_get_Some_elem. by apply H. Qed.

Lemma candidates_inv_set cs c :
  candidates_inv cs → candidate_ok c → candidates_inv (map_set (idKey (sc_txId c)) c cs).
Proof.
  intros [Hwf H] Hc. split; [by apply map_wf_set|]. intros k c' Hin.
  apply elem_of_map_set in Hin as [[-> ->]|[_ Hin]]; [done|by apply H|done].
Qed.

(** Every admissible key belongs to a candidate the store finds by its
    transaction id; so the keys are distinct. *)
Lemma admissible_keys_elem cs key :
  candidates_inv cs → key ∈ admissible_keys cs ↔
  ∃ c, map_get (idKey (ok_txId key)) cs = Some c ∧ sc_orderKey c = key ∧ sc_state c = admissible.
Proof.
  intros [Hwf H]. unfold admissible_keys, map_values. rewrite list_elem_of_fmap. split.
  - intros (c & -> & [Hs ([k c'] & -> & Hin)%list_elem_of_fmap]%list_elem_of_filter).
    destruct (H _ _ Hin) as [-> Hok]. exists c'. simpl in *. split; [|done].
    rewrite Hok. by apply map_wf_get.
  - intros (c & Hc & <- & Hs). exists c. split; [done|]. apply list_elem_of_filter. split; [done|].
    apply map_get_Some_elem in Hc. apply list_elem_of_fmap. by exists (idKey (ok_txId (sc_orderKey c)), c).
Qed.

Lemma admissible_keys_NoDup cs : candidates_inv cs → NoDup (admissible_keys cs).
Proof.
  intros [Hwf H]. unfold admissible_keys, map_values. unfold map_wf, map_keys in Hwf.
  induction cs as [|[k c] cs IH]; [constructor|]. apply NoDup_cons in Hwf as [Hk Hwf].
  rewrite fmap_cons. simpl. rewrite filter_cons.
  assert (NoDup (sc_orderKey <$> filter (λ c, sc_state c = admissible) cs.*2)) as IH'.
  { apply IH; [|intros; apply H; by right]. done. }
  case_decide; [|done]. rewrite fmap_cons. constructor; [|done].
  intros (c' & Heq & [_ ([k' c''] & -> & Hin)%list_elem_of_fmap]%list_elem_of_filter)%list_elem_of_fmap.
  simpl in Heq. destruct (H k c) as [-> Hok]; [left|]. destruct (H k' c'') as [-> Hok']; [by right|].
  apply Hk. apply list_elem_of_fmap. exists (idKey (sc_txId c''), c''). split; [|done]. simpl.
  unfold candidate_ok in *. congruence.
Qed.

(** ** Preservation: updates of one part of the state *)

Lemma admissible_keys_sorted cs :
  candidates_inv cs → StronglySorted key_lt (js_sort compareTransactionOrder (admissible_keys cs)).
Proof. intros H. by apply js_sort_strict, admissible_keys_NoDup; [apply _|]. Qed.

Lemma order_length s : facts_inv s → length (orderedTxIds s) = length (admissible_keys (candidates s)).
Proof. intros H. by rewrite (fi_order _ H), length_fmap, js_sort_length. Qed.

(** A newer order that is no shorter keeps the bounds on heads and checkpoints. *)
Lemma facts_inv_order s cs ordered :
  facts_inv s → candidates_inv cs →
  ordered = ok_txId <$> js_sort compareTransactionOrder (admissible_keys cs) →
  (length (orderedTxIds s) ≤ length ordered)%nat →
  facts_inv (set_orderedTxIds ordered (set_candidates cs s)).
Proof.
  intros [? ? ? ? ? [Hwf Hcp] ? Hhead] Hcs Hord Hlen. split; try done.
  - split; [done|]. intros k c Hin. destruct (Hcp k c Hin). cbn. split; [done|lia].
  - intros h Hh. specialize (Hhead h Hh). cbn. lia.
Qed.

(** A candidate is stored without entering the order. *)
Lemma candidate_stored_inv s c :
  facts_inv s → candidate_ok c →
  match map_get (idKey (sc_txId c)) (candidates s) with
  | Some o => sc_orderKey c = sc_orderKey o ∧ (sc_state o = admissible ↔ sc_state c = admissible)
  | None => sc_state c ≠ admissible
  end →
  facts_inv (set_candidates (map_set (idKey (sc_txId c)) c (candidates s)) s).
Proof.
  intros Hs Hok Hold.
  assert (admissible_keys (map_set (idKey (sc_txId c)) c (candidates s)) = admissible_keys (candidates s)) as Hk.
  { destruct (map_get _ _) as [o|] eqn:Ho.
    - destruct Hold as [Hkey Hst]. pose proof (admissible_keys_replace _ _ c _ Ho Hkey) as H.
      rewrite decide_False in H by tauto. apply H. tauto.
    - rewrite admissible_keys_fresh by done. rewrite decide_False by done. by rewrite app_nil_r. }
  replace s with (set_orderedTxIds (orderedTxIds s) s) at 2 by (by destruct s).
  change (facts_inv (set_orderedTxIds (orderedTxIds s)
    (set_candidates (map_set (idKey (sc_txId c)) c (candidates s)) s))).
  apply facts_inv_order; [done| | |done].
  - apply candidates_inv_set; [by apply fi_candidates|done].
  - rewrite Hk. by apply fi_order.
Qed.

(** The number of transactions the binary search can address. *)
Definition order_capacity (s : ControlStore) : Prop := Z.of_nat (length (orderedTxIds s)) < 2 ^ 31.

(** A candidate that becomes admissible enters the order at its place; none of
    the errors of the insertion can occur. *)
Lemma insertOrder_admits {E} s s1 c :
  facts_inv (log_free s) → delta_inv s1 → order_capacity s → candidate_ok c → sc_state c = admissible →
  match map_get (idKey (sc_txId c)) (candidates s) with
  | Some o => sc_orderKey c = sc_orderKey o ∧ sc_state o ≠ admissible
  | None => True
  end →
  log_free s1 = log_free (set_candidates (map_set (idKey (sc_txId c)) c (candidates s)) s) →
  ∃ s2 d, insertOrder (E:=E) c s1 = (s2, Ok d) ∧ store_inv s2.
Proof.
  intros Hs Hd Hcap Hok Hadm Hold Hs1. set (cs' := map_set (idKey (sc_txId c)) c (candidates s)) in *.
  set (ks := js_sort compareTransactionOrder (admissible_keys (candidates s))).
  pose proof (fi_candidates _ Hs) as Hcs. change (candidates_inv (candidates s)) in Hcs.
  assert (orderedTxIds s1 = orderedTxIds s ∧ candidates s1 = cs') as [Hord1 Hcs1].
  { split; [exact (f_equal orderedTxIds Hs1)|exact (f_equal candidates Hs1)]. }
  assert (orderedTxIds s = ok_txId <$> ks) as Hord by exact (fi_order _ Hs).
  assert (sc_txId c ∉ orderedTxIds s) as Hfresh.
  { rewrite Hord. intros (key & Hkey & Hin)%list_elem_of_fmap.
    apply elem_of_js_sort, admissible_keys_elem in Hin as (o & Ho & <- & Hst); [|done].
    rewrite <-Hkey in Ho. rewrite Ho in Hold. tauto. }
  assert (indexes s1 ks) as Hidx.
  { split; [congruence|]. apply Forall_forall. intros key Hin.
    apply elem_of_js_sort in Hin as Hin'. apply admissible_keys_elem in Hin' as (o & Ho & Hkey & _); [|done].
    exists o. split; [|done]. unfold requiredCandidate. rewrite Hcs1. unfold cs'.
    rewrite map_get_set_ne; [by rewrite Ho|]. intros Heq%(inj idKey). apply Hfresh. rewrite Hord, <-Heq.
    apply list_elem_of_fmap. eauto. }
  rewrite (insertOrder_spec s1 ks c); [|done|by apply admissible_keys_sorted| |done|by rewrite Hord1].
  2:{ unfold order_capacity in Hcap. by rewrite Hord, length_fmap in Hcap. }
  eexists _, _. split; [done|]. split; [|by apply appendDelta_inv].
  rewrite appendDelta_frame.
  assert (admissible_keys cs' ≡ₚ sc_orderKey c :: admissible_keys (candidates s)) as Hperm.
  { destruct (map_get _ (candidates s)) as [o|] eqn:Ho.
    - destruct Hold as [Hkey Hst]. pose proof (admissible_keys_replace _ _ c _ Ho Hkey) as H.
      rewrite decide_True in H by tauto. apply H. tauto.
    - unfold cs'. rewrite admissible_keys_fresh by done. rewrite decide_True by done.
      by rewrite <-Permutation_cons_append. }
  set (ordered := ok_txId <$> js_sort compareTransactionOrder (sc_orderKey c :: ks)).
  assert (log_free (set_orderedTxIds ordered s1) =
    set_orderedTxIds ordered (set_candidates cs' (log_free s))) as ->.
  { change (log_free (set_orderedTxIds ordered s1)) with (set_orderedTxIds ordered (log_free s1)).
    by rewrite Hs1. }
  apply facts_inv_order; [done|by apply candidates_inv_set| |].
  - unfold ordered. f_equal. apply js_sort_perm_eq; [apply _|]. unfold ks. by rewrite js_sort_perm, Hperm.
  - change (length (orderedTxIds s) ≤ length ordered)%nat. unfold ordered. rewrite Hord, !length_fmap, js_sort_length. simpl. lia.
Qed.

(** ** Preservation: the operations *)

Section operations.
Context {P E : Type} `{!Persistence P E}.

(** Weakest preconditions for both outcomes of an operation. *)
Definition wp {A} (m : op P E A) (Q : result (StoreError E) A → world P → Prop) (w : world P) : Prop :=
  Q (m w).2 (m w).1.

Lemma wp_bind {A B} (m : op P E A) (f : A → op P E B) Q w :
  wp m (λ r w', match r with Ok a => wp (f a) Q w' | Err e => Q (Err e) w' end) w →
  wp (m ≫= f) Q w.
Proof. unfold wp, mbind, SE_bind. by destruct (m w) as [w' [a|e]]. Qed.

Lemma wp_ret {A} (a : A) Q w : Q (Ok a) w → wp (mret a) Q w.
Proof. done. Qed.
Lemma wp_conflict {A} code Q w : Q (Err (Conflict code)) w → wp (conflict (A:=A) code) Q w.
Proof. done. Qed.
Lemma wp_reads {A} (f : ControlStore → A) Q w : Q (Ok (f (w_store w))) w → wp (reads f) Q w.
Proof. done. Qed.
Lemma wp_reads_result {A} (f : ControlStore → result ConflictCode A) Q w :
  match f (w_store w) with Ok a => Q (Ok a) w | Err code => Q (Err (Conflict code)) w end →
  wp (reads_result f) Q w.
Proof. unfold wp, reads_result. simpl. by case_match. Qed.
Lemma wp_updates f Q w : Q (Ok tt) (mkWorld (f (w_store w)) (w_disk w)) → wp (updates f) Q w.
Proof. done. Qed.
Lemma wp_append body Q w :
  Q (Ok (appendDelta body (w_store w)).2) (mkWorld (appendDelta body (w_store w)).1 (w_disk w)) →
  wp (append body) Q w.
Proof. unfold wp, append, runs. by destruct (appendDelta body (w_store w)). Qed.
Lemma wp_runs {A} (f : ControlStore → ControlStore * result (StoreError E) A) Q w :
  Q (f (w_store w)).2 (mkWorld (f (w_store w)).1 (w_disk w)) → wp (runs f) Q w.
Proof. unfold wp, runs. by destruct (f (w_store w)). Qed.

Lemma wp_throw {A} e Q w : Q (Err e) w → wp (throw (A:=A) e) Q w.
Proof. done. Qed.
Lemma wp_catching {A} (m : op P E A) handler Q w :
  wp m (λ r w', match r with Ok a => Q (Ok a) w' | Err e => wp (handler e) Q w' end) w →
  wp (catching m handler) Q w.
Proof. unfold wp, catching. by destruct (m w) as [w' [a|e]]. Qed.

(** The persistence layer never changes the store; it returns or fails. *)
Lemma wp_persistence {A} (m : SE P E A) Q w :
  (∀ d a, Q (Ok a) (mkWorld (w_store w) d)) →
  (∀ d e, Q (Err (PersistenceFailed e)) (mkWorld (w_store w) d)) → wp (persistence m) Q w.
Proof. unfold wp, persistence. intros H1 H2. destruct (m (w_disk w)) as [d [a|e]]; simpl; auto. Qed.

Lemma wp_persist Q w :
  (∀ d, Q (Ok tt) (mkWorld (w_store w) d)) →
  (∀ d e, Q (Err (PersistenceFailed e)) (mkWorld (w_store w) d)) → wp persist Q w.
Proof.
  intros H1 H2. unfold persist. destruct p_requestSave as [request|].
  - apply wp_persistence; [intros d []; auto|auto].
  - apply wp_bind, wp_reads, wp_persistence; [intros d []; auto|auto].
Qed.

(** The outcome of an operation on a store that satisfies the invariant: the
    invariant again, and none of the errors the code asserts impossible. *)
Definition sound {A} (r : result (StoreError E) A) (w : world P) : Prop :=
  store_inv (w_store w) ∧ r ≠ Err TypeError ∧ r ≠ Err (Conflict CONTROL_STORE_DUPLICATE_ORDER_ENTRY).

Lemma sound_ok {A} (a : A) w : store_inv (w_store w) → sound (Ok a) w.
Proof. done. Qed.
Lemma sound_failed {A} e w : store_inv (w_store w) → sound (A:=A) (Err (PersistenceFailed e)) w.
Proof. done. Qed.

(** Storing, logging and persisting. *)
Lemma wp_log_persist {A} (f : ControlStore → ControlStore) body (k : ControlStoreDelta → A) w :
  store_inv (w_store w) → (facts_inv (log_free (w_store w)) → facts_inv (log_free (f (w_store w)))) →
  (∀ s, delta_inv s → delta_inv (f s)) →
  wp (updates f ;; delta ← append body; persist ;; mret (k delta)) sound w.
Proof.
  intros [Hs Hd] Hf Hdf. apply wp_bind, wp_updates, wp_bind, wp_append, wp_bind.
  assert (store_inv (appendDelta body (f (w_store w))).1).
  { split; [rewrite appendDelta_frame; auto|by apply appendDelta_inv, Hdf]. }
  apply wp_persist; [intros d; by apply wp_ret, sound_ok|intros d e; by apply sound_failed].
Qed.

Ltac keeps_delta := by intros s0 (?&?&?&?&?).

Lemma recordHeartbeat_sound h w : store_inv (w_store w) → wp (recordHeartbeat h) sound w.
Proof.
  intros Hw. unfold recordHeartbeat. apply wp_bind, wp_reads.
  set (key := heartbeatKey _ _). set (store := updates _ ;; _).
  assert (wp store sound w) as Hstore.
  { apply (wp_log_persist _ _ Some); [done| |keeps_delta]. intros [? ? ? [Hwf Hk] ? ? ? ?]. split; try done.
    split; [by apply map_wf_set|]. cbn. intros k h' [[-> ->]|[_ Hin]]%elem_of_map_set; [done|by apply Hk|done]. }
  destruct (map_get key (heartbeats (w_store w))) as [p|]; [|done].
  destruct (_ <? _); [by apply wp_ret, sound_ok|]. destruct (_ <? _); [by apply wp_conflict|].
  destruct (_ =? _); [|done]. destruct (negb _); [by apply wp_conflict|by apply wp_ret, sound_ok].
Qed.

Lemma publishMaterializedHead_sound h w : store_inv (w_store w) → wp (publishMaterializedHead h) sound w.
Proof.
  intros Hw. unfold publishMaterializedHead. apply wp_bind, wp_reads. set (publish := reads _ ≫= _).
  assert (wp publish sound w) as Hpublish.
  { apply wp_bind, wp_reads. destruct (Z.ltb_spec (Z.of_nat (length (orderedTxIds (w_store w))))
      (mh_orderLength h)); [by apply wp_conflict|].
    apply (wp_log_persist _ _ Some); [done| |keeps_delta]. intros [? ? ? ? ? ? ? ?]. split; try done.
    cbn. by intros h' [= <-]. }
  destruct (materializedHead (w_store w)) as [c|]; [|done].
  destruct (_ <? _); [by apply wp_conflict|]. destruct (_ =? _); [|done].
  destruct (negb _); [by apply wp_conflict|by apply wp_ret, sound_ok].
Qed.

Lemma putCheckpoint_sound c w : store_inv (w_store w) → wp (putCheckpoint c) sound w.
Proof.
  intros Hw. unfold putCheckpoint. apply wp_bind, wp_reads.
  destruct (_ || _) eqn:Hrange; [by apply wp_conflict|]. apply orb_false_iff in Hrange as [H1 H2].
  apply wp_bind, wp_reads. case_match; [by apply wp_ret, sound_ok|]. destruct (_ && _); [by apply wp_conflict|].
  apply (wp_log_persist _ _ Some); [done| |keeps_delta]. intros [? ? ? ? ? [Hwf Hk] ? ?]. split; try done.
  split; [by apply map_wf_set|]. cbn. intros k c' [[-> ->]|[_ Hin]]%elem_of_map_set; [split; [done|lia]|by apply Hk|done].
Qed.

Lemma recordHistoryReopening_sound r w : store_inv (w_store w) → wp (recordHistoryReopening r) sound w.
Proof.
  intros Hw. unfold recordHistoryReopening. apply wp_bind, wp_reads.
  destruct (map_get _ _); [destruct (negb _); [by apply wp_conflict|by apply wp_ret, sound_ok]|].
  apply (wp_log_persist _ _ Some); [done| |keeps_delta]. intros [? ? ? ? ? ? [Hwf Hk] ?]. split; try done.
  split; [by apply map_wf_set|]. cbn. intros k c' [[-> ->]|[_ Hin]]%elem_of_map_set; [done|by apply Hk|done].
Qed.

Lemma putAttestation_sound a w : store_inv (w_store w) → wp (putAttestation a) sound w.
Proof.
  intros Hw. unfold putAttestation. apply wp_bind, wp_reads.
  destruct (map_get _ _) eqn:Hfresh; [destruct (negb _); [by apply wp_conflict|by apply wp_ret, sound_ok]|].
  set (f := λ s : ControlStore, set_attestations _ _ s).
  assert (store_inv (f (w_store w))) as Hf.
  { destruct Hw as [[? ? (Hwf & Hk & Hidx) ? ? ? ? ?] (?&?&?&?&?)]. split; [|done]. split; try done.
    unfold f. refine (conj _ (conj _ _)).
    - by apply map_wf_set.
    - cbn. intros k a' [[-> ->]|[_ Hin]]%elem_of_map_set; [done|by apply Hk|done].
    - cbn [attestationsByTx attestations log_free set_deltas set_attestations] in *. unfold map_values in *.
      rewrite (map_set_fresh _ _ _ Hfresh), fmap_app, foldl_app, <-Hidx. done. }
  apply wp_bind, wp_updates, wp_bind, wp_reads, wp_bind, wp_append, wp_bind.
  assert (∀ body, store_inv (appendDelta body (f (w_store w))).1).
  { intros body. destruct Hf. split; [by rewrite appendDelta_frame|by apply appendDelta_inv]. }
  apply wp_persist; [intros d; apply wp_ret, sound_ok, H|intros d e; apply sound_failed, H].
Qed.

(** The cutoff of a validator: both ways of making it durable. *)
Lemma cutoffs_inv_set id v s :
  store_inv s → store_inv (set_validatorCutoffs (map_set (idKey id) v (validatorCutoffs s)) s).
Proof.
  intros [[? ? ? ? [Hwf Hk] ? ? ?] (?&?&?&?&?)]. split; [|done]. split; try done.
  split; [by apply map_wf_set|].
  intros k v' [[-> ->]|[_ Hin]]%elem_of_map_set; [by exists id|by eapply Hk|done].
Qed.

Lemma cutoffs_inv_delete id s :
  store_inv s → store_inv (set_validatorCutoffs (map_delete (idKey id) (validatorCutoffs s)) s).
Proof.
  intros [[? ? ? ? [Hwf Hk] ? ? ?] (?&?&?&?&?)]. split; [|done]. split; try done.
  split; [by apply map_wf_delete|]. intros k v' Hin%elem_of_map_delete. by eapply Hk.
Qed.

Lemma persistValidatorCutoff_sound id cutoff w :
  store_inv (w_store w) → wp (persistValidatorCutoff id cutoff) sound w.
Proof.
  intros Hw. unfold persistValidatorCutoff. apply wp_bind, wp_reads.
  destruct (match _ with Some _ => _ | None => _ end); [by apply wp_conflict|].
  case_bool_decide; [by apply wp_ret, sound_ok|].
  destruct p_saveValidatorCutoff as [save|].
  - apply wp_bind, wp_persistence; [|intros d e; by apply sound_failed].
    intros d []. by apply wp_updates, sound_ok, cutoffs_inv_set.
  - apply wp_bind, wp_updates, wp_bind, wp_reads.
    apply wp_catching, wp_persistence; [intros d []; by apply sound_ok, cutoffs_inv_set|].
    intros d e. destruct (map_get _ _).
    + apply wp_bind, wp_updates, wp_throw. split; [|done]. by do 2 apply cutoffs_inv_set.
    + apply wp_bind, wp_updates, wp_throw. split; [|done]. by apply cutoffs_inv_delete, cutoffs_inv_set.
Qed.

(** ** Candidates *)

Lemma sameCandidateIdentity_spec a b : sameCandidateIdentity a b = true →
  sc_txId a = sc_txId b ∧ sc_orderKey a = sc_orderKey b ∧ sc_canonicalPayload a = sc_canonicalPayload b.
Proof. unfold sameCandidateIdentity, sameValue. by intros [= ? ? ? ? ? ?]%bool_decide_eq_true. Qed.

Definition input_ok (input : PutCandidateInput) : Prop := ok_txId (in_orderKey input) = in_txId input.

Lemma putCandidate_sound input w :
  store_inv (w_store w) → order_capacity (w_store w) → input_ok input → wp (putCandidate input) sound w.
Proof.
  intros Hw Hcap Hin. unfold putCandidate. apply wp_bind, wp_reads. set (c := candidate_of_input input).
  destruct (map_get (idKey (in_txId input)) (candidates (w_store w))) as [e|] eqn:Hfresh.
  { destruct (negb _); [by apply wp_conflict|by apply wp_ret, sound_ok]. }
  apply wp_bind, wp_updates, wp_bind, wp_append. cbn [w_store w_disk].
  set (s1 := set_candidates _ _). set (s2 := (appendDelta _ s1).1).
  pose proof (si_facts _ Hw) as Hfacts. pose proof (si_deltas _ Hw) as Hdeltas.
  assert (delta_inv s2) as Hd by by apply appendDelta_inv.
  assert (log_free s2 = log_free s1) as Hs2 by apply appendDelta_frame.
  apply wp_bind. case_bool_decide as Hst.
  - apply wp_bind, wp_runs. destruct (insertOrder_admits (E:=E) (w_store w) s2 c) as (s3 & d & Hrun & Hs3);
      try done;
      [by change (sc_txId c) with (in_txId input); rewrite Hfresh|].
    cbn [w_store w_disk]. rewrite Hrun. cbn [fst snd].
    apply wp_ret, wp_bind.
    apply wp_persist; [intros d'; by apply wp_ret, sound_ok|intros d' e; by apply sound_failed].
  - assert (store_inv s2).
    { split; [|done]. rewrite Hs2. apply (candidate_stored_inv (log_free (w_store w)) c); [done..|].
      change (candidates (log_free (w_store w))) with (candidates (w_store w)).
      change (sc_txId c) with (in_txId input). by rewrite Hfresh. }
    apply wp_ret, wp_bind.
    apply wp_persist; [intros d'; by apply wp_ret, sound_ok|intros d' e; by apply sound_failed].
Qed.

Lemma validateStateTransition_admissible previous next :
  validateStateTransition previous next = Ok tt → previous = admissible → next = admissible.
Proof. intros H ->. by destruct next. Qed.

Lemma setCandidateState_sound txId state proof reason w :
  store_inv (w_store w) → order_capacity (w_store w) → wp (setCandidateState txId state proof reason) sound w.
Proof.
  intros Hw Hcap. unfold setCandidateState. apply wp_bind, wp_reads_result. unfold requiredCandidate.
  destruct (map_get (idKey txId) (candidates (w_store w))) as [o|] eqn:Ho; [|done].
  apply wp_bind, wp_reads_result.
  destruct (validateStateTransition (sc_state o) state) as [[]|code] eqn:Htrans.
  2: { split_and!; [done|done|]. intros [= ->]. unfold validateStateTransition in Htrans. repeat case_match; done. }
  apply wp_bind, wp_reads. destruct (negb _); [by apply wp_conflict|].
  destruct (_ && _) eqn:Hsame; [by apply wp_ret, sound_ok|].
  set (next := mkCandidate _ _ _ _ _ _ _ _ _).
  pose proof (si_facts _ Hw) as Hfacts. pose proof (si_deltas _ Hw) as Hdeltas.
  destruct (candidates_inv_get _ _ _ (fi_candidates _ Hfacts) Ho) as [Hkey Hok].
  apply (inj idKey) in Hkey. subst txId.
  apply wp_bind, wp_updates, wp_bind, wp_append. cbn [w_store w_disk].
  set (s1 := set_candidates _ _). set (s2 := (appendDelta _ s1).1).
  assert (delta_inv s2) as Hd by by apply appendDelta_inv.
  assert (log_free s2 = log_free s1) as Hs2 by apply appendDelta_frame.
  apply wp_bind. destruct (negb _ && _) eqn:Hins.
  - apply andb_true_iff in Hins as [Hno%negb_true_iff%bool_decide_eq_false Hst%bool_decide_eq_true].
    apply wp_bind, wp_runs. destruct (insertOrder_admits (E:=E) (w_store w) s2 next) as (s3 & d & Hrun & Hs3);
      try done;
      [by change (sc_txId next) with (sc_txId o); rewrite Ho|].
    cbn [w_store w_disk]. rewrite Hrun. cbn [fst snd].
    apply wp_ret, wp_bind.
    apply wp_persist; [intros d'; by apply wp_ret, sound_ok|intros d' e; by apply sound_failed].
  - assert (store_inv s2).
    { split; [|done]. rewrite Hs2. apply (candidate_stored_inv (log_free (w_store w)) next); [done..|].
      change (candidates (log_free (w_store w))) with (candidates (w_store w)).
      change (sc_txId next) with (sc_txId o). rewrite Ho. split; [done|].
      split; [by apply validateStateTransition_admissible|].
      intros Hst. apply andb_false_iff in Hins as [Hno%negb_false_iff|Hno].
  - by apply bool_decide_eq_true in Hno.
  - by apply bool_decide_eq_false in Hno. }
  apply wp_ret, wp_bind.
  apply wp_persist; [intros d'; by apply wp_ret, sound_ok|intros d' e; by apply sound_failed].
Qed.

Lemma wp_mono {A} (m : op P E A) (Q Q' : result (StoreError E) A → world P → Prop) w :
  (∀ r w', Q r w' → Q' r w') → wp m Q w → wp m Q' w.
Proof. unfold wp. auto. Qed.

Lemma evaluateAdmission_sound txId evaluator w :
  store_inv (w_store w) → order_capacity (w_store w) → wp (evaluateAdmission txId evaluator) sound w.
Proof.
  intros Hw Hcap. unfold evaluateAdmission. apply wp_bind, wp_reads_result. unfold requiredCandidate.
  destruct (map_get _ _) as [o|]; [|done].
  case_bool_decide; [by apply wp_ret, sound_ok|]. destruct (_ || _); [by apply wp_conflict|].
  apply wp_bind, wp_reads, wp_bind. eapply wp_mono; [|by apply setCandidateState_sound].
  intros [ds|e] w' (Hw' & H1 & H2); [by apply wp_ret, sound_ok|].
  split_and!; [done|intros [= ->]; by apply H1|intros [= ->]; by apply H2].
Qed.

Lemma flush_sound w : store_inv (w_store w) → wp flush sound w.
Proof.
  intros Hw. unfold flush, optionally. apply wp_bind, wp_reads. destruct p_flush as [f|].
  - apply wp_persistence; [intros d []; by apply sound_ok|intros d e; by apply sound_failed].
  - by apply wp_ret, sound_ok.
Qed.
End operations.
