(* ===== verification/StoreTheorems.v ===== *)
(** * What the control store guarantees

    The commands a node issues to its control store as a step relation over
    the store and its persistence layer, and the theorems on every reachable
    state: the refinement of the order index, convergence of replicas,
    monotonicity of admission, the change log, and restart from a snapshot. *)

From Stdlib Require Import Strings.Byte.
From stdpp Require Import base list option numbers sorting sets.
From S2P Require Import Prelude JsMap Bytes Domains Base64 StoreTypes ControlStore StoreInvariant.

#[local] Open Scope Z_scope.

(** ** Commands and reachable states *)

Inductive command :=
  | PutCandidate (input : PutCandidateInput)
  | PutAttestation (attestation : StoredAttestation)
  | EvaluateAdmission (txId : bytes) (evaluator : AdmissionEvaluator)
  | SetCandidateState (txId : bytes) (state : CandidateState) (proof : option (list bytes))
  (reason : option jsstring)
  | RecordHeartbeat (heartbeat : StoredHeartbeat)
  | PublishMaterializedHead (head : MaterializedHead)
  | PutCheckpoint (checkpoint : StoredCheckpoint)
  | RecordHistoryReopening (reopening : HistoryReopening)
  | PersistValidatorCutoff (validatorId : bytes) (acceptedAboveMs : Z)
  | Flush.

(** The one obligation of a caller: the order key of a candidate carries its
    transaction id, as [transactionOrderKey] builds it. *)
Definition command_ok (c : command) : Prop :=
  match c with PutCandidate input => input_ok input | _ => True end.

Section reachable.
Context {P E : Type} `{!Persistence P E}.

(** The state after a command, whether it returned or threw. *)
Definition exec (c : command) (w : world P) : world P :=
  match c with
  | PutCandidate input => (putCandidate input w).1
  | PutAttestation a => (putAttestation a w).1
  | EvaluateAdmission txId evaluator => (evaluateAdmission txId evaluator w).1
  | SetCandidateState txId state proof reason => (setCandidateState txId state proof reason w).1
  | RecordHeartbeat h => (recordHeartbeat h w).1
  | PublishMaterializedHead h => (publishMaterializedHead h w).1
  | PutCheckpoint cp => (putCheckpoint cp w).1
  | RecordHistoryReopening r => (recordHistoryReopening r w).1
  | PersistValidatorCutoff id v => (persistValidatorCutoff id v w).1
  | Flush => (flush w).1
  end.

Inductive reachable : world P → Prop :=
  | reach_new maximum disk : 1 ≤ maximum → reachable (mkWorld (empty_store maximum) disk)
  | reach_step c w :
  reachable w → order_capacity (w_store w) → command_ok c → reachable (exec c w).

Lemma exec_sound c w :
  store_inv (w_store w) → order_capacity (w_store w) → command_ok c → store_inv (w_store (exec c w)).
Proof.
  intros Hw Hcap Hc. destruct c; simpl.
  - by apply (putCandidate_sound input w).
  - by apply (putAttestation_sound attestation w).
  - by apply (evaluateAdmission_sound txId evaluator w).
  - by apply (setCandidateState_sound txId state proof reason w).
  - by apply (recordHeartbeat_sound heartbeat w).
  - by apply (publishMaterializedHead_sound head w).
  - by apply (putCheckpoint_sound checkpoint w).
  - by apply (recordHistoryReopening_sound reopening w).
  - by apply (persistValidatorCutoff_sound validatorId acceptedAboveMs w).
  - by apply (flush_sound w).
Qed.

Lemma empty_inv maximum : 1 ≤ maximum → store_inv (empty_store maximum).
Proof.
  intros Hmax. split.
  - split; try done.
    + split; [constructor|]. by intros k c ?%elem_of_nil.
    + split; [constructor|]. split; [|done]. by intros k c ?%elem_of_nil.
    + split; [constructor|]. by intros k c ?%elem_of_nil.
    + split; [constructor|]. by intros k c ?%elem_of_nil.
    + split; [constructor|]. by intros k c ?%elem_of_nil.
    + split; [constructor|]. by intros k c ?%elem_of_nil.
  - unfold delta_inv. cbn. split_and!; [lia..|done|done].
Qed.

Lemma reachable_inv w : reachable w → store_inv (w_store w).
Proof. induction 1; [by apply empty_inv|by apply exec_sound]. Qed.
End reachable.

(** ** Order *)

(** The order the specification asks for: the admissible candidates, sorted. *)
Definition compareCandidates (a b : StoredCandidate) : Z :=
  compareTransactionOrder (sc_orderKey a) (sc_orderKey b).

Definition spec_order (s : ControlStore) : list StoredCandidate :=
  js_sort compareCandidates (filter (λ c, sc_state c = admissible) (listCandidates s)).

Lemma spec_order_keys s :
  sc_orderKey <$> spec_order s = js_sort compareTransactionOrder (admissible_keys (candidates s)).
Proof. unfold spec_order, admissible_keys, listCandidates. by rewrite (js_sort_fmap sc_orderKey compareCandidates). Qed.

Lemma orderedCandidates_spec s : store_inv s → orderedCandidates s = Ok (spec_order s).
Proof.
  intros [Hf _]. unfold orderedCandidates. apply mapR_Ok.
  pose proof (fi_candidates _ Hf) as Hc. change (candidates_inv (candidates s)) in Hc.
  assert (orderedTxIds s = sc_txId <$> spec_order s) as ->.
  { pose proof (fi_order _ Hf) as Hord. change (orderedTxIds (log_free s)) with (orderedTxIds s) in Hord.
    change (candidates (log_free s)) with (candidates s) in Hord.
    rewrite Hord, <-spec_order_keys, <-list_fmap_compose. apply list_fmap_ext.
    intros i c Hi%list_elem_of_lookup_2. unfold spec_order in Hi.
    apply elem_of_js_sort, list_elem_of_filter in Hi as [_ ([k c'] & -> & Hin)%list_elem_of_fmap].
    by apply Hc in Hin as [_ Hok]. }
  apply Forall2_fmap_l, Forall_Forall2_diag, Forall_forall. intros c Hi. unfold spec_order in Hi.
  apply elem_of_js_sort, list_elem_of_filter in Hi as [_ ([k c'] & -> & Hin)%list_elem_of_fmap].
  simpl. destruct Hc as [Hwf Hc]. destruct (Hc _ _ Hin) as [-> _]. unfold requiredCandidate.
  by rewrite (map_wf_get _ c').
Qed.

Lemma ordered_spec_ids s : store_inv s → orderedTransactionIds s = sc_txId <$> spec_order s.
Proof.
  intros Hw. pose proof (orderedCandidates_spec _ Hw) as Hord.
  unfold orderedCandidates in Hord. apply mapR_Ok in Hord. unfold orderedTransactionIds.
  pose proof (fi_candidates _ (si_facts _ Hw)) as [_ Hc].
  induction Hord as [|txId c l k Hget _ IH]; [done|]. rewrite fmap_cons, IH. f_equal.
  unfold requiredCandidate in Hget. destruct (map_get _ _) as [c'|] eqn:Hg; [|done]. injection Hget as ->.
  apply map_get_Some_elem, Hc in Hg as [?%(inj idKey) _]. done.
Qed.

Lemma spec_order_sorted s : store_inv s → StronglySorted (λ a b, compareCandidates a b < 0) (spec_order s).
Proof.
  intros Hw. pose proof (admissible_keys_sorted _ (fi_candidates _ (si_facts _ Hw))) as Hs.
  change (candidates (log_free s)) with (candidates s) in Hs.
  rewrite <-spec_order_keys in Hs. by apply StronglySorted_on in Hs.
Qed.

(** ** Frames: what a command leaves alone *)

Lemma append_candidates body s : candidates (appendDelta body s).1 = candidates s.
Proof. exact (f_equal candidates (appendDelta_frame body s)). Qed.
Lemma append_heartbeats body s : heartbeats (appendDelta body s).1 = heartbeats s.
Proof. exact (f_equal heartbeats (appendDelta_frame body s)). Qed.
Lemma append_cutoffs body s : validatorCutoffs (appendDelta body s).1 = validatorCutoffs s.
Proof. exact (f_equal validatorCutoffs (appendDelta_frame body s)). Qed.

Lemma insertOrder_fields {E} c s :
  candidates (insertOrder (E:=E) c s).1 = candidates s ∧
  heartbeats (insertOrder (E:=E) c s).1 = heartbeats s ∧
  validatorCutoffs (insertOrder (E:=E) c s).1 = validatorCutoffs s.
Proof.
  unfold insertOrder. destruct (search_order _ _ _ _ _); [|done]. destruct (_ && _); [done|].
  cbv zeta. match goal with |- context [appendDelta ?b ?s1] =>
    pose proof (appendDelta_frame b s1) as Hf; destruct (appendDelta b s1) as [s2 d] end.
  cbn [fst] in *. split_and!;
    [exact (f_equal candidates Hf)|exact (f_equal heartbeats Hf)|exact (f_equal validatorCutoffs Hf)].
Qed.

(** Walks through an operation, splitting on its guards. *)
Ltac walk_step := first
  [ simple apply wp_ret | simple apply wp_conflict | simple apply wp_throw | simple apply wp_bind | simple apply wp_reads
  | simple apply wp_reads_result | simple apply wp_updates | simple apply wp_append | simple apply wp_runs
  | simple apply wp_catching
  | simple apply wp_persist; [intros ?|intros ? ?]
  | simple apply wp_persistence; [intros ? ?|intros ? ?]
  | progress cbn [w_store w_disk fst snd] ].

(** The clauses below are about the candidates, the heartbeats and the cutoffs
    of the store; each command changes at most one of the three. *)
Section frames.
Context {P E : Type} `{!Persistence P E}.

Definition same_candidates (s : ControlStore) {A} (r : result (StoreError E) A) (w : world P) : Prop :=
  candidates (w_store w) = candidates s.
Definition same_heartbeats (s : ControlStore) {A} (r : result (StoreError E) A) (w : world P) : Prop :=
  heartbeats (w_store w) = heartbeats s.
Definition same_cutoffs (s : ControlStore) {A} (r : result (StoreError E) A) (w : world P) : Prop :=
  validatorCutoffs (w_store w) = validatorCutoffs s.

Ltac frame :=
  repeat (walk_step || case_match); simplify_eq;
  unfold same_candidates, same_heartbeats, same_cutoffs; cbn [w_store];
  rewrite ?append_candidates, ?append_heartbeats, ?append_cutoffs;
  repeat match goal with
  | |- context [(insertOrder ?c ?s).1] =>
    first [rewrite (proj1 (insertOrder_fields c s))
      |rewrite (proj1 (proj2 (insertOrder_fields c s)))
      |rewrite (proj2 (proj2 (insertOrder_fields c s)))]
  end;
  rewrite ?append_candidates, ?append_heartbeats, ?append_cutoffs; done.

Lemma recordHeartbeat_frame h w :
  wp (recordHeartbeat h) (same_candidates (w_store w)) w ∧ wp (recordHeartbeat h) (same_cutoffs (w_store w)) w.
Proof. unfold recordHeartbeat. split; frame. Qed.
Lemma publishMaterializedHead_frame h w :
  wp (publishMaterializedHead h) (same_candidates (w_store w)) w ∧
  wp (publishMaterializedHead h) (same_heartbeats (w_store w)) w ∧
  wp (publishMaterializedHead h) (same_cutoffs (w_store w)) w.
Proof. unfold publishMaterializedHead. split_and!; frame. Qed.
Lemma putCheckpoint_frame c w :
  wp (putCheckpoint c) (same_candidates (w_store w)) w ∧
  wp (putCheckpoint c) (same_heartbeats (w_store w)) w ∧
  wp (putCheckpoint c) (same_cutoffs (w_store w)) w.
Proof. unfold putCheckpoint. split_and!; frame. Qed.
Lemma recordHistoryReopening_frame r w :
  wp (recordHistoryReopening r) (same_candidates (w_store w)) w ∧
  wp (recordHistoryReopening r) (same_heartbeats (w_store w)) w ∧
  wp (recordHistoryReopening r) (same_cutoffs (w_store w)) w.
Proof. unfold recordHistoryReopening. split_and!; frame. Qed.
Lemma putAttestation_frame a w :
  wp (putAttestation a) (same_candidates (w_store w)) w ∧
  wp (putAttestation a) (same_heartbeats (w_store w)) w ∧
  wp (putAttestation a) (same_cutoffs (w_store w)) w.
Proof. unfold putAttestation. split_and!; frame. Qed.
Lemma persistValidatorCutoff_frame id v w :
  wp (persistValidatorCutoff id v) (same_candidates (w_store w)) w ∧
  wp (persistValidatorCutoff id v) (same_heartbeats (w_store w)) w.
Proof. unfold persistValidatorCutoff. split_and!; frame. Qed.
Lemma flush_frame w : w_store (flush w).1 = w_store w.
Proof.
  change (wp flush (λ _ w', w_store w' = w_store w) w). unfold flush, optionally.
  repeat (walk_step || case_match); done.
Qed.
Lemma putCandidate_frame input w :
  wp (putCandidate input) (same_heartbeats (w_store w)) w ∧ wp (putCandidate input) (same_cutoffs (w_store w)) w.
Proof. unfold putCandidate. split_and!; frame. Qed.
Lemma setCandidateState_frame txId state proof reason w :
  wp (setCandidateState txId state proof reason) (same_heartbeats (w_store w)) w ∧
  wp (setCandidateState txId state proof reason) (same_cutoffs (w_store w)) w.
Proof. unfold setCandidateState. split_and!; frame. Qed.
Lemma evaluateAdmission_frame txId evaluator w :
  wp (evaluateAdmission txId evaluator) (same_heartbeats (w_store w)) w ∧
  wp (evaluateAdmission txId evaluator) (same_cutoffs (w_store w)) w.
Proof.
  unfold evaluateAdmission. split; apply wp_bind, wp_reads_result;
    (case_match; [|done]); (case_match; [done|]); (case_match; [done|]);
    apply wp_bind, wp_reads, wp_bind.
  - eapply wp_mono; [|exact (proj1 (setCandidateState_frame _ _ _ _ _))].
    intros [ds|e] w' Hw'; exact Hw'.
  - eapply wp_mono; [|exact (proj2 (setCandidateState_frame _ _ _ _ _))].
    intros [ds|e] w' Hw'; exact Hw'.
Qed.
End frames.

(** ** Candidates only advance *)

(** The parts of a candidate that never change. *)
Definition identity (c : StoredCandidate) : bytes * bytes * bytes * bytes * TransactionOrderKey * option bytes :=
  (sc_txId c, sc_groupId c, sc_candidateDigest c, sc_validationPolicy c, sc_orderKey c, sc_canonicalPayload c).

Definition advances (cs cs' : jsmap jsstring StoredCandidate) : Prop :=
  ∀ k c, map_get k cs = Some c → ∃ c', map_get k cs' = Some c' ∧ identity c' = identity c ∧
    validateStateTransition (sc_state c) (sc_state c') = Ok tt.

Lemma validateStateTransition_refl st : validateStateTransition st st = Ok tt.
Proof. by destruct st. Qed.

#[export] Instance advances_refl : Reflexive advances.
Proof. intros cs k c Hc. exists c. by rewrite validateStateTransition_refl. Qed.

(** Every transition the store accepts, and its consequences. *)
Lemma validateStateTransition_spec previous next :
  validateStateTransition previous next = Ok tt ↔
  previous = next ∨
  (previous = pending_validation ∧ next ≠ waiting_for_payload) ∨
  (previous = waiting_for_payload ∧ next ≠ admissible).
Proof. destruct previous, next; vm_compute; naive_solver. Qed.

Lemma validateStateTransition_trans a b c :
  validateStateTransition a b = Ok tt → validateStateTransition b c = Ok tt →
  a = waiting_for_payload ∨ validateStateTransition a c = Ok tt.
Proof. destruct a, b, c; vm_compute; naive_solver. Qed.

Section advance.
Context {P E : Type} `{!Persistence P E}.

Definition advanced (s : ControlStore) {A} (r : result (StoreError E) A) (w : world P) : Prop :=
  advances (candidates s) (candidates (w_store w)).

Lemma advanced_here {A} (r : result (StoreError E) A) w : advanced (w_store w) r w.
Proof. unfold advanced. done. Qed.

Lemma wp_elim {A} (m : op P E A) Q w : wp m Q w → Q (m w).2 (m w).1.
Proof. done. Qed.

Lemma same_advanced {A} (m : op P E A) w : wp m (same_candidates (w_store w)) w → wp m (advanced (w_store w)) w.
Proof. apply wp_mono. unfold same_candidates, advanced. by intros _ w' ->. Qed.

Lemma putCandidate_advanced input w : wp (putCandidate input) (advanced (w_store w)) w.
Proof.
  unfold putCandidate. apply wp_bind, wp_reads.
  destruct (map_get (idKey (in_txId input)) (candidates (w_store w))) as [e|] eqn:Hfresh.
  { case_match; [apply wp_conflict|apply wp_ret]; apply advanced_here. }
  assert (advances (candidates (w_store w))
    (map_set (idKey (in_txId input)) (candidate_of_input input) (candidates (w_store w)))) as Hadv.
  { intros k c Hc. exists c. rewrite map_get_set_ne, validateStateTransition_refl; [done|].
    intros ->. congruence. }
  repeat (walk_step || case_match); simplify_eq; unfold advanced; cbn [w_store];
    rewrite ?append_candidates; try done;
    match goal with |- context [(insertOrder ?c ?s).1] => rewrite (proj1 (insertOrder_fields c s)) end;
    by rewrite append_candidates.
Qed.

Lemma setCandidateState_advanced txId state proof reason w :
  wp (setCandidateState txId state proof reason) (advanced (w_store w)) w.
Proof.
  unfold setCandidateState. apply wp_bind, wp_reads_result. unfold requiredCandidate.
  destruct (map_get (idKey txId) (candidates (w_store w))) as [o|] eqn:Ho; [|apply advanced_here].
  apply wp_bind, wp_reads_result.
  destruct (validateStateTransition (sc_state o) state) as [[]|code] eqn:Htrans; [|apply advanced_here].
  assert (∀ next, identity next = identity o → sc_state next = state →
    advances (candidates (w_store w)) (map_set (idKey txId) next (candidates (w_store w)))) as Hadv.
  { intros next Hid <- k c Hc. rewrite map_get_set. case_decide as Hk; [|exists c; by rewrite validateStateTransition_refl].
    subst k. rewrite Ho in Hc. injection Hc as <-. by exists next. }
  repeat (walk_step || case_match); simplify_eq; unfold advanced; cbn [w_store];
    rewrite ?append_candidates; try done;
    repeat match goal with |- context [(insertOrder ?c ?s).1] => rewrite (proj1 (insertOrder_fields c s)) end;
    rewrite ?append_candidates; by apply Hadv.
Qed.

Lemma exec_advances c w : advances (candidates (w_store w)) (candidates (w_store (exec c w))).
Proof.
  destruct c; simpl.
  - apply (wp_elim _ _ _ (putCandidate_advanced input w)).
  - apply (wp_elim _ _ _ (same_advanced _ _ (proj1 (putAttestation_frame attestation w)))).
  - change (wp (evaluateAdmission txId evaluator) (advanced (w_store w)) w).
    unfold evaluateAdmission. apply wp_bind, wp_reads_result. case_match; [|apply advanced_here].
    case_match; [apply wp_ret, advanced_here|]. case_match; [apply wp_conflict, advanced_here|].
    apply wp_bind, wp_reads, wp_bind. eapply wp_mono; [|apply setCandidateState_advanced].
    by intros [ds|e] w' Hw'.
  - apply (wp_elim _ _ _ (setCandidateState_advanced txId state proof reason w)).
  - apply (wp_elim _ _ _ (same_advanced _ _ (proj1 (recordHeartbeat_frame heartbeat w)))).
  - apply (wp_elim _ _ _ (same_advanced _ _ (proj1 (publishMaterializedHead_frame head w)))).
  - apply (wp_elim _ _ _ (same_advanced _ _ (proj1 (putCheckpoint_frame checkpoint w)))).
  - apply (wp_elim _ _ _ (same_advanced _ _ (proj1 (recordHistoryReopening_frame reopening w)))).
  - apply (wp_elim _ _ _ (same_advanced _ _ (proj1 (persistValidatorCutoff_frame validatorId acceptedAboveMs w)))).
  - by rewrite flush_frame.
Qed.
End advance.

(** ** Heartbeats and cutoffs only advance *)

Definition heartbeats_advance (hs hs' : jsmap jsstring StoredHeartbeat) : Prop :=
  ∀ k h, map_get k hs = Some h → ∃ h', map_get k hs' = Some h' ∧
    sh_acceptanceCutoffMs h ≤ sh_acceptanceCutoffMs h' ∧
    sh_validatorFeedSequence h ≤ sh_validatorFeedSequence h'.

#[export] Instance heartbeats_advance_refl : Reflexive heartbeats_advance.
Proof. intros hs k h Hh. exists h. by split_and!. Qed.

Definition cutoffs_advance (cs cs' : jsmap jsstring Z) : Prop :=
  ∀ k v, map_get k cs = Some v → ∃ v', map_get k cs' = Some v' ∧ v ≤ v'.

#[export] Instance cutoffs_advance_refl : Reflexive cutoffs_advance.
Proof. intros cs k v Hv. by exists v. Qed.

Section monotone.
Context {P E : Type} `{!Persistence P E}.

Lemma recordHeartbeat_advances h w :
  wp (recordHeartbeat h) (λ _ w', heartbeats_advance (heartbeats (w_store w)) (heartbeats (w_store w'))) w.
Proof.
  unfold recordHeartbeat. apply wp_bind, wp_reads.
  set (key := heartbeatKey _ _). set (store := updates _ ;; _).
  assert ((∀ p, map_get key (heartbeats (w_store w)) = Some p →
    sh_acceptanceCutoffMs p ≤ sh_acceptanceCutoffMs h ∧
    sh_validatorFeedSequence p ≤ sh_validatorFeedSequence h) →
    wp store (λ _ w', heartbeats_advance (heartbeats (w_store w)) (heartbeats (w_store w'))) w) as Hstore.
  { intros Hp. assert (heartbeats_advance (heartbeats (w_store w)) (map_set key h (heartbeats (w_store w)))).
    { intros k p Hk. rewrite map_get_set. case_decide; [subst; exists h; naive_solver|by exists p]. }
    unfold store. repeat walk_step; cbn [w_store]; by rewrite append_heartbeats. }
  destruct (map_get key (heartbeats (w_store w))) as [p|] eqn:Hp; [|by apply Hstore].
  destruct (Z.ltb_spec (sh_validatorFeedSequence h) (sh_validatorFeedSequence p)); [by apply wp_ret|].
  destruct (Z.ltb_spec (sh_acceptanceCutoffMs h) (sh_acceptanceCutoffMs p)); [by apply wp_conflict|].
  destruct (_ =? _); [|apply Hstore; by intros ? [= <-]].
  case_match; [by apply wp_conflict|by apply wp_ret].
Qed.

Lemma persistValidatorCutoff_advances id v w :
  map_wf (validatorCutoffs (w_store w)) →
  wp (persistValidatorCutoff id v)
  (λ _ w', cutoffs_advance (validatorCutoffs (w_store w)) (validatorCutoffs (w_store w'))) w.
Proof.
  intros Hwf. unfold persistValidatorCutoff. apply wp_bind, wp_reads.
  set (cs := validatorCutoffs (w_store w)). set (key := idKey id).
  destruct (match _ with Some _ => _ | None => _ end) eqn:Hlow; [by apply wp_conflict|].
  assert (cutoffs_advance cs (map_set key v cs)) as Hset.
  { intros k p Hk. rewrite map_get_set. case_decide; [|by exists p]. subst k. exists v.
    split; [done|]. fold cs key in Hlow. rewrite Hk in Hlow. lia. }
  case_bool_decide; [by apply wp_ret|]. destruct p_saveValidatorCutoff as [save|].
  - repeat walk_step; done.
  - apply wp_bind, wp_updates, wp_bind, wp_reads, wp_catching, wp_persistence; [done|].
    intros d e. fold cs. destruct (map_get key cs) as [p|] eqn:Hp;
      apply wp_bind, wp_updates, wp_throw; cbn [w_store set_validatorCutoffs validatorCutoffs];
      fold cs; intros k q Hk; exists q; (split; [|done]).
    + rewrite !map_get_set. repeat case_decide; congruence.
    + rewrite map_get_delete by by apply map_wf_set. rewrite map_get_set. repeat case_decide; congruence.
Qed.

Lemma exec_heartbeats_advance c w : heartbeats_advance (heartbeats (w_store w)) (heartbeats (w_store (exec c w))).
Proof.
  destruct c; simpl.
  - by rewrite (wp_elim _ _ _ (proj1 (putCandidate_frame input w))).
  - by rewrite (wp_elim _ _ _ (proj1 (proj2 (putAttestation_frame attestation w)))).
  - by rewrite (wp_elim _ _ _ (proj1 (evaluateAdmission_frame txId evaluator w))).
  - by rewrite (wp_elim _ _ _ (proj1 (setCandidateState_frame txId state proof reason w))).
  - apply (wp_elim _ _ _ (recordHeartbeat_advances heartbeat w)).
  - by rewrite (wp_elim _ _ _ (proj1 (proj2 (publishMaterializedHead_frame head w)))).
  - by rewrite (wp_elim _ _ _ (proj1 (proj2 (putCheckpoint_frame checkpoint w)))).
  - by rewrite (wp_elim _ _ _ (proj1 (proj2 (recordHistoryReopening_frame reopening w)))).
  - by rewrite (wp_elim _ _ _ (proj2 (persistValidatorCutoff_frame validatorId acceptedAboveMs w))).
  - by rewrite flush_frame.
Qed.

Lemma exec_cutoffs_advance c w :
  store_inv (w_store w) →
  cutoffs_advance (validatorCutoffs (w_store w)) (validatorCutoffs (w_store (exec c w))).
Proof.
  intros Hw. destruct c; simpl.
  - by rewrite (wp_elim _ _ _ (proj2 (putCandidate_frame input w))).
  - by rewrite (wp_elim _ _ _ (proj2 (proj2 (putAttestation_frame attestation w)))).
  - by rewrite (wp_elim _ _ _ (proj2 (evaluateAdmission_frame txId evaluator w))).
  - by rewrite (wp_elim _ _ _ (proj2 (setCandidateState_frame txId state proof reason w))).
  - by rewrite (wp_elim _ _ _ (proj2 (recordHeartbeat_frame heartbeat w))).
  - by rewrite (wp_elim _ _ _ (proj2 (proj2 (publishMaterializedHead_frame head w)))).
  - by rewrite (wp_elim _ _ _ (proj2 (proj2 (putCheckpoint_frame checkpoint w)))).
  - by rewrite (wp_elim _ _ _ (proj2 (proj2 (recordHistoryReopening_frame reopening w)))).
  - apply (wp_elim _ _ _ (persistValidatorCutoff_advances validatorId acceptedAboveMs w
      (proj1 (fi_cutoffs _ (si_facts _ Hw))))).
  - by rewrite flush_frame.
Qed.
End monotone.

(** ** A sample run: two admissible candidates arriving in the wrong order *)

Definition sample_key (timestamp : Z) (tx : bytes) : TransactionOrderKey := mkOrderKey timestamp [x01] 0 tx.
Definition sample_input (timestamp : Z) (tx : bytes) (state : CandidateState) : PutCandidateInput :=
  mkCandidateInput tx [x01] [] [] (sample_key timestamp tx) None state None None.

Definition run_null (cs : list command) (w : world unit) : world unit :=
  foldl (λ w c, exec (Persistence0:=NullPersistence) c w) w cs.
Definition fresh_null : world unit := mkWorld (empty_store 2) tt.

Definition sample_commands : list command :=
  [PutCandidate (sample_input 20 [x0b] admissible); PutCandidate (sample_input 10 [x0a] pending_validation);
   SetCandidateState [x0a] admissible None None].

Lemma sample_reachable : reachable (Persistence0:=NullPersistence) (run_null sample_commands fresh_null).
Proof.
  do 3 (refine (reach_step _ _ _ _ _); [|vm_compute; reflexivity|vm_compute; first [reflexivity|exact I]]).
  apply (reach_new (Persistence0:=NullPersistence)). lia.
Defined.

(** C1: refinement of the order index.  In every reachable state, whatever
    was inserted when and whatever failed, [orderedCandidates] returns the
    admissible candidates sorted by the transaction order, strictly ascending,
    and [orderedTransactionIds] their ids. *)
Theorem store_order_refinement P E (H : Persistence P E) (w : world P) :
  reachable w →
  orderedCandidates (w_store w) = Ok (spec_order (w_store w)) ∧
  orderedTransactionIds (w_store w) = sc_txId <$> spec_order (w_store w) ∧
  StronglySorted (λ a b, compareCandidates a b < 0) (spec_order (w_store w)).
Proof.
  intros Hw%reachable_inv.
  split_and!; [by apply orderedCandidates_spec|by apply ordered_spec_ids|by apply spec_order_sorted].
Qed.

Lemma store_order_refinement_witness :
  orderedTransactionIds (w_store (run_null sample_commands fresh_null)) = [[x0a]; [x0b]] ∧
  sc_txId <$> spec_order (w_store (run_null sample_commands fresh_null)) = [[x0a]; [x0b]].
Proof.
  destruct (store_order_refinement unit Empty_set NullPersistence (run_null sample_commands fresh_null)
    sample_reachable) as (_ & H & _).
  split; [vm_compute; reflexivity|]. rewrite <-H. vm_compute; reflexivity.
Defined.

(** C2: convergence.  Two replicas, with whatever histories, arrival orders
    and persistence layers, that hold the same admissible transactions have
    the same order. *)
Theorem replicas_converge P1 E1 (H1 : Persistence P1 E1) P2 E2 (H2 : Persistence P2 E2)
    (w1 : world P1) (w2 : world P2) :
  reachable w1 → reachable w2 →
  (∀ key, key ∈ admissible_keys (candidates (w_store w1)) ↔ key ∈ admissible_keys (candidates (w_store w2))) →
  orderedTransactionIds (w_store w1) = orderedTransactionIds (w_store w2).
Proof.
  intros Hw1%reachable_inv Hw2%reachable_inv Hkeys.
  change (orderedTxIds (log_free (w_store w1)) = orderedTxIds (log_free (w_store w2))).
  rewrite (fi_order _ (si_facts _ Hw1)), (fi_order _ (si_facts _ Hw2)). f_equal.
  apply js_sort_perm_eq; [apply _|]. apply NoDup_Permutation; [..|done].
  - exact (admissible_keys_NoDup _ (fi_candidates _ (si_facts _ Hw1))).
  - exact (admissible_keys_NoDup _ (fi_candidates _ (si_facts _ Hw2))).
Qed.

Definition other_commands : list command :=
  [PutCandidate (sample_input 10 [x0a] admissible); PutCandidate (sample_input 30 [x0c] unauthorized);
   PutCandidate (sample_input 20 [x0b] admissible)].

Lemma other_reachable : reachable (Persistence0:=NullPersistence) (run_null other_commands fresh_null).
Proof.
  do 3 (refine (reach_step _ _ _ _ _); [|vm_compute; reflexivity|vm_compute; reflexivity]).
  apply (reach_new (Persistence0:=NullPersistence)). lia.
Defined.

Lemma replicas_converge_witness :
  orderedTransactionIds (w_store (run_null sample_commands fresh_null)) =
  orderedTransactionIds (w_store (run_null other_commands fresh_null)).
Proof.
  apply (replicas_converge unit Empty_set NullPersistence unit Empty_set NullPersistence _ _
    sample_reachable other_reachable).
  intros key. change (admissible_keys (candidates (w_store (run_null sample_commands fresh_null))))
    with [sample_key 20 [x0b]; sample_key 10 [x0a]].
  change (admissible_keys (candidates (w_store (run_null other_commands fresh_null))))
    with [sample_key 10 [x0a]; sample_key 20 [x0b]].
  rewrite !elem_of_cons. tauto.
Defined.

(** admission is monotone.  A command never removes a candidate or changes
    its identity (transaction, group, digest, policy, order key, payload);
    an admissible candidate stays admissible, a rejected one stays rejected,
    and one waiting for its payload cannot become admissible in one step. *)
Theorem admission_monotone P E (H : Persistence P E) (c : command) (w : world P) txId candidate :
  getCandidate (w_store w) txId = Some candidate →
  ∃ candidate', getCandidate (w_store (exec c w)) txId = Some candidate' ∧
    identity candidate' = identity candidate ∧
    (sc_state candidate = admissible → sc_state candidate' = admissible) ∧
    (TERMINAL_INVALID_STATES (sc_state candidate) = true → sc_state candidate' = sc_state candidate) ∧
    (sc_state candidate = waiting_for_payload → sc_state candidate' ≠ admissible).
Proof.
  intros Hc. destruct (exec_advances c w _ _ Hc) as (c' & Hc' & Hid & Ht). exists c'.
  apply validateStateTransition_spec in Ht.
  split_and!; [done|done|..]; destruct (sc_state candidate), (sc_state c'); naive_solver.
Qed.

Lemma admission_monotone_witness :
  ∃ candidate', getCandidate (w_store (exec (Persistence0:=NullPersistence)
      (SetCandidateState [x0a] quarantined None None) (run_null sample_commands fresh_null))) [x0a] =
      Some candidate' ∧ sc_state candidate' = admissible.
Proof.
  destruct (getCandidate (w_store (run_null sample_commands fresh_null)) [x0a]) as [c|] eqn:Hc;
    [|vm_compute in Hc; discriminate].
  destruct (admission_monotone unit Empty_set NullPersistence (SetCandidateState [x0a] quarantined None None)
    (run_null sample_commands fresh_null) [x0a] c Hc) as (c' & H1 & _ & H2 & _).
  exists c'. split; [exact H1|]. apply H2. vm_compute in Hc. injection Hc as <-. reflexivity.
Defined.

(** no regression.  In a reachable state no command lowers the cutoff or
    the feed sequence of a recorded heartbeat, nor the signing cutoff of a
    validator, even when the persistence layer fails half-way. *)
Theorem cutoffs_never_regress P E (H : Persistence P E) (c : command) (w : world P) :
  reachable w →
  heartbeats_advance (heartbeats (w_store w)) (heartbeats (w_store (exec c w))) ∧
  ∀ id v, validatorCutoff (w_store w) id = Some v →
    ∃ v', validatorCutoff (w_store (exec c w)) id = Some v' ∧ v ≤ v'.
Proof.
  intros Hw%reachable_inv. split; [apply exec_heartbeats_advance|]. intros id v.
  by apply exec_cutoffs_advance.
Qed.

Lemma cutoffs_never_regress_witness :
  heartbeats_advance (heartbeats (w_store (run_null sample_commands fresh_null)))
    (heartbeats (w_store (exec (Persistence0:=NullPersistence) (PersistValidatorCutoff [x01] 5)
      (run_null sample_commands fresh_null)))).
Proof.
  apply (cutoffs_never_regress unit Empty_set NullPersistence (PersistValidatorCutoff [x01] 5)
    (run_null sample_commands fresh_null) sample_reachable).
Defined.

(** * The change log and restart of the control store

    [changesSince] gives a subscriber every change after a sequence number or
    tells it to start over; a store restored from its own snapshot is the
    store that took it. *)

(** ** The change log *)

Lemma filter_seq (ds : list ControlStoreDelta) floor from :
  floor ≤ from ≤ floor + Z.of_nat (length ds) →
  d_sequence <$> ds = seqZ (floor + 1) (Z.of_nat (length ds)) →
  d_sequence <$> filter (λ d, from < d_sequence d) ds =
    seqZ (from + 1) (floor + Z.of_nat (length ds) - from).
Proof.
  revert floor. induction ds as [|d ds IH]; intros floor Hfrom Hseq.
  - simpl length in *. replace (floor + Z.of_nat 0 - from) with 0 by lia. done.
  - rewrite fmap_cons in Hseq. simpl length in *. rewrite seqZ_cons in Hseq by lia.
    injection Hseq as Hd Hseq. rewrite filter_cons. case_decide as Hlt.
    + assert (from = floor) as -> by lia. rewrite fmap_cons.
      rewrite seqZ_cons by lia. f_equal; [done|].
      rewrite filter_all; [etrans; [exact Hseq|]; f_equal; lia|].
      apply Forall_forall. intros d' [i Hi]%list_elem_of_lookup.
      assert ((d_sequence <$> ds) !! i = Some (d_sequence d')) as Hl by (by rewrite list_lookup_fmap, Hi).
      rewrite Hseq in Hl. apply lookup_seqZ in Hl as [Hl _]. lia.
    + rewrite (IH (floor + 1)); [f_equal; lia|lia|]. etrans; [exact Hseq|]. f_equal; lia.
Qed.

(** the change log is gap-free.  In a reachable state a reader at sequence
    [from] between the floor and the current sequence gets exactly the
    changes numbered [from + 1] to [sequence], in order; below the floor it is
    told to reset; and the log never exceeds its bound. *)
Theorem changes_since_complete P E (H : Persistence P E) (w : world P) from (s := w_store w) :
  reachable w → from ≤ sequence s →
  (if from <? deltaFloor s then changesSince s from = Err CONTROL_STORE_DELTA_HISTORY_RESET
   else ∃ ds, changesSince s from = Ok ds ∧ d_sequence <$> ds = seqZ (from + 1) (sequence s - from)) ∧
  Z.of_nat (length (deltas s)) ≤ maximumRetainedDeltas s.
Proof.
  intros Hw%reachable_inv Hfrom. fold s in Hw. destruct (si_deltas _ Hw) as (_ & _ & Hlen & Hseq & Htop).
  split; [|done]. unfold changesSince. destruct (Z.ltb_spec from (deltaFloor s)); [done|].
  eexists. split; [done|]. rewrite Htop. apply filter_seq; [lia|done].
Qed.

Lemma changes_since_complete_witness :
  ∃ ds, changesSince (w_store (run_null sample_commands fresh_null)) 4 = Ok ds ∧ d_sequence <$> ds = [5].
Proof.
  destruct (changes_since_complete unit Empty_set NullPersistence (run_null sample_commands fresh_null) 4
    sample_reachable) as [H _]; [vm_compute; discriminate|].
  replace (4 <? deltaFloor (w_store (run_null sample_commands fresh_null))) with false in H
    by (vm_compute; reflexivity).
  destruct H as (ds & H1 & H2). exists ds. split; [exact H1|]. etransitivity; [exact H2|]. vm_compute; reflexivity.
Defined.

(** ** Restart from a snapshot *)

(** A map whose keys are computed from its values is rebuilt from its values. *)
Lemma rebuild_map {K V} `{EqDecision K} (key : V → K) (m : jsmap K V) :
  map_wf m → (∀ k v, (k, v) ∈ m → k = key v) →
  foldl (λ m v, map_set (key v) v m) [] (map_values m) = m.
Proof.
  intros Hwf Hkey. rewrite <-(map_of_entries_id m Hwf) at 2. unfold map_of_entries, map_values.
  assert (Forall (λ kv, kv.1 = key kv.2) m) as Hall.
  { apply Forall_forall. intros [k v]. apply Hkey. }
  clear Hwf Hkey. generalize (@nil (K * V)) as acc. induction Hall as [|[k v] m Hk _ IH]; intros acc; [done|].
  simpl in *. rewrite Hk. apply IH.
Qed.

Lemma rebuild_cutoffs (m : jsmap jsstring Z) :
  map_wf m → (∀ k v, (k, v) ∈ m → ∃ id, k = idKey id) →
  foldl (λ m c, map_set (idKey (vc_validatorId c)) (vc_acceptedAboveMs c) m) []
    ((λ e, mkCutoff (key_bytes_of e.1) e.2) <$> m) = m.
Proof.
  intros Hwf Hkey. rewrite <-(map_of_entries_id m Hwf) at 2. unfold map_of_entries.
  assert (Forall (λ kv : jsstring * Z, idKey (key_bytes_of kv.1) = kv.1) m) as Hall.
  { apply Forall_forall. intros [k v] Hin. destruct (Hkey k v Hin) as [id ->]. simpl.
    unfold key_bytes_of, idKey. by rewrite base64url_decode_encode. }
  clear Hwf Hkey. generalize (@nil (jsstring * Z)) as acc.
  induction Hall as [|[k v] m Hk _ IH]; intros acc; [done|]. simpl in *. rewrite Hk. apply IH.
Qed.

Lemma trimDeltas_id s : Z.of_nat (length (deltas s)) ≤ maximumRetainedDeltas s → trimDeltas s = s.
Proof. intros H. unfold trimDeltas. rewrite (proj2 (Z.leb_le _ _)) by lia. done. Qed.

Lemma restore_state_snapshot s : store_inv s → restore_state (maximumRetainedDeltas s) (snapshot s) = s.
Proof.
  intros [[[Hc1 Hc2] ? [Ha1 [Ha2 Ha3]] [Hh1 Hh2] [Hv1 Hv2] [Hp1 Hp2] [Hr1 Hr2] ?] (?&?&Hlen&?&?)].
  unfold restore_state.
  cbn [ss_sequence ss_candidates ss_attestations ss_heartbeats ss_orderedTxIds ss_deltas ss_deltaFloor
    ss_materializedHead ss_checkpoints ss_historyReopenings ss_validatorCutoffs snapshot from_option id].
  unfold listCandidates, listValidatorCutoffs, orderedTransactionIds.
  rewrite (rebuild_map (λ c, idKey (sc_txId c))); [|exact Hc1|intros k c Hin; apply (Hc2 k c Hin)].
  rewrite (rebuild_map (λ a, idKey (sa_attestationId a))); [|exact Ha1|exact Ha2].
  rewrite (rebuild_map (λ h, heartbeatKey (sh_membershipRevision h) (sh_validatorId h)));
    [|exact Hh1|exact Hh2].
  rewrite rebuild_cutoffs; [|exact Hv1|exact Hv2].
  rewrite (rebuild_map cp_prefixLength); [|exact Hp1|intros k c Hin; apply (Hp2 k c Hin)].
  rewrite (rebuild_map hr_id); [|exact Hr1|exact Hr2].
  cbn [attestationsByTx attestations log_free set_deltas] in Ha3. rewrite <-Ha3.
  rewrite trimDeltas_id by exact Hlen. by destruct s.
Qed.

Lemma ascending_seq ds start : d_sequence <$> ds = seqZ start (Z.of_nat (length ds)) → ascending_sequences ds = true.
Proof.
  revert start. induction ds as [|d ds IH]; intros start Hseq; [done|].
  rewrite fmap_cons in Hseq. simpl length in Hseq. rewrite seqZ_cons in Hseq by lia.
  injection Hseq as Hd Hseq. destruct ds as [|d' ds]; [done|].
  assert (ascending_sequences (d' :: ds) = true) as Hrest.
  { apply (IH (Z.succ start)). etrans; [exact Hseq|]. f_equal. simpl length. lia. }
  change (ascending_sequences (d :: d' :: ds)) with
    ((d_sequence d <? d_sequence d') && ascending_sequences (d' :: ds)).
  rewrite Hrest, andb_true_r. apply Z.ltb_lt.
  simpl in Hseq. rewrite seqZ_cons in Hseq by lia. injection Hseq as Hd' _. lia.
Qed.

Lemma verify_deltas_inv s : delta_inv s → verify_deltas s = Ok tt.
Proof.
  intros (_ & _ & _ & Hseq & Htop). unfold verify_deltas. destruct (deltas s) as [|d ds] eqn:Hds.
  - simpl in Htop. by rewrite Htop, Z.add_0_r, Z.eqb_refl.
  - pose proof (ascending_seq _ _ Hseq) as Hasc. rewrite Hasc.
    assert (match list.last (d :: ds) with Some d0 => d_sequence d0 =? sequence s | None => true end = true) as ->.
    { destruct (list.last (d :: ds)) as [d'|] eqn:Hlast; [|done]. apply Z.eqb_eq.
      assert (list.last (d_sequence <$> d :: ds) = Some (d_sequence d')) as Hl by (by rewrite fmap_last, Hlast).
      rewrite Hseq, last_lookup, length_seqZ in Hl. apply lookup_seqZ in Hl as [Hl _].
      simpl length in *. lia. }
    rewrite fmap_cons in Hseq. simpl length in *. rewrite seqZ_cons in Hseq by lia. injection Hseq as Hd _.
    cbn [ensure mbind result_bind]. by rewrite Hd, Z.eqb_refl.
Qed.

(** The walk over the order, from any point of it. *)
Lemma verify_order_sorted s previous seen cs :
  Forall (λ c, requiredCandidate s (sc_txId c) = Ok c ∧ sc_state c = admissible) cs →
  StronglySorted (λ a b, compareCandidates a b < 0) cs →
  (∀ p, previous = Some p → Forall (λ c, compareCandidates p c < 0) cs) →
  (∀ c, c ∈ cs → set_has (idKey (sc_txId c)) seen = false) →
  NoDup (sc_txId <$> cs) →
  verify_order s previous seen (sc_txId <$> cs) = Ok tt.
Proof.
  intros Hall Hs. revert previous seen. induction Hs as [|c cs Hs IH Hc]; intros previous seen Hprev Hseen Hnd; [done|].
  apply Forall_cons in Hall as [[Hget Hst] Hall]. rewrite fmap_cons in *. apply NoDup_cons in Hnd as [Hnew Hnd].
  cbn [verify_order]. rewrite Hget. cbn [mbind result_bind]. rewrite bool_decide_eq_true_2 by done.
  cbn [ensure mbind result_bind]. rewrite Hseen by left. cbn [negb ensure mbind result_bind].
  replace (match previous with Some p => _ | None => true end) with true.
  - cbn [ensure mbind result_bind]. apply IH; [done| | |done].
    + by intros p [= <-].
    + intros c' Hc'. unfold set_has, set_add. apply map_has_false. rewrite map_get_set. case_decide as Heq.
      * apply (inj idKey) in Heq. destruct Hnew. rewrite <-Heq. apply list_elem_of_fmap. eauto.
      * apply map_has_false. apply Hseen. by right.
  - destruct previous as [p|]; [|done]. symmetry. apply Z.ltb_lt.
    by destruct (proj1 (Forall_cons _ _ _) (Hprev p eq_refl)).
Qed.

Lemma verify_order_inv s : store_inv s → verify_order s None [] (orderedTxIds s) = Ok tt.
Proof.
  intros Hs. change (orderedTxIds s) with (orderedTransactionIds s). rewrite (ordered_spec_ids s Hs).
  pose proof (orderedCandidates_spec s Hs) as Hord. unfold orderedCandidates in Hord.
  change (orderedTxIds s) with (orderedTransactionIds s) in Hord. rewrite (ordered_spec_ids s Hs) in Hord.
  apply mapR_Ok, Forall2_fmap_l, Forall2_diag_1 in Hord.
  apply verify_order_sorted; [| |done|done|].
  - apply Forall_forall. intros c Hc. rewrite Forall_forall in Hord. split; [exact (Hord c Hc)|].
    unfold spec_order in Hc. by apply elem_of_js_sort, list_elem_of_filter in Hc as [Hc _].
  - by apply spec_order_sorted.
  - rewrite <-(ordered_spec_ids s Hs). unfold orderedTransactionIds.
    change (orderedTxIds s) with (orderedTxIds (log_free s)). rewrite (fi_order _ (si_facts _ Hs)).
    pose proof (fi_candidates _ (si_facts _ Hs)) as Hc. apply NoDup_fmap_2_strong.
    + intros k1 k2 Hk1 Hk2 Heq. apply elem_of_js_sort, admissible_keys_elem in Hk1 as (c1 & G1 & <- & _); [|done].
      apply elem_of_js_sort, admissible_keys_elem in Hk2 as (c2 & G2 & <- & _); [|done].
      rewrite Heq in G1. congruence.
    + apply js_sort_NoDup. by apply admissible_keys_NoDup.
Qed.

(** C18: restart.  A store restored from its own snapshot is the same store,
    index and change log included, and none of the corruption checks fires. *)
Theorem restore_snapshot P E (H : Persistence P E) (w : world P) :
  reachable w →
  restore (maximumRetainedDeltas (w_store w)) (snapshot (w_store w)) = (w_store w, Ok tt).
Proof.
  intros Hw%reachable_inv. unfold restore. rewrite (restore_state_snapshot _ Hw). f_equal.
  unfold verifyRestoredOrder. rewrite (verify_deltas_inv _ (si_deltas _ Hw)). by apply verify_order_inv.
Qed.

Lemma restore_snapshot_witness :
  restore 2 (snapshot (w_store (run_null sample_commands fresh_null))) =
    (w_store (run_null sample_commands fresh_null), Ok tt).
Proof.
  apply (restore_snapshot unit Empty_set NullPersistence (run_null sample_commands fresh_null) sample_reachable).
Defined.
