(* ===== verification/Watermark.v ===== *)
(** * Watermarks of the control store

    A validator never attests a transaction at or below its announced cutoff.
    A cutoff is therefore safe for a policy when every set of validators that
    could form an admission proof contains one whose contiguous heartbeat is
    at or above it.  The theorems show that [watermark] computes the greatest
    safe cutoff, for threshold policies and for explicit proof alternatives,
    and reports none exactly when there is none. *)

From Stdlib Require Import Strings.Byte.
From stdpp Require Import base list option numbers sorting sets.
From S2P Require Import Prelude JsMap Bytes Base64 Domains StoreTypes ControlStore StoreInvariant.

#[local] Open Scope Z_scope.

(** ** Safe cutoffs *)

Section safety.
Context (s : ControlStore) (membershipRevision : option bytes).

(** The validator has announced [c] or more on a contiguous feed. *)
Definition announced (c : Z) (validatorId : bytes) : bool :=
  match contiguousHeartbeat s membershipRevision validatorId with
  | Some h => c <=? sh_acceptanceCutoffMs h
  | None => false
  end.

Definition covered (c : Z) (proof : list bytes) : Prop := ∃ v, v ∈ proof ∧ announced c v = true.

(** For a threshold policy every set of [k] distinct validators is a proof. *)
Definition threshold_safe (validatorIds : list bytes) (k : Z) (c : Z) : Prop :=
  ∀ proof, NoDup proof → proof ⊆ validatorIds → Z.of_nat (length proof) = k → covered c proof.

Definition alternatives_safe (proofs : list (list bytes)) (c : Z) : Prop := Forall (covered c) proofs.

(** The validators that do not cover [c]. *)
Definition silent (c : Z) (validatorIds : list bytes) : list bytes :=
  filter (λ v, announced c v = false) validatorIds.

Lemma threshold_safe_silent ids k c :
  NoDup ids → 0 ≤ k → threshold_safe ids k c ↔ Z.of_nat (length (silent c ids)) < k.
Proof.
  intros Hnd Hk. split.
  - intros Hsafe. destruct (Z_lt_le_dec (Z.of_nat (length (silent c ids))) k) as [|Hge]; [done|].
    destruct (Hsafe (take (Z.to_nat k) (silent c ids))) as (v & Hv & Hann).
    + apply (sublist_NoDup _ ids); [done|].
      etrans; [apply sublist_take|apply sublist_filter].
    + intros v Hv. apply (elem_of_sublist _ (silent c ids)) in Hv; [|apply sublist_take].
      by apply list_elem_of_filter in Hv as [_ Hv].
    + rewrite length_take. lia.
    + apply (elem_of_sublist _ (silent c ids)) in Hv; [|apply sublist_take].
      apply list_elem_of_filter in Hv as [Hv _]. congruence.
  - intros Hlt proof Hp Hsub Hlen.
    destruct (decide (Forall (λ v, announced c v = false) proof)) as [Hall|Hex].
    + exfalso. assert (length proof ≤ length (silent c ids))%nat; [|lia].
      apply submseteq_length, NoDup_submseteq; [done|]. intros v Hv. apply list_elem_of_filter.
      rewrite Forall_forall in Hall. split; [by apply Hall|by apply Hsub].
    + apply not_Forall_Exists in Hex; [|apply _]. apply Exists_exists in Hex as (v & Hv & Hann).
      exists v. split; [done|]. by apply not_false_iff_true.
Qed.

(** Counting the silent validators from the heartbeats that are available. *)
Definition available_of (validatorIds : list bytes) : list StoredHeartbeat :=
  omap id (contiguousHeartbeat s membershipRevision <$> validatorIds).

Lemma silent_count c ids :
  (length (silent c ids) + length (available_of ids) =
    length ids + length (filter (λ h, (sh_acceptanceCutoffMs h < c)%Z) (available_of ids)))%nat.
Proof.
  unfold silent, available_of. induction ids as [|v ids IH]; [done|].
  rewrite filter_cons, fmap_cons. set (l := contiguousHeartbeat s membershipRevision <$> ids) in *.
  change (omap id (contiguousHeartbeat s membershipRevision v :: l)) with
    (match contiguousHeartbeat s membershipRevision v with Some h => h :: omap id l | None => omap id l end).
  case_decide as Ha; unfold announced in Ha;
    destruct (contiguousHeartbeat s membershipRevision v) as [h|]; try done;
    rewrite ?filter_cons; simpl length.
  - rewrite decide_True by lia. simpl length. lia.
  - lia.
  - rewrite decide_False by lia. lia.
Qed.
End safety.

Lemma compareCutoffs_cmpZ a b :
  compareCutoffs a b = cmpZ (sh_acceptanceCutoffMs a) (sh_acceptanceCutoffMs b).
Proof. done. Qed.

Lemma compareCutoffs_comparator : Comparator compareCutoffs.
Proof. exact (comparator_on sh_acceptanceCutoffMs cmpZ). Qed.

(** In the ascending list, fewer than [i + 1] cutoffs lie below the one at
    position [i], and at least [i + 1] below anything greater. *)
Lemma sorted_cutoff_count (hs : list StoredHeartbeat) i h :
  StronglySorted (λ a b, compareCutoffs a b ≤ 0) hs → hs !! i = Some h →
  (length (filter (λ x, (sh_acceptanceCutoffMs x < sh_acceptanceCutoffMs h)%Z) hs) ≤ i)%nat ∧
  ∀ c, sh_acceptanceCutoffMs h < c →
    (i < length (filter (λ x, (sh_acceptanceCutoffMs x < c)%Z) hs))%nat.
Proof.
  intros Hs. revert i. induction Hs as [|x hs Hs IH Hx]; intros i Hi; [done|]. rewrite Forall_forall in Hx.
  assert (∀ y, y ∈ hs → sh_acceptanceCutoffMs x ≤ sh_acceptanceCutoffMs y) as Hle.
  { intros y Hy. specialize (Hx y Hy). rewrite compareCutoffs_cmpZ in Hx. unfold cmpZ in Hx.
    repeat case_match; lia. }
  destruct i as [|i]; simpl in Hi.
  - injection Hi as ->. split.
    + rewrite filter_cons, decide_False by lia.
      assert (filter (λ y, sh_acceptanceCutoffMs y < sh_acceptanceCutoffMs h) hs = []) as ->; [|done].
      apply filter_none, Forall_forall. intros y Hy. specialize (Hle y Hy). lia.
    + intros c Hc. rewrite filter_cons, decide_True by done. simpl. lia.
  - destruct (IH i Hi) as [H1 H2]. split.
    + rewrite filter_cons. case_decide; simpl; lia.
    + intros c Hc. specialize (H2 c Hc). rewrite filter_cons.
      assert (sh_acceptanceCutoffMs x ≤ sh_acceptanceCutoffMs h) by (apply Hle; by eapply list_elem_of_lookup_2).
      rewrite decide_True by lia. simpl. lia.
Qed.

(** The duplicate check of the threshold policy. *)
Lemma set_size_NoDup (ids : list bytes) :
  length (foldl (λ set id, set_add (idKey id) set) [] ids) = length ids ↔ NoDup ids.
Proof.
  assert (∀ acc : jsset jsstring,
    let r := foldl (λ set id, set_add (idKey id) set) acc ids in
    (length r ≤ length acc + length ids)%nat ∧
    (length r = (length acc + length ids)%nat ↔ NoDup ids ∧ ∀ id, id ∈ ids → idKey id ∉ map_keys acc)) as Hgen.
  { induction ids as [|x ids IH]; intros acc; simpl.
    { split; [lia|]. split; [|lia]. intros _. split; [constructor|]. by intros id ?%elem_of_nil. }
    change (set_add (idKey x) acc) with (map_set (idKey x) tt acc).
    destruct (map_get (idKey x) acc) as [u|] eqn:Hx.
    - assert (length (map_set (idKey x) tt acc) = length acc) as Hlen.
      { destruct (map_set_split (idKey x) u tt acc Hx) as (l1 & l2 & -> & ->). by rewrite !length_app. }
      destruct (IH (map_set (idKey x) tt acc)) as [H1 H2]. rewrite Hlen in *. split; [lia|].
      split; [lia|]. intros [_ Hnew]. destruct (Hnew x); [left|].
      apply map_get_Some_elem in Hx. by apply (list_elem_of_fmap_2 fst) in Hx.
    - assert (map_set (idKey x) tt acc = acc ++ [(idKey x, tt)]) as Hset by by apply map_set_fresh.
      destruct (IH (map_set (idKey x) tt acc)) as [H1 H2]. rewrite Hset in *. rewrite length_app in *. simpl in *.
      split; [lia|]. replace (length acc + S (length ids))%nat with (length acc + 1 + length ids)%nat by lia.
      rewrite H2. unfold map_keys. rewrite fmap_app, NoDup_cons. apply map_get_None in Hx. split.
      + intros [Hnd Hk]. split_and!; [|done|].
        * intros Hin. apply (Hk x Hin). set_solver.
        * intros id [->|Hid]%elem_of_cons; [done|]. specialize (Hk id Hid). set_solver.
      + intros [[Hnin Hnd] Hk]. split; [done|]. intros id Hid. rewrite not_elem_of_app. split; [apply Hk; by right|].
        simpl. rewrite list_elem_of_singleton. intros Heq%(inj idKey). by subst. }
  destruct (Hgen []) as [_ H]. simpl in H. rewrite H. split; [tauto|]. intros Hnd. split; [done|].
  intros id _ ?%elem_of_nil. done.
Qed.

(** ** Threshold policies *)

Definition valid_threshold (validatorIds : list bytes) (k : Z) : Prop :=
  1 ≤ k ≤ Z.of_nat (length validatorIds) ∧ k ≤ MAX_SAFE_INTEGER ∧ NoDup validatorIds.

Lemma threshold_guard ids k :
  negb (Z.abs k <=? MAX_SAFE_INTEGER) || (k <? 1) || (Z.of_nat (length ids) <? k) ||
    negb (length (foldl (λ set id, set_add (idKey id) set) [] ids) =? length ids)%nat = false ↔
  valid_threshold ids k.
Proof.
  unfold valid_threshold. rewrite !orb_false_iff, !negb_false_iff, Nat.eqb_eq, set_size_NoDup,
    Z.leb_le, !Z.ltb_ge. unfold MAX_SAFE_INTEGER. split; intros; destruct_and!; split_and!; (done || lia).
Qed.

Lemma omap_id_length {A} (l : list (option A)) : (length (omap id l) ≤ length l)%nat.
Proof. induction l as [|[x|] l IH]; [done|by apply le_n_S|by apply le_S]. Qed.

(** The evidence computed from the number of silent validators. *)
Lemma thresholdWatermark_cutoff s policyId ids k rev :
  valid_threshold ids k →
  match we_cutoffMs (thresholdWatermark s policyId ids k rev) with
  | Some c => Z.of_nat (length (silent s rev c ids)) < k ∧
      ∀ c', c < c' → k ≤ Z.of_nat (length (silent s rev c' ids))
  | None => ∀ c, k ≤ Z.of_nat (length (silent s rev c ids))
  end ∧ we_explanation (thresholdWatermark s policyId ids k rev) ≠ invalid_policy.
Proof.
  intros Hvalid. pose proof Hvalid as ((Hk1 & Hkn) & _ & _). unfold thresholdWatermark.
  rewrite (proj2 (threshold_guard ids k) Hvalid). cbv zeta. rewrite length_fmap.
  fold (available_of s rev ids). set (available := js_sort compareCutoffs (available_of s rev ids)).
  assert (length available = length (available_of s rev ids)) as Hlen by apply js_sort_length.
  assert (∀ c, length (filter (λ h, (sh_acceptanceCutoffMs h < c)%Z) available) =
    length (filter (λ h, (sh_acceptanceCutoffMs h < c)%Z) (available_of s rev ids))) as Hfilter.
  { intros c. unfold available. by rewrite js_sort_perm. }
  pose proof (λ c, silent_count s rev c ids) as Hcount.
  assert (length (available_of s rev ids) ≤ length ids)%nat as Havail.
  { unfold available_of. rewrite <-(length_fmap (contiguousHeartbeat s rev) ids). apply omap_id_length. }
  destruct (_ || _) eqn:Hidx.
  - split; [|done]. intros c. specialize (Hcount c). apply orb_true_iff in Hidx as [Hidx%Z.ltb_lt|Hidx%Z.leb_le]; lia.
  - apply orb_false_iff in Hidx as [Hidx1%Z.ltb_ge Hidx2%Z.leb_gt].
    set (i := Z.to_nat _). destruct (lookup_lt_is_Some_2 available i) as [h Hh]; [lia|]. rewrite Hh.
    split; [|done]. cbn [we_cutoffMs established_watermark].
    destruct (sorted_cutoff_count available i h) as [H1 H2]; [|done|].
    { apply (js_sort_sorted _ (Comparator0:=compareCutoffs_comparator)). }
    rewrite Hfilter in H1. split.
    + specialize (Hcount (sh_acceptanceCutoffMs h)). lia.
    + intros c' Hc'. specialize (Hcount c'). specialize (H2 c' Hc'). rewrite Hfilter in H2. lia.
Qed.

(** C9: threshold watermark.  For a valid k-of-n policy the established cutoff
    is safe (every k validators include one that announced it on a contiguous
    feed) and it is the greatest safe one; when none is established, no
    cutoff is safe. *)
Theorem threshold_watermark_greatest s policyId ids k rev :
  valid_threshold ids k →
  match we_cutoffMs (watermark s (threshold_policy policyId ids k) rev) with
  | Some c => threshold_safe s rev ids k c ∧ ∀ c', threshold_safe s rev ids k c' → c' ≤ c
  | None => ∀ c, ¬ threshold_safe s rev ids k c
  end ∧ we_explanation (watermark s (threshold_policy policyId ids k) rev) ≠ invalid_policy.
Proof.
  intros Hvalid. destruct (thresholdWatermark_cutoff s policyId ids k rev Hvalid) as [Hc Hexp].
  split; [|done]. cbn [watermark]. destruct Hvalid as (Hk & _ & Hnd).
  destruct (we_cutoffMs _) as [c|].
  - destruct Hc as [H1 H2]. split; [apply threshold_safe_silent; [done|lia|done]|].
    intros c' Hsafe. apply threshold_safe_silent in Hsafe; [|done|lia].
    destruct (Z_lt_le_dec c c') as [Hlt|]; [|lia]. specialize (H2 c' Hlt). lia.
  - intros c Hsafe. apply threshold_safe_silent in Hsafe; [|done|lia]. specialize (Hc c). lia.
Qed.

(** Three validators, two of which have sent heartbeats. *)
Definition sample_store : ControlStore :=
  set_heartbeats
    [(heartbeatKey [x00] [x01], mkStoredHeartbeat [xa1] [x01] [] [x00] 1 50 true);
     (heartbeatKey [x00] [x02], mkStoredHeartbeat [xa2] [x02] [] [x00] 1 70 true)] (empty_store 8).

Lemma threshold_watermark_greatest_witness :
  we_cutoffMs (watermark sample_store (threshold_policy [] [[x01]; [x02]; [x03]] 2) (Some [x00])) = Some 50 ∧
  threshold_safe sample_store (Some [x00]) [[x01]; [x02]; [x03]] 2 50.
Proof.
  split; [vm_compute; reflexivity|].
  destruct (threshold_watermark_greatest sample_store [] [[x01]; [x02]; [x03]] 2 (Some [x00])) as [H _].
  { split; [split; vm_compute; discriminate|]. split; [vm_compute; discriminate|].
    apply set_size_NoDup. vm_compute; reflexivity. }
  replace (we_cutoffMs (watermark sample_store (threshold_policy [] [[x01]; [x02]; [x03]] 2) (Some [x00])))
    with (Some 50) in H by (vm_compute; reflexivity).
  exact (proj1 H).
Defined.

(** ** Proof alternatives *)

Lemma bestHeartbeat_spec s rev proof :
  match bestHeartbeat s rev proof with
  | None => ∀ c, ¬ covered s rev c proof
  | Some best => ∀ c, covered s rev c proof ↔ c ≤ sh_acceptanceCutoffMs best
  end.
Proof.
  unfold bestHeartbeat. induction proof as [|v proof IH] using rev_ind.
  { simpl. intros c (v & ?%elem_of_nil & _). done. }
  rewrite foldl_app. simpl.
  assert (∀ c, covered s rev c (proof ++ [v]) ↔ covered s rev c proof ∨ announced s rev c v = true) as Hcov.
  { intros c. unfold covered. split.
    - intros (v' & [Hv|Heq%list_elem_of_singleton]%elem_of_app & Ha); [eauto|subst; eauto].
    - intros [(v' & Hv & Ha)|Ha]; [exists v'|exists v]; rewrite elem_of_app, list_elem_of_singleton; auto. }
  unfold announced in Hcov. destruct (contiguousHeartbeat s rev v) as [h|].
  - destruct (foldl _ None proof) as [b|].
    + destruct (Z.ltb_spec (sh_acceptanceCutoffMs b) (sh_acceptanceCutoffMs h)); intros c;
        rewrite Hcov, IH, Z.leb_le; lia.
    + intros c. rewrite Hcov, Z.leb_le. specialize (IH c). tauto.
  - destruct (foldl _ None proof) as [b|]; intros c; rewrite Hcov; [rewrite IH|specialize (IH c)]; naive_solver.
Qed.

Lemma proofs_cutoff_spec s rev proofs cutoff selected :
  match proofs_cutoff s rev proofs cutoff selected with
  | None => ∀ c, ¬ alternatives_safe s rev proofs c
  | Some (c0, _) => match c0 with
      | Some m => ∀ c, alternatives_safe s rev proofs c ∧ match cutoff with Some k => c ≤ k | None => True end ↔ c ≤ m
      | None => proofs = [] ∧ cutoff = None
      end
  end.
Proof.
  unfold alternatives_safe. revert cutoff selected.
  induction proofs as [|proof proofs IH]; intros cutoff selected; simpl.
  { destruct cutoff as [k|]; [|done]. intros c. rewrite Forall_nil. tauto. }
  pose proof (bestHeartbeat_spec s rev proof) as Hbest. destruct (bestHeartbeat s rev proof) as [b|].
  2: { intros c [H _]%Forall_cons. by apply (Hbest c). }
  match goal with |- context [proofs_cutoff s rev proofs ?x ?y] => specialize (IH x y);
    destruct (proofs_cutoff s rev proofs x y) as [[[m|] sel]|] end.
  - intros c. rewrite <-IH, Forall_cons, Hbest. destruct cutoff as [k|]; [|tauto].
    destruct (Z.ltb_spec (sh_acceptanceCutoffMs b) k); split; intros; destruct_and!; split_and!; (done || lia).
  - destruct IH as [_ IH]. destruct cutoff; [by case_match|done].
  - intros c [_ H]%Forall_cons. by apply (IH c).
Qed.

(** explicit proof alternatives.  The established cutoff is covered by
    every alternative and is the greatest such; when none is established for
    a well-formed policy, no cutoff is covered by every alternative. *)
Theorem alternatives_watermark_greatest s policyId proofs rev :
  proofs ≠ [] → [] ∉ proofs →
  match we_cutoffMs (watermark s (proof_alternatives policyId proofs) rev) with
  | Some c => ∀ c', alternatives_safe s rev proofs c' ↔ c' ≤ c
  | None => ∀ c, ¬ alternatives_safe s rev proofs c
  end.
Proof.
  intros Hne Hnil. cbn [watermark].
  replace ((length proofs =? 0)%nat || _) with false.
  - pose proof (proofs_cutoff_spec s rev proofs None []) as H.
    destruct (proofs_cutoff s rev proofs None []) as [[[m|] sel]|].
    + cbn [we_cutoffMs established_watermark]. intros c'. rewrite <-H. tauto.
    + by destruct H.
    + done.
  - symmetry. apply orb_false_iff. split; [by destruct proofs|].
    apply not_true_iff_false. intros (p & Hp%list_elem_of_In & Hlen%Nat.eqb_eq)%existsb_exists.
    by apply nil_length_inv in Hlen as ->.
Qed.

Lemma alternatives_watermark_greatest_witness :
  alternatives_safe sample_store (Some [x00]) [[[x01]; [x03]]; [[x02]]] 50.
Proof.
  pose proof (alternatives_watermark_greatest sample_store [] [[[x01]; [x03]]; [[x02]]] (Some [x00])) as H.
  replace (we_cutoffMs (watermark sample_store (proof_alternatives [] [[[x01]; [x03]]; [[x02]]]) (Some [x00])))
    with (Some 50) in H by (vm_compute; reflexivity).
  apply H; [discriminate| |reflexivity].
  intros [Heq|[Heq|Hin%elem_of_nil]%elem_of_cons]%elem_of_cons; [discriminate Heq|discriminate Heq|exact Hin].
Defined.
