(* ===== verification/JsNumber.v ===== *)
(** * JavaScript numbers: sums of integers, and their decimal notation

    [String(n)] and [`${n}`] for integers and bigints, as the code base uses
    it in keys, messages and canonical texts, with its inverse on digit
    strings. *)

From stdpp Require Import base list option numbers.
From S2P Require Import Prelude Bytes.

#[local] Open Scope Z_scope.

(** ** Sums of integers in doubles *)

(** The double nearest to an integer, the even one of two as near: 53 bits of
    precision.  The integers a number holds stay far below the largest double. *)
Definition round_double (n : Z) : Z :=
  let a := Z.abs n in
  let unit := 2 ^ Z.max 0 (Z.log2 a - 52) in
  let q := a / unit in
  let r := a mod unit in
  let up := if 2 * r <? unit then false else if unit <? 2 * r then true else negb (Z.even q) in
  Z.sgn n * ((if up then q + 1 else q) * unit).

Definition js_add (a b : Z) : Z := round_double (a + b).
Definition js_sub (a b : Z) : Z := round_double (a - b).

Lemma round_double_exact n : Z.abs n ≤ 2 ^ 53 → round_double n = n.
Proof.
  intros Hn. unfold round_double. destruct (decide (Z.abs n = 2 ^ 53)) as [Heq|Hne].
  - assert (n = 2 ^ 53 ∨ n = - 2 ^ 53) as [-> | ->] by lia; vm_compute; reflexivity.
  - assert (Z.log2 (Z.abs n) < 53) as Hl.
    { destruct (decide (Z.abs n = 0)) as [->|]; [done|]. apply Z.log2_lt_pow2; [|change (2 ^ 53) with 9007199254740992 in *]; lia. }
    rewrite Z.max_l by lia. change (2 ^ 0) with 1. rewrite Z.div_1_r, Z.mod_1_r. cbn. rewrite Z.mul_1_r, Z.mul_comm. apply Z.abs_sgn.
Qed.

Lemma round_double_large n : 2 ^ 53 ≤ n → 2 ^ 53 ≤ round_double n.
Proof.
  intros Hn. unfold round_double. rewrite Z.abs_eq, Z.sgn_pos, Z.mul_1_l by lia.
  assert (53 ≤ Z.log2 n) as Hl by (apply Z.log2_le_pow2; lia). rewrite Z.max_r by lia.
  set (unit := 2 ^ (Z.log2 n - 52)). assert (2 ^ Z.log2 n = 2 ^ 52 * unit) as Hu by (unfold unit; rewrite <- Z.pow_add_r by lia; f_equal; lia).
  assert (0 < unit) by (apply Z.pow_pos_nonneg; lia). pose proof (Z.log2_spec n ltac:(lia)) as [Hlow _].
  assert (2 ^ 52 ≤ n / unit) by (apply Z.div_le_lower_bound; lia).
  assert (2 ≤ unit) by (unfold unit; change 2 with (2 ^ 1) at 1; apply Z.pow_le_mono_r; lia).
  destruct (if 2 * _ <? _ then _ else _); nia.
Qed.

(** ** Decimal notation *)

(** Most significant digit first; one unit of fuel per digit. *)
Fixpoint digits (fuel : nat) (n : Z) : jsstring :=
  match fuel with
  | O => []
  | S fuel' => if n <? 10 then [48 + n] else digits fuel' (n / 10) ++ [48 + n mod 10]
  end.

(** A number has at most as many decimal as binary digits. *)
Definition digits_fuel (n : Z) : nat := Z.to_nat (Z.log2 n + 1).

Definition js_decimal (n : Z) : jsstring :=
  if n <? 0 then 45 :: digits (digits_fuel (- n)) (- n) else digits (digits_fuel n) n.

Definition is_digit (c : Z) : bool := (48 <=? c) && (c <=? 57).

Definition digits_value (s : jsstring) : Z := foldl (λ acc c, acc * 10 + (c - 48)) 0 s.

Lemma digits_fuel_enough n : 0 ≤ n → n < 10 ^ Z.of_nat (digits_fuel n).
Proof.
  intros Hn. unfold digits_fuel. pose proof (Z.log2_nonneg n). rewrite Z2Nat.id by lia.
  destruct (decide (n = 0)) as [->|Hne]; [done|].
  apply Z.lt_le_trans with (2 ^ (Z.log2 n + 1)).
  - rewrite Z.add_1_r. apply Z.log2_spec. lia.
  - apply Z.pow_le_mono_l. lia.
Qed.

Lemma digits_spec fuel n :
  0 ≤ n < 10 ^ Z.of_nat fuel →
  digits_value (digits fuel n) = n ∧ forallb is_digit (digits fuel n) = true ∧ (fuel ≠ O → digits fuel n ≠ []).
Proof.
  revert n. induction fuel as [|fuel IH]; intros n Hn.
  { simpl in *. split_and!; [|done|done]. unfold digits_value. simpl. change (10 ^ 0) with 1 in Hn. lia. }
  cbn [digits]. destruct (Z.ltb_spec n 10).
  - split_and!; [unfold digits_value; simpl; lia|simpl; unfold is_digit; lia|done].
  - destruct (IH (n / 10)) as (H1 & H2 & _).
    { split; [apply Z.div_pos; lia|]. apply Z.div_lt_upper_bound; [lia|].
      rewrite Nat2Z.inj_succ, Z.pow_succ_r in Hn by lia. lia. }
    split_and!.
    + unfold digits_value in *. rewrite foldl_app, H1. simpl. Z.to_euclidean_division_equations; lia.
    + rewrite forallb_app, H2. simpl. unfold is_digit. Z.to_euclidean_division_equations; lia.
    + intros _ Heq. by apply app_nil in Heq as [_ ?].
Qed.

(** No leading zeros. *)
Lemma digits_head fuel n c l : 0 ≤ n < 10 ^ Z.of_nat fuel → digits fuel n = c :: l → c = 48 → n = 0.
Proof.
  revert n l. induction fuel as [|fuel IH]; intros n l Hn; [done|]. cbn [digits]. destruct (Z.ltb_spec n 10).
  - intros [= <- _]. lia.
  - assert (0 ≤ n / 10 < 10 ^ Z.of_nat fuel) as Hq.
    { split; [apply Z.div_pos; lia|]. apply Z.div_lt_upper_bound; [lia|].
      rewrite Nat2Z.inj_succ, Z.pow_succ_r in Hn by lia. lia. }
    assert (1 ≤ n / 10) by (apply Z.div_le_lower_bound; lia).
    destruct (digits fuel (n / 10)) as [|c' l'] eqn:Hd.
    + destruct fuel; [|by destruct (digits_spec (S fuel) (n / 10)) as (_ & _ & []); [..|done]].
      change (10 ^ Z.of_nat 0) with 1 in Hq. lia.
    + intros [= -> <-] ->. specialize (IH _ _ Hq Hd eq_refl). lia.
Qed.

Lemma js_decimal_nonneg n :
  0 ≤ n → digits_value (js_decimal n) = n ∧ forallb is_digit (js_decimal n) = true ∧ js_decimal n ≠ [].
Proof.
  intros Hn. unfold js_decimal. rewrite (proj2 (Z.ltb_ge n 0)) by lia.
  destruct (digits_spec (digits_fuel n) n) as (H1 & H2 & H3); [split; [done|by apply digits_fuel_enough]|].
  split_and!; [done|done|]. apply H3. unfold digits_fuel. pose proof (Z.log2_nonneg n). lia.
Qed.

Lemma js_decimal_inj n m : 0 ≤ n → 0 ≤ m → js_decimal n = js_decimal m → n = m.
Proof.
  intros Hn Hm H. apply (f_equal digits_value) in H.
  destruct (js_decimal_nonneg n Hn) as [H1 _], (js_decimal_nonneg m Hm) as [H2 _]. congruence.
Qed.

(** A run of digits followed by a non-digit is read off in only one way. *)
Lemma digits_prefix_inj (a b r t : jsstring) c d :
  forallb is_digit a = true → forallb is_digit b = true → is_digit c = false → is_digit d = false →
  a ++ c :: r = b ++ d :: t → a = b ∧ c = d ∧ r = t.
Proof.
  revert b. induction a as [|x a IH]; intros [|y b] Ha Hb Hc Hd Heq; simpl in *.
  - by injection Heq as -> ->.
  - injection Heq as -> _. apply andb_true_iff in Hb as [Hb _]. congruence.
  - injection Heq as -> _. apply andb_true_iff in Ha as [Ha _]. congruence.
  - injection Heq as -> Heq. apply andb_true_iff in Ha as [_ Ha]. apply andb_true_iff in Hb as [_ Hb].
    destruct (IH b) as (-> & -> & ->); done.
Qed.

Lemma js_decimal_prefix_inj n m (r t : jsstring) c d :
  0 ≤ n → 0 ≤ m → is_digit c = false → is_digit d = false →
  js_decimal n ++ c :: r = js_decimal m ++ d :: t → n = m ∧ c = d ∧ r = t.
Proof.
  intros Hn Hm Hc Hd Heq.
  apply digits_prefix_inj in Heq as (H & -> & ->); [|by apply js_decimal_nonneg..|done|done].
  split; [by apply js_decimal_inj|done].
Qed.
