(* ===== verification/CapTypes.v ===== *)
(** * Capability data: [packages/capabilities/src/types.ts]

    Grants, validation policies, genesis and revision records, the snapshot a
    capability log reduces to, and recovery records. *)

From Stdlib Require Import Strings.Byte.
From stdpp Require Import base list option numbers.
From S2P Require Import Prelude JsMap Bytes.

#[local] Open Scope Z_scope.

Inductive CapabilityRole := reader | writer | validator | administrator | schema_administrator.
Inductive ReaderHistoryScope := scope_snapshot | scope_audit.

#[export] Instance CapabilityRole_eq_dec : EqDecision CapabilityRole.
Proof. solve_decision. Defined.
#[export] Instance ReaderHistoryScope_eq_dec : EqDecision ReaderHistoryScope.
Proof. solve_decision. Defined.

Record CapabilityGrant := mkGrant {
  g_subjectId : bytes;
  g_signingPublicKey : bytes;
  g_transportAuthor : option jsstring;
  g_role : CapabilityRole;
  g_validFromRevision : Z;
  g_validUntilRevision : option Z;
  g_organization : option jsstring;
  g_validatorClass : option jsstring;
  g_minimumAuthorTimestampMs : option Z;
  g_readerScope : option ReaderHistoryScope;
  g_hpkePublicKey : option bytes;
}.

Record ValidationPolicy := mkPolicy {
  vp_version : Z;
  vp_minimumValidators : Z;
  vp_classMinimums : jsmap jsstring Z;
  vp_requiredOrganizations : list jsstring;
}.

Record ClockPolicy := mkClock {
  ck_maxFutureSkewMs : Z;
  ck_cutoffLagMs : Z;
  ck_heartbeatIntervalMs : Z;
}.

Record ResourcePolicy := mkResource {
  rp_maxCandidateBytes : Z;
  rp_maxProgramNodes : Z;
  rp_maxPreconditions : Z;
  rp_maxMutations : Z;
}.

Record GenesisManifest := mkGenesis {
  gm_groupId : bytes;
  gm_schemaId : bytes;
  gm_rootAdminPublicKey : bytes;
  gm_capabilityLogFeed : bytes;
  gm_recoveryPublicKeys : list bytes;
  gm_recoveryThreshold : Z;
  gm_initialCapabilities : list CapabilityGrant;
  gm_validationPolicies : list ValidationPolicy;
  gm_clockPolicy : ClockPolicy;
  gm_resourcePolicy : ResourcePolicy;
  gm_encryptionSuite : jsstring;
  gm_createdAtMs : Z;
}.

Record SignedGenesis := mkSignedGenesis { sg_manifest : GenesisManifest; sg_signature : bytes }.

Record CapabilityRevision := mkRevision {
  cr_groupId : bytes;
  cr_revision : Z;
  cr_previousRevisionDigest : bytes;
  cr_issuerRootPublicKey : bytes;
  cr_grants : list CapabilityGrant;
  cr_revocations : list bytes;
  cr_validationPolicies : list ValidationPolicy;
  cr_successorRootPublicKey : option bytes;
  cr_successorCapabilityLogFeed : option bytes;
}.

Record SignedCapabilityRevision := mkSignedRevision { sr_revision : CapabilityRevision; sr_signature : bytes }.

Record EffectiveCapability := mkEffective {
  ec_id : bytes;
  ec_grant : CapabilityGrant;
  ec_grantedAtRevision : Z;
  ec_revokedAtRevision : option Z;
}.

Record EffectivePolicy := mkEffectivePolicy {
  ep_id : bytes;
  ep_policy : ValidationPolicy;
  ep_installedAtRevision : Z;
}.

Record CapabilitySnapshot := mkCapSnapshot {
  cs_groupId : bytes;
  cs_revision : Z;
  cs_revisionDigest : bytes;
  cs_rootAdminPublicKey : bytes;
  cs_capabilityLogFeed : bytes;
  cs_capabilities : jsmap jsstring EffectiveCapability;
  cs_policies : jsmap jsstring EffectivePolicy;
  cs_recoveryPublicKeys : list bytes;
  cs_recoveryThreshold : Z;
  cs_historyReopened : bool;
  cs_recoveryEventDigest : option bytes;
}.

Record ValidatorEvidence := mkEvidence {
  ev_capabilityId : bytes;
  ev_validatorId : bytes;
  ev_organization : option jsstring;
  ev_validatorClass : option jsstring;
}.

#[export] Instance ValidatorEvidence_eq_dec : EqDecision ValidatorEvidence.
Proof. solve_decision. Defined.

Record PolicyEvaluation := mkPolicyEvaluation {
  pe_satisfied : bool;
  pe_selected : list ValidatorEvidence;
  pe_missing : list jsstring;
}.

Record RecoveryPayload := mkRecoveryPayload {
  ry_groupId : bytes;
  ry_lastRevision : Z;
  ry_lastRevisionDigest : bytes;
  ry_newRevision : Z;
  ry_newRootPublicKey : bytes;
  ry_newCapabilityLogFeed : bytes;
  ry_validatorGrants : list CapabilityGrant;
  ry_reopenHistory : bool;
  ry_reopeningReason : option jsstring;
}.

Record RecoverySignature := mkRecoverySignature { rs_recoveryKeyIndex : Z; rs_signature : bytes }.

Record RecoveryRecord := mkRecoveryRecord {
  rr_payload : RecoveryPayload;
  rr_signatures : list RecoverySignature;
}.
