(* ===== verification/Policy.v ===== *)
(** * The validation-policy solver: [packages/capabilities/src/policy.ts]

    [evaluateValidationPolicy] decides whether the attesting validators
    satisfy a policy (a minimum number, minimums per class, required
    organizations) and, by dynamic programming over capped counts, selects the
    smallest satisfying proof, the lexicographically first one among equals. *)

From Stdlib Require Import Strings.Byte Strings.String.
From stdpp Require Import base list option numbers.
From S2P Require Import Prelude JsMap Bytes Text JsNumber CapTypes.

#[local] Open Scope Z_scope.

(** [[...l].sort((a, b) => compareBytes(utf8(name(a)), utf8(name(b))))]: with at
    least two elements the comparator sees every name, and [utf8] throws on
    an unpaired surrogate. *)
Definition sort_by_name {A} (name : A → jsstring) (l : list A) : result ErrorCode (list A) :=
  match l with
  | [] | [_] => Ok l
  | _ =>
      keyed ← mapR (λ x, b ← utf8 (name x); Ok (b, x)) l;
      Ok ((js_sort (λ x y, compareBytes x.1 y.1) keyed).*2)
  end.

Definition count_class (className : jsstring) (evidence : list ValidatorEvidence) : Z :=
  Z.of_nat (length (filter (λ item, ev_validatorClass item = Some className) evidence)).

Definition has_organization (organization : jsstring) (evidence : list ValidatorEvidence) : bool :=
  existsb (λ item, bool_decide (ev_organization item = Some organization)) evidence.

Definition class_missing (evidence : list ValidatorEvidence) (c : jsstring * Z) : list jsstring :=
  let count := count_class c.1 evidence in
  if count <? c.2 then [js "class:" ++ c.1 ++ js ":" ++ js_decimal (c.2 - count)] else [].

Definition organization_missing (evidence : list ValidatorEvidence) (organization : jsstring) : list jsstring :=
  if has_organization organization evidence then [] else [js "organization:" ++ organization].

Definition validators_missing (policy : ValidationPolicy) (evidence : list ValidatorEvidence) : list jsstring :=
  let n := Z.of_nat (length evidence) in
  if n <? vp_minimumValidators policy
  then [js "validators:" ++ js_decimal (vp_minimumValidators policy - n)] else [].

Definition missingConstraints (policy : ValidationPolicy) (evidence : list ValidatorEvidence) :
    result ErrorCode (list jsstring) :=
  classes ← sort_by_name fst (vp_classMinimums policy);
  organizations ← sort_by_name (λ o, o) (vp_requiredOrganizations policy);
  Ok (validators_missing policy evidence ++ mjoin (class_missing evidence <$> classes) ++
      mjoin (organization_missing evidence <$> organizations)).

(** Fewer first, then the capability ids in order. *)
Fixpoint compare_ids (left right : list ValidatorEvidence) : Z :=
  match left, right with
  | l :: left', r :: right' =>
      let order := compareBytes (ev_capabilityId l) (ev_capabilityId r) in
      if negb (order =? 0) then order else compare_ids left' right'
  | _, _ => 0
  end.

Definition selectionOrder (left right : list ValidatorEvidence) : Z :=
  if negb (length left =? length right)%nat then Z.of_nat (length left) - Z.of_nat (length right)
  else compare_ids left right.

(** [parts.join(separator)] *)
Fixpoint js_join (separator : jsstring) (parts : list jsstring) : jsstring :=
  match parts with
  | [] => []
  | [x] => x
  | x :: parts' => x ++ separator ++ js_join separator parts'
  end.

Definition class_key (evidence : list ValidatorEvidence) (c : jsstring * Z) : jsstring :=
  let count := count_class c.1 evidence in
  c.1 ++ js ":" ++ js_decimal (if count <? c.2 then count else c.2).

Definition organization_key (evidence : list ValidatorEvidence) (name : jsstring) : jsstring :=
  if has_organization name evidence then js "1" else js "0".

Definition stateKey (policy : ValidationPolicy) (evidence : list ValidatorEvidence) : result ErrorCode jsstring :=
  let total := Z.min (Z.of_nat (length evidence)) (vp_minimumValidators policy) in
  sorted_classes ← sort_by_name fst (vp_classMinimums policy);
  sorted_organizations ← sort_by_name (λ o, o) (vp_requiredOrganizations policy);
  let classes := class_key evidence <$> sorted_classes in
  let organizations := organization_key evidence <$> sorted_organizations in
  Ok (js_decimal total ++ js "|" ++ js_join (js ",") classes ++ js "|" ++ js_join [] organizations).

Definition compareEvidence (left right : ValidatorEvidence) : Z :=
  let capabilityOrder := compareBytes (ev_capabilityId left) (ev_capabilityId right) in
  if negb (capabilityOrder =? 0) then capabilityOrder
  else compareBytes (ev_validatorId left) (ev_validatorId right).

Definition compareCapabilityIds (a b : ValidatorEvidence) : Z :=
  compareBytes (ev_capabilityId a) (ev_capabilityId b).

Definition add_unique (unique : jsmap jsstring ValidatorEvidence) (item : ValidatorEvidence) :
    jsmap jsstring ValidatorEvidence :=
  let capabilityKey := bytesToHex (ev_capabilityId item) in
  if map_has capabilityKey unique then unique else map_set capabilityKey item unique.

(** The first item of every capability, sorted by capability. *)
Definition unique_evidence (evidence : list ValidatorEvidence) : list ValidatorEvidence :=
  let canonicalEvidence := js_sort compareEvidence evidence in
  let uniqueCapabilities := foldl add_unique [] canonicalEvidence in
  js_sort compareCapabilityIds (map_values uniqueCapabilities).

Abbreviation solver_states := (jsmap jsstring (list ValidatorEvidence)).

(** One candidate against the table under construction. *)
Definition offer (policy : ValidationPolicy) (item : ValidatorEvidence) (next : solver_states)
    (selected : list ValidatorEvidence) : result ErrorCode solver_states :=
  let candidate := selected ++ [item] in
  key ← stateKey policy candidate;
  Ok (if match map_get key next with
         | None => true
         | Some existing => selectionOrder candidate existing <? 0
         end
      then map_set key candidate next else next).

(** One round of the dynamic program: every state with and without [item]. *)
Definition extend_states (policy : ValidationPolicy) (states : solver_states) (item : ValidatorEvidence) :
    result ErrorCode solver_states :=
  foldR (offer policy item) states (map_values states).

Definition solve (policy : ValidationPolicy) (sorted : list ValidatorEvidence) :
    result ErrorCode solver_states :=
  initial ← stateKey policy [];
  foldR (extend_states policy) [(initial, [])] sorted.

(** [items.filter((items) => missingConstraints(policy, items).length === 0)] *)
Fixpoint filter_satisfying (policy : ValidationPolicy) (l : list (list ValidatorEvidence)) :
    result ErrorCode (list (list ValidatorEvidence)) :=
  match l with
  | [] => Ok []
  | items :: l' =>
      missing ← missingConstraints policy items;
      rest ← filter_satisfying policy l';
      Ok (if (length missing =? 0)%nat then items :: rest else rest)
  end.

Definition evaluateValidationPolicy (policy : ValidationPolicy) (evidence : list ValidatorEvidence) :
    result ErrorCode PolicyEvaluation :=
  protocolInvariant (0 <? vp_minimumValidators policy) SCHEMA_INVALID ≫= λ _,
  let sorted := unique_evidence evidence in
  allMissing ← missingConstraints policy sorted;
  if (0 <? length allMissing)%nat then Ok (mkPolicyEvaluation false [] allMissing)
  else
    states ← solve policy sorted;
    satisfying ← filter_satisfying policy (map_values states);
    match js_sort selectionOrder satisfying with
    | [] => Err SCHEMA_INVALID
    | selected :: _ => Ok (mkPolicyEvaluation true selected [])
    end.
