(* ===== verification/PolicyProofs.v ===== *)
(** * Correctness of the validation-policy solver

    The solver always answers; its answer is negative exactly when no subset
    of the evidence satisfies the policy, and otherwise it is the least
    satisfying subset in [selectionOrder]: fewest validators, then the first
    in capability order. *)

From Stdlib Require Import Strings.Byte Strings.String.
From stdpp Require Import base list option numbers sorting sets.
From S2P Require Import Prelude JsMap Bytes Text JsNumber Domains CapTypes Policy.

#[local] Open Scope Z_scope.

(** ** Lexicographic order of selections *)

Section list_lex.
Context {A : Type} (cmp : A → A → Z) `{!Comparator cmp}.

Fixpoint list_lex (l r : list A) : Z :=
  match l, r with
  | [], [] => 0
  | [], _ => -1
  | _, [] => 1
  | x :: l', y :: r' => if cmp x y =? 0 then list_lex l' r' else cmp x y
  end.

Lemma cmp_eq_flip x y : cmp x y = 0 → cmp y x = 0.
Proof. intros H. destruct (cmp_flip x y), (cmp_flip y x). lia. Qed.

Lemma cmp_eq_trans x y z : cmp x y = 0 → (cmp x z <= 0 ↔ cmp y z <= 0) ∧ (cmp x z = 0 ↔ cmp y z = 0).
Proof.
  intros H. pose proof (cmp_eq_flip _ _ H) as H'.
  pose proof (cmp_trans x y z). pose proof (cmp_trans y x z).
  pose proof (cmp_trans z x y). pose proof (cmp_trans z y x).
  destruct (cmp_flip x z), (cmp_flip z x), (cmp_flip y z), (cmp_flip z y). lia.
Qed.

#[export] Instance list_lex_comparator : Comparator list_lex.
Proof.
  split.
  - induction x as [|x l IH]; [done|]. simpl. rewrite cmp_refl. done.
  - induction x as [|x l IH]; intros [|y r]; simpl; try lia.
    destruct (Z.eqb_spec (cmp x y) 0) as [H|H].
    + rewrite (proj2 (Z.eqb_eq _ _) (cmp_eq_flip _ _ H)). apply IH.
    + destruct (Z.eqb_spec (cmp y x) 0) as [H'|H']; [by apply cmp_eq_flip in H'|]. apply cmp_flip.
  - induction x as [|x l IH]; intros [|y r] [|z t]; simpl; try lia.
    destruct (Z.eqb_spec (cmp x y) 0) as [Hxy|Hxy].
    + destruct (cmp_eq_trans x y z Hxy) as [H1 H2].
      destruct (Z.eqb_spec (cmp y z) 0) as [Hyz|Hyz].
      * rewrite (proj2 (Z.eqb_eq _ _) (proj2 H2 Hyz)). apply IH.
      * rewrite (proj2 (Z.eqb_neq (cmp x z) 0)) by tauto. tauto.
    + intros Hle. destruct (Z.eqb_spec (cmp y z) 0) as [Hyz|Hyz].
      * intros _. destruct (cmp_eq_trans y z x) as [_ _]; [done|].
        assert (cmp x z < 0) by (apply (cmp_lt_trans cmp x y z); lia).
        rewrite (proj2 (Z.eqb_neq (cmp x z) 0)) by lia. lia.
      * intros Hle'. assert (cmp x z < 0) by (apply (cmp_lt_trans cmp x y z); lia).
        rewrite (proj2 (Z.eqb_neq (cmp x z) 0)) by lia. lia.
Qed.
End list_lex.

#[export] Instance compareCapabilityIds_comparator : Comparator compareCapabilityIds.
Proof. exact (comparator_on ev_capabilityId compareBytes). Qed.

Lemma compare_ids_lex l r :
  length l = length r → compare_ids l r = list_lex compareCapabilityIds l r.
Proof.
  revert r. induction l as [|x l IH]; intros [|y r] Hlen; simpl in *; try done.
  unfold compareCapabilityIds at 1 2. destruct (_ =? 0); simpl; [apply IH; lia|done].
Qed.

Definition compareLengths (l r : list ValidatorEvidence) : Z := Z.of_nat (length l) - Z.of_nat (length r).

#[export] Instance compareLengths_comparator : Comparator compareLengths.
Proof. unfold compareLengths. split; intros; lia. Qed.

Lemma selectionOrder_lex l r :
  selectionOrder l r = cmp_then compareLengths (list_lex compareCapabilityIds) l r.
Proof.
  unfold selectionOrder, cmp_then, compareLengths. destruct (Nat.eqb_spec (length l) (length r)) as [H|H]; simpl.
  - rewrite H, Z.sub_diag. simpl. by apply compare_ids_lex.
  - destruct (Z.eqb_spec (Z.of_nat (length l) - Z.of_nat (length r)) 0); [lia|done].
Qed.

#[export] Instance selectionOrder_comparator : Comparator selectionOrder.
Proof.
  pose proof (cmp_then_comparator compareLengths (list_lex compareCapabilityIds)) as H. split.
  - intros x. rewrite selectionOrder_lex. apply (cmp_refl x).
  - intros x y. rewrite !selectionOrder_lex. apply (cmp_flip x y).
  - intros x y z. rewrite !selectionOrder_lex. apply (cmp_trans x y z).
Qed.

(** Adding the same item to both sides keeps the order. *)
Lemma selectionOrder_snoc l r x : selectionOrder l r ≤ 0 → selectionOrder (l ++ [x]) (r ++ [x]) ≤ 0.
Proof.
  unfold selectionOrder. rewrite !length_app. simpl length.
  destruct (Nat.eqb_spec (length l) (length r)) as [H|H].
  - rewrite H, Nat.eqb_refl. simpl. revert r H. induction l as [|a l IH]; intros [|b r] H Hle; simpl in *; try done.
    + rewrite cmp_refl. done.
    + destruct (_ =? 0); simpl in *; [apply IH; lia|done].
  - destruct (Nat.eqb_spec (length l + 1) (length r + 1)); simpl; lia.
Qed.

(** ** What it means to satisfy a policy *)

Definition satisfies (policy : ValidationPolicy) (selection : list ValidatorEvidence) : Prop :=
  vp_minimumValidators policy ≤ Z.of_nat (length selection) ∧
  (∀ name minimum, (name, minimum) ∈ vp_classMinimums policy → minimum ≤ count_class name selection) ∧
  (∀ organization, organization ∈ vp_requiredOrganizations policy →
    ∃ item, item ∈ selection ∧ ev_organization item = Some organization).

(** A policy as the codec accepts it: encodable names, a positive threshold,
    class minimums that are not negative. *)
Definition policy_wf (policy : ValidationPolicy) : Prop :=
  0 < vp_minimumValidators policy ∧
  Forall (λ c, (∃ b, utf8 c.1 = Ok b) ∧ 0 ≤ c.2) (vp_classMinimums policy) ∧
  Forall (λ o, ∃ b, utf8 o = Ok b) (vp_requiredOrganizations policy).

Lemma sort_by_name_total {A} (name : A → jsstring) l :
  Forall (λ x, ∃ b, utf8 (name x) = Ok b) l → ∃ l', sort_by_name name l = Ok l' ∧ l' ≡ₚ l.
Proof.
  intros Hl. unfold sort_by_name. destruct l as [|x [|y l]]; [eauto..|].
  set (l0 := x :: y :: l) in *.
  assert (∃ keyed, mapR (λ x, b ← utf8 (name x); Ok (b, x)) l0 = Ok keyed ∧ keyed.*2 = l0) as (keyed & Hk & Hsnd).
  { clearbody l0. induction Hl as [|z l' [b Hb] _ (keyed & Hk & Hsnd)]; [by exists []|].
    exists ((b, z) :: keyed). simpl. rewrite Hb. cbn [mbind result_bind]. rewrite Hk. cbn [mbind result_bind].
    split; [done|]. cbn. by f_equal. }
  rewrite Hk. cbn [mbind result_bind]. eexists. split; [done|]. by rewrite js_sort_perm, Hsnd.
Qed.

Lemma has_organization_spec o ev :
  has_organization o ev = true ↔ ∃ item, item ∈ ev ∧ ev_organization item = Some o.
Proof.
  unfold has_organization. rewrite existsb_exists. split.
  - intros (x & Hx%list_elem_of_In & Ho%bool_decide_eq_true). eauto.
  - intros (x & Hx & Ho). exists x. by rewrite <-list_elem_of_In, bool_decide_eq_true.
Qed.

(** ** The solver for one policy *)

Section solver.
Context (policy : ValidationPolicy) (classes : list (jsstring * Z)) (orgs : list jsstring).
Hypothesis Hminimum : 0 < vp_minimumValidators policy.
Hypothesis Hclasses : sort_by_name fst (vp_classMinimums policy) = Ok classes.
Hypothesis Horgs : sort_by_name (λ o, o) (vp_requiredOrganizations policy) = Ok orgs.
Hypothesis Hnonneg : Forall (λ c, 0 ≤ c.2) classes.

Definition capped (ev : list ValidatorEvidence) (c : jsstring * Z) : Z :=
  if count_class c.1 ev <? c.2 then count_class c.1 ev else c.2.

(** The capped counts a state key spells out. *)
Definition state_of (ev : list ValidatorEvidence) : Z * list Z * list bool :=
  (Z.min (Z.of_nat (length ev)) (vp_minimumValidators policy), capped ev <$> classes,
    (λ o, has_organization o ev) <$> orgs).

Definition key_of (ev : list ValidatorEvidence) : jsstring :=
  js_decimal (Z.min (Z.of_nat (length ev)) (vp_minimumValidators policy)) ++ js "|" ++
  js_join (js ",") (class_key ev <$> classes) ++ js "|" ++ js_join [] (organization_key ev <$> orgs).

Definition missing_of (ev : list ValidatorEvidence) : list jsstring :=
  validators_missing policy ev ++ mjoin (class_missing ev <$> classes) ++
  mjoin (organization_missing ev <$> orgs).

Lemma stateKey_Ok ev : stateKey policy ev = Ok (key_of ev).
Proof. unfold stateKey. by rewrite Hclasses, Horgs. Qed.
Lemma missingConstraints_Ok ev : missingConstraints policy ev = Ok (missing_of ev).
Proof. unfold missingConstraints. by rewrite Hclasses, Horgs. Qed.

Lemma count_class_nonneg n ev : 0 ≤ count_class n ev.
Proof. unfold count_class. lia. Qed.

Lemma capped_nonneg ev c : 0 ≤ c.2 → 0 ≤ capped ev c.
Proof. intros. unfold capped. pose proof (count_class_nonneg c.1 ev). case_match; lia. Qed.

Lemma class_key_capped ev c : class_key ev c = c.1 ++ 58 :: js_decimal (capped ev c).
Proof. done. Qed.

Lemma class_keys_inj e1 e2 cs r1 r2 :
  Forall (λ c, 0 ≤ c.2) cs →
  js_join (js ",") (class_key e1 <$> cs) ++ 124 :: r1 = js_join (js ",") (class_key e2 <$> cs) ++ 124 :: r2 →
  capped e1 <$> cs = capped e2 <$> cs ∧ r1 = r2.
Proof.
  intros Hcs. revert r1 r2. induction Hcs as [|c cs Hc Hcs IH]; intros r1 r2 Heq.
  { simpl in Heq. by injection Heq as ->. }
  destruct cs as [|c' cs].
  - cbn [fmap list_fmap js_join] in Heq. rewrite !class_key_capped, <-!app_assoc in Heq.
    apply (inj (app c.1)) in Heq. simpl in Heq. injection Heq as Heq.
    apply js_decimal_prefix_inj in Heq as (Hc' & _ & ->);
      [|by apply capped_nonneg|by apply capped_nonneg|done|done].
    cbn [fmap list_fmap]. by rewrite Hc'.
  - rewrite !fmap_cons in *.
    change (js_join (js ",") (class_key e1 c :: class_key e1 c' :: (class_key e1 <$> cs))) with
      (class_key e1 c ++ 44 :: js_join (js ",") (class_key e1 c' :: (class_key e1 <$> cs))) in Heq.
    change (js_join (js ",") (class_key e2 c :: class_key e2 c' :: (class_key e2 <$> cs))) with
      (class_key e2 c ++ 44 :: js_join (js ",") (class_key e2 c' :: (class_key e2 <$> cs))) in Heq.
    set (j1 := js_join _ (class_key e1 c' :: _)) in *. set (j2 := js_join _ (class_key e2 c' :: _)) in *.
    rewrite !class_key_capped, <-!app_assoc in Heq.
    apply (inj (app c.1)) in Heq. cbn [app] in Heq. injection Heq as Heq.
    apply js_decimal_prefix_inj in Heq as (Hc' & _ & Heq);
      [|by apply capped_nonneg|by apply capped_nonneg|done|done].
    destruct (IH r1 r2 Heq) as [Hrest ->]. rewrite Hc'. split; [|done]. f_equal. exact Hrest.
Qed.

Lemma organization_keys_inj e1 e2 os :
  js_join [] (organization_key e1 <$> os) = js_join [] (organization_key e2 <$> os) →
  (λ o, has_organization o e1) <$> os = (λ o, has_organization o e2) <$> os.
Proof.
  assert (∀ e os, js_join [] (organization_key e <$> os) =
    (λ o, if has_organization o e then 49 else 48) <$> os) as Hflat.
  { intros e os'. induction os' as [|o os' IH]; [done|]. rewrite !fmap_cons, <-IH. unfold organization_key.
    destruct (organization_key e <$> os') eqn:E; destruct os'; try done; by destruct (has_organization o e). }
  rewrite !Hflat. induction os as [|o os IH]; [done|]. rewrite !fmap_cons. intros [= Ho Hos].
  rewrite IH by done. by destruct (has_organization o e1), (has_organization o e2).
Qed.

(** Two selections have the same key exactly when they have the same capped
    counts: names with separators in them cannot be confused. *)
Lemma key_of_inj e1 e2 : key_of e1 = key_of e2 → state_of e1 = state_of e2.
Proof.
  unfold key_of, state_of. intros Heq.
  apply js_decimal_prefix_inj in Heq as (-> & _ & Heq); [|lia..|done|done].
  apply class_keys_inj in Heq as [-> Heq]; [|done]. by rewrite (organization_keys_inj e1 e2).
Qed.

Lemma state_of_key e1 e2 : state_of e1 = state_of e2 → key_of e1 = key_of e2.
Proof.
  unfold key_of, state_of. intros [= -> Hc Ho]. f_equal. f_equal.
  assert (class_key e1 <$> classes = class_key e2 <$> classes) as ->.
  { clear -Hc. induction classes as [|c cs IH]; [done|]. rewrite !fmap_cons in *. injection Hc as Hc Hcs.
    rewrite !class_key_capped, Hc. f_equal. by apply IH. }
  do 2 f_equal. f_equal. clear -Ho. induction orgs as [|o os IH]; [done|]. rewrite !fmap_cons in *.
  injection Ho as Ho Hos. unfold organization_key at 1 3. rewrite Ho. f_equal. by apply IH.
Qed.

Lemma count_class_snoc n ev x :
  count_class n (ev ++ [x]) = count_class n ev + (if decide (ev_validatorClass x = Some n) then 1 else 0).
Proof.
  unfold count_class. rewrite filter_app, length_app, filter_cons. case_decide; simpl; lia.
Qed.

Lemma state_of_snoc e1 e2 x : state_of e1 = state_of e2 → state_of (e1 ++ [x]) = state_of (e2 ++ [x]).
Proof.
  unfold state_of. intros [= Hn Hc Ho]. rewrite !length_app. simpl length. f_equal; [f_equal|].
  - lia.
  - clear -Hc. induction classes as [|c cs IH]; [done|]. rewrite !fmap_cons in *. injection Hc as Hc Hcs.
    f_equal; [|by apply IH]. unfold capped in *. rewrite !count_class_snoc.
    repeat case_match; rewrite ?Z.ltb_lt, ?Z.ltb_ge in *; lia.
  - clear -Ho. induction orgs as [|o os IH]; [done|]. rewrite !fmap_cons in *. injection Ho as Ho Hos.
    f_equal; [|by apply IH]. unfold has_organization in *. by rewrite !existsb_app, Ho.
Qed.

(** A state that misses nothing is a satisfying selection. *)
Lemma missing_of_nil ev :
  missing_of ev = [] ↔
  vp_minimumValidators policy ≤ Z.of_nat (length ev) ∧
  Forall (λ c, c.2 ≤ count_class c.1 ev) classes ∧ Forall (λ o, has_organization o ev = true) orgs.
Proof.
  assert (∀ {A} (f : A → list jsstring) l, mjoin (f <$> l) = [] ↔ Forall (λ x, f x = []) l) as Hjoin.
  { intros A f l. induction l as [|x l IH]; [split; [constructor|done]|].
    rewrite fmap_cons, mjoin_cons, app_nil, IH, Forall_cons. done. }
  unfold missing_of. rewrite !app_nil, !Hjoin.
  assert (validators_missing policy ev = [] ↔ vp_minimumValidators policy ≤ Z.of_nat (length ev)) as ->.
  { unfold validators_missing. destruct (Z.ltb_spec (Z.of_nat (length ev)) (vp_minimumValidators policy));
      split; [done|lia|lia|done]. }
  assert (∀ c, class_missing ev c = [] ↔ c.2 ≤ count_class c.1 ev) as Hc.
  { intros c. unfold class_missing. destruct (Z.ltb_spec (count_class c.1 ev) c.2); split; [done|lia|lia|done]. }
  assert (∀ o, organization_missing ev o = [] ↔ has_organization o ev = true) as Ho.
  { intros o. unfold organization_missing. by destruct (has_organization o ev). }
  by setoid_rewrite Hc; setoid_rewrite Ho.
Qed.

Lemma missing_of_state e1 e2 : state_of e1 = state_of e2 → missing_of e1 = [] → missing_of e2 = [].
Proof.
  rewrite !missing_of_nil. unfold state_of. intros [= Hn Hc Ho] (H1 & H2 & H3). split_and!.
  - lia.
  - clear -Hc H2. induction classes as [|c cs IH]; [constructor|]. rewrite !fmap_cons in Hc. injection Hc as Hc Hcs.
    apply Forall_cons in H2 as [H2 H2']. constructor; [|by apply IH]. unfold capped in Hc.
    repeat case_match; rewrite ?Z.ltb_lt, ?Z.ltb_ge in *; lia.
  - clear -Ho H3. induction orgs as [|o os IH]; [constructor|]. rewrite !fmap_cons in Ho. injection Ho as Ho Hos.
    apply Forall_cons in H3 as [H3 H3']. constructor; [congruence|by apply IH].
Qed.

(** ** The table of the dynamic program *)

Definition at_most (states : solver_states) (T : list ValidatorEvidence) : Prop :=
  ∃ V, map_get (key_of T) states = Some V ∧ selectionOrder V T ≤ 0.

Definition table_ok (p : list ValidatorEvidence) (states : solver_states) : Prop :=
  map_wf states ∧ ∀ k V, (k, V) ∈ states → k = key_of V ∧ V `sublist_of` p.

(** Every selection from the items seen so far is matched by an entry with
    the same counts that is no greater. *)
Definition table_complete (p : list ValidatorEvidence) (states : solver_states) : Prop :=
  ∀ T, T `sublist_of` p → at_most states T.

Definition improves (next states : solver_states) : Prop :=
  ∀ k V, map_get k states = Some V → ∃ V', map_get k next = Some V' ∧ selectionOrder V' V ≤ 0.

#[local] Instance improves_preorder : PreOrder improves.
Proof.
  split.
  - intros st k V H. exists V. by rewrite cmp_refl.
  - intros a b c Hab Hbc k V HV. destruct (Hbc _ _ HV) as (V1 & H1 & O1).
    destruct (Hab _ _ H1) as (V2 & H2 & O2). exists V2. split; [done|]. by eapply cmp_trans.
Qed.

Lemma at_most_improves next states T : improves next states → at_most states T → at_most next T.
Proof.
  intros Hi (V & HV & HO). destruct (Hi _ _ HV) as (V' & HV' & HO'). exists V'.
  split; [done|]. by eapply cmp_trans.
Qed.

Lemma offer_spec p x next V :
  table_ok (p ++ [x]) next → V `sublist_of` p →
  ∃ next', offer policy x next V = Ok next' ∧ table_ok (p ++ [x]) next' ∧ improves next' next ∧
  at_most next' (V ++ [x]).
Proof.
  intros [Hwf Hok] HV. unfold offer. rewrite stateKey_Ok. cbn [mbind result_bind].
  eexists. split; [done|].
  assert (table_ok (p ++ [x]) (map_set (key_of (V ++ [x])) (V ++ [x]) next)) as Hset.
  { split; [by apply map_wf_set|]. intros k W [[-> ->]|[_ Hin]]%elem_of_map_set; [|by apply Hok|done].
    split; [done|]. by apply sublist_app. }
  destruct (map_get (key_of (V ++ [x])) next) as [W|] eqn:HW;
    [destruct (Z.ltb_spec (selectionOrder (V ++ [x]) W) 0)|].
  - split_and!; [done| |].
    + intros k U HU. rewrite map_get_set. case_decide; [|exists U; by rewrite cmp_refl].
      subst k. rewrite HW in HU. injection HU as <-. exists (V ++ [x]). split; [done|lia].
    + exists (V ++ [x]). by rewrite map_get_set_eq, cmp_refl.
  - split_and!; [done|done|]. exists W. split; [done|].
    destruct (cmp_flip (V ++ [x]) W (cmp:=selectionOrder)), (cmp_flip W (V ++ [x]) (cmp:=selectionOrder)). lia.
  - split_and!; [done| |].
    + intros k U HU. rewrite map_get_set. case_decide; [congruence|]. exists U. by rewrite cmp_refl.
    + exists (V ++ [x]). by rewrite map_get_set_eq, cmp_refl.
Qed.

Lemma offers_spec p x Vs next :
  table_ok (p ++ [x]) next → Forall (λ V, V `sublist_of` p) Vs →
  ∃ next', foldR (offer policy x) next Vs = Ok next' ∧ table_ok (p ++ [x]) next' ∧ improves next' next ∧
  Forall (λ V, at_most next' (V ++ [x])) Vs.
Proof.
  intros Hok HVs. revert next Hok. induction HVs as [|V Vs HV _ IH]; intros next Hok.
  { exists next. split_and!; [done|done|done|constructor]. }
  destruct (offer_spec p x next V Hok HV) as (n1 & E1 & Ok1 & I1 & A1).
  destruct (IH n1 Ok1) as (n2 & E2 & Ok2 & I2 & A2). exists n2. simpl. rewrite E1. cbn [mbind result_bind].
  split_and!; [done|done|by etrans|]. constructor; [|done]. by eapply at_most_improves.
Qed.

Lemma extend_states_spec p x states :
  table_ok p states → table_complete p states →
  ∃ next, extend_states policy states x = Ok next ∧ table_ok (p ++ [x]) next ∧ table_complete (p ++ [x]) next.
Proof.
  intros [Hwf Hok] Hcomp. unfold extend_states.
  destruct (offers_spec p x (map_values states) states) as (next & E & Okn & In & An).
  - split; [done|]. intros k V Hin. destruct (Hok k V Hin) as [-> Hs]. split; [done|].
    by apply sublist_inserts_r.
  - apply Forall_fmap, Forall_forall. intros [k V] Hin. by apply (Hok k V).
  - exists next. split_and!; [done|done|]. intros T HT.
    apply sublist_app_r in HT as (T1 & T2 & -> & H1 & H2). apply sublist_cons_r in H2 as [H2|(T3 & -> & H2)].
    + apply sublist_nil_r in H2 as ->. rewrite app_nil_r.
      eapply at_most_improves; [done|]. by apply Hcomp.
    + apply sublist_nil_r in H2 as ->. destruct (Hcomp T1 H1) as (V & HV & HO).
      apply map_get_Some_elem in HV as Hin. destruct (Hok _ _ Hin) as [Hkey _].
      rewrite Forall_forall in An. destruct (An V) as (W & HW & HOW).
      { apply list_elem_of_fmap. by exists (key_of T1, V). }
      assert (key_of (V ++ [x]) = key_of (T1 ++ [x])) as Hk.
      { apply state_of_key, state_of_snoc. symmetry. by apply key_of_inj. }
      exists W. rewrite <-Hk. split; [done|].
      eapply (cmp_trans W (V ++ [x])); [done|]. by apply selectionOrder_snoc.
Qed.

Lemma solve_spec S : ∃ states, solve policy S = Ok states ∧ table_ok S states ∧ table_complete S states.
Proof.
  unfold solve. rewrite stateKey_Ok. cbn [mbind result_bind].
  assert (∀ S p states, table_ok p states → table_complete p states →
    ∃ states', foldR (extend_states policy) states S = Ok states' ∧ table_ok (p ++ S) states' ∧
    table_complete (p ++ S) states') as Hgen.
  { induction S0 as [|x S0 IH]; intros p states Hok Hcomp.
    { exists states. by rewrite app_nil_r. }
    destruct (extend_states_spec p x states Hok Hcomp) as (next & E & Ok' & Comp').
    destruct (IH (p ++ [x]) next Ok' Comp') as (st & E' & Ok2 & Comp2). rewrite <-app_assoc in *.
    exists st. simpl. by rewrite E. }
  apply (Hgen S []).
  - split; [apply NoDup_singleton|]. intros k V [= -> ->]%list_elem_of_singleton. done.
  - intros T ->%sublist_nil_r. exists []. split; [|done]. simpl. by rewrite decide_True.
Qed.

Lemma filter_satisfying_Ok l :
  filter_satisfying policy l = Ok (filter (λ V, missing_of V = []) l).
Proof.
  induction l as [|V l IH]; [done|]. cbn [filter_satisfying]. rewrite missingConstraints_Ok.
  cbn [mbind result_bind]. rewrite IH. cbn [mbind result_bind]. rewrite filter_cons.
  destruct (missing_of V) eqn:E; case_decide; done.
Qed.
End solver.

(** ** The evidence the solver works on *)

(** The first element of a sorted list is least. *)
Lemma js_sort_head {A} (cmp : A → A → Z) `{!Comparator cmp} l x l' :
  js_sort cmp l = x :: l' → x ∈ l ∧ ∀ y, y ∈ l → cmp x y ≤ 0.
Proof.
  intros H. split; [apply (elem_of_js_sort cmp); rewrite H; left|]. intros y Hy.
  pose proof (js_sort_sorted cmp l) as Hs. rewrite H in Hs. inversion Hs as [|?? _ Hall]; subst.
  apply (elem_of_js_sort cmp) in Hy. rewrite H in Hy. apply elem_of_cons in Hy as [->|Hy]; [by rewrite cmp_refl|].
  rewrite Forall_forall in Hall. by apply Hall.
Qed.

Definition unique_table (evidence : list ValidatorEvidence) : jsmap jsstring ValidatorEvidence :=
  foldl add_unique [] (js_sort compareEvidence evidence).

Lemma unique_table_spec l :
  let t := foldl add_unique [] l in
  map_wf t ∧ (∀ k e, (k, e) ∈ t → k = bytesToHex (ev_capabilityId e) ∧ e ∈ l) ∧
  (∀ e, e ∈ l → is_Some (map_get (bytesToHex (ev_capabilityId e)) t)).
Proof.
  induction l as [|x l IH] using rev_ind; simpl.
  { split_and!; [constructor|by intros ?? ?%elem_of_nil|by intros ? ?%elem_of_nil]. }
  rewrite foldl_app. simpl. set (t := foldl add_unique [] l) in *. unfold add_unique at 1 2 3. destruct IH as (Hwf & Hin & Hall).
  destruct (map_has _ t) eqn:Hh.
  - split_and!; [done| |].
    + intros k e He. destruct (Hin k e He). split; [done|]. rewrite elem_of_app. by left.
    + intros e [He|Heq%list_elem_of_singleton]%elem_of_app; [by apply Hall|]. subst. by apply map_has_true.
  - split_and!; [by apply map_wf_set| |].
    + intros k e [[-> ->]|[_ He]]%elem_of_map_set; [|destruct (Hin k e He)|done].
      * split; [done|]. rewrite elem_of_app, list_elem_of_singleton. by right.
      * split; [done|]. rewrite elem_of_app. by left.
    + intros e He. rewrite map_get_set. case_decide; [done|].
      apply elem_of_app in He as [He|Heq%list_elem_of_singleton]; [by apply Hall|]. by subst.
Qed.

(** One item per capability, in ascending order, and every capability of the
    evidence is represented by one of its own items. *)
Lemma unique_evidence_spec evidence :
  StronglySorted (λ a b, compareCapabilityIds a b < 0) (unique_evidence evidence) ∧
  (∀ e, e ∈ unique_evidence evidence → e ∈ evidence) ∧
  (∀ e, e ∈ evidence → ev_capabilityId e ∈ ev_capabilityId <$> unique_evidence evidence).
Proof.
  change (unique_evidence evidence) with (js_sort compareCapabilityIds (map_values (unique_table evidence))).
  destruct (unique_table_spec (js_sort compareEvidence evidence)) as (Hwf & Hin & Hall).
  fold (unique_table evidence) in *.
  set (t := unique_table evidence) in *. split_and!.
  - assert (NoDup (ev_capabilityId <$> map_values t)) as Hnd.
    { apply (NoDup_fmap_1 bytesToHex). rewrite <-list_fmap_compose. unfold map_values.
      replace (bytesToHex ∘ ev_capabilityId <$> t.*2) with (map_keys t); [done|].
      unfold map_keys. rewrite <-list_fmap_compose. apply list_fmap_ext. intros i [k e] Hi.
      simpl. by apply (Hin k e), list_elem_of_lookup_2 with i. }
    apply (StronglySorted_on ev_capabilityId (λ a b, compareBytes a b < 0)).
    rewrite <-(js_sort_fmap ev_capabilityId compareCapabilityIds compareBytes) by done.
    by apply js_sort_strict; [apply _|].
  - intros e He. apply elem_of_js_sort in He. apply list_elem_of_fmap in He as ([k e'] & -> & He).
    destruct (Hin k e' He) as [_ Hl]. by apply elem_of_js_sort in Hl.
  - intros e He. apply (elem_of_js_sort compareEvidence) in He. destruct (Hall e He) as [e' He'].
    apply map_get_Some_elem in He' as Hin'. destruct (Hin _ _ Hin') as [Hkey _].
    apply bytesToHex_inj in Hkey. rewrite Hkey. apply list_elem_of_fmap. exists e'. split; [done|].
    apply elem_of_js_sort, list_elem_of_fmap. by exists (bytesToHex (ev_capabilityId e), e').
Qed.

(** ** The solver is complete and optimal *)

Lemma satisfies_missing policy classes orgs ev :
  classes ≡ₚ vp_classMinimums policy → orgs ≡ₚ vp_requiredOrganizations policy →
  missing_of policy classes orgs ev = [] ↔ satisfies policy ev.
Proof.
  intros Hc Ho. rewrite missing_of_nil. unfold satisfies. rewrite Hc, Ho, !Forall_forall.
  setoid_rewrite has_organization_spec. split.
  - intros (H1 & H2 & H3). split_and!; [done| |done]. intros n m Hnm. by apply (H2 (n, m)).
  - intros (H1 & H2 & H3). split_and!; [done| |done]. intros [n m] Hnm. by apply H2.
Qed.

Lemma satisfies_sublist policy T S : T `sublist_of` S → satisfies policy T → satisfies policy S.
Proof.
  intros Hs (H1 & H2 & H3). split_and!.
  - apply sublist_length in Hs. lia.
  - intros n m Hnm. specialize (H2 n m Hnm). unfold count_class in *.
    assert (length (filter (λ item, ev_validatorClass item = Some n) T) ≤
      length (filter (λ item, ev_validatorClass item = Some n) S))%nat; [|lia].
    clear -Hs. induction Hs as [|x T S _ IH|x T S _ IH]; [done|..]; rewrite !filter_cons; case_decide; simpl; lia.
  - intros o Ho. destruct (H3 o Ho) as (item & Hi & Hio). exists item. split; [|done].
    by eapply elem_of_sublist.
Qed.

Lemma policy_solver_spec policy evidence :
  policy_wf policy →
  ∃ result, evaluateValidationPolicy policy evidence = Ok result ∧
    if pe_satisfied result
    then pe_selected result `sublist_of` unique_evidence evidence ∧ satisfies policy (pe_selected result) ∧
      ∀ T, T `sublist_of` unique_evidence evidence → satisfies policy T →
        selectionOrder (pe_selected result) T ≤ 0
    else pe_missing result ≠ [] ∧ ∀ T, T `sublist_of` unique_evidence evidence → ¬ satisfies policy T.
Proof.
  intros (Hmin & Hcls & Horg). set (S := unique_evidence evidence).
  destruct (sort_by_name_total fst (vp_classMinimums policy)) as (classes & Hc & Pc);
    [eapply Forall_impl; [exact Hcls|naive_solver]|].
  destruct (sort_by_name_total (λ o, o) (vp_requiredOrganizations policy)) as (orgs & Ho & Po); [done|].
  assert (Forall (λ c, 0 ≤ c.2) classes) as Hnn.
  { rewrite Pc. eapply Forall_impl; [exact Hcls|naive_solver]. }
  unfold evaluateValidationPolicy, protocolInvariant. rewrite (proj2 (Z.ltb_lt _ _) Hmin).
  cbn [ensure mbind result_bind]. rewrite (missingConstraints_Ok _ _ _ Hc Ho). cbn [mbind result_bind]. fold S.
  pose proof (λ ev, satisfies_missing policy classes orgs ev Pc Po) as Hsat.
  destruct (Nat.ltb_spec 0 (length (missing_of policy classes orgs S))) as [Hm|Hm].
  - eexists. split; [done|]. cbn [pe_satisfied pe_missing].
    assert (missing_of policy classes orgs S ≠ []) as Hne by (intros E; rewrite E in Hm; simpl in Hm; lia).
    split; [done|]. intros T HT HsT. apply Hne, Hsat. by eapply satisfies_sublist.
  - destruct (solve_spec policy classes orgs Hmin Hc Ho Hnn S) as (states & -> & [Hwf Hok] & Hcomp).
    cbn [mbind result_bind]. rewrite (filter_satisfying_Ok _ _ _ Hc Ho). cbn [mbind result_bind].
    set (good := filter _ _).
    assert (∀ T, T `sublist_of` S → satisfies policy T → ∃ V, V ∈ good ∧ selectionOrder V T ≤ 0) as Hgood.
    { intros T HT HsT. destruct (Hcomp T HT) as (V & HV & HO). exists V. split; [|done].
      apply map_get_Some_elem in HV as Hin. destruct (Hok _ _ Hin) as [Hkey _].
      apply list_elem_of_filter. split; [|by apply list_elem_of_fmap; exists (key_of policy classes orgs T, V)].
      eapply missing_of_state; [by apply key_of_inj|]. by apply Hsat. }
    assert (missing_of policy classes orgs S = []) as HS by (destruct (missing_of _ _ _ S); [done|simpl in Hm; lia]).
    destruct (Hgood S) as (V & HV & _); [done|by apply Hsat|].
    destruct (js_sort selectionOrder good) as [|sel rest] eqn:Hsort.
    { apply (elem_of_js_sort selectionOrder) in HV. rewrite Hsort in HV. by apply elem_of_nil in HV. }
    eexists. split; [done|]. cbn [pe_satisfied pe_selected].
    apply js_sort_head in Hsort as [Hsel Hleast]; [|apply _].
    apply list_elem_of_filter in Hsel as [Hs ([k sel'] & -> & Hin)%list_elem_of_fmap]. simpl in *.
    split_and!; [by apply (Hok k sel')|by apply Hsat|].
    intros T HT HsT. destruct (Hgood T HT HsT) as (W & HW & HO).
    eapply (cmp_trans _ W); [by apply Hleast|done].
Qed.

(** C8: the policy solver.  For a well-formed policy it never fails.  It
    answers "unsatisfied" (naming what is missing) exactly when no selection
    of distinct capabilities from the evidence satisfies the policy;
    otherwise the proof it selects satisfies the policy and is least among
    all satisfying selections: fewest validators, then lexicographically
    first capability ids. *)
Theorem policy_solver_optimal policy evidence :
  policy_wf policy →
  ∃ result, evaluateValidationPolicy policy evidence = Ok result ∧
    if pe_satisfied result
    then pe_selected result `sublist_of` unique_evidence evidence ∧ satisfies policy (pe_selected result) ∧
      ∀ T, T `sublist_of` unique_evidence evidence → satisfies policy T →
        selectionOrder (pe_selected result) T ≤ 0
    else pe_missing result ≠ [] ∧ ∀ T, T `sublist_of` unique_evidence evidence → ¬ satisfies policy T.
Proof. apply policy_solver_spec. Qed.

Definition sample_policy : ValidationPolicy := mkPolicy 1 2 [(js "gold", 1)] [js "acme"].
Definition sample_evidence : list ValidatorEvidence :=
  [mkEvidence [x03] [x13] (Some (js "acme")) None; mkEvidence [x01] [x11] None (Some (js "gold"));
   mkEvidence [x02] [x12] None None; mkEvidence [x01] [x10] None (Some (js "gold"))].

Lemma policy_solver_optimal_witness :
  ∃ result, evaluateValidationPolicy sample_policy sample_evidence = Ok result ∧
    ev_capabilityId <$> pe_selected result = [[x01]; [x03]] ∧ satisfies sample_policy (pe_selected result).
Proof.
  destruct (policy_solver_optimal sample_policy sample_evidence) as (r & Hr & H).
  { split; [reflexivity|]. split; repeat constructor; try (eexists; vm_compute; reflexivity); discriminate. }
  exists r. split; [exact Hr|]. vm_compute in Hr. injection Hr as <-.
  split; [reflexivity|]. exact (proj1 (proj2 H)).
Defined.
