(* ===== verification/CapCodec.v ===== *)
(** * Capability records on the wire: [packages/capabilities/src/codec.ts]

    Grants, policies, the genesis manifest, capability revisions and recovery
    records as integer-keyed CBOR.  Every decoder ends by running the encoder's
    checks on what it has read. *)

From Stdlib Require Import Strings.Byte.
From stdpp Require Import base list option numbers.
From S2P Require Import Prelude JsMap Bytes Text Cbor Schema Messages CapTypes.

#[local] Open Scope Z_scope.

Definition check (condition : bool) (code : ErrorCode) : result ErrorCode unit := protocolInvariant condition code.

Definition is_undefined {A} (o : option A) : bool := match o with Some _ => false | None => true end.

(** An optional field read with [f] when it is present. *)
Definition optional_field {A} (map : IntegerMap) (key : Z) (f : CborValue → result ErrorCode A) :
    result ErrorCode (option A) :=
  match optional map key with None => Ok None | Some v => x ← f v; Ok (Some x) end.

Definition string_field (map : IntegerMap) (key : Z) : result ErrorCode jsstring :=
  v ← required map key; expectString v.
Definition array_field (map : IntegerMap) (key : Z) : result ErrorCode (list CborValue) :=
  v ← required map key; expectArray v.

(** ** Grants *)

Definition ROLES : list CapabilityRole := [reader; writer; validator; administrator; schema_administrator].
Definition SCOPES : list ReaderHistoryScope := [scope_snapshot; scope_audit].

Definition index_of {A} `{EqDecision A} (l : list A) (x : A) : Z :=
  match list_find (λ y, y = x) l with Some (i, _) => Z.of_nat i | None => -1 end.

Definition roleIndex (role : CapabilityRole) : result ErrorCode Z :=
  let index := index_of ROLES role in check (0 <=? index) SCHEMA_INVALID ≫= λ _, Ok index.

Definition grantToCbor (grant : CapabilityGrant) : result ErrorCode CborValue :=
  check (length (g_signingPublicKey grant) =? 32)%nat SCHEMA_INVALID ≫= λ _,
  check (0 <=? g_validFromRevision grant) INTEGER_OUT_OF_RANGE ≫= λ _,
  (match g_validUntilRevision grant with
   | Some until => check (g_validFromRevision grant <=? until) SCHEMA_INVALID
   | None => Ok tt
   end) ≫= λ _,
  (if bool_decide (g_role grant = validator)
   then check (negb (is_undefined (g_minimumAuthorTimestampMs grant))) SCHEMA_INVALID
   else check (is_undefined (g_validatorClass grant) && is_undefined (g_minimumAuthorTimestampMs grant))
          SCHEMA_INVALID) ≫= λ _,
  (if bool_decide (g_role grant = reader)
   then check (negb (is_undefined (g_readerScope grant)) && negb (is_undefined (g_hpkePublicKey grant)))
          SCHEMA_INVALID ≫= λ _,
        check (match g_hpkePublicKey grant with Some k => length k =? 32 | None => false end)%nat SCHEMA_INVALID
   else check (is_undefined (g_readerScope grant) && is_undefined (g_hpkePublicKey grant)) SCHEMA_INVALID) ≫= λ _,
  (match g_transportAuthor grant with
   | Some a => check (0 <? length a)%nat SCHEMA_INVALID
   | None => Ok tt
   end) ≫= λ _,
  let scope := index_of SCOPES <$> g_readerScope grant in
  role ← roleIndex (g_role grant);
  Ok (CMap (integerMap
    [(0, Some (CBytes (g_subjectId grant))); (1, Some (CBytes (g_signingPublicKey grant)));
     (2, Some (CInt role)); (3, Some (CInt (g_validFromRevision grant)));
     (4, CInt <$> g_validUntilRevision grant); (5, CText <$> g_organization grant);
     (6, CText <$> g_validatorClass grant); (7, CInt <$> g_minimumAuthorTimestampMs grant);
     (8, CInt <$> scope); (9, CBytes <$> g_hpkePublicKey grant);
     (10, CText <$> g_transportAuthor grant)])).

Definition scopeFromCbor (v : CborValue) : result ErrorCode ReaderHistoryScope :=
  index ← expectUint64 v;
  check (index <? zlen SCOPES) SCHEMA_INVALID ≫= λ _,
  match SCOPES !! Z.to_nat index with Some s => Ok s | None => Err SCHEMA_INVALID end.

Definition grantFromCbor (value : CborValue) : result ErrorCode CapabilityGrant :=
  map ← expectMap value;
  assertKnownIntegerKeys map [0; 1; 2; 3; 4; 5; 6; 7; 8; 9; 10] ≫= λ _,
  roleValue ← uint64_field map 2;
  check (roleValue <? zlen ROLES) SCHEMA_INVALID ≫= λ _,
  role ← match ROLES !! Z.to_nat roleValue with Some r => Ok r | None => Err SCHEMA_INVALID end;
  subjectId ← bytes_field map 0 None;
  signingPublicKey ← bytes_field map 1 (Some 32%nat);
  validFromRevision ← uint64_field map 3;
  validUntilRevision ← optional_field map 4 expectUint64;
  organization ← optional_field map 5 expectString;
  validatorClass ← optional_field map 6 expectString;
  minimumAuthorTimestampMs ← optional_field map 7 expectUint64;
  readerScope ← optional_field map 8 scopeFromCbor;
  hpkePublicKey ← optional_field map 9 (λ v, expectBytes v (Some 32%nat));
  transportAuthor ← optional_field map 10 expectString;
  let grant := mkGrant subjectId signingPublicKey transportAuthor role validFromRevision validUntilRevision
    organization validatorClass minimumAuthorTimestampMs readerScope hpkePublicKey in
  grantToCbor grant ≫= λ _, Ok grant.

(** ** Policies *)

Definition policyToCbor (policy : ValidationPolicy) : result ErrorCode CborValue :=
  check (0 <? vp_minimumValidators policy) SCHEMA_INVALID ≫= λ _,
  classes ← foldR (λ classes e,
    check ((0 <? length e.1)%nat && (0 <? e.2)) SCHEMA_INVALID ≫= λ _,
    Ok (map_set (KText e.1) (CInt e.2) classes)) [] (vp_classMinimums policy);
  let organizations := map_keys (foldl (λ set o, set_add o set) [] (vp_requiredOrganizations policy)) in
  check (length organizations =? length (vp_requiredOrganizations policy))%nat SCHEMA_INVALID ≫= λ _,
  check (forallb (λ o, 0 <? length o)%nat organizations) SCHEMA_INVALID ≫= λ _,
  Ok (CMap (integerMap
    [(0, Some (CInt (vp_version policy))); (1, Some (CInt (vp_minimumValidators policy)));
     (2, Some (CMap classes)); (3, Some (CArray (CText <$> organizations)))])).

Definition policyFromCbor (value : CborValue) : result ErrorCode ValidationPolicy :=
  map ← expectMap value;
  assertKnownIntegerKeys map [0; 1; 2; 3] ≫= λ _,
  encodedClasses ← (v ← required map 2; expectMap v);
  classes ← foldR (λ classes e,
    match e.1 with
    | KText name => minimum ← expectUint64 e.2; Ok (map_set name minimum classes)
    | _ => Err SCHEMA_INVALID
    end) [] encodedClasses;
  version ← uint64_field map 0;
  minimumValidators ← uint64_field map 1;
  organizationItems ← array_field map 3;
  requiredOrganizations ← mapR expectString organizationItems;
  let policy := mkPolicy version minimumValidators classes requiredOrganizations in
  policyToCbor policy ≫= λ _, Ok policy.

(** ** Genesis *)

Definition clockToCbor (policy : ClockPolicy) : CborValue :=
  CMap (integerMap [(0, Some (CInt (ck_maxFutureSkewMs policy))); (1, Some (CInt (ck_cutoffLagMs policy)));
                    (2, Some (CInt (ck_heartbeatIntervalMs policy)))]).

Definition clockFromCbor (value : CborValue) : result ErrorCode ClockPolicy :=
  map ← expectMap value;
  assertKnownIntegerKeys map [0; 1; 2] ≫= λ _,
  maxFutureSkewMs ← uint64_field map 0;
  cutoffLagMs ← uint64_field map 1;
  heartbeatIntervalMs ← uint64_field map 2;
  Ok (mkClock maxFutureSkewMs cutoffLagMs heartbeatIntervalMs).

Definition resourceToCbor (policy : ResourcePolicy) : CborValue :=
  CMap (integerMap [(0, Some (CInt (rp_maxCandidateBytes policy))); (1, Some (CInt (rp_maxProgramNodes policy)));
                    (2, Some (CInt (rp_maxPreconditions policy))); (3, Some (CInt (rp_maxMutations policy)))]).

Definition resourceFromCbor (value : CborValue) : result ErrorCode ResourcePolicy :=
  map ← expectMap value;
  assertKnownIntegerKeys map [0; 1; 2; 3] ≫= λ _,
  maxCandidateBytes ← uint64_field map 0;
  maxProgramNodes ← uint64_field map 1;
  maxPreconditions ← uint64_field map 2;
  maxMutations ← uint64_field map 3;
  Ok (mkResource maxCandidateBytes maxProgramNodes maxPreconditions maxMutations).

Definition genesisToCbor (value : GenesisManifest) : result ErrorCode CborValue :=
  check (length (gm_rootAdminPublicKey value) =? 32)%nat SCHEMA_INVALID ≫= λ _,
  check ((length (gm_recoveryPublicKeys value) =? 3)%nat &&
         forallb (λ key, length key =? 32)%nat (gm_recoveryPublicKeys value)) SCHEMA_INVALID ≫= λ _,
  check (gm_recoveryThreshold value =? 2) SCHEMA_INVALID ≫= λ _,
  check (length (foldl (λ set k, set_add (bytesToHex k) set) [] (gm_recoveryPublicKeys value)) =? 3)%nat
    SCHEMA_INVALID ≫= λ _,
  check (0 <? length (gm_validationPolicies value))%nat SCHEMA_INVALID ≫= λ _,
  capabilities ← mapR grantToCbor (gm_initialCapabilities value);
  policies ← mapR policyToCbor (gm_validationPolicies value);
  Ok (CMap (integerMap
    [(0, Some (CInt 1)); (1, Some (CBytes (gm_groupId value))); (2, Some (CBytes (gm_schemaId value)));
     (3, Some (CBytes (gm_rootAdminPublicKey value))); (4, Some (CBytes (gm_capabilityLogFeed value)));
     (5, Some (CArray (CBytes <$> gm_recoveryPublicKeys value))); (6, Some (CInt (gm_recoveryThreshold value)));
     (7, Some (CArray capabilities)); (8, Some (CArray policies)); (9, Some (clockToCbor (gm_clockPolicy value)));
     (10, Some (resourceToCbor (gm_resourcePolicy value))); (11, Some (CText (gm_encryptionSuite value)));
     (12, Some (CInt (gm_createdAtMs value)))])).

Definition encodeGenesisManifest (value : GenesisManifest) : result ErrorCode bytes :=
  v ← genesisToCbor value; encodeCanonicalCbor v.

Definition decodeGenesisManifest (b : bytes) : result ErrorCode GenesisManifest :=
  v ← assertCanonical b;
  map ← expectMap v;
  assertKnownIntegerKeys map [0; 1; 2; 3; 4; 5; 6; 7; 8; 9; 10; 11; 12] ≫= λ _,
  expectVersion map 1 ≫= λ _,
  recovery ← array_field map 5;
  check (length recovery =? 3)%nat SCHEMA_INVALID ≫= λ _,
  groupId ← bytes_field map 1 None;
  schemaId ← bytes_field map 2 None;
  rootAdminPublicKey ← bytes_field map 3 (Some 32%nat);
  capabilityLogFeed ← bytes_field map 4 None;
  recoveryPublicKeys ← mapR (λ v, expectBytes v (Some 32%nat)) recovery;
  recoveryThreshold ← uint64_field map 6;
  capabilityItems ← array_field map 7;
  initialCapabilities ← mapR grantFromCbor capabilityItems;
  policyItems ← array_field map 8;
  validationPolicies ← mapR policyFromCbor policyItems;
  clockPolicy ← (v ← required map 9; clockFromCbor v);
  resourcePolicy ← (v ← required map 10; resourceFromCbor v);
  encryptionSuite ← string_field map 11;
  createdAtMs ← uint64_field map 12;
  let manifest := mkGenesis groupId schemaId rootAdminPublicKey capabilityLogFeed recoveryPublicKeys
    recoveryThreshold initialCapabilities validationPolicies clockPolicy resourcePolicy encryptionSuite
    createdAtMs in
  genesisToCbor manifest ≫= λ _, Ok manifest.

Definition encodeSignedGenesis (value : SignedGenesis) : result ErrorCode bytes :=
  manifest ← encodeGenesisManifest (sg_manifest value);
  encodeCanonicalCbor (CMap (integerMap
    [(0, Some (CInt 1)); (1, Some (CBytes manifest)); (2, Some (CBytes (sg_signature value)))])).

Definition decodeSignedGenesis (b : bytes) : result ErrorCode SignedGenesis :=
  v ← assertCanonical b;
  map ← expectMap v;
  assertKnownIntegerKeys map [0; 1; 2] ≫= λ _,
  expectVersion map 1 ≫= λ _,
  manifest ← (b ← bytes_field map 1 None; decodeGenesisManifest b);
  signature ← bytes_field map 2 (Some 64%nat);
  Ok (mkSignedGenesis manifest signature).

(** ** Revisions *)

Definition revisionToCbor (value : CapabilityRevision) : result ErrorCode CborValue :=
  check (0 <? cr_revision value) SCHEMA_INVALID ≫= λ _,
  check (length (cr_issuerRootPublicKey value) =? 32)%nat SCHEMA_INVALID ≫= λ _,
  check (eqb (is_undefined (cr_successorRootPublicKey value))
             (is_undefined (cr_successorCapabilityLogFeed value))) SCHEMA_INVALID ≫= λ _,
  grants ← mapR grantToCbor (cr_grants value);
  policies ← mapR policyToCbor (cr_validationPolicies value);
  Ok (CMap (integerMap
    [(0, Some (CInt 1)); (1, Some (CBytes (cr_groupId value))); (2, Some (CInt (cr_revision value)));
     (3, Some (CBytes (cr_previousRevisionDigest value))); (4, Some (CBytes (cr_issuerRootPublicKey value)));
     (5, Some (CArray grants)); (6, Some (CArray (CBytes <$> cr_revocations value)));
     (7, Some (CArray policies)); (8, CBytes <$> cr_successorRootPublicKey value);
     (9, CBytes <$> cr_successorCapabilityLogFeed value)])).

Definition encodeCapabilityRevision (value : CapabilityRevision) : result ErrorCode bytes :=
  v ← revisionToCbor value; encodeCanonicalCbor v.

Definition decodeCapabilityRevision (b : bytes) : result ErrorCode CapabilityRevision :=
  v ← assertCanonical b;
  map ← expectMap v;
  assertKnownIntegerKeys map [0; 1; 2; 3; 4; 5; 6; 7; 8; 9] ≫= λ _,
  expectVersion map 1 ≫= λ _,
  groupId ← bytes_field map 1 None;
  number ← uint64_field map 2;
  previousRevisionDigest ← bytes_field map 3 (Some 32%nat);
  issuerRootPublicKey ← bytes_field map 4 (Some 32%nat);
  grantItems ← array_field map 5;
  grants ← mapR grantFromCbor grantItems;
  revocationItems ← array_field map 6;
  revocations ← mapR (λ v, expectBytes v (Some 32%nat)) revocationItems;
  policyItems ← array_field map 7;
  validationPolicies ← mapR policyFromCbor policyItems;
  successorRoot ← optional_field map 8 (λ v, expectBytes v (Some 32%nat));
  successorFeed ← optional_field map 9 (λ v, expectBytes v None);
  let revision := mkRevision groupId number previousRevisionDigest issuerRootPublicKey grants revocations
    validationPolicies successorRoot successorFeed in
  revisionToCbor revision ≫= λ _, Ok revision.

Definition encodeSignedCapabilityRevision (value : SignedCapabilityRevision) : result ErrorCode bytes :=
  revision ← encodeCapabilityRevision (sr_revision value);
  encodeCanonicalCbor (CMap (integerMap
    [(0, Some (CInt 1)); (1, Some (CBytes revision)); (2, Some (CBytes (sr_signature value)))])).

Definition decodeSignedCapabilityRevision (b : bytes) : result ErrorCode SignedCapabilityRevision :=
  v ← assertCanonical b;
  map ← expectMap v;
  assertKnownIntegerKeys map [0; 1; 2] ≫= λ _,
  expectVersion map 1 ≫= λ _,
  revision ← (b ← bytes_field map 1 None; decodeCapabilityRevision b);
  signature ← bytes_field map 2 (Some 64%nat);
  Ok (mkSignedRevision revision signature).

(** ** Recovery *)

Definition recoveryToCbor (value : RecoveryPayload) : result ErrorCode CborValue :=
  check (ry_lastRevision value <? ry_newRevision value) SCHEMA_INVALID ≫= λ _,
  check (length (ry_newRootPublicKey value) =? 32)%nat SCHEMA_INVALID ≫= λ _,
  check (eqb (ry_reopenHistory value) (negb (is_undefined (ry_reopeningReason value)))) SCHEMA_INVALID ≫= λ _,
  check (forallb (λ g, bool_decide (g_role g = validator)) (ry_validatorGrants value)) SCHEMA_INVALID ≫= λ _,
  grants ← mapR grantToCbor (ry_validatorGrants value);
  Ok (CMap (integerMap
    [(0, Some (CInt 1)); (1, Some (CBytes (ry_groupId value))); (2, Some (CInt (ry_lastRevision value)));
     (3, Some (CBytes (ry_lastRevisionDigest value))); (4, Some (CInt (ry_newRevision value)));
     (5, Some (CBytes (ry_newRootPublicKey value))); (6, Some (CBytes (ry_newCapabilityLogFeed value)));
     (7, Some (CArray grants)); (8, Some (CBool (ry_reopenHistory value)));
     (9, CText <$> ry_reopeningReason value)])).

Definition encodeRecoveryPayload (value : RecoveryPayload) : result ErrorCode bytes :=
  v ← recoveryToCbor value; encodeCanonicalCbor v.

Definition decodeRecoveryPayload (b : bytes) : result ErrorCode RecoveryPayload :=
  v ← assertCanonical b;
  map ← expectMap v;
  assertKnownIntegerKeys map [0; 1; 2; 3; 4; 5; 6; 7; 8; 9] ≫= λ _,
  expectVersion map 1 ≫= λ _,
  groupId ← bytes_field map 1 None;
  lastRevision ← uint64_field map 2;
  lastRevisionDigest ← bytes_field map 3 (Some 32%nat);
  newRevision ← uint64_field map 4;
  newRootPublicKey ← bytes_field map 5 (Some 32%nat);
  newCapabilityLogFeed ← bytes_field map 6 None;
  grantItems ← array_field map 7;
  validatorGrants ← mapR grantFromCbor grantItems;
  reopenHistory ← (v ← required map 8; expectBoolean v);
  reopeningReason ← optional_field map 9 expectString;
  let payload := mkRecoveryPayload groupId lastRevision lastRevisionDigest newRevision newRootPublicKey
    newCapabilityLogFeed validatorGrants reopenHistory reopeningReason in
  recoveryToCbor payload ≫= λ _, Ok payload.

Definition recoverySignatureToCbor (signature : RecoverySignature) : CborValue :=
  CMap (integerMap [(0, Some (CInt (rs_recoveryKeyIndex signature))); (1, Some (CBytes (rs_signature signature)))]).

Definition encodeRecoveryRecord (value : RecoveryRecord) : result ErrorCode bytes :=
  payload ← encodeRecoveryPayload (rr_payload value);
  encodeCanonicalCbor (CMap (integerMap
    [(0, Some (CInt 1)); (1, Some (CBytes payload));
     (2, Some (CArray (recoverySignatureToCbor <$> rr_signatures value)))])).

Definition recoverySignatureFromCbor (item : CborValue) : result ErrorCode RecoverySignature :=
  signature ← expectMap item;
  assertKnownIntegerKeys signature [0; 1] ≫= λ _,
  recoveryKeyIndex ← uint64_field signature 0;
  b ← bytes_field signature 1 (Some 64%nat);
  Ok (mkRecoverySignature recoveryKeyIndex b).

Fixpoint ascending_indices (signatures : list RecoverySignature) : result ErrorCode unit :=
  match signatures with
  | a :: ((b :: _) as rest) =>
      check (rs_recoveryKeyIndex a <? rs_recoveryKeyIndex b) SCHEMA_INVALID ≫= λ _, ascending_indices rest
  | _ => Ok tt
  end.

Definition decodeRecoveryRecord (b : bytes) : result ErrorCode RecoveryRecord :=
  v ← assertCanonical b;
  map ← expectMap v;
  assertKnownIntegerKeys map [0; 1; 2] ≫= λ _,
  expectVersion map 1 ≫= λ _,
  items ← array_field map 2;
  signatures ← mapR recoverySignatureFromCbor items;
  check (0 <? length signatures)%nat SCHEMA_INVALID ≫= λ _,
  ascending_indices signatures ≫= λ _,
  payload ← (b ← bytes_field map 1 None; decodeRecoveryPayload b);
  Ok (mkRecoveryRecord payload signatures).
