(* ===== verification/CapCodecProofs.v ===== *)
(** * Proofs about the capability codec

    Every decoder of [codec.ts] is strict: what it accepts is the encoding of
    what it returns, so the bytes a signature or a digest covers and the record
    the reducer works on determine each other. *)

From Stdlib Require Import Strings.Byte Strings.String.
From stdpp Require Import base list option numbers sets sorting.
From S2P Require Import Prelude JsMap Bytes Text Cbor CborProofs Schema CborTheorems Messages CapTypes CapCodec.

#[local] Open Scope Z_scope.

(** ** Fields *)

Lemma optional_field_cbor {A} (g : A → CborValue) m k f (o : option A) :
  (∀ v x, f v = Ok x → v = g x) → optional_field m k f = Ok o → map_get (KInt k) m = g <$> o.
Proof.
  intros Hg. unfold optional_field, optional. destruct (map_get (KInt k) m) as [v|]; intros H; inv_ok; subst; [|done].
  simpl. f_equal. by apply Hg.
Qed.

Lemma string_field_Ok m k s : string_field m k = Ok s ↔ map_get (KInt k) m = Some (CText s).
Proof.
  unfold string_field. split.
  - intros H. inv_ok. rewrite required_Ok, expectString_Ok in *. by subst.
  - intros H. by rewrite (proj2 (required_Ok _ _ _) H).
Qed.

Lemma array_field_Ok m k l : array_field m k = Ok l ↔ map_get (KInt k) m = Some (CArray l).
Proof.
  unfold array_field. split.
  - intros H. inv_ok. rewrite required_Ok, expectArray_Ok in *. by subst.
  - intros H. by rewrite (proj2 (required_Ok _ _ _) H).
Qed.

Lemma expectUint64_cbor v z : expectUint64 v = Ok z → v = CInt z.
Proof. by intros [-> _]%expectUint64_Ok. Qed.
Lemma expectString_cbor v s : expectString v = Ok s → v = CText s.
Proof. by intros ?%expectString_Ok. Qed.
Lemma expectBytes_cbor n v b : expectBytes v n = Ok b → v = CBytes b.
Proof. destruct n as [n|]; [by intros [-> _]%expectBytes_sized|by intros ?%expectBytes_any]. Qed.
Lemma expectBoolean_cbor v b : expectBoolean v = Ok b → v = CBool b.
Proof. destruct v; simpl; congruence. Qed.

Lemma SCOPES_lookup i s : SCOPES !! i = Some s → index_of SCOPES s = Z.of_nat i.
Proof. do 2 (destruct i as [|i]; [by intros [= <-]|]). done. Qed.
Lemma ROLES_lookup i r : ROLES !! i = Some r → roleIndex r = Ok (Z.of_nat i).
Proof. do 5 (destruct i as [|i]; [by intros [= <-]|]). done. Qed.

Lemma scopeFromCbor_cbor v s : scopeFromCbor v = Ok s → v = CInt (index_of SCOPES s).
Proof.
  unfold scopeFromCbor, check, protocolInvariant. intros H. inv_ok.
  rename select (expectUint64 v = Ok _) into Hv. apply expectUint64_Ok in Hv as [-> Hx].
  destruct (SCOPES !! _) as [s'|] eqn:Hs; [|done]. inv_ok. subst.
  apply SCOPES_lookup in Hs. rewrite Z2Nat.id in Hs by lia. by rewrite Hs.
Qed.

(** Turns the successful reads of optional and array fields into facts on the map. *)
Ltac cap_facts :=
  repeat match goal with
  | H : optional_field _ _ expectUint64 = Ok _ |- _ => apply (optional_field_cbor CInt _ _ _ _ expectUint64_cbor) in H
  | H : optional_field _ _ expectString = Ok _ |- _ => apply (optional_field_cbor CText _ _ _ _ expectString_cbor) in H
  | H : optional_field _ _ scopeFromCbor = Ok _ |- _ =>
      apply (optional_field_cbor (λ s, CInt (index_of SCOPES s)) _ _ _ _ scopeFromCbor_cbor) in H
  | H : optional_field _ _ (λ v, expectBytes v ?n) = Ok _ |- _ =>
      apply (optional_field_cbor CBytes _ _ _ _ (expectBytes_cbor n)) in H
  | H : string_field _ _ = Ok _ |- _ => apply string_field_Ok in H
  | H : array_field _ _ = Ok _ |- _ => apply array_field_Ok in H
  | H : expectBoolean _ = Ok _ |- _ => apply expectBoolean_cbor in H; subst
  | H : expectMap _ = Ok _ |- _ => apply expectMap_Ok in H; subst
  end; field_facts.

(** Replaces the fields of the map in an encoding by what was read. *)
Ltac fold_read Henc :=
  unfold fields_of, optional in Henc; cbn [fmap list_fmap] in Henc;
  repeat match goal with
  | H : map_get ?k ?m = _ |- _ =>
      match type of Henc with context [map_get k m] => rewrite H in Henc end
  end.

(** The encoding of a map all of whose keys are known. *)
Ltac known_encoding Hb Henc :=
  match goal with
  | H : assertKnownIntegerKeys ?m _ = Ok _ |- _ =>
      apply assertKnown_unit in H;
      match type of Hb with encodeCanonicalCbor (CMap m) = _ =>
        pose proof (record_encoding _ _ _ Hb H ltac:(literal_nodup)) as Henc end
  end; fold_read Henc.

(** ** Strict codecs of values *)

(** [from] accepts only values with the encoding of what [to] writes. *)
Definition strict_codec {A} (to : A → result ErrorCode CborValue) (from : CborValue → result ErrorCode A) : Prop :=
  ∀ v x b, from v = Ok x → encodeCanonicalCbor v = Ok b → ∃ w, to x = Ok w ∧ encodeCanonicalCbor w = Ok b.

Lemma strict_codec_array {A} (to : A → result ErrorCode CborValue) from items xs b :
  strict_codec to from → mapR from items = Ok xs → encodeCanonicalCbor (CArray items) = Ok b →
  ∃ ws, mapR to xs = Ok ws ∧ same_encoding (CArray items) (CArray ws).
Proof.
  intros Hc Hxs%mapR_Ok Hb.
  assert (∀ v, v ∈ items → ∃ ib, encodeCanonicalCbor v = Ok ib) as Hitems.
  { intros v Hv. destruct (encode_array_item _ _ _ Hb Hv) as (ib & Hib & _). by exists ib. }
  clear Hb. cut (∃ ws, mapR to xs = Ok ws ∧ Forall2 same_encoding items ws).
  { intros (ws & ? & ?). exists ws. split; [done|]. by apply array_same_encoding. }
  induction Hxs as [|v x items xs Hx _ IH]; [exists []; by split; [|constructor]|].
  destruct (Hitems v) as [ib Hib]; [left|]. destruct (Hc v x ib Hx Hib) as (w & Hw & Hwb).
  destruct IH as (ws & Hws & Hall); [intros; apply Hitems; by right|].
  exists (w :: ws). cbn [mapR]. rewrite Hw, Hws. split; [done|]. constructor; [|done].
  unfold same_encoding. congruence.
Qed.

Lemma item_encoding m k v b :
  encodeCanonicalCbor (CMap m) = Ok b → map_get (KInt k) m = Some v → ∃ vb, encodeCanonicalCbor v = Ok vb.
Proof.
  intros Hb Hv. destruct (encode_map_item _ _ _ _ Hb (map_get_Some_elem _ _ _ Hv)) as [_ (vb & Hvb & _)].
  by exists vb.
Qed.

Lemma grant_strict : strict_codec grantToCbor grantFromCbor.
Proof.
  intros v g b. unfold grantFromCbor, check, protocolInvariant. intros H Hb. inv_ok. cap_facts. subst.
  destruct (ROLES !! _) as [r|] eqn:Hr; [|done]. inv_ok. subst.
  known_encoding Hb Henc. apply ROLES_lookup in Hr. rewrite Z2Nat.id in Hr by lia.
  rename select (grantToCbor _ = Ok _) into Hg. eexists. split; [exact Hg|].
  unfold grantToCbor in Hg. cbn [g_signingPublicKey g_validFromRevision g_validUntilRevision g_role
    g_minimumAuthorTimestampMs g_validatorClass g_readerScope g_hpkePublicKey g_transportAuthor] in Hg.
  rewrite Hr in Hg. inv_ok. subst. rewrite <-Henc.
  cbn [g_subjectId g_signingPublicKey g_validFromRevision g_validUntilRevision g_organization g_validatorClass
    g_minimumAuthorTimestampMs g_readerScope g_hpkePublicKey g_transportAuthor].
  rewrite <-option_fmap_compose. done.
Qed.

(** ** Policies *)

(** Adding elements to a set one by one; the set is as long as the list exactly
    when the list has no duplicates, and then it is the list. *)
Lemma set_of_list_keys {K} `{EqDecision K} (l : list K) (acc : jsset K) :
  (length (foldl (λ set o, set_add o set) acc l) ≤ length acc + length l)%nat ∧
  (length (foldl (λ set o, set_add o set) acc l) = (length acc + length l)%nat →
   map_keys (foldl (λ set o, set_add o set) acc l) = map_keys acc ++ l).
Proof.
  revert acc. induction l as [|x l IH]; intros acc; cbn [foldl].
  { split; [simpl; lia|]. intros _. by rewrite app_nil_r. }
  destruct (IH (set_add x acc)) as [Hle Heq]. unfold set_add in *.
  destruct (map_get x acc) as [u|] eqn:Hx.
  - assert (length (map_set x tt acc) = length acc) as Hlen.
    { rewrite <-!(length_fmap fst). change (length (map_keys (map_set x tt acc)) = length (map_keys acc)).
      by rewrite map_keys_set, (proj2 (map_has_true _ _)). }
    rewrite Hlen in *. simpl. split; [lia|]. lia.
  - rewrite map_set_fresh in * by done. rewrite length_app in *. simpl in *. split; [lia|].
    intros Hn. rewrite Heq by lia. unfold map_keys. rewrite fmap_app, <-app_assoc. done.
Qed.

Lemma set_of_list_id {K} `{EqDecision K} (l : list K) :
  length (map_keys (foldl (λ set o, set_add o set) [] l)) = length l →
  map_keys (foldl (λ set o, set_add o set) [] l) = l.
Proof. intros Hn. apply (set_of_list_keys l []). unfold map_keys in Hn. by rewrite length_fmap in Hn. Qed.

Definition class_entry (e : jsstring * Z) : CborMapKey * CborValue := (KText e.1, CInt e.2).

Lemma class_entry_inj : Inj (=) (=) class_entry.
Proof. intros [] [] [=]. by subst. Qed.

Lemma class_keys (cl : list (jsstring * Z)) k : KText k ∈ (class_entry <$> cl).*1 ↔ k ∈ cl.*1.
Proof.
  rewrite <-list_fmap_compose, !list_elem_of_fmap. split; intros ([k' v] & Heq & Hin).
  - injection Heq as ->. by exists (k', v).
  - simpl in Heq. subst. by exists (k', v).
Qed.

(** The class minimums read from a map are its entries, in its order. *)
Lemma classes_read (m : IntegerMap) (acc cl : list (jsstring * Z)) :
  NoDup ((class_entry <$> acc) ++ m).*1 →
  foldR (λ classes e, match e.1 with
    | KText name => minimum ← expectUint64 e.2; Ok (map_set name minimum classes)
    | _ => Err SCHEMA_INVALID
    end) acc m = Ok cl →
  class_entry <$> cl = (class_entry <$> acc) ++ m.
Proof.
  revert acc. induction m as [|[k v] m IH]; intros acc Hnd H; cbn [foldR] in H; inv_ok; subst.
  { by rewrite app_nil_r. }
  rename select (match (k, v).1 with KText _ => _ | _ => _ end = Ok _) into Hstep. simpl in Hstep.
  destruct k as [|name|]; try done. inv_ok. subst.
  rename select (expectUint64 v = Ok _) into Hv. apply expectUint64_cbor in Hv as ->.
  assert (map_get name acc = None) as Hfresh.
  { apply map_get_None. intros Hin%class_keys. rewrite fmap_app, NoDup_app in Hnd.
    destruct Hnd as (_ & Hd & _). apply (Hd _ Hin). left. }
  rewrite map_set_fresh in H by done.
  rewrite (IH (acc ++ [(name, x0)])); [|by rewrite (fmap_app class_entry), <-app_assoc|done].
  by rewrite (fmap_app class_entry), <-app_assoc.
Qed.

(** Written back, they are the same map. *)
Lemma classes_written (cl : list (jsstring * Z)) (acc out : IntegerMap) :
  NoDup (acc ++ (class_entry <$> cl)).*1 →
  foldR (λ classes e,
    check ((0 <? length e.1)%nat && (0 <? e.2)) SCHEMA_INVALID ≫= λ _,
    Ok (map_set (KText e.1) (CInt e.2) classes)) acc cl = Ok out →
  out = acc ++ (class_entry <$> cl).
Proof.
  revert acc. induction cl as [|[k z] cl IH]; intros acc Hnd H; cbn [foldR] in H.
  { inv_ok. subst. by rewrite app_nil_r. }
  apply bind_Ok in H as (acc' & Hstep & H). apply bind_Ok in Hstep as (? & _ & [= <-]).
  assert (map_get (KText k) acc = None) as Hfresh.
  { apply map_get_None. intros Hin. rewrite fmap_app, NoDup_app in Hnd. destruct Hnd as (_ & Hd & _).
    apply (Hd _ Hin). left. }
  simpl in H. rewrite map_set_fresh in H by done.
  rewrite (IH (acc ++ [class_entry (k, z)]) ltac:(rewrite <-app_assoc; exact Hnd) H). by rewrite <-app_assoc.
Qed.

Lemma strings_read items l : mapR expectString items = Ok l → items = CText <$> l.
Proof.
  intros H%mapR_Ok. induction H as [|v s items l Hs _ IH]; [done|]. by rewrite fmap_cons, <-IH, (expectString_cbor v s).
Qed.

Lemma bytes_items_read n items l : mapR (λ v, expectBytes v n) items = Ok l → items = CBytes <$> l.
Proof.
  intros H%mapR_Ok. induction H as [|v s items l Hs _ IH]; [done|]. by rewrite fmap_cons, <-IH, (expectBytes_cbor n v s).
Qed.

Lemma policy_strict : strict_codec policyToCbor policyFromCbor.
Proof.
  intros v p b. unfold policyFromCbor, check. intros H Hb. inv_ok. cap_facts. subst.
  rename select (foldR _ _ _ = Ok _) into Hclasses. rename select (mapR expectString _ = Ok _) into Horgs.
  apply strings_read in Horgs. subst.
  match goal with H : map_get (KInt 2) _ = Some (CMap ?m) |- _ =>
    destruct (item_encoding _ _ _ _ Hb H) as [cb Hcb]; pose proof (encode_map_NoDup _ _ Hcb) as Hnd end.
  apply classes_read in Hclasses; [|done]. simpl in Hclasses.
  known_encoding Hb Henc. rename select (policyToCbor _ = Ok _) into Hp.
  eexists. split; [exact Hp|]. unfold policyToCbor, check, protocolInvariant in Hp.
  cbn [vp_minimumValidators vp_classMinimums vp_requiredOrganizations] in Hp. inv_ok. subst.
  rename select ((length (map_keys _) =? _)%nat = true) into Hlen. apply Nat.eqb_eq, set_of_list_id in Hlen.
  rewrite Hlen, <-Henc. cbn [vp_version vp_minimumValidators].
  rename select (foldR _ _ _ = Ok _) into Hw. apply classes_written in Hw; [|done].
  by rewrite Hw.
Qed.

(** ** Genesis, revisions and recovery payloads *)

Lemma clock_strict : strict_codec (λ c, Ok (clockToCbor c)) clockFromCbor.
Proof.
  intros v c b. unfold clockFromCbor. intros H Hb. inv_ok. cap_facts. subst.
  known_encoding Hb Henc. by eexists.
Qed.

Lemma resource_strict : strict_codec (λ r, Ok (resourceToCbor r)) resourceFromCbor.
Proof.
  intros v c b. unfold resourceFromCbor. intros H Hb. inv_ok. cap_facts. subst.
  known_encoding Hb Henc. by eexists.
Qed.

(** The arrays of grants, policies and byte strings of a record. *)
Ltac strict_arrays Hb :=
  repeat match goal with
  | H : mapR (λ v, expectBytes v ?n) _ = Ok _ |- _ => apply bytes_items_read in H; subst
  | H : mapR grantFromCbor ?items = Ok ?gs, Hf : map_get _ _ = Some (CArray ?items) |- _ =>
      let b := fresh "gb" in let Hi := fresh in destruct (item_encoding _ _ _ _ Hb Hf) as [b Hi];
      destruct (strict_codec_array _ _ _ _ _ grant_strict H Hi) as (? & ? & ?); clear H Hi
  | H : mapR policyFromCbor ?items = Ok ?ps, Hf : map_get _ _ = Some (CArray ?items) |- _ =>
      let b := fresh "pb" in let Hi := fresh in destruct (item_encoding _ _ _ _ Hb Hf) as [b Hi];
      destruct (strict_codec_array _ _ _ _ _ policy_strict H Hi) as (? & ? & ?); clear H Hi
  end.

#[local] Instance same_encoding_refl : Reflexive same_encoding.
Proof. by intros v. Qed.

Ltac same_fields :=
  apply record_same_encoding; [literal_nodup|];
  repeat (apply Forall2_cons; split; [split; [reflexivity|]; cbn [snd]|]); [..|apply Forall2_nil; exact I];
  first [ apply option_Forall2_refl, _ | constructor; first [done | unfold same_encoding in *; congruence] ].

Lemma revision_strict b r : decodeCapabilityRevision b = Ok r → encodeCapabilityRevision r = Ok b.
Proof.
  unfold decodeCapabilityRevision. intros H. inv_ok. cap_facts.
  rename select (assertCanonical b = Ok _) into Hb. apply assert_sound in Hb. subst.
  strict_arrays Hb. known_encoding Hb Henc.
  rename select (revisionToCbor _ = Ok _) into Hr. unfold encodeCapabilityRevision. rewrite Hr.
  cbn [mbind result_bind]. unfold revisionToCbor, check, protocolInvariant in Hr.
  cbn [cr_grants cr_validationPolicies] in Hr. inv_ok. subst. simplify_eq. rewrite <-Henc. symmetry.
  cbn [cr_groupId cr_revision cr_previousRevisionDigest cr_issuerRootPublicKey cr_revocations
    cr_successorRootPublicKey cr_successorCapabilityLogFeed]. same_fields.
Qed.

Lemma recovery_strict b r : decodeRecoveryPayload b = Ok r → encodeRecoveryPayload r = Ok b.
Proof.
  unfold decodeRecoveryPayload. intros H. inv_ok. cap_facts.
  rename select (assertCanonical b = Ok _) into Hb. apply assert_sound in Hb. subst.
  strict_arrays Hb. known_encoding Hb Henc.
  rename select (recoveryToCbor _ = Ok _) into Hr. unfold encodeRecoveryPayload. rewrite Hr.
  cbn [mbind result_bind]. unfold recoveryToCbor, check, protocolInvariant in Hr.
  cbn [ry_validatorGrants] in Hr. inv_ok. subst. simplify_eq. rewrite <-Henc. symmetry.
  cbn [ry_groupId ry_lastRevision ry_lastRevisionDigest ry_newRevision ry_newRootPublicKey
    ry_newCapabilityLogFeed ry_reopenHistory ry_reopeningReason]. same_fields.
Qed.

Lemma genesis_strict b g : decodeGenesisManifest b = Ok g → encodeGenesisManifest g = Ok b.
Proof.
  unfold decodeGenesisManifest. intros H. inv_ok. cap_facts.
  rename select (assertCanonical b = Ok _) into Hb. apply assert_sound in Hb. subst.
  strict_arrays Hb.
  repeat match goal with H : map_get (KInt ?k) _ = Some ?v |- _ =>
    match goal with
    | Hc : clockFromCbor v = Ok _ |- _ => destruct (item_encoding _ _ _ _ Hb H) as [cb Hcb];
        destruct (clock_strict _ _ _ Hc Hcb) as (cw & [= <-] & Hcw); clear Hc
    | Hc : resourceFromCbor v = Ok _ |- _ => destruct (item_encoding _ _ _ _ Hb H) as [rb Hrb];
        destruct (resource_strict _ _ _ Hc Hrb) as (rw & [= <-] & Hrw); clear Hc
    end end.
  known_encoding Hb Henc.
  rename select (genesisToCbor _ = Ok _) into Hr. unfold encodeGenesisManifest. rewrite Hr.
  cbn [mbind result_bind]. unfold genesisToCbor, check, protocolInvariant in Hr.
  cbn [gm_initialCapabilities gm_validationPolicies] in Hr. inv_ok. subst. simplify_eq. rewrite <-Henc. symmetry.
  cbn [gm_groupId gm_schemaId gm_rootAdminPublicKey gm_capabilityLogFeed gm_recoveryPublicKeys
    gm_recoveryThreshold gm_clockPolicy gm_resourcePolicy gm_encryptionSuite gm_createdAtMs].
  same_fields.
Qed.

(** ** Signed records *)

Lemma signature_strict : strict_codec (λ s, Ok (recoverySignatureToCbor s)) recoverySignatureFromCbor.
Proof.
  intros v c b. unfold recoverySignatureFromCbor. intros H Hb. inv_ok. cap_facts. subst.
  known_encoding Hb Henc. by eexists.
Qed.

Lemma signed_genesis_strict b g : decodeSignedGenesis b = Ok g → encodeSignedGenesis g = Ok b.
Proof.
  unfold decodeSignedGenesis. intros H. inv_ok. cap_facts.
  rename select (assertCanonical b = Ok _) into Hb. apply assert_sound in Hb. subst.
  known_encoding Hb Henc. rename select (decodeGenesisManifest _ = Ok _) into Hd. apply genesis_strict in Hd.
  unfold encodeSignedGenesis. cbn [sg_manifest sg_signature]. by rewrite Hd.
Qed.

Lemma signed_revision_strict b r :
  decodeSignedCapabilityRevision b = Ok r → encodeSignedCapabilityRevision r = Ok b.
Proof.
  unfold decodeSignedCapabilityRevision. intros H. inv_ok. cap_facts.
  rename select (assertCanonical b = Ok _) into Hb. apply assert_sound in Hb. subst.
  known_encoding Hb Henc. rename select (decodeCapabilityRevision _ = Ok _) into Hd. apply revision_strict in Hd.
  unfold encodeSignedCapabilityRevision. cbn [sr_revision sr_signature]. by rewrite Hd.
Qed.

Lemma recovery_record_strict b r : decodeRecoveryRecord b = Ok r → encodeRecoveryRecord r = Ok b.
Proof.
  unfold decodeRecoveryRecord. intros H. inv_ok. cap_facts.
  rename select (assertCanonical b = Ok _) into Hb. apply assert_sound in Hb. subst.
  rename select (mapR recoverySignatureFromCbor _ = Ok _) into Hs.
  match type of Hs with mapR _ ?items = _ =>
    match goal with Hf : map_get _ _ = Some (CArray items) |- _ => destruct (item_encoding _ _ _ _ Hb Hf) as [sb Hsb] end end.
  destruct (strict_codec_array _ _ _ _ _ signature_strict Hs Hsb) as (ws & Hws & Hsame).
  known_encoding Hb Henc. rename select (decodeRecoveryPayload _ = Ok _) into Hd. apply recovery_strict in Hd.
  unfold encodeRecoveryRecord. cbn [rr_payload rr_signatures]. rewrite Hd. cbn [mbind result_bind].
  rewrite (mapR_total _ recoverySignatureToCbor) in Hws by (by apply Forall_true). inv_ok. subst.
  rewrite <-Henc. symmetry. same_fields.
Qed.

(** the capability codec is strict.  Whatever genesis manifest, capability
    revision or recovery record the decoders accept, its bytes are exactly the
    encoding of the value returned: a signature over the bytes is a signature
    over the value, and no two byte strings are the same record. *)
Theorem capability_codecs_strict b :
  (∀ g, decodeSignedGenesis b = Ok g → encodeSignedGenesis g = Ok b) ∧
  (∀ r, decodeSignedCapabilityRevision b = Ok r → encodeSignedCapabilityRevision r = Ok b) ∧
  (∀ r, decodeRecoveryRecord b = Ok r → encodeRecoveryRecord r = Ok b) ∧
  (∀ g, decodeGenesisManifest b = Ok g → encodeGenesisManifest g = Ok b) ∧
  (∀ r, decodeCapabilityRevision b = Ok r → encodeCapabilityRevision r = Ok b) ∧
  (∀ p, decodeRecoveryPayload b = Ok p → encodeRecoveryPayload p = Ok b).
Proof.
  split_and!; intros x; auto using signed_genesis_strict, signed_revision_strict, recovery_record_strict,
    genesis_strict, revision_strict, recovery_strict.
Qed.

Definition sample_revision : CapabilityRevision :=
  mkRevision [x01] 3 (replicate 32 x02) (replicate 32 x03)
    [mkGrant [x04] (replicate 32 x05) (Some (js "@feed")) validator 3 (Some 9) (Some (js "org")) (Some (js "gold"))
       (Some 1700000000000) None None;
     mkGrant [x06] (replicate 32 x07) None reader 3 None None None None (Some scope_audit) (Some (replicate 32 x08))]
    [replicate 32 x09]
    [mkPolicy 2 3 [(js "gold", 2); (js "a", 1)] [js "org"; js "other"]]
    (Some (replicate 32 x0a)) (Some [x0b; x0c]).

(** The revision above is read back by the decoder; its class minimums come
    back in the canonical order of their keys, and encode to the same bytes. *)
Lemma capability_codecs_strict_witness : ∃ b r,
  encodeSignedCapabilityRevision (mkSignedRevision sample_revision (replicate 64 x0d)) = Ok b ∧
  decodeSignedCapabilityRevision b = Ok r ∧ cr_revision (sr_revision r) = 3 ∧
  encodeSignedCapabilityRevision r = Ok b.
Proof.
  eexists _, _. split; [vm_compute; reflexivity|].
  match goal with |- ?P ∧ _ => assert P as Hd by (vm_compute; reflexivity) end.
  split; [exact Hd|]. split; [reflexivity|].
  apply (proj1 (proj2 (capability_codecs_strict _))). exact Hd.
Defined.

(** * What the bytes of capability records determine

    The encoders of grants and recovery payloads are injective: equal bytes
    come from equal values. *)

(** The field [k] of two records that encode to the same bytes, or have the same
    canonical form. *)
Lemma canonical_record_field es es' k o o' :
  canonical_form (CMap (integerMap es)) = canonical_form (CMap (integerMap es')) →
  NoDup es.*1 → NoDup es'.*1 → (k, o) ∈ es → (k, o') ∈ es' →
  canonical_form <$> o = canonical_form <$> o'.
Proof.
  intros Heq Hn Hn' Hk Hk'.
  assert (∀ es, NoDup es.*1 → NoDup (integerMap es).*1) as Hwf.
  { intros fs Hfs. rewrite integerMap_omap by done. by apply omap_keys_NoDup. }
  destruct (canonical_form (CMap (integerMap es'))) as [| | | | | |m'] eqn:Hm'; try done.
  pose proof (canonical_map_get _ (KInt k) (Hwf _ Hn) _ Heq) as E.
  pose proof (canonical_map_get _ (KInt k) (Hwf _ Hn') _ Hm') as E'.
  rewrite (integerMap_get _ _ _ Hn Hk) in E. rewrite (integerMap_get _ _ _ Hn' Hk') in E'. congruence.
Qed.

(** Reads off the equality of the field [k] of two literal records. *)
Ltac field_eq Heq k name :=
  match type of Heq with
  | canonical_form (CMap (integerMap ?es)) = canonical_form (CMap (integerMap ?es')) =>
      let x := fresh in let y := fresh in
      evar (x : option CborValue); evar (y : option CborValue);
      assert (canonical_form <$> x = canonical_form <$> y) as name by
        (subst x y; eapply (canonical_record_field es es' k);
           [exact Heq | literal_nodup | literal_nodup | find_field | find_field]);
      subst x y; cbn [fmap option_fmap option_map canonical_form] in name
  end.

Lemma option_bytes_inj (o o' : option bytes) :
  canonical_form <$> (CBytes <$> o) = canonical_form <$> (CBytes <$> o') → o = o'.
Proof. destruct o, o'; simpl; congruence. Qed.
Lemma option_int_inj (o o' : option Z) :
  canonical_form <$> (CInt <$> o) = canonical_form <$> (CInt <$> o') → o = o'.
Proof. destruct o, o'; simpl; congruence. Qed.
Lemma option_text_inj (o o' : option jsstring) :
  canonical_form <$> (CText <$> o) = canonical_form <$> (CText <$> o') → o = o'.
Proof. destruct o, o'; simpl; congruence. Qed.

Lemma roleIndex_inj r r' i : roleIndex r = Ok i → roleIndex r' = Ok i → r = r'.
Proof. destruct r, r'; vm_compute; congruence. Qed.
Lemma scope_index_inj s s' : index_of SCOPES s = index_of SCOPES s' → s = s'.
Proof. destruct s, s'; vm_compute; congruence. Qed.

Lemma grant_cbor_inj g g' w w' :
  grantToCbor g = Ok w → grantToCbor g' = Ok w' → canonical_form w = canonical_form w' → g = g'.
Proof.
  unfold grantToCbor. intros H H' Heq. inv_ok. subst.
  field_eq Heq 0 E0. field_eq Heq 1 E1. field_eq Heq 2 E2. field_eq Heq 3 E3.
  field_eq Heq 4 E4. field_eq Heq 5 E5. field_eq Heq 6 E6. field_eq Heq 7 E7.
  field_eq Heq 8 E8. field_eq Heq 9 E9. field_eq Heq 10 E10.
  apply option_int_inj in E4, E7, E8. apply option_text_inj in E5, E6, E10. apply option_bytes_inj in E9.
  injection E2 as E2. subst. rename select (roleIndex (g_role g) = Ok _) into Hr.
  rename select (roleIndex (g_role g') = Ok _) into Hr'. pose proof (roleIndex_inj _ _ _ Hr Hr').
  destruct g, g'; simpl in *. simplify_eq. f_equal.
  repeat match goal with o : option ReaderHistoryScope |- _ => destruct o end; simpl in *; simplify_eq; try done.
  f_equal. by apply scope_index_inj.
Qed.

Lemma grants_cbor_inj gs gs' ws ws' :
  mapR grantToCbor gs = Ok ws → mapR grantToCbor gs' = Ok ws' →
  canonical_form (CArray ws) = canonical_form (CArray ws') → gs = gs'.
Proof.
  intros H%mapR_Ok H'%mapR_Ok [= Heq]. revert gs' ws' H' Heq.
  induction H as [|g w gs ws Hg _ IH]; intros gs' ws' H'; destruct H' as [|g' w' gs' ws' Hg' H'];
    try done. rewrite !fmap_cons. intros [= Hw Hws].
  f_equal; [by eapply grant_cbor_inj|by eapply IH].
Qed.

Lemma recovery_payload_inj p p' b :
  encodeRecoveryPayload p = Ok b → encodeRecoveryPayload p' = Ok b → zlen b ≤ MAX_SAFE_INTEGER → p = p'.
Proof.
  unfold encodeRecoveryPayload, recoveryToCbor. intros H H' Hlen. inv_ok. subst.
  pose proof (encode_injective _ _ _ H H' Hlen) as Heq.
  field_eq Heq 1 E1. field_eq Heq 2 E2. field_eq Heq 3 E3. field_eq Heq 4 E4. field_eq Heq 5 E5.
  field_eq Heq 6 E6. field_eq Heq 7 E7. field_eq Heq 8 E8. field_eq Heq 9 E9.
  apply option_text_inj in E9. injection E7 as E7.
  rename select (mapR grantToCbor (ry_validatorGrants p) = Ok _) into Hg.
  rename select (mapR grantToCbor (ry_validatorGrants p') = Ok _) into Hg'.
  pose proof (grants_cbor_inj _ _ _ _ Hg Hg' ltac:(cbn [canonical_form]; congruence)).
  destruct p, p'; simpl in *. congruence.
Qed.
