(* ===== verification/Reducer.v ===== *)
(** * The capability log: [packages/capabilities/src/reducer.ts], [recovery.ts], [admission.ts]

    The genesis snapshot, the application of one signed revision, threshold
    recovery, the queries on a snapshot, and the assembly of an admission
    proof from validator attestations.  SHA-256 and Ed25519 are parameters. *)

From Stdlib Require Import Strings.Byte Strings.String.
From stdpp Require Import base list option numbers.
From S2P Require Import Prelude JsMap Bytes Text JsNumber Cbor Schema Domains Messages CapTypes CapCodec Policy.

#[local] Open Scope Z_scope.

(** The fields of a transaction core the capability layer looks at. *)
Record CoreView := mkCoreView {
  co_groupId : bytes;
  co_membershipRevision : bytes;
  co_validationPolicy : bytes;
  co_authorId : bytes;
  co_authorTimestampMs : Z;
}.

(** ** Queries on a snapshot *)

Definition isCapabilityActive (capability : EffectiveCapability) (revision : Z) : bool :=
  (g_validFromRevision (ec_grant capability) <=? revision) &&
  match g_validUntilRevision (ec_grant capability) with None => true | Some until => revision <=? until end &&
  match ec_revokedAtRevision capability with None => true | Some revoked => revision <? revoked end.

Definition capabilitiesForSubject (snapshot : CapabilitySnapshot) (subjectId : bytes) (revision : Z) :
    list EffectiveCapability :=
  js_sort (λ a b, compareBytes (ec_id a) (ec_id b))
    (filter (λ c, equalBytes (g_subjectId (ec_grant c)) subjectId && isCapabilityActive c revision = true)
      (map_values (cs_capabilities snapshot))).

Definition hasRole (snapshot : CapabilitySnapshot) (subjectId : bytes) (role : CapabilityRole) (revision : Z) : bool :=
  existsb (λ c, bool_decide (g_role (ec_grant c) = role)) (capabilitiesForSubject snapshot subjectId revision).

Definition activeCapabilityById (snapshot : CapabilitySnapshot) (id : bytes) (revision : Z) :
    option EffectiveCapability :=
  match map_get (bytesToHex id) (cs_capabilities snapshot) with
  | Some capability => if isCapabilityActive capability revision then Some capability else None
  | None => None
  end.

Definition policyById (snapshot : CapabilitySnapshot) (id : bytes) : option ValidationPolicy :=
  ep_policy <$> map_get (bytesToHex id) (cs_policies snapshot).

Definition canAuthorTransaction (snapshot : CapabilitySnapshot) (core : CoreView) : bool :=
  if negb (equalBytes (cs_groupId snapshot) (co_groupId core)) ||
     negb (equalBytes (cs_revisionDigest snapshot) (co_membershipRevision core)) then false
  else existsb (λ capability,
    bool_decide (g_role (ec_grant capability) = writer) &&
    equalBytes (g_signingPublicKey (ec_grant capability)) (co_authorId core) &&
    isCapabilityActive capability (cs_revision snapshot)) (map_values (cs_capabilities snapshot)).

(** ** Admission proofs *)

Definition validatorEvidenceForAttestation (snapshot : CapabilitySnapshot) (attestation : ValidatorAttestation)
    (core : CoreView) (txId candidateDigest : bytes) : option ValidatorEvidence :=
  if negb (equalBytes (at_groupId attestation) (cs_groupId snapshot)) ||
     negb (equalBytes (co_groupId core) (cs_groupId snapshot)) ||
     negb (equalBytes (at_membershipRevision attestation) (cs_revisionDigest snapshot)) ||
     negb (equalBytes (co_membershipRevision core) (cs_revisionDigest snapshot)) ||
     negb (equalBytes (at_txId attestation) txId) ||
     negb (equalBytes (at_candidateDigest attestation) candidateDigest) ||
     negb (at_authorTimestampMs attestation =? co_authorTimestampMs core) ||
     (at_authorTimestampMs attestation <=? at_acceptedAboveMs attestation)
  then None
  else
    match activeCapabilityById snapshot (at_validatorCapability attestation) (cs_revision snapshot) with
    | None => None
    | Some capability =>
        let grant := ec_grant capability in
        if negb (bool_decide (g_role grant = validator)) ||
           negb (equalBytes (g_signingPublicKey grant) (at_validatorId attestation)) ||
           (co_authorTimestampMs core <=? default (-1) (g_minimumAuthorTimestampMs grant))
        then None
        else Some (mkEvidence (ec_id capability) (at_validatorId attestation)
                     (g_organization grant) (g_validatorClass grant))
    end.

Record AdmissionProofEvaluation := mkAdmissionProof {
  ap_evaluation : PolicyEvaluation;
  ap_consideredAttestations : Z;
  ap_rejectedAttestations : list jsstring;
}.

(** The loop over the attestations: the evidence and the rejections. *)
Fixpoint collect_evidence (snapshot : CapabilitySnapshot) (core : CoreView) (txId candidateDigest : bytes)
    (policy : ValidationPolicy) (attestations : list ValidatorAttestation) :
    list ValidatorEvidence * list jsstring :=
  match attestations with
  | [] => ([], [])
  | attestation :: rest =>
      let (evidence, rejected) := collect_evidence snapshot core txId candidateDigest policy rest in
      if negb (at_policyVersion attestation =? vp_version policy)
      then (evidence, js "wrong_policy_version" :: rejected)
      else match validatorEvidenceForAttestation snapshot attestation core txId candidateDigest with
           | None => (evidence, js "invalid_attestation_context" :: rejected)
           | Some item => (item :: evidence, rejected)
           end
  end.

Definition assembleAdmissionProof (snapshot : CapabilitySnapshot) (core : CoreView) (txId candidateDigest : bytes)
    (attestations : list ValidatorAttestation) : result ErrorCode AdmissionProofEvaluation :=
  match policyById snapshot (co_validationPolicy core) with
  | None => Ok (mkAdmissionProof (mkPolicyEvaluation false [] [js "policy:unknown"]) 0
                  ((λ _, js "unknown_policy") <$> attestations))
  | Some policy =>
      let (evidence, rejected) := collect_evidence snapshot core txId candidateDigest policy attestations in
      evaluation ← evaluateValidationPolicy policy evidence;
      Ok (mkAdmissionProof evaluation (zlen evidence) rejected)
  end.

Definition canReaderAccessRevision (capability : EffectiveCapability) (membershipRevision : Z) : bool :=
  if negb (bool_decide (g_role (ec_grant capability) = reader)) then false
  else if bool_decide (g_readerScope (ec_grant capability) = Some scope_audit) then true
  else g_validFromRevision (ec_grant capability) <=? membershipRevision.

(** [hpkePublicKey as Uint8Array]: the key may be [undefined] for the type
    checker, never for a reader grant the codec accepted. *)
Definition readerRecipientsForRevision (snapshot : CapabilitySnapshot) (membershipRevision : Z) :
    list (bytes * option bytes) :=
  let readers := (λ c, (g_subjectId (ec_grant c), g_hpkePublicKey (ec_grant c))) <$>
    filter (λ c, isCapabilityActive c (cs_revision snapshot) && canReaderAccessRevision c membershipRevision = true)
      (map_values (cs_capabilities snapshot)) in
  map_values (foldl (λ unique r, map_set (bytesToHex r.1) r unique) [] readers).

(** ** The capability log *)

Section log.
Context (sha256 : bytes → bytes) (ed25519_verify : bytes → bytes → bytes → bool).

Definition capabilityId (grant : CapabilityGrant) : result ErrorCode bytes :=
  v ← grantToCbor grant; b ← encodeCanonicalCbor v; hashDomain sha256 DcapabilityGrant b.

Definition validationPolicyId (policy : ValidationPolicy) : result ErrorCode bytes :=
  v ← policyToCbor policy; b ← encodeCanonicalCbor v; hashDomain sha256 DvalidationPolicy b.

Definition verifySignedGenesis (value : SignedGenesis) : result ErrorCode bool :=
  b ← encodeGenesisManifest (sg_manifest value);
  Ok (verifyDomain ed25519_verify Dgenesis b (sg_signature value) (gm_rootAdminPublicKey (sg_manifest value))).

Definition capabilityRevisionDigest (revision : CapabilityRevision) : result ErrorCode bytes :=
  b ← encodeCapabilityRevision revision; hashDomain sha256 DcapabilityRevision b.

Definition add_genesis_capability (capabilities : jsmap jsstring EffectiveCapability) (grant : CapabilityGrant) :
  result ErrorCode (jsmap jsstring EffectiveCapability) :=
  check (g_validFromRevision grant =? 0) SCHEMA_INVALID ≫= λ _,
  id ← capabilityId grant;
  check (negb (map_has (bytesToHex id) capabilities)) SCHEMA_INVALID ≫= λ _,
  Ok (map_set (bytesToHex id) (mkEffective id grant 0 None) capabilities).

Definition add_policy (at_revision : Z) (policies : jsmap jsstring EffectivePolicy) (policy : ValidationPolicy) :
  result ErrorCode (jsmap jsstring EffectivePolicy) :=
  id ← validationPolicyId policy;
  check (negb (map_has (bytesToHex id) policies)) SCHEMA_INVALID ≫= λ _,
  Ok (map_set (bytesToHex id) (mkEffectivePolicy id policy at_revision) policies).

Definition genesisSnapshot (genesis : SignedGenesis) : result ErrorCode CapabilitySnapshot :=
  verified ← verifySignedGenesis genesis;
  check verified INVALID_SIGNATURE ≫= λ _,
  encoded ← encodeGenesisManifest (sg_manifest genesis);
  manifest ← decodeGenesisManifest encoded;
  reencoded ← encodeGenesisManifest manifest;
  genesisDigest ← hashDomain sha256 Dgenesis reencoded;
  capabilities ← foldR add_genesis_capability [] (gm_initialCapabilities manifest);
  policies ← foldR (add_policy 0) [] (gm_validationPolicies manifest);
  Ok (mkCapSnapshot (gm_groupId manifest) 0 genesisDigest (gm_rootAdminPublicKey manifest)
    (gm_capabilityLogFeed manifest) capabilities policies (gm_recoveryPublicKeys manifest)
    (gm_recoveryThreshold manifest) false None).

Definition revoke (at_revision : Z) (capabilities : jsmap jsstring EffectiveCapability) (revokedId : bytes) :
  result ErrorCode (jsmap jsstring EffectiveCapability) :=
  let key := bytesToHex revokedId in
  match map_get key capabilities with
  | None => Err SCHEMA_INVALID
  | Some active =>
    check (is_undefined (ec_revokedAtRevision active)) SCHEMA_INVALID ≫= λ _,
    Ok (map_set key (mkEffective (ec_id active) (ec_grant active) (ec_grantedAtRevision active)
        (Some at_revision)) capabilities)
  end.

(** The greatest timestamp floor of the validators that are not revoked. *)
Definition validator_floor (capabilities : jsmap jsstring EffectiveCapability) : Z :=
  foldl (λ maximum entry,
    let floor := default 0 (g_minimumAuthorTimestampMs (ec_grant entry)) in
    if maximum <? floor then floor else maximum) 0
  (filter (λ entry, bool_decide (g_role (ec_grant entry) = validator) &&
      is_undefined (ec_revokedAtRevision entry) = true) (map_values capabilities)).

Definition add_grant (at_revision : Z) (capabilities : jsmap jsstring EffectiveCapability)
  (grant : CapabilityGrant) : result ErrorCode (jsmap jsstring EffectiveCapability) :=
  check (g_validFromRevision grant =? at_revision) SCHEMA_INVALID ≫= λ _,
  (if bool_decide (g_role grant = validator)
    then check (validator_floor capabilities <=? default (-1) (g_minimumAuthorTimestampMs grant)) SCHEMA_INVALID
    else Ok tt) ≫= λ _,
  id ← capabilityId grant;
  check (negb (map_has (bytesToHex id) capabilities)) SCHEMA_INVALID ≫= λ _,
  Ok (map_set (bytesToHex id) (mkEffective id grant at_revision None) capabilities).

Definition applyCapabilityRevision (snapshot : CapabilitySnapshot) (signed : SignedCapabilityRevision) :
  result ErrorCode CapabilitySnapshot :=
  encoded ← encodeCapabilityRevision (sr_revision signed);
  revision ← decodeCapabilityRevision encoded;
  check (equalBytes (cr_groupId revision) (cs_groupId snapshot)) SCHEMA_INVALID ≫= λ _,
  check (cr_revision revision =? cs_revision snapshot + 1) SCHEMA_INVALID ≫= λ _,
  check (equalBytes (cr_previousRevisionDigest revision) (cs_revisionDigest snapshot)) DIGEST_MISMATCH ≫= λ _,
  check (equalBytes (cr_issuerRootPublicKey revision) (cs_rootAdminPublicKey snapshot)) INVALID_KEY ≫= λ _,
  reencoded ← encodeCapabilityRevision revision;
  check (verifyDomain ed25519_verify DcapabilityRevision reencoded (sr_signature signed)
    (cs_rootAdminPublicKey snapshot)) INVALID_SIGNATURE ≫= λ _,
  revoked ← foldR (revoke (cr_revision revision)) (cs_capabilities snapshot) (cr_revocations revision);
  capabilities ← foldR (add_grant (cr_revision revision)) revoked (cr_grants revision);
  policies ← foldR (add_policy (cr_revision revision)) (cs_policies snapshot) (cr_validationPolicies revision);
  revisionDigest ← capabilityRevisionDigest revision;
  Ok (mkCapSnapshot (cs_groupId snapshot) (cr_revision revision) revisionDigest
    (default (cs_rootAdminPublicKey snapshot) (cr_successorRootPublicKey revision))
    (default (cs_capabilityLogFeed snapshot) (cr_successorCapabilityLogFeed revision))
    capabilities policies (cs_recoveryPublicKeys snapshot) (cs_recoveryThreshold snapshot)
    (cs_historyReopened snapshot) (cs_recoveryEventDigest snapshot)).

Definition compareRevisions (a b : SignedCapabilityRevision) : Z :=
  if cr_revision (sr_revision a) <? cr_revision (sr_revision b) then -1
  else if cr_revision (sr_revision b) <? cr_revision (sr_revision a) then 1 else 0.

Definition reduceCapabilityLog (genesis : SignedGenesis) (inputRevisions : list SignedCapabilityRevision) :
  result ErrorCode CapabilitySnapshot :=
  snapshot ← genesisSnapshot genesis;
  foldR applyCapabilityRevision snapshot (js_sort compareRevisions inputRevisions).

Definition capabilityEntryToCbor (entry : EffectiveCapability) : result ErrorCode CborValue :=
  v ← grantToCbor (ec_grant entry);
  Ok (CMap (integerMap [(0, Some v); (1, Some (CBytes (ec_id entry)));
        (2, Some (CInt (ec_grantedAtRevision entry))); (3, CInt <$> ec_revokedAtRevision entry)])).

Definition policyEntryToCbor (entry : EffectivePolicy) : result ErrorCode CborValue :=
  v ← policyToCbor (ep_policy entry);
  Ok (CMap (integerMap [(0, Some v); (1, Some (CBytes (ep_id entry)));
        (2, Some (CInt (ep_installedAtRevision entry)))])).

Definition capabilitySnapshotDigest (snapshot : CapabilitySnapshot) : result ErrorCode bytes :=
  let entries := js_sort (λ a b, compareBytes (ec_id a) (ec_id b)) (map_values (cs_capabilities snapshot)) in
  let policies := js_sort (λ a b, compareBytes (ep_id a) (ep_id b)) (map_values (cs_policies snapshot)) in
  encodedEntries ← mapR capabilityEntryToCbor entries;
  encodedPolicies ← mapR policyEntryToCbor policies;
  b ← encodeCanonicalCbor (CMap (integerMap
      [(0, Some (CBytes (cs_groupId snapshot))); (1, Some (CInt (cs_revision snapshot)));
        (2, Some (CBytes (cs_revisionDigest snapshot))); (3, Some (CBytes (cs_rootAdminPublicKey snapshot)));
        (4, Some (CBytes (cs_capabilityLogFeed snapshot))); (5, Some (CArray encodedEntries));
        (6, Some (CArray encodedPolicies)); (7, Some (CBool (cs_historyReopened snapshot)));
        (8, CBytes <$> cs_recoveryEventDigest snapshot)]));
  hashDomain sha256 DcapabilitySnapshot b.

(** ** Recovery *)

Definition combineRecoverySignatures (payload : RecoveryPayload) (signatures : list RecoverySignature) :
  RecoveryRecord :=
  let unique := foldl (λ m s, map_set (js_decimal (rs_recoveryKeyIndex s)) s m) [] signatures in
  mkRecoveryRecord payload
  (js_sort (λ a b, if rs_recoveryKeyIndex a <? rs_recoveryKeyIndex b then -1 else 1) (map_values unique)).

(** The loop over the signatures: the indices already seen and the number of
    valid signatures. *)
Fixpoint count_valid (keys : list bytes) (b : bytes) (seen : list Z) (signatures : list RecoverySignature) : Z :=
  match signatures with
  | [] => 0
  | item :: rest =>
    let index := rs_recoveryKeyIndex item in
    if (index <? 0) || (zlen keys <=? index) || bool_decide (index ∈ seen) then count_valid keys b seen rest
    else
    let valid := match keys !! Z.to_nat index with
    | Some publicKey => verifyDomain ed25519_verify Drecovery b (rs_signature item) publicKey
    | None => false
    end in
    (if valid then 1 else 0) + count_valid keys b (index :: seen) rest
  end.

Definition verifyRecoveryRecord (snapshot : CapabilitySnapshot) (record : RecoveryRecord) : result ErrorCode bool :=
  let payload := rr_payload record in
  if negb (equalBytes (ry_groupId payload) (cs_groupId snapshot)) ||
  negb (ry_lastRevision payload =? cs_revision snapshot) ||
  negb (equalBytes (ry_lastRevisionDigest payload) (cs_revisionDigest snapshot)) ||
  (ry_newRevision payload <=? cs_revision snapshot)
  then Ok false
  else
  b ← encodeRecoveryPayload payload;
  Ok (cs_recoveryThreshold snapshot <=? count_valid (cs_recoveryPublicKeys snapshot) b [] (rr_signatures record)).

(** The validators and the capabilities of the lost root are revoked. *)
Definition revoke_for_recovery (snapshot : CapabilitySnapshot) (newRevision : Z)
  (e : jsstring * EffectiveCapability) : jsstring * EffectiveCapability :=
  let effective := e.2 in
  if is_undefined (ec_revokedAtRevision effective) &&
  (bool_decide (g_role (ec_grant effective) = validator) ||
    equalBytes (g_signingPublicKey (ec_grant effective)) (cs_rootAdminPublicKey snapshot))
  then (e.1, mkEffective (ec_id effective) (ec_grant effective) (ec_grantedAtRevision effective) (Some newRevision))
  else e.

Definition add_recovery_grant (newRevision : Z) (capabilities : jsmap jsstring EffectiveCapability)
  (grant : CapabilityGrant) : result ErrorCode (jsmap jsstring EffectiveCapability) :=
  check (g_validFromRevision grant =? newRevision) SCHEMA_INVALID ≫= λ _,
  id ← capabilityId grant;
  check (negb (map_has (bytesToHex id) capabilities)) SCHEMA_INVALID ≫= λ _,
  Ok (map_set (bytesToHex id) (mkEffective id grant newRevision None) capabilities).

Definition applyRecoveryRecord (snapshot : CapabilitySnapshot) (record : RecoveryRecord) :
  result ErrorCode CapabilitySnapshot :=
  let payload := rr_payload record in
  verified ← verifyRecoveryRecord snapshot record;
  check verified INVALID_SIGNATURE ≫= λ _,
  let activeValidatorFloor := validator_floor (cs_capabilities snapshot) in
  (if negb (ry_reopenHistory payload)
    then check (forallb (λ g, activeValidatorFloor <=? default (-1) (g_minimumAuthorTimestampMs g))
      (ry_validatorGrants payload)) SCHEMA_INVALID
    else Ok tt) ≫= λ _,
  let revoked := revoke_for_recovery snapshot (ry_newRevision payload) <$> cs_capabilities snapshot in
  capabilities ← foldR (add_recovery_grant (ry_newRevision payload)) revoked (ry_validatorGrants payload);
  encoded ← encodeRecoveryPayload payload;
  recoveryEventDigest ← hashDomain sha256 Drecovery encoded;
  Ok (mkCapSnapshot (cs_groupId snapshot) (ry_newRevision payload) recoveryEventDigest
    (ry_newRootPublicKey payload) (ry_newCapabilityLogFeed payload) capabilities (cs_policies snapshot)
    (cs_recoveryPublicKeys snapshot) (cs_recoveryThreshold snapshot) (ry_reopenHistory payload)
    (Some recoveryEventDigest)).

End log.
