(* ===== verification/ReducerProofs.v ===== *)
(** * The capability log: invariants and history

    What one step of the log (a signed revision or a recovery) does to the
    snapshot, and what every log that was reduced from a genesis guarantees. *)

From Stdlib Require Import Strings.Byte Sorting.Sorted.
From stdpp Require Import base list option numbers sets sorting relations.
From S2P Require Import Prelude JsMap Bytes Text Cbor CborProofs Schema CborTheorems Domains Messages CapTypes CapCodec CapCodecProofs Reducer.

#[local] Open Scope Z_scope.

Lemma bytesToHex_inj a b : bytesToHex a = bytesToHex b → a = b.
Proof. intros H%(f_equal hexToBytes). rewrite !hexToBytes_bytesToHex in H. congruence. Qed.

(** ** How the capabilities of a snapshot evolve *)

(** The grant, its id and the revision it was granted in never change, and a
    revocation is final. *)
Definition persists (c c' : EffectiveCapability) : Prop :=
  ec_id c' = ec_id c ∧ ec_grant c' = ec_grant c ∧ ec_grantedAtRevision c' = ec_grantedAtRevision c ∧
  ∀ r, ec_revokedAtRevision c = Some r → ec_revokedAtRevision c' = Some r.

#[export] Instance persists_preorder : PreOrder persists.
Proof.
  split; [by intros c|]. intros c1 c2 c3 (?&?&?&H) (?&?&?&H').
  unfold persists. split_and!; [congruence..|]. auto.
Qed.

Definition evolves (old new : jsmap jsstring EffectiveCapability) : Prop :=
  ∀ k c, map_get k old = Some c → ∃ c', map_get k new = Some c' ∧ persists c c'.

#[export] Instance evolves_preorder : PreOrder evolves.
Proof.
  split.
  - intros m k c Hc. by exists c.
  - intros m1 m2 m3 H1 H2 k c Hc. destruct (H1 k c Hc) as (c2 & Hc2 & P12).
    destruct (H2 k c2 Hc2) as (c3 & Hc3 & P23). exists c3. split; [done|by etrans].
Qed.

Lemma evolves_fresh k c m : map_get k m = None → evolves m (map_set k c m).
Proof.
  intros Hk k' c' Hc'. exists c'. split; [|done]. rewrite map_get_set.
  case_decide; [congruence|done].
Qed.

Lemma foldR_evolves {A} (f : jsmap jsstring EffectiveCapability → A → result ErrorCode _) l acc out :
  (∀ m x m', x ∈ l → f m x = Ok m' → evolves m m') → foldR f acc l = Ok out → evolves acc out.
Proof.
  intros Hf. apply (foldR_inv (evolves acc)); [|done].
  intros m x m' Hm Hx Hstep. etrans; [exact Hm|]. by eapply Hf.
Qed.

Lemma foldR_transport {A B} (P : B → Prop) (f : B → A → result ErrorCode B) l acc out :
  (∀ b x b', P b → f b x = Ok b' → P b') → P acc → foldR f acc l = Ok out → P out.
Proof. intros Hf. apply foldR_inv. eauto. Qed.

Section log.
Context (sha256 : bytes → bytes) (ed25519_verify : bytes → bytes → bytes → bool).
#[local] Abbreviation capabilityId := (capabilityId sha256).
#[local] Abbreviation genesisSnapshot := (genesisSnapshot sha256 ed25519_verify).
#[local] Abbreviation applyCapabilityRevision := (applyCapabilityRevision sha256 ed25519_verify).
#[local] Abbreviation applyRecoveryRecord := (applyRecoveryRecord sha256 ed25519_verify).

Lemma revoke_evolves n m id m' : revoke n m id = Ok m' → evolves m m'.
Proof.
  unfold revoke, check, protocolInvariant. destruct (map_get _ m) as [c|] eqn:Hc; [|done].
  intros H. inv_ok. subst. intros k d Hd. rewrite map_get_set. case_decide as Hk; [|by exists d].
  subst. rewrite Hc in Hd. injection Hd as <-. eexists. split; [done|].
  rename select (is_undefined _ = true) into Hu. destruct (ec_revokedAtRevision c) eqn:Hr; [done|].
  unfold persists. simpl. split_and!; [done..|]. congruence.
Qed.

Lemma add_grant_evolves n m g m' : add_grant sha256 n m g = Ok m' → evolves m m'.
Proof.
  unfold add_grant, check, protocolInvariant. intros H. inv_ok. subst.
  apply evolves_fresh, map_has_false, negb_true_iff. done.
Qed.

Lemma add_recovery_grant_evolves n m g m' : add_recovery_grant sha256 n m g = Ok m' → evolves m m'.
Proof.
  unfold add_recovery_grant, check, protocolInvariant. intros H. inv_ok. subst.
  apply evolves_fresh, map_has_false, negb_true_iff. done.
Qed.

Lemma revoke_for_recovery_pair s n e :
  revoke_for_recovery s n e = (e.1, (revoke_for_recovery s n e).2).
Proof. destruct e as [k c]. unfold revoke_for_recovery. by case_match. Qed.

Lemma revoke_for_recovery_get s n (m : list (jsstring * EffectiveCapability)) k :
  map_get k (revoke_for_recovery s n <$> m) = (λ c, (revoke_for_recovery s n (k, c)).2) <$> map_get k m.
Proof.
  induction m as [|[k' c] m IH]; [done|]. rewrite fmap_cons, (revoke_for_recovery_pair s n (k', c)).
  cbn [map_get fst]. destruct (decide (k = k')) as [->|]; [done|exact IH].
Qed.

Lemma revoke_for_recovery_persists s n e : persists e.2 (revoke_for_recovery s n e).2.
Proof.
  unfold revoke_for_recovery. case_match eqn:Hc; [|done]. apply andb_true_iff in Hc as [Hu _].
  unfold persists. simpl. split_and!; [done..|]. intros r Hr. by rewrite Hr in Hu.
Qed.

Lemma revoke_for_recovery_evolves s n (m : list (jsstring * EffectiveCapability)) : evolves m (revoke_for_recovery s n <$> m).
Proof.
  intros k c Hc. rewrite revoke_for_recovery_get, Hc. eexists. split; [done|].
  apply (revoke_for_recovery_persists s n (k, c)).
Qed.

(** ** Content addressing of the capabilities *)

Definition addressed (m : jsmap jsstring EffectiveCapability) : Prop :=
  map_wf m ∧ ∀ k c, map_get k m = Some c → k = bytesToHex (ec_id c) ∧ capabilityId (ec_grant c) = Ok (ec_id c).

Lemma addressed_set k c m :
  addressed m → k = bytesToHex (ec_id c) → capabilityId (ec_grant c) = Ok (ec_id c) →
  addressed (map_set k c m).
Proof.
  intros [Hwf Hm] Hk Hc. split; [by apply map_wf_set|]. intros k' c'. rewrite map_get_set.
  case_decide; [|apply Hm]. intros [= <-]. by subst.
Qed.

Lemma add_genesis_addressed m g m' : addressed m → add_genesis_capability sha256 m g = Ok m' → addressed m'.
Proof.
  unfold add_genesis_capability, check, protocolInvariant. intros Hm H. inv_ok. subst. by apply addressed_set.
Qed.
Lemma add_grant_addressed n m g m' : addressed m → add_grant sha256 n m g = Ok m' → addressed m'.
Proof. unfold add_grant, check, protocolInvariant. intros Hm H. inv_ok. subst. by apply addressed_set. Qed.
Lemma add_recovery_grant_addressed n m g m' : addressed m → add_recovery_grant sha256 n m g = Ok m' → addressed m'.
Proof. unfold add_recovery_grant, check, protocolInvariant. intros Hm H. inv_ok. subst. by apply addressed_set. Qed.

Lemma revoke_addressed n m id m' : addressed m → revoke n m id = Ok m' → addressed m'.
Proof.
  unfold revoke, check, protocolInvariant. intros Hm. destruct (map_get _ m) as [c|] eqn:Hc; [|done].
  intros H. inv_ok. subst. destruct (proj2 Hm _ _ Hc). by apply addressed_set.
Qed.

Lemma revoke_for_recovery_addressed s n (m : list (jsstring * EffectiveCapability)) :
  addressed m → addressed (revoke_for_recovery s n <$> m).
Proof.
  intros [Hwf Hm]. split.
  - unfold map_wf, map_keys in *. rewrite <-list_fmap_compose.
    replace (fst ∘ revoke_for_recovery s n <$> m) with m.*1; [done|].
    apply list_fmap_ext. intros i e _. simpl. by rewrite revoke_for_recovery_pair.
  - intros k c. rewrite revoke_for_recovery_get. destruct (map_get k m) as [c0|] eqn:Hc0; [|done].
    intros [= <-]. destruct (revoke_for_recovery_persists s n (k, c0)) as (Hid & Hg & _). cbn [snd] in *.
    rewrite Hid, Hg. by apply Hm.
Qed.

(** ** One step of the log *)

(** The facts an accepted revision establishes; [b] are its signed bytes. *)
Lemma revision_step s signed s' :
  applyCapabilityRevision s signed = Ok s' →
  ∃ b r revoked,
  encodeCapabilityRevision (sr_revision signed) = Ok b ∧ decodeCapabilityRevision b = Ok r ∧
  cr_groupId r = cs_groupId s ∧ cr_revision r = cs_revision s + 1 ∧
  cr_previousRevisionDigest r = cs_revisionDigest s ∧ cr_issuerRootPublicKey r = cs_rootAdminPublicKey s ∧
  verifyDomain ed25519_verify DcapabilityRevision b (sr_signature signed) (cs_rootAdminPublicKey s) = true ∧
  foldR (revoke (cr_revision r)) (cs_capabilities s) (cr_revocations r) = Ok revoked ∧
  foldR (add_grant sha256 (cr_revision r)) revoked (cr_grants r) = Ok (cs_capabilities s') ∧
  foldR (add_policy sha256 (cr_revision r)) (cs_policies s) (cr_validationPolicies r) = Ok (cs_policies s') ∧
  hashDomain sha256 DcapabilityRevision b = Ok (cs_revisionDigest s') ∧
  s' = mkCapSnapshot (cs_groupId s) (cr_revision r) (cs_revisionDigest s')
  (default (cs_rootAdminPublicKey s) (cr_successorRootPublicKey r))
  (default (cs_capabilityLogFeed s) (cr_successorCapabilityLogFeed r))
  (cs_capabilities s') (cs_policies s') (cs_recoveryPublicKeys s) (cs_recoveryThreshold s)
  (cs_historyReopened s) (cs_recoveryEventDigest s).
Proof.
  unfold Reducer.applyCapabilityRevision, check, protocolInvariant, capabilityRevisionDigest. intros H. inv_ok.
  rename select (decodeCapabilityRevision _ = Ok _) into Hd. pose proof (revision_strict _ _ Hd) as He.
  repeat match goal with H : encodeCapabilityRevision _ = Ok _ |- _ => rewrite He in H; injection H as <- end.
  rewrite equalBytes_spec in *. rename select ((_ =? _) = true) into Hrev. apply Z.eqb_eq in Hrev.
  subst. cbn [cs_capabilities cs_policies cs_revisionDigest]. by eauto 20.
Qed.

Lemma recovery_step s record s' :
  applyRecoveryRecord s record = Ok s' →
  let p := rr_payload record in
  ∃ b,
  encodeRecoveryPayload p = Ok b ∧
  ry_groupId p = cs_groupId s ∧ ry_lastRevision p = cs_revision s ∧
  ry_lastRevisionDigest p = cs_revisionDigest s ∧ cs_revision s < ry_newRevision p ∧
  cs_recoveryThreshold s ≤ count_valid ed25519_verify (cs_recoveryPublicKeys s) b [] (rr_signatures record) ∧
  (ry_reopenHistory p = true ∨
    Forall (λ g, validator_floor (cs_capabilities s) ≤ default (-1) (g_minimumAuthorTimestampMs g))
    (ry_validatorGrants p)) ∧
  foldR (add_recovery_grant sha256 (ry_newRevision p))
  (revoke_for_recovery s (ry_newRevision p) <$> cs_capabilities s) (ry_validatorGrants p) =
  Ok (cs_capabilities s') ∧
  hashDomain sha256 Drecovery b = Ok (cs_revisionDigest s') ∧
  s' = mkCapSnapshot (cs_groupId s) (ry_newRevision p) (cs_revisionDigest s') (ry_newRootPublicKey p)
  (ry_newCapabilityLogFeed p) (cs_capabilities s') (cs_policies s) (cs_recoveryPublicKeys s)
  (cs_recoveryThreshold s) (ry_reopenHistory p) (Some (cs_revisionDigest s')).
Proof.
  intros H p. unfold Reducer.applyRecoveryRecord, verifyRecoveryRecord, check, protocolInvariant in H.
  fold p in H. inv_ok.
  destruct (_ || _) eqn:Hguard; [inv_ok; by subst|]. inv_ok. subst. cbn [cs_capabilities cs_revisionDigest].
  rewrite !orb_false_iff, !negb_false_iff, !equalBytes_spec, Z.eqb_eq, Z.leb_gt in Hguard.
  destruct Hguard as [[[Hg Hl] Hd] Hn].
  repeat match goal with H : encodeRecoveryPayload p = Ok ?x, H' : encodeRecoveryPayload p = Ok ?y |- _ =>
    assert (y = x) by congruence; subst y; clear H' end.
  eexists. split_and!; try done; [lia|].
  destruct (ry_reopenHistory p); [by left|]. right. simpl in *. inv_ok.
  rename select (forallb _ _ = true) into Hall. rewrite forallb_forall in Hall. apply Forall_forall.
  intros g Hin%list_elem_of_In. apply Z.leb_le. by apply Hall.
Qed.

Inductive log_step (s s' : CapabilitySnapshot) : Prop :=
  | step_revision signed : applyCapabilityRevision s signed = Ok s' → log_step s s'
  | step_recovery record : applyRecoveryRecord s record = Ok s' → log_step s s'.

Lemma log_step_evolves s s' : log_step s s' → evolves (cs_capabilities s) (cs_capabilities s').
Proof.
  intros [signed (b & r & rv & _ & _ & _ & _ & _ & _ & _ & Hrv & Hg & _)%revision_step
    |record (b & _ & _ & _ & _ & _ & _ & _ & Hg & _)%recovery_step].
  - transitivity rv; eapply foldR_evolves; [|done| |done]; intros ??? _; [apply revoke_evolves|apply add_grant_evolves].
  - etrans; [apply revoke_for_recovery_evolves|]. eapply foldR_evolves; [|exact Hg].
    intros ??? _. apply add_recovery_grant_evolves.
Qed.

Lemma log_step_addressed s s' :
  log_step s s' → addressed (cs_capabilities s) → addressed (cs_capabilities s').
Proof.
  intros [signed (b & r & rv & _ & _ & _ & _ & _ & _ & _ & Hrv & Hg & _)%revision_step
    |record (b & _ & _ & _ & _ & _ & _ & _ & Hg & _)%recovery_step] Hs.
  - eapply foldR_transport; [|eapply foldR_transport; [|exact Hs|exact Hrv]|exact Hg].
    + intros. by eapply add_grant_addressed.
    + intros. by eapply revoke_addressed.
  - eapply foldR_transport; [|eapply revoke_for_recovery_addressed, Hs|exact Hg].
    intros. by eapply add_recovery_grant_addressed.
Qed.

Lemma log_step_revision s s' : log_step s s' → cs_revision s < cs_revision s' ∧ cs_groupId s' = cs_groupId s ∧
  cs_recoveryPublicKeys s' = cs_recoveryPublicKeys s ∧ cs_recoveryThreshold s' = cs_recoveryThreshold s.
Proof.
  intros [signed (b & r & rv & _ & _ & _ & Hr & _ & _ & _ & _ & _ & _ & _ & ->)%revision_step
    |record (b & _ & _ & _ & _ & Hr & _ & _ & _ & _ & ->)%recovery_step]; simpl; split_and!; try done; lia.
Qed.

Lemma log_steps_evolve s s' :
  rtc log_step s s' → evolves (cs_capabilities s) (cs_capabilities s') ∧ cs_revision s ≤ cs_revision s' ∧
  cs_groupId s' = cs_groupId s ∧
  cs_recoveryPublicKeys s' = cs_recoveryPublicKeys s ∧ cs_recoveryThreshold s' = cs_recoveryThreshold s.
Proof.
  induction 1 as [s|s1 s2 s3 H12 _ (IH & Hr & Hg & Hk & Ht)]; [done|].
  pose proof (log_step_revision _ _ H12) as (? & ? & ? & ?).
  split_and!; [|lia|congruence..]. etrans; [by apply log_step_evolves|done].
Qed.
End log.
