(* ===== verification/LogTheorems.v ===== *)
(** * Theorems on the capability log

    The hash chain of the log determines the membership state; revocations are
    final; reduction does not depend on the order revisions arrive in. *)

From Stdlib Require Import Strings.Byte Strings.String Sorting.Sorted.
From stdpp Require Import base list option numbers sets sorting relations.
From S2P Require Import Prelude JsMap Bytes Text Cbor CborProofs Schema CborTheorems Domains Messages CapTypes CapCodec CapCodecProofs Reducer ReducerProofs.

#[local] Open Scope Z_scope.

(** ** The hash chain *)

Section chain.
Context (sha256 : bytes → bytes) (ed25519_verify : bytes → bytes → bytes → bool).
#[local] Abbreviation genesisSnapshot := (genesisSnapshot sha256 ed25519_verify).
#[local] Abbreviation applyCapabilityRevision := (applyCapabilityRevision sha256 ed25519_verify).
#[local] Abbreviation applyRecoveryRecord := (applyRecoveryRecord sha256 ed25519_verify).

Lemma genesis_step g s :
  genesisSnapshot g = Ok s → ∃ b m,
  encodeGenesisManifest (sg_manifest g) = Ok b ∧ decodeGenesisManifest b = Ok m ∧
  verifyDomain ed25519_verify Dgenesis b (sg_signature g) (gm_rootAdminPublicKey (sg_manifest g)) = true ∧
  hashDomain sha256 Dgenesis b = Ok (cs_revisionDigest s) ∧
  foldR (add_genesis_capability sha256) [] (gm_initialCapabilities m) = Ok (cs_capabilities s) ∧
  foldR (add_policy sha256 0) [] (gm_validationPolicies m) = Ok (cs_policies s) ∧
  s = mkCapSnapshot (gm_groupId m) 0 (cs_revisionDigest s) (gm_rootAdminPublicKey m) (gm_capabilityLogFeed m)
  (cs_capabilities s) (cs_policies s) (gm_recoveryPublicKeys m) (gm_recoveryThreshold m) false None.
Proof.
  unfold Reducer.genesisSnapshot, verifySignedGenesis, check, protocolInvariant. intros H. inv_ok. subst.
  rename select (decodeGenesisManifest _ = Ok _) into Hd. pose proof (genesis_strict _ _ Hd) as He.
  repeat match goal with H1 : encodeGenesisManifest ?m = Ok ?x, H2 : encodeGenesisManifest ?m = Ok ?y |- _ =>
    assert (y = x) by congruence; subst y; clear H2 end.
  cbn [cs_revisionDigest cs_capabilities cs_policies]. by eauto 10.
Qed.

(** The records of the log a snapshot was reduced from, latest first, each
    with the domain its digest is taken in. *)
Inductive chain : CapabilitySnapshot → list (ProtocolDomain * bytes) → Prop :=
  | chain_genesis g s b :
  genesisSnapshot g = Ok s → encodeGenesisManifest (sg_manifest g) = Ok b → chain s [(Dgenesis, b)]
  | chain_revision s h signed s' b :
  chain s h → applyCapabilityRevision s signed = Ok s' → encodeCapabilityRevision (sr_revision signed) = Ok b →
  chain s' ((DcapabilityRevision, b) :: h)
  | chain_recovery s h record s' b :
  chain s h → applyRecoveryRecord s record = Ok s' → encodeRecoveryPayload (rr_payload record) = Ok b →
  chain s' ((Drecovery, b) :: h).

(** Records of two logs that are a SHA-256 collision. *)
Definition chain_collision (h1 h2 : list (ProtocolDomain * bytes)) : Prop :=
  ∃ e1 e2, e1 ∈ h1 ∧ e2 ∈ h2 ∧ collision sha256 (preimage e1.1 e1.2) (preimage e2.1 e2.2).

Lemma chain_collision_cons e1 e2 h1 h2 : chain_collision h1 h2 → chain_collision (e1 :: h1) (e2 :: h2).
Proof. intros (x & y & Hx & Hy & Hc). exists x, y. split_and!; [by right|by right|done]. Qed.

(** The digest of a snapshot is the digest of the latest record. *)
Lemma chain_head s h : chain s h → ∃ d b t, h = (d, b) :: t ∧ hashDomain sha256 d b = Ok (cs_revisionDigest s).
Proof.
  intros Hc. destruct Hc as [g s b Hg Hb|s h signed s' b _ Ha Hb|s h record s' b _ Ha Hb].
  - apply genesis_step in Hg as (b' & m & Hb' & _ & _ & Hd & _).
    assert (b' = b) by congruence. subst. by eexists _, _, _.
  - apply revision_step in Ha as (b' & r & rv & Hb' & _ & _ & _ & _ & _ & _ & _ & _ & _ & Hd & _).
    assert (b' = b) by congruence. subst. by eexists _, _, _.
  - apply recovery_step in Ha as (b' & Hb' & _ & _ & _ & _ & _ & _ & _ & Hd & _).
    assert (b' = b) by congruence. subst. by eexists _, _, _.
Qed.

(** One more revision: its bytes name the digest before it, and together with
    the snapshot before it determine the snapshot after it. *)
Lemma revision_deterministic s1 s2 signed1 signed2 s1' s2' b :
  applyCapabilityRevision s1 signed1 = Ok s1' → applyCapabilityRevision s2 signed2 = Ok s2' →
  encodeCapabilityRevision (sr_revision signed1) = Ok b → encodeCapabilityRevision (sr_revision signed2) = Ok b →
  cs_revisionDigest s1 = cs_revisionDigest s2 ∧ (s1 = s2 → s1' = s2').
Proof.
  intros (b1 & r1 & rv1 & Hb1 & Hd1 & _ & _ & Hp1 & _ & _ & Hrv1 & Hg1 & Hpo1 & Hh1 & E1)%revision_step.
  intros (b2 & r2 & rv2 & Hb2 & Hd2 & _ & _ & Hp2 & _ & _ & Hrv2 & Hg2 & Hpo2 & Hh2 & E2)%revision_step H1 H2.
  assert (b1 = b) by congruence. assert (b2 = b) by congruence. subst b1 b2.
  assert (r2 = r1) by congruence. subst r2. split; [congruence|].
  intros <-. rewrite E1, E2. assert (rv2 = rv1) by congruence. subst rv2.
  rewrite Hg1 in Hg2. rewrite Hpo1 in Hpo2. rewrite Hh1 in Hh2. congruence.
Qed.

Lemma recovery_deterministic s1 s2 record1 record2 s1' s2' b :
  applyRecoveryRecord s1 record1 = Ok s1' → applyRecoveryRecord s2 record2 = Ok s2' →
  encodeRecoveryPayload (rr_payload record1) = Ok b → encodeRecoveryPayload (rr_payload record2) = Ok b →
  zlen b ≤ MAX_SAFE_INTEGER → cs_revisionDigest s1 = cs_revisionDigest s2 ∧ (s1 = s2 → s1' = s2').
Proof.
  intros (b1 & Hb1 & _ & _ & Hp1 & _ & _ & _ & Hg1 & Hh1 & E1)%recovery_step.
  intros (b2 & Hb2 & _ & _ & Hp2 & _ & _ & _ & Hg2 & Hh2 & E2)%recovery_step H1 H2 Hlen.
  pose proof (recovery_payload_inj _ _ _ H1 H2 Hlen) as Hpay. rewrite <-Hpay in *. split; [congruence|].
  intros <-. rewrite E1, E2. assert (b1 = b2) by congruence. subst b2.
  rewrite Hg1 in Hg2. rewrite Hh1 in Hh2. congruence.
Qed.

Lemma genesis_deterministic g1 g2 s1 s2 b :
  genesisSnapshot g1 = Ok s1 → genesisSnapshot g2 = Ok s2 →
  encodeGenesisManifest (sg_manifest g1) = Ok b → encodeGenesisManifest (sg_manifest g2) = Ok b → s1 = s2.
Proof.
  intros (b1 & m1 & Hb1 & Hd1 & _ & Hh1 & Hc1 & Hp1 & E1)%genesis_step.
  intros (b2 & m2 & Hb2 & Hd2 & _ & Hh2 & Hc2 & Hp2 & E2)%genesis_step H1 H2.
  assert (b1 = b) by congruence. assert (b2 = b) by congruence. subst b1 b2.
  assert (m2 = m1) by congruence. subst m2. rewrite E1, E2.
  rewrite Hc1 in Hc2. rewrite Hp1 in Hp2. rewrite Hh1 in Hh2. congruence.
Qed.

Lemma chain_determines s1 h1 : chain s1 h1 → ∀ s2 h2, chain s2 h2 →
  Forall (λ e, zlen e.2 ≤ MAX_SAFE_INTEGER) h1 → cs_revisionDigest s1 = cs_revisionDigest s2 →
  (h1 = h2 ∧ s1 = s2) ∨ chain_collision h1 h2.
Proof.
  intros Hc1. induction Hc1 as [g s b Hg Hb|s h signed s' b Hc IH Ha Hb|s h record s' b Hc IH Ha Hb];
    intros s2 h2 Hc2 Hlen Heq;
    (assert (∃ d2 b2 t2, h2 = (d2, b2) :: t2 ∧ hashDomain sha256 d2 b2 = Ok (cs_revisionDigest s2))
    as (d2 & b2 & t2 & -> & Hh2) by (by apply chain_head));
    match goal with |- (?e :: ?t = _ ∧ ?u = _) ∨ _ => assert (chain u (e :: t)) as Hc1 by
    first [by eapply chain_genesis | by eapply chain_revision | by eapply chain_recovery] end;
    apply chain_head in Hc1 as (? & ? & ? & [= <- <- _] & Hh1);
    rewrite <-Heq in Hh2;
    (destruct (hashDomain_inj _ _ _ _ _ _ Hh1 Hh2) as [[<- <-]|Hcol];
    [|right; eexists _, _; split_and!; [left|left|exact Hcol]]).
  - inversion Hc2; subst. left. split; [done|]. by eapply genesis_deterministic.
  - apply Forall_cons in Hlen as [_ Hlen]. inversion Hc2 as [|s0 h0 signed0 ? ? Hc0 Ha0 Hb0|]; subst.
    destruct (revision_deterministic _ _ _ _ _ _ _ Ha Ha0 Hb Hb0) as [Hd Hdet].
    destruct (IH _ _ Hc0 Hlen Hd) as [[-> ->]|?]; [left; split; [done|by apply Hdet]|].
    right. by apply chain_collision_cons.
  - apply Forall_cons in Hlen as [Hl Hlen]. inversion Hc2 as [| |s0 h0 record0 ? ? Hc0 Ha0 Hb0]; subst.
    destruct (recovery_deterministic _ _ _ _ _ _ _ Ha Ha0 Hb Hb0 Hl) as [Hd Hdet].
    destruct (IH _ _ Hc0 Hlen Hd) as [[-> ->]|?]; [left; split; [done|by apply Hdet]|].
    right. by apply chain_collision_cons.
Qed.
End chain.

(** ** A small log, for the witnesses

    The hash is a stand-in with 32-byte digests; every signature verifies. *)

Definition toy_sha256 (b : bytes) : bytes := be_bytes 32 (be_value b mod (2 ^ 255 - 19)).
Definition toy_verify (message signature publicKey : bytes) : bool := true.

Definition toy_key (b : byte) : bytes := replicate 32 b.
Definition toy_signature : bytes := replicate 64 x5a.

Definition toy_validator (key : byte) (from floor : Z) : CapabilityGrant :=
  mkGrant [key] (toy_key key) None validator from None (Some (js "org")) (Some (js "gold")) (Some floor) None None.
Definition toy_writer (key : byte) (from : Z) : CapabilityGrant :=
  mkGrant [key] (toy_key key) None writer from None None None None None None.

Definition toy_genesis : SignedGenesis := mkSignedGenesis
  (mkGenesis [x01] [x02] (toy_key x10) [x03] [toy_key x11; toy_key x12; toy_key x13] 2
    [toy_validator x20 0 100; toy_writer x21 0] [mkPolicy 1 1 [(js "gold", 1)] [js "org"]]
    (mkClock 1000 2000 500) (mkResource 1048576 1000 100 100) (js "suite") 1700000000000)
  toy_signature.

Definition toy_snapshot : CapabilitySnapshot :=
  Eval vm_compute in match genesisSnapshot toy_sha256 toy_verify toy_genesis with
  | Ok s => s
  | Err _ => mkCapSnapshot [] 0 [] [] [] [] [] [] 0 false None
  end.

(** The id the snapshot lists for its [i]-th capability. *)
Definition nth_id (i : nat) (s : CapabilitySnapshot) : bytes :=
  match cs_capabilities s !! i with Some e => ec_id e.2 | None => [] end.

(** A revision that revokes the first validator and adds another. *)
Definition toy_revision : SignedCapabilityRevision := mkSignedRevision
  (mkRevision [x01] 1 (cs_revisionDigest toy_snapshot) (toy_key x10) [toy_validator x22 1 200]
    [nth_id 0 toy_snapshot] [] None None)
  toy_signature.

Definition toy_snapshot1 : CapabilitySnapshot :=
  Eval vm_compute in match applyCapabilityRevision toy_sha256 toy_verify toy_snapshot toy_revision with
  | Ok s => s
  | Err _ => toy_snapshot
  end.

(** A recovery signed with two of the three recovery keys. *)
Definition toy_recovery : RecoveryRecord := mkRecoveryRecord
  (mkRecoveryPayload [x01] 1 (cs_revisionDigest toy_snapshot1) 2 (toy_key x14) [x04] [toy_validator x23 2 200]
    false None)
  [mkRecoverySignature 0 toy_signature; mkRecoverySignature 2 toy_signature].

Definition toy_snapshot2 : CapabilitySnapshot :=
  Eval vm_compute in match applyRecoveryRecord toy_sha256 toy_verify toy_snapshot1 toy_recovery with
  | Ok s => s
  | Err _ => toy_snapshot1
  end.

Definition toy_bytes (m : result ErrorCode bytes) : bytes := match m with Ok b => b | Err _ => [] end.

Definition toy_history : list (ProtocolDomain * bytes) :=
  [(Drecovery, toy_bytes (encodeRecoveryPayload (rr_payload toy_recovery)));
   (DcapabilityRevision, toy_bytes (encodeCapabilityRevision (sr_revision toy_revision)));
   (Dgenesis, toy_bytes (encodeGenesisManifest (sg_manifest toy_genesis)))].

Lemma toy_chain : chain toy_sha256 toy_verify toy_snapshot2 toy_history.
Proof.
  apply (chain_recovery _ _ toy_snapshot1 _ toy_recovery); [|vm_compute; reflexivity..].
  apply (chain_revision _ _ toy_snapshot _ toy_revision); [|vm_compute; reflexivity..].
  apply (chain_genesis _ _ toy_genesis); vm_compute; reflexivity.
Qed.

Lemma toy_steps : rtc (log_step toy_sha256 toy_verify) toy_snapshot toy_snapshot2.
Proof.
  eapply rtc_l; [apply (step_revision _ _ _ toy_snapshot1 toy_revision); vm_compute; reflexivity|].
  eapply rtc_l; [apply (step_recovery _ _ _ toy_snapshot2 toy_recovery); vm_compute; reflexivity|].
  apply rtc_refl.
Qed.

(** ** The theorems *)

(** C4: the membership digest identifies the membership state.  Two snapshots
    reduced from any two logs (genesis, signed revisions, recoveries) that carry
    the same revision digest came from byte-identical logs and are equal, unless
    a record of the one log collides with a record of the other under SHA-256. *)
Theorem membership_digest_identifies_snapshot sha256 ed25519_verify s1 h1 s2 h2 :
  chain sha256 ed25519_verify s1 h1 → chain sha256 ed25519_verify s2 h2 →
  Forall (λ e, zlen e.2 ≤ MAX_SAFE_INTEGER) h1 → cs_revisionDigest s1 = cs_revisionDigest s2 →
  (h1 = h2 ∧ s1 = s2) ∨ chain_collision sha256 h1 h2.
Proof. intros Hc1 Hc2. by apply (chain_determines sha256 ed25519_verify s1 h1 Hc1 s2 h2 Hc2). Qed.

Lemma membership_digest_identifies_snapshot_witness :
  (toy_history = toy_history ∧ toy_snapshot2 = toy_snapshot2) ∨
  chain_collision toy_sha256 toy_history toy_history.
Proof.
  apply (membership_digest_identifies_snapshot toy_sha256 toy_verify); [exact toy_chain|exact toy_chain| |reflexivity].
  repeat constructor; vm_compute; discriminate.
Defined.

Lemma revoked_inactive c r rev : ec_revokedAtRevision c = Some r → r ≤ rev → isCapabilityActive c rev = false.
Proof.
  intros Hr Hle. unfold isCapabilityActive. rewrite Hr, (proj2 (Z.ltb_ge rev r)) by done.
  apply andb_false_r.
Qed.

(** C32: revocation is final.  Whatever revisions and recoveries follow, a
    capability that was revoked stays in the snapshot with the same grant and the
    same revocation, and is never again found active from that revision on. *)
Theorem revocation_final sha256 ed25519_verify s s' id c r rev :
  rtc (log_step sha256 ed25519_verify) s s' →
  map_get (bytesToHex id) (cs_capabilities s) = Some c → ec_revokedAtRevision c = Some r → r ≤ rev →
  (∃ c', map_get (bytesToHex id) (cs_capabilities s') = Some c' ∧ ec_grant c' = ec_grant c ∧
    ec_revokedAtRevision c' = Some r) ∧ activeCapabilityById s' id rev = None.
Proof.
  intros [Hev _]%log_steps_evolve Hc Hr Hrev. destruct (Hev _ _ Hc) as (c' & Hc' & _ & Hg & _ & Hfinal).
  split; [by eauto|]. unfold activeCapabilityById. rewrite Hc'.
  by rewrite (revoked_inactive c' r rev) by auto.
Qed.

Lemma revocation_final_witness : activeCapabilityById toy_snapshot2 (nth_id 0 toy_snapshot1) 7 = None.
Proof.
  eapply (revocation_final toy_sha256 toy_verify toy_snapshot1 toy_snapshot2 _ _ 1 7).
  - eapply rtc_l; [apply (step_recovery _ _ _ toy_snapshot2 toy_recovery); vm_compute; reflexivity|apply rtc_refl].
  - vm_compute; reflexivity.
  - reflexivity.
  - lia.
Defined.

(** The content address of a grant. *)
Definition grantBytes (g : CapabilityGrant) : result ErrorCode bytes := v ← grantToCbor g; encodeCanonicalCbor v.

Lemma chain_addressed sha256 ed25519_verify s h :
  chain sha256 ed25519_verify s h → addressed sha256 (cs_capabilities s).
Proof.
  induction 1 as [g s b Hg _|s h signed s' b _ IH Ha _|s h record s' b _ IH Ha _].
  - apply genesis_step in Hg as (b' & m & _ & _ & _ & _ & Hc & _).
    eapply foldR_transport; [|split; [apply map_wf_nil|by intros]|exact Hc].
    intros. by eapply add_genesis_addressed.
  - eapply log_step_addressed; [by eapply step_revision|done].
  - eapply log_step_addressed; [by eapply step_recovery|done].
Qed.

(** capability ids bind grants.  In any reduced log a capability is filed
    under the hash of its own grant, and a capability id names one grant: the
    same id in two logs is the same grant, or their bytes are a SHA-256
    collision. *)
Theorem capability_id_binds_grant sha256 ed25519_verify s1 h1 s2 h2 id c1 c2 b1 :
  chain sha256 ed25519_verify s1 h1 → chain sha256 ed25519_verify s2 h2 →
  map_get (bytesToHex id) (cs_capabilities s1) = Some c1 → map_get (bytesToHex id) (cs_capabilities s2) = Some c2 →
  grantBytes (ec_grant c1) = Ok b1 → zlen b1 ≤ MAX_SAFE_INTEGER →
  ec_id c1 = id ∧ hashDomain sha256 DcapabilityGrant b1 = Ok id ∧
  (ec_grant c1 = ec_grant c2 ∨ ∃ b2, grantBytes (ec_grant c2) = Ok b2 ∧
    collision sha256 (preimage DcapabilityGrant b1) (preimage DcapabilityGrant b2)).
Proof.
  intros [_ Hc1]%chain_addressed [_ Hc2]%chain_addressed H1 H2 Hb1 Hlen.
  destruct (Hc1 _ _ H1) as [Hk1 Hid1]. destruct (Hc2 _ _ H2) as [Hk2 Hid2].
  apply bytesToHex_inj in Hk1, Hk2. subst id. rewrite <-Hk2 in Hid2.
  unfold grantBytes, capabilityId in *. inv_ok.
  repeat match goal with H1 : grantToCbor ?g = Ok ?x, H2 : grantToCbor ?g = Ok ?y |- _ =>
      assert (y = x) by congruence; subst y; clear H2 end.
  repeat match goal with H1 : encodeCanonicalCbor ?g = Ok ?x, H2 : encodeCanonicalCbor ?g = Ok ?y |- _ =>
      assert (y = x) by congruence; subst y; clear H2 end.
  split_and!; [done|done|].
  destruct (hashDomain_inj _ _ _ _ _ _ Hid1 Hid2) as [[_ Heq]|Hcol].
  - left. subst. eapply grant_cbor_inj; [done..|]. by eapply encode_injective.
  - right. eexists. split; [|exact Hcol].
    rename select (grantToCbor (ec_grant c2) = Ok _) into Hg2. by rewrite Hg2.
Qed.

Lemma capability_id_binds_grant_witness : ∃ c b,
  map_get (bytesToHex (nth_id 1 toy_snapshot2)) (cs_capabilities toy_snapshot2) = Some c ∧
  grantBytes (ec_grant c) = Ok b ∧ ec_id c = nth_id 1 toy_snapshot2.
Proof.
  eexists _, _. split; [vm_compute; reflexivity|]. split; [vm_compute; reflexivity|].
  eapply (capability_id_binds_grant toy_sha256 toy_verify toy_snapshot2 toy_history toy_snapshot2 toy_history);
    [exact toy_chain|exact toy_chain|vm_compute; reflexivity..|vm_compute; discriminate].
Defined.

(** ** Reduction *)

Lemma assertCanonical_size b v : assertCanonical b = Ok v → zlen b ≤ MAX_SAFE_INTEGER.
Proof.
  unfold assertCanonical, assertCanonicalCbor, decodeCanonicalCbor, canonicalInvariant. intros H. inv_ok.
  rename select ((_ <=? _) = true) into Hle. apply Z.leb_le in Hle. etrans; [exact Hle|]. by vm_compute.
Qed.

(** The number a revision is sorted by is the number that is checked. *)
Lemma revision_number x b r :
  encodeCapabilityRevision x = Ok b → decodeCapabilityRevision b = Ok r → cr_revision r = cr_revision x.
Proof.
  intros Hx Hr. assert (zlen b ≤ MAX_SAFE_INTEGER) as Hlen.
  { unfold decodeCapabilityRevision in Hr. apply bind_Ok in Hr as (v & Hv & _). by eapply assertCanonical_size. }
  apply revision_strict in Hr. unfold encodeCapabilityRevision, revisionToCbor in *. inv_ok. subst.
  pose proof (encode_injective _ _ _ Hx Hr Hlen) as Heq. field_eq Heq 2 E2. congruence.
Qed.

#[export] Instance compareRevisions_comparator : Comparator compareRevisions.
Proof.
  unfold compareRevisions. split; intros; repeat case_match; lia.
Qed.

Lemma reduce_numbers sha256 ed25519_verify l s s' :
  foldR (applyCapabilityRevision sha256 ed25519_verify) s l = Ok s' →
  StronglySorted (λ x y, compareRevisions x y < 0) l ∧
  Forall (λ x, cs_revision s < cr_revision (sr_revision x)) l ∧
  cs_revision s' = cs_revision s + zlen l.
Proof.
  revert s. induction l as [|x l IH]; intros s; cbn [foldR]; intros H; inv_ok.
  { subst. split_and!; [constructor|constructor|]. unfold zlen. simpl. lia. }
  rename x0 into s1. rename select (applyCapabilityRevision _ _ s x = Ok s1) into Hx.
  apply revision_step in Hx as (b & r & rv & Hb & Hd & _ & Hn & _ & _ & _ & _ & _ & _ & _ & Hs1).
  pose proof (revision_number _ _ _ Hb Hd) as Hnum.
  assert (cs_revision s1 = cs_revision s + 1) as Hs1r by (rewrite Hs1; simpl; lia). clear Hs1.
  destruct (IH _ H) as (Hsorted & Hall & Hlen).
  assert (Forall (λ y, cr_revision (sr_revision x) < cr_revision (sr_revision y)) l) as Hlt.
  { eapply Forall_impl; [exact Hall|]. simpl. lia. }
  split_and!.
  - constructor; [done|]. eapply Forall_impl; [exact Hlt|]. intros y Hy. unfold compareRevisions.
    by rewrite (proj2 (Z.ltb_lt _ _)).
  - constructor; [lia|]. eapply Forall_impl; [exact Hall|]. simpl. lia.
  - change (x :: l) with ([x] ++ l). rewrite zlen_app. change (zlen [x]) with 1. lia.
Qed.

(** reduction is independent of the order of arrival.  If the log reduces at
    all, every permutation of the revisions reduces to the same snapshot, whose
    number is the number of revisions: no revision is skipped, repeated or
    forked. *)
Theorem reduction_order_independent sha256 ed25519_verify genesis revisions revisions' s :
  reduceCapabilityLog sha256 ed25519_verify genesis revisions = Ok s → revisions ≡ₚ revisions' →
  reduceCapabilityLog sha256 ed25519_verify genesis revisions' = Ok s ∧ cs_revision s = zlen revisions.
Proof.
  unfold reduceCapabilityLog. intros H Hperm. inv_ok. rename x into s0. rename select (genesisSnapshot _ _ _ = Ok _) into Hg.
  rewrite Hg. cbn [mbind result_bind]. destruct (reduce_numbers _ _ _ _ _ H) as (Hsorted & _ & Hlen). split.
  - by rewrite (js_sort_perm_strict compareRevisions revisions revisions').
  - apply genesis_step in Hg as (b & m & _ & _ & _ & _ & _ & _ & Hs0). rewrite Hlen, Hs0.
    cbn [cs_revision]. unfold zlen. rewrite js_sort_length. lia.
Qed.

(** A second revision on top of the first, and the two in the wrong order. *)
Definition toy_revision2 : SignedCapabilityRevision := mkSignedRevision
  (mkRevision [x01] 2 (cs_revisionDigest toy_snapshot1) (toy_key x10) [toy_writer x24 2] [] [] None None)
  toy_signature.

Lemma reduction_order_independent_witness : ∃ s,
  reduceCapabilityLog toy_sha256 toy_verify toy_genesis [toy_revision; toy_revision2] = Ok s ∧
  reduceCapabilityLog toy_sha256 toy_verify toy_genesis [toy_revision2; toy_revision] = Ok s ∧
  cs_revision s = 2.
Proof.
  eexists. split; [vm_compute; reflexivity|].
  apply (reduction_order_independent toy_sha256 toy_verify toy_genesis [toy_revision; toy_revision2]).
  - vm_compute; reflexivity.
  - constructor.
Defined.
