(* ===== verification/AuthorityTheorems.v ===== *)
(** * Theorems on authority

    Who can change the membership and what a change can do: the recovery
    threshold, the effect of a recovery, the timestamp floor of validators, and
    the soundness of admission proofs. *)

From Stdlib Require Import Strings.Byte Strings.String.
From stdpp Require Import base list option numbers sets sorting relations.
From S2P Require Import Prelude JsMap Bytes Text Cbor CborProofs Schema Domains Messages CapTypes CapCodec CapCodecProofs Policy PolicyProofs Reducer ReducerProofs LogTheorems.

#[local] Open Scope Z_scope.

(** ** Recovery keys *)

(** The genesis fixes three different recovery keys and a threshold of two. *)
Definition recovery_authority (s : CapabilitySnapshot) : Prop :=
  NoDup (cs_recoveryPublicKeys s) ∧ length (cs_recoveryPublicKeys s) = 3%nat ∧ cs_recoveryThreshold s = 2.

Lemma set_of_keys_NoDup (keys : list bytes) :
  length (foldl (λ set k, set_add (bytesToHex k) set) [] keys) = length keys → NoDup keys.
Proof.
  assert (∀ acc : jsset jsstring, foldl (λ set k, set_add (bytesToHex k) set) acc keys =
    foldl (λ set o, set_add o set) acc (bytesToHex <$> keys)) as Hfold.
  { induction keys as [|k keys IH]; intros acc; [done|]. apply IH. }
  rewrite Hfold, <-(length_fmap bytesToHex keys). intros Hn.
  apply (NoDup_fmap_1 bytesToHex). rewrite <-(set_of_list_id (bytesToHex <$> keys))
    by (unfold map_keys; by rewrite length_fmap).
  change (map_wf (foldl (λ set o, set_add o set) [] (bytesToHex <$> keys))).
  clear. generalize (bytesToHex <$> keys) as l. assert (map_wf (K:=jsstring) (V:=unit) []) as Hw by apply map_wf_nil.
  revert Hw. generalize ([] : jsset jsstring) as acc. intros acc Hw l. revert acc Hw.
  induction l as [|x l IH]; intros acc Hw; [done|]. apply IH. by apply map_wf_set.
Qed.

Lemma chain_recovery_authority sha256 ed25519_verify s h :
  chain sha256 ed25519_verify s h → recovery_authority s.
Proof.
  induction 1 as [g s b Hg _|s h signed s' b _ IH Ha _|s h record s' b _ IH Ha _].
  - apply genesis_step in Hg as (b' & m & _ & Hd & _ & _ & _ & _ & ->). unfold recovery_authority.
    cbn [cs_recoveryPublicKeys cs_recoveryThreshold].
    unfold decodeGenesisManifest in Hd. inv_ok. rename select (genesisToCbor _ = Ok _) into Hc. subst.
    unfold genesisToCbor, check, protocolInvariant in Hc. inv_ok.
    cbn [gm_recoveryPublicKeys gm_recoveryThreshold] in *.
    rewrite andb_true_iff, !Nat.eqb_eq, Z.eqb_eq in *. destruct_and!. split_and!; try done.
    apply set_of_keys_NoDup. congruence.
  - destruct (log_step_revision sha256 ed25519_verify s s') as (_ & _ & Hk & Ht); [by eapply step_revision|].
    unfold recovery_authority in *. by rewrite Hk, Ht.
  - destruct (log_step_revision sha256 ed25519_verify s s') as (_ & _ & Hk & Ht); [by eapply step_recovery|].
    unfold recovery_authority in *. by rewrite Hk, Ht.
Qed.

(** The loop counts different key indices, each with a valid signature. *)
Lemma count_valid_signers ed25519_verify keys b seen sigs :
  ∃ signers : list Z, NoDup signers ∧ count_valid ed25519_verify keys b seen sigs = zlen signers ∧
    ∀ i, i ∈ signers → (i ∉ seen) ∧ 0 ≤ i ∧ ∃ key sig, keys !! Z.to_nat i = Some key ∧
      mkRecoverySignature i sig ∈ sigs ∧ verifyDomain ed25519_verify Drecovery b sig key = true.
Proof.
  revert seen. induction sigs as [|[i sig] sigs IH]; intros seen; cbn [count_valid rs_recoveryKeyIndex rs_signature].
  { exists []. split_and!; [constructor|done|]. by intros i ?%elem_of_nil. }
  destruct (_ || _) eqn:Hskip.
  - destruct (IH seen) as (signers & Hnd & -> & Hall). exists signers. split_and!; [done..|].
    intros j Hj. destruct (Hall j Hj) as (? & ? & key & sg & ? & ? & ?). split_and!; [done..|].
    exists key, sg. split_and!; [done|by right|done].
  - rewrite !orb_false_iff, Z.ltb_ge, Z.leb_gt, bool_decide_eq_false in Hskip.
    destruct Hskip as [[Hlo Hhi] Hseen]. destruct (IH (i :: seen)) as (signers & Hnd & -> & Hall).
    assert (∀ j, j ∈ signers → (j ∉ seen) ∧ 0 ≤ j ∧ ∃ key sg, keys !! Z.to_nat j = Some key ∧
      mkRecoverySignature j sg ∈ mkRecoverySignature i sig :: sigs ∧ verifyDomain ed25519_verify Drecovery b sg key = true)
      as Hrest.
    { intros j Hj. destruct (Hall j Hj) as (? & ? & key & sg & ? & ? & ?).
      split_and!; [set_solver|done|]. exists key, sg. split_and!; [done|by right|done]. }
    destruct (keys !! Z.to_nat i) as [key|] eqn:Hkey.
    + destruct (verifyDomain _ _ _ sig key) eqn:Hv; [|by exists signers].
      exists (i :: signers). split_and!.
      * constructor; [|done]. intros Hi. destruct (Hall i Hi) as [Hn _]. set_solver.
      * unfold zlen. cbn [length]. lia.
      * intros j [->|Hj]%elem_of_cons; [|by apply Hrest]. split_and!; [done..|].
        exists key, sig. split_and!; [done|left|done].
    + by exists signers.
Qed.

(** The recovery keys of any point of a log are those of the manifest it begins with. *)
Lemma chain_genesis_keys sha256 ed25519_verify s h : chain sha256 ed25519_verify s h →
  ∃ b m, last h = Some (Dgenesis, b) ∧ decodeGenesisManifest b = Ok m ∧ cs_recoveryPublicKeys s = gm_recoveryPublicKeys m.
Proof.
  induction 1 as [g s b Hg Hb|s h signed s' b Hc (b0 & m & Hl & Hm & Hk) Ha _|s h record s' b Hc (b0 & m & Hl & Hm & Hk) Ha _].
  - apply genesis_step in Hg as (b' & m & Hb' & Hd & _ & _ & _ & _ & ->). rewrite Hb in Hb'. apply Ok_inj in Hb' as <-. by exists b, m.
  - destruct (log_step_revision sha256 ed25519_verify s s') as (_ & _ & Hk' & _); [by eapply step_revision|].
    exists b0, m. split_and!; [by destruct h|done|congruence].
  - destruct (log_step_revision sha256 ed25519_verify s s') as (_ & _ & Hk' & _); [by eapply step_recovery|].
    exists b0, m. split_and!; [by destruct h|done|congruence].
Qed.

(** C19: a recovery needs two of the three recovery keys that the genesis fixed.  A log
    begins with the manifest of the genesis, which has three different recovery keys,
    and at every point of the log, whatever revisions and recoveries it went through,
    an accepted recovery record carries valid signatures, over the bytes of its payload
    in the recovery domain, under two different keys of that manifest; the payload names
    the current group, revision and digest. *)
Theorem recovery_needs_two_keys sha256 ed25519_verify s h record s' :
  chain sha256 ed25519_verify s h → applyRecoveryRecord sha256 ed25519_verify s record = Ok s' →
  ∃ genesis m, last h = Some (Dgenesis, genesis) ∧ decodeGenesisManifest genesis = Ok m ∧
  NoDup (gm_recoveryPublicKeys m) ∧ length (gm_recoveryPublicKeys m) = 3%nat ∧
  ry_groupId (rr_payload record) = cs_groupId s ∧ ry_lastRevision (rr_payload record) = cs_revision s ∧
  ry_lastRevisionDigest (rr_payload record) = cs_revisionDigest s ∧
  ∃ b k1 k2 sig1 sig2, encodeRecoveryPayload (rr_payload record) = Ok b ∧
    k1 ≠ k2 ∧ k1 ∈ gm_recoveryPublicKeys m ∧ k2 ∈ gm_recoveryPublicKeys m ∧
    verifyDomain ed25519_verify Drecovery b sig1 k1 = true ∧ verifyDomain ed25519_verify Drecovery b sig2 k2 = true.
Proof.
  intros Hchain. destruct (chain_genesis_keys _ _ _ _ Hchain) as (genesis & m & Hlast & Hm & Hkeys). revert Hchain.
  intros (Hnd & Hlen & Hth)%chain_recovery_authority (b & Hb & Hg & Hl & Hd & _ & Hcount & _)%recovery_step.
  exists genesis, m. rewrite <-Hkeys. split_and!; [done..|].
  destruct (count_valid_signers ed25519_verify (cs_recoveryPublicKeys s) b [] (rr_signatures record))
    as (signers & Hs & Hn & Hall).
  rewrite Hn, Hth in Hcount. destruct signers as [|i [|j signers]]; [by vm_compute in Hcount..|].
  destruct (Hall i) as (_ & Hi & k1 & sig1 & Hk1 & _ & Hv1); [left|].
  destruct (Hall j) as (_ & Hj & k2 & sig2 & Hk2 & _ & Hv2); [right; left|].
  exists b, k1, k2, sig1, sig2. split_and!; try done; [|by eapply list_elem_of_lookup_2..].
  intros <-. apply NoDup_cons in Hs as [Hne _]. apply Hne.
  assert (Z.to_nat i = Z.to_nat j) by (by eapply NoDup_lookup). assert (i = j) as -> by lia. left.
Qed.

(** After a revision of the log, the keys are still those of the genesis. *)
Lemma recovery_needs_two_keys_witness : ∃ b k1 k2 sig1 sig2,
  encodeRecoveryPayload (rr_payload toy_recovery) = Ok b ∧ k1 ≠ k2 ∧
  k1 ∈ gm_recoveryPublicKeys (sg_manifest toy_genesis) ∧ k2 ∈ gm_recoveryPublicKeys (sg_manifest toy_genesis) ∧
  verifyDomain toy_verify Drecovery b sig1 k1 = true ∧ verifyDomain toy_verify Drecovery b sig2 k2 = true.
Proof.
  destruct (recovery_needs_two_keys toy_sha256 toy_verify toy_snapshot1 (tail toy_history) toy_recovery toy_snapshot2)
    as (genesis & m & Hlast & Hm & _ & _ & _ & _ & _ & H); [|vm_compute; reflexivity|].
  - apply (chain_revision _ _ toy_snapshot _ toy_revision); [|vm_compute; reflexivity..].
    apply (chain_genesis _ _ toy_genesis); vm_compute; reflexivity.
  - assert (last (tail toy_history) = Some (Dgenesis, toy_bytes (encodeGenesisManifest (sg_manifest toy_genesis)))) as Hl
      by (vm_compute; reflexivity).
    assert (genesis = toy_bytes (encodeGenesisManifest (sg_manifest toy_genesis))) as -> by congruence.
    assert (decodeGenesisManifest (toy_bytes (encodeGenesisManifest (sg_manifest toy_genesis))) = Ok (sg_manifest toy_genesis)) as Hd
      by (vm_compute; reflexivity).
    rewrite Hd in Hm. injection Hm as <-. exact H.
Defined.

(** ** What a recovery does *)

Definition is_validator (c : EffectiveCapability) : Prop := g_role (ec_grant c) = validator.
Definition floor_of (c : EffectiveCapability) : Z := default 0 (g_minimumAuthorTimestampMs (ec_grant c)).

(** A loop of additions: what it adds are the grants it was given. *)
Lemma foldR_adds (f : jsmap jsstring EffectiveCapability → CapabilityGrant → result ErrorCode _) n gs m m' k c :
  (∀ m g m', f m g = Ok m' → ∃ id, map_get (bytesToHex id) m = None ∧
     m' = map_set (bytesToHex id) (mkEffective id g n None) m) →
  foldR f m gs = Ok m' → map_get k m' = Some c →
  map_get k m = Some c ∨ (ec_grant c ∈ gs ∧ ec_grantedAtRevision c = n ∧ ec_revokedAtRevision c = None ∧ map_get k m = None).
Proof.
  intros Hf. revert m. induction gs as [|g gs IH]; intros m H Hk; cbn [foldR] in H; inv_ok; [subst; by left|].
  rename select (f m g = Ok _) into Hg. apply Hf in Hg as (id & Hnone & ->).
  destruct (IH _ H Hk) as [Hc|(Hin & Hat & Hrev & Hn)].
  - rewrite map_get_set in Hc. case_decide; [|by left]. injection Hc as <-. subst.
    right. split_and!; [left|done..].
  - right. rewrite map_get_set in Hn. case_decide; [done|]. split_and!; [by right|done..].
Qed.

Lemma add_recovery_grant_adds sha256 n m g m' :
  add_recovery_grant sha256 n m g = Ok m' → ∃ id, map_get (bytesToHex id) m = None ∧
    m' = map_set (bytesToHex id) (mkEffective id g n None) m.
Proof.
  unfold add_recovery_grant, check, protocolInvariant. intros H. inv_ok. subst. eexists. split; [|done].
  by apply map_has_false, negb_true_iff.
Qed.

Lemma add_grant_adds sha256 n m g m' :
  add_grant sha256 n m g = Ok m' → ∃ id, map_get (bytesToHex id) m = None ∧
    m' = map_set (bytesToHex id) (mkEffective id g n None) m.
Proof.
  unfold add_grant, check, protocolInvariant. intros H. inv_ok. subst. eexists. split; [|done].
  by apply map_has_false, negb_true_iff.
Qed.

(** The greatest floor of a list, as the code's [reduce] computes it. *)
Lemma floor_fold l : ∀ acc,
  acc ≤ foldl (λ maximum entry, if maximum <? floor_of entry then floor_of entry else maximum) acc l ∧
  ∀ c, c ∈ l → floor_of c ≤
    foldl (λ maximum entry, if maximum <? floor_of entry then floor_of entry else maximum) acc l.
Proof.
  induction l as [|x l IH]; intros acc; [by split; [|intros c ?%elem_of_nil]|]. cbn [foldl].
  destruct (IH (if acc <? floor_of x then floor_of x else acc)) as [Hacc Hin].
  destruct (Z.ltb_spec acc (floor_of x)); (split; [lia|]);
    (intros c [->|Hc]%elem_of_cons; [lia|by apply Hin]).
Qed.

(** The floor is at least the floor of every validator that is not revoked. *)
Lemma validator_floor_ge (m : jsmap jsstring EffectiveCapability) k c :
  (k, c) ∈ m → is_validator c → ec_revokedAtRevision c = None → floor_of c ≤ validator_floor m.
Proof.
  intros Hin Hv Hr. apply floor_fold, list_elem_of_filter. split.
  - unfold is_validator in Hv. by rewrite bool_decide_eq_true_2, Hr.
  - unfold map_values. apply list_elem_of_fmap. by exists (k, c).
Qed.

Lemma revoke_for_recovery_validator s n k c :
  is_validator c → is_Some (ec_revokedAtRevision (revoke_for_recovery s n (k, c)).2).
Proof.
  intros Hv. unfold revoke_for_recovery. cbn [fst snd]. unfold is_validator in Hv.
  rewrite bool_decide_eq_true_2 by done. rewrite orb_true_l, andb_true_r.
  destruct (ec_revokedAtRevision c) eqn:Hr; simpl; [by rewrite Hr|done].
Qed.

(** a recovery replaces the validators.  Afterwards every validator that is
    not revoked is one of the payload's own grants, in force from the new
    revision; every validator there was is kept, revoked; and unless the payload
    reopens history, no new validator accepts timestamps below the floor the old
    validators had promised. *)
Theorem recovery_replaces_validators sha256 ed25519_verify s record s' :
  applyRecoveryRecord sha256 ed25519_verify s record = Ok s' →
  (∀ k c, map_get k (cs_capabilities s') = Some c → is_validator c → ec_revokedAtRevision c = None →
     ec_grant c ∈ ry_validatorGrants (rr_payload record) ∧ ec_grantedAtRevision c = cs_revision s' ∧
     map_get k (cs_capabilities s) = None) ∧
  (∀ k c, map_get k (cs_capabilities s) = Some c → is_validator c →
     ∃ c' r, map_get k (cs_capabilities s') = Some c' ∧ ec_grant c' = ec_grant c ∧ ec_revokedAtRevision c' = Some r) ∧
  (cs_historyReopened s' = false →
   ∀ g k c, g ∈ ry_validatorGrants (rr_payload record) →
     map_get k (cs_capabilities s) = Some c → is_validator c → ec_revokedAtRevision c = None →
     floor_of c ≤ default (-1) (g_minimumAuthorTimestampMs g)).
Proof.
  intros (b & _ & _ & _ & _ & _ & _ & Hreopen & Hg & _ & Hs')%recovery_step. cbv zeta in Hreopen, Hg.
  assert (cs_revision s' = ry_newRevision (rr_payload record)) as Hrev by (rewrite Hs'; done).
  split_and!.
  - intros k c Hc Hv Hr. destruct (foldR_adds _ _ _ _ _ _ _ (add_recovery_grant_adds sha256 _) Hg Hc) as [Hold|Hnew].
    + rewrite revoke_for_recovery_get in Hold.
      destruct (map_get k (cs_capabilities s)) as [c0|]; [|done]. injection Hold as <-.
      destruct (revoke_for_recovery_persists s (ry_newRevision (rr_payload record)) (k, c0)) as (_ & Hgr & _).
      cbn [snd] in Hgr. unfold is_validator in Hv. rewrite Hgr in Hv.
      destruct (revoke_for_recovery_validator s (ry_newRevision (rr_payload record)) k c0 Hv) as [r Hr'].
      rewrite Hr in Hr'. done.
    + destruct Hnew as (Hin & Hat & _ & Hn). rewrite Hrev. split_and!; [done..|].
      rewrite revoke_for_recovery_get in Hn. by destruct (map_get k (cs_capabilities s)).
  - intros k c Hc Hv. destruct (revoke_for_recovery_validator s (ry_newRevision (rr_payload record)) k c Hv) as [r Hr].
    destruct (revoke_for_recovery_persists s (ry_newRevision (rr_payload record)) (k, c)) as (_ & Hgr & _).
    assert (evolves (revoke_for_recovery s (ry_newRevision (rr_payload record)) <$> cs_capabilities s)
      (cs_capabilities s')) as Hev.
    { eapply foldR_evolves; [|exact Hg]. intros ??? _. apply add_recovery_grant_evolves. }
    destruct (Hev k (revoke_for_recovery s (ry_newRevision (rr_payload record)) (k, c)).2)
      as (c' & Hc' & _ & Hg' & _ & Hfinal); [by rewrite revoke_for_recovery_get, Hc|].
    exists c', r. split_and!; [done| |by apply Hfinal]. rewrite Hg'. exact Hgr.
  - intros Hh g k c Hin Hc Hv Hr. rewrite Hs' in Hh. cbn [cs_historyReopened] in Hh.
    destruct Hreopen as [Ht|Hall]; [congruence|]. rewrite Forall_forall in Hall.
    etrans; [|by apply Hall]. eapply validator_floor_ge; [by apply map_get_Some_elem|done..].
Qed.

Lemma recovery_replaces_validators_witness :
  ∃ c' r, map_get (bytesToHex (nth_id 2 toy_snapshot1)) (cs_capabilities toy_snapshot2) = Some c' ∧
    ec_grant c' = toy_validator x22 1 200 ∧ ec_revokedAtRevision c' = Some r.
Proof.
  eapply (proj1 (proj2 (recovery_replaces_validators toy_sha256 toy_verify toy_snapshot1 toy_recovery toy_snapshot2
    ltac:(vm_compute; reflexivity))) _ (mkEffective (nth_id 2 toy_snapshot1) (toy_validator x22 1 200) 1 None));
    vm_compute; reflexivity.
Defined.

(** ** The timestamp floor of ordinary revisions *)

Lemma revoke_adds_nothing n m id m' k : map_get k m = None → revoke n m id = Ok m' → map_get k m' = None.
Proof.
  unfold revoke, check, protocolInvariant. intros Hk. destruct (map_get (bytesToHex id) m) as [c|] eqn:Hc; [|done].
  intros H. inv_ok. subst. rewrite map_get_set. case_decide; [congruence|done].
Qed.

Lemma added_validator_floor sha256 n gs m m' k c k0 c0 :
  foldR (add_grant sha256 n) m gs = Ok m' → map_get k m' = Some c → map_get k m = None → is_validator c →
  map_get k0 m = Some c0 → is_validator c0 → ec_revokedAtRevision c0 = None →
  floor_of c0 ≤ default (-1) (g_minimumAuthorTimestampMs (ec_grant c)).
Proof.
  revert m. induction gs as [|g gs IH]; intros m H Hk Hnone Hv H0 Hv0 Hr0; cbn [foldR] in H; inv_ok; [congruence|].
  rename x into m1. rename select (add_grant _ _ m g = Ok m1) into Hg.
  pose proof (add_grant_adds _ _ _ _ _ Hg) as (id & Hid & Hm1).
  destruct (map_get k m1) as [c1|] eqn:Hk1.
  - subst m1. rewrite map_get_set in Hk1. case_decide; [|congruence]. injection Hk1 as <-. subst k.
    assert (evolves (map_set (bytesToHex id) (mkEffective id g n None) m) m') as Hev.
    { eapply foldR_evolves; [|exact H]. intros ??? _. apply add_grant_evolves. }
    destruct (Hev (bytesToHex id) _ (map_get_set_eq _ _ _)) as (c' & Hc' & _ & Hgr & _). cbn [ec_grant] in Hgr.
    rewrite Hk in Hc'. injection Hc' as <-. unfold is_validator in Hv. rewrite Hgr in Hv |- *.
    unfold add_grant, check, protocolInvariant in Hg. rewrite bool_decide_eq_true_2 in Hg by done. inv_ok.
    rename select ((_ <=? _) = true) into Hle. apply Z.leb_le in Hle. etrans; [|exact Hle].
    eapply validator_floor_ge; [by apply map_get_Some_elem|done..].
  - eapply (IH m1); try done. destruct (evolves_fresh _ (mkEffective id g n None) m Hid k0 c0 H0) as (c2 & Hc2 & _).
    rewrite Hm1, map_get_set. case_decide; [congruence|done].
Qed.

(** an ordinary revision cannot undercut a validator that stays.  A validator
    added by an accepted revision has a timestamp floor at least that of every
    validator that was there before and is not revoked by the revision. *)
Theorem new_validator_respects_floor sha256 ed25519_verify s signed s' k c k0 c0 c0' :
  applyCapabilityRevision sha256 ed25519_verify s signed = Ok s' →
  map_get k (cs_capabilities s') = Some c → map_get k (cs_capabilities s) = None → is_validator c →
  map_get k0 (cs_capabilities s) = Some c0 → is_validator c0 →
  map_get k0 (cs_capabilities s') = Some c0' → ec_revokedAtRevision c0' = None →
  floor_of c0 ≤ default (-1) (g_minimumAuthorTimestampMs (ec_grant c)).
Proof.
  intros (b & r & rv & _ & _ & _ & _ & _ & _ & _ & Hrv & Hg & _)%revision_step Hk Hnone Hv H0 Hv0 H0' Hr0.
  assert (map_get k rv = None) as Hrvk.
  { eapply (foldR_transport (λ m, map_get k m = None)); [|exact Hnone|exact Hrv]. intros. by eapply revoke_adds_nothing. }
  assert (evolves (cs_capabilities s) rv) as Hev1 by (eapply foldR_evolves; [|exact Hrv]; intros ??? _; apply revoke_evolves).
  assert (evolves rv (cs_capabilities s')) as Hev2 by (eapply foldR_evolves; [|exact Hg]; intros ??? _; apply add_grant_evolves).
  destruct (Hev1 _ _ H0) as (c1 & Hc1 & _ & Hg1 & _). destruct (Hev2 _ _ Hc1) as (c2 & Hc2 & _ & _ & _ & Hfinal).
  assert (c2 = c0') by congruence. subst c2.
  replace (floor_of c0) with (floor_of c1) by (unfold floor_of; by rewrite Hg1).
  eapply (added_validator_floor sha256 _ _ rv _ k c k0 c1); [done..| |].
  - unfold is_validator. by rewrite Hg1.
  - destruct (ec_revokedAtRevision c1) as [r1|] eqn:Hr1; [|done]. specialize (Hfinal r1 eq_refl). congruence.
Qed.

(** A revision that adds a second validator next to the genesis validator. *)
Definition toy_addition : SignedCapabilityRevision := mkSignedRevision
  (mkRevision [x01] 1 (cs_revisionDigest toy_snapshot) (toy_key x10) [toy_validator x25 1 150] [] [] None None)
  toy_signature.

Definition toy_added : CapabilitySnapshot :=
  Eval vm_compute in match applyCapabilityRevision toy_sha256 toy_verify toy_snapshot toy_addition with
  | Ok s => s
  | Err _ => toy_snapshot
  end.

Lemma new_validator_respects_floor_witness :
  applyCapabilityRevision toy_sha256 toy_verify toy_snapshot toy_addition = Ok toy_added ∧
  floor_of (mkEffective (nth_id 0 toy_snapshot) (toy_validator x20 0 100) 0 None) ≤
  default (-1) (g_minimumAuthorTimestampMs (ec_grant
    (mkEffective (nth_id 2 toy_added) (toy_validator x25 1 150) 1 None))).
Proof.
  split; [vm_compute; reflexivity|].
  apply (new_validator_respects_floor toy_sha256 toy_verify toy_snapshot toy_addition toy_added
    (bytesToHex (nth_id 2 toy_added)) _ (bytesToHex (nth_id 0 toy_snapshot)) _
    (mkEffective (nth_id 0 toy_snapshot) (toy_validator x20 0 100) 0 None)); vm_compute; reflexivity.
Defined.

(** The validators a revision revokes do not count: revoking the validators and
    adding one with a lower floor in the same revision is accepted, and the floor
    of the group falls. *)
Definition toy_replacement : SignedCapabilityRevision := mkSignedRevision
  (mkRevision [x01] 1 (cs_revisionDigest toy_snapshot) (toy_key x10) [toy_validator x26 1 0]
    [nth_id 0 toy_snapshot] [] None None)
  toy_signature.

Example replacement_lowers_floor :
  match applyCapabilityRevision toy_sha256 toy_verify toy_snapshot toy_replacement with
  | Ok s' => validator_floor (cs_capabilities toy_snapshot) = 100 ∧ validator_floor (cs_capabilities s') = 0
  | Err _ => False
  end.
Proof. vm_compute. split; reflexivity. Qed.
