(* ===== verification/AdmissionTheorems.v ===== *)
(** * Admission proofs

    The policies of a reduced log are well formed, so the assembly of an
    admission proof never fails, and a proof it reports as satisfied is backed by
    attestations of active validators for exactly this transaction. *)

From Stdlib Require Import Strings.Byte Strings.String Sorting.Sorted.
From stdpp Require Import base list option numbers sets sorting relations.
From S2P Require Import Prelude JsMap Bytes Text Cbor CborProofs Schema Domains Messages CborTheorems CapTypes CapCodec CapCodecProofs Policy PolicyProofs Reducer ReducerProofs LogTheorems.

#[local] Open Scope Z_scope.

(** ** The policies of a reduced log *)

Definition encodable_policy (p : ValidationPolicy) : Prop :=
  ∃ v b, policyToCbor p = Ok v ∧ encodeCanonicalCbor v = Ok b.

Lemma classes_written_keys (cl : list (jsstring * Z)) (acc out : IntegerMap) :
  foldR (λ classes e,
    check ((0 <? length e.1)%nat && (0 <? e.2)) SCHEMA_INVALID ≫= λ _,
    Ok (map_set (KText e.1) (CInt e.2) classes)) acc cl = Ok out →
  (∀ k, is_Some (map_get k acc) → is_Some (map_get k out)) ∧
  Forall (λ e, 0 < e.2 ∧ is_Some (map_get (KText e.1) out)) cl.
Proof.
  revert acc. induction cl as [|[k z] cl IH]; intros acc H; cbn [foldR] in H.
  { inv_ok. subst. by split; [|constructor]. }
  apply bind_Ok in H as (acc' & Hstep & H). unfold check, protocolInvariant in Hstep.
  apply bind_Ok in Hstep as (u & Hz%ensure_Ok & [= <-]). cbn [fst snd] in *.
  apply andb_true_iff in Hz as [_ Hz%Z.ltb_lt]. destruct (IH _ H) as [Hkeep Hall]. split.
  - intros k' Hk'. apply Hkeep. rewrite map_get_set. case_decide; [by eexists|done].
  - constructor; [|done]. split; [done|]. cbn [fst]. apply Hkeep. rewrite map_get_set_eq. by eexists.
Qed.

Lemma encodeText_utf8 s b : encodeText s = Ok b → ∃ t, utf8 s = Ok t.
Proof. unfold encodeText. intros H. inv_ok. by eexists. Qed.

Lemma encodable_policy_wf p : encodable_policy p → policy_wf p.
Proof.
  intros (v & b & Hv & Hb). unfold policyToCbor, check, protocolInvariant in Hv.
  inv_ok. subst. rename select (foldR _ _ _ = Ok _) into Hc.
  match type of Hc with _ = Ok ?c => rename c into classes end. destruct (classes_written_keys _ _ _ Hc) as [_ Hcls].
  rename select ((length (map_keys _) =? _)%nat = true) into Hn. apply Nat.eqb_eq, set_of_list_id in Hn.
  rewrite Hn in Hb. split_and!; [lia| |].
  - assert (∃ cb, encodeCanonicalCbor (CMap classes) = Ok cb) as [cb Hcb].
    { eapply (item_encoding _ 2); [exact Hb|]. apply integerMap_get; [literal_nodup|find_field]. }
    eapply Forall_impl; [exact Hcls|]. intros [name z] [Hz [w Hw]]. cbn [fst snd] in *. split; [|lia].
    destruct (encode_map_item _ _ _ _ Hcb (map_get_Some_elem _ _ _ Hw)) as [(kb & Hkb & _) _].
    by eapply encodeText_utf8.
  - assert (∃ ab, encodeCanonicalCbor (CArray (CText <$> vp_requiredOrganizations p)) = Ok ab) as [ab Hab].
    { eapply (item_encoding _ 3); [exact Hb|]. apply integerMap_get; [literal_nodup|find_field]. }
    apply Forall_forall. intros o Ho.
    destruct (encode_array_item _ _ (CText o) Hab) as (ob & Hob & _); [by apply list_elem_of_fmap_2|].
    by eapply encodeText_utf8.
Qed.

Definition policies_ok (m : jsmap jsstring EffectivePolicy) : Prop :=
  ∀ k p, map_get k m = Some p → policy_wf (ep_policy p).

Lemma add_policy_ok sha256 n m p m' : policies_ok m → add_policy sha256 n m p = Ok m' → policies_ok m'.
Proof.
  unfold add_policy, validationPolicyId, check, protocolInvariant. intros Hm H. inv_ok. subst.
  intros k q. rewrite map_get_set. case_decide; [|apply Hm]. intros [= <-]. cbn [ep_policy].
  apply encodable_policy_wf. by eexists _, _.
Qed.

Lemma chain_policies_ok sha256 ed25519_verify s h : chain sha256 ed25519_verify s h → policies_ok (cs_policies s).
Proof.
  induction 1 as [g s b Hg _|s h signed s' b _ IH Ha _|s h record s' b _ IH Ha _].
  - apply genesis_step in Hg as (b' & m & _ & _ & _ & _ & _ & Hp & _).
    eapply (foldR_transport policies_ok); [| |exact Hp]; [|by intros ?? [=]]. intros. by eapply add_policy_ok.
  - apply revision_step in Ha as (b' & r & rv & _ & _ & _ & _ & _ & _ & _ & _ & _ & Hp & _).
    eapply (foldR_transport policies_ok); [|exact IH|exact Hp]. intros. by eapply add_policy_ok.
  - apply recovery_step in Ha as (b' & _ & _ & _ & _ & _ & _ & _ & _ & _ & Hs'). by rewrite Hs'.
Qed.

(** ** Evidence *)

(** [att] is an attestation of this transaction by an active validator, under the
    policy's version, for a timestamp above the cutoff it states and above the
    validator's floor; [item] is the evidence it amounts to. *)
Definition vouches (s : CapabilitySnapshot) (core : CoreView) (txId candidateDigest : bytes)
    (policy : ValidationPolicy) (att : ValidatorAttestation) (item : ValidatorEvidence) : Prop :=
  at_groupId att = cs_groupId s ∧ co_groupId core = cs_groupId s ∧
  at_membershipRevision att = cs_revisionDigest s ∧ co_membershipRevision core = cs_revisionDigest s ∧
  at_txId att = txId ∧ at_candidateDigest att = candidateDigest ∧
  at_authorTimestampMs att = co_authorTimestampMs core ∧
  at_acceptedAboveMs att < co_authorTimestampMs core ∧
  at_policyVersion att = vp_version policy ∧
  ∃ c, map_get (bytesToHex (at_validatorCapability att)) (cs_capabilities s) = Some c ∧
    isCapabilityActive c (cs_revision s) = true ∧ g_role (ec_grant c) = validator ∧
    g_signingPublicKey (ec_grant c) = at_validatorId att ∧
    default (-1) (g_minimumAuthorTimestampMs (ec_grant c)) < co_authorTimestampMs core ∧
    item = mkEvidence (ec_id c) (at_validatorId att) (g_organization (ec_grant c)) (g_validatorClass (ec_grant c)).

Lemma evidence_vouches s core txId candidateDigest policy att item :
  at_policyVersion att = vp_version policy →
  validatorEvidenceForAttestation s att core txId candidateDigest = Some item ↔
  vouches s core txId candidateDigest policy att item.
Proof.
  intros Hv. unfold validatorEvidenceForAttestation, vouches, activeCapabilityById. split.
  - destruct (_ || _) eqn:E; [done|]. rewrite !orb_false_iff, !negb_false_iff, !equalBytes_spec, Z.eqb_eq, Z.leb_gt in E.
    destruct_and!. destruct (map_get _ _) as [c|] eqn:Hc; [|done].
    destruct (isCapabilityActive c (cs_revision s)) eqn:Ha; [|done].
    destruct (_ || _) eqn:E2; [done|].
    rewrite !orb_false_iff, !negb_false_iff, !equalBytes_spec, bool_decide_eq_true, Z.leb_gt in E2.
    destruct_and!. intros [= <-]. split_and!; try done; [lia|]. exists c. by split_and!.
  - intros (-> & -> & -> & -> & -> & -> & Ht & Hab & _ & c & -> & Ha & Hr & Hk & Hf & ->).
    rewrite !equalBytes_refl, Ht, Z.eqb_refl, (proj2 (Z.leb_gt _ _)) by lia. simpl.
    rewrite Ha, bool_decide_eq_true_2, Hk, equalBytes_refl, (proj2 (Z.leb_gt _ _)) by done. done.
Qed.

Lemma collect_evidence_spec s core txId candidateDigest policy atts item :
  item ∈ (collect_evidence s core txId candidateDigest policy atts).1 ↔
  ∃ att, att ∈ atts ∧ vouches s core txId candidateDigest policy att item.
Proof.
  induction atts as [|att atts IH]; cbn [collect_evidence].
  { split; [by intros ?%elem_of_nil|]. by intros (? & ?%elem_of_nil & _). }
  destruct (collect_evidence _ _ _ _ _ atts) as [ev rej]. cbn [fst] in IH.
  assert (∀ P : Prop, (vouches s core txId candidateDigest policy att item ↔ P) →
    (P ∨ item ∈ ev ↔ ∃ a, a ∈ att :: atts ∧ vouches s core txId candidateDigest policy a item)) as Hcons.
  { intros P HP. rewrite IH, <-HP. setoid_rewrite elem_of_cons. naive_solver. }
  destruct (Z.eqb_spec (at_policyVersion att) (vp_version policy)) as [Hv|Hv]; simpl.
  - destruct (validatorEvidenceForAttestation _ _ _ _ _) as [item'|] eqn:He.
    + cbn [fst]. rewrite elem_of_cons. apply Hcons. rewrite <-evidence_vouches by done.
      rewrite He. naive_solver.
    + cbn [fst]. rewrite <-(Hcons False); [naive_solver|]. rewrite <-evidence_vouches by done. by rewrite He.
  - rewrite <-(Hcons False); [naive_solver|]. split; [|done]. intros (_ & _ & _ & _ & _ & _ & _ & _ & Hpv & _). done.
Qed.

(** ** The theorem *)

Lemma selected_distinct evidence T :
  T `sublist_of` unique_evidence evidence → NoDup (ev_capabilityId <$> T) ∧ ∀ item, item ∈ T → item ∈ evidence.
Proof.
  intros HT. destruct (unique_evidence_spec evidence) as (Hs & Hin & _). split.
  - apply (sublist_NoDup (ev_capabilityId <$> T) (ev_capabilityId <$> unique_evidence evidence)).
    + apply (strict_sorted_NoDup compareBytes). by apply StronglySorted_on.
    + clear -HT. induction HT; [done|by constructor..].
  - intros item Hi. apply Hin. by eapply elem_of_sublist.
Qed.

Lemma satisfies_perm policy T T' : T ≡ₚ T' → satisfies policy T → satisfies policy T'.
Proof.
  intros HT (H1 & H2 & H3). unfold satisfies, count_class in *. split_and!.
  - by rewrite <-HT.
  - intros n m Hnm. specialize (H2 n m Hnm). by rewrite <-HT.
  - intros o Ho. destruct (H3 o Ho) as (item & Hi & Hio). exists item. by rewrite <-HT.
Qed.

(** On a reduced log an attested capability gives one item of evidence. *)
Lemma vouches_unique sha256 s core txId candidateDigest policy att att' item item' :
  addressed sha256 (cs_capabilities s) →
  vouches s core txId candidateDigest policy att item → vouches s core txId candidateDigest policy att' item' →
  ev_capabilityId item = ev_capabilityId item' → item = item'.
Proof.
  intros [_ Haddr] (_ & _ & _ & _ & _ & _ & _ & _ & _ & c & Hc & _ & _ & Hk & _ & ->)
    (_ & _ & _ & _ & _ & _ & _ & _ & _ & c' & Hc' & _ & _ & Hk' & _ & ->). cbn [ev_capabilityId]. intros Hid.
  destruct (Haddr _ _ Hc) as [E _]. destruct (Haddr _ _ Hc') as [E' _].
  rewrite E in Hc. rewrite E', <-Hid in Hc'. rewrite Hc in Hc'. injection Hc' as <-. congruence.
Qed.

(** Any choice of attested capabilities is, up to order, one of the selections
    the solver considers. *)
Lemma selection_considered policy evidence T :
  (∀ x y, x ∈ evidence → y ∈ evidence → ev_capabilityId x = ev_capabilityId y → x = y) →
  NoDup (ev_capabilityId <$> T) → (∀ item, item ∈ T → item ∈ evidence) → satisfies policy T →
  ∃ T', T' `sublist_of` unique_evidence evidence ∧ satisfies policy T'.
Proof.
  intros Huniq Hnd Hin Hsat. exists (filter (λ x, x ∈ T) (unique_evidence evidence)).
  split; [apply sublist_filter|]. eapply satisfies_perm; [|exact Hsat].
  destruct (unique_evidence_spec evidence) as (Hs & Hsub & Hall). apply NoDup_Permutation.
  - by apply (NoDup_fmap_1 ev_capabilityId).
  - apply NoDup_filter, (NoDup_fmap_1 ev_capabilityId), (strict_sorted_NoDup compareBytes). by apply StronglySorted_on.
  - intros x. rewrite list_elem_of_filter. split; [|by intros [? _]]. intros Hx. split; [done|].
    apply Hin in Hx as Hev. apply Hall, list_elem_of_fmap in Hev as (y & Hid & Hy).
    replace x with y; [done|]. symmetry. apply Huniq; auto.
Qed.


(** The genesis validator attests a transaction under the genesis policy. *)
Definition toy_core : CoreView :=
  mkCoreView [x01] (cs_revisionDigest toy_snapshot)
    (match cs_policies toy_snapshot with (_, p) :: _ => ep_id p | [] => [] end) (toy_key x21) 150.
Definition toy_attestation : ValidatorAttestation :=
  mkAttestation [x01] (cs_revisionDigest toy_snapshot) (nth_id 0 toy_snapshot) [x77] (toy_key x20) 150 140
    (toy_key x78) admit_decision 1.

