(* ===== verification/FileSystem.v ===== *)
(** * Files and crashes

    The operations of [node:fs] the code base persists its state with, as an
    interface with the POSIX guarantees the code relies on: [fsync] of a file makes
    its contents durable, [fsync] of a directory makes its entries durable, and
    [rename] is atomic.  A crash may lose or tear whatever was not made durable.
    [CacheDisk] is a disk with a volatile cache, and [power_cut] turns any file
    system into one that stops at a chosen operation; both satisfy the laws, so
    theorems about every file system cover a crash at every point. *)

From Stdlib Require Import Strings.String.
From stdpp Require Import base list option numbers.
From S2P Require Import Prelude JsMap Bytes.

#[local] Open Scope Z_scope.

Abbreviation path := jsstring.

Inductive FsError := ENOENT | EOTHER.

(** [F] is the state of the file system, [T] the contents of a file. *)
Class FileSystem (T F : Type) := {
  readFileSync : path → SE F FsError T;
  writeFileSync : path → T → SE F FsError unit;
  fsyncSync : path → SE F FsError unit;
  renameSync : path → path → SE F FsError unit;
  mkdirSync : path → SE F FsError unit;
  existsSync : path → F → bool;
  dirname : path → path;
  (** process id and clock, which name quarantined files *)
  stamp : F → jsstring;
  (** what a read would return *)
  view : F → path → option T;
  (** the contents of the file are on stable storage *)
  synced : F → path → Prop;
  (** the state after a crash and a reboot *)
  crash : F → F → Prop;
}.

Section observations.
Context {T F : Type} `{!FileSystem T F}.

(** A crash can leave [c] under the name [p]. *)
Definition survives (f : F) (p : path) (c : option T) : Prop := ∃ f', crash f f' ∧ view f' p = c.

(** Nothing about [p] got worse. *)
Record keeps (f f' : F) (p : path) : Prop := {
    keeps_view : view f' p = view f p;
    keeps_survives : ∀ c, survives f' p c → survives f p c;
    keeps_synced : synced f p → synced f' p;
}.

(** Whatever happens, [p] holds [c]. *)
Definition durable (f : F) (p : path) (c : option T) : Prop :=
  view f p = c ∧ ∀ c', survives f p c' → c' = c.

Lemma keeps_same f p : keeps f f p.
Proof. by split. Qed.
Lemma keeps_trans f1 f2 f3 p : keeps f1 f2 p → keeps f2 f3 p → keeps f1 f3 p.
Proof. intros [V1 S1 D1] [V2 S2 D2]. split; [congruence|auto|auto]. Qed.
End observations.

Class FileSystemLaws (T F : Type) `{!FileSystem T F} : Prop := {
  read_law p f f' r : readFileSync p f = (f', r) →
    (∀ q, keeps f f' q) ∧
    match r with
    | Ok t => view f p = Some t
    | Err ENOENT => view f p = None
    | Err _ => True
    end;
  exists_law p f : existsSync p f = true → is_Some (view f p);
  mkdir_law p f f' r : mkdirSync p f = (f', r) → ∀ q, keeps f f' q;
  write_law p t f f' r : writeFileSync p t f = (f', r) →
    (∀ q, q ≠ p → keeps f f' q) ∧ (r = Ok tt → view f' p = Some t);
  sync_law p f f' r : fsyncSync p f = (f', r) →
    (∀ q, keeps f f' q) ∧
    (r = Ok tt → synced f' p ∧
      ∀ q, dirname q = p → synced f q → ∀ c, survives f' q c → c = view f q);
  rename_law a b f f' r : renameSync a b f = (f', r) → a ≠ b →
    (∀ q, q ≠ a → q ≠ b → keeps f f' q) ∧
    match r with
    | Ok _ => view f' b = view f a ∧
        (synced f a → synced f' b ∧ ∀ c, survives f' b c → survives f b c ∨ c = view f a)
    | Err _ => keeps f f' a ∧ keeps f f' b
    end;
  crash_law f f' p c : crash f f' → survives f' p c → c = view f' p;
}.

(** ** Crash-safe replacement of a file: [packages/control-store/src/persistence.ts] *)

Section write.
Context {T F : Type} `{!FileSystem T F}.

(** [openSync], [fsyncSync] and [closeSync]; the descriptor is closed in any case. *)
Definition syncPath (p : path) : SE F FsError unit := fsyncSync p.

Definition temporaryPath (p : path) : path := p ++ js ".tmp".

Definition writeCrashSafe (p : path) (contents : T) : SE F FsError unit :=
  mkdirSync (dirname p) ;;
  writeFileSync (temporaryPath p) contents ;;
  syncPath (temporaryPath p) ;;
  syncPath (dirname p) ;;
  renameSync (temporaryPath p) p ;;
  syncPath (dirname p).

Context `{!FileSystemLaws T F}.

Lemma app_ne_self {A} (l : list A) x y : l ++ x :: y ≠ l.
Proof. intros H. apply (f_equal length) in H. rewrite length_app in H. simpl in H. lia. Qed.

Lemma temporaryPath_ne p : temporaryPath p ≠ p.
Proof. apply app_ne_self. Qed.

(** The outcome of a crash-safe write of [t] to [p]. *)
Record replaced (p : path) (t : T) (f f' : F) (r : result FsError unit) : Prop := {
    replaced_frame : ∀ q, q ≠ p → q ≠ temporaryPath p → keeps f f' q;
    replaced_survives : ∀ c, survives f' p c → survives f p c ∨ c = Some t;
    replaced_view : view f' p = view f p ∨ view f' p = Some t;
    replaced_done : r = Ok tt → durable f' p (Some t);
}.

Lemma replaced_stop p t f f' e :
  (∀ q, q ≠ temporaryPath p → keeps f f' q) → replaced p t f f' (Err e).
Proof.
  intros Hk. destruct (Hk p) as [V S _]; [apply not_eq_sym, temporaryPath_ne|].
  split; [auto|intros c Hc; left; auto|by left|done].
Qed.

Lemma writeCrashSafe_replaces p t f f' r : writeCrashSafe p t f = (f', r) → replaced p t f f' r.
Proof.
  unfold writeCrashSafe, syncPath, mbind, SE_bind. set (tmp := temporaryPath p). set (dir := dirname p).
  assert (tmp ≠ p) as Hne by apply temporaryPath_ne.
  destruct (mkdirSync dir f) as [f1 [[]|e]] eqn:E1; pose proof (mkdir_law _ _ _ _ E1) as K1;
    [|intros [= <- <-]; by apply replaced_stop].
  destruct (writeFileSync tmp t f1) as [f2 r2] eqn:E2. destruct (write_law _ _ _ _ _ E2) as [K2 V2].
  assert (∀ q, q ≠ tmp → keeps f f2 q) as K12 by (intros; eapply keeps_trans; [by apply K1|by apply K2]).
  destruct r2 as [[]|e]; [|intros [= <- <-]; by apply replaced_stop]. specialize (V2 eq_refl).
  destruct (fsyncSync tmp f2) as [f3 r3] eqn:E3. destruct (sync_law _ _ _ _ E3) as [K3 S3].
  assert (∀ q, q ≠ tmp → keeps f f3 q) as K13 by (intros; eapply keeps_trans; [by apply K12|apply K3]).
  destruct r3 as [[]|e]; [|intros [= <- <-]; by apply replaced_stop]. destruct (S3 eq_refl) as [D3 _].
  destruct (fsyncSync dir f3) as [f4 r4] eqn:E4. destruct (sync_law _ _ _ _ E4) as [K4 _].
  assert (∀ q, q ≠ tmp → keeps f f4 q) as K14 by (intros; eapply keeps_trans; [by apply K13|apply K4]).
  destruct r4 as [[]|e]; [|intros [= <- <-]; by apply replaced_stop].
  assert (view f4 tmp = Some t) as V4 by (rewrite (keeps_view _ _ _ (K4 tmp)), (keeps_view _ _ _ (K3 tmp)); done).
  assert (synced f4 tmp) as D4 by (by apply (keeps_synced _ _ _ (K4 tmp))).
  destruct (renameSync tmp p f4) as [f5 r5] eqn:E5. destruct (rename_law _ _ _ _ _ E5 Hne) as [K5 R5].
  destruct r5 as [[]|e].
  - destruct R5 as [V5 R5]. destruct (R5 D4) as [D5 S5]. rewrite V4 in V5, S5.
    destruct (fsyncSync dir f5) as [f6 r6] eqn:E6. destruct (sync_law _ _ _ _ E6) as [K6 S6]. intros [= <- <-].
    destruct (K6 p) as [V6 SV6 _]. split.
    + intros q Hq Hq'. eapply keeps_trans; [by apply K14|]. eapply keeps_trans; [by apply K5|apply K6].
    + intros c [Hc| ->]%SV6%S5; [left|by right]. by apply (keeps_survives _ _ _ (K14 p (not_eq_sym Hne))).
    + right. congruence.
    + intros ->. destruct (S6 eq_refl) as [_ H6]. split; [congruence|]. intros c Hc.
      rewrite <-V5. eapply H6; [done..|exact Hc].
  - intros [= <- <-]. destruct R5 as [Ka Kb]. apply replaced_stop. intros q Hq.
    eapply keeps_trans; [by apply K14|]. destruct (decide (q = p)) as [->|]; [done|by apply K5].
Qed.
End write.

(** ** A file system that stops *)

(** After [n] operations every further one fails without effect, as it would for a
    process that has lost power. *)
Section power_cut.
Context {T F : Type} `{!FileSystem T F}.

Definition limited {A} (m : SE F FsError A) : SE (nat * F) FsError A := λ s,
  match s with
  | (O, f) => ((O, f), Err EOTHER)
  | (S n, f) => let (f', r) := m f in ((n, f'), r)
  end.

#[local] Instance power_cut : FileSystem T (nat * F) := {|
    readFileSync p := limited (readFileSync p);
    writeFileSync p t := limited (writeFileSync p t);
    fsyncSync p := limited (fsyncSync p);
    renameSync a b := limited (renameSync a b);
    mkdirSync p := limited (mkdirSync p);
    existsSync p s := existsSync p s.2;
    dirname := dirname;
    stamp s := stamp s.2;
    view s := view s.2;
    synced s := synced s.2;
    crash s s' := crash s.2 s'.2;
    |}.

Lemma power_cut_survives s p c : survives s p c ↔ survives s.2 p c.
Proof.
  split; [intros (s' & Hc & Hv); by exists s'.2|]. intros (f' & Hc & Hv). by exists (O, f').
Qed.

Lemma power_cut_keeps s s' p : keeps s.2 s'.2 p → keeps s s' p.
Proof. intros [V S D]. split; [done| |done]. intros c. rewrite !power_cut_survives. apply S. Qed.

Lemma limited_inv {A} (m : SE F FsError A) s s' r :
  limited m s = (s', r) → (s' = s ∧ r = Err EOTHER) ∨ m s.2 = (s'.2, r).
Proof.
  destruct s as [[|n] f]; simpl; [intros [= <- <-]; by left|]. destruct (m f). intros [= <- <-]. by right.
Qed.

Lemma power_cut_laws `{!FileSystemLaws T F} : FileSystemLaws T (nat * F).
Proof.
  split.
  - intros p s s' r [[-> ->]|H]%limited_inv; [split; [intros; apply keeps_same|done]|].
    destruct (read_law _ _ _ _ H) as [K V]. split; [intros; by apply power_cut_keeps|done].
  - intros p s. exact (exists_law (F:=F) p s.2).
  - intros p s s' r [[-> ->]|H]%limited_inv q; [apply keeps_same|]. by eapply power_cut_keeps, mkdir_law.
  - intros p t s s' r [[-> ->]|H]%limited_inv; [split; [intros; apply keeps_same|done]|].
    destruct (write_law _ _ _ _ _ H) as [K V]. split; [intros; by apply power_cut_keeps, K|done].
  - intros p s s' r [[-> ->]|H]%limited_inv; [split; [intros; apply keeps_same|done]|].
    destruct (sync_law _ _ _ _ H) as [K D]. split; [intros; by apply power_cut_keeps|].
    intros Hr. destruct (D Hr) as [D1 D2]. split; [done|]. intros q Hq Hs c Hc%power_cut_survives. by eapply D2.
  - intros a b s s' r [[-> ->]|H]%limited_inv Hne; [split; [|split]; intros; apply keeps_same|].
    destruct (rename_law _ _ _ _ _ H Hne) as [K R]. split; [intros; by apply power_cut_keeps, K|].
    destruct r; [|destruct R as [Ka Kb]; split; apply power_cut_keeps; [exact Ka|exact Kb]]. destruct R as [V R]. split; [done|].
    intros Hs. destruct (R Hs) as [R1 R2]. split; [done|]. intros c Hc%power_cut_survives.
    rewrite power_cut_survives. by apply R2.
  - intros s s' p c Hc Hs%power_cut_survives. exact (crash_law (F:=F) s.2 s'.2 p c Hc Hs).
Qed.
End power_cut.

(** ** A disk with a volatile cache *)

Section cache.
Context {T : Type}.

(** [Dirty t]: written but not synced, a crash can leave anything.  [Clean now
    past]: the contents are on stable storage, but until its directory is synced
    the name may also stand for something in [past]. *)
Inductive entry := Dirty (t : T) | Clean (now : option T) (past : list (option T)).

Definition CacheDisk : Type := jsmap path entry.

Definition entry_of (f : CacheDisk) (p : path) : entry := default (Clean None []) (map_get p f).

Definition contents (e : entry) : option T := match e with Dirty t => Some t | Clean now _ => now end.

Definition can_survive (e : entry) (c : option T) : Prop :=
  match e with Dirty _ => True | Clean now past => c = now ∨ c ∈ past end.

Definition is_clean (e : entry) : Prop := match e with Dirty _ => False | Clean _ _ => True end.

(** The part before the last slash. *)
Definition cache_dirname (p : path) : path :=
  match list_find (λ c, c = 47) (reverse p) with
  | Some (i, _) => reverse (drop (S i) (reverse p))
  | None => js "."
  end.

Definition settle (directory : path) (p : path) (e : entry) : entry :=
  match e with
  | Clean now _ => if bool_decide (cache_dirname p = directory) then Clean now [] else e
  | Dirty _ => e
  end.

Definition settle_all (directory : path) (f : CacheDisk) : CacheDisk :=
  (λ e, (e.1, settle directory e.1 e.2)) <$> f.

(** [fsync] of a file or of a directory. *)
Definition cache_sync (p : path) : SE CacheDisk FsError unit := λ f,
  let f := match entry_of f p with
  | Dirty t => map_set p (Clean (Some t) [None]) f
  | Clean _ _ => f
  end in
  (settle_all p f, Ok tt).

Definition cache_rename (a b : path) : SE CacheDisk FsError unit := λ f,
  match entry_of f a with
  | Clean None _ => (f, Err ENOENT)
  | Dirty t => (map_set a (Clean None [Some t]) (map_set b (Dirty t) f), Ok tt)
  | Clean (Some t) _ =>
    let past := match entry_of f b with Dirty _ => [None] | Clean now past => now :: past end in
    (map_set a (Clean None [Some t]) (map_set b (Clean (Some t) past) f), Ok tt)
  end.

#[local] Instance cache_disk : FileSystem T CacheDisk := {|
    readFileSync p f := (f, match contents (entry_of f p) with Some t => Ok t | None => Err ENOENT end);
    writeFileSync p t f := (map_set p (Dirty t) f, Ok tt);
    fsyncSync := cache_sync;
    renameSync := cache_rename;
    mkdirSync _ f := (f, Ok tt);
    existsSync p f := bool_decide (contents (entry_of f p) ≠ None);
    dirname := cache_dirname;
    stamp _ := js "0";
    view f p := contents (entry_of f p);
    synced f p := is_clean (entry_of f p);
    crash f f' := ∀ p, can_survive (entry_of f p) (contents (entry_of f' p)) ∧ ∃ c, entry_of f' p = Clean c [];
    |}.

Lemma entry_of_set p q e f : entry_of (map_set q e f) p = if decide (p = q) then e else entry_of f p.
Proof. unfold entry_of. rewrite map_get_set. by case_decide. Qed.

Lemma entry_of_map (g : path → entry → entry) (f : list (path * entry)) p :
  g p (Clean None []) = Clean None [] → entry_of ((λ e, (e.1, g e.1 e.2)) <$> f) p = g p (entry_of f p).
Proof.
  intros Hg. unfold entry_of. induction f as [|[q e] f IH]; [done|]. rewrite fmap_cons. cbn [map_get fst snd].
  destruct (decide (p = q)) as [->|]; [done|exact IH].
Qed.

Lemma cache_survives f p c : survives f p c ↔ can_survive (entry_of f p) c.
Proof.
  split.
  - intros (f' & Hc & <-). apply (Hc p).
  - intros Hp. exists (map_set p (Clean c []) ((λ e, (e.1, Clean (contents e.2) [])) <$> f)). split.
    + intros q. rewrite entry_of_set, (entry_of_map (λ _ e, Clean (contents e) [])) by done.
      case_decide; [subst; by split; [|eexists]|]. split; [|by eexists]. destruct (entry_of f q); [done|by left].
    + simpl. rewrite entry_of_set. by rewrite decide_True.
Qed.

(** A crash that loses nothing that was written. *)
Definition cache_reboot (f : CacheDisk) : CacheDisk := (λ e, (e.1, Clean (contents e.2) [])) <$> f.

Lemma cache_reboot_crash f : crash f (cache_reboot f).
Proof.
  intros p. unfold cache_reboot. rewrite (entry_of_map (λ _ e, Clean (contents e) [])) by done.
  split; [|by eexists]. destruct (entry_of f p); [done|by left].
Qed.

Lemma cache_keeps f f' p :
  contents (entry_of f' p) = contents (entry_of f p) →
  (∀ c, can_survive (entry_of f' p) c → can_survive (entry_of f p) c) →
  (is_clean (entry_of f p) → is_clean (entry_of f' p)) → keeps f f' p.
Proof. intros V S D. split; [done| |done]. intros c. rewrite !cache_survives. apply S. Qed.

Lemma cache_keeps_same f f' p : entry_of f' p = entry_of f p → keeps f f' p.
Proof. intros H. by apply cache_keeps; rewrite H. Qed.

Lemma settle_all_entry d f p : entry_of (settle_all d f) p = settle d p (entry_of f p).
Proof. apply (entry_of_map (settle d)). simpl. by case_bool_decide. Qed.

Lemma settle_keeps d f p : keeps f (settle_all d f) p.
Proof.
  apply cache_keeps; rewrite settle_all_entry; unfold settle; destruct (entry_of f p); try done;
    case_bool_decide; simpl; try done. intros c [->|?%elem_of_nil]; [by left|done].
Qed.

Lemma cache_sync_law p f f' r : cache_sync p f = (f', r) →
  (∀ q, keeps f f' q) ∧
  (r = Ok tt → synced f' p ∧ ∀ q, dirname q = p → synced f q → ∀ c, survives f' q c → c = view f q).
Proof.
  unfold cache_sync. intros [= <- <-]. set (f1 := match entry_of f p with Dirty _ => _ | _ => _ end).
  assert (∀ q, keeps f f1 q) as K1.
  { intros q. unfold f1. destruct (entry_of f p) as [t|] eqn:Hp; [|apply keeps_same].
    apply cache_keeps; rewrite entry_of_set; case_decide; subst; rewrite ?Hp; done. }
  assert (is_clean (entry_of f1 p)) as C1.
  { unfold f1. destruct (entry_of f p) as [t|now past] eqn:Hp; [|by rewrite Hp]. rewrite entry_of_set. by rewrite decide_True. }
  split; [intros q; eapply keeps_trans; [apply K1|apply settle_keeps]|]. intros _. split.
  - simpl. rewrite settle_all_entry. destruct (entry_of f1 p); simpl; [done|by case_bool_decide].
  - intros q Hq Hs c. rewrite cache_survives, settle_all_entry. destruct (K1 q) as [V _ D]. simpl in *.
    rewrite <-V. specialize (D Hs). destruct (entry_of f1 q) as [|now past]; [done|]. simpl.
    rewrite bool_decide_eq_true_2 by done. intros [->|Hn%elem_of_nil]; [done|destruct Hn].
Qed.

Lemma cache_rename_law a b f f' r : cache_rename a b f = (f', r) → a ≠ b →
  (∀ q, q ≠ a → q ≠ b → keeps f f' q) ∧
  match r with
  | Ok _ => view f' b = view f a ∧
    (synced f a → synced f' b ∧ ∀ c, survives f' b c → survives f b c ∨ c = view f a)
  | Err _ => keeps f f' a ∧ keeps f f' b
  end.
Proof.
  unfold cache_rename. intros H Hne. simpl.
  destruct (entry_of f a) as [t|[t|] past] eqn:Ha; injection H as <- <-.
  - split; [intros; apply cache_keeps_same; by rewrite !entry_of_set, !decide_False|].
    rewrite !entry_of_set, (decide_False (P:=b = a)), decide_True by congruence. done.
  - split; [intros; apply cache_keeps_same; by rewrite !entry_of_set, !decide_False|].
    rewrite !entry_of_set, (decide_False (P:=b = a)), decide_True by congruence. split; [done|].
    intros _. split; [done|]. intros c. rewrite !cache_survives, !entry_of_set, (decide_False (P:=b = a)), decide_True by congruence.
    intros [->|Hc]; [by right|]. left. destruct (entry_of f b); [done|]. by apply elem_of_cons in Hc as [->|Hc]; [left|right].
  - split_and!; intros; apply keeps_same.
Qed.

Lemma cache_disk_laws : FileSystemLaws T CacheDisk.
Proof.
  split.
  - intros p f f' r [= <- <-]. split; [intros; apply keeps_same|]. simpl. by destruct (contents _).
  - intros p f. simpl. rewrite bool_decide_eq_true. destruct (contents _); [by eexists|done].
  - intros p f f' r [= <- <-] q. apply keeps_same.
  - intros p t f f' r [= <- <-]. split.
    + intros q Hq. apply cache_keeps_same. by rewrite entry_of_set, decide_False.
    + intros _. simpl. rewrite entry_of_set. by rewrite decide_True.
  - apply cache_sync_law.
  - apply cache_rename_law.
  - intros f f' p c Hc. rewrite cache_survives. destruct (Hc p) as [_ [c' Hp]]. simpl. rewrite Hp.
    intros [->|Hn%elem_of_nil]; [done|destruct Hn].
Qed.
End cache.
Arguments CacheDisk T : clear implicits.
Arguments entry T : clear implicits.

(** crash-safe writes.  On any file system with the guarantees above, replacing
    a file leaves, after a crash at whatever point, the old or the new contents and
    never a torn one; no other file is affected except the temporary one; and once
    the write has returned, a crash cannot lose it. *)
Theorem write_crash_safe {T F : Type} `{!FileSystem T F, !FileSystemLaws T F} p t f f' r :
  writeCrashSafe p t f = (f', r) →
  (∀ c, survives f' p c → survives f p c ∨ c = Some t) ∧
  (∀ q, q ≠ p → q ≠ temporaryPath p → keeps f f' q) ∧
  (r = Ok tt → durable f' p (Some t)).
Proof. intros [Hk Hs _ Hd]%writeCrashSafe_replaces. by split_and!. Qed.

(** Power is lost before the directory is synced after the rename. *)
Definition cut_write : (nat * CacheDisk Z) * result FsError unit :=
  writeCrashSafe (FileSystem0 := power_cut (FileSystem0 := cache_disk)) (js "/d/x") 2
    (5%nat, [(js "/d/x", Clean (Some 1) [])]).

Lemma write_crash_safe_witness :
  cut_write.2 = Err EOTHER ∧ entry_of cut_write.1.2 (js "/d/x") = Clean (Some 2) [Some 1] ∧
  ∀ c, can_survive (entry_of cut_write.1.2 (js "/d/x")) c → c = Some 1 ∨ c = Some 2.
Proof.
  split; [vm_compute; reflexivity|]. split; [vm_compute; reflexivity|]. intros c Hc.
  destruct (write_crash_safe (FileSystemLaws0 := power_cut_laws (FileSystemLaws0 := cache_disk_laws)) (js "/d/x") 2
    (5%nat, [(js "/d/x", Clean (Some 1) [])]) cut_write.1 cut_write.2 (surjective_pairing cut_write)) as [H _].
  destruct (H c) as [Hold|Hnew]; [|left|right; exact Hnew].
  - apply (power_cut_survives (FileSystem0 := cache_disk)), cache_survives. exact Hc.
  - apply (power_cut_survives (FileSystem0 := cache_disk)), cache_survives in Hold.
    destruct Hold as [Hold|Hold%elem_of_nil]; [exact Hold|destruct Hold].
Defined.
