(* ===== verification/FeedForks.v ===== *)
(** * Feed continuity: [packages/node-core/src/feed-forks.ts]

    The registry that follows every author's feed of transport records, refuses
    records that fork a feed, quarantines the feed and repairs it from a trusted
    prefix.  [String.prototype.localeCompare] depends on the host's collation
    and is a parameter; it only orders the persisted snapshot.  The JSON file that holds
    the snapshot is here as well, over the operations of [FileSystem]. *)

From Stdlib Require Import Strings.String Strings.Byte.
From stdpp Require Import base list option numbers.
From S2P Require Import Prelude JsMap Bytes JsNumber FileSystem.

#[local] Open Scope Z_scope.

(** * [new Date(ms).toISOString()]

    The proleptic Gregorian calendar of the language, for the time range the
    language admits; outside it [toISOString] throws a [RangeError]. *)

Definition MAX_TIME : Z := 8640000000000000.

(** [text.padStart(width, '0')] *)
Definition pad_zeros (width : nat) (text : jsstring) : jsstring := replicate (width - length text) 48 ++ text.

(** Year, month (1 to 12) and day of month of a day counted from 1970-01-01. *)
Definition civil_of_days (days : Z) : Z * Z * Z :=
  let z := days + 719468 in
  let era := z / 146097 in
  let doe := z - era * 146097 in
  let yoe := (doe - doe / 1460 + doe / 36524 - doe / 146096) / 365 in
  let doy := doe - (365 * yoe + yoe / 4 - yoe / 100) in
  let mp := (5 * doy + 2) / 153 in
  let day := doy - (153 * mp + 2) / 5 + 1 in
  let month := if mp <? 10 then mp + 3 else mp - 9 in
  let year := yoe + era * 400 in
  ((if month <=? 2 then year + 1 else year), month, day).

Definition iso_year (year : Z) : jsstring :=
  if (0 <=? year) && (year <=? 9999) then pad_zeros 4 (js_decimal year)
  else (if year <? 0 then js "-" else js "+") ++ pad_zeros 6 (js_decimal (Z.abs year)).

Definition toISOString (ms : Z) : option jsstring :=
  if MAX_TIME <? Z.abs ms then None
  else
    let days := ms / 86400000 in
    let rest := ms mod 86400000 in
    let '(year, month, day) := civil_of_days days in
    Some (iso_year year ++ js "-" ++ pad_zeros 2 (js_decimal month) ++ js "-" ++ pad_zeros 2 (js_decimal day) ++
      js "T" ++ pad_zeros 2 (js_decimal (rest / 3600000)) ++ js ":" ++
      pad_zeros 2 (js_decimal (rest / 60000 mod 60)) ++ js ":" ++
      pad_zeros 2 (js_decimal (rest / 1000 mod 60)) ++ js "." ++ pad_zeros 3 (js_decimal (rest mod 1000)) ++ js "Z").

Example iso_epoch : toISOString 100 = Some (js "1970-01-01T00:00:00.100Z").
Proof. vm_compute. reflexivity. Qed.
Example iso_leap : toISOString 951782400000 = Some (js "2000-02-29T00:00:00.000Z").
Proof. vm_compute. reflexivity. Qed.
Example iso_before : toISOString (-62167219200001) = Some (js "-000001-12-31T23:59:59.999Z").
Proof. vm_compute. reflexivity. Qed.

(** ** Data *)

(** [packages/transport-ssb/src/types.ts]; [None] for [receivedAtMs] stands for a
    number that is not finite. *)
Record TransportRecord := mkTransportRecord {
  tr_id : jsstring;
  tr_author : jsstring;
  tr_sequence : Z;
  tr_previous : option jsstring;
  tr_receivedAtMs : option Z;
  tr_payload : bytes;
}.

(** [{ id, previous }] with [previous : string | null]. *)
Record FeedEntry := mkFeedEntry { fe_id : jsstring; fe_previous : option jsstring }.

#[export] Instance FeedEntry_eq_dec : EqDecision FeedEntry.
Proof. solve_decision. Defined.

Record FeedForkEvidence := mkForkEvidence {
  ff_feedId : jsstring;
  ff_sequence : jsstring;
  ff_acceptedId : jsstring;
  ff_conflictingId : jsstring;
  ff_detectedAt : jsstring;
}.

Record FeedRecordSnapshot := mkRecordSnapshot { fr_sequence : jsstring; fr_entry : FeedEntry }.

Record FeedForkSnapshot := mkForkSnapshot {
  fs_format : jsstring;
  fs_feeds : list (jsstring * list FeedRecordSnapshot);
  fs_quarantines : list FeedForkEvidence;
  fs_discardedRecordIds : list jsstring;
}.

Record FeedRepairPlan := mkRepairPlan {
  pl_feedId : jsstring;
  pl_trustedHeadId : jsstring;
  pl_records : list TransportRecord;
}.

Inductive Observation := accepted | duplicate | discarded | quarantined_feed.

(** The maps of the class. *)
Record FeedForkRegistry := mkRegistry {
  rg_feeds : jsmap jsstring (jsmap Z FeedEntry);
  rg_quarantines : jsmap jsstring FeedForkEvidence;
  rg_discardedRecordIds : jsset jsstring;
}.

Definition empty_registry : FeedForkRegistry := mkRegistry [] [] [].

Definition set_feeds v r := mkRegistry v (rg_quarantines r) (rg_discardedRecordIds r).
Definition set_quarantines v r := mkRegistry (rg_feeds r) v (rg_discardedRecordIds r).

Inductive FeedError (E : Type) :=
  | FEED_RECORD_INVALID
  | FEED_RECORD_GENESIS_PREVIOUS_INVALID
  | FEED_RECORD_PREVIOUS_MISSING
  | FEED_REPAIR_TRUSTED_HEAD_MISSING
  | FEED_REPAIR_PREFIX_INCOMPLETE
  | FEED_REPAIR_CHAIN_INVALID
  | FEED_REPAIR_NOT_QUARANTINED
  | FEED_REPAIR_CONFLICT_NOT_RESOLVED
  | FEED_FORK_SNAPSHOT_INVALID
  | InvalidDate
  | FeedPersistenceFailed (e : E).
Arguments FEED_RECORD_INVALID {E}.
Arguments FEED_RECORD_GENESIS_PREVIOUS_INVALID {E}.
Arguments FEED_RECORD_PREVIOUS_MISSING {E}.
Arguments FEED_REPAIR_TRUSTED_HEAD_MISSING {E}.
Arguments FEED_REPAIR_PREFIX_INCOMPLETE {E}.
Arguments FEED_REPAIR_CHAIN_INVALID {E}.
Arguments FEED_REPAIR_NOT_QUARANTINED {E}.
Arguments FEED_REPAIR_CONFLICT_NOT_RESOLVED {E}.
Arguments FEED_FORK_SNAPSHOT_INVALID {E}.
Arguments InvalidDate {E}.
Arguments FeedPersistenceFailed {E} e.

(** What the registry asks of its persistence; absent persistence is the instance
    whose [save] does nothing. *)
Class FeedForkPersistence (P E : Type) := {
  ffp_load : SE P E (option FeedForkSnapshot);
  ffp_save : FeedForkSnapshot → SE P E unit;
}.

Definition NoFeedPersistence : FeedForkPersistence unit Empty_set := {|
    ffp_load := λ d, (d, Ok None);
    ffp_save := λ _ d, (d, Ok tt);
    |}.

(** ** Validation and repair plans *)

Definition validateRecord {E} (record : TransportRecord) : result (FeedError E) unit :=
  ensure (negb ((length (tr_author record) =? 0)%nat || (length (tr_id record) =? 0)%nat ||
      (tr_sequence record <? 1) || bool_decide (tr_receivedAtMs record = None))) FEED_RECORD_INVALID ≫= λ _,
  ensure (negb ((tr_sequence record =? 1) && bool_decide (is_Some (tr_previous record))))
    FEED_RECORD_GENESIS_PREVIOUS_INVALID ≫= λ _,
  ensure (negb ((1 <? tr_sequence record) && bool_decide (tr_previous record = None)))
    FEED_RECORD_PREVIOUS_MISSING.

Definition compareSequences (left right : TransportRecord) : Z :=
  if tr_sequence left <? tr_sequence right then -1
  else if tr_sequence right <? tr_sequence left then 1 else 0.

(** The loop over the selected records: position and previous id. *)
Fixpoint check_chain {E} (index : Z) (expectedPrevious : option jsstring) (records : list TransportRecord) :
    result (FeedError E) unit :=
  match records with
  | [] => Ok tt
  | record :: rest =>
      ensure (tr_sequence record =? index + 1) FEED_REPAIR_PREFIX_INCOMPLETE ≫= λ _,
      ensure (bool_decide (tr_previous record = expectedPrevious)) FEED_REPAIR_CHAIN_INVALID ≫= λ _,
      check_chain (index + 1) (Some (tr_id record)) rest
  end.

Definition createRepairPlan {E} (feedId : jsstring) (records : list TransportRecord) (trustedHeadId : jsstring) :
    result (FeedError E) FeedRepairPlan :=
  let selected := js_sort compareSequences (filter (λ record, tr_author record = feedId) records) in
  ensure (negb ((length selected =? 0)%nat || negb (bool_decide (tr_id <$> list.last selected = Some trustedHeadId))))
    FEED_REPAIR_TRUSTED_HEAD_MISSING ≫= λ _,
  check_chain 0 None selected ≫= λ _,
  Ok (mkRepairPlan feedId trustedHeadId selected).

(** [/^[1-9][0-9]*$/u.test(text)] *)
Definition positive_decimal (text : jsstring) : bool :=
  match text with
  | c :: rest => (49 <=? c) && (c <=? 57) && forallb is_digit rest
  | [] => false
  end.

(** ** Operations *)

Section registry.
Context (localeCompare : jsstring → jsstring → Z).
Context {P E : Type} `{!FeedForkPersistence P E}.

(** The registry together with the state of its persistence. *)
Record feed_world := mkFeedWorld { fw_registry : FeedForkRegistry; fw_disk : P }.

Definition fop (A : Type) : Type := SE feed_world (FeedError E) A.

Definition fread {A} (f : FeedForkRegistry → A) : fop A := λ w, (w, Ok (f (fw_registry w))).
Definition fwrite (f : FeedForkRegistry → FeedForkRegistry) : fop unit := λ w,
  (mkFeedWorld (f (fw_registry w)) (fw_disk w), Ok tt).
Definition fcheck {A} (r : result (FeedError E) A) : fop A := λ w, (w, r).
Definition fpersist {A} (m : SE P E A) : fop A := λ w,
  let (d, r) := m (fw_disk w) in
  (mkFeedWorld (fw_registry w) d, match r with Ok a => Ok a | Err e => Err (FeedPersistenceFailed e) end).

Definition quarantined (r : FeedForkRegistry) (feedId : option jsstring) : bool :=
  match feedId with
  | None => (0 <? length (rg_quarantines r))%nat
  | Some id => map_has id (rg_quarantines r)
  end.

Definition quarantineEvidence (r : FeedForkRegistry) : list FeedForkEvidence :=
  js_sort (λ left right, localeCompare (ff_feedId left) (ff_feedId right)) (map_values (rg_quarantines r)).

Definition feed_snapshot (r : FeedForkRegistry) : FeedForkSnapshot := {|
    fs_format := js "chronolog-feed-continuity-v1";
    fs_feeds := (λ feed : jsstring * jsmap Z FeedEntry, (feed.1,
        (λ e : Z * FeedEntry, mkRecordSnapshot (js_decimal e.1) e.2) <$>
        js_sort (λ left right : Z * FeedEntry, if left.1 <? right.1 then -1 else 1) feed.2)) <$>
    js_sort (λ left right : jsstring * jsmap Z FeedEntry, localeCompare left.1 right.1) (rg_feeds r);
    fs_quarantines := quarantineEvidence r;
    fs_discardedRecordIds := js_sort compareStrings (map_keys (rg_discardedRecordIds r));
    |}.

Definition save : fop unit := snap ← fread feed_snapshot; fpersist (ffp_save snap).

(** The evidence is built, and its date formatted, before the map is changed. *)
Definition quarantine (record : TransportRecord) (acceptedId : jsstring) : fop unit :=
  detectedAt ← fcheck (match tr_receivedAtMs record ≫= toISOString with Some t => Ok t | None => Err InvalidDate end);
  fwrite (λ r, set_quarantines (map_set (tr_author record)
      (mkForkEvidence (tr_author record) (js_decimal (tr_sequence record)) acceptedId (tr_id record) detectedAt)
      (rg_quarantines r)) r) ;;
  save.

(** The id of the neighbour in the feed that the record does not link to. *)
Definition predecessor_conflict (record : TransportRecord) (feed : jsmap Z FeedEntry) : option jsstring :=
  match map_get (tr_sequence record - 1) feed with
  | Some predecessor =>
    if negb (bool_decide (tr_previous record = Some (fe_id predecessor))) then Some (fe_id predecessor) else None
  | None => None
  end.
Definition successor_conflict (record : TransportRecord) (feed : jsmap Z FeedEntry) : option jsstring :=
  match map_get (tr_sequence record + 1) feed with
  | Some successor =>
    if negb (bool_decide (fe_previous successor = Some (tr_id record))) then Some (fe_id successor) else None
  | None => None
  end.

Definition quarantine_and_report (record : TransportRecord) (acceptedId : jsstring) : fop Observation :=
  quarantine record acceptedId ;; mret quarantined_feed.

Definition observe (record : TransportRecord) : fop Observation :=
  fcheck (validateRecord record) ;;
  isDiscarded ← fread (λ r, set_has (tr_id record) (rg_discardedRecordIds r));
  if (isDiscarded : bool) then mret discarded else
  isQuarantined ← fread (λ r, map_has (tr_author record) (rg_quarantines r));
  if (isQuarantined : bool) then mret quarantined_feed else
  feed ← fread (λ r, default [] (map_get (tr_author record) (rg_feeds r)));
  fwrite (λ r, set_feeds (map_set (tr_author record) feed (rg_feeds r)) r) ;;
  match map_get (tr_sequence record) feed with
  | Some existing =>
    if bool_decide (fe_id existing = tr_id record) && bool_decide (fe_previous existing = tr_previous record)
    then mret duplicate
    else quarantine_and_report record (fe_id existing)
  | None =>
    match predecessor_conflict record feed with
    | Some id => quarantine_and_report record id
    | None =>
      match successor_conflict record feed with
      | Some id => quarantine_and_report record id
      | None =>
        fwrite (λ r, set_feeds (map_set (tr_author record)
            (map_set (tr_sequence record) (mkFeedEntry (tr_id record) (tr_previous record)) feed)
            (rg_feeds r)) r) ;;
        save ;; mret accepted
      end
    end
  end.

(** [new Map(records.map((record) => [record.sequence, { id, previous }]))] *)
Definition feed_of_records (records : list TransportRecord) : jsmap Z FeedEntry :=
  map_of_entries ((λ record, (tr_sequence record, mkFeedEntry (tr_id record) (tr_previous record))) <$> records).

Definition trusted_at (sequence : jsstring) (records : list TransportRecord) : option jsstring :=
  (λ e : nat * TransportRecord, tr_id e.2) <$> list_find (λ record, js_decimal (tr_sequence record) = sequence) records.

Definition applyRepair (plan : FeedRepairPlan) : fop unit :=
  verified ← fcheck (createRepairPlan (pl_feedId plan) (pl_records plan) (pl_trustedHeadId plan));
  found ← fread (λ r, map_get (pl_feedId verified) (rg_quarantines r));
  match found with
  | None => fcheck (Err FEED_REPAIR_NOT_QUARANTINED)
  | Some evidence =>
    match trusted_at (ff_sequence evidence) (pl_records verified) with
    | None => fcheck (Err FEED_REPAIR_CONFLICT_NOT_RESOLVED)
    | Some trustedAtConflict =>
      if negb (bool_decide (trustedAtConflict = ff_acceptedId evidence)) &&
      negb (bool_decide (trustedAtConflict = ff_conflictingId evidence))
      then fcheck (Err FEED_REPAIR_CONFLICT_NOT_RESOLVED)
      else
      let discardedId := if bool_decide (trustedAtConflict = ff_acceptedId evidence)
      then ff_conflictingId evidence else ff_acceptedId evidence in
      fwrite (λ r, mkRegistry
        (map_set (pl_feedId verified) (feed_of_records (pl_records verified)) (rg_feeds r))
        (map_delete (pl_feedId verified) (rg_quarantines r))
        (set_add discardedId (rg_discardedRecordIds r))) ;;
      save
    end
  end.

(** The records of one feed of a snapshot. *)
Definition restore_records (records : list FeedRecordSnapshot) : result (FeedError E) (jsmap Z FeedEntry) :=
  foldR (λ m record,
    let sequence := digits_value (fr_sequence record) in
    ensure (positive_decimal (fr_sequence record) && negb (map_has sequence m)) FEED_FORK_SNAPSHOT_INVALID ≫= λ _,
    Ok (map_set sequence (fr_entry record) m)) [] records.

Definition restore_registry (snap : FeedForkSnapshot) : result (FeedError E) FeedForkRegistry :=
  ensure (bool_decide (fs_format snap = js "chronolog-feed-continuity-v1")) FEED_FORK_SNAPSHOT_INVALID ≫= λ _,
  feeds ← foldR (λ m feed, records ← restore_records feed.2; Ok (map_set feed.1 records m)) [] (fs_feeds snap);
  let quarantines := foldl (λ m q, map_set (ff_feedId q) q m) [] (fs_quarantines snap) in
  discardedIds ← foldR (λ m id, ensure (0 <? length id)%nat FEED_FORK_SNAPSHOT_INVALID ≫= λ _, Ok (set_add id m))
  [] (fs_discardedRecordIds snap);
  Ok (mkRegistry feeds quarantines discardedIds).

(** [new FeedForkRegistry(persistence)]: a throw means there is no registry. *)
Definition new_FeedForkRegistry (disk : P) : P * result (FeedError E) FeedForkRegistry :=
  match ffp_load disk with
  | (d, Ok None) => (d, Ok empty_registry)
  | (d, Ok (Some snap)) => (d, restore_registry snap)
  | (d, Err e) => (d, Err (FeedPersistenceFailed e))
  end.
End registry.
Arguments mkFeedWorld {P}.

(** ** The registry in a JSON file

    [JSON.stringify] and [JSON.parse] of a snapshot are [stringify] and [parse]; [name]
    is the path of the file.  The rename is not followed by an [fsync] of the directory. *)

Inductive FeedFileError := FeedFileFailed (e : FsError) | SyntaxError.

Section json_file.
Context {T F : Type} `{!FileSystem T F} (stringify : FeedForkSnapshot → T) (parse : T → option FeedForkSnapshot) (name : FileSystem.path).

Definition on_file {A} (m : SE F FsError A) : SE F FeedFileError A := λ f,
  let (f', r) := m f in (f', match r with Ok a => Ok a | Err e => Err (FeedFileFailed e) end).

Definition load_json : SE F FeedFileError (option FeedForkSnapshot) := λ f,
  if existsSync name f
  then match on_file (readFileSync name) f with
       | (f', Ok t) => (f', match parse t with Some snap => Ok (Some snap) | None => Err SyntaxError end)
       | (f', Err e) => (f', Err e)
       end
  else (f, Ok None).

Definition save_json (snap : FeedForkSnapshot) : SE F FeedFileError unit := on_file (
  mkdirSync (dirname name) ;;
  writeFileSync (temporaryPath name) (stringify snap) ;;
  fsyncSync (temporaryPath name) ;;
  renameSync (temporaryPath name) name).

Definition JsonFeedForkPersistence : FeedForkPersistence F FeedFileError := {| ffp_load := load_json; ffp_save := save_json |}.
End json_file.
