(* ===== verification/FeedForkTheorems.v ===== *)
(** * Theorems on feed continuity

    Every feed the registry holds is hash-linked, a fork is never accepted, and
    the persisted snapshot restores the registry.  The JSON file keeps what was saved
    from one process to the next, but not through a power cut. *)

From Stdlib Require Import Strings.Byte Strings.String Sorting.Sorted.
From stdpp Require Import base list option numbers sets sorting relations.
From S2P Require Import Prelude JsMap Bytes JsNumber FileSystem FeedForks.

#[local] Open Scope Z_scope.

(** ** The invariant *)

(** Adjacent records are linked by the id of the earlier one; the first record
    has no predecessor and every other record names one. *)
Definition feed_ok (feed : jsmap Z FeedEntry) : Prop :=
  map_wf feed ∧ ∀ n e, map_get n feed = Some e →
    1 ≤ n ∧ fe_id e ≠ [] ∧ (n = 1 ↔ fe_previous e = None) ∧
    ∀ e', map_get (n - 1) feed = Some e' → fe_previous e = Some (fe_id e').

Definition registry_ok (r : FeedForkRegistry) : Prop :=
  map_wf (rg_feeds r) ∧ map_wf (rg_quarantines r) ∧ map_wf (rg_discardedRecordIds r) ∧
  (∀ a feed, map_get a (rg_feeds r) = Some feed → feed_ok feed) ∧
  (∀ a q, map_get a (rg_quarantines r) = Some q →
    ff_feedId q = a ∧ ff_acceptedId q ≠ [] ∧ ff_conflictingId q ≠ []) ∧
  (∀ id, set_has id (rg_discardedRecordIds r) = true → id ≠ []).

(** The record held for an author and sequence. *)
Definition entry_at (r : FeedForkRegistry) (author : jsstring) (n : Z) : option FeedEntry :=
  map_get author (rg_feeds r) ≫= map_get n.

Lemma feed_ok_nil : feed_ok [].
Proof. split; [apply map_wf_nil|done]. Qed.

Lemma validateRecord_Ok {E} record u :
  validateRecord (E:=E) record = Ok u →
  tr_author record ≠ [] ∧ tr_id record ≠ [] ∧ 1 ≤ tr_sequence record ∧
  (tr_sequence record = 1 ↔ tr_previous record = None).
Proof.
  unfold validateRecord. intros H. inv_ok.
  rewrite !negb_true_iff, !orb_false_iff, !andb_false_iff, !Nat.eqb_neq, Z.ltb_ge, !bool_decide_eq_false in *.
  destruct_and!. rewrite Z.eqb_neq in *. split_and!; [by destruct (tr_author record)|by destruct (tr_id record)|lia|].
  split.
  - intros Hs. destruct (tr_previous record) eqn:Hp; [|done]. naive_solver.
  - intros Hp. destruct (decide (tr_sequence record = 1)); [done|]. naive_solver lia.
Qed.

(** A record without conflicts extends a feed. *)
Lemma feed_ok_extend {E} record feed :
  validateRecord (E:=E) record = Ok tt → feed_ok feed → map_get (tr_sequence record) feed = None →
  predecessor_conflict record feed = None → successor_conflict record feed = None →
  feed_ok (map_set (tr_sequence record) (mkFeedEntry (tr_id record) (tr_previous record)) feed).
Proof.
  intros (_ & Hid & Hseq & Hprev)%validateRecord_Ok [Hwf Hfeed] Hnone Hpre Hsucc. split; [by apply map_wf_set|].
  intros n e. rewrite !map_get_set. destruct (decide (n = tr_sequence record)) as [->|Hn].
  - intros [= <-]. cbn [fe_previous fe_id]. split_and!; [done..|].
    intros e'. rewrite decide_False by lia. intros He'. unfold predecessor_conflict in Hpre. rewrite He' in Hpre.
    case_bool_decide; [done|discriminate].
  - intros He. destruct (Hfeed n e He) as (H1 & H2 & H2' & H3). split_and!; [done..|].
    intros e'. case_decide as Hn'; [|apply H3].
    intros [= <-]. cbn [fe_id]. unfold successor_conflict in Hsucc.
    replace (tr_sequence record + 1) with n in Hsucc by lia. rewrite He in Hsucc.
    case_bool_decide; [done|discriminate].
Qed.

(** A checked prefix is a feed. *)
Lemma check_chain_feed {E} index previous records :
  check_chain (E:=E) index previous records = Ok tt → 0 ≤ index → (index = 0 ↔ previous = None) →
  let entries := (λ record, (tr_sequence record, mkFeedEntry (tr_id record) (tr_previous record))) <$> records in
  NoDup entries.*1 ∧
  ∀ n e, (n, e) ∈ entries → index + 1 ≤ n ∧ (n = 1 ↔ fe_previous e = None) ∧
    (n = index + 1 → fe_previous e = previous) ∧
    ∀ e', (n - 1, e') ∈ entries → fe_previous e = Some (fe_id e').
Proof.
  revert index previous. induction records as [|record records IH]; intros index previous H Hi Hp.
  { split; [constructor|]. by intros n e ?%elem_of_nil. }
  cbn [check_chain] in H. inv_ok. apply Z.eqb_eq in H0. apply bool_decide_eq_true in H1.
  destruct (IH (index + 1) (Some (tr_id record)) H) as [Hnd Hall]; [lia|split; [lia|done]|].
  set (entries := _ <$> records) in *. cbn [fmap list_fmap]. fold entries. rewrite H0. split.
  - constructor; [|done]. intros ([n e] & Hn & Hin)%list_elem_of_fmap. cbn [fst] in Hn. subst n.
    destruct (Hall _ _ Hin). lia.
  - intros n e [[= -> ->]|Hin]%elem_of_cons.
    + cbn [fe_previous]. split_and!; [lia|rewrite H1, <-Hp; lia|done|].
      intros e' [[= ? ->]|Hin']%elem_of_cons; [lia|]. destruct (Hall _ _ Hin'). lia.
    + destruct (Hall n e Hin) as (Hge & Hone & Hfirst & Hlink). split_and!; [lia|done|lia|].
      intros e' [[= Hn ->]|Hin']%elem_of_cons; [|by apply Hlink]. cbn [fe_id]. apply Hfirst. lia.
Qed.

Lemma map_of_entries_get {K V} `{EqDecision K} (l : list (K * V)) : NoDup l.*1 → map_of_entries l = l.
Proof. apply map_of_entries_id. Qed.

Lemma feed_of_records_ok {E} records :
  check_chain (E:=E) 0 None records = Ok tt → (∀ x, x ∈ records → tr_id x ≠ []) → feed_ok (feed_of_records records).
Proof.
  intros H Hids. destruct (check_chain_feed 0 None records H) as [Hnd Hall]; [lia|done|].
  unfold feed_of_records. rewrite map_of_entries_get by done. split; [done|].
  intros n e He%map_get_Some_elem. destruct (Hall n e He) as (H1 & H2 & _ & H3).
  split_and!; [lia| |done|].
  { apply list_elem_of_fmap in He as (x & [= -> ->] & Hx). by apply Hids. }
  intros e' He'%map_get_Some_elem. by apply H3.
Qed.

(** ** What an operation does *)

(** Runs a sequence of operations on the world in the goal. *)
Ltac run_ops := unfold mbind, SE_bind, mret, SE_ret; cbn beta iota zeta.

Section operations.
Context (localeCompare : jsstring → jsstring → Z) {P E : Type} `{!FeedForkPersistence P E}.
Implicit Types (w : feed_world (P:=P)).

(** Saving changes the disk only. *)
Lemma save_registry w : fw_registry (save localeCompare w).1 = fw_registry w.
Proof.
  unfold save, fread, fpersist. run_ops. by destruct (ffp_save _ (fw_disk w)) as [d r].
Qed.

Lemma save_errors w e : (save localeCompare w).2 = Err e → ∃ e', Err (A:=Observation) e = Err (FeedPersistenceFailed e').
Proof.
  unfold save, fread, fpersist. run_ops. destruct (ffp_save _ (fw_disk w)) as [d [[]|e']]; cbn [fst snd]; [done|].
  intros [= <-]. by exists e'.
Qed.

(** The registry of [author] with an (empty) feed, as [observe] leaves it. *)
Definition touched (r : FeedForkRegistry) (author : jsstring) : FeedForkRegistry :=
  set_feeds (map_set author (default [] (map_get author (rg_feeds r))) (rg_feeds r)) r.

Definition feed_of (r : FeedForkRegistry) (author : jsstring) : jsmap Z FeedEntry :=
  default [] (map_get author (rg_feeds r)).

Lemma quarantine_cases record id w :
  let res := quarantine_and_report localeCompare record id w in
  (res.2 = Err InvalidDate ∧ fw_registry res.1 = fw_registry w) ∨
  ((res.2 = Ok quarantined_feed ∨ ∃ e, res.2 = Err (FeedPersistenceFailed e)) ∧
    ∃ date, tr_receivedAtMs record ≫= toISOString = Some date ∧
    fw_registry res.1 = set_quarantines (map_set (tr_author record)
      (mkForkEvidence (tr_author record) (js_decimal (tr_sequence record)) id (tr_id record) date)
      (rg_quarantines (fw_registry w))) (fw_registry w)).
Proof.
  unfold quarantine_and_report, quarantine, fcheck, fwrite, save, fread, fpersist.
  destruct (tr_receivedAtMs record ≫= toISOString) as [date|]; [|by left].
  right. run_ops. cbn [fw_registry fw_disk]. destruct (ffp_save _ (fw_disk w)) as [d [[]|e]]; cbn [fst snd fw_registry]; eauto 6.
Qed.

Inductive observed (record : TransportRecord) (r r' : FeedForkRegistry) : result (FeedError E) Observation → Prop :=
  | observed_invalid e : validateRecord record = Err e → r' = r → observed record r r' (Err e)
  | observed_discarded :
  set_has (tr_id record) (rg_discardedRecordIds r) = true → r' = r → observed record r r' (Ok discarded)
  | observed_quarantined :
  map_has (tr_author record) (rg_quarantines r) = true → r' = r → observed record r r' (Ok quarantined_feed)
  | observed_duplicate :
  entry_at r (tr_author record) (tr_sequence record) = Some (mkFeedEntry (tr_id record) (tr_previous record)) →
  r' = touched r (tr_author record) → observed record r r' (Ok duplicate)
  | observed_no_date :
  r' = touched r (tr_author record) → observed record r r' (Err InvalidDate)
  | observed_fork res n e date :
  validateRecord (E:=E) record = Ok tt →
  map_get n (feed_of r (tr_author record)) = Some e →
  (res = Ok quarantined_feed ∨ ∃ e, res = Err (FeedPersistenceFailed e)) →
  r' = set_quarantines (map_set (tr_author record)
    (mkForkEvidence (tr_author record) (js_decimal (tr_sequence record)) (fe_id e) (tr_id record) date)
    (rg_quarantines r)) (touched r (tr_author record)) →
  observed record r r' res
  | observed_accepted res :
  (res = Ok accepted ∨ ∃ e, res = Err (FeedPersistenceFailed e)) →
  validateRecord (E:=E) record = Ok tt →
  map_has (tr_author record) (rg_quarantines r) = false →
  map_get (tr_sequence record) (feed_of r (tr_author record)) = None →
  predecessor_conflict record (feed_of r (tr_author record)) = None →
  successor_conflict record (feed_of r (tr_author record)) = None →
  r' = set_feeds (map_set (tr_author record)
    (map_set (tr_sequence record) (mkFeedEntry (tr_id record) (tr_previous record)) (feed_of r (tr_author record)))
    (rg_feeds (touched r (tr_author record)))) (touched r (tr_author record)) →
  observed record r r' res.

Lemma quarantine_observed record id n e w w0 :
  validateRecord (E:=E) record = Ok tt →
  map_get n (feed_of (fw_registry w0) (tr_author record)) = Some e → id = fe_id e →
  fw_registry w = touched (fw_registry w0) (tr_author record) →
  let res := quarantine_and_report localeCompare record id w in
  observed record (fw_registry w0) (fw_registry res.1) res.2.
Proof.
  intros Hv He -> Hw. cbv zeta.
  destruct (quarantine_cases record (fe_id e) w) as [[-> ->]|[Hres (date & _ & ->)]].
  - by apply observed_no_date.
  - eapply observed_fork; [exact Hv|exact He|exact Hres|]. by rewrite Hw.
Qed.

Lemma predecessor_conflict_held record feed id :
  predecessor_conflict record feed = Some id → ∃ e, map_get (tr_sequence record - 1) feed = Some e ∧ id = fe_id e.
Proof. unfold predecessor_conflict. destruct (map_get _ _) as [e|]; [|done]. case_bool_decide; naive_solver. Qed.

Lemma successor_conflict_held record feed id :
  successor_conflict record feed = Some id → ∃ e, map_get (tr_sequence record + 1) feed = Some e ∧ id = fe_id e.
Proof. unfold successor_conflict. destruct (map_get _ _) as [e|]; [|done]. case_bool_decide; naive_solver. Qed.

(** Every call of [observe] is one of the cases above. *)
Lemma observe_observed record w :
  observed record (fw_registry w) (fw_registry (observe localeCompare record w).1) (observe localeCompare record w).2.
Proof.
  unfold observe, fcheck, fread, fwrite. run_ops.
  destruct (validateRecord record) as [[]|e] eqn:Hv; [|by apply observed_invalid].
  destruct (set_has _ _) eqn:Hd; [by apply observed_discarded|].
  destruct (map_has _ _) eqn:Hq; [by apply observed_quarantined|].
  cbn [fw_registry fw_disk]. set (feed := default [] (map_get (tr_author record) (rg_feeds (fw_registry w)))).
  fold (feed_of (fw_registry w) (tr_author record)) in feed.
  set (w1 := mkFeedWorld _ _).
  assert (fw_registry w1 = touched (fw_registry w) (tr_author record)) as Hw1 by done.
  destruct (map_get (tr_sequence record) feed) as [existing|] eqn:He.
  { case_bool_decide as H1; [case_bool_decide as H2|]; simpl andb; [|by eapply quarantine_observed..].
    apply observed_duplicate; [|done]. unfold entry_at. subst feed. unfold feed_of in He.
    destruct (map_get (tr_author record) (rg_feeds (fw_registry w))) as [f|]; [|done]. simpl in *.
    rewrite He. f_equal. destruct existing; simpl in *; congruence. }
  destruct (predecessor_conflict record feed) as [id|] eqn:Hp; [apply predecessor_conflict_held in Hp as (e & Hp & ->); by eapply quarantine_observed|].
  destruct (successor_conflict record feed) as [id|] eqn:Hs; [apply successor_conflict_held in Hs as (e & Hs & ->); by eapply quarantine_observed|].
  match goal with |- context [save localeCompare ?w2] =>
    pose proof (save_registry w2) as Hreg; destruct (save localeCompare w2) as [w3 [[]|e]] eqn:Hsave;
    [|pose proof (save_errors w2) as Herr; rewrite Hsave in Herr] end; cbn [fst snd] in *;
    (eapply observed_accepted; [|done..|exact Hreg]); [by left|right; by apply Herr].
Qed.

(** A repair changes nothing, or replaces the quarantined feed by the trusted
    prefix and discards the losing record. *)
Inductive repaired (plan : FeedRepairPlan) (r r' : FeedForkRegistry) : Prop :=
  | repair_refused : r' = r → repaired plan r r'
  | repair_applied evidence records :
  map_get (pl_feedId plan) (rg_quarantines r) = Some evidence →
  check_chain (E:=E) 0 None records = Ok tt → (∀ x, x ∈ records → x ∈ pl_records plan) →
  r' = mkRegistry (map_set (pl_feedId plan) (feed_of_records records) (rg_feeds r))
  (map_delete (pl_feedId plan) (rg_quarantines r))
  (set_add (if bool_decide (trusted_at (ff_sequence evidence) records = Some (ff_acceptedId evidence))
      then ff_conflictingId evidence else ff_acceptedId evidence) (rg_discardedRecordIds r)) →
  repaired plan r r'.

Lemma applyRepair_repaired plan w :
  repaired plan (fw_registry w) (fw_registry (applyRepair localeCompare plan w).1).
Proof.
  unfold applyRepair, fcheck, fread, fwrite. run_ops.
  destruct (createRepairPlan _ _ _) as [verified|e] eqn:Hp; [|by apply repair_refused].
  unfold createRepairPlan in Hp. inv_ok. subst verified. cbn [pl_feedId pl_records].
  set (records := js_sort compareSequences _) in *.
  destruct (map_get (pl_feedId plan) (rg_quarantines (fw_registry w))) as [evidence|] eqn:Hq; [|by apply repair_refused].
  destruct (trusted_at (ff_sequence evidence) records) as [trusted|] eqn:Ht; [|by apply repair_refused].
  destruct (negb _ && negb _); [by apply repair_refused|].
  rewrite save_registry. cbn [fw_registry]. eapply (repair_applied _ _ _ evidence records); [done| | |].
  - by destruct x0.
  - intros y Hy. unfold records in Hy. rewrite elem_of_js_sort, list_elem_of_filter in Hy. by destruct Hy.
  - rewrite Ht. do 2 f_equal. by repeat case_bool_decide; simplify_eq.
Qed.
End operations.

(** ** The invariant is kept *)

Section invariant.
Context {E : Type}.

Lemma feed_of_ok r author : registry_ok r → feed_ok (feed_of r author).
Proof.
  intros (_ & _ & _ & Hf & _). unfold feed_of. destruct (map_get author (rg_feeds r)) as [f|] eqn:Hfeed; [|apply feed_ok_nil].
  by apply (Hf author).
Qed.

Lemma set_feed_ok r author feed :
  registry_ok r → feed_ok feed → registry_ok (set_feeds (map_set author feed (rg_feeds r)) r).
Proof.
  intros (H1 & H2 & H3 & H4 & H5 & H6) Hf. split_and!; cbn [rg_feeds rg_quarantines rg_discardedRecordIds set_feeds];
    try done; [by apply map_wf_set|].
  intros a f. rewrite map_get_set. case_decide; [by intros [= <-]|apply H4].
Qed.

Lemma touched_ok r author : registry_ok r → registry_ok (touched r author).
Proof. intros Hr. apply set_feed_ok; [done|]. by apply (feed_of_ok r author). Qed.

Lemma touched_entry r author a n : entry_at (touched r author) a n = entry_at r a n.
Proof.
  unfold entry_at, touched. cbn [set_feeds rg_feeds]. rewrite map_get_set. case_decide; [|done]. subst.
  by destruct (map_get author (rg_feeds r)).
Qed.

(** A conflict is with a record the feed holds. *)
Lemma set_quarantine_ok r q :
  registry_ok r → ff_acceptedId q ≠ [] → ff_conflictingId q ≠ [] →
  registry_ok (set_quarantines (map_set (ff_feedId q) q (rg_quarantines r)) r).
Proof.
  intros (H1 & H2 & H3 & H4 & H5 & H6) Ha Hc.
  split_and!; cbn [rg_feeds rg_quarantines rg_discardedRecordIds set_quarantines]; try done; [by apply map_wf_set|].
  intros a q'. rewrite map_get_set. case_decide; [|apply H5]. intros [= <-]. by subst.
Qed.

Lemma feed_of_entry r author n : map_get n (feed_of r author) = entry_at r author n.
Proof. unfold feed_of, entry_at. by destruct (map_get author (rg_feeds r)). Qed.

Lemma observed_ok record r r' res : observed (E:=E) record r r' res → registry_ok r → registry_ok r'.
Proof.
  intros H Hr. destruct H as [| | | | |res n e date Hv He _ ->|res _ Hv _ Hn Hp Hs ->]; subst; try done; try by apply touched_ok.
  - set (q := mkForkEvidence _ _ _ _ _). change (tr_author record) with (ff_feedId q) at 1.
    apply (set_quarantine_ok (touched r (tr_author record)) q); [by apply touched_ok| |]; simpl.
    + by destruct (feed_of_ok r (tr_author record) Hr) as [_ Hf]; destruct (Hf n e He) as (_ & ? & _).
    + by apply validateRecord_Ok in Hv as (_ & ? & _).
  - apply set_feed_ok; [by apply touched_ok|]. eapply feed_ok_extend; try done. by apply feed_of_ok.
Qed.

Lemma repaired_ok plan r r' :
  repaired (E:=E) plan r r' → (∀ x, x ∈ pl_records plan → tr_id x ≠ []) → registry_ok r → registry_ok r'.
Proof.
  intros [->|evidence records Hq Hchain Hin ->] Hids Hr; [done|]. destruct Hr as (H1 & H2 & H3 & H4 & H5 & H6).
  destruct (H5 _ _ Hq) as (_ & Ha & Hc).
  split_and!; cbn [rg_feeds rg_quarantines rg_discardedRecordIds]; [by apply map_wf_set|by apply map_wf_delete|by apply map_wf_set|..].
  - intros a feed. rewrite map_get_set. case_decide; [|apply H4]. intros [= <-]. eapply feed_of_records_ok; [done|auto].
  - intros a q. rewrite map_get_delete by done. case_decide; [done|apply H5].
  - intros id. unfold set_has, set_add, map_has in *. rewrite map_get_set. case_decide as Hid; [|apply H6].
    intros _. rewrite Hid. by case_bool_decide.
Qed.
End invariant.

(** ** The snapshot restores the registry *)

(** Two registries that answer every question alike. *)
Definition registry_equiv (r r' : FeedForkRegistry) : Prop :=
  (∀ a n, entry_at r a n = entry_at r' a n) ∧
  (∀ a, map_get a (rg_quarantines r) = map_get a (rg_quarantines r')) ∧
  (∀ id, set_has id (rg_discardedRecordIds r) = set_has id (rg_discardedRecordIds r')).

Lemma positive_decimal_spec n :
  1 ≤ n → positive_decimal (js_decimal n) = true ∧ digits_value (js_decimal n) = n.
Proof.
  intros Hn. destruct (js_decimal_nonneg n) as (Hv & Hd & Hne); [lia|]. split; [|done].
  unfold js_decimal in *. rewrite (proj2 (Z.ltb_ge n 0)) in * by lia. unfold positive_decimal.
  pose proof (digits_head (digits_fuel n) n) as Hh. destruct (digits (digits_fuel n) n) as [|c l] eqn:Hdig; [done|].
  cbn [forallb] in Hd. apply andb_true_iff in Hd as [Hc Hd]. rewrite Hd, andb_true_r.
  specialize (Hh c l). unfold is_digit in Hc. rewrite andb_true_iff, !Z.leb_le in *.
  enough (c ≠ 48) by lia. intros ->.
  assert (n = 0); [|lia]. apply Hh; [split; [lia|apply digits_fuel_enough; lia]|done|done].
Qed.

Section restore.
Context (localeCompare : jsstring → jsstring → Z) {E : Type}.

Lemma restore_records_snapshot (feed : jsmap Z FeedEntry) :
  map_wf feed → (∀ e, e ∈ feed → 1 ≤ e.1) →
  restore_records (E:=E) ((λ e : Z * FeedEntry, mkRecordSnapshot (js_decimal e.1) e.2) <$> feed) = Ok feed.
Proof.
  intros Hwf Hpos. unfold restore_records. rewrite foldR_fmap.
  rewrite <-(list_fmap_id feed) at 2. apply foldR_entries; [by rewrite list_fmap_id|].
  intros m [n e] He Hnone. destruct (positive_decimal_spec n) as [Hp Hv]; [by apply (Hpos _ He)|].
  cbn [fr_sequence fr_entry fst snd id] in *. rewrite Hp, Hv. apply map_has_false in Hnone. by rewrite Hnone.
Qed.

(** The maps the constructor builds from a snapshot: the registry's own entries,
    sorted. *)
Definition restored (r : FeedForkRegistry) : FeedForkRegistry := {|
    rg_feeds := (λ f : jsstring * jsmap Z FeedEntry,
      (f.1, js_sort (λ left right : Z * FeedEntry, if left.1 <? right.1 then -1 else 1) f.2)) <$>
    js_sort (λ left right : jsstring * jsmap Z FeedEntry, localeCompare left.1 right.1) (rg_feeds r);
    rg_quarantines := (λ q, (ff_feedId q, q)) <$> quarantineEvidence localeCompare r;
    rg_discardedRecordIds := (λ id, (id, tt)) <$> js_sort compareStrings (map_keys (rg_discardedRecordIds r));
    |}.

Lemma restored_quarantines r : registry_ok r → rg_quarantines (restored r) ≡ₚ rg_quarantines r.
Proof.
  intros (_ & H2 & _ & _ & H5 & _). unfold restored, quarantineEvidence. cbn [rg_quarantines].
  rewrite js_sort_perm. unfold map_values. rewrite <-list_fmap_compose.
  rewrite <-(list_fmap_id (rg_quarantines r)) at 2. apply reflexive_eq, list_fmap_ext.
  intros i [a q] Hi%list_elem_of_lookup_2. apply map_wf_get in Hi; [|done]. by apply H5 in Hi as [<- _].
Qed.

Lemma restored_discards r : rg_discardedRecordIds (restored r) ≡ₚ rg_discardedRecordIds r.
Proof.
  unfold restored. cbn [rg_discardedRecordIds]. rewrite js_sort_perm. unfold map_keys. rewrite <-list_fmap_compose.
  rewrite <-(list_fmap_id (rg_discardedRecordIds r)) at 2. apply reflexive_eq, list_fmap_ext. by intros i [a []] Hi.
Qed.

Lemma restored_feed_keys r : map_keys (rg_feeds (restored r)) ≡ₚ map_keys (rg_feeds r).
Proof.
  unfold restored, map_keys. cbn [rg_feeds]. rewrite <-list_fmap_compose.
  etrans; [|apply (fmap_Permutation fst), js_sort_perm]. by apply reflexive_eq, list_fmap_ext.
Qed.

Lemma restored_feed r a :
  registry_ok r →
  match map_get a (rg_feeds r), map_get a (rg_feeds (restored r)) with
  | Some feed, Some feed' => feed' ≡ₚ feed
  | None, None => True
  | _, _ => False
  end.
Proof.
  intros (H1 & _). assert (map_wf (rg_feeds (restored r))) as Hwf by (unfold map_wf; by rewrite restored_feed_keys).
  destruct (map_get a (rg_feeds r)) as [feed|] eqn:Hf.
  - erewrite (map_wf_get a); [|exact Hwf|].
    2:{ unfold restored. cbn [rg_feeds]. apply list_elem_of_fmap. exists (a, feed). split; [reflexivity|].
      apply elem_of_js_sort. by apply map_get_Some_elem. }
    apply js_sort_perm.
  - apply map_get_None in Hf. rewrite <-restored_feed_keys in Hf. apply map_get_None in Hf. by rewrite Hf.
Qed.

Lemma feed_ok_perm feed feed' : feed' ≡ₚ feed → feed_ok feed → feed_ok feed'.
Proof.
  intros Hp [Hwf Hok]. split; [unfold map_wf, map_keys; by rewrite Hp|].
  intros n e. rewrite <-(map_get_perm n feed), <-(map_get_perm (n - 1) feed) by done. apply Hok.
Qed.

Lemma restored_equiv r : registry_ok r → registry_equiv r (restored r).
Proof.
  intros Hr. pose proof Hr as (H1 & H2 & H3 & H4 & _). split_and!.
  - intros a n. unfold entry_at. pose proof (restored_feed r a Hr) as Hf.
    destruct (map_get a (rg_feeds r)) as [feed|] eqn:Hfeed, (map_get a (rg_feeds (restored r))) as [feed'|]; try done.
    simpl. apply map_get_perm; [by apply (H4 a)|done].
  - intros a. apply map_get_perm; [done|]. by rewrite restored_quarantines.
  - intros id. unfold set_has, map_has. erewrite map_get_perm; [reflexivity|done|]. by rewrite restored_discards.
Qed.

Lemma restored_ok r : registry_ok r → registry_ok (restored r).
Proof.
  intros Hr. pose proof (restored_equiv r Hr) as (_ & Hq & Hd). pose proof Hr as (H1 & H2 & H3 & H4 & H5 & H6).
  split_and!.
  - unfold map_wf. by rewrite restored_feed_keys.
  - unfold map_wf, map_keys. by rewrite restored_quarantines.
  - unfold map_wf, map_keys. by rewrite restored_discards.
  - intros a feed' Hf'. pose proof (restored_feed r a Hr) as Hf. rewrite Hf' in Hf.
    destruct (map_get a (rg_feeds r)) as [feed|] eqn:Hfeed; [|done]. apply (feed_ok_perm feed); [done|by apply (H4 a)].
  - intros a q. rewrite <-Hq. apply H5.
  - intros id. rewrite <-Hd. apply H6.
Qed.

Lemma restore_registry_snapshot r :
  registry_ok r → restore_registry (E:=E) (feed_snapshot localeCompare r) = Ok (restored r).
Proof.
  intros Hr. pose proof (restored_ok r Hr) as (W1 & W2 & W3 & _). pose proof Hr as (H1 & H2 & H3 & H4 & H5 & H6).
  unfold restore_registry, feed_snapshot. cbn [fs_format fs_feeds fs_quarantines fs_discardedRecordIds]. rewrite bool_decide_eq_true_2 by done.
  cbn [ensure mbind result_bind].
  rewrite foldR_fmap. erewrite foldR_entries; [|exact W1|].
  2:{ intros m [a f] Hf%elem_of_js_sort _. destruct (H4 a f) as [Hwf Hok]; [by apply map_wf_get|]. cbn [fst snd].
    rewrite restore_records_snapshot; [done|unfold map_wf, map_keys; by rewrite js_sort_perm|].
    intros [n e] He%elem_of_js_sort. by apply (Hok n e), map_wf_get. }
  cbn [mbind result_bind]. rewrite (foldR_entries (K:=jsstring) (V:=unit) _ (λ id, (id, tt))); [|exact W3|].
  2:{ intros m id Hid%elem_of_js_sort _. cbn [fst snd]. rewrite (proj2 (Nat.ltb_lt _ _)); [done|].
    enough (id ≠ []) by (destruct id; [done|simpl; lia]). apply H6, map_has_true.
    destruct (map_get id (rg_discardedRecordIds r)) eqn:Hg; [done|]. by apply map_get_None in Hg. }
  cbn [mbind result_bind]. f_equal. unfold restored. f_equal.
  etrans; [|exact (map_of_entries_id (rg_quarantines (restored r)) W2)].
  unfold map_of_entries, restored. cbn [rg_quarantines]. by rewrite foldl_fmap.
Qed.
End restore.

(** ** The registry and its disk *)

(** What the registry relies on: a [load] that returns has read what is stored, and no
    [load] changes it; a [save] that returns has stored its argument, one that throws
    has stored its argument or nothing.  This is about what the next process finds, and
    the file of [JsonFeedForkPersistence] keeps to it ([json_laws]); what a power cut
    leaves is another matter ([accepted_record_forgotten]). *)
Class FeedForkPersistenceLaws (P E : Type) `{!FeedForkPersistence P E} := {
  ffp_stored : P → option FeedForkSnapshot;
  ffp_load_law d d' r : ffp_load d = (d', r) → ffp_stored d' = ffp_stored d ∧ ∀ found, r = Ok found → found = ffp_stored d;
  ffp_save_law snap d :
    match (ffp_save snap d).2 with
    | Ok _ => ffp_stored (ffp_save snap d).1 = Some snap
    | Err _ => ffp_stored (ffp_save snap d).1 = Some snap ∨ ffp_stored (ffp_save snap d).1 = ffp_stored d
    end;
}.

(** A disk that keeps the last snapshot, failing on demand. *)
Record memory_disk := mkMemoryDisk { md_stored : option FeedForkSnapshot; md_fails : list bool }.

#[export] Instance memory_FeedForkPersistence : FeedForkPersistence memory_disk unit := {|
    ffp_load := λ d, (d, Ok (md_stored d));
    ffp_save := λ snap d, match md_fails d with
    | true :: fails => (mkMemoryDisk (md_stored d) fails, Err tt)
    | false :: fails => (mkMemoryDisk (Some snap) fails, Ok tt)
    | [] => (mkMemoryDisk (Some snap) [], Ok tt)
    end;
    |}.

#[export] Instance memory_FeedForkPersistenceLaws : FeedForkPersistenceLaws memory_disk unit.
Proof.
  refine {| ffp_stored := md_stored |}; [by intros d d' r [= <- <-]; split; [|intros found [= <-]]|].
  intros snap [s [|[] fails]]; cbn; auto.
Defined.

Section runs.
Context (localeCompare : jsstring → jsstring → Z) {P E : Type} `{!FeedForkPersistence P E}.
Context `{!FeedForkPersistenceLaws P E}.
Implicit Types (w : feed_world (P:=P)).

(** What happens to a running registry: records arrive, an operator repairs a
    quarantined feed, the process stops (at any point where it has control) and
    starts again from its disk. *)
Inductive feed_step : feed_world (P:=P) → feed_world (P:=P) → Prop :=
  | step_observe w record : feed_step w (observe localeCompare record w).1
  | step_repair w plan :
  (∀ record, record ∈ pl_records plan → tr_id record ≠ []) → feed_step w (applyRepair localeCompare plan w).1
  | step_restart w r : (new_FeedForkRegistry (fw_disk w)).2 = Ok (E:=FeedError E) r → feed_step w (mkFeedWorld r (new_FeedForkRegistry (E:=E) (fw_disk w)).1).

(** The same without repairs. *)
Inductive observe_step : feed_world (P:=P) → feed_world (P:=P) → Prop :=
  | ostep_observe w record : observe_step w (observe localeCompare record w).1
  | ostep_restart w r : (new_FeedForkRegistry (fw_disk w)).2 = Ok (E:=FeedError E) r → observe_step w (mkFeedWorld r (new_FeedForkRegistry (E:=E) (fw_disk w)).1).

(** A new registry on an empty disk. *)
Definition fresh_world (w : feed_world (P:=P)) : Prop := fw_registry w = empty_registry ∧ ffp_stored (fw_disk w) = None.

(** The disk holds nothing or the snapshot of a well-formed registry. *)
Definition disk_ok (Q : FeedForkRegistry → Prop) (d : P) : Prop :=
  ∃ r, Q r ∧ registry_ok r ∧
  match ffp_stored d with None => r = empty_registry | Some snap => snap = feed_snapshot localeCompare r end.

Lemma empty_registry_ok : registry_ok empty_registry.
Proof. split_and!; try apply map_wf_nil; done. Qed.

(** A start reads the registry back, or fails to read. *)
Lemma disk_ok_restart (Q : FeedForkRegistry → Prop) d :
  disk_ok Q d → ffp_stored (new_FeedForkRegistry (E:=E) d).1 = ffp_stored d ∧
    ∃ r r', Q r ∧ registry_ok r' ∧ registry_equiv r r' ∧
      ((new_FeedForkRegistry d).2 = Ok (E:=FeedError E) r' ∨ ∃ e, (new_FeedForkRegistry (E:=E) d).2 = Err (FeedPersistenceFailed e)).
Proof.
  intros (r & HQ & Hr & Hs). unfold new_FeedForkRegistry. destruct (ffp_load d) as [d' [found|e]] eqn:Hl;
    pose proof (ffp_load_law _ _ _ Hl) as [Hd Hf].
  2:{ split; [done|]. exists r, (restored localeCompare r). split_and!; [done|by apply restored_ok|by apply restored_equiv|right; by exists e]. }
  specialize (Hf found eq_refl) as ->. split; [by destruct (ffp_stored d)|]. destruct (ffp_stored d) as [snap|]; subst.
  - exists r, (restored localeCompare r). cbn [snd]. rewrite restore_registry_snapshot by done.
    split_and!; [done|by apply restored_ok|by apply restored_equiv|by left].
  - exists empty_registry, empty_registry. split_and!; [done|apply empty_registry_ok|done|by left].
Qed.

(** After an operation the disk holds what it held, or the registry's snapshot;
    the latter if [save] returned. *)
Definition saved w : Prop := ffp_stored (fw_disk w) = Some (feed_snapshot localeCompare (fw_registry w)).
Definition disk_kept w w' : Prop := ffp_stored (fw_disk w') = ffp_stored (fw_disk w).

Lemma save_disk w :
  let res := save localeCompare w in
  saved res.1 ∨ ((∃ e, res.2 = Err e) ∧ disk_kept w res.1).
Proof.
  unfold saved, disk_kept, save, fread, fpersist. run_ops. pose proof (ffp_save_law (feed_snapshot localeCompare (fw_registry w)) (fw_disk w)) as H.
  destruct (ffp_save _ (fw_disk w)) as [d [[]|e]]; cbn [fst snd fw_disk fw_registry] in *; [by left|].
  destruct H; [by left|right]. eauto.
Qed.

Lemma quarantine_disk record id w :
  let res := quarantine_and_report localeCompare record id w in
  res.2 ≠ Ok accepted ∧ (saved res.1 ∨ (res.2 ≠ Ok quarantined_feed ∧ disk_kept w res.1)).
Proof.
  unfold quarantine_and_report, quarantine, fcheck, fwrite.
  destruct (tr_receivedAtMs record ≫= toISOString) as [date|]; [|by split; [|right; split]]. run_ops.
  match goal with |- context [save localeCompare ?w2] =>
    pose proof (save_disk w2) as Hd; destruct (save localeCompare w2) as [w3 [[]|e]] end;
    cbn [fst snd] in *; (split; [done|]); [left|]; naive_solver.
Qed.

(** What [observe] reports as accepted or quarantined on its own account is on
    the disk. *)
Lemma observe_disk record w :
  let res := observe localeCompare record w in
  saved res.1 ∨ (res.2 ≠ Ok accepted ∧ disk_kept w res.1).
Proof.
  unfold observe, fcheck, fread, fwrite. run_ops.
  destruct (validateRecord record) as [[]|e]; [|by (right; split)].
  destruct (set_has _ _); [by (right; split)|]. destruct (map_has _ _); [by (right; split)|].
  cbn [fw_registry fw_disk]. set (w1 := mkFeedWorld (set_feeds _ _) _).
  assert (∀ id, let res := quarantine_and_report localeCompare record id w1 in
    saved res.1 ∨ (res.2 ≠ Ok accepted ∧ disk_kept w res.1)) as Hq.
  { intros id. destruct (quarantine_disk record id w1) as [H [H'|[_ H']]]; [by left|by (right; split)]. }
  destruct (map_get (tr_sequence record) _) as [existing|]; [destruct (_ && _); [by (right; split)|apply Hq]|].
  destruct (predecessor_conflict record _) as [id|]; [apply Hq|].
  destruct (successor_conflict record _) as [id|]; [apply Hq|].
  match goal with |- context [save localeCompare ?w2] =>
    pose proof (save_disk w2) as Hd; destruct (save localeCompare w2) as [w3 [[]|e]] end; cbn [fst snd] in *; naive_solver.
Qed.

Lemma applyRepair_disk plan w :
  let res := applyRepair localeCompare plan w in saved res.1 ∨ disk_kept w res.1.
Proof.
  unfold applyRepair, fcheck, fread, fwrite. run_ops.
  destruct (createRepairPlan _ _ _) as [verified|e]; [|by right].
  destruct (map_get _ _) as [evidence|]; [|by right]. destruct (trusted_at _ _) as [trusted|]; [|by right].
  destruct (_ && _); [by right|].
  match goal with |- context [save localeCompare ?w2] => pose proof (save_disk w2) as Hd end. naive_solver.
Qed.

Definition world_ok (Q : FeedForkRegistry → Prop) w : Prop :=
  registry_ok (fw_registry w) ∧ Q (fw_registry w) ∧ disk_ok Q (fw_disk w).

Lemma world_ok_step (Q : FeedForkRegistry → Prop) w w' :
  world_ok Q w → registry_ok (fw_registry w') → Q (fw_registry w') → saved w' ∨ disk_kept w w' → world_ok Q w'.
Proof.
  intros (_ & _ & (r & HQ & Hr & Hd)) Hok HQ' [Hs|Hk]; (split; [done|]); (split; [done|]).
  - exists (fw_registry w'). by rewrite Hs.
  - exists r. by rewrite Hk.
Qed.

Lemma world_ok_restart (Q : FeedForkRegistry → Prop) w r :
  (∀ r r', registry_equiv r r' → Q r → Q r') →
  world_ok Q w → (new_FeedForkRegistry (fw_disk w)).2 = Ok (E:=FeedError E) r → world_ok Q (mkFeedWorld r (new_FeedForkRegistry (E:=E) (fw_disk w)).1).
Proof.
  intros HQ (_ & _ & Hd) Hr. destruct (disk_ok_restart Q _ Hd) as (Hk & r0 & r1 & HQ0 & Hok & Heq & [Hr1|[e Hr1]]); [|congruence].
  rewrite Hr in Hr1. injection Hr1 as <-. split_and!; [done|by eapply HQ|].
  destruct Hd as (r2 & ? & ? & ?). exists r2. by rewrite <- Hk in *.
Qed.

Lemma feed_step_ok w w' : feed_step w w' → world_ok (λ _, True) w → world_ok (λ _, True) w'.
Proof.
  intros [w0 record|w0 plan Hids|w0 r Hr] Hw.
  - eapply world_ok_step; [done|eapply observed_ok; [apply observe_observed|apply Hw]|done|].
    pose proof (observe_disk record w0). naive_solver.
  - eapply world_ok_step; [done|eapply repaired_ok; [apply applyRepair_repaired|done|apply Hw]|done|].
    apply applyRepair_disk.
  - by eapply world_ok_restart.
Qed.

Lemma fresh_world_ok w : fresh_world w → world_ok (λ _, True) w.
Proof.
  intros [Hr Hd]. split_and!; [rewrite Hr; apply empty_registry_ok|done|]. exists empty_registry.
  rewrite Hd. split_and!; [done|apply empty_registry_ok|done].
Qed.

Lemma runs_ok w w' : fresh_world w → rtc feed_step w w' → world_ok (λ _, True) w'.
Proof. intros Hw%fresh_world_ok Hs. induction Hs; eauto using feed_step_ok. Qed.

(** ** What never changes while records arrive *)

Lemma observed_entry record r r' (res : result (FeedError E) Observation) a n e :
  observed record r r' res → entry_at r a n = Some e → entry_at r' a n = Some e.
Proof.
  intros H He. destruct H as [| | | | |res n' e' date _ _ _ ->|res _ _ _ Hn _ _ ->]; subst; try done; try by rewrite touched_entry.
  - change (entry_at (touched r (tr_author record)) a n = Some e). by rewrite touched_entry.
  - unfold entry_at in *. cbn [set_feeds rg_feeds]. rewrite !map_get_set. case_decide as Ha.
    + subst a. unfold feed_of in *. destruct (map_get (tr_author record) (rg_feeds r)) as [feed|]; [|done]. simpl in *.
      rewrite map_get_set_ne; [done|]. intros ->. congruence.
    + unfold touched. cbn [set_feeds rg_feeds]. by rewrite map_get_set_ne.
Qed.

Lemma observed_quarantine record r r' (res : result (FeedError E) Observation) a :
  observed record r r' res → map_has a (rg_quarantines r) = true → map_has a (rg_quarantines r') = true.
Proof.
  intros H Hq. destruct H as [| | | | |res n' e' date _ _ _ ->|res _ _ _ Hn _ _ ->]; subst; try done.
  cbn [set_quarantines rg_quarantines]. apply map_has_true in Hq. apply map_has_true. rewrite map_get_set.
  by case_decide.
Qed.

Definition holds_entry a n e (r : FeedForkRegistry) : Prop := entry_at r a n = Some e.
Definition in_quarantine a (r : FeedForkRegistry) : Prop := map_has a (rg_quarantines r) = true.

(** A property of the registry that survives records and the round trip through
    the snapshot, once saved, holds forever. *)
Lemma observe_steps_keep (Q : FeedForkRegistry → Prop) w w' :
  (∀ record r r' (res : result (FeedError E) Observation), observed record r r' res → Q r → Q r') →
  (∀ r r', registry_equiv r r' → Q r → Q r') →
  rtc observe_step w w' → world_ok Q w → world_ok Q w'.
Proof.
  intros Hobs Heq Hs. induction Hs as [|w1 w2 w3 Hstep _ IH]; [done|]. intros Hw. apply IH.
  destruct Hstep as [w0 record|w0 r Hr]; [|by eapply world_ok_restart].
  pose proof (observe_observed localeCompare record w0) as Ho.
  eapply world_ok_step; [done|eapply observed_ok; [exact Ho|apply Hw]|eapply Hobs; [exact Ho|apply Hw]|].
  pose proof (observe_disk record w0). naive_solver.
Qed.

Lemma saved_world_ok (Q : FeedForkRegistry → Prop) w :
  registry_ok (fw_registry w) → Q (fw_registry w) → saved w → world_ok Q w.
Proof. intros Hr HQ Hs. split_and!; [done|done|]. exists (fw_registry w). by rewrite Hs. Qed.

Lemma accepted_entry record w :
  (observe localeCompare record w).2 = Ok accepted →
  holds_entry (tr_author record) (tr_sequence record) (mkFeedEntry (tr_id record) (tr_previous record))
  (fw_registry (observe localeCompare record w).1) ∧ saved (observe localeCompare record w).1.
Proof.
  intros Hres. split; [|by destruct (observe_disk record w) as [|[[] _]]].
  pose proof (observe_observed localeCompare record w) as Ho. rewrite Hres in Ho.
  inversion Ho as [| | | | |? ? ? ? _ _ Hbad|? _ _ _ _ _ _ Hr]; subst; [destruct Hbad as [|[]]; congruence|].
  rewrite Hr. unfold holds_entry, entry_at. cbn [set_feeds rg_feeds]. rewrite map_get_set_eq. cbn [mbind option_bind].
  by rewrite map_get_set_eq.
Qed.

Lemma holds_entry_refuses record w :
  ∀ e, holds_entry (tr_author record) (tr_sequence record) e (fw_registry w) →
  e ≠ mkFeedEntry (tr_id record) (tr_previous record) →
  (observe localeCompare record w).2 ≠ Ok accepted ∧ (observe localeCompare record w).2 ≠ Ok duplicate.
Proof.
  intros e He Hne. pose proof (observe_observed localeCompare record w) as Ho. unfold holds_entry in He.
  split; intros Hres; rewrite Hres in Ho.
  - inversion Ho as [| | | | |? ? ? ? _ _ Hbad|? _ _ _ Hn _ _ Hr]; subst; [destruct Hbad as [|[]]; congruence|].
    rewrite feed_of_entry in Hn. congruence.
  - inversion Ho as [| | |Hd| |? ? ? ? _ _ Hbad|? Hbad]; subst; [congruence|destruct Hbad as [|[]]; congruence..].
Qed.

Lemma in_quarantine_refuses record w :
  in_quarantine (tr_author record) (fw_registry w) →
  let res := observe localeCompare record w in
  fw_registry res.1 = fw_registry w ∧ (res.2 = Ok quarantined_feed ∨ res.2 = Ok discarded ∨ ∃ e, res.2 = Err e).
Proof.
  unfold in_quarantine. intros Hq. cbv zeta. unfold observe, fcheck, fread, fwrite. run_ops.
  destruct (validateRecord record) as [[]|e]; [|eauto 6]. destruct (set_has _ _); [eauto|]. rewrite Hq. eauto.
Qed.

(** The quarantine that an observation reports for the first time is saved. *)
Lemma first_quarantine record w :
  map_has (tr_author record) (rg_quarantines (fw_registry w)) = false →
  (observe localeCompare record w).2 = Ok quarantined_feed →
  in_quarantine (tr_author record) (fw_registry (observe localeCompare record w).1) ∧ saved (observe localeCompare record w).1.
Proof.
  intros Hno Hres. split.
  - pose proof (observe_observed localeCompare record w) as Ho. rewrite Hres in Ho.
    inversion Ho as [| |Hq| | |? ? ? ? _ _ _ Hr|? Hbad]; subst; [congruence| |destruct Hbad as [|[]]; congruence].
    rewrite Hr. unfold in_quarantine. apply map_has_true. cbn [set_quarantines rg_quarantines]. by rewrite map_get_set_eq.
  - revert Hres. unfold observe, fcheck, fread, fwrite. run_ops.
    destruct (validateRecord record) as [[]|e]; [|done]. destruct (set_has _ _); [done|]. rewrite Hno.
    cbn [fw_registry fw_disk]. set (w1 := mkFeedWorld (set_feeds _ _) _).
    assert (∀ id, (quarantine_and_report localeCompare record id w1).2 = Ok quarantined_feed →
      saved (quarantine_and_report localeCompare record id w1).1) as Hq.
    { intros id Hid. by destruct (quarantine_disk record id w1) as [_ [H'|[[] _]]]. }
    destruct (map_get (tr_sequence record) _) as [existing|]; [destruct (_ && _); [done|apply Hq]|].
    destruct (predecessor_conflict record _) as [id|]; [apply Hq|].
    destruct (successor_conflict record _) as [id|]; [apply Hq|].
    match goal with |- context [save localeCompare ?w2] => by destruct (save localeCompare w2) as [w3 [[]|e]] end.
Qed.
End runs.

(** ** Theorems *)

Section theorems.
Context (localeCompare : jsstring → jsstring → Z) {P E : Type} `{!FeedForkPersistence P E}.
Context `{!FeedForkPersistenceLaws P E}.

(** In every run of the registry (records in any order, repairs, restarts from
    disk, failing saves) each feed it holds is a set of hash-linked segments: the
    first record names no predecessor, every other record names one, and adjacent
    records are linked; and the disk can be started from whenever it can be read. *)
Theorem feeds_hash_linked (w w' : feed_world (P:=P)) :
  fresh_world w → rtc (feed_step localeCompare) w w' →
  (∀ author n e, entry_at (fw_registry w') author n = Some e →
    1 ≤ n ∧ (n = 1 ↔ fe_previous e = None) ∧
    ∀ e', entry_at (fw_registry w') author (n - 1) = Some e' → fe_previous e = Some (fe_id e')) ∧
  ∃ r, (new_FeedForkRegistry (fw_disk w')).2 = Ok (E:=FeedError E) r ∨ ∃ e, (new_FeedForkRegistry (E:=E) (fw_disk w')).2 = Err (FeedPersistenceFailed e).
Proof.
  intros Hw Hs. destruct (runs_ok localeCompare w w' Hw Hs) as (Hr & _ & Hd). split.
  - intros author n e. rewrite <-!feed_of_entry. intros He.
    destruct (feed_of_ok _ author Hr) as [_ Hf]. destruct (Hf n e He) as (H1 & _ & H2 & H3).
    by split_and!.
  - destruct (disk_ok_restart localeCompare _ _ Hd) as (_ & r & r' & _ & _ & _ & Hr'). by exists r'.
Qed.

(** A snapshot of the registry restores a registry that answers every question
    alike: the same records, quarantines and discarded identities. *)
Theorem feed_snapshot_restores (w w' : feed_world (P:=P)) :
  fresh_world w → rtc (feed_step localeCompare) w w' →
  ∃ r, restore_registry (E:=E) (feed_snapshot localeCompare (fw_registry w')) = Ok r ∧
  registry_equiv (fw_registry w') r.
Proof.
  intros Hw Hs. destruct (runs_ok localeCompare w w' Hw Hs) as (Hr & _).
  exists (restored localeCompare (fw_registry w')). split; [by apply restore_registry_snapshot|by apply restored_equiv].
Qed.

(** C33: Once [observe] has reported a record as accepted, no other record with the
    same author and sequence is ever accepted or called a duplicate, whatever
    records arrive afterwards and however often the process restarts (a repair
    by an operator excepted). *)
Theorem fork_never_accepted (w0 w w' : feed_world (P:=P)) (record fork : TransportRecord) :
  fresh_world w0 → rtc (feed_step localeCompare) w0 w →
  (observe localeCompare record w).2 = Ok accepted →
  rtc (observe_step localeCompare) (observe localeCompare record w).1 w' →
  tr_author fork = tr_author record → tr_sequence fork = tr_sequence record →
  tr_id fork ≠ tr_id record ∨ tr_previous fork ≠ tr_previous record →
  (observe localeCompare fork w').2 ≠ Ok accepted ∧ (observe localeCompare fork w').2 ≠ Ok duplicate.
Proof.
  intros Hw0 Hrun Hacc Hsteps Ha Hn Hne.
  destruct (runs_ok localeCompare w0 w Hw0 Hrun) as (Hr & _).
  destruct (accepted_entry localeCompare record w Hacc) as [He Hsaved].
  eapply (observe_steps_keep localeCompare (holds_entry _ _ _)) in Hsteps as (_ & Hheld & _);
    [|intros ??????; by eapply observed_entry|intros r r' Heq HQ; unfold holds_entry in *; by rewrite <-(proj1 Heq)|].
  2:{ apply saved_world_ok; [|exact He|done]. eapply observed_ok; [apply observe_observed|done]. }
  eapply holds_entry_refuses; [rewrite Ha, Hn; exact Hheld|]. intros [= H1 H2]. naive_solver.
Qed.

(** Once a fork has put a feed into quarantine, no record of that feed is
    accepted and nothing of it changes, whatever records arrive afterwards and
    however often the process restarts. *)
Theorem quarantine_is_final (w0 w w' : feed_world (P:=P)) (fork record : TransportRecord) :
  fresh_world w0 → rtc (feed_step localeCompare) w0 w →
  quarantined (fw_registry w) (Some (tr_author fork)) = false →
  (observe localeCompare fork w).2 = Ok quarantined_feed →
  rtc (observe_step localeCompare) (observe localeCompare fork w).1 w' →
  tr_author record = tr_author fork →
  let res := observe localeCompare record w' in
  quarantined (fw_registry w') (Some (tr_author fork)) = true ∧
  fw_registry res.1 = fw_registry w' ∧ (res.2 = Ok quarantined_feed ∨ res.2 = Ok discarded ∨ ∃ e, res.2 = Err e).
Proof.
  intros Hw0 Hrun Hno Hres Hsteps Ha. cbv zeta.
  destruct (runs_ok localeCompare w0 w Hw0 Hrun) as (Hr & _).
  destruct (first_quarantine localeCompare fork w Hno Hres) as [He Hsaved].
  eapply (observe_steps_keep localeCompare (in_quarantine _)) in Hsteps as (_ & Hheld & _);
    [|intros ??????; by eapply observed_quarantine|intros r r' (_ & Heq & _) HQ; unfold in_quarantine, map_has in *; by rewrite <-Heq|].
  2:{ apply saved_world_ok; [|exact He|done]. eapply observed_ok; [apply observe_observed|done]. }
  split; [exact Hheld|]. apply in_quarantine_refuses. by rewrite Ha.
Qed.

(** A record that differs from the one held for its author and sequence is
    recognised as a fork: the feed is in quarantine afterwards (even if saving
    fails), with both identities as evidence, and the record is not stored. *)
Theorem fork_detected (w : feed_world (P:=P)) (record : TransportRecord) (e : FeedEntry) (date : jsstring) :
  entry_at (fw_registry w) (tr_author record) (tr_sequence record) = Some e →
  e ≠ mkFeedEntry (tr_id record) (tr_previous record) →
  validateRecord (E:=E) record = Ok tt →
  tr_receivedAtMs record ≫= toISOString = Some date →
  set_has (tr_id record) (rg_discardedRecordIds (fw_registry w)) = false →
  quarantined (fw_registry w) (Some (tr_author record)) = false →
  let res := observe localeCompare record w in
  map_get (tr_author record) (rg_quarantines (fw_registry res.1)) =
  Some (mkForkEvidence (tr_author record) (js_decimal (tr_sequence record)) (fe_id e) (tr_id record) date) ∧
  (∀ a n, entry_at (fw_registry res.1) a n = entry_at (fw_registry w) a n) ∧
  (res.2 = Ok quarantined_feed ∨ ∃ e, res.2 = Err (FeedPersistenceFailed e)).
Proof.
  intros He Hne Hv Hdate Hdis Hq. rewrite <-feed_of_entry in He. unfold feed_of in He.
  cbv zeta. unfold observe, fcheck, fread, fwrite. run_ops. rewrite Hv. cbn iota. rewrite Hdis.
  cbn [quarantined] in Hq. rewrite Hq. cbn [fw_registry fw_disk]. rewrite He.
  destruct (_ && _) eqn:Hsame.
  { apply andb_true_iff in Hsame. rewrite !bool_decide_eq_true in Hsame. destruct e, Hsame; naive_solver. }
  match goal with |- context [quarantine_and_report localeCompare record (fe_id e) ?w1] =>
    destruct (quarantine_cases localeCompare record (fe_id e) w1) as [[H _]|[Hres (date' & Hd & Hr)]]; [|] end.
  { exfalso. revert H. unfold quarantine_and_report, quarantine, fcheck, fwrite, save, fread, fpersist. rewrite Hdate.
    run_ops. match goal with |- context [ffp_save ?s ?d] => by destruct (ffp_save s d) as [? [[]|]] end. }
  rewrite Hdate in Hd. injection Hd as <-. rewrite Hr. cbn [set_quarantines rg_quarantines rg_feeds fw_registry].
  split_and!; [apply map_get_set_eq| |done]. intros a n. apply (touched_entry (fw_registry w) (tr_author record)).
Qed.
End theorems.

(** ** Samples *)

#[local] Open Scope string_scope.
#[local] Open Scope Z_scope.

Definition sample_record (id : string) (n : Z) (previous : option string) : TransportRecord :=
  mkTransportRecord (js id) (js "alice") n (js <$> previous) (Some 1700000000000) [].

Definition sample_world : feed_world (P:=memory_disk) := mkFeedWorld empty_registry (mkMemoryDisk None []).

(** The first record of a feed, then a second one. *)
Definition sample_A : TransportRecord := sample_record "A" 1 None.
Definition sample_B : TransportRecord := sample_record "B" 2 (Some "A").
Definition sample_fork : TransportRecord := sample_record "X" 2 (Some "A").

Definition one_record : feed_world (P:=memory_disk) := (observe compareStrings sample_A sample_world).1.
Definition two_records : feed_world (P:=memory_disk) := (observe compareStrings sample_B one_record).1.
Definition forked : feed_world (P:=memory_disk) := (observe compareStrings sample_fork two_records).1.

Lemma sample_fresh : fresh_world sample_world.
Proof. done. Qed.
Lemma sample_run1 : rtc (feed_step compareStrings) sample_world one_record.
Proof. apply rtc_once, step_observe. Qed.
Lemma sample_run2 : rtc (feed_step compareStrings) sample_world two_records.
Proof. eapply rtc_r; [apply sample_run1|apply step_observe]. Qed.

Lemma feeds_hash_linked_witness :
  ∃ e, entry_at (fw_registry two_records) (js "alice") 2 = Some e ∧ fe_previous e = Some (js "A").
Proof.
  exists (mkFeedEntry (js "B") (Some (js "A"))). split; [vm_compute; reflexivity|].
  destruct (feeds_hash_linked compareStrings sample_world two_records sample_fresh sample_run2) as [H _].
  destruct (H (js "alice") 2 (mkFeedEntry (js "B") (Some (js "A")))) as (_ & _ & Hlink); [vm_compute; reflexivity|].
  apply (Hlink (mkFeedEntry (js "A") None)). vm_compute. reflexivity.
Defined.

Lemma feed_snapshot_restores_witness :
  ∃ r, restore_registry (E:=unit) (feed_snapshot compareStrings (fw_registry two_records)) = Ok r ∧
    registry_equiv (fw_registry two_records) r.
Proof. exact (feed_snapshot_restores compareStrings sample_world two_records sample_fresh sample_run2). Defined.

Lemma fork_never_accepted_witness :
  (observe compareStrings sample_fork two_records).2 ≠ Ok accepted ∧
  (observe compareStrings sample_fork two_records).2 ≠ Ok duplicate.
Proof.
  apply (fork_never_accepted compareStrings sample_world one_record two_records sample_B sample_fork sample_fresh sample_run1);
    [vm_compute; reflexivity|apply rtc_refl|reflexivity|reflexivity|by left].
Defined.

Lemma quarantine_is_final_witness :
  quarantined (fw_registry forked) (Some (js "alice")) = true ∧
  (observe compareStrings sample_B forked).2 = Ok quarantined_feed.
Proof.
  split; [|vm_compute; reflexivity].
  apply (quarantine_is_final compareStrings sample_world two_records forked sample_fork sample_B sample_fresh sample_run2);
    [vm_compute; reflexivity|vm_compute; reflexivity|apply rtc_refl|reflexivity].
Defined.

Lemma fork_detected_witness :
  map_get (js "alice") (rg_quarantines (fw_registry forked)) =
    Some (mkForkEvidence (js "alice") (js "2") (js "B") (js "X") (js "2023-11-14T22:13:20.000Z")).
Proof.
  apply (fork_detected compareStrings two_records sample_fork (mkFeedEntry (js "B") (Some (js "A"))));
    try (vm_compute; reflexivity). intros H. discriminate (f_equal fe_id H).
Defined.

(** ** A quarantine that cannot be repaired

    The evidence of a record that does not link to its predecessor holds the
    predecessor's id as the accepted one, at the sequence of the record.  The
    author's true feed has neither of the two ids at that sequence. *)

Definition stray : TransportRecord := sample_record "X" 2 (Some "Z").
Definition strayed : feed_world (P:=memory_disk) := (observe compareStrings stray one_record).1.

Example repair_of_stray_record_refused :
  (observe compareStrings stray one_record).2 = Ok quarantined_feed ∧
  (observe compareStrings sample_B one_record).2 = Ok accepted ∧
  (applyRepair compareStrings (mkRepairPlan (js "alice") (js "B") [sample_A; sample_B]) strayed).2 =
    Err FEED_REPAIR_CONFLICT_NOT_RESOLVED ∧
  (applyRepair compareStrings (mkRepairPlan (js "alice") (js "A") [sample_A]) strayed).2 =
    Err FEED_REPAIR_CONFLICT_NOT_RESOLVED.
Proof. vm_compute. done. Qed.

(** ** The registry in a JSON file *)

Section json_file.
Context {T F : Type} `{!FileSystem T F, !FileSystemLaws T F}.
Context (stringify : FeedForkSnapshot → T) (parse : T → option FeedForkSnapshot) (name : FileSystem.path).
Context (parse_stringify : ∀ snap, parse (stringify snap) = Some snap).
Context (exists_exact : ∀ f, existsSync name f = false → view f name = None).

Definition json_stored (f : F) : option FeedForkSnapshot := view f name ≫= parse.

Lemma on_file_inv {A} (m : SE F FsError A) f f' r : on_file m f = (f', r) → ∃ r0, m f = (f', r0) ∧
  r = match r0 with Ok a => Ok a | Err e => Err (FeedFileFailed e) end.
Proof. unfold on_file. destruct (m f) as [f1 r0]. intros [= <- <-]. by exists r0. Qed.

Lemma load_json_law f f' r : load_json parse name f = (f', r) → json_stored f' = json_stored f ∧ ∀ found, r = Ok found → found = json_stored f.
Proof.
  unfold load_json, json_stored. destruct (existsSync name f) eqn:He.
  2:{ intros [= <- <-]. split; [done|]. intros found [= <-]. by rewrite exists_exact. }
  destruct (on_file (readFileSync name) f) as [f1 r1] eqn:Hr. apply on_file_inv in Hr as (r0 & Hr & ->).
  destruct (read_law _ _ _ _ Hr) as [Hk Hv]. rewrite <- (keeps_view _ _ _ (Hk name)) in Hv.
  destruct r0 as [t|e]; intros [= <- <-]; rewrite <- (keeps_view _ _ _ (Hk name)); (split; [done|]); [|done].
  intros found Hf. rewrite Hv. cbn. destruct (parse t); by simplify_eq.
Qed.

(** The temporary file holds the snapshot when it is renamed, and nothing before
    that touches the file. *)
Lemma save_json_law snap f f' r : save_json stringify name snap f = (f', r) →
  match r with Ok _ => json_stored f' = Some snap | Err _ => json_stored f' = Some snap ∨ json_stored f' = json_stored f end.
Proof.
  unfold save_json, json_stored. intros (r0 & H & ->)%on_file_inv. set (tmp := temporaryPath name) in *.
  assert (name ≠ tmp) as Hne by apply not_eq_sym, temporaryPath_ne. unfold mbind, SE_bind in H.
  destruct (mkdirSync (dirname name) f) as [f1 [[]|e]] eqn:E1; pose proof (keeps_view _ _ _ (mkdir_law _ _ _ _ E1 name)) as V1;
    [|injection H as <- <-; right; by rewrite V1].
  destruct (writeFileSync tmp (stringify snap) f1) as [f2 r2] eqn:E2. destruct (write_law _ _ _ _ _ E2) as [K2 W2].
  pose proof (keeps_view _ _ _ (K2 name Hne)) as V2. destruct r2 as [[]|e]; [|injection H as <- <-; right; by rewrite V2, V1].
  specialize (W2 eq_refl). destruct (fsyncSync tmp f2) as [f3 r3] eqn:E3. destruct (sync_law _ _ _ _ E3) as [K3 _].
  pose proof (keeps_view _ _ _ (K3 name)) as V3. destruct r3 as [[]|e]; [|injection H as <- <-; right; by rewrite V3, V2, V1].
  destruct (renameSync tmp name f3) as [f4 r4] eqn:E4. injection H as <- <-. destruct (rename_law _ _ _ _ _ E4 (not_eq_sym Hne)) as [_ K4].
  destruct r4 as [[]|e].
  - destruct K4 as [V4 _]. rewrite V4, (keeps_view _ _ _ (K3 tmp)), W2. apply parse_stringify.
  - destruct K4 as [_ K4]. right. by rewrite (keeps_view _ _ _ K4), V3, V2, V1.
Qed.

Definition json_laws : FeedForkPersistenceLaws (FeedForkPersistence0 := JsonFeedForkPersistence stringify parse name) F FeedFileError.
Proof.
  refine (Build_FeedForkPersistenceLaws F FeedFileError (JsonFeedForkPersistence stringify parse name) json_stored load_json_law _).
  intros snap f. pose proof (save_json_law snap f _ _ (surjective_pairing _)) as Hs. exact Hs.
Defined.
End json_file.

(** On a disk with a cache, whose files are their own text: the registry accepts a record,
    the power goes before the rename reaches the disk, and the next process accepts a fork
    of the record. *)
#[local] Instance cache_files : FileSystem FeedForkSnapshot (CacheDisk FeedForkSnapshot) := cache_disk.
Definition cache_json : FeedForkPersistence (CacheDisk FeedForkSnapshot) FeedFileError := JsonFeedForkPersistence id Some (js "/d/feeds.json").
#[local] Existing Instance cache_json.

Definition cached_world : feed_world (P:=CacheDisk FeedForkSnapshot) := (observe compareStrings sample_A (mkFeedWorld empty_registry [])).1.

Definition rename_lost : CacheDisk FeedForkSnapshot := map_set (js "/d/feeds.json") (Clean None []) (cache_reboot (fw_disk cached_world)).

Lemma rename_lost_crash : crash (fw_disk cached_world) rename_lost.
Proof.
  intros p. unfold rename_lost. rewrite entry_of_set. case_decide as Hp; [|apply cache_reboot_crash].
  subst p. split; [|by eexists]. vm_compute. right. left.
Qed.

Example accepted_record_forgotten :
  (observe compareStrings sample_A (mkFeedWorld empty_registry [])).2 = Ok accepted ∧
  crash (fw_disk cached_world) rename_lost ∧
  (new_FeedForkRegistry (E:=FeedFileError) rename_lost).2 = Ok empty_registry ∧
  (observe compareStrings (sample_record "X" 1 None) (mkFeedWorld empty_registry rename_lost)).2 = Ok accepted.
Proof. split_and!; [vm_compute; reflexivity|apply rename_lost_crash|vm_compute; reflexivity|vm_compute; reflexivity]. Qed.

(** The laws of the file hold on this disk, so the theorems above hold of it. *)
Definition cache_json_laws : FeedForkPersistenceLaws (CacheDisk FeedForkSnapshot) FeedFileError.
Proof.
  apply (json_laws (FileSystem0 := cache_disk) (FileSystemLaws0 := cache_disk_laws) id Some (js "/d/feeds.json")); [done|].
  intros f. cbn. rewrite bool_decide_eq_false. intros H. by apply dec_stable in H.
Defined.
