(* ===== verification/Int64.v ===== *)
(** * Checked 64-bit integers: [packages/kernels/src/int64.ts] *)

From Stdlib Require Import Strings.String.
From stdpp Require Import base list option numbers.
From S2P Require Import Prelude Bytes JsNumber.

#[local] Open Scope Z_scope.

(** * Errors of the deterministic kernels: [packages/kernels/src/errors.ts]

    Messages and positions of a [KernelError] are diagnostics and not modelled.
    Arguments of type [number] are integers here: every kernel that takes one
    checks [Number.isSafeInteger] or [Number.isInteger] first, with the error it
    also raises for an integer out of range. *)

Inductive KernelErrorCode :=
  | INVALID_ARGUMENT_ENCODING | TYPE_MISMATCH | NUMERIC_OVERFLOW | DIVISION_BY_ZERO | DECIMAL_RESCALE_REQUIRED
  | KERNEL_INVALID_UTF8 | INVALID_JSON | JSON_DUPLICATE_KEY | JSON_DEPTH_LIMIT | JSON_PATH_ERROR
  | VECTOR_DIMENSION_MISMATCH | VECTOR_VALUE_INVALID | SEMANTIC_RESOURCE_LIMIT | UNSUPPORTED_OPERATION.

#[export] Instance KernelErrorCode_eq_dec : EqDecision KernelErrorCode.
Proof. solve_decision. Defined.

Definition kernelAssert (condition : bool) (code : KernelErrorCode) : result KernelErrorCode unit :=
  ensure condition code.

(** [Number.isSafeInteger] *)
Definition is_safe_integer (n : Z) : bool := Z.abs n <=? MAX_SAFE_INTEGER.

(** The regular expression for [0] or a digit string without leading zeros. *)
Definition canonical_natural (text : jsstring) : bool :=
  match text with
  | [] => false
  | [c] => is_digit c
  | c :: rest => (49 <=? c) && (c <=? 57) && forallb is_digit rest
  end.

Lemma canonical_natural_digits s : canonical_natural s = true → forallb is_digit s = true.
Proof.
  destruct s as [|c [|d s]]; [done|simpl; intros ->; done|].
  cbn [canonical_natural]. rewrite andb_true_iff. intros [Hc Hs]. cbn [forallb] in *. rewrite Hs, andb_true_r.
  unfold is_digit. lia.
Qed.

Lemma canonical_natural_snoc s c :
  s ≠ [] → canonical_natural (s ++ [c]) = true → canonical_natural s = true ∧ 1 ≤ digits_value s ∧ is_digit c = true.
Proof.
  destruct s as [|x s]; [done|]. intros _. cbn [app canonical_natural].
  destruct (s ++ [c]) as [|y l] eqn:Hl; [by destruct s|]. rewrite <-Hl, forallb_app. cbn [forallb].
  rewrite !andb_true_iff. intros [Hx (Hs & Hc & _)]. split_and!; [|..|done].
  - destruct s as [|z s]; [unfold is_digit; lia|]. by rewrite !andb_true_iff.
  - clear Hl y l. change (x :: s) with ([x] ++ s). unfold digits_value. rewrite foldl_app.
    change (foldl _ 0 [x]) with (0 * 10 + (x - 48)). assert (1 ≤ 0 * 10 + (x - 48)) as Hacc by lia.
    revert Hacc Hs. generalize (0 * 10 + (x - 48)). clear. induction s as [|d s IH]; intros acc Hacc Hs; [done|].
    cbn [forallb foldl] in *. apply andb_true_iff in Hs as [Hd Hs]. unfold is_digit in Hd. apply IH; [lia|done].
Qed.

(** A canonical text is the decimal notation of its value. *)
Lemma digits_canonical s fuel :
  canonical_natural s = true → digits_value s < 10 ^ Z.of_nat fuel → fuel ≠ O → digits fuel (digits_value s) = s.
Proof.
  revert fuel. induction s as [|c s IH] using rev_ind; intros fuel Hs Hf Hfuel; [done|].
  unfold digits_value in *. rewrite foldl_app in *. cbn [foldl] in *. fold (digits_value s) in *.
  assert (is_digit c = true ∧ (s = [] ∨ canonical_natural s = true ∧ 1 ≤ digits_value s)) as [Hc Hcases].
  { destruct s as [|x s]; [by split; [|left]|]. apply canonical_natural_snoc in Hs; naive_solver. }
  unfold is_digit in Hc. destruct fuel as [|fuel]; [done|]. rewrite Nat2Z.inj_succ, Z.pow_succ_r in Hf by lia.
  cbn [digits]. destruct Hcases as [->|[Hs' Hv]].
  - change (digits_value []) with 0 in *. rewrite (proj2 (Z.ltb_lt _ _)) by lia. simpl. f_equal. lia.
  - rewrite (proj2 (Z.ltb_ge _ _)) by lia.
    replace ((digits_value s * 10 + (c - 48)) / 10) with (digits_value s) by (Z.to_euclidean_division_equations; lia).
    replace ((digits_value s * 10 + (c - 48)) mod 10) with (c - 48) by (Z.to_euclidean_division_equations; lia).
    rewrite IH; [do 2 f_equal; lia|done|lia|]. intros ->. change (10 ^ Z.of_nat 0) with 1 in Hf. lia.
Qed.

Lemma digits_value_nonneg s : forallb is_digit s = true → 0 ≤ digits_value s.
Proof.
  unfold digits_value. cut (∀ acc, 0 ≤ acc → forallb is_digit s = true → 0 ≤ foldl (λ acc c, acc * 10 + (c - 48)) acc s).
  { intros H. by apply H. }
  induction s as [|d s IH]; intros acc Hacc; [done|]. cbn [forallb foldl]. intros [Hd Hs]%andb_true_iff.
  unfold is_digit in Hd. apply IH; [lia|done].
Qed.

Lemma js_decimal_canonical s : canonical_natural s = true → js_decimal (digits_value s) = s.
Proof.
  intros Hs. pose proof (digits_value_nonneg s (canonical_natural_digits s Hs)) as Hn.
  unfold js_decimal. rewrite (proj2 (Z.ltb_ge _ _)) by lia. apply digits_canonical; [done|by apply digits_fuel_enough|].
  unfold digits_fuel. pose proof (Z.log2_nonneg (digits_value s)). lia.
Qed.

Lemma canonical_js_decimal n : 0 ≤ n → canonical_natural (js_decimal n) = true.
Proof.
  intros Hn. destruct (js_decimal_nonneg n Hn) as (Hv & Hd & Hne).
  unfold js_decimal in *. rewrite (proj2 (Z.ltb_ge n 0)) in * by lia.
  pose proof (digits_head (digits_fuel n) n) as Hh. pose proof (digits_fuel_enough n Hn) as Hf.
  destruct (digits (digits_fuel n) n) as [|c [|d l]] eqn:Hdig; [done| |].
  { cbn [forallb] in Hd. by rewrite andb_true_r in Hd. }
  assert (c = 48 → False).
  { intros ->. rewrite (Hh 48 (d :: l)) in Hdig by done. by vm_compute in Hdig. }
  cbn [canonical_natural forallb] in *. rewrite !andb_true_iff in *. unfold is_digit in *.
  destruct Hd as (Hc & Hd & Hl). split; [lia|]. done.
Qed.

Definition INT64_MIN : Z := - 2 ^ 63.
Definition INT64_MAX : Z := 2 ^ 63 - 1.

Definition in_int64 (z : Z) : bool := (INT64_MIN <=? z) && (z <=? INT64_MAX).

(** The regular expression of a canonical integer: an optional minus sign before
    a canonical natural number. *)
Definition canonical_integer (text : jsstring) : bool :=
  match text with
  | 45 :: rest => canonical_natural rest
  | _ => canonical_natural text
  end.

(** [BigInt(text)] on the texts the expression accepts. *)
Definition bigint_of (text : jsstring) : Z :=
  match text with
  | 45 :: rest => - digits_value rest
  | _ => digits_value text
  end.

(** [int64] of a bigint and of a string. *)
Definition int64_bigint (value : Z) : result KernelErrorCode Z :=
  kernelAssert (in_int64 value) NUMERIC_OVERFLOW ≫= λ _, Ok value.

Definition int64_string (value : jsstring) : result KernelErrorCode Z :=
  kernelAssert (canonical_integer value) INVALID_ARGUMENT_ENCODING ≫= λ _,
  kernelAssert (negb (bool_decide (value = js "-0"))) INVALID_ARGUMENT_ENCODING ≫= λ _,
  int64_bigint (bigint_of value).

Definition checked (value : Z) : result KernelErrorCode Z :=
  kernelAssert (in_int64 value) NUMERIC_OVERFLOW ≫= λ _, Ok value.

Definition int64Add (a b : Z) : result KernelErrorCode Z := checked (a + b).
Definition int64Sub (a b : Z) : result KernelErrorCode Z := checked (a - b).
Definition int64Mul (a b : Z) : result KernelErrorCode Z := checked (a * b).

(** Division and remainder of bigints truncate toward zero. *)
Definition int64Div (a b : Z) : result KernelErrorCode Z :=
  kernelAssert (negb (b =? 0)) DIVISION_BY_ZERO ≫= λ _,
  kernelAssert (negb ((a =? INT64_MIN) && (b =? -1))) NUMERIC_OVERFLOW ≫= λ _,
  Ok (Z.quot a b).

Definition int64Rem (a b : Z) : result KernelErrorCode Z :=
  kernelAssert (negb (b =? 0)) DIVISION_BY_ZERO ≫= λ _,
  Ok (Z.rem a b).

Definition int64Neg (a : Z) : result KernelErrorCode Z :=
  kernelAssert (negb (a =? INT64_MIN)) NUMERIC_OVERFLOW ≫= λ _, Ok (- a).

Definition int64Abs (a : Z) : result KernelErrorCode Z := if a <? 0 then int64Neg a else Ok a.

Definition int64ShiftLeft (a bits : Z) : result KernelErrorCode Z :=
  kernelAssert ((0 <=? bits) && (bits <? 64)) INVALID_ARGUMENT_ENCODING ≫= λ _,
  checked (Z.shiftl a bits).

Definition int64ShiftRight (a bits : Z) : result KernelErrorCode Z :=
  kernelAssert ((0 <=? bits) && (bits <? 64)) INVALID_ARGUMENT_ENCODING ≫= λ _,
  Ok (Z.shiftr a bits).

Definition compareBigInt (a b : Z) : Z := if a <? b then -1 else if b <? a then 1 else 0.

(** ** Specification

    The mathematical result of an operation, or the code of an argument outside
    its domain. *)

Inductive int64_op := op_add | op_sub | op_mul | op_div | op_rem | op_neg | op_abs | op_shl | op_shr.

Definition int64_run (op : int64_op) (a b : Z) : result KernelErrorCode Z :=
  match op with
  | op_add => int64Add a b | op_sub => int64Sub a b | op_mul => int64Mul a b
  | op_div => int64Div a b | op_rem => int64Rem a b
  | op_neg => int64Neg a | op_abs => int64Abs a
  | op_shl => int64ShiftLeft a b | op_shr => int64ShiftRight a b
  end.

Definition int64_exact (op : int64_op) (a b : Z) : result KernelErrorCode Z :=
  match op with
  | op_add => Ok (a + b) | op_sub => Ok (a - b) | op_mul => Ok (a * b)
  | op_div => if decide (b = 0) then Err DIVISION_BY_ZERO else Ok (Z.sgn (a * b) * (Z.abs a / Z.abs b))
  | op_rem => if decide (b = 0) then Err DIVISION_BY_ZERO else Ok (Z.sgn a * (Z.abs a mod Z.abs b))
  | op_neg => Ok (- a) | op_abs => Ok (Z.abs a)
  | op_shl => if decide (0 ≤ b < 64) then Ok (a * 2 ^ b) else Err INVALID_ARGUMENT_ENCODING
  | op_shr => if decide (0 ≤ b < 64) then Ok (a / 2 ^ b) else Err INVALID_ARGUMENT_ENCODING
  end.

Lemma in_int64_spec z : in_int64 z = true ↔ INT64_MIN ≤ z ≤ INT64_MAX.
Proof. unfold in_int64. lia. Qed.

Lemma quot_sgn a b : b ≠ 0 → Z.quot a b = Z.sgn (a * b) * (Z.abs a / Z.abs b).
Proof. intros Hb. by rewrite Z.quot_div, Z.sgn_mul. Qed.

Lemma rem_sgn a b : b ≠ 0 → Z.rem a b = Z.sgn a * (Z.abs a mod Z.abs b).
Proof. intros Hb. by rewrite Z.rem_mod. Qed.

(** Only [INT64_MIN / -1] leaves the range. *)
Lemma div_range a b :
  b ≠ 0 → in_int64 a = true → in_int64 (Z.quot a b) = negb ((a =? INT64_MIN) && (b =? -1)).
Proof.
  intros Hb Ha. destruct (decide (b = -1)) as [->|Hn1].
  { replace (Z.quot a (-1)) with (- a) by (change (-1) with (- (1)); rewrite Z.quot_opp_r, Z.quot_1_r by done; done).
    rewrite andb_true_r. unfold in_int64, INT64_MIN, INT64_MAX in *. lia. }
  replace (b =? -1) with false by lia. rewrite andb_false_r. destruct (decide (b = 1)) as [->|H1].
  { by rewrite Z.quot_1_r. }
  apply in_int64_spec in Ha. apply in_int64_spec. rewrite quot_sgn by done.
  assert (0 ≤ Z.abs a / Z.abs b ≤ Z.abs a / 2) as Hq.
  { split; [apply Z.div_pos; lia|]. apply Z.div_le_compat_l; lia. }
  assert (Z.abs a / 2 * 2 ≤ Z.abs a) by (Z.to_euclidean_division_equations; lia).
  unfold INT64_MIN, INT64_MAX in *. destruct (Z.sgn_spec (a * b)) as [[_ ->]|[[_ ->]|[_ ->]]]; lia.
Qed.

Lemma rem_range a b : b ≠ 0 → in_int64 b = true → in_int64 (Z.rem a b) = true.
Proof.
  intros Hb Hr. apply in_int64_spec in Hr. apply in_int64_spec. pose proof (Z.rem_bound_abs a b Hb).
  unfold INT64_MIN, INT64_MAX in *. lia.
Qed.

Lemma shr_range a b : 0 ≤ b → in_int64 a = true → in_int64 (a / 2 ^ b) = true.
Proof.
  intros Hb Ha. apply in_int64_spec in Ha. apply in_int64_spec.
  assert (0 < 2 ^ b) by (by apply Z.pow_pos_nonneg). unfold INT64_MIN, INT64_MAX in *.
  split; [apply Z.div_le_lower_bound; [done|]; nia|]. apply Z.div_le_upper_bound; [done|]. nia.
Qed.

(** C39: Checked integer arithmetic is exact or fails: on 64-bit operands every
    operation returns the mathematical result when that fits in 64 bits,
    [NUMERIC_OVERFLOW] when it does not, and the operation's own error on a zero
    divisor or a shift out of range. *)
Theorem int64_exact_or_overflow (op : int64_op) (a b : Z) :
  in_int64 a = true → in_int64 b = true →
  int64_run op a b = (z ← int64_exact op a b; if in_int64 z then Ok z else Err NUMERIC_OVERFLOW).
Proof.
  intros Ha Hb. destruct op; cbn [int64_run int64_exact];
    unfold int64Add, int64Sub, int64Mul, int64Div, int64Rem, int64Abs, int64Neg, int64ShiftLeft, int64ShiftRight, checked, kernelAssert;
    cbn [mbind result_bind]; 
    try (match goal with |- ensure (in_int64 ?z) _ ≫= _ = _ => by destruct (in_int64 z) end).
  - case_decide as H0; [by subst|]. rewrite (proj2 (Z.eqb_neq b 0)) by done. cbn [ensure negb mbind result_bind].
    rewrite <-quot_sgn, div_range by done. by destruct (_ && _).
  - case_decide as H0; [by subst|]. rewrite (proj2 (Z.eqb_neq b 0)) by done. cbn [ensure negb mbind result_bind].
    by rewrite <-rem_sgn, rem_range.
  - replace (in_int64 (- a)) with (negb (a =? INT64_MIN)) by (unfold in_int64, INT64_MIN, INT64_MAX in *; lia).
    by destruct (a =? INT64_MIN).
  - destruct (Z.ltb_spec a 0).
    + rewrite Z.abs_neq by lia.
      replace (in_int64 (- a)) with (negb (a =? INT64_MIN)) by (unfold in_int64, INT64_MIN, INT64_MAX in *; lia).
      by destruct (a =? INT64_MIN).
    + by rewrite Z.abs_eq, Ha.
  - case_decide as H0.
    + rewrite (proj2 (Z.leb_le _ _)), (proj2 (Z.ltb_lt _ _)) by lia. cbn [ensure andb mbind result_bind].
      rewrite Z.shiftl_mul_pow2 by lia. by destruct (in_int64 (a * 2 ^ b)).
    + replace ((0 <=? b) && (b <? 64)) with false by lia. done.
  - case_decide as H0.
    + rewrite (proj2 (Z.leb_le _ _)), (proj2 (Z.ltb_lt _ _)) by lia. cbn [ensure andb mbind result_bind].
      by rewrite Z.shiftr_div_pow2, shr_range by (done || lia).
    + replace ((0 <=? b) && (b <? 64)) with false by lia. done.
Qed.

Lemma int64_exact_or_overflow_witness :
  int64_run op_div INT64_MIN (-1) = Err NUMERIC_OVERFLOW ∧ int64_run op_rem (-7) 2 = Ok (-1).
Proof.
  split.
  - rewrite (int64_exact_or_overflow op_div INT64_MIN (-1)) by reflexivity. reflexivity.
  - rewrite (int64_exact_or_overflow op_rem (-7) 2) by reflexivity. reflexivity.
Defined.

(** ** Texts *)

Lemma unsigned_integer c l :
  c ≠ 45 → canonical_integer (c :: l) = canonical_natural (c :: l) ∧ bigint_of (c :: l) = digits_value (c :: l).
Proof. intros Hc. unfold canonical_integer, bigint_of. split; repeat (case_match; try done). Qed.

Lemma canonical_integer_decimal s :
  canonical_integer s = true → s ≠ js "-0" → js_decimal (bigint_of s) = s.
Proof.
  intros Hs Hz. destruct s as [|c l]; [done|]. destruct (decide (c = 45)) as [->|Hc].
  2:{ destruct (unsigned_integer c l Hc) as [H1 ->]. rewrite H1 in Hs. by apply js_decimal_canonical. }
  cbn [canonical_integer bigint_of] in *. pose proof (js_decimal_canonical l Hs) as Hl.
  pose proof (digits_value_nonneg _ (canonical_natural_digits _ Hs)).
  assert (digits_value l ≠ 0) by (intros H0; rewrite H0 in Hl; vm_compute in Hl; by subst l).
  unfold js_decimal in *. rewrite (proj2 (Z.ltb_ge (digits_value l) 0)) in Hl by lia.
  rewrite (proj2 (Z.ltb_lt _ _)) by lia. by rewrite Z.opp_involutive, Hl.
Qed.

Lemma digits_head_not_minus n : 0 ≤ n → ∃ c l, js_decimal n = c :: l ∧ c ≠ 45.
Proof.
  intros Hn. destruct (js_decimal_nonneg n Hn) as (_ & Hd & Hne). destruct (js_decimal n) as [|c l]; [done|].
  exists c, l. split; [done|]. cbn [forallb] in Hd. apply andb_true_iff in Hd as [Hc _]. unfold is_digit in Hc. lia.
Qed.

Lemma js_decimal_integer z :
  canonical_integer (js_decimal z) = true ∧ bigint_of (js_decimal z) = z ∧ js_decimal z ≠ js "-0".
Proof.
  destruct (Z.lt_ge_cases z 0) as [Hz|Hz].
  - assert (js_decimal z = 45 :: js_decimal (- z)) as Heq.
    { unfold js_decimal. rewrite (proj2 (Z.ltb_lt z 0)), (proj2 (Z.ltb_ge (- z) 0)) by lia. done. }
    rewrite Heq. cbn [canonical_integer bigint_of]. destruct (js_decimal_nonneg (- z)) as (Hv & _); [lia|].
    split_and!; [apply canonical_js_decimal; lia|lia|]. intros H.
    apply (f_equal (λ l, digits_value (tail l))) in H. cbn [tail] in H. rewrite Hv in H.
    change (digits_value (tail (js "-0"))) with 0 in H. lia.
  - destruct (digits_head_not_minus z Hz) as (c & l & Heq & Hc). pose proof (canonical_js_decimal z Hz) as Hcan.
    destruct (js_decimal_nonneg z Hz) as (Hv & _). rewrite Heq in *.
    destruct (unsigned_integer c l Hc) as [-> ->].
    split_and!; [done|done|]. intros [= -> _]. done.
Qed.

(** A text is read as a 64-bit integer exactly when it is the decimal notation
    of one, so every value has one accepted text and printing it gives that text. *)
Theorem int64_text_canonical (text : jsstring) (z : Z) :
  int64_string text = Ok z ↔ in_int64 z = true ∧ text = js_decimal z.
Proof.
  unfold int64_string, int64_bigint, kernelAssert. split.
  - intros H. inv_ok. rewrite negb_true_iff, bool_decide_eq_false in *. subst z. split; [done|].
    by rewrite canonical_integer_decimal.
  - intros [Hz ->]. destruct (js_decimal_integer z) as (H1 & H2 & H3). rewrite H1, bool_decide_eq_false_2, H2, Hz by done.
    done.
Qed.
