(* ===== verification/Decimal.v ===== *)
(** * Exact decimals: [packages/kernels/src/decimal.ts]

    A decimal is a coefficient and a number of fractional digits.  Powers of ten
    come from a table shared by all calls; [pow10_memo] is that table, [pow10]
    what it returns. *)

From Stdlib Require Import Strings.String QArith.
From stdpp Require Import base list option numbers.
From S2P Require Import Prelude Bytes JsNumber Int64.

#[local] Open Scope Z_scope.

Record Decimal := mkDecimal { coefficient : Z; scale : Z }.

Inductive RoundingMode := exact | toward_zero | floor | ceiling | half_up | half_down | half_even.

(** ** Powers of ten *)

Definition MAX_POW10 : Z := 10000.

(** The loop that extends the table up to index [n]. *)
Fixpoint extend_pow10 (count : nat) (table : list Z) : list Z :=
  match count with
  | O => table
  | S count' => extend_pow10 count' (table ++ [default 1 (list.last table) * 10])
  end.

Definition pow10_memo (table : list Z) (n : Z) : list Z * result KernelErrorCode Z :=
  match kernelAssert (is_safe_integer n && (0 <=? n) && (n <=? MAX_POW10)) SEMANTIC_RESOURCE_LIMIT with
  | Err e => (table, Err e)
  | Ok _ =>
      let table' := extend_pow10 (Z.to_nat n + 1 - length table) table in
      (table', Ok (default 0 (table' !! Z.to_nat n)))
  end.

Definition pow10 (n : Z) : result KernelErrorCode Z :=
  kernelAssert (is_safe_integer n && (0 <=? n) && (n <=? MAX_POW10)) SEMANTIC_RESOURCE_LIMIT ≫= λ _, Ok (10 ^ n).

(** ** Operations

    The difference of two scales is exact; a sum of two is rounded as doubles are. *)

Definition decimal (coefficient scale : Z) : result KernelErrorCode Decimal :=
  kernelAssert (is_safe_integer scale && (0 <=? scale)) INVALID_ARGUMENT_ENCODING ≫= λ _,
  Ok (mkDecimal coefficient scale).

(** The longest prefix of digits and the rest. *)
Fixpoint span_digits (text : jsstring) : jsstring * jsstring :=
  match text with
  | c :: rest => if is_digit c then let (ds, r) := span_digits rest in (c :: ds, r) else ([], text)
  | [] => ([], [])
  end.

(** The groups of the regular expression: sign, integer part, fraction. *)
Definition split_sign (text : jsstring) : bool * jsstring :=
  match text with
  | c :: rest => if c =? 45 then (true, rest) else (false, text)
  | [] => (false, [])
  end.

Definition match_fraction (rest : jsstring) : option (option jsstring) :=
  match rest with
  | [] => Some None
  | c :: fraction =>
      if (c =? 46) && negb (length fraction =? 0)%nat && forallb is_digit fraction then Some (Some fraction) else None
  end.

Definition match_decimal (text : jsstring) : option (bool * jsstring * option jsstring) :=
  let (negative, body) := split_sign text in
  let (integer, rest) := span_digits body in
  if negb (canonical_natural integer) then None else
  fraction ← match_fraction rest; Some (negative, integer, fraction).

Definition parseDecimal (text : jsstring) (declaredScale : option Z) : result KernelErrorCode Decimal :=
  match match_decimal text with
  | None => Err INVALID_ARGUMENT_ENCODING
  | Some (negative, integer, fraction) =>
      kernelAssert (negb (bool_decide (text = js "-0"))) INVALID_ARGUMENT_ENCODING ≫= λ _,
      let fraction := default [] fraction in
      let scale := default (Z.of_nat (length fraction)) declaredScale in
      kernelAssert (Z.of_nat (length fraction) <=? scale) DECIMAL_RESCALE_REQUIRED ≫= λ _,
      let sign := if (negative : bool) then -1 else 1 in
      decimal (sign * digits_value (integer ++ fraction ++ replicate (Z.to_nat scale - length fraction) 48)) scale
  end.

Definition pad_start (width : nat) (text : jsstring) : jsstring := replicate (width - length text) 48 ++ text.

(** [text.replace(/0+$/, '')] *)
Fixpoint strip_zeros (text : jsstring) : jsstring :=
  match text with
  | [] => []
  | c :: rest =>
      match strip_zeros rest with
      | [] => if c =? 48 then [] else [c]
      | rest' => c :: rest'
      end
  end.

(** [text.replace(/\.$/, '')] *)
Definition strip_dot (text : jsstring) : jsstring :=
  match list.last text with
  | Some 46 => take (length text - 1) text
  | _ => text
  end.

Definition formatDecimal (value : Decimal) (preserveScale : bool) : jsstring :=
  let negative := coefficient value <? 0 in
  let digits := pad_start (Z.to_nat (scale value + 1))
    (js_decimal (if negative then - coefficient value else coefficient value)) in
  let split := (length digits - Z.to_nat (scale value))%nat in
  let result := if scale value =? 0 then digits else take split digits ++ js "." ++ drop split digits in
  let result := if negb preserveScale && bool_decide (46 ∈ result) then strip_dot (strip_zeros result) else result in
  if negative && negb (coefficient value =? 0) then js "-" ++ result else result.

Definition common (a b : Decimal) : result KernelErrorCode (Z * Z * Z) :=
  let s := Z.max (scale a) (scale b) in
  pa ← pow10 (s - scale a);
  pb ← pow10 (s - scale b);
  Ok (coefficient a * pa, coefficient b * pb, s).

Definition compareDecimal (a b : Decimal) : result KernelErrorCode Z :=
  '(ac, bc, _) ← common a b; Ok (compareBigInt ac bc).

Definition decimalAdd (a b : Decimal) : result KernelErrorCode Decimal :=
  '(ac, bc, s) ← common a b; decimal (ac + bc) s.

Definition decimalSub (a b : Decimal) : result KernelErrorCode Decimal :=
  '(ac, bc, s) ← common a b; decimal (ac - bc) s.

Definition decimalMul (a b : Decimal) : result KernelErrorCode Decimal :=
  decimal (coefficient a * coefficient b) (js_add (scale a) (scale b)).

Definition roundedQuotient (numerator denominator : Z) (mode : RoundingMode) : result KernelErrorCode Z :=
  kernelAssert (negb (denominator =? 0)) DIVISION_BY_ZERO ≫= λ _,
  let q := Z.quot numerator denominator in
  let r := Z.rem numerator denominator in
  if r =? 0 then Ok q else
  let sameSign := Bool.eqb (numerator <? 0) (denominator <? 0) in
  let away := if sameSign then 1 else -1 in
  let twiceRemainder := (if r <? 0 then - r else r) * 2 in
  let absDenominator := if denominator <? 0 then - denominator else denominator in
  let nearest tie :=
    if twiceRemainder <? absDenominator then Ok q
    else if absDenominator <? twiceRemainder then Ok (q + away)
    else Ok (if (tie : bool) then q + away else q) in
  match mode with
  | exact => Err DECIMAL_RESCALE_REQUIRED
  | toward_zero => Ok q
  | floor => Ok (if sameSign then q else q - 1)
  | ceiling => Ok (if sameSign then q + 1 else q)
  | half_up => nearest true
  | half_down => nearest false
  | half_even => nearest (negb (Z.rem q 2 =? 0))
  end.

Definition decimalRescale (value : Decimal) (s : Z) (mode : RoundingMode) : result KernelErrorCode Decimal :=
  kernelAssert (is_safe_integer s && (0 <=? s)) INVALID_ARGUMENT_ENCODING ≫= λ _,
  if scale value <=? s
  then p ← pow10 (s - scale value); decimal (coefficient value * p) s
  else p ← pow10 (scale value - s); q ← roundedQuotient (coefficient value) p mode; decimal q s.

Definition decimalDiv (a b : Decimal) (resultScale : Z) (mode : RoundingMode) : result KernelErrorCode Decimal :=
  kernelAssert (negb (coefficient b =? 0)) DIVISION_BY_ZERO ≫= λ _,
  let exponent := js_sub (js_add resultScale (scale b)) (scale a) in
  numerator ← (if 0 <=? exponent then p ← pow10 exponent; Ok (coefficient a * p) else Ok (coefficient a));
  denominator ← (if 0 <=? exponent then Ok (coefficient b) else p ← pow10 (- exponent); Ok (coefficient b * p));
  q ← roundedQuotient numerator denominator mode;
  decimal q resultScale.

Definition decimalRem (a b : Decimal) : result KernelErrorCode Decimal :=
  '(ac, bc, s) ← common a b;
  kernelAssert (negb (bc =? 0)) DIVISION_BY_ZERO ≫= λ _,
  decimal (Z.rem ac bc) s.

Definition decimalSum (values : list Decimal) : result KernelErrorCode Decimal :=
  match values with
  | [] => decimal 0 0
  | first :: rest => foldR decimalAdd first rest
  end.

Definition assertDecimalPrecision (value : Decimal) (precision : Z) : result KernelErrorCode Decimal :=
  kernelAssert (is_safe_integer precision && (0 <? precision)) INVALID_ARGUMENT_ENCODING ≫= λ _,
  let digits := length (js_decimal (if coefficient value <? 0 then - coefficient value else coefficient value)) in
  kernelAssert (Z.of_nat digits <=? precision) NUMERIC_OVERFLOW ≫= λ _,
  Ok value.

(** ** The table of powers *)

Definition pow10_table (table : list Z) : Prop := table ≠ [] ∧ ∀ i x, table !! i = Some x → x = 10 ^ Z.of_nat i.

Lemma extend_pow10_ok count table :
  pow10_table table → pow10_table (extend_pow10 count table) ∧ length (extend_pow10 count table) = (length table + count)%nat.
Proof.
  revert table. induction count as [|count IH]; intros table Ht; [split; [done|simpl; lia]|]. cbn [extend_pow10].
  destruct (IH (table ++ [default 1 (list.last table) * 10])) as [H1 H2].
  - destruct Ht as [Hne Ht]. split; [by destruct table|]. intros i x. rewrite lookup_app_Some.
    intros [Hi|[Hi Hx]]; [by apply Ht|]. apply list_lookup_singleton_Some in Hx as [Hx <-].
    rewrite last_lookup. destruct table as [|y table]; [done|]. cbn [length] in *.
    destruct (lookup_lt_is_Some_2 (y :: table) (length table)) as [z Hz]; [simpl; lia|].
    cbn [pred]. rewrite Hz. cbn [default from_option id]. apply Ht in Hz as ->.
    replace i with (S (length table)) by (cbn [length] in *; lia). rewrite Nat2Z.inj_succ, Z.pow_succ_r by lia. lia.
  - split; [done|]. rewrite H2, length_app. simpl. lia.
Qed.

(** The table never changes what a call returns. *)
Lemma pow10_memo_ok table n :
  pow10_table table → pow10_table (pow10_memo table n).1 ∧ (pow10_memo table n).2 = pow10 n.
Proof.
  intros Ht. unfold pow10_memo, pow10, kernelAssert. destruct (_ && _) eqn:Hn; cbn [ensure mbind result_bind]; [|done].
  destruct (extend_pow10_ok (Z.to_nat n + 1 - length table) table Ht) as [H1 H2]. split; [done|]. cbn [snd].
  destruct (lookup_lt_is_Some_2 (extend_pow10 (Z.to_nat n + 1 - length table) table) (Z.to_nat n)) as [x Hx]; [lia|].
  rewrite Hx. cbn [default from_option id]. apply H1 in Hx as ->. do 2 f_equal. lia.
Qed.

(** ** Rounding *)

(** [q] is [n / d] rounded in the given mode; halves are rounded away from zero
    by [half_up] and toward zero by [half_down]. *)
Definition rounds (mode : RoundingMode) (n d q : Z) : Prop :=
  let error := Z.abs (n - q * d) in
  match mode with
  | exact => n = q * d
  | toward_zero => error < Z.abs d ∧ Z.abs (q * d) ≤ Z.abs n ∧ 0 ≤ q * d * n
  | floor => q = n / d
  | ceiling => q = - (- n / d)
  | half_up => 2 * error ≤ Z.abs d ∧ (2 * error = Z.abs d → Z.abs n < Z.abs (q * d))
  | half_down => 2 * error ≤ Z.abs d ∧ (2 * error = Z.abs d → Z.abs (q * d) < Z.abs n)
  | half_even => 2 * error ≤ Z.abs d ∧ (2 * error = Z.abs d → Z.even q = true)
  end.

Lemma rem_two_even q : (Z.rem q 2 =? 0) = Z.even q.
Proof.
  rewrite Zeven_mod. pose proof (Z.rem_mod q 2). destruct (Z.eqb_spec (Z.rem q 2) 0), (Z.eqb_spec (q mod 2) 0);
    try done; exfalso; Z.to_euclidean_division_equations; lia.
Qed.

Lemma rounded_q_cases n d :
  d ≠ 0 → Z.rem n d ≠ 0 →
  let q := Z.quot n d in let r := Z.rem n d in
  n = q * d + r ∧ Z.abs r < Z.abs d ∧
  ((0 < n ∧ 0 < d ∧ 0 ≤ q ∧ 0 < r) ∨ (n < 0 ∧ d < 0 ∧ 0 ≤ q ∧ r < 0) ∨
   (n < 0 ∧ 0 < d ∧ q ≤ 0 ∧ r < 0) ∨ (0 < n ∧ d < 0 ∧ q ≤ 0 ∧ 0 < r)).
Proof.
  intros Hd Hr. cbv zeta. pose proof (Z.quot_rem' n d). pose proof (Z.rem_bound_abs n d Hd). pose proof (Z.rem_sign_nz n d Hd Hr).
  set (q := Z.quot n d) in *. set (r := Z.rem n d) in *. split; [lia|]. split; [done|].
  assert (n ≠ 0) by (intros ->; apply Hr; unfold r; by rewrite Z.rem_0_l).
  destruct (Z.lt_ge_cases 0 n), (Z.lt_ge_cases 0 d).
  - left. repeat split; try lia. nia.
  - do 3 right. repeat split; try lia. nia.
  - right; right; left. repeat split; try lia. nia.
  - right; left. repeat split; try lia. nia.
Qed.

(** The four sign cases of a quotient with a remainder, each mode in each case. *)
Lemma rounds_inexact n d q r mode :
  n = q * d + r → Z.abs r < Z.abs d →
  (0 < n ∧ 0 < d ∧ 0 ≤ q ∧ 0 < r) ∨ (n < 0 ∧ d < 0 ∧ 0 ≤ q ∧ r < 0) ∨
   (n < 0 ∧ 0 < d ∧ q ≤ 0 ∧ r < 0) ∨ (0 < n ∧ d < 0 ∧ q ≤ 0 ∧ 0 < r) →
  let away := if Bool.eqb (n <? 0) (d <? 0) then 1 else -1 in
  let twice := (if r <? 0 then - r else r) * 2 in
  let den := if d <? 0 then - d else d in
  match mode with
  | exact => True
  | toward_zero => rounds toward_zero n d q
  | floor => rounds floor n d (if Bool.eqb (n <? 0) (d <? 0) then q else q - 1)
  | ceiling => rounds ceiling n d (if Bool.eqb (n <? 0) (d <? 0) then q + 1 else q)
  | _ => (twice < den → rounds mode n d q) ∧ (den < twice → rounds mode n d (q + away)) ∧
         (twice = den → rounds mode n d (if match mode with half_up => true | half_down => false | _ => negb (Z.even q) end
                                         then q + away else q))
  end.
Proof.
  intros Hn Hr Hcases. cbv zeta.
  assert (Z.even (q + 1) = negb (Z.even q) ∧ Z.even (q + -1) = negb (Z.even q)) as [Hev1 Hev2].
  { split; rewrite Z.even_add; by destruct (Z.even q). }
  destruct Hcases as [(H1 & H2 & H3 & H4)|[(H1 & H2 & H3 & H4)|[(H1 & H2 & H3 & H4)|(H1 & H2 & H3 & H4)]]];
    [rewrite !(proj2 (Z.ltb_ge _ _)) by lia
    |rewrite !(proj2 (Z.ltb_lt _ _)) by lia
    |rewrite (proj2 (Z.ltb_lt n _)), (proj2 (Z.ltb_lt r _)), (proj2 (Z.ltb_ge d _)) by lia
    |rewrite (proj2 (Z.ltb_ge n _)), (proj2 (Z.ltb_ge r _)), (proj2 (Z.ltb_lt d _)) by lia];
    simpl Bool.eqb; cbn iota.
  all: [> assert (0 ≤ q * d) as Hqd by nia | assert (q * d ≤ 0) as Hqd by nia
        | assert (q * d ≤ 0) as Hqd by nia | assert (0 ≤ q * d) as Hqd by nia].
  (* Halves to even: the neighbour of an odd quotient is even. *)
  all: destruct mode; unfold rounds;
    try (split_and!; [lia|lia|]; destruct (Z.even q) eqn:He; simpl negb in *; cbn iota; intros Ht;
      (split; [lia|intros _; done])).
  all: try (split_and!; lia).
  all: try done.
  - apply (Z.div_unique n d q r); lia.
  - enough (- (q + 1) = - n / d) by lia. apply (Z.div_unique (- n) d (- (q + 1)) (d - r)); lia.
  - apply (Z.div_unique n d q r); lia.
  - enough (- (q + 1) = - n / d) by lia. apply (Z.div_unique (- n) d (- (q + 1)) (d - r)); lia.
  - apply (Z.div_unique n d (q - 1) (d + r)); lia.
  - enough (- q = - n / d) by lia. apply (Z.div_unique (- n) d (- q) (- r)); lia.
  - apply (Z.div_unique n d (q - 1) (d + r)); lia.
  - enough (- q = - n / d) by lia. apply (Z.div_unique (- n) d (- q) (- r)); lia.
Qed.

Lemma rounds_exact q d mode : d ≠ 0 → rounds mode (q * d) d q.
Proof.
  intros Hd. destruct mode; unfold rounds; try done; try (split_and!; lia).
  - split_and!; [lia|lia|apply Z.square_nonneg].
  - by rewrite Z.div_mul.
  - rewrite <-Z.mul_opp_l, Z.div_mul by done. lia.
Qed.

Lemma roundedQuotient_rounds n d mode q : roundedQuotient n d mode = Ok q → d ≠ 0 ∧ rounds mode n d q.
Proof.
  unfold roundedQuotient, kernelAssert. intros H. inv_ok. rewrite negb_true_iff, Z.eqb_neq in *.
  rename select (d ≠ 0) into Hd. split; [done|]. destruct (Z.eqb_spec (Z.rem n d) 0) as [Hr|Hr].
  - inv_ok. subst q. rewrite (Z.quot_rem' n d) at 1. rewrite Hr, Z.add_0_r, Z.mul_comm. by apply rounds_exact.
  - destruct (rounded_q_cases n d Hd Hr) as (H1 & H2 & H3).
    pose proof (rounds_inexact n d (Z.quot n d) (Z.rem n d) mode H1 H2 H3) as Hspec. cbv zeta in Hspec, H.
    destruct mode; try (inv_ok; by subst q); rewrite ?rem_two_even in H; destruct Hspec as (S1 & S2 & S3);
      (destruct (Z.ltb_spec ((if Z.rem n d <? 0 then - Z.rem n d else Z.rem n d) * 2) (if d <? 0 then - d else d));
        [inv_ok; subst q; by apply S1|]);
      (destruct (Z.ltb_spec (if d <? 0 then - d else d) ((if Z.rem n d <? 0 then - Z.rem n d else Z.rem n d) * 2));
        inv_ok; subst q; [by apply S2|apply S3; lia]).
Qed.

(** It succeeds, in the mode [exact] if there is nothing to round. *)
Lemma roundedQuotient_total n d mode : d ≠ 0 → (∃ q, roundedQuotient n d mode = Ok q) ↔ (mode = exact → (d | n)).
Proof.
  intros Hd. unfold roundedQuotient, kernelAssert. rewrite (proj2 (Z.eqb_neq d 0)) by done.
  cbn [negb ensure mbind result_bind]. destruct (Z.eqb_spec (Z.rem n d) 0) as [Hr|Hr].
  - split; [intros _ _; by apply Z.rem_divide|by eexists].
  - destruct mode; cbn iota zeta.
    + split; [by intros [q ?]|]. intros H. destruct Hr. apply Z.rem_divide; [done|by apply H].
    + by split; [|eexists].
    + by split; [|eexists].
    + by split; [|eexists].
    + split; [done|]. intros _. repeat case_match; by eexists.
    + split; [done|]. intros _. repeat case_match; by eexists.
    + split; [done|]. intros _. repeat case_match; by eexists.
Qed.

(** Rounding depends on the quotient only. *)
Lemma rounds_scale mode n d q k : 0 < k → rounds mode n d q → rounds mode (n * k) (d * k) q.
Proof.
  intros Hk. assert (∀ x, Z.abs (x * k) = Z.abs x * k) as Habs by (intros; nia).
  unfold rounds. replace (n * k - q * (d * k)) with ((n - q * d) * k) by ring.
  replace (q * (d * k)) with (q * d * k) by ring. rewrite !Habs.
  destruct mode.
  - intros ->. ring.
  - intros (H1 & H2 & H3). split_and!; [nia|nia|]. replace (q * d * k * (n * k)) with (q * d * n * (k * k)) by ring. nia.
  - intros ->. destruct (decide (d = 0)) as [->|]; [by rewrite !Z.div_0_r|]. by rewrite Z.div_mul_cancel_r by lia.
  - intros ->. rewrite <-Z.mul_opp_l. destruct (decide (d = 0)) as [->|]; [by rewrite !Z.div_0_r|].
    by rewrite Z.div_mul_cancel_r by lia.
  - intros [H1 H2]. split; [nia|]. intros H. cut (Z.abs n < Z.abs (q * d)); [nia|]. apply H2. nia.
  - intros [H1 H2]. split; [nia|]. intros H. cut (Z.abs (q * d) < Z.abs n); [nia|]. apply H2. nia.
  - intros [H1 H2]. split; [nia|]. intros H. apply H2. nia.
Qed.
