(* ===== verification/DecimalTheorems.v ===== *)
(** * Theorems on exact decimals

    Addition, subtraction, multiplication and comparison are those of the rational
    numbers, division and rescaling round as their mode says, and the text of a
    decimal reads back.  A division of decimals with very large scales is wrong. *)

From Stdlib Require Import Strings.String QArith.
From stdpp Require Import base list option numbers.
From S2P Require Import Prelude Bytes JsNumber Int64 Decimal.

#[local] Open Scope Z_scope.

(** The number a decimal denotes. *)
Definition decimal_Q (d : Decimal) : Q := coefficient d # Z.to_pos (10 ^ scale d).

Definition decimal_ok (d : Decimal) : Prop := 0 ≤ scale d ≤ MAX_SAFE_INTEGER.

Lemma pow10_Ok n p : pow10 n = Ok p → 0 ≤ n ≤ MAX_POW10 ∧ p = 10 ^ n.
Proof. unfold pow10, kernelAssert. intros H. inv_ok. lia. Qed.

Ltac inv_pow10 := repeat match goal with H : pow10 _ = Ok _ |- _ => apply pow10_Ok in H as [? ->] end.

Lemma pow10_total n : 0 ≤ n ≤ MAX_POW10 → pow10 n = Ok (10 ^ n).
Proof.
  intros Hn. unfold pow10, kernelAssert. replace (is_safe_integer n) with true by (unfold is_safe_integer, MAX_SAFE_INTEGER, MAX_POW10 in *; lia).
  by rewrite (proj2 (Z.leb_le 0 n)), (proj2 (Z.leb_le n _)) by lia.
Qed.

Lemma decimal_Ok c s d : decimal c s = Ok d → d = mkDecimal c s ∧ decimal_ok d.
Proof. unfold decimal, kernelAssert, is_safe_integer, decimal_ok. intros H. inv_ok. subst. cbn [scale]. split; [done|lia]. Qed.

Lemma decimal_total c s : 0 ≤ s ≤ MAX_SAFE_INTEGER → decimal c s = Ok (mkDecimal c s).
Proof.
  intros Hs. unfold decimal, kernelAssert, is_safe_integer. rewrite (proj2 (Z.leb_le _ _)), (proj2 (Z.leb_le _ _)) by lia. done.
Qed.

Lemma common_Ok a b ac bc s :
  common a b = Ok (ac, bc, s) → decimal_ok a → decimal_ok b →
  s = Z.max (scale a) (scale b) ∧ decimal_Q a == ac # Z.to_pos (10 ^ s) ∧ decimal_Q b == bc # Z.to_pos (10 ^ s).
Proof.
  unfold common. intros H Ha Hb. inv_ok. inv_pow10.
  injection H as <- <- <-. unfold decimal_ok in *. split; [done|].
  assert (∀ d, decimal_ok d → scale d ≤ Z.max (scale a) (scale b) →
    decimal_Q d == coefficient d * 10 ^ (Z.max (scale a) (scale b) - scale d) # Z.to_pos (10 ^ Z.max (scale a) (scale b))) as Hd.
  { intros d Hd Hle. unfold decimal_Q, Qeq. cbn [Qnum Qden]. unfold decimal_ok in Hd.
    rewrite !Z2Pos.id by (apply Z.pow_pos_nonneg; lia). rewrite <-Z.mul_assoc, <-Z.pow_add_r by lia. do 2 f_equal. lia. }
  split; apply Hd; unfold decimal_ok; lia.
Qed.

Lemma Q_same_den n m d : (n # d) + (m # d) == (n + m)%Z # d.
Proof. unfold Qeq. cbn. lia. Qed.

Lemma Q_same_den_sub n m d : (n # d) - (m # d) == (n - m)%Z # d.
Proof. unfold Qeq. cbn. lia. Qed.

Lemma common_total a b :
  decimal_ok a → decimal_ok b → Z.abs (scale a - scale b) ≤ MAX_POW10 →
  ∃ ac bc, common a b = Ok (ac, bc, Z.max (scale a) (scale b)).
Proof.
  unfold decimal_ok. intros Ha Hb Hs. unfold common. rewrite !pow10_total by lia. cbn [mbind result_bind]. eauto.
Qed.

Lemma decimalAdd_exact a b c :
  decimalAdd a b = Ok c → decimal_ok a → decimal_ok b → decimal_ok c ∧ decimal_Q c == decimal_Q a + decimal_Q b.
Proof.
  unfold decimalAdd. intros H Ha Hb. destruct (common a b) as [[[ac bc] s]|] eqn:H0; [|done].
  cbn [mbind result_bind] in H. apply common_Ok in H0 as (-> & HQa & HQb); [|done..].
  apply decimal_Ok in H as [-> Hok]. split; [done|]. rewrite HQa, HQb. by rewrite Q_same_den.
Qed.

Lemma decimalSub_exact a b c :
  decimalSub a b = Ok c → decimal_ok a → decimal_ok b → decimal_Q c == decimal_Q a - decimal_Q b.
Proof.
  unfold decimalSub. intros H Ha Hb. destruct (common a b) as [[[ac bc] s]|] eqn:H0; [|done].
  cbn [mbind result_bind] in H. apply common_Ok in H0 as (-> & HQa & HQb); [|done..].
  apply decimal_Ok in H as [-> Hok]. rewrite HQa, HQb. by rewrite Q_same_den_sub.
Qed.

(** A sum of scales that is safe is exact, and one that is not is found not to be. *)
Lemma js_add_safe s t : 0 ≤ s → 0 ≤ t → js_add s t ≤ MAX_SAFE_INTEGER ∨ s + t ≤ MAX_SAFE_INTEGER → js_add s t = s + t.
Proof.
  intros Hs Ht H. unfold js_add in *. apply round_double_exact. destruct (Z.le_gt_cases (2 ^ 53) (s + t)) as [Hge|]; [|lia].
  pose proof (round_double_large _ Hge). unfold MAX_SAFE_INTEGER in *. lia.
Qed.

Lemma decimalMul_exact a b c :
  decimalMul a b = Ok c → decimal_ok a → decimal_ok b → decimal_Q c == decimal_Q a * decimal_Q b.
Proof.
  unfold decimalMul. intros [-> Hok]%decimal_Ok Ha Hb.
  unfold decimal_ok in *. cbn [scale] in Hok. rewrite js_add_safe in * by lia. unfold decimal_ok, decimal_Q, Qeq, Qmult in *. cbn [Qnum Qden coefficient scale] in *.
  rewrite Pos2Z.inj_mul, !Z2Pos.id by (apply Z.pow_pos_nonneg; lia). by rewrite Z.pow_add_r by lia.
Qed.

Lemma compareDecimal_exact a b z :
  compareDecimal a b = Ok z → decimal_ok a → decimal_ok b →
  z = match (decimal_Q a ?= decimal_Q b)%Q with Lt => -1 | Eq => 0 | Gt => 1 end.
Proof.
  unfold compareDecimal. intros H Ha Hb. destruct (common a b) as [[[ac bc] s]|] eqn:H0; [|done].
  cbn [mbind result_bind] in H. apply common_Ok in H0 as (-> & HQa & HQb); [|done..].
  inv_ok. subst z. rewrite (Qcompare_comp _ _ HQa _ _ HQb). unfold Qcompare, compareBigInt. cbn [Qnum Qden].
  set (p := Z.to_pos _).
  destruct (Z.compare_spec (ac * Z.pos p) (bc * Z.pos p)), (Z.ltb_spec ac bc); try nia; destruct (Z.ltb_spec bc ac); nia.
Qed.

Lemma decimalSum_exact values c :
  decimalSum values = Ok c → Forall decimal_ok values →
  decimal_Q c == foldr (λ d q, decimal_Q d + q)%Q 0%Q values.
Proof.
  unfold decimalSum. destruct values as [|v values]; [intros [-> _]%decimal_Ok _; done|].
  intros H Hok. inversion_clear Hok as [|?? Hv Hvs]. cbn [foldr]. revert v Hv H. 
  induction Hvs as [|w values Hw Hvs IH]; intros v Hv H; cbn [foldR] in H; inv_ok.
  - subst. cbn [foldr]. by rewrite Qplus_0_r.
  - apply decimalAdd_exact in H0 as [Hx HQ]; [|done..]. rewrite (IH x Hx H), HQ. cbn [foldr]. by rewrite Qplus_assoc.
Qed.

(** Addition, subtraction, multiplication, comparison and summation of decimals
    are those of the rational numbers they denote, and they succeed whenever the
    scales are at most 10000 digits apart (and stay safe integers). *)
Theorem decimal_arithmetic_exact (a b : Decimal) (values : list Decimal) :
  decimal_ok a → decimal_ok b → Forall decimal_ok values →
  (∀ c, decimalAdd a b = Ok c → decimal_Q c == decimal_Q a + decimal_Q b)%Q ∧
  (∀ c, decimalSub a b = Ok c → decimal_Q c == decimal_Q a - decimal_Q b)%Q ∧
  (∀ c, decimalMul a b = Ok c → decimal_Q c == decimal_Q a * decimal_Q b)%Q ∧
  (∀ c, decimalSum values = Ok c → decimal_Q c == foldr (λ d q, decimal_Q d + q) 0 values)%Q ∧
  (∀ z, compareDecimal a b = Ok z → z = match (decimal_Q a ?= decimal_Q b)%Q with Lt => -1 | Eq => 0 | Gt => 1 end) ∧
  (Z.abs (scale a - scale b) ≤ MAX_POW10 →
    (∃ c, decimalAdd a b = Ok c) ∧ (∃ c, decimalSub a b = Ok c) ∧ (∃ z, compareDecimal a b = Ok z)) ∧
  (scale a + scale b ≤ MAX_SAFE_INTEGER → ∃ c, decimalMul a b = Ok c).
Proof.
  intros Ha Hb Hvs. split_and!.
  - intros c H. by apply decimalAdd_exact.
  - intros c H. by apply decimalSub_exact.
  - intros c H. by apply decimalMul_exact.
  - intros c H. by apply decimalSum_exact.
  - intros z H. by apply compareDecimal_exact.
  - intros Hs. destruct (common_total a b Ha Hb Hs) as (ac & bc & Hc). unfold decimal_ok in *.
    unfold decimalAdd, decimalSub, compareDecimal. rewrite Hc. cbn [mbind result_bind].
    split_and!; [eexists; apply decimal_total; lia..|eauto].
  - intros Hs. unfold decimal_ok, decimalMul in *. eexists. rewrite js_add_safe by lia. apply decimal_total. lia.
Qed.

Lemma decimal_arithmetic_exact_witness :
  decimalAdd (mkDecimal 15 1) (mkDecimal (-125) 2) = Ok (mkDecimal 25 2) ∧
  (decimal_Q (mkDecimal 25 2) == decimal_Q (mkDecimal 15 1) + decimal_Q (mkDecimal (-125) 2))%Q.
Proof.
  split; [vm_compute; reflexivity|].
  apply (decimal_arithmetic_exact (mkDecimal 15 1) (mkDecimal (-125) 2) []); [split; done|split; done|constructor|].
  vm_compute. reflexivity.
Defined.

(** ** Division and rescaling *)

Lemma decimalRescale_rounds v s mode c :
  decimalRescale v s mode = Ok c → decimal_ok v →
  scale c = s ∧ rounds mode (coefficient v * 10 ^ s) (10 ^ scale v) (coefficient c).
Proof.
  unfold decimalRescale, kernelAssert, decimal_ok. intros H Hv. inv_ok. rewrite andb_true_iff, Z.leb_le in *.
  destruct (Z.leb_spec (scale v) s); inv_ok.
  - inv_pow10. apply decimal_Ok in H as [-> _]. split; [done|]. cbn [coefficient].
    replace (10 ^ s) with (10 ^ (s - scale v) * 10 ^ scale v) by (rewrite <-Z.pow_add_r by lia; f_equal; lia).
    rewrite Z.mul_assoc. apply rounds_exact. assert (0 < 10 ^ scale v) by (apply Z.pow_pos_nonneg; lia). lia.
  - inv_pow10. apply decimal_Ok in H as [-> _]. split; [done|]. cbn [coefficient].
    rename select (roundedQuotient _ _ _ = _) into HQ. apply roundedQuotient_rounds in HQ as [_ HQ]. apply (rounds_scale _ _ _ _ (10 ^ s)) in HQ; [|apply Z.pow_pos_nonneg; lia].
    rewrite <-Z.pow_add_r in HQ by lia. by replace (scale v - s + s) with (scale v) in HQ by lia.
Qed.

(** The exponent of a division, when the first sum fits a double. *)
Lemma exponent_exact a b s : 0 ≤ scale a ≤ MAX_SAFE_INTEGER → 0 ≤ s → 0 ≤ scale b → s + scale b ≤ 2 ^ 53 →
  js_sub (js_add s (scale b)) (scale a) = s + scale b - scale a.
Proof. unfold js_sub, js_add, MAX_SAFE_INTEGER. intros. by rewrite (round_double_exact (s + _)), round_double_exact by lia. Qed.

Lemma decimalDiv_rounds a b s mode c :
  decimalDiv a b s mode = Ok c → decimal_ok a → decimal_ok b → s + scale b ≤ 2 ^ 53 →
  coefficient b ≠ 0 ∧ scale c = s ∧
  rounds mode (coefficient a * 10 ^ (s + scale b)) (coefficient b * 10 ^ scale a) (coefficient c).
Proof.
  unfold decimalDiv, kernelAssert, decimal_ok. intros H Ha Hb Hfit. inv_ok. rewrite negb_true_iff, Z.eqb_neq in *.
  apply decimal_Ok in H as [-> Hok]. unfold decimal_ok in Hok. cbn [scale coefficient] in *. split_and!; [done|done|].
  rename select (roundedQuotient _ _ _ = _) into HQ. apply roundedQuotient_rounds in HQ as [_ HQ].
  rewrite exponent_exact in * by lia.
  destruct (Z.leb_spec 0 (s + scale b - scale a)); inv_ok; subst.
  - inv_pow10.
    apply (rounds_scale _ _ _ _ (10 ^ scale a)) in HQ; [|apply Z.pow_pos_nonneg; lia].
    rewrite <-Z.mul_assoc, <-Z.pow_add_r in HQ by lia. by replace (s + scale b - scale a + scale a) with (s + scale b) in HQ by lia.
  - inv_pow10.
    apply (rounds_scale _ _ _ _ (10 ^ (s + scale b))) in HQ; [|apply Z.pow_pos_nonneg; lia].
    rewrite <-(Z.mul_assoc (coefficient b)), <-Z.pow_add_r in HQ by lia.
    by replace (- (s + scale b - scale a) + (s + scale b)) with (scale a) in HQ by lia.
Qed.

(** A common power of ten changes nothing about divisibility. *)
Lemma divide_pow10 (d n k : Z) : 0 ≤ k → (d | n) ↔ (d * 10 ^ k | n * 10 ^ k).
Proof. intros Hk. symmetry. apply Z.mul_divide_cancel_r. apply Z.pow_nonzero; lia. Qed.

Lemma decimalRescale_succeeds a s mode : decimal_ok a → 0 ≤ s ≤ MAX_SAFE_INTEGER →
  (∃ c, decimalRescale a s mode = Ok c) ↔
  Z.abs (s - scale a) ≤ MAX_POW10 ∧ (mode = exact → (10 ^ scale a | coefficient a * 10 ^ s)).
Proof.
  unfold decimal_ok. intros Ha Hs. unfold decimalRescale, kernelAssert, is_safe_integer.
  rewrite (proj2 (Z.leb_le (Z.abs s) _)), (proj2 (Z.leb_le 0 s)) by lia. cbn [andb ensure mbind result_bind].
  destruct (Z.leb_spec (scale a) s).
  - split.
    + intros [c H1]. apply bind_Ok in H1 as (p & [Hp _]%pow10_Ok & _). split; [lia|]. intros _.
      exists (coefficient a * 10 ^ (s - scale a)). rewrite <-Z.mul_assoc, <-Z.pow_add_r by lia. do 2 f_equal. lia.
    + intros [Hp _]. rewrite pow10_total by lia. cbn [mbind result_bind]. eexists. by apply decimal_total.
  - assert (10 ^ (scale a - s) ≠ 0) as Hd by (apply Z.pow_nonzero; lia). pose proof (roundedQuotient_total (coefficient a) _ mode Hd) as Hq.
    rewrite (divide_pow10 (10 ^ (scale a - s)) _ s), <-Z.pow_add_r, Z.sub_add in Hq by lia. rewrite <-Hq. split.
    + intros [c H1]. apply bind_Ok in H1 as (p & [Hp ->]%pow10_Ok & H1). apply bind_Ok in H1 as (q & H1 & _). split; [lia|by exists q].
    + intros [Hp [q H1]]. rewrite pow10_total by lia. cbn [mbind result_bind]. rewrite H1. cbn [mbind result_bind]. eexists. by apply decimal_total.
Qed.

Lemma decimalDiv_succeeds a b s mode : decimal_ok a → decimal_ok b → 0 ≤ s ≤ MAX_SAFE_INTEGER → s + scale b ≤ 2 ^ 53 →
  (∃ c, decimalDiv a b s mode = Ok c) ↔
  coefficient b ≠ 0 ∧ Z.abs (s + scale b - scale a) ≤ MAX_POW10 ∧
  (mode = exact → (coefficient b * 10 ^ scale a | coefficient a * 10 ^ (s + scale b))).
Proof.
  unfold decimal_ok. intros Ha Hb Hs Hfit. unfold decimalDiv, kernelAssert. rewrite exponent_exact by lia.
  destruct (Z.eqb_spec (coefficient b) 0) as [Hb0|Hb0]; cbn [negb ensure mbind result_bind]; [split; [by intros [c ?]|by intros [? _]]|].
  assert (∀ q, ∃ c, decimal q s = Ok c) as Hmake by (intros q; eexists; by apply decimal_total).
  destruct (Z.leb_spec 0 (s + scale b - scale a)).
  - pose proof (roundedQuotient_total (coefficient a * 10 ^ (s + scale b - scale a)) _ mode Hb0) as Hq.
    rewrite (divide_pow10 (coefficient b) _ (scale a)), <-Z.mul_assoc, <-Z.pow_add_r, Z.sub_add in Hq by lia. rewrite <-Hq. split.
    + intros [c H1]. apply bind_Ok in H1 as (n & H1 & H2). apply bind_Ok in H1 as (p & [Hp ->]%pow10_Ok & [= <-]).
      cbn [mbind result_bind] in H2. apply bind_Ok in H2 as (q & H2 & _). split_and!; [done|lia|by exists q].
    + intros (_ & Hp & q & H1). rewrite pow10_total by lia. cbn [mbind result_bind]. rewrite H1. apply Hmake.
  - assert (coefficient b * 10 ^ (- (s + scale b - scale a)) ≠ 0) as Hd by (apply Z.neq_mul_0; split; [done|apply Z.pow_nonzero; lia]).
    pose proof (roundedQuotient_total (coefficient a) _ mode Hd) as Hq.
    rewrite (divide_pow10 _ _ (s + scale b)), <-Z.mul_assoc, <-Z.pow_add_r in Hq by lia.
    replace (- (s + scale b - scale a) + (s + scale b)) with (scale a) in Hq by lia. rewrite <-Hq. split.
    + intros [c H1]. cbn [mbind result_bind] in H1. apply bind_Ok in H1 as (n & H1 & H2). apply bind_Ok in H1 as (p & [Hp ->]%pow10_Ok & [= <-]).
      apply bind_Ok in H2 as (q & H2 & _). split_and!; [done|lia|by exists q].
    + intros (_ & Hp & q & H1). rewrite pow10_total by lia. cbn [mbind result_bind]. rewrite H1. apply Hmake.
Qed.

(** C40: Division and rescaling return the quotient of the denoted numbers rounded
    to the requested scale in the requested mode, and they succeed exactly if the divisor
    is not zero, the exponent is at most 10000 and, in the mode [exact], the quotient has
    that many fractional digits.  For a division this needs that the requested scale and
    the scale of the divisor add up to at most [2 ^ 53]: the code adds them as doubles,
    and above that it can divide by another power of ten
    ([wide_scales_divide_wrong]). *)
Theorem decimal_rounding_correct (a b : Decimal) (s : Z) (mode : RoundingMode) :
  decimal_ok a → decimal_ok b →
  (s + scale b ≤ 2 ^ 53 →
    (∀ c, decimalDiv a b s mode = Ok c → coefficient b ≠ 0 ∧ scale c = s ∧
       rounds mode (coefficient a * 10 ^ (s + scale b)) (coefficient b * 10 ^ scale a) (coefficient c)) ∧
    (0 ≤ s ≤ MAX_SAFE_INTEGER →
       (∃ c, decimalDiv a b s mode = Ok c) ↔
       coefficient b ≠ 0 ∧ Z.abs (s + scale b - scale a) ≤ MAX_POW10 ∧
       (mode = exact → (coefficient b * 10 ^ scale a | coefficient a * 10 ^ (s + scale b))))) ∧
  (∀ c, decimalRescale a s mode = Ok c → scale c = s ∧
    rounds mode (coefficient a * 10 ^ s) (10 ^ scale a) (coefficient c)) ∧
  (0 ≤ s ≤ MAX_SAFE_INTEGER →
    (∃ c, decimalRescale a s mode = Ok c) ↔
    Z.abs (s - scale a) ≤ MAX_POW10 ∧ (mode = exact → (10 ^ scale a | coefficient a * 10 ^ s))).
Proof.
  intros Ha Hb. split_and!.
  - intros Hfit. split; [intros c H; by apply decimalDiv_rounds|intros Hs; by apply decimalDiv_succeeds].
  - intros c H. by apply decimalRescale_rounds.
  - intros Hs. by apply decimalRescale_succeeds.
Qed.

(** One divided by one, with scales of [2 ^ 53 - 1] and [2] and a result of scale
    [2 ^ 53 - 1], is 100 units of the last digit; the code answers 10. *)
Example wide_scales_divide_wrong :
  let a := mkDecimal 1 MAX_SAFE_INTEGER in
  let b := mkDecimal 1 2 in
  decimal_ok a ∧ decimal_ok b ∧ decimalDiv a b MAX_SAFE_INTEGER exact = Ok (mkDecimal 10 MAX_SAFE_INTEGER) ∧
  rounds exact (coefficient a * 10 ^ (MAX_SAFE_INTEGER + scale b)) (coefficient b * 10 ^ scale a) 100.
Proof.
  split_and!; [by split|by split|vm_compute; reflexivity|]. cbn [coefficient scale rounds].
  rewrite Z.pow_add_r by (unfold MAX_SAFE_INTEGER; lia). generalize (10 ^ MAX_SAFE_INTEGER). intros p. change (10 ^ 2) with 100. lia.
Qed.

Lemma decimal_rounding_correct_witness :
  decimalDiv (mkDecimal 25 1) (mkDecimal (-2) 0) 1 half_even = Ok (mkDecimal (-12) 1) ∧
  rounds half_even (25 * 10 ^ (1 + 0)) (-2 * 10 ^ 1) (-12).
Proof.
  split; [vm_compute; reflexivity|].
  destruct (decimal_rounding_correct (mkDecimal 25 1) (mkDecimal (-2) 0) 1 half_even) as (H & _); [split; done|split; done|].
  destruct H as [H _]; [vm_compute; discriminate|].
  destruct (H (mkDecimal (-12) 1)) as (_ & _ & Hr); [vm_compute; reflexivity|]. exact Hr.
Defined.

(** ** Texts *)

Lemma canonical_natural_take s n : canonical_natural s = true → (0 < n)%nat → canonical_natural (take n s) = true.
Proof.
  intros Hs Hn. destruct n as [|n]; [lia|]. destruct s as [|c [|d s]]; [done|by destruct n|].
  destruct n as [|n]; cbn [take canonical_natural forallb] in *; rewrite !andb_true_iff in Hs; [unfold is_digit; lia|].
  destruct Hs as (Hc & Hd & Hs). rewrite Hd, !andb_true_iff. split_and!; [lia|lia|done|].
  rewrite <-(take_drop n s), forallb_app, andb_true_iff in Hs. by destruct Hs.
Qed.

Lemma span_digits_app ds r :
  forallb is_digit ds = true → (∀ c l, r = c :: l → is_digit c = false) → span_digits (ds ++ r) = (ds, r).
Proof.
  intros Hds Hr. induction ds as [|d ds IH]; cbn [app span_digits forallb] in *.
  - destruct r as [|c l]; [done|]. cbn [span_digits]. by rewrite (Hr c l).
  - apply andb_true_iff in Hds as [-> Hds]. by rewrite IH.
Qed.

Lemma span_digits_spec text ds r : span_digits text = (ds, r) → text = ds ++ r ∧ forallb is_digit ds = true.
Proof.
  revert ds r. induction text as [|c text IH]; intros ds r; cbn [span_digits]; [by intros [= <- <-]|].
  destruct (is_digit c) eqn:Hc; [|by intros [= <- <-]]. destruct (span_digits text) as [ds' r'].
  intros [= <- <-]. destruct (IH ds' r' eq_refl) as [-> Hd]. split; [done|]. cbn [forallb]. by rewrite Hc, Hd.
Qed.

Lemma digits_value_zeros n s : digits_value (replicate n 48 ++ s) = digits_value s.
Proof. induction n as [|n IH]; [done|]. rewrite <-IH. done. Qed.

Lemma pad_start_le w t : (length t ≤ w)%nat → pad_start (S w) t = 48 :: pad_start w t.
Proof. intros H. unfold pad_start. replace (S w - length t)%nat with (S (w - length t)) by lia. done. Qed.

(** Padding the number of a digit string to its length gives the string back. *)
Lemma pad_start_digits f :
  forallb is_digit f = true → pad_start (S (length f)) (js_decimal (digits_value f)) = 48 :: f ∧
    (length (js_decimal (digits_value f)) ≤ S (length f))%nat.
Proof.
  induction f as [|c f IH]; intros Hf; [by vm_compute; split; [|lia]|]. cbn [forallb] in Hf. apply andb_true_iff in Hf as [Hc Hf].
  destruct (decide (c = 48)) as [->|Hc48].
  - destruct (IH Hf) as [H1 H2]. change (digits_value (48 :: f)) with (digits_value f). cbn [length].
    rewrite pad_start_le by done. rewrite H1. split; [done|lia].
  - assert (canonical_natural (c :: f) = true) as Hcan.
    { destruct f; [done|]. cbn [canonical_natural]. rewrite Hf. unfold is_digit in Hc. lia. }
    rewrite js_decimal_canonical by done. split; [|lia]. rewrite pad_start_le by done.
    unfold pad_start. by rewrite Nat.sub_diag.
Qed.

Lemma canonical_app_digits i f :
  canonical_natural i = true → forallb is_digit f = true →
  pad_start (S (length f)) (js_decimal (digits_value (i ++ f))) = i ++ f.
Proof.
  intros Hi Hf. destruct i as [|c i]; [done|]. destruct (decide (c = 48)) as [->|Hc].
  - destruct i as [|d i]; [|done]. apply (pad_start_digits f Hf).
  - assert (canonical_natural ((c :: i) ++ f) = true) as Hcan.
    { pose proof (canonical_natural_digits _ Hi) as Hd. cbn [forallb app] in *. apply andb_true_iff in Hd as [Hc' Hd].
      cbn [canonical_natural]. destruct (i ++ f) eqn:Heq; [done|]. rewrite <-Heq, forallb_app, Hd, Hf. unfold is_digit in Hc'. lia. }
    rewrite js_decimal_canonical by done. unfold pad_start. rewrite length_app. cbn [length].
    replace (S (length f) - (S (length i) + length f))%nat with 0%nat by lia. done.
Qed.

(** The text with the given sign, integer part and fraction. *)
Definition decimal_text (negative : bool) (i f : jsstring) : jsstring :=
  (if negative then [45] else []) ++ i ++ match f with [] => [] | _ => 46 :: f end.

Lemma match_decimal_text negative i f :
  canonical_natural i = true → forallb is_digit f = true →
  match_decimal (decimal_text negative i f) = Some (negative, i, match f with [] => None | _ => Some f end).
Proof.
  intros Hi Hf. unfold match_decimal, decimal_text.
  set (rest := match f with [] => [] | _ => 46 :: f end).
  assert (split_sign ((if negative then [45] else []) ++ i ++ rest) = (negative, i ++ rest)) as ->.
  { destruct negative; [done|]. pose proof (canonical_natural_digits i Hi) as Hd.
    destruct i as [|c i]; [done|]. cbn [forallb app split_sign] in *. apply andb_true_iff in Hd as [Hc _].
    unfold is_digit in Hc. by rewrite (proj2 (Z.eqb_neq c 45)) by lia. }
  rewrite span_digits_app; [|by apply canonical_natural_digits|by unfold rest; destruct f; [done|intros ?? [= <- _]]].
  rewrite Hi. unfold rest. destruct f as [|c f]; [done|]. unfold match_fraction. by rewrite Hf.
Qed.

Lemma match_decimal_inv text negative i fraction :
  match_decimal text = Some (negative, i, fraction) →
  canonical_natural i = true ∧ forallb is_digit (default [] fraction) = true ∧
  text = decimal_text negative i (default [] fraction).
Proof.
  unfold match_decimal. destruct (split_sign text) as [neg body] eqn:Hb.
  assert (text = (if neg then [45] else []) ++ body) as ->.
  { destruct text as [|c text]; cbn [split_sign] in Hb; [by injection Hb as <- <-|].
    destruct (Z.eqb_spec c 45); injection Hb as <- <-; by subst. }
  destruct (span_digits body) as [int r] eqn:Hs. apply span_digits_spec in Hs as [-> Hd].
  destruct (canonical_natural int) eqn:Hi; [|done]. cbn [negb]. unfold decimal_text.
  destruct (match_fraction r) as [fr|] eqn:Hf; [|done]. cbn [mbind option_bind]. intros [= <- <- <-].
  unfold match_fraction in Hf. destruct r as [|c f]; [injection Hf as <-; cbn [default from_option id]; by rewrite Hi|].
  destruct (Z.eqb_spec c 46) as [->|]; [|done]. destruct f as [|x f]; [done|].
  destruct (forallb is_digit (x :: f)) eqn:Hdig; [|done]. injection Hf as <-. by rewrite Hi.
Qed.

Lemma parse_decimal_text negative i f :
  canonical_natural i = true → forallb is_digit f = true → Z.of_nat (length f) ≤ MAX_SAFE_INTEGER →
  decimal_text negative i f ≠ js "-0" →
  parseDecimal (decimal_text negative i f) None =
    Ok (mkDecimal ((if negative then -1 else 1) * digits_value (i ++ f)) (Z.of_nat (length f))).
Proof.
  intros Hi Hf Hlen Hz. unfold parseDecimal, kernelAssert. rewrite match_decimal_text by done.
  rewrite bool_decide_eq_false_2 by done. cbn [negb ensure mbind result_bind].
  replace (default [] match f with [] => None | _ => Some f end) with f by (by destruct f).
  cbn [default from_option id]. rewrite (proj2 (Z.leb_le _ _)) by lia. cbn [ensure mbind result_bind].
  rewrite Nat2Z.id, Nat.sub_diag. cbn [replicate]. rewrite app_nil_r. apply decimal_total. lia.
Qed.

(** The printed text: its parts are those of the padded digits. *)
Lemma format_decimal_text d i f :
  canonical_natural i = true → forallb is_digit f = true → scale d = Z.of_nat (length f) →
  Z.abs (coefficient d) = digits_value (i ++ f) → formatDecimal d true = decimal_text (coefficient d <? 0) i f.
Proof.
  intros Hi Hf Hs Hc. unfold formatDecimal.
  replace (if coefficient d <? 0 then - coefficient d else coefficient d) with (Z.abs (coefficient d)) by (destruct (Z.ltb_spec (coefficient d) 0); lia).
  rewrite Hc, Hs. replace (Z.to_nat (Z.of_nat (length f) + 1)) with (S (length f)) by lia.
  rewrite canonical_app_digits, Nat2Z.id, length_app by done.
  replace (length i + length f - length f)%nat with (length i) by lia.
  rewrite take_app_length, drop_app_length. cbn [negb andb]. unfold decimal_text.
  replace ((coefficient d <? 0) && negb (coefficient d =? 0)) with (coefficient d <? 0) by lia.
  destruct f as [|x f]; cbn [length Z.of_nat Z.eqb]; rewrite ?app_nil_r; by destruct (coefficient d <? 0).
Qed.

(** Every decimal has such parts. *)
Lemma decimal_parts d :
  0 ≤ scale d → ∃ i f, canonical_natural i = true ∧ forallb is_digit f = true ∧ scale d = Z.of_nat (length f) ∧
    digits_value (i ++ f) = Z.abs (coefficient d).
Proof.
  intros Hd. set (n := Z.to_nat (scale d)). set (t := js_decimal (Z.abs (coefficient d))).
  assert (canonical_natural t = true) as Ht by (apply canonical_js_decimal; lia).
  destruct (js_decimal_nonneg (Z.abs (coefficient d))) as (Hv & Hdig & Hne); [lia|]. fold t in Hv, Hdig, Hne.
  destruct (Nat.lt_ge_cases n (length t)) as [Hl|Hl].
  - exists (take (length t - n) t), (drop (length t - n) t). rewrite take_drop.
    rewrite <-(take_drop (length t - n) t), forallb_app, andb_true_iff in Hdig. destruct Hdig as [_ Hdig].
    split_and!; [apply canonical_natural_take; [done|lia]|done|rewrite length_drop; lia|done].
  - exists [48], (replicate (n - length t) 48 ++ t). split_and!; [done| |rewrite length_app, length_replicate; lia|].
    + rewrite forallb_app, Hdig, andb_true_r. clear. by induction (n - length t)%nat.
    + change ([48] ++ ?l) with (replicate 1 48 ++ l). by rewrite !digits_value_zeros.
Qed.

(** The text of a decimal reads back to the same coefficient and scale, and it is
    the only text that does, except that zero with fractional digits is also
    accepted with a minus sign. *)
Theorem decimal_text_roundtrip (d : Decimal) :
  decimal_ok d →
  parseDecimal (formatDecimal d true) None = Ok d ∧
  ∀ text, parseDecimal text None = Ok d →
    text = formatDecimal d true ∨ coefficient d = 0 ∧ 0 < scale d ∧ text = js "-" ++ formatDecimal d true.
Proof.
  intros Hd. split.
  - destruct (decimal_parts d (proj1 Hd)) as (i & f & Hi & Hf & Hs & Hv). unfold decimal_ok in Hd.
    rewrite (format_decimal_text d i f) by done. rewrite parse_decimal_text; [|done|done|lia|].
    + f_equal. destruct d as [c s]. cbn [coefficient scale] in *. rewrite Hv, Hs. f_equal. destruct (Z.ltb_spec c 0); lia.
    + destruct (Z.ltb_spec (coefficient d) 0); unfold decimal_text.
      * intros [= Ht]. assert (i = [48] ∧ f = []) as [-> ->]; [|change (digits_value _) with 0 in Hv; lia].
        destruct f as [|x f]; [by rewrite app_nil_r in Ht|]. destruct i as [|? [|??]]; [done|discriminate Ht|discriminate Ht].
      * intros Heq. apply canonical_natural_digits in Hi as Hid. destruct i as [|c i]; [done|].
        injection Heq as -> _. discriminate Hid.
  - intros text H. unfold parseDecimal in H. destruct (match_decimal text) as [[[negative i] fraction]|] eqn:Hm; [|done].
    apply match_decimal_inv in Hm as (Hi & Hf & Ht). set (f := default [] fraction) in *. clearbody f. unfold kernelAssert in H.
    inv_ok. rewrite negb_true_iff, bool_decide_eq_false in *. apply decimal_Ok in H as [Hdd _].
    cbn [default from_option id] in Hdd. rewrite Nat2Z.id, Nat.sub_diag in Hdd. cbn [replicate] in Hdd. rewrite app_nil_r in Hdd.
    assert (0 ≤ digits_value (i ++ f)) by (apply digits_value_nonneg; by rewrite forallb_app, (canonical_natural_digits i)).
    assert (formatDecimal d true = decimal_text (coefficient d <? 0) i f) as ->.
    { apply format_decimal_text; [done|done|by subst d|]. subst d. cbn [coefficient]. destruct negative; lia. }
    destruct (decide (coefficient d = 0)) as [Hc0|Hc0].
    + rewrite Hc0. cbn [Z.ltb Z.compare]. destruct negative; [right|by left]. split_and!; [done| |done].
      subst d. cbn [scale coefficient] in *. destruct f as [|y f]; [|simpl; lia]. exfalso.
      rewrite app_nil_r in *. assert (i = [48]) as ->; [|done].
      rewrite <-(js_decimal_canonical i Hi). by replace (digits_value i) with 0 by lia.
    + left. rewrite Ht. f_equal. subst d. cbn [coefficient] in *. destruct negative; lia.
Qed.

Lemma decimal_text_roundtrip_witness :
  formatDecimal (mkDecimal (-105) 2) true = js "-1.05" ∧ parseDecimal (js "-1.05") None = Ok (mkDecimal (-105) 2).
Proof.
  split; [vm_compute; reflexivity|].
  apply (decimal_text_roundtrip (mkDecimal (-105) 2)). split; done.
Defined.

(** The reader refuses [-0] as not canonical but accepts a negative zero with
    fractional digits, which no decimal prints as. *)
Example negative_zero_accepted :
  parseDecimal (js "-0") None = Err INVALID_ARGUMENT_ENCODING ∧ parseDecimal (js "-0.0") None = Ok (mkDecimal 0 1) ∧
  formatDecimal (mkDecimal 0 1) true = js "0.0".
Proof. vm_compute. done. Qed.
