(* ===== verification/Vector.v ===== *)
(** * Exact vector search: [packages/kernels/src/vector.ts]

    Bit vectors with the Hamming distance, 8-bit integer vectors with their
    distances, and the exact nearest-neighbour query. *)

From Stdlib Require Import Strings.Byte Sorting.Sorted.
From stdpp Require Import base list option numbers sets sorting.
From S2P Require Import Prelude Bytes Int64 Domains.

#[local] Open Scope Z_scope.

(** ** Bit vectors *)

(** A typed array is returned as a copy, so the value is the argument's. *)
Definition validateBitVector (b : bytes) (dimensions : Z) : result KernelErrorCode bytes :=
  kernelAssert (is_safe_integer dimensions && (0 <? dimensions)) VECTOR_VALUE_INVALID ≫= λ _,
  kernelAssert (Z.of_nat (length b) =? (dimensions + 7) / 8) VECTOR_DIMENSION_MISMATCH ≫= λ _,
  let unused := Z.of_nat (length b) * 8 - dimensions in
  (if 0 <? unused then
     let usedMask := Z.land (Z.shiftl 255 unused) 255 in
     kernelAssert (Z.land (default 0 (val <$> list.last b)) (Z.lnot usedMask) =? 0) VECTOR_VALUE_INVALID
   else Ok tt) ≫= λ _,
  Ok b.

(** The loop that fills one entry of the table; eight bits need eight rounds. *)
Fixpoint popcount_loop (fuel : nat) (x count : Z) : Z :=
  match fuel with
  | O => count
  | S fuel' => if x =? 0 then count else popcount_loop fuel' (Z.shiftr x 1) (count + Z.land x 1)
  end.

Definition POPCOUNT : list Z := (λ value, popcount_loop 8 (Z.of_nat value) 0) <$> seq 0 256.

Definition hammingDistance (a b : bytes) (dimensions : Z) : result KernelErrorCode Z :=
  validateBitVector a dimensions ≫= λ _,
  validateBitVector b dimensions ≫= λ _,
  Ok (foldl (λ (distance : Z) (xy : byte * byte), distance + default 0 (POPCOUNT !! Z.to_nat (Z.lxor (val xy.1) (val xy.2)))) 0 (zip a b)).

(** ** 8-bit integer vectors *)

Definition equalInt8Dimensions (a b : list Z) : result KernelErrorCode unit :=
  kernelAssert (length a =? length b)%nat VECTOR_DIMENSION_MISMATCH.

Definition int8Manhattan (a b : list Z) : result KernelErrorCode Z :=
  equalInt8Dimensions a b ≫= λ _,
  Ok (foldl (λ (acc : Z) (xy : Z * Z), acc + Z.abs (xy.1 - xy.2)) 0 (zip a b)).

Definition int8SquaredL2 (a b : list Z) : result KernelErrorCode Z :=
  equalInt8Dimensions a b ≫= λ _,
  Ok (foldl (λ (acc : Z) (xy : Z * Z), let delta := xy.1 - xy.2 in acc + delta * delta) 0 (zip a b)).

Definition int8Dot (a b : list Z) : result KernelErrorCode Z :=
  equalInt8Dimensions a b ≫= λ _,
  Ok (foldl (λ (acc : Z) (xy : Z * Z), acc + xy.1 * xy.2) 0 (zip a b)).

(** ** Nearest neighbours *)

(** The kernels' own comparison of byte strings. *)
Fixpoint kernelCompareBytes (a b : bytes) : Z :=
  match a, b with
  | x :: a', y :: b' => if val x <? val y then -1 else if val y <? val x then 1 else kernelCompareBytes a' b'
  | [], [] => 0
  | [], _ => -1
  | _, [] => 1
  end.

Record VectorCandidate (T : Type) := mkCandidate { vc_key : bytes; vc_value : T }.
Arguments mkCandidate {T}. Arguments vc_key {T}. Arguments vc_value {T}.

Record VectorNeighbor (T : Type) := mkNeighbor { vn_candidate : VectorCandidate T; vn_distance : Z }.
Arguments mkNeighbor {T}. Arguments vn_candidate {T}. Arguments vn_distance {T}.

Definition compareNeighbors {T} (a b : VectorNeighbor T) : Z :=
  if vn_distance a <? vn_distance b then -1
  else if vn_distance b <? vn_distance a then 1
  else kernelCompareBytes (vc_key (vn_candidate a)) (vc_key (vn_candidate b)).

(** [distance] may throw: the first error ends the query. *)
Definition exactKnn {T} (candidates : list (VectorCandidate T)) (query : T) (k : Z)
    (distance : T → T → result KernelErrorCode Z) : result KernelErrorCode (list (VectorNeighbor T)) :=
  kernelAssert (is_safe_integer k && (0 <=? k)) INVALID_ARGUMENT_ENCODING ≫= λ _,
  neighbors ← mapR (λ candidate, d ← distance (vc_value candidate) query; Ok (mkNeighbor candidate d)) candidates;
  Ok (take (Z.to_nat k) (js_sort compareNeighbors neighbors)).

(** ** The comparison is the canonical one *)

Lemma kernelCompareBytes_compareBytes a b : kernelCompareBytes a b = compareBytes a b.
Proof.
  revert b. induction a as [|x a IH]; intros [|y b]; [done..|]. cbn [kernelCompareBytes].
  rewrite IH, compareBytes_cons. repeat case_match; lia.
Qed.

Lemma compareNeighbors_lex {T} (a b : VectorNeighbor T) :
  compareNeighbors a b = cmp_then (λ x y, cmpZ (vn_distance x) (vn_distance y))
    (λ x y, compareBytes (vc_key (vn_candidate x)) (vc_key (vn_candidate y))) a b.
Proof.
  unfold compareNeighbors, cmp_then, cmpZ. rewrite kernelCompareBytes_compareBytes.
  destruct (Z.ltb_spec (vn_distance a) (vn_distance b)), (Z.ltb_spec (vn_distance b) (vn_distance a)),
    (Z.eqb_spec (vn_distance a) (vn_distance b)); try lia; done.
Qed.

#[export] Instance compareNeighbors_comparator {T} : Comparator (@compareNeighbors T).
Proof.
  assert (Comparator (cmp_then (λ x y : VectorNeighbor T, cmpZ (vn_distance x) (vn_distance y))
    (λ x y, compareBytes (vc_key (vn_candidate x)) (vc_key (vn_candidate y))))) as H.
  { apply cmp_then_comparator; [apply (comparator_on vn_distance cmpZ)|].
    apply (comparator_on (λ x, vc_key (vn_candidate x)) compareBytes). }
  split; intros *; rewrite !compareNeighbors_lex; apply H.
Qed.

(** ** Hamming distance *)

(** The bits of a vector, most significant bit of the first byte first. *)
Definition byte_bits (b : byte) : list bool := (λ i, Z.testbit (val b) (7 - Z.of_nat i)) <$> seq 0 8.
Definition bits (b : bytes) : list bool := mjoin (byte_bits <$> b).

(** The number of positions where two lists of bits differ. *)
Definition differences (l k : list bool) : Z :=
  Z.of_nat (length (filter (λ xy : bool * bool, xy.1 ≠ xy.2) (zip l k))).

Lemma differences_app l1 k1 l2 k2 :
  length l1 = length k1 → differences (l1 ++ l2) (k1 ++ k2) = differences l1 k1 + differences l2 k2.
Proof.
  intros Hl. unfold differences. rewrite zip_with_app by done. rewrite filter_app, length_app. lia.
Qed.

Lemma differences_refl l : differences l l = 0.
Proof.
  unfold differences. rewrite (filter_none _ (zip l l)); [done|].
  induction l as [|x l IH]; constructor; [simpl; tauto|done].
Qed.

(** One table lookup counts the bits that are set. *)
Definition byte_ones (x : Z) : Z := differences ((λ i, Z.testbit x (7 - Z.of_nat i)) <$> seq 0 8) (replicate 8 false).

Lemma popcount_table :
  forallb (λ x, default 0 (POPCOUNT !! x) =? byte_ones (Z.of_nat x)) (seq 0 256) = true.
Proof. vm_compute. reflexivity. Qed.

Lemma popcount_ones x : 0 ≤ x < 256 → default 0 (POPCOUNT !! Z.to_nat x) = byte_ones x.
Proof.
  intros Hx. pose proof popcount_table as H. rewrite forallb_forall in H.
  specialize (H (Z.to_nat x)). rewrite Z2Nat.id in H by lia. apply Z.eqb_eq, H, in_seq. lia.
Qed.

Lemma differences_lxor (f g : nat → bool) l :
  differences ((λ i, xorb (f i) (g i)) <$> l) (replicate (length l) false) = differences (f <$> l) (g <$> l).
Proof.
  induction l as [|i l IH]; [done|]. unfold differences in *. cbn [length replicate fmap list_fmap zip_with].
  rewrite !filter_cons. destruct (f i), (g i); cbn [fst snd xorb]; repeat case_decide; try done;
    cbn [length] in *; rewrite ?Nat2Z.inj_succ; f_equal; try exact IH.
Qed.

Lemma lxor_byte x y : 0 ≤ Z.lxor (val x) (val y) < 256.
Proof.
  pose proof (val_range x). pose proof (val_range y).
  assert (0 ≤ Z.lxor (val x) (val y)) as Hpos by (apply Z.lxor_nonneg; lia). split; [done|].
  destruct (decide (Z.lxor (val x) (val y) = 0)) as [->|]; [done|].
  change 256 with (2 ^ 8). apply Z.log2_lt_pow2; [lia|].
  pose proof (Z.log2_lxor (val x) (val y)). 
  assert (∀ z, 0 ≤ z < 256 → Z.log2 z < 8) as Hlog.
  { intros z Hz. destruct (decide (z = 0)) as [->|]; [done|]. apply Z.log2_lt_pow2; lia. }
  pose proof (Hlog (val x)). pose proof (Hlog (val y)). lia.
Qed.

Lemma popcount_lxor x y :
  default 0 (POPCOUNT !! Z.to_nat (Z.lxor (val x) (val y))) = differences (byte_bits x) (byte_bits y).
Proof.
  rewrite popcount_ones by apply lxor_byte. unfold byte_ones, byte_bits.
  rewrite <-(differences_lxor (λ i, Z.testbit (val x) (7 - Z.of_nat i)) (λ i, Z.testbit (val y) (7 - Z.of_nat i))).
  rewrite length_seq. f_equal. apply list_fmap_ext. intros i n _. apply Z.lxor_spec.
Qed.

Lemma hamming_sum a b acc :
  length a = length b →
  foldl (λ (distance : Z) (xy : byte * byte), distance + default 0 (POPCOUNT !! Z.to_nat (Z.lxor (val xy.1) (val xy.2)))) acc (zip a b) =
  acc + differences (bits a) (bits b).
Proof.
  revert b acc. induction a as [|x a IH]; intros [|y b] acc Hl; try done; [unfold differences; simpl; lia|].
  cbn [zip zip_with foldl fst snd]. rewrite IH by (by injection Hl). rewrite popcount_lxor.
  unfold bits. cbn [fmap list_fmap]. rewrite !mjoin_cons, differences_app by done. fold (bits a) (bits b). lia.
Qed.

Lemma bits_length b : length (bits b) = (8 * length b)%nat.
Proof.
  unfold bits. induction b as [|x b IH]; [done|]. cbn [fmap list_fmap]. rewrite mjoin_cons, length_app, IH. simpl. lia.
Qed.

(** The mask test of the last byte, checked on all bytes and paddings. *)
Lemma padding_table :
  forallb (λ u, forallb (λ x,
    negb (Z.land (Z.of_nat x) (Z.lnot (Z.land (Z.shiftl 255 (Z.of_nat u)) 255)) =? 0) ||
    bool_decide (drop (8 - u) (byte_bits (byte_of (Z.of_nat x))) = replicate u false)) (seq 0 256)) (seq 1 7) = true.
Proof. vm_compute. reflexivity. Qed.

Lemma padding_bits x u :
  0 < u < 8 → Z.land (val x) (Z.lnot (Z.land (Z.shiftl 255 u) 255)) = 0 →
  drop (8 - Z.to_nat u) (byte_bits x) = replicate (Z.to_nat u) false.
Proof.
  intros Hu Hx. pose proof padding_table as H. rewrite forallb_forall in H. specialize (H (Z.to_nat u)).
  rewrite forallb_forall in H. pose proof (val_range x). specialize (H ltac:(apply in_seq; lia) (Z.to_nat (val x)) ltac:(apply in_seq; lia)).
  rewrite !Z2Nat.id, Hx, byte_of_val in H by lia. by apply bool_decide_eq_true in H.
Qed.

(** The padding of a valid vector is zero. *)
Lemma bits_padding b n v :
  validateBitVector b n = Ok v →
  (Z.to_nat n ≤ 8 * length b)%nat ∧ drop (Z.to_nat n) (bits b) = replicate (8 * length b - Z.to_nat n) false.
Proof.
  unfold validateBitVector, kernelAssert. intros H. inv_ok. rewrite andb_true_iff, Z.ltb_lt, Z.eqb_eq in *.
  destruct_and!. rename select (Z.of_nat (length b) = _) into Hlen. rename select (0 < n) into Hn.
  assert (0 ≤ Z.of_nat (length b) * 8 - n < 8) as Hu by (rewrite Hlen; Z.to_euclidean_division_equations; lia).
  split; [lia|]. rename select ((if 0 <? _ then _ else _) = Ok _) into Hmask.
  destruct (Z.ltb_spec 0 (Z.of_nat (length b) * 8 - n)) as [Hun|Hun].
  2:{ replace (8 * length b - Z.to_nat n)%nat with 0%nat by lia. apply drop_ge. rewrite bits_length. lia. }
  inv_ok. apply Z.eqb_eq in Hmask. clear Hlen. destruct b as [|y b _] using rev_ind; [simpl in *; lia|].
  rewrite last_snoc in Hmask. cbn [fmap option_fmap option_map default from_option id] in Hmask.
  apply padding_bits in Hmask; [|lia]. rewrite length_app in *. cbn [length] in *.
  unfold bits. rewrite fmap_app, join_app. fold (bits b). rewrite drop_app_ge by (rewrite bits_length; lia).
  rewrite bits_length. cbn [fmap list_fmap]. change (mjoin [byte_bits y]) with (byte_bits y ++ []). rewrite app_nil_r.
  replace (Z.to_nat n - 8 * length b)%nat with (8 - Z.to_nat (Z.of_nat (length b + 1) * 8 - n))%nat by lia.
  rewrite Hmask. f_equal. lia.
Qed.

(** The Hamming distance of two valid bit vectors is the number of dimensions in
    which they differ: the table-driven sum over whole bytes counts every bit once
    and the padding never. *)
Theorem hamming_counts_dimensions (a b : bytes) (dimensions distance : Z) :
  hammingDistance a b dimensions = Ok distance →
  distance = differences (take (Z.to_nat dimensions) (bits a)) (take (Z.to_nat dimensions) (bits b)).
Proof.
  unfold hammingDistance. intros H. inv_ok. subst distance. rename select (validateBitVector a _ = _) into Ha.
  rename select (validateBitVector b _ = _) into Hb.
  assert (length a = length b) as Hl.
  { unfold validateBitVector, kernelAssert in Ha, Hb. inv_ok. rewrite Z.eqb_eq in *. lia. }
  destruct (bits_padding a _ _ Ha) as [Hn Hpa]. destruct (bits_padding b _ _ Hb) as [_ Hpb].
  rewrite hamming_sum by done. set (n := Z.to_nat dimensions) in *.
  rewrite <-(take_drop n (bits a)), <-(take_drop n (bits b)) at 1.
  rewrite differences_app by (rewrite !length_take, !bits_length; lia). rewrite Hpa, Hpb, Hl, differences_refl. lia.
Qed.

Lemma hamming_counts_dimensions_witness :
  hammingDistance [byte_of 0xA5; byte_of 0xF0] [byte_of 0xFF; byte_of 0x00] 12 = Ok 8 ∧
  8 = differences (take 12 (bits [byte_of 0xA5; byte_of 0xF0])) (take 12 (bits [byte_of 0xFF; byte_of 0x00])).
Proof.
  split; [vm_compute; reflexivity|].
  apply (hamming_counts_dimensions [byte_of 0xA5; byte_of 0xF0] [byte_of 0xFF; byte_of 0x00] 12 8). vm_compute. reflexivity.
Defined.

(** ** Nearest neighbours *)

Lemma take_sorted {A} (R : A → A → Prop) n (l : list A) x y :
  StronglySorted R l → x ∈ take n l → y ∈ drop n l → R x y.
Proof.
  revert n. induction l as [|z l IH]; intros n Hs Hx Hy; [by rewrite take_nil in Hx; apply elem_of_nil in Hx|].
  destruct n as [|n]; [by apply elem_of_nil in Hx|]. inversion_clear Hs as [|?? Hs' Hz]. cbn [take drop] in *.
  apply elem_of_cons in Hx as [->|Hx]; [|by apply (IH n)]. rewrite Forall_forall in Hz. apply Hz.
  rewrite <-(take_drop n l). apply elem_of_app. by right.
Qed.

Section knn.
Context {T : Type} (query : T) (distance : T → T → result KernelErrorCode Z).

Definition neighbor_of (c : VectorCandidate T) : VectorNeighbor T :=
  mkNeighbor c match distance (vc_value c) query with Ok d => d | Err _ => 0 end.

Lemma neighbors_all candidates neighbors :
  mapR (λ candidate, d ← distance (vc_value candidate) query; Ok (mkNeighbor candidate d)) candidates = Ok neighbors →
  neighbors = neighbor_of <$> candidates ∧
  Forall (λ c, distance (vc_value c) query = Ok (vn_distance (neighbor_of c))) candidates.
Proof.
  intros H%mapR_Ok. induction H as [|c n cs ns Hc _ [-> IH]]; [done|].
  destruct (distance (vc_value c) query) as [d|] eqn:Hd; [|done]. cbn [mbind result_bind] in Hc. injection Hc as <-.
  assert (neighbor_of c = mkNeighbor c d) as Hn by (unfold neighbor_of; by rewrite Hd).
  rewrite fmap_cons, Hn. split; [done|]. constructor; [by rewrite Hn|done].
Qed.

Lemma neighbors_total candidates :
  Forall (λ c, distance (vc_value c) query = Ok (vn_distance (neighbor_of c))) candidates →
  mapR (λ candidate, d ← distance (vc_value candidate) query; Ok (mkNeighbor candidate d)) candidates =
  Ok (neighbor_of <$> candidates).
Proof. intros H. apply mapR_total. eapply Forall_impl; [exact H|]. cbn beta. intros c ->. done. Qed.

(** Candidates with distinct keys never tie. *)
Lemma neighbors_strict candidates :
  NoDup (vc_key <$> candidates) →
  StronglySorted (λ x y, compareNeighbors x y < 0) (js_sort compareNeighbors (neighbor_of <$> candidates)).
Proof.
  intros Hnd. assert (NoDup ((λ n, vc_key (vn_candidate n)) <$> js_sort compareNeighbors (neighbor_of <$> candidates))) as Hk.
  { rewrite js_sort_perm, <-list_fmap_compose. exact Hnd. }
  pose proof (js_sort_sorted compareNeighbors (neighbor_of <$> candidates)) as Hs.
  induction Hs as [|x l _ IH Hx]; [constructor|]. rewrite fmap_cons in Hk. apply NoDup_cons in Hk as [Hxl Hk].
  constructor; [by apply IH|]. rewrite Forall_forall in *. intros y Hy. specialize (Hx y Hy).
  assert (compareNeighbors x y ≠ 0); [|lia]. rewrite compareNeighbors_lex. unfold cmp_then.
  destruct (Z.eqb_spec (cmpZ (vn_distance x) (vn_distance y)) 0); [|done].
  intros H%compareBytes_eq. apply Hxl. rewrite H. apply list_elem_of_fmap. by exists y.
Qed.
End knn.

(** The query returns the [k] nearest candidates in order of distance, ties
    broken by key: nothing left out is nearer than anything returned; and with
    distinct keys the answer does not depend on the order of the candidates. *)
Theorem knn_exact {T} (candidates candidates' : list (VectorCandidate T)) (query : T) (k : Z)
    (distance : T → T → result KernelErrorCode Z) (answer : list (VectorNeighbor T)) :
  exactKnn candidates query k distance = Ok answer →
  NoDup (vc_key <$> candidates) → candidates ≡ₚ candidates' →
  StronglySorted (λ x y, compareNeighbors x y < 0) answer ∧
  length answer = Nat.min (Z.to_nat k) (length candidates) ∧
  (∀ n, n ∈ answer → vn_candidate n ∈ candidates ∧ distance (vc_value (vn_candidate n)) query = Ok (vn_distance n)) ∧
  (∀ c d n, c ∈ candidates → distance (vc_value c) query = Ok d → n ∈ answer →
    mkNeighbor c d ∈ answer ∨ compareNeighbors n (mkNeighbor c d) < 0) ∧
  exactKnn candidates' query k distance = Ok answer.
Proof.
  unfold exactKnn. intros H Hnd Hp. inv_ok. subst answer. rename select (mapR _ _ = _) into Hm.
  apply neighbors_all in Hm as [-> Hall]. set (f := neighbor_of query distance) in *.
  pose proof (neighbors_strict query distance candidates Hnd) as Hs. fold f in Hs.
  set (sorted := js_sort compareNeighbors (f <$> candidates)) in *.
  assert (∀ n, n ∈ sorted ↔ ∃ c, n = f c ∧ c ∈ candidates) as Hin.
  { intros n. unfold sorted. by rewrite elem_of_js_sort, list_elem_of_fmap. }
  rewrite Forall_forall in Hall. split_and!.
  - rewrite <-(take_drop (Z.to_nat k) sorted) in Hs. by apply StronglySorted_app_1_l in Hs.
  - unfold sorted. rewrite length_take, js_sort_length, length_fmap. lia.
  - intros n Hn. assert (n ∈ sorted) as (c & -> & Hc)%Hin by (by eapply subseteq_take). split; [done|by apply Hall].
  - intros c d n Hc Hd Hn. assert (mkNeighbor c d = f c) as -> by (unfold f, neighbor_of; by rewrite Hd).
    assert (f c ∈ sorted) as Hfc by (apply Hin; by exists c).
    rewrite <-(take_drop (Z.to_nat k) sorted), elem_of_app in Hfc. destruct Hfc as [|Hfc]; [by left|right].
    by apply (take_sorted (λ x y, compareNeighbors x y < 0) (Z.to_nat k) sorted).
  - rename select (kernelAssert _ _ = _) into Hk. rewrite Hk. cbn [mbind result_bind].
    rewrite neighbors_total by (rewrite <-Hp, Forall_forall; done). cbn [mbind result_bind]. do 2 f_equal.
    apply js_sort_perm_strict; [apply _|by rewrite Hp|done].
Qed.

Definition sample_candidates : list (VectorCandidate (list Z)) :=
  [mkCandidate [byte_of 2] [4; 4]; mkCandidate [byte_of 1] [0; 3]; mkCandidate [byte_of 3] [3; 0]].

Definition sample_answer : list (VectorNeighbor (list Z)) :=
  [mkNeighbor (mkCandidate [byte_of 1] [0; 3]) 9; mkNeighbor (mkCandidate [byte_of 3] [3; 0]) 9].

Lemma knn_exact_witness :
  exactKnn (reverse sample_candidates) [0; 0] 2 int8SquaredL2 = Ok sample_answer.
Proof.
  apply (knn_exact sample_candidates (reverse sample_candidates) [0; 0] 2 int8SquaredL2 sample_answer).
  - vm_compute. reflexivity.
  - apply (bool_decide_unpack _). vm_compute. exact I.
  - by rewrite reverse_Permutation.
Defined.
