(* ===== verification/KernelText.v ===== *)
(** * Text kernels: [packages/kernels/src/text.ts]

    Texts are byte strings in UTF-8; the kernels decode them with the same
    [TextDecoder] as the canonical package, so a leading byte order mark is
    dropped. *)

From Stdlib Require Import Strings.Byte.
From stdpp Require Import base list option numbers.
From S2P Require Import Prelude Bytes Text Int64.

#[local] Open Scope Z_scope.

(** [Array.from(s)] and [for (const c of s)]: the code points of a string, each as
    the string of its code units. *)
Fixpoint code_points (s : jsstring) : list jsstring :=
  match s with
  | [] => []
  | u :: s' =>
      if is_high u then
        match s' with
        | v :: s'' => if is_low v then [u; v] :: code_points s'' else [u] :: code_points s'
        | [] => [[u]]
        end
      else [u] :: code_points s'
  end.

Definition validateUtf8 (b : bytes) : result KernelErrorCode jsstring :=
  match textDecode b with Some s => Ok s | None => Err KERNEL_INVALID_UTF8 end.

(** The encoder replaces unpaired surrogates, so this never throws. *)
Definition kernel_utf8 (value : jsstring) : result KernelErrorCode bytes :=
  validateUtf8 (textEncode value) ≫= λ _, Ok (textEncode value).

Definition utf8ScalarLength (b : bytes) : result KernelErrorCode Z :=
  s ← validateUtf8 b; Ok (Z.of_nat (length (code_points s))).

(** [array.slice(start, end)] within bounds. *)
Definition js_slice {A} (start stop : Z) (l : list A) : list A :=
  take (Z.to_nat stop - Z.to_nat start) (drop (Z.to_nat start) l).

Definition utf8Slice (b : bytes) (start stop : Z) : result KernelErrorCode bytes :=
  kernelAssert (is_safe_integer start && is_safe_integer stop && (0 <=? start) && (start <=? stop))
    INVALID_ARGUMENT_ENCODING ≫= λ _,
  s ← validateUtf8 b;
  let scalars := code_points s in
  kernelAssert (stop <=? Z.of_nat (length scalars)) INVALID_ARGUMENT_ENCODING ≫= λ _,
  Ok (textEncode (mjoin (js_slice start stop scalars))).

Definition utf8Concat (parts : list bytes) (maxBytes : Z) : result KernelErrorCode bytes :=
  len ← foldR (λ len part, validateUtf8 part ≫= λ _, Ok (len + Z.of_nat (length part))) 0 parts;
  kernelAssert (len <=? maxBytes) SEMANTIC_RESOURCE_LIMIT ≫= λ _,
  Ok (mjoin parts).

Definition ascii_lower_byte (b : byte) : byte :=
  if (0x41 <=? val b) && (val b <=? 0x5a) then byte_of (val b + 0x20) else b.
Definition ascii_upper_byte (b : byte) : byte :=
  if (0x61 <=? val b) && (val b <=? 0x7a) then byte_of (val b - 0x20) else b.

Definition asciiLower (b : bytes) : result KernelErrorCode bytes :=
  validateUtf8 b ≫= λ _, Ok (ascii_lower_byte <$> b).

Definition asciiUpper (b : bytes) : result KernelErrorCode bytes :=
  validateUtf8 b ≫= λ _, Ok (ascii_upper_byte <$> b).

(** ** Slices *)

Lemma code_points_cons c s : scalar_ok c = true → code_points (units_of c ++ s) = units_of c :: code_points s.
Proof.
  intros Hc. assert (0 ≤ c ≤ 0x10FFFF ∧ (c < 0xD800 ∨ 0xE000 ≤ c)) as Hr
    by (unfold scalar_ok, between in Hc; lia). clear Hc. unfold units_of.
  destruct (Z.ltb_spec c 0x10000); cbn [app code_points]; unfold is_high, is_low.
  - by replace ((55296 <=? c) && (c <=? 56319)) with false by lia.
  - set (q := (c - 65536) / 1024). set (m := (c - 65536) mod 1024).
    assert (0 ≤ q < 1024 ∧ 0 ≤ m < 1024) as (Hq & Hm) by (subst q m; Z.to_euclidean_division_equations; lia).
    replace ((55296 <=? 55296 + q) && (55296 + q <=? 56319)) with true by lia.
    by replace ((56320 <=? 56320 + m) && (56320 + m <=? 57343)) with true by lia.
Qed.

Lemma code_points_units cs :
  Forall (λ c, scalar_ok c = true) cs → code_points (mjoin (units_of <$> cs)) = units_of <$> cs.
Proof.
  induction 1 as [|c cs Hc _ IH]; [done|].
  change (mjoin (units_of <$> (c :: cs))) with (units_of c ++ mjoin (units_of <$> cs)).
  rewrite code_points_cons by done. by rewrite IH.
Qed.

(** The code points of a string make up the string. *)
Lemma code_points_join s : mjoin (code_points s) = s.
Proof.
  cut (∀ n s, (length s ≤ n)%nat → mjoin (code_points s) = s); [intros H; by apply (H (length s))|].
  clear s. induction n as [|n IH]; intros [|u s] Hn; simpl in Hn; [done|lia|done|]. cbn [code_points].
  assert (∀ (x : jsstring) l, mjoin (x :: l) = x ++ mjoin l) as Hcons by done.
  destruct (is_high u); [|rewrite Hcons, IH by lia; done].
  destruct s as [|v s]; [done|]. destruct (is_low v); rewrite Hcons, IH by (simpl in *; lia); done.
Qed.

Lemma textDecode_scalars b cs :
  decode_scalars b = Some cs → take 3 b ≠ BOM → textDecode b = Some (mjoin (units_of <$> cs)).
Proof. intros H Hb. unfold textDecode. by rewrite strip_bom_ne, H. Qed.

Lemma Forall_slice {A} (P : A → Prop) start stop l : Forall P l → Forall P (js_slice start stop l).
Proof. intros H. unfold js_slice. by apply Forall_take, Forall_drop. Qed.

(** On a text without a byte order mark, lengths and slices count scalar values:
    a slice is the encoding of the scalar values in its range. *)
Theorem text_slices (b : bytes) (cs : list Z) (start stop : Z) :
  decode_scalars b = Some cs → take 3 b ≠ BOM → 0 ≤ start ≤ stop → stop ≤ Z.of_nat (length cs) →
  Z.of_nat (length cs) ≤ MAX_SAFE_INTEGER →
  utf8ScalarLength b = Ok (Z.of_nat (length cs)) ∧
  ∃ r, utf8Slice b start stop = Ok r ∧ decode_scalars r = Some (js_slice start stop cs).
Proof.
  intros Hb Hbom Hs Hlen Hmax. pose proof (decode_scalars_sound b cs Hb) as [_ Hok].
  pose proof (textDecode_scalars b cs Hb Hbom) as Hdec. unfold utf8ScalarLength, utf8Slice, validateUtf8, kernelAssert.
  rewrite Hdec. cbn [mbind result_bind]. rewrite code_points_units, length_fmap by done. split; [done|].
  unfold is_safe_integer. rewrite !(proj2 (Z.leb_le _ _)) by lia. cbn [andb ensure mbind result_bind].
  eexists. split; [reflexivity|].
  assert (js_slice start stop (units_of <$> cs) = units_of <$> js_slice start stop cs) as ->.
  { unfold js_slice. by rewrite fmap_take, fmap_drop. }
  unfold textEncode. rewrite scalars_units by (by apply Forall_slice). by apply decode_scalars_complete, Forall_slice.
Qed.

(** A leading U+FEFF is a scalar value of the text, but the length does not count
    it and a slice over the whole text drops it. *)
Example bom_not_counted :
  utf8ScalarLength (BOM ++ [byte_of 0x61]) = Ok 1 ∧ decode_scalars (BOM ++ [byte_of 0x61]) = Some [0xFEFF; 0x61] ∧
  utf8Slice (BOM ++ [byte_of 0x61]) 0 1 = Ok [byte_of 0x61].
Proof. vm_compute. done. Qed.
