(* ===== verification/Entropy.v ===== *)
(** * Deterministic entropy: [packages/kernels/src/entropy.ts]

    HKDF over HMAC-SHA-256, the labelled derivation and the integers and
    identifiers drawn from it.  HMAC is [node:crypto]'s and a parameter; what the
    code relies on is that its digests have 32 bytes. *)

From Stdlib Require Import Strings.Byte Strings.String.
From stdpp Require Import base list option numbers.
From S2P Require Import Prelude Bytes Text Int64.

#[local] Open Scope Z_scope.

Definition uint16be (value : Z) : bytes := be_bytes 2 value.

Definition uint64be (value : Z) : result KernelErrorCode bytes :=
  kernelAssert ((0 <=? value) && (value <=? 0xffffffffffffffff)) INVALID_ARGUMENT_ENCODING ≫= λ _,
  Ok (be_bytes 8 value).

(** One to 128 printable ASCII characters. *)
Definition label_ok (label : jsstring) : bool :=
  (1 <=? length label)%nat && (length label <=? 128)%nat && forallb (λ c, (0x20 <=? c) && (c <=? 0x7e)) label.

Definition entropy_prefix : bytes := textEncode (js "chronolog/entropy/v1").

(** The buffer [info]: its five parts in the order they are set. *)
Definition entropy_info (labelBytes indexBytes : bytes) : bytes :=
  entropy_prefix ++ [byte_of 0] ++ uint16be (Z.of_nat (length labelBytes)) ++ labelBytes ++ indexBytes.

Inductive EntropyError := KernelFailure (e : KernelErrorCode) | UnreachableRejectionLimit.

Section entropy.
(** [createHmac('sha256', key).update(part)...digest()] *)
Context (hmac_sha256 : bytes → bytes → bytes).

Definition hmac (key : bytes) (parts : list bytes) : bytes := hmac_sha256 key (mjoin parts).

Definition hkdfExtractSha256 (salt inputKeyMaterial : bytes) : bytes := hmac salt [inputKeyMaterial].

(** One round per block; the output grows by at least a byte in each, so
    [length] rounds are enough. *)
Fixpoint expand_loop (fuel : nat) (prk info : bytes) (len : nat) (previous output : bytes) (block : Z) : bytes :=
  match fuel with
  | O => output
  | S fuel' =>
    if (length output <? len)%nat then
    let previous' := hmac prk [previous; info; [byte_of block]] in
    expand_loop fuel' prk info len previous' (output ++ take (len - length output) previous') (block + 1)
    else output
  end.

Definition hkdfExpandSha256 (prk info : bytes) (len : Z) : result KernelErrorCode bytes :=
  kernelAssert (is_safe_integer len && (0 <=? len) && (len <=? 255 * 32)) SEMANTIC_RESOURCE_LIMIT ≫= λ _,
  Ok (expand_loop (Z.to_nat len) prk info (Z.to_nat len) [] [] 1).

Definition deriveEntropy (groupId transactionNonce : bytes) (label : jsstring) (index len : Z) :
  result KernelErrorCode bytes :=
  kernelAssert (label_ok label) INVALID_ARGUMENT_ENCODING ≫= λ _,
  let labelBytes := textEncode label in
  indexBytes ← uint64be index;
  hkdfExpandSha256 (hkdfExtractSha256 groupId transactionNonce) (entropy_info labelBytes indexBytes) len.

Definition entropyUuid (b : bytes) : result KernelErrorCode bytes :=
  kernelAssert (16 <=? Z.of_nat (length b)) INVALID_ARGUMENT_ENCODING ≫= λ _,
  let set i f (l : bytes) := match l !! i with Some x => <[i := byte_of (f (val x))]> l | None => l end in
  Ok (set 8%nat (λ x, Z.lor (Z.land x 0x3f) 0x80) (set 6%nat (λ x, Z.lor (Z.land x 0x0f) 0x40) (take 16 b))).

Definition formatUuid (b : bytes) : result KernelErrorCode jsstring :=
  kernelAssert (Z.of_nat (length b) =? 16) INVALID_ARGUMENT_ENCODING ≫= λ _,
  let hex := bytesToHex b in
  let slice i j := take (j - i) (drop i hex) in
  Ok (slice 0%nat 8%nat ++ js "-" ++ slice 8%nat 12%nat ++ js "-" ++ slice 12%nat 16%nat ++ js "-" ++
    slice 16%nat 20%nat ++ js "-" ++ drop 20 hex).

(** Rejection sampling: [attempts] rounds left. *)
Fixpoint bounded_loop (attempts : nat) (groupId nonce : bytes) (label : jsstring) (index upperExclusive attempt : Z) :
  result EntropyError Z :=
  match attempts with
  | O => Err UnreachableRejectionLimit
  | S attempts' =>
    match deriveEntropy groupId nonce (label ++ js "/bounded") (Z.lor (Z.shiftl index 20) attempt) 8 with
    | Err e => Err (KernelFailure e)
    | Ok b =>
      let candidate := foldl (λ acc x, Z.lor (Z.shiftl acc 8) (val x)) 0 b in
      let range := Z.shiftl 1 64 in
      let ceiling := range - range mod upperExclusive in
      if candidate <? ceiling then Ok (candidate mod upperExclusive)
      else bounded_loop attempts' groupId nonce label index upperExclusive (attempt + 1)
    end
  end.

Definition MAX_ATTEMPTS : nat := Z.to_nat 1000000.

Definition entropyBoundedInt (groupId nonce : bytes) (label : jsstring) (index upperExclusive : Z) :
  result EntropyError Z :=
  match kernelAssert ((0 <? upperExclusive) && (upperExclusive <=? Z.shiftl 1 64)) INVALID_ARGUMENT_ENCODING with
  | Err e => Err (KernelFailure e)
  | Ok _ => bounded_loop MAX_ATTEMPTS groupId nonce label index upperExclusive 0
  end.

(** ** HKDF as in its specification *)

(** The blocks T(1), T(2), ... *)
Fixpoint hkdf_block (prk info : bytes) (n : nat) : bytes :=
  match n with
  | O => []
  | S n' => hmac_sha256 prk (hkdf_block prk info n' ++ info ++ [byte_of (Z.of_nat n)])
  end.

Fixpoint hkdf_stream (prk info : bytes) (blocks : nat) : bytes :=
  match blocks with
  | O => []
  | S n => hkdf_stream prk info n ++ hkdf_block prk info (S n)
  end.

Hypothesis hmac_length : ∀ key message, length (hmac_sha256 key message) = 32%nat.

Lemma hkdf_stream_length prk info n : length (hkdf_stream prk info n) = (32 * n)%nat.
Proof.
  induction n as [|n IH]; [done|]. cbn [hkdf_stream hkdf_block]. rewrite length_app, IH, hmac_length. lia.
Qed.

Lemma hkdf_stream_take prk info len n k :
  (len ≤ 32 * n)%nat → take len (hkdf_stream prk info (k + n)) = take len (hkdf_stream prk info n).
Proof.
  intros Hl. induction k as [|k IH]; [done|]. cbn [plus hkdf_stream]. rewrite take_app_le; [exact IH|].
  rewrite hkdf_stream_length. lia.
Qed.

Lemma expand_loop_stream fuel prk info len n :
  (len ≤ fuel + 32 * n)%nat →
  expand_loop fuel prk info len (hkdf_block prk info n) (take len (hkdf_stream prk info n)) (Z.of_nat n + 1) =
  take len (hkdf_stream prk info (fuel + n)).
Proof.
  revert n. induction fuel as [|fuel IH]; intros n Hf; [done|].
  cbn [expand_loop]. rewrite length_take, hkdf_stream_length. destruct (Nat.ltb_spec (len `min` (32 * n)) len) as [Hl|Hl].
  - unfold hmac. change (mjoin [?a; ?b; ?c]) with (a ++ b ++ c ++ []). rewrite app_nil_r.
    replace (Z.of_nat n + 1) with (Z.of_nat (S n)) by lia.
    change (hmac_sha256 prk (hkdf_block prk info n ++ info ++ [byte_of (Z.of_nat (S n))])) with (hkdf_block prk info (S n)).
    replace (take len (hkdf_stream prk info n) ++ take (len - len `min` (32 * n)) (hkdf_block prk info (S n)))
      with (take len (hkdf_stream prk info (S n))).
    + replace (Z.of_nat (S n) + 1) with (Z.of_nat (S n) + 1) by lia. rewrite IH by lia. do 2 f_equal. lia.
    + change (hkdf_stream prk info (S n)) with (hkdf_stream prk info n ++ hkdf_block prk info (S n)).
      rewrite take_app, hkdf_stream_length. do 2 f_equal. lia.
  - symmetry. apply hkdf_stream_take. lia.
Qed.

(** The bounded loop produces the HKDF output: a prefix of the block stream. *)
Lemma hkdfExpand_stream prk info len out :
  hkdfExpandSha256 prk info len = Ok out →
  0 ≤ len ≤ 8160 ∧ out = take (Z.to_nat len) (hkdf_stream prk info 255) ∧ length out = Z.to_nat len.
Proof.
  unfold hkdfExpandSha256, kernelAssert. intros H. inv_ok. rename select (_ && _ = true) into Hlen.
  rewrite !andb_true_iff, !Z.leb_le in Hlen. subst out.
  assert (expand_loop (Z.to_nat len) prk info (Z.to_nat len) [] [] 1 = take (Z.to_nat len) (hkdf_stream prk info 255)) as ->.
  { pose proof (expand_loop_stream (Z.to_nat len) prk info (Z.to_nat len) 0) as H. cbn [hkdf_block hkdf_stream] in H.
    rewrite take_nil in H. change (Z.of_nat 0 + 1) with 1 in H. rewrite H by lia. rewrite Nat.add_0_r.
    destruct (Nat.le_ge_cases (Z.to_nat len) 255) as [Hle|Hge].
    - replace 255%nat with (255 - Z.to_nat len + Z.to_nat len)%nat at 1 by lia. symmetry. apply hkdf_stream_take. lia.
    - replace (Z.to_nat len) with (Z.to_nat len - 255 + 255)%nat at 2 by lia. apply hkdf_stream_take. lia. }
  split; [lia|]. split; [done|]. rewrite length_take, hkdf_stream_length. lia.
Qed.

(** ** Labels and indices are kept apart *)

Lemma ascii_scalars l : forallb (λ c, (0x20 <=? c) && (c <=? 0x7e)) l = true → scalars l = l.
Proof.
  induction l as [|c l IH]; [done|]. cbn [forallb scalars]. intros [Hc Hl]%andb_true_iff.
  unfold is_high, is_low. replace ((55296 <=? c) && (c <=? 56319)) with false by lia.
  replace ((56320 <=? c) && (c <=? 57343)) with false by lia. by rewrite IH.
Qed.

Lemma ascii_encode l : forallb (λ c, (0x20 <=? c) && (c <=? 0x7e)) l = true → textEncode l = byte_of <$> l.
Proof.
  intros Hl. unfold textEncode. rewrite ascii_scalars by done. induction l as [|c l IH]; [done|].
  cbn [forallb] in Hl. apply andb_true_iff in Hl as [Hc Hl].
  change (mjoin (utf8_scalar <$> (c :: l))) with (utf8_scalar c ++ mjoin (utf8_scalar <$> l)).
  rewrite IH by done. unfold utf8_scalar. by rewrite (proj2 (Z.ltb_lt c 0x80)) by lia.
Qed.

Lemma ascii_bytes_inj l l' :
  forallb (λ c, (0x20 <=? c) && (c <=? 0x7e)) l = true → forallb (λ c, (0x20 <=? c) && (c <=? 0x7e)) l' = true →
  byte_of <$> l = byte_of <$> l' → l = l'.
Proof.
  revert l'. induction l as [|c l IH]; intros [|c' l'] Hl Hl' Heq; try done. cbn [forallb] in *.
  apply andb_true_iff in Hl as [Hc Hl]. apply andb_true_iff in Hl' as [Hc' Hl']. rewrite !fmap_cons in Heq.
  injection Heq as Heq Htl. f_equal; [|by apply IH]. apply (f_equal val) in Heq. rewrite !val_byte_of, !Z.mod_small in Heq by lia.
  done.
Qed.

Lemma uint64be_Ok i b : uint64be i = Ok b → 0 ≤ i < 256 ^ Z.of_nat 8 ∧ b = be_bytes 8 i.
Proof.
  unfold uint64be, kernelAssert. intros H. inv_ok. change (256 ^ Z.of_nat 8) with (0xffffffffffffffff + 1). split; [lia|done].
Qed.

Lemma info_parts_inj (prefix : bytes) (l l' : bytes) i i' :
  (length l ≤ 128)%nat → (length l' ≤ 128)%nat → 0 ≤ i < 256 ^ Z.of_nat 8 → 0 ≤ i' < 256 ^ Z.of_nat 8 →
  prefix ++ [byte_of 0] ++ uint16be (Z.of_nat (length l)) ++ l ++ be_bytes 8 i =
  prefix ++ [byte_of 0] ++ uint16be (Z.of_nat (length l')) ++ l' ++ be_bytes 8 i' → l = l' ∧ i = i'.
Proof.
  intros Hl Hl' Hi Hi' Heq. apply app_inv_head, app_inv_head in Heq. unfold uint16be in Heq.
  apply app_inj_1 in Heq as [Hlen Heq]; [|by rewrite !be_bytes_length].
  assert (256 ^ Z.of_nat 2 = 65536) as H2 by reflexivity.
  apply be_bytes_inj in Hlen; [|rewrite H2; lia..].
  apply app_inj_1 in Heq as [Hlab Hidx]; [|lia]. split; [done|]. by apply be_bytes_inj in Hidx.
Qed.

Lemma entropy_info_inj l l' i i' b b' :
  label_ok l = true → label_ok l' = true → uint64be i = Ok b → uint64be i' = Ok b' →
  entropy_info (textEncode l) b = entropy_info (textEncode l') b' → l = l' ∧ i = i'.
Proof.
  unfold label_ok. rewrite !andb_true_iff, !Nat.leb_le. intros ((Hl1 & Hl2) & Hl) ((Hl1' & Hl2') & Hl').
  intros [Hi ->]%uint64be_Ok [Hi' ->]%uint64be_Ok Heq. rewrite !ascii_encode in Heq by done. revert Heq.
  unfold entropy_info. generalize entropy_prefix. intros prefix Heq. apply info_parts_inj in Heq as [Hlab ->]; [|by rewrite length_fmap..|exact Hi|exact Hi'].
  split; [by apply ascii_bytes_inj|done].
Qed.

(** Two derivations under the same group and nonce feed the same block input to
    HMAC only if their labels and indices are the same, and the bytes of a
    derivation are the first ones of the HKDF stream of its label and index. *)
Theorem entropy_separation (groupId nonce : bytes) (l l' : jsstring) (i i' len len' : Z) (out out' : bytes) :
  deriveEntropy groupId nonce l i len = Ok out → deriveEntropy groupId nonce l' i' len' = Ok out' →
  ∃ info info',
  out = take (Z.to_nat len) (hkdf_stream (hkdfExtractSha256 groupId nonce) info 255) ∧
  out' = take (Z.to_nat len') (hkdf_stream (hkdfExtractSha256 groupId nonce) info' 255) ∧
  length out = Z.to_nat len ∧ (info = info' ↔ l = l' ∧ i = i').
Proof.
  unfold deriveEntropy, kernelAssert. intros H H'. inv_ok.
  match goal with H1 : uint64be i = Ok ?b, H2 : uint64be i' = Ok ?b' |- _ =>
    exists (entropy_info (textEncode l) b), (entropy_info (textEncode l') b'); rename H1 into Hb, H2 into Hb' end.
  apply hkdfExpand_stream in H as (_ & Hout & Hlen). apply hkdfExpand_stream in H' as (_ & Hout' & _).
  split; [done|]. split; [done|]. split; [done|]. split.
  - intros Heq. by eapply entropy_info_inj.
  - intros [-> ->]. by rewrite Hb in Hb'; injection Hb' as ->.
Qed.

(** ** Bounded integers *)

Lemma bounded_loop_Ok attempts groupId nonce label index upper attempt v :
  bounded_loop attempts groupId nonce label index upper attempt = Ok v →
  0 ≤ attempt → attempt + Z.of_nat attempts ≤ 2 ^ 20 →
  ∃ used b, attempt ≤ used < attempt + Z.of_nat attempts ∧
  deriveEntropy groupId nonce (label ++ js "/bounded") (index * 2 ^ 20 + used) 8 = Ok b ∧
  be_value b < 2 ^ 64 - 2 ^ 64 mod upper ∧ v = be_value b mod upper.
Proof.
  revert attempt. induction attempts as [|attempts IH]; intros attempt H Ha Hn; [done|]. cbn [bounded_loop] in H.
  rewrite lor_shiftl_pow in H by lia.
  destruct (deriveEntropy _ _ _ _ _) as [b|e] eqn:Hb; [|done]. rewrite fold_shift_be_value in H.
  change (Z.shiftl 1 64) with (2 ^ 64) in H. destruct (Z.ltb_spec (be_value b) (2 ^ 64 - 2 ^ 64 mod upper)).
  - inv_ok. exists attempt, b. split_and!; try lia; done.
  - apply IH in H as (used & b' & H1 & H2 & H3 & H4); [|lia..]. exists used, b'. split_and!; try lia; done.
Qed.

(** The accepted candidates fall evenly on the results: below the ceiling every
    result has the same number of candidates. *)
Definition evenly_covered (upper ceiling : Z) : Prop :=
  ∀ v c, 0 ≤ v < upper → (0 ≤ c < ceiling ∧ c mod upper = v) ↔ ∃ k, 0 ≤ k < ceiling / upper ∧ c = v + k * upper.

Lemma ceiling_even upper : 0 < upper ≤ 2 ^ 64 → evenly_covered upper (2 ^ 64 - 2 ^ 64 mod upper).
Proof.
  intros Hu v c Hv. set (q := 2 ^ 64 / upper). assert (2 ^ 64 - 2 ^ 64 mod upper = q * upper) as ->.
  { pose proof (Z.div_mod (2 ^ 64) upper). lia. }
  rewrite Z.div_mul by lia. split.
  - intros [Hc Hm]. exists (c / upper). pose proof (Z.div_mod c upper). split; [|lia].
    split; [apply Z.div_pos; lia|]. apply Z.div_lt_upper_bound; lia.
  - intros (k & Hk & ->). rewrite Z.mod_add, Z.mod_small by lia. split; [|done]. nia.
Qed.

(** A bounded draw lies in its range and is the residue of a 64-bit value below a
    ceiling under which every result has equally many values; the value comes
    from the derivation numbered by the draw's index and attempt, so draws with
    different indices never share one. *)
Theorem bounded_draw_unbiased (groupId nonce : bytes) (label : jsstring) (index upper v : Z) :
  entropyBoundedInt groupId nonce label index upper = Ok v →
  0 ≤ v < upper ∧
  ∃ attempt b ceiling, 0 ≤ attempt < 2 ^ 20 ∧
  deriveEntropy groupId nonce (label ++ js "/bounded") (index * 2 ^ 20 + attempt) 8 = Ok b ∧
  0 ≤ be_value b < ceiling ∧ ceiling ≤ 2 ^ 64 ∧ evenly_covered upper ceiling ∧ v = be_value b mod upper.
Proof.
  unfold entropyBoundedInt, kernelAssert. destruct (_ && _) eqn:Hu; cbn [ensure]; [|done].
  change (Z.shiftl 1 64) with (2 ^ 64) in Hu. intros H.
  assert (Z.of_nat MAX_ATTEMPTS = 1000000) as Hmax by (unfold MAX_ATTEMPTS; by rewrite Z2Nat.id).
  apply bounded_loop_Ok in H as (used & b & H1 & H2 & H3 & ->); [|lia|rewrite Hmax; lia]. rewrite Hmax in H1.
  assert (0 < upper ≤ 2 ^ 64) as Hup by lia. split; [by apply Z.mod_pos_bound; lia|].
  exists used, b, (2 ^ 64 - 2 ^ 64 mod upper). pose proof (be_value_range b). pose proof (Z.mod_pos_bound (2 ^ 64) upper).
  split_and!; try lia; [done|by apply ceiling_even].
Qed.
End entropy.

(** ** Samples *)

(** A stand-in with digests of 32 bytes. *)
Definition sample_hmac (key message : bytes) : bytes :=
  be_bytes 32 (be_value key + 7 * be_value message).

Lemma sample_hmac_length key message : length (sample_hmac key message) = 32%nat.
Proof. apply be_bytes_length. Qed.

Definition sample_draw (label : jsstring) : bytes :=
  match deriveEntropy sample_hmac [byte_of 1] [byte_of 2] label 0 40 with Ok b => b | Err _ => [] end.

Lemma entropy_separation_witness :
  ∃ info info',
    sample_draw (js "a") = take 40 (hkdf_stream sample_hmac (hkdfExtractSha256 sample_hmac [byte_of 1] [byte_of 2]) info 255) ∧
    sample_draw (js "b") = take 40 (hkdf_stream sample_hmac (hkdfExtractSha256 sample_hmac [byte_of 1] [byte_of 2]) info' 255) ∧
    info ≠ info'.
Proof.
  destruct (entropy_separation sample_hmac sample_hmac_length [byte_of 1] [byte_of 2] (js "a") (js "b") 0 0 40 40
    (sample_draw (js "a")) (sample_draw (js "b"))) as (info & info' & H1 & H2 & _ & H3); [vm_compute; reflexivity..|].
  exists info, info'. split; [exact H1|]. split; [exact H2|]. intros [H _]%H3. discriminate H.
Defined.

Lemma bounded_draw_unbiased_witness :
  ∃ v, entropyBoundedInt sample_hmac [byte_of 1] [byte_of 2] (js "dice") 3 6 = Ok v ∧ 0 ≤ v < 6.
Proof.
  eexists. split; [vm_compute; reflexivity|].
  apply (bounded_draw_unbiased sample_hmac [byte_of 1] [byte_of 2] (js "dice") 3 6). vm_compute. reflexivity.
Defined.
