(* ===== verification/Json.v ===== *)
(** * Canonical JSON: [packages/kernels/src/json.ts]

    The bounded parser, the serializer, JSON Pointer, JSON Merge Patch and JSON
    Patch over exact numbers and sorted UTF-8 keys.  The parser's [index] is the
    length of the consumed prefix; the model carries the rest of the source
    instead, and the node counter. *)

From Stdlib Require Import Strings.Byte Strings.String.
From stdpp Require Import base list option numbers.
From S2P Require Import Prelude JsMap Bytes Text JsNumber Int64 KernelText Decimal Vector.

#[local] Open Scope Z_scope.

(** ** Values *)

#[local] Set Warnings "-register-all".
Inductive json :=
  | JNull
  | JBoolean (value : bool)
  | JNumber (coefficient scale : Z)
  | JString (utf8 : bytes)
  | JArray (values : list json)
  | JObject (entries : list (bytes * json)).

Record JsonLimits := mkJsonLimits {
  maxBytes : Z;
  maxDepth : Z;
  maxNodes : Z;
  maxStringBytes : Z;
  maxNumberDigits : Z;
}.

Definition DEFAULT_JSON_LIMITS : JsonLimits := mkJsonLimits 1048576 128 100000 1048576 10000.

(** Errors: those of the kernels, and the [TypeError] of decoding bytes that are
    not UTF-8. *)
Inductive JsonError := KernelFailed (code : KernelErrorCode) | DecodeTypeError.

Definition lift_kernel {A} (r : result KernelErrorCode A) : result JsonError A :=
  match r with Ok a => Ok a | Err e => Err (KernelFailed e) end.

Definition jsonAssert (condition : bool) (code : KernelErrorCode) : result JsonError unit :=
  lift_kernel (kernelAssert condition code).

(** [decoder.decode(bytes)] *)
Definition json_decode (b : bytes) : result JsonError jsstring :=
  match textDecode b with Some s => Ok s | None => Err DecodeTypeError end.

(** The parser raises a kernel error.  [out_of_fuel] is not of the code: it is how the
    bound of a recursion of the model would show, and [JsonTheorems.parse_terminates]
    proves that no source has it. *)
Inductive ParserError := Raised (code : KernelErrorCode) | out_of_fuel.

#[export] Instance ParserError_eq_dec : EqDecision ParserError.
Proof. solve_decision. Defined.

Abbreviation raises code := (Err (Raised code)).

Definition parserAssert (condition : bool) (code : KernelErrorCode) : result ParserError unit := ensure condition (Raised code).

(** ** Lexical parts *)

Definition is_json_space (c : Z) : bool := (c =? 32) || (c =? 10) || (c =? 13) || (c =? 9).

Fixpoint whitespace (rest : jsstring) : jsstring :=
  match rest with
  | c :: r => if is_json_space c then whitespace r else rest
  | [] => []
  end.

Definition is_hex (c : Z) : bool :=
  is_digit c || ((97 <=? c) && (c <=? 102)) || ((65 <=? c) && (c <=? 70)).

Definition hex_of (c : Z) : Z := if c <=? 57 then c - 48 else if c <=? 70 then c - 55 else c - 87.

Definition hex4 (a b c d : Z) : Z := hex_of a * 4096 + hex_of b * 256 + hex_of c * 16 + hex_of d.

(** The code units of the escape and the rest. *)
Definition unicodeEscape (rest : jsstring) : result ParserError (jsstring * jsstring) :=
  match rest with
  | a :: b :: c :: d :: r =>
      if negb (is_hex a && is_hex b && is_hex c && is_hex d) then raises INVALID_JSON else
      let first := hex4 a b c d in
      if is_high first then
        match r with
        | x :: y :: a' :: b' :: c' :: d' :: r' =>
            if (x =? 92) && (y =? 117) && ((a' =? 100) || (a' =? 68)) && (((99 <=? b') && (b' <=? 102)) || ((67 <=? b') && (b' <=? 70)))
               && is_hex c' && is_hex d'
            then Ok (units_of (0x10000 + Z.shiftl (first - 0xD800) 10 + hex4 a' b' c' d' - 0xDC00), r')
            else raises INVALID_JSON
        | _ => raises INVALID_JSON
        end
      else if is_low first then raises INVALID_JSON
      else Ok (units_of first, r)
  | _ => raises INVALID_JSON
  end.

(** The escapes of one character. *)
Definition simple_escape (c : Z) : option Z :=
  if (c =? 34) || (c =? 92) || (c =? 47) then Some c
  else if c =? 98 then Some 8
  else if c =? 102 then Some 12
  else if c =? 110 then Some 10
  else if c =? 114 then Some 13
  else if c =? 116 then Some 9
  else None.

(** The loop of [string] after the opening quote; every round consumes at least
    one code unit. *)
Fixpoint string_loop (fuel : nat) (limits : JsonLimits) (text rest : jsstring) : result ParserError (jsstring * jsstring) :=
  match fuel with
  | O => Err out_of_fuel
  | S fuel' =>
      match rest with
      | [] => raises INVALID_JSON
      | c :: r =>
          if c =? 34 then
            parserAssert (Z.of_nat (length (textEncode text)) <=? maxStringBytes limits) SEMANTIC_RESOURCE_LIMIT ≫= λ _,
            Ok (text, r)
          else if c =? 92 then
            match r with
            | [] => raises INVALID_JSON
            | e :: r' =>
                match simple_escape e with
                | Some u => string_loop fuel' limits (text ++ [u]) r'
                | None =>
                    if e =? 117 then '(units, r'') ← unicodeEscape r'; string_loop fuel' limits (text ++ units) r''
                    else raises INVALID_JSON
                end
            end
          else if c <? 32 then raises INVALID_JSON
          else if is_high c then
            match r with
            | low :: r' => if is_low low then string_loop fuel' limits (text ++ [c; low]) r' else raises INVALID_JSON
            | [] => raises INVALID_JSON
            end
          else if is_low c then raises INVALID_JSON
          else string_loop fuel' limits (text ++ [c]) r
      end
  end.

Definition parse_string (limits : JsonLimits) (rest : jsstring) : result ParserError (jsstring * jsstring) :=
  match rest with
  | c :: r => if c =? 34 then string_loop (S (length r)) limits [] r else raises INVALID_JSON
  | [] => raises INVALID_JSON
  end.

(** ** Numbers *)

(** The integer part, the fraction and the exponent at the start of a text. *)
Definition match_integer (rest : jsstring) : option (jsstring * jsstring) :=
  match rest with
  | c :: r => if c =? 48 then Some ([48], r) else if is_digit c then Some (span_digits rest) else None
  | [] => None
  end.

Definition match_json_fraction (rest : jsstring) : option jsstring * jsstring :=
  match rest with
  | c :: r =>
      let (ds, r') := span_digits r in
      if (c =? 46) && negb (length ds =? 0)%nat then (Some ds, r') else (None, rest)
  | [] => (None, [])
  end.

Definition match_exponent (rest : jsstring) : option (bool * jsstring) * jsstring :=
  match rest with
  | c :: r =>
      let (negative, r1) := match r with s :: r' => if (s =? 43) || (s =? 45) then (s =? 45, r') else (false, r) | [] => (false, r) end in
      let (ds, r2) := span_digits r1 in
      if ((c =? 101) || (c =? 69)) && negb (length ds =? 0)%nat then (Some (negative, ds), r2) else (None, rest)
  | [] => (None, [])
  end.

(** [/\s/.test(c)]: ECMAScript white space and line terminators. *)
Definition is_regex_space (c : Z) : bool :=
  ((9 <=? c) && (c <=? 13)) || (c =? 32) || (c =? 160) || (c =? 0x1680) || ((0x2000 <=? c) && (c <=? 0x200A)) ||
  (c =? 0x2028) || (c =? 0x2029) || (c =? 0x202F) || (c =? 0x205F) || (c =? 0x3000) || (c =? 0xFEFF).

Definition number_suffix_ok (rest : jsstring) : bool :=
  match rest with
  | [] => true
  | c :: _ => is_regex_space c || (c =? 44) || (c =? 93) || (c =? 125)
  end.

(** [while (scale > 0 && coefficient % 10n === 0n)], with [scale] as the counter. *)
Fixpoint normalize_number (scale : nat) (coefficient : Z) : Z * Z :=
  match scale with
  | O => (coefficient, 0)
  | S scale' =>
      if Z.rem coefficient 10 =? 0 then normalize_number scale' (Z.quot coefficient 10)
      else (coefficient, Z.of_nat scale)
  end.

Definition number_value (negative : bool) (integer : jsstring) (fraction : option jsstring) (exponent : Z) : json :=
  let coefficient := digits_value (integer ++ default [] fraction) * (if negative then -1 else 1) in
  let scale := Z.of_nat (length (default [] fraction)) - exponent in
  let '(coefficient, scale) := if scale <? 0 then (coefficient * 10 ^ (- scale), 0) else (coefficient, scale) in
  let '(coefficient, scale) := normalize_number (Z.to_nat scale) coefficient in
  JNumber coefficient (if coefficient =? 0 then 0 else scale).

Definition parse_number (limits : JsonLimits) (rest : jsstring) : result ParserError (json * jsstring) :=
  let (negative, body) := split_sign rest in
  match match_integer body with
  | None => raises INVALID_JSON
  | Some (integer, r1) =>
      let (fraction, r2) := match_json_fraction r1 in
      let (exponentText, r3) := match_exponent r2 in
      parserAssert (number_suffix_ok r3) INVALID_JSON ≫= λ _,
      let digitCount := (length integer + length (default [] fraction) + length (default [] (snd <$> exponentText)))%nat in
      parserAssert (Z.of_nat digitCount <=? maxNumberDigits limits) SEMANTIC_RESOURCE_LIMIT ≫= λ _,
      let exponent := match exponentText with
        | Some (neg, ds) => if (neg : bool) then - digits_value ds else digits_value ds
        | None => 0
        end in
      parserAssert (is_safe_integer exponent && (Z.abs exponent <=? maxNumberDigits limits)) SEMANTIC_RESOURCE_LIMIT ≫= λ _,
      Ok (number_value negative integer fraction exponent, r3)
  end.

(** ** The parser *)

(** What is left of the source, and the nodes seen. *)
Record parser := mkParser { p_rest : jsstring; p_nodes : Z }.

Definition bumpNode (limits : JsonLimits) (depth : Z) (p : parser) : result ParserError parser :=
  let nodes := p_nodes p + 1 in
  parserAssert (nodes <=? maxNodes limits) SEMANTIC_RESOURCE_LIMIT ≫= λ _,
  parserAssert (depth <=? maxDepth limits) JSON_DEPTH_LIMIT ≫= λ _,
  Ok (mkParser (p_rest p) nodes).

Definition skip_space (p : parser) : parser := mkParser (whitespace (p_rest p)) (p_nodes p).

(** [this.source[this.index] === c] *)
Definition head_is (c : Z) (rest : jsstring) : bool := match rest with x :: _ => x =? c | [] => false end.

Definition starts_with (prefix text : jsstring) : bool := bool_decide (take (length prefix) text = prefix).

Definition compareEntries (a b : bytes * json) : Z := kernelCompareBytes a.1 b.1.

(** [value], the loop of [array] and the loop of [object]; the fuel counts calls. *)
Fixpoint parse_value (fuel : nat) (limits : JsonLimits) (depth : Z) (p : parser) : result ParserError (json * parser) :=
  match fuel with
  | O => Err out_of_fuel
  | S fuel' =>
    p ← bumpNode limits depth p;
    let p := skip_space p in
    let rest := p_rest p in
    let advance n := mkParser (drop n rest) (p_nodes p) in
    if starts_with (js "null") rest then Ok (JNull, advance 4%nat)
    else if starts_with (js "true") rest then Ok (JBoolean true, advance 4%nat)
    else if starts_with (js "false") rest then Ok (JBoolean false, advance 5%nat)
    else match rest with
    | [] => raises INVALID_JSON
    | c :: r =>
      if c =? 34 then
      '(text, r') ← parse_string limits rest; Ok (JString (textEncode text), mkParser r' (p_nodes p))
      else if c =? 91 then
      let p := skip_space (mkParser r (p_nodes p)) in
      if head_is 93 (p_rest p) then Ok (JArray [], mkParser (tail (p_rest p)) (p_nodes p))
      else parse_items fuel' limits depth [] p
      else if c =? 123 then
      let p := skip_space (mkParser r (p_nodes p)) in
      if head_is 125 (p_rest p) then Ok (JObject [], mkParser (tail (p_rest p)) (p_nodes p))
      else parse_members fuel' limits depth [] [] p
      else if (c =? 45) || is_digit c then
      '(v, r') ← parse_number limits rest; Ok (v, mkParser r' (p_nodes p))
      else raises INVALID_JSON
    end
  end
  with parse_items (fuel : nat) (limits : JsonLimits) (depth : Z) (values : list json) (p : parser) :
  result ParserError (json * parser) :=
  match fuel with
  | O => Err out_of_fuel
  | S fuel' =>
    '(v, p) ← parse_value fuel' limits (depth + 1) p;
    let values := values ++ [v] in
    let p := skip_space p in
    match p_rest p with
    | [] => raises INVALID_JSON
    | c :: r =>
      if c =? 93 then Ok (JArray values, mkParser r (p_nodes p))
      else if c =? 44 then
      let p := skip_space (mkParser r (p_nodes p)) in
      if head_is 93 (p_rest p) then raises INVALID_JSON else parse_items fuel' limits depth values p
      else raises INVALID_JSON
    end
  end
  with parse_members (fuel : nat) (limits : JsonLimits) (depth : Z) (seen : jsset jsstring) (entries : list (bytes * json))
  (p : parser) : result ParserError (json * parser) :=
  match fuel with
  | O => Err out_of_fuel
  | S fuel' =>
    '(keyText, r) ← parse_string limits (p_rest p);
    parserAssert (negb (set_has keyText seen)) JSON_DUPLICATE_KEY ≫= λ _,
    let p := skip_space (mkParser r (p_nodes p)) in
    parserAssert (head_is 58 (p_rest p)) INVALID_JSON ≫= λ _,
    '(v, p) ← parse_value fuel' limits (depth + 1) (mkParser (tail (p_rest p)) (p_nodes p));
    let entries := entries ++ [(textEncode keyText, v)] in
    let p := skip_space p in
    match p_rest p with
    | [] => raises INVALID_JSON
    | c :: r =>
      if c =? 125 then Ok (JObject (js_sort compareEntries entries), mkParser r (p_nodes p))
      else if c =? 44 then
      let p := skip_space (mkParser r (p_nodes p)) in
      if head_is 125 (p_rest p) then raises INVALID_JSON
      else parse_members fuel' limits depth (set_add keyText seen) entries p
      else raises INVALID_JSON
    end
  end.

(** Enough for every source (see [JsonTheorems.parse_terminates]). *)
Definition parse_fuel (source : jsstring) : nat := 2 * length source + 2.

(** [parseCanonicalJson] of a string and of bytes. *)
Definition parseCanonicalJson (source : jsstring) (limits : JsonLimits) : result ParserError json :=
  parserAssert (Z.of_nat (length (textEncode source)) <=? maxBytes limits) SEMANTIC_RESOURCE_LIMIT ≫= λ _,
  '(v, p) ← parse_value (parse_fuel source) limits 0 (mkParser source 0);
  parserAssert (bool_decide (whitespace (p_rest p) = [])) INVALID_JSON ≫= λ _,
  Ok v.

Definition parseCanonicalJson_bytes (input : bytes) (limits : JsonLimits) : result ParserError json :=
  match textDecode input with
  | Some source => parseCanonicalJson source limits
  | None => raises KERNEL_INVALID_UTF8
  end.

(** ** The serializer *)

Definition escape_piece (piece : jsstring) : jsstring :=
  match piece with
  | [c] =>
      if c =? 34 then [92; 34]
      else if c =? 92 then [92; 92]
      else if c =? 8 then js "\b"
      else if c =? 12 then js "\f"
      else if c =? 10 then js "\n"
      else if c =? 13 then js "\r"
      else if c =? 9 then js "\t"
      else if c <? 32 then js "\u00" ++ [hex_digit (c / 16); hex_digit (c mod 16)]
      else [c]
  | _ => piece
  end.

Definition escapeJsonString (value : jsstring) : jsstring :=
  [34] ++ mjoin (escape_piece <$> code_points value) ++ [34].

Definition formatJsonNumber (coefficient scale : Z) : jsstring :=
  if coefficient =? 0 then js "0" else
  let negative := coefficient <? 0 in
  let digits := pad_start (Z.to_nat (scale + 1)) (js_decimal (if negative then - coefficient else coefficient)) in
  let split := (length digits - Z.to_nat scale)%nat in
  let body := if scale =? 0 then digits else take split digits ++ js "." ++ drop split digits in
  if negative then js "-" ++ body else body.

(** [parts.join(',')] *)
Definition comma_join (parts : list jsstring) : jsstring :=
  match parts with
  | [] => []
  | first :: rest => first ++ mjoin ((λ part, 44 :: part) <$> rest)
  end.

Fixpoint serializeCanonicalJson (value : json) : result JsonError jsstring :=
  match value with
  | JNull => Ok (js "null")
  | JBoolean b => Ok (if b then js "true" else js "false")
  | JNumber c s => Ok (formatJsonNumber c s)
  | JString b => s ← json_decode b; Ok (escapeJsonString s)
  | JArray values =>
      parts ← mapR serializeCanonicalJson values; Ok ([91] ++ comma_join parts ++ [93])
  | JObject entries =>
      parts ← mapR (λ entry : bytes * json,
        key ← json_decode entry.1;
        text ← serializeCanonicalJson entry.2;
        Ok (escapeJsonString key ++ [58] ++ text)) entries;
      Ok ([123] ++ comma_join parts ++ [125])
  end.

(** ** JSON Pointer *)

(** [text.split('/')] *)
Fixpoint split_slash (text : jsstring) : list jsstring :=
  match text with
  | [] => [[]]
  | c :: r =>
      if c =? 47 then [] :: split_slash r
      else match split_slash r with
        | token :: tokens => (c :: token) :: tokens
        | [] => [[c]]
        end
  end.

(** [!/~(?:[^01]|$)/.test(token)]: every tilde is followed by 0 or 1.  The dot-free
    class matches any other code unit, line terminators included. *)
Fixpoint pointer_escapes_ok (token : jsstring) : bool :=
  match token with
  | [] => true
  | c :: r =>
      (if c =? 126 then match r with d :: _ => (d =? 48) || (d =? 49) | [] => false end else true)
      && pointer_escapes_ok r
  end.

(** [token.replace(/~1/g, '/')] and [token.replace(/~0/g, '~')] *)
Fixpoint replace_escape (digit by_ : Z) (token : jsstring) : jsstring :=
  match token with
  | c :: r =>
      match r with
      | d :: r' => if (c =? 126) && (d =? digit) then by_ :: replace_escape digit by_ r' else c :: replace_escape digit by_ r
      | [] => [c]
      end
  | [] => []
  end.

Definition decodePointer (pointer : jsstring) : result JsonError (list jsstring) :=
  match pointer with
  | [] => Ok []
  | c :: r =>
      jsonAssert (c =? 47) JSON_PATH_ERROR ≫= λ _,
      mapR (λ token, jsonAssert (pointer_escapes_ok token) JSON_PATH_ERROR ≫= λ _,
        Ok (replace_escape 48 126 (replace_escape 49 47 token))) (split_slash r)
  end.

(** [entries.findIndex(...)]; [None] is -1. *)
Definition entryIndex (entries : list (bytes * json)) (token : jsstring) : option nat :=
  fst <$> list_find (λ entry : bytes * json, kernelCompareBytes entry.1 (textEncode token) = 0) entries.

(** The array index of a token, with its checks; [Number(token)] of a digit string
    is exact up to the largest safe integer and not safe above. *)
Definition arrayIndex (token : jsstring) (maximum : Z) : result JsonError nat :=
  jsonAssert (canonical_natural token) JSON_PATH_ERROR ≫= λ _,
  let index := digits_value token in
  jsonAssert (is_safe_integer index && (index <=? maximum)) JSON_PATH_ERROR ≫= λ _,
  Ok (Z.to_nat index).

Definition pointer_step (current : json) (token : jsstring) : result JsonError json :=
  match current with
  | JObject entries =>
      match entryIndex entries token ≫= λ i, entries !! i with
      | Some entry => Ok entry.2
      | None => Err (KernelFailed JSON_PATH_ERROR)
      end
  | JArray values =>
      i ← arrayIndex token (Z.of_nat (length values) - 1);
      match values !! i with Some v => Ok v | None => Err (KernelFailed JSON_PATH_ERROR) end
  | _ => Err (KernelFailed JSON_PATH_ERROR)
  end.

Definition jsonPointer (value : json) (pointer : jsstring) : result JsonError json :=
  tokens ← decodePointer pointer; foldR pointer_step value tokens.

Definition canonicalJsonEqual (a b : json) : result JsonError bool :=
  ta ← serializeCanonicalJson a; tb ← serializeCanonicalJson b; Ok (bool_decide (ta = tb)).

(** ** JSON Merge Patch *)

(** [Array.from(values, ...)] sorted by key. *)
Definition entries_of (values : jsmap jsstring json) : list (bytes * json) :=
  js_sort compareEntries ((λ kv : jsstring * json, (textEncode kv.1, kv.2)) <$> (values : list (jsstring * json))).

(** [new Map(entries.map((entry) => [decoder.decode(entry.key), entry.value]))] *)
Definition decoded_entries (entries : list (bytes * json)) : result JsonError (jsmap jsstring json) :=
  foldR (λ m (entry : bytes * json), key ← json_decode entry.1; Ok (map_set key entry.2 m)) [] entries.

Fixpoint jsonMergePatch (target patch : json) {struct patch} : result JsonError json :=
  match patch with
  | JObject patchEntries =>
      values ← match target with JObject entries => decoded_entries entries | _ => Ok [] end;
      values ← (fix loop (m : jsmap jsstring json) (l : list (bytes * json)) : result JsonError (jsmap jsstring json) :=
        match l with
        | [] => Ok m
        | (keyBytes, value) :: l' =>
            key ← json_decode keyBytes;
            match value with
            | JNull => loop (map_delete key m) l'
            | _ =>
                merged ← jsonMergePatch (default (JObject []) (map_get key m)) value;
                loop (map_set key merged m) l'
            end
        end) values patchEntries;
      Ok (JObject (entries_of values))
  | _ => Ok patch
  end.

(** ** JSON Patch *)

Inductive PatchAction := patch_add | patch_replace | patch_remove.

#[export] Instance PatchAction_eq_dec : EqDecision PatchAction.
Proof. solve_decision. Defined.

Inductive JsonPatchOperation :=
  | op_add (path : jsstring) (value : json)
  | op_replace (path : jsstring) (value : json)
  | op_test (path : jsstring) (value : json)
  | op_remove (path : jsstring)
  | op_copy (from path : jsstring)
  | op_move (from path : jsstring).

Definition objectValue (entries : list (bytes * json)) (token : jsstring) : option json :=
  entryIndex entries token ≫= λ i, snd <$> entries !! i.

(** [changedAt(current, [token], action, replacement)] on an object. *)
Definition change_member (entries : list (bytes * json)) (token : jsstring) (action : PatchAction) (replacement : option json) :
    result JsonError json :=
  jsonAssert (bool_decide (action = patch_add) || bool_decide (is_Some (objectValue entries token))) JSON_PATH_ERROR ≫= λ _,
  values ← decoded_entries entries;
  let values := match action, replacement with
    | patch_remove, _ => map_delete token values
    | _, Some v => map_set token v values
    | _, None => values
    end in
  Ok (JObject (entries_of values)).

(** [array.splice(index, 0, v)] and [array.splice(index, 1)] *)
Definition splice_in {A} (i : nat) (v : A) (l : list A) : list A := take i l ++ v :: drop i l.
Definition splice_out {A} (i : nat) (l : list A) : list A := take i l ++ drop (S i) l.

Fixpoint changedAt (current : json) (tokens : list jsstring) (action : PatchAction) (replacement : option json) {struct tokens} :
    result JsonError json :=
  match tokens with
  | [] =>
      match action, replacement with
      | patch_remove, _ | _, None => Err (KernelFailed JSON_PATH_ERROR)
      | _, Some v => Ok v
      end
  | token :: rest =>
      match current with
      | JObject entries =>
          match rest with
          | [] => change_member entries token action replacement
          | _ =>
              match objectValue entries token with
              | None => Err (KernelFailed JSON_PATH_ERROR)
              | Some existing =>
                  inner ← changedAt existing rest action replacement;
                  change_member entries token patch_replace (Some inner)
              end
          end
      | JArray values =>
          let size := Z.of_nat (length values) in
          let last := bool_decide (rest = []) in
          let adding := bool_decide (action = patch_add) && last in
          index ← (if bool_decide (token = js "-") then
                     jsonAssert adding JSON_PATH_ERROR ≫= λ _, Ok (length values)
                   else arrayIndex token (if adding then size else size - 1));
          match rest with
          | [] =>
              match action, replacement with
              | patch_add, Some v => Ok (JArray (splice_in index v values))
              | patch_replace, Some v => Ok (JArray (<[index := v]> values))
              | patch_remove, _ => Ok (JArray (splice_out index values))
              | _, None => Err (KernelFailed JSON_PATH_ERROR)
              end
          | _ =>
              match values !! index with
              | Some v => inner ← changedAt v rest action replacement; Ok (JArray (<[index := inner]> values))
              | None => Err (KernelFailed JSON_PATH_ERROR)
              end
          end
      | _ => Err (KernelFailed JSON_PATH_ERROR)
      end
  end.

(** One operation; the rethrown error has the same code. *)
Definition apply_operation (current : json) (operation : JsonPatchOperation) : result JsonError json :=
  match operation with
  | op_test path value =>
      found ← jsonPointer current path;
      same ← canonicalJsonEqual found value;
      jsonAssert same JSON_PATH_ERROR ≫= λ _, Ok current
  | op_add path value => tokens ← decodePointer path; changedAt current tokens patch_add (Some value)
  | op_replace path value => tokens ← decodePointer path; changedAt current tokens patch_replace (Some value)
  | op_remove path => tokens ← decodePointer path; changedAt current tokens patch_remove None
  | op_copy from path =>
      copied ← jsonPointer current from;
      tokens ← decodePointer path; changedAt current tokens patch_add (Some copied)
  | op_move from path =>
      copied ← jsonPointer current from;
      jsonAssert (negb (starts_with (from ++ [47]) (path ++ [47]))) JSON_PATH_ERROR ≫= λ _,
      fromTokens ← decodePointer from;
      removed ← changedAt current fromTokens patch_remove None;
      tokens ← decodePointer path; changedAt removed tokens patch_add (Some copied)
  end.

Definition applyJsonPatch (value : json) (operations : list JsonPatchOperation) : result JsonError json :=
  foldR apply_operation value operations.
