(* ===== verification/JsonProofs.v ===== *)
(** * Lemmas on canonical JSON: what the parser reads of a serialized value *)

From Stdlib Require Import Strings.Byte Strings.String.
From stdpp Require Import base list option numbers sets sorting.
From S2P Require Import Prelude JsMap Bytes Text JsNumber Int64 KernelText Decimal DecimalTheorems Vector Json.

#[local] Open Scope Z_scope.

(** ** Strings *)

Lemma scalar_range c : scalar_ok c = true → 0 ≤ c ≤ 0x10FFFF ∧ (c < 0xD800 ∨ 0xE000 ≤ c).
Proof. unfold scalar_ok, between. lia. Qed.

(** One round of the loop reads one escaped scalar value. *)
Lemma string_loop_piece fuel limits text c r :
  scalar_ok c = true →
  string_loop (S fuel) limits text (escape_piece (units_of c) ++ r) = string_loop fuel limits (text ++ units_of c) r.
Proof.
  intros Hc. pose proof (scalar_range c Hc) as Hr. unfold units_of.
  destruct (Z.ltb_spec c 0x10000) as [Hs|Hs].
  - unfold escape_piece.
    destruct (Z.eqb_spec c 34) as [->|]; [done|]. destruct (Z.eqb_spec c 92) as [->|]; [done|].
    destruct (Z.eqb_spec c 8) as [->|]; [done|]. destruct (Z.eqb_spec c 12) as [->|]; [done|].
    destruct (Z.eqb_spec c 10) as [->|]; [done|]. destruct (Z.eqb_spec c 13) as [->|]; [done|].
    destruct (Z.eqb_spec c 9) as [->|]; [done|]. destruct (Z.ltb_spec c 32) as [Hlt|Hlt].
    + assert (∃ i, c = Z.of_nat i ∧ (i < 32)%nat) as (i & -> & Hi) by (exists (Z.to_nat c); lia).
      do 32 (destruct i as [|i]; [first [exfalso; lia|done]|]). lia.
    + cbn [app string_loop]. unfold is_high, is_low.
      rewrite (proj2 (Z.eqb_neq c 34)), (proj2 (Z.eqb_neq c 92)), (proj2 (Z.ltb_ge c 32)) by lia.
      replace ((55296 <=? c) && (c <=? 56319)) with false by lia.
      by replace ((56320 <=? c) && (c <=? 57343)) with false by lia.
  - set (q := (c - 65536) / 1024). set (m := (c - 65536) mod 1024).
    assert (0 ≤ q < 1024 ∧ 0 ≤ m < 1024) as (Hq & Hm) by (subst q m; Z.to_euclidean_division_equations; lia).
    cbn [escape_piece app string_loop]. unfold is_high, is_low.
    rewrite (proj2 (Z.eqb_neq (55296 + q) 34)), (proj2 (Z.eqb_neq (55296 + q) 92)), (proj2 (Z.ltb_ge (55296 + q) 32)) by lia.
    replace ((55296 <=? 55296 + q) && (55296 + q <=? 56319)) with true by lia.
    by replace ((56320 <=? 56320 + m) && (56320 + m <=? 57343)) with true by lia.
Qed.

Lemma escape_piece_length p : (1 ≤ length p)%nat → (1 ≤ length (escape_piece p))%nat.
Proof. destruct p as [|c [|d p]]; simpl; try lia. repeat case_match; simpl; lia. Qed.

Lemma units_of_length c : (1 ≤ length (units_of c))%nat.
Proof. unfold units_of. case_match; simpl; lia. Qed.

Lemma string_loop_escaped fuel limits cs text k :
  Forall (λ c, scalar_ok c = true) cs → (length cs < fuel)%nat →
  Z.of_nat (length (textEncode (text ++ mjoin (units_of <$> cs)))) ≤ maxStringBytes limits →
  string_loop fuel limits text (mjoin (escape_piece <$> (units_of <$> cs)) ++ 34 :: k) =
    Ok (text ++ mjoin (units_of <$> cs), k).
Proof.
  intros Hcs. revert fuel text. induction Hcs as [|c cs Hc _ IH]; intros fuel text Hf Hlen.
  - destruct fuel as [|fuel]; [simpl in Hf; lia|]. change (mjoin (units_of <$> [])) with (@nil Z) in *. rewrite app_nil_r in *.
    cbn [fmap list_fmap mjoin list_join app string_loop Z.eqb Pos.eqb]. unfold parserAssert.
    by rewrite (proj2 (Z.leb_le _ _)) by lia.
  - destruct fuel as [|fuel]; [simpl in Hf; lia|].
    change (mjoin (escape_piece <$> (units_of <$> (c :: cs)))) with
      (escape_piece (units_of c) ++ mjoin (escape_piece <$> (units_of <$> cs))).
    change (mjoin (units_of <$> (c :: cs))) with (units_of c ++ mjoin (units_of <$> cs)) in *.
    rewrite <-app_assoc, string_loop_piece by done. rewrite (app_assoc text) in *. apply IH; [simpl in Hf; lia|done].
Qed.

Lemma escaped_length cs : (length cs ≤ length (mjoin (escape_piece <$> (units_of <$> cs))))%nat.
Proof.
  induction cs as [|c cs IH]; [simpl; lia|].
  change (mjoin (escape_piece <$> (units_of <$> (c :: cs)))) with
    (escape_piece (units_of c) ++ mjoin (escape_piece <$> (units_of <$> cs))).
  rewrite length_app. pose proof (escape_piece_length _ (units_of_length c)). simpl. lia.
Qed.

(** A quoted string reads back. *)
Lemma parse_string_escape limits s k :
  well_formed s = true → Z.of_nat (length (textEncode s)) ≤ maxStringBytes limits →
  parse_string limits (escapeJsonString s ++ k) = Ok (s, k).
Proof.
  intros [Hs Hok]%well_formed_scalars Hlen. set (cs := scalars s) in *. clearbody cs. subst s.
  unfold escapeJsonString, parse_string. cbn [app]. rewrite code_points_units by done. rewrite <-app_assoc. cbn [app].
  rewrite string_loop_escaped; [done|done| |done].
  rewrite length_app. pose proof (escaped_length cs). lia.
Qed.

(** ** Numbers *)

(** What may follow a value: nothing, white space or a structural character. *)
Definition delimiter (k : jsstring) : bool :=
  match k with
  | [] => true
  | c :: _ => is_json_space c || (c =? 44) || (c =? 93) || (c =? 125)
  end.

(** A number as the parser leaves it: no trailing zeros in the fraction. *)
Definition number_normal (c s : Z) : bool := (0 <=? s) && ((s =? 0) || negb (c mod 10 =? 0)).

Lemma delimiter_head c k :
  delimiter (c :: k) = true → is_digit c = false ∧ c ≠ 46 ∧ c ≠ 101 ∧ c ≠ 69 ∧ number_suffix_ok (c :: k) = true.
Proof. unfold delimiter, is_json_space, number_suffix_ok, is_regex_space, is_digit. lia. Qed.

Lemma match_integer_canonical i r :
  canonical_natural i = true → (∀ c l, r = c :: l → is_digit c = false) → match_integer (i ++ r) = Some (i, r).
Proof.
  intros Hi Hr. pose proof (canonical_natural_digits i Hi) as Hd. pose proof (span_digits_app i r Hd Hr) as Hspan.
  destruct i as [|c i]; [done|]. cbn [app match_integer] in *. destruct (Z.eqb_spec c 48) as [->|Hc].
  - destruct i as [|d i]; [done|]. done.
  - cbn [forallb] in Hd. apply andb_true_iff in Hd as [-> _]. by rewrite Hspan.
Qed.

Lemma formatJsonNumber_decimal c s :
  number_normal c s = true → formatJsonNumber c s = formatDecimal (mkDecimal c s) true.
Proof.
  unfold number_normal. intros Hn. unfold formatJsonNumber, formatDecimal. cbn [coefficient scale negb andb].
  destruct (Z.eqb_spec c 0) as [->|Hc].
  - replace s with 0 by (change (0 mod 10) with 0 in Hn; lia). done.
  - by rewrite andb_true_r.
Qed.

Lemma number_value_normal (negative : bool) (i f : jsstring) c s :
  number_normal c s = true → Z.of_nat (length f) = s → digits_value (i ++ f) * (if negative then -1 else 1) = c →
  number_value negative i match f with [] => None | _ => Some f end 0 = JNumber c s.
Proof.
  unfold number_normal. intros Hn Hs Hc.
  set (o := match f with [] => None | _ => Some f end). assert (default [] o = f) as Ho by (unfold o; by destruct f).
  clearbody o. unfold number_value. rewrite Ho, Hc, Z.sub_0_r, Hs, (proj2 (Z.ltb_ge s 0)) by lia.
  destruct (Z.to_nat s) as [|n] eqn:Hsn; cbn [normalize_number].
  - replace s with 0 by lia. by destruct (c =? 0).
  - assert (c mod 10 ≠ 0) as Hmod by lia. rewrite (proj2 (Z.eqb_neq (Z.rem c 10) 0)).
    + rewrite (proj2 (Z.eqb_neq c 0)) by (intros ->; by apply Hmod). f_equal. lia.
    + intros Hrem. apply Hmod. rewrite (Z.quot_rem' c 10), Hrem, Z.add_0_r, Z.mul_comm. by rewrite Z.mod_mul.
Qed.

(** The number of digits of the canonical text. *)
Definition number_digits (c s : Z) : Z := Z.of_nat (length (filter (λ d, is_digit d = true) (formatJsonNumber c s : list Z))).

Lemma number_digits_text negative i f :
  forallb is_digit i = true → forallb is_digit f = true →
  length (filter (λ d, is_digit d = true) (decimal_text negative i f : list Z)) = (length i + length f)%nat.
Proof.
  intros Hi Hf. assert (∀ l, forallb is_digit l = true → filter (λ d, is_digit d = true) l = l) as Hall.
  { intros l Hl. apply filter_all, Forall_forall. intros x Hx. rewrite forallb_forall in Hl. by apply Hl, list_elem_of_In. }
  unfold decimal_text. rewrite !filter_app, (Hall i Hi), !length_app.
  replace (filter (λ d, is_digit d = true) (if negative then [45] else [])) with (@nil Z) by (by destruct negative).
  destruct f as [|x f]; [done|]. rewrite filter_cons, decide_False by done. by rewrite Hall.
Qed.

(** A canonical number reads back. *)
Lemma parse_number_format limits c s k :
  number_normal c s = true → number_digits c s ≤ maxNumberDigits limits → delimiter k = true →
  parse_number limits (formatJsonNumber c s ++ k) = Ok (JNumber c s, k).
Proof.
  intros Hn Hd Hk. pose proof Hn as Hs. unfold number_normal in Hs. unfold number_digits in Hd.
  rewrite formatJsonNumber_decimal in * by done.
  destruct (decimal_parts (mkDecimal c s)) as (i & f & Hi & Hf & Hsf & Hv); [simpl; lia|]. cbn [scale coefficient] in *.
  pose proof (canonical_natural_digits i Hi) as Hid.
  rewrite (format_decimal_text (mkDecimal c s) i f) in * by done. cbn [coefficient] in *.
  rewrite number_digits_text in Hd by done. unfold decimal_text, parse_number. rewrite <-!app_assoc.
  set (rest := match f with [] => [] | _ => 46 :: f end).
  assert (split_sign ((if c <? 0 then [45] else []) ++ i ++ rest ++ k) = (c <? 0, i ++ rest ++ k)) as ->.
  { destruct (c <? 0); [done|]. destruct i as [|d i]; [done|]. cbn [forallb] in Hid. unfold is_digit in Hid. cbn [app split_sign].
    by rewrite (proj2 (Z.eqb_neq d 45)) by lia. }
  rewrite match_integer_canonical; [|done|].
  2:{ intros d l. unfold rest. destruct f; cbn [app]; [intros ->; by apply delimiter_head in Hk as (? & _)|by intros [= <- _]]. }
  assert (match_json_fraction (rest ++ k) = (match f with [] => None | _ => Some f end, k)) as ->.
  { unfold rest. destruct f as [|x f]; cbn [app].
    - destruct k as [|d k]; [done|]. apply delimiter_head in Hk as (_ & Hk & _). cbn [match_json_fraction].
      destruct (span_digits k). by rewrite (proj2 (Z.eqb_neq d 46)).
    - cbn [match_json_fraction]. rewrite (app_comm_cons f k x), span_digits_app; [done|done|].
      intros d l ->. by apply delimiter_head in Hk as (? & _). }
  assert (match_exponent k = (None, k) ∧ number_suffix_ok k = true) as [-> ->].
  { destruct k as [|d k]; [done|]. apply delimiter_head in Hk as (_ & _ & He & HE & ->). split; [|done].
    cbn [match_exponent]. destruct (match k with [] => _ | _ => _ end) as [neg r1]. destruct (span_digits r1).
    by rewrite (proj2 (Z.eqb_neq d 101)), (proj2 (Z.eqb_neq d 69)). }
  set (o := match f with [] => None | _ => Some f end). assert (default [] o = f) as Ho by (unfold o; by destruct f).
  unfold parserAssert. rewrite Ho. cbn [ensure mbind result_bind default from_option fmap option_fmap option_map].
  change (is_safe_integer 0) with true. cbn [andb Z.abs].
  rewrite !(proj2 (Z.leb_le _ _)) by (cbn [length id]; lia). cbn [ensure mbind result_bind]. do 2 f_equal.
  apply number_value_normal; [done|lia|]. rewrite Hv. destruct (Z.ltb_spec c 0); lia.
Qed.

(** ** Values *)

(** Induction over the nested lists. *)
Lemma json_nested_ind (P : json → Prop) :
  P JNull → (∀ b, P (JBoolean b)) → (∀ c s, P (JNumber c s)) → (∀ b, P (JString b)) →
  (∀ values, Forall P values → P (JArray values)) →
  (∀ entries, Forall (λ e : bytes * json, P e.2) entries → P (JObject entries)) → ∀ v, P v.
Proof.
  intros Hn Hb Hnum Hs Ha Ho. fix IH 1. intros [|b|c s|b|values|entries]; [done|done|done|done| |].
  - apply Ha. induction values as [|v values IHv]; constructor; [apply IH|done].
  - apply Ho. induction entries as [|[k v] entries IHe]; constructor; [apply IH|done].
Qed.

(** UTF-8 that decodes and encodes back: valid, without a byte order mark. *)
Definition text_ok (b : bytes) : bool :=
  match textDecode b with Some s => bool_decide (textEncode s = b) | None => false end.

Fixpoint keys_ascending (keys : list bytes) : bool :=
  match keys with
  | k :: ((k' :: _) as rest) => (compareBytes k k' <? 0) && keys_ascending rest
  | _ => true
  end.

(** What reads back from its text: normal numbers, strictly ascending keys, and texts
    without a byte order mark.  These are the canonical values, which the parser
    returns, but for the mark: see [JsonTheorems.json_ok_canonical]. *)
Fixpoint json_ok (v : json) : bool :=
  match v with
  | JNull | JBoolean _ => true
  | JNumber c s => number_normal c s
  | JString b => text_ok b
  | JArray values => forallb json_ok values
  | JObject entries =>
      forallb (λ e : bytes * json, text_ok e.1 && json_ok e.2) entries && keys_ascending entries.*1
  end.

Fixpoint json_size (v : json) : Z :=
  match v with
  | JArray values => 1 + foldr Z.add 0 (json_size <$> values)
  | JObject entries => 1 + foldr Z.add 0 ((λ e : bytes * json, json_size e.2) <$> entries)
  | _ => 1
  end.

(** Within the limits on depth, strings and numbers. *)
Fixpoint json_fits (limits : JsonLimits) (depth : Z) (v : json) : bool :=
  (depth <=? maxDepth limits) &&
  match v with
  | JNull | JBoolean _ => true
  | JNumber c s => number_digits c s <=? maxNumberDigits limits
  | JString b => Z.of_nat (length b) <=? maxStringBytes limits
  | JArray values => forallb (json_fits limits (depth + 1)) values
  | JObject entries =>
      forallb (λ e : bytes * json,
        (Z.of_nat (length e.1) <=? maxStringBytes limits) && json_fits limits (depth + 1) e.2) entries
  end.

Lemma text_ok_decode b :
  text_ok b = true → ∃ s, json_decode b = Ok s ∧ textEncode s = b ∧ well_formed s = true.
Proof.
  unfold text_ok, json_decode. destruct (textDecode b) as [s|] eqn:Hb; [|done].
  intros H%bool_decide_eq_true. exists s. split; [done|]. split; [done|]. by eapply textDecode_well_formed.
Qed.

Lemma json_size_pos v : 1 ≤ json_size v.
Proof.
  assert (∀ l : list json, Forall (λ v, 1 ≤ json_size v) l → 0 ≤ foldr Z.add 0 (json_size <$> l)) as Hsum.
  { induction 1 as [|x l Hx _ IH]; [done|]. rewrite fmap_cons. cbn [foldr]. lia. }
  induction v as [| | | |values IH|entries IH] using json_nested_ind; try (simpl; lia).
  - cbn [json_size]. specialize (Hsum values IH). lia.
  - cbn [json_size]. specialize (Hsum entries.*2). rewrite <-list_fmap_compose in Hsum.
    assert (0 ≤ foldr Z.add 0 ((λ e : bytes * json, json_size e.2) <$> entries)); [|lia]. apply Hsum.
    by apply Forall_fmap.
Qed.

(** The first character of a serialized value. *)
Definition value_head (c : Z) : Prop := is_json_space c = false ∧ c ≠ 93 ∧ c ≠ 125.

Lemma decimal_text_head negative i f :
  canonical_natural i = true → ∃ c t, decimal_text negative i f = c :: t ∧ (c = 45 ∨ is_digit c = true).
Proof.
  intros Hi. pose proof (canonical_natural_digits i Hi) as Hd. unfold decimal_text. destruct i as [|c i]; [done|].
  cbn [forallb] in Hd. apply andb_true_iff in Hd as [Hc _]. destruct negative; cbn [app]; eauto.
Qed.

Lemma format_number_head c s : number_normal c s = true → ∃ d t, formatJsonNumber c s = d :: t ∧ (d = 45 ∨ is_digit d = true).
Proof.
  intros Hn. rewrite formatJsonNumber_decimal by done. unfold number_normal in Hn.
  destruct (decimal_parts (mkDecimal c s)) as (i & f & Hi & Hf & Hsf & Hv); [simpl; lia|].
  rewrite (format_decimal_text (mkDecimal c s) i f) by done. by apply decimal_text_head.
Qed.

Lemma serialize_head v t : serializeCanonicalJson v = Ok t → json_ok v = true → ∃ c t', t = c :: t' ∧ value_head c.
Proof.
  unfold value_head, is_json_space. destruct v as [|[]|c s|b|values|entries]; cbn [serializeCanonicalJson json_ok]; intros H Hok; inv_ok; subst t.
  - by exists 110, (js "ull").
  - by exists 116, (js "rue").
  - by exists 102, (js "alse").
  - destruct (format_number_head c s Hok) as (d & t & -> & Hd). exists d, t. split; [done|]. unfold is_digit in Hd. lia.
  - eexists 34, _. split; [done|lia].
  - eexists 91, _. split; [done|lia].
  - eexists 123, _. split; [done|lia].
Qed.

Lemma whitespace_head c t : is_json_space c = false → whitespace (c :: t) = c :: t.
Proof. intros H. cbn [whitespace]. by rewrite H. Qed.

(** Skipping white space before a value's text does nothing. *)
Lemma skip_space_head c t n : value_head c → skip_space (mkParser (c :: t) n) = mkParser (c :: t) n.
Proof. intros (H & _). unfold skip_space. cbn [p_rest p_nodes]. by rewrite whitespace_head. Qed.

(** ** Reading a serialized value *)

(** The reading of [v] from the text [t], in every context. *)
Definition reads (limits : JsonLimits) (v : json) (t : jsstring) : Prop :=
  ∀ fuel depth n k, json_fits limits depth v = true → n + json_size v ≤ maxNodes limits → delimiter k = true →
    (2 * length t + 1 ≤ fuel)%nat →
    parse_value fuel limits depth (mkParser (t ++ k) n) = Ok (v, mkParser k (n + json_size v)).

Definition total_size (l : list json) : Z := foldr Z.add 0 (json_size <$> l).

Lemma total_size_cons v l : total_size (v :: l) = json_size v + total_size l.
Proof. done. Qed.

Lemma total_size_nonneg l : 0 ≤ total_size l.
Proof. induction l as [|v l IH]; [done|]. rewrite total_size_cons. pose proof (json_size_pos v). lia. Qed.

Lemma comma_join_cons (p q : jsstring) (ps : list jsstring) : comma_join (p :: q :: ps) = p ++ 44 :: comma_join (q :: ps).
Proof. done. Qed.

Lemma delimiter_comma k : delimiter (44 :: k) = true.
Proof. done. Qed.

(** After a value: the closing character, or a comma and the text of another one. *)
Lemma skip_closing c k n : is_json_space c = false → skip_space (mkParser (c :: k) n) = mkParser (c :: k) n.
Proof. intros H. unfold skip_space. cbn [p_rest p_nodes]. by rewrite whitespace_head. Qed.

Lemma parse_items_reads limits values parts acc fuel depth n k :
  values ≠ [] → Forall2 (reads limits) values parts →
  Forall (λ t, ∃ c t', t = c :: t' ∧ value_head c) parts →
  forallb (json_fits limits (depth + 1)) values = true → n + total_size values ≤ maxNodes limits →
  (2 * length (comma_join parts) + 2 ≤ fuel)%nat →
  parse_items fuel limits depth acc (mkParser (comma_join parts ++ 93 :: k) n) =
    Ok (JArray (acc ++ values), mkParser k (n + total_size values)).
Proof.
  intros Hne Hr. revert acc fuel n. induction Hr as [|v t values parts Hv Hr IH]; [done|].
  intros acc fuel n Hheads Hfits Hnodes Hfuel. destruct fuel as [|fuel]; [lia|].
  inversion_clear Hheads as [|?? Hhead Hheads']. cbn [forallb] in Hfits. apply andb_true_iff in Hfits as [Hfv Hfits].
  rewrite total_size_cons in *. pose proof (total_size_nonneg values). cbn [parse_items].
  destruct Hr as [|v' t' values parts Hv' Hr].
  - unfold comma_join in *. change (mjoin ((λ part, 44 :: part) <$> [])) with (@nil Z) in *. rewrite app_nil_r in *.
    rewrite Hv; [|done|lia|done|lia]. cbn [mbind result_bind]. rewrite skip_closing by done. cbn [p_rest p_nodes Z.eqb Pos.eqb].
    change (total_size []) with 0. by rewrite Z.add_0_r.
  - rewrite comma_join_cons in *. rewrite <-app_assoc. cbn [app]. rewrite length_app in Hfuel. cbn [length] in Hfuel.
    rewrite Hv; [|done|lia|done|lia]. cbn [mbind result_bind]. rewrite skip_closing by done. cbn [p_rest p_nodes Z.eqb Pos.eqb].
    assert (∃ c r, comma_join (t' :: parts) ++ 93 :: k = c :: r ∧ value_head c) as (c & r & Hcr & Hc).
    { inversion_clear Hheads' as [|?? (c & tl & -> & Hc) _]. by eexists c, _. }
    rewrite Hcr, skip_space_head by done. cbn [p_rest head_is]. destruct Hc as (_ & Hc93 & _).
    rewrite (proj2 (Z.eqb_neq c 93)), <-Hcr, IH by (done || lia).
    rewrite <-app_assoc. cbn [app]. do 3 f_equal. lia.
Qed.

(** The text of a member and what the parser keeps of it. *)
Definition member_text (limits : JsonLimits) (e : bytes * json) (part : jsstring) : Prop :=
  ∃ s t, json_decode e.1 = Ok s ∧ textEncode s = e.1 ∧ well_formed s = true ∧
    part = escapeJsonString s ++ 58 :: t ∧ reads limits e.2 t ∧ ∃ c t', t = c :: t' ∧ value_head c.

Lemma member_text_head limits e part : member_text limits e part → ∃ t, part = 34 :: t.
Proof. intros (s & t & _ & _ & _ & -> & _). by eexists. Qed.

Lemma quote_head : value_head 34.
Proof. done. Qed.

Lemma comma_join_length (p : jsstring) (ps : list jsstring) : (length p ≤ length (comma_join (p :: ps)))%nat.
Proof. unfold comma_join. rewrite length_app. lia. Qed.

(** One member: key, colon, value. *)
Lemma parse_member limits e part fuel depth n seen entries k :
  member_text limits e part → (∀ s, json_decode e.1 = Ok s → set_has s seen = false) →
  Z.of_nat (length e.1) ≤ maxStringBytes limits → json_fits limits (depth + 1) e.2 = true →
  n + json_size e.2 ≤ maxNodes limits → delimiter k = true → (2 * length part ≤ fuel)%nat →
  ∃ s, json_decode e.1 = Ok s ∧
  parse_members (S fuel) limits depth seen entries (mkParser (part ++ k) n) =
    match p_rest (skip_space (mkParser k (n + json_size e.2))) with
    | [] => raises INVALID_JSON
    | c :: r =>
        if c =? 125 then Ok (JObject (js_sort compareEntries (entries ++ [e])), mkParser r (n + json_size e.2))
        else if c =? 44 then
          let p := skip_space (mkParser r (n + json_size e.2)) in
          if head_is 125 (p_rest p) then raises INVALID_JSON
          else parse_members fuel limits depth (set_add s seen) (entries ++ [e]) p
        else raises INVALID_JSON
    end.
Proof.
  intros (s & t & Hdec & Henc & Hwf & -> & Hreads & _) Hseen Hlen Hfits Hnodes Hk Hfuel. exists s. split; [done|].
  cbn [parse_members p_rest p_nodes]. rewrite <-app_assoc, parse_string_escape by (done || by rewrite Henc).
  cbn [mbind result_bind app]. rewrite (Hseen s Hdec). cbn [negb parserAssert ensure]. unfold parserAssert. cbn [ensure mbind result_bind].
  rewrite skip_closing by done. cbn [p_rest p_nodes head_is Z.eqb Pos.eqb ensure mbind result_bind tail].
  rewrite length_app in Hfuel. cbn [length] in Hfuel.
  rewrite Hreads; [|done|lia|done|lia]. cbn [mbind result_bind]. rewrite Henc. by destruct e as [kb v].
Qed.

Lemma member_encodes limits es parts e s :
  Forall2 (member_text limits) es parts → e ∈ es → json_decode e.1 = Ok s → textEncode s = e.1.
Proof.
  intros Hr (i & Hi)%list_elem_of_lookup Hd. destruct (Forall2_lookup_l _ _ _ _ _ Hr Hi) as (part & _ & (s' & t & Hd' & He & _)).
  rewrite Hd in Hd'. by injection Hd' as <-.
Qed.

Definition fits_member (limits : JsonLimits) (depth : Z) (e : bytes * json) : bool :=
  (Z.of_nat (length e.1) <=? maxStringBytes limits) && json_fits limits depth e.2.

Lemma parse_members_reads limits es parts entries seen fuel depth n k :
  es ≠ [] → Forall2 (member_text limits) es parts → NoDup es.*1 →
  (∀ e s, e ∈ es → json_decode e.1 = Ok s → set_has s seen = false) →
  forallb (fits_member limits (depth + 1)) es = true → n + total_size es.*2 ≤ maxNodes limits →
  (2 * length (comma_join parts) + 2 ≤ fuel)%nat →
  parse_members fuel limits depth seen entries (mkParser (comma_join parts ++ 125 :: k) n) =
    Ok (JObject (js_sort compareEntries (entries ++ es)), mkParser k (n + total_size es.*2)).
Proof.
  intros Hne Hr. revert entries seen fuel n. induction Hr as [|e t es parts Hv Hr IH]; [done|].
  intros entries seen fuel n Hnd Hseen Hfits Hnodes Hfuel. destruct fuel as [|fuel]; [lia|].
  cbn [forallb] in Hfits. apply andb_true_iff in Hfits as [Hfv Hfits]. unfold fits_member in Hfv.
  apply andb_true_iff in Hfv as [Hlen%Z.leb_le Hfv]. rewrite fmap_cons in Hnd. apply NoDup_cons in Hnd as [Hkey Hnd].
  rewrite fmap_cons, total_size_cons in *. pose proof (total_size_nonneg es.*2).
  assert (2 * length t + 2 ≤ S fuel)%nat as Hft by (etrans; [|exact Hfuel]; pose proof (comma_join_length t parts); lia).
  assert (∀ s, json_decode e.1 = Ok s → set_has s seen = false) as Hs by (intros s; apply Hseen; left).
  destruct Hr as [|e' t' es parts Hv' Hr].
  - unfold comma_join. change (mjoin ((λ part, 44 :: part) <$> [])) with (@nil Z). rewrite app_nil_r.
    destruct (parse_member limits e t fuel depth n seen entries (125 :: k)) as (s & _ & ->); [done|done|done|done|lia|done|lia|].
    rewrite skip_closing by done. cbn [p_rest p_nodes Z.eqb Pos.eqb]. change (total_size [].*2) with 0. by rewrite Z.add_0_r.
  - rewrite comma_join_cons in *. rewrite <-app_assoc. cbn [app]. rewrite length_app in Hfuel. cbn [length] in Hfuel.
    destruct (parse_member limits e t fuel depth n seen entries (44 :: comma_join (t' :: parts) ++ 125 :: k))
      as (s & Hdec & ->); [done|done|done|done|lia|done|lia|].
    rewrite skip_closing by done. cbn [p_rest p_nodes Z.eqb Pos.eqb].
    assert (∃ r, comma_join (t' :: parts) ++ 125 :: k = 34 :: r) as [r Hcr].
    { destruct (member_text_head _ _ _ Hv') as [tl ->]. by eexists. }
    rewrite Hcr, skip_space_head by apply quote_head. cbv zeta. cbn [p_rest head_is Z.eqb Pos.eqb]. rewrite <-Hcr.
    rewrite IH; [| done | done | |done|lia|lia].
    + rewrite <-app_assoc. cbn [app]. do 3 f_equal. lia.
    + intros e2 s2 He2 Hd2. unfold set_has, set_add, map_has. rewrite map_get_set. case_decide as Heq.
      * subst s2. exfalso. apply Hkey. destruct Hv as (s' & _ & Hd' & He' & _). rewrite Hdec in Hd'. injection Hd' as <-.
        assert (e2.1 = e.1) as <-; [|by apply list_elem_of_fmap_2]. rewrite <-He'. symmetry.
        by apply (member_encodes limits (e' :: es) (t' :: parts)); [constructor|..].
      * apply (Hseen e2); [by right|done].
Qed.

(** ** The reading lemma *)

Lemma keys_ascending_sorted keys :
  keys_ascending keys = true → StronglySorted (λ x y, compareBytes x y < 0) keys.
Proof.
  intros H. apply Sorted_StronglySorted; [intros x y z Hxy Hyz; eapply (cmp_lt_trans compareBytes); [done|lia]|].
  induction keys as [|k keys IH]; [constructor|]. destruct keys as [|k' keys]; [repeat constructor|].
  cbn [keys_ascending] in H. apply andb_true_iff in H as [H1%Z.ltb_lt H2]. constructor; [by apply IH|by constructor].
Qed.

#[export] Instance compareEntries_comparator : Comparator compareEntries.
Proof.
  assert (∀ a b, compareEntries a b = compareBytes a.1 b.1) as Heq by (intros; apply kernelCompareBytes_compareBytes).
  pose proof (comparator_on (fst (A:=bytes) (B:=json)) compareBytes) as H. split; intros *; rewrite !Heq; apply H.
Qed.

Lemma sorted_entries entries : keys_ascending entries.*1 = true → js_sort compareEntries entries = entries.
Proof.
  intros H%keys_ascending_sorted. apply js_sort_id. apply StronglySorted_on in H.
  eapply StronglySorted_weaken; [|exact H]. intros a b Hab. cbn beta in Hab. unfold compareEntries. rewrite kernelCompareBytes_compareBytes. lia.
Qed.

Lemma keys_ascending_NoDup keys : keys_ascending keys = true → NoDup keys.
Proof. intros H%keys_ascending_sorted. by apply (strict_sorted_NoDup compareBytes). Qed.

Lemma starts_with_other c t prefix : head prefix ≠ Some c → prefix ≠ [] → starts_with prefix (c :: t) = false.
Proof.
  intros Hh Hne. unfold starts_with. apply bool_decide_eq_false. destruct prefix as [|p prefix]; [done|].
  cbn [length take head] in *. intros [= -> _]. done.
Qed.

(** The node counter and the dispatch on the first character. *)
Lemma parse_value_head fuel limits depth c t n :
  depth ≤ maxDepth limits → n + 1 ≤ maxNodes limits → value_head c → c ≠ 110 → c ≠ 116 → c ≠ 102 →
  parse_value (S fuel) limits depth (mkParser (c :: t) n) =
    if c =? 34 then
      '(text, r') ← parse_string limits (c :: t); Ok (JString (textEncode text), mkParser r' (n + 1))
    else if c =? 91 then
      let p := skip_space (mkParser t (n + 1)) in
      if head_is 93 (p_rest p) then Ok (JArray [], mkParser (tail (p_rest p)) (p_nodes p))
      else parse_items fuel limits depth [] p
    else if c =? 123 then
      let p := skip_space (mkParser t (n + 1)) in
      if head_is 125 (p_rest p) then Ok (JObject [], mkParser (tail (p_rest p)) (p_nodes p))
      else parse_members fuel limits depth [] [] p
    else if (c =? 45) || is_digit c then
      '(v, r') ← parse_number limits (c :: t); Ok (v, mkParser r' (n + 1))
    else raises INVALID_JSON.
Proof.
  intros Hd Hn Hc H1 H2 H3. cbn [parse_value]. unfold bumpNode, parserAssert. cbn [p_nodes p_rest].
  rewrite (proj2 (Z.leb_le (n + 1) _)), (proj2 (Z.leb_le depth _)) by lia. cbn [ensure mbind result_bind].
  rewrite skip_space_head by done. cbn [p_rest p_nodes].
  rewrite !starts_with_other by (vm_compute; congruence). done.
Qed.

Lemma literal_reads limits v t :
  serializeCanonicalJson v = Ok t → (v = JNull ∨ ∃ b, v = JBoolean b) → reads limits v t.
Proof.
  intros Ht Hv fuel depth n k Hfits Hn _ Hfuel. destruct fuel as [|fuel]; [lia|].
  assert (depth ≤ maxDepth limits) as Hd.
  { destruct Hv as [->|[b ->]]; cbn [json_fits] in Hfits; lia. }
  assert (json_size v = 1) as Hs by (by destruct Hv as [->|[b ->]]). rewrite Hs in *.
  cbn [parse_value]. unfold bumpNode, parserAssert. cbn [p_nodes p_rest].
  rewrite (proj2 (Z.leb_le (n + 1) _)), (proj2 (Z.leb_le depth _)) by lia. cbn [ensure mbind result_bind].
  destruct Hv as [->|[[] ->]]; cbn [serializeCanonicalJson] in Ht; apply Ok_inj in Ht; subst t; reflexivity.
Qed.

Lemma array_reads limits values parts :
  Forall2 (reads limits) values parts → Forall (λ t, ∃ c t', t = c :: t' ∧ value_head c) parts →
  reads limits (JArray values) ([91] ++ comma_join parts ++ [93]).
Proof.
  intros Hr Hheads fuel depth n k Hfits Hn Hk Hfuel. destruct fuel as [|fuel]; [lia|].
  cbn [json_fits json_size] in *. apply andb_true_iff in Hfits as [Hd%Z.leb_le Hfits].
  fold (total_size values) in *. pose proof (total_size_nonneg values).
  cbn [app] in *. rewrite parse_value_head by (done || lia). cbn [Z.eqb Pos.eqb].
  rewrite length_cons, length_app in Hfuel. cbn [length] in Hfuel. rewrite <-app_assoc. cbn [app].
  destruct Hr as [|v t values parts Hv Hr].
  { cbn [comma_join app]. rewrite skip_closing by done. cbn. do 3 f_equal. }
  assert (∃ c r, comma_join (t :: parts) ++ 93 :: k = c :: r ∧ value_head c) as (c & r & Hcr & Hc).
  { inversion_clear Hheads as [|?? (c & tl & -> & Hc) _]. by eexists c, _. }
  rewrite Hcr, skip_space_head by done. cbv zeta. cbn [p_rest head_is]. destruct Hc as (_ & Hc93 & _).
  rewrite (proj2 (Z.eqb_neq c 93)), <-Hcr by done.
  rewrite (parse_items_reads _ (v :: values)); [|done|by constructor|done|done|lia|lia]. do 3 f_equal. lia.
Qed.

Lemma object_reads limits entries parts :
  Forall2 (member_text limits) entries parts → keys_ascending entries.*1 = true →
  reads limits (JObject entries) ([123] ++ comma_join parts ++ [125]).
Proof.
  intros Hr Hkeys fuel depth n k Hfits Hn Hk Hfuel. destruct fuel as [|fuel]; [lia|].
  cbn [json_fits json_size] in *. apply andb_true_iff in Hfits as [Hd%Z.leb_le Hfits].
  assert (foldr Z.add 0 ((λ e : bytes * json, json_size e.2) <$> entries) = total_size entries.*2) as Htot.
  { unfold total_size. by rewrite <-list_fmap_compose. }
  rewrite Htot in *. pose proof (total_size_nonneg entries.*2).
  cbn [app] in *. rewrite parse_value_head by (done || lia). cbn [Z.eqb Pos.eqb].
  rewrite length_cons, length_app in Hfuel. cbn [length] in Hfuel. rewrite <-app_assoc. cbn [app].
  destruct Hr as [|e t entries parts He Hr].
  { cbn [comma_join app]. rewrite skip_closing by done. cbn. do 3 f_equal. }
  assert (∃ r, comma_join (t :: parts) ++ 125 :: k = 34 :: r) as [r Hcr].
  { destruct (member_text_head _ _ _ He) as [tl ->]. by eexists. }
  rewrite Hcr, skip_space_head by apply quote_head. cbv zeta. cbn [p_rest head_is Z.eqb Pos.eqb]. rewrite <-Hcr.
  rewrite (parse_members_reads _ (e :: entries)); [|done|by constructor|by apply keys_ascending_NoDup|done|done|lia|lia].
  cbn [app]. rewrite sorted_entries by done. do 3 f_equal. lia.
Qed.

(** What the serializer writes, the parser reads: in every context, whatever
    follows, with fuel linear in the text. *)
Lemma serialize_reads limits v t :
  json_ok v = true → serializeCanonicalJson v = Ok t → reads limits v t.
Proof.
  revert t. induction v as [|b|c s|b|values IH|entries IH] using json_nested_ind; intros t Hok Ht.
  - by apply literal_reads; [|left].
  - apply literal_reads; [done|right; by eexists].
  - intros fuel depth n k Hfits Hn Hk Hfuel. destruct fuel as [|fuel]; [lia|].
    cbn [json_ok serializeCanonicalJson json_fits json_size] in *. apply Ok_inj in Ht. subst t.
    apply andb_true_iff in Hfits as [Hd%Z.leb_le Hdig%Z.leb_le].
    destruct (format_number_head c s Hok) as (d & t & Heq & Hdh). rewrite Heq. cbn [app].
    assert (value_head d ∧ d ≠ 110 ∧ d ≠ 116 ∧ d ≠ 102 ∧ d ≠ 34 ∧ d ≠ 91 ∧ d ≠ 123) as (H1 & H2 & H3 & H4 & H5 & H6 & H7).
    { unfold value_head, is_json_space, is_digit in *. lia. }
    rewrite parse_value_head by (done || lia). rewrite (proj2 (Z.eqb_neq d 34)), (proj2 (Z.eqb_neq d 91)), (proj2 (Z.eqb_neq d 123)) by done.
    replace ((d =? 45) || is_digit d) with true by (destruct Hdh as [->| ->]; [done|by rewrite orb_true_r]).
    rewrite app_comm_cons, <-Heq, parse_number_format by done. done.
  - intros fuel depth n k Hfits Hn Hk Hfuel. destruct fuel as [|fuel]; [lia|].
    cbn [json_ok serializeCanonicalJson json_fits json_size] in *. apply andb_true_iff in Hfits as [Hd%Z.leb_le Hlen%Z.leb_le].
    destruct (text_ok_decode b Hok) as (s & Hs & Henc & Hwf). rewrite Hs in Ht. apply Ok_inj in Ht. subst t.
    unfold escapeJsonString. cbn [app]. rewrite parse_value_head by (done || lia). cbn [Z.eqb Pos.eqb].
    pose proof (parse_string_escape limits s k Hwf) as Hp. unfold escapeJsonString in Hp. cbn [app] in Hp.
    rewrite Hp by (by rewrite Henc). cbn [mbind result_bind]. by rewrite Henc.
  - cbn [json_ok serializeCanonicalJson] in *. inv_ok. subst t. rename select (mapR _ _ = _) into Hparts. apply mapR_Ok in Hparts.
    rewrite forallb_forall in Hok. rewrite Forall_forall in IH. apply array_reads.
    + eapply Forall2_impl_elem; [|exact Hparts]. intros v t Hv _ Ht. by apply IH; [|apply Hok, list_elem_of_In|].
    + apply Forall_forall. intros t (i & Hi)%list_elem_of_lookup. destruct (Forall2_lookup_r _ _ _ _ _ Hparts Hi) as (v & Hv & Ht).
      apply (serialize_head v); [done|]. by eapply Hok, list_elem_of_In, list_elem_of_lookup_2.
  - cbn [json_ok serializeCanonicalJson] in *. apply andb_true_iff in Hok as [Hok Hkeys].
    inv_ok. subst t. rename select (mapR _ _ = _) into Hparts. apply mapR_Ok in Hparts.
    rewrite forallb_forall in Hok. rewrite Forall_forall in IH. apply object_reads; [|done].
    eapply Forall2_impl_elem; [|exact Hparts]. intros e part He _ Hpart. cbn beta in Hpart. inv_ok. subst part.
    specialize (Hok e). rewrite <-list_elem_of_In, andb_true_iff in Hok. destruct (Hok He) as [Hkey Hval].
    rename select (json_decode e.1 = _) into Hd. destruct (text_ok_decode e.1 Hkey) as (s & Hs & Henc & Hwf).
    rewrite Hs in Hd. injection Hd as <-.
    exists s, x1. split_and!; [done|done|done|done|by apply IH|by apply (serialize_head e.2)].
Qed.

(** A canonical value serializes. *)
Lemma serialize_total v : json_ok v = true → ∃ t, serializeCanonicalJson v = Ok t.
Proof.
  induction v as [|b|c s|b|values IH|entries IH] using json_nested_ind; intros Hok; cbn [serializeCanonicalJson json_ok] in *.
  - by eexists.
  - by eexists.
  - by eexists.
  - destruct (text_ok_decode b Hok) as (s & -> & _). by eexists.
  - assert (∃ parts, mapR serializeCanonicalJson values = Ok parts) as [parts ->]; [|by eexists].
    induction IH as [|v values Hv _ IHv]; [by eexists|]. cbn [forallb] in Hok. apply andb_true_iff in Hok as [Hv' Hok].
    destruct (Hv Hv') as [t Ht]. destruct (IHv Hok) as [parts Hp]. cbn [mapR]. rewrite Ht. cbn [mbind result_bind]. rewrite Hp. by eexists.
  - apply andb_true_iff in Hok as [Hok _].
    match goal with |- context [mapR ?f entries] => assert (∃ parts, mapR f entries = Ok parts) as [parts ->]; [|by eexists] end.
    induction IH as [|e entries Hv _ IHv]; [by eexists|]. cbn [forallb] in Hok. rewrite !andb_true_iff in Hok. destruct Hok as [[Hk Hv'] Hok].
    destruct (Hv Hv') as [t Ht]. destruct (IHv Hok) as [parts Hp]. destruct (text_ok_decode e.1 Hk) as (s & Hs & _).
    cbn [mapR]. rewrite Hs. cbn [mbind result_bind]. rewrite Ht. cbn [mbind result_bind]. rewrite Hp. by eexists.
Qed.
