(* ===== verification/JsonTheorems.v ===== *)
(** * Theorems on canonical JSON

    Round trip, equality, the values the parser returns, and termination. *)

From Stdlib Require Import Strings.Byte Strings.String.
From stdpp Require Import base list option numbers sets sorting.
From S2P Require Import Prelude JsMap Bytes Text JsNumber Int64 KernelText Decimal DecimalTheorems Vector Json JsonProofs.

#[local] Open Scope Z_scope.

(** ** What is written is read *)

Lemma parse_serialized limits v t :
  json_ok v = true → serializeCanonicalJson v = Ok t → json_fits limits 0 v = true → json_size v ≤ maxNodes limits →
  Z.of_nat (length (textEncode t)) ≤ maxBytes limits → parseCanonicalJson t limits = Ok v.
Proof.
  intros Hok Ht Hfits Hnodes Hbytes. unfold parseCanonicalJson, parserAssert. rewrite (proj2 (Z.leb_le _ _)) by done.
  cbn [ensure mbind result_bind]. pose proof (serialize_reads limits v t Hok Ht) as Hr.
  specialize (Hr (parse_fuel t) 0 0 []). rewrite app_nil_r in Hr. rewrite Hr by (done || lia || (unfold parse_fuel; lia)). done.
Qed.

Definition sample_json : json :=
  JObject [(textEncode (js "a"), JArray [JNumber (-105) 2; JNull; JBoolean true]);
           (textEncode (js "z"), JString (textEncode [34; 92; 10; 1; 0xD83D; 0xDE00]))].

(** ** Round trip *)

(** A canonical value: what the parser returns ([parse_returns_canonical]). *)
Definition utf8_ok (b : bytes) : Prop := ∃ s, well_formed s = true ∧ b = textEncode s.

#[local] Set Warnings "-register-all".
Inductive json_parsed : json → Prop :=
  | parsed_null : json_parsed JNull
  | parsed_boolean b : json_parsed (JBoolean b)
  | parsed_number c s : number_normal c s = true → json_parsed (JNumber c s)
  | parsed_string b : utf8_ok b → json_parsed (JString b)
  | parsed_array values : Forall json_parsed values → json_parsed (JArray values)
  | parsed_object entries :
  Forall (λ e : bytes * json, utf8_ok e.1 ∧ json_parsed e.2) entries →
  StronglySorted (λ x y, compareBytes x y < 0) entries.*1 → json_parsed (JObject entries).

(** No text of the value begins with U+FEFF. *)
Definition unmarked_text (b : bytes) : bool := negb (bool_decide (take 3 b = BOM)).

Fixpoint unmarked (v : json) : bool :=
  match v with
  | JString b => unmarked_text b
  | JArray values => forallb unmarked values
  | JObject entries => forallb (λ e : bytes * json, unmarked_text e.1 && unmarked e.2) entries
  | _ => true
  end.

Lemma text_ok_iff b : text_ok b = true ↔ utf8_ok b ∧ unmarked_text b = true.
Proof.
  unfold unmarked_text. rewrite negb_true_iff, bool_decide_eq_false. split.
  - intros (s & Hd & He & Hwf)%text_ok_decode. split; [by exists s|]. subst b. intros Hbom.
    destruct (textEncode_bom s Hwf Hbom) as [s' ->]. unfold json_decode in Hd. rewrite textDecode_encode in Hd by done.
    rewrite decide_True in Hd by done. injection Hd as Hd. apply (f_equal length) in Hd. cbn [tail length] in Hd. lia.
  - intros [(s & Hwf & ->) Hbom]. unfold text_ok. rewrite textDecode_encode by done.
    rewrite decide_False; [by rewrite bool_decide_eq_true_2|]. intros Hh. apply Hbom. destruct s as [|u s]; [done|].
    injection Hh as ->. reflexivity.
Qed.

Lemma sorted_keys_ascending keys : StronglySorted (λ x y, compareBytes x y < 0) keys → keys_ascending keys = true.
Proof.
  induction 1 as [|k keys Hs IH Hk]; [done|]. destruct keys as [|k' keys]; [done|]. cbn [keys_ascending].
  apply andb_true_iff. split; [|exact IH]. inversion_clear Hk. by apply Z.ltb_lt.
Qed.

Lemma json_ok_members values : Forall (λ v, json_ok v = true ↔ json_parsed v ∧ unmarked v = true) values →
  forallb json_ok values = true ↔ Forall json_parsed values ∧ forallb unmarked values = true.
Proof.
  induction 1 as [|v values Hv _ IH]; cbn [forallb]; [by split; [split; [constructor|]|]|].
  rewrite !andb_true_iff, Hv, IH, Forall_cons. tauto.
Qed.

Lemma json_ok_entries entries : Forall (λ e : bytes * json, json_ok e.2 = true ↔ json_parsed e.2 ∧ unmarked e.2 = true) entries →
  forallb (λ e : bytes * json, text_ok e.1 && json_ok e.2) entries = true ↔
  Forall (λ e : bytes * json, utf8_ok e.1 ∧ json_parsed e.2) entries ∧
  forallb (λ e : bytes * json, unmarked_text e.1 && unmarked e.2) entries = true.
Proof.
  induction 1 as [|e entries He _ IH]; cbn [forallb]; [by split; [split; [constructor|]|]|].
  rewrite !andb_true_iff, He, IH, Forall_cons, text_ok_iff. tauto.
Qed.

(** The canonical values that read back are those without the mark. *)
Lemma json_ok_canonical v : json_ok v = true ↔ json_parsed v ∧ unmarked v = true.
Proof.
  induction v as [|b|c s|b|values IH|entries IH] using json_nested_ind; cbn [json_ok unmarked].
  - by split; [split; [constructor|]|].
  - by split; [split; [constructor|]|].
  - split; [intros H; split; [by constructor|done]|intros [H _]; by inversion H].
  - rewrite text_ok_iff. split; [intros [? ?]; split; [by constructor|done]|intros [H ?]; by inversion H].
  - rewrite (json_ok_members _ IH). split; [intros [? ?]; split; [by constructor|done]|intros [H ?]; by inversion H].
  - rewrite andb_true_iff, (json_ok_entries _ IH). split.
    + intros [[? ?] ?%keys_ascending_sorted]. split; [by constructor|done].
    + intros [H ?]. inversion_clear H. split; [done|]. by apply sorted_keys_ascending.
Qed.

Lemma utf8_decodes b : utf8_ok b → ∃ s, json_decode b = Ok s.
Proof. intros (s & Hs & ->). unfold json_decode. rewrite textDecode_encode by done. case_decide; by eexists. Qed.

Lemma mapR_succeeds {E A B} (f : A → result E B) l : Forall (λ x, ∃ y, f x = Ok y) l → ∃ ys, mapR f l = Ok ys.
Proof.
  induction 1 as [|x l [y Hy] _ [ys IH]]; [by eexists|]. cbn [mapR]. rewrite Hy. cbn [mbind result_bind]. rewrite IH. by eexists.
Qed.

Lemma canonical_serializes v : json_parsed v → ∃ t, serializeCanonicalJson v = Ok t.
Proof.
  induction v as [|b|c s|b|values IH|entries IH] using json_nested_ind; intros Hv; inversion_clear Hv; cbn [serializeCanonicalJson].
  1-3: by eexists.
  - destruct (utf8_decodes b) as [s ->]; [done|]. by eexists.
  - destruct (mapR_succeeds serializeCanonicalJson values) as [parts ->]; [|by eexists]. rewrite Forall_forall in *. eauto.
  - match goal with |- context [mapR ?f entries] => destruct (mapR_succeeds f entries) as [parts ->]; [|by eexists] end.
    rewrite Forall_forall in *. intros e He. destruct (H e He) as [(s & ->)%utf8_decodes Hp]. destruct (IH e He Hp) as [t ->]. by eexists.
Qed.

(** C36: Every canonical JSON value, that is every value the parser can return,
    serializes; and parsing the text gives the value back, within any limits the value
    and its text fit, if no text in the value begins with U+FEFF.  Such a text loses its
    mark in the serialization, so the value does not read back: two strings the parser
    tells apart serialize alike ([bom_strings_conflated]), and an object can serialize
    with a repeated key ([bom_keys_repeated]). *)
Theorem json_roundtrip (v : json) :
  json_parsed v →
  ∃ t, serializeCanonicalJson v = Ok t ∧
    (unmarked v = true → ∀ limits, json_fits limits 0 v = true → json_size v ≤ maxNodes limits →
       Z.of_nat (length (textEncode t)) ≤ maxBytes limits → parseCanonicalJson t limits = Ok v).
Proof.
  intros Hv. destruct (canonical_serializes v Hv) as [t Ht]. exists t. split; [done|].
  intros Hm limits Hfits Hnodes Hbytes. apply (parse_serialized limits); try done. by apply json_ok_canonical.
Qed.

Lemma json_roundtrip_witness :
  ∃ t, serializeCanonicalJson sample_json = Ok t ∧ parseCanonicalJson t DEFAULT_JSON_LIMITS = Ok sample_json.
Proof.
  destruct (json_roundtrip sample_json) as (t & Ht & Hp).
  { apply json_ok_canonical. vm_compute. reflexivity. }
  exists t. split; [exact Ht|]. vm_compute in Ht. injection Ht as <-.
  apply (Hp eq_refl DEFAULT_JSON_LIMITS); [vm_compute; reflexivity|vm_compute; discriminate..].
Defined.

(** ** Equality *)

(** Limits large enough for a value. *)
Lemma fits_eventually v :
  ∃ M, ∀ limits depth, M ≤ maxDepth limits - depth → M ≤ maxStringBytes limits → M ≤ maxNumberDigits limits →
    json_fits limits depth v = true.
Proof.
  induction v as [|b|c s|b|values IH|entries IH] using json_nested_ind.
  - exists 0. intros. cbn [json_fits]. lia.
  - exists 0. intros. cbn [json_fits]. lia.
  - exists (Z.max 0 (number_digits c s)). intros. cbn [json_fits]. lia.
  - exists (Z.of_nat (length b)). intros. cbn [json_fits]. lia.
  - assert (∃ M, 0 ≤ M ∧ ∀ limits depth, M ≤ maxDepth limits - depth → M ≤ maxStringBytes limits → M ≤ maxNumberDigits limits →
      forallb (json_fits limits depth) values = true) as (M & HM & H).
    { induction IH as [|v values [M1 H1] _ (M2 & HM & H2)]; [by exists 0|]. exists (Z.max M1 M2). split; [lia|].
      intros. cbn [forallb]. rewrite H1, H2 by lia. done. }
    exists (M + 1). intros. cbn [json_fits]. rewrite H by lia. lia.
  - assert (∃ M, 0 ≤ M ∧ ∀ limits depth, M ≤ maxDepth limits - depth → M ≤ maxStringBytes limits → M ≤ maxNumberDigits limits →
      forallb (fits_member limits depth) entries = true) as (M & HM & H).
    { induction IH as [|e entries [M1 H1] _ (M2 & HM & H2)]; [by exists 0|].
      exists (Z.max (Z.of_nat (length e.1)) (Z.max M1 M2)). split; [lia|].
      intros. cbn [forallb]. unfold fits_member at 1. rewrite H1, H2, (proj2 (Z.leb_le _ _)) by lia. done. }
    exists (M + 1). intros. cbn [json_fits]. fold (fits_member limits (depth + 1)). rewrite H by lia. lia.
Qed.

(** Distinct canonical values have distinct texts. *)
Lemma serialize_inj a b t :
  json_ok a = true → json_ok b = true → serializeCanonicalJson a = Ok t → serializeCanonicalJson b = Ok t → a = b.
Proof.
  intros Ha Hb Hta Htb. destruct (fits_eventually a) as [Ma HMa], (fits_eventually b) as [Mb HMb].
  set (M := Z.max Ma Mb).
  set (limits := mkJsonLimits (Z.of_nat (length (textEncode t))) M (Z.max (json_size a) (json_size b)) M M).
  assert (parseCanonicalJson t limits = Ok a) as H1.
  { apply parse_serialized; [done|done|apply HMa; cbn; lia|cbn; lia|cbn; lia]. }
  assert (parseCanonicalJson t limits = Ok b) as H2.
  { apply parse_serialized; [done|done|apply HMb; cbn; lia|cbn; lia|cbn; lia]. }
  congruence.
Qed.

(** On canonical values the text comparison decides equality of values. *)
Theorem canonical_equal_iff (a b : json) :
  json_ok a = true → json_ok b = true →
  ∃ r, canonicalJsonEqual a b = Ok r ∧ (r = true ↔ a = b).
Proof.
  intros Ha Hb. destruct (serialize_total a Ha) as [ta Hta], (serialize_total b Hb) as [tb Htb].
  unfold canonicalJsonEqual. rewrite Hta, Htb. cbn [mbind result_bind]. eexists. split; [reflexivity|].
  rewrite bool_decide_eq_true. split; [intros ->; by apply (serialize_inj a b tb)|intros ->; congruence].
Qed.

Lemma canonical_equal_iff_witness :
  canonicalJsonEqual sample_json JNull = Ok false ∧ sample_json ≠ JNull.
Proof.
  destruct (canonical_equal_iff sample_json JNull) as (r & Hr & Heq); [vm_compute; reflexivity|reflexivity|].
  assert (r = false) as -> by (vm_compute in Hr; congruence). split; [exact Hr|]. intros H. apply Heq in H. discriminate H.
Defined.

(** Strings that begin with U+FEFF lose it in every text: two different values the
    parser returns are called equal, and an object serializes with a repeated
    key, which the parser refuses. *)
Definition bom_text : jsstring := [34; 0xFEFF; 97; 34].
Definition bom_object : jsstring := js "{" ++ bom_text ++ js ":1," ++ [34; 97; 34] ++ js ":2}".

Example bom_strings_conflated :
  parseCanonicalJson bom_text DEFAULT_JSON_LIMITS = Ok (JString (BOM ++ [byte_of 97])) ∧
  parseCanonicalJson [34; 97; 34] DEFAULT_JSON_LIMITS = Ok (JString [byte_of 97]) ∧
  canonicalJsonEqual (JString (BOM ++ [byte_of 97])) (JString [byte_of 97]) = Ok true.
Proof. vm_compute. done. Qed.

Definition bom_value : json := JObject [([byte_of 97], JNumber 2 0); (BOM ++ [byte_of 97], JNumber 1 0)].
Definition repeated_text : jsstring := js "{" ++ [34; 97; 34] ++ js ":2," ++ [34; 97; 34] ++ js ":1}".

Example bom_keys_repeated :
  parseCanonicalJson bom_object DEFAULT_JSON_LIMITS = Ok bom_value ∧
  serializeCanonicalJson bom_value = Ok repeated_text ∧
  parseCanonicalJson repeated_text DEFAULT_JSON_LIMITS = raises JSON_DUPLICATE_KEY.
Proof. vm_compute. done. Qed.

(** ** What the parser returns *)

Lemma well_formed_app a b : well_formed a = true → well_formed b = true → well_formed (a ++ b) = true.
Proof.
  intros [Ha Hca]%well_formed_scalars [Hb Hcb]%well_formed_scalars. rewrite <-Ha, <-Hb.
  assert (mjoin (units_of <$> scalars a) ++ mjoin (units_of <$> scalars b) = mjoin (units_of <$> (scalars a ++ scalars b))) as ->.
  { clear. induction (scalars a) as [|c l IH]; [done|].
    change (mjoin (units_of <$> (c :: l))) with (units_of c ++ mjoin (units_of <$> l)).
    change (mjoin (units_of <$> ((c :: l) ++ scalars b))) with (units_of c ++ mjoin (units_of <$> (l ++ scalars b))).
    by rewrite <-IH, app_assoc. }
  apply well_formed_units. by apply Forall_app.
Qed.

Lemma well_formed_unit c : 0 ≤ c ≤ 0xFFFF → is_high c = false → is_low c = false → well_formed [c] = true.
Proof. intros Hc Hh Hl. cbn [well_formed]. rewrite Hh, Hl. unfold between. lia. Qed.

Lemma well_formed_pair h l : is_high h = true → is_low l = true → well_formed [h; l] = true.
Proof. intros Hh Hl. cbn [well_formed]. by rewrite Hh, Hl. Qed.

(** [r] is what is left of [rest] after reading something, or after reading
    possibly nothing. *)
Definition consumed (rest r : jsstring) : Prop := ∃ p, p ≠ [] ∧ rest = p ++ r.
Definition skipped (rest r : jsstring) : Prop := ∃ p, rest = p ++ r.

Lemma consumed_cons c r : consumed (c :: r) r.
Proof. by exists [c]. Qed.
Lemma skipped_refl r : skipped r r.
Proof. by exists []. Qed.
Lemma consumed_skipped a b : consumed a b → skipped a b.
Proof. intros (p & _ & ->). by exists p. Qed.
Lemma skipped_consumed a b c : skipped a b → consumed b c → consumed a c.
Proof. intros (p & ->) (q & Hq & ->). exists (p ++ q). rewrite app_assoc. split; [|done]. by intros [_ ?]%app_nil. Qed.
Lemma consumed_skip a b c : consumed a b → skipped b c → consumed a c.
Proof. intros (p & Hp & ->) (q & ->). exists (p ++ q). rewrite app_assoc. split; [|done]. by intros [? _]%app_nil. Qed.
Lemma skipped_trans a b c : skipped a b → skipped b c → skipped a c.
Proof. intros (p & ->) (q & ->). exists (p ++ q). by rewrite app_assoc. Qed.
Lemma consumed_cons_skip c a b : skipped a b → consumed (c :: a) b.
Proof. intros H. eapply consumed_skip; [apply consumed_cons|done]. Qed.
Lemma consumed_length a b : consumed a b → (length b < length a)%nat.
Proof. intros ([|c p] & Hp & ->); [done|]. cbn [app length]. rewrite length_app. lia. Qed.
Lemma skipped_length a b : skipped a b → (length b ≤ length a)%nat.
Proof. intros (p & ->). rewrite length_app. lia. Qed.

Definition units_ok (s : jsstring) : Prop := Forall (λ u, 0 ≤ u ≤ 0xFFFF) s.

Lemma skipped_units a b : skipped a b → units_ok a → units_ok b.
Proof. intros (p & ->). unfold units_ok. by intros [_ ?]%Forall_app. Qed.

Create HintDb parsing.
#[local] Hint Resolve consumed_cons skipped_refl consumed_skipped skipped_consumed consumed_skip skipped_trans consumed_cons_skip skipped_units : parsing.

Lemma whitespace_skipped r : skipped r (whitespace r).
Proof.
  induction r as [|c r IH]; [apply skipped_refl|]. cbn [whitespace]. destruct (is_json_space c); [|apply skipped_refl].
  apply consumed_skipped. by apply consumed_cons_skip.
Qed.

Lemma unicodeEscape_Ok rest units r :
  unicodeEscape rest = Ok (units, r) → well_formed units = true ∧ consumed rest r.
Proof.
  unfold unicodeEscape. destruct rest as [|a [|b [|c [|d rest]]]]; try done.
  destruct (negb _) eqn:Hhex; [done|]. apply negb_false_iff in Hhex. rewrite !andb_true_iff in Hhex.
  assert (∀ x, is_hex x = true → 0 ≤ hex_of x < 16) as Hrange.
  { intros x. unfold is_hex, hex_of, is_digit. repeat case_match; lia. }
  destruct Hhex as (((Ha%Hrange & Hb%Hrange) & Hc%Hrange) & Hd%Hrange).
  assert (0 ≤ hex4 a b c d ≤ 0xFFFF) as Hf by (unfold hex4; lia).
  destruct (is_high (hex4 a b c d)) eqn:Hhi.
  - destruct rest as [|x [|y [|a' [|b' [|c' [|d' rest]]]]]]; try done. destruct (_ && is_hex d') eqn:Hlow; [|done].
    intros [= <- <-]. rewrite !andb_true_iff in Hlow. destruct Hlow as ((((_ & Ha') & Hb') & Hc'%Hrange) & Hd'%Hrange).
    split; [|by exists [a; b; c; d; x; y; a'; b'; c'; d']].
    assert (hex_of a' = 13 ∧ 12 ≤ hex_of b' ≤ 15) as [Hea Heb] by (unfold hex_of; repeat case_match; lia).
    rewrite Z.shiftl_mul_pow2 by lia. unfold is_high in Hhi.
    set (v := 0x10000 + _ + _ - 0xDC00). assert (scalar_ok v = true) as Hv.
    { unfold scalar_ok, between, v, hex4 in *. rewrite Hea. lia. }
    pose proof (well_formed_units [v]) as Hw. change (mjoin (units_of <$> [v])) with (units_of v ++ []) in Hw.
    rewrite app_nil_r in Hw. apply Hw. by constructor.
  - destruct (is_low (hex4 a b c d)) eqn:Hlo; [done|]. intros [= <- <-]. split.
    + unfold units_of. destruct (Z.ltb_spec (hex4 a b c d) 0x10000); [|lia]. by apply well_formed_unit.
    + by exists [a; b; c; d].
Qed.

Lemma string_loop_Ok fuel limits text rest s r :
  string_loop fuel limits text rest = Ok (s, r) → well_formed text = true → units_ok rest →
  well_formed s = true ∧ consumed rest r.
Proof.
  revert text rest. induction fuel as [|fuel IH]; intros text rest H Ht Hu; [done|]. cbn [string_loop] in H.
  destruct rest as [|c rest]; [done|]. inversion_clear Hu as [|?? Hc Hu'].
  destruct (Z.eqb_spec c 34) as [->|].
  { inv_ok. injection H as -> ->. split; [done|apply consumed_cons]. }
  destruct (Z.eqb_spec c 92) as [->|].
  { destruct rest as [|e rest]; [done|]. inversion_clear Hu' as [|?? He Hu'']. destruct (simple_escape e) as [u|] eqn:Hesc.
    - apply IH in H as [Hs Hr]; [|apply well_formed_app; [done|]|done].
      + split; [done|]. eauto 6 with parsing.
      + unfold simple_escape in Hesc. repeat case_match; simplify_eq; try done. apply well_formed_unit; unfold is_high, is_low; lia.
    - destruct (e =? 117); [|done]. destruct (unicodeEscape rest) as [[units r1]|] eqn:Hesc'; [|done]. cbn [mbind result_bind] in H.
      apply unicodeEscape_Ok in Hesc' as [Hunits Hr1].
      apply IH in H as [Hs Hr]; [|by apply well_formed_app|eauto with parsing]. split; [done|]. eauto 8 with parsing. }
  destruct (c <? 32); [done|]. destruct (is_high c) eqn:Hh.
  { destruct rest as [|low rest]; [done|]. destruct (is_low low) eqn:Hl; [|done]. inversion_clear Hu' as [|?? He Hu''].
    apply IH in H as [Hs Hr]; [|by apply well_formed_app; [|apply well_formed_pair]|done]. split; [done|]. eauto 6 with parsing. }
  destruct (is_low c) eqn:Hl; [done|].
  apply IH in H as [Hs Hr]; [|by apply well_formed_app; [|apply well_formed_unit]|done]. split; [done|]. eauto with parsing.
Qed.

Lemma parse_string_Ok limits rest s r :
  parse_string limits rest = Ok (s, r) → units_ok rest → well_formed s = true ∧ consumed rest r.
Proof.
  unfold parse_string. destruct rest as [|c rest]; [done|]. destruct (c =? 34); [|done].
  intros H Hu. inversion_clear Hu as [|?? _ Hu']. apply string_loop_Ok in H as [Hs Hr]; [|done|done].
  split; [done|]. eauto with parsing.
Qed.

Lemma span_digits_skipped text ds r : span_digits text = (ds, r) → skipped text r.
Proof. intros [-> _]%span_digits_spec. by exists ds. Qed.

Lemma normalize_number_normal n c : number_normal (normalize_number n c).1 (normalize_number n c).2 = true.
Proof.
  revert c. induction n as [|n IH]; intros c; [done|]. cbn [normalize_number]. destruct (Z.eqb_spec (Z.rem c 10) 0) as [|Hr]; [apply IH|].
  cbn [fst snd]. unfold number_normal. rewrite (proj2 (Z.leb_le 0 _)) by lia. cbn [andb]. apply orb_true_iff. right.
  apply negb_true_iff, Z.eqb_neq. intros Hm. apply Hr. apply Z.mod_divide in Hm as [k ->]; [|done]. by apply Z.rem_mul.
Qed.

Lemma number_value_parsed negative i f e : json_parsed (number_value negative i f e).
Proof.
  unfold number_value. destruct (if _ <? 0 then _ else _) as [c s]. pose proof (normalize_number_normal (Z.to_nat s) c) as Hn.
  destruct (normalize_number (Z.to_nat s) c) as [c' s']. cbn [fst snd] in Hn. constructor. destruct (Z.eqb_spec c' 0) as [->|]; done.
Qed.

Lemma match_integer_consumed body i r : match_integer body = Some (i, r) → consumed body r.
Proof.
  unfold match_integer. destruct body as [|c body]; [done|]. destruct (Z.eqb_spec c 48).
  - intros [= _ <-]. apply consumed_cons.
  - destruct (is_digit c) eqn:Hc; [|done]. cbn [span_digits]. rewrite Hc. destruct (span_digits body) as [ds r'] eqn:Hs.
    intros [= _ <-]. apply consumed_cons_skip. by eapply span_digits_skipped.
Qed.

Lemma match_json_fraction_skipped rest f r : match_json_fraction rest = (f, r) → skipped rest r.
Proof.
  unfold match_json_fraction. destruct rest as [|c rest]; [intros [= _ <-]; apply skipped_refl|].
  destruct (span_digits rest) as [ds r'] eqn:Hs. apply span_digits_skipped in Hs. destruct (_ && _); intros [= _ <-]; eauto with parsing.
Qed.

Lemma match_exponent_skipped rest e r : match_exponent rest = (e, r) → skipped rest r.
Proof.
  unfold match_exponent. destruct rest as [|c rest]; [intros [= _ <-]; apply skipped_refl|].
  destruct (match rest with [] => _ | _ => _ end) as [neg r1] eqn:Hsign.
  assert (skipped rest r1) as Hr1.
  { destruct rest as [|s rest]; [injection Hsign as _ <-; apply skipped_refl|].
    destruct (_ || _); injection Hsign as _ <-; eauto with parsing. }
  destruct (span_digits r1) as [ds r2] eqn:Hs. apply span_digits_skipped in Hs.
  destruct (_ && _); intros [= _ <-]; [|apply skipped_refl]. eauto with parsing.
Qed.

Lemma parse_number_Ok limits rest v r :
  parse_number limits rest = Ok (v, r) → json_parsed v ∧ consumed rest r.
Proof.
  unfold parse_number. destruct (split_sign rest) as [negative body] eqn:Hsign.
  assert (skipped rest body) as Hbody.
  { destruct rest as [|c rest]; cbn [split_sign] in Hsign; [injection Hsign as _ <-; apply skipped_refl|].
    destruct (c =? 45); injection Hsign as _ <-; eauto with parsing. }
  destruct (match_integer body) as [[i r1]|] eqn:Hi; [|done]. apply match_integer_consumed in Hi.
  destruct (match_json_fraction r1) as [f r2] eqn:Hf. apply match_json_fraction_skipped in Hf.
  destruct (match_exponent r2) as [e r3] eqn:He. apply match_exponent_skipped in He.
  intros H. inv_ok. injection H as <- <-. split; [apply number_value_parsed|].
  eapply consumed_skip; [|exact He]. eapply consumed_skip; [|exact Hf]. by eapply skipped_consumed.
Qed.

Lemma skip_space_skipped p : skipped (p_rest p) (p_rest (skip_space p)).
Proof. apply whitespace_skipped. Qed.

Lemma starts_with_consumed prefix rest : prefix ≠ [] → starts_with prefix rest = true → consumed rest (drop (length prefix) rest).
Proof.
  intros Hne H%bool_decide_eq_true. exists prefix. split; [done|]. by rewrite <-H at 1; rewrite take_drop.
Qed.

Lemma head_is_consumed c rest : head_is c rest = true → consumed rest (tail rest).
Proof. destruct rest as [|x rest]; [done|]. intros _. apply consumed_cons. Qed.

(** Keys read so far: all seen, all different. *)
Definition keys_seen (seen : jsset jsstring) (entries : list (bytes * json)) : Prop :=
  NoDup entries.*1 ∧ ∀ k, k ∈ entries.*1 → ∃ s, k = textEncode s ∧ well_formed s = true ∧ set_has s seen = true.

Lemma textEncode_inj a b : well_formed a = true → well_formed b = true → textEncode a = textEncode b → a = b.
Proof.
  intros [Ha Hca]%well_formed_scalars [Hb Hcb]%well_formed_scalars H. rewrite <-Ha, <-Hb. do 2 f_equal.
  unfold textEncode in H. apply (f_equal decode_scalars) in H. rewrite !decode_scalars_complete in H by done. congruence.
Qed.

Lemma keys_seen_add seen entries s v :
  keys_seen seen entries → well_formed s = true → set_has s seen = false →
  keys_seen (set_add s seen) (entries ++ [(textEncode s, v)]).
Proof.
  intros [Hnd Hk] Hs Hnew. split.
  - rewrite fmap_app. apply NoDup_app. split; [done|]. split; [|apply NoDup_singleton].
    intros k Hin Hk'. apply list_elem_of_singleton in Hk' as ->. destruct (Hk _ Hin) as (s' & Heq & Hs' & Hin').
    apply textEncode_inj in Heq as ->; [congruence|done|done].
  - assert (∀ x, set_has x (set_add s seen) = bool_decide (x = s) || set_has x seen) as Hset.
    { intros x. unfold set_has, set_add, map_has. rewrite map_get_set. destruct (decide (x = s)) as [->|Hx].
      - by rewrite (bool_decide_eq_true_2 (s = s)).
      - by rewrite (bool_decide_eq_false_2 (x = s)). }
    intros k. rewrite fmap_app, elem_of_app. intros [Hin|Hin].
    + destruct (Hk _ Hin) as (s' & -> & Hs' & Hin'). exists s'. split_and!; [done|done|]. by rewrite Hset, Hin', orb_true_r.
    + apply list_elem_of_singleton in Hin as ->. exists s. split_and!; [done|done|]. by rewrite Hset, bool_decide_eq_true_2.
Qed.

(** An object's entries, sorted at the end. *)
Lemma sorted_members_parsed entries :
  Forall (λ e : bytes * json, utf8_ok e.1 ∧ json_parsed e.2) entries → NoDup entries.*1 →
  json_parsed (JObject (js_sort compareEntries entries)).
Proof.
  intros Hall Hnd. constructor; [by rewrite js_sort_perm|].
  assert (js_sort compareBytes entries.*1 = (js_sort compareEntries entries).*1) as <-.
  { apply js_sort_fmap. intros x y. unfold compareEntries. by rewrite kernelCompareBytes_compareBytes. }
  by apply (js_sort_strict compareBytes).
Qed.

(** The three mutually recursive functions return canonical values and consume
    input; their statements, for one amount of fuel. *)
Definition value_parses (fuel : nat) : Prop := ∀ limits depth p v p',
  parse_value fuel limits depth p = Ok (v, p') → units_ok (p_rest p) → json_parsed v ∧ consumed (p_rest p) (p_rest p').
Definition items_parse (fuel : nat) : Prop := ∀ limits depth values p v p',
  parse_items fuel limits depth values p = Ok (v, p') → units_ok (p_rest p) →
  Forall json_parsed values → json_parsed v ∧ consumed (p_rest p) (p_rest p').
Definition members_parse (fuel : nat) : Prop := ∀ limits depth seen entries p v p',
  parse_members fuel limits depth seen entries p = Ok (v, p') → units_ok (p_rest p) →
  keys_seen seen entries → Forall (λ e : bytes * json, utf8_ok e.1 ∧ json_parsed e.2) entries →
  json_parsed v ∧ consumed (p_rest p) (p_rest p').

Lemma items_parse_S fuel : value_parses fuel → items_parse fuel → items_parse (S fuel).
Proof.
  unfold value_parses, items_parse, members_parse.
  intros IHv IHi limits depth values p v p' H Hu Hvs. cbn [parse_items] in H.
  destruct (parse_value fuel limits (depth + 1) p) as [[j p0]|] eqn:Hv; [|done]. cbn [mbind result_bind] in H.
  apply IHv in Hv as [Hv Hc]; [|done].
  set (q := skip_space p0) in *. pose proof (skip_space_skipped p0) as Hq. fold q in Hq.
  destruct (p_rest q) as [|c r] eqn:Hqr; [done|].
  assert (Forall json_parsed (values ++ [j])) as Hvs' by (apply Forall_app; by split; [|constructor]).
  destruct (c =? 93); [inv_ok; injection H as <- <-; split; [by constructor|eauto 6 with parsing]|].
  destruct (c =? 44); [|done]. set (q' := skip_space _) in H. pose proof (skip_space_skipped (mkParser r (p_nodes q))) as Hq'.
  fold q' in Hq'. cbn [p_rest] in Hq'. destruct (head_is 93 (p_rest q')); [done|].
  assert (skipped (p_rest p) (p_rest q')) by eauto 8 with parsing.
  apply IHi in H as [Hw Hc']; [|by eauto with parsing|done]. split; [done|]. eauto with parsing.
Qed.

Lemma members_parse_S fuel : value_parses fuel → members_parse fuel → members_parse (S fuel).
Proof.
  unfold value_parses, items_parse, members_parse.
  intros IHv IHm limits depth seen entries p v p' H Hu Hseen Hes. cbn [parse_members] in H.
  destruct (parse_string limits (p_rest p)) as [[s r]|] eqn:Hs; [|done]. cbn [mbind result_bind] in H.
  apply parse_string_Ok in Hs as [Hs Hr]; [|done]. unfold parserAssert in H. apply bind_Ok in H as (_ & Hnew%ensure_Ok & H).
  apply negb_true_iff in Hnew. set (q := skip_space (mkParser r (p_nodes p))) in *.
  pose proof (skip_space_skipped (mkParser r (p_nodes p))) as Hq. fold q in Hq. cbn [p_rest] in Hq.
  apply bind_Ok in H as (_ & Hcolon%ensure_Ok & H). apply head_is_consumed in Hcolon.
  destruct (parse_value fuel limits (depth + 1) (mkParser (tail (p_rest q)) (p_nodes q))) as [[j p0]|] eqn:Hv; [|done].
  cbn [mbind result_bind] in H. apply IHv in Hv as [Hv Hc]; [|apply (skipped_units (p_rest p)); [cbn [p_rest]; by eauto 8 with parsing|done]]. cbn [p_rest] in Hc.
  assert (consumed (p_rest p) (p_rest p0)) as Hcp by eauto 8 with parsing.
  set (q0 := skip_space p0) in *. pose proof (skip_space_skipped p0) as Hq0. fold q0 in Hq0.
  destruct (p_rest q0) as [|c r0] eqn:Hqr; [done|].
  assert (Forall (λ e : bytes * json, utf8_ok e.1 ∧ json_parsed e.2) (entries ++ [(textEncode s, j)])) as Hes'.
  { apply Forall_app. split; [done|]. constructor; [|done]. split; [by exists s|done]. }
  pose proof (keys_seen_add seen entries s j Hseen Hs Hnew) as Hseen'.
  destruct (c =? 125).
  { inv_ok. injection H as <- <-. split; [apply sorted_members_parsed; [done|apply Hseen']|]. eauto 6 with parsing. }
  destruct (c =? 44); [|done]. set (q' := skip_space _) in H. pose proof (skip_space_skipped (mkParser r0 (p_nodes q0))) as Hq'.
  fold q' in Hq'. cbn [p_rest] in Hq'. destruct (head_is 125 (p_rest q')); [done|].
  assert (skipped (p_rest p) (p_rest q')) by eauto 8 with parsing.
  apply IHm in H as [Hw Hc']; [|by eauto with parsing|done|done]. split; [done|]. eauto with parsing.
Qed.

Lemma value_parses_S fuel : items_parse fuel → members_parse fuel → value_parses (S fuel).
Proof.
  unfold value_parses, items_parse, members_parse.
  intros IHi IHm limits depth p v p' H Hu. cbn [parse_value] in H.
  apply bind_Ok in H as (p1 & Hp1 & H). assert (p_rest p1 = p_rest p) as Hrest.
  { unfold bumpNode, parserAssert in Hp1. inv_ok. by subst. }
  set (q := skip_space p1) in *. pose proof (skip_space_skipped p1) as Hq. fold q in Hq. rewrite Hrest in Hq.
  assert (units_ok (p_rest q)) as Huq by eauto with parsing.
  destruct (starts_with (js "null") (p_rest q)) eqn:E1.
  { injection H as <- <-. apply starts_with_consumed in E1; [|done]. split; [constructor|]. by eapply skipped_consumed. }
  destruct (starts_with (js "true") (p_rest q)) eqn:E2.
  { injection H as <- <-. apply starts_with_consumed in E2; [|done]. split; [constructor|]. by eapply skipped_consumed. }
  destruct (starts_with (js "false") (p_rest q)) eqn:E3.
  { injection H as <- <-. apply starts_with_consumed in E3; [|done]. split; [constructor|]. by eapply skipped_consumed. }
  destruct (p_rest q) as [|c r] eqn:Hqr; [done|].
  assert (units_ok r) as Hur by (by inversion_clear Huq).
  set (q' := skip_space (mkParser r (p_nodes q))) in *.
  pose proof (skip_space_skipped (mkParser r (p_nodes q))) as Hq'. fold q' in Hq'. cbn [p_rest] in Hq'.
  destruct (c =? 34).
  { destruct (parse_string limits (c :: r)) as [[s r']|] eqn:Hs; [|done]. injection H as <- <-.
    apply parse_string_Ok in Hs as [Hs Hc]; [|done]. split; [constructor; by exists s|]. cbn [p_rest]. eauto with parsing. }
  destruct (c =? 91).
  { destruct (head_is 93 (p_rest q')) eqn:Hh.
    - injection H as <- <-. apply head_is_consumed in Hh. split; [by constructor|]. cbn [p_rest]. eauto 8 with parsing.
    - apply IHi in H as [Hv Hc]; [|by eauto with parsing|done]. split; [done|]. eauto 8 with parsing. }
  destruct (c =? 123).
  { destruct (head_is 125 (p_rest q')) eqn:Hh.
    - injection H as <- <-. apply head_is_consumed in Hh. split; [by constructor; constructor|]. cbn [p_rest]. eauto 8 with parsing.
    - apply IHm in H as [Hv Hc]; [|by eauto with parsing|split; [constructor|by intros k ?%elem_of_nil]|done]. split; [done|]. eauto 8 with parsing. }
  destruct (_ || _); [|done]. destruct (parse_number limits (c :: r)) as [[n r']|] eqn:Hs; [|done]. injection H as <- <-.
  apply parse_number_Ok in Hs as [Hs Hc]. split; [done|]. cbn [p_rest]. eauto with parsing.
Qed.

Lemma parse_all fuel : value_parses fuel ∧ items_parse fuel ∧ members_parse fuel.
Proof.
  induction fuel as [|fuel (IHv & IHi & IHm)]; [by split_and!|].
  split_and!; [by apply value_parses_S|by apply items_parse_S|by apply members_parse_S].
Qed.

(** C37: Whatever text the parser accepts, the value it returns is canonical: numbers
    without trailing zeros, texts that are valid UTF-8, and object keys strictly
    ascending, so none repeats. *)
Theorem parse_returns_canonical (source : jsstring) (limits : JsonLimits) (v : json) :
  units_ok source → parseCanonicalJson source limits = Ok v → json_parsed v.
Proof.
  intros Hu H. unfold parseCanonicalJson in H. apply bind_Ok in H as (_ & _ & H). apply bind_Ok in H as ([v' p] & Hv & H).
  inv_ok. subst v'. by destruct (proj1 (parse_all (parse_fuel source)) limits 0 (mkParser source 0) v p Hv Hu).
Qed.

Definition sample_source : jsstring := js " { " ++ [34; 98; 34] ++ js " : 1.50e1 , " ++ [34; 97; 34] ++ js ":[null,-0.0]} ".
Definition sample_parsed : json :=
  JObject [([byte_of 97], JArray [JNull; JNumber 0 0]); ([byte_of 98], JNumber 15 0)].

Lemma sample_source_units : units_ok sample_source.
Proof. unfold units_ok. apply Forall_forall. intros u Hu. vm_compute in Hu. set_unfold. lia. Qed.

Lemma parse_returns_canonical_witness :
  parseCanonicalJson sample_source DEFAULT_JSON_LIMITS = Ok sample_parsed ∧ json_parsed sample_parsed.
Proof.
  assert (parseCanonicalJson sample_source DEFAULT_JSON_LIMITS = Ok sample_parsed) as H by (vm_compute; reflexivity).
  split; [exact H|]. exact (parse_returns_canonical sample_source DEFAULT_JSON_LIMITS sample_parsed sample_source_units H).
Defined.

(** ** Termination

    Once the fuel covers the rest of the source, one more unit changes nothing, and the
    bound is not what ended the recursion. *)
Definition settles {A} (more enough : result ParserError A) : Prop := more = enough ∧ enough ≠ Err out_of_fuel.

Lemma settles_same {A} (r : result ParserError A) : r ≠ Err out_of_fuel → settles r r.
Proof. by split. Qed.

Lemma unicodeEscape_raises rest e : unicodeEscape rest = Err e → e ≠ out_of_fuel.
Proof. unfold unicodeEscape. intros H. by repeat case_match; simplify_eq. Qed.

Lemma string_settled fuel limits text rest : (length rest < fuel)%nat →
  settles (string_loop (S fuel) limits text rest) (string_loop fuel limits text rest).
Proof.
  revert text rest. induction fuel as [|fuel IH]; intros text rest Hf; [lia|]. cbn [string_loop].
  destruct rest as [|c rest]; [by split|]. cbn [length] in Hf.
  destruct (c =? 34); [by apply settles_same; unfold parserAssert, ensure; case_match|].
  destruct (c =? 92).
  { destruct rest as [|e rest]; [by split|]. cbn [length] in Hf. destruct (simple_escape e); [apply IH; lia|].
    destruct (e =? 117); [|by split]. destruct (unicodeEscape rest) as [[units r]|e'] eqn:Hu; cbn [mbind result_bind].
    - apply unicodeEscape_Ok in Hu as [_ Hr%consumed_length]. apply IH. lia.
    - apply settles_same. apply unicodeEscape_raises in Hu. congruence. }
  destruct (c <? 32); [by split|]. destruct (is_high c).
  { destruct rest as [|low rest]; [by split|]. cbn [length] in Hf. destruct (is_low low); [apply IH; lia|by split]. }
  destruct (is_low c); [by split|]. apply IH. lia.
Qed.

Lemma string_never_out limits rest : parse_string limits rest ≠ Err out_of_fuel.
Proof.
  unfold parse_string. destruct rest as [|c r]; [done|]. destruct (c =? 34); [|done]. apply (string_settled (S (length r))). lia.
Qed.

Lemma number_never_out limits rest : parse_number limits rest ≠ Err out_of_fuel.
Proof.
  unfold parse_number. destruct (split_sign rest) as [n body]. destruct (match_integer body) as [[i r1]|]; [|done].
  destruct (match_json_fraction r1) as [f r2], (match_exponent r2) as [e r3]. unfold parserAssert, ensure.
  repeat (case_match; cbn [mbind result_bind]; try done).
Qed.

Definition value_settled (fuel : nat) : Prop := ∀ limits depth p,
  units_ok (p_rest p) → (2 * length (p_rest p) + 1 ≤ fuel)%nat →
  settles (parse_value (S fuel) limits depth p) (parse_value fuel limits depth p).
Definition items_settled (fuel : nat) : Prop := ∀ limits depth values p,
  units_ok (p_rest p) → (2 * length (p_rest p) + 2 ≤ fuel)%nat →
  settles (parse_items (S fuel) limits depth values p) (parse_items fuel limits depth values p).
Definition members_settled (fuel : nat) : Prop := ∀ limits depth seen entries p,
  units_ok (p_rest p) → (2 * length (p_rest p) + 2 ≤ fuel)%nat →
  settles (parse_members (S fuel) limits depth seen entries p) (parse_members fuel limits depth seen entries p).

Lemma value_settled_S fuel : items_settled fuel → members_settled fuel → value_settled (S fuel).
Proof.
  intros IHi IHm limits depth p Hu Hf. cbn [parse_value].
  destruct (bumpNode limits depth p) as [p1|e] eqn:Hp1; cbn [mbind result_bind].
  2:{ apply settles_same. unfold bumpNode, parserAssert, ensure in Hp1. by repeat (case_match; cbn [mbind result_bind] in Hp1; simplify_eq). }
  assert (p_rest p1 = p_rest p) as Hrest by (unfold bumpNode, parserAssert in Hp1; inv_ok; by subst).
  pose proof (skip_space_skipped p1) as Hq. rewrite Hrest in Hq.
  destruct (starts_with (js "null") _); [by split|]. destruct (starts_with (js "true") _); [by split|].
  destruct (starts_with (js "false") _); [by split|]. destruct (p_rest (skip_space p1)) as [|c r]; [by split|].
  destruct (c =? 34).
  { apply settles_same. pose proof (string_never_out limits (c :: r)) as Hs. destruct (parse_string limits (c :: r)) as [[? ?]|e]; cbn; congruence. }
  set (q' := skip_space (mkParser r (p_nodes (skip_space p1)))).
  assert (consumed (p_rest p) (p_rest q')) as Hc.
  { eapply skipped_consumed; [exact Hq|]. apply consumed_cons_skip. apply (skip_space_skipped (mkParser r (p_nodes (skip_space p1)))). }
  pose proof (consumed_length _ _ Hc). assert (units_ok (p_rest q')) by (by eauto with parsing).
  destruct (c =? 91); [destruct (head_is 93 (p_rest q')); [by split|apply IHi; [done|lia]]|].
  destruct (c =? 123); [destruct (head_is 125 (p_rest q')); [by split|apply IHm; [done|lia]]|].
  apply settles_same. destruct (_ || _); [|done]. pose proof (number_never_out limits (c :: r)) as Hs.
  destruct (parse_number limits (c :: r)) as [[? ?]|e]; cbn; congruence.
Qed.

Lemma items_settled_S fuel : value_settled fuel → items_settled fuel → items_settled (S fuel).
Proof.
  intros IHv IHi limits depth values p Hu Hf. cbn [parse_items]. destruct (IHv limits (depth + 1) p) as [-> Hne]; [done|lia|].
  destruct (parse_value fuel limits (depth + 1) p) as [[v p0]|] eqn:Hv; cbn [mbind result_bind]; [|apply settles_same; congruence].
  destruct (proj1 (parse_all fuel) _ _ _ _ _ Hv Hu) as [_ Hc].
  pose proof (skip_space_skipped p0) as Hq. destruct (p_rest (skip_space p0)) as [|c r]; [by split|]. destruct (c =? 93); [by split|].
  destruct (c =? 44); [|by split]. set (q' := skip_space (mkParser r (p_nodes (skip_space p0)))).
  assert (consumed (p_rest p) (p_rest q')) as Hc'.
  { eapply consumed_skip; [exact Hc|]. eapply skipped_trans; [exact Hq|]. apply consumed_skipped, consumed_cons_skip.
    apply (skip_space_skipped (mkParser r (p_nodes (skip_space p0)))). }
  pose proof (consumed_length _ _ Hc'). destruct (head_is 93 (p_rest q')); [by split|]. apply IHi; [by eauto with parsing|lia].
Qed.

Lemma members_settled_S fuel : value_settled fuel → members_settled fuel → members_settled (S fuel).
Proof.
  intros IHv IHm limits depth seen entries p Hu Hf. cbn [parse_members]. pose proof (string_never_out limits (p_rest p)) as Hkey.
  destruct (parse_string limits (p_rest p)) as [[s r]|] eqn:Hs; cbn [mbind result_bind]; [|apply settles_same; congruence].
  apply parse_string_Ok in Hs as [_ Hr]; [|done]. unfold parserAssert.
  destruct (negb (set_has s seen)); cbn [ensure mbind result_bind]; [|by split].
  pose proof (skip_space_skipped (mkParser r (p_nodes p))) as Hq. cbn [p_rest] in Hq.
  set (q := skip_space (mkParser r (p_nodes p))) in *.
  destruct (head_is 58 (p_rest q)) eqn:Hcolon; cbn [ensure mbind result_bind]; [|by split]. apply head_is_consumed in Hcolon.
  assert (consumed (p_rest p) (tail (p_rest q))) as Ht by (by eauto with parsing). pose proof (consumed_length _ _ Ht).
  assert (units_ok (tail (p_rest q))) as Hut by (by eauto with parsing).
  destruct (IHv limits (depth + 1) (mkParser (tail (p_rest q)) (p_nodes q))) as [-> Hne]; [done|cbn [p_rest]; lia|].
  destruct (parse_value fuel limits (depth + 1) _) as [[v p0]|] eqn:Hv; cbn [mbind result_bind]; [|apply settles_same; congruence].
  destruct (proj1 (parse_all fuel) _ _ _ _ _ Hv Hut) as [_ Hc]. cbn [p_rest] in Hc.
  pose proof (skip_space_skipped p0) as Hq0. destruct (p_rest (skip_space p0)) as [|c r0]; [by split|]. destruct (c =? 125); [by split|].
  destruct (c =? 44); [|by split]. set (q' := skip_space (mkParser r0 (p_nodes (skip_space p0)))).
  assert (consumed (p_rest p) (p_rest q')) as Hc'.
  { eapply consumed_skip; [exact Ht|]. eapply skipped_trans; [apply consumed_skipped; exact Hc|]. eapply skipped_trans; [exact Hq0|].
    apply consumed_skipped, consumed_cons_skip. apply (skip_space_skipped (mkParser r0 (p_nodes (skip_space p0)))). }
  pose proof (consumed_length _ _ Hc'). destruct (head_is 125 (p_rest q')); [by split|]. apply IHm; [by eauto with parsing|lia].
Qed.

Lemma parse_settled fuel : value_settled fuel ∧ items_settled fuel ∧ members_settled fuel.
Proof.
  induction fuel as [|fuel (IHv & IHi & IHm)]; [split_and!; intros; intros ? Hf; lia|].
  split_and!; [by apply value_settled_S|by apply items_settled_S|by apply members_settled_S].
Qed.

(** C38: The parser terminates on every source.  The model bounds its recursion, and
    going past the bound is an error of its own, which the code does not have: no source
    has it, neither within [parse_value], whose calls are bounded by twice the length of
    the source, nor in the loop over a string literal, whose rounds are bounded by the
    length of what is left.  A larger bound, on the one or on the other, gives the same
    result. *)
Theorem parse_terminates (source : jsstring) (limits : JsonLimits) :
  units_ok source →
  parseCanonicalJson source limits ≠ Err out_of_fuel ∧
  (∀ fuel, (parse_fuel source ≤ fuel)%nat →
     parse_value fuel limits 0 (mkParser source 0) = parse_value (parse_fuel source) limits 0 (mkParser source 0)) ∧
  (∀ text rest fuel, (S (length rest) ≤ fuel)%nat →
     string_loop fuel limits text rest ≠ Err out_of_fuel ∧
     string_loop fuel limits text rest = string_loop (S (length rest)) limits text rest).
Proof.
  intros Hu.
  assert (∀ fuel, (parse_fuel source ≤ fuel)%nat → settles (parse_value (S fuel) limits 0 (mkParser source 0)) (parse_value fuel limits 0 (mkParser source 0))) as Hs.
  { intros fuel Hf. apply (proj1 (parse_settled fuel)); [done|]. cbn [p_rest]. unfold parse_fuel in Hf. lia. }
  split_and!.
  - unfold parseCanonicalJson, parserAssert. destruct (_ <=? _); cbn [ensure mbind result_bind]; [|done].
    destruct (Hs (parse_fuel source)) as [_ Hne]; [done|]. destruct (parse_value _ _ _ _) as [[v p]|]; cbn [mbind result_bind]; [|congruence].
    by destruct (bool_decide _).
  - intros fuel Hle. induction Hle as [|fuel Hle IH]; [done|]. rewrite <-IH. by apply Hs.
  - intros text rest fuel Hle. split; [by apply string_settled|]. induction Hle as [|fuel Hle IH]; [done|]. rewrite <-IH. by apply string_settled.
Qed.

Lemma parse_terminates_witness :
  parseCanonicalJson sample_source DEFAULT_JSON_LIMITS ≠ Err out_of_fuel ∧
  parse_value 1000 DEFAULT_JSON_LIMITS 0 (mkParser sample_source 0) =
  parse_value (parse_fuel sample_source) DEFAULT_JSON_LIMITS 0 (mkParser sample_source 0).
Proof.
  destruct (parse_terminates sample_source DEFAULT_JSON_LIMITS sample_source_units) as (H & Hv & _). split; [exact H|].
  apply (Hv 1000%nat). apply Nat.leb_le. vm_compute. reflexivity.
Defined.
