(* ===== verification/Membership.v ===== *)
(** * Revision-pinned authority: [packages/node-core/src/capability-membership.ts]

    [CapabilityMembershipResolver] answers a node's questions about authority
    from the snapshot of the capability log a transaction pins: who may write,
    validate and use a transport feed, which attestations admit a candidate, and
    which validators a watermark has to hear from.  The lookup of a snapshot by
    its digest and the recovery-controlled binding of feeds are options of the
    class and parameters here. *)

From Stdlib Require Import Strings.Byte.
From stdpp Require Import base list option numbers.
From S2P Require Import Prelude JsMap Bytes CapTypes Policy Reducer StoreTypes.

#[local] Open Scope Z_scope.

(** [Omit<CandidateAdmissionContext, 'validatorId' | 'validatorCapability'>] *)
Record AdmissionContext := mkAdmissionContext {
  ac_groupId : bytes;
  ac_membershipRevision : bytes;
  ac_validationPolicy : bytes;
  ac_writerId : bytes;
}.

Record CandidateAdmissionContext := mkCandidateContext {
  cc_context : AdmissionContext;
  cc_validatorId : bytes;
  cc_validatorCapability : bytes;
}.

Record ValidatorAuthorityContext := mkAuthorityContext {
  vac_groupId : bytes;
  vac_membershipRevision : bytes;
  vac_validatorId : bytes;
  vac_validatorCapability : bytes;
}.

Record TransportAuthorContext := mkTransportContext {
  tc_groupId : bytes;
  tc_membershipRevision : bytes;
  tc_role : CapabilityRole;
  tc_signingId : bytes;
  tc_transportAuthor : jsstring;
  tc_validatorCapability : option bytes;
}.

(** What a query throws: an error of the policy evaluation, or the access to a
    selected capability that is not indexed. *)
Inductive MembershipError := PolicyFailure (code : ErrorCode) | SelectionMissing.

Definition policy_result {A} (r : result ErrorCode A) : result MembershipError A :=
  match r with Ok a => Ok a | Err code => Err (PolicyFailure code) end.

Definition activeRole (capability : EffectiveCapability) (snapshot : CapabilitySnapshot) (role : CapabilityRole) : bool :=
  bool_decide (g_role (ec_grant capability) = role) && isCapabilityActive capability (cs_revision snapshot).

Definition evidence_for (capability : EffectiveCapability) (validatorId : bytes) : ValidatorEvidence :=
  mkEvidence (ec_id capability) validatorId (g_organization (ec_grant capability))
    (g_validatorClass (ec_grant capability)).

(** ** The minimal proofs of a policy *)

(** [results.some((proof) => proof.every((id) => selected.some(...)))] *)
Definition contains_proof (results : list (list bytes)) (selected : list EffectiveCapability) : bool :=
  existsb (λ proof, forallb (λ id, existsb (λ candidate,
    equalBytes (g_signingPublicKey (ec_grant candidate)) id) selected) proof) results.

(** [visit]: the subsets without the next validator before those with it. *)
Fixpoint visit (policy : ValidationPolicy) (validators selected : list EffectiveCapability)
    (results : list (list bytes)) : result ErrorCode (list (list bytes)) :=
  match validators with
  | [] =>
      let evidence := (λ c, evidence_for c (g_signingPublicKey (ec_grant c))) <$> selected in
      evaluation ← evaluateValidationPolicy policy evidence;
      if negb (pe_satisfied evaluation) then Ok results
      else if contains_proof results selected then Ok results
      else Ok (results ++ [(λ c, g_signingPublicKey (ec_grant c)) <$> selected])
  | capability :: validators' =>
      results' ← visit policy validators' selected results;
      visit policy validators' (selected ++ [capability]) results'
  end.

Definition minimalProofs (policy : ValidationPolicy) (validators : list EffectiveCapability) :
    result ErrorCode (list (list bytes)) := visit policy validators [] [].

Section resolver.
Context (snapshotForRevision : bytes → option CapabilitySnapshot) (maximumWatermarkValidators : Z)
  (transportAuthorForCapability : option (EffectiveCapability → CapabilitySnapshot → option jsstring)).

(** [#snapshot] *)
Definition pinned_snapshot (context : AdmissionContext) : option CapabilitySnapshot :=
  match snapshotForRevision (ac_membershipRevision context) with
  | Some snapshot =>
    if equalBytes (cs_groupId snapshot) (ac_groupId context) &&
    equalBytes (cs_revisionDigest snapshot) (ac_membershipRevision context)
    then Some snapshot else None
  | None => None
  end.

Definition canWrite (context : AdmissionContext) : bool :=
  match pinned_snapshot context with
  | None => false
  | Some snapshot =>
    existsb (λ capability, activeRole capability snapshot writer &&
      equalBytes (g_signingPublicKey (ec_grant capability)) (ac_writerId context))
    (map_values (cs_capabilities snapshot))
  end.

(** The test shared by [canValidate] and [canHeartbeat]. *)
Definition holds_validator (snapshot : CapabilitySnapshot) (validatorCapability validatorId : bytes) : bool :=
  match map_get (bytesToHex validatorCapability) (cs_capabilities snapshot) with
  | None => false
  | Some capability => activeRole capability snapshot validator &&
    equalBytes (g_signingPublicKey (ec_grant capability)) validatorId
  end.

Definition canValidate (context : CandidateAdmissionContext) : bool :=
  match pinned_snapshot (cc_context context) with
  | None => false
  | Some snapshot => holds_validator snapshot (cc_validatorCapability context) (cc_validatorId context)
  end.

Definition canHeartbeat (context : ValidatorAuthorityContext) : bool :=
  match pinned_snapshot (mkAdmissionContext (vac_groupId context) (vac_membershipRevision context) [] []) with
  | None => false
  | Some snapshot => holds_validator snapshot (vac_validatorCapability context) (vac_validatorId context)
  end.

Definition pinned_policy (context : AdmissionContext) : option ValidationPolicy :=
  snapshot ← pinned_snapshot context;
  effective ← map_get (bytesToHex (ac_validationPolicy context)) (cs_policies snapshot);
  Some (ep_policy effective).

Definition threshold (context : AdmissionContext) : Z :=
  match pinned_policy context with
  | None => MAX_SAFE_INTEGER
  | Some policy =>
    if MAX_SAFE_INTEGER <? vp_minimumValidators policy then MAX_SAFE_INTEGER else vp_minimumValidators policy
  end.

Definition policyVersion (context : AdmissionContext) : Z :=
  match pinned_policy context with None => -1 | Some policy => vp_version policy end.

Definition canUseTransportAuthor (context : TransportAuthorContext) : bool :=
  match pinned_snapshot (mkAdmissionContext (tc_groupId context) (tc_membershipRevision context) [] (tc_signingId context)) with
  | None => false
  | Some snapshot =>
    let capability :=
    if bool_decide (tc_role context = validator)
    then map_get (bytesToHex (default [] (tc_validatorCapability context))) (cs_capabilities snapshot)
    else snd <$> list_find (λ candidate, activeRole candidate snapshot writer &&
      equalBytes (g_signingPublicKey (ec_grant candidate)) (tc_signingId context) = true)
    (map_values (cs_capabilities snapshot)) in
    match capability with
    | None => false
    | Some capability =>
      if negb (activeRole capability snapshot (tc_role context)) ||
      negb (equalBytes (g_signingPublicKey (ec_grant capability)) (tc_signingId context)) then false
      else
      let authorized := match transportAuthorForCapability with
      | None => g_transportAuthor (ec_grant capability)
      | Some lookup => lookup capability snapshot
      end in
      bool_decide (authorized = Some (tc_transportAuthor context))
    end
  end.

(** ** Admission *)

(** The guard of the loop of [selectAdmission]. *)
Definition admits (snapshot : CapabilitySnapshot) (policy : ValidationPolicy) (attestation : StoredAttestation) :
  option EffectiveCapability :=
  match map_get (bytesToHex (sa_validatorCapability attestation)) (cs_capabilities snapshot) with
  | None => None
  | Some capability =>
    if negb (activeRole capability snapshot validator) ||
    negb (equalBytes (g_signingPublicKey (ec_grant capability)) (sa_validatorId attestation)) ||
    negb (equalBytes (sa_membershipRevision attestation) (cs_revisionDigest snapshot)) ||
    negb (sa_policyVersion attestation =? vp_version policy) ||
    (sa_authorTimestampMs attestation <=? sa_acceptedAboveMs attestation) ||
    (sa_authorTimestampMs attestation <=? default (-1) (g_minimumAuthorTimestampMs (ec_grant capability)))
    then None else Some capability
  end.

Definition index_admitted (snapshot : CapabilitySnapshot) (policy : ValidationPolicy)
  (indexed : jsmap jsstring (ValidatorEvidence * StoredAttestation)) (attestation : StoredAttestation) :
  jsmap jsstring (ValidatorEvidence * StoredAttestation) :=
  match admits snapshot policy attestation with
  | None => indexed
  | Some capability =>
    let key := bytesToHex (ec_id capability) in
    if map_has key indexed then indexed
    else map_set key (evidence_for capability (sa_validatorId attestation), attestation) indexed
  end.

Definition selectAdmission (context : AdmissionContext) (attestations : list StoredAttestation) :
  result MembershipError (list StoredAttestation) :=
  match pinned_snapshot context, pinned_policy context with
  | Some snapshot, Some policy =>
    let indexed := foldl (index_admitted snapshot policy) [] attestations in
    evaluation ← policy_result (evaluateValidationPolicy policy (fst <$> map_values indexed));
    if negb (pe_satisfied evaluation) then Ok []
    else mapR (λ evidence, match map_get (bytesToHex (ev_capabilityId evidence)) indexed with
      | Some item => Ok item.2
      | None => Err SelectionMissing
      end) (pe_selected evaluation)
  | _, _ => Ok []
  end.

(** ** Watermarks *)

Definition watermarkPolicy (core : CoreView) : result MembershipError (option WatermarkPolicy) :=
  let context := mkAdmissionContext (co_groupId core) (co_membershipRevision core) (co_validationPolicy core)
  (co_authorId core) in
  match pinned_snapshot context with
  | None => Ok None
  | Some snapshot =>
    match map_get (bytesToHex (co_validationPolicy core)) (cs_policies snapshot) with
    | None => Ok None
    | Some effective =>
      let validators := filter (λ capability, activeRole capability snapshot validator = true)
      (map_values (cs_capabilities snapshot)) in
      if maximumWatermarkValidators <? Z.of_nat (length validators) then Ok None
      else
      let policyId := bytesToHex (ep_id effective) in
      let policy := ep_policy effective in
      if (length (vp_classMinimums policy) =? 0)%nat && (length (vp_requiredOrganizations policy) =? 0)%nat
      then
      if negb (Z.abs (vp_minimumValidators policy) <=? MAX_SAFE_INTEGER) then Ok None
      else Ok (Some (threshold_policy policyId
          ((λ c, g_signingPublicKey (ec_grant c)) <$> validators) (vp_minimumValidators policy)))
      else
      proofs ← policy_result (minimalProofs policy validators);
      Ok (if (length proofs =? 0)%nat then None else Some (proof_alternatives policyId proofs))
    end
  end.
End resolver.

(** The default of the option [maximumWatermarkValidators]. *)
Definition DEFAULT_MAXIMUM_WATERMARK_VALIDATORS : Z := 20.
