(* ===== verification/MembershipTheorems.v ===== *)
(** * Theorems on revision-pinned authority

    The two ways the code base decides admission agree, the minimal proofs of a
    policy are exactly its minimal satisfying sets, and a transaction at or below
    a watermark is not admitted without a validator that had closed that time. *)

From Stdlib Require Import Strings.Byte Strings.String Sorting.Sorted.
From stdpp Require Import base list option numbers sets sorting.
From S2P Require Import Prelude JsMap Bytes Base64 Domains Messages CapTypes CapCodec Policy PolicyProofs Reducer ReducerProofs LogTheorems AdmissionTheorems StoreTypes ControlStore Watermark Membership.

#[local] Open Scope Z_scope.

(** ** Evidence as a set *)

Lemma strictly_sorted_ext {A} (cmp : A → A → Z) `{!Comparator cmp} l1 l2 :
  StronglySorted (λ a b, cmp a b < 0) l1 → StronglySorted (λ a b, cmp a b < 0) l2 →
  (∀ x, x ∈ l1 ↔ x ∈ l2) → l1 = l2.
Proof.
  assert (∀ l, StronglySorted (λ a b, cmp a b < 0) l → NoDup l) as Hnd.
  { induction 1 as [|x l _ IH Hx]; constructor; [|done]. intros Hin. rewrite Forall_forall in Hx.
    specialize (Hx x Hin). rewrite cmp_refl in Hx. lia. }
  intros H1 H2 Hin. apply (StronglySorted_unique_strong (λ a b, cmp a b < 0)); [|done..|by apply NoDup_Permutation; auto].
  intros x y _ _ Hxy Hyx. pose proof (cmp_lt_trans cmp x y x Hxy ltac:(lia)). rewrite cmp_refl in *. lia.
Qed.

(** Evidence that has one item per capability. *)
Definition one_per_capability (evidence : list ValidatorEvidence) : Prop :=
  ∀ x y, x ∈ evidence → y ∈ evidence → ev_capabilityId x = ev_capabilityId y → x = y.

Lemma elem_of_unique_evidence evidence x :
  one_per_capability evidence → x ∈ unique_evidence evidence ↔ x ∈ evidence.
Proof.
  intros Hone. destruct (unique_evidence_spec evidence) as (_ & Hin & Hall). split; [apply Hin|].
  intros Hx. destruct (list_elem_of_fmap_1 _ _ _ (Hall x Hx)) as (y & Hid & Hy).
  replace x with y; [done|]. symmetry. apply Hone; auto.
Qed.

Lemma evaluate_ext policy e1 e2 :
  one_per_capability e1 → (∀ x, x ∈ e1 ↔ x ∈ e2) →
  evaluateValidationPolicy policy e1 = evaluateValidationPolicy policy e2.
Proof.
  intros Hone Hin. unfold evaluateValidationPolicy.
  replace (unique_evidence e2) with (unique_evidence e1); [done|].
  assert (one_per_capability e2) as Hone2 by (intros x y; rewrite <-!Hin; apply Hone).
  destruct (unique_evidence_spec e1) as (H1 & _). destruct (unique_evidence_spec e2) as (H2 & _).
  apply (strictly_sorted_ext compareCapabilityIds); [done..|]. intros x.
  by rewrite !elem_of_unique_evidence.
Qed.

(** A policy is satisfied by a set of capabilities exactly when the solver says
    so. *)
Lemma evaluate_distinct policy evidence :
  policy_wf policy → NoDup (ev_capabilityId <$> evidence) →
  ∃ e, evaluateValidationPolicy policy evidence = Ok e ∧ (pe_satisfied e = true ↔ satisfies policy evidence).
Proof.
  intros Hwf Hnd. destruct (policy_solver_spec policy evidence Hwf) as (e & He & Hcase). exists e. split; [done|].
  assert (one_per_capability evidence) as Hone.
  { intros x y Hx Hy Hid. apply list_elem_of_lookup in Hx as [i Hi], Hy as [j Hj].
    assert (i = j) as <-; [|congruence].
    eapply NoDup_lookup; [exact Hnd| |]; rewrite list_lookup_fmap; [by rewrite Hi|rewrite Hj; simpl; by rewrite Hid]. }
  assert (unique_evidence evidence ≡ₚ evidence) as Hperm.
  { destruct (unique_evidence_spec evidence) as (Hs & _). apply NoDup_Permutation.
    - apply (NoDup_fmap_1 ev_capabilityId), (strict_sorted_NoDup compareBytes). by apply StronglySorted_on.
    - by apply (NoDup_fmap_1 ev_capabilityId).
    - intros x. by apply elem_of_unique_evidence. }
  destruct (pe_satisfied e).
  - split; [|done]. intros _. destruct Hcase as (Hsub & Hsat & _).
    eapply satisfies_perm; [exact Hperm|]. by eapply satisfies_sublist.
  - split; [done|]. intros Hsat. destruct Hcase as [_ Hno]. exfalso. eapply (Hno (unique_evidence evidence)); [done|].
    by eapply satisfies_perm; [symmetry|].
Qed.

(** ** The minimal proofs *)

Definition keys_of (l : list EffectiveCapability) : list bytes := (λ c, g_signingPublicKey (ec_grant c)) <$> l.
Definition evidence_of (l : list EffectiveCapability) : list ValidatorEvidence :=
  (λ c, evidence_for c (g_signingPublicKey (ec_grant c))) <$> l.

Lemma evidence_of_ids l : ev_capabilityId <$> evidence_of l = ec_id <$> l.
Proof. unfold evidence_of. rewrite <-list_fmap_compose. done. Qed.

Lemma contains_proof_spec results selected :
  contains_proof results selected = true ↔ ∃ r, r ∈ results ∧ r ⊆ keys_of selected.
Proof.
  unfold contains_proof. rewrite existsb_exists. split.
  - intros (r & Hr%list_elem_of_In & Hall). exists r. split; [done|]. rewrite forallb_forall in Hall.
    intros id Hid%list_elem_of_In. specialize (Hall id Hid). apply existsb_exists in Hall as (c & Hc%list_elem_of_In & He).
    apply equalBytes_spec in He as <-. by apply (list_elem_of_fmap_2 (λ c, g_signingPublicKey (ec_grant c))).
  - intros (r & Hr & Hsub). exists r. split; [by apply list_elem_of_In|]. apply forallb_forall.
    intros id Hid%list_elem_of_In%Hsub. apply list_elem_of_fmap in Hid as (c & -> & Hc).
    apply existsb_exists. exists c. split; [by apply list_elem_of_In|apply equalBytes_refl].
Qed.

(** No proof of the list contains another one. *)
Definition antichain (proofs : list (list bytes)) : Prop :=
  ∀ i j r r', proofs !! i = Some r → proofs !! j = Some r' → r ⊆ r' → i = j.

Lemma antichain_snoc proofs r :
  antichain proofs → (∀ r', r' ∈ proofs → ¬ r' ⊆ r ∧ ¬ r ⊆ r') → antichain (proofs ++ [r]).
Proof.
  intros Ha Hr i j x y Hi Hj Hsub.
  apply lookup_snoc_Some in Hi as [[Hi Hx]|[-> ->]], Hj as [[Hj Hy]|[-> ->]].
  - by apply (Ha i j x y).
  - apply list_elem_of_lookup_2 in Hx. by apply Hr in Hx as [? _].
  - apply list_elem_of_lookup_2 in Hy. by apply Hr in Hy as [_ ?].
  - done.
Qed.

Section visit.
Context (policy : ValidationPolicy) (Hwf : policy_wf policy).

(** What the enumeration below [selected] adds to [results]. *)
Record visited (rest selected : list EffectiveCapability) (results results' : list (list bytes)) : Prop := {
    visited_keeps : results ⊆ results';
    visited_sound : ∀ r, r ∈ results' → r ∈ results ∨
    ∃ sub, sub `sublist_of` rest ∧ r = keys_of (selected ++ sub) ∧ satisfies policy (evidence_of (selected ++ sub));
    visited_complete : ∀ sub, sub `sublist_of` rest → satisfies policy (evidence_of (selected ++ sub)) →
    ∃ r, r ∈ results' ∧ r ⊆ keys_of (selected ++ sub);
    visited_antichain : antichain results → NoDup (keys_of (selected ++ rest)) →
    (∀ r sub, r ∈ results → sub `sublist_of` rest → ¬ keys_of (selected ++ sub) ⊆ r) → antichain results';
}.

Lemma visit_spec rest selected results :
  NoDup (ec_id <$> selected ++ rest) →
  ∃ results', visit policy rest selected results = Ok results' ∧ visited rest selected results results'.
Proof.
  revert selected results. induction rest as [|c rest IH]; intros selected results Hnd; cbn [visit].
  - rewrite app_nil_r in Hnd.
    destruct (evaluate_distinct policy (evidence_of selected) Hwf) as (e & He & Hsat); [by rewrite evidence_of_ids|].
    fold (evidence_of selected). rewrite He. cbn [mbind result_bind].
    destruct (pe_satisfied e) eqn:Es; simpl.
    + destruct (contains_proof results selected) eqn:Hc.
      * eexists. split; [done|]. apply contains_proof_spec in Hc as (r & Hr & Hsub). split; [done|by left| |done].
        intros sub ->%sublist_nil_r _. rewrite app_nil_r. by exists r.
      * eexists. split; [done|]. fold (keys_of selected). split.
        -- set_solver.
        -- intros r [Hr|Hr%list_elem_of_singleton]%elem_of_app; [by left|]. subst. right. exists [].
          rewrite app_nil_r. split_and!; [constructor|done|by apply Hsat].
        -- intros sub ->%sublist_nil_r _. rewrite app_nil_r. exists (keys_of selected). set_solver.
        -- intros Ha _ Hnew. apply antichain_snoc; [done|]. intros r' Hr'. split.
          ++ intros Hsub. apply not_true_iff_false in Hc. apply Hc, contains_proof_spec. by exists r'.
          ++ specialize (Hnew r' [] Hr'). rewrite app_nil_r in Hnew. apply Hnew. constructor.
    + eexists. split; [done|]. split; [done|by left| |done]. intros sub ->%sublist_nil_r. rewrite app_nil_r.
      intros Hs%Hsat. congruence.
  - destruct (IH selected results) as (r1 & -> & V1).
    { eapply sublist_NoDup; [exact Hnd|]. apply (fmap_sublist _), sublist_app; [done|by constructor]. }
    cbn [mbind result_bind]. destruct (IH (selected ++ [c]) r1) as (r2 & -> & V2); [by rewrite <-app_assoc|].
    eexists. split; [done|]. destruct V1 as [K1 S1 C1 A1], V2 as [K2 S2 C2 A2].
    assert (∀ sub, (selected ++ [c]) ++ sub = selected ++ c :: sub) as Happ by (intros; by rewrite <-app_assoc).
    split.
    + by etrans.
    + intros r Hr. apply S2 in Hr as [Hr|(sub & Hsub & Hr)].
      * apply S1 in Hr as [Hr|(sub & Hsub & Hr)]; [by left|]. right. exists sub. split; [by constructor|done].
      * right. exists (c :: sub). rewrite Happ in Hr. split; [by constructor|done].
    + intros sub Hsub Hsat. apply sublist_cons_r in Hsub as [Hsub|(sub' & -> & Hsub)].
      * destruct (C1 sub Hsub Hsat) as (r & Hr & Hrs). exists r. split; [by apply K2|done].
      * rewrite <-Happ in Hsat |- *. by apply C2.
    + intros Ha Hk Hnew. apply A2.
      * apply A1; [done| |].
        -- eapply sublist_NoDup; [exact Hk|]. apply (fmap_sublist _), sublist_app; [done|by constructor].
        -- intros r sub Hr Hsub. apply Hnew; [done|by constructor].
      * by rewrite Happ.
      * intros r sub Hr Hsub Hin. apply S1 in Hr as [Hr|(sub' & Hsub' & -> & _)].
        -- rewrite Happ in Hin. by apply (Hnew r (c :: sub) Hr); [constructor|].
        -- assert (g_signingPublicKey (ec_grant c) ∈ keys_of (selected ++ sub')) as Hc.
          { apply Hin. unfold keys_of. rewrite Happ, fmap_app, elem_of_app. right. left. }
          unfold keys_of in Hk, Hc. rewrite fmap_app in Hk, Hc. apply NoDup_app in Hk as (_ & Hk1 & Hk2).
          apply elem_of_app in Hc as [Hc|Hc]; [apply (Hk1 _ Hc); left|].
          apply NoDup_cons in Hk2 as [Hk2 _]. apply Hk2. eapply elem_of_sublist; [exact Hc|]. by apply (fmap_sublist _).
Qed.
End visit.

(** minimal proofs.  For a well-formed policy over validators with different
    capabilities and keys, the enumeration never fails and lists exactly the
    minimal satisfying sets: each listed proof is the key set of a satisfying
    selection, every satisfying selection contains a listed proof, and no listed
    proof contains another. *)
Theorem minimal_proofs_exact policy validators :
  policy_wf policy → NoDup (ec_id <$> validators) → NoDup (keys_of validators) →
  ∃ proofs, minimalProofs policy validators = Ok proofs ∧
    (∀ r, r ∈ proofs → ∃ S, S `sublist_of` validators ∧ r = keys_of S ∧ satisfies policy (evidence_of S)) ∧
    (∀ S, S `sublist_of` validators → satisfies policy (evidence_of S) → ∃ r, r ∈ proofs ∧ r ⊆ keys_of S) ∧
    antichain proofs.
Proof.
  intros Hwf Hid Hk. destruct (visit_spec policy Hwf validators [] [] Hid) as (proofs & Hp & [_ Hs Hc Ha]).
  exists proofs. split_and!; [done| |exact Hc|apply Ha; [by intros ????|done|]].
  - intros r [?%elem_of_nil|Hr]%Hs; [done|exact Hr].
  - by intros ?? ?%elem_of_nil.
Qed.

(** Two of three validators, one of them of class gold, one of organization acme. *)
Definition sample_validators : list EffectiveCapability :=
  [mkEffective [x01] (mkGrant [x01] [x11] None validator 0 None None (Some (js "gold")) None None None) 0 None;
   mkEffective [x02] (mkGrant [x02] [x12] None validator 0 None None None None None None) 0 None;
   mkEffective [x03] (mkGrant [x03] [x13] None validator 0 None (Some (js "acme")) None None None None) 0 None].

Lemma minimal_proofs_exact_witness : ∃ proofs,
  minimalProofs sample_policy sample_validators = Ok proofs ∧ proofs = [[[x11]; [x13]]] ∧ antichain proofs.
Proof.
  destruct (minimal_proofs_exact sample_policy sample_validators) as (proofs & Hp & _ & _ & Ha).
  - split; [reflexivity|]. split; repeat constructor; try (eexists; vm_compute; reflexivity); discriminate.
  - apply (bool_decide_eq_true_1 _). vm_compute. reflexivity.
  - apply (bool_decide_eq_true_1 _). vm_compute. reflexivity.
  - exists proofs. split; [exact Hp|]. split; [|exact Ha]. vm_compute in Hp. injection Hp as <-. reflexivity.
Defined.

(** ** The evidence of an admission *)

Lemma activeRole_spec c s role :
  activeRole c s role = true ↔ g_role (ec_grant c) = role ∧ isCapabilityActive c (cs_revision s) = true.
Proof. unfold activeRole. by rewrite andb_true_iff, bool_decide_eq_true. Qed.

Lemma admits_spec s policy a c :
  admits s policy a = Some c ↔
  map_get (bytesToHex (sa_validatorCapability a)) (cs_capabilities s) = Some c ∧
  activeRole c s validator = true ∧ g_signingPublicKey (ec_grant c) = sa_validatorId a ∧
  sa_membershipRevision a = cs_revisionDigest s ∧ sa_policyVersion a = vp_version policy ∧
  sa_acceptedAboveMs a < sa_authorTimestampMs a ∧
  default (-1) (g_minimumAuthorTimestampMs (ec_grant c)) < sa_authorTimestampMs a.
Proof.
  unfold admits. destruct (map_get _ _) as [c'|]; [|split; [done|by intros [? _]]]. destruct (_ || _) eqn:E.
  - split; [done|]. intros ([= ->] & Ha & Hk & Hr & Hv & Ht & Hf). exfalso.
    rewrite Ha, Hk, Hr, Hv, !equalBytes_refl, Z.eqb_refl in E. simpl in E. apply orb_true_iff in E as [E|E]; lia.
  - rewrite !orb_false_iff, !negb_false_iff, !equalBytes_spec, Z.eqb_eq, !Z.leb_gt in E. destruct_and!.
    split; [|by intros [? _]]. intros [= <-]. by split_and!.
Qed.

Section addressed.
Context (sha256 : bytes → bytes) (s : CapabilitySnapshot) (policy : ValidationPolicy)
  (Haddr : addressed sha256 (cs_capabilities s)).

Lemma admits_id a c : admits s policy a = Some c → ec_id c = sa_validatorCapability a.
Proof. intros (Hc & _)%admits_spec. apply (proj2 Haddr) in Hc as [Hk _]. symmetry. by apply bytesToHex_inj. Qed.

Lemma admits_determined a a' c c' :
  admits s policy a = Some c → admits s policy a' = Some c' → ec_id c = ec_id c' →
  c = c' ∧ sa_validatorId a = sa_validatorId a'.
Proof.
  intros Ha Ha' Hid. pose proof (admits_id _ _ Ha) as H1. pose proof (admits_id _ _ Ha') as H2.
  apply admits_spec in Ha as (Hc & _ & Hk & _), Ha' as (Hc' & _ & Hk' & _).
  assert (c = c') as -> by congruence. split; [done|congruence].
Qed.

(** The table of the loop: the first admitted attestation of every capability. *)
Definition indexed (attestations : list StoredAttestation) : jsmap jsstring (ValidatorEvidence * StoredAttestation) :=
  foldl (index_admitted s policy) [] attestations.

Lemma indexed_spec atts :
  map_wf (indexed atts) ∧
  (∀ k e, (k, e) ∈ indexed atts → ∃ c, admits s policy e.2 = Some c ∧ k = bytesToHex (ec_id c) ∧
    e.1 = evidence_for c (sa_validatorId e.2) ∧ e.2 ∈ atts) ∧
  (∀ a c, a ∈ atts → admits s policy a = Some c → is_Some (map_get (bytesToHex (ec_id c)) (indexed atts))).
Proof.
  unfold indexed. induction atts as [|a atts IH] using rev_ind; simpl.
  { split_and!; [constructor|by intros ?? ?%elem_of_nil|by intros ?? ?%elem_of_nil]. }
  rewrite foldl_app. simpl. set (t := foldl (index_admitted s policy) [] atts) in *. unfold index_admitted at 1 2 3.
  destruct IH as (Hwf & Hin & Hall).
  assert (∀ k e, (k, e) ∈ t → ∃ c, admits s policy e.2 = Some c ∧ k = bytesToHex (ec_id c) ∧
    e.1 = evidence_for c (sa_validatorId e.2) ∧ e.2 ∈ atts ++ [a]) as Hin'.
  { intros k e He. destruct (Hin k e He) as (c & ? & ? & ? & ?). exists c. rewrite elem_of_app. by eauto. }
  destruct (admits s policy a) as [c|] eqn:Ha; [destruct (map_has _ t) eqn:Hh|].
  - split_and!; [done..|]. intros a' c' [Ha'|Ha'%list_elem_of_singleton]%elem_of_app Hc'; [by eapply Hall|].
    subst. rewrite Ha in Hc'. injection Hc' as <-. by apply map_has_true.
  - split_and!; [by apply map_wf_set| |].
    + intros k e [[-> ->]|[_ He]]%elem_of_map_set; [|by apply Hin'|done]. exists c. split_and!; [done..|].
      simpl. rewrite elem_of_app, list_elem_of_singleton. by right.
    + intros a' c' Ha' Hc'. rewrite map_get_set. case_decide as Hne; [done|].
      apply elem_of_app in Ha' as [Ha'|Ha'%list_elem_of_singleton]; [by eapply Hall|]. subst.
      rewrite Ha in Hc'. by injection Hc' as ->.
  - split_and!; [done..|]. intros a' c' [Ha'|Ha'%list_elem_of_singleton]%elem_of_app Hc'; [by eapply Hall|].
    subst. congruence.
Qed.

Lemma indexed_evidence atts x :
  x ∈ fst <$> map_values (indexed atts) ↔
  ∃ a c, a ∈ atts ∧ admits s policy a = Some c ∧ x = evidence_for c (sa_validatorId a).
Proof.
  destruct (indexed_spec atts) as (Hwf & Hin & Hall). split.
  - intros ([x' a] & -> & He)%list_elem_of_fmap. apply list_elem_of_fmap in He as ([k e] & Heq & He).
    simpl in Heq. subst e. destruct (Hin k (x', a) He) as (c & Hc & _ & Hx & Ha). by exists a, c.
  - intros (a & c & Ha & Hc & ->). destruct (Hall a c Ha Hc) as [[x' a'] He%map_get_Some_elem].
    destruct (Hin _ _ He) as (c' & Hc' & Hk%bytesToHex_inj & Hx & _).
    destruct (admits_determined _ _ _ _ Hc Hc' Hk) as [-> Hv].
    apply list_elem_of_fmap. exists (x', a'). split; [simpl in *; by rewrite Hx, Hv|].
    apply list_elem_of_fmap. eexists (_, (x', a')). split; [done|exact He].
Qed.

Lemma indexed_one_per_capability atts : one_per_capability (fst <$> map_values (indexed atts)).
Proof.
  intros x y (a & c & _ & Ha & ->)%indexed_evidence (a' & c' & _ & Ha' & ->)%indexed_evidence. cbn [ev_capabilityId evidence_for].
  intros Hid. destruct (admits_determined _ _ _ _ Ha Ha' Hid) as [-> ->]. done.
Qed.
End addressed.

(** ** The two decisions on admission agree *)

(** [st] is what a node stores of the attestation [att]. *)
Definition stored_as (att : ValidatorAttestation) (st : StoredAttestation) : Prop :=
  sa_txId st = at_txId att ∧ sa_validatorId st = at_validatorId att ∧
  sa_validatorCapability st = at_validatorCapability att ∧ sa_membershipRevision st = at_membershipRevision att ∧
  sa_candidateDigest st = at_candidateDigest att ∧ sa_authorTimestampMs st = at_authorTimestampMs att ∧
  sa_acceptedAboveMs st = at_acceptedAboveMs att ∧ sa_policyVersion st = at_policyVersion att.

(** [att] is about this transaction. *)
Definition attests (core : CoreView) (txId candidateDigest : bytes) (att : ValidatorAttestation) : Prop :=
  at_groupId att = co_groupId core ∧ at_txId att = txId ∧ at_candidateDigest att = candidateDigest ∧
  at_authorTimestampMs att = co_authorTimestampMs core.

Definition context_of (core : CoreView) : AdmissionContext :=
  mkAdmissionContext (co_groupId core) (co_membershipRevision core) (co_validationPolicy core) (co_authorId core).

(** Every snapshot the resolver is given comes from a reduced log. *)
Definition reduced_snapshots sha256 ed25519_verify (snapshotForRevision : bytes → option CapabilitySnapshot) : Prop :=
  ∀ d s, snapshotForRevision d = Some s → ∃ h, chain sha256 ed25519_verify s h.

Lemma pinned_snapshot_spec snapshotForRevision ctx s :
  pinned_snapshot snapshotForRevision ctx = Some s →
  snapshotForRevision (ac_membershipRevision ctx) = Some s ∧ cs_groupId s = ac_groupId ctx ∧
  cs_revisionDigest s = ac_membershipRevision ctx.
Proof.
  unfold pinned_snapshot. destruct (snapshotForRevision _) as [s'|]; [|done]. destruct (_ && _) eqn:E; [|done].
  apply andb_true_iff in E as [E1%equalBytes_spec E2%equalBytes_spec]. by intros [= <-].
Qed.

Lemma pinned_policy_spec snapshotForRevision ctx s :
  pinned_snapshot snapshotForRevision ctx = Some s →
  pinned_policy snapshotForRevision ctx = policyById s (ac_validationPolicy ctx).
Proof. intros Hs. unfold pinned_policy, policyById. rewrite Hs. simpl. by destruct (map_get _ _). Qed.

Lemma admits_vouches s core txId digest policy att st item :
  stored_as att st → attests core txId digest att → cs_groupId s = co_groupId core →
  cs_revisionDigest s = co_membershipRevision core →
  (∃ c, admits s policy st = Some c ∧ item = evidence_for c (sa_validatorId st)) ↔
  vouches s core txId digest policy att item.
Proof.
  intros (_ & Hv & Hc & Hr & _ & Ht & Ha & Hp) (Hg & Htx & Hd & Hts) Hsg Hsr. unfold vouches.
  setoid_rewrite admits_spec. setoid_rewrite activeRole_spec. rewrite Hv, Hc, Hr, Ht, Ha, Hp. split.
  - intros (c & (H1 & [H2 H3] & H4 & H5 & H6 & H7 & H8) & ->). rewrite Hts in *.
    split_and!; try congruence. exists c. by split_and!.
  - intros (_ & _ & H5 & _ & _ & _ & Hts' & H7 & H6 & c & H1 & H2 & H3 & H4 & H8 & ->). exists c. rewrite Hts'.
    by split_and!.
Qed.

(** The evidence both evaluate is the same set. *)
Lemma same_evidence sha256 s core txId digest policy atts sts x :
  addressed sha256 (cs_capabilities s) → Forall2 stored_as atts sts → Forall (attests core txId digest) atts →
  cs_groupId s = co_groupId core → cs_revisionDigest s = co_membershipRevision core →
  x ∈ fst <$> map_values (indexed s policy sts) ↔ x ∈ (collect_evidence s core txId digest policy atts).1.
Proof.
  intros Haddr H2 Hatt Hg Hr. rewrite (indexed_evidence sha256) by done. rewrite collect_evidence_spec.
  rewrite Forall_forall in Hatt. split.
  - intros (st & c & Hst & Hc & ->). apply list_elem_of_lookup in Hst as [i Hi].
    destruct (Forall2_lookup_r _ _ _ _ _ H2 Hi) as (att & Hatt' & Hs). apply list_elem_of_lookup_2 in Hatt'.
    exists att. split; [done|]. eapply admits_vouches; [done|by apply Hatt|done..|]. by exists c.
  - intros (att & Hin & Hv). apply Hatt in Hin as Ha. apply list_elem_of_lookup in Hin as [i Hi].
    destruct (Forall2_lookup_l _ _ _ _ _ H2 Hi) as (st & Hst & Hs). apply list_elem_of_lookup_2 in Hst.
    apply (admits_vouches s core txId digest policy att st x Hs Ha Hg Hr) in Hv as (c & Hc & ->). by exists st, c.
Qed.

Section resolver.
Context (sha256 : bytes → bytes) (ed25519_verify : bytes → bytes → bytes → bool)
  (snapshotForRevision : bytes → option CapabilitySnapshot)
  (Hred : reduced_snapshots sha256 ed25519_verify snapshotForRevision).

Lemma pinned_facts ctx s :
  pinned_snapshot snapshotForRevision ctx = Some s →
  cs_groupId s = ac_groupId ctx ∧ cs_revisionDigest s = ac_membershipRevision ctx ∧
  addressed sha256 (cs_capabilities s) ∧ policies_ok (cs_policies s).
Proof.
  intros (Hs & Hg & Hr)%pinned_snapshot_spec. destruct (Hred _ _ Hs) as [h Hc]. split_and!; [done..| |].
  - by eapply chain_addressed.
  - by eapply chain_policies_ok.
Qed.

(** The attestation selected for an item of evidence. *)
Definition backs (s : CapabilitySnapshot) (policy : ValidationPolicy) (atts : list StoredAttestation)
  (x : ValidatorEvidence) (a : StoredAttestation) : Prop :=
  a ∈ atts ∧ ∃ c, admits s policy a = Some c ∧ x = evidence_for c (sa_validatorId a).

Lemma selected_attestations s policy atts l :
  addressed sha256 (cs_capabilities s) → (∀ x, x ∈ l → x ∈ fst <$> map_values (indexed s policy atts)) →
  ∃ sel, mapR (λ evidence, match map_get (bytesToHex (ev_capabilityId evidence)) (indexed s policy atts) with
    | Some item => Ok item.2
    | None => Err SelectionMissing
    end) l = Ok sel ∧ Forall2 (backs s policy atts) l sel.
Proof.
  intros Haddr. destruct (indexed_spec s policy atts) as (Hwf & Hin & Hall).
  induction l as [|x l IH]; intros Hl; cbn [mapR]; [by exists []|].
  assert (x ∈ fst <$> map_values (indexed s policy atts)) as Hx by (apply Hl; left).
  apply (indexed_evidence sha256) in Hx as (a & c & Ha & Hc & ->); [|done].
  destruct (Hall a c Ha Hc) as [[y a'] He]. cbn [ev_capabilityId evidence_for]. rewrite He.
  cbn [mbind result_bind]. destruct IH as (sel & -> & Hsel); [intros x Hx; apply Hl; by right|].
  cbn [mbind result_bind]. eexists. split; [done|]. constructor; [|done].
  apply map_get_Some_elem in He. destruct (Hin _ _ He) as (c' & Hc' & Hk%bytesToHex_inj & _ & Ha').
  cbn [snd] in *. destruct (admits_determined sha256 s policy Haddr _ _ _ _ Hc Hc' Hk) as [-> ->].
  split; [done|]. by exists c'.
Qed.

Lemma selectAdmission_spec ctx s policy atts :
  pinned_snapshot snapshotForRevision ctx = Some s → policyById s (ac_validationPolicy ctx) = Some policy →
  ∃ e, evaluateValidationPolicy policy (fst <$> map_values (indexed s policy atts)) = Ok e ∧
  ∃ sel, selectAdmission snapshotForRevision ctx atts = Ok sel ∧
  if pe_satisfied e then Forall2 (backs s policy atts) (pe_selected e) sel ∧ satisfies policy (pe_selected e) ∧
  NoDup (ev_capabilityId <$> pe_selected e)
  else sel = [] ∧ pe_selected e = [].
Proof.
  intros Hs Hp. destruct (pinned_facts _ _ Hs) as (_ & _ & Haddr & Hpols). unfold selectAdmission.
  rewrite (pinned_policy_spec _ _ _ Hs), Hs, Hp. cbv zeta. fold (indexed s policy atts).
  assert (policy_wf policy) as Hwf.
  { unfold policyById in Hp. destruct (map_get _ (cs_policies s)) as [ep|] eqn:He; [|done].
    injection Hp as <-. by apply (Hpols _ _ He). }
  destruct (policy_solver_spec policy (fst <$> map_values (indexed s policy atts)) Hwf) as (e & He & Hcase).
  exists e. split; [done|]. rewrite He. cbn [policy_result mbind result_bind]. destruct (pe_satisfied e) eqn:Es; simpl.
  - destruct Hcase as (Hsub & Hsat & _). destruct (selected_distinct _ _ Hsub) as [Hnd Hin].
    destruct (selected_attestations s policy atts (pe_selected e) Haddr Hin) as (sel & -> & Hsel). by exists sel.
  - exists []. split_and!; [done..|]. unfold evaluateValidationPolicy in He. inv_ok.
    destruct (0 <? _)%nat; [inv_ok; by subst|]. inv_ok. case_match; inv_ok; subst; done.
Qed.

(** The two evaluations of one set of attestations. *)
Lemma assembled_spec core txId digest policy atts sts s :
  pinned_snapshot snapshotForRevision (context_of core) = Some s →
  policyById s (co_validationPolicy core) = Some policy →
  Forall2 stored_as atts sts → Forall (attests core txId digest) atts →
  ∃ proof, assembleAdmissionProof s core txId digest atts = Ok proof ∧
  evaluateValidationPolicy policy (fst <$> map_values (indexed s policy sts)) = Ok (ap_evaluation proof).
Proof.
  intros Hs Hp H2 Hatt. destruct (pinned_facts _ _ Hs) as (Hg & Hr & Haddr & _).
  pose proof (same_evidence sha256 s core txId digest policy atts sts) as Hsame.
  unfold assembleAdmissionProof. rewrite Hp. destruct (collect_evidence _ _ _ _ _ _) as [ev rej]. cbn [fst] in Hsame.
  destruct (selectAdmission_spec (context_of core) s policy sts Hs Hp) as (e & He & _).
  rewrite <-(evaluate_ext policy (fst <$> map_values (indexed s policy sts)) ev).
  - rewrite He. cbn [mbind result_bind]. by eexists.
  - by apply (indexed_one_per_capability sha256).
  - intros x. by apply Hsame.
Qed.
End resolver.

(** one rule of admission.  The resolver decides from stored attestations, the
    capability package from the attestations themselves.  On the snapshot a
    transaction pins, for attestations of that transaction and their stored form,
    neither throws, and they select the same capabilities in the same order; what
    the resolver returns is among the attestations it was given, and it answers
    "may write" exactly when the capability package does. *)
Theorem admission_rules_agree sha256 ed25519_verify snapshotForRevision core txId digest atts sts s :
  reduced_snapshots sha256 ed25519_verify snapshotForRevision →
  pinned_snapshot snapshotForRevision (context_of core) = Some s →
  Forall2 stored_as atts sts → Forall (attests core txId digest) atts →
  (∃ proof sel,
    assembleAdmissionProof s core txId digest atts = Ok proof ∧
    selectAdmission snapshotForRevision (context_of core) sts = Ok sel ∧
    sa_validatorCapability <$> sel = ev_capabilityId <$> pe_selected (ap_evaluation proof) ∧ sel ⊆ sts ∧
    (sel ≠ [] ↔ pe_satisfied (ap_evaluation proof) = true)) ∧
  canWrite snapshotForRevision (context_of core) = canAuthorTransaction s core.
Proof.
  intros Hred Hs H2 Hatt. destruct (pinned_facts _ _ _ Hred _ _ Hs) as (Hg & Hr & Haddr & Hpols). split.
  - destruct (policyById s (co_validationPolicy core)) as [policy|] eqn:Hp.
    + destruct (assembled_spec _ _ _ Hred core txId digest policy atts sts s Hs Hp H2 Hatt) as (proof & Hproof & Hev).
      destruct (selectAdmission_spec _ _ _ Hred (context_of core) s policy sts Hs Hp) as (e & He & sel & Hsel & Hcase).
      rewrite Hev in He. apply Ok_inj in He as <-. exists proof, sel. split_and!; [done..| | |].
      * destruct (pe_satisfied _); [|by destruct Hcase as [-> ->]]. destruct Hcase as (Hb & _ & _).
        clear -Hb Haddr. induction Hb as [|x a l sel (_ & c & Hc & ->) _ IH]; [done|]. rewrite !fmap_cons, IH.
        f_equal. symmetry. by apply (admits_id sha256) in Hc.
      * destruct (pe_satisfied _); [|destruct Hcase as [-> _]; by intros ? ?%elem_of_nil].
        destruct Hcase as (Hb & _ & _). intros a Ha. apply list_elem_of_lookup in Ha as [i Hi].
        destruct (Forall2_lookup_r _ _ _ _ _ Hb Hi) as (x & _ & Hin & _). done.
      * destruct (pe_satisfied _); [|destruct Hcase as [-> _]; by split; [intros []|]]. split; [done|]. intros _ ->.
        destruct Hcase as (Hb%Forall2_nil_inv_r & (Hmin & _) & _). rewrite Hb in Hmin. simpl in Hmin.
        unfold policyById in Hp. destruct (map_get _ (cs_policies s)) as [ep|] eqn:Hep; [|done].
        injection Hp as <-. destruct (Hpols _ _ Hep). lia.
    + unfold assembleAdmissionProof, selectAdmission. rewrite (pinned_policy_spec _ _ _ Hs), Hs.
      change (ac_validationPolicy (context_of core)) with (co_validationPolicy core). rewrite Hp. eexists _, [].
      split_and!; [done..|by intros ? ?%elem_of_nil|by split; [intros []|]].
  - unfold canWrite, canAuthorTransaction. rewrite Hs. simpl in Hg, Hr. rewrite Hg, Hr, !equalBytes_refl. simpl.
    induction (map_values (cs_capabilities s)) as [|c l IH]; [done|]. simpl. rewrite IH. f_equal.
    unfold activeRole. rewrite <-!andb_assoc. f_equal. apply andb_comm.
Qed.

Definition toy_resolver (d : bytes) : option CapabilitySnapshot := Some toy_snapshot.
Definition toy_stored : StoredAttestation :=
  mkStoredAttestation [x66] [x77] (toy_key x20) (nth_id 0 toy_snapshot) (cs_revisionDigest toy_snapshot) (toy_key x78)
    1 150 140 1 [].

Lemma toy_resolver_reduced : reduced_snapshots toy_sha256 toy_verify toy_resolver.
Proof. intros d s [= <-]. eexists. apply (chain_genesis _ _ toy_genesis); vm_compute; reflexivity. Qed.

Lemma admission_rules_agree_witness : ∃ proof,
  assembleAdmissionProof toy_snapshot toy_core [x77] (toy_key x78) [toy_attestation] = Ok proof ∧
  selectAdmission toy_resolver (context_of toy_core) [toy_stored] = Ok [toy_stored] ∧
  ev_capabilityId <$> pe_selected (ap_evaluation proof) = [nth_id 0 toy_snapshot].
Proof.
  destruct (admission_rules_agree toy_sha256 toy_verify toy_resolver toy_core [x77] (toy_key x78) [toy_attestation]
    [toy_stored] toy_snapshot toy_resolver_reduced) as [(proof & sel & Hp & Hsel & Hids & _) _].
  - vm_compute; reflexivity.
  - repeat constructor.
  - repeat constructor.
  - assert (selectAdmission toy_resolver (context_of toy_core) [toy_stored] = Ok [toy_stored]) as Hs
      by (vm_compute; reflexivity).
    rewrite Hs in Hsel. injection Hsel as <-. exists proof. split; [exact Hp|]. split; [exact Hs|]. rewrite <-Hids. reflexivity.
Defined.

(** ** Watermarks bind admission *)

Section watermark.
Context (sha256 : bytes → bytes) (s : CapabilitySnapshot) (policy : ValidationPolicy)
  (Haddr : addressed sha256 (cs_capabilities s)).

Definition active_validators : list EffectiveCapability :=
  filter (λ c, activeRole c s validator = true) (map_values (cs_capabilities s)).

Lemma active_validators_ids : NoDup (ec_id <$> active_validators).
Proof.
  apply (NoDup_fmap_1 bytesToHex). rewrite <-list_fmap_compose. destruct Haddr as [Hwf Hm].
  assert (NoDup (bytesToHex ∘ ec_id <$> map_values (cs_capabilities s))) as Hnd.
  { unfold map_values. rewrite <-list_fmap_compose.
    replace (bytesToHex ∘ ec_id ∘ snd <$> cs_capabilities s) with (map_keys (cs_capabilities s)); [done|].
    apply list_fmap_ext. intros i [k c] Hi. simpl. by apply (Hm k c), map_wf_get, list_elem_of_lookup_2 with i. }
  eapply sublist_NoDup; [exact Hnd|]. apply (fmap_sublist _), sublist_filter.
Qed.

Lemma admits_active a c : admits s policy a = Some c → c ∈ active_validators.
Proof.
  intros (Hc & Ha & _)%admits_spec. apply list_elem_of_filter. split; [done|].
  apply map_get_Some_elem in Hc. by apply (list_elem_of_fmap_2 snd) in Hc.
Qed.

(** The capabilities behind a selection, in the order of the snapshot. *)
Lemma selection_capabilities atts l sel :
  Forall2 (backs s policy atts) l sel → NoDup (ev_capabilityId <$> l) → satisfies policy l →
  ∃ S, S `sublist_of` active_validators ∧ satisfies policy (evidence_of S) ∧ evidence_of S ≡ₚ l ∧
  ∀ v, v ∈ keys_of S → ∃ a, a ∈ sel ∧ sa_validatorId a = v.
Proof.
  intros Hb Hnd Hsat.
  assert (∀ x, x ∈ l → ∃ a c, a ∈ sel ∧ admits s policy a = Some c ∧ x = evidence_for c (sa_validatorId a)) as Hl.
  { intros x [i Hi]%list_elem_of_lookup. destruct (Forall2_lookup_l _ _ _ _ _ Hb Hi) as (a & Ha & _ & c & Hc & ->).
    apply list_elem_of_lookup_2 in Ha. by exists a, c. }
  set (S := filter (λ c, evidence_for c (g_signingPublicKey (ec_grant c)) ∈ l) active_validators).
  assert (evidence_of S ≡ₚ l) as Hperm.
  { apply NoDup_Permutation.
    - apply (NoDup_fmap_1 ev_capabilityId). rewrite evidence_of_ids.
      eapply sublist_NoDup; [apply active_validators_ids|]. apply (fmap_sublist _), sublist_filter.
    - by apply (NoDup_fmap_1 ev_capabilityId).
    - intros x. split.
      + by intros (c & -> & [Hc _]%list_elem_of_filter)%list_elem_of_fmap.
      + intros Hx. destruct (Hl x Hx) as (a & c & _ & Hc & ->). pose proof (admits_active _ _ Hc) as Hact.
        apply admits_spec in Hc as (_ & _ & Hk & _). rewrite <-Hk in Hx |- *.
        apply list_elem_of_fmap. exists c. split; [done|]. by apply list_elem_of_filter. }
  exists S. split_and!; [apply sublist_filter|by eapply satisfies_perm; [symmetry|]|done|].
  intros v (c & -> & [Hc _]%list_elem_of_filter)%list_elem_of_fmap.
  destruct (Hl _ Hc) as (a & c' & Ha & _ & [= _ Hv _ _]). by exists a.
Qed.
End watermark.

(** What an established watermark says about the store. *)
Lemma established_threshold_safe store policyId ids k rev c :
  we_cutoffMs (watermark store (threshold_policy policyId ids k) rev) = Some c →
  NoDup ids ∧ 0 < k ∧ threshold_safe store rev ids k c.
Proof.
  cbn [watermark]. intros Hc. assert (valid_threshold ids k) as Hvalid.
  { apply threshold_guard. unfold thresholdWatermark in Hc. by destruct (_ || _ || _ || _). }
  destruct (thresholdWatermark_cutoff store policyId ids k rev Hvalid) as [H _]. rewrite Hc in H.
  destruct Hvalid as (Hk & _ & Hnd), H as [H _]. split_and!; [done|lia|]. apply threshold_safe_silent; [done|lia|done].
Qed.

Lemma established_alternatives_safe store policyId proofs rev c :
  we_cutoffMs (watermark store (proof_alternatives policyId proofs) rev) = Some c →
  alternatives_safe store rev proofs c.
Proof.
  cbn [watermark]. destruct (_ || _); [done|]. pose proof (proofs_cutoff_spec store rev proofs None []) as H.
  destruct (proofs_cutoff store rev proofs None []) as [[[m|] sel]|]; [|done..].
  intros [= <-]. by apply H.
Qed.

(** A threshold policy demands its number of validators. *)
Lemma threshold_selection store rev ids k c S :
  NoDup ids → 0 < k → threshold_safe store rev ids k c →
  keys_of S `sublist_of` ids → k ≤ Z.of_nat (length S) →
  ∃ v, v ∈ keys_of S ∧ announced store rev c v = true.
Proof.
  intros Hnd Hk Hsafe Hsub Hlen.
  assert (take (Z.to_nat k) (keys_of S) `sublist_of` keys_of S) as Htake by apply sublist_take.
  destruct (Hsafe (take (Z.to_nat k) (keys_of S))) as (v & Hv & Ha).
  - eapply sublist_NoDup; [exact Hnd|]. by etrans.
  - intros v Hv. eapply elem_of_sublist; [exact Hv|]. by etrans.
  - unfold keys_of. rewrite length_take, length_fmap. lia.
  - exists v. split; [by eapply elem_of_sublist|done].
Qed.

(** C6: a watermark binds admission.  When the resolver's policy for a transaction
    establishes a watermark on a node's store, every later admission of a
    transaction under the same revision and policy rests on an attestation of a
    validator that had already announced, on a contiguous feed, that it accepts
    nothing at or below the watermark.  This joins the policy solver, the minimal
    proofs and the watermark of the control store. *)
Theorem watermark_binds_admission sha256 ed25519_verify snapshotForRevision maximum store core wp cutoff sts sel :
  reduced_snapshots sha256 ed25519_verify snapshotForRevision →
  watermarkPolicy snapshotForRevision maximum core = Ok (Some wp) →
  we_cutoffMs (watermark store wp (Some (co_membershipRevision core))) = Some cutoff →
  selectAdmission snapshotForRevision (context_of core) sts = Ok sel → sel ≠ [] →
  ∃ a, a ∈ sel ∧ announced store (Some (co_membershipRevision core)) cutoff (sa_validatorId a) = true.
Proof.
  intros Hred Hwp Hcut Hsel Hne. unfold watermarkPolicy in Hwp. fold (context_of core) in Hwp.
  destruct (pinned_snapshot snapshotForRevision (context_of core)) as [s|] eqn:Hs; [|done].
  destruct (map_get _ (cs_policies s)) as [ep|] eqn:Hep; [|done].
  destruct (pinned_facts _ _ _ Hred _ _ Hs) as (_ & _ & Haddr & Hpols). pose proof (Hpols _ _ Hep) as Hwf.
  assert (policyById s (ac_validationPolicy (context_of core)) = Some (ep_policy ep)) as Hp.
  { unfold policyById. simpl. by rewrite Hep. }
  destruct (selectAdmission_spec _ _ _ Hred (context_of core) s _ sts Hs Hp) as (e & _ & sel' & Hsel' & Hcase).
  rewrite Hsel in Hsel'. apply Ok_inj in Hsel' as <-. destruct (pe_satisfied e); [|by destruct Hcase].
  destruct Hcase as (Hb & Hsat & Hnd).
  destruct (selection_capabilities sha256 s _ Haddr sts _ sel Hb Hnd Hsat) as (S & HS & HsatS & _ & Hkeys).
  assert (∃ v, v ∈ keys_of S ∧ announced store (Some (co_membershipRevision core)) cutoff v = true) as (v & Hv & Ha).
  { fold (active_validators s) in Hwp. destruct (_ <? _); [done|]. destruct (_ && _).
    - destruct (negb _); [done|]. apply Ok_inj in Hwp. injection Hwp as <-.
      destruct (established_threshold_safe _ _ _ _ _ _ Hcut) as (H1 & H2 & H3).
      eapply threshold_selection; [done..| |].
      + by apply (fmap_sublist _).
      + destruct HsatS as [Hmin _]. unfold evidence_of in Hmin. by rewrite length_fmap in Hmin.
    - destruct (visit_spec _ Hwf (active_validators s) [] []) as (proofs & Hproofs & [_ _ Hcomp _]).
      { by apply (active_validators_ids sha256). }
      unfold minimalProofs in Hwp. rewrite Hproofs in Hwp. cbn [policy_result mbind result_bind] in Hwp.
      destruct (_ =? _)%nat; [done|]. apply Ok_inj in Hwp. injection Hwp as <-.
      apply established_alternatives_safe in Hcut. destruct (Hcomp S HS HsatS) as (r & Hr & Hsub).
      unfold alternatives_safe in Hcut. rewrite Forall_forall in Hcut. destruct (Hcut r Hr) as (v & Hv & Ha).
      exists v. split; [by apply Hsub|done]. }
  destruct (Hkeys v Hv) as (a & Ha' & <-). by exists a.
Qed.

Definition toy_heartbeats : ControlStore :=
  set_heartbeats
    [(heartbeatKey (cs_revisionDigest toy_snapshot) (toy_key x20),
      mkStoredHeartbeat [xa1] (toy_key x20) (nth_id 0 toy_snapshot) (cs_revisionDigest toy_snapshot) 1 120 true)]
    (empty_store 8).

Lemma watermark_binds_admission_witness :
  ∃ a, a ∈ [toy_stored] ∧ announced toy_heartbeats (Some (co_membershipRevision toy_core)) 120 (sa_validatorId a) = true.
Proof.
  destruct (watermarkPolicy toy_resolver DEFAULT_MAXIMUM_WATERMARK_VALIDATORS toy_core) as [[wp|]|] eqn:Hwp;
    [|vm_compute in Hwp; discriminate Hwp..].
  apply (watermark_binds_admission toy_sha256 toy_verify toy_resolver DEFAULT_MAXIMUM_WATERMARK_VALIDATORS
    toy_heartbeats toy_core wp 120 [toy_stored] [toy_stored] toy_resolver_reduced Hwp).
  - vm_compute in Hwp. injection Hwp as <-. vm_compute; reflexivity.
  - vm_compute; reflexivity.
  - discriminate.
Defined.
