(* ===== verification/SnapshotCodec.v ===== *)
(** * Snapshots as JSON: [packages/control-store/src/persistence.ts]

    [encodeControlStoreSnapshot] and [decodeControlStoreSnapshot].  A JavaScript
    value is a tree; a text is represented by what [JSON.parse] makes of it, which
    loses nothing: the code only writes texts with [JSON.stringify] and only reads
    them with [JSON.parse], and the two are inverse on plain values.  Properties
    that are [undefined] are absent, as [JSON.stringify] leaves them out. *)

From Stdlib Require Import Strings.Byte Strings.String.
From stdpp Require Import base list option numbers.
From S2P Require Import Prelude JsMap Bytes JsNumber Base64 Domains StoreTypes.

#[local] Open Scope Z_scope.
#[local] Set Warnings "-register-all".

Inductive jsvalue :=
  | VNull
  | VBool (b : bool)
  | VNumber (z : Z)
  | VString (s : jsstring)
  | VBigInt (z : Z)
  | VBytes (b : bytes)
  | VArray (l : list jsvalue)
  | VObject (fields : list (jsstring * jsvalue)).

(** The contents of a file: a JSON text, or something [JSON.parse] refuses. *)
Inductive text := JsonText (value : jsvalue) | NotJson.

(** What decoding throws: a [SyntaxError], an error whose message starts with
    [CONTROL_STORE_], or a [TypeError].  [IllTyped] stands for a value of the
    right format that is not a snapshot: the code casts it without a check, and
    what happens then is outside this model. *)
Inductive DecodeError := SyntaxError | UNSUPPORTED_FORMAT | NullAccess | IllTyped.

(** ** Tags for bigints and bytes *)

Definition BYTES_TAG : jsstring := js "$chronologBytes".
Definition BIGINT_TAG : jsstring := js "$chronologBigInt".

(** The replacer of [JSON.stringify]. *)
Fixpoint replace_tags (v : jsvalue) : jsvalue :=
  match v with
  | VBigInt z => VObject [(BIGINT_TAG, VString (js_decimal z))]
  | VBytes b => VObject [(BYTES_TAG, VString (base64 b))]
  | VArray l => VArray (replace_tags <$> l)
  | VObject fields => VObject ((λ f, (f.1, replace_tags f.2)) <$> fields)
  | _ => v
  end.

(** [isTagged(value, tag)], with the tagged string. *)
Definition isTagged (v : jsvalue) (tag : jsstring) : option jsstring :=
  match v with
  | VObject [(k, VString s)] => if bool_decide (k = tag) then Some s else None
  | _ => None
  end.

(** White space of the language, which [BigInt(text)] trims. *)
Definition js_space (c : Z) : bool :=
  existsb (Z.eqb c) [9; 10; 11; 12; 13; 32; 160; 5760; 8232; 8233; 8239; 8287; 12288; 65279] ||
  (8192 <=? c) && (c <=? 8202).

Fixpoint trim_start (s : jsstring) : jsstring :=
  match s with c :: s' => if js_space c then trim_start s' else s | [] => [] end.
Definition js_trim (s : jsstring) : jsstring := reverse (trim_start (reverse (trim_start s))).

Definition radix_digit (radix c : Z) : option Z :=
  let d := if is_digit c then Some (c - 48)
           else if (97 <=? c) && (c <=? 122) then Some (c - 87)
           else if (65 <=? c) && (c <=? 90) then Some (c - 55) else None in
  match d with Some x => if x <? radix then Some x else None | None => None end.

Definition radix_value (radix : Z) (s : jsstring) : option Z :=
  match s with
  | [] => None
  | _ => foldl (λ acc c, a ← acc; d ← radix_digit radix c; Some (a * radix + d)) (Some 0) s
  end.

Definition decimal_value (s : jsstring) : option Z :=
  if (0 <? length s)%nat && forallb is_digit s then Some (digits_value s) else None.

(** [BigInt(text)] *)
Definition js_BigInt (s : jsstring) : option Z :=
  match js_trim s with
  | [] => Some 0
  | 43 :: rest => decimal_value rest
  | 45 :: rest => Z.opp <$> decimal_value rest
  | 48 :: 120 :: rest | 48 :: 88 :: rest => radix_value 16 rest
  | 48 :: 111 :: rest | 48 :: 79 :: rest => radix_value 8 rest
  | 48 :: 98 :: rest | 48 :: 66 :: rest => radix_value 2 rest
  | digits => decimal_value digits
  end.

Section revive.
(** [Buffer.from(text, 'base64')] is Node's; on what [toString('base64')] wrote it
    is the inverse, on other texts it skips what it does not know. *)
Context (buffer_from_base64 : jsstring → bytes).

Definition reviver (v : jsvalue) : result DecodeError jsvalue :=
  match isTagged v BIGINT_TAG with
  | Some s => match js_BigInt s with Some z => Ok (VBigInt z) | None => Err SyntaxError end
  | None =>
    match isTagged v BYTES_TAG with
    | Some s => Ok (VBytes (buffer_from_base64 s))
    | None => Ok v
    end
  end.

(** [JSON.parse] calls the reviver on every value, innermost first. *)
Fixpoint revive (v : jsvalue) : result DecodeError jsvalue :=
  match v with
  | VArray l => l' ← mapR revive l; reviver (VArray l')
  | VObject fields => fields' ← mapR (λ f, x ← revive f.2; Ok (f.1, x)) fields; reviver (VObject fields')
  | _ => reviver v
  end.
End revive.

(** ** Reading fields *)

Definition obj (fields : list (string * option jsvalue)) : jsvalue :=
  VObject (omap (λ f, match f.2 with Some v => Some (js f.1, v) | None => None end) fields).

Definition prop (v : jsvalue) (k : string) : option jsvalue :=
  match v with VObject fields => map_get (js k) fields | _ => None end.

Definition as_bytes (v : jsvalue) : option bytes := match v with VBytes b => Some b | _ => None end.
Definition as_string (v : jsvalue) : option jsstring := match v with VString s => Some s | _ => None end.
Definition as_bigint (v : jsvalue) : option Z := match v with VBigInt z => Some z | _ => None end.
Definition as_number (v : jsvalue) : option Z := match v with VNumber z => Some z | _ => None end.
Definition as_bool (v : jsvalue) : option bool := match v with VBool b => Some b | _ => None end.
Definition as_array {A} (f : jsvalue → option A) (v : jsvalue) : option (list A) :=
  match v with VArray l => mapM f l | _ => None end.

Definition field {A} (v : jsvalue) (k : string) (f : jsvalue → option A) : option A := prop v k ≫= f.
Definition optional {A} (v : jsvalue) (k : string) (f : jsvalue → option A) : option (option A) :=
  match prop v k with None => Some None | Some x => Some <$> f x end.
Definition nullable {A} (v : jsvalue) (k : string) (f : jsvalue → option A) : option (option A) :=
  match prop v k with Some VNull => Some None | Some x => Some <$> f x | None => None end.

(** ** The records of the store *)

#[local] Open Scope string_scope.
#[local] Open Scope Z_scope.

Definition state_name (s : CandidateState) : string :=
  match s with
  | waiting_for_payload => "waiting_for_payload"
  | pending_validation => "pending_validation"
  | admissible => "admissible"
  | invalid_protocol => "invalid_protocol"
  | unauthorized => "unauthorized"
  | quarantined => "quarantined"
  end.

Definition state_js (s : CandidateState) : jsvalue := VString (js (state_name s)).
Definition as_state (v : jsvalue) : option CandidateState :=
  s ← as_string v;
  snd <$> list_find (λ x, js (state_name x) = s)
    [waiting_for_payload; pending_validation; admissible; invalid_protocol; unauthorized; quarantined].

Definition bytes_array (l : list bytes) : jsvalue := VArray (VBytes <$> l).

Definition orderKey_js (k : TransactionOrderKey) : jsvalue := obj
  [("authorTimestampMs", Some (VBigInt (ok_authorTimestampMs k))); ("authorId", Some (VBytes (ok_authorId k)));
   ("authorFeedSequence", Some (VBigInt (ok_authorFeedSequence k))); ("txId", Some (VBytes (ok_txId k)))].
Definition as_orderKey (v : jsvalue) : option TransactionOrderKey :=
  t ← field v "authorTimestampMs" as_bigint; a ← field v "authorId" as_bytes;
  n ← field v "authorFeedSequence" as_bigint; x ← field v "txId" as_bytes; Some (mkOrderKey t a n x).

Definition candidate_js (c : StoredCandidate) : jsvalue := obj
  [("txId", Some (VBytes (sc_txId c))); ("groupId", Some (VBytes (sc_groupId c)));
   ("candidateDigest", Some (VBytes (sc_candidateDigest c)));
   ("validationPolicy", Some (VBytes (sc_validationPolicy c))); ("orderKey", Some (orderKey_js (sc_orderKey c)));
   ("canonicalPayload", VBytes <$> sc_canonicalPayload c); ("state", Some (state_js (sc_state c)));
   ("stateReason", VString <$> sc_stateReason c);
   ("proofAttestationIds", Some (bytes_array (sc_proofAttestationIds c)))].
Definition as_candidate (v : jsvalue) : option StoredCandidate :=
  txId ← field v "txId" as_bytes; groupId ← field v "groupId" as_bytes;
  digest ← field v "candidateDigest" as_bytes; policy ← field v "validationPolicy" as_bytes;
  orderKey ← field v "orderKey" as_orderKey; payload ← optional v "canonicalPayload" as_bytes;
  state ← field v "state" as_state; reason ← optional v "stateReason" as_string;
  proof ← field v "proofAttestationIds" (as_array as_bytes);
  Some (mkCandidate txId groupId digest policy orderKey payload state reason proof).

Definition attestation_js (a : StoredAttestation) : jsvalue := obj
  [("attestationId", Some (VBytes (sa_attestationId a))); ("txId", Some (VBytes (sa_txId a)));
   ("validatorId", Some (VBytes (sa_validatorId a)));
   ("validatorCapability", Some (VBytes (sa_validatorCapability a)));
   ("membershipRevision", Some (VBytes (sa_membershipRevision a)));
   ("candidateDigest", Some (VBytes (sa_candidateDigest a)));
   ("validatorFeedSequence", Some (VBigInt (sa_validatorFeedSequence a)));
   ("authorTimestampMs", Some (VBigInt (sa_authorTimestampMs a)));
   ("acceptedAboveMs", Some (VBigInt (sa_acceptedAboveMs a)));
   ("policyVersion", Some (VBigInt (sa_policyVersion a))); ("transportAuthor", Some (VString (sa_transportAuthor a)))].
Definition as_attestation (v : jsvalue) : option StoredAttestation :=
  id ← field v "attestationId" as_bytes; txId ← field v "txId" as_bytes;
  validatorId ← field v "validatorId" as_bytes; capability ← field v "validatorCapability" as_bytes;
  revision ← field v "membershipRevision" as_bytes; digest ← field v "candidateDigest" as_bytes;
  sequence ← field v "validatorFeedSequence" as_bigint; timestamp ← field v "authorTimestampMs" as_bigint;
  above ← field v "acceptedAboveMs" as_bigint; version ← field v "policyVersion" as_bigint;
  author ← field v "transportAuthor" as_string;
  Some (mkStoredAttestation id txId validatorId capability revision digest sequence timestamp above version author).

Definition heartbeat_js (h : StoredHeartbeat) : jsvalue := obj
  [("heartbeatId", Some (VBytes (sh_heartbeatId h))); ("validatorId", Some (VBytes (sh_validatorId h)));
   ("validatorCapability", Some (VBytes (sh_validatorCapability h)));
   ("membershipRevision", Some (VBytes (sh_membershipRevision h)));
   ("validatorFeedSequence", Some (VBigInt (sh_validatorFeedSequence h)));
   ("acceptanceCutoffMs", Some (VBigInt (sh_acceptanceCutoffMs h)));
   ("feedContiguous", Some (VBool (sh_feedContiguous h)))].
Definition as_heartbeat (v : jsvalue) : option StoredHeartbeat :=
  id ← field v "heartbeatId" as_bytes; validatorId ← field v "validatorId" as_bytes;
  capability ← field v "validatorCapability" as_bytes; revision ← field v "membershipRevision" as_bytes;
  sequence ← field v "validatorFeedSequence" as_bigint; cutoff ← field v "acceptanceCutoffMs" as_bigint;
  contiguous ← field v "feedContiguous" as_bool;
  Some (mkStoredHeartbeat id validatorId capability revision sequence cutoff contiguous).

Definition head_js (h : MaterializedHead) : jsvalue := obj
  [("localRevision", Some (VBigInt (mh_localRevision h))); ("headRef", Some (VString (mh_headRef h)));
   ("orderLength", Some (VNumber (mh_orderLength h))); ("orderDigest", Some (VBytes (mh_orderDigest h)))].
Definition as_head (v : jsvalue) : option MaterializedHead :=
  r ← field v "localRevision" as_bigint; h ← field v "headRef" as_string;
  n ← field v "orderLength" as_number; d ← field v "orderDigest" as_bytes; Some (mkHead r h n d).

Definition checkpoint_js (c : StoredCheckpoint) : jsvalue := obj
  [("prefixLength", Some (VNumber (cp_prefixLength c))); ("checkpointRef", Some (VString (cp_checkpointRef c)));
   ("prefixDigest", Some (VBytes (cp_prefixDigest c))); ("pinned", Some (VBool (cp_pinned c)))].
Definition as_checkpoint (v : jsvalue) : option StoredCheckpoint :=
  n ← field v "prefixLength" as_number; r ← field v "checkpointRef" as_string;
  d ← field v "prefixDigest" as_bytes; p ← field v "pinned" as_bool; Some (mkCheckpoint n r d p).

Definition reopening_js (r : HistoryReopening) : jsvalue := obj
  [("id", Some (VString (hr_id r))); ("floorMs", Some (VBigInt (hr_floorMs r)));
   ("membershipRevision", Some (VBytes (hr_membershipRevision r))); ("reason", Some (VString (hr_reason r)))].
Definition as_reopening (v : jsvalue) : option HistoryReopening :=
  i ← field v "id" as_string; f ← field v "floorMs" as_bigint;
  m ← field v "membershipRevision" as_bytes; r ← field v "reason" as_string; Some (mkReopening i f m r).

Definition cutoff_js (c : ValidatorCutoffState) : jsvalue := obj
  [("validatorId", Some (VBytes (vc_validatorId c))); ("acceptedAboveMs", Some (VBigInt (vc_acceptedAboveMs c)))].
Definition as_cutoff (v : jsvalue) : option ValidatorCutoffState :=
  i ← field v "validatorId" as_bytes; a ← field v "acceptedAboveMs" as_bigint; Some (mkCutoff i a).

(** The properties of a delta after its sequence number; [kind] names the case. *)
Definition delta_fields (b : DeltaBody) : list (string * option jsvalue) :=
  match b with
  | candidate_added txId state =>
      [("kind", Some (VString (js "candidate_added"))); ("txId", Some (VBytes txId)); ("state", Some (state_js state))]
  | candidate_state_changed txId previousState state reason =>
      [("kind", Some (VString (js "candidate_state_changed"))); ("txId", Some (VBytes txId));
       ("previousState", Some (state_js previousState)); ("state", Some (state_js state));
       ("reason", VString <$> reason)]
  | attestation_added attestationId txId unresolved =>
      [("kind", Some (VString (js "attestation_added"))); ("attestationId", Some (VBytes attestationId));
       ("txId", Some (VBytes txId)); ("unresolvedCandidate", Some (VBool unresolved))]
  | order_append txId index previousLength =>
      [("kind", Some (VString (js "order_append"))); ("txId", Some (VBytes txId)); ("index", Some (VNumber index));
       ("previousLength", Some (VNumber previousLength))]
  | order_insert txId index previousLength =>
      [("kind", Some (VString (js "order_insert"))); ("txId", Some (VBytes txId)); ("index", Some (VNumber index));
       ("previousLength", Some (VNumber previousLength))]
  | heartbeat_advanced heartbeatId validatorId cutoffMs contiguous =>
      [("kind", Some (VString (js "heartbeat_advanced"))); ("heartbeatId", Some (VBytes heartbeatId));
       ("validatorId", Some (VBytes validatorId)); ("cutoffMs", Some (VBigInt cutoffMs));
       ("feedContiguous", Some (VBool contiguous))]
  | materialized_head_published head =>
      [("kind", Some (VString (js "materialized_head_published"))); ("head", Some (head_js head))]
  | checkpoint_stored checkpoint =>
      [("kind", Some (VString (js "checkpoint_stored"))); ("checkpoint", Some (checkpoint_js checkpoint))]
  | history_reopened reopening =>
      [("kind", Some (VString (js "history_reopened"))); ("reopening", Some (reopening_js reopening))]
  end.

Definition delta_js (d : ControlStoreDelta) : jsvalue :=
  obj (("sequence", Some (VBigInt (d_sequence d))) :: delta_fields (d_body d)).

Definition as_delta_body (v : jsvalue) : option DeltaBody :=
  kind ← field v "kind" as_string;
  if bool_decide (kind = js "candidate_added") then
    x ← field v "txId" as_bytes; s ← field v "state" as_state; Some (candidate_added x s)
  else if bool_decide (kind = js "candidate_state_changed") then
    x ← field v "txId" as_bytes; p ← field v "previousState" as_state; s ← field v "state" as_state;
    r ← optional v "reason" as_string; Some (candidate_state_changed x p s r)
  else if bool_decide (kind = js "attestation_added") then
    a ← field v "attestationId" as_bytes; x ← field v "txId" as_bytes; u ← field v "unresolvedCandidate" as_bool;
    Some (attestation_added a x u)
  else if bool_decide (kind = js "order_append") then
    x ← field v "txId" as_bytes; i ← field v "index" as_number; n ← field v "previousLength" as_number;
    Some (order_append x i n)
  else if bool_decide (kind = js "order_insert") then
    x ← field v "txId" as_bytes; i ← field v "index" as_number; n ← field v "previousLength" as_number;
    Some (order_insert x i n)
  else if bool_decide (kind = js "heartbeat_advanced") then
    h ← field v "heartbeatId" as_bytes; i ← field v "validatorId" as_bytes; c ← field v "cutoffMs" as_bigint;
    b ← field v "feedContiguous" as_bool; Some (heartbeat_advanced h i c b)
  else if bool_decide (kind = js "materialized_head_published") then
    h ← field v "head" as_head; Some (materialized_head_published h)
  else if bool_decide (kind = js "checkpoint_stored") then
    c ← field v "checkpoint" as_checkpoint; Some (checkpoint_stored c)
  else if bool_decide (kind = js "history_reopened") then
    r ← field v "reopening" as_reopening; Some (history_reopened r)
  else None.
Definition as_delta (v : jsvalue) : option ControlStoreDelta :=
  n ← field v "sequence" as_bigint; b ← as_delta_body v; Some (mkDelta n b).

Definition SNAPSHOT_FORMAT : jsstring := js "chronolog-control-store/v1".

Definition snapshot_js (s : ControlStoreSnapshot) : jsvalue := obj
  [("format", Some (VString SNAPSHOT_FORMAT)); ("sequence", Some (VBigInt (ss_sequence s)));
   ("candidates", Some (VArray (candidate_js <$> ss_candidates s)));
   ("attestations", Some (VArray (attestation_js <$> ss_attestations s)));
   ("heartbeats", Some (VArray (heartbeat_js <$> ss_heartbeats s)));
   ("orderedTxIds", Some (bytes_array (ss_orderedTxIds s)));
   ("deltas", Some (VArray (delta_js <$> ss_deltas s))); ("deltaFloor", VBigInt <$> ss_deltaFloor s);
   ("materializedHead", Some (match ss_materializedHead s with Some h => head_js h | None => VNull end));
   ("checkpoints", Some (VArray (checkpoint_js <$> ss_checkpoints s)));
   ("historyReopenings", Some (VArray (reopening_js <$> ss_historyReopenings s)));
   ("validatorCutoffs", (λ l, VArray (cutoff_js <$> l)) <$> ss_validatorCutoffs s)].
Definition as_snapshot (v : jsvalue) : option ControlStoreSnapshot :=
  n ← field v "sequence" as_bigint; c ← field v "candidates" (as_array as_candidate);
  a ← field v "attestations" (as_array as_attestation); h ← field v "heartbeats" (as_array as_heartbeat);
  o ← field v "orderedTxIds" (as_array as_bytes); d ← field v "deltas" (as_array as_delta);
  f ← optional v "deltaFloor" as_bigint; m ← nullable v "materializedHead" as_head;
  k ← field v "checkpoints" (as_array as_checkpoint); r ← field v "historyReopenings" (as_array as_reopening);
  u ← optional v "validatorCutoffs" (as_array as_cutoff);
  Some (mkSnapshot n c a h o d f m k r u).

(** ** The text of a snapshot *)

Definition encodeControlStoreSnapshot (snapshot : ControlStoreSnapshot) : text :=
  JsonText (replace_tags (snapshot_js snapshot)).

Definition decodeControlStoreSnapshot (buffer_from_base64 : jsstring → bytes) (t : text) :
    result DecodeError ControlStoreSnapshot :=
  match t with
  | NotJson => Err SyntaxError
  | JsonText v =>
      parsed ← revive buffer_from_base64 v;
      if match parsed with VNull => true | _ => false end then Err NullAccess
      else if bool_decide (field parsed "format" as_string = Some SNAPSHOT_FORMAT)
      then match as_snapshot parsed with Some snapshot => Ok snapshot | None => Err IllTyped end
      else Err UNSUPPORTED_FORMAT
  end.

(** ** The round trip *)

Section jsvalue_ind.
Context (P : jsvalue → Prop) (Hleaf : ∀ v, match v with VArray _ | VObject _ => False | _ => True end → P v)
  (Harray : ∀ l, Forall P l → P (VArray l)) (Hobject : ∀ fields, Forall (λ f, P f.2) fields → P (VObject fields)).

Fixpoint jsvalue_nested_ind (v : jsvalue) : P v :=
  match v with
  | VArray l => Harray l ((fix go (l : list jsvalue) : Forall P l :=
        match l with [] => Forall_nil_2 _ | x :: l => Forall_cons_2 _ x l (jsvalue_nested_ind x) (go l) end) l)
  | VObject fields => Hobject fields ((fix go (l : list (jsstring * jsvalue)) : Forall (λ f, P f.2) l :=
        match l with [] => Forall_nil_2 _ | x :: l => Forall_cons_2 _ x l (jsvalue_nested_ind x.2) (go l) end) fields)
  | v => Hleaf v I
  end.
End jsvalue_ind.

(** No property is named like a tag. *)
Fixpoint tag_free (v : jsvalue) : bool :=
  match v with
  | VArray l => forallb tag_free l
  | VObject fields => forallb (λ f, negb (bool_decide (f.1 = BIGINT_TAG)) && negb (bool_decide (f.1 = BYTES_TAG)) &&
                                    tag_free f.2) fields
  | _ => true
  end.

Lemma trim_start_id c s : js_space c = false → trim_start (c :: s) = c :: s.
Proof. intros H. simpl. by rewrite H. Qed.

Lemma js_trim_id s : forallb (λ c, negb (js_space c)) s = true → js_trim s = s.
Proof.
  intros Hs. assert (∀ t, forallb (λ c, negb (js_space c)) t = true → trim_start t = t) as Ht.
  { intros [|c t]; [done|]. simpl. rewrite andb_true_iff. intros [Hc%negb_true_iff _]. by rewrite Hc. }
  unfold js_trim. rewrite (Ht s Hs), Ht; [apply reverse_involutive|].
  rewrite forallb_forall in Hs |- *. intros c Hc%list_elem_of_In. rewrite elem_of_reverse in Hc. by apply Hs, list_elem_of_In.
Qed.

Lemma is_digit_not_space c : is_digit c = true → js_space c = false.
Proof. unfold is_digit. intros H. unfold js_space. simpl. repeat case_match; lia. Qed.

Lemma js_BigInt_digits s : forallb is_digit s = true → s ≠ [] → js_BigInt s = Some (digits_value s).
Proof.
  intros Hs Hne. unfold js_BigInt. rewrite js_trim_id.
  2: { rewrite forallb_forall in Hs |- *. intros c Hc. by rewrite is_digit_not_space by auto. }
  assert (decimal_value s = Some (digits_value s)) as Hd.
  { unfold decimal_value. rewrite Hs. by destruct s. }
  destruct s as [|c s]; [done|]. cbn [forallb] in Hs. apply andb_true_iff in Hs as [Hc Hs].
  assert (∀ d t, s = d :: t → is_digit d = true) as Hsecond.
  { intros d t ->. cbn [forallb] in Hs. by apply andb_true_iff in Hs as [? _]. }
  unfold is_digit in *. repeat (case_match; try done; subst; try (simplify_eq; lia)).
  all: exfalso; match goal with H : ∀ d t, ?s = d :: t → _ |- _ => specialize (H _ _ eq_refl); lia end.
Qed.

Lemma js_BigInt_decimal z : js_BigInt (js_decimal z) = Some z.
Proof.
  destruct (Z.ltb_spec z 0) as [Hz|Hz].
  - destruct (js_decimal_nonneg (- z)) as (Hv & Hd & Hne); [lia|].
    unfold js_decimal in Hv, Hd, Hne |- *. rewrite (proj2 (Z.ltb_lt _ _) Hz).
    rewrite (proj2 (Z.ltb_ge _ _)) in Hv, Hd, Hne by lia. set (s := digits _ _) in *.
    unfold js_BigInt. rewrite js_trim_id.
    + unfold decimal_value. rewrite Hd. destruct s; [done|]. simpl. simpl in Hv. rewrite Hv. f_equal. lia.
    + cbn [forallb]. change (negb (js_space 45)) with true. simpl. rewrite forallb_forall in Hd |- *.
      intros c Hc. by rewrite is_digit_not_space by auto.
  - destruct (js_decimal_nonneg z) as (Hv & Hd & Hne); [lia|]. rewrite js_BigInt_digits by done. by rewrite Hv.
Qed.

Section roundtrip.
Context (buffer_from_base64 : jsstring → bytes) (Hbase64 : ∀ b, buffer_from_base64 (base64 b) = b).

Lemma reviver_tag_free v : tag_free v = true → reviver buffer_from_base64 v = Ok v.
Proof.
  intros Hv. unfold reviver, isTagged. destruct v as [| | | | | | |[|[k x] [|? ?]]]; try done.
  - simpl in Hv. rewrite !andb_true_iff, !negb_true_iff, !bool_decide_eq_false in Hv. destruct_and!.
    destruct x; try done. by rewrite !bool_decide_eq_false_2.
  - by destruct x.
Qed.

Lemma revive_replace v : tag_free v = true → revive buffer_from_base64 (replace_tags v) = Ok v.
Proof.
  induction v as [v Hleaf|l IH|fields IH] using jsvalue_nested_ind; intros Hv.
  - destruct v; try done; simpl.
    + unfold reviver, isTagged. rewrite bool_decide_eq_true_2 by done. by rewrite js_BigInt_decimal.
    + unfold reviver, isTagged. rewrite bool_decide_eq_false_2, bool_decide_eq_true_2 by done. by rewrite Hbase64.
  - cbn [replace_tags revive].
    assert (mapR (revive buffer_from_base64) (replace_tags <$> l) = Ok l) as ->; [|by apply reviver_tag_free].
    cbn [tag_free] in Hv. clear -IH Hv. induction IH as [|x l Hx _ IHl]; [done|]. cbn [forallb] in Hv.
    apply andb_true_iff in Hv as [Hv1 Hv2]. rewrite fmap_cons. cbn [mapR]. rewrite Hx by done. cbn [mbind result_bind].
    by rewrite IHl.
  - cbn [replace_tags revive].
    assert (mapR (λ f, x ← revive buffer_from_base64 f.2; Ok (f.1, x)) ((λ f, (f.1, replace_tags f.2)) <$> fields) =
      Ok fields) as ->; [|by apply reviver_tag_free].
    cbn [tag_free] in Hv. clear -IH Hv. induction IH as [|[k x] l Hx _ IHl]; [done|]. cbn [forallb fst snd] in *.
    apply andb_true_iff in Hv as [[_ Hv1]%andb_true_iff Hv2]. rewrite fmap_cons. cbn [mapR fst snd]. rewrite Hx by done.
    cbn [mbind result_bind]. by rewrite IHl.
Qed.
End roundtrip.

Lemma mapM_fmap_Some {A B} (f : B → option A) (g : A → B) l : (∀ x, f (g x) = Some x) → mapM f (g <$> l) = Some l.
Proof. intros H. induction l as [|x l IH]; [done|]. rewrite fmap_cons. simpl. rewrite H. simpl. by rewrite IH. Qed.

Lemma as_bytes_array l : mapM as_bytes (VBytes <$> l) = Some l.
Proof. by apply mapM_fmap_Some. Qed.
Lemma state_roundtrip s : as_state (state_js s) = Some s.
Proof. by destruct s. Qed.
Lemma orderKey_roundtrip k : as_orderKey (orderKey_js k) = Some k.
Proof. by destruct k. Qed.
Lemma candidate_roundtrip c : as_candidate (candidate_js c) = Some c.
Proof.
  transitivity (proof ← mapM as_bytes (VBytes <$> sc_proofAttestationIds c);
    Some (mkCandidate (sc_txId c) (sc_groupId c) (sc_candidateDigest c) (sc_validationPolicy c) (sc_orderKey c)
      (sc_canonicalPayload c) (sc_state c) (sc_stateReason c) proof)).
  - destruct c as [t g d p [a b n x] [y|] [| | | | |] [r|] l]; reflexivity.
  - rewrite as_bytes_array. by destruct c.
Qed.
Lemma attestation_roundtrip a : as_attestation (attestation_js a) = Some a.
Proof. by destruct a. Qed.
Lemma heartbeat_roundtrip h : as_heartbeat (heartbeat_js h) = Some h.
Proof. by destruct h. Qed.
Lemma checkpoint_roundtrip c : as_checkpoint (checkpoint_js c) = Some c.
Proof. by destruct c. Qed.
Lemma reopening_roundtrip r : as_reopening (reopening_js r) = Some r.
Proof. by destruct r. Qed.
Lemma cutoff_roundtrip c : as_cutoff (cutoff_js c) = Some c.
Proof. by destruct c. Qed.
Lemma delta_roundtrip d : as_delta (delta_js d) = Some d.
Proof.
  destruct d as [n [x s|x p s r|a x u|x i m|x i m|h i c b|[]|[]|[]]]; try reflexivity.
  - by destruct s.
  - by destruct p, s, r.
Qed.

Lemma snapshot_roundtrip s : as_snapshot (snapshot_js s) = Some s.
Proof.
  transitivity (
    c ← mapM as_candidate (candidate_js <$> ss_candidates s); a ← mapM as_attestation (attestation_js <$> ss_attestations s);
    h ← mapM as_heartbeat (heartbeat_js <$> ss_heartbeats s); o ← mapM as_bytes (VBytes <$> ss_orderedTxIds s);
    d ← mapM as_delta (delta_js <$> ss_deltas s); k ← mapM as_checkpoint (checkpoint_js <$> ss_checkpoints s);
    r ← mapM as_reopening (reopening_js <$> ss_historyReopenings s);
    u ← match ss_validatorCutoffs s with Some l => Some <$> mapM as_cutoff (cutoff_js <$> l) | None => Some None end;
    Some (mkSnapshot (ss_sequence s) c a h o d (ss_deltaFloor s) (ss_materializedHead s) k r u)).
  - destruct s as [n c a h o d [f|] [[? ? ? ?]|] k r [u|]]; reflexivity.
  - rewrite !mapM_fmap_Some; auto using candidate_roundtrip, attestation_roundtrip, heartbeat_roundtrip,
      delta_roundtrip, checkpoint_roundtrip, reopening_roundtrip. simpl.
    destruct s as [n c a h o d f m k r [u|]]; [|done]. simpl. by rewrite mapM_fmap_Some by apply cutoff_roundtrip.
Qed.

Lemma forallb_fmap_true {A B} (f : B → bool) (g : A → B) l : (∀ x, f (g x) = true) → forallb f (g <$> l) = true.
Proof. intros H. induction l as [|x l IH]; [done|]. rewrite fmap_cons. simpl. by rewrite H, IH. Qed.

Lemma candidate_tag_free c : tag_free (candidate_js c) = true.
Proof.
  transitivity (forallb tag_free (VBytes <$> sc_proofAttestationIds c)); [|by apply forallb_fmap_true].
  destruct c as [t g d p [a b n x] [y|] [| | | | |] [r|] l]; simpl; by rewrite ?andb_true_r.
Qed.

Lemma delta_tag_free d : tag_free (delta_js d) = true.
Proof. destruct d as [n [x s|x p s [r|]|a x u|x i m|x i m|h i c b|[]|[]|[]]]; reflexivity. Qed.

Lemma snapshot_tag_free s : tag_free (snapshot_js s) = true.
Proof.
  assert (∀ {A} (g : A → jsvalue) l, (∀ x, tag_free (g x) = true) → tag_free (VArray (g <$> l)) = true) as Ha.
  { intros A g l Hg. by apply forallb_fmap_true. }
  unfold snapshot_js, obj, bytes_array.
  set (A1 := VArray (candidate_js <$> _)). assert (tag_free A1 = true) as H1 by apply Ha, candidate_tag_free.
  set (A2 := VArray (attestation_js <$> _)). assert (tag_free A2 = true) as H2 by by apply Ha.
  set (A3 := VArray (heartbeat_js <$> _)). assert (tag_free A3 = true) as H3 by by apply Ha.
  set (A4 := VArray (VBytes <$> _)). assert (tag_free A4 = true) as H4 by by apply Ha.
  set (A5 := VArray (delta_js <$> _)). assert (tag_free A5 = true) as H5 by apply Ha, delta_tag_free.
  set (A6 := VArray (checkpoint_js <$> _)). assert (tag_free A6 = true) as H6 by by apply Ha.
  set (A7 := VArray (reopening_js <$> _)). assert (tag_free A7 = true) as H7 by by apply Ha.
  assert (∀ u, forallb tag_free (cutoff_js <$> u) = true) as H8 by by intros; apply forallb_fmap_true.
  clearbody A1 A2 A3 A4 A5 A6 A7. destruct (ss_deltaFloor s), (ss_materializedHead s), (ss_validatorCutoffs s) as [u|];
    cbn -[BIGINT_TAG BYTES_TAG js tag_free]; cbn [tag_free forallb fst snd];
    rewrite ?H1, ?H2, ?H3, ?H4, ?H5, ?H6, ?H7; try rewrite (H8 u); reflexivity.
Qed.

(** snapshot files.  Every snapshot of a control store reads back from the text
    it is written as, bigints, byte strings and missing properties included. *)
Theorem snapshot_text_roundtrip buffer_from_base64 s :
  (∀ b, buffer_from_base64 (base64 b) = b) →
  decodeControlStoreSnapshot buffer_from_base64 (encodeControlStoreSnapshot s) = Ok s.
Proof.
  intros Hb. unfold decodeControlStoreSnapshot, encodeControlStoreSnapshot.
  rewrite revive_replace by (done || apply snapshot_tag_free). cbn [mbind result_bind].
  rewrite bool_decide_eq_true_2 by reflexivity. by rewrite snapshot_roundtrip.
Qed.

Definition sample_snapshot : ControlStoreSnapshot :=
  mkSnapshot 3 [mkCandidate [x01] [x02] [] [] (mkOrderKey (-5) [x03] 1 [x01]) None admissible (Some (js "late")) [[x04]]]
    [] [] [[x01]] [mkDelta 3 (order_append [x01] 0 0)] None None [] [] (Some [mkCutoff [x07] 123]).

Lemma snapshot_text_roundtrip_witness :
  decodeControlStoreSnapshot base64_decode (encodeControlStoreSnapshot sample_snapshot) = Ok sample_snapshot.
Proof. exact (snapshot_text_roundtrip base64_decode sample_snapshot base64_decode_encode). Defined.
