(* ===== verification/StorePersistence.v ===== *)
(** * Persistence of the control store: [packages/control-store/src/persistence.ts]

    The journal of validator cutoffs, [MemoryControlStorePersistence] and
    [JsonFileControlStorePersistence].  The latter keeps a rebuildable snapshot,
    written after a delay, and a journal of validator cutoffs, written crash-safely
    before a validator signs anything. *)

From Stdlib Require Import Strings.Byte Strings.String.
From stdpp Require Import base list option numbers.
From S2P Require Import Prelude JsMap Bytes JsNumber Int64 Base64 StoreTypes SnapshotCodec FileSystem.

#[local] Open Scope string_scope.
#[local] Open Scope list_scope.
#[local] Open Scope Z_scope.

(** ** The journal of cutoffs *)

Definition cutoffKey (validatorId : bytes) : jsstring := base64url validatorId.

Definition JOURNAL_FORMAT : jsstring := js "chronolog-validator-cutoffs/v1".

Definition encodeValidatorCutoffs (cutoffs : list ValidatorCutoffState) : text :=
  JsonText (obj
    [("format", Some (VString JOURNAL_FORMAT));
     ("cutoffs", Some (VArray ((λ c, obj
        [("validatorId", Some (VString (base64 (vc_validatorId c))));
         ("acceptedAboveMs", Some (VString (js_decimal (vc_acceptedAboveMs c))))]) <$> cutoffs)))]).

Inductive JournalError := JOURNAL_INVALID | JOURNAL_DUPLICATE | JOURNAL_SYNTAX.

Section journal.
Context (buffer_from_base64 : jsstring → bytes).

Definition decode_item (item : jsvalue) : result JournalError ValidatorCutoffState :=
  match field item "validatorId" as_string, field item "acceptedAboveMs" as_string with
  | Some id, Some above =>
    if negb (canonical_natural above) then Err JOURNAL_INVALID
    else
    let validatorId := buffer_from_base64 id in
    if (length validatorId =? 0)%nat || negb (bool_decide (base64 validatorId = id)) then Err JOURNAL_INVALID
    else Ok (mkCutoff validatorId (digits_value above))
  | _, _ => Err JOURNAL_INVALID
  end.

Definition decodeValidatorCutoffs (t : text) : result JournalError (list ValidatorCutoffState) :=
  match t with
  | NotJson => Err JOURNAL_SYNTAX
  | JsonText value =>
    match bool_decide (field value "format" as_string = Some JOURNAL_FORMAT), field value "cutoffs" (as_array Some) with
    | true, Some items =>
      cutoffs ← mapR decode_item items;
      if (length (foldl (λ set c, set_add (cutoffKey (vc_validatorId c)) set) [] cutoffs) =? length cutoffs)%nat
      then Ok cutoffs else Err JOURNAL_DUPLICATE
    | _, _ => Err JOURNAL_INVALID
    end
  end.
End journal.

(** ** In memory *)

Record MemoryDisk := mkMemoryDisk {
  md_encoded : option text;
  md_cutoffs : jsmap jsstring ValidatorCutoffState;
}.

Inductive PersistenceError :=
  | FileError (e : FsError)
  | SnapshotError (e : DecodeError)
  | CUTOFF_JOURNAL_MISSING
  | CUTOFF_JOURNAL_CORRUPT
  | VALIDATOR_CUTOFF_REGRESSION
  | SharedPersistence.

Definition regresses (cutoff : ValidatorCutoffState) (previous : option ValidatorCutoffState) : bool :=
  match previous with Some p => vc_acceptedAboveMs cutoff <? vc_acceptedAboveMs p | None => false end.

Section memory.
Context (buffer_from_base64 : jsstring → bytes).

Definition memory_save_cutoff (cutoff : ValidatorCutoffState) : SE MemoryDisk PersistenceError unit := λ d,
  let key := cutoffKey (vc_validatorId cutoff) in
  if regresses cutoff (map_get key (md_cutoffs d)) then (d, Err VALIDATOR_CUTOFF_REGRESSION)
  else (mkMemoryDisk (md_encoded d) (map_set key cutoff (md_cutoffs d)), Ok tt).

Fixpoint memory_initialize (cutoffs : list ValidatorCutoffState) : SE MemoryDisk PersistenceError unit :=
  match cutoffs with
  | [] => mret tt
  | cutoff :: rest => memory_save_cutoff cutoff ;; memory_initialize rest
  end.

Definition MemoryControlStorePersistence : Persistence MemoryDisk PersistenceError := {|
    p_load := λ d, (d, match md_encoded d with
      | None => Ok None
      | Some t => match decodeControlStoreSnapshot buffer_from_base64 t with
        | Ok s => Ok (Some s)
        | Err e => Err (SnapshotError e)
        end
      end);
    p_save := λ s d, (mkMemoryDisk (Some (encodeControlStoreSnapshot s)) (md_cutoffs d), Ok tt);
    p_loadValidatorCutoffs := Some (λ d, (d, Ok (Some (map_values (md_cutoffs d)))));
    p_initializeValidatorCutoffs := Some memory_initialize;
    p_saveValidatorCutoff := Some memory_save_cutoff;
    p_requestSave := None;
    p_flush := None;
    p_recoverCorruptSnapshot := None;
    |}.
End memory.

(** ** In files *)

(** The file system and the fields of [JsonFileControlStorePersistence].  The
    pending snapshot is a closure over the live store, so only its presence is
    state; the timer fires as a [flush]. *)
Record FileDisk (F : Type) := mkFileDisk {
  fd_fs : F;
  fd_cutoffs : option (jsmap jsstring ValidatorCutoffState);
  fd_pending : bool;
  fd_timer : bool;
}.
Arguments mkFileDisk {F}.
Arguments fd_fs {F}.
Arguments fd_cutoffs {F}.
Arguments fd_pending {F}.
Arguments fd_timer {F}.

Section file.
Context {F : Type} `{!FileSystem text F} (buffer_from_base64 : jsstring → bytes) (snapshotPath : path).

Definition cutoffPath : path := snapshotPath ++ js ".validator-cutoffs".

Definition fop (A : Type) : Type := SE (FileDisk F) PersistenceError A.

(** A call of the file system. *)
Definition files {A} (m : SE F FsError A) : fop A := λ d,
  let (f, r) := m (fd_fs d) in
  (mkFileDisk f (fd_cutoffs d) (fd_pending d) (fd_timer d),
    match r with Ok a => Ok a | Err e => Err (FileError e) end).
Definition fget {A} (g : FileDisk F → A) : fop A := λ d, (d, Ok (g d)).
Definition set_cutoffs (m : option (jsmap jsstring ValidatorCutoffState)) : fop unit := λ d,
  (mkFileDisk (fd_fs d) m (fd_pending d) (fd_timer d), Ok tt).
Definition exists_file (p : path) : fop bool := fget (λ d, existsSync p (fd_fs d)).

(** [try { m } catch (error) { handler(error) }] *)
Definition fcatch {A} (m : fop A) (handler : PersistenceError → fop A) : fop A := λ d,
  match m d with
  | (d', Ok a) => (d', Ok a)
  | (d', Err e) => handler e d'
  end.

Definition isMissingFile (e : PersistenceError) : bool := match e with FileError ENOENT => true | _ => false end.
Definition isCorruptSnapshot (e : PersistenceError) : bool :=
  match e with SnapshotError SyntaxError | SnapshotError UNSUPPORTED_FORMAT => true | _ => false end.

Definition write_snapshot (snapshot : ControlStoreSnapshot) : fop unit :=
  files (writeCrashSafe snapshotPath (encodeControlStoreSnapshot snapshot)).

Definition writeCutoffs : fop unit :=
  cutoffs ← fget fd_cutoffs;
  files (writeCrashSafe cutoffPath (encodeValidatorCutoffs (map_values (default [] cutoffs)))).

(** [#quarantine] *)
Definition quarantine_snapshot : fop unit :=
  name ← fget (λ d, snapshotPath ++ js ".corrupt-" ++ stamp (fd_fs d));
  fcatch (files (renameSync snapshotPath name) ;; files (syncPath (dirname snapshotPath)))
  (λ error, if isMissingFile error then mret tt else throw error).

Definition file_flush (snapshot : ControlStoreSnapshot) : fop unit := λ d,
  let pending := fd_pending d in
  let d := mkFileDisk (fd_fs d) (fd_cutoffs d) false false in
  if pending then write_snapshot snapshot d else (d, Ok tt).

Definition decode_file (t : text) : fop (option ControlStoreSnapshot) := λ d,
  (d, match decodeControlStoreSnapshot buffer_from_base64 t with
    | Ok s => Ok (Some s)
    | Err e => Err (SnapshotError e)
    end).

(** [load]: the constructor of the store calls it before anything is pending, so
    the [flush] it starts with writes nothing; a persistence object that already
    serves another store is not modelled. *)
Definition file_load : fop (option ControlStoreSnapshot) :=
  pending ← fget fd_pending;
  if (pending : bool) then throw SharedPersistence else
  fcatch (t ← files (readFileSync snapshotPath); decode_file t)
  (λ error,
    if isMissingFile error then mret None
    else if isCorruptSnapshot error then
    known ← exists_file cutoffPath;
    if (known : bool) then quarantine_snapshot ;; mret None else throw CUTOFF_JOURNAL_MISSING
    else throw error).

Definition index_cutoffs (cutoffs : list ValidatorCutoffState) : jsmap jsstring ValidatorCutoffState :=
  map_of_entries ((λ c, (cutoffKey (vc_validatorId c), c)) <$> cutoffs).

Definition file_load_cutoffs : fop (option (list ValidatorCutoffState)) :=
  fcatch
  (t ← files (readFileSync cutoffPath);
    match decodeValidatorCutoffs buffer_from_base64 t with
    | Err _ => throw CUTOFF_JOURNAL_CORRUPT
    | Ok cutoffs => set_cutoffs (Some (index_cutoffs cutoffs)) ;; mret (Some cutoffs)
    end)
  (λ error, if isMissingFile error then mret None else throw CUTOFF_JOURNAL_CORRUPT).

(** One round of the loop of [initializeValidatorCutoffs]: the map and [changed]. *)
Definition raise_cutoff (acc : jsmap jsstring ValidatorCutoffState * bool) (cutoff : ValidatorCutoffState) :
  jsmap jsstring ValidatorCutoffState * bool :=
  let key := cutoffKey (vc_validatorId cutoff) in
  if match map_get key acc.1 with
  | None => true
  | Some previous => vc_acceptedAboveMs previous <? vc_acceptedAboveMs cutoff
  end
  then (map_set key cutoff acc.1, true) else acc.

Definition file_initialize (cutoffs : list ValidatorCutoffState) : fop unit :=
  loaded ← fget (λ d, bool_decide (is_Some (fd_cutoffs d)));
  present ← exists_file cutoffPath;
  (if negb loaded && (present : bool) then file_load_cutoffs ;; mret tt else mret tt) ;;
  current ← fget (λ d, default [] (fd_cutoffs d));
  journaled ← exists_file cutoffPath;
  let (next, changed) := foldl raise_cutoff (current, negb journaled) cutoffs in
  set_cutoffs (Some next) ;;
  if (changed : bool) then writeCutoffs else mret tt.

Definition file_save_cutoff (cutoff : ValidatorCutoffState) : fop unit :=
  loaded ← fget (λ d, bool_decide (is_Some (fd_cutoffs d)));
  (if (loaded : bool) then mret tt else file_load_cutoffs ;; mret tt) ;;
  current ← fget (λ d, default [] (fd_cutoffs d));
  let key := cutoffKey (vc_validatorId cutoff) in
  let previous := map_get key current in
  if regresses cutoff previous then set_cutoffs (Some current) ;; throw VALIDATOR_CUTOFF_REGRESSION
  else if bool_decide (vc_acceptedAboveMs <$> previous = Some (vc_acceptedAboveMs cutoff))
  then set_cutoffs (Some current)
  else
  set_cutoffs (Some (map_set key cutoff current)) ;;
  fcatch writeCutoffs (λ error,
    cutoffs ← fget (λ d, default [] (fd_cutoffs d));
    set_cutoffs (Some (match previous with
        | None => map_delete key cutoffs
        | Some p => map_set key p cutoffs
        end)) ;;
    throw error).

Definition file_request_save : fop unit := λ d,
  (mkFileDisk (fd_fs d) (fd_cutoffs d) true true, Ok tt).

Definition file_recover : fop bool :=
  known ← exists_file cutoffPath;
  if (known : bool) then quarantine_snapshot ;; mret true else mret false.

Definition JsonFileControlStorePersistence : Persistence (FileDisk F) PersistenceError := {|
    p_load := file_load;
    p_save := write_snapshot;
    p_loadValidatorCutoffs := Some file_load_cutoffs;
    p_initializeValidatorCutoffs := Some file_initialize;
    p_saveValidatorCutoff := Some file_save_cutoff;
    p_requestSave := Some file_request_save;
    p_flush := Some file_flush;
    p_recoverCorruptSnapshot := Some file_recover;
    |}.
End file.
