(* ===== verification/StoreDurability.v ===== *)
(** * Durability of validator cutoffs

    A validator promises not to sign below its cutoff, and the promise must outlive
    crashes.  The control store over the file persistence keeps it: what
    [persistValidatorCutoff] has acknowledged is known again after any number of process
    kills, and what the first process after a start of the machine has acknowledged also
    after any number of crashes of the machine, even if the snapshot is lost. *)

From Stdlib Require Import Strings.Byte Strings.String.
From stdpp Require Import base list option numbers sets.
From S2P Require Import Prelude JsMap Bytes JsNumber Int64 Base64 StoreTypes ControlStore StoreInvariant StoreTheorems SnapshotCodec FileSystem StorePersistence.

#[local] Open Scope Z_scope.

(** ** The journal codec *)

Section journal.
Context (buffer_from_base64 : jsstring → bytes) (Hbase64 : ∀ b, buffer_from_base64 (base64 b) = b).
#[local] Abbreviation decode := (decodeValidatorCutoffs buffer_from_base64).

Lemma canonical_natural_decimal z : canonical_natural (js_decimal z) = true → digits_value (js_decimal z) = z.
Proof.
  intros H. apply js_decimal_nonneg. destruct (Z.ltb_spec z 0) as [Hz|]; [|done]. exfalso.
  apply canonical_natural_digits in H. unfold js_decimal in H. rewrite (proj2 (Z.ltb_lt _ _) Hz) in H. done.
Qed.

Definition item_js (c : ValidatorCutoffState) : jsvalue :=
  obj [("validatorId"%string, Some (VString (base64 (vc_validatorId c))));
    ("acceptedAboveMs"%string, Some (VString (js_decimal (vc_acceptedAboveMs c))))].

Lemma decode_item_inv c c' : decode_item buffer_from_base64 (item_js c) = Ok c' → c' = c.
Proof.
  assert (decode_item buffer_from_base64 (item_js c) =
    if negb (canonical_natural (js_decimal (vc_acceptedAboveMs c))) then Err JOURNAL_INVALID
    else let validatorId := buffer_from_base64 (base64 (vc_validatorId c)) in
    if (length validatorId =? 0)%nat || negb (bool_decide (base64 validatorId = base64 (vc_validatorId c)))
    then Err JOURNAL_INVALID
    else Ok (mkCutoff validatorId (digits_value (js_decimal (vc_acceptedAboveMs c))))) as -> by reflexivity.
  cbv zeta. rewrite Hbase64. destruct (canonical_natural _) eqn:Hc; [|done]. cbn [negb]. case_match; [done|].
  intros [= <-]. rewrite canonical_natural_decimal by done. by destruct c.
Qed.

(** What a journal was written from is the only thing it can be read as. *)
Lemma journal_decode_encode l l' : decode (encodeValidatorCutoffs l) = Ok l' → l' = l.
Proof.
  assert (decode (encodeValidatorCutoffs l) =
    match mapM Some (item_js <$> l) with
    | Some items =>
    cutoffs ← mapR (decode_item buffer_from_base64) items;
    if (length (foldl (λ set c, set_add (cutoffKey (vc_validatorId c)) set) [] cutoffs) =? length cutoffs)%nat
    then Ok cutoffs else Err JOURNAL_DUPLICATE
    | None => Err JOURNAL_INVALID
    end) as -> by reflexivity.
  rewrite <-(list_fmap_id (item_js <$> l)), mapM_fmap_Some by done. intros H. inv_ok. case_match; [|done]. inv_ok. subst.
  rename select (mapR _ _ = Ok _) into Hm. clear -Hm Hbase64. revert l' Hm.
  induction l as [|c l IH]; intros l' Hm; rewrite ?fmap_nil, ?fmap_cons in Hm; cbn [mapR] in Hm; inv_ok; [done|].
  subst. f_equal; [by apply decode_item_inv|by apply IH].
Qed.
End journal.

(** ** Bounds *)

(** What a map of cutoffs holds for a validator. *)
Definition bound : Type := jsstring → option Z.
Definition held (m : jsmap jsstring ValidatorCutoffState) : bound := λ k, vc_acceptedAboveMs <$> map_get k m.
Definition stored (s : ControlStore) : bound := λ k, map_get k (validatorCutoffs s).
Definition listed (l : list ValidatorCutoffState) : bound := held (index_cutoffs l).

(** [B'] holds at least what [B] does. *)
Definition below (B B' : bound) : Prop := ∀ k v, B k = Some v → ∃ v', B' k = Some v' ∧ v ≤ v'.

#[export] Instance below_preorder : PreOrder below.
Proof.
  split; [intros B k v Hv; by exists v|]. intros B1 B2 B3 H12 H23 k v (v2 & H2 & ?)%H12.
  destruct (H23 k v2 H2) as (v3 & H3 & ?). exists v3. split; [done|lia].
Qed.

(** The acknowledged cutoffs of validators are within [B]. *)
Definition honoured (promises : list (bytes * Z)) (B : bound) : Prop :=
  ∀ id v, (id, v) ∈ promises → ∃ v', B (idKey id) = Some v' ∧ v ≤ v'.

Lemma honoured_below promises B B' : honoured promises B → below B B' → honoured promises B'.
Proof.
  intros Hp HB id v Hin. destruct (Hp id v Hin) as (v1 & H1 & ?). destruct (HB _ _ H1) as (v2 & H2 & ?).
  exists v2. split; [done|lia].
Qed.

Definition keyed (m : jsmap jsstring ValidatorCutoffState) : Prop :=
  map_wf m ∧ ∀ k c, (k, c) ∈ m → k = cutoffKey (vc_validatorId c).

Lemma keyed_set c m : keyed m → keyed (map_set (cutoffKey (vc_validatorId c)) c m).
Proof.
  intros [Hwf Hk]. split; [by apply map_wf_set|]. intros k c' [[-> ->]|[_ Hin]]%elem_of_map_set; [done|by apply Hk|done].
Qed.

Lemma index_cutoffs_values m : keyed m → index_cutoffs (map_values m) = m.
Proof.
  intros [Hwf Hk]. unfold index_cutoffs, map_values. rewrite <-list_fmap_compose.
  rewrite (list_fmap_ext _ id), list_fmap_id; [by apply map_of_entries_id|].
  intros i [k c] Hi. simpl. by rewrite (Hk k c (list_elem_of_lookup_2 _ _ _ Hi)).
Qed.

Lemma index_cutoffs_keyed l : keyed (index_cutoffs l).
Proof.
  unfold index_cutoffs, map_of_entries. induction l as [|c l IH] using rev_ind; [by split; [constructor|intros ?? ?%elem_of_nil]|].
  rewrite fmap_app, foldl_app. by apply keyed_set.
Qed.

Lemma held_set m c :
  match map_get (cutoffKey (vc_validatorId c)) m with Some p => vc_acceptedAboveMs p ≤ vc_acceptedAboveMs c | None => True end →
  below (held m) (held (map_set (cutoffKey (vc_validatorId c)) c m)).
Proof.
  intros Hle k v Hv. unfold held in *. rewrite map_get_set. case_decide as Hk; [|by exists v]. subst.
  exists (vc_acceptedAboveMs c). split; [done|]. destruct (map_get _ m); [|done]. injection Hv as <-. done.
Qed.

Section durability.
Context {F : Type} `{!FileSystem text F, !FileSystemLaws text F} (buffer_from_base64 : jsstring → bytes)
  (Hbase64 : ∀ b, buffer_from_base64 (base64 b) = b) (snapshotPath : path).
#[local] Abbreviation decode := (decodeValidatorCutoffs buffer_from_base64).
#[local] Abbreviation cutoffPath := (cutoffPath snapshotPath).

(** A journal with these contents gives back at least [B]. *)
Definition journal (c : option text) (B : bound) : Prop :=
  match c with
  | None => ∀ k, B k = None
  | Some t => ∀ l, decode t = Ok l → below B (listed l)
  end.

(** What the next process can find: after a crash of the machine whatever survives, and
    after the process alone was killed what a read would have returned. *)
Inductive loss := machine_crash | process_kill.
Definition remains (k : loss) (f : F) (c : option text) : Prop :=
  match k with machine_crash => survives f cutoffPath c | process_kill => c = view f cutoffPath end.

(** Whatever it finds of the journal gives back [B]. *)
Definition journaled (k : loss) (f : F) (B : bound) : Prop := ∀ c, remains k f c → journal c B.

Lemma journal_below c B B' : below B B' → journal c B' → journal c B.
Proof.
  intros HB Hj. destruct c as [t|]; simpl in *.
  - intros l Hl. etrans; [exact HB|by apply Hj].
  - intros k. destruct (B k) as [v|] eqn:Hk; [|done]. destruct (HB k v Hk) as (v' & Hv' & _). by rewrite Hj in Hv'.
Qed.

Lemma journaled_below k f B B' : below B B' → journaled k f B' → journaled k f B.
Proof. intros HB Hj c Hc. eapply journal_below; [exact HB|by apply Hj]. Qed.

Lemma journaled_keeps k f f' B : keeps f f' cutoffPath → journaled k f B → journaled k f' B.
Proof. intros [V S _] Hj c Hc. apply Hj. destruct k; simpl in *; [by apply S|congruence]. Qed.

Lemma journaled_view f B : journaled process_kill f B ↔ journal (view f cutoffPath) B.
Proof. split; [intros H; by apply H|by intros H c ->]. Qed.

Lemma journal_encoded m : keyed m → journal (Some (encodeValidatorCutoffs (map_values m))) (held m).
Proof.
  intros Hm l Hl. apply journal_decode_encode in Hl as ->; [|done]. unfold listed. by rewrite index_cutoffs_values.
Qed.

(** ** Writing the journal *)

Lemma writeCutoffs_spec d d' r m :
  writeCutoffs snapshotPath d = (d', r) → fd_cutoffs d = Some m → keyed m →
  fd_cutoffs d' = Some m ∧
  (∀ k B, below B (held m) → journaled k (fd_fs d) B → journaled k (fd_fs d') B) ∧
  (r = Ok tt → ∀ k, journaled k (fd_fs d') (held m)).
Proof.
  intros H Hm Hk. unfold writeCutoffs, fget, files, mbind, SE_bind in H. cbv beta iota in H.
  rewrite Hm in H. cbn [from_option id] in H.
  destruct (writeCrashSafe _ _ _) as [f r'] eqn:Hw. injection H as <- <-. cbn [fd_cutoffs fd_fs].
  destruct (writeCrashSafe_replaces _ _ _ _ _ Hw) as [_ Hs Hv Hd].
  assert (∀ B, below B (held m) → journal (Some (encodeValidatorCutoffs (map_values m))) B) as Hnew.
  { intros B HB. eapply journal_below; [exact HB|]. by apply journal_encoded. }
  split_and!; [done| |].
  - intros k B HB Hj c Hc. destruct k; simpl in Hc.
    + destruct (Hs c Hc) as [Hold| ->]; [by apply Hj|by apply Hnew].
    + subst c. destruct Hv as [-> | ->]; [by apply Hj|by apply Hnew].
  - destruct r' as [[]|e]; [|done]. intros _ k c Hc. destruct (Hd eq_refl) as [Hv' Hd']. destruct k; simpl in Hc.
    + rewrite (Hd' c Hc). by apply Hnew.
    + subst c. rewrite Hv'. by apply Hnew.
Qed.

Lemma held_restore m key previous c :
  map_wf m → map_get key m = previous →
  ∀ k, held (match previous with None => map_delete key (map_set key c m) | Some p => map_set key p (map_set key c m) end) k =
  held m k.
Proof.
  intros Hwf Hp k. unfold held. f_equal. destruct previous as [p|].
  - rewrite !map_get_set. case_decide; [congruence|done].
  - rewrite map_get_delete by by apply map_wf_set. rewrite map_get_set. case_decide; [congruence|done].
Qed.

Lemma keyed_restore m key previous c :
  keyed m → key = cutoffKey (vc_validatorId c) → map_get key m = previous →
  keyed (match previous with None => map_delete key (map_set key c m) | Some p => map_set key p (map_set key c m) end).
Proof.
  intros Hm -> Hp. pose proof (keyed_set c m Hm) as [Hwf Hk]. destruct previous as [p|].
  - replace (cutoffKey (vc_validatorId c)) with (cutoffKey (vc_validatorId p)) at 1; [by apply keyed_set|].
    apply map_get_Some_elem in Hp. symmetry. by apply (proj2 Hm).
  - split; [by apply map_wf_delete|]. intros k c' Hin. apply Hk. by eapply elem_of_map_delete.
Qed.

(** Saving a cutoff: a failure loses nothing, and what was on disk whatever happens is
    so again. *)
Lemma file_save_cutoff_spec cutoff d d' r m :
  file_save_cutoff buffer_from_base64 snapshotPath cutoff d = (d', r) → fd_cutoffs d = Some m → keyed m →
  ∃ m', fd_cutoffs d' = Some m' ∧ keyed m' ∧ below (held m) (held m') ∧
  (∀ k B, below B (held m) → journaled k (fd_fs d) B → journaled k (fd_fs d') B) ∧
  (∀ k, journaled k (fd_fs d) (held m) → journaled k (fd_fs d') (held m')) ∧
  (r = Ok tt → ∃ v', held m' (cutoffKey (vc_validatorId cutoff)) = Some v' ∧ vc_acceptedAboveMs cutoff ≤ v').
Proof.
  intros H Hm Hk. destruct d as [f cm pending timer]. cbn [fd_cutoffs fd_fs] in *. subst cm.
  unfold file_save_cutoff, fget, set_cutoffs, fcatch, mbind, SE_bind, mret, SE_ret, throw in H.
  cbv beta iota zeta in H. cbn [fd_cutoffs fd_fs fd_pending fd_timer] in H.
  rewrite bool_decide_eq_true_2 in H by by eexists. cbv beta iota zeta in H.
  cbn [fd_cutoffs fd_fs fd_pending fd_timer from_option id] in H.
  set (key := cutoffKey (vc_validatorId cutoff)) in *. destruct (regresses cutoff (map_get key m)) eqn:Hreg.
  { cbv beta iota in H. injection H as <- <-. exists m. by split_and!. }
  case_bool_decide as Heq.
  { cbv beta iota in H. injection H as <- <-. exists m. split_and!; [done..|]. intros _. exists (vc_acceptedAboveMs cutoff). done. }
  assert (below (held m) (held (map_set key cutoff m))) as Hup.
  { apply held_set. fold key. unfold regresses in Hreg. destruct (map_get key m); [lia|done]. }
  cbv beta iota in H. destruct (writeCutoffs snapshotPath _) as [d1 r1] eqn:Hw.
  eapply (writeCutoffs_spec _ _ _ (map_set key cutoff m)) in Hw as (Hm1 & Hj1 & Hok1); [|done|by apply keyed_set].
  cbn [fd_fs] in Hj1. destruct r1 as [[]|e].
  - injection H as <- <-. exists (map_set key cutoff m). split_and!; [done|by apply keyed_set|done| | |].
    + intros k B HB. apply Hj1. by etrans.
    + intros k _. by apply Hok1.
    + intros _. exists (vc_acceptedAboveMs cutoff). unfold held. by rewrite map_get_set_eq.
  - rewrite Hm1 in H. cbn [from_option id] in H. injection H as <- <-.
    assert (∀ k, held (match map_get key m with None => map_delete key (map_set key cutoff m)
      | Some p => map_set key p (map_set key cutoff m) end) k = held m k) as Hrestored by (intros k; by apply held_restore; [apply Hk|]).
    eexists. split_and!; [done|by apply keyed_restore| | | |done]; cbn [fd_fs].
    + intros k v Hv. exists v. by rewrite Hrestored.
    + intros k B HB. apply Hj1. by etrans.
    + intros k Hj. eapply journaled_below; [|by apply Hj1, Hj]. intros k' v. rewrite Hrestored. intros Hv. by exists v.
Qed.

(** ** Commands *)

#[local] Instance file_persistence : Persistence (FileDisk F) PersistenceError :=
  JsonFileControlStorePersistence buffer_from_base64 snapshotPath.

(** The journal and its map in memory are untouched. *)
Definition untouched (d d' : FileDisk F) : Prop :=
  fd_cutoffs d' = fd_cutoffs d ∧ keeps (fd_fs d) (fd_fs d') cutoffPath.

#[local] Instance untouched_preorder : PreOrder untouched.
Proof.
  split; [intros d; split; [done|apply keeps_same]|].
  intros d1 d2 d3 [C1 K1] [C2 K2]. split; [congruence|by eapply keeps_trans].
Qed.

Definition leaves_journal {A} (m : op (FileDisk F) PersistenceError A) : Prop :=
  ∀ w, untouched (w_disk w) (w_disk (m w).1).

Lemma leaves_bind {A B} (m : op (FileDisk F) PersistenceError A) (f : A → op (FileDisk F) PersistenceError B) :
  leaves_journal m → (∀ a, leaves_journal (f a)) → leaves_journal (m ≫= f).
Proof.
  intros Hm Hf w. specialize (Hm w). unfold mbind, SE_bind. destruct (m w) as [w1 [a|e]]; [|done].
  etrans; [exact Hm|apply Hf].
Qed.
Lemma leaves_ret {A} (a : A) : leaves_journal (mret a).
Proof. intros w. reflexivity. Qed.
Lemma leaves_conflict {A} code : leaves_journal (conflict (A:=A) code).
Proof. intros w. reflexivity. Qed.
Lemma leaves_reads {A} (f : ControlStore → A) : leaves_journal (reads f).
Proof. intros w. reflexivity. Qed.
Lemma leaves_reads_result {A} (f : ControlStore → result ConflictCode A) : leaves_journal (reads_result f).
Proof. intros w. reflexivity. Qed.
Lemma leaves_updates f : leaves_journal (updates f).
Proof. intros w. reflexivity. Qed.
Lemma leaves_runs {A} (f : ControlStore → ControlStore * result (StoreError PersistenceError) A) : leaves_journal (runs f).
Proof. intros w. unfold runs. by destruct (f (w_store w)). Qed.
Lemma leaves_append body : leaves_journal (append body).
Proof. apply leaves_runs. Qed.
Lemma leaves_persist : leaves_journal persist.
Proof. intros w. split; [done|apply keeps_same]. Qed.

Ltac leaves_step := first
  [ simple apply leaves_bind; [|intros ?] | simple apply leaves_ret | simple apply leaves_conflict
    | simple apply leaves_reads | simple apply leaves_reads_result | simple apply leaves_updates
    | simple apply leaves_append | simple apply leaves_runs | simple apply leaves_persist | case_match ].
Ltac leaves := cbv zeta; repeat leaves_step.

Lemma setCandidateState_leaves txId state proof reason : leaves_journal (setCandidateState txId state proof reason).
Proof. unfold setCandidateState. leaves. Qed.

Lemma evaluateAdmission_leaves txId evaluator : leaves_journal (evaluateAdmission txId evaluator).
Proof.
  unfold evaluateAdmission. apply leaves_bind; [apply leaves_reads_result|]. intros c.
  case_match; [apply leaves_ret|]. case_match; [apply leaves_conflict|]. apply leaves_bind; [apply leaves_reads|].
  intros known. apply leaves_bind; [apply setCandidateState_leaves|]. intros ?. apply leaves_ret.
Qed.

Lemma path_suffix_ne (p : path) c c' (t t' : jsstring) : c ≠ c' → p ++ 46 :: c :: t ≠ p ++ 46 :: c' :: t'.
Proof. intros Hc Heq%app_inv_head. congruence. Qed.

Lemma write_snapshot_keeps snap d d' r :
  write_snapshot snapshotPath snap d = (d', r) → untouched d d'.
Proof.
  unfold write_snapshot, files. destruct (writeCrashSafe _ _ _) as [f r'] eqn:Hw. intros [= <- _].
  split; [done|]. cbn [fd_fs]. destruct (writeCrashSafe_replaces _ _ _ _ _ Hw) as [Hk _ _ _]. apply Hk.
  - apply app_ne_self.
  - by apply path_suffix_ne.
Qed.

Lemma flush_leaves : leaves_journal flush.
Proof.
  unfold flush. apply leaves_bind; [apply leaves_reads|]. intros snap w.
  change (untouched (w_disk w) (w_disk (persistence (file_flush snapshotPath snap) w).1)).
  unfold persistence, file_flush. destruct (fd_pending (w_disk w)).
  - destruct (write_snapshot snapshotPath snap _) as [d r] eqn:Hw. apply write_snapshot_keeps in Hw as [C K]. by split.
  - split; [done|apply keeps_same].
Qed.

(** Only a command about cutoffs touches the journal. *)
Lemma exec_leaves c w :
  match c with PersistValidatorCutoff _ _ => True | _ =>
    untouched (w_disk w) (w_disk (exec c w)) ∧ validatorCutoffs (w_store (exec c w)) = validatorCutoffs (w_store w)
  end.
Proof.
  destruct c; [..|done|]; (split; [|]).
  - apply (λ H : leaves_journal (putCandidate input), H w). unfold putCandidate. leaves.
  - exact (wp_elim _ _ _ (proj2 (putCandidate_frame input w))).
  - apply (λ H : leaves_journal (putAttestation attestation), H w). unfold putAttestation. leaves.
  - exact (wp_elim _ _ _ (proj2 (proj2 (putAttestation_frame attestation w)))).
  - apply evaluateAdmission_leaves.
  - exact (wp_elim _ _ _ (proj2 (evaluateAdmission_frame txId evaluator w))).
  - apply setCandidateState_leaves.
  - exact (wp_elim _ _ _ (proj2 (setCandidateState_frame txId state proof reason w))).
  - apply (λ H : leaves_journal (recordHeartbeat heartbeat), H w). unfold recordHeartbeat. leaves.
  - exact (wp_elim _ _ _ (proj2 (recordHeartbeat_frame heartbeat w))).
  - apply (λ H : leaves_journal (publishMaterializedHead head), H w). unfold publishMaterializedHead. leaves.
  - exact (wp_elim _ _ _ (proj2 (proj2 (publishMaterializedHead_frame head w)))).
  - apply (λ H : leaves_journal (putCheckpoint checkpoint), H w). unfold putCheckpoint. leaves.
  - exact (wp_elim _ _ _ (proj2 (proj2 (putCheckpoint_frame checkpoint w)))).
  - apply (λ H : leaves_journal (recordHistoryReopening reopening), H w). unfold recordHistoryReopening. leaves.
  - exact (wp_elim _ _ _ (proj2 (proj2 (recordHistoryReopening_frame reopening w)))).
  - apply flush_leaves.
  - simpl. by rewrite flush_frame.
Qed.

(** ** A running store *)

(** A store that runs: [clean] when its process is the first since the machine was
    started.  The map in memory is what a read would return; the bound [D] is on disk
    whatever happens, and it is the whole map when the process is clean. *)
Definition running (clean : bool) (w : world (FileDisk F)) (durable promises : list (bytes * Z)) : Prop :=
  ∃ m D, (fd_cutoffs (w_disk w) = Some m ∧ keyed m) ∧
  (journaled process_kill (fd_fs (w_disk w)) (held m) ∧ journaled machine_crash (fd_fs (w_disk w)) D) ∧
  (below D (held m) ∧ (clean = true → below (held m) D)) ∧
  below (stored (w_store w)) (held m) ∧ honoured promises (stored (w_store w)) ∧ honoured durable D.

(** The promises after a command: an acknowledged cutoff is one. *)
Definition promises_after (c : command) (w : world (FileDisk F)) (promises : list (bytes * Z)) : list (bytes * Z) :=
  match c with
  | PersistValidatorCutoff id v =>
    match (persistValidatorCutoff id v w).2 with Ok _ => (id, v) :: promises | Err _ => promises end
  | _ => promises
  end.

Lemma running_untouched clean w w' durable promises :
  running clean w durable promises → untouched (w_disk w) (w_disk w') →
  validatorCutoffs (w_store w') = validatorCutoffs (w_store w) → running clean w' durable promises.
Proof.
  intros (m & D & [Hm Hk] & [Hj Hd] & HD & Hb & Hp & Hh) [C K] Hs. exists m, D. unfold stored in *. rewrite Hs.
  split_and!; try done; [congruence|by eapply journaled_keeps..|apply HD|apply HD].
Qed.

Lemma honoured_cons id v promises B : B (idKey id) = Some v → honoured promises B → honoured ((id, v) :: promises) B.
Proof. intros Hv Hp id' v' [[= -> ->]|Hin]%elem_of_cons; [by exists v|by apply Hp]. Qed.

Lemma persistValidatorCutoff_running clean id v w durable promises (c := PersistValidatorCutoff id v) :
  running clean w durable promises →
  running clean (exec c w) (if clean then promises_after c w durable else durable) (promises_after c w promises).
Proof.
  intros (m & D & [Hm Hk] & [Hj Hd] & [HDm HmD] & Hb & Hp & Hh). unfold c, exec, promises_after.
  unfold persistValidatorCutoff, reads, conflict, throw, mbind, SE_bind, mret, SE_ret, updates, persistence.
  cbv beta iota zeta. set (prev := map_get (idKey id) (validatorCutoffs (w_store w))).
  destruct (match prev with Some p => v <? p | None => false end) eqn:Hlow.
  { cbn [fst snd]. replace (if clean then durable else durable) with durable by by destruct clean. exists m, D. by split_and!. }
  case_bool_decide as Heq.
  - cbn [fst snd]. exists m, D. split_and!; try done; [by apply honoured_cons|].
    destruct clean; [|done]. intros id' v' [[= -> ->]|Hin]%elem_of_cons; [|by apply Hh].
    destruct (Hb (idKey id) v) as (v1 & H1 & ?); [exact Heq|]. destruct (HmD eq_refl _ _ H1) as (v2 & H2 & ?).
    exists v2. split; [done|lia].
  - change (p_saveValidatorCutoff) with (Some (file_save_cutoff buffer_from_base64 snapshotPath)).
    cbv beta iota. destruct (file_save_cutoff _ _ _ (w_disk w)) as [d r] eqn:Hsave.
    destruct (file_save_cutoff_spec _ _ _ _ _ Hsave Hm Hk) as (m' & Hm' & Hk' & Hup & Hkeep & Hall & Hack).
    set (D' := if clean then held m' else D).
    assert (journaled machine_crash (fd_fs d) D' ∧ below D' (held m') ∧ (clean = true → below (held m') D') ∧ below D D')
      as (Hd' & HDm' & HmD' & HDD').
    { unfold D'. destruct clean.
      - split_and!; [|done|done|by etrans]. apply Hall. eapply journaled_below; [by apply HmD|done].
      - split_and!; [by apply Hkeep|by etrans|done|done]. }
    destruct r as [[]|e]; cbn [fst snd w_store w_disk]; exists m', D'; cbn [w_store w_disk].
    + destruct (Hack eq_refl) as (v' & Hv' & Hle). cbn [vc_validatorId vc_acceptedAboveMs] in *.
      set (store' := set_validatorCutoffs _ _).
      assert (below (stored (w_store w)) (stored store')) as Hgrow.
      { intros k x Hx. unfold stored, store' in *. cbn [validatorCutoffs set_validatorCutoffs]. rewrite map_get_set.
        case_decide; [|by exists x]. subst k. exists v. split; [done|]. fold prev in Hx. rewrite Hx in Hlow. lia. }
      assert (stored store' (idKey id) = Some v) as Hid by apply map_get_set_eq.
      split_and!; try done; [by apply Hall| | |].
      * intros k x. unfold stored, store'. cbn [validatorCutoffs set_validatorCutoffs]. rewrite map_get_set. case_decide.
        -- intros [= <-]. subst k. by exists v'.
        -- intros Hx. destruct (Hb k x Hx) as (x1 & H1 & ?). destruct (Hup k x1 H1) as (x2 & H2 & ?). exists x2.
          split; [done|lia].
      * apply honoured_cons; [exact Hid|]. by eapply honoured_below.
      * unfold D' in *. destruct clean; [|done]. intros id' x [[= -> ->]|Hin]%elem_of_cons; [by exists v'|].
        by apply (honoured_below _ _ _ Hh HDD').
    + replace (if clean then durable else durable) with durable by by destruct clean.
      split_and!; try done; [by apply Hall|by etrans|by eapply honoured_below].
Qed.

Lemma exec_running clean c w durable promises : running clean w durable promises →
  running clean (exec c w) (if clean then promises_after c w durable else durable) (promises_after c w promises).
Proof.
  intros Hw. pose proof (exec_leaves c w) as Hl.
  destruct c; try (destruct Hl; replace (if clean then _ else _) with durable by (by destruct clean); by eapply running_untouched).
  by apply persistValidatorCutoff_running.
Qed.

(** ** Starting *)

Lemma foldl_raise cur b l next changed :
  foldl raise_cutoff (cur, b) l = (next, changed) → keyed cur →
  keyed next ∧ below (held cur) (held next) ∧
  (∀ c, c ∈ l → ∃ v', held next (cutoffKey (vc_validatorId c)) = Some v' ∧ vc_acceptedAboveMs c ≤ v') ∧
  (changed = false → next = cur ∧ b = false).
Proof.
  revert cur b. induction l as [|c l IH]; intros cur b H Hk; simpl in H.
  { injection H as <- <-. split_and!; [done..|by intros ? ?%elem_of_nil|done]. }
  unfold raise_cutoff in H at 2. cbn [fst] in H. set (key := cutoffKey (vc_validatorId c)) in *.
  destruct (match map_get key cur with None => true | Some p => vc_acceptedAboveMs p <? vc_acceptedAboveMs c end) eqn:Hc.
  - destruct (IH _ _ H (keyed_set c cur Hk)) as (K & Hup & Hall & Hch). fold key in Hup.
    assert (below (held cur) (held (map_set key c cur))) as H1.
    { apply held_set. fold key. destruct (map_get key cur); [lia|done]. }
    split_and!; [done|by etrans| |by intros [_ ?]%Hch].
    intros c' [->|Hin]%elem_of_cons; [|by apply Hall]. apply Hup. unfold held. by rewrite map_get_set_eq.
  - destruct (IH _ _ H Hk) as (K & Hup & Hall & Hch). split_and!; [done..| |done].
    intros c' [->|Hin]%elem_of_cons; [|by apply Hall]. fold key.
    destruct (map_get key cur) as [p|] eqn:Hp; [|done]. destruct (Hup key (vc_acceptedAboveMs p)) as (v' & Hv' & ?).
    { unfold held. by rewrite Hp. }
    exists v'. split; [done|lia].
Qed.

(** The journal as the constructor finds it. *)
Definition loaded (d : FileDisk F) (journalCutoffs : option (list ValidatorCutoffState)) : Prop :=
  match journalCutoffs with
  | None => view (fd_fs d) cutoffPath = None ∧ fd_cutoffs d = None
  | Some l => fd_cutoffs d = Some (index_cutoffs l)
  end.

Lemma loaded_untouched d d' j : loaded d j → untouched d d' → loaded d' j.
Proof.
  unfold loaded. intros Hl [C [V _ _]]. destruct j as [l|]; [congruence|]. destruct Hl. split; congruence.
Qed.

Lemma file_load_cutoffs_spec f pending timer d' r B :
  file_load_cutoffs buffer_from_base64 snapshotPath (mkFileDisk f None pending timer) = (d', r) →
  journal (view f cutoffPath) B →
  keeps f (fd_fs d') cutoffPath ∧
  match r with
  | Ok j => loaded d' j ∧ below B (held (default [] (index_cutoffs <$> j))) ∧
    journal (view f cutoffPath) (held (default [] (index_cutoffs <$> j)))
  | Err _ => True
  end.
Proof.
  unfold file_load_cutoffs, fcatch, files, mbind, SE_bind, set_cutoffs, mret, SE_ret, throw. cbn [fd_fs fd_cutoffs fd_pending fd_timer].
  destruct (readFileSync cutoffPath f) as [f1 r1] eqn:Hr. destruct (read_law _ _ _ _ Hr) as [K V].
  destruct r1 as [t|e]; cbv beta iota.
  - destruct (decode t) as [l|e] eqn:Hd; cbv beta iota.
    + intros [= <- <-] Hj. cbn [fd_fs fd_cutoffs]. split; [apply K|]. rewrite V in Hj |- *.
      split_and!; [done|by apply Hj|]. intros l' Hl'. rewrite Hd in Hl'. apply Ok_inj in Hl' as <-. reflexivity.
    + cbn [isMissingFile]. intros [= <- <-] _. by split; [apply K|].
  - destruct e; cbn [isMissingFile]; intros [= <- <-] Hj; cbn [fd_fs fd_cutoffs]; (split; [apply K|]); [|done].
    rewrite V in Hj |- *. split_and!; [split; [|done]| |done].
    + cbn [fd_fs]. by rewrite (keeps_view _ _ _ (K cutoffPath)).
    + intros k v Hk. cbn in Hj. by rewrite Hj in Hk.
Qed.

Lemma quarantine_untouched d d' r : quarantine_snapshot snapshotPath d = (d', r) → untouched d d'.
Proof.
  unfold quarantine_snapshot, fget, fcatch, files, mbind, SE_bind. cbv beta iota zeta.
  set (name := snapshotPath ++ _).
  assert (snapshotPath ≠ name ∧ cutoffPath ≠ snapshotPath ∧ cutoffPath ≠ name) as (H1 & H2 & H3).
  { split_and!; [apply not_eq_sym, app_ne_self|apply app_ne_self|by apply path_suffix_ne]. }
  destruct (renameSync snapshotPath name (fd_fs d)) as [f1 r1] eqn:Hr.
  destruct (rename_law _ _ _ _ _ Hr H1) as [K1 _]. specialize (K1 cutoffPath H2 H3).
  assert (∀ (x : result PersistenceError unit) c, keeps (fd_fs d) (fd_fs c) cutoffPath → fd_cutoffs c = fd_cutoffs d →
    (match x with Ok a => (c, Ok a) | Err e => (if isMissingFile e then mret tt else throw e) c end) = (d', r) →
    untouched d d') as Hend.
  { intros x c Kc Cc. destruct x as [a|e]; [intros [= <- _]; by split|].
    destruct (isMissingFile e); intros [= <- _]; by split. }
  destruct r1 as [[]|e]; cbv beta iota.
  - cbn [fd_fs]. unfold syncPath. destruct (fsyncSync (dirname snapshotPath) f1) as [f2 r2] eqn:Hs.
    destruct (sync_law _ _ _ _ Hs) as [K2 _]. apply Hend; [|done]. cbn [fd_fs]. by eapply keeps_trans.
  - apply (Hend (Err (FileError e))); done.
Qed.

Lemma file_load_untouched d d' r : file_load buffer_from_base64 snapshotPath d = (d', r) → untouched d d'.
Proof.
  unfold file_load, fget, mbind, SE_bind. cbv beta iota. destruct (fd_pending d); [intros [= <- _]; reflexivity|].
  unfold fcatch, files, decode_file, mbind, SE_bind. cbv beta iota.
  destruct (readFileSync snapshotPath (fd_fs d)) as [f1 r1] eqn:Hr. destruct (read_law _ _ _ _ Hr) as [K _].
  set (d1 := mkFileDisk f1 _ _ _). assert (untouched d d1) as H1 by (split; [done|apply K]).
  assert (∀ e, (if isMissingFile e then mret None else if isCorruptSnapshot e then
    known ← exists_file cutoffPath;
    if (known : bool) then quarantine_snapshot snapshotPath ;; mret None else throw CUTOFF_JOURNAL_MISSING
    else throw e) d1 = (d', r) → untouched d d') as Hend.
  { intros e. destruct (isMissingFile e); [intros [= <- _]; done|]. destruct (isCorruptSnapshot e); [|intros [= <- _]; done].
    unfold exists_file, fget, mbind, SE_bind. cbv beta iota. destruct (existsSync _ _); [|intros [= <- _]; done].
    destruct (quarantine_snapshot snapshotPath d1) as [d2 r2] eqn:Hq. apply quarantine_untouched in Hq.
    intros H. etrans; [exact H1|]. destruct r2; injection H as <- _; done. }
  destruct r1 as [t|e]; cbv beta iota; [|apply Hend].
  destruct (decodeControlStoreSnapshot buffer_from_base64 t) as [snap|e]; [intros [= <- _]; done|apply Hend].
Qed.

Lemma file_initialize_spec cutoffs d d' r j (cur := default [] (index_cutoffs <$> j)) :
  file_initialize buffer_from_base64 snapshotPath cutoffs d = (d', r) → loaded d j →
  (∀ k B, below B (held cur) → journaled k (fd_fs d) B → journaled k (fd_fs d') B) ∧
  (r = Ok tt → ∃ m, fd_cutoffs d' = Some m ∧ keyed m ∧ below (held cur) (held m) ∧
    (∀ k, journaled k (fd_fs d) (held cur) → journaled k (fd_fs d') (held m)) ∧
    ∀ c, c ∈ cutoffs → ∃ v', held m (cutoffKey (vc_validatorId c)) = Some v' ∧ vc_acceptedAboveMs c ≤ v').
Proof.
  intros H Hl.
  assert (keyed cur) as Hk.
  { unfold cur. destruct j; [apply index_cutoffs_keyed|]. split; [constructor|by intros ?? ?%elem_of_nil]. }
  assert (default [] (fd_cutoffs d) = cur ∧ negb (bool_decide (is_Some (fd_cutoffs d))) && existsSync cutoffPath (fd_fs d) = false ∧
    (existsSync cutoffPath (fd_fs d) = true → fd_cutoffs d = Some cur)) as (Hcur & Hskip & Hpresent).
  { unfold loaded in Hl. unfold cur. destruct j as [l|].
    - rewrite Hl. split_and!; [done|by rewrite bool_decide_eq_true_2 by by eexists|done].
    - destruct Hl as [Hv ->]. assert (existsSync cutoffPath (fd_fs d) = false) as ->; [|done].
      apply not_true_iff_false. intros He. apply exists_law in He. rewrite Hv in He. by destruct He. }
  unfold file_initialize, exists_file, fget, set_cutoffs, mbind, SE_bind, mret, SE_ret in H. cbv beta iota zeta in H.
  rewrite Hskip in H. cbv beta iota in H. rewrite Hcur in H.
  match type of H with context [let (_, _) := ?x in _] => destruct x as [next changed] eqn:Hf end.
  destruct (foldl_raise _ _ _ _ _ Hf Hk) as (Kn & Hup & Hall & Hch). cbv beta iota in H. destruct changed.
  - eapply (writeCutoffs_spec _ _ _ next) in H as (Hm & Hj1 & Hok); [|done..]. cbn [fd_fs] in Hj1. split.
    + intros k B HB. apply Hj1. by etrans.
    + intros Hr. exists next. split_and!; [done..| |done]. intros k _. by apply Hok.
  - injection H as <- <-. destruct (Hch eq_refl) as [-> Hne]. apply negb_false_iff in Hne. cbn [fd_fs].
    split; [done|]. intros _. exists cur. by split_and!.
Qed.

(** Every key of the cutoffs of a store is the text of a validator. *)
Definition id_keyed (s : ControlStore) : Prop :=
  map_wf (validatorCutoffs s) ∧ ∀ k v, (k, v) ∈ validatorCutoffs s → ∃ b, k = idKey b.

Lemma merge_spec c s :
  id_keyed s →
  id_keyed (mergeValidatorCutoff c s) ∧ below (stored s) (stored (mergeValidatorCutoff c s)) ∧
  ∃ v', stored (mergeValidatorCutoff c s) (idKey (vc_validatorId c)) = Some v' ∧ vc_acceptedAboveMs c ≤ v'.
Proof.
  intros Hid. unfold mergeValidatorCutoff, stored. set (key := idKey (vc_validatorId c)).
  destruct (match map_get key (validatorCutoffs s) with None => true | Some p => p <? vc_acceptedAboveMs c end) eqn:Hc;
    cbn [validatorCutoffs set_validatorCutoffs].
  - split_and!.
    + split; [apply map_wf_set, Hid|]. cbn [validatorCutoffs set_validatorCutoffs].
      intros k v [[-> ->]|[_ Hin]]%elem_of_map_set; [by eexists|by eapply Hid|apply Hid].
    + intros k v Hv. rewrite map_get_set. case_decide; [|by exists v]. subst. exists (vc_acceptedAboveMs c).
      split; [done|]. rewrite Hv in Hc. lia.
    + exists (vc_acceptedAboveMs c). rewrite map_get_set_eq. split; [done|lia].
  - split_and!; [done..|]. destruct (map_get key (validatorCutoffs s)) as [p|] eqn:Hp; [|done]. exists p. split; [done|lia].
Qed.

Lemma merge_all_spec l s :
  id_keyed s → let s' := foldl (λ s c, mergeValidatorCutoff c s) s l in
  id_keyed s' ∧ below (stored s) (stored s') ∧
  ∀ c, c ∈ l → ∃ v', stored s' (idKey (vc_validatorId c)) = Some v' ∧ vc_acceptedAboveMs c ≤ v'.
Proof.
  revert s. induction l as [|c l IH]; intros s Hid; simpl; [split_and!; [done..|by intros ? ?%elem_of_nil]|].
  destruct (merge_spec c s Hid) as (H1 & H2 & v1 & Hv1 & Hle1). destruct (IH _ H1) as (H3 & H4 & H5).
  split_and!; [done|by etrans|]. intros c' [->|Hin]%elem_of_cons; [|by apply H5].
  destruct (H4 _ _ Hv1) as (v2 & Hv2 & ?). exists v2. split; [done|lia].
Qed.

Lemma listed_elem l k v : listed l k = Some v → ∃ c, c ∈ l ∧ cutoffKey (vc_validatorId c) = k ∧ vc_acceptedAboveMs c = v.
Proof.
  unfold listed, held. destruct (map_get k (index_cutoffs l)) as [c|] eqn:Hc; [|done]. intros [= <-].
  apply map_get_Some_elem in Hc. exists c. destruct (index_cutoffs_keyed l) as [_ Hk]. split_and!; [|by rewrite (Hk _ _ Hc)|done].
  clear Hk. revert k c Hc. unfold index_cutoffs, map_of_entries.
  induction l as [|x l IH] using rev_ind; intros k c; [by intros ?%elem_of_nil|]. rewrite fmap_app, foldl_app.
  intros [[_ ->]|[_ Hin]]%elem_of_map_set; rewrite ?elem_of_app, ?list_elem_of_singleton.
  - by right.
  - left. by eapply IH.
  - clear. induction l as [|y l IH] using rev_ind; [constructor|]. rewrite fmap_app, foldl_app. by apply map_wf_set.
Qed.

Lemma merged_listed l s : id_keyed s → below (listed l) (stored (foldl (λ s c, mergeValidatorCutoff c s) s l)).
Proof.
  intros Hid k v (c & Hc & <- & <-)%listed_elem. destruct (merge_all_spec l s Hid) as (_ & _ & H). by apply H.
Qed.

Lemma restore_id_keyed maximum snap : id_keyed (restore_state maximum snap).
Proof.
  unfold id_keyed, restore_state. set (s := {| sequence := _ |}).
  assert (validatorCutoffs (trimDeltas s) = validatorCutoffs s) as -> by (unfold trimDeltas; by case_match).
  cbn [s validatorCutoffs]. induction (default [] (ss_validatorCutoffs snap)) as [|c l [Hwf IH]] using rev_ind;
    [split; [constructor|by intros ?? ?%elem_of_nil]|].
  rewrite foldl_app. cbn [foldl]. split; [by apply map_wf_set|].
  intros k v [[-> _]|[_ Hin]]%elem_of_map_set; [by eexists|by eapply IH|done].
Qed.

Lemma restore_or_recover_spec snap w w' r :
  id_keyed (w_store w) → restore_or_recover snap w = (w', r) → untouched (w_disk w) (w_disk w') ∧ id_keyed (w_store w').
Proof.
  intros _. unfold restore_or_recover, restore. cbv zeta. destruct (verifyRestoredOrder _) as [[]|code].
  { intros [= <- _]. split; [reflexivity|apply restore_id_keyed]. }
  change p_recoverCorruptSnapshot with (Some (file_recover snapshotPath)). cbv beta iota.
  unfold persistence, file_recover, exists_file, fget, mbind, SE_bind, updates, throw. cbn [w_disk w_store].
  destruct (existsSync _ _); cbv beta iota.
  - destruct (quarantine_snapshot snapshotPath (w_disk w)) as [d1 r1] eqn:Hq. apply quarantine_untouched in Hq.
    destruct r1; cbv beta iota; intros [= <- _]; cbn [w_disk w_store]; (split; [done|]); [|apply restore_id_keyed].
    split; [constructor|by intros ?? ?%elem_of_nil].
  - intros [= <- _]. split; [reflexivity|apply restore_id_keyed].
Qed.

Lemma listValidatorCutoffs_covers s m :
  id_keyed s →
  (∀ c, c ∈ listValidatorCutoffs s → ∃ v', held m (cutoffKey (vc_validatorId c)) = Some v' ∧ vc_acceptedAboveMs c ≤ v') →
  below (stored s) (held m).
Proof.
  intros Hid Hall k v Hv. apply map_get_Some_elem in Hv as Hin. destruct (proj2 Hid k v Hin) as [b ->].
  destruct (Hall (mkCutoff b v)) as (v' & Hv' & Hle); [|by exists v'].
  apply list_elem_of_fmap. exists (idKey b, v). split; [|done]. simpl. f_equal. unfold key_bytes_of, idKey.
  by rewrite base64url_decode_encode.
Qed.

(** A machine that is switched off: what is on its disk is what will be read. *)
Definition settled (f : F) : Prop := ∀ c, survives f cutoffPath c → c = view f cutoffPath.

Definition fresh_process (f : F) : FileDisk F := mkFileDisk f None false false.

Lemma settled_journaled k f B : settled f → journal (view f cutoffPath) B → journaled k f B.
Proof. intros Hs Hj c Hc. destruct k; simpl in Hc; [by rewrite (Hs c Hc)|by subst c]. Qed.

(** After the journal was read: the rest of the constructor. *)
Lemma constructor_rest clean j w0 w r durable promises D B (cur := default [] (index_cutoffs <$> j)) :
  loaded (w_disk w0) j → id_keyed (w_store w0) → honoured promises B → honoured durable D → below D B →
  below B (held cur) → journaled process_kill (fd_fs (w_disk w0)) (held cur) → journaled machine_crash (fd_fs (w_disk w0)) D →
  (clean = true → journaled machine_crash (fd_fs (w_disk w0)) (held cur)) →
  (updates (λ s, foldl (λ s c, mergeValidatorCutoff c s) s (default [] j)) ;;
    cutoffs ← reads listValidatorCutoffs;
    optionally p_initializeValidatorCutoffs cutoffs) w0 = (w, r) →
  (journaled process_kill (fd_fs (w_disk w)) B ∧ journaled machine_crash (fd_fs (w_disk w)) D) ∧
  (r = Ok tt → running clean w durable promises).
Proof.
  intros Hl Hid Hp Hh HDB HB Hj Hd Hclean. set (s := foldl (λ s c, mergeValidatorCutoff c s) (w_store w0) (default [] j)).
  destruct (merge_all_spec (default [] j) (w_store w0) Hid) as (Hid' & _ & _). fold s in Hid'.
  assert (below (held cur) (stored s)) as Hs.
  { unfold s, cur. destruct j as [l|]; [by apply merged_listed|]. by intros k v. }
  unfold updates, reads, optionally, persistence, mbind, SE_bind. cbv beta iota. cbn [w_store w_disk]. fold s.
  change p_initializeValidatorCutoffs with (Some (file_initialize buffer_from_base64 snapshotPath)). cbv beta iota.
  cbn [w_store w_disk]. destruct (file_initialize _ _ _ (w_disk w0)) as [d' r'] eqn:Hi.
  destruct (file_initialize_spec _ _ _ _ _ Hi Hl) as [Hkeep Hok]. fold cur in Hkeep, Hok.
  intros [= <- <-]. cbn [w_disk w_store].
  split; [split; [eapply Hkeep, journaled_below; done|by apply Hkeep; [etrans|]]|].
  destruct r' as [[]|e]; [|done]. intros _. destruct (Hok eq_refl) as (m & Hm & Hk & Hup & Hall & Hcov).
  exists m, (if clean then held m else D). cbn [w_disk w_store]. split_and!; [done|done|by apply Hall| | | | | |].
  - destruct clean; [by apply Hall, Hclean|]. apply Hkeep; [by etrans|done].
  - destruct clean; [done|]. etrans; [exact HDB|by etrans].
  - by intros ->.
  - by apply listValidatorCutoffs_covers.
  - eapply honoured_below; [exact Hp|]. by etrans.
  - destruct clean; [|done]. eapply honoured_below; [exact Hh|]. etrans; [exact HDB|by etrans].
Qed.

Lemma constructor_spec clean f durable promises D B maximum w r :
  (clean = true → settled f) → journaled process_kill f B → journaled machine_crash f D → below D B →
  honoured promises B → honoured durable D → new_ControlStore maximum (fresh_process f) = (w, r) →
  (journaled process_kill (fd_fs (w_disk w)) B ∧ journaled machine_crash (fd_fs (w_disk w)) D) ∧
  (r = Ok tt → running clean w durable promises).
Proof.
  intros Hset Hj Hd HDB Hp Hh. unfold new_ControlStore.
  destruct (_ || _); [intros [= <- <-]; by split|].
  change p_loadValidatorCutoffs with (Some (file_load_cutoffs buffer_from_base64 snapshotPath)). cbv beta iota.
  unfold mbind at 1, SE_bind at 1, persistence at 1. cbn [w_disk w_store].
  destruct (file_load_cutoffs _ _ (fresh_process f)) as [d1 r1] eqn:H1.
  destruct (file_load_cutoffs_spec _ _ _ _ _ B H1) as [K1 Hr1]; [by apply journaled_view|].
  assert (journaled process_kill (fd_fs d1) B ∧ journaled machine_crash (fd_fs d1) D) as Hjd1
    by (split; by eapply journaled_keeps).
  destruct r1 as [j|e]; [|intros [= <- <-]; by split]. destruct Hr1 as (Hl1 & HB & Hview). cbv beta iota.
  set (cur := default [] (index_cutoffs <$> j)) in *.
  assert (∀ k, (k = machine_crash → clean = true) → journaled k (fd_fs d1) (held cur)) as Hcur.
  { intros k Hk. eapply journaled_keeps; [exact K1|]. destruct k; [by apply settled_journaled; [apply Hset, Hk|]|by apply journaled_view]. }
  unfold mbind at 1, SE_bind at 1, persistence at 1. cbn [w_disk w_store].
  change p_load with (file_load buffer_from_base64 snapshotPath).
  destruct (file_load _ _ d1) as [d2 r2] eqn:H2. apply file_load_untouched in H2.
  assert (∀ d k X, untouched d1 d → journaled k (fd_fs d1) X → journaled k (fd_fs d) X) as Hmove
    by (intros d k X [_ K]; by apply journaled_keeps).
  destruct r2 as [snap|e]; [|intros [= <- <-]; split; [split; by apply Hmove, Hjd1|done]]. cbv beta iota.
  assert (∃ w3 r3, (match snap with Some snap => restore_or_recover snap | None => mret tt end)
    (mkWorld (empty_store maximum) d2) = (w3, r3) ∧ untouched d1 (w_disk w3) ∧ id_keyed (w_store w3)) as
    (w3 & r3 & H3 & U3 & I3).
  { assert (id_keyed (empty_store maximum)) as He by (split; [constructor|by intros ?? ?%elem_of_nil]).
    destruct snap as [snap|]; [|by eexists _, _].
    destruct (restore_or_recover snap _) as [w3 r3] eqn:H3. exists w3, r3. split; [done|].
    apply restore_or_recover_spec in H3 as [U3 I3]; [|done]. split; [by etrans|done]. }
  unfold mbind at 1, SE_bind at 1. rewrite H3. destruct r3 as [[]|e].
  - intros H. eapply constructor_rest; [| | | | | | | | |exact H]; [by eapply loaded_untouched|done..| | |].
    + apply Hmove; [done|by apply Hcur].
    + apply Hmove; [done|apply Hjd1].
    + intros Hc. apply Hmove; [done|by apply Hcur].
  - intros [= <- <-]. split; [|done]. split; by apply Hmove, Hjd1.
Qed.

(** ** Lifetimes of a validator's machine *)

(** [off clean f durable promises]: no process runs, with the disk [f]; [on clean w
    durable promises]: one runs.  It is clean when it is the first since the machine was
    started.  [promises] are the cutoffs that count as acknowledged: a clean process also
    acknowledges them as [durable], and those are what counts after the machine crashed.
    When only the process ended, the next one finds the disk as it was left.
    A process that was started after another one was killed may acknowledge a cutoff
    that it only read, which a later crash can take back ([killed_process_loses_cutoff]):
    its acknowledgements count until the machine crashes. *)
Inductive off : bool → F → list (bytes * Z) → list (bytes * Z) → Prop :=
  | off_new f : settled f → off true f [] []
  | off_crashed clean w durable promises f : on clean w durable promises → crash (fd_fs (w_disk w)) f → off true f durable durable
  | off_killed clean w durable promises f : on clean w durable promises → (∀ q, keeps (fd_fs (w_disk w)) f q) →
  off false f durable promises
  | off_failed_crashed clean f durable promises maximum w e f' :
  off clean f durable promises → new_ControlStore maximum (fresh_process f) = (w, Err e) →
  crash (fd_fs (w_disk w)) f' → off true f' durable durable
  | off_failed clean f durable promises maximum w e f' :
  off clean f durable promises → new_ControlStore maximum (fresh_process f) = (w, Err e) →
  (∀ q, keeps (fd_fs (w_disk w)) f' q) → off false f' durable promises
  with on : bool → world (FileDisk F) → list (bytes * Z) → list (bytes * Z) → Prop :=
  | on_started clean f durable promises maximum w :
  off clean f durable promises → new_ControlStore maximum (fresh_process f) = (w, Ok tt) → on clean w durable promises
  | on_step clean c w durable promises : on clean w durable promises →
  on clean (exec c w) (if clean then promises_after c w durable else durable) (promises_after c w promises).

Scheme off_mut := Induction for off Sort Prop
  with on_mut := Induction for on Sort Prop.

Definition off_safe (clean : bool) (f : F) (durable promises : list (bytes * Z)) : Prop :=
  (clean = true → settled f) ∧
  ∃ D B, honoured promises B ∧ honoured durable D ∧ below D B ∧ journaled process_kill f B ∧ journaled machine_crash f D.

Lemma crash_safe f f' durable D : crash f f' → honoured durable D → journaled machine_crash f D → off_safe true f' durable durable.
Proof.
  intros Hc Hp Hj. assert (settled f') as Hset by (intros c Hs; by eapply crash_law). split; [done|]. exists D, D.
  assert (journal (view f' cutoffPath) D) as Hv by (apply Hj; by exists f'). split_and!; [done..| |]; by apply settled_journaled.
Qed.

Lemma on_running clean w durable promises : on clean w durable promises → running clean w durable promises.
Proof.
  intros H. apply (on_mut (λ c f d p _, off_safe c f d p) (λ c w d p _, running c w d p)) with (o := H); clear clean w durable promises H.
  - intros f Hs. split; [done|]. exists (λ _, None), (λ _, None). split_and!; [by intros ?? ?%elem_of_nil..|done| |];
      (apply settled_journaled; [done|]); (destruct (view f cutoffPath); simpl; [by intros l _ k v|done]).
  - intros clean w durable promises f _ (m & D & _ & [_ Hd] & _ & _ & _ & Hh) Hc. by eapply crash_safe.
  - intros clean w durable promises f _ (m & D & _ & [Hj Hd] & [HDm _] & Hb & Hp & Hh) Hk. split; [done|]. exists D, (held m).
    split_and!; try done; [by eapply honoured_below|eapply journaled_keeps; [apply Hk|done]..].
  - intros clean f durable promises maximum w e f' _ (Hs & D & B & Hp & Hh & HDB & Hj & Hd) Hn Hc.
    destruct (constructor_spec _ _ _ _ _ _ _ _ _ Hs Hj Hd HDB Hp Hh Hn) as [[_ Hd'] _]. by eapply crash_safe.
  - intros clean f durable promises maximum w e f' _ (Hs & D & B & Hp & Hh & HDB & Hj & Hd) Hn Hk.
    destruct (constructor_spec _ _ _ _ _ _ _ _ _ Hs Hj Hd HDB Hp Hh Hn) as [[Hj' Hd'] _]. split; [done|]. exists D, B.
    split_and!; try done; (eapply journaled_keeps; [apply Hk|done]).
  - intros clean f durable promises maximum w _ (Hs & D & B & Hp & Hh & HDB & Hj & Hd) Hn.
    destruct (constructor_spec _ _ _ _ _ _ _ _ _ Hs Hj Hd HDB Hp Hh Hn) as [_ Hr]. by apply Hr.
  - intros clean c w durable promises _. apply exec_running.
Qed.

(** What is durable counts in any case. *)
Lemma durable_promises clean w durable promises : on clean w durable promises → durable ⊆ promises.
Proof.
  intros H. apply (on_mut (λ c f d p _, d ⊆ p) (λ c w d p _, d ⊆ p)) with (o := H); clear clean w durable promises H; try done.
  intros clean c w durable promises _ Hsub. unfold promises_after. destruct clean, c; try done; (case_match; [set_solver|done]).
Qed.
End durability.

(** C5: promises outlive crashes.  On any file system with the guarantees of
    [FileSystemLaws], through any commands, failing writes, processes killed and machines
    crashed at any point (also while the journal is being written), failed starts and
    restarts, a store that runs knows, or knows a higher one than, every cutoff that was
    acknowledged since the machine last crashed, by whatever process, and every cutoff
    that was ever acknowledged by a process which was the first one after a start of the
    machine.  What another process acknowledged before a crash may be lost
    ([killed_process_loses_cutoff]). *)
Theorem promises_outlive_crashes {F : Type} `{!FileSystem text F, !FileSystemLaws text F} buffer_from_base64
    snapshotPath clean w durable promises id v :
  (∀ b, buffer_from_base64 (base64 b) = b) →
  on buffer_from_base64 snapshotPath clean w durable promises → (id, v) ∈ promises ∨ (id, v) ∈ durable →
  ∃ v', validatorCutoff (w_store w) id = Some v' ∧ v ≤ v'.
Proof.
  intros Hb Hon Hin. eapply (durable_promises _ Hb) in Hon as Hsub.
  apply (on_running _ Hb) in Hon as (m & D & _ & _ & _ & _ & Hp & _). apply Hp. destruct Hin; auto.
Qed.

(** ** A run on the cached disk *)

Definition run_disk : Type := FileDisk (nat * CacheDisk text).
#[local] Instance run_fs : FileSystem text (nat * CacheDisk text) := power_cut (FileSystem0 := cache_disk).
#[local] Instance run_fs_laws : FileSystemLaws text (nat * CacheDisk text) :=
  power_cut_laws (FileSystemLaws0 := cache_disk_laws).
#[local] Instance run_persistence : Persistence run_disk PersistenceError :=
  JsonFileControlStorePersistence base64_decode (js "/data/control.json").

(** A process that can make [n] file operations, started on the disk [f]. *)
Definition boot (n : nat) (f : CacheDisk text) : world run_disk * result (StoreError PersistenceError) unit :=
  new_ControlStore 8 (fresh_process (n, f)).
Definition disk_of (w : world run_disk) : CacheDisk text := (fd_fs (w_disk w)).2.

(** A cutoff is acknowledged, the machine crashes and restarts. *)
Definition run_before : world run_disk := exec (PersistValidatorCutoff [x07] 123) (boot 100 []).1.
Definition run_after : world run_disk := (boot 100 (cache_reboot (disk_of run_before))).1.

(** Which process acknowledges matters: a process that is killed, without a crash of the machine,
    after the journal was renamed and before its directory was synced, leaves a
    journal that can be read but is not durable.  The next process takes the
    cutoff from it and acknowledges it without writing; a power failure then
    brings back the old journal. *)
Definition killed : world run_disk := exec (PersistValidatorCutoff [x07] 200)
  (boot 7 (cache_reboot (disk_of run_before))).1.
Definition restarted : world run_disk := (boot 100 (disk_of killed)).1.
Definition acknowledged : world run_disk := exec (PersistValidatorCutoff [x07] 200) restarted.

Definition journal_name : path := cutoffPath (js "/data/control.json").
Definition old_journal : option text := contents (entry_of (disk_of run_before) journal_name).
Definition old_disk : CacheDisk text := map_set journal_name (Clean old_journal []) (cache_reboot (disk_of acknowledged)).

Lemma old_disk_survives : crash (FileSystem := cache_disk) (disk_of acknowledged) old_disk.
Proof.
  intros p. unfold old_disk. rewrite entry_of_set. case_decide as Hp.
  - subst p. split; [|by eexists]. cbn [contents]. assert (∃ now, entry_of (disk_of acknowledged) journal_name = Clean now [old_journal])
      as [now ->] by (eexists; vm_compute; reflexivity). right. left.
  - apply cache_reboot_crash.
Qed.

Example killed_process_loses_cutoff :
  (persistValidatorCutoff [x07] 200 restarted).2 = Ok tt ∧
  crash (FileSystem := cache_disk) (disk_of acknowledged) old_disk ∧
  (boot 100 old_disk).2 = Ok tt ∧ validatorCutoff (w_store (boot 100 old_disk).1) [x07] = Some 123.
Proof.
  split; [vm_compute; reflexivity|]. split; [exact old_disk_survives|]. split; vm_compute; reflexivity.
Qed.

(** What a kill leaves, and a further process on it: it knows what the restarted one has
    acknowledged, and after the crash that takes this back what the first one has. *)
Definition run_on (clean : bool) (w : world run_disk) (durable promises : list (bytes * Z)) : Prop :=
  on base64_decode (js "/data/control.json") clean w durable promises.

Lemma next_process (n n' : nat) (f : CacheDisk text) q : keeps (FileSystem0 := run_fs) (n, f) (n', f) q.
Proof.
  split; [done| |done]. intros c Hc. apply (power_cut_survives (FileSystem0 := cache_disk)) in Hc.
  by apply (power_cut_survives (FileSystem0 := cache_disk)).
Qed.

Lemma first_boot : run_on true (boot 100 []).1 [] [].
Proof.
  apply (on_started _ _ true (100%nat, []) _ _ 8); [|vm_compute; reflexivity]. apply off_new. intros c Hc.
  apply (power_cut_survives (FileSystem0 := cache_disk)), cache_survives in Hc.
  destruct Hc as [Hc|Hc%elem_of_nil]; [exact Hc|destruct Hc].
Qed.

#[local] Abbreviation acks c w promises := (promises_after base64_decode (js "/data/control.json") c w promises).

Lemma run_step clean c w durable promises durable' promises' : run_on clean w durable promises →
  (if clean then acks c w durable else durable) = durable' → acks c w promises = promises' →
  run_on clean (exec c w) durable' promises'.
Proof. intros H <- <-. by apply on_step. Qed.

Lemma run_before_on : run_on true run_before [([x07], 123)] [([x07], 123)].
Proof. eapply (run_step true (PersistValidatorCutoff [x07] 123)); [exact first_boot|vm_compute; reflexivity..]. Qed.

Lemma killed_on : run_on true killed [([x07], 123)] [([x07], 123)].
Proof.
  eapply (run_step true (PersistValidatorCutoff [x07] 200)); [|vm_compute; reflexivity..].
  apply (on_started _ _ true (7%nat, cache_reboot (disk_of run_before)) _ _ 8); [|vm_compute; reflexivity].
  exact (off_crashed _ _ true run_before _ _ (7%nat, _) run_before_on (cache_reboot_crash (disk_of run_before))).
Qed.

Lemma acknowledged_on : run_on false acknowledged [([x07], 123)] [([x07], 200); ([x07], 123)].
Proof.
  eapply (run_step false (PersistValidatorCutoff [x07] 200)); [|reflexivity|vm_compute; reflexivity].
  apply (on_started _ _ false (100%nat, disk_of killed) _ _ 8); [|vm_compute; reflexivity].
  apply (off_killed _ _ true killed _ _ _ killed_on).
  intros q. change (keeps (FileSystem0 := run_fs) (fd_fs (w_disk killed)) (100%nat, disk_of killed) q).
  rewrite (surjective_pairing (fd_fs (w_disk killed))). apply next_process.
Qed.

Lemma promises_outlive_crashes_witness :
  (∃ v', validatorCutoff (w_store acknowledged) [x07] = Some v' ∧ 200 ≤ v') ∧
  ∃ v', validatorCutoff (w_store (boot 100 old_disk).1) [x07] = Some v' ∧ 123 ≤ v'.
Proof.
  split.
  - apply (promises_outlive_crashes base64_decode (js "/data/control.json") false acknowledged _ _ [x07] 200
      base64_decode_encode acknowledged_on). left; left.
  - apply (promises_outlive_crashes base64_decode (js "/data/control.json") true _ [([x07], 123)] [([x07], 123)] [x07] 123
      base64_decode_encode); [|left; left].
    apply (on_started _ _ true (100%nat, old_disk) _ _ 8); [|vm_compute; reflexivity].
    exact (off_crashed _ _ false acknowledged _ _ (100%nat, old_disk) acknowledged_on old_disk_survives).
Defined.
