(* ===== verification/Logical.v ===== *)
(** * Logical values and types: [packages/ir/src/codec.ts]

    The values transactions bind and results carry, the types columns declare,
    and their CBOR forms.  A JavaScript number that the code requires to be an
    unsigned safe integer is a [Z] with that check.  A value of the inductive
    type cannot be cyclic, so the ancestors [assertJson] keeps are left out. *)

From Stdlib Require Import Strings.Byte Strings.String.
From stdpp Require Import base list option numbers.
From S2P Require Import Prelude JsMap Bytes Text JsNumber Cbor CborProofs Schema.

#[local] Open Scope Z_scope.

(** ** Data: [packages/ir/src/types.ts] *)

Inductive VectorElementType := i8 | u8 | i16 | i32 | f32 | f64.

#[export] Instance VectorElementType_eq_dec : EqDecision VectorElementType.
Proof. solve_decision. Defined.

#[local] Set Warnings "-register-all".
Inductive CanonicalJsonValue :=
  | JNull
  | JBool (b : bool)
  | JInt (z : Z)
  | JDecimal (coefficient scale : Z)
  | JString (s : jsstring)
  | JArray (l : list CanonicalJsonValue)
  | JMap (m : list (jsstring * CanonicalJsonValue)).

Inductive LogicalValue :=
  | LNull
  | LBoolean (b : bool)
  | LInt64 (value : Z)
  | LDecimal (coefficient scale : Z)
  | LText (utf8 : bytes)
  | LBlob (b : bytes)
  | LUuid (b : bytes)
  | LTimestamp (value : Z)
  | LDuration (value : Z)
  | LJson (value : CanonicalJsonValue)
  | LVector (element : VectorElementType) (dimensions : Z) (b : bytes).

Inductive LogicalType :=
  | TBoolean
  | TInt64
  | TDecimal (precision scale : Z)
  | TText (collation : jsstring)
  | TBlob (maxBytes : option Z)
  | TUuid
  | TTimestamp
  | TDuration
  | TJson
  | TVector (element : VectorElementType) (dimensions : Z).

(** What these codecs throw: a coded error, the plain errors for an unknown tag,
    or the [TypeError] of a fatal [TextDecoder]. *)
Inductive CodecError :=
  | Coded (code : ErrorCode)
  | IR_UNKNOWN_LOGICAL_VALUE_TAG (tag : Z)
  | IR_UNKNOWN_LOGICAL_TYPE_TAG (tag : Z)
  | InvalidTextBytes.

Definition coded {A} (r : result ErrorCode A) : result CodecError A :=
  match r with Ok a => Ok a | Err code => Err (Coded code) end.

(** [canonicalInvariant(condition, 'SCHEMA_INVALID', ...)] *)
Definition schema (condition : bool) : result CodecError unit := ensure condition (Coded SCHEMA_INVALID).

(** [items[i] ?? null] *)
Definition item (items : list CborValue) (i : nat) : CborValue := default CNull (items !! i).

(** ** Numbers *)

Definition is_uint (value : Z) : bool := (0 <=? value) && (value <=? MAX_SAFE_INTEGER).

Definition assertUint (value : Z) : result CodecError unit := schema (is_uint value).
Definition uint (value : Z) : result CodecError CborValue := assertUint value ≫= λ _, Ok (CInt value).

Definition safeUint (value : CborValue) : result CodecError Z :=
  amount ← coded (expectBigint value); schema (is_uint amount) ≫= λ _, Ok amount.

Definition safeNumber (value : Z) : result CodecError Z :=
  schema (Z.abs value <=? MAX_SAFE_INTEGER) ≫= λ _, Ok value.

Definition tag_of (items : list CborValue) : result CodecError Z :=
  z ← coded (expectBigint (item items 0)); safeNumber z.

Definition is_int64 (value : Z) : bool := (- 2 ^ 63 <=? value) && (value <=? 2 ^ 63 - 1).

(** ** Tables *)

Definition VECTOR_ELEMENTS : list VectorElementType := [i8; u8; i16; i32; f32; f64].
Definition VECTOR_WIDTH (e : VectorElementType) : Z :=
  match e with i8 | u8 => 1 | i16 => 2 | i32 | f32 => 4 | f64 => 8 end.
(** [VECTOR_ELEMENTS.indexOf(element)] *)
Definition element_index (e : VectorElementType) : Z :=
  match list_find (λ x, x = e) VECTOR_ELEMENTS with Some (i, _) => Z.of_nat i | None => -1 end.

(** [VECTOR_ELEMENTS[safeUint(value)]] *)
Definition element_at (value : CborValue) : result CodecError VectorElementType :=
  i ← safeUint value;
  match VECTOR_ELEMENTS !! Z.to_nat i with Some e => Ok e | None => Err (Coded SCHEMA_INVALID) end.

(** The part of the collation pattern after [registered:], a decimal without
    leading zeros. *)
Definition registered_number (s : jsstring) : bool :=
  match s with
  | [] => false
  | [c] => is_digit c
  | c :: rest => (49 <=? c) && (c <=? 57) && forallb is_digit rest
  end.

Definition isCollationId (value : jsstring) : bool :=
  bool_decide (value ∈ [js "binary"; js "nocase"; js "rtrim"; js "unicode_codepoint"]) ||
  (bool_decide (take 11 value = js "registered:") && registered_number (drop 11 value)).

(** ** JSON *)

Fixpoint assertJson (value : CanonicalJsonValue) : result CodecError unit :=
  match value with
  | JNull | JBool _ | JInt _ | JString _ => Ok tt
  | JArray l => mapR assertJson l ≫= λ _, Ok tt
  | JMap m => mapR (λ e, match e with (_, v) => assertJson v end) m ≫= λ _, Ok tt
  | JDecimal _ scale => assertUint scale
  end.

Fixpoint jsonToCbor (value : CanonicalJsonValue) : result CodecError CborValue :=
  match value with
  | JNull => Ok CNull
  | JBool b => Ok (CBool b)
  | JInt z => Ok (CInt z)
  | JString s => Ok (CText s)
  | JArray l => items ← mapR jsonToCbor l; Ok (CArray items)
  | JMap m =>
      entries ← mapR (λ e, match e with (key, v) => c ← jsonToCbor v; Ok (KText key, c) end) m;
      Ok (CMap (map_of_entries entries))
  | JDecimal coefficient scale => s ← uint scale; Ok (CArray [CInt 3; CInt coefficient; s])
  end.

Fixpoint jsonFromCbor (value : CborValue) : result CodecError CanonicalJsonValue :=
  match value with
  | CNull => Ok JNull
  | CBool b => Ok (JBool b)
  | CInt z => Ok (JInt z)
  | CText s => Ok (JString s)
  | CBytes _ => Err (Coded SCHEMA_INVALID)
  | CMap m =>
      entries ← mapR (λ e, match e with (key, v) =>
        match key with
        | KText k => j ← jsonFromCbor v; Ok (k, j)
        | _ => Err (Coded SCHEMA_INVALID)
        end end) m;
      Ok (JMap (map_of_entries entries))
  | CArray items =>
      match items with
      | [CInt 3; c; s] =>
          coefficient ← coded (expectBigint c); scale ← safeUint s; Ok (JDecimal coefficient scale)
      | _ => l ← mapR jsonFromCbor items; Ok (JArray l)
      end
  end.

(** ** Values *)

Definition assertLogicalValue (value : LogicalValue) : result CodecError unit :=
  match value with
  | LNull | LBoolean _ | LBlob _ => Ok tt
  | LInt64 z | LTimestamp z | LDuration z => schema (is_int64 z)
  | LDecimal _ scale => assertUint scale
  | LText b => coded (decodeUtf8 b) ≫= λ _, Ok tt
  | LUuid b => schema (length b =? 16)%nat
  | LJson v => assertJson v
  | LVector element dimensions b =>
      assertUint dimensions ≫= λ _,
      schema (0 <? dimensions) ≫= λ _,
      schema (zlen b =? dimensions * VECTOR_WIDTH element)
  end.

Definition logicalValueToCanonicalCbor (value : LogicalValue) : result CodecError CborValue :=
  assertLogicalValue value ≫= λ _,
  match value with
  | LNull => Ok (CArray [CInt 0])
  | LBoolean b => Ok (CArray [CInt 1; CBool b])
  | LInt64 z => Ok (CArray [CInt 2; CInt z])
  | LDecimal coefficient scale => s ← uint scale; Ok (CArray [CInt 3; CInt coefficient; s])
  | LText b => s ← coded (decodeUtf8 b); Ok (CArray [CInt 4; CText s])
  | LBlob b => Ok (CArray [CInt 5; CBytes b])
  | LUuid b => Ok (CArray [CInt 6; CBytes b])
  | LTimestamp z => Ok (CArray [CInt 7; CInt z])
  | LDuration z => Ok (CArray [CInt 8; CInt z])
  | LJson v => j ← jsonToCbor v; Ok (CArray [CInt 9; j])
  | LVector element dimensions b =>
      d ← uint dimensions; Ok (CArray [CInt 10; CInt (element_index element); d; CBytes b])
  end.

Definition logicalValueFromCanonicalCbor (value : CborValue) : result CodecError LogicalValue :=
  items ← coded (expectArray value);
  tag ← tag_of items;
  let has (t : Z) (n : nat) := (tag =? t) && (length items =? n)%nat in
  decoded ←
    (if has 0 1%nat then Ok LNull
     else if has 1 2%nat then b ← coded (expectBoolean (item items 1)); Ok (LBoolean b)
     else if has 2 2%nat then z ← coded (expectBigint (item items 1)); Ok (LInt64 z)
     else if has 3 3%nat then
       c ← coded (expectBigint (item items 1)); s ← safeUint (item items 2); Ok (LDecimal c s)
     else if has 4 2%nat then
       s ← coded (expectString (item items 1)); b ← coded (utf8 s); Ok (LText b)
     else if has 5 2%nat then b ← coded (expectBytes (item items 1) None); Ok (LBlob b)
     else if has 6 2%nat then b ← coded (expectBytes (item items 1) (Some 16%nat)); Ok (LUuid b)
     else if has 7 2%nat then z ← coded (expectBigint (item items 1)); Ok (LTimestamp z)
     else if has 8 2%nat then z ← coded (expectBigint (item items 1)); Ok (LDuration z)
     else if has 9 2%nat then j ← jsonFromCbor (item items 1); Ok (LJson j)
     else if has 10 4%nat then
       e ← element_at (item items 1); d ← safeUint (item items 2);
       b ← coded (expectBytes (item items 3) None); Ok (LVector e d b)
     else Err (IR_UNKNOWN_LOGICAL_VALUE_TAG tag));
  assertLogicalValue decoded ≫= λ _, Ok decoded.

(** ** Types *)

Definition assertLogicalType (value : LogicalType) : result CodecError unit :=
  match value with
  | TBoolean | TInt64 | TUuid | TTimestamp | TDuration | TJson => Ok tt
  | TDecimal precision scale =>
      assertUint precision ≫= λ _, assertUint scale ≫= λ _,
      schema ((0 <? precision) && (scale <=? precision))
  | TText collation => schema (isCollationId collation)
  | TBlob maxBytes => match maxBytes with Some n => assertUint n | None => Ok tt end
  | TVector _ dimensions => assertUint dimensions ≫= λ _, schema (0 <? dimensions)
  end.

Definition logicalTypeToCanonicalCbor (value : LogicalType) : result CodecError CborValue :=
  assertLogicalType value ≫= λ _,
  match value with
  | TBoolean => Ok (CArray [CInt 16])
  | TInt64 => Ok (CArray [CInt 17])
  | TDecimal precision scale => p ← uint precision; s ← uint scale; Ok (CArray [CInt 18; p; s])
  | TText collation => Ok (CArray [CInt 19; CText collation])
  | TBlob maxBytes =>
      n ← match maxBytes with None => Ok CNull | Some n => uint n end; Ok (CArray [CInt 20; n])
  | TUuid => Ok (CArray [CInt 21])
  | TTimestamp => Ok (CArray [CInt 22])
  | TDuration => Ok (CArray [CInt 23])
  | TJson => Ok (CArray [CInt 24])
  | TVector element dimensions =>
      d ← uint dimensions; Ok (CArray [CInt 25; CInt (element_index element); d])
  end.

Definition logicalTypeFromCanonicalCbor (value : CborValue) : result CodecError LogicalType :=
  items ← coded (expectArray value);
  tag ← tag_of items;
  let has (t : Z) (n : nat) := (tag =? t) && (length items =? n)%nat in
  decoded ←
    (if has 16 1%nat then Ok TBoolean
     else if has 17 1%nat then Ok TInt64
     else if has 18 3%nat then p ← safeUint (item items 1); s ← safeUint (item items 2); Ok (TDecimal p s)
     else if has 19 2%nat then s ← coded (expectString (item items 1)); Ok (TText s)
     else if has 20 2%nat then
       match item items 1 with CNull => Ok (TBlob None) | v => n ← safeUint v; Ok (TBlob (Some n)) end
     else if has 21 1%nat then Ok TUuid
     else if has 22 1%nat then Ok TTimestamp
     else if has 23 1%nat then Ok TDuration
     else if has 24 1%nat then Ok TJson
     else if has 25 3%nat then
       e ← element_at (item items 1); d ← safeUint (item items 2); Ok (TVector e d)
     else Err (IR_UNKNOWN_LOGICAL_TYPE_TAG tag));
  assertLogicalType decoded ≫= λ _, Ok decoded.

(** ** Bytes *)

Definition IR_DECODE_LIMITS : DecodeLimits := {|
    maxBytes := 8 * 1024 * 1024;
    maxDepth := 96;
    maxArrayItems := 100000;
    maxMapItems := 100000;
    maxTextBytes := 2 * 1024 * 1024;
    maxBlobBytes := 8 * 1024 * 1024;
    |}.

Definition encodeLogicalValue (value : LogicalValue) : result CodecError bytes :=
  v ← logicalValueToCanonicalCbor value; coded (encodeCanonicalCbor v).

Definition decodeLogicalValue (limits : DecodeLimits) (b : bytes) : result CodecError LogicalValue :=
  v ← coded (assertCanonicalCbor limits b); logicalValueFromCanonicalCbor v.

Definition encodeLogicalValues (values : list LogicalValue) : result CodecError bytes :=
  vs ← mapR logicalValueToCanonicalCbor values; coded (encodeCanonicalCbor (CArray vs)).

Definition decodeLogicalValues (limits : DecodeLimits) (b : bytes) : result CodecError (list LogicalValue) :=
  v ← coded (assertCanonicalCbor limits b);
  items ← coded (expectArray v);
  mapR logicalValueFromCanonicalCbor items.
