(* ===== verification/LogicalTheorems.v ===== *)
(** * Logical values: what their codec keeps apart

    The codec of [Logical] is exact on the values it can represent: a decoded
    value encodes to what was read, and a value is read back unless it holds a
    JSON array that looks like a decimal or a text that starts with a byte order
    mark.  The two exceptions are real and are shown at the end. *)

From Stdlib Require Import Strings.Byte Strings.String.
From stdpp Require Import base list option numbers sets.
From S2P Require Import Prelude JsMap Bytes Text JsNumber Cbor CborProofs Schema Logical.

#[local] Open Scope Z_scope.

(** ** Vocabulary *)

Definition encodable (v : CborValue) : Prop := ∃ b, encodeCanonicalCbor v = Ok b.

(** An array of three items whose first is the integer 3 is the form of a decimal. *)
Definition decimal_shaped (l : list CanonicalJsonValue) : bool :=
  match l with [JInt 3; _; _] => true | _ => false end.

Fixpoint json_plain (j : CanonicalJsonValue) : bool :=
  match j with
  | JArray l => negb (decimal_shaped l) && forallb json_plain l
  | JMap m => bool_decide (NoDup m.*1) && forallb (λ e, json_plain e.2) m
  | _ => true
  end.

Definition logical_plain (v : LogicalValue) : bool :=
  match v with
  | LJson j => json_plain j
  | LText b => negb (bool_decide (take 3 b = BOM))
  | _ => true
  end.

(** ** Lemmas *)

Lemma logical_json_ind (P : CanonicalJsonValue → Prop) :
  P JNull → (∀ b, P (JBool b)) → (∀ z, P (JInt z)) → (∀ c s, P (JDecimal c s)) → (∀ s, P (JString s)) →
  (∀ l, Forall P l → P (JArray l)) → (∀ m, Forall (λ e, P e.2) m → P (JMap m)) → ∀ j, P j.
Proof.
  intros H1 H2 H3 H4 H5 H6 H7. fix IH 1.
  intros [ | | | | |l|m]; [exact H1|apply H2|apply H3|apply H4|apply H5| |].
  - apply H6. induction l as [|x l IHl]; constructor; [apply IH|exact IHl].
  - apply H7. induction m as [|[k x] m IHm]; constructor; [apply IH|exact IHm].
Qed.

Lemma coded_Ok {A} (r : result ErrorCode A) a : coded r = Ok a ↔ r = Ok a.
Proof. destruct r; simpl; split; congruence. Qed.

Lemma schema_Ok b u : schema b = Ok u ↔ b = true.
Proof. apply ensure_Ok. Qed.

Lemma uint_Ok n v : uint n = Ok v ↔ v = CInt n ∧ is_uint n = true.
Proof.
  unfold uint, assertUint, schema. destruct (is_uint n); simpl; split; try naive_solver congruence.
Qed.

Lemma safeUint_Ok v n : safeUint v = Ok n ↔ v = CInt n ∧ is_uint n = true.
Proof.
  unfold safeUint. split.
  - intros H. inv_ok. subst. rewrite coded_Ok, expectBigint_Ok, schema_Ok in *. naive_solver.
  - intros [-> H]. cbn [expectBigint coded mbind result_bind]. by rewrite (proj2 (schema_Ok _ tt)).
Qed.

Lemma tag_of_Ok items t : tag_of items = Ok t ↔ item items 0 = CInt t ∧ Z.abs t ≤ MAX_SAFE_INTEGER.
Proof.
  unfold tag_of, safeNumber. split.
  - intros H. inv_ok. subst. rewrite coded_Ok, expectBigint_Ok, schema_Ok in *.
    split; [done|by apply Z.leb_le].
  - intros [-> H]. cbn [expectBigint coded mbind result_bind].
    by rewrite (proj2 (schema_Ok _ tt)) by (by apply Z.leb_le).
Qed.

Lemma lookup_element_index i e : VECTOR_ELEMENTS !! i = Some e → element_index e = Z.of_nat i.
Proof. do 6 (destruct i as [|i]; [by intros [= <-]|]). done. Qed.

Lemma element_at_Ok v e : element_at v = Ok e ↔ v = CInt (element_index e).
Proof.
  unfold element_at. split.
  - intros H. inv_ok. rename x into i. rewrite safeUint_Ok in *. destruct_and!. subst.
    destruct (VECTOR_ELEMENTS !! Z.to_nat i) as [e'|] eqn:Hi; [|done]. inv_ok. subst.
    apply lookup_element_index in Hi. unfold is_uint in *. f_equal. lia.
  - intros ->. by destruct e.
Qed.

(** ** JSON *)

(** Every element of a mapped list was mapped. *)
Lemma mapR_elem {E A B} (f : A → result E B) l l' x :
  mapR f l = Ok l' → x ∈ l → ∃ y, y ∈ l' ∧ f x = Ok y.
Proof.
  rewrite mapR_Ok. intros Hl Hx. apply list_elem_of_lookup in Hx as [i Hi].
  destruct (Forall2_lookup_l _ _ _ _ _ Hl Hi) as (y & Hy & Hf). exists y.
  split; [by eapply list_elem_of_lookup_2|done].
Qed.

Lemma jsonToCbor_asserted j : ∀ v, jsonToCbor j = Ok v → assertJson j = Ok tt.
Proof.
  induction j as [| | |c s| |l IH|m IH] using logical_json_ind; intros v H; try done; simpl in *.
  - inv_ok. rewrite uint_Ok in *. destruct_and!. by apply schema_Ok.
  - inv_ok. rewrite (mapR_total _ (λ _, tt)); [done|]. apply Forall_forall. intros y Hy.
    rewrite Forall_forall in IH. rename select (mapR _ l = Ok _) into Hl.
    destruct (mapR_elem _ _ _ _ Hl Hy) as (w & _ & Hw). by eapply IH.
  - inv_ok. rewrite (mapR_total _ (λ _, tt)); [done|]. apply Forall_forall. intros [k y] Hy.
    rewrite Forall_forall in IH. rename select (mapR _ m = Ok _) into Hm.
    destruct (mapR_elem _ _ _ _ Hm Hy) as (w & _ & Hw). inv_ok. by eapply (IH (k, y)).
Qed.

Lemma encodable_array l v : encodable (CArray l) → v ∈ l → encodable v.
Proof. intros [b Hb] Hv. destruct (encode_array_item _ _ _ Hb Hv) as (c & Hc & _). by exists c. Qed.

Lemma encodable_map m k v : encodable (CMap m) → (k, v) ∈ m → encodable v.
Proof. intros [b Hb] Hv. destruct (encode_map_item _ _ _ _ Hb Hv) as [_ (c & Hc & _)]. by exists c. Qed.

Lemma encodable_keys m : encodable (CMap m) → NoDup m.*1.
Proof. intros [b Hb]. by eapply encode_map_NoDup. Qed.

(** Reading back what was written, and writing back what was read, entry by entry. *)
Lemma mapR_inverse {E A B} (f : A → result E B) (g : B → result E A) l l' :
  mapR f l = Ok l' → (∀ x y, x ∈ l → f x = Ok y → g y = Ok x) → mapR g l' = Ok l.
Proof.
  rewrite !mapR_Ok. intros Hl Hg. apply Forall2_flip.
  eapply Forall2_impl_elem; [|exact Hl]. intros x y Hx _. by apply Hg.
Qed.

(** The entries of an object, on the two sides. *)
Definition entry_matches (P : CborValue → CanonicalJsonValue → Prop)
    (e : CborMapKey * CborValue) (d : jsstring * CanonicalJsonValue) : Prop := e.1 = KText d.1 ∧ P e.2 d.2.

Lemma entry_keys P m es : Forall2 (entry_matches P) m es → m.*1 = KText <$> es.*1.
Proof. induction 1 as [|e d m es [He _] _ IH]; [done|]. rewrite !fmap_cons. by rewrite He, IH. Qed.

Lemma entry_keys_NoDup P m es : Forall2 (entry_matches P) m es → NoDup m.*1 ↔ NoDup es.*1.
Proof.
  intros H. rewrite (entry_keys _ _ _ H). split; [apply NoDup_fmap_1|].
  apply NoDup_fmap_2. by intros ?? [= ->].
Qed.

Lemma entries_read m es : jsonFromCbor (CMap m) = Ok (JMap es) → NoDup m.*1 →
  Forall2 (entry_matches (λ v j, jsonFromCbor v = Ok j)) m es.
Proof.
  cbn [jsonFromCbor]. intros H Hnd. inv_ok. injection H as H. rename x into ds.
  rename select (mapR _ m = Ok ds) into Hm. apply mapR_Ok in Hm.
  assert (Forall2 (entry_matches (λ v j, jsonFromCbor v = Ok j)) m ds) as Hds.
  { eapply Forall2_impl; [exact Hm|]. intros [[] v] d Hd; try done. inv_ok. by subst. }
  rewrite map_of_entries_id in H by (by eapply entry_keys_NoDup). by subst.
Qed.

Lemma entries_written m es : jsonToCbor (JMap es) = Ok (CMap m) → NoDup es.*1 →
  Forall2 (entry_matches (λ v j, jsonToCbor j = Ok v)) m es.
Proof.
  cbn [jsonToCbor]. intros H Hnd. inv_ok. injection H as H. rename x into ds.
  rename select (mapR _ es = Ok ds) into Hm. apply mapR_Ok in Hm.
  assert (Forall2 (entry_matches (λ v j, jsonToCbor j = Ok v)) ds es) as Hds.
  { apply Forall2_flip. eapply Forall2_impl; [exact Hm|]. intros [k j] d Hd. inv_ok. by subst. }
  rewrite map_of_entries_id in H by (by eapply entry_keys_NoDup). by subst.
Qed.

(** Conversely, entries that match are what reading or writing the object gives. *)
Lemma entries_write m es : Forall2 (entry_matches (λ v j, jsonToCbor j = Ok v)) m es → NoDup m.*1 →
  jsonToCbor (JMap es) = Ok (CMap m).
Proof.
  intros H Hnd. cbn [jsonToCbor]. rewrite (proj2 (mapR_Ok _ _ m)).
  - cbn [mbind result_bind]. by rewrite map_of_entries_id.
  - apply Forall2_flip. eapply Forall2_impl; [exact H|]. intros [k v] [t j] [Hk Hj]. cbn [fst snd] in *. subst k.
    simpl. by rewrite Hj.
Qed.

Lemma entries_readable m es : Forall2 (entry_matches (λ v j, jsonFromCbor v = Ok j)) m es → NoDup es.*1 →
  jsonFromCbor (CMap m) = Ok (JMap es).
Proof.
  intros H Hnd. cbn [jsonFromCbor]. rewrite (proj2 (mapR_Ok _ _ es)).
  - cbn [mbind result_bind]. by rewrite map_of_entries_id.
  - eapply Forall2_impl; [exact H|]. intros [k v] [t j] [Hk Hj]. cbn [fst snd] in *. subst k.
    simpl. by rewrite Hj.
Qed.

Lemma mapR_elem_r {E A B} (f : A → result E B) l l' y :
  mapR f l = Ok l' → y ∈ l' → ∃ x, x ∈ l ∧ f x = Ok y.
Proof.
  rewrite mapR_Ok. intros Hl Hy. apply list_elem_of_lookup in Hy as [i Hi].
  destruct (Forall2_lookup_r _ _ _ _ _ Hl Hi) as (x & Hx & Hf). exists x.
  split; [by eapply list_elem_of_lookup_2|done].
Qed.

(** The form of a decimal, on the CBOR side. *)
Definition decimal_form (l : list CborValue) : bool :=
  match l with [CInt 3; _; _] => true | _ => false end.

Lemma decimal_form_true l : decimal_form l = true → ∃ c s, l = [CInt 3; c; s].
Proof.
  destruct l as [|[| |z| | | |] [|c [|s [|]]]]; try done;
    destruct z as [|[[]|[]|]|]; try done; by exists c, s.
Qed.

Lemma decimal_shaped_true l : decimal_shaped l = true → ∃ a b, l = [JInt 3; a; b].
Proof.
  destruct l as [|[| |z| | | |] [|a [|b [|]]]]; try done;
    destruct z as [|[[]|[]|]|]; try done; by exists a, b.
Qed.

Lemma jsonFromCbor_array l : decimal_form l = false →
  jsonFromCbor (CArray l) = (l' ← mapR jsonFromCbor l; Ok (JArray l')).
Proof.
  destruct l as [|[| |z| | | |] [|c [|s [|]]]]; try done; destruct z as [|[[]|[]|]|]; done.
Qed.

Lemma jsonFromCbor_int v z : jsonFromCbor v = Ok (JInt z) → v = CInt z.
Proof.
  destruct v as [| | | | |l|m]; try (simpl; congruence).
  - destruct (decimal_form l) eqn:E.
    + apply decimal_form_true in E as (c & s & ->). intros H. simpl in H. by inv_ok.
    + rewrite jsonFromCbor_array by done. intros H. by inv_ok.
  - simpl. intros H. by inv_ok.
Qed.

Lemma jsonToCbor_int j z : jsonToCbor j = Ok (CInt z) → j = JInt z.
Proof. destruct j; simpl; intros H; inv_ok; congruence. Qed.

Lemma shaped_alike l l' : mapR jsonFromCbor l = Ok l' → decimal_shaped l' = decimal_form l.
Proof.
  rewrite mapR_Ok. intros Hl. destruct (decimal_form l) eqn:E.
  - apply decimal_form_true in E as (c & s & ->).
    apply Forall2_cons_inv_l in Hl as (j & k & Hj & Hk & ->).
    apply Forall2_cons_inv_l in Hk as (j2 & k2 & _ & Hk & ->).
    apply Forall2_cons_inv_l in Hk as (j3 & k3 & _ & Hk & ->). inversion Hk.
    simpl in Hj. by inv_ok; subst.
  - destruct (decimal_shaped l') eqn:E'; [|done]. apply decimal_shaped_true in E' as (a & b & ->).
    apply Forall2_cons_inv_r in Hl as (v & k & ->%jsonFromCbor_int & Hk & ->).
    apply Forall2_cons_inv_r in Hk as (v2 & k2 & _ & Hk & ->).
    apply Forall2_cons_inv_r in Hk as (v3 & k3 & _ & Hk & ->). by inversion Hk; subst.
Qed.

Lemma written_alike l l' : mapR jsonToCbor l = Ok l' → decimal_form l' = decimal_shaped l.
Proof.
  rewrite mapR_Ok. intros Hl. destruct (decimal_form l') eqn:E.
  - apply decimal_form_true in E as (c & s & ->).
    apply Forall2_cons_inv_r in Hl as (j & k & ->%jsonToCbor_int & Hk & ->).
    apply Forall2_cons_inv_r in Hk as (j2 & k2 & _ & Hk & ->).
    apply Forall2_cons_inv_r in Hk as (j3 & k3 & _ & Hk & ->). by inversion Hk.
  - destruct (decimal_shaped l) eqn:E'; [|done]. apply decimal_shaped_true in E' as (a & b & ->).
    apply Forall2_cons_inv_l in Hl as (v & k & Hv & Hk & ->). simpl in Hv. inv_ok. subst.
    apply Forall2_cons_inv_l in Hk as (v2 & k2 & _ & Hk & ->).
    apply Forall2_cons_inv_l in Hk as (v3 & k3 & _ & Hk & ->). by inversion Hk; subst.
Qed.

Lemma json_written_back v : ∀ j, encodable v → jsonFromCbor v = Ok j → jsonToCbor j = Ok v ∧ json_plain j = true.
Proof.
  induction v as [| | | | |l IH|m IH] using CborValue_nested_ind; intros j Hv H;
    try (simpl in H; inv_ok; subst; done); rewrite Forall_forall in IH.
  - destruct (decimal_form l) eqn:E.
    + apply decimal_form_true in E as (c & s & ->). simpl in H. inv_ok. subst.
      rewrite safeUint_Ok, coded_Ok, expectBigint_Ok in *. destruct_and!. subst. split; [|done].
      cbn [jsonToCbor]. by rewrite (proj2 (uint_Ok _ _)) by done.
    + rewrite jsonFromCbor_array in H by done. inv_ok. subst. rename x into l'.
      rename select (mapR _ l = Ok l') into Hl. cbn [jsonToCbor json_plain].
      rewrite (mapR_inverse _ _ _ _ Hl)
        by (intros x y Hx Hy; by apply (IH x Hx); [eapply encodable_array|]).
      split; [done|]. rewrite (shaped_alike _ _ Hl), E. apply forallb_forall.
      intros y Hy%list_elem_of_In. destruct (mapR_elem_r _ _ _ _ Hl Hy) as (x & Hx & Hxy).
      by apply (IH x Hx); [eapply encodable_array|].
  - assert (∃ es, j = JMap es) as [es ->] by (simpl in H; inv_ok; by eexists).
    pose proof (encodable_keys _ Hv) as Hnd. pose proof (entries_read _ _ H Hnd) as Hes.
    assert (Forall2 (entry_matches (λ v j, jsonToCbor j = Ok v ∧ json_plain j = true)) m es) as Hall.
    { eapply Forall2_impl_elem; [|exact Hes]. intros [k v] d He _ [Hk Hd]. split; [done|].
      by apply (IH (k, v) He); [eapply encodable_map|]. }
    split.
    + apply entries_write; [|done]. eapply Forall2_impl; [exact Hall|]. intros e d [He [Hd _]]. by split.
    + cbn [json_plain]. apply andb_true_iff. split.
      * apply bool_decide_eq_true. by eapply entry_keys_NoDup.
      * apply forallb_forall. intros d Hd%list_elem_of_In%list_elem_of_lookup. destruct Hd as [i Hi].
        by destruct (Forall2_lookup_r _ _ _ _ _ Hall Hi) as (e & _ & _ & _ & Hp).
Qed.

Lemma json_read_back j : ∀ v, json_plain j = true → jsonToCbor j = Ok v → jsonFromCbor v = Ok j.
Proof.
  induction j as [| | |c s| |l IH|m IH] using logical_json_ind; intros v Hp H;
    try (simpl in H; inv_ok; subst; done).
  - cbn [jsonToCbor] in H. inv_ok. subst. rewrite uint_Ok in *. destruct_and!. subst.
    cbn [jsonFromCbor expectBigint coded mbind result_bind].
    by rewrite (proj2 (safeUint_Ok (CInt s) s)).
  - cbn [jsonToCbor json_plain] in *. inv_ok. subst. apply andb_true_iff in Hp as [Hs Hp].
    apply negb_true_iff in Hs. rename select (mapR _ l = Ok _) into Hl.
    rewrite jsonFromCbor_array by (by rewrite (written_alike _ _ Hl)).
    rewrite (mapR_inverse _ _ _ _ Hl); [done|]. intros y w Hy Hw. rewrite Forall_forall in IH.
    apply (IH y Hy); [|done]. rewrite forallb_forall in Hp. by apply Hp, list_elem_of_In.
  - cbn [json_plain] in Hp. apply andb_true_iff in Hp as [Hnd%bool_decide_eq_true Hp].
    assert (∃ es, v = CMap es) as [es ->] by (simpl in H; inv_ok; by eexists).
    apply entries_readable; [|done]. eapply Forall2_impl_elem; [|by apply entries_written].
    intros e [k j] _ Hj [He Hw]. split; [done|]. rewrite Forall_forall in IH. apply (IH (k, j) Hj); [|done].
    rewrite forallb_forall in Hp. by apply (Hp (k, j)), list_elem_of_In.
Qed.

(** ** Values and types *)

(** A branch of a decoder was taken: the tag and the arity are those tested. *)
Lemma branch_taken items tag t n :
  item items 0 = CInt tag → (tag =? t) && (length items =? n)%nat = true →
  item items 0 = CInt t ∧ length items = n.
Proof. intros H [->%Z.eqb_eq ->%Nat.eqb_eq]%andb_true_iff. done. Qed.

(** Turns the successful reads of a tagged array into the shape of its items. *)
Ltac read_tagged Htag :=
  repeat match goal with
  | H : (if (?tag =? ?t) && (length ?items =? ?n)%nat then _ else _) = Ok _ |- _ =>
      let E := fresh "E" in
      destruct ((tag =? t) && (length items =? n)%nat) eqn:E;
      [ apply (branch_taken _ _ _ _ Htag) in E as [? ?]; clear Htag;
        repeat (destruct items as [|? items]; try discriminate); cbn [item lookup list_lookup default from_option id] in * |]
  end;
  try discriminate; inv_ok;
  repeat match goal with
  | H : coded _ = Ok _ |- _ => apply coded_Ok in H
  | H : schema _ = Ok _ |- _ => apply schema_Ok in H
  | H : expectBigint _ = Ok _ |- _ => apply expectBigint_Ok in H
  | H : expectString _ = Ok _ |- _ => apply expectString_Ok in H
  | H : expectBytes _ None = Ok _ |- _ => apply expectBytes_any in H
  | H : expectBytes _ (Some _) = Ok _ |- _ => apply expectBytes_sized in H as [? ?]
  | H : safeUint _ = Ok _ |- _ => apply safeUint_Ok in H as [? ?]
  | H : element_at _ = Ok _ |- _ => apply element_at_Ok in H
  end; subst.

Lemma expectBoolean_Ok v b : expectBoolean v = Ok b ↔ v = CBool b.
Proof. split; [destruct v; simpl; congruence|by intros ->]. Qed.

Lemma utf8_no_bom s b : utf8 s = Ok b → take 3 b ≠ BOM.
Proof.
  intros H HB. destruct (proj1 (utf8_domain s)) as [Hwf Hhd]; [by eexists|].
  apply utf8_Ok in H as [-> _]. apply textEncode_bom in HB as [s' ->]; done.
Qed.

Lemma uint_exact n : is_uint n = true → uint n = Ok (CInt n).
Proof. intros. by apply uint_Ok. Qed.

Lemma logical_written_back v x : encodable v → logicalValueFromCanonicalCbor v = Ok x →
  logicalValueToCanonicalCbor x = Ok v ∧ logical_plain x = true.
Proof.
  unfold logicalValueFromCanonicalCbor. intros Hv H. inv_ok. subst.
  rename select (coded (expectArray _) = Ok _) into Ha. apply coded_Ok, expectArray_Ok in Ha. subst.
  rename select (tag_of _ = Ok _) into Ht. apply tag_of_Ok in Ht as [Htag _].
  match goal with H : assertLogicalValue _ = Ok ?u |- _ => destruct u; rename H into Hx end.
  unfold logicalValueToCanonicalCbor. rewrite Hx. cbn [mbind result_bind].
  read_tagged Htag.
  all: try match goal with H : expectBoolean _ = Ok _ |- _ => apply expectBoolean_Ok in H end; subst.
  all: rewrite ?uint_exact by done; try done.
  - rename select (utf8 _ = Ok _) into Hu. rewrite (utf8_decodeUtf8 _ _ Hu). split; [done|].
    simpl. by rewrite bool_decide_eq_false_2 by (by eapply utf8_no_bom).
  - rename select (jsonFromCbor _ = Ok _) into Hj.
    destruct (json_written_back _ _ (encodable_array _ _ Hv ltac:(right; left)) Hj) as [-> Hp]. done.
Qed.

Lemma tag_literal k l : 0 ≤ k ≤ 32 → tag_of (CInt k :: l) = Ok k.
Proof. intros. apply tag_of_Ok. split; [done|]. unfold MAX_SAFE_INTEGER. lia. Qed.

Lemma safeUint_exact n : is_uint n = true → safeUint (CInt n) = Ok n.
Proof. intros. by apply safeUint_Ok. Qed.

(** Evaluates a decoder on a tagged array it wrote. *)
Ltac eval_tagged :=
  cbn [coded expectArray mbind result_bind]; rewrite tag_literal by lia;
  cbn [mbind result_bind Z.eqb Pos.eqb length Nat.eqb andb item lookup list_lookup default from_option id
       coded expectBigint expectBoolean expectString expectBytes];
  rewrite ?safeUint_exact by done.

Lemma logical_read_back v x : logical_plain x = true → logicalValueToCanonicalCbor x = Ok v →
  logicalValueFromCanonicalCbor v = Ok x.
Proof.
  unfold logicalValueToCanonicalCbor, logicalValueFromCanonicalCbor. intros Hp H. inv_ok.
  match goal with H : assertLogicalValue _ = Ok ?u |- _ => destruct u; rename H into Hx end.
  destruct x; inv_ok; subst;
    repeat match goal with H : uint _ = Ok _ |- _ => apply uint_Ok in H as [-> ?] end;
    eval_tagged; try (cbn [mbind result_bind]; by rewrite Hx).
  - rename select (coded (decodeUtf8 _) = Ok _) into Hd. apply coded_Ok in Hd.
    cbn [logical_plain] in Hp. apply negb_true_iff, bool_decide_eq_false in Hp.
    rewrite (decodeUtf8_utf8 _ _ Hd Hp). cbn [coded mbind result_bind]. by rewrite Hx.
  - cbn [assertLogicalValue] in Hx. apply schema_Ok in Hx. unfold protocolInvariant. rewrite Hx.
    cbn [ensure coded mbind result_bind assertLogicalValue]. by rewrite (proj2 (schema_Ok _ tt)).
  - rename select (jsonToCbor _ = Ok _) into Hj. rewrite (json_read_back _ _ Hp Hj).
    cbn [mbind result_bind]. by rewrite Hx.
  - rewrite (proj2 (element_at_Ok _ _) eq_refl). cbn [mbind result_bind]. by rewrite Hx.
Qed.

Lemma type_written_back v t : logicalTypeFromCanonicalCbor v = Ok t → logicalTypeToCanonicalCbor t = Ok v.
Proof.
  unfold logicalTypeFromCanonicalCbor. intros H. inv_ok. subst.
  rename select (coded (expectArray _) = Ok _) into Ha. apply coded_Ok, expectArray_Ok in Ha. subst.
  rename select (tag_of _ = Ok _) into Ht. apply tag_of_Ok in Ht as [Htag _].
  match goal with H : assertLogicalType _ = Ok ?u |- _ => destruct u; rename H into Hx end.
  unfold logicalTypeToCanonicalCbor. rewrite Hx. cbn [mbind result_bind].
  read_tagged Htag; rewrite ?uint_exact by done; try done.
  case_match; inv_ok; subst; try done; rewrite safeUint_Ok in *; destruct_and!; simplify_eq.
  by rewrite uint_exact.
Qed.

Lemma type_read_back v t : logicalTypeToCanonicalCbor t = Ok v → logicalTypeFromCanonicalCbor v = Ok t.
Proof.
  unfold logicalTypeToCanonicalCbor, logicalTypeFromCanonicalCbor. intros H. inv_ok.
  match goal with H : assertLogicalType _ = Ok ?u |- _ => destruct u; rename H into Hx end.
  destruct t as [| | | |[n|]| | | | |]; inv_ok; subst;
    repeat match goal with H : uint _ = Ok _ |- _ => apply uint_Ok in H as [-> ?] end;
    eval_tagged; rewrite ?(proj2 (element_at_Ok _ _) eq_refl);
    cbn [mbind result_bind]; by rewrite Hx.
Qed.

(** ** The theorem *)

(** the codec of logical values is exact.  A CBOR value (of distinct map
    keys, as every encodable one has) is read as a logical value exactly when it
    is what that value is written as and the value holds no decimal-shaped JSON
    array and no text with a byte order mark; so different values of this kind
    are never written alike.  Types are written and read exactly, without
    exception. *)
Theorem logical_codec_exact :
  (∀ v x, encodable v →
    logicalValueFromCanonicalCbor v = Ok x ↔ logicalValueToCanonicalCbor x = Ok v ∧ logical_plain x = true) ∧
  (∀ v t, logicalTypeFromCanonicalCbor v = Ok t ↔ logicalTypeToCanonicalCbor t = Ok v).
Proof.
  split; intros v x.
  - intros Hv. split; [by apply logical_written_back|]. intros [? ?]. by apply logical_read_back.
  - split; [apply type_written_back|apply type_read_back].
Qed.

(** The bytes of a decoded list of values are the bytes it encodes to. *)
Lemma logical_values_strict limits b xs :
  decodeLogicalValues limits b = Ok xs → encodeLogicalValues xs = Ok b ∧ forallb logical_plain xs = true.
Proof.
  unfold decodeLogicalValues, encodeLogicalValues. intros H. inv_ok.
  rewrite coded_Ok, expectArray_Ok in *. subst.
  match goal with H : coded (assertCanonicalCbor _ _) = Ok _ |- _ => apply coded_Ok, assert_sound in H as Hb end.
  rewrite (mapR_inverse _ _ _ _ H).
  - split; [cbn [mbind result_bind]; by apply coded_Ok|]. apply forallb_forall.
    intros y Hy%list_elem_of_In. destruct (mapR_elem_r _ _ _ _ H Hy) as (w & Hw & Hwy).
    eapply logical_written_back; [|done]. eapply encodable_array; [by exists b|done].
  - intros w y Hw. apply logical_written_back. eapply encodable_array; [by exists b|done].
Qed.

(** ** The exceptions *)

(** A JSON array whose first of three items is the integer 3 is written as the
    decimal with the other two as coefficient and scale, and read as that. *)
Example json_array_read_as_decimal :
  let array := LJson (JArray [JInt 3; JInt 5; JInt 2]) in
  let decimal := LJson (JDecimal 5 2) in
  logicalValueToCanonicalCbor array = logicalValueToCanonicalCbor decimal ∧
  (v ← logicalValueToCanonicalCbor array; logicalValueFromCanonicalCbor v) = Ok decimal.
Proof. split; reflexivity. Qed.

(** If the other two are not integers, what was written cannot be read at all. *)
Example json_array_unreadable :
  (v ← logicalValueToCanonicalCbor (LJson (JArray [JInt 3; JString (js "a"); JNull]));
   logicalValueFromCanonicalCbor v) = Err (Coded SCHEMA_INVALID).
Proof. reflexivity. Qed.

(** A text that starts with a byte order mark is written as the text without it. *)
Example bom_text_conflated :
  encodeLogicalValue (LText (BOM ++ [x61])) = encodeLogicalValue (LText [x61]).
Proof. vm_compute. reflexivity. Qed.
