(* ===== verification/Sql.v ===== *)
(** * SQL programs and results: [packages/protocol/src/sql.ts]

    The program a transaction carries, the canonical result of a query in its
    four modes, the envelope of the results of a transaction and the attribution
    of a rejection, each with its CBOR form.  A [REAL] is the eight bytes of a
    binary64 number.  Numbers the code requires to be safe integers are [Z]s with
    that check; the three conversions between these bytes and a JavaScript number
    are not modelled. *)

From Stdlib Require Import Strings.Byte Strings.String.
From stdpp Require Import base list option numbers.
From S2P Require Import Prelude JsMap Bytes Text JsNumber Cbor CborProofs Schema Logical.

#[local] Open Scope Z_scope.

(** ** Data *)

Inductive SqlResultMode := mode_scalar | mode_ordered | mode_multiset | mode_set.

#[export] Instance SqlResultMode_eq_dec : EqDecision SqlResultMode.
Proof. solve_decision. Defined.

Inductive SqlParameter := parameter_index (index : Z) | parameter_name (name : jsstring).
Inductive SqlBindingValue := binding_logical (value : LogicalValue) | binding_real (bits : bytes).

Record SqlBinding := mkBinding { bd_parameter : SqlParameter; bd_value : SqlBindingValue }.
Record SqlStatement := mkStatement { st_sql : jsstring; st_bindings : list SqlBinding }.

Inductive CanonicalSqlStorageType := storage_integer | storage_real | storage_text | storage_blob.

#[export] Instance CanonicalSqlStorageType_eq_dec : EqDecision CanonicalSqlStorageType.
Proof. solve_decision. Defined.

Inductive CanonicalSqlColumnType :=
  | column_dynamic
  | column_storage (storage : CanonicalSqlStorageType)
  | column_logical (logicalType : LogicalType)
  | column_registered (typeId : Z) (implementationDigest : bytes).

(** [nullable : boolean | 'unknown'], [None] for unknown. *)
Record CanonicalSqlColumn := mkColumn {
  col_nameUtf8 : bytes;
  col_type : CanonicalSqlColumnType;
  col_nullable : option bool;
}.

Inductive CanonicalSqlValue :=
  | sql_null
  | sql_integer (value : Z)
  | sql_real (bits : bytes)
  | sql_text (utf8 : bytes)
  | sql_blob (b : bytes)
  | sql_logical (value : LogicalValue)
  | sql_registered (typeId : Z) (implementationDigest canonicalPayload : bytes).

Record CanonicalSqlResult := mkSqlResult {
  res_mode : SqlResultMode;
  res_columns : list CanonicalSqlColumn;
  res_rows : list (list CanonicalSqlValue);
}.

Inductive SqlExpectation :=
  | expect_true
  | expect_inline (r : CanonicalSqlResult)
  | expect_digest (digest : bytes).

Record SqlPrecondition := mkPrecondition {
  pre_id : Z;
  pre_query : SqlStatement;
  pre_resultMode : SqlResultMode;
  pre_expectation : SqlExpectation;
  pre_label : option jsstring;
}.

Record SqlTransactionProgram := mkProgram {
  prog_version : Z;
  prog_preconditions : list SqlPrecondition;
  prog_body : list SqlStatement;
}.

Inductive SqlStatementClass :=
  | class_read | class_insert | class_update | class_delete | class_schema | class_pragma
  | class_registered_effect.

#[export] Instance SqlStatementClass_eq_dec : EqDecision SqlStatementClass.
Proof. solve_decision. Defined.

Record AcceptedPreconditionResult := mkAcceptedPrecondition {
  ap_index : Z;
  ap_id : Z;
  ap_resultDigest : bytes;
}.

Record AcceptedStatementResult := mkAcceptedStatement {
  as_index : Z;
  as_statementClass : SqlStatementClass;
  as_affectedRows : option Z;
  as_result : option CanonicalSqlResult;
}.

Record TransactionResultEnvelopeV1 := mkResultEnvelope {
  tre_version : Z;
  tre_preconditions : list AcceptedPreconditionResult;
  tre_statements : list AcceptedStatementResult;
}.

Inductive CanonicalSchemaObjectKind :=
  | object_table | object_index | object_view | object_trigger | object_constraint.

#[export] Instance CanonicalSchemaObjectKind_eq_dec : EqDecision CanonicalSchemaObjectKind.
Proof. solve_decision. Defined.

(** The database is always ['main']. *)
Record CanonicalSchemaIdentity := mkSchemaIdentity {
  si_objectKind : CanonicalSchemaObjectKind;
  si_objectNameUtf8 : bytes;
  si_containingObjectNameUtf8 : option bytes;
}.

Inductive RejectionPhase := phase_precondition | phase_statement | phase_finalize.

#[export] Instance RejectionPhase_eq_dec : EqDecision RejectionPhase.
Proof. solve_decision. Defined.

Record SqlRejectionAttribution := mkAttribution {
  ra_phase : RejectionPhase;
  ra_code : jsstring;
  ra_preconditionId : option Z;
  ra_preconditionIndex : option Z;
  ra_statementIndex : option Z;
  ra_constraintIdentity : option CanonicalSchemaIdentity;
  ra_triggerIdentity : option CanonicalSchemaIdentity;
}.

(** ** Tables and small checks *)

Definition RESULT_MODES : list SqlResultMode := [mode_scalar; mode_ordered; mode_multiset; mode_set].
Definition STORAGE_TYPES : list CanonicalSqlStorageType :=
  [storage_integer; storage_real; storage_text; storage_blob].
Definition STATEMENT_CLASSES : list SqlStatementClass :=
  [class_read; class_insert; class_update; class_delete; class_schema; class_pragma; class_registered_effect].
Definition SCHEMA_OBJECT_KINDS : list CanonicalSchemaObjectKind :=
  [object_table; object_index; object_view; object_trigger; object_constraint].
Definition REJECTION_PHASES : list RejectionPhase := [phase_precondition; phase_statement; phase_finalize].

(** [table.indexOf(x)] *)
Definition index_of {A} `{EqDecision A} (table : list A) (x : A) : Z :=
  match list_find (λ y, y = x) table with Some (i, _) => Z.of_nat i | None => -1 end.

(** [table[Number(expectUint64(value))]], an error when it is undefined. *)
Definition from_table {A} (table : list A) (value : CborValue) : result CodecError A :=
  i ← coded (expectUint64 value);
  match table !! Z.to_nat i with Some x => Ok x | None => Err (Coded SCHEMA_INVALID) end.

Definition in_range (condition : bool) : result CodecError unit := ensure condition (Coded INTEGER_OUT_OF_RANGE).

Definition safeIndex (value : Z) : result CodecError Z := in_range (is_uint value) ≫= λ _, Ok value.
Definition positiveIndex (value : Z) : result CodecError Z :=
  in_range ((1 <=? value) && (value <=? MAX_SAFE_INTEGER)) ≫= λ _, Ok value.
(** [safeIndex(Number(expectUint64(value)))] *)
Definition index_field (value : CborValue) : result CodecError Z :=
  n ← coded (expectUint64 value); safeIndex n.

Definition modeCode (mode : SqlResultMode) : result CodecError CborValue :=
  let index := index_of RESULT_MODES mode in schema (0 <=? index) ≫= λ _, Ok (CInt index).
Definition modeFromCbor (value : CborValue) : result CodecError SqlResultMode := from_table RESULT_MODES value.

Definition requireDigest (value : bytes) : result CodecError bytes :=
  schema (length value =? 32)%nat ≫= λ _, Ok value.

(** [Number.isFinite] of the binary64 number of eight bytes: its exponent is not
    all ones. *)
Definition finite_bits (bits : bytes) : bool :=
  negb (Z.land (Z.shiftr (be_value bits) 52) 0x7ff =? 0x7ff).
Definition finiteRealBits (value : bytes) : result CodecError bytes :=
  schema (length value =? 8)%nat ≫= λ _, schema (finite_bits value) ≫= λ _, Ok value.

(** [try { new TextDecoder('utf-8', { fatal: true }).decode(b) } catch ...] *)
Definition valid_text (b : bytes) : bool := bool_decide (is_Some (textDecode b)).

Definition assertNonemptyUtf8 (value : bytes) : result CodecError unit :=
  schema (0 <? zlen value) ≫= λ _, schema (valid_text value).

(** The pattern of a parameter token: one of the three SQLite prefixes, then a
    character that is not a line terminator. *)
Definition parameter_token (name : jsstring) : bool :=
  match name with
  | c :: d :: _ => bool_decide (c ∈ [58; 64; 36]) && negb (bool_decide (d ∈ [10; 13; 0x2028; 0x2029]))
  | _ => false
  end.

(** The pattern of a rejection code: capitals, digits and underscores. *)
Definition is_capital (c : Z) : bool := (65 <=? c) && (c <=? 90).
Definition canonical_code (code : jsstring) : bool :=
  match code with
  | c :: rest => is_capital c && forallb (λ d, is_capital d || is_digit d || (d =? 95)) rest
  | [] => false
  end.

(** [value === null ? null : f(value)], on both sides. *)
Definition to_nullable {A} (f : A → result CodecError CborValue) (value : option A) : result CodecError CborValue :=
  match value with None => Ok CNull | Some x => f x end.
Definition from_nullable {A} (f : CborValue → result CodecError A) (value : CborValue) :
    result CodecError (option A) :=
  match value with CNull => Ok None | v => x ← f v; Ok (Some x) end.

(** ** Bindings and statements *)

Definition sqlBindingValueToCanonicalCbor (value : SqlBindingValue) : result CodecError CborValue :=
  match value with
  | binding_real bits => b ← finiteRealBits bits; Ok (CArray [CInt 11; CBytes b])
  | binding_logical v => logicalValueToCanonicalCbor v
  end.

Definition sqlBindingValueFromCanonicalCbor (value : CborValue) : result CodecError SqlBindingValue :=
  tuple ← coded (expectArray value);
  match tuple with
  | [CInt 11; bits] => b ← coded (expectBytes bits (Some 8%nat)); b ← finiteRealBits b; Ok (binding_real b)
  | _ => v ← logicalValueFromCanonicalCbor value; Ok (binding_logical v)
  end.

Definition logicalBindingToCbor (binding : SqlBinding) : result CodecError CborValue :=
  parameter ← match bd_parameter binding with
              | parameter_index index => i ← positiveIndex index; Ok (CArray [CInt 0; CInt i])
              | parameter_name name => schema (parameter_token name) ≫= λ _, Ok (CArray [CInt 1; CText name])
              end;
  value ← sqlBindingValueToCanonicalCbor (bd_value binding);
  Ok (CArray [parameter; value]).

Definition logicalBindingFromCbor (value : CborValue) : result CodecError SqlBinding :=
  tuple ← coded (expectArray value);
  schema (length tuple =? 2)%nat ≫= λ _,
  parameter ← coded (expectArray (item tuple 0));
  schema (length parameter =? 2)%nat ≫= λ _,
  kind ← coded (expectUint64 (item parameter 0));
  decoded ← (if kind =? 0 then
               n ← coded (expectUint64 (item parameter 1)); i ← positiveIndex n; Ok (parameter_index i)
             else if kind =? 1 then
               s ← coded (expectString (item parameter 1));
               schema (parameter_token s) ≫= λ _, Ok (parameter_name s)
             else Err (Coded SCHEMA_INVALID));
  v ← sqlBindingValueFromCanonicalCbor (item tuple 1);
  Ok (mkBinding decoded v).

Definition valid_source (sql : jsstring) : bool := (0 <? zlen sql) && negb (bool_decide (0 ∈ sql)).

Definition sqlStatementToCanonicalCbor (value : SqlStatement) : result CodecError CborValue :=
  schema (valid_source (st_sql value)) ≫= λ _,
  coded (utf8 (st_sql value)) ≫= λ _,
  bindings ← mapR logicalBindingToCbor (st_bindings value);
  Ok (CMap (integerMap [(0, Some (CText (st_sql value))); (1, Some (CArray bindings))])).

Definition sqlStatementFromCanonicalCbor (value : CborValue) : result CodecError SqlStatement :=
  map ← coded (expectMap value);
  coded (assertKnownIntegerKeys map [0; 1]) ≫= λ _,
  sql ← coded (v ← required map 0; expectString v);
  schema (valid_source sql) ≫= λ _,
  coded (utf8 sql) ≫= λ _,
  items ← coded (v ← required map 1; expectArray v);
  bindings ← mapR logicalBindingFromCbor items;
  Ok (mkStatement sql bindings).

(** ** Results *)

Definition columnTypeToCbor (value : CanonicalSqlColumnType) : result CodecError CborValue :=
  match value with
  | column_dynamic => Ok (CArray [CInt 0])
  | column_storage storage =>
      let index := index_of STORAGE_TYPES storage in
      schema (0 <=? index) ≫= λ _, Ok (CArray [CInt 1; CInt index])
  | column_logical t => v ← logicalTypeToCanonicalCbor t; Ok (CArray [CInt 2; v])
  | column_registered typeId digest =>
      id ← safeIndex typeId; d ← requireDigest digest; Ok (CArray [CInt 3; CInt id; CBytes d])
  end.

Definition columnTypeFromCbor (value : CborValue) : result CodecError CanonicalSqlColumnType :=
  tuple ← coded (expectArray value);
  schema (1 <=? length tuple)%nat ≫= λ _,
  kind ← coded (expectUint64 (item tuple 0));
  let has (k : Z) (n : nat) := (kind =? k) && (length tuple =? n)%nat in
  if has 0 1%nat then Ok column_dynamic
  else if has 1 2%nat then s ← from_table STORAGE_TYPES (item tuple 1); Ok (column_storage s)
  else if has 2 2%nat then t ← logicalTypeFromCanonicalCbor (item tuple 1); Ok (column_logical t)
  else if has 3 3%nat then
    id ← index_field (item tuple 1); d ← coded (expectBytes (item tuple 2) (Some 32%nat));
    Ok (column_registered id d)
  else Err (Coded SCHEMA_INVALID).

Definition nullable_code (nullable : option bool) : Z :=
  match nullable with Some false => 0 | Some true => 1 | None => 2 end.

Definition columnToCbor (value : CanonicalSqlColumn) : result CodecError CborValue :=
  name ← match textDecode (col_nameUtf8 value) with Some s => Ok s | None => Err InvalidTextBytes end;
  coded (utf8 name) ≫= λ _,
  t ← columnTypeToCbor (col_type value);
  Ok (CArray [CBytes (col_nameUtf8 value); t; CInt (nullable_code (col_nullable value))]).

Definition columnFromCbor (value : CborValue) : result CodecError CanonicalSqlColumn :=
  tuple ← coded (expectArray value);
  schema (length tuple =? 3)%nat ≫= λ _,
  code ← coded (expectUint64 (item tuple 2));
  schema (code <=? 2) ≫= λ _,
  name ← coded (expectBytes (item tuple 0) None);
  schema (valid_text name) ≫= λ _,
  t ← columnTypeFromCbor (item tuple 1);
  Ok (mkColumn name t (if code =? 0 then Some false else if code =? 1 then Some true else None)).

Definition canonicalSqlValueToCbor (value : CanonicalSqlValue) : result CodecError CborValue :=
  match value with
  | sql_null => Ok (CArray [CInt 0])
  | sql_integer z => in_range (is_int64 z) ≫= λ _, Ok (CArray [CInt 1; CInt z])
  | sql_real bits => b ← finiteRealBits bits; Ok (CArray [CInt 2; CBytes b])
  | sql_text b => schema (valid_text b) ≫= λ _, Ok (CArray [CInt 3; CBytes b])
  | sql_blob b => Ok (CArray [CInt 4; CBytes b])
  | sql_logical v => c ← logicalValueToCanonicalCbor v; Ok (CArray [CInt 5; c])
  | sql_registered typeId digest payload =>
      id ← safeIndex typeId; d ← requireDigest digest; Ok (CArray [CInt 6; CInt id; CBytes d; CBytes payload])
  end.

Definition canonicalSqlValueFromCbor (value : CborValue) : result CodecError CanonicalSqlValue :=
  tuple ← coded (expectArray value);
  schema ((1 <=? length tuple) && (length tuple <=? 4))%nat ≫= λ _,
  kind ← coded (expectUint64 (item tuple 0));
  let has (k : Z) (n : nat) := (kind =? k) && (length tuple =? n)%nat in
  if has 0 1%nat then Ok sql_null
  else if has 1 2%nat then
    z ← coded (expectBigint (item tuple 1)); in_range (is_int64 z) ≫= λ _, Ok (sql_integer z)
  else if has 2 2%nat then
    b ← coded (expectBytes (item tuple 1) (Some 8%nat)); b ← finiteRealBits b; Ok (sql_real b)
  else if has 3 2%nat then
    b ← coded (expectBytes (item tuple 1) None); schema (valid_text b) ≫= λ _, Ok (sql_text b)
  else if has 4 2%nat then b ← coded (expectBytes (item tuple 1) None); Ok (sql_blob b)
  else if has 5 2%nat then v ← logicalValueFromCanonicalCbor (item tuple 1); Ok (sql_logical v)
  else if has 6 4%nat then
    id ← index_field (item tuple 1); d ← coded (expectBytes (item tuple 2) (Some 32%nat));
    payload ← coded (expectBytes (item tuple 3) None); Ok (sql_registered id d payload)
  else Err (Coded SCHEMA_INVALID).

Definition rowToCbor (row : list CanonicalSqlValue) : result CodecError CborValue :=
  items ← mapR canonicalSqlValueToCbor row; Ok (CArray items).

(** The bytes rows are compared by. *)
Definition encodeRow (row : list CanonicalSqlValue) : result CodecError bytes :=
  v ← rowToCbor row; coded (encodeCanonicalCbor v).

Definition compareRows (left right : list CanonicalSqlValue) : result CodecError Z :=
  l ← encodeRow left; r ← encodeRow right; Ok (compareBytes l r).

Definition decimalDigits (value : Z) : Z := if value =? 0 then 1 else zlen (js_decimal (Z.abs value)).

Definition logicalValueMatchesType (value : LogicalValue) (type : LogicalType) : bool :=
  match type, value with
  | TBoolean, LBoolean _ | TInt64, LInt64 _ | TUuid, LUuid _ | TTimestamp, LTimestamp _
  | TDuration, LDuration _ | TJson, LJson _ | TText _, LText _ => true
  | TDecimal precision scale, LDecimal coefficient s => (s =? scale) && (decimalDigits coefficient <=? precision)
  | TBlob maxBytes, LBlob b => match maxBytes with None => true | Some n => zlen b <=? n end
  | TVector element dimensions, LVector e d _ => bool_decide (e = element) && (d =? dimensions)
  | _, _ => false
  end.

Definition value_storage (value : CanonicalSqlValue) : option CanonicalSqlStorageType :=
  match value with
  | sql_integer _ => Some storage_integer
  | sql_real _ => Some storage_real
  | sql_text _ => Some storage_text
  | sql_blob _ => Some storage_blob
  | _ => None
  end.

Definition assertValueMatchesColumn (column : CanonicalSqlColumn) (value : CanonicalSqlValue) :
    result CodecError unit :=
  match value with
  | sql_null => schema (negb (bool_decide (col_nullable column = Some false)))
  | _ =>
      match col_type column with
      | column_dynamic => Ok tt
      | column_storage storage => schema (bool_decide (value_storage value = Some storage))
      | column_logical t =>
          schema (match value with sql_logical v => logicalValueMatchesType v t | _ => false end)
      | column_registered typeId digest =>
          schema (match value with
                  | sql_registered id d _ => (id =? typeId) && (compareBytes d digest =? 0)
                  | _ => false
                  end)
      end
  end.

(** The values of a row against the columns, left to right; the width was checked. *)
Fixpoint check_row (columns : list CanonicalSqlColumn) (row : list CanonicalSqlValue) : result CodecError unit :=
  match columns, row with
  | column :: columns', v :: row' =>
      canonicalSqlValueToCbor v ≫= λ _,
      assertValueMatchesColumn column v ≫= λ _,
      check_row columns' row'
  | _, _ => Ok tt
  end.

Definition check_rows (columns : list CanonicalSqlColumn) (rows : list (list CanonicalSqlValue)) :
    result CodecError unit :=
  mapR (λ row, schema (length row =? length columns)%nat ≫= λ _, check_row columns row) rows ≫= λ _, Ok tt.

(** [[...rows].sort(compareRows)]: the comparator is not called on fewer than two
    rows; on more it is called on every row, and throws if one has no encoding. *)
Definition sort_rows (rows : list (list CanonicalSqlValue)) : result CodecError (list (list CanonicalSqlValue)) :=
  if (length rows <=? 1)%nat then Ok rows
  else
    keyed ← mapR (λ row, k ← encodeRow row; Ok (k, row)) rows;
    Ok (js_sort (λ a b : bytes * list CanonicalSqlValue, compareBytes a.1 b.1) keyed).*2.

(** The filter that drops a row equal to its predecessor. *)
Fixpoint drop_repeated (previous : list CanonicalSqlValue) (rows : list (list CanonicalSqlValue)) :
    result CodecError (list (list CanonicalSqlValue)) :=
  match rows with
  | [] => Ok []
  | row :: rows' =>
      c ← compareRows previous row;
      rest ← drop_repeated row rows';
      Ok (if c =? 0 then rest else row :: rest)
  end.
Definition distinct_rows (rows : list (list CanonicalSqlValue)) : result CodecError (list (list CanonicalSqlValue)) :=
  match rows with [] => Ok [] | row :: rows' => rest ← drop_repeated row rows'; Ok (row :: rest) end.

Definition normalize_rows (mode : SqlResultMode) (rows : list (list CanonicalSqlValue)) :
    result CodecError (list (list CanonicalSqlValue)) :=
  match mode with
  | mode_multiset => sort_rows rows
  | mode_set => sorted ← sort_rows rows; distinct_rows sorted
  | _ => Ok rows
  end.

Definition canonicalizeSqlResult (value : CanonicalSqlResult) : result CodecError CanonicalSqlResult :=
  check_rows (res_columns value) (res_rows value) ≫= λ _,
  schema (negb (bool_decide (res_mode value = mode_scalar)) ||
          ((length (res_columns value) =? 1) && (length (res_rows value) <=? 1))%nat) ≫= λ _,
  rows ← normalize_rows (res_mode value) (res_rows value);
  Ok (mkSqlResult (res_mode value) (res_columns value) rows).

Definition canonicalSqlResultToCbor (value : CanonicalSqlResult) : result CodecError CborValue :=
  canonical ← canonicalizeSqlResult value;
  mode ← modeCode (res_mode canonical);
  columns ← mapR columnToCbor (res_columns canonical);
  rows ← mapR rowToCbor (res_rows canonical);
  Ok (CArray [mode; CArray columns; CArray rows]).

(** The rows of a sorted mode must be those of the canonical form, in order. *)
Fixpoint rows_in_order (decoded canonical : list (list CanonicalSqlValue)) : result CodecError unit :=
  match decoded, canonical with
  | d :: decoded', c :: canonical' =>
      order ← compareRows d c; schema (order =? 0) ≫= λ _, rows_in_order decoded' canonical'
  | _, _ => Ok tt
  end.

(** The rows of [canonicalSqlResultFromCbor]. *)
Definition rowFromCbor (row : CborValue) : result CodecError (list CanonicalSqlValue) :=
  items ← coded (expectArray row); mapR canonicalSqlValueFromCbor items.

Definition canonicalSqlResultFromCbor (value : CborValue) : result CodecError CanonicalSqlResult :=
  tuple ← coded (expectArray value);
  schema (length tuple =? 3)%nat ≫= λ _,
  mode ← modeFromCbor (item tuple 0);
  columnItems ← coded (expectArray (item tuple 1));
  columns ← mapR columnFromCbor columnItems;
  rowItems ← coded (expectArray (item tuple 2));
  rows ← mapR rowFromCbor rowItems;
  let decoded := mkSqlResult mode columns rows in
  canonical ← canonicalizeSqlResult decoded;
  (match mode with
   | mode_multiset | mode_set =>
       schema (length rows =? length (res_rows canonical))%nat ≫= λ _, rows_in_order rows (res_rows canonical)
   | _ => Ok tt
   end) ≫= λ _,
  Ok canonical.

Definition encodeCanonicalSqlResult (value : CanonicalSqlResult) : result CodecError bytes :=
  v ← canonicalSqlResultToCbor value; coded (encodeCanonicalCbor v).

Definition decodeCanonicalSqlResult (b : bytes) : result CodecError CanonicalSqlResult :=
  v ← coded (assertCanonicalCbor DEFAULT_DECODE_LIMITS b); canonicalSqlResultFromCbor v.

Definition digestCanonicalSqlResult (sha256 : bytes → bytes) (value : CanonicalSqlResult) :
    result CodecError bytes :=
  name ← coded (utf8 (js "chronolog-canonical-sql-result-v1"));
  b ← encodeCanonicalSqlResult value;
  Ok (sha256 (concatBytes [name; [x00]; b])).

(** ** Programs *)

Definition expectationToCbor (expectation : SqlExpectation) : result CodecError CborValue :=
  match expectation with
  | expect_true => Ok (CArray [CInt 0])
  | expect_inline r => v ← canonicalSqlResultToCbor r; Ok (CArray [CInt 1; v])
  | expect_digest digest => d ← requireDigest digest; Ok (CArray [CInt 2; CBytes d])
  end.

(** The mode an expectation allows. *)
Definition expectation_mode (expectation : SqlExpectation) (mode : SqlResultMode) : bool :=
  match expectation with
  | expect_true => bool_decide (mode = mode_scalar)
  | expect_inline r => bool_decide (res_mode r = mode)
  | expect_digest _ => true
  end.

Definition preconditionToCbor (value : SqlPrecondition) : result CodecError CborValue :=
  id ← safeIndex (pre_id value);
  schema (expectation_mode (pre_expectation value) (pre_resultMode value)) ≫= λ _,
  expectation ← expectationToCbor (pre_expectation value);
  query ← sqlStatementToCanonicalCbor (pre_query value);
  mode ← modeCode (pre_resultMode value);
  Ok (CMap (integerMap [(0, Some (CInt id)); (1, Some query); (2, Some mode); (3, Some expectation);
                        (4, CText <$> pre_label value)])).

Definition expectationFromCbor (tuple : list CborValue) : result CodecError SqlExpectation :=
  schema ((1 <=? length tuple) && (length tuple <=? 2))%nat ≫= λ _,
  kind ← coded (expectUint64 (item tuple 0));
  let has (k : Z) (n : nat) := (kind =? k) && (length tuple =? n)%nat in
  if has 0 1%nat then Ok expect_true
  else if has 1 2%nat then r ← canonicalSqlResultFromCbor (item tuple 1); Ok (expect_inline r)
  else if has 2 2%nat then d ← coded (expectBytes (item tuple 1) (Some 32%nat)); Ok (expect_digest d)
  else Err (Coded SCHEMA_INVALID).

Definition preconditionFromCbor (value : CborValue) : result CodecError SqlPrecondition :=
  map ← coded (expectMap value);
  coded (assertKnownIntegerKeys map [0; 1; 2; 3; 4]) ≫= λ _,
  tuple ← coded (v ← required map 3; expectArray v);
  expectation ← expectationFromCbor tuple;
  mode ← (v ← coded (required map 2); modeFromCbor v);
  schema (expectation_mode expectation mode) ≫= λ _,
  id ← (v ← coded (required map 0); index_field v);
  query ← (v ← coded (required map 1); sqlStatementFromCanonicalCbor v);
  label ← match optional map 4 with
          | None => Ok None
          | Some v => s ← coded (expectString v); Ok (Some s)
          end;
  Ok (mkPrecondition id query mode expectation label).

(** The loop over the preconditions with the set of the ids seen. *)
Fixpoint check_preconditions (ids : jsset Z) (preconditions : list SqlPrecondition) : result CodecError unit :=
  match preconditions with
  | [] => Ok tt
  | p :: rest =>
      schema (negb (set_has (pre_id p) ids)) ≫= λ _,
      preconditionToCbor p ≫= λ _,
      check_preconditions (set_add (pre_id p) ids) rest
  end.

Definition assertValidSqlTransactionProgram (value : SqlTransactionProgram) : result CodecError unit :=
  ensure (prog_version value =? 1) (Coded UNSUPPORTED_VERSION) ≫= λ _,
  schema (0 <? length (prog_preconditions value))%nat ≫= λ _,
  schema (0 <? length (prog_body value))%nat ≫= λ _,
  check_preconditions [] (prog_preconditions value) ≫= λ _,
  mapR sqlStatementToCanonicalCbor (prog_body value) ≫= λ _, Ok tt.

Definition sqlTransactionProgramToCanonicalCbor (value : SqlTransactionProgram) : result CodecError CborValue :=
  assertValidSqlTransactionProgram value ≫= λ _,
  preconditions ← mapR preconditionToCbor (prog_preconditions value);
  body ← mapR sqlStatementToCanonicalCbor (prog_body value);
  Ok (CMap (integerMap [(0, Some (CInt 1)); (1, Some (CArray preconditions)); (2, Some (CArray body))])).

Definition sqlTransactionProgramFromCanonicalCbor (value : CborValue) : result CodecError SqlTransactionProgram :=
  map ← coded (expectMap value);
  coded (assertKnownIntegerKeys map [0; 1; 2]) ≫= λ _,
  coded (expectVersion map 1) ≫= λ _,
  preItems ← coded (v ← required map 1; expectArray v);
  preconditions ← mapR preconditionFromCbor preItems;
  bodyItems ← coded (v ← required map 2; expectArray v);
  body ← mapR sqlStatementFromCanonicalCbor bodyItems;
  let program := mkProgram 1 preconditions body in
  assertValidSqlTransactionProgram program ≫= λ _,
  Ok program.

Definition encodeSqlTransactionProgram (value : SqlTransactionProgram) : result CodecError bytes :=
  v ← sqlTransactionProgramToCanonicalCbor value; coded (encodeCanonicalCbor v).

Definition decodeSqlTransactionProgram (b : bytes) : result CodecError SqlTransactionProgram :=
  v ← coded (assertCanonicalCbor DEFAULT_DECODE_LIMITS b); sqlTransactionProgramFromCanonicalCbor v.

(** ** Result envelopes *)

Definition is_dml (c : SqlStatementClass) : bool :=
  match c with class_insert | class_update | class_delete => true | _ => false end.

Definition assertStatementResultShape (value : AcceptedStatementResult) : result CodecError unit :=
  let class := as_statementClass value in
  schema (bool_decide (is_dml class = bool_decide (is_Some (as_affectedRows value)))) ≫= λ _,
  schema (match class with class_read | class_pragma => bool_decide (is_Some (as_result value)) | _ => true end)
    ≫= λ _,
  schema (match class with class_schema => bool_decide (as_result value = None) | _ => true end) ≫= λ _,
  schema (match as_result value with
          | Some r => negb (is_dml class) || bool_decide (res_mode r = mode_multiset)
          | None => true
          end).

Definition affected_in_range (affected : option Z) : result CodecError unit :=
  match affected with Some n => in_range ((0 <=? n) && (n <=? 2 ^ 63 - 1)) | None => Ok tt end.

Definition acceptedPreconditionToCbor (index : Z) (entry : AcceptedPreconditionResult) : result CodecError CborValue :=
  schema (ap_index entry =? index) ≫= λ _,
  id ← safeIndex (ap_id entry);
  d ← requireDigest (ap_resultDigest entry);
  Ok (CArray [CInt index; CInt id; CBytes d]).

Definition acceptedStatementToCbor (index : Z) (entry : AcceptedStatementResult) : result CodecError CborValue :=
  schema (as_index entry =? index) ≫= λ _,
  let class := index_of STATEMENT_CLASSES (as_statementClass entry) in
  schema (0 <=? class) ≫= λ _,
  affected_in_range (as_affectedRows entry) ≫= λ _,
  assertStatementResultShape entry ≫= λ _,
  affected ← to_nullable (λ n, Ok (CInt n)) (as_affectedRows entry);
  r ← to_nullable canonicalSqlResultToCbor (as_result entry);
  Ok (CArray [CInt index; CInt class; affected; r]).

(** [array.map((entry, index) => ...)] *)
Fixpoint mapi {A B} (f : Z → A → result CodecError B) (index : Z) (l : list A) : result CodecError (list B) :=
  match l with
  | [] => Ok []
  | x :: l' => y ← f index x; ys ← mapi f (index + 1) l'; Ok (y :: ys)
  end.

Definition transactionResultEnvelopeToCanonicalCbor (value : TransactionResultEnvelopeV1) :
    result CodecError CborValue :=
  ensure (tre_version value =? 1) (Coded UNSUPPORTED_VERSION) ≫= λ _,
  preconditions ← mapi acceptedPreconditionToCbor 0 (tre_preconditions value);
  statements ← mapi acceptedStatementToCbor 0 (tre_statements value);
  Ok (CArray [CInt 1; CArray preconditions; CArray statements]).

(** [fields[0] === BigInt(index)] *)
Definition is_index (value : CborValue) (index : Z) : bool :=
  match value with CInt z => z =? index | _ => false end.

Definition acceptedPreconditionFromCbor (index : Z) (entry : CborValue) : result CodecError AcceptedPreconditionResult :=
  fields ← coded (expectArray entry);
  schema ((length fields =? 3)%nat && is_index (item fields 0) index) ≫= λ _,
  id ← index_field (item fields 1);
  d ← coded (expectBytes (item fields 2) (Some 32%nat));
  Ok (mkAcceptedPrecondition index id d).

Definition acceptedStatementFromCbor (index : Z) (entry : CborValue) : result CodecError AcceptedStatementResult :=
  fields ← coded (expectArray entry);
  schema ((length fields =? 4)%nat && is_index (item fields 0) index) ≫= λ _,
  class ← from_table STATEMENT_CLASSES (item fields 1);
  affected ← from_nullable (λ v, coded (expectBigint v)) (item fields 2);
  affected_in_range affected ≫= λ _,
  r ← from_nullable canonicalSqlResultFromCbor (item fields 3);
  let decoded := mkAcceptedStatement index class affected r in
  assertStatementResultShape decoded ≫= λ _, Ok decoded.

Definition transactionResultEnvelopeFromCanonicalCbor (value : CborValue) :
    result CodecError TransactionResultEnvelopeV1 :=
  tuple ← coded (expectArray value);
  ensure ((length tuple =? 3)%nat && is_index (item tuple 0) 1) (Coded UNSUPPORTED_VERSION) ≫= λ _,
  preItems ← coded (expectArray (item tuple 1));
  preconditions ← mapi acceptedPreconditionFromCbor 0 preItems;
  stItems ← coded (expectArray (item tuple 2));
  statements ← mapi acceptedStatementFromCbor 0 stItems;
  Ok (mkResultEnvelope 1 preconditions statements).

Definition encodeTransactionResultEnvelope (value : TransactionResultEnvelopeV1) : result CodecError bytes :=
  v ← transactionResultEnvelopeToCanonicalCbor value; coded (encodeCanonicalCbor v).

Definition decodeTransactionResultEnvelope (b : bytes) : result CodecError TransactionResultEnvelopeV1 :=
  v ← coded (assertCanonicalCbor DEFAULT_DECODE_LIMITS b); transactionResultEnvelopeFromCanonicalCbor v.

Definition digestTransactionResultEnvelope (sha256 : bytes → bytes) (b : bytes) : result CodecError bytes :=
  name ← coded (utf8 (js "chronolog-transaction-result-envelope-v1"));
  Ok (sha256 (concatBytes [name; [x00]; b])).

(** ** Rejections *)

Definition nameToCbor (name : bytes) : result CodecError CborValue := assertNonemptyUtf8 name ≫= λ _, Ok (CBytes name).
Definition nameFromCbor (value : CborValue) : result CodecError bytes :=
  name ← coded (expectBytes value None); assertNonemptyUtf8 name ≫= λ _, Ok name.

Definition canonicalSchemaIdentityToCbor (value : CanonicalSchemaIdentity) : result CodecError CborValue :=
  let kind := index_of SCHEMA_OBJECT_KINDS (si_objectKind value) in
  schema (0 <=? kind) ≫= λ _,
  name ← nameToCbor (si_objectNameUtf8 value);
  containing ← to_nullable nameToCbor (si_containingObjectNameUtf8 value);
  Ok (CArray [CInt 0; CInt kind; name; containing]).

Definition canonicalSchemaIdentityFromCbor (value : CborValue) : result CodecError CanonicalSchemaIdentity :=
  tuple ← coded (expectArray value);
  schema ((length tuple =? 4)%nat && is_index (item tuple 0) 0) ≫= λ _,
  kind ← from_table SCHEMA_OBJECT_KINDS (item tuple 1);
  name ← nameFromCbor (item tuple 2);
  containing ← from_nullable nameFromCbor (item tuple 3);
  Ok (mkSchemaIdentity kind name containing).

Definition assertAttributionShape (value : SqlRejectionAttribution) : result CodecError unit :=
  let present (o : option Z) := bool_decide (is_Some o) in
  let id := present (ra_preconditionId value) in
  let index := present (ra_preconditionIndex value) in
  let statement := present (ra_statementIndex value) in
  schema (match ra_phase value with
          | phase_precondition => id && index && negb statement
          | phase_statement => negb id && negb index && statement
          | phase_finalize => negb id && negb index && negb statement
          end) ≫= λ _,
  schema (match ra_constraintIdentity value with
          | Some i => bool_decide (si_objectKind i = object_constraint)
          | None => true
          end) ≫= λ _,
  schema (match ra_triggerIdentity value with
          | Some i => bool_decide (si_objectKind i = object_trigger)
          | None => true
          end).

Definition nullableIndex (value : option Z) : result CodecError CborValue :=
  to_nullable (λ n, i ← safeIndex n; Ok (CInt i)) value.
Definition nullableCborIndex (value : CborValue) : result CodecError (option Z) := from_nullable index_field value.

Definition sqlRejectionAttributionToCbor (value : SqlRejectionAttribution) : result CodecError CborValue :=
  let phase := index_of REJECTION_PHASES (ra_phase value) in
  schema (0 <=? phase) ≫= λ _,
  schema (canonical_code (ra_code value)) ≫= λ _,
  assertAttributionShape value ≫= λ _,
  id ← nullableIndex (ra_preconditionId value);
  index ← nullableIndex (ra_preconditionIndex value);
  statement ← nullableIndex (ra_statementIndex value);
  constraint ← to_nullable canonicalSchemaIdentityToCbor (ra_constraintIdentity value);
  trigger ← to_nullable canonicalSchemaIdentityToCbor (ra_triggerIdentity value);
  Ok (CArray [CInt phase; CText (ra_code value); id; index; statement; constraint; trigger]).

Definition sqlRejectionAttributionFromCbor (value : CborValue) : result CodecError SqlRejectionAttribution :=
  tuple ← coded (expectArray value);
  schema (length tuple =? 7)%nat ≫= λ _,
  phase ← from_table REJECTION_PHASES (item tuple 0);
  code ← coded (expectString (item tuple 1));
  schema (canonical_code code) ≫= λ _,
  constraint ← from_nullable canonicalSchemaIdentityFromCbor (item tuple 5);
  trigger ← from_nullable canonicalSchemaIdentityFromCbor (item tuple 6);
  id ← nullableCborIndex (item tuple 2);
  index ← nullableCborIndex (item tuple 3);
  statement ← nullableCborIndex (item tuple 4);
  let decoded := mkAttribution phase code id index statement constraint trigger in
  assertAttributionShape decoded ≫= λ _, Ok decoded.

Definition encodeSqlRejectionAttribution (value : SqlRejectionAttribution) : result CodecError bytes :=
  v ← sqlRejectionAttributionToCbor value; coded (encodeCanonicalCbor v).

Definition decodeSqlRejectionAttribution (b : bytes) : result CodecError SqlRejectionAttribution :=
  v ← coded (assertCanonicalCbor DEFAULT_DECODE_LIMITS b); sqlRejectionAttributionFromCbor v.
