(* ===== verification/SqlProofs.v ===== *)
(** * SQL programs and results: the two directions of their codecs

    For each record of [Sql]: what was read is written back as it was, and what
    was written is read back, up to the two exceptions of logical values. *)

From Stdlib Require Import Strings.Byte Strings.String Sorting.Sorted.
From stdpp Require Import base list option numbers sets sorting.
From S2P Require Import Prelude JsMap Bytes Text JsNumber Cbor CborProofs Schema Messages Logical LogicalTheorems Sql.

#[local] Open Scope Z_scope.

(** ** Small readers *)

Lemma safeIndex_Ok n i : safeIndex n = Ok i ↔ i = n ∧ is_uint n = true.
Proof. unfold safeIndex, in_range. destruct (is_uint n); simpl; naive_solver. Qed.

Lemma is_uint_uint64 n : is_uint n = true → 0 ≤ n ≤ MAX_UINT64.
Proof. unfold is_uint, MAX_SAFE_INTEGER, MAX_UINT64. lia. Qed.

Lemma index_field_Ok v n : index_field v = Ok n ↔ v = CInt n ∧ is_uint n = true.
Proof.
  unfold index_field. split.
  - intros H. inv_ok. rewrite coded_Ok, expectUint64_Ok, safeIndex_Ok in *. naive_solver.
  - intros [-> H]. rewrite (proj2 (coded_Ok _ n)); [by apply safeIndex_Ok|].
    apply expectUint64_Ok. split; [done|by apply is_uint_uint64].
Qed.

Lemma positiveIndex_Ok n i : positiveIndex n = Ok i ↔ i = n ∧ 1 ≤ n ≤ MAX_SAFE_INTEGER.
Proof.
  unfold positiveIndex, in_range. destruct (Z.leb_spec 1 n), (Z.leb_spec n MAX_SAFE_INTEGER); simpl;
    split; try naive_solver lia; intros; inv_ok; simplify_eq; lia.
Qed.

Lemma finiteRealBits_Ok b c : finiteRealBits b = Ok c ↔ c = b ∧ length b = 8%nat ∧ finite_bits b = true.
Proof.
  unfold finiteRealBits, schema. destruct (Nat.eqb_spec (length b) 8), (finite_bits b); simpl; naive_solver.
Qed.

Lemma requireDigest_Ok b c : requireDigest b = Ok c ↔ c = b ∧ length b = 32%nat.
Proof. unfold requireDigest, schema. destruct (Nat.eqb_spec (length b) 32); simpl; naive_solver. Qed.

(** A table that lists every value of its type once is read and written by
    position. *)
Class CodeTable {A} `{EqDecision A} (table : list A) : Prop := {
  table_distinct : NoDup table;
  table_complete x : x ∈ table;
  table_small : zlen table ≤ MAX_UINT64;
}.

Ltac code_table :=
  split; [by apply (bool_decide_unpack _)|intros []; by apply (bool_decide_unpack _)|done].
#[export] Instance result_modes : CodeTable RESULT_MODES. Proof. code_table. Qed.
#[export] Instance storage_types : CodeTable STORAGE_TYPES. Proof. code_table. Qed.
#[export] Instance statement_classes : CodeTable STATEMENT_CLASSES. Proof. code_table. Qed.
#[export] Instance schema_object_kinds : CodeTable SCHEMA_OBJECT_KINDS. Proof. code_table. Qed.
#[export] Instance rejection_phases : CodeTable REJECTION_PHASES. Proof. code_table. Qed.

Lemma from_table_Ok {A} `{EqDecision A} (table : list A) `{!CodeTable table} v x :
  from_table table v = Ok x ↔ v = CInt (index_of table x).
Proof.
  unfold from_table, index_of.
  destruct (list_find (λ y, y = x) table) as [[i y]|] eqn:Hf.
  2: { apply list_find_None in Hf. rewrite Forall_forall in Hf. by destruct (Hf x (table_complete x)). }
  apply list_find_Some in Hf as (Hi & -> & _). split.
  - intros H. inv_ok. rename x0 into n. rewrite coded_Ok, expectUint64_Ok in *. destruct_and!. subst.
    destruct (table !! Z.to_nat n) as [y|] eqn:Hn; [|done]. inv_ok. subst.
    f_equal. rewrite <-(NoDup_lookup _ _ _ _ table_distinct Hn Hi). lia.
  - intros ->. rewrite (proj2 (coded_Ok _ (Z.of_nat i))).
    + cbn [mbind result_bind]. by rewrite Nat2Z.id, Hi.
    + apply expectUint64_Ok. split; [done|]. apply lookup_lt_Some in Hi.
      pose proof (table_small (table:=table)) as Hsmall. unfold zlen in Hsmall. lia.
Qed.

Lemma index_of_nonneg {A} `{EqDecision A} (table : list A) `{!CodeTable table} x : (0 <=? index_of table x) = true.
Proof.
  unfold index_of. destruct (list_find (λ y, y = x) table) as [[i y]|] eqn:Hf; [apply Z.leb_le; lia|].
  apply list_find_None in Hf. rewrite Forall_forall in Hf. by destruct (Hf x (table_complete x)).
Qed.

Lemma modeFromCbor_Ok v m : modeFromCbor v = Ok m ↔ v = CInt (index_of RESULT_MODES m).
Proof. apply (from_table_Ok RESULT_MODES). Qed.

Lemma modeCode_exact m : modeCode m = Ok (CInt (index_of RESULT_MODES m)).
Proof. by destruct m. Qed.

(** ** Bindings *)

Definition binding_plain (b : SqlBinding) : bool :=
  match bd_value b with binding_logical v => logical_plain v | binding_real _ => true end.

Definition real_form (l : list CborValue) : bool := match l with [CInt 11; _] => true | _ => false end.

Lemma real_form_true l : real_form l = true → ∃ b, l = [CInt 11; b].
Proof.
  destruct l as [|[| |z| | | |] [|b [|]]]; try done; destruct z as [|p|]; try done;
    do 4 (destruct p as [p|p|]; try done); by exists b.
Qed.

Lemma binding_value_logical l : real_form l = false →
  sqlBindingValueFromCanonicalCbor (CArray l) =
    (v ← logicalValueFromCanonicalCbor (CArray l); Ok (binding_logical v)).
Proof.
  destruct l as [|[| |z| | | |] [|b [|]]]; try done; destruct z as [|p|]; try done;
    do 4 (destruct p as [p|p|]; try done).
Qed.

Lemma logical_not_real l v : logicalValueToCanonicalCbor v = Ok (CArray l) → real_form l = false.
Proof.
  unfold logicalValueToCanonicalCbor. intros H. inv_ok. destruct v; inv_ok; simplify_eq; done.
Qed.

Lemma binding_value_exact v x : encodable v →
  sqlBindingValueFromCanonicalCbor v = Ok x ↔
  sqlBindingValueToCanonicalCbor x = Ok v ∧
  match x with binding_logical l => logical_plain l = true | binding_real _ => True end.
Proof.
  intros Hv. split.
  - intros H. unfold sqlBindingValueFromCanonicalCbor in H. destruct v as [| | | | |l|]; try done.
    destruct (real_form l) eqn:E.
    + apply real_form_true in E as [b ->]. cbn [coded expectArray mbind result_bind] in H. inv_ok. subst.
      rewrite coded_Ok, expectBytes_sized, finiteRealBits_Ok in *. destruct_and!. subst. split; [|done].
      cbn [sqlBindingValueToCanonicalCbor]. by rewrite (proj2 (finiteRealBits_Ok x0 x0)).
    + change (sqlBindingValueFromCanonicalCbor (CArray l) = Ok x) in H.
      rewrite binding_value_logical in H by done. inv_ok. subst. by apply logical_written_back.
  - intros [H Hp]. destruct x as [x|bits]; cbn [sqlBindingValueToCanonicalCbor] in H.
    + assert (∃ l, v = CArray l) as [l ->].
      { unfold logicalValueToCanonicalCbor in H. inv_ok. destruct x; inv_ok; by eexists. }
      rewrite binding_value_logical by (by eapply logical_not_real).
      by rewrite (logical_read_back _ _ Hp H).
    + inv_ok. subst. rewrite finiteRealBits_Ok in *. destruct_and!. subst.
      cbn [sqlBindingValueFromCanonicalCbor coded expectArray mbind result_bind].
      rewrite (proj2 (expectBytes_sized _ 8 bits)) by done. cbn [coded mbind result_bind].
      by rewrite (proj2 (finiteRealBits_Ok bits bits)).
Qed.

(** Facts from the successful reads of the fields of an array. *)
Ltac read_facts :=
  repeat match goal with
  | H : coded _ = Ok _ |- _ => apply coded_Ok in H
  | H : schema _ = Ok _ |- _ => apply schema_Ok in H
  | H : in_range _ = Ok _ |- _ => apply ensure_Ok in H
  | H : expectArray _ = Ok _ |- _ => apply expectArray_Ok in H
  | H : expectBigint _ = Ok _ |- _ => apply expectBigint_Ok in H
  | H : expectString _ = Ok _ |- _ => apply expectString_Ok in H
  | H : expectBytes _ None = Ok _ |- _ => apply expectBytes_any in H
  | H : expectBytes _ (Some _) = Ok _ |- _ => apply expectBytes_sized in H as [? ?]
  | H : expectUint64 _ = Ok _ |- _ => apply expectUint64_Ok in H as [? ?]
  | H : index_field _ = Ok _ |- _ => apply index_field_Ok in H as [? ?]
  | H : safeIndex _ = Ok _ |- _ => apply safeIndex_Ok in H as [? ?]
  | H : positiveIndex _ = Ok _ |- _ => apply positiveIndex_Ok in H as [? ?]
  | H : requireDigest _ = Ok _ |- _ => apply requireDigest_Ok in H as [? ?]
  | H : finiteRealBits _ = Ok _ |- _ => apply finiteRealBits_Ok in H as [? [? ?]]
  | H : modeFromCbor _ = Ok _ |- _ => apply modeFromCbor_Ok in H
  | H : from_table _ _ = Ok _ |- _ => apply from_table_Ok in H; [|apply _]
  | H : (_ =? _)%nat = true |- _ => apply Nat.eqb_eq in H
  | H : (length ?l =? _)%nat && _ = true |- _ => apply andb_true_iff in H as [? ?]
  end; subst.

(** The items of an array of known length. *)
Ltac split_items l :=
  repeat (destruct l as [|? l]; try discriminate); cbn [item lookup list_lookup default from_option id] in *.

(** Rewrites a written field to what is read from it. *)
Ltac read_back :=
  repeat (first
    [ rewrite (proj2 (expectUint64_Ok (CInt _) _)) by (split; [done|first [done|lia]])
    | rewrite (proj2 (expectBytes_sized (CBytes _) _ _)) by done
    | rewrite (proj2 (expectBytes_any (CBytes _) _)) by done
    | rewrite (proj2 (index_field_Ok (CInt _) _)) by done
    | rewrite (proj2 (safeIndex_Ok _ _)) by done
    | rewrite (proj2 (positiveIndex_Ok _ _)) by (split; [done|lia])
    | rewrite (proj2 (requireDigest_Ok _ _)) by done
    | rewrite (proj2 (finiteRealBits_Ok _ _)) by done
    | rewrite (proj2 (modeFromCbor_Ok _ _)) by done
    | rewrite (proj2 (from_table_Ok _ _ _)) by done
    | rewrite index_of_nonneg by apply _
    | rewrite (proj2 (schema_Ok _ tt)) by first [done|lia]
    | progress unfold schema, in_range
    | match goal with H : ?b = true |- context [ensure ?b _] => rewrite H end ];
    cbn [mbind result_bind coded ensure expectArray expectBigint expectString expectMap
         item lookup list_lookup default from_option id length Nat.eqb Nat.leb andb negb]);
  cbn [mbind result_bind coded ensure expectArray expectBigint expectString expectMap
         item lookup list_lookup default from_option id length Nat.eqb Nat.leb andb negb].

Lemma binding_exact v x : encodable v →
  logicalBindingFromCbor v = Ok x ↔ logicalBindingToCbor x = Ok v ∧ binding_plain x = true.
Proof.
  intros Hv. unfold logicalBindingFromCbor, logicalBindingToCbor. split.
  - intros H. inv_ok. subst. read_facts. split_items x0. read_facts. split_items x2. read_facts.
    rename select (sqlBindingValueFromCanonicalCbor _ = Ok _) into Hval.
    apply binding_value_exact in Hval as [Hval Hplain]; [|by eapply encodable_array; [done|right; left]].
    cbn [bd_parameter bd_value]. rewrite Hval. split; [|unfold binding_plain; by case_match].
    destruct (Z.eqb_spec x4 0) as [->|_]; [|destruct (Z.eqb_spec x4 1) as [->|_]; [|done]];
      inv_ok; subst; read_facts; read_back; done.
  - intros [H Hp]. inv_ok. subst. rename select (sqlBindingValueToCanonicalCbor _ = Ok _) into Hval.
    assert (sqlBindingValueFromCanonicalCbor x1 = Ok (bd_value x)) as Hback.
    { apply binding_value_exact; [by eapply encodable_array; [done|right; left]|]. split; [done|].
      unfold binding_plain in Hp. by case_match. }
    destruct x as [[i|n] bv]; cbn [bd_parameter bd_value] in *; inv_ok; subst; read_facts.
    + assert (0 ≤ i ≤ MAX_UINT64) by (unfold MAX_UINT64, MAX_SAFE_INTEGER in *; lia).
      read_back. cbn [Z.eqb]. read_back. by rewrite Hback.
    + read_back. cbn [Z.eqb Pos.eqb]. read_back. by rewrite Hback.
Qed.

(** ** Codecs *)

(** What the two directions of a codec promise each other: a value that was read
    and can be written has the encoding it was read from; a value that was
    written is read back if it is [plain]. *)
Class Codec {A} (from : CborValue → result CodecError A) (to : A → result CodecError CborValue)
    (plain : A → Prop) : Prop := {
  codec_written v x w : encodable v → from v = Ok x → to x = Ok w → plain x ∧ same_encoding v w;
  codec_read w x : encodable w → to x = Ok w → plain x → from w = Ok x;
}.

(** A codec that writes exactly what it read. *)
Lemma exact_codec {A} (from : CborValue → result CodecError A) to (plain : A → Prop) :
  (∀ v x, encodable v → from v = Ok x ↔ to x = Ok v ∧ plain x) → Codec from to plain.
Proof.
  intros H. split.
  - intros v x w Hv Hx Hw. apply H in Hx as [Hx Hp]; [|done]. split; [done|].
    unfold same_encoding. congruence.
  - intros w x Hw Hx Hp. by apply H.
Qed.

#[export] Instance binding_codec : Codec logicalBindingFromCbor logicalBindingToCbor (λ b, binding_plain b = true).
Proof. apply exact_codec, binding_exact. Qed.

Section list_codec.
Context {A} {from : CborValue → result CodecError A} {to plain} `{!Codec from to plain}.

Lemma list_written items xs ws : encodable (CArray items) →
  mapR from items = Ok xs → mapR to xs = Ok ws → Forall plain xs ∧ Forall2 same_encoding items ws.
Proof.
  rewrite !mapR_Ok. intros He Hxs. revert ws.
  assert (∀ v, v ∈ items → encodable v) as Hitems by (intros; by eapply encodable_array).
  clear He. induction Hxs as [|v x items xs Hx _ IH]; intros ws Hws;
    apply Forall2_cons_inv_l in Hws || apply Forall2_nil_inv_l in Hws; [subst; by split|].
  destruct Hws as (w & ws' & Hw & Hws & ->).
  destruct (IH ltac:(intros; apply Hitems; by right) ws' Hws) as [Hp Hs].
  destruct (codec_written v x w (Hitems v ltac:(left)) Hx Hw) as [Hpx Hsx]. by split; constructor.
Qed.

Lemma list_read xs ws : encodable (CArray ws) → mapR to xs = Ok ws → Forall plain xs → mapR from ws = Ok xs.
Proof.
  rewrite !mapR_Ok. intros He Hws Hp. apply Forall2_flip in Hws.
  eapply Forall2_impl_elem; [|exact Hws]. intros w x Hw Hx Hwx.
  apply codec_read; [by eapply encodable_array|done|]. rewrite Forall_forall in Hp. by apply Hp.
Qed.
End list_codec.

(** A record read from a map has the encoding of the record of its fields. *)
Lemma record_read m ks : encodable (CMap m) → assertKnownIntegerKeys m ks = Ok tt → NoDup ks →
  same_encoding (CMap m) (CMap (integerMap (fields_of m ks))).
Proof. intros [b Hb] Hk Hnd. unfold same_encoding. rewrite Hb. symmetry. by apply record_encoding. Qed.

Lemma encodable_field m k v : encodable (CMap m) → map_get (KInt k) m = Some v → encodable v.
Proof. intros Hm Hk%map_get_Some_elem. by eapply encodable_map. Qed.

Lemma encodable_written es k v : encodable (CMap (integerMap es)) → NoDup es.*1 → (k, Some v) ∈ es → encodable v.
Proof. intros He Hnd Hin. eapply encodable_field; [done|]. by apply integerMap_get. Qed.

Lemma same_encoding_refl v : same_encoding v v.
Proof. done. Qed.

(** The goal that a read map and a written record have the same encoding, from
    that of their fields. *)
Ltac same_record Hv :=
  match goal with
  | Hk : assertKnownIntegerKeys ?m _ = Ok _ |- same_encoding (CMap ?m) _ =>
      let Hs := fresh "Hs" in
      pose proof (record_read _ _ Hv (assertKnown_unit _ _ _ Hk) ltac:(literal_nodup)) as Hs;
      fold_fields Hs; refine (eq_trans Hs _); apply record_same_encoding; [literal_nodup|];
      repeat (apply Forall2_cons; split; [split; [done|]|]); try apply Forall2_nil_2; cbn [fst snd];
      try (constructor; first [apply same_encoding_refl | by apply array_same_encoding])
  end.

(** ** Statements *)

Definition statement_plain (s : SqlStatement) : Prop := Forall (λ b, binding_plain b = true) (st_bindings s).

#[export] Instance statement_codec :
  Codec sqlStatementFromCanonicalCbor sqlStatementToCanonicalCbor statement_plain.
Proof.
  split.
  - intros v x w Hv H Hw. unfold sqlStatementFromCanonicalCbor in H. inv_ok. read_facts. inv_ok. read_facts.
    rewrite expectMap_Ok, required_Ok in *. subst.
    unfold sqlStatementToCanonicalCbor in Hw. cbn [st_sql st_bindings] in Hw. inv_ok. read_facts.
    match goal with H1 : map_get (KInt 1) _ = Some _, H2 : mapR logicalBindingFromCbor _ = Ok _,
      H3 : mapR logicalBindingToCbor _ = Ok _ |- _ =>
        destruct (list_written _ _ _ (encodable_field _ _ _ Hv H1) H2 H3) as [Hp Hl] end.
    split; [done|]. same_record Hv.
  - intros w x Hw H Hp. unfold sqlStatementToCanonicalCbor in H. inv_ok. subst.
    unfold sqlStatementFromCanonicalCbor. cbn [expectMap coded mbind result_bind]. read_facts.
    rewrite integerMap_known by (literal_nodup || done). cbn [coded mbind result_bind].
    read_record. read_back. rename select (utf8 _ = Ok _) into Hu. rewrite Hu. read_record. read_back.
    read_record. rename select (mapR _ _ = Ok _) into Hb.
    rewrite (list_read _ _ (encodable_written _ 1 _ Hw ltac:(literal_nodup) ltac:(find_field)) Hb Hp).
    by destruct x.
Qed.

(** ** Columns and values *)

Lemma column_type_exact v t : columnTypeFromCbor v = Ok t ↔ columnTypeToCbor t = Ok v.
Proof.
  unfold columnTypeFromCbor, columnTypeToCbor. split.
  - intros H. inv_ok. read_facts. rename x0 into u.
    rename select (item _ 0 = CInt _) into Htag. read_tagged Htag; read_facts; read_back; try done.
    rename select (logicalTypeFromCanonicalCbor _ = Ok _) into Ht. by rewrite (type_written_back _ _ Ht).
  - destruct t; intros H; inv_ok; read_facts; read_back; cbn [Z.eqb Pos.eqb andb]; read_back; try done.
    rename select (logicalTypeToCanonicalCbor _ = Ok _) into Ht. by rewrite (type_read_back _ _ Ht).
Qed.

Definition column_named (c : CanonicalSqlColumn) : Prop :=
  ∃ s b, textDecode (col_nameUtf8 c) = Some s ∧ utf8 s = Ok b.

Lemma nullable_code_range n : 0 ≤ nullable_code n ≤ MAX_UINT64.
Proof. by destruct n as [[]|]. Qed.

Lemma nullable_code_read n :
  (if nullable_code n =? 0 then Some false else if nullable_code n =? 1 then Some true else None) = n.
Proof. by destruct n as [[]|]. Qed.

Lemma nullable_code_written code : 0 ≤ code ≤ 2 →
  nullable_code (if code =? 0 then Some false else if code =? 1 then Some true else None) = code.
Proof. intros. destruct (Z.eqb_spec code 0), (Z.eqb_spec code 1); simpl; lia. Qed.

Lemma column_exact v c : columnFromCbor v = Ok c ∧ column_named c ↔ columnToCbor c = Ok v.
Proof.
  unfold columnFromCbor, columnToCbor, column_named. split.
  - intros [H (s & b & Hs & Hb)]. inv_ok. read_facts. split_items x. cbn [col_nameUtf8 col_type col_nullable] in *.
    read_facts. rewrite Hs. cbn [mbind result_bind]. rewrite Hb. cbn [coded mbind result_bind].
    rename select (columnTypeFromCbor _ = Ok _) into Ht. rewrite (proj1 (column_type_exact _ _) Ht).
    cbn [mbind result_bind]. by rewrite nullable_code_written by lia.
  - intros H. destruct (textDecode (col_nameUtf8 c)) as [s|] eqn:Hs; [|done]. inv_ok. read_facts.
    split; [|by do 2 eexists]. pose proof (nullable_code_range (col_nullable c)).
    assert ((nullable_code (col_nullable c) <=? 2) = true) as Hn by (by destruct (col_nullable c) as [[]|]).
    assert (valid_text (col_nameUtf8 c) = true) as Hv by (unfold valid_text; by rewrite Hs).
    read_back. rename select (columnTypeToCbor _ = Ok _) into Ht. rewrite (proj2 (column_type_exact _ _) Ht).
    cbn [mbind result_bind]. rewrite nullable_code_read. by destruct c.
Qed.

Definition value_plain (v : CanonicalSqlValue) : bool :=
  match v with sql_logical l => logical_plain l | _ => true end.

Lemma value_exact v x : encodable v →
  canonicalSqlValueFromCbor v = Ok x ↔ canonicalSqlValueToCbor x = Ok v ∧ value_plain x = true.
Proof.
  intros Hv. unfold canonicalSqlValueFromCbor, canonicalSqlValueToCbor. split.
  - intros H. inv_ok. read_facts. rename x1 into u.
    rename select (item _ 0 = CInt _) into Htag. read_tagged Htag; read_facts; read_back; try done.
    rename select (logicalValueFromCanonicalCbor _ = Ok _) into Hl.
    apply logical_written_back in Hl as [-> Hp]; [done|]. eapply encodable_array; [done|right; left].
  - intros [H Hp]. destruct x; inv_ok; read_facts; read_back; cbn [Z.eqb Pos.eqb andb]; read_back; try done.
    rename select (logicalValueToCanonicalCbor _ = Ok _) into Hl. by rewrite (logical_read_back _ _ Hp Hl).
Qed.

#[export] Instance value_codec : Codec canonicalSqlValueFromCbor canonicalSqlValueToCbor (λ v, value_plain v = true).
Proof. apply exact_codec, value_exact. Qed.

Lemma row_exact items row : encodable (CArray items) →
  mapR canonicalSqlValueFromCbor items = Ok row ↔
  mapR canonicalSqlValueToCbor row = Ok items ∧ Forall (λ v, value_plain v = true) row.
Proof.
  intros He. split.
  - intros H. split.
    + apply (mapR_inverse _ _ _ _ H). intros v x Hv Hx. apply value_exact; [by eapply encodable_array|done].
    + apply Forall_forall. intros x Hx. destruct (mapR_elem_r _ _ _ _ H Hx) as (v & Hv & Hvx).
      eapply value_exact; [|done]. by eapply encodable_array.
  - intros [H Hp]. by apply list_read.
Qed.

(** ** Rows *)

Definition row_plain (row : list CanonicalSqlValue) : Prop := Forall (λ v, value_plain v = true) row.

Lemma rowToCbor_exact v row : encodable v →
  rowFromCbor v = Ok row ↔ rowToCbor row = Ok v ∧ row_plain row.
Proof.
  intros Hv. unfold rowFromCbor, rowToCbor. split.
  - intros H. inv_ok. read_facts. apply row_exact in H as [H Hp]; [|done]. by rewrite H.
  - intros [H Hp]. inv_ok. subst. cbn [coded expectArray mbind result_bind]. by apply row_exact.
Qed.

#[export] Instance row_codec : Codec rowFromCbor rowToCbor row_plain.
Proof. apply exact_codec, rowToCbor_exact. Qed.

(** The keys rows are compared by. *)
Definition row_keys (rows : list (list CanonicalSqlValue)) : result CodecError (list bytes) := mapR encodeRow rows.

Definition keyed (p : bytes * list CanonicalSqlValue) : Prop := encodeRow p.2 = Ok p.1.

Lemma keyed_rows rows ps : mapR (λ row, k ← encodeRow row; Ok (k, row)) rows = Ok ps ↔ Forall keyed ps ∧ ps.*2 = rows.
Proof.
  rewrite mapR_Ok. split.
  - induction 1 as [|row p rows ps Hp _ [IH1 IH2]]; [by split|]. inv_ok. subst.
    split; [by constructor|]. by rewrite fmap_cons.
  - intros [Hps <-]. induction Hps as [|p ps Hp _ IH]; [constructor|]. rewrite fmap_cons.
    constructor; [|done]. rewrite Hp. by destruct p.
Qed.

Lemma keyed_keys ps : Forall keyed ps → row_keys ps.*2 = Ok ps.*1.
Proof.
  intros H. apply mapR_Ok. induction H as [|p ps Hp _ IH]; [constructor|].
  rewrite !fmap_cons. by constructor.
Qed.

Lemma row_keys_keyed rows ks : row_keys rows = Ok ks → ∃ ps, Forall keyed ps ∧ ps.*2 = rows ∧ ps.*1 = ks.
Proof.
  unfold row_keys. rewrite mapR_Ok. induction 1 as [|row k rows ks Hk _ (ps & Hps & H2 & H1)].
  - by exists [].
  - exists ((k, row) :: ps). rewrite !fmap_cons, H1, H2. by split; [constructor|].
Qed.

Definition compareKeyed (a b : bytes * list CanonicalSqlValue) : Z := compareBytes a.1 b.1.

#[export] Instance compareKeyed_comparator : Comparator compareKeyed.
Proof. apply (comparator_on fst compareBytes). Qed.

Lemma keyed_sort ps : Forall keyed ps → Forall keyed (js_sort compareKeyed ps).
Proof. intros H. by rewrite js_sort_perm. Qed.

Lemma keyed_sort_keys ps : (js_sort compareKeyed ps).*1 = js_sort compareBytes ps.*1.
Proof. symmetry. by apply js_sort_fmap. Qed.

(** Sorting: the keys of the result are the sorted keys. *)
Lemma sort_rows_keys rows ks sorted : row_keys rows = Ok ks → sort_rows rows = Ok sorted →
  row_keys sorted = Ok (js_sort compareBytes ks).
Proof.
  intros Hks. unfold sort_rows. destruct (length rows <=? 1)%nat eqn:Hn.
  - intros [= <-]. rewrite Hks. f_equal. apply Nat.leb_le in Hn. apply mapR_length in Hks.
    destruct ks as [|k [|]]; simpl in *; [done..|lia].
  - intros H. inv_ok. subst. rename select (mapR _ rows = Ok _) into Hps.
    apply keyed_rows in Hps as [Hps <-]. change (λ a b, _) with compareKeyed.
    rewrite (keyed_keys _ Hps) in Hks. injection Hks as <-.
    rewrite (keyed_keys _ (keyed_sort _ Hps)). by rewrite keyed_sort_keys.
Qed.

Lemma sort_rows_perm rows sorted : sort_rows rows = Ok sorted → sorted ≡ₚ rows.
Proof.
  unfold sort_rows. destruct (length rows <=? 1)%nat; [by intros [= <-]|]. intros H. inv_ok. subst.
  rename select (mapR _ rows = Ok _) into Hps. apply keyed_rows in Hps as [_ <-]. by rewrite js_sort_perm.
Qed.

(** Rows whose keys are sorted are not moved. *)
Lemma sort_rows_id rows ks : row_keys rows = Ok ks → StronglySorted (λ a b, compareBytes a b ≤ 0) ks →
  sort_rows rows = Ok rows.
Proof.
  intros (ps & Hps & <- & <-)%row_keys_keyed Hs. unfold sort_rows. case_match; [done|].
  rewrite (proj2 (keyed_rows _ ps)) by done. cbn [mbind result_bind]. change (λ a b, _) with compareKeyed.
  rewrite (js_sort_id compareKeyed); [done|]. by apply StronglySorted_on in Hs.
Qed.

(** Dropping repeated rows, on the keys. *)
Fixpoint drop_equal (previous : bytes) (ks : list bytes) : list bytes :=
  match ks with
  | [] => []
  | k :: ks' => if compareBytes previous k =? 0 then drop_equal k ks' else k :: drop_equal k ks'
  end.
Definition distinct_keys (ks : list bytes) : list bytes :=
  match ks with [] => [] | k :: ks' => k :: drop_equal k ks' end.

Lemma drop_repeated_keys rows : ∀ previous p ks, encodeRow previous = Ok p → row_keys rows = Ok ks →
  ∃ rest, drop_repeated previous rows = Ok rest ∧ row_keys rest = Ok (drop_equal p ks).
Proof.
  induction rows as [|row rows IH]; intros previous p ks Hp Hks; [injection Hks as <-; by eexists|].
  unfold row_keys in Hks. cbn [mapR] in Hks. inv_ok. subst. rename x into k, x0 into ks.
  rename select (encodeRow row = Ok k) into Hk. rename select (mapR _ rows = Ok ks) into Hks.
  destruct (IH row k ks Hk Hks) as (rest & Hrest & Hkeys). cbn [drop_repeated]. unfold compareRows.
  rewrite Hp, Hk. cbn [mbind result_bind]. rewrite Hrest. cbn [mbind result_bind]. cbn [drop_equal].
  eexists. split; [done|]. destruct (compareBytes p k =? 0); [done|].
  unfold row_keys in *. cbn [mapR]. by rewrite Hk, Hkeys.
Qed.

Lemma distinct_rows_keys rows ks : row_keys rows = Ok ks →
  ∃ distinct, distinct_rows rows = Ok distinct ∧ row_keys distinct = Ok (distinct_keys ks).
Proof.
  destruct rows as [|row rows]; intros H; [injection H as <-; by eexists|].
  unfold row_keys in H. cbn [mapR] in H. inv_ok. subst.
  rename select (encodeRow row = Ok _) into Hk. rename select (mapR _ rows = Ok _) into Hks.
  destruct (drop_repeated_keys rows row _ _ Hk Hks) as (rest & Hrest & Hkeys).
  cbn [distinct_rows distinct_keys]. rewrite Hrest. cbn [mbind result_bind]. eexists. split; [done|].
  unfold row_keys in *. cbn [mapR]. by rewrite Hk, Hkeys.
Qed.

Lemma compareBytes_zero a b : (compareBytes a b =? 0) = true ↔ a = b.
Proof. split; [by intros ->%Z.eqb_eq%cmp_eq|intros ->; by rewrite cmp_refl]. Qed.

(** On sorted keys the result is strictly sorted and has the same elements. *)
Lemma drop_equal_sorted ks : ∀ p, StronglySorted (λ a b, compareBytes a b ≤ 0) (p :: ks) →
  StronglySorted (λ a b, compareBytes a b < 0) (p :: drop_equal p ks) ∧
  (∀ k, k ∈ p :: drop_equal p ks ↔ k ∈ p :: ks).
Proof.
  induction ks as [|k ks IH]; intros p Hs; [split; [repeat constructor|done]|].
  apply StronglySorted_inv in Hs as [Hs Hp]. cbn [drop_equal].
  destruct (IH k Hs) as [IHs IHe]. destruct (compareBytes p k =? 0) eqn:E.
  - apply compareBytes_zero in E as ->. split; [done|]. intros x. rewrite IHe, !elem_of_cons. naive_solver.
  - apply Forall_cons in Hp as [Hpk Hp].
    assert (compareBytes p k < 0) as Hlt by (apply Z.eqb_neq in E; lia). split.
    + constructor; [done|]. apply Forall_forall. intros x Hx. apply IHe in Hx.
      apply elem_of_cons in Hx as [->|Hx]; [done|].
      apply StronglySorted_inv in Hs as [_ Hk]. rewrite Forall_forall in Hk.
      eapply cmp_lt_trans; [apply _|done|]. by apply Hk.
    + intros x. rewrite elem_of_cons, IHe, !elem_of_cons. naive_solver.
Qed.

Lemma distinct_keys_sorted ks : StronglySorted (λ a b, compareBytes a b ≤ 0) ks →
  StronglySorted (λ a b, compareBytes a b < 0) (distinct_keys ks) ∧ (∀ k, k ∈ distinct_keys ks ↔ k ∈ ks).
Proof. destruct ks as [|k ks]; [split; [constructor|done]|]. apply drop_equal_sorted. Qed.

Lemma drop_equal_strict ks : ∀ p, StronglySorted (λ a b, compareBytes a b < 0) (p :: ks) → drop_equal p ks = ks.
Proof.
  induction ks as [|k ks IH]; intros p Hs; [done|]. apply StronglySorted_inv in Hs as [Hs Hp].
  apply Forall_cons in Hp as [Hpk _]. cbn [drop_equal]. rewrite IH by done.
  by rewrite (proj2 (Z.eqb_neq _ _)) by lia.
Qed.

Lemma distinct_rows_id rows ks : row_keys rows = Ok ks →
  StronglySorted (λ a b, compareBytes a b < 0) ks → distinct_rows rows = Ok rows.
Proof.
  cut (∀ rows ks previous p, encodeRow previous = Ok p → row_keys rows = Ok ks →
    StronglySorted (λ a b, compareBytes a b < 0) (p :: ks) → drop_repeated previous rows = Ok rows).
  { intros Hdrop Hks Hs. destruct rows as [|row rows]; [done|]. unfold row_keys in Hks. cbn [mapR] in Hks.
    inv_ok. subst. cbn [distinct_rows]. by erewrite Hdrop. }
  clear. intros rows. induction rows as [|row rows IH]; intros ks previous p Hp Hks Hs; [done|].
  unfold row_keys in Hks. cbn [mapR] in Hks. inv_ok. subst.
  rename select (encodeRow row = Ok _) into Hk. rename select (mapR _ rows = Ok _) into Hks.
  apply StronglySorted_inv in Hs as [Hs Hpk]. apply Forall_cons in Hpk as [Hpk _].
  cbn [drop_repeated]. unfold compareRows. rewrite Hp, Hk. cbn [mbind result_bind].
  rewrite (IH _ _ _ Hk Hks Hs). cbn [mbind result_bind]. by rewrite (proj2 (Z.eqb_neq _ _)) by lia.
Qed.

Definition normal_keys (mode : SqlResultMode) (ks : list bytes) : list bytes :=
  match mode with
  | mode_multiset => js_sort compareBytes ks
  | mode_set => distinct_keys (js_sort compareBytes ks)
  | _ => ks
  end.

Lemma normal_keys_sorted mode ks : mode = mode_multiset ∨ mode = mode_set →
  StronglySorted (λ a b, compareBytes a b ≤ 0) (normal_keys mode ks).
Proof.
  intros [-> | ->]; [apply js_sort_sorted, _|]. cbn [normal_keys].
  destruct (distinct_keys_sorted (js_sort compareBytes ks)) as [Hs _]; [apply js_sort_sorted, _|].
  eapply StronglySorted_weaken; [|exact Hs]. simpl. lia.
Qed.

Lemma sort_rows_total rows ks : row_keys rows = Ok ks → ∃ sorted, sort_rows rows = Ok sorted.
Proof.
  intros (ps & Hps & <- & <-)%row_keys_keyed. unfold sort_rows. case_match; [by eexists|].
  rewrite (proj2 (keyed_rows _ ps)) by done. by eexists.
Qed.

Lemma normalize_keys mode rows ks : row_keys rows = Ok ks →
  ∃ c, normalize_rows mode rows = Ok c ∧ row_keys c = Ok (normal_keys mode ks).
Proof.
  intros Hks. destruct mode; cbn [normalize_rows normal_keys]; [by eexists..| |].
  - destruct (sort_rows_total _ _ Hks) as [sorted Hs]. exists sorted. split; [done|]. by eapply sort_rows_keys.
  - destruct (sort_rows_total _ _ Hks) as [sorted Hs]. rewrite Hs. cbn [mbind result_bind].
    by apply distinct_rows_keys, (sort_rows_keys rows).
Qed.

Lemma normalize_id mode rows ks : row_keys rows = Ok ks → normal_keys mode ks = ks →
  normalize_rows mode rows = Ok rows.
Proof.
  intros Hks Hid. destruct mode; cbn [normalize_rows]; try done.
  - eapply sort_rows_id; [done|]. rewrite <-Hid. apply (normal_keys_sorted mode_multiset). by left.
  - rewrite (sort_rows_id _ _ Hks) by (rewrite <-Hid; apply (normal_keys_sorted mode_set); by right).
    cbn [mbind result_bind]. eapply distinct_rows_id; [done|]. rewrite <-Hid.
    apply distinct_keys_sorted, js_sort_sorted, _.
Qed.

Lemma rows_in_order_keys decoded : ∀ canonical, length decoded = length canonical →
  rows_in_order decoded canonical = Ok tt → ∃ ks, row_keys decoded = Ok ks ∧ row_keys canonical = Ok ks.
Proof.
  induction decoded as [|d decoded IH]; intros [|c canonical] Hlen H; try done; [by exists []|].
  cbn [rows_in_order] in H. unfold compareRows in H. inv_ok. subst. read_facts.
  rename select ((_ =? 0) = true) into Hz. apply compareBytes_zero in Hz. subst.
  destruct (IH canonical) as (ks & Hd & Hc); [simpl in Hlen; lia|done|].
  unfold row_keys in *. cbn [mapR].
  repeat match goal with H : encodeRow _ = Ok _ |- _ => rewrite H end. cbn [mbind result_bind].
  rewrite Hd, Hc. by eexists.
Qed.

(** A result that passed the order check was already normal. *)
Lemma normalize_checked mode rows canonical : normalize_rows mode rows = Ok canonical →
  (match mode with
   | mode_multiset | mode_set =>
       schema (length rows =? length canonical)%nat ≫= λ _, rows_in_order rows canonical
   | _ => Ok tt
   end) = Ok tt → canonical = rows.
Proof.
  intros Hn Hc. assert (mode = mode_scalar ∨ mode = mode_ordered ∨ ∃ ks, row_keys rows = Ok ks ∧ row_keys canonical = Ok ks)
    as [->|[->|(ks & Hks & Hcs)]]; [|by injection Hn..|].
  { destruct mode; [by left|by right; left|..]; right; right; inv_ok; read_facts; by apply rows_in_order_keys. }
  destruct (normalize_keys mode rows ks Hks) as (c & Hc' & Hck). rewrite Hn in Hc'. injection Hc' as <-.
  rewrite Hcs in Hck. injection Hck as Hck. symmetry in Hck.
  rewrite (normalize_id _ _ _ Hks Hck) in Hn. by injection Hn.
Qed.

(** ** Results *)

Definition result_normal (r : CanonicalSqlResult) : Prop := normalize_rows (res_mode r) (res_rows r) = Ok (res_rows r).
Definition result_plain (r : CanonicalSqlResult) : Prop := Forall row_plain (res_rows r) ∧ result_normal r.

Lemma canonicalize_normal r c : canonicalizeSqlResult r = Ok c → result_normal r → c = r.
Proof.
  unfold canonicalizeSqlResult, result_normal. intros H Hn. inv_ok. subst.
  match goal with H : normalize_rows _ _ = Ok _ |- _ => rewrite Hn in H; injection H as <- end. by destruct r.
Qed.

Lemma columns_exact items cs :
  mapR columnFromCbor items = Ok cs ∧ Forall column_named cs ↔ mapR columnToCbor cs = Ok items.
Proof.
  rewrite !mapR_Ok. split.
  - intros [H Hc]. apply Forall2_flip. revert Hc. induction H as [|v c items cs Hv _ IH]; intros Hc; [constructor|].
    apply Forall_cons in Hc as [Hc Hcs]. constructor; [|by apply IH]. by apply column_exact.
  - induction 1 as [|c v cs items Hc _ [IH1 IH2]]; [by split|]. apply column_exact in Hc as [Hv Hc].
    by split; constructor.
Qed.

Lemma rows_exact items rows : encodable (CArray items) →
  mapR rowFromCbor items = Ok rows ↔ mapR rowToCbor rows = Ok items ∧ Forall row_plain rows.
Proof.
  intros He. split.
  - intros H. split.
    + apply (mapR_inverse _ _ _ _ H). intros v x Hv Hx. apply rowToCbor_exact; [by eapply encodable_array|done].
    + apply Forall_forall. intros x Hx. destruct (mapR_elem_r _ _ _ _ H Hx) as (v & Hv & Hvx).
      eapply rowToCbor_exact; [|done]. by eapply encodable_array.
  - intros [H Hp]. by apply list_read.
Qed.

Lemma rows_encode rows items : encodable (CArray items) → mapR rowToCbor rows = Ok items →
  ∃ ks, row_keys rows = Ok ks.
Proof.
  intros He H. exists ((λ row, match encodeRow row with Ok k => k | Err _ => [] end) <$> rows).
  apply mapR_total, Forall_forall. intros row Hrow. destruct (mapR_elem _ _ _ _ H Hrow) as (v & Hv & Hw).
  unfold encodeRow. rewrite Hw. cbn [mbind result_bind].
  destruct (encodable_array _ _ He Hv) as [b Hb]. by rewrite Hb.
Qed.

Lemma rows_in_order_refl rows : ∀ ks, row_keys rows = Ok ks → rows_in_order rows rows = Ok tt.
Proof.
  induction rows as [|row rows IH]; intros ks H; [done|]. unfold row_keys in H. cbn [mapR] in H. inv_ok.
  cbn [rows_in_order]. unfold compareRows. rename select (encodeRow row = Ok _) into Hk. rewrite Hk.
  cbn [mbind result_bind]. rewrite cmp_refl. cbn [schema ensure Z.eqb mbind result_bind]. by eapply IH.
Qed.

(** Results are read exactly from what normal results are written as. *)
Lemma result_exact v r : encodable v →
  canonicalSqlResultFromCbor v = Ok r ∧ Forall column_named (res_columns r) ↔
  canonicalSqlResultToCbor r = Ok v ∧ result_plain r.
Proof.
  intros Hv. unfold canonicalSqlResultFromCbor, canonicalSqlResultToCbor, result_plain. split.
  - intros [H Hc]. inv_ok. read_facts. split_items x. read_facts.
    rename select (mapR rowFromCbor _ = Ok _) into Hrows. rename select (mapR columnFromCbor _ = Ok _) into Hcols.
    rename select (canonicalizeSqlResult _ = Ok _) into Hcan.
    match goal with H : (match ?m with _ => _ end) = Ok ?u |- _ => destruct u; rename H into Hcheck end.
    pose proof Hcan as Hcan'. unfold canonicalizeSqlResult in Hcan'. inv_ok. subst.
    cbn [res_mode res_columns res_rows] in *.
    rename select (normalize_rows _ _ = Ok _) into Hn.
    pose proof (normalize_checked _ _ _ Hn Hcheck) as ->. rewrite Hcan.
    cbn [mbind result_bind res_mode res_columns res_rows]. rewrite modeCode_exact. cbn [mbind result_bind].
    rewrite (proj1 (columns_exact _ _) (conj Hcols Hc)). cbn [mbind result_bind].
    apply rows_exact in Hrows as [-> Hp]; [|by eapply encodable_array; [done|right; right; left]].
    split; [done|]. by split.
  - intros [H [Hp Hn]]. inv_ok. subst. rename select (canonicalizeSqlResult r = Ok _) into Hcan.
    pose proof (canonicalize_normal _ _ Hcan Hn) as ->. rewrite modeCode_exact in *.
    rename select (mapR columnToCbor _ = Ok _) into Hcols. rename select (mapR rowToCbor _ = Ok _) into Hrows.
    apply columns_exact in Hcols as [Hcols Hnamed]. split; [|done]. inv_ok. subst. read_back.
    rewrite Hcols. read_back.
    rewrite (proj2 (rows_exact _ _ (encodable_array _ _ Hv ltac:(right; right; left))) (conj Hrows Hp)).
    cbn [mbind result_bind].
    replace (mkSqlResult (res_mode r) (res_columns r) (res_rows r)) with r by (by destruct r).
    rewrite Hcan. cbn [mbind result_bind].
    destruct (rows_encode _ _ (encodable_array _ _ Hv ltac:(right; right; left)) Hrows) as [ks Hks].
    rewrite Nat.eqb_refl, (rows_in_order_refl _ _ Hks). by destruct (res_mode r).
Qed.

(** A result that was read and can be written is written as it was read. *)
Lemma written_named r w : canonicalSqlResultToCbor r = Ok w → Forall column_named (res_columns r).
Proof.
  unfold canonicalSqlResultToCbor, canonicalizeSqlResult. intros H. inv_ok. subst.
  rename select (mapR columnToCbor _ = Ok _) into Hcols. by apply columns_exact in Hcols as [_ ?].
Qed.

#[export] Instance result_codec : Codec canonicalSqlResultFromCbor canonicalSqlResultToCbor result_plain.
Proof.
  split.
  - intros v r w Hv Hr Hw. destruct (proj1 (result_exact v r Hv) (conj Hr (written_named _ _ Hw))) as [Hv' Hp].
    split; [done|]. unfold same_encoding. congruence.
  - intros w r Hw H Hp. by apply result_exact.
Qed.

(** ** Programs *)

Definition expectation_plain (e : SqlExpectation) : Prop :=
  match e with expect_inline r => result_plain r | _ => True end.
Definition precondition_plain (p : SqlPrecondition) : Prop :=
  expectation_plain (pre_expectation p) ∧ statement_plain (pre_query p).
Definition program_plain (p : SqlTransactionProgram) : Prop :=
  Forall precondition_plain (prog_preconditions p) ∧ Forall statement_plain (prog_body p).

Lemma expectation_written tuple e w : encodable (CArray tuple) → expectationFromCbor tuple = Ok e →
  expectationToCbor e = Ok w → expectation_plain e ∧ same_encoding (CArray tuple) w.
Proof.
  unfold expectationFromCbor. intros He H Hw. inv_ok. read_facts. rename x into u.
  rename select (item _ 0 = CInt _) into Htag. read_tagged Htag; read_facts; cbn [expectationToCbor] in Hw;
    inv_ok; read_facts; try done.
  rename select (canonicalSqlResultFromCbor _ = Ok _) into Hr. rename select (canonicalSqlResultToCbor _ = Ok _) into Hv.
  destruct (codec_written _ _ _ (encodable_array _ _ He ltac:(right; left)) Hr Hv) as [Hp Hs].
  split; [done|]. by apply array_same_encoding; repeat constructor.
Qed.

Lemma expectation_read tuple e : encodable (CArray tuple) → expectationToCbor e = Ok (CArray tuple) →
  expectation_plain e → expectationFromCbor tuple = Ok e.
Proof.
  unfold expectationFromCbor. intros He H Hp. destruct e; cbn [expectationToCbor] in H; inv_ok; read_facts;
    simplify_eq; read_back; cbn [Z.eqb Pos.eqb andb]; read_back; try done.
  erewrite codec_read; [done|eapply encodable_array; [done|right; left]|done|done].
Qed.

Lemma expectation_array e w : expectationToCbor e = Ok w → ∃ tuple, w = CArray tuple.
Proof. destruct e; cbn [expectationToCbor]; intros H; inv_ok; by eexists. Qed.

#[export] Instance precondition_codec : Codec preconditionFromCbor preconditionToCbor precondition_plain.
Proof.
  split.
  - intros v x w Hv H Hw. unfold preconditionFromCbor in H. inv_ok. read_facts. inv_ok. read_facts.
    rewrite expectMap_Ok, required_Ok in *. subst.
    unfold preconditionToCbor in Hw. cbn [pre_id pre_query pre_resultMode pre_expectation pre_label] in Hw.
    inv_ok. read_facts. rewrite modeCode_exact in *. inv_ok. subst.
    match goal with H1 : map_get (KInt 1) _ = Some _, H2 : sqlStatementFromCanonicalCbor _ = Ok _,
      H3 : sqlStatementToCanonicalCbor _ = Ok _ |- _ =>
        destruct (codec_written _ _ _ (encodable_field _ _ _ Hv H1) H2 H3) as [Hp1 Hs1] end.
    match goal with H1 : map_get (KInt 3) _ = Some _, H2 : expectationFromCbor _ = Ok _,
      H3 : expectationToCbor _ = Ok _ |- _ =>
        destruct (expectation_written _ _ _ (encodable_field _ _ _ Hv H1) H2 H3) as [Hp2 Hs2] end.
    split; [done|]. unfold optional in *.
    match goal with H : match map_get (KInt 4) ?m with _ => _ end = Ok ?l |- _ =>
      assert (map_get (KInt 4) m = CText <$> l) as Hlabel
        by (destruct (map_get (KInt 4) m); inv_ok; read_facts; by subst) end.
    same_record Hv; try (by constructor). rewrite Hlabel.
    match goal with |- option_Forall2 _ (CText <$> ?l) _ => by destruct l; constructor end.
  - intros w x Hw H [Hp1 Hp2]. unfold preconditionToCbor in H. inv_ok. subst.
    unfold preconditionFromCbor. cbn [expectMap coded mbind result_bind]. read_facts. rewrite modeCode_exact in *.
    inv_ok. subst. rewrite integerMap_known by (literal_nodup || done). cbn [coded mbind result_bind].
    rename select (expectationToCbor _ = Ok _) into He. rename select (sqlStatementToCanonicalCbor _ = Ok _) into Hq.
    destruct (expectation_array _ _ He) as [tuple ->].
    read_record. read_back.
    rewrite (expectation_read _ _ (encodable_written _ 3 _ Hw ltac:(literal_nodup) ltac:(find_field)) He Hp1).
    cbn [mbind result_bind]. read_record. read_back. read_record. read_back. read_record. read_back.
    erewrite codec_read; [|by eapply (encodable_written _ 1); [done|literal_nodup|find_field]|done|done].
    cbn [mbind result_bind]. unfold optional.
    erewrite integerMap_get; [|literal_nodup|find_field]. destruct x as [? ? ? ? [l|]]; done.
Qed.

Lemma check_preconditions_written ids ps u : check_preconditions ids ps = Ok u →
  ∃ ws, mapR preconditionToCbor ps = Ok ws.
Proof.
  revert ids. induction ps as [|p ps IH]; intros ids H; [by exists []|]. cbn [check_preconditions] in H. inv_ok.
  rename select (preconditionToCbor p = Ok _) into Hp. destruct (IH _ H) as [ws Hws].
  cbn [mapR]. rewrite Hp, Hws. by eexists.
Qed.

Lemma check_preconditions_ids ids ps u : check_preconditions ids ps = Ok u →
  NoDup (pre_id <$> ps) ∧ (∀ p, p ∈ ps → map_get (pre_id p) ids = None).
Proof.
  revert ids. induction ps as [|p ps IH]; intros ids H; [split; [constructor|by intros ? ?%elem_of_nil]|].
  cbn [check_preconditions] in H. inv_ok. read_facts. apply negb_true_iff, map_has_false in H0.
  destruct (IH _ H) as [Hnd Hfresh]. unfold set_add in Hfresh. split.
  - rewrite fmap_cons. constructor; [|done]. intros (q & Hq & Hin)%list_elem_of_fmap.
    specialize (Hfresh q Hin). rewrite <-Hq, map_get_set_eq in Hfresh. done.
  - intros q [->|Hin]%elem_of_cons; [done|]. specialize (Hfresh q Hin).
    rewrite map_get_set in Hfresh. by case_decide.
Qed.

Lemma program_written_total v p : sqlTransactionProgramFromCanonicalCbor v = Ok p →
  ∃ w, sqlTransactionProgramToCanonicalCbor p = Ok w.
Proof.
  unfold sqlTransactionProgramFromCanonicalCbor. intros H. inv_ok. subst.
  match goal with H : assertValidSqlTransactionProgram _ = Ok ?u |- _ => destruct u; rename H into Ha end.
  unfold sqlTransactionProgramToCanonicalCbor. rewrite Ha. cbn [mbind result_bind].
  unfold assertValidSqlTransactionProgram in Ha. inv_ok.
  rename select (check_preconditions _ _ = Ok _) into Hc. destruct (check_preconditions_written _ _ _ Hc) as [ws Hws].
  rewrite Hws. cbn [mbind result_bind]. rename select (mapR sqlStatementToCanonicalCbor _ = Ok _) into Hb.
  rewrite Hb. by eexists.
Qed.

#[export] Instance program_codec :
  Codec sqlTransactionProgramFromCanonicalCbor sqlTransactionProgramToCanonicalCbor program_plain.
Proof.
  split.
  - intros v x w Hv H Hw. unfold sqlTransactionProgramFromCanonicalCbor in H. inv_ok. read_facts. inv_ok. read_facts.
    rewrite expectMap_Ok, required_Ok in *. subst.
    match goal with H : expectVersion _ _ = Ok ?u |- _ => destruct u; apply expectVersion_Ok in H as [? _] end.
    unfold sqlTransactionProgramToCanonicalCbor in Hw. cbn [prog_preconditions prog_body] in Hw. inv_ok. subst.
    match goal with H1 : map_get (KInt 1) _ = Some _, H2 : mapR preconditionFromCbor _ = Ok _,
      H3 : mapR preconditionToCbor _ = Ok _ |- _ =>
        destruct (list_written _ _ _ (encodable_field _ _ _ Hv H1) H2 H3) as [Hp1 Hs1] end.
    match goal with H1 : map_get (KInt 2) _ = Some _, H2 : mapR sqlStatementFromCanonicalCbor _ = Ok _,
      H3 : mapR sqlStatementToCanonicalCbor _ = Ok _ |- _ =>
        destruct (list_written _ _ _ (encodable_field _ _ _ Hv H1) H2 H3) as [Hp2 Hs2] end.
    split; [done|]. same_record Hv.
  - intros w x Hw H [Hp1 Hp2]. unfold sqlTransactionProgramToCanonicalCbor in H. inv_ok. subst.
    match goal with H : assertValidSqlTransactionProgram _ = Ok ?u |- _ => destruct u; rename H into Ha end.
    unfold sqlTransactionProgramFromCanonicalCbor. cbn [expectMap coded mbind result_bind].
    rewrite integerMap_known by (literal_nodup || done). cbn [coded mbind result_bind].
    rename select (mapR preconditionToCbor _ = Ok _) into H1. rename select (mapR sqlStatementToCanonicalCbor _ = Ok _) into H2.
    read_record. read_back. read_record. read_back.
    rewrite (list_read (from:=preconditionFromCbor) _ _
      (encodable_written _ 1 _ Hw ltac:(literal_nodup) ltac:(find_field)) H1 Hp1).
    cbn [mbind result_bind]. read_record. read_back.
    rewrite (list_read (from:=sqlStatementFromCanonicalCbor) _ _
      (encodable_written _ 2 _ Hw ltac:(literal_nodup) ltac:(find_field)) H2 Hp2).
    cbn [mbind result_bind].
    assert (mkProgram 1 (prog_preconditions x) (prog_body x) = x) as ->.
    { unfold assertValidSqlTransactionProgram in Ha. inv_ok. rename select ((_ =? 1) = true) into Hv.
      apply Z.eqb_eq in Hv. destruct x. simpl in *. congruence. }
    by rewrite Ha.
Qed.

(** ** Result envelopes *)

Section indexed_codec.
Context {A} {from : Z → CborValue → result CodecError A} {to : Z → A → result CodecError CborValue}
  {plain : A → Prop} `{!∀ i, Codec (from i) (to i) plain}.

Lemma indexed_written items : ∀ i xs ws, (∀ v, v ∈ items → encodable v) →
  mapi from i items = Ok xs → mapi to i xs = Ok ws → Forall plain xs ∧ Forall2 same_encoding items ws.
Proof.
  induction items as [|v items IH]; intros i xs ws He Hxs Hws; cbn [mapi] in Hxs; inv_ok; subst;
    cbn [mapi] in Hws; inv_ok; subst; [by split|].
  edestruct IH as [Hp Hs]; [intros; apply He; by right|done|done|].
  edestruct (codec_written (from:=from i) (to:=to i)) as [Hpx Hsx]; [apply He; left|done|done|].
  by split; constructor.
Qed.

Lemma indexed_read xs : ∀ i ws, (∀ w, w ∈ ws → encodable w) →
  mapi to i xs = Ok ws → Forall plain xs → mapi from i ws = Ok xs.
Proof.
  induction xs as [|x xs IH]; intros i ws He Hws Hp; cbn [mapi] in Hws; inv_ok; subst; [done|].
  apply Forall_cons in Hp as [Hpx Hp]. cbn [mapi].
  erewrite (codec_read (from:=from i) (to:=to i)); [|apply He; left|done|done]. cbn [mbind result_bind].
  erewrite IH; [done|intros; apply He; by right|done|done].
Qed.
End indexed_codec.

Lemma is_index_true v i : is_index v i = true ↔ v = CInt i.
Proof. destruct v; simpl; rewrite ?Z.eqb_eq; split; congruence. Qed.

#[export] Instance accepted_precondition_codec i :
  Codec (acceptedPreconditionFromCbor i) (acceptedPreconditionToCbor i) (λ _, True).
Proof.
  apply exact_codec. intros v x _. unfold acceptedPreconditionFromCbor, acceptedPreconditionToCbor. split.
  - intros H. inv_ok. read_facts. split_items x0. rewrite is_index_true in *. read_facts. cbn [ap_index ap_id ap_resultDigest].
    rewrite Z.eqb_refl. read_back. done.
  - intros [H _]. inv_ok. read_facts. rename select ((_ =? _) = true) into Hi. apply Z.eqb_eq in Hi.
    read_back. rewrite (proj2 (is_index_true (CInt i) i)) by done. read_back. destruct x. simpl in *. congruence.
Qed.

(** Optional fields. *)
Definition option_plain {A} (plain : A → Prop) (o : option A) : Prop :=
  match o with Some x => plain x | None => True end.

Lemma nullable_written {A} (from : CborValue → result CodecError A) to plain `{!Codec from to plain} v o w :
  encodable v → from_nullable from v = Ok o → to_nullable to o = Ok w → option_plain plain o ∧ same_encoding v w.
Proof.
  intros Hv H Hw. destruct o as [x|]; cbn [to_nullable option_plain] in *.
  - assert (from v = Ok x) as Hx by (destruct v; unfold from_nullable in H; inv_ok; by simplify_eq).
    by eapply codec_written.
  - destruct v; unfold from_nullable in H; inv_ok; by simplify_eq.
Qed.

Lemma nullable_read {A} (from : CborValue → result CodecError A) to plain `{!Codec from to plain} w o :
  encodable w → to_nullable to o = Ok w → option_plain plain o → (∀ x, to x ≠ Ok CNull) →
  from_nullable from w = Ok o.
Proof.
  intros Hw H Hp Hn. destruct o as [x|]; cbn [to_nullable option_plain] in *; [|by injection H as <-].
  destruct w; try (by destruct (Hn x)); cbn [from_nullable]; by rewrite (codec_read _ x Hw H Hp).
Qed.

#[export] Instance bigint_codec : Codec (λ v, coded (expectBigint v)) (λ n, Ok (CInt n)) (λ _, True).
Proof.
  apply exact_codec. intros v x _. rewrite coded_Ok, expectBigint_Ok. naive_solver.
Qed.

#[export] Instance index_codec : Codec index_field (λ n, i ← safeIndex n; Ok (CInt i)) (λ _, True).
Proof.
  apply exact_codec. intros v x _. rewrite index_field_Ok. split.
  - intros [-> H]. rewrite (proj2 (safeIndex_Ok x x)) by done. done.
  - intros [H _]. inv_ok. read_facts. done.
Qed.

#[export] Instance name_codec : Codec nameFromCbor nameToCbor (λ _, True).
Proof.
  apply exact_codec. intros v x _. unfold nameFromCbor, nameToCbor. split.
  - intros H. inv_ok. read_facts. rename select (assertNonemptyUtf8 _ = Ok _) into Hn. by rewrite Hn.
  - intros [H _]. inv_ok. subst. rename select (assertNonemptyUtf8 _ = Ok _) into Hn.
    cbn [coded expectBytes mbind result_bind]. by rewrite Hn.
Qed.

Definition accepted_plain (a : AcceptedStatementResult) : Prop := option_plain result_plain (as_result a).

Lemma result_not_null r : canonicalSqlResultToCbor r ≠ Ok CNull.
Proof. unfold canonicalSqlResultToCbor. intros H. by inv_ok. Qed.

(** The items of an array that can be encoded, by position. *)
Ltac encodable_item H := eapply encodable_array; [exact H|by repeat (left || right)].

Ltac written_nullable from Hv :=
  match goal with
  | H : from_nullable from ?v = Ok ?o, H2 : to_nullable _ ?o = Ok _ |- _ =>
      let He := fresh in assert (encodable v) as He by encodable_item Hv;
      destruct (nullable_written from _ _ _ _ _ He H H2) as [? ?]; clear H H2
  end.
Ltac read_nullable from Hw :=
  match goal with
  | H : to_nullable _ ?o = Ok ?w |- context [from_nullable from ?w] =>
      let He := fresh in assert (encodable w) as He by encodable_item Hw;
      rewrite (nullable_read from _ _ w o He H); cbn [mbind result_bind]
  end.

#[export] Instance accepted_statement_codec i :
  Codec (acceptedStatementFromCbor i) (acceptedStatementToCbor i) accepted_plain.
Proof.
  split.
  - intros v x w Hv H Hw. unfold acceptedStatementFromCbor in H. inv_ok. read_facts. split_items x0.
    rewrite is_index_true in *. read_facts. unfold acceptedStatementToCbor, accepted_plain in *.
    cbn [as_index as_statementClass as_affectedRows as_result] in *. inv_ok. read_facts.
    written_nullable (λ v, coded (expectBigint v)) Hv. written_nullable canonicalSqlResultFromCbor Hv.
    split; [done|]. apply array_same_encoding. by repeat constructor.
  - intros w x Hw H Hp. unfold acceptedStatementToCbor in H. inv_ok. subst. read_facts.
    rename select ((_ =? _) = true) into Hi. apply Z.eqb_eq in Hi.
    unfold acceptedStatementFromCbor. read_back. rewrite (proj2 (is_index_true (CInt i) i)) by done. read_back.
    read_nullable (λ v, coded (expectBigint v)) Hw; [|by destruct (as_affectedRows x)|done].
    match goal with H : affected_in_range _ = Ok ?u |- _ => destruct u; rewrite H end. cbn [mbind result_bind].
    read_nullable canonicalSqlResultFromCbor Hw; [|done|apply result_not_null].
    assert (mkAcceptedStatement i (as_statementClass x) (as_affectedRows x) (as_result x) = x) as ->
      by (destruct x; simpl in *; congruence).
    match goal with H : assertStatementResultShape _ = Ok ?u |- _ => by rewrite H end.
Qed.

Definition envelope_plain (e : TransactionResultEnvelopeV1) : Prop := Forall accepted_plain (tre_statements e).

#[export] Instance envelope_codec_instance :
  Codec transactionResultEnvelopeFromCanonicalCbor transactionResultEnvelopeToCanonicalCbor envelope_plain.
Proof.
  split.
  - intros v x w Hv H Hw. unfold transactionResultEnvelopeFromCanonicalCbor in H. inv_ok. read_facts. split_items x0.
    rewrite is_index_true in *. read_facts. unfold transactionResultEnvelopeToCanonicalCbor, envelope_plain in *.
    cbn [tre_version tre_preconditions tre_statements] in *. inv_ok. subst.
    match goal with Hf : mapi acceptedPreconditionFromCbor _ ?l = _, Ht : mapi acceptedPreconditionToCbor _ _ = _ |- _ =>
      assert (encodable (CArray l)) as He by encodable_item Hv;
      destruct (indexed_written (from:=acceptedPreconditionFromCbor) l _ _ _ (λ v, encodable_array _ v He) Hf Ht) as [_ Hl]
    end.
    match goal with Hf : mapi acceptedStatementFromCbor _ ?l = _, Ht : mapi acceptedStatementToCbor _ _ = _ |- _ =>
      assert (encodable (CArray l)) as He' by encodable_item Hv;
      destruct (indexed_written (from:=acceptedStatementFromCbor) l _ _ _ (λ v, encodable_array _ v He') Hf Ht) as [Hp Hs]
    end.
    split; [done|]. apply array_same_encoding. constructor; [done|].
    constructor; [by apply array_same_encoding|]. constructor; [by apply array_same_encoding|constructor].
  - intros w x Hw H Hp. unfold transactionResultEnvelopeToCanonicalCbor in H. inv_ok. subst.
    rename select ((_ =? 1) = true) into Hone. apply Z.eqb_eq in Hone.
    unfold transactionResultEnvelopeFromCanonicalCbor. read_back.
    rewrite (proj2 (is_index_true (CInt 1) 1)) by done. read_back.
    match goal with Ht : mapi acceptedPreconditionToCbor _ ?xs = Ok ?ws |- _ =>
      assert (encodable (CArray ws)) as He by encodable_item Hw;
      rewrite (indexed_read (from:=acceptedPreconditionFromCbor) (plain:=λ _, True) xs _ ws
        (λ v, encodable_array _ v He) Ht) by (by apply Forall_true) end.
    read_back. match goal with Ht : mapi acceptedStatementToCbor _ ?xs = Ok ?ws |- _ =>
      assert (encodable (CArray ws)) as He' by encodable_item Hw;
      rewrite (indexed_read (from:=acceptedStatementFromCbor) xs _ ws
        (λ v, encodable_array _ v He') Ht Hp) end.
    cbn [mbind result_bind]. destruct x; simpl in *; congruence.
Qed.

(** ** Rejections *)

#[export] Instance identity_codec :
  Codec canonicalSchemaIdentityFromCbor canonicalSchemaIdentityToCbor (λ _, True).
Proof.
  split.
  - intros v x w Hv H Hw. unfold canonicalSchemaIdentityFromCbor in H. inv_ok. read_facts. split_items x0.
    rewrite is_index_true in *. read_facts. unfold canonicalSchemaIdentityToCbor in Hw.
    cbn [si_objectKind si_objectNameUtf8 si_containingObjectNameUtf8] in Hw. inv_ok. subst.
    written_nullable nameFromCbor Hv.
    match goal with H1 : nameFromCbor ?v = Ok _, H2 : nameToCbor _ = Ok _ |- _ =>
      assert (encodable v) as He by encodable_item Hv;
      destruct (codec_written (from:=nameFromCbor) _ _ _ He H1 H2) as [_ ?] end.
    split; [done|]. apply array_same_encoding. by repeat constructor.
  - intros w x Hw H _. unfold canonicalSchemaIdentityToCbor in H. inv_ok. subst. read_facts.
    unfold canonicalSchemaIdentityFromCbor. read_back. rewrite (proj2 (is_index_true (CInt 0) 0)) by done. read_back.
    match goal with H1 : nameToCbor _ = Ok ?v |- _ =>
      assert (encodable v) as He by encodable_item Hw;
      rewrite (codec_read (from:=nameFromCbor) _ _ He H1 I) end. cbn [mbind result_bind].
    read_nullable nameFromCbor Hw; [by destruct x|by destruct (si_containingObjectNameUtf8 x)|].
    intros y Hy. unfold nameToCbor in Hy. by inv_ok.
Qed.

Lemma identity_not_null i : canonicalSchemaIdentityToCbor i ≠ Ok CNull.
Proof. unfold canonicalSchemaIdentityToCbor. intros H. by inv_ok. Qed.

#[export] Instance attribution_codec :
  Codec sqlRejectionAttributionFromCbor sqlRejectionAttributionToCbor (λ _, True).
Proof.
  split.
  - intros v x w Hv H Hw. unfold sqlRejectionAttributionFromCbor in H. inv_ok. read_facts. split_items x0.
    read_facts. unfold sqlRejectionAttributionToCbor, nullableIndex, nullableCborIndex in *.
    cbn [ra_phase ra_code ra_preconditionId ra_preconditionIndex ra_statementIndex ra_constraintIdentity
         ra_triggerIdentity] in Hw. inv_ok. subst.
    do 3 written_nullable index_field Hv. do 2 written_nullable canonicalSchemaIdentityFromCbor Hv.
    split; [done|]. apply array_same_encoding. by repeat constructor.
  - intros w x Hw H _. unfold sqlRejectionAttributionToCbor, nullableIndex in H. inv_ok. subst. read_facts.
    unfold sqlRejectionAttributionFromCbor, nullableCborIndex. read_back.
    assert (∀ n : Z, (i ← safeIndex n; Ok (CInt i)) ≠ Ok CNull) as Hindex by (intros n Hn; by inv_ok).
    assert (∀ {A} (o : option A), option_plain (λ _, True) o) as Hany by (by intros ? []).
    do 2 (read_nullable canonicalSchemaIdentityFromCbor Hw; [|apply Hany|apply identity_not_null]).
    do 3 (read_nullable index_field Hw; [|apply Hany|apply Hindex]).
    match goal with |- (assertAttributionShape ?y ≫= _) = _ => replace y with x by (by destruct x) end.
    rename select (assertAttributionShape _ = Ok _) into Hshape. by rewrite Hshape.
Qed.
