(* ===== verification/SqlTheorems.v ===== *)
(** * Canonical results: what their bytes identify

    The digest of a query result is what a precondition pins and what replicas
    compare.  The bytes it is taken of identify the result as its mode defines
    it: a list, a multiset or a set of rows. *)

From Stdlib Require Import Strings.Byte Strings.String Sorting.Sorted.
From stdpp Require Import base list option numbers sets sorting.
From S2P Require Import Prelude JsMap Bytes Text JsNumber Cbor CborProofs CborTheorems Schema Messages Logical LogicalTheorems Sql SqlProofs.

#[local] Open Scope Z_scope.

(** ** The encoding of a canonical form *)

Lemma encode_canonical_form v : ∀ b, encodeCanonicalCbor v = Ok b → encodeCanonicalCbor (canonical_form v) = Ok b.
Proof.
  induction v as [|bo|z|s|by_|l IH|m IH] using CborValue_nested_ind; intros b Hb; try done; rewrite Forall_forall in IH.
  - rewrite <-Hb. symmetry. apply array_same_encoding. cbn [canonical_form].
    apply Forall2_fmap_r, Forall_Forall2_diag, Forall_forall. intros x Hx.
    destruct (encode_array_item _ _ _ Hb Hx) as (c & Hc & _). unfold same_encoding. rewrite Hc. symmetry. by apply IH.
  - cbn [canonical_form]. eapply (encode_map_perm ((λ e, (e.1, canonical_form e.2)) <$> m)).
    + rewrite js_sort_perm, <-list_fmap_compose. apply reflexive_eq, list_fmap_ext. by intros ? [].
    + rewrite <-Hb. cbn [encodeCanonicalCbor]. f_equal. symmetry.
      assert (∀ k v, (k, v) ∈ m → encodeCanonicalCbor (canonical_form v) = encodeCanonicalCbor v) as Hm.
      { intros k v Hv. destruct (encode_map_item _ _ _ _ Hb Hv) as [_ (c & Hc & _)]. rewrite Hc. by apply (IH (k, v)). }
      clear Hb IH. induction m as [|[k v] m IHm]; [done|]. rewrite fmap_cons. cbn [mapR fst snd].
      rewrite (Hm k v) by left. rewrite IHm by (intros; eapply Hm; by right). done.
Qed.

(** ** Columns *)

Lemma type_flat t v : logicalTypeToCanonicalCbor t = Ok v → canonical_form v = v.
Proof.
  unfold logicalTypeToCanonicalCbor. intros H. inv_ok. destruct t as [| | | |[]| | | | |]; inv_ok; subst;
    repeat match goal with H : uint _ = Ok _ |- _ => apply uint_Ok in H as [-> _] end; done.
Qed.

Lemma column_flat c v : columnToCbor c = Ok v → canonical_form v = v.
Proof.
  unfold columnToCbor. intros H. inv_ok. subst. cbn [canonical_form fmap list_fmap]. do 3 f_equal.
  rename select (columnTypeToCbor _ = Ok _) into Ht. unfold columnTypeToCbor in Ht.
  destruct (col_type c); inv_ok; read_facts; try done.
  cbn [canonical_form fmap list_fmap]. by erewrite type_flat.
Qed.

Lemma columns_flat cs vs : mapR columnToCbor cs = Ok vs → canonical_form <$> vs = vs.
Proof.
  rewrite mapR_Ok. induction 1 as [|c v cs vs Hv _ IH]; [done|]. rewrite fmap_cons, IH. by erewrite column_flat.
Qed.

Lemma columns_determined cs1 cs2 vs : mapR columnToCbor cs1 = Ok vs → mapR columnToCbor cs2 = Ok vs → cs1 = cs2.
Proof. intros [H1 _]%columns_exact [H2 _]%columns_exact. congruence. Qed.

(** ** Rows *)

(** A normalized result with keys comes from rows with keys. *)
Lemma normalized_keys mode rows c kc : normalize_rows mode rows = Ok c → row_keys c = Ok kc →
  ∃ ks, row_keys rows = Ok ks ∧ kc = normal_keys mode ks.
Proof.
  intros Hn Hc. assert (∃ ks, row_keys rows = Ok ks) as [ks Hks].
  - destruct (length rows <=? 1)%nat eqn:Hlen.
    + assert (c = rows) as ->; [|by eexists]. destruct mode; cbn [normalize_rows] in Hn; unfold sort_rows in Hn;
        rewrite ?Hlen in Hn; cbn [mbind result_bind] in Hn; inv_ok; try done.
      destruct rows as [|row [|]]; cbn [distinct_rows drop_repeated mbind result_bind] in Hn; inv_ok; done.
    + destruct mode; cbn [normalize_rows] in Hn; inv_ok; subst; [by eexists..| |];
        unfold sort_rows in *; rewrite Hlen in *; inv_ok; subst;
        rename select (mapR _ rows = Ok _) into Hps; apply keyed_rows in Hps as [Hps <-];
        eexists; by apply keyed_keys.
  - exists ks. split; [done|]. destruct (normalize_keys mode rows ks Hks) as (c' & Hc' & Hk). congruence.
Qed.

Lemma rows_same_encoding rows1 rows2 vs1 vs2 ks :
  mapR rowToCbor rows1 = Ok vs1 → mapR rowToCbor rows2 = Ok vs2 →
  row_keys rows1 = Ok ks → row_keys rows2 = Ok ks → Forall2 same_encoding vs1 vs2.
Proof.
  unfold row_keys. rewrite !mapR_Ok. intros H1 H2 K1 K2. revert rows2 vs2 ks H2 K1 K2.
  induction H1 as [|row1 v1 rows1 vs1 Hv1 _ IH]; intros rows2 vs2 ks H2 K1 K2.
  - apply Forall2_nil_inv_l in K1 as ->. apply Forall2_nil_inv_r in K2 as ->. by apply Forall2_nil_inv_l in H2 as ->.
  - apply Forall2_cons_inv_l in K1 as (k & ks' & Hk1 & K1 & ->).
    apply Forall2_cons_inv_r in K2 as (row2 & rows2' & Hk2 & K2 & ->).
    apply Forall2_cons_inv_l in H2 as (v2 & vs2' & Hv2 & H2 & ->). constructor; [|by eapply IH].
    unfold encodeRow in Hk1, Hk2. rewrite Hv1 in Hk1. rewrite Hv2 in Hk2. cbn [mbind result_bind] in *.
    rewrite coded_Ok in *. unfold same_encoding. congruence.
Qed.

Lemma rows_same_keys rows1 rows2 vs1 vs2 k1 k2 :
  mapR rowToCbor rows1 = Ok vs1 → mapR rowToCbor rows2 = Ok vs2 → canonical_form <$> vs1 = canonical_form <$> vs2 →
  row_keys rows1 = Ok k1 → row_keys rows2 = Ok k2 → k1 = k2.
Proof.
  unfold row_keys. rewrite !mapR_Ok. intros H1 H2 Hv K1 K2. revert rows2 vs2 k1 k2 H2 Hv K1 K2.
  induction H1 as [|row1 v1 rows1 vs1 Hv1 _ IH]; intros rows2 vs2 k1 k2 H2 Hv K1 K2.
  - apply Forall2_nil_inv_l in K1 as ->. destruct vs2; [|done]. apply Forall2_nil_inv_r in H2 as ->.
    by apply Forall2_nil_inv_l in K2 as ->.
  - destruct vs2 as [|v2 vs2]; [done|]. rewrite !fmap_cons in Hv. injection Hv as Hv Hvs.
    apply Forall2_cons_inv_r in H2 as (row2 & rows2' & Hv2 & H2 & ->).
    apply Forall2_cons_inv_l in K1 as (a & k1' & Ha & K1 & ->). apply Forall2_cons_inv_l in K2 as (b & k2' & Hb & K2 & ->).
    f_equal; [|by eapply IH]. unfold encodeRow in Ha, Hb. rewrite Hv1 in Ha. rewrite Hv2 in Hb.
    cbn [mbind result_bind] in *. apply coded_Ok, encode_canonical_form in Ha. apply coded_Ok, encode_canonical_form in Hb.
    congruence.
Qed.

(** The rows of two results are the same for a mode, by their keys. *)
Definition same_rows (mode : SqlResultMode) (k1 k2 : list bytes) : Prop :=
  match mode with
  | mode_scalar | mode_ordered => k1 = k2
  | mode_multiset => k1 ≡ₚ k2
  | mode_set => ∀ k, k ∈ k1 ↔ k ∈ k2
  end.

Lemma strict_same_elements l1 : ∀ l2, StronglySorted (λ a b, compareBytes a b < 0) l1 →
  StronglySorted (λ a b, compareBytes a b < 0) l2 → (∀ k, k ∈ l1 ↔ k ∈ l2) → l1 = l2.
Proof.
  intros l2 H1 H2 Hk.
  assert (∀ l, StronglySorted (λ a b, compareBytes a b < 0) l → js_sort compareBytes l = l) as Hid.
  { intros l Hl. apply (js_sort_id compareBytes). eapply StronglySorted_weaken; [|exact Hl]. simpl. lia. }
  rewrite <-(Hid l1), <-(Hid l2) by done. apply (js_sort_perm_eq compareBytes).
  apply NoDup_Permutation; [by apply (strict_sorted_NoDup compareBytes)..|done].
Qed.

Lemma normal_keys_same mode k1 k2 : normal_keys mode k1 = normal_keys mode k2 ↔ same_rows mode k1 k2.
Proof.
  destruct mode; cbn [normal_keys same_rows]; [done..| |].
  - split; [|by apply (js_sort_perm_eq compareBytes)]. intros H.
    by rewrite <-(js_sort_perm compareBytes k1), H, js_sort_perm.
  - pose proof (λ k, distinct_keys_sorted _ (js_sort_sorted compareBytes k)) as Hd.
    destruct (Hd k1) as [S1 E1], (Hd k2) as [S2 E2]. split.
    + intros H k. rewrite <-(elem_of_js_sort compareBytes k k1), <-E1, H, E2. apply elem_of_js_sort.
    + intros H. apply strict_same_elements; [done..|]. intros k. rewrite E1, E2, !elem_of_js_sort. apply H.
Qed.

(** ** The theorem *)

(** The parts of the CBOR form of a result. *)
Lemma result_parts r v : canonicalSqlResultToCbor r = Ok v →
  ∃ cols rows, v = CArray [CInt (index_of RESULT_MODES (res_mode r)); CArray cols; CArray rows] ∧
    mapR columnToCbor (res_columns r) = Ok cols ∧
    ∃ canonical, normalize_rows (res_mode r) (res_rows r) = Ok canonical ∧ mapR rowToCbor canonical = Ok rows.
Proof.
  unfold canonicalSqlResultToCbor, canonicalizeSqlResult. intros H. inv_ok. subst.
  cbn [res_mode res_columns res_rows] in *. rewrite modeCode_exact in *. inv_ok. subst. eauto 10.
Qed.

Lemma index_of_inj {A} `{EqDecision A} (table : list A) `{!CodeTable table} x y :
  index_of table x = index_of table y → x = y.
Proof.
  intros H. assert (from_table table (CInt (index_of table x)) = Ok x) as Hx by (by apply from_table_Ok).
  rewrite H, (proj2 (from_table_Ok table _ y)) in Hx by done. congruence.
Qed.

(** the canonical bytes of a query result identify it.  Whenever two results
    can be encoded, every row of each has a key (its own canonical bytes), and the
    two encodings are equal exactly when the results have the same mode and
    columns and the same rows as the mode counts them: in order for [scalar] and
    [ordered], with repetitions but in any order for [multiset], and as a set for
    [set]. *)
Theorem result_bytes_identify r1 r2 b1 b2 :
  encodeCanonicalSqlResult r1 = Ok b1 → encodeCanonicalSqlResult r2 = Ok b2 → zlen b1 ≤ MAX_SAFE_INTEGER →
  ∃ k1 k2, row_keys (res_rows r1) = Ok k1 ∧ row_keys (res_rows r2) = Ok k2 ∧
    (b1 = b2 ↔ res_mode r1 = res_mode r2 ∧ res_columns r1 = res_columns r2 ∧ same_rows (res_mode r1) k1 k2).
Proof.
  unfold encodeCanonicalSqlResult. intros H1 H2 Hlen. inv_ok. rewrite coded_Ok in *.
  rename select (canonicalSqlResultToCbor r1 = Ok _) into Hv1. rename select (canonicalSqlResultToCbor r2 = Ok _) into Hv2.
  apply result_parts in Hv1 as (cols1 & rows1 & -> & Hc1 & n1 & Hn1 & Hr1).
  apply result_parts in Hv2 as (cols2 & rows2 & -> & Hc2 & n2 & Hn2 & Hr2).
  assert (encodable (CArray rows1)) as He1 by (eapply encodable_array; [by exists b1|by repeat (left || right)]).
  assert (encodable (CArray rows2)) as He2 by (eapply encodable_array; [by exists b2|by repeat (left || right)]).
  destruct (rows_encode _ _ He1 Hr1) as [kc1 Hkc1], (rows_encode _ _ He2 Hr2) as [kc2 Hkc2].
  destruct (normalized_keys _ _ _ _ Hn1 Hkc1) as (k1 & Hk1 & Hk1'), (normalized_keys _ _ _ _ Hn2 Hkc2) as (k2 & Hk2 & Hk2').
  exists k1, k2. split_and!; [done..|]. rewrite <-normal_keys_same. split.
  - intros ->. pose proof (encode_injective _ _ _ H1 H2 Hlen) as Heq.
    cbn [canonical_form fmap list_fmap] in Heq. injection Heq as Hm Hcols Hrows.
    apply index_of_inj in Hm; [|apply _..].
    change (list_fmap _ _ canonical_form cols1) with (canonical_form <$> cols1) in Hcols.
    change (list_fmap _ _ canonical_form cols2) with (canonical_form <$> cols2) in Hcols.
    rewrite (columns_flat _ _ Hc1), (columns_flat _ _ Hc2) in Hcols. rewrite <-Hcols in Hc2.
    split_and!; [done|exact (columns_determined _ _ _ Hc1 Hc2)|]. rewrite Hm in *.
    rewrite <-Hk1', <-Hk2'. exact (rows_same_keys _ _ _ _ _ _ Hr1 Hr2 Hrows Hkc1 Hkc2).
  - intros (Hm & Hcols & Hk). assert (kc1 = kc2) as <- by (rewrite Hk1', Hk2', <-Hm; exact Hk).
    rewrite Hcols, Hc2 in Hc1. injection Hc1 as ->. rewrite Hm in H1.
    pose proof (rows_same_encoding _ _ _ _ _ Hr1 Hr2 Hkc1 Hkc2) as Hs.
    assert (same_encoding (CArray [CInt (index_of RESULT_MODES (res_mode r2)); CArray cols1; CArray rows1])
      (CArray [CInt (index_of RESULT_MODES (res_mode r2)); CArray cols1; CArray rows2])) as Hsame.
    { apply array_same_encoding. do 2 (constructor; [done|]). constructor; [by apply array_same_encoding|constructor]. }
    unfold same_encoding in Hsame. congruence.
Qed.

Definition sample_rows : list (list CanonicalSqlValue) :=
  [[sql_integer 2; sql_text [x62]]; [sql_integer 1; sql_text [x61]]; [sql_integer 2; sql_text [x62]]].
Definition sample_columns : list CanonicalSqlColumn :=
  [mkColumn [x6e] (column_storage storage_integer) (Some false); mkColumn [x74] column_dynamic None].

Lemma result_bytes_identify_witness :
  ∃ b, encodeCanonicalSqlResult (mkSqlResult mode_set sample_columns sample_rows) = Ok b ∧
       encodeCanonicalSqlResult (mkSqlResult mode_set sample_columns (take 2 sample_rows)) = Ok b.
Proof.
  destruct (encodeCanonicalSqlResult (mkSqlResult mode_set sample_columns sample_rows)) as [b1|] eqn:E1;
    [|vm_compute in E1; discriminate].
  destruct (encodeCanonicalSqlResult (mkSqlResult mode_set sample_columns (take 2 sample_rows))) as [b2|] eqn:E2;
    [|vm_compute in E2; discriminate].
  exists b1. split; [done|].
  destruct (result_bytes_identify _ _ b1 b2 E1 E2) as (k1 & k2 & H1 & H2 & H).
  - vm_compute in E1. injection E1 as <-. vm_compute. discriminate.
  - f_equal. symmetry. apply H. vm_compute in H1, H2. injection H1 as <-. injection H2 as <-.
    split_and!; [done..|]. intros k. cbn [same_rows]. set_solver.
Defined.

(** A result read from bytes encodes to them, if its columns have names that the
    encoder accepts. *)
Lemma sql_result_strict b r : decodeCanonicalSqlResult b = Ok r → Forall column_named (res_columns r) →
  encodeCanonicalSqlResult r = Ok b ∧ result_plain r.
Proof.
  unfold decodeCanonicalSqlResult, encodeCanonicalSqlResult. intros H Hn. inv_ok. rewrite coded_Ok in *.
  rename select (assertCanonicalCbor _ _ = Ok _) into Hb. apply assert_sound in Hb.
  destruct (proj1 (result_exact _ r ltac:(by exists b)) (conj H Hn)) as [-> Hp].
  split; [cbn [mbind result_bind]; by apply coded_Ok|done].
Qed.

(** The decoder accepts a column whose name is two byte order marks; the encoder
    refuses it. *)
Example bom_column_not_written :
  let column := CArray [CBytes (BOM ++ BOM); CArray [CInt 0]; CInt 2] in
  let decoded := mkColumn (BOM ++ BOM) column_dynamic None in
  columnFromCbor column = Ok decoded ∧ columnToCbor decoded = Err (Coded INVALID_UTF8).
Proof. split; vm_compute; reflexivity. Qed.
