(* ===== verification/SqlScan.v ===== *)
(** * Scanning SQL source: the scanner of [packages/compiler-sqlite/src/sql-compiler.ts]

    The compiler reads the source itself, beside the parser, to find the parameters
    and the top-level words of an ordered [UPDATE] or [DELETE], and to rewrite its
    parameters as numbered ones.  The scanner never looks back, so it is a function
    of what is left of the source; positions are kept beside it. *)

From Stdlib Require Import Strings.String.
From stdpp Require Import base list option numbers.
From S2P Require Import Prelude JsMap Bytes JsNumber.

#[local] Open Scope Z_scope.

(** The codes a compilation fails with; the position in the source is left out. *)
Inductive SqlCompilerError :=
| SQL_PROGRAM_SHAPE_INVALID | SQL_EFFECT_CAPABLE_STATEMENT_REQUIRED | SQL_STATEMENT_PROHIBITED
| SQL_ANALYZE_TEMPORARILY_GATED | SQL_VIRTUAL_TABLE_TEMPORARILY_GATED | SQL_REINDEX_TEMPORARILY_GATED
| SQL_PRECONDITION_NOT_READ_ONLY | SQL_BINDING_PARAMETER_NOT_FOUND | SQL_BINDING_CONFLICT | SQL_BINDING_MISSING
| SQL_ORDERED_RESULT_REQUIRES_ORDER_BY | SQL_RESULT_COLUMN_COUNT_INVALID | SQL_INVALID_SOURCE | SQL_PARSE_ERROR
| SQL_MULTIPLE_STATEMENTS | SQL_ATTACHED_DATABASE_PROHIBITED | SQL_PRAGMA_STATE_PROHIBITED
| SQL_TEMP_OBJECT_PROHIBITED | SQL_PROTECTED_OBJECT_READ | SQL_PROTECTED_OBJECT_WRITE | SQL_PROTECTED_OBJECT_NAME
| SQL_SIGNED_TIME_TEMPORARILY_GATED | SQL_REGISTERED_OPERATOR_REQUIRED | SQL_UNORDERED_LIMIT_TEMPORARILY_GATED
| SQL_CANONICAL_REPRESENTATIVE_TEMPORARILY_GATED | SQL_SCALAR_SUBQUERY_TEMPORARILY_GATED
| SQL_TABLE_FUNCTION_NOT_REGISTERED | SQL_RAISE_TEMPORARILY_GATED | SQL_COLLATION_NOT_REGISTERED
| SQL_FUNCTION_TEMPORARILY_GATED | SQL_AMBIENT_TIME_PROHIBITED | SQL_FUNCTION_NOT_REGISTERED
| SQL_WINDOW_TEMPORARILY_GATED | SQL_ORDERED_MUTATION_TEMPORARILY_GATED
| SQL_ORDER_SENSITIVE_UPDATE_TEMPORARILY_GATED | SQL_INSERT_SELECT_TEMPORARILY_GATED
| SQL_CREATE_TABLE_AS_SELECT_TEMPORARILY_GATED | SQL_ORDERED_MUTATION_RETURNING_POSITION_INVALID
| SQL_ORDERED_MUTATION_PARSE_MISMATCH | SQL_ORDERED_MUTATION_SET_STABILITY_UNPROVEN
| SQL_ORDERED_MUTATION_TARGET_ALIAS_GATED | SQL_ORDERED_MUTATION_LIMIT_REQUIRED | SQL_PARAMETER_INDEX_INVALID
| BindingEncoding.

Abbreviation compiled := (result SqlCompilerError).

(** ** Characters *)

Definition is_upper (c : Z) : bool := (65 <=? c) && (c <=? 90).
Definition is_letter (c : Z) : bool := is_upper c || ((97 <=? c) && (c <=? 122)) || (c =? 95).
Definition is_word (c : Z) : bool := is_letter c || is_digit c.
Definition isSqliteParameterNameCharacter (c : Z) : bool := is_word c || (0x80 <=? c).

(** [\s] and what [trim] removes. *)
Definition is_space (c : Z) : bool :=
  ((9 <=? c) && (c <=? 13)) || (c =? 32) || (c =? 160) || (c =? 0x1680) || ((0x2000 <=? c) && (c <=? 0x200A)) ||
  (c =? 0x2028) || (c =? 0x2029) || (c =? 0x202F) || (c =? 0x205F) || (c =? 0x3000) || (c =? 0xFEFF).

Definition asciiLower (value : jsstring) : jsstring := (λ c, if is_upper c then c + 32 else c) <$> value.

Fixpoint drop_spaces (s : jsstring) : jsstring :=
  match s with c :: s' => if is_space c then drop_spaces s' else s | [] => [] end.
Definition trimEnd (s : jsstring) : jsstring := reverse (drop_spaces (reverse s)).
Definition trim (s : jsstring) : jsstring := trimEnd (drop_spaces s).

(** [s.slice(start, end)] *)
Definition slice (start stop : nat) (s : jsstring) : jsstring := take (stop - start) (drop start s).

(** ** Lexemes *)

(** [while (p(sql[index])) index += 1], from the start of what is left *)
Fixpoint run_while (p : Z → bool) (s : jsstring) : nat :=
  match s with c :: s' => if p c then S (run_while p s') else 0%nat | [] => 0%nat end.

Fixpoint index_of (c : Z) (s : jsstring) : option nat :=
  match s with [] => None | d :: s' => if d =? c then Some 0%nat else S <$> index_of c s' end.

(** [sql.indexOf('*/')] *)
Fixpoint index_of_close (s : jsstring) : option nat :=
  match s with
  | [] => None
  | d :: s' => if (d =? 42) && bool_decide (head s' = Some 47) then Some 0%nat else S <$> index_of_close s'
  end.

(** What follows an opening quote, up to the closing one. *)
Fixpoint quoted (close : Z) (s : jsstring) : nat :=
  match s with
  | [] => 0%nat
  | c :: s' =>
      if c =? close then
        match s' with
        | d :: s'' => if negb (close =? 93) && (d =? close) then S (S (quoted close s'')) else 1%nat
        | [] => 1%nat
        end
      else S (quoted close s')
  end.

(** The [::name] parts of a [$name]. *)
Fixpoint qualifiers (fuel : nat) (s : jsstring) : nat :=
  match fuel with
  | O => 0%nat
  | S fuel' =>
      match s with
      | 58 :: 58 :: ((c :: _) as r) =>
          if isSqliteParameterNameCharacter c
          then let n := run_while isSqliteParameterNameCharacter r in (2 + n + qualifiers fuel' (drop n r))%nat
          else 0%nat
      | _ => 0%nat
      end
  end.

(** The parenthesised end of a [$name]. *)
Definition argument (s : jsstring) : nat :=
  match s with
  | 40 :: r => match index_of 41 r with Some j => (j + 2)%nat | None => 0%nat end
  | _ => 0%nat
  end.

(** The name of a parameter, after its first character [c]. *)
Definition parameter_name_length (c : Z) (s : jsstring) : nat :=
  let n := run_while isSqliteParameterNameCharacter s in
  if (c =? 36) && (0 <? n)%nat then
    let k := (n + qualifiers (length s) (drop n s))%nat in (k + argument (drop k s))%nat
  else n.

Inductive LexemeKind := lex_skipped | lex_opened | lex_closed | lex_visited.

#[export] Instance LexemeKind_eq_dec : EqDecision LexemeKind.
Proof. solve_decision. Defined.

(** One round of the loop: how much it consumes and what it does; [None] ends the scan. *)
Definition lexeme (c : Z) (s : jsstring) : option (nat * LexemeKind) :=
  if bool_decide (c ∈ [39; 34; 96; 91]) then Some (S (quoted (if c =? 91 then 93 else c) s), lex_skipped)
  else if (c =? 45) && bool_decide (head s = Some 45) then
    (λ k, ((k + 2)%nat, lex_skipped)) <$> index_of 10 (drop 1 s)
  else if (c =? 47) && bool_decide (head s = Some 42) then
    (λ k, ((k + 4)%nat, lex_skipped)) <$> index_of_close (drop 1 s)
  else if c =? 40 then Some (1%nat, lex_opened)
  else if c =? 41 then Some (1%nat, lex_closed)
  else if is_letter c then Some (S (run_while is_word s), lex_visited)
  else if c =? 63 then Some (S (run_while is_digit s), lex_visited)
  else if bool_decide (c ∈ [58; 64; 36]) then
    let n := parameter_name_length c s in Some (S n, if (n =? 0)%nat then lex_skipped else lex_visited)
  else Some (1%nat, lex_skipped).

(** A call of [visit]. *)
Record Visit := mkVisit { vs_start : nat; vs_end : nat; vs_token : jsstring; vs_depth : nat }.

Definition next_depth (k : LexemeKind) (depth : nat) : nat :=
  match k with lex_opened => S depth | lex_closed => pred depth | _ => depth end.

Fixpoint scan (fuel : nat) (s : jsstring) (index depth : nat) : list Visit :=
  match fuel, s with
  | S fuel', c :: s' =>
      match lexeme c s' with
      | None => []
      | Some (n, k) =>
          let rest := scan fuel' (drop n s) (index + n)%nat (next_depth k depth) in
          match k with lex_visited => mkVisit index (index + n)%nat (take n s) depth :: rest | _ => rest end
      end
  | _, _ => []
  end.

Definition scanSql (sql : jsstring) : list Visit := scan (length sql) sql 0 0.

(** ** Parameters *)

Record ParameterOccurrence := mkOccurrence { po_start : nat; po_end : nat; po_index : Z; po_name : option jsstring }.

(** The names met so far and the greatest index. *)
Record Numbering := mkNumbering { nb_names : jsmap jsstring Z; nb_maximum : Z }.

Definition is_parameter (token : jsstring) : bool :=
  match token with c :: _ => bool_decide (c ∈ [63; 58; 64; 36]) | [] => false end.

(** [/^\?[0-9]+$/] *)
Definition numbered_token (token : jsstring) : option Z :=
  match token with
  | 63 :: ((_ :: _) as digits) => if forallb is_digit digits then Some (digits_value digits) else None
  | _ => None
  end.

(** The index of a parameter token, its name and the numbering after it. *)
Definition number_token (token : jsstring) (n : Numbering) : Z * option jsstring * Numbering :=
  let maximum := nb_maximum n in
  if bool_decide (token = [63]) then (maximum + 1, None, n)
  else match numbered_token token with
  | Some index => (index, None, n)
  | None =>
      let index := default (maximum + 1) (map_get token (nb_names n)) in
      (index, Some token, mkNumbering (map_set token index (nb_names n)) maximum)
  end.

Definition valid_index (index : Z) : bool := (1 <=? index) && (index <=? 32766).

Definition occurrence (acc : Numbering * list ParameterOccurrence) (v : Visit) :
    compiled (Numbering * list ParameterOccurrence) :=
  if is_parameter (vs_token v) then
    match number_token (vs_token v) acc.1 with
    | (index, name, n) =>
        ensure (valid_index index) SQL_PARAMETER_INDEX_INVALID ≫= λ _,
        Ok (mkNumbering (nb_names n) (nb_maximum n `max` index),
            acc.2 ++ [mkOccurrence (vs_start v) (vs_end v) index name])
    end
  else Ok acc.

Definition parameterOccurrences (sql : jsstring) : compiled (list ParameterOccurrence) :=
  snd <$> foldR occurrence (mkNumbering [] 0, []) (scanSql sql).

(** [occurrences.reduce((maximum, item) => Math.max(maximum, item.index), 0)] *)
Definition maximum_index (occurrences : list ParameterOccurrence) : Z :=
  foldl (λ maximum p, maximum `max` po_index p) 0 occurrences.

Record CompiledSqlParameter := mkParameter { cp_index : Z; cp_names : list jsstring; cp_referenced : bool }.

Definition group_names (grouped : jsmap Z (jsset jsstring)) (p : ParameterOccurrence) : jsmap Z (jsset jsstring) :=
  let names := default [] (map_get (po_index p) grouped) in
  map_set (po_index p) (match po_name p with Some name => set_add name names | None => names end) grouped.

Definition compareIndices {A} (a b : Z * A) : Z := a.1 - b.1.

Definition parameterPlanFromSource (sql : jsstring) : compiled (list CompiledSqlParameter * Z) :=
  occurrences ← parameterOccurrences sql;
  Ok ((λ entry, mkParameter entry.1 (map_keys entry.2) true) <$> js_sort compareIndices (foldl group_names [] occurrences),
      maximum_index occurrences).

(** ** Rewriting *)

Fixpoint rewrite_from (sql : jsstring) (start stop cursor : nat) (parameters : list ParameterOccurrence) : jsstring :=
  match parameters with
  | [] => slice cursor stop sql
  | p :: parameters' =>
      if ((po_start p <? start) || (stop <? po_end p))%nat then rewrite_from sql start stop cursor parameters'
      else slice cursor (po_start p) sql ++ 63 :: js_decimal (po_index p) ++ rewrite_from sql start stop (po_end p) parameters'
  end.

Definition rewriteSourceSegment (sql : jsstring) (start stop : nat) (parameters : list ParameterOccurrence) : jsstring :=
  rewrite_from sql start stop start parameters.

Fixpoint double_quotes (value : jsstring) : jsstring :=
  match value with [] => [] | c :: value' => if c =? 34 then 34 :: 34 :: double_quotes value' else c :: double_quotes value' end.

Definition quoteSqlIdentifier (value : jsstring) : jsstring := 34 :: double_quotes value ++ [34].

(** ** Ordered mutations *)

Record TopLevelWord := mkWord { tw_word : jsstring; tw_start : nat; tw_end : nat }.

#[export] Instance TopLevelWord_eq_dec : EqDecision TopLevelWord.
Proof. solve_decision. Defined.

Definition is_plain_word (token : jsstring) : bool :=
  match token with c :: token' => is_letter c && forallb is_word token' | [] => false end.

Definition topLevelWords (sql : jsstring) : list TopLevelWord :=
  omap (λ v, if (vs_depth v =? 0)%nat && is_plain_word (vs_token v)
             then Some (mkWord (asciiLower (vs_token v)) (vs_start v) (vs_end v)) else None) (scanSql sql).

Record OrderedMutationSyntax := mkSyntax {
  os_parserSql : jsstring;
  os_cutoff : nat;
  os_whereKeyword : option nat;
  os_returningKeyword : option nat;
  os_orderExpressionStart : option nat;
  os_limitKeyword : nat;
  os_limitExpressionStart : nat;
}.

Definition find_word (word : jsstring) (words : list TopLevelWord) : option (nat * TopLevelWord) :=
  list_find (λ w, tw_word w = word) words.

Definition before (cutoff : nat) (w : option (nat * TopLevelWord)) : option nat :=
  match w with Some (_, w) => if (tw_start w <? cutoff)%nat then Some (tw_start w) else None | None => None end.

Definition ends_with_semicolon (s : jsstring) : bool := bool_decide (head (reverse s) = Some 59).

Definition parseOrderedMutationSyntax (sql : jsstring) : compiled (option OrderedMutationSyntax) :=
  let words := topLevelWords sql in
  let first := tw_word <$> head words in
  if negb (bool_decide (first = Some (js "update")) || bool_decide (first = Some (js "delete"))) then Ok None else
  match find_word (js "limit") words with
  | None => Ok None
  | Some (_, limit) =>
      let order := find_word (js "order") words in
      let by_ := order ≫= λ p, words !! S p.1 in
      ensure (bool_decide (order = None) || bool_decide (tw_word <$> by_ = Some (js "by"))) SQL_PARSE_ERROR ≫= λ _,
      ensure (match order with Some (_, o) => negb (tw_start limit <? tw_start o)%nat | None => true end) SQL_PARSE_ERROR ≫= λ _,
      let cutoff := match order with Some (_, o) => tw_start o | None => tw_start limit end in
      let suffix := trimEnd (slice 0 cutoff sql) in
      let parserSql := suffix ++ (if ends_with_semicolon suffix then [] else [59]) in
      let returning := find_word (js "returning") words in
      ensure (match returning with Some (_, r) => negb (cutoff <? tw_start r)%nat | None => true end)
        SQL_ORDERED_MUTATION_RETURNING_POSITION_INVALID ≫= λ _,
      Ok (Some (mkSyntax parserSql cutoff (before cutoff (find_word (js "where") words)) (before cutoff returning)
        (tw_end <$> by_) (tw_start limit) (tw_end limit)))
  end.
