(* ===== verification/SqlScanTheorems.v ===== *)
(** * What the scanner of the SQL compiler finds

    A source is a sequence of lexemes, each decided by its own text and the character
    after it.  So a parameter can be exchanged for another spelling without moving a
    lexeme, and an identifier cannot leave its quotes. *)

From Stdlib Require Import Strings.String.
From stdpp Require Import base list option numbers sets.
From S2P Require Import Prelude JsMap Bytes JsNumber SqlScan.

#[local] Open Scope Z_scope.

(** ** Lexemes are prefixes *)

Lemma run_while_le p s : (run_while p s ≤ length s)%nat.
Proof. induction s as [|c s IH]; cbn; [done|]. destruct (p c); lia. Qed.

Lemma index_of_lt c s k : index_of c s = Some k → (k < length s)%nat.
Proof.
  revert k. induction s as [|d s IH]; intros k; cbn; [done|]. destruct (d =? c); [intros [= <-]; lia|].
  intros (j & Hj & ->)%fmap_Some. specialize (IH j Hj). lia.
Qed.

Lemma index_of_close_lt s k : index_of_close s = Some k → (k + 2 ≤ length s)%nat.
Proof.
  revert k. induction s as [|d s IH]; intros k; cbn; [done|]. destruct (_ && _) eqn:H.
  - intros [= <-]. apply andb_true_iff in H as [_ H%bool_decide_eq_true]. destruct s; [done|cbn; lia].
  - intros (j & Hj & ->)%fmap_Some. specialize (IH j Hj). lia.
Qed.

Lemma quoted_le close s : (quoted close s ≤ length s)%nat.
Proof.
  induction s as [s IH] using (induction_ltof1 _ length). unfold ltof in IH. destruct s as [|c s]; cbn; [done|].
  destruct (c =? close).
  - destruct s as [|d s]; [cbn; lia|]. destruct (_ && _); [|cbn; lia]. specialize (IH s). cbn in *. lia.
  - specialize (IH s). cbn in *. lia.
Qed.

Lemma qualifiers_le fuel s : (qualifiers fuel s ≤ length s)%nat.
Proof.
  revert s. induction fuel as [|fuel IH]; intros s; cbn [qualifiers]; [lia|].
  destruct s as [|c1 [|c2 [|c s]]]; try (repeat case_match; lia).
  repeat case_match; try lia. subst. set (r := c :: s). pose proof (run_while_le isSqliteParameterNameCharacter r) as Hr.
  specialize (IH (drop (run_while isSqliteParameterNameCharacter r) r)). rewrite length_drop in IH. cbn [length] in *. lia.
Qed.

Lemma argument_le s : (argument s ≤ length s)%nat.
Proof.
  unfold argument. destruct s as [|c s]; [lia|]. repeat case_match; try lia. subst.
  match goal with H : index_of _ _ = Some _ |- _ => apply index_of_lt in H end. cbn. lia.
Qed.

Lemma parameter_name_le c s : (parameter_name_length c s ≤ length s)%nat.
Proof.
  unfold parameter_name_length. set (n := run_while _ s). assert (n ≤ length s)%nat by apply run_while_le.
  destruct (_ && _); [|done]. pose proof (qualifiers_le (length s) (drop n s)) as Hq. rewrite length_drop in Hq.
  set (q := qualifiers _ _) in *. pose proof (argument_le (drop (n + q) s)) as Ha. rewrite length_drop in Ha. lia.
Qed.

Lemma lexeme_bound c s n k : lexeme c s = Some (n, k) → (1 ≤ n ≤ S (length s))%nat.
Proof.
  unfold lexeme. repeat match goal with |- (if ?b then _ else _) = _ → _ => destruct b end.
  - pose proof (quoted_le (if c =? 91 then 93 else c) s). intros [= <- _]. lia.
  - intros (j & Hj%index_of_lt & [= -> _])%fmap_Some. rewrite length_drop in Hj. lia.
  - intros (j & Hj%index_of_close_lt & [= -> _])%fmap_Some. rewrite length_drop in Hj. lia.
  - intros [= <- _]. lia.
  - intros [= <- _]. lia.
  - intros [= <- _]. pose proof (run_while_le is_word s). lia.
  - intros [= <- _]. pose proof (run_while_le is_digit s). lia.
  - intros [= <- _]. pose proof (parameter_name_le c s). lia.
  - intros [= <- _]. lia.
Qed.

(** ** The source as a sequence of lexemes *)

#[local] Abbreviation piece := (jsstring * LexemeKind)%type.
Definition text (l : list piece) : jsstring := mjoin l.*1.

(** [lexed l r]: scanning [text l ++ r] meets the lexemes [l] and ends before [r]. *)
Inductive lexed : list piece → jsstring → Prop :=
| lexed_end : lexed [] []
| lexed_stop c s : lexeme c s = None → lexed [] (c :: s)
| lexed_next c t k l r : lexeme c (t ++ text l ++ r) = Some (S (length t), k) → lexed l r → lexed ((c :: t, k) :: l) r.

(** The calls of [visit] for a sequence of lexemes. *)
Fixpoint visits (l : list piece) (index depth : nat) : list Visit :=
  match l with
  | [] => []
  | (t, k) :: l' =>
      let rest := visits l' (index + length t) (next_depth k depth) in
      match k with lex_visited => mkVisit index (index + length t) t depth :: rest | _ => rest end
  end.

Lemma text_cons t k l : text ((t, k) :: l) = t ++ text l.
Proof. done. Qed.

Lemma source_lexed s : ∃ l r, lexed l r ∧ s = text l ++ r.
Proof.
  induction s as [s IH] using (induction_ltof1 _ length). unfold ltof in IH. destruct s as [|c s].
  { exists [], []. split; [constructor|done]. }
  destruct (lexeme c s) as [[n k]|] eqn:Hl; [|exists [], (c :: s); split; [by constructor|done]].
  pose proof (lexeme_bound _ _ _ _ Hl) as Hb. destruct n as [|n]; [lia|].
  destruct (IH (drop n s)) as (l & r & Hlr & Hs); [rewrite length_drop; cbn; lia|].
  exists ((c :: take n s, k) :: l), r. split; [|by rewrite text_cons; cbn [app]; rewrite <-app_assoc, <-Hs, take_drop].
  constructor; [|done]. rewrite <-Hs, take_drop, Hl, length_take. do 2 f_equal. lia.
Qed.

Lemma scan_lexed l r : lexed l r → ∀ fuel index depth, (length (text l ++ r) ≤ fuel)%nat →
  scan fuel (text l ++ r) index depth = visits l index depth.
Proof.
  induction 1 as [|c s Hs|c t k l r Hl _ IH]; intros fuel index depth Hf.
  - by destruct fuel.
  - destruct fuel; cbn; [done|]. by rewrite Hs.
  - rewrite text_cons in *. destruct fuel as [|fuel]; [cbn in Hf; lia|]. cbn [scan app]. rewrite <-app_assoc, Hl.
    assert (drop (S (length t)) (c :: t ++ text l ++ r) = text l ++ r) as Hd by (cbn; by rewrite drop_app_length).
    assert (take (S (length t)) (c :: t ++ text l ++ r) = c :: t) as Ht by (cbn; by rewrite take_app_length).
    rewrite Hd, Ht, IH by (cbn in Hf; rewrite !length_app in *; lia). by destruct k.
Qed.

Lemma scanSql_lexed l r : lexed l r → scanSql (text l ++ r) = visits l 0 0.
Proof. intros H. by apply scan_lexed. Qed.

(** ** A lexeme depends on its own text and on the next character *)

(** The character after a lexeme may be exchanged for one that no lexeme but a
    parameter continues with. *)
Definition parameter_start (c : Z) : bool := bool_decide (c ∈ [63; 58; 64; 36]).
Definition same_next (x y : jsstring) : Prop :=
  head x = head y ∨ (∃ c, head x = Some c ∧ parameter_start c = true) ∧ head y = Some 63.

Lemma same_next_not c x y : same_next x y → parameter_start c = false → head y = Some c → head x = Some c.
Proof. intros [->|[_ ->]] Hc; [done|]. by intros [= <-]. Qed.

Lemma same_next_nil x y : same_next x y → x = [] → y = [].
Proof. intros [H|[(c & Hc & _) _]] ->; [|done]. by destruct y. Qed.

Lemma run_while_here p t x y : p 63 = false → run_while p (t ++ x) = length t → same_next x y → run_while p (t ++ y) = length t.
Proof.
  intros H63. induction t as [|c t IH]; cbn.
  - intros Hx Hn. destruct y as [|d y]; [done|]. cbn. destruct (p d) eqn:Hd; [|done]. destruct Hn as [Hn|[_ Hn]]; cbn in Hn.
    + destruct x as [|d' x]; [done|]. injection Hn as ->. cbn in Hx. by rewrite Hd in Hx.
    + congruence.
  - destruct (p c); [|done]. intros [= Hx] Hn. f_equal. by apply IH.
Qed.

Lemma quoted_here close t x y : parameter_start close = false → quoted close (t ++ x) = length t → same_next x y →
  quoted close (t ++ y) = length t.
Proof.
  intros Hc Hq Hn. induction t as [t IH] using (induction_ltof1 _ length). unfold ltof in IH.
  destruct t as [|c t]; cbn in *.
  - destruct x as [|d x]; [by rewrite (same_next_nil _ _ Hn eq_refl)|]. exfalso. cbn in Hq. repeat case_match; done.
  - destruct (c =? close) eqn:Hcc.
    + destruct t as [|d t]; cbn in *.
      * destruct y as [|d y]; [done|]. destruct (negb (close =? 93) && (d =? close)) eqn:Hd; [|done]. exfalso.
        apply andb_true_iff in Hd as [H93 ->%Z.eqb_eq]. pose proof (same_next_not _ _ _ Hn Hc eq_refl) as Hx.
        destruct x as [|d x]; [done|]. injection Hx as ->. by rewrite H93, Z.eqb_refl in Hq.
      * destruct (_ && _); [|done]. f_equal. f_equal. apply IH; [lia|congruence].
    + f_equal. apply IH; [lia|congruence].
Qed.

Lemma same_next_sym c x y : same_next x y → parameter_start c = false → head x = Some c ↔ head y = Some c.
Proof.
  intros Hn Hc. split; [|by apply same_next_not]. destruct Hn as [->|[(d & Hd & Hp) _]]; [done|]. intros Hx. congruence.
Qed.

Lemma head_here c t x y : same_next x y → parameter_start c = false →
  bool_decide (head (t ++ y) = Some c) = bool_decide (head (t ++ x) = Some c).
Proof. intros Hn Hc. apply bool_decide_ext. destruct t as [|d t]; [|done]. symmetry. by apply same_next_sym. Qed.

Lemma index_of_here c t x y : parameter_start c = false → index_of c (t ++ x) = Some (length t) → same_next x y →
  index_of c (t ++ y) = Some (length t).
Proof.
  intros Hc Hi Hn. induction t as [|d t IH]; cbn in *.
  - assert (head x = Some c) as Hx.
    { destruct x as [|d x]; cbn in *; [done|]. destruct (d =? c) eqn:Hd; [by apply Z.eqb_eq in Hd as ->|].
      by apply fmap_Some in Hi as (? & _ & ?). }
    apply (same_next_sym _ _ _ Hn Hc) in Hx. destruct y as [|d y]; [done|]. injection Hx as ->. cbn. by rewrite Z.eqb_refl.
  - destruct (d =? c); [done|]. apply fmap_Some in Hi as (j & Hj & [= Hlen]). subst j. by rewrite IH.
Qed.

Lemma index_of_close_here t x y : ∀ j, index_of_close (t ++ x) = Some j → (j + 2 = length t)%nat → index_of_close (t ++ y) = Some j.
Proof.
  induction t as [|d t IH]; intros j Hj Hlen; cbn in *; [lia|]. destruct t as [|e t]; [destruct j; cbn in *; lia|].
  cbn [app head] in *. destruct (_ && _); [done|]. apply fmap_Some in Hj as (i & Hi & ->). rewrite (IH i Hi) by (cbn in *; lia). done.
Qed.

Lemma parameter_name_zero c s : parameter_name_length c s = 0%nat ↔ run_while isSqliteParameterNameCharacter s = 0%nat.
Proof.
  unfold parameter_name_length. destruct (run_while _ s) as [|n]; [by rewrite andb_false_r|]. split; [|done].
  destruct (_ && _); lia.
Qed.

(** Every lexeme but a parameter keeps its extent. *)
Lemma lexeme_here c t x y k : lexeme c (t ++ x) = Some (S (length t), k) → same_next x y →
  (k = lex_visited → is_letter c = true) → lexeme c (t ++ y) = Some (S (length t), k).
Proof.
  intros Hl Hn Hk. unfold lexeme in *. rewrite !(head_here _ t x y Hn) by done.
  destruct (bool_decide (c ∈ [39; 34; 96; 91])) eqn:Hq.
  { injection Hl as Hl <-. rewrite (quoted_here _ _ x); [done| |done|done]. apply bool_decide_eq_true in Hq.
    rewrite !elem_of_cons, elem_of_nil in Hq. by destruct Hq as [->|[->|[->|[->|[]]]]]. }
  destruct ((c =? 45) && bool_decide (head (t ++ x) = Some 45)) eqn:Hc1.
  { apply fmap_Some in Hl as (j & Hj & [= Hlen ->]). destruct t as [|d t]; cbn in *; [lia|].
    rewrite drop_0 in *. rewrite (index_of_here _ _ x) by (done || (rewrite Hj; f_equal; lia)). cbn. do 2 f_equal. lia. }
  destruct ((c =? 47) && bool_decide (head (t ++ x) = Some 42)) eqn:Hc2.
  { apply fmap_Some in Hl as (j & Hj & [= Hlen ->]). destruct t as [|d t]; cbn in *; [lia|].
    rewrite drop_0 in *. rewrite (index_of_close_here _ x _ j) by (done || lia). cbn. do 2 f_equal. lia. }
  destruct (c =? 40); [done|]. destruct (c =? 41); [done|]. destruct (is_letter c) eqn:Hletter.
  { injection Hl as Hl <-. by rewrite (run_while_here _ _ x). }
  destruct (c =? 63); [injection Hl as _ <-; by specialize (Hk eq_refl)|]. destruct (bool_decide (c ∈ [58; 64; 36])); [|done].
  injection Hl as Hlen Hkind. destruct (parameter_name_length c (t ++ x) =? 0)%nat eqn:Hz; [|by specialize (Hk (eq_sym Hkind))].
  apply Nat.eqb_eq in Hz. destruct t as [|d t]; [|rewrite Hz in Hlen; done]. cbn [app] in *.
  assert (parameter_name_length c y = 0%nat) as Hy.
  { apply parameter_name_zero in Hz. apply parameter_name_zero. by apply (run_while_here _ [] x y). }
  rewrite Hy. cbn in *. by subst.
Qed.

(** ** Other spellings of parameters *)

(** A parameter spelled as a numbered one; every other lexeme is kept. *)
Definition respelled (p q : piece) : Prop :=
  (q = p ∧ (p.2 = lex_visited → is_parameter p.1 = false)) ∨
  (p.2 = lex_visited ∧ is_parameter p.1 = true ∧ ∃ c ds, q = (63 :: c :: ds, lex_visited) ∧ forallb is_digit (c :: ds) = true).

(** No parameter is directly followed by a digit. *)
Definition digit_next (s : jsstring) : bool := match s with c :: _ => is_digit c | [] => false end.
Fixpoint clean (l : list piece) (r : jsstring) : Prop :=
  match l with
  | [] => True
  | (t, k) :: l' => (k = lex_visited → is_parameter t = true → digit_next (text l' ++ r) = false) ∧ clean l' r
  end.

Lemma visited_start c s n : lexeme c s = Some (n, lex_visited) → is_letter c = true ∨ parameter_start c = true.
Proof.
  unfold lexeme, parameter_start. destruct (bool_decide (c ∈ [39; 34; 96; 91])); [done|].
  destruct (_ && bool_decide (head s = Some 45)); [by intros (? & _ & ?)%fmap_Some|].
  destruct (_ && bool_decide (head s = Some 42)); [by intros (? & _ & ?)%fmap_Some|].
  destruct (c =? 40); [done|]. destruct (c =? 41); [done|]. destruct (is_letter c); [by left|].
  destruct (c =? 63) eqn:Hc; [apply Z.eqb_eq in Hc as ->; by right|]. destruct (bool_decide (c ∈ [58; 64; 36])) eqn:Hp; [|done].
  intros _. right. apply bool_decide_eq_true in Hp. apply bool_decide_eq_true. by apply elem_of_cons; right.
Qed.

Lemma respelled_next l l' r : lexed l r → Forall2 respelled l l' → same_next (text l ++ r) (text l' ++ r).
Proof.
  intros Hl Hr. inversion Hr as [|[t k] q l1 l2 Hq Hr']; subst; [by left|]. inversion Hl; subst.
  destruct Hq as [[-> _]|(_ & Hp & c' & ds & -> & _)]; [by left|]. right. split; [|done]. exists c. split; [done|]. exact Hp.
Qed.

Lemma numbered_lexeme ds y : forallb is_digit ds = true → digit_next y = false → lexeme 63 (ds ++ y) = Some (S (length ds), lex_visited).
Proof.
  intros Hds Hy. unfold lexeme. cbn [Z.eqb andb is_letter is_upper]. replace (bool_decide (63 ∈ [39; 34; 96; 91])) with false by done.
  cbn. do 2 f_equal. induction ds as [|d ds IH]; cbn in *.
  - destruct y as [|c y]; [done|]. cbn in *. by rewrite Hy.
  - apply andb_true_iff in Hds as [-> Hds]. injection (IH Hds) as ->. done.
Qed.

Lemma same_next_digit x y : same_next x y → digit_next x = false → digit_next y = false.
Proof.
  intros [H|[_ H]]; destruct x as [|c x], y as [|d y]; cbn in *; try done; by injection H as ->.
Qed.

Lemma respelled_lexed l r : lexed l r → ∀ l', Forall2 respelled l l' → clean l r → lexed l' r.
Proof.
  induction 1 as [|c s Hs|c t k l r Hl Hlr IH]; intros l' Hr Hc; inversion Hr as [|p q l1 l2 Hq Hr']; subst.
  - constructor.
  - by constructor.
  - destruct Hc as [Hd Hc]. specialize (IH _ Hr' Hc). pose proof (respelled_next _ _ _ Hlr Hr') as Hn.
    destruct Hq as [[-> Hw]|(Hk & Hp & c' & ds & -> & Hds)]; constructor; try done.
    + eapply lexeme_here; [exact Hl|exact Hn|]. intros ->. destruct (visited_start _ _ _ Hl) as [|Hp]; [done|].
      specialize (Hw eq_refl). cbn in Hw. unfold parameter_start in Hp. congruence.
    + apply (numbered_lexeme (c' :: ds)); [done|]. eapply same_next_digit; [exact Hn|]. by apply Hd.
Qed.

(** ** Numbering *)

(** [parameterOccurrences] on the calls of [visit], without its accumulator. *)
Fixpoint occurs (n : Numbering) (vs : list Visit) : compiled (list ParameterOccurrence) :=
  match vs with
  | [] => Ok []
  | v :: vs' =>
      if is_parameter (vs_token v) then
        match number_token (vs_token v) n with
        | (index, name, n') =>
            ensure (valid_index index) SQL_PARAMETER_INDEX_INVALID ≫= λ _,
            ps ← occurs (mkNumbering (nb_names n') (nb_maximum n' `max` index)) vs';
            Ok (mkOccurrence (vs_start v) (vs_end v) index name :: ps)
        end
      else occurs n vs'
  end.

Lemma occurrences_occurs vs : ∀ n acc, snd <$> foldR occurrence (n, acc) vs = app acc <$> occurs n vs.
Proof.
  induction vs as [|v vs IH]; intros n acc; cbn [foldR occurs]; [cbn; by rewrite app_nil_r|].
  unfold occurrence at 2. destruct (is_parameter _); cbn [fst snd mbind result_bind]; [|by rewrite IH].
  destruct (number_token _ _) as [[index name] n']. destruct (valid_index index); cbn [ensure mbind result_bind]; [|done].
  rewrite IH. destruct (occurs _ vs); cbn; [|done]. by rewrite <-app_assoc.
Qed.

Lemma parameterOccurrences_occurs sql : parameterOccurrences sql = occurs (mkNumbering [] 0) (scanSql sql).
Proof. unfold parameterOccurrences. rewrite occurrences_occurs. by destruct (occurs _ _). Qed.

Lemma numbered_number c ds n : forallb is_digit (c :: ds) = true →
  number_token (63 :: c :: ds) n = (digits_value (c :: ds), None, n).
Proof. intros H. unfold number_token. rewrite bool_decide_eq_false_2 by done. cbn [numbered_token]. by rewrite H. Qed.

(** ** Rewriting is respelling *)

Lemma slice_split (s : jsstring) a b c : (a ≤ b ≤ c)%nat → slice a c s = slice a b s ++ slice b c s.
Proof.
  intros H. unfold slice. replace (c - a)%nat with ((b - a) + (c - b))%nat by lia. rewrite <-take_take_drop. do 2 f_equal.
  rewrite drop_drop. f_equal. lia.
Qed.

Lemma slice_middle (p t q : jsstring) : slice (length p) (length p + length t) (p ++ t ++ q) = t.
Proof. unfold slice. rewrite drop_app_length, Nat.add_comm, Nat.add_sub. by rewrite take_app_length. Qed.

(** The occurrence [q] is the occurrence [p], numbered. *)
Definition same_parameter (p q : ParameterOccurrence) : Prop := po_index q = po_index p ∧ po_name q = None.

Lemma visits_plain t k l index depth : (k = lex_visited → is_parameter t = false) → ∀ n,
  occurs n (visits ((t, k) :: l) index depth) = occurs n (visits l (index + length t) (next_depth k depth)).
Proof. intros Hk n. destruct k; try done. cbn. by rewrite Hk. Qed.

Lemma rewrite_respells r l : ∀ pre n depth ps cursor, (cursor ≤ length pre)%nat →
  let sql := pre ++ text l ++ r in
  occurs n (visits l (length pre) depth) = Ok ps →
  ∃ l', Forall2 respelled l l' ∧
    rewrite_from sql 0 (length sql) cursor ps = slice cursor (length pre) sql ++ text l' ++ r ∧
    ∀ n' index', ∃ ps', occurs n' (visits l' index' depth) = Ok ps' ∧ Forall2 same_parameter ps ps'.
Proof.
  induction l as [|[t k] l IH]; intros pre n depth ps cursor Hcur; cbv zeta.
  - intros [= <-]. exists []. cbn [text mjoin app rewrite_from visits occurs]. split; [constructor|]. split.
    + rewrite (slice_split _ cursor (length pre)) by (rewrite length_app; lia). f_equal.
      pose proof (slice_middle pre r []) as Hm. rewrite app_nil_r in Hm. by rewrite length_app.
    + intros. by exists [].
  - rewrite text_cons, <-app_assoc. set (sql := pre ++ t ++ text l ++ r).
    assert (sql = (pre ++ t) ++ text l ++ r) as Hsql by (unfold sql; by rewrite <-app_assoc).
    assert (∀ c, (c ≤ length pre)%nat → slice c (length (pre ++ t)) sql = slice c (length pre) sql ++ t) as Hstep.
    { intros c Hc. rewrite (slice_split _ c (length pre)) by (rewrite length_app; lia). f_equal. rewrite length_app. apply slice_middle. }
    destruct (decide (k = lex_visited ∧ is_parameter t = true)) as [[-> Hp]|Hplain].
    + cbn [visits occurs vs_token vs_start vs_end]. rewrite Hp. destruct (number_token t n) as [[index name] n1].
      destruct (valid_index index) eqn:Hv; cbn [ensure mbind result_bind]; [|done]. intros Hps. apply bind_Ok in Hps as (ps0 & Hps & [= <-]).
      rewrite <-length_app in Hps. destruct (IH _ _ _ _ (length (pre ++ t)) (le_n _) Hps) as (l' & Hr & Hrw & Hocc).
      assert (0 ≤ index) as Hi by (unfold valid_index in Hv; lia). destruct (js_decimal_nonneg index Hi) as (Hval & Hds & Hne).
      destruct (js_decimal index) as [|c ds] eqn:Hdec; [done|]. exists ((63 :: c :: ds, lex_visited) :: l'). split_and!.
      * constructor; [right; eauto 6|done].
      * cbn [rewrite_from po_start po_end po_index]. replace ((length pre <? 0) || (length sql <? length pre + length t))%nat with false
          by (symmetry; unfold sql; rewrite !length_app; apply orb_false_iff; split; apply Nat.ltb_ge; lia).
        rewrite <-Hsql, length_app in Hrw. rewrite Hdec, Hrw, text_cons. unfold slice at 2. rewrite Nat.sub_diag. cbn [take app].
        by rewrite <-app_assoc.
      * intros n' index'. destruct (Hocc (mkNumbering (nb_names n') (nb_maximum n' `max` index)) (index' + S (S (length ds)))%nat)
          as (ps' & Hps' & Hall). exists (mkOccurrence index' (index' + S (S (length ds)))%nat index None :: ps'). split; [|by repeat constructor].
        cbn [visits occurs vs_token]. replace (is_parameter (63 :: c :: ds)) with true by done.
        rewrite (numbered_number _ _ _ Hds), Hval, Hv. cbn [ensure mbind result_bind next_depth vs_start vs_end nb_names nb_maximum length] in *. by rewrite Hps'.
    + assert (k = lex_visited → is_parameter t = false) as Hk by (intros ->; destruct (is_parameter t); naive_solver).
      rewrite visits_plain, <-length_app by done. intros Hps.
      assert (cursor ≤ length (pre ++ t))%nat as Hcur' by (rewrite length_app; lia).
      destruct (IH _ _ _ _ cursor Hcur' Hps) as (l' & Hr & Hrw & Hocc). rewrite <-Hsql in Hrw.
      exists ((t, k) :: l'). split_and!.
      * constructor; [by left|done].
      * rewrite Hrw, Hstep, text_cons, <-!app_assoc by done. done.
      * intros n' index'. rewrite visits_plain by done. apply Hocc.
Qed.

(** *** The source *)

(** No parameter of the source is directly followed by a digit. *)
Definition spaced (sql : jsstring) : bool :=
  forallb (λ v, negb (is_parameter (vs_token v)) || negb (digit_next (drop (vs_end v) sql))) (scanSql sql).

Lemma spaced_clean r l : ∀ pre depth,
  forallb (λ v, negb (is_parameter (vs_token v)) || negb (digit_next (drop (vs_end v) (pre ++ text l ++ r)))) (visits l (length pre) depth) = true →
  clean l r.
Proof.
  induction l as [|[t k] l IH]; intros pre depth H; [done|]. rewrite text_cons, <-app_assoc in H. split.
  - intros -> Ht. cbn [visits forallb vs_token vs_end] in H. apply andb_true_iff in H as [H _].
    rewrite Ht in H. cbn [negb orb] in H. apply negb_true_iff in H.
    by rewrite <-length_app, app_assoc, drop_app_length in H.
  - apply (IH (pre ++ t) (next_depth k depth)). rewrite <-app_assoc, length_app. destruct k; try exact H.
    cbn [visits forallb] in H. by apply andb_true_iff in H as [_ H].
Qed.

(** The words outside parentheses. *)
Lemma respelled_words l l' : Forall2 respelled l l' → ∀ index index' depth,
  (λ v, (asciiLower (vs_token v), vs_depth v)) <$> filter (λ v, is_plain_word (vs_token v) = true) (visits l' index' depth) =
  (λ v, (asciiLower (vs_token v), vs_depth v)) <$> filter (λ v, is_plain_word (vs_token v) = true) (visits l index depth).
Proof.
  induction 1 as [|[t k] q l l' Hq Hr IH]; intros index index' depth; [done|].
  destruct Hq as [[-> _]|(Hk & Hp & c & ds & -> & _)]; cbn [visits].
  - destruct k; try apply IH. rewrite !filter_cons. cbn [vs_token]. destruct (decide _); [|apply IH]. rewrite !fmap_cons. by rewrite (IH (index + length t)%nat).
  - cbn in Hk. subst k. rewrite !filter_cons. cbn [vs_token].
    assert (is_plain_word t = false) as Ht.
    { destruct t as [|d t]; [done|]. cbn in *. apply bool_decide_eq_true in Hp. rewrite !elem_of_cons, elem_of_nil in Hp.
      by destruct Hp as [->|[->|[->|[->|[]]]]]. }
    rewrite !decide_False by (by rewrite ?Ht). apply IH.
Qed.

Lemma top_level_words (vs : list Visit) :
  tw_word <$> omap (λ v, if (vs_depth v =? 0)%nat && is_plain_word (vs_token v)
                         then Some (mkWord (asciiLower (vs_token v)) (vs_start v) (vs_end v)) else None) vs =
  fst <$> filter (λ p, p.2 = 0%nat) ((λ v, (asciiLower (vs_token v), vs_depth v)) <$> filter (λ v, is_plain_word (vs_token v) = true) vs).
Proof.
  induction vs as [|v vs IH]; [done|]. rewrite filter_cons. cbn [omap list_omap].
  destruct (is_plain_word (vs_token v)); [rewrite decide_True by done|rewrite decide_False, andb_false_r by done; done].
  rewrite andb_true_r, fmap_cons, filter_cons. cbn [snd]. destruct (vs_depth v) as [|d]; cbn [Nat.eqb].
  - rewrite decide_True by done. by rewrite !fmap_cons, IH.
  - by rewrite decide_False.
Qed.

Lemma same_maximum ps ps' : Forall2 same_parameter ps ps' → maximum_index ps' = maximum_index ps.
Proof.
  unfold maximum_index. intros H. generalize 0. induction H as [|p q ps ps' [Hi _] _ IH]; intros m; [done|]. cbn [foldl]. by rewrite Hi, IH.
Qed.

(** C24: rewriting the parameters of a source keeps what it says.  When no parameter is
    directly followed by a digit, the source in which every parameter is written as a
    numbered one has the same parameters, in the same places and with the same indices,
    none of them named, so the same bindings serve it; and the scanner meets the same
    words outside parentheses. *)
Theorem parameters_rewritten sql ps : parameterOccurrences sql = Ok ps → spaced sql = true →
  let sql' := rewriteSourceSegment sql 0 (length sql) ps in
  ∃ ps', parameterOccurrences sql' = Ok ps' ∧ Forall2 same_parameter ps ps' ∧ maximum_index ps' = maximum_index ps ∧
    tw_word <$> topLevelWords sql' = tw_word <$> topLevelWords sql.
Proof.
  intros Hps Hsp sql'. destruct (source_lexed sql) as (l & r & Hl & ->). unfold sql', spaced in *.
  rewrite parameterOccurrences_occurs, (scanSql_lexed l r Hl) in Hps. rewrite (scanSql_lexed l r Hl) in Hsp. apply (spaced_clean _ _ [] 0) in Hsp.
  destruct (rewrite_respells r l [] _ _ _ 0 (le_n _) Hps) as (l' & Hr & Hrw & Hocc). cbn [app length] in *.
  unfold rewriteSourceSegment. rewrite Hrw. change (slice 0 0 _) with (nil (A:=Z)). cbn [app].
  pose proof (respelled_lexed _ _ Hl _ Hr Hsp) as Hl'. destruct (Hocc (mkNumbering [] 0) 0%nat) as (ps' & Hps' & Hall). exists ps'.
  rewrite parameterOccurrences_occurs, (scanSql_lexed l' r Hl'). split_and!; [done|done|by apply same_maximum|].
  unfold topLevelWords. rewrite !top_level_words, (scanSql_lexed l' r Hl'), (scanSql_lexed l r Hl). by rewrite (respelled_words _ _ Hr 0 0).
Qed.

Lemma parameters_rewritten_witness : ∃ ps',
  parameterOccurrences (js "UPDATE t SET a = ?1, b = ?2 WHERE k = ?1 AND note <> 'why?' LIMIT ?3") = Ok ps' ∧ maximum_index ps' = 3.
Proof.
  destruct (parameters_rewritten (js "UPDATE t SET a = :x, b = ? WHERE k = :x AND note <> 'why?' LIMIT $n")
    [mkOccurrence 17 19 1 (Some (js ":x")); mkOccurrence 25 26 2 None; mkOccurrence 37 39 1 (Some (js ":x"));
     mkOccurrence 65 67 3 (Some (js "$n"))]) as (ps' & Hps & _ & Hm & _); [vm_compute; reflexivity..|].
  exists ps'. split; [exact Hps|]. rewrite Hm. reflexivity.
Defined.

(** ** Two sources the scanner misreads *)

(** A parameter with an argument, directly followed by a digit, becomes another parameter. *)
Example argument_swallows_digit :
  parameterOccurrences (js "DELETE FROM t LIMIT $a(b)5") = Ok [mkOccurrence 20 25 1 (Some (js "$a(b)"))] ∧
  rewriteSourceSegment (js "DELETE FROM t LIMIT $a(b)5") 0 26 [mkOccurrence 20 25 1 (Some (js "$a(b)"))] = js "DELETE FROM t LIMIT ?15".
Proof. split; vm_compute; reflexivity. Qed.

(** An identifier may contain a dollar sign; the scanner takes what follows for a
    parameter. *)
Example dollar_in_identifier :
  parameterOccurrences (js "DELETE FROM t WHERE a$b = 1 LIMIT 5") = Ok [mkOccurrence 21 23 1 (Some (js "$b"))].
Proof. vm_compute. reflexivity. Qed.

(** An identifier may continue with a letter outside ASCII; the scanner stops before
    it and finds the keyword. *)
Example keyword_in_identifier :
  tw_word <$> topLevelWords (js "UPDATE t SET limit" ++ [0xE9] ++ js " = 1") = [js "update"; js "t"; js "set"; js "limit"].
Proof. vm_compute. reflexivity. Qed.

(** ** Identifiers *)

Lemma double_quotes_quoted value rest : head rest ≠ Some 34 → quoted 34 (double_quotes value ++ 34 :: rest) = S (length (double_quotes value)).
Proof.
  intros Hr. induction value as [|c value IH]; cbn.
  - destruct rest as [|d rest]; [done|]. destruct (d =? 34) eqn:Hd; [|done]. apply Z.eqb_eq in Hd as ->. done.
  - destruct (c =? 34) eqn:Hc; cbn.
    + by rewrite IH.
    + by rewrite Hc, IH.
Qed.

Definition shifted (n : nat) (v : Visit) : Visit := mkVisit (n + vs_start v) (n + vs_end v) (vs_token v) (vs_depth v).

Lemma visits_shifted n l : ∀ index depth, visits l (n + index) depth = shifted n <$> visits l index depth.
Proof.
  induction l as [|[t k] l IH]; intros index depth; [done|]. cbn [visits]. rewrite <-Nat.add_assoc, IH. by destruct k.
Qed.

(** C25: a quoted identifier stays within its quotes.  Whatever the name of a table is,
    scanning a source that begins with it as the compiler quotes it is scanning what
    follows: nothing of the name is taken for a word, a parameter, a comment or a
    parenthesis; and different names are quoted differently. *)
Theorem identifier_stays_quoted value rest : head rest ≠ Some 34 →
  scanSql (quoteSqlIdentifier value ++ rest) = shifted (length (quoteSqlIdentifier value)) <$> scanSql rest ∧
  ∀ value', quoteSqlIdentifier value' = quoteSqlIdentifier value → value' = value.
Proof.
  intros Hr. split.
  - destruct (source_lexed rest) as (l & r & Hl & ->).
    assert (lexed ((quoteSqlIdentifier value, lex_skipped) :: l) r) as Hq.
    { unfold quoteSqlIdentifier. constructor; [|done]. rewrite <-app_assoc. unfold lexeme. cbn [app].
      change (bool_decide (34 ∈ [39; 34; 96; 91])) with true. cbn [Z.eqb Pos.eqb].
      rewrite double_quotes_quoted by done. do 2 f_equal. rewrite length_app. cbn. lia. }
    pose proof (scanSql_lexed _ _ Hq) as Hs. rewrite text_cons, <-app_assoc in Hs. rewrite Hs, (scanSql_lexed _ _ Hl).
    cbn [visits next_depth]. by rewrite <-visits_shifted, Nat.add_0_r.
  - intros value' [= H]. apply app_inv_tail in H. revert value H Hr.
    induction value' as [|c value' IH]; intros [|d value] H Hr; cbn in H; [done|by repeat case_match..|].
    destruct (c =? 34) eqn:Hc, (d =? 34) eqn:Hd; cbn in H.
    + apply Z.eqb_eq in Hc as ->, Hd as ->. injection H as H. f_equal. by apply IH.
    + injection H as <- _. done.
    + injection H as -> _. done.
    + injection H as -> H. f_equal. by apply IH.
Qed.

Lemma identifier_stays_quoted_witness :
  scanSql (quoteSqlIdentifier (js "x LIMIT :n -- (") ++ js " WHERE a") = [mkVisit 18 23 (js "WHERE") 0; mkVisit 24 25 (js "a") 0].
Proof.
  rewrite (proj1 (identifier_stays_quoted (js "x LIMIT :n -- (") (js " WHERE a") ltac:(discriminate))). vm_compute. reflexivity.
Defined.

(** ** Indices *)

Record numbering_ok (n : Numbering) : Prop := {
  no_max : 0 ≤ nb_maximum n ≤ 32766;
  no_range t i : map_get t (nb_names n) = Some i → 1 ≤ i ≤ nb_maximum n;
  no_inj t t' i : map_get t (nb_names n) = Some i → map_get t' (nb_names n) = Some i → t = t';
}.

(** What a numbering says of an occurrence. *)
Definition numbered_by (n : Numbering) (p : ParameterOccurrence) : Prop :=
  1 ≤ po_index p ≤ nb_maximum n ∧ ∀ t, po_name p = Some t → map_get t (nb_names n) = Some (po_index p).

Definition numbering_grows (n n' : Numbering) : Prop :=
  nb_maximum n ≤ nb_maximum n' ∧ ∀ t i, map_get t (nb_names n) = Some i → map_get t (nb_names n') = Some i.

Lemma number_token_ok token n index name n' : numbering_ok n → number_token token n = (index, name, n') → valid_index index = true →
  let next := mkNumbering (nb_names n') (nb_maximum n' `max` index) in
  numbering_ok next ∧ numbering_grows n next ∧ ∀ start stop, numbered_by next (mkOccurrence start stop index name).
Proof.
  intros [Hm Hr Hi] Hn Hv. unfold valid_index in Hv. unfold number_token in Hn.
  assert (∀ index', 1 ≤ index' ≤ 32766 → let next := mkNumbering (nb_names n) (nb_maximum n `max` index') in
    numbering_ok next ∧ numbering_grows n next ∧ ∀ start stop, numbered_by next (mkOccurrence start stop index' None)) as Hplain.
  { intros index' Hx. cbv zeta. split; [split; cbn; [lia| |done]|split; [split; cbn; [lia|done]|]].
    - intros t i Hti. apply Hr in Hti. lia.
    - intros start stop. split; cbn; [lia|done]. }
  destruct (bool_decide (token = [63])); [injection Hn as <- <- <-; apply Hplain; lia|].
  destruct (numbered_token token) as [index'|]; [injection Hn as <- <- <-; apply Hplain; lia|].
  injection Hn as Hindex <- <-. cbn [nb_names nb_maximum]. destruct (map_get token (nb_names n)) as [old|] eqn:Ho; cbn in Hindex; subst index.
  - apply Hr in Ho as Hold.
    assert (∀ t, map_get t (map_set token old (nb_names n)) = map_get t (nb_names n)) as Hsame.
    { intros t. rewrite map_get_set. case_decide; [by subst|done]. }
    split; [split; cbn; [lia| |]|split; [split; cbn; [lia|]|]].
    + intros t i. rewrite Hsame. intros Hti%Hr. lia.
    + intros t t' i. rewrite !Hsame. apply Hi.
    + intros t i. by rewrite Hsame.
    + intros start stop. split; cbn; [lia|]. intros t [= <-]. by rewrite Hsame.
  - split; [split; cbn; [lia| |]|split; [split; cbn; [lia|]|]].
    + intros t i. rewrite map_get_set. case_decide; [intros [= <-]; lia|]. intros Hti%Hr. lia.
    + intros t t' i. rewrite !map_get_set. repeat case_decide; subst; [done| | |apply Hi]; intros H1 H2; simplify_eq; exfalso.
      * apply Hr in H2. lia.
      * apply Hr in H1. lia.
    + intros t i. rewrite map_get_set. case_decide; [congruence|done].
    + intros start stop. split; cbn; [lia|]. intros t [= <-]. by rewrite map_get_set_eq.
Qed.

Lemma occurs_numbered vs : ∀ n ps, numbering_ok n → occurs n vs = Ok ps →
  ∃ n', numbering_ok n' ∧ numbering_grows n n' ∧ Forall (numbered_by n') ps.
Proof.
  induction vs as [|v vs IH]; intros n ps Hn; cbn [occurs].
  - intros [= <-]. exists n. split; [done|]. split; [done|constructor].
  - destruct (is_parameter _); [|by apply IH]. destruct (number_token _ _) as [[index name] n1] eqn:Ht.
    destruct (valid_index index) eqn:Hv; cbn [ensure mbind result_bind]; [|done]. intros H. apply bind_Ok in H as (ps0 & Hps & [= <-]).
    destruct (number_token_ok _ _ _ _ _ Hn Ht Hv) as (Hok & Hg & Hb). destruct (IH _ _ Hok Hps) as (n' & Hok' & [Hg1 Hg2] & Hall).
    exists n'. split; [done|]. destruct Hg as [Hg3 Hg4]. split; [split; [lia|naive_solver]|]. constructor; [|done].
    destruct (Hb (vs_start v) (vs_end v)) as [Hr Hname]. split; [cbn in *; lia|]. intros t Hx. apply Hg2. by apply Hname.
Qed.
