(* ===== verification/SqlCompiler.v ===== *)
(** * The SQL compiler: [packages/compiler-sqlite/src/sql-compiler.ts]

    A program is admitted only if every replica computes the same from it.  The
    parser is a package of its own: [parse] and [traverse] are parameters, and of its
    syntax tree the model has what the compiler looks at.  The names of [ir]
    (identifiers.ts) and the list of deterministic functions
    (deterministic-functions.ts) are here as well. *)

From Stdlib Require Import Strings.String.
From stdpp Require Import base list option numbers.
From S2P Require Import Prelude JsMap Bytes Text JsNumber Cbor Logical Sql SqlScan.

#[local] Open Scope Z_scope.

(** ** Names *)

Definition startsWith (p s : jsstring) : bool := bool_decide (take (length p) s = p).
Definition one_of (s : jsstring) (names : list string) : bool := bool_decide (s ∈ js <$> names).

Definition sqliteIdentifierKey (value : jsstring) : jsstring :=
  (λ c, if (0x41 <=? c) && (c <=? 0x5A) then c + 0x20 else c) <$> value.

Definition RESERVED_EXACT_SCHEMA_OBJECTS : list string := ["dbstat"; "sqlite_dbpage"; "bytecode"; "tables_used"]%string.

Definition isReservedSchemaObjectName (value : jsstring) : bool :=
  let key := sqliteIdentifierKey value in
  startsWith (js "chronolog_") key || startsWith (js "sqlite_") key || startsWith (js "dolt_") key ||
  startsWith (js "doltlite_") key || startsWith (js "pragma_") key || one_of key RESERVED_EXACT_SCHEMA_OBJECTS.

Definition DETERMINISTIC_READ_ONLY_PRAGMAS : list string :=
  ["collation_list"; "compile_options"; "database_list"; "foreign_key_list"; "function_list"; "index_info"; "index_list";
   "index_xinfo"; "module_list"; "pragma_list"; "table_info"; "table_list"; "table_xinfo"]%string.

Definition ARGUMENT_CONDITIONAL_TIME_FUNCTIONS : list string :=
  ["date"; "time"; "datetime"; "julianday"; "strftime"; "unixepoch"; "timediff"]%string.

Definition TEMPORARILY_GATED_FUNCTIONS : list string :=
  ["avg"; "changes"; "group_concat"; "last_insert_rowid"; "printf"; "random"; "randomblob"; "soundex"; "sqlite_offset"; "sum";
   "total"; "total_changes"]%string.

Definition BUILTIN_FUNCTION_NAMES : list string :=
  ["char"; "concat"; "concat_ws"; "length"; "octet_length"; "lower"; "upper"; "trim"; "ltrim"; "rtrim"; "replace"; "instr";
   "substr"; "substring"; "hex"; "coalesce"; "ifnull"; "nullif"; "if"; "iif"; "likelihood"; "likely"; "unlikely"; "glob"; "like";
   "min"; "max"; "quote"; "typeof"; "unhex"; "unicode"; "unistr"; "unistr_quote"; "zeroblob"; "abs"; "sign"]%string.

(** The keys of [deterministicScalarArities]. *)
Definition DETERMINISTIC_SQLITE_SCALAR_FUNCTIONS : list string :=
  ["char"; "coalesce"; "concat"; "concat_ws"; "glob"; "hex"; "if"; "ifnull"; "iif"; "instr"; "json"; "json_array"; "json_object";
   "json_type"; "length"; "like"; "likelihood"; "likely"; "lower"; "ltrim"; "nullif"; "octet_length"; "quote"; "replace"; "rtrim";
   "sign"; "substr"; "substring"; "trim"; "typeof"; "unhex"; "unicode"; "unlikely"; "upper"; "zeroblob"]%string.

Definition DETERMINISTIC_SQLITE_COMPILER_FUNCTIONS : list string :=
  DETERMINISTIC_SQLITE_SCALAR_FUNCTIONS ++ BUILTIN_FUNCTION_NAMES ++
  ["->"; "->>"; "count"; "min"; "max"; "group_concat"; "row_number"; "rank"; "dense_rank"; "ntile"; "lag"; "lead"]%string.

(** ** The syntax tree, as far as the compiler looks at it

    An optional member is an [option]; a member of which only the presence matters
    is a [bool]. *)

Record Span := mkSpan { sp_offset : nat; sp_length : nat }.
Record QualifiedName := mkName { qn_dbName : option jsstring; qn_objName : jsstring; qn_alias : bool }.

(** [overClause]: a window with the length of its [orderBy], or a named window. *)
Inductive OverClause := WindowOver (orderBy : option nat) | NamedOver.

(** [filterOver]: whether it is there, and its [overClause]. *)
Record FilterOver := mkFilterOver { fo_overClause : option OverClause }.

#[local] Set Warnings "-register-all".
Inductive Expr :=
| NumericLiteral (span : Span)
| NullLiteral (span : Span)
| StringLiteral (span : Span) (value : jsstring)
| FunctionCallExpr (span : Span) (name : jsstring) (args : option (list Expr)) (distinctness : bool)
    (orderBy : option FunctionOrder) (filterOver : option FilterOver)
| FunctionCallStarExpr (span : Span) (name : jsstring) (filterOver : option FilterOver)
| OtherExpr (span : Span)
with FunctionOrder := SortListFunctionCallOrder (columns : list Expr) | OtherFunctionCallOrder.

Definition span_of (e : Expr) : Span :=
  match e with
  | NumericLiteral span | NullLiteral span | StringLiteral span _ | FunctionCallExpr span _ _ _ _ _
  | FunctionCallStarExpr span _ _ | OtherExpr span => span
  end.

Inductive ResultColumn := ExprResultColumn (expr : Expr) | OtherResultColumn.

Inductive OneSelect :=
| SelectValues (values : nat)
| SelectFrom (distinct : bool) (columns : list ResultColumn) (from : bool) (groupBy : option (list Expr)).

Record Compound := mkCompound { co_unionAll : bool; co_select : OneSelect }.

Record Select := mkSelect {
  sl_select : OneSelect;
  sl_compounds : option (list Compound);
  sl_orderBy : option (list Span);
  sl_limit : bool;
}.

Inductive FromSource := SelectSelectTable (select : Select) | OtherSource.
Record FromClause := mkFrom { fr_select : option FromSource; fr_joins : bool }.

Inductive OrConflict := ConflictAbort | ConflictOther.
Inductive InsertBody := SelectInsertBody (select : Select) | OtherInsertBody.
Inductive CreateTableBody := AsSelectCreateTableBody (select : Select) | OtherCreateTableBody.

Record UpdateParts := mkUpdate {
  up_tblName : QualifiedName;
  up_sets : list (list jsstring);
  up_from : option FromClause;
  up_orConflict : option OrConflict;
  up_whereClause : option Span;
  up_returning : bool;
  up_orderBy : bool;
  up_limit : bool;
}.

Record DeleteParts := mkDelete {
  de_tblName : QualifiedName;
  de_whereClause : option Span;
  de_returning : bool;
  de_orderBy : bool;
  de_limit : bool;
}.

Inductive Stmt :=
| SelectStmt (body : Select)
| PragmaStmt (name : QualifiedName) (body : bool)
| InsertStmt (tblName : QualifiedName) (body : InsertBody) (returning : bool)
| UpdateStmt (parts : UpdateParts)
| DeleteStmt (parts : DeleteParts)
| AlterTableStmt (tblName : QualifiedName)
| CreateIndexStmt (idxName : QualifiedName) (tblName : jsstring)
| CreateTableStmt (temporary : bool) (tblName : QualifiedName) (body : CreateTableBody)
| CreateTriggerStmt (temporary : bool) (triggerName tblName : QualifiedName)
| CreateViewStmt (temporary : bool) (viewName : QualifiedName)
| CreateVirtualTableStmt (tblName : QualifiedName)
| DropIndexStmt (idxName : QualifiedName)
| DropTableStmt (tblName : QualifiedName)
| DropTriggerStmt (triggerName : QualifiedName)
| DropViewStmt (viewName : QualifiedName)
| AnalyzeStmt
| ReindexStmt
| ProhibitedStmt  (** attach, begin, commit, detach, release, rollback, savepoint, vacuum, explain *)
| OtherStmt.

Record Ast := mkAst { as_stmt : Stmt; as_span : Span }.

Inductive LikeOperator := LikeMatch | LikeRegexp | LikeOther.

(** A node the walk meets; [SelectNode] says whether it is the body of the walked
    statement itself. *)
Inductive AstNode :=
| QualifiedNameNode (name : QualifiedName)
| MutationNode (tblName : QualifiedName)  (** insert, update, delete, also as a command of a trigger *)
| ForeignKeyClause (tblName : jsstring)
| CurrentTimeNode  (** [CURRENT_DATE], [CURRENT_TIME], [CURRENT_TIMESTAMP] *)
| ExprNode (expr : Expr)
| LikeExpr (op : LikeOperator)
| CollateNode (collation : jsstring)
| SelectNode (body : bool) (select : Select)
| SubqueryExpr (select : Select)
| TableCallSelectTable (tblName : QualifiedName)
| RaiseExpr (rollback : bool)
| VariableExpr (offset : nat) (name : jsstring)
| OtherNode.

(** ** Shapes whose result does not depend on the order of rows *)

Definition sameSource (left right : Expr) (sql : jsstring) : bool :=
  let text e := slice (sp_offset (span_of e)) (sp_offset (span_of e) + sp_length (span_of e)) sql in
  bool_decide (text left = text right).

Definition isProvablyAtMostOneRow (select : Select) : bool :=
  match sl_compounds select with
  | Some (_ :: _) => false
  | _ => match sl_select select with
         | SelectValues values => (values <=? 1)%nat
         | SelectFrom _ _ from _ => negb from
         end
  end.

Definition isProvablySingletonFrom (from : FromClause) : bool :=
  negb (fr_joins from) &&
  match fr_select from with Some (SelectSelectTable select) => isProvablyAtMostOneRow select | _ => false end.

Definition isRepresentativeStableExpression (node : Expr) : bool :=
  match node with
  | FunctionCallExpr _ name (Some [_]) false None None => bool_decide (asciiLower name = js "typeof")
  | _ => false
  end.

Definition isRepresentativeStableProjection (columns : list ResultColumn) : bool :=
  (0 <? length columns)%nat &&
  forallb (λ column, match column with ExprResultColumn e => isRepresentativeStableExpression e | OtherResultColumn => false end) columns.

Definition has_over (filterOver : option FilterOver) : bool :=
  match filterOver with Some f => bool_decide (is_Some (fo_overClause f)) | None => false end.

Definition isDeterministicAggregateExpression (node : Expr) : bool :=
  match node with
  | FunctionCallStarExpr _ name filterOver => bool_decide (asciiLower name = js "count") && negb (has_over filterOver)
  | FunctionCallExpr _ name args _ _ filterOver =>
      if has_over filterOver then false
      else if bool_decide (asciiLower name = js "count") then true
      else (bool_decide (asciiLower name = js "min") || bool_decide (asciiLower name = js "max")) &&
           match args with Some [a] => isRepresentativeStableExpression a | _ => false end
  | _ => false
  end.

Definition isSafeGroupedProjection (columns : list ResultColumn) (groupBy : list Expr) (sql : jsstring) : bool :=
  (0 <? length groupBy)%nat &&
  forallb (λ column, match column with
    | OtherResultColumn => false
    | ExprResultColumn e => existsb (λ group, sameSource group e sql) groupBy || isDeterministicAggregateExpression e
    end) columns.

Definition stable_select (s : OneSelect) : bool :=
  match s with SelectFrom _ columns _ _ => isRepresentativeStableProjection columns | SelectValues _ => false end.

Definition isRepresentativeStableCompound (select : Select) : bool :=
  stable_select (sl_select select) &&
  match sl_compounds select with
  | Some compounds => forallb (λ c, co_unionAll c || stable_select (co_select c)) compounds
  | None => true
  end.

Definition isPeerStableWindow (name : jsstring) (filterOver : option FilterOver) : bool :=
  (bool_decide (asciiLower name = js "rank") || bool_decide (asciiLower name = js "dense_rank")) &&
  match filterOver with
  | Some (mkFilterOver (Some (WindowOver (Some n)))) => (0 <? n)%nat
  | _ => false
  end.

Definition isSafeOrderedGroupConcat (args : option (list Expr)) (distinctness : bool) (orderBy : option FunctionOrder)
    (filterOver : option FilterOver) (sql : jsstring) : bool :=
  match args with
  | Some ((first :: _) as l) =>
      (length l <=? 2)%nat && negb distinctness && negb (has_over filterOver) &&
      match orderBy with
      | Some (SortListFunctionCallOrder columns) =>
          match head (reverse columns) with Some term => sameSource term first sql | None => false end
      | _ => false
      end
  | _ => false
  end.

(** ** Checks of single nodes *)

Definition is_pragma_call (name : jsstring) : bool :=
  startsWith (js "pragma_") name && one_of (drop 7 name) DETERMINISTIC_READ_ONLY_PRAGMAS.

Definition isAllowedConsensusReadName (name : jsstring) : bool :=
  one_of name ["chronolog_transactions"; "sqlite_schema"; "sqlite_master"]%string || is_pragma_call name.

Definition validateMutationTarget (name : jsstring) : compiled unit :=
  ensure (negb (isReservedSchemaObjectName name || startsWith (js "sqlite_") (asciiLower name))) SQL_PROTECTED_OBJECT_WRITE.

Definition is_main (dbName : option jsstring) : bool :=
  match dbName with Some db => bool_decide (asciiLower db = js "main") | None => true end.

Definition check_name (node : AstNode) : compiled unit :=
  match node with
  | QualifiedNameNode name =>
      ensure (is_main (qn_dbName name)) SQL_ATTACHED_DATABASE_PROHIBITED ≫= λ _,
      let key := asciiLower (qn_objName name) in
      ensure (negb (isReservedSchemaObjectName key) || isAllowedConsensusReadName key) SQL_PROTECTED_OBJECT_READ
  | MutationNode tblName => validateMutationTarget (qn_objName tblName)
  | ForeignKeyClause tblName => ensure (negb (isReservedSchemaObjectName tblName)) SQL_PROTECTED_OBJECT_READ
  | _ => Ok tt
  end.

Definition is_unsafe_time (argument : Expr) : bool :=
  match argument with
  | NumericLiteral _ | NullLiteral _ => false
  | StringLiteral _ value => one_of (asciiLower value) ["now"; "localtime"; "utc"; "subsec"; "subsecond"]%string
  | _ => true
  end.

Definition hasUnsafeTimeArgument (args : option (list Expr)) : bool :=
  match args with None | Some [] => true | Some l => existsb is_unsafe_time l end.

Definition validateFunction (callee : jsstring) (args : option (list Expr)) (distinctness : bool) (orderBy : option FunctionOrder)
    (filterOver : option FilterOver) (sql : jsstring) : compiled unit :=
  let name := asciiLower callee in
  if bool_decide (name = js "group_concat") && isSafeOrderedGroupConcat args distinctness orderBy filterOver sql then Ok tt else
  ensure (negb (one_of name TEMPORARILY_GATED_FUNCTIONS)) SQL_FUNCTION_TEMPORARILY_GATED ≫= λ _,
  if one_of name ARGUMENT_CONDITIONAL_TIME_FUNCTIONS
  then ensure (negb (hasUnsafeTimeArgument args)) SQL_AMBIENT_TIME_PROHIBITED
  else if startsWith (js "pragma_") name
  then ensure (one_of (drop 7 name) DETERMINISTIC_READ_ONLY_PRAGMAS) SQL_PRAGMA_STATE_PROHIBITED
  else
    ensure (one_of name DETERMINISTIC_SQLITE_COMPILER_FUNCTIONS) SQL_FUNCTION_NOT_REGISTERED ≫= λ _,
    (match args with
     | Some [a] =>
         if bool_decide (name = js "min") || bool_decide (name = js "max")
         then ensure (isRepresentativeStableExpression a) SQL_CANONICAL_REPRESENTATIVE_TEMPORARILY_GATED else Ok tt
     | _ => Ok tt
     end) ≫= λ _,
    if has_over filterOver then ensure (isPeerStableWindow callee filterOver) SQL_WINDOW_TEMPORARILY_GATED else Ok tt.

Definition validateStarFunction (name : jsstring) (filterOver : option FilterOver) : compiled unit :=
  ensure (bool_decide (asciiLower name = js "count")) SQL_FUNCTION_NOT_REGISTERED ≫= λ _,
  ensure (negb (has_over filterOver)) SQL_WINDOW_TEMPORARILY_GATED.

Definition validateBuiltinCollation (name : jsstring) : compiled unit :=
  ensure (one_of (asciiLower name) ["binary"; "nocase"; "rtrim"]%string) SQL_COLLATION_NOT_REGISTERED.

Definition check_select (body : bool) (node : Select) (sql : jsstring) : compiled unit :=
  ensure (negb (sl_limit node) || isProvablyAtMostOneRow node || (body && bool_decide (is_Some (sl_orderBy node))))
    SQL_UNORDERED_LIMIT_TEMPORARILY_GATED ≫= λ _,
  (match sl_select node with
   | SelectFrom distinct columns _ groupBy =>
       ensure (negb distinct || isRepresentativeStableProjection columns || isProvablyAtMostOneRow node)
         SQL_CANONICAL_REPRESENTATIVE_TEMPORARILY_GATED ≫= λ _,
       match groupBy with
       | Some groups => ensure (isSafeGroupedProjection columns groups sql) SQL_CANONICAL_REPRESENTATIVE_TEMPORARILY_GATED
       | None => Ok tt
       end
   | SelectValues _ => Ok tt
   end) ≫= λ _,
  match sl_compounds node with
  | Some compounds =>
      if existsb (λ c, negb (co_unionAll c)) compounds
      then ensure (isRepresentativeStableCompound node) SQL_CANONICAL_REPRESENTATIVE_TEMPORARILY_GATED else Ok tt
  | None => Ok tt
  end.

Definition check_expression (sql : jsstring) (node : AstNode) : compiled unit :=
  match node with
  | CurrentTimeNode => Err SQL_SIGNED_TIME_TEMPORARILY_GATED
  | ExprNode (FunctionCallExpr _ name args distinctness orderBy filterOver) =>
      validateFunction name args distinctness orderBy filterOver sql
  | ExprNode (FunctionCallStarExpr _ name filterOver) => validateStarFunction name filterOver
  | LikeExpr LikeMatch | LikeExpr LikeRegexp => Err SQL_REGISTERED_OPERATOR_REQUIRED
  | CollateNode collation => validateBuiltinCollation collation
  | SelectNode body select => check_select body select sql
  | SubqueryExpr select => ensure (isProvablyAtMostOneRow select) SQL_SCALAR_SUBQUERY_TEMPORARILY_GATED
  | TableCallSelectTable tblName => ensure (is_pragma_call (asciiLower (qn_objName tblName))) SQL_TABLE_FUNCTION_NOT_REGISTERED
  | RaiseExpr rollback => ensure (negb rollback) SQL_RAISE_TEMPORARILY_GATED
  | _ => Ok tt
  end.

(** ** Checks of a statement *)

Definition is_read (s : Stmt) : bool := match s with SelectStmt _ | PragmaStmt _ _ => true | _ => false end.

Definition is_schema (s : Stmt) : bool :=
  match s with
  | AlterTableStmt _ | CreateIndexStmt _ _ | CreateTableStmt _ _ _ | CreateTriggerStmt _ _ _ | CreateViewStmt _ _
  | DropIndexStmt _ | DropTableStmt _ | DropTriggerStmt _ | DropViewStmt _ => true
  | _ => false
  end.

Definition is_effect (s : Stmt) : bool :=
  is_schema s || match s with InsertStmt _ _ _ | UpdateStmt _ | DeleteStmt _ | ReindexStmt => true | _ => false end.

Definition mutationTarget (s : Stmt) : option jsstring :=
  match s with
  | InsertStmt tblName _ _ => Some (qn_objName tblName)
  | UpdateStmt parts => Some (qn_objName (up_tblName parts))
  | DeleteStmt parts => Some (qn_objName (de_tblName parts))
  | _ => None
  end.

Definition schemaTarget (s : Stmt) : option jsstring :=
  match s with
  | AlterTableStmt n | CreateTableStmt _ n _ | CreateVirtualTableStmt n | DropTableStmt n | CreateIndexStmt n _ | DropIndexStmt n
  | CreateTriggerStmt _ n _ | DropTriggerStmt n | CreateViewStmt _ n | DropViewStmt n => Some (qn_objName n)
  | _ => None
  end.

Definition classifyStatement (s : Stmt) : SqlStatementClass :=
  match s with
  | SelectStmt _ => class_read
  | InsertStmt _ _ _ => class_insert
  | UpdateStmt _ => class_update
  | DeleteStmt _ => class_delete
  | PragmaStmt _ _ => class_pragma
  | CreateVirtualTableStmt _ => class_registered_effect
  | ReindexStmt => class_schema
  | _ => if is_schema s then class_schema else class_registered_effect
  end.

Definition validatePragma (name : QualifiedName) (body : bool) : compiled unit :=
  ensure (is_main (qn_dbName name)) SQL_ATTACHED_DATABASE_PROHIBITED ≫= λ _,
  ensure (one_of (asciiLower (qn_objName name)) DETERMINISTIC_READ_ONLY_PRAGMAS && negb body) SQL_PRAGMA_STATE_PROHIBITED.

Definition validateTemporaryObjects (s : Stmt) : compiled unit :=
  match s with
  | CreateTableStmt temporary _ _ | CreateTriggerStmt temporary _ _ | CreateViewStmt temporary _ =>
      ensure (negb temporary) SQL_TEMP_OBJECT_PROHIBITED
  | _ => Ok tt
  end.

Definition check_all (check : AstNode → compiled unit) (nodes : list AstNode) : compiled unit :=
  foldR (λ _ node, check node) tt nodes.

Definition validateObjectNames (s : Stmt) (nodes : list AstNode) : compiled unit :=
  check_all check_name nodes ≫= λ _,
  (match mutationTarget s with
   | Some target => ensure (negb (isReservedSchemaObjectName target || startsWith (js "sqlite_") (asciiLower target))) SQL_PROTECTED_OBJECT_WRITE
   | None => Ok tt
   end) ≫= λ _,
  (match schemaTarget s with
   | Some created =>
       ensure (negb (isReservedSchemaObjectName created || startsWith (js "sqlite_") (asciiLower created) ||
                     startsWith (js "dolt_") (asciiLower created))) SQL_PROTECTED_OBJECT_NAME
   | None => Ok tt
   end) ≫= λ _,
  match s with
  | CreateIndexStmt _ tblName => validateMutationTarget tblName
  | CreateTriggerStmt _ _ tblName => validateMutationTarget (qn_objName tblName)
  | _ => Ok tt
  end.

Definition validateOrderSensitiveMutation (s : Stmt) (hasPrivatePlan : bool) : compiled unit :=
  (match s with
   | UpdateStmt parts => ensure (negb (up_orderBy parts || up_limit parts) || hasPrivatePlan) SQL_ORDERED_MUTATION_TEMPORARILY_GATED
   | DeleteStmt parts => ensure (negb (de_orderBy parts || de_limit parts) || hasPrivatePlan) SQL_ORDERED_MUTATION_TEMPORARILY_GATED
   | _ => Ok tt
   end) ≫= λ _,
  match s with
  | UpdateStmt parts =>
      ensure (match up_from parts with Some from => isProvablySingletonFrom from | None => true end &&
              match up_orConflict parts with Some ConflictOther => false | _ => true end)
        SQL_ORDER_SENSITIVE_UPDATE_TEMPORARILY_GATED
  | InsertStmt _ (SelectInsertBody select) _ =>
      ensure (match sl_select select with SelectValues _ => true | SelectFrom _ _ _ _ => isProvablyAtMostOneRow select end)
        SQL_INSERT_SELECT_TEMPORARILY_GATED
  | CreateTableStmt _ _ (AsSelectCreateTableBody select) =>
      ensure (isProvablyAtMostOneRow select) SQL_CREATE_TABLE_AS_SELECT_TEMPORARILY_GATED
  | _ => Ok tt
  end.

(** ** Parameters and bindings *)

Definition compareOffsets (a b : nat * jsstring) : Z := Z.of_nat a.1 - Z.of_nat b.1.

(** One round of the loop of [parameterPlanFor]. *)
Definition plan_variable (acc : Numbering * jsmap Z (jsset jsstring)) (token : jsstring) : compiled (Numbering * jsmap Z (jsset jsstring)) :=
  let maximum := nb_maximum acc.1 in
  (if bool_decide (token = [63]) then Ok (maximum + 1, nb_names acc.1)
   else match numbered_token token with
   | Some index => ensure (valid_index index) SQL_PARAMETER_INDEX_INVALID ≫= λ _, Ok (index, nb_names acc.1)
   | None =>
       match map_get token (nb_names acc.1) with
       | Some known => Ok (known, nb_names acc.1)
       | None => Ok (maximum + 1, map_set token (maximum + 1) (nb_names acc.1))
       end
   end) ≫= λ numbered : Z * jsmap jsstring Z,
  let names := default [] (map_get numbered.1 acc.2) in
  Ok (mkNumbering numbered.2 (maximum `max` numbered.1),
      map_set numbered.1 (if bool_decide (token = [63]) then names else set_add token names) acc.2).

Definition variables_of (nodes : list AstNode) : list (nat * jsstring) :=
  omap (λ node, match node with VariableExpr offset name => Some (offset, name) | _ => None end) nodes.

Definition parameter_of (entry : Z * jsset jsstring) : CompiledSqlParameter := mkParameter entry.1 (map_keys entry.2) true.

Definition parameterPlanFor (nodes : list AstNode) : compiled (list CompiledSqlParameter * Z) :=
  planned ← foldR plan_variable (mkNumbering [] 0, []) (snd <$> js_sort compareOffsets (variables_of nodes));
  Ok (parameter_of <$> js_sort compareIndices planned.2, nb_maximum planned.1).

Definition encodeSqlBindingValue (value : SqlBindingValue) : compiled bytes :=
  match (v ← sqlBindingValueToCanonicalCbor value; coded (encodeCanonicalCbor v)) with Ok b => Ok b | Err _ => Err BindingEncoding end.

(** [new Map(parameters.flatMap(({ names, index }) => names.map((name) => [name, index])))] *)
Definition names_of (parameters : list CompiledSqlParameter) : jsmap jsstring Z :=
  map_of_entries (mjoin ((λ p, (λ name, (name, cp_index p)) <$> cp_names p) <$> parameters)).

Definition binding_index (parameters : list CompiledSqlParameter) (binding : SqlBinding) : option Z :=
  match bd_parameter binding with
  | parameter_index index => Some index
  | parameter_name name => map_get name (names_of parameters)
  end.

Definition same_value (a b : SqlBindingValue) : compiled unit :=
  x ← encodeSqlBindingValue a; y ← encodeSqlBindingValue b; ensure (equalBytes x y) SQL_BINDING_CONFLICT.

Definition bind_value (parameters : list CompiledSqlParameter) (maximum : Z) (values : jsmap Z SqlBindingValue) (binding : SqlBinding) :
    compiled (jsmap Z SqlBindingValue) :=
  match binding_index parameters binding with
  | None => Err SQL_BINDING_PARAMETER_NOT_FOUND
  | Some index =>
      ensure (negb ((index <? 1) || (maximum <? index) || negb (existsb (λ p, cp_index p =? index) parameters)))
        SQL_BINDING_PARAMETER_NOT_FOUND ≫= λ _,
      (match map_get index values with Some previous => same_value previous (bd_value binding) | None => Ok tt end) ≫= λ _,
      Ok (map_set index (bd_value binding) values)
  end.

Definition validateBindings (bindings : list SqlBinding) (parameters : list CompiledSqlParameter) (maximum : Z) : compiled unit :=
  values ← foldR (bind_value parameters maximum) [] bindings;
  ensure (forallb (λ p, negb (cp_referenced p) || map_has (cp_index p) values) parameters) SQL_BINDING_MISSING.

(** ** Ordered mutations *)

Definition IDENTITY_PREDICATE_TOKEN : jsstring := js "__chronolog_ordered_target_predicate__".
Definition IDENTITY_SELECT_TOKEN : jsstring := js "__chronolog_ordered_identity_columns__".
Definition IDENTITY_ORDER_TOKEN : jsstring := js "__chronolog_ordered_identity_order__".

Record OrderedMutationPlan := mkPlan {
  om_targetTable : jsstring;
  om_selectionSqlTemplate : jsstring;
  om_selectionMaximumParameterIndex : Z;
  om_mutationSqlTemplate : jsstring;
  om_assignedColumns : list jsstring;
}.

(** [.replace(/;\s*$/u, '')] *)
Definition drop_semicolon (s : jsstring) : jsstring :=
  match drop_spaces (reverse s) with 59 :: rest => reverse rest | _ => s end.

(** What an [UPDATE] and a [DELETE] have in common. *)
Definition mutation_parts (s : Stmt) : compiled (QualifiedName * option Span * list jsstring) :=
  match s with
  | UpdateStmt parts =>
      ensure (negb (bool_decide (is_Some (up_orConflict parts)) || bool_decide (is_Some (up_from parts))))
        SQL_ORDERED_MUTATION_SET_STABILITY_UNPROVEN ≫= λ _,
      Ok (up_tblName parts, up_whereClause parts, mjoin ((λ columns, asciiLower <$> columns) <$> up_sets parts))
  | DeleteStmt parts => Ok (de_tblName parts, de_whereClause parts, [])
  | _ => Err SQL_ORDERED_MUTATION_PARSE_MISMATCH
  end.

Definition segment (sql : jsstring) (span : Span) (parameters : list ParameterOccurrence) : jsstring :=
  rewriteSourceSegment sql (sp_offset span) (sp_offset span + sp_length span) parameters.

Definition selection_template (table whereExpression orderExpression limitExpression : jsstring) : jsstring :=
  js "SELECT " ++ IDENTITY_SELECT_TOKEN ++ js " FROM " ++ quoteSqlIdentifier table ++ js " WHERE " ++ whereExpression ++
  js " ORDER BY " ++ (if bool_decide (orderExpression = []) then [] else orderExpression ++ js ", ") ++ IDENTITY_ORDER_TOKEN ++
  js " LIMIT " ++ limitExpression.

Definition buildOrderedMutationPlan (s : Stmt) (sql : jsstring) (syntax : OrderedMutationSyntax) : compiled OrderedMutationPlan :=
  parts ← mutation_parts s;
  let '(tblName, whereClause, assignedColumns) := parts in
  ensure (negb (qn_alias tblName || bool_decide (is_Some (qn_dbName tblName)))) SQL_ORDERED_MUTATION_TARGET_ALIAS_GATED ≫= λ _,
  parameters ← parameterOccurrences sql;
  let whereExpression := match whereClause with Some span => segment sql span parameters | None => js "1" end in
  let orderExpression := match os_orderExpressionStart syntax with
    | Some start => trim (rewriteSourceSegment sql start (os_limitKeyword syntax) parameters)
    | None => []
    end in
  let limitExpression :=
    trim (drop_semicolon (rewriteSourceSegment sql (os_limitExpressionStart syntax) (length sql) parameters)) in
  ensure (negb (bool_decide (limitExpression = []))) SQL_ORDERED_MUTATION_LIMIT_REQUIRED ≫= λ _,
  let selection := selection_template (qn_objName tblName) whereExpression orderExpression limitExpression in
  selected ← parameterOccurrences selection;
  let prefixEnd := match os_whereKeyword syntax, os_returningKeyword syntax with
    | Some w, _ => w | None, Some r => r | None, None => os_cutoff syntax end in
  let mutationPrefix := trimEnd (rewriteSourceSegment sql 0 prefixEnd parameters) in
  let returning := match os_returningKeyword syntax with
    | Some r => 32 :: trim (rewriteSourceSegment sql r (os_cutoff syntax) parameters)
    | None => []
    end in
  Ok (mkPlan (qn_objName tblName) selection (maximum_index selected)
    (mutationPrefix ++ js " WHERE " ++ IDENTITY_PREDICATE_TOKEN ++ returning) assignedColumns).

(** [s.replace(pattern, value)] for a string pattern: its first occurrence *)
Fixpoint replace_first (pattern value s : jsstring) : jsstring :=
  if startsWith pattern s then value ++ drop (length pattern) s
  else match s with [] => [] | c :: s' => c :: replace_first pattern value s' end.

(** ** Compilation *)

Inductive SqlCompilationMode := mode_precondition | mode_body.

Record SqlSourceSpan := mkSourceSpan { ss_startByte : nat; ss_endByte : nat }.

Record CompiledSqlSource := mkCompiled {
  cs_source : SqlStatement;
  cs_ast : Ast;
  cs_statementClass : SqlStatementClass;
  cs_effectCapable : bool;
  cs_readOnly : bool;
  cs_changesSchema : bool;
  cs_producesResult : bool;
  cs_resultMode : option SqlResultMode;
  cs_parameters : list CompiledSqlParameter;
  cs_maximumParameterIndex : Z;
  cs_sourceSpan : SqlSourceSpan;
  cs_orderedMutation : option OrderedMutationPlan;
}.

Record CompiledSqlProgram := mkCompiledProgram {
  cg_source : SqlTransactionProgram;
  cg_preconditions : list CompiledSqlSource;
  cg_body : list CompiledSqlSource;
}.

Definition byteSpan (sql : jsstring) (offset len : nat) : SqlSourceSpan :=
  mkSourceSpan (length (textEncode (slice 0 offset sql))) (length (textEncode (slice 0 (offset + len) sql))).

(** What the parser answers. *)
Inductive ParseOutcome := parse_failed | parse_cmds (cmds : list Ast).

Section compiler.
Context (parse : jsstring → ParseOutcome) (traverse : Ast → list AstNode).

Definition parseOne (sql : jsstring) : compiled Ast :=
  ensure (valid_source sql) SQL_INVALID_SOURCE ≫= λ _,
  match parse sql with
  | parse_failed => Err SQL_PARSE_ERROR
  | parse_cmds [ast] => Ok ast
  | parse_cmds _ => Err SQL_MULTIPLE_STATEMENTS
  end.

Definition validateDeterministicExpressions (ast : Ast) (sql : jsstring) : compiled unit :=
  check_all (check_expression sql) (traverse ast).

(** The selection of an ordered mutation is checked as a statement of its own. *)
Definition check_selection (plan : OrderedMutationPlan) : compiled unit :=
  let validationSql := replace_first IDENTITY_ORDER_TOKEN (js "rowid")
    (replace_first IDENTITY_SELECT_TOKEN (js "rowid") (om_selectionSqlTemplate plan)) in
  selectionAst ← parseOne validationSql;
  validateDeterministicExpressions selectionAst validationSql.

Definition check_kind (mode : SqlCompilationMode) (s : Stmt) : compiled unit :=
  match s with
  | ProhibitedStmt => Err SQL_STATEMENT_PROHIBITED
  | AnalyzeStmt => Err SQL_ANALYZE_TEMPORARILY_GATED
  | CreateVirtualTableStmt _ => Err SQL_VIRTUAL_TABLE_TEMPORARILY_GATED
  | ReindexStmt => Err SQL_REINDEX_TEMPORARILY_GATED
  | _ =>
      ensure (match mode with mode_precondition => is_read s | mode_body => true end) SQL_PRECONDITION_NOT_READ_ONLY ≫= λ _,
      match s with PragmaStmt name body => validatePragma name body | _ => Ok tt end
  end.

Definition producesResult (s : Stmt) : bool :=
  match s with
  | SelectStmt _ | PragmaStmt _ _ => true
  | InsertStmt _ _ returning => returning
  | UpdateStmt parts => up_returning parts
  | DeleteStmt parts => de_returning parts
  | _ => false
  end.

Definition result_mode (s : Stmt) : option SqlResultMode :=
  if producesResult s then
    Some (match s with
          | SelectStmt body => if bool_decide (is_Some (sl_orderBy body)) then mode_ordered else mode_multiset
          | _ => mode_multiset
          end)
  else None.

Definition compileSqlStatement (statement : SqlStatement) (mode : SqlCompilationMode) : compiled CompiledSqlSource :=
  let sql := st_sql statement in
  syntax ← parseOrderedMutationSyntax sql;
  ast ← parseOne (match syntax with Some x => os_parserSql x | None => sql end);
  let s := as_stmt ast in
  check_kind mode s ≫= λ _,
  validateTemporaryObjects s ≫= λ _,
  validateObjectNames s (traverse ast) ≫= λ _,
  validateDeterministicExpressions ast sql ≫= λ _,
  validateOrderSensitiveMutation s (bool_decide (is_Some syntax)) ≫= λ _,
  plan ← (match syntax with Some _ => parameterPlanFromSource sql | None => parameterPlanFor (traverse ast) end);
  validateBindings (st_bindings statement) plan.1 plan.2 ≫= λ _,
  orderedMutation ← (match syntax with Some x => Some <$> buildOrderedMutationPlan s sql x | None => Ok None end);
  (match orderedMutation with Some plan => check_selection plan | None => Ok tt end) ≫= λ _,
  Ok (mkCompiled statement ast (classifyStatement s) (is_effect s) (is_read s) (is_schema s) (producesResult s) (result_mode s)
    plan.1 plan.2 (byteSpan sql (sp_offset (as_span ast)) (sp_length (as_span ast))) orderedMutation).

Definition compileSqlProgram (program : SqlTransactionProgram) : compiled CompiledSqlProgram :=
  ensure ((prog_version program =? 1) && (0 <? length (prog_preconditions program))%nat && (0 <? length (prog_body program))%nat)
    SQL_PROGRAM_SHAPE_INVALID ≫= λ _,
  preconditions ← mapR (λ p, compileSqlStatement (pre_query p) mode_precondition) (prog_preconditions program);
  body ← mapR (λ statement, compileSqlStatement statement mode_body) (prog_body program);
  ensure (existsb cs_effectCapable body) SQL_EFFECT_CAPABLE_STATEMENT_REQUIRED ≫= λ _,
  Ok (mkCompiledProgram program preconditions body).
End compiler.

(** ** Use of a compiled statement *)

(** [values[index - 1]] *)
Definition value_at (index : Z) (values : list (option SqlBindingValue)) : option SqlBindingValue :=
  mjoin (values !! Z.to_nat (index - 1)).

Definition place_value (maximum : Z) (parameters : list CompiledSqlParameter) (values : list (option SqlBindingValue)) (binding : SqlBinding) :
    compiled (list (option SqlBindingValue)) :=
  match binding_index parameters binding with
  | None => Err SQL_BINDING_PARAMETER_NOT_FOUND
  | Some index =>
      ensure (negb ((index <? 1) || (maximum <? index))) SQL_BINDING_PARAMETER_NOT_FOUND ≫= λ _,
      (match value_at index values with Some known => same_value known (bd_value binding) | None => Ok tt end) ≫= λ _,
      Ok (<[Z.to_nat (index - 1) := Some (bd_value binding)]> values)
  end.

Definition fill_values (values : list (option SqlBindingValue)) : list SqlBindingValue := default (binding_logical LNull) <$> values.

Definition orderedSqlBindingValues (c : CompiledSqlSource) : compiled (list SqlBindingValue) :=
  let maximum := cs_maximumParameterIndex c in
  values ← foldR (place_value maximum (cs_parameters c)) (replicate (Z.to_nat maximum) None) (st_bindings (cs_source c));
  ensure (forallb (λ p, negb (cp_referenced p) || bool_decide (is_Some (value_at (cp_index p) values))) (cs_parameters c))
    SQL_BINDING_MISSING ≫= λ _,
  Ok (fill_values values).

(** [Array.from({ length }, (_value, index) => ...).join(', ')] *)
Definition tie_terms (count : nat) : jsstring :=
  match (λ index, js_decimal (Z.of_nat index + 1) ++ js " COLLATE BINARY") <$> seq 0 count with
  | [] => []
  | first :: rest => first ++ mjoin ((λ term, js ", " ++ term) <$> rest)
  end.

Definition completeOrderedResultSql (c : CompiledSqlSource) (resultColumnCount : Z) : compiled jsstring :=
  match as_stmt (cs_ast c) with
  | SelectStmt body =>
      match sl_orderBy body with
      | Some ((first :: rest) as terms) =>
          ensure ((1 <=? resultColumnCount) && (resultColumnCount <=? MAX_SAFE_INTEGER)) SQL_RESULT_COLUMN_COUNT_INVALID ≫= λ _,
          let last_term := List.last terms first in
          let insertionOffset := (sp_offset last_term + sp_length last_term)%nat in
          let sql := st_sql (cs_source c) in
          Ok (slice 0 insertionOffset sql ++ js ", " ++ tie_terms (Z.to_nat resultColumnCount) ++ drop insertionOffset sql)
      | _ => Err SQL_ORDERED_RESULT_REQUIRES_ORDER_BY
      end
  | _ => Err SQL_ORDERED_RESULT_REQUIRES_ORDER_BY
  end.
