(* ===== verification/SqlCompilerTheorems.v ===== *)
(** * What a compiled statement promises

    Bindings that were checked can be placed; the two ways of numbering parameters
    agree; a compiled program reads nothing ambient and writes nothing protected.  Three
    examples show what the gate lets pass nevertheless. *)

From Stdlib Require Import Strings.String.
From stdpp Require Import base list option numbers sets.
From S2P Require Import Prelude JsMap Bytes Text JsNumber Cbor Logical Sql SqlScan SqlScanTheorems SqlCompiler.

#[local] Open Scope Z_scope.

(** ** Bindings *)

(** Two values that are bound alike: they are the same, or have the same encoding. *)
Definition bound_alike (a b : SqlBindingValue) : Prop := a = b ∨ ∃ e, encodeSqlBindingValue a = Ok e ∧ encodeSqlBindingValue b = Ok e.

#[local] Instance bound_alike_equivalence : Equivalence bound_alike.
Proof.
  split.
  - by left.
  - intros a b [->|(e & ? & ?)]; [by left|right; by exists e].
  - intros a b c [->|(e & Ha & Hb)] [->|(e' & Hb' & Hc)]; [by left|right; by exists e'|right; by exists e|].
    right. exists e. split; [done|]. congruence.
Qed.

Lemma same_value_alike a b u : same_value a b = Ok u → bound_alike a b.
Proof. unfold same_value. intros H. inv_ok. apply equalBytes_spec in H as ->. right. by eexists. Qed.

(** The values of [validateBindings] in the slots of [orderedSqlBindingValues]. *)
Definition placed (maximum : Z) (m : jsmap Z SqlBindingValue) (l : list (option SqlBindingValue)) : Prop :=
  length l = Z.to_nat maximum ∧ (∀ i, 1 ≤ i ≤ maximum → map_get i m = value_at i l) ∧ ∀ i, is_Some (map_get i m) → 1 ≤ i ≤ maximum.

Lemma value_at_insert i j v l : 1 ≤ i → 1 ≤ j ≤ Z.of_nat (length l) →
  value_at i (<[Z.to_nat (j - 1) := Some v]> l) = if decide (i = j) then Some v else value_at i l.
Proof.
  intros Hi Hj. unfold value_at. case_decide as Hij.
  - subst. rewrite list_lookup_insert_eq by lia. done.
  - rewrite list_lookup_insert_ne by lia. done.
Qed.

Lemma place_bound parameters maximum m l binding m' :
  placed maximum m l → bind_value parameters maximum m binding = Ok m' →
  ∃ l' i, place_value maximum parameters l binding = Ok l' ∧ placed maximum m' l' ∧ binding_index parameters binding = Some i ∧
    1 ≤ i ≤ maximum ∧ m' = map_set i (bd_value binding) m ∧ ∀ v, map_get i m = Some v → bound_alike v (bd_value binding).
Proof.
  intros (Hlen & Hsame & Hin) H. unfold bind_value, place_value in *. destruct (binding_index parameters binding) as [i|]; [|done].
  apply bind_Ok in H as (u & Hr%ensure_Ok & H). apply bind_Ok in H as (w & Hc & [= <-]).
  apply negb_true_iff, orb_false_iff in Hr as [[H1%Z.ltb_ge H2%Z.ltb_ge]%orb_false_iff _].
  rewrite (proj2 (Z.ltb_ge i 1)), (proj2 (Z.ltb_ge maximum i)) by lia. cbn [orb negb ensure mbind result_bind].
  rewrite <-Hsame, Hc by lia. cbn [mbind result_bind]. eexists _, i. split; [done|]. split_and!; try done.
  - split_and!; [by rewrite length_insert| |].
    + intros j Hj. rewrite map_get_set, value_at_insert by (rewrite ?Hlen; lia). case_decide; [done|by apply Hsame].
    + intros j. rewrite map_get_set. case_decide; [by subst|apply Hin].
  - intros v Hv. rewrite Hv in Hc. by eapply same_value_alike.
Qed.

(** Every binding is found in the map, up to its encoding, and the map has nothing else. *)
Lemma bindings_placed parameters maximum bindings : ∀ m l m',
  placed maximum m l → foldR (bind_value parameters maximum) m bindings = Ok m' →
  ∃ l', foldR (place_value maximum parameters) l bindings = Ok l' ∧ placed maximum m' l' ∧
    (∀ i v, map_get i m = Some v → ∃ v', map_get i m' = Some v' ∧ bound_alike v v') ∧
    (∀ binding, binding ∈ bindings → ∃ i v, binding_index parameters binding = Some i ∧ map_get i m' = Some v ∧ bound_alike (bd_value binding) v) ∧
    (∀ i v, map_get i m' = Some v → map_get i m = Some v ∨ ∃ binding, binding ∈ bindings ∧ binding_index parameters binding = Some i ∧ bd_value binding = v).
Proof.
  induction bindings as [|b bindings IH]; intros m l m' Hp; cbn [foldR].
  - intros [= <-]. exists l. split_and!; [done|done|intros i v Hv; by exists v| |by left]. intros binding []%not_elem_of_nil.
  - intros H. apply bind_Ok in H as (m1 & H1 & H). destruct (place_bound _ _ _ _ _ _ Hp H1) as (l1 & i & Hl1 & Hp1 & Hi & _ & -> & Hc).
    destruct (IH _ _ _ Hp1 H) as (l' & Hl' & Hp' & Hold & Hnew & Hall). exists l'. rewrite Hl1. cbn [mbind result_bind].
    split_and!; [done|done| | |].
    + intros j v Hj. destruct (decide (j = i)) as [->|Hne].
      * destruct (Hold i (bd_value b)) as (v' & Hv' & Ha); [apply map_get_set_eq|]. exists v'. split; [done|]. etrans; [by apply Hc|done].
      * apply Hold. by rewrite map_get_set_ne.
    + intros binding [->|Hb]%elem_of_cons; [|by apply Hnew]. exists i. destruct (Hold i (bd_value b)) as (v' & Hv' & Ha); [apply map_get_set_eq|]. by exists v'.
    + intros j v Hj. destruct (Hall _ _ Hj) as [Hm|(b' & Hb' & ?)]; [|right; exists b'; by split; [right|]].
      rewrite map_get_set in Hm. case_decide; [|by left]. subst j. injection Hm as <-. right. exists b. by split; [left|].
Qed.

Lemma value_filled i values v : 1 ≤ i → value_at i values = Some v → fill_values values !! Z.to_nat (i - 1) = Some v.
Proof.
  intros Hi. unfold value_at, fill_values. rewrite list_lookup_fmap. destruct (values !! _) as [[w|]|]; cbn; by intros [= ->] || done.
Qed.

Lemma value_unfilled i values : 1 ≤ i ≤ Z.of_nat (length values) → value_at i values = None →
  fill_values values !! Z.to_nat (i - 1) = Some (binding_logical LNull).
Proof.
  intros Hi. unfold value_at, fill_values. rewrite list_lookup_fmap.
  destruct (lookup_lt_is_Some_2 values (Z.to_nat (i - 1))) as [[w|] ->]; [lia|done|done].
Qed.

Section bindings.
Context (parse : jsstring → ParseOutcome) (traverse : Ast → list AstNode).

Lemma compiled_bindings statement mode c : compileSqlStatement parse traverse statement mode = Ok c →
  cs_source c = statement ∧ validateBindings (st_bindings statement) (cs_parameters c) (cs_maximumParameterIndex c) = Ok tt.
Proof.
  unfold compileSqlStatement. intros H. apply bind_Ok in H as (syntax & _ & H). apply bind_Ok in H as (ast & _ & H).
  do 5 (apply bind_Ok in H as (? & _ & H)). apply bind_Ok in H as (plan & _ & H). apply bind_Ok in H as ([] & Hb & H).
  apply bind_Ok in H as (om & _ & H). apply bind_Ok in H as (? & _ & H). injection H as <-. by split.
Qed.

(** C22: a statement that compiled can be bound.  [orderedSqlBindingValues] succeeds on
    it: it returns one value per parameter index; the value at the index of a binding is
    the one of that binding, up to its encoding; every parameter of the statement has
    the value of a binding; and the slots no binding fills are null.  The errors it
    could raise were all raised by the compiler. *)
Theorem compiled_statement_binds statement mode c : compileSqlStatement parse traverse statement mode = Ok c →
  ∃ values, orderedSqlBindingValues c = Ok values ∧ length values = Z.to_nat (cs_maximumParameterIndex c) ∧
    (∀ binding, binding ∈ st_bindings statement → ∃ i v, binding_index (cs_parameters c) binding = Some i ∧
       1 ≤ i ≤ cs_maximumParameterIndex c ∧ values !! Z.to_nat (i - 1) = Some v ∧ bound_alike (bd_value binding) v) ∧
    (∀ p, p ∈ cs_parameters c → cp_referenced p = true → ∃ binding, binding ∈ st_bindings statement ∧
       binding_index (cs_parameters c) binding = Some (cp_index p) ∧ values !! Z.to_nat (cp_index p - 1) = Some (bd_value binding)) ∧
    (∀ i, 1 ≤ i ≤ cs_maximumParameterIndex c →
       (∀ binding, binding ∈ st_bindings statement → binding_index (cs_parameters c) binding ≠ Some i) →
       values !! Z.to_nat (i - 1) = Some (binding_logical LNull)).
Proof.
  intros (Hs & Hv)%compiled_bindings. unfold validateBindings in Hv. apply bind_Ok in Hv as (m & Hm & Hr%ensure_Ok).
  set (maximum := cs_maximumParameterIndex c) in *.
  assert (placed maximum [] (replicate (Z.to_nat maximum) None)) as Hp.
  { split_and!; [apply length_replicate| |by intros i []]. intros i Hi. unfold value_at. cbn. rewrite lookup_replicate_2 by lia. done. }
  destruct (bindings_placed _ _ _ _ _ _ Hp Hm) as (l & Hl & (Hlen & Hsame & Hin) & _ & Hbound & Hall).
  unfold orderedSqlBindingValues. rewrite Hs. fold maximum. rewrite Hl. cbn [mbind result_bind].
  rewrite forallb_forall in Hr. replace (forallb _ _) with true.
  2: { symmetry. apply forallb_forall. intros p Hin'. specialize (Hr p Hin'). destruct (cp_referenced p); [|done].
       cbn [negb orb] in *. apply map_has_true in Hr as Hx. apply bool_decide_eq_true. rewrite <-Hsame by (by apply Hin). done. }
  cbn [ensure mbind result_bind]. exists (fill_values l). split; [done|]. split_and!.
  - unfold fill_values. by rewrite length_fmap.
  - intros binding Hb. destruct (Hbound binding Hb) as (i & v & Hi & Hget & Ha). assert (1 ≤ i ≤ maximum) as Hrange by (apply Hin; by eexists).
    exists i, v. split; [done|]. split; [done|]. split; [|done]. apply value_filled; [lia|]. by rewrite <-Hsame.
  - intros p Hp' Href. apply list_elem_of_In in Hp'. specialize (Hr p Hp'). rewrite Href in Hr. cbn [negb orb] in Hr. apply map_has_true in Hr as [v Hget].
    assert (1 ≤ cp_index p ≤ maximum) as Hrange by (apply Hin; by eexists).
    destruct (Hall _ _ Hget) as [|(binding & Hb & Hi & <-)]; [done|]. exists binding. split_and!; [done|done|].
    apply value_filled; [lia|]. by rewrite <-Hsame.
  - intros i Hi Hno. apply value_unfilled; [lia|]. rewrite <-Hsame by done. destruct (map_get i m) as [v|] eqn:Hget; [|done].
    destruct (Hall _ _ Hget) as [|(binding & Hb & Hbi & _)]; [done|]. by destruct (Hno binding Hb).
Qed.
End bindings.

(** ** The two numberings *)

Lemma js_sort_Forall2 {A B} (R : A → B → Prop) cmp cmp' l l' :
  (∀ a b a' b', R a a' → R b b' → cmp a b = cmp' a' b') → Forall2 R l l' → Forall2 R (js_sort cmp l) (js_sort cmp' l').
Proof.
  intros Hc. unfold js_sort. induction 1 as [|a a' l l' Ha _ IH]; cbn; [constructor|]. revert IH. generalize (foldr (sort_insert cmp) [] l).
  generalize (foldr (sort_insert cmp') [] l'). intros k' k. induction 1 as [|b b' k k' Hb Hk IH]; cbn; [by repeat constructor|].
  rewrite (Hc _ _ _ _ Ha Hb). destruct (_ <=? _); by repeat constructor.
Qed.

Lemma map_set_id {K V} `{EqDecision K} (k : K) (v : V) m : map_get k m = Some v → map_set k v m = m.
Proof. induction m as [|[k' v'] m IH]; cbn; [done|]. case_decide; [by intros [= ->]; subst|]. intros Hget. by rewrite IH. Qed.

(** The names of a parameter, and those with the spelled number among them. *)
Definition same_names (e e' : Z * jsset jsstring) : Prop :=
  e.1 = e'.1 ∧ map_keys e.2 = filter (λ t, numbered_token t = None) (map_keys e'.2).

Lemma group_get i g g' : Forall2 same_names g g' →
  map_keys (default [] (map_get i g)) = filter (λ t, numbered_token t = None) (map_keys (default [] (map_get i g'))).
Proof.
  induction 1 as [|[k s] [k' s'] g g' [Hk Hs] _ IH]; [done|]. cbn in Hk, Hs. subst k'. cbn. by case_decide.
Qed.

Lemma group_set i s s' g g' : map_keys s = filter (λ t, numbered_token t = None) (map_keys s') → Forall2 same_names g g' →
  Forall2 same_names (map_set i s g) (map_set i s' g').
Proof.
  intros Hs. induction 1 as [|[k x] [k' x'] g g' [Hk Hx] Hg IH]; cbn; [by repeat constructor|]. cbn in Hk, Hx. subst k'.
  case_decide; by constructor.
Qed.

Lemma keys_set_add (t : jsstring) (s : jsset jsstring) : map_keys (set_add t s) = if decide (t ∈ map_keys s) then map_keys s else map_keys s ++ [t].
Proof.
  unfold set_add. rewrite map_keys_set. destruct (map_has t s) eqn:Hh.
  - rewrite decide_True; [done|]. apply map_has_true in Hh as [u Hu]. apply map_get_Some_elem in Hu. by apply (list_elem_of_fmap_2 fst) in Hu.
  - rewrite decide_False; [done|]. by apply map_get_None, map_has_false.
Qed.

(** One token, numbered by both. *)
Lemma plan_token token n index name n' g g' : numbering_ok n → number_token token n = (index, name, n') → valid_index index = true →
  Forall2 same_names g g' →
  ∃ g1, plan_variable (n, g') token = Ok (mkNumbering (nb_names n') (nb_maximum n' `max` index), g1) ∧
    ∀ start stop, Forall2 same_names (group_names g (mkOccurrence start stop index name)) g1.
Proof.
  intros Hn Ht Hv Hg. unfold number_token, plan_variable, group_names in *. cbn [fst snd po_index po_name].
  destruct (bool_decide (token = [63])) eqn:Hq.
  - injection Ht as <- <- <-. cbn [mbind result_bind fst snd]. eexists. split; [done|]. intros _ _. apply group_set; [by apply group_get|done].
  - destruct (numbered_token token) as [k|] eqn:Hnum.
    + injection Ht as <- <- <-. rewrite Hv. cbn [ensure mbind result_bind fst snd]. eexists. split; [done|]. intros _ _.
      apply group_set; [|done]. rewrite (group_get k _ _ Hg), keys_set_add. destruct (decide (token ∈ _)); [done|]. rewrite filter_app, filter_cons.
      rewrite decide_False, filter_nil, app_nil_r by congruence. done.
    + injection Ht as Hindex <- <-. cbn [nb_names nb_maximum]. destruct (map_get token (nb_names n)) as [old|] eqn:Hold; cbn in Hindex; subst index.
      all: cbn [mbind result_bind fst snd default]; eexists; split; [cbn; try rewrite (map_set_id _ _ _ Hold); done|].
      all: intros _ _; apply group_set; [|done]; rewrite !keys_set_add, (group_get _ _ _ Hg).
      all: destruct (decide (token ∈ map_keys _)) as [Hin|Hin];
        [rewrite decide_True by (by apply list_elem_of_filter); done|rewrite decide_False by (by intros [_ ?]%list_elem_of_filter)].
      all: by rewrite filter_app, filter_cons, decide_True, filter_nil.
Qed.

Lemma plan_tokens vs : ∀ n acc n' acc' g', numbering_ok n → foldR occurrence (n, acc) vs = Ok (n', acc') →
  Forall2 same_names (foldl group_names [] acc) g' → maximum_index acc = nb_maximum n →
  ∃ g1, foldR plan_variable (n, g') (filter (λ t, is_parameter t = true) (vs_token <$> vs)) = Ok (n', g1) ∧
    Forall2 same_names (foldl group_names [] acc') g1 ∧ maximum_index acc' = nb_maximum n'.
Proof.
  induction vs as [|v vs IH]; intros n acc n' acc' g' Hn; cbn [foldR].
  - intros [= <- <-] Hg Hm. by exists g'.
  - intros H Hg Hm. apply bind_Ok in H as ([n1 acc1] & Ho & H). unfold occurrence in Ho. cbn [fst snd] in Ho. rewrite fmap_cons, filter_cons.
    destruct (is_parameter (vs_token v)) eqn:Hp; [rewrite decide_True by done|rewrite decide_False by congruence; injection Ho as <- <-; by eapply IH].
    destruct (number_token (vs_token v) n) as [[index name] n2] eqn:Ht. apply bind_Ok in Ho as (? & Hv%ensure_Ok & [= <- <-]).
    destruct (plan_token _ _ _ _ _ _ _ Hn Ht Hv Hg) as (g1 & Hg1 & Hg1'). destruct (number_token_ok _ _ _ _ _ Hn Ht Hv) as [Hok _].
    cbn [foldR]. rewrite Hg1. cbn [mbind result_bind]. apply (IH _ _ _ _ _ Hok H); [rewrite foldl_app; apply Hg1'|].
    unfold maximum_index in *. rewrite foldl_app, Hm. cbn [foldl po_index nb_maximum]. unfold number_token in Ht. by repeat case_match; simplify_eq.
Qed.

(** C23: both ways of numbering parameters agree.  If the variables the parser found are
    the parameters the scanner found, in the order of the source, and the plan made from
    the source exists, then the plan made from the syntax tree exists, with the same
    greatest index and the same parameters, whose names are the same but for spelled
    numbers such as [?7], which only the tree's plan counts as names. *)
Theorem plans_agree sql nodes parameters maximum :
  parameterPlanFromSource sql = Ok (parameters, maximum) →
  snd <$> js_sort compareOffsets (variables_of nodes) = filter (λ t, is_parameter t = true) (vs_token <$> scanSql sql) →
  ∃ parameters', parameterPlanFor nodes = Ok (parameters', maximum) ∧
    Forall2 (λ p p', cp_index p = cp_index p' ∧ cp_referenced p = cp_referenced p' ∧
      cp_names p = filter (λ t, numbered_token t = None) (cp_names p')) parameters parameters'.
Proof.
  unfold parameterPlanFromSource, parameterOccurrences. intros H Htokens. apply bind_Ok in H as (ps & H & [= <- <-]).
  apply fmap_Ok in H as ([n' acc'] & H & ->). cbn [snd].
  assert (numbering_ok (mkNumbering [] 0)) as Hn by (by split).
  destruct (plan_tokens _ _ _ _ _ [] Hn H (List.Forall2_nil _) eq_refl) as (g1 & Hg1 & Hg & Hm).
  unfold parameterPlanFor. rewrite Htokens, Hg1. cbn [mbind result_bind fst snd]. rewrite Hm. eexists. split; [done|].
  apply Forall2_fmap. eapply Forall2_impl; [apply (js_sort_Forall2 same_names); [|exact Hg]|].
  - intros a b a' b' [Ha _] [Hb _]. unfold compareIndices. by rewrite Ha, Hb.
  - intros a a' [Ha Hs]. split; [exact Ha|]. split; [done|exact Hs].
Qed.

(** ** What a compiled program may do *)

(** The functions whose result depends on more than their arguments. *)
Definition AMBIENT_FUNCTIONS : list string :=
  ["random"; "randomblob"; "changes"; "total_changes"; "last_insert_rowid"; "sqlite_offset"; "sum"; "avg"; "total"]%string.

(** An object SQLite, Dolt or the system itself owns, in any letter case. *)
Definition owned (name : jsstring) : Prop :=
  ∃ prefix : string, prefix ∈ ["chronolog_"; "sqlite_"; "dolt_"; "doltlite_"; "pragma_"]%string ∧ take (length (js prefix)) (asciiLower name) = js prefix.

(** The words a time function takes for the time of day or for the zone of the host. *)
Definition AMBIENT_TIME_WORDS : list string := ["now"; "localtime"; "utc"; "subsec"; "subsecond"]%string.

(** An argument whose value is in the source, and is not one of those words. *)
Definition fixed_time (argument : Expr) : Prop :=
  match argument with
  | NumericLiteral _ | NullLiteral _ => True
  | StringLiteral _ value => asciiLower value ∉ js <$> AMBIENT_TIME_WORDS
  | _ => False
  end.

(** [typeof(x)], whose value is the same for every representative of a group. *)
Definition typeof_call (e : Expr) : Prop :=
  ∃ span name x, e = FunctionCallExpr span name (Some [x]) false None None ∧ asciiLower name = js "typeof".

(** One or two arguments, no [DISTINCT], no window, and an order whose last term is
    spelled like the first argument. *)
Definition ordered_concat (sql : jsstring) (args : option (list Expr)) (distinctness : bool) (orderBy : option FunctionOrder)
    (filterOver : option FilterOver) : Prop :=
  ∃ first rest columns term, args = Some (first :: rest) ∧ (length rest ≤ 1)%nat ∧ distinctness = false ∧
    from_option fo_overClause None filterOver = None ∧
    orderBy = Some (SortListFunctionCallOrder (columns ++ [term])) ∧ sameSource term first sql = true.

(** A call whose value does not depend on the replica, nor on the order of the rows. *)
Definition harmless_call (sql name : jsstring) (args : option (list Expr)) (distinctness : bool) (orderBy : option FunctionOrder)
    (filterOver : option FilterOver) : Prop :=
  let is_time := asciiLower name ∈ js <$> ARGUMENT_CONDITIONAL_TIME_FUNCTIONS in
  let is_pragma := is_pragma_call (asciiLower name) = true in
  (asciiLower name ∉ js <$> AMBIENT_FUNCTIONS) ∧
  (asciiLower name = js "group_concat" → ordered_concat sql args distinctness orderBy filterOver) ∧
  (is_time → ∃ l, args = Some l ∧ l ≠ [] ∧ Forall fixed_time l) ∧
  (is_time ∨ is_pragma ∨ asciiLower name ∈ js <$> DETERMINISTIC_SQLITE_COMPILER_FUNCTIONS) ∧
  (∀ x, asciiLower name ∈ [js "min"; js "max"] → args = Some [x] → typeof_call x) ∧
  (∀ over, from_option fo_overClause None filterOver = Some over → is_time ∨ is_pragma ∨
    asciiLower name ∈ [js "rank"; js "dense_rank"] ∧ ∃ n, over = WindowOver (Some n) ∧ (0 < n)%nat).

(** A node that neither reads the state of a replica nor touches an owned object. *)
Definition harmless (sql : jsstring) (node : AstNode) : Prop :=
  match node with
  | CurrentTimeNode => False
  | ExprNode (FunctionCallExpr _ name args distinctness orderBy filterOver) => harmless_call sql name args distinctness orderBy filterOver
  | ExprNode (FunctionCallStarExpr _ name filterOver) => asciiLower name = js "count" ∧ from_option fo_overClause None filterOver = None
  | MutationNode tblName => ¬ owned (qn_objName tblName)
  | QualifiedNameNode name => from_option asciiLower (js "main") (qn_dbName name) = js "main"
  | CollateNode collation => asciiLower collation ∈ [js "binary"; js "nocase"; js "rtrim"]
  | SelectNode body select =>
      sl_limit select = true → isProvablyAtMostOneRow select = true ∨ body = true ∧ is_Some (sl_orderBy select)
  | SubqueryExpr select => isProvablyAtMostOneRow select = true
  | TableCallSelectTable tblName => is_pragma_call (asciiLower (qn_objName tblName)) = true
  | LikeExpr op => op = LikeOther
  | RaiseExpr rollback => rollback = false
  | _ => True
  end.

Lemma one_of_spec s names : one_of s names = true ↔ s ∈ js <$> names.
Proof. apply bool_decide_eq_true. Qed.

Lemma key_lower value : sqliteIdentifierKey value = asciiLower value.
Proof.
  unfold sqliteIdentifierKey, asciiLower. apply list_fmap_ext. intros _ c _. unfold is_upper.
  change 0x41 with 65. change 0x5A with 90. by destruct (_ && _).
Qed.

Lemma owned_reserved name : owned name → isReservedSchemaObjectName name = true.
Proof.
  intros (prefix & Hp & Ht). unfold isReservedSchemaObjectName, startsWith. rewrite key_lower.
  rewrite !elem_of_cons, elem_of_nil in Hp. rewrite !orb_true_iff, !bool_decide_eq_true. naive_solver.
Qed.

Lemma check_all_node check nodes node u : check_all check nodes = Ok u → node ∈ nodes → check node = Ok tt.
Proof.
  unfold check_all. revert u. generalize tt at 1. induction nodes as [|n nodes IH]; intros v u; cbn [foldR]; [by intros _ ?%not_elem_of_nil|].
  intros H Hin. apply bind_Ok in H as ([] & Hn & H). apply elem_of_cons in Hin as [->|Hin]; [done|by eapply IH].
Qed.

Lemma ambient_not_allowed name : name ∈ js <$> AMBIENT_FUNCTIONS →
  one_of name TEMPORARILY_GATED_FUNCTIONS = true ∧ name ≠ js "group_concat".
Proof.
  unfold AMBIENT_FUNCTIONS. rewrite !fmap_cons, fmap_nil, !elem_of_cons, elem_of_nil.
  intros H. repeat destruct H as [->|H]; done.
Qed.

Lemma time_fixed args : hasUnsafeTimeArgument args = false → ∃ l, args = Some l ∧ l ≠ [] ∧ Forall fixed_time l.
Proof.
  destruct args as [[|a l]|]; try done. unfold hasUnsafeTimeArgument. intros H. exists (a :: l). split_and!; [done..|].
  apply Forall_forall. intros x Hx. apply list_elem_of_In in Hx.
  destruct (is_unsafe_time x) eqn:Hu; [assert (existsb is_unsafe_time (a :: l) = true) by (apply existsb_exists; eauto); congruence|].
  destruct x; try done. cbn [is_unsafe_time fixed_time] in *. unfold AMBIENT_TIME_WORDS. by rewrite <- one_of_spec, Hu.
Qed.

Lemma no_over filterOver : has_over filterOver = false ↔ from_option fo_overClause None filterOver = None.
Proof. destruct filterOver as [[[?|]]|]; cbn; try done; rewrite bool_decide_eq_false, <- eq_None_not_Some; done. Qed.

Lemma safe_ordered sql args d o f : isSafeOrderedGroupConcat args d o f sql = true → ordered_concat sql args d o f.
Proof.
  unfold isSafeOrderedGroupConcat. destruct args as [[|first rest]|]; try done. rewrite !andb_true_iff, !negb_true_iff, no_over.
  intros [[[Hl%Nat.leb_le Hd] Hf] Ho]. destruct o as [[columns|]|]; try done. destruct columns as [|term columns _] using rev_ind; [done|].
  rewrite reverse_app in Ho. exists first, rest, columns, term. split_and!; [done|cbn in Hl; lia|done..].
Qed.

Lemma stable_typeof x : isRepresentativeStableExpression x = true → typeof_call x.
Proof.
  destruct x as [| | |span name [[|x []]|] [] [] []| |]; try done. intros H%bool_decide_eq_true. by exists span, name, x.
Qed.

Lemma peer_stable name f over : isPeerStableWindow name f = true → from_option fo_overClause None f = Some over →
  asciiLower name ∈ [js "rank"; js "dense_rank"] ∧ ∃ n, over = WindowOver (Some n) ∧ (0 < n)%nat.
Proof.
  unfold isPeerStableWindow. rewrite andb_true_iff, orb_true_iff, !bool_decide_eq_true. intros [Hn Hw] Ho.
  destruct f as [[o]|]; [cbn in Ho; subst o|done]. destruct over as [[n|]|]; try done. apply Nat.ltb_lt in Hw.
  split; [rewrite !elem_of_cons; tauto|by exists n].
Qed.

Lemma call_harmless sql name args d o f : validateFunction name args d o f sql = Ok tt → harmless_call sql name args d o f.
Proof.
  unfold validateFunction. cbv zeta. intros H.
  destruct (bool_decide (asciiLower name = js "group_concat") && isSafeOrderedGroupConcat args d o f sql) eqn:Hg.
  { apply andb_true_iff in Hg as [Hn%bool_decide_eq_true Hs%safe_ordered]. unfold harmless_call. rewrite Hn. split_and!; try done.
    - intros Hin. by apply ambient_not_allowed in Hin as [_ ?].
    - intros Hin%one_of_spec. done.
    - right; right. apply one_of_spec. done.
    - intros x Hin. exfalso. rewrite !elem_of_cons, elem_of_nil in Hin. naive_solver.
    - destruct Hs as (? & ? & ? & ? & _ & _ & _ & Hf & _). congruence. }
  apply bind_Ok in H as ([] & Hgate%ensure_Ok & H). apply negb_true_iff in Hgate. split_and!.
  - intros [? _]%ambient_not_allowed. congruence.
  - intros Hn. by rewrite Hn in Hgate.
  - intros Ht%one_of_spec. rewrite Ht in H. apply ensure_Ok, negb_true_iff in H. by apply time_fixed.
  - destruct (one_of _ ARGUMENT_CONDITIONAL_TIME_FUNCTIONS) eqn:Ht; [left; by apply one_of_spec|]. right.
    destruct (startsWith (js "pragma_") (asciiLower name)) eqn:Hp; [left; unfold is_pragma_call; rewrite Hp; by apply ensure_Ok in H|].
    right. apply bind_Ok in H as ([] & Hr%ensure_Ok & _). by apply one_of_spec.
  - intros x Hm ->. assert (one_of (asciiLower name) ARGUMENT_CONDITIONAL_TIME_FUNCTIONS = false ∧ startsWith (js "pragma_") (asciiLower name) = false ∧
      bool_decide (asciiLower name = js "min") || bool_decide (asciiLower name = js "max") = true) as (Ht & Hp & Hb).
    { rewrite !elem_of_cons, elem_of_nil in Hm. destruct Hm as [->|[->|[]]]; done. }
    rewrite Ht, Hp, Hb in H. apply bind_Ok in H as ([] & _ & H). apply bind_Ok in H as ([] & Hx%ensure_Ok & _). by apply stable_typeof.
  - intros over Ho. destruct (one_of _ ARGUMENT_CONDITIONAL_TIME_FUNCTIONS) eqn:Ht; [left; by apply one_of_spec|]. right.
    destruct (startsWith (js "pragma_") (asciiLower name)) eqn:Hp; [left; unfold is_pragma_call; rewrite Hp; by apply ensure_Ok in H|].
    right. apply bind_Ok in H as ([] & _ & H). apply bind_Ok in H as ([] & _ & H).
    destruct (has_over f) eqn:Hf; [|apply no_over in Hf; congruence]. apply ensure_Ok in H. by eapply peer_stable.
Qed.

Lemma checked_harmless sql node : check_name node = Ok tt → check_expression sql node = Ok tt → harmless sql node.
Proof.
  destruct node as [name|tbl|tbl| |e|op|c|b s|s|t|r|o n|]; cbn [harmless check_name check_expression]; intros Hn He; try done.
  - apply bind_Ok in Hn as (? & H%ensure_Ok & _). unfold is_main in H. destruct (qn_dbName name); [by apply bool_decide_eq_true in H|done].
  - apply ensure_Ok, negb_true_iff, orb_false_iff in Hn as [Hn _]. intros H%owned_reserved. congruence.
  - destruct e as [| | |span name args d o f|span name f|]; try done; [by apply call_harmless|].
    apply bind_Ok in He as ([] & Hc%ensure_Ok%bool_decide_eq_true & Hf%ensure_Ok%negb_true_iff). by rewrite <- no_over.
  - by destruct op.
  - apply ensure_Ok, one_of_spec in He. done.
  - intros Hl. apply bind_Ok in He as ([] & H%ensure_Ok & _). rewrite Hl, !orb_true_iff, andb_true_iff, bool_decide_eq_true in H. naive_solver.
  - by apply ensure_Ok in He.
  - by apply ensure_Ok in He.
  - by apply ensure_Ok, negb_true_iff in He.
Qed.

Section programs.
Context (parse : jsstring → ParseOutcome) (traverse : Ast → list AstNode).

Lemma compiled_checked statement mode c : compileSqlStatement parse traverse statement mode = Ok c →
  check_kind mode (as_stmt (cs_ast c)) = Ok tt ∧
  cs_readOnly c = is_read (as_stmt (cs_ast c)) ∧ cs_effectCapable c = is_effect (as_stmt (cs_ast c)) ∧
  (∀ target, mutationTarget (as_stmt (cs_ast c)) = Some target ∨ schemaTarget (as_stmt (cs_ast c)) = Some target → ¬ owned target) ∧
  (∀ node, node ∈ traverse (cs_ast c) → harmless (st_sql (cs_source c)) node).
Proof.
  unfold compileSqlStatement. intros H. apply bind_Ok in H as (syntax & _ & H). apply bind_Ok in H as (ast & _ & H).
  apply bind_Ok in H as ([] & Hk & H). apply bind_Ok in H as (? & _ & H). apply bind_Ok in H as (? & Hn & H).
  apply bind_Ok in H as (? & He & H). do 5 (apply bind_Ok in H as (? & _ & H)). injection H as <-.
  cbn [cs_source cs_ast cs_readOnly cs_effectCapable]. unfold validateObjectNames in Hn. apply bind_Ok in Hn as (? & Hnames & Hn).
  apply bind_Ok in Hn as (? & Hm & Hn). apply bind_Ok in Hn as (? & Hs & _). split_and!; [done..| |].
  - intros target [Ht|Ht] Ho%owned_reserved; rewrite Ht in *.
    + apply ensure_Ok, negb_true_iff, orb_false_iff in Hm as [Hm _]. congruence.
    + apply ensure_Ok, negb_true_iff in Hs. rewrite Ho in Hs. done.
  - intros node Hin. eapply checked_harmless; by eapply check_all_node.
Qed.

End programs.

(** ** Three gaps *)

(** [INSERT INTO t VALUES (1) UNION ALL SELECT x FROM u]: the gate looks at the first
    part of the compound, and lets pass a source whose rows have no fixed order. *)
Example compound_insert_not_gated :
  let source := mkSelect (SelectValues 1) (Some [mkCompound true (SelectFrom false [ExprResultColumn (OtherExpr (mkSpan 46 1))] true None)]) None false in
  validateOrderSensitiveMutation (InsertStmt (mkName None (js "t") false) (SelectInsertBody source) false) false = Ok tt ∧
  isProvablyAtMostOneRow source = false.
Proof. split; vm_compute; reflexivity. Qed.

(** [group_concat(x, y ORDER BY x)] is taken for safe, although rows with the same [x]
    and different separators [y] may come in any order. *)
Example separator_not_ordered :
  let sql := js "SELECT group_concat(x, y ORDER BY x) FROM t" in
  validateFunction (js "group_concat") (Some [OtherExpr (mkSpan 20 1); OtherExpr (mkSpan 23 1)]) false
    (Some (SortListFunctionCallOrder [OtherExpr (mkSpan 34 1)])) None sql = Ok tt ∧
  slice 20 21 sql = js "x" ∧ slice 23 24 sql = js "y" ∧ slice 34 35 sql = js "x".
Proof. split_and!; vm_compute; reflexivity. Qed.

(** [strftime('%s')] has a literal argument, but it is the format: the time, which is
    left out, is the current one. *)
Example strftime_without_time :
  validateFunction (js "strftime") (Some [StringLiteral (mkSpan 16 4) (js "%s")]) false None None (js "SELECT strftime('%s')") = Ok tt.
Proof. vm_compute. reflexivity. Qed.

(** ** A compiled program *)

(** What the parser answers on the statements of [sample_program]. *)
Definition sample_parse (sql : jsstring) : ParseOutcome :=
  if bool_decide (sql = js "INSERT INTO t VALUES (:a, ?5)")
  then parse_cmds [mkAst (InsertStmt (mkName None (js "t") false) OtherInsertBody false) (mkSpan 0 29)]
  else if bool_decide (sql = js "SELECT 1") then parse_cmds [mkAst (SelectStmt (mkSelect (SelectFrom false [] false None) None None false)) (mkSpan 0 8)]
  else parse_failed.

(** The parameters are met in the opposite order. *)
Definition sample_traverse (ast : Ast) : list AstNode :=
  match as_stmt ast with
  | InsertStmt t _ _ => [MutationNode t; QualifiedNameNode t; VariableExpr 26 (js "?5"); VariableExpr 22 (js ":a")]
  | _ => []
  end.

Definition sample_insert : SqlStatement :=
  mkStatement (js "INSERT INTO t VALUES (:a, ?5)")
    [mkBinding (parameter_index 5) (binding_logical (LInt64 7)); mkBinding (parameter_name (js ":a")) (binding_logical (LInt64 9));
     mkBinding (parameter_index 5) (binding_logical (LInt64 7))].

Definition sample_program : SqlTransactionProgram :=
  mkProgram 1 [mkPrecondition 1 (mkStatement (js "SELECT 1") []) mode_scalar expect_true None] [sample_insert].

Definition sample_compiled : CompiledSqlSource :=
  ltac:(let c := eval vm_compute in (compileSqlStatement sample_parse sample_traverse sample_insert mode_body) in
        match c with Ok ?x => exact x end).

Definition sample_compiled_program : CompiledSqlProgram :=
  ltac:(let c := eval vm_compute in (compileSqlProgram sample_parse sample_traverse sample_program) in
        match c with Ok ?x => exact x end).

Lemma compiled_statement_binds_witness :
  compileSqlStatement sample_parse sample_traverse sample_insert mode_body = Ok sample_compiled ∧
  ∃ values, orderedSqlBindingValues sample_compiled = Ok values ∧ length values = 5%nat.
Proof.
  assert (compileSqlStatement sample_parse sample_traverse sample_insert mode_body = Ok sample_compiled) as H by (vm_compute; reflexivity).
  split; [exact H|]. destruct (compiled_statement_binds sample_parse sample_traverse _ _ _ H) as (values & Hv & Hl & _).
  exists values. split; [exact Hv|exact Hl].
Defined.

Lemma plans_agree_witness :
  parameterPlanFromSource (st_sql sample_insert) = Ok ([mkParameter 1 [js ":a"] true; mkParameter 5 [] true], 5) ∧
  ∃ parameters', parameterPlanFor [VariableExpr 26 (js "?5"); VariableExpr 22 (js ":a")] = Ok (parameters', 5).
Proof.
  assert (parameterPlanFromSource (st_sql sample_insert) = Ok ([mkParameter 1 [js ":a"] true; mkParameter 5 [] true], 5)) as H
    by (vm_compute; reflexivity).
  split; [exact H|].
  destruct (plans_agree _ [VariableExpr 26 (js "?5"); VariableExpr 22 (js ":a")] _ _ H) as (p & Hp & _); [vm_compute; reflexivity|].
  exists p. exact Hp.
Defined.

