(* ===== verification/Transaction.v ===== *)
(** * Transactions: [TransactionCore] of [packages/protocol/src/messages.ts]

    The record an author signs: group, membership revision, policy, author,
    timestamp, nonce, execution manifest, SQL program and metadata. *)

From Stdlib Require Import Strings.Byte Strings.String.
From stdpp Require Import base list option numbers sets sorting.
From S2P Require Import Prelude JsMap Bytes Text Cbor CborProofs CborTheorems Schema Domains Messages Logical LogicalTheorems Sql SqlProofs.

#[local] Open Scope Z_scope.

Record TransactionCore := mkCore {
  tx_groupId : bytes;
  tx_membershipRevision : bytes;
  tx_validationPolicy : bytes;
  tx_authorId : bytes;
  tx_authorTimestampMs : Z;
  tx_nonce : bytes;
  tx_executionManifestDigest : bytes;
  tx_program : SqlTransactionProgram;
  tx_metadata : option (jsmap jsstring bytes);
}.

(** [new Map([...metadata.entries()])] *)
Definition metadataToCbor (metadata : option (jsmap jsstring bytes)) : option CborValue :=
  (λ m, CMap (map_of_entries ((λ e, (KText e.1, CBytes e.2)) <$> m))) <$> metadata.

Definition metadataFromCbor (value : CborValue) : result CodecError (jsmap jsstring bytes) :=
  map ← coded (expectMap value);
  entries ← mapR (λ e : CborMapKey * CborValue, match e.1 with
    | KText key => b ← coded (expectBytes e.2 None); Ok (key, b)
    | _ => Err (Coded SCHEMA_INVALID)
    end) map;
  Ok (map_of_entries entries).

Definition transactionToCbor (value : TransactionCore) : result CodecError CborValue :=
  schema (length (tx_groupId value) =? 32)%nat ≫= λ _,
  schema (length (tx_membershipRevision value) =? 32)%nat ≫= λ _,
  schema (length (tx_validationPolicy value) =? 32)%nat ≫= λ _,
  schema (length (tx_authorId value) =? 32)%nat ≫= λ _,
  in_range ((0 <=? tx_authorTimestampMs value) && (tx_authorTimestampMs value <=? 2 ^ 63 - 1)) ≫= λ _,
  schema (16 <=? length (tx_nonce value))%nat ≫= λ _,
  schema (length (tx_executionManifestDigest value) =? 32)%nat ≫= λ _,
  assertValidSqlTransactionProgram (tx_program value) ≫= λ _,
  program ← sqlTransactionProgramToCanonicalCbor (tx_program value);
  Ok (CMap (integerMap
    [(0, Some (CInt 1)); (1, Some (CBytes (tx_groupId value)));
     (2, Some (CBytes (tx_membershipRevision value))); (3, Some (CBytes (tx_validationPolicy value)));
     (4, Some (CBytes (tx_authorId value))); (5, Some (CInt (tx_authorTimestampMs value)));
     (6, Some (CBytes (tx_nonce value))); (7, Some (CBytes (tx_executionManifestDigest value)));
     (8, Some program); (9, metadataToCbor (tx_metadata value))])).

Definition encodeTransactionCore (value : TransactionCore) : result CodecError bytes :=
  v ← transactionToCbor value; coded (encodeCanonicalCbor v).

Definition decodeTransactionCore (b : bytes) : result CodecError TransactionCore :=
  v ← coded (assertCanonical b);
  map ← coded (expectMap v);
  coded (assertKnownIntegerKeys map [0; 1; 2; 3; 4; 5; 6; 7; 8; 9]) ≫= λ _,
  coded (expectVersion map 1) ≫= λ _,
  authorTimestampMs ← coded (uint64_field map 5);
  in_range (authorTimestampMs <=? 2 ^ 63 - 1) ≫= λ _,
  nonce ← coded (bytes_field map 6 None);
  schema (16 <=? length nonce)%nat ≫= λ _,
  program ← (v ← coded (required map 8); sqlTransactionProgramFromCanonicalCbor v);
  assertValidSqlTransactionProgram program ≫= λ _,
  groupId ← coded (bytes_field map 1 (Some 32%nat));
  membershipRevision ← coded (bytes_field map 2 (Some 32%nat));
  validationPolicy ← coded (bytes_field map 3 (Some 32%nat));
  authorId ← coded (bytes_field map 4 (Some 32%nat));
  manifest ← coded (bytes_field map 7 (Some 32%nat));
  metadata ← match optional map 9 with
             | None => Ok None
             | Some v => m ← metadataFromCbor v; Ok (Some m)
             end;
  Ok (mkCore groupId membershipRevision validationPolicy authorId authorTimestampMs nonce manifest program metadata).

Definition transactionDigest (sha256 : bytes → bytes) (b : bytes) : result ErrorCode bytes :=
  hashCanonicalDomain sha256 Htransaction b.

(** ** Lemmas *)

Definition core_plain (core : TransactionCore) : Prop :=
  program_plain (tx_program core) ∧
  match tx_metadata core with Some m => NoDup m.*1 | None => True end.

Definition metadata_entry (e : CborMapKey * CborValue) (d : jsstring * bytes) : Prop :=
  e = (KText d.1, CBytes d.2).

Lemma metadata_entries m ds : Forall2 metadata_entry m ds ↔ m = (λ e, (KText e.1, CBytes e.2)) <$> ds.
Proof.
  split.
  - induction 1 as [|e d m ds -> _ ->]; done.
  - intros ->. by apply Forall2_fmap_l, Forall_Forall2_diag, Forall_true.
Qed.

Lemma metadata_keys (ds : list (jsstring * bytes)) :
  NoDup ((λ e : jsstring * bytes, (KText e.1, CBytes e.2)) <$> ds).*1 ↔ NoDup ds.*1.
Proof.
  rewrite <-list_fmap_compose. change (NoDup ((KText ∘ fst) <$> ds) ↔ NoDup ds.*1).
  rewrite list_fmap_compose. split; [apply NoDup_fmap_1|]. apply NoDup_fmap_2. by intros ?? [= ->].
Qed.

Lemma metadata_exact m ds : NoDup m.*1 →
  metadataFromCbor (CMap m) = Ok ds ↔ metadataToCbor (Some ds) = Some (CMap m) ∧ NoDup ds.*1.
Proof.
  intros Hnd. unfold metadataFromCbor, metadataToCbor. cbn [expectMap coded mbind result_bind fmap option_fmap option_map].
  split.
  - intros H. inv_ok. rename x into es. rename select (mapR _ m = Ok es) into Hm. apply mapR_Ok in Hm.
    assert (Forall2 metadata_entry m es) as Hes%metadata_entries.
    { eapply Forall2_impl; [exact Hm|]. intros [[] v] d Hd; try done. cbn [fst snd] in Hd. inv_ok. subst.
      rewrite coded_Ok, expectBytes_any in *. by subst. }
    rewrite Hes in Hnd. apply metadata_keys in Hnd as Hes'. rewrite map_of_entries_id in H by done. subst ds.
    rewrite map_of_entries_id by done. by subst m.
  - intros [H Hds]. injection H as H. rewrite map_of_entries_id in H by (by apply metadata_keys). subst m.
    rewrite (proj2 (mapR_Ok _ _ ds)).
    + cbn [mbind result_bind]. by rewrite map_of_entries_id.
    + apply Forall2_fmap_l, Forall_Forall2_diag, Forall_true. by intros [].
Qed.

(** The optional metadata of a decoded map. *)
Lemma metadata_field m o : encodable (CMap m) →
  match optional m 9 with Some v => m ← metadataFromCbor v; Ok (Some m) | None => Ok None end = Ok o →
  optional m 9 = metadataToCbor o ∧ match o with Some m => NoDup m.*1 | None => True end.
Proof.
  intros Hv H. destruct (optional m 9) as [v|] eqn:E; [|by simplify_eq]. inv_ok. subst.
  rename select (metadataFromCbor v = Ok _) into Hm. pose proof Hm as Hm'. unfold metadataFromCbor in Hm'. inv_ok.
  rewrite coded_Ok, expectMap_Ok in *. subst v.
  apply metadata_exact in Hm as [-> Hnd]; [done|]. eapply encodable_keys, encodable_field; [exact Hv|exact E].
Qed.

Lemma transaction_exact b core : decodeTransactionCore b = Ok core →
  encodeTransactionCore core = Ok b ∧ core_plain core.
Proof.
  unfold decodeTransactionCore. intros H. inv_ok. read_facts. field_facts. subst.
  rename select (assertCanonical b = Ok _) into Hb. apply assert_sound in Hb.
  rename select (expectMap _ = Ok _) into Hm. apply expectMap_Ok in Hm. subst. rename x0 into m.
  assert (encodable (CMap m)) as Hv by (by exists b).
  rename select (sqlTransactionProgramFromCanonicalCbor _ = Ok _) into Hp.
  destruct (program_written_total _ _ Hp) as [w Hw].
  match goal with H1 : map_get (KInt 8) m = Some _ |- _ =>
    destruct (codec_written _ _ _ (encodable_field _ _ _ Hv H1) Hp Hw) as [Hplain Hs] end.
  match goal with H : match optional m 9 with _ => _ end = Ok _ |- _ =>
    destruct (metadata_field _ _ Hv H) as [Hmeta Hnd] end.
  split; [|done]. unfold encodeTransactionCore, transactionToCbor.
  cbn [tx_groupId tx_membershipRevision tx_validationPolicy tx_authorId tx_authorTimestampMs tx_nonce
       tx_executionManifestDigest tx_program tx_metadata].
  repeat match goal with H : length ?l = 32%nat |- _ => rewrite H; clear H end.
  match goal with H : (?z <=? 2 ^ 63 - 1) = true |- _ =>
    rewrite H, (proj2 (Z.leb_le 0 z)) by lia end.
  repeat match goal with H : _ = true |- context [schema ?b] => rewrite H end.
  repeat match goal with H : assertValidSqlTransactionProgram _ = Ok _ |- _ => rewrite H; clear H end.
  rewrite Hw. cbn [Nat.eqb andb schema in_range ensure mbind result_bind].
  apply coded_Ok. rewrite <-Hb. symmetry. change (same_encoding (CMap m) (CMap (integerMap
    [(0, Some (CInt 1)); (1, Some (CBytes x9)); (2, Some (CBytes x10)); (3, Some (CBytes x11));
     (4, Some (CBytes x12)); (5, Some (CInt x3)); (6, Some (CBytes x5)); (7, Some (CBytes x13)); (8, Some w);
     (9, metadataToCbor x14)]))).
  unfold optional in Hmeta. same_record Hv; [by constructor|]. rewrite Hmeta.
  by destruct (metadataToCbor x14); constructor.
Qed.

(** Within the decoder's limits, with the metadata and the bound JSON objects in
    the canonical order of their keys. *)
Definition core_fits (core : TransactionCore) : Prop := ∀ v,
  transactionToCbor core = Ok v → fits DEFAULT_DECODE_LIMITS 0 v = true ∧ canonical_form v = v.

Lemma transaction_read b core : zlen b ≤ maxBytes DEFAULT_DECODE_LIMITS → core_fits core →
  encodeTransactionCore core = Ok b → core_plain core → decodeTransactionCore b = Ok core.
Proof.
  unfold encodeTransactionCore. intros Hlen Hfits H [Hp Hmeta]. inv_ok. rename x into v.
  rename select (transactionToCbor core = Ok v) into Hv. destruct (Hfits v Hv) as [Hf Hc]. apply coded_Ok in H.
  unfold decodeTransactionCore, assertCanonical.
  rewrite (assert_complete _ _ _ Hf Hc Hlen H). cbn [coded mbind result_bind]. clear Hfits Hf Hc.
  assert (encodable v) as He by (by exists b).
  unfold transactionToCbor in Hv. inv_ok. subst. read_facts.
  rename select (sqlTransactionProgramToCanonicalCbor _ = Ok _) into Hprog.
  assert (0 ≤ tx_authorTimestampMs core ≤ 2 ^ 63 - 1) by lia.
  assert (0 ≤ tx_authorTimestampMs core ≤ MAX_UINT64) by (unfold MAX_UINT64; lia).
  cbn [expectMap coded mbind result_bind]. rewrite integerMap_known by (literal_nodup || done).
  cbn [coded mbind result_bind]. read_record. cbn [coded mbind result_bind].
  read_record. cbn [coded mbind result_bind]. rewrite (proj2 (Z.leb_le _ _)) by lia.
  cbn [in_range ensure mbind result_bind]. read_record. read_back. read_record. read_back.
  rewrite (codec_read (from:=sqlTransactionProgramFromCanonicalCbor) _ _ (encodable_written _ 8 _ He ltac:(literal_nodup) ltac:(find_field)) Hprog Hp).
  cbn [mbind result_bind]. match goal with H : assertValidSqlTransactionProgram _ = Ok _ |- _ => rewrite H end.
  cbn [mbind result_bind]. do 5 (read_record; cbn [coded mbind result_bind]).
  unfold optional. erewrite integerMap_get; [|literal_nodup|find_field].
  destruct (tx_metadata core) as [m|] eqn:Em; [|cbn [metadataToCbor fmap option_fmap option_map mbind result_bind];
    destruct core; simpl in *; congruence].
  unfold metadataToCbor. cbn [fmap option_fmap option_map].
  assert (NoDup (map_of_entries ((λ e : jsstring * bytes, (KText e.1, CBytes e.2)) <$> m)).*1) as Hkeys
    by (rewrite map_of_entries_id; by apply metadata_keys).
  rewrite (proj2 (metadata_exact _ m Hkeys)) by done. cbn [mbind result_bind]. destruct core; simpl in *; congruence.
Qed.

(** the codec of transactions.  Whatever bytes are accepted as a transaction
    are the encoding of the transaction they are read as, program, bindings,
    inline expectations and metadata included, so a transaction has one form and
    its digest is that of its content; and every valid transaction within the
    decoder's limits is read back from its encoding. *)
Theorem transaction_codec b core :
  zlen b ≤ maxBytes DEFAULT_DECODE_LIMITS → core_fits core →
  decodeTransactionCore b = Ok core ↔ encodeTransactionCore core = Ok b ∧ core_plain core.
Proof.
  intros Hlen Hfits. split; [apply transaction_exact|]. intros [? ?]. by apply transaction_read.
Qed.

Definition sample_statement : SqlStatement :=
  mkStatement (js "UPDATE t SET x = :x") [mkBinding (parameter_name (js ":x")) (binding_logical (LInt64 (-7)));
    mkBinding (parameter_index 2) (binding_logical (LJson (JMap [(js "a", JDecimal 15 1); (js "b", JArray [JNull])])))].
Definition sample_program : SqlTransactionProgram :=
  mkProgram 1
    [mkPrecondition 0 (mkStatement (js "SELECT 1") []) mode_scalar expect_true (Some (js "one"));
     mkPrecondition 3 (mkStatement (js "SELECT x FROM t") []) mode_multiset
       (expect_inline (mkSqlResult mode_multiset [mkColumn [x78] column_dynamic None]
          [[sql_integer 1]; [sql_text [x61]]])) None]
    [sample_statement].
Definition sample_core : TransactionCore :=
  mkCore (replicate 32 x01) (replicate 32 x02) (replicate 32 x03) (replicate 32 x04) 1700000000000
    (replicate 16 x05) (replicate 32 x06) sample_program (Some [(js "app", [x01])]).

Lemma transaction_codec_witness : ∃ b,
  encodeTransactionCore sample_core = Ok b ∧ decodeTransactionCore b = Ok sample_core.
Proof.
  eexists. split; [vm_compute; reflexivity|]. apply transaction_codec.
  - vm_compute. discriminate.
  - intros v Hv. vm_compute in Hv. injection Hv as <-. split; vm_compute; reflexivity.
  - split; [vm_compute; reflexivity|]. unfold core_plain, program_plain, precondition_plain, expectation_plain,
      result_plain, statement_plain, row_plain, result_normal. simpl.
    repeat (split || constructor); try (vm_compute; reflexivity). apply not_elem_of_nil.
Defined.
