(* ===== verification/ExecManifest.v ===== *)
(** * Execution manifests: [packages/ir/src/codec.ts] and [types.ts]

    What a transaction is executed by: the engine, the registered functions,
    collations and modules, the features and the resource ceilings, and the codes
    a rejection may carry.  A replica executes a transaction only under the
    manifest whose digest the transaction names.  [String.prototype.toLowerCase]
    (the Unicode case mapping) is a parameter of what uses it. *)

From Stdlib Require Import Strings.Byte Strings.String.
From stdpp Require Import base list option numbers.
From S2P Require Import Prelude JsMap Bytes Text JsNumber Cbor CborProofs Schema Domains Logical Sql.

#[local] Open Scope Z_scope.

(** ** Data *)

Record ValueType := mkValueType { vt_logical : LogicalType; vt_nullable : bool }.

Inductive FunctionEffect := effect_pure | effect_stable_context | effect_stateful.
#[export] Instance FunctionEffect_eq_dec : EqDecision FunctionEffect.
Proof. solve_decision. Defined.

Inductive ModuleKind := module_native | module_wasm | module_builtin.
#[export] Instance ModuleKind_eq_dec : EqDecision ModuleKind.
Proof. solve_decision. Defined.

Record RegisteredFunction := mkFunction {
  rf_id : Z;
  rf_name : jsstring;
  rf_arguments : list ValueType;
  rf_result : ValueType;
  rf_effect : FunctionEffect;
  rf_implementationDigest : bytes;
}.

Record RegisteredCollation := mkCollation {
  rc_id : Z;
  rc_name : jsstring;
  rc_implementationDigest : bytes;
}.

Record RegisteredModule := mkModule {
  rm_id : Z;
  rm_name : jsstring;
  rm_kind : ModuleKind;
  rm_implementationDigest : bytes;
  rm_effectObjectIds : list Z;
}.

Record SemanticResourceLimits := mkResources {
  maxProgramNodes : Z;
  maxExpressionDepth : Z;
  maxQueryRows : Z;
  maxResultBytes : Z;
  maxJsonDepth : Z;
  maxVectorDimensions : Z;
  maxRuleDepth : Z;
  maxWasmFuel : Z;
  maxResultColumnsPerStatement : Z;
  maxResultRowsPerStatement : Z;
  maxResultBytesPerStatement : Z;
  maxTransactionResultRows : Z;
  maxTransactionResultBytes : Z;
  maxResultValueBytes : Z;
  maxResultSortWork : Z;
  maxOrderedMutationTargets : Z;
  maxOrderedMutationIdentityBytes : Z;
  maxOrderedMutationBindings : Z;
}.

Record ExecutionFeatures := mkFeatures {
  ft_decimal : bool; ft_json : bool; ft_vector : bool; ft_fts : bool; ft_spatial : bool; ft_wasm : bool }.

Record TransactionResultProfile := mkResultProfile {
  rp_envelopeVersion : Z;
  rp_valueProfile : jsstring;
  rp_canonicalizationProfile : jsstring;
  rp_sqlResultDigestDomain : jsstring;
  rp_envelopeDigestDomain : jsstring;
}.
#[export] Instance TransactionResultProfile_eq_dec : EqDecision TransactionResultProfile.
Proof. solve_decision. Defined.

Record ExecutionManifest := mkManifest {
  em_version : Z;
  em_profile : jsstring;
  em_engine : jsstring;
  em_engineDigest : bytes;
  em_functions : list RegisteredFunction;
  em_collations : list RegisteredCollation;
  em_modules : list RegisteredModule;
  em_features : ExecutionFeatures;
  em_resources : SemanticResourceLimits;
  em_transactionResults : TransactionResultProfile;
  em_errorCodes : list jsstring;
}.

(** ** CBOR forms *)

Definition exactArray (value : CborValue) (len : nat) : result CodecError (list CborValue) :=
  items ← coded (expectArray value); schema (length items =? len)%nat ≫= λ _, Ok items.

(** [table[safeUint(value)]], an error when it is undefined. *)
Definition table_at {A} (table : list A) (value : CborValue) : result CodecError A :=
  i ← safeUint value;
  match table !! Z.to_nat i with Some x => Ok x | None => Err (Coded SCHEMA_INVALID) end.

Definition assertValueType (value : ValueType) : result CodecError unit := assertLogicalType (vt_logical value).

Definition valueTypeToCbor (value : ValueType) : result CodecError CborValue :=
  assertValueType value ≫= λ _,
  logical ← logicalTypeToCanonicalCbor (vt_logical value);
  Ok (CArray [logical; CBool (vt_nullable value)]).

Definition valueTypeFromCbor (value : CborValue) : result CodecError ValueType :=
  items ← exactArray value 2;
  logical ← logicalTypeFromCanonicalCbor (item items 0);
  nullable ← coded (expectBoolean (item items 1));
  let result := mkValueType logical nullable in
  assertValueType result ≫= λ _, Ok result.

Definition EFFECTS : list FunctionEffect := [effect_pure; effect_stable_context; effect_stateful].
Definition MODULE_KINDS : list ModuleKind := [module_native; module_wasm; module_builtin].

Definition registeredFunctionToCbor (value : RegisteredFunction) : result CodecError CborValue :=
  id ← uint (rf_id value);
  arguments ← mapR valueTypeToCbor (rf_arguments value);
  result ← valueTypeToCbor (rf_result value);
  Ok (CArray [id; CText (rf_name value); CArray arguments; result; CInt (index_of EFFECTS (rf_effect value));
              CBytes (rf_implementationDigest value)]).

Definition registeredFunctionFromCbor (value : CborValue) : result CodecError RegisteredFunction :=
  items ← exactArray value 6;
  effect ← table_at EFFECTS (item items 4);
  id ← safeUint (item items 0);
  name ← coded (expectString (item items 1));
  arguments ← (l ← coded (expectArray (item items 2)); mapR valueTypeFromCbor l);
  result ← valueTypeFromCbor (item items 3);
  digest ← coded (expectBytes (item items 5) (Some 32%nat));
  Ok (mkFunction id name arguments result effect digest).

Definition registeredCollationToCbor (value : RegisteredCollation) : result CodecError CborValue :=
  id ← uint (rc_id value);
  Ok (CArray [id; CText (rc_name value); CBytes (rc_implementationDigest value)]).

Definition registeredCollationFromCbor (value : CborValue) : result CodecError RegisteredCollation :=
  items ← exactArray value 3;
  id ← safeUint (item items 0);
  name ← coded (expectString (item items 1));
  digest ← coded (expectBytes (item items 2) (Some 32%nat));
  Ok (mkCollation id name digest).

Definition registeredModuleToCbor (value : RegisteredModule) : result CodecError CborValue :=
  id ← uint (rm_id value);
  ids ← mapR uint (rm_effectObjectIds value);
  Ok (CArray [id; CText (rm_name value); CInt (index_of MODULE_KINDS (rm_kind value));
              CBytes (rm_implementationDigest value); CArray ids]).

Definition registeredModuleFromCbor (value : CborValue) : result CodecError RegisteredModule :=
  items ← exactArray value 5;
  kind ← table_at MODULE_KINDS (item items 2);
  id ← safeUint (item items 0);
  name ← coded (expectString (item items 1));
  digest ← coded (expectBytes (item items 3) (Some 32%nat));
  ids ← (l ← coded (expectArray (item items 4)); mapR safeUint l);
  Ok (mkModule id name kind digest ids).

Definition featuresToCbor (value : ExecutionFeatures) : CborValue :=
  CArray (CBool <$> [ft_decimal value; ft_json value; ft_vector value; ft_fts value; ft_spatial value; ft_wasm value]).

Definition featuresFromCbor (value : CborValue) : result CodecError ExecutionFeatures :=
  items ← exactArray value 6;
  decimal ← coded (expectBoolean (item items 0));
  json ← coded (expectBoolean (item items 1));
  vector ← coded (expectBoolean (item items 2));
  fts ← coded (expectBoolean (item items 3));
  spatial ← coded (expectBoolean (item items 4));
  wasm ← coded (expectBoolean (item items 5));
  Ok (mkFeatures decimal json vector fts spatial wasm).

Definition resourcesToCbor (value : SemanticResourceLimits) : result CodecError CborValue :=
  before ← mapR uint
    [maxProgramNodes value; maxExpressionDepth value; maxQueryRows value; maxResultBytes value;
     maxJsonDepth value; maxVectorDimensions value; maxRuleDepth value];
  after ← mapR uint
    [maxResultColumnsPerStatement value; maxResultRowsPerStatement value; maxResultBytesPerStatement value;
     maxTransactionResultRows value; maxTransactionResultBytes value; maxResultValueBytes value;
     maxResultSortWork value; maxOrderedMutationTargets value; maxOrderedMutationIdentityBytes value;
     maxOrderedMutationBindings value];
  Ok (CArray (before ++ CInt (maxWasmFuel value) :: after)).

Definition resourcesFromCbor (value : CborValue) : result CodecError SemanticResourceLimits :=
  items ← exactArray value 18;
  programNodes ← safeUint (item items 0);
  expressionDepth ← safeUint (item items 1);
  queryRows ← safeUint (item items 2);
  resultBytes ← safeUint (item items 3);
  jsonDepth ← safeUint (item items 4);
  vectorDimensions ← safeUint (item items 5);
  ruleDepth ← safeUint (item items 6);
  wasmFuel ← coded (expectBigint (item items 7));
  resultColumns ← safeUint (item items 8);
  resultRows ← safeUint (item items 9);
  resultBytesStatement ← safeUint (item items 10);
  transactionRows ← safeUint (item items 11);
  transactionBytes ← safeUint (item items 12);
  valueBytes ← safeUint (item items 13);
  sortWork ← safeUint (item items 14);
  mutationTargets ← safeUint (item items 15);
  mutationIdentityBytes ← safeUint (item items 16);
  mutationBindings ← safeUint (item items 17);
  Ok (mkResources programNodes expressionDepth queryRows resultBytes jsonDepth vectorDimensions ruleDepth wasmFuel
        resultColumns resultRows resultBytesStatement transactionRows transactionBytes valueBytes sortWork
        mutationTargets mutationIdentityBytes mutationBindings).

(** The one transaction result profile: the literals of the code. *)
Definition RESULT_PROFILE : TransactionResultProfile := {|
    rp_envelopeVersion := 1;
    rp_valueProfile := js "sqlite-finite-binary64-v1";
    rp_canonicalizationProfile := js "sqlite-result-modes-v1";
    rp_sqlResultDigestDomain := js "chronolog-canonical-sql-result-v1" ++ [0];
    rp_envelopeDigestDomain := js "chronolog-transaction-result-envelope-v1" ++ [0];
    |}.

(** The encoder writes the version [1n] whatever the field holds. *)
Definition resultProfileToCbor (p : TransactionResultProfile) : CborValue :=
  CArray [CInt 1; CText (rp_valueProfile p); CText (rp_canonicalizationProfile p);
          CText (rp_sqlResultDigestDomain p); CText (rp_envelopeDigestDomain p)].

Definition executionManifestToCbor (value : ExecutionManifest) : result CodecError CborValue :=
  functions ← mapR registeredFunctionToCbor (em_functions value);
  collations ← mapR registeredCollationToCbor (em_collations value);
  modules ← mapR registeredModuleToCbor (em_modules value);
  resources ← resourcesToCbor (em_resources value);
  Ok (CArray [CInt 1; CText (em_profile value); CText (em_engine value); CBytes (em_engineDigest value);
              CArray functions; CArray collations; CArray modules; featuresToCbor (em_features value); resources;
              resultProfileToCbor (em_transactionResults value); CArray (CText <$> em_errorCodes value)]).

(** [items[i] === 1n], [items[i] === 'text'] *)
Definition is_one (v : CborValue) : bool := match v with CInt 1 => true | _ => false end.
Definition is_text (s : jsstring) (v : CborValue) : bool :=
  match v with CText t => bool_decide (t = s) | _ => false end.

Definition executionManifestFromCbor (value : CborValue) : result CodecError ExecutionManifest :=
  items ← coded (expectArray value);
  schema ((length items =? 11)%nat && is_one (item items 0)) ≫= λ _,
  profile ← exactArray (item items 9) 5;
  schema (is_one (item profile 0) && is_text (rp_valueProfile RESULT_PROFILE) (item profile 1) &&
          is_text (rp_canonicalizationProfile RESULT_PROFILE) (item profile 2) &&
          is_text (rp_sqlResultDigestDomain RESULT_PROFILE) (item profile 3) &&
          is_text (rp_envelopeDigestDomain RESULT_PROFILE) (item profile 4)) ≫= λ _,
  name ← coded (expectString (item items 1));
  engine ← coded (expectString (item items 2));
  engineDigest ← coded (expectBytes (item items 3) (Some 32%nat));
  functions ← (l ← coded (expectArray (item items 4)); mapR registeredFunctionFromCbor l);
  collations ← (l ← coded (expectArray (item items 5)); mapR registeredCollationFromCbor l);
  modules ← (l ← coded (expectArray (item items 6)); mapR registeredModuleFromCbor l);
  features ← featuresFromCbor (item items 7);
  resources ← resourcesFromCbor (item items 8);
  errorCodes ← (l ← coded (expectArray (item items 10)); mapR (λ v, coded (expectString v)) l);
  Ok (mkManifest 1 name engine engineDigest functions collations modules features resources RESULT_PROFILE errorCodes).

(** ** Validation *)

Definition assertDigest32 (value : bytes) : result CodecError unit := schema (length value =? 32)%nat.

(** [for (const x of l) f(x)] *)
Definition eachR {A} (f : A → result CodecError unit) (l : list A) : result CodecError unit :=
  mapR f l ≫= λ _, Ok tt.

Definition resource_list (r : SemanticResourceLimits) : list Z :=
  [maxProgramNodes r; maxExpressionDepth r; maxQueryRows r; maxResultBytes r; maxJsonDepth r;
   maxVectorDimensions r; maxRuleDepth r; maxResultColumnsPerStatement r; maxResultRowsPerStatement r;
   maxResultBytesPerStatement r; maxTransactionResultRows r; maxTransactionResultBytes r; maxResultValueBytes r;
   maxResultSortWork r; maxOrderedMutationTargets r; maxOrderedMutationIdentityBytes r; maxOrderedMutationBindings r].

(** The ceilings that must be positive: all but the rule depth and the fuel. *)
Definition positive_resources (r : SemanticResourceLimits) : list Z :=
  [maxProgramNodes r; maxExpressionDepth r; maxQueryRows r; maxResultBytes r; maxJsonDepth r;
   maxVectorDimensions r; maxResultColumnsPerStatement r; maxResultRowsPerStatement r;
   maxResultBytesPerStatement r; maxTransactionResultRows r; maxTransactionResultBytes r; maxResultValueBytes r;
   maxResultSortWork r; maxOrderedMutationTargets r; maxOrderedMutationIdentityBytes r; maxOrderedMutationBindings r].

Definition assertResources (r : SemanticResourceLimits) : result CodecError unit :=
  eachR assertUint (resource_list r) ≫= λ _,
  schema (0 <=? maxWasmFuel r) ≫= λ _,
  schema (forallb (λ n, 0 <? n) (positive_resources r)).

(** [codes.every((code, index) => pattern && code === sorted[index] && (index === 0 || code !== codes[index - 1]))] *)
Definition assertErrorCodes (codes : list jsstring) : result CodecError unit :=
  let sorted := js_sort compareStrings codes in
  schema ((0 <? length codes)%nat &&
    forallb (λ index, match codes !! index with
      | Some code => canonical_code code && bool_decide (sorted !! index = Some code) &&
          ((index =? 0)%nat || negb (bool_decide (codes !! (index - 1)%nat = Some code)))
      | None => false
      end) (seq 0 (length codes))).

Section registries.
Context (toLowerCase : jsstring → jsstring).

Fixpoint assertUniqueRegistry_from (ids : list Z) (names : list jsstring) (values : list (Z * jsstring)) :
    result CodecError unit :=
  match values with
  | [] => Ok tt
  | (id, name) :: values' =>
      assertUint id ≫= λ _,
      schema (0 <? length name)%nat ≫= λ _,
      schema (negb (bool_decide (id ∈ ids)) && negb (bool_decide (toLowerCase name ∈ names))) ≫= λ _,
      assertUniqueRegistry_from (id :: ids) (toLowerCase name :: names) values'
  end.
Definition assertUniqueRegistry (values : list (Z * jsstring)) : result CodecError unit :=
  assertUniqueRegistry_from [] [] values.

Definition assertFunction (value : RegisteredFunction) : result CodecError unit :=
  eachR assertValueType (rf_arguments value) ≫= λ _,
  assertValueType (rf_result value) ≫= λ _,
  assertDigest32 (rf_implementationDigest value).

Definition assertModule (value : RegisteredModule) : result CodecError unit :=
  assertDigest32 (rm_implementationDigest value) ≫= λ _,
  eachR assertUint (rm_effectObjectIds value).

Definition assertExecutionManifest (value : ExecutionManifest) : result CodecError unit :=
  schema (em_version value =? 1) ≫= λ _,
  schema ((0 <? length (em_profile value)) && (0 <? length (em_engine value)))%nat ≫= λ _,
  schema (length (em_engineDigest value) =? 32)%nat ≫= λ _,
  assertUniqueRegistry ((λ f, (rf_id f, rf_name f)) <$> em_functions value) ≫= λ _,
  assertUniqueRegistry ((λ c, (rc_id c, rc_name c)) <$> em_collations value) ≫= λ _,
  assertUniqueRegistry ((λ m, (rm_id m, rm_name m)) <$> em_modules value) ≫= λ _,
  eachR assertFunction (em_functions value) ≫= λ _,
  eachR (λ c, assertDigest32 (rc_implementationDigest c)) (em_collations value) ≫= λ _,
  eachR assertModule (em_modules value) ≫= λ _,
  assertResources (em_resources value) ≫= λ _,
  schema (bool_decide (em_transactionResults value = RESULT_PROFILE)) ≫= λ _,
  assertErrorCodes (em_errorCodes value).

Definition encodeExecutionManifest (value : ExecutionManifest) : result CodecError bytes :=
  assertExecutionManifest value ≫= λ _,
  v ← executionManifestToCbor value;
  coded (encodeCanonicalCbor v).

Definition decodeExecutionManifest (limits : DecodeLimits) (b : bytes) : result CodecError ExecutionManifest :=
  v ← coded (assertCanonicalCbor limits b);
  value ← executionManifestFromCbor v;
  assertExecutionManifest value ≫= λ _, Ok value.

Definition digestExecutionManifest (sha256 : bytes → bytes) (value : ExecutionManifest) : result CodecError bytes :=
  b ← encodeExecutionManifest value; coded (hashCanonicalDomain sha256 HexecutionManifest b).
End registries.
