(* ===== verification/ExecManifestTheorems.v ===== *)
(** * Execution manifests: one form per manifest, and what a valid one is

    The codec of [ExecManifest] is exact: the bytes a manifest is read from are
    the bytes it is written as, so a manifest digest names one manifest.  The
    validation is characterised: identifiers and case-folded names of a registry
    are distinct, ceilings are positive, error codes strictly ascend. *)

From Stdlib Require Import Strings.Byte Strings.String Sorting.Sorted.
From stdpp Require Import base list option numbers sets sorting.
From S2P Require Import Prelude JsMap Bytes Text JsNumber Cbor CborProofs CborTheorems Schema Domains Messages Logical LogicalTheorems Sql SqlProofs SqlTheorems ExecManifest.

#[local] Open Scope Z_scope.

(** ** Exact codecs *)

(** A codec that reads exactly what it writes, of the values of [wf]. *)
Class ExactCodec {A} (from : CborValue → result CodecError A) (to : A → result CodecError CborValue)
    (wf : A → Prop) : Prop :=
  exact_iff v x : from v = Ok x ↔ to x = Ok v ∧ wf x.

Lemma exact_list {A} (from : CborValue → result CodecError A) {to wf} `{!ExactCodec from to wf} items xs :
  mapR from items = Ok xs ↔ mapR to xs = Ok items ∧ Forall wf xs.
Proof.
  rewrite !mapR_Ok. split.
  - induction 1 as [|v x items xs Hx _ [IH1 IH2]]; [by split|].
    apply exact_iff in Hx as [Hx Hw]. by split; constructor.
  - intros [H Hw]. induction H as [|x v xs items Hx _ IH]; [constructor|]. inversion Hw; subst.
    constructor; [by apply exact_iff|by apply IH].
Qed.

#[export] Instance effects : CodeTable EFFECTS. Proof. code_table. Qed.
#[export] Instance module_kinds : CodeTable MODULE_KINDS. Proof. code_table. Qed.

Lemma table_at_Ok {A} `{EqDecision A} (table : list A) `{!CodeTable table} v x :
  zlen table ≤ MAX_SAFE_INTEGER → table_at table v = Ok x ↔ v = CInt (index_of table x).
Proof.
  intros Hsmall. rewrite <-(from_table_Ok table). unfold table_at, from_table. split; intros H; inv_ok; rename x0 into i.
  - rewrite safeUint_Ok in *. destruct_and!. subst v.
    rewrite (proj2 (expectUint64_Ok (CInt i) i)) by (split; [done|by apply is_uint_uint64]). done.
  - rewrite coded_Ok, expectUint64_Ok in *. destruct_and!. subst v.
    destruct (table !! Z.to_nat i) as [y|] eqn:E; [|done]. rewrite safeUint_exact; [cbn [mbind result_bind]; by rewrite E|].
    apply lookup_lt_Some in E. unfold is_uint, zlen in *. lia.
Qed.

Lemma exactArray_Ok v n items : exactArray v n = Ok items ↔ v = CArray items ∧ length items = n.
Proof.
  unfold exactArray. split.
  - intros H. inv_ok. subst. read_facts. done.
  - intros [-> <-]. cbn [expectArray coded mbind result_bind]. by rewrite Nat.eqb_refl.
Qed.

(** Facts of the readers of this component, in the context. *)
Ltac manifest_facts :=
  repeat match goal with
  | H : exactArray _ _ = Ok _ |- _ => apply exactArray_Ok in H as [? ?]
  | H : safeUint _ = Ok _ |- _ => apply safeUint_Ok in H as [? ?]
  | H : uint _ = Ok _ |- _ => apply uint_Ok in H as [? ?]
  | H : table_at ?t _ = Ok _ |- _ => apply (table_at_Ok t _ _ ltac:(done)) in H
  | H : coded _ = Ok _ |- _ => apply coded_Ok in H
  | H : schema _ = Ok _ |- _ => apply schema_Ok in H
  | H : expectArray _ = Ok _ |- _ => apply expectArray_Ok in H
  | H : expectBigint _ = Ok _ |- _ => apply expectBigint_Ok in H
  | H : expectString _ = Ok _ |- _ => apply expectString_Ok in H
  | H : expectBoolean _ = Ok _ |- _ => apply expectBoolean_Ok in H
  | H : expectBytes _ (Some _) = Ok _ |- _ => apply expectBytes_sized in H as [? ?]
  end; subst.

(** Evaluates the readers of this component on what was written. *)
Ltac manifest_read :=
  repeat (first
    [ rewrite (proj2 (exactArray_Ok (CArray _) _ _)) by done
    | rewrite safeUint_exact by done
    | match goal with |- context [table_at ?t (CInt (index_of ?t ?x))] =>
        rewrite (proj2 (table_at_Ok t _ x ltac:(done)) eq_refl) end
    | rewrite (proj2 (expectBytes_sized (CBytes _) _ _)) by done ];
    cbn [mbind result_bind coded ensure expectArray expectBigint expectString expectBoolean
         item lookup list_lookup default from_option id]).

(** ** The parts of a manifest *)

#[export] Instance value_type_exact : ExactCodec valueTypeFromCbor valueTypeToCbor (λ _, True).
Proof.
  intros v x. unfold valueTypeFromCbor, valueTypeToCbor, assertValueType. split.
  - intros H. inv_ok. subst. manifest_facts. split_items x0. manifest_facts. cbn [vt_logical vt_nullable] in *.
    split; [|done]. rename select (logicalTypeFromCanonicalCbor _ = Ok _) into Ht.
    match goal with H : assertLogicalType _ = Ok _ |- _ => rewrite H end.
    by rewrite (type_written_back _ _ Ht).
  - intros [H _]. inv_ok. subst. rename select (logicalTypeToCanonicalCbor _ = Ok _) into Ht.
    manifest_read. rewrite (type_read_back _ _ Ht). cbn [mbind result_bind vt_logical].
    match goal with H : assertLogicalType _ = Ok _ |- _ => rewrite H end. by destruct x.
Qed.

#[export] Instance uint_exact_codec : ExactCodec safeUint uint (λ _, True).
Proof. intros v x. rewrite safeUint_Ok, uint_Ok. naive_solver. Qed.

#[export] Instance function_exact : ExactCodec registeredFunctionFromCbor registeredFunctionToCbor
  (λ f, length (rf_implementationDigest f) = 32%nat).
Proof.
  intros v x. unfold registeredFunctionFromCbor, registeredFunctionToCbor. split.
  - intros H. inv_ok. subst. manifest_facts. split_items x0. manifest_facts. inv_ok. manifest_facts.
    cbn [rf_id rf_name rf_arguments rf_result rf_effect rf_implementationDigest]. split; [|done].
    rewrite uint_exact by done.
    match goal with H : mapR valueTypeFromCbor _ = Ok _ |- _ => apply (exact_list valueTypeFromCbor) in H as [-> _] end.
    match goal with H : valueTypeFromCbor _ = Ok _ |- _ => apply exact_iff in H as [-> _] end. done.
  - intros [H Hw]. inv_ok. subst. manifest_facts. manifest_read.
    match goal with H : mapR valueTypeToCbor _ = Ok _ |- _ =>
      rewrite (proj2 (exact_list valueTypeFromCbor _ _) (conj H (Forall_true _ _ (λ _, I)))) end.
    cbn [mbind result_bind]. match goal with H : valueTypeToCbor _ = Ok _ |- _ =>
      rewrite (proj2 (exact_iff (from:=valueTypeFromCbor) _ _) (conj H I)) end.
    cbn [mbind result_bind]. manifest_read. by destruct x.
Qed.

#[export] Instance collation_exact : ExactCodec registeredCollationFromCbor registeredCollationToCbor
  (λ c, length (rc_implementationDigest c) = 32%nat).
Proof.
  intros v x. unfold registeredCollationFromCbor, registeredCollationToCbor. split.
  - intros H. inv_ok. subst. manifest_facts. split_items x0. manifest_facts.
    cbn [rc_id rc_name rc_implementationDigest]. by rewrite uint_exact.
  - intros [H Hw]. inv_ok. subst. manifest_facts. manifest_read. by destruct x.
Qed.

#[export] Instance module_exact : ExactCodec registeredModuleFromCbor registeredModuleToCbor
  (λ m, length (rm_implementationDigest m) = 32%nat).
Proof.
  intros v x. unfold registeredModuleFromCbor, registeredModuleToCbor. split.
  - intros H. inv_ok. subst. manifest_facts. split_items x0. manifest_facts. inv_ok. manifest_facts.
    cbn [rm_id rm_name rm_kind rm_implementationDigest rm_effectObjectIds]. split; [|done].
    rewrite uint_exact by done.
    by match goal with H : mapR safeUint _ = Ok _ |- _ => apply (exact_list safeUint) in H as [-> _] end.
  - intros [H Hw]. inv_ok. subst. manifest_facts. manifest_read.
    match goal with H : mapR uint _ = Ok _ |- _ =>
      rewrite (proj2 (exact_list safeUint _ _) (conj H (Forall_true _ _ (λ _, I)))) end.
    by destruct x.
Qed.

#[export] Instance features_exact : ExactCodec featuresFromCbor (λ f, Ok (featuresToCbor f)) (λ _, True).
Proof.
  intros v x. unfold featuresFromCbor, featuresToCbor. split.
  - intros H. inv_ok. subst. manifest_facts. split_items x0. manifest_facts. done.
  - intros [H _]. injection H as <-. cbn [fmap list_fmap]. manifest_read. by destruct x.
Qed.

#[export] Instance resources_exact : ExactCodec resourcesFromCbor resourcesToCbor (λ _, True).
Proof.
  intros v x. unfold resourcesFromCbor, resourcesToCbor. split.
  - intros H. inv_ok. subst. manifest_facts. split_items x0. manifest_facts. split; [|done].
    cbn [mapR maxProgramNodes maxExpressionDepth maxQueryRows maxResultBytes maxJsonDepth maxVectorDimensions
         maxRuleDepth maxWasmFuel maxResultColumnsPerStatement maxResultRowsPerStatement maxResultBytesPerStatement
         maxTransactionResultRows maxTransactionResultBytes maxResultValueBytes maxResultSortWork
         maxOrderedMutationTargets maxOrderedMutationIdentityBytes maxOrderedMutationBindings].
    by rewrite !uint_exact by done.
  - intros [H _]. cbn [mapR] in H. inv_ok. subst. manifest_facts. cbn [app]. manifest_read. by destruct x.
Qed.

#[export] Instance text_exact : ExactCodec (λ v, coded (expectString v)) (λ s, Ok (CText s)) (λ _, True).
Proof. intros v x. rewrite coded_Ok, expectString_Ok. split; [by intros ->|intros [H _]; congruence]. Qed.

Lemma texts_written (l : list jsstring) : mapR (λ s, Ok (E:=CodecError) (CText s)) l = Ok (CText <$> l).
Proof. apply (mapR_total _ CText), Forall_true. done. Qed.

(** ** Whole manifests *)

(** What reading a manifest checks and writing it does not. *)
Definition manifest_wf (m : ExecutionManifest) : Prop :=
  em_version m = 1 ∧ length (em_engineDigest m) = 32%nat ∧
  Forall (λ f, length (rf_implementationDigest f) = 32%nat) (em_functions m) ∧
  Forall (λ c, length (rc_implementationDigest c) = 32%nat) (em_collations m) ∧
  Forall (λ d, length (rm_implementationDigest d) = 32%nat) (em_modules m) ∧
  em_transactionResults m = RESULT_PROFILE.

Lemma is_one_true v : is_one v = true ↔ v = CInt 1.
Proof.
  split; [|by intros ->]. destruct v as [| |z| | | |]; try done. destruct z as [|p|]; try done. by destruct p.
Qed.

Lemma is_text_true s v : is_text s v = true ↔ v = CText s.
Proof.
  split; [|intros ->; by apply bool_decide_eq_true].
  destruct v; try done. cbn [is_text]. by intros ->%bool_decide_eq_true.
Qed.

#[export] Instance manifest_exact : ExactCodec executionManifestFromCbor executionManifestToCbor manifest_wf.
Proof.
  intros v m. unfold executionManifestFromCbor, executionManifestToCbor, manifest_wf. split.
  - intros H. inv_ok. subst. manifest_facts.
    repeat match goal with H : _ && _ = true |- _ => apply andb_true_iff in H as [? ?] end.
    rewrite ?is_one_true, ?is_text_true, ?Nat.eqb_eq in *.
    split_items x. manifest_facts. match goal with H : length ?l = 5%nat |- _ => split_items l end.
    simplify_eq. inv_ok. manifest_facts.
    repeat match goal with
    | H : mapR registeredFunctionFromCbor _ = Ok _ |- _ => apply (exact_list registeredFunctionFromCbor) in H as [? ?]
    | H : mapR registeredCollationFromCbor _ = Ok _ |- _ => apply (exact_list registeredCollationFromCbor) in H as [? ?]
    | H : mapR registeredModuleFromCbor _ = Ok _ |- _ => apply (exact_list registeredModuleFromCbor) in H as [? ?]
    | H : mapR (λ v, coded (expectString v)) _ = Ok _ |- _ =>
        apply (exact_list (λ v, coded (expectString v))) in H as [H _]; rewrite texts_written in H; apply Ok_inj in H
    | H : featuresFromCbor _ = Ok _ |- _ => apply exact_iff in H as [H _]; apply Ok_inj in H
    | H : resourcesFromCbor _ = Ok _ |- _ => apply exact_iff in H as [? _]
    end. subst.
    cbn [em_version em_profile em_engine em_engineDigest em_functions em_collations em_modules em_features
         em_resources em_transactionResults em_errorCodes].
    repeat match goal with H : _ = Ok _ |- _ => rewrite H; clear H end. by split_and!.
  - intros (H & Hv & Hd & Hf & Hc & Hm & Hp). inv_ok. subst. rewrite Hp.
    cbn [expectArray coded mbind result_bind length Nat.eqb is_one item lookup list_lookup default from_option id andb
         schema ensure]. unfold resultProfileToCbor. manifest_read.
    rewrite !(proj2 (is_text_true _ _)) by done. cbn [andb schema ensure mbind result_bind]. manifest_read.
    repeat match goal with H : mapR registeredFunctionToCbor _ = Ok _ |- _ =>
      rewrite (proj2 (exact_list registeredFunctionFromCbor _ _) (conj H Hf)); clear H end. cbn [mbind result_bind].
    repeat match goal with H : mapR registeredCollationToCbor _ = Ok _ |- _ =>
      rewrite (proj2 (exact_list registeredCollationFromCbor _ _) (conj H Hc)); clear H end. cbn [mbind result_bind].
    repeat match goal with H : mapR registeredModuleToCbor _ = Ok _ |- _ =>
      rewrite (proj2 (exact_list registeredModuleFromCbor _ _) (conj H Hm)); clear H end. cbn [mbind result_bind].
    rewrite (proj2 (exact_iff (from:=featuresFromCbor) _ _) (conj eq_refl I)). cbn [mbind result_bind].
    repeat match goal with H : resourcesToCbor _ = Ok _ |- _ =>
      rewrite (proj2 (exact_iff (from:=resourcesFromCbor) _ _) (conj H I)) end. cbn [mbind result_bind].
    rewrite (proj2 (exact_list (λ v, coded (expectString v)) _ _)
      (conj (texts_written (em_errorCodes m)) (Forall_true _ _ (λ _, I)))).
    destruct m; simpl in *. congruence.
Qed.

(** ** Flat values: a value without maps has one form *)

Definition flat (v : CborValue) : Prop := canonical_form v = v.

Lemma flat_array l : Forall flat l → flat (CArray l).
Proof. unfold flat. cbn [canonical_form]. intros H. f_equal. induction H as [|v l Hv _ IH]; [done|]. by rewrite fmap_cons, Hv, IH. Qed.

Lemma flat_list {A} (to : A → result CodecError CborValue) xs vs :
  (∀ x v, to x = Ok v → flat v) → mapR to xs = Ok vs → flat (CArray vs).
Proof.
  intros Hto H%mapR_Ok. apply flat_array. induction H as [|x v xs vs Hx _ IH]; constructor; [by eapply Hto|done].
Qed.

Lemma value_type_flat x v : valueTypeToCbor x = Ok v → flat v.
Proof.
  unfold valueTypeToCbor. intros H. inv_ok. subst. apply flat_array.
  repeat constructor. by eapply type_flat.
Qed.

Lemma uint_flat x v : uint x = Ok v → flat v.
Proof. by intros [-> _]%uint_Ok. Qed.

Lemma function_flat x v : registeredFunctionToCbor x = Ok v → flat v.
Proof.
  unfold registeredFunctionToCbor. intros H. inv_ok. subst. apply flat_array. repeat constructor.
  - by eapply uint_flat.
  - by eapply flat_list; [apply value_type_flat|].
  - by eapply value_type_flat.
Qed.

Lemma collation_flat x v : registeredCollationToCbor x = Ok v → flat v.
Proof. unfold registeredCollationToCbor. intros H. inv_ok. subst. apply flat_array. repeat constructor. by eapply uint_flat. Qed.

Lemma module_flat x v : registeredModuleToCbor x = Ok v → flat v.
Proof.
  unfold registeredModuleToCbor. intros H. inv_ok. subst. apply flat_array. repeat constructor.
  - by eapply uint_flat.
  - by eapply flat_list; [apply uint_flat|].
Qed.

Lemma resources_flat x v : resourcesToCbor x = Ok v → flat v.
Proof.
  unfold resourcesToCbor. cbn [mapR]. intros H. inv_ok. subst. manifest_facts. apply flat_array. cbn [app].
  by repeat constructor.
Qed.

Lemma texts_flat (l : list jsstring) : flat (CArray (CText <$> l)).
Proof. apply flat_array, Forall_fmap, Forall_true. done. Qed.

Lemma manifest_flat m v : executionManifestToCbor m = Ok v → flat v.
Proof.
  unfold executionManifestToCbor. intros H. inv_ok. subst. apply flat_array. repeat constructor.
  - by eapply flat_list; [apply function_flat|].
  - by eapply flat_list; [apply collation_flat|].
  - by eapply flat_list; [apply module_flat|].
  - by eapply resources_flat.
  - apply texts_flat.
Qed.

(** ** What a valid manifest is *)

#[export] Instance compareStrings_strict : StrictComparator compareStrings.
Proof.
  split; [split|].
  - intros x. induction x as [|a x IH]; [done|]. cbn [compareStrings]. by rewrite Z.ltb_irrefl.
  - intros x. induction x as [|a x IH]; intros [|b y]; cbn [compareStrings]; try lia.
    specialize (IH y). repeat case_match; lia.
  - intros x. induction x as [|a x IH]; intros [|b y] [|c z]; cbn [compareStrings]; try lia.
    specialize (IH y z). repeat case_match; lia.
  - intros x. induction x as [|a x IH]; intros [|b y]; cbn [compareStrings]; try lia; [done|].
    specialize (IH y). repeat case_match; try lia. intros ->%IH. f_equal. lia.
Qed.

Lemma ascending_NoDup (l : list jsstring) :
  StronglySorted (λ a b, compareStrings a b < 0) l ↔ js_sort compareStrings l = l ∧ NoDup l.
Proof.
  split.
  - intros H. split; [|by apply (strict_sorted_NoDup compareStrings)].
    apply (js_sort_id compareStrings). eapply StronglySorted_weaken; [|exact H]. simpl. lia.
  - intros [Hs Hn]. rewrite <-Hs. by apply (js_sort_strict compareStrings).
Qed.

(** In a sorted list, equal elements are adjacent. *)
Lemma sorted_adjacent (l : list jsstring) : StronglySorted (λ a b, compareStrings a b ≤ 0) l →
  (∀ i x y, l !! i = Some x → l !! S i = Some y → x ≠ y) → NoDup l.
Proof.
  induction 1 as [|x l Hl IH Hx]; intros Hadj; [constructor|]. constructor.
  - intros Hin. destruct l as [|y l]; [by apply elem_of_nil in Hin|].
    assert (x ≠ y) as Hne by (by apply (Hadj 0%nat)).
    apply elem_of_cons in Hin as [->|Hin]; [done|].
    inversion Hl as [|?? _ Hy]; subst. rewrite Forall_forall in Hy. specialize (Hy _ Hin).
    rewrite Forall_forall in Hx. specialize (Hx y ltac:(left)). apply Hne, (cmp_eq (cmp:=compareStrings)).
    destruct (cmp_flip (cmp:=compareStrings) x y), (cmp_flip (cmp:=compareStrings) y x). lia.
  - apply IH. intros i a b Ha Hb. by apply (Hadj (S i)).
Qed.

Lemma assertErrorCodes_Ok codes : assertErrorCodes codes = Ok tt ↔
  codes ≠ [] ∧ Forall (λ code, canonical_code code = true) codes ∧
  StronglySorted (λ a b, compareStrings a b < 0) codes.
Proof.
  unfold assertErrorCodes. rewrite schema_Ok, andb_true_iff, Nat.ltb_lt, forallb_forall, ascending_NoDup.
  split.
  - intros [Hne Hall]. assert (∀ i code, codes !! i = Some code → canonical_code code = true ∧
      js_sort compareStrings codes !! i = Some code ∧ (i = 0%nat ∨ codes !! (i - 1)%nat ≠ Some code)) as Hi.
    { intros i code Hc. pose proof (lookup_lt_Some _ _ _ Hc) as Hlt.
      specialize (Hall i ltac:(apply in_seq; lia)). rewrite Hc in Hall.
      rewrite !andb_true_iff, orb_true_iff, negb_true_iff, Nat.eqb_eq, bool_decide_eq_true, bool_decide_eq_false in Hall.
      naive_solver. }
    assert (js_sort compareStrings codes = codes) as Hs.
    { apply list_eq_same_length with (n:=length codes); [done|apply js_sort_length|].
      intros i x y _ Hx Hy. destruct (Hi i y Hy) as (_ & H & _). congruence. }
    split_and!; [by destruct codes; simpl in *; [lia|]| |done|].
    + apply Forall_lookup. intros i code Hc. by apply (Hi i).
    + apply sorted_adjacent; [rewrite <-Hs; apply (js_sort_sorted compareStrings)|].
      intros i x y Hx Hy ->. destruct (Hi (S i) y Hy) as (_ & _ & [|H]); [done|]. apply H.
      by replace (S i - 1)%nat with i by lia.
  - intros (Hne & Hcan & Hs & Hnd). split; [destruct codes; simpl; [done|lia]|].
    intros i [_ Hi]%in_seq. destruct (lookup_lt_is_Some_2 codes i Hi) as [code Hc]. rewrite Hc, Hs, Hc.
    rewrite (Forall_lookup_1 _ _ _ _ Hcan Hc), bool_decide_eq_true_2 by done. cbn [andb].
    destruct i as [|i]; [done|]. cbn [Nat.eqb orb]. apply negb_true_iff, bool_decide_eq_false.
    intros H. pose proof (NoDup_lookup _ _ _ _ Hnd H Hc). lia.
Qed.

Lemma eachR_Ok {A} (f : A → result CodecError unit) l : eachR f l = Ok tt ↔ Forall (λ x, f x = Ok tt) l.
Proof.
  unfold eachR. split.
  - intros H. inv_ok. rename select (mapR f l = Ok _) into Hm. apply mapR_Ok in Hm.
    clear H. induction Hm as [|y [] l us Hy _ IH]; by constructor.
  - intros H. rewrite (mapR_total f (λ _, tt)); [done|]. exact H.
Qed.

Section validity.
Context (toLowerCase : jsstring → jsstring).

(** The entries of a registry have distinct identifiers and distinct names,
    whatever the case of the names. *)
Definition registry_valid (values : list (Z * jsstring)) : Prop :=
  Forall (λ e, is_uint e.1 = true ∧ e.2 ≠ []) values ∧ NoDup values.*1 ∧ NoDup (toLowerCase <$> values.*2).

Lemma registry_from ids names values :
  assertUniqueRegistry_from toLowerCase ids names values = Ok tt ↔
  registry_valid values ∧ (∀ id, id ∈ values.*1 → id ∉ ids) ∧ (∀ n, n ∈ toLowerCase <$> values.*2 → n ∉ names).
Proof.
  unfold registry_valid. revert ids names. induction values as [|[id name] values IH]; intros ids names.
  - cbn [assertUniqueRegistry_from fmap list_fmap]. split; [|done]. intros _.
    split_and!; try constructor; by intros ? ?%elem_of_nil.
  - cbn [assertUniqueRegistry_from]. rewrite !fmap_cons, !NoDup_cons, Forall_cons. cbn [fst snd]. split.
    + intros H. inv_ok. unfold assertUint in *. rewrite schema_Ok, andb_true_iff, !negb_true_iff, !bool_decide_eq_false in *.
      destruct_and!. apply IH in H as (Hv & Hids & Hnames). destruct_and! Hv.
      assert (name ≠ []) by (by intros ->). split_and!; try done.
      * intros Hin. apply (Hids id Hin). left.
      * intros Hin. apply (Hnames _ Hin). left.
      * intros i [->|Hin]%elem_of_cons; [done|]. intros Hi. apply (Hids i Hin). by right.
      * intros n [->|Hin]%elem_of_cons; [done|]. intros Hn. apply (Hnames n Hin). by right.
    + intros (([[Hu Hne] Hall] & [Hid Hids] & [Hn Hns]) & Hi & Hm).
      rewrite (proj2 (schema_Ok (is_uint id) tt) Hu : assertUint id = Ok tt). cbn [mbind result_bind].
      rewrite (proj2 (schema_Ok (0 <? length name)%nat tt)) by (by destruct name). cbn [mbind result_bind].
      rewrite !bool_decide_eq_false_2 by (first [apply Hi|apply Hm]; left). cbn [negb andb schema ensure mbind result_bind].
      apply IH. split_and!; [done..| |].
      * intros i Hin [->|Hx]%elem_of_cons; [done|]. apply (Hi i); [by right|done].
      * intros n Hin [->|Hx]%elem_of_cons; [done|]. apply (Hm n); [by right|done].
Qed.

Lemma registry_Ok values : assertUniqueRegistry toLowerCase values = Ok tt ↔ registry_valid values.
Proof.
  unfold assertUniqueRegistry. rewrite registry_from. split; [by intros [? _]|].
  intros H. split_and!; [done|by intros ? _ ?%elem_of_nil..].
Qed.

(** What [assertExecutionManifest] promises its readers. *)
Record execution_manifest_valid (m : ExecutionManifest) : Prop := {
  xv_version : em_version m = 1;
  xv_identity : em_profile m ≠ [] ∧ em_engine m ≠ [];
  xv_engine : length (em_engineDigest m) = 32%nat;
  xv_functions : registry_valid ((λ f, (rf_id f, rf_name f)) <$> em_functions m);
  xv_collations : registry_valid ((λ c, (rc_id c, rc_name c)) <$> em_collations m);
  xv_modules : registry_valid ((λ d, (rm_id d, rm_name d)) <$> em_modules m);
  xv_function_types : Forall (λ f,
    Forall (λ t, assertLogicalType (vt_logical t) = Ok tt) (rf_result f :: rf_arguments f) ∧
    length (rf_implementationDigest f) = 32%nat) (em_functions m);
  xv_collation_digests : Forall (λ c, length (rc_implementationDigest c) = 32%nat) (em_collations m);
  xv_module_objects : Forall (λ d, length (rm_implementationDigest d) = 32%nat ∧
    Forall (λ id, is_uint id = true) (rm_effectObjectIds d)) (em_modules m);
  xv_ceilings : Forall (λ n, is_uint n = true) (resource_list (em_resources m)) ∧
    Forall (λ n, 0 < n) (positive_resources (em_resources m)) ∧ 0 ≤ maxWasmFuel (em_resources m);
  xv_results : em_transactionResults m = RESULT_PROFILE;
  xv_codes : em_errorCodes m ≠ [] ∧ Forall (λ code, canonical_code code = true) (em_errorCodes m) ∧
    StronglySorted (λ a b, compareStrings a b < 0) (em_errorCodes m);
}.

Lemma bind_unit (r : result CodecError unit) {A} (k : result CodecError A) x :
  (r ≫= λ _, k) = Ok x ↔ r = Ok tt ∧ k = Ok x.
Proof. destruct r as [[]|]; simpl; naive_solver. Qed.

Lemma assertFunction_Ok f : assertFunction f = Ok tt ↔
  Forall (λ t, assertLogicalType (vt_logical t) = Ok tt) (rf_result f :: rf_arguments f) ∧
  length (rf_implementationDigest f) = 32%nat.
Proof.
  unfold assertFunction, assertDigest32. rewrite !bind_unit, eachR_Ok, schema_Ok, Nat.eqb_eq, Forall_cons.
  unfold assertValueType. tauto.
Qed.

Lemma assertModule_Ok d : assertModule d = Ok tt ↔
  length (rm_implementationDigest d) = 32%nat ∧ Forall (λ id, is_uint id = true) (rm_effectObjectIds d).
Proof.
  unfold assertModule, assertDigest32. rewrite !bind_unit, eachR_Ok, schema_Ok, Nat.eqb_eq.
  unfold assertUint. by setoid_rewrite schema_Ok.
Qed.

Lemma positive_all l : forallb (λ n, 0 <? n) l = true ↔ Forall (λ n, 0 < n) l.
Proof.
  rewrite forallb_forall, Forall_forall. setoid_rewrite list_elem_of_In. by setoid_rewrite Z.ltb_lt.
Qed.

Lemma assertResources_Ok r : assertResources r = Ok tt ↔
  Forall (λ n, is_uint n = true) (resource_list r) ∧ Forall (λ n, 0 < n) (positive_resources r) ∧ 0 ≤ maxWasmFuel r.
Proof.
  unfold assertResources. rewrite !bind_unit, eachR_Ok, !schema_Ok, Z.leb_le.
  rewrite positive_all. unfold assertUint. setoid_rewrite schema_Ok. tauto.
Qed.

(** the validation of an execution manifest accepts exactly the valid ones.
    In a valid manifest no two functions, collations or modules share an
    identifier or a name up to case, every digest has 32 bytes, every resource
    ceiling is a positive safe integer (the rule depth and the fuel may be zero),
    and the codes a rejection may carry are canonical and strictly ascending, so
    none is listed twice.  The encoder and the decoder both run it, so a manifest
    that has bytes, or was read from bytes, is valid. *)
Theorem manifest_validation m :
  (assertExecutionManifest toLowerCase m = Ok tt ↔ execution_manifest_valid m) ∧
  (∀ b, encodeExecutionManifest toLowerCase m = Ok b → execution_manifest_valid m) ∧
  (∀ limits b, decodeExecutionManifest toLowerCase limits b = Ok m → execution_manifest_valid m).
Proof.
  assert (assertExecutionManifest toLowerCase m = Ok tt ↔ execution_manifest_valid m) as Hv.
  { unfold assertExecutionManifest. rewrite !bind_unit, !registry_Ok, !eachR_Ok, !schema_Ok, assertResources_Ok,
      assertErrorCodes_Ok, Z.eqb_eq, Nat.eqb_eq, bool_decide_eq_true, andb_true_iff, !Nat.ltb_lt.
    unfold assertDigest32. setoid_rewrite assertFunction_Ok. setoid_rewrite assertModule_Ok. setoid_rewrite schema_Ok.
    setoid_rewrite Nat.eqb_eq.
    assert (∀ s : jsstring, (0 < length s)%nat ↔ s ≠ []) as Hs by (intros []; simpl; split; (done || lia)).
    rewrite !Hs. split; [intros; destruct_and!; constructor; by split_and?|intros []; destruct_and!; by split_and!]. }
  split_and!; [done| |].
  - intros b Hb. unfold encodeExecutionManifest in Hb. apply bind_unit in Hb as [Ha _]. by apply Hv.
  - intros limits b Hb. unfold decodeExecutionManifest in Hb. inv_ok. subst.
    match goal with H : assertExecutionManifest _ _ = Ok ?u |- _ => destruct u; by apply Hv end.
Qed.
End validity.

(** ** The codec *)

Section codec.
Context (toLowerCase : jsstring → jsstring).

Lemma asserted_wf m : assertExecutionManifest toLowerCase m = Ok tt → manifest_wf m.
Proof.
  unfold assertExecutionManifest, assertDigest32. rewrite !bind_unit, !eachR_Ok, !schema_Ok, bool_decide_eq_true.
  setoid_rewrite assertFunction_Ok. setoid_rewrite assertModule_Ok. setoid_rewrite schema_Ok. setoid_rewrite Nat.eqb_eq.
  rewrite Z.eqb_eq. intros. destruct_and!.
  split_and!; try done; (eapply Forall_impl; [eassumption|]); simpl; tauto.
Qed.

Lemma manifest_determined m1 m2 b : zlen b ≤ MAX_SAFE_INTEGER →
  encodeExecutionManifest toLowerCase m1 = Ok b → encodeExecutionManifest toLowerCase m2 = Ok b → m1 = m2.
Proof.
  unfold encodeExecutionManifest. rewrite !bind_unit. intros Hb [A1 H1] [A2 H2].
  destruct (executionManifestToCbor m1) as [v1|] eqn:E1, (executionManifestToCbor m2) as [v2|] eqn:E2; try done.
  cbn [mbind result_bind] in *. rewrite coded_Ok in *. pose proof (encode_injective _ _ _ H1 H2 Hb) as Heq.
  rewrite (manifest_flat _ _ E1 : canonical_form v1 = v1), (manifest_flat _ _ E2 : canonical_form v2 = v2) in Heq. subst v2.
  pose proof (proj2 (exact_iff (from:=executionManifestFromCbor) v1 m1) (conj E1 (asserted_wf _ A1))).
  pose proof (proj2 (exact_iff (from:=executionManifestFromCbor) v1 m2) (conj E2 (asserted_wf _ A2))).
  congruence.
Qed.

(** the codec of execution manifests is exact.  Bytes are read as a manifest
    only if they are the bytes that manifest is written as, so a manifest has one
    form; whatever can be written and stays within the decoder's limits is read
    back; and two manifests with the same digest are the same manifest, or the
    two byte strings that were hashed are a SHA-256 collision.  A transaction
    that names a manifest digest therefore names one engine, one set of
    functions and one set of ceilings. *)
Theorem manifest_codec (sha256 : bytes → bytes) limits m b :
  zlen b ≤ maxBytes limits →
  (∀ v, executionManifestToCbor m = Ok v → fits limits 0 v = true) →
  (decodeExecutionManifest toLowerCase limits b = Ok m ↔ encodeExecutionManifest toLowerCase m = Ok b) ∧
  (∀ m' b' d, encodeExecutionManifest toLowerCase m = Ok b → encodeExecutionManifest toLowerCase m' = Ok b' →
     zlen b ≤ MAX_SAFE_INTEGER →
     digestExecutionManifest toLowerCase sha256 m = Ok d → digestExecutionManifest toLowerCase sha256 m' = Ok d →
     m = m' ∨ ∃ p p', canonicalDomainBytes HexecutionManifest b = Ok p ∧
       canonicalDomainBytes HexecutionManifest b' = Ok p' ∧ collision sha256 p p').
Proof.
  intros Hlen Hfits. split; [split|].
  - unfold decodeExecutionManifest, encodeExecutionManifest. intros H. inv_ok. subst.
    match goal with H : assertExecutionManifest _ _ = Ok ?u |- _ => destruct u; rewrite H end. cbn [mbind result_bind].
    match goal with H : executionManifestFromCbor _ = Ok _ |- _ => apply exact_iff in H as [-> _] end.
    cbn [mbind result_bind]. apply coded_Ok. eapply assert_sound, coded_Ok. eassumption.
  - unfold decodeExecutionManifest, encodeExecutionManifest. rewrite bind_unit. intros [Ha H]. inv_ok.
    rename x into v. rename select (executionManifestToCbor m = Ok v) into Hv. apply coded_Ok in H.
    rewrite (assert_complete limits b v); [|by apply Hfits|exact (manifest_flat _ _ Hv)|done..].
    cbn [coded mbind result_bind]. rewrite (proj2 (exact_iff v m) (conj Hv (asserted_wf _ Ha))).
    cbn [mbind result_bind]. by rewrite Ha.
  - intros m' b' d Hb Hb' Hsafe. unfold digestExecutionManifest. rewrite Hb, Hb'. cbn [mbind result_bind].
    unfold hashCanonicalDomain. rewrite !canonicalDomainBytes_total. cbn [mbind result_bind coded]. intros [= <-] [= Hd].
    destruct (decide (b = b')) as [<-|Hne]; [left; by eapply manifest_determined|right].
    do 2 eexists. split_and!; [done..|]. split; [|done]. intros Heq. apply Hne.
    by repeat (apply app_inv_head in Heq; try injection Heq as Heq).
Qed.
End codec.

(** ** A small manifest *)

Definition ascii_lower (s : jsstring) : jsstring := (λ c, if is_capital c then c + 32 else c) <$> s.

Definition sample_manifest : ExecutionManifest := {|
    em_version := 1;
    em_profile := js "sqlite";
    em_engine := js "doltlite";
    em_engineDigest := replicate 32 x01;
    em_functions := [mkFunction 1 (js "lower") [mkValueType (TText (js "binary")) true] (mkValueType (TText (js "binary")) true)
      effect_pure (replicate 32 x02); mkFunction 2 (js "abs") [mkValueType TInt64 false] (mkValueType TInt64 false)
      effect_pure (replicate 32 x03)];
    em_collations := [mkCollation 1 (js "binary") (replicate 32 x04)];
    em_modules := [mkModule 1 (js "json") module_builtin (replicate 32 x05) [7]];
    em_features := mkFeatures true true true false false false;
    em_resources := mkResources 1000 32 1000 65536 16 1024 0 0 64 1000 65536 1000 65536 4096 10000 100 4096 64;
    em_transactionResults := RESULT_PROFILE;
    em_errorCodes := js <$> ["CONSTRAINT"; "LIMIT_EXCEEDED"]%string;
    |}.

Lemma manifest_codec_witness : ∃ b,
  encodeExecutionManifest ascii_lower sample_manifest = Ok b ∧
  decodeExecutionManifest ascii_lower IR_DECODE_LIMITS b = Ok sample_manifest.
Proof.
  eexists. split; [vm_compute; reflexivity|].
  refine (proj2 (proj1 (manifest_codec ascii_lower id IR_DECODE_LIMITS sample_manifest _ _ _)) _).
  - vm_compute. discriminate.
  - intros v Hv. vm_compute in Hv. injection Hv as <-. vm_compute. reflexivity.
  - vm_compute. reflexivity.
Defined.

(** Names that differ in their case only are refused. *)
Example same_name_refused :
  assertUniqueRegistry ascii_lower [(1, js "lower"); (2, js "LOWER")] = Err (Coded SCHEMA_INVALID).
Proof. reflexivity. Qed.
