(* ===== verification/MaterializerCodec.v ===== *)
(** * The portable materialisation contract: [packages/materializer/src/codec.ts]

    The CBOR forms of exact references, invocations, admitted suffixes,
    continuations, outcomes, differential observations and fixtures, and the
    digests of an invocation and of an admitted order.  The [version] and
    [profile] fields of these records have one value each, which the codecs write
    and check.  [decodeTransactionCore] is that of [Transaction]. *)

From Stdlib Require Import Strings.Byte Strings.String.
From stdpp Require Import base list option numbers.
From S2P Require Import Prelude JsMap Bytes Text Cbor CborProofs Schema Domains Messages Logical Sql Transaction ExecManifest.

#[local] Open Scope Z_scope.

(** * Materialisation: the data of [packages/materializer/src/types.ts] and [runtime.ts]

    What a node hands to the materializer and what it gets back: the admitted
    transactions in their order, the candidate revision computed from them, the
    request that publishes it, and the exact references of the portable
    invocation.  Identities and digests are bytes, indices are integers. *)

(** ** Exact references *)

Inductive ContentHashAlgorithm := sha2_256 | blake3_256 | dolt_blake3_160.
#[global] Instance ContentHashAlgorithm_eq_dec : EqDecision ContentHashAlgorithm.
Proof. solve_decision. Defined.

Record ContentId := mkContentId { ci_algorithm : ContentHashAlgorithm; ci_digest : bytes }.
Record CodecId := mkCodecId { co_number : Z; co_version : Z }.
Record ExactObjectRef := mkObjectRef { or_storeId : bytes; or_codec : CodecId; or_contentId : ContentId }.
Record DoltChunkId := mkDoltChunkId { dc_doltFormatVersion : Z; dc_contentId : ContentId }.
Record DatabaseStateDigest := mkStateDigest { sd_stateFormatVersion : Z; sd_contentId : ContentId }.
Record ExactDatabaseRef := mkDatabaseRef {
  dr_storeId : bytes;
  dr_doltFormatVersion : Z;
  dr_canonicalGenesisCommit : DoltChunkId;
  dr_commitHash : DoltChunkId;
  dr_stateDigest : DatabaseStateDigest;
}.

#[global] Instance ContentId_eq_dec : EqDecision ContentId.
Proof. solve_decision. Defined.
#[global] Instance CodecId_eq_dec : EqDecision CodecId.
Proof. solve_decision. Defined.
#[global] Instance ExactObjectRef_eq_dec : EqDecision ExactObjectRef.
Proof. solve_decision. Defined.

Inductive ChronologArtifactKind :=
  | admitted_suffix | execution_manifest | continuation_artifact | materialization_manifest | outcome_changes.
#[global] Instance ChronologArtifactKind_eq_dec : EqDecision ChronologArtifactKind.
Proof. solve_decision. Defined.

Record ExactArtifactRef := mkArtifactRef {
  ar_kind : ChronologArtifactKind; ar_formatVersion : Z; ar_object : ExactObjectRef }.
#[global] Instance ExactArtifactRef_eq_dec : EqDecision ExactArtifactRef.
Proof. solve_decision. Defined.

(** ** The invocation *)

Record MaterializationInput := mkMaterializationInput { mi_manifest : ExactArtifactRef; mi_database : ExactDatabaseRef }.

Record ChronologMaterializationContext := mkMaterializationContext {
  mc_groupId : bytes; mc_logicalTimeMs : option Z; mc_entropySeed : option bytes }.

(** [version] and [profile] have one value each; they are checked by the codec. *)
Record ChronologMaterializationInvocation := mkInvocation {
  iv_context : ChronologMaterializationContext;
  iv_previous : option MaterializationInput;
  iv_replayBase : MaterializationInput;
  iv_admittedSuffix : ExactArtifactRef;
  iv_executionManifest : ExactArtifactRef;
  iv_continuation : option ExactArtifactRef;
  iv_expectedEngineDigest : bytes;
  iv_expectedExecutionManifestDigest : bytes;
  iv_expectedPreviousOrderDigest : bytes;
  iv_replayFromIndex : Z;
  iv_targetOrderLength : Z;
  iv_targetOrderDigest : bytes;
}.

Record AdmittedTransaction := mkAdmitted {
  ad_txId : bytes;
  ad_authorFeedSequence : Z;
  ad_candidateDigest : bytes;
  ad_canonicalCandidate : bytes;
  ad_core : TransactionCore;
}.

Record ChronologAdmittedSuffix := mkSuffix {
  su_groupId : bytes;
  su_replayFromIndex : Z;
  su_targetOrderLength : Z;
  su_targetOrderDigest : bytes;
  su_transactions : list AdmittedTransaction;
}.

Record ChronologMaterializationContinuation := mkContinuation {
  cn_invocationDigest : bytes;
  cn_partialDatabase : ExactDatabaseRef;
  cn_nextOrderIndex : Z;
  cn_prefixOrderDigest : bytes;
}.

(** ** What the materializer answers *)

Inductive MaterializedTransactionOutcomeKind := outcome_accepted | rejected_precondition | rejected_execution.
#[global] Instance MaterializedTransactionOutcomeKind_eq_dec : EqDecision MaterializedTransactionOutcomeKind.
Proof. solve_decision. Defined.

Record MaterializationOutcomeChange := mkOutcomeChange {
  oc_txId : bytes;
  oc_previous : option MaterializedTransactionOutcomeKind;
  oc_current : MaterializedTransactionOutcomeKind;
  oc_previousRejectionCode : option jsstring;
  oc_currentRejectionCode : option jsstring;
}.

Record MaterializedRevision := mkRevision {
  mv_revision : Z;
  mv_previousRevision : Z;
  mv_orderLength : Z;
  mv_replayFromIndex : Z;
  mv_replayedTransactions : Z;
  mv_checkpointPrefix : Z;
  mv_contentHash : jsstring;
  mv_manifestDigest : bytes;
  mv_earliestChangedOrderIndex : Z;
  mv_outcomeChanges : list MaterializationOutcomeChange;
}.

Record MaterializationPublicationRequest := mkPublicationRequest {
  pq_publicationKey : jsstring;
  pq_expectedRevision : Z;
  pq_targetRevision : Z;
  pq_targetOrderLength : Z;
  pq_candidateIdentity : jsstring;
}.

Record CoordinatedMaterialization := mkCoordinated {
  cm_revision : MaterializedRevision; cm_publication : MaterializationPublicationRequest }.

Record MaterializedRevisionSnapshot := mkRevisionSnapshot {
  rs_revision : Z; rs_orderLength : Z; rs_executionManifestDigest : bytes }.

(** The published revision of a publication or reconciliation; its status and key are
    not used by the node. *)
Record MaterializationPublicationResult := mkPublicationResult {
  pr_snapshot : MaterializedRevisionSnapshot; pr_publicationKey : option jsstring }.

Definition publicationRequestForRevision (revision : MaterializedRevision) : MaterializationPublicationRequest :=
  mkPublicationRequest (js "revision:" ++ mv_contentHash revision) (mv_previousRevision revision) (mv_revision revision)
    (mv_orderLength revision) (mv_contentHash revision).

(** ** Portable outcomes and observations *)

Record ChronologCompletedMaterialization := mkCompleted {
  cp_outputDatabase : ExactDatabaseRef;
  cp_materializationManifest : ExactArtifactRef;
  cp_outcomeChanges : ExactArtifactRef;
  cp_orderLength : Z;
  cp_orderDigest : bytes;
  cp_replayFromIndex : Z;
  cp_stateDigest : ContentId;
}.

Record ChronologUnchangedMaterialization := mkUnchanged {
  un_outputDatabase : ExactDatabaseRef;
  un_materializationManifest : ExactArtifactRef;
  un_orderLength : Z;
  un_orderDigest : bytes;
  un_stateDigest : ContentId;
}.

Record ChronologCheckpointedMaterialization := mkCheckpointed {
  ck_partialDatabase : ExactDatabaseRef;
  ck_continuation : ExactArtifactRef;
  ck_nextOrderIndex : Z;
  ck_prefixOrderDigest : bytes;
}.

Inductive ChronologMaterializationOutcome :=
  | completed (value : ChronologCompletedMaterialization)
  | unchanged (value : ChronologUnchangedMaterialization)
  | checkpointed (value : ChronologCheckpointedMaterialization).

(** [version] is always 1. *)
Record DifferentialObservation := mkObservation {
  ob_orderLength : Z;
  ob_orderDigest : bytes;
  ob_stateDigest : ContentId;
  ob_protectedLogDigest : bytes;
  ob_outcomeSetDigest : bytes;
  ob_queryResultDigest : bytes;
  ob_rejectionAttributionDigest : bytes;
}.

Record DifferentialFixtureObject := mkFixtureObject { fo_ref : ExactObjectRef; fo_bytes : bytes }.

Record DifferentialMaterializationFixture := mkFixture {
  fx_name : jsstring;
  fx_invocation : bytes;
  fx_objects : list DifferentialFixtureObject;
}.

Definition MATERIALIZER_DECODE_LIMITS : DecodeLimits := {|
    maxBytes := 32 * 1024 * 1024;
    maxDepth := maxDepth DEFAULT_DECODE_LIMITS;
    maxArrayItems := 250000;
    maxMapItems := 250000;
    maxTextBytes := maxTextBytes DEFAULT_DECODE_LIMITS;
    maxBlobBytes := 24 * 1024 * 1024;
    |}.

Definition UINT32_MAX : Z := 0xffffffff.

Definition HASH_ALGORITHMS : list ContentHashAlgorithm := [sha2_256; blake3_256; dolt_blake3_160].
Definition ARTIFACT_KINDS : list ChronologArtifactKind :=
  [admitted_suffix; execution_manifest; continuation_artifact; materialization_manifest; outcome_changes].

(** ** Reading fields *)

Definition root (limits : DecodeLimits) (b : bytes) : result CodecError IntegerMap :=
  v ← coded (assertCanonicalCbor limits b); coded (expectMap v).

(** [f(required(map, key))] *)
Definition field {A} (f : CborValue → result CodecError A) (map : IntegerMap) (key : Z) : result CodecError A :=
  v ← coded (required map key); f v.

Definition uint_up_to (maximum : Z) (v : CborValue) : result CodecError Z := coded (expectUint v maximum).
Definition bytes_of_length (n : nat) (v : CborValue) : result CodecError bytes := coded (expectBytes v (Some n)).

(** [table[expectUint(value) - 1]], an error when it is undefined. *)
Definition from_table1 {A} (table : list A) (v : CborValue) : result CodecError A :=
  n ← uint_up_to MAX_SAFE_INTEGER v;
  match (if n =? 0 then None else table !! Z.to_nat (n - 1)) with
  | Some x => Ok x
  | None => Err (Coded SCHEMA_INVALID)
  end.

(** [expectBigint(required(map, 0)) === expected] *)
Definition expect_version (map : IntegerMap) (key expected : Z) : result CodecError unit :=
  n ← field (λ v, coded (expectBigint v)) map key; schema (n =? expected).

Definition safe_positive (n : Z) : bool := (0 <? n) && (n <=? MAX_SAFE_INTEGER).
Definition store_id_fits (b : bytes) : bool := (0 <? zlen b) && (zlen b <=? 1024).

(** ** Exact references *)

Definition digestLength (algorithm : ContentHashAlgorithm) : nat :=
  match algorithm with dolt_blake3_160 => 20 | _ => 32 end.

Definition contentIdToCbor (value : ContentId) : result CodecError CborValue :=
  let index := index_of HASH_ALGORITHMS (ci_algorithm value) in
  schema (0 <=? index) ≫= λ _,
  schema (length (ci_digest value) =? digestLength (ci_algorithm value))%nat ≫= λ _,
  Ok (CMap (integerMap [(0, Some (CInt (index + 1))); (1, Some (CBytes (ci_digest value)))])).

Definition contentIdFromCbor (value : CborValue) : result CodecError ContentId :=
  map ← coded (expectMap value);
  coded (assertKnownIntegerKeys map [0; 1]) ≫= λ _,
  algorithm ← field (from_table1 HASH_ALGORITHMS) map 0;
  digest ← field (bytes_of_length (digestLength algorithm)) map 1;
  Ok (mkContentId algorithm digest).

Definition codecIdToCbor (value : CodecId) : result CodecError CborValue :=
  in_range ((0 <? co_number value) && (co_number value <=? UINT32_MAX)) ≫= λ _,
  in_range ((0 <=? co_version value) && (co_version value <=? 0xffff)) ≫= λ _,
  Ok (CMap (integerMap [(0, Some (CInt (co_number value))); (1, Some (CInt (co_version value)))])).

Definition codecIdFromCbor (value : CborValue) : result CodecError CodecId :=
  map ← coded (expectMap value);
  coded (assertKnownIntegerKeys map [0; 1]) ≫= λ _,
  number ← field (uint_up_to UINT32_MAX) map 0;
  schema (0 <? number) ≫= λ _,
  version ← field (uint_up_to 0xffff) map 1;
  Ok (mkCodecId number version).

Definition exactObjectRefToCbor (value : ExactObjectRef) : result CodecError CborValue :=
  schema (store_id_fits (or_storeId value)) ≫= λ _,
  codec ← codecIdToCbor (or_codec value);
  contentId ← contentIdToCbor (or_contentId value);
  Ok (CMap (integerMap [(0, Some (CBytes (or_storeId value))); (1, Some codec); (2, Some contentId)])).

Definition exactObjectRefFromCbor (value : CborValue) : result CodecError ExactObjectRef :=
  map ← coded (expectMap value);
  coded (assertKnownIntegerKeys map [0; 1; 2]) ≫= λ _,
  storeId ← field (λ v, coded (expectBytes v None)) map 0;
  schema (store_id_fits storeId) ≫= λ _,
  codec ← field codecIdFromCbor map 1;
  contentId ← field contentIdFromCbor map 2;
  Ok (mkObjectRef storeId codec contentId).

Definition doltChunkToCbor (value : DoltChunkId) : result CodecError CborValue :=
  in_range (safe_positive (dc_doltFormatVersion value)) ≫= λ _,
  schema (bool_decide (ci_algorithm (dc_contentId value) = dolt_blake3_160)) ≫= λ _,
  contentId ← contentIdToCbor (dc_contentId value);
  Ok (CMap (integerMap [(0, Some (CInt (dc_doltFormatVersion value))); (1, Some contentId)])).

Definition doltChunkFromCbor (value : CborValue) : result CodecError DoltChunkId :=
  map ← coded (expectMap value);
  coded (assertKnownIntegerKeys map [0; 1]) ≫= λ _,
  version ← field (uint_up_to UINT32_MAX) map 0;
  schema (0 <? version) ≫= λ _,
  contentId ← field contentIdFromCbor map 1;
  schema (bool_decide (ci_algorithm contentId = dolt_blake3_160)) ≫= λ _,
  Ok (mkDoltChunkId version contentId).

Definition stateDigestToCbor (value : DatabaseStateDigest) : result CodecError CborValue :=
  in_range (safe_positive (sd_stateFormatVersion value)) ≫= λ _,
  contentId ← contentIdToCbor (sd_contentId value);
  Ok (CMap (integerMap [(0, Some (CInt (sd_stateFormatVersion value))); (1, Some contentId)])).

Definition stateDigestFromCbor (value : CborValue) : result CodecError DatabaseStateDigest :=
  map ← coded (expectMap value);
  coded (assertKnownIntegerKeys map [0; 1]) ≫= λ _,
  version ← field (uint_up_to UINT32_MAX) map 0;
  schema (0 <? version) ≫= λ _,
  contentId ← field contentIdFromCbor map 1;
  Ok (mkStateDigest version contentId).

Definition exactDatabaseRefToCbor (value : ExactDatabaseRef) : result CodecError CborValue :=
  schema (store_id_fits (dr_storeId value)) ≫= λ _,
  schema (dr_doltFormatVersion value =? dc_doltFormatVersion (dr_canonicalGenesisCommit value)) ≫= λ _,
  schema (dr_doltFormatVersion value =? dc_doltFormatVersion (dr_commitHash value)) ≫= λ _,
  genesis ← doltChunkToCbor (dr_canonicalGenesisCommit value);
  commit ← doltChunkToCbor (dr_commitHash value);
  stateDigest ← stateDigestToCbor (dr_stateDigest value);
  Ok (CMap (integerMap
    [(0, Some (CBytes (dr_storeId value))); (1, Some (CInt (dr_doltFormatVersion value)));
     (2, Some genesis); (3, Some commit); (4, Some stateDigest)])).

Definition exactDatabaseRefFromCbor (value : CborValue) : result CodecError ExactDatabaseRef :=
  map ← coded (expectMap value);
  coded (assertKnownIntegerKeys map [0; 1; 2; 3; 4]) ≫= λ _,
  storeId ← field (λ v, coded (expectBytes v None)) map 0;
  schema (store_id_fits storeId) ≫= λ _,
  version ← field (uint_up_to UINT32_MAX) map 1;
  schema (0 <? version) ≫= λ _,
  genesis ← field doltChunkFromCbor map 2;
  commit ← field doltChunkFromCbor map 3;
  schema (dc_doltFormatVersion genesis =? version) ≫= λ _,
  schema (dc_doltFormatVersion commit =? version) ≫= λ _,
  stateDigest ← field stateDigestFromCbor map 4;
  Ok (mkDatabaseRef storeId version genesis commit stateDigest).

Definition exactArtifactRefToCbor (value : ExactArtifactRef) : result CodecError CborValue :=
  let kind := index_of ARTIFACT_KINDS (ar_kind value) in
  schema (0 <=? kind) ≫= λ _,
  in_range (safe_positive (ar_formatVersion value)) ≫= λ _,
  object ← exactObjectRefToCbor (ar_object value);
  Ok (CMap (integerMap [(0, Some (CInt (kind + 1))); (1, Some (CInt (ar_formatVersion value))); (2, Some object)])).

Definition exactArtifactRefFromCbor (value : CborValue) : result CodecError ExactArtifactRef :=
  map ← coded (expectMap value);
  coded (assertKnownIntegerKeys map [0; 1; 2]) ≫= λ _,
  kind ← field (from_table1 ARTIFACT_KINDS) map 0;
  version ← field (uint_up_to UINT32_MAX) map 1;
  schema (0 <? version) ≫= λ _,
  object ← field exactObjectRefFromCbor map 2;
  Ok (mkArtifactRef kind version object).

(** ** Invocations *)

Definition inputToCbor (value : MaterializationInput) : result CodecError CborValue :=
  manifest ← exactArtifactRefToCbor (mi_manifest value);
  database ← exactDatabaseRefToCbor (mi_database value);
  Ok (CMap (integerMap [(0, Some manifest); (1, Some database)])).

Definition has_kind (kind : ChronologArtifactKind) (ref : ExactArtifactRef) : bool := bool_decide (ar_kind ref = kind).

Definition inputFromCbor (value : CborValue) : result CodecError MaterializationInput :=
  map ← coded (expectMap value);
  coded (assertKnownIntegerKeys map [0; 1]) ≫= λ _,
  manifest ← field exactArtifactRefFromCbor map 0;
  schema (has_kind materialization_manifest manifest) ≫= λ _,
  database ← field exactDatabaseRefFromCbor map 1;
  Ok (mkMaterializationInput manifest database).

Definition requireIndex (value : Z) : result CodecError Z := in_range (is_uint value) ≫= λ _, Ok value.

(** [value === null || value.kind === kind] *)
Definition null_or_kind (kind : ChronologArtifactKind) (ref : option ExactArtifactRef) : bool :=
  match ref with None => true | Some ref => has_kind kind ref end.

Definition invocationToCbor (value : ChronologMaterializationInvocation) : result CodecError CborValue :=
  schema (length (mc_groupId (iv_context value)) =? 32)%nat ≫= λ _,
  schema (bool_decide (mc_logicalTimeMs (iv_context value) = None)) ≫= λ _,
  schema (bool_decide (mc_entropySeed (iv_context value) = None)) ≫= λ _,
  schema (has_kind admitted_suffix (iv_admittedSuffix value)) ≫= λ _,
  schema (has_kind execution_manifest (iv_executionManifest value)) ≫= λ _,
  schema (null_or_kind continuation_artifact (iv_continuation value)) ≫= λ _,
  requireIndex (iv_replayFromIndex value) ≫= λ _,
  requireIndex (iv_targetOrderLength value) ≫= λ _,
  schema (iv_replayFromIndex value <=? iv_targetOrderLength value) ≫= λ _,
  previous ← to_nullable inputToCbor (iv_previous value);
  replayBase ← inputToCbor (iv_replayBase value);
  suffix ← exactArtifactRefToCbor (iv_admittedSuffix value);
  manifest ← exactArtifactRefToCbor (iv_executionManifest value);
  continuation ← to_nullable exactArtifactRefToCbor (iv_continuation value);
  engineDigest ← requireDigest (iv_expectedEngineDigest value);
  manifestDigest ← requireDigest (iv_expectedExecutionManifestDigest value);
  previousDigest ← requireDigest (iv_expectedPreviousOrderDigest value);
  targetDigest ← requireDigest (iv_targetOrderDigest value);
  Ok (CMap (integerMap
    [(0, Some (CInt 1)); (1, Some (CInt 1));
     (2, Some (CMap (integerMap [(0, Some (CBytes (mc_groupId (iv_context value)))); (1, Some CNull); (2, Some CNull)])));
     (3, Some previous); (4, Some replayBase); (5, Some suffix); (6, Some manifest); (7, Some continuation);
     (8, Some (CBytes engineDigest)); (9, Some (CBytes manifestDigest)); (10, Some (CBytes previousDigest));
     (11, Some (CInt (iv_replayFromIndex value))); (12, Some (CInt (iv_targetOrderLength value)));
     (13, Some (CBytes targetDigest))])).

Definition encodeMaterializationInvocation (value : ChronologMaterializationInvocation) : result CodecError bytes :=
  v ← invocationToCbor value; coded (encodeCanonicalCbor v).

Definition is_null (v : CborValue) : bool := match v with CNull => true | _ => false end.

Definition invocationFromMap (map : IntegerMap) : result CodecError ChronologMaterializationInvocation :=
  coded (assertKnownIntegerKeys map [0; 1; 2; 3; 4; 5; 6; 7; 8; 9; 10; 11; 12; 13]) ≫= λ _,
  expect_version map 0 1 ≫= λ _,
  expect_version map 1 1 ≫= λ _,
  context ← field (λ v, coded (expectMap v)) map 2;
  coded (assertKnownIntegerKeys context [0; 1; 2]) ≫= λ _,
  logicalTimeMs ← coded (required context 1);
  entropySeed ← coded (required context 2);
  schema (is_null logicalTimeMs) ≫= λ _,
  schema (is_null entropySeed) ≫= λ _,
  previousValue ← coded (required map 3);
  continuationValue ← coded (required map 7);
  admittedSuffix ← field exactArtifactRefFromCbor map 5;
  executionManifest ← field exactArtifactRefFromCbor map 6;
  continuation ← from_nullable exactArtifactRefFromCbor continuationValue;
  schema (has_kind admitted_suffix admittedSuffix) ≫= λ _,
  schema (has_kind execution_manifest executionManifest) ≫= λ _,
  schema (null_or_kind continuation_artifact continuation) ≫= λ _,
  replayFromIndex ← field (uint_up_to MAX_SAFE_INTEGER) map 11;
  targetOrderLength ← field (uint_up_to MAX_SAFE_INTEGER) map 12;
  schema (replayFromIndex <=? targetOrderLength) ≫= λ _,
  groupId ← field (bytes_of_length 32) context 0;
  previous ← from_nullable inputFromCbor previousValue;
  replayBase ← field inputFromCbor map 4;
  engineDigest ← field (bytes_of_length 32) map 8;
  manifestDigest ← field (bytes_of_length 32) map 9;
  previousDigest ← field (bytes_of_length 32) map 10;
  targetDigest ← field (bytes_of_length 32) map 13;
  Ok (mkInvocation (mkMaterializationContext groupId None None) previous replayBase admittedSuffix executionManifest
        continuation engineDigest manifestDigest previousDigest replayFromIndex targetOrderLength targetDigest).

Definition decodeMaterializationInvocation (limits : DecodeLimits) (b : bytes) :
    result CodecError ChronologMaterializationInvocation :=
  map ← root limits b; invocationFromMap map.

(** ** Admitted suffixes *)

(** [a.every((byte, index) => byte === b[index])] *)
Definition every_byte (a b : bytes) : bool := bool_decide (take (length a) b = a).

Definition admittedTransactionToCbor (value : AdmittedTransaction) : result CodecError CborValue :=
  schema (0 <? length (ad_txId value))%nat ≫= λ _,
  in_range (0 <=? ad_authorFeedSequence value) ≫= λ _,
  schema (length (ad_candidateDigest value) =? 32)%nat ≫= λ _,
  schema (0 <? length (ad_canonicalCandidate value))%nat ≫= λ _,
  v ← coded (assertCanonicalCbor MATERIALIZER_DECODE_LIMITS (ad_canonicalCandidate value));
  b ← coded (encodeCanonicalCbor v);
  schema (every_byte b (ad_canonicalCandidate value)) ≫= λ _,
  Ok (CArray [CBytes (ad_txId value); CInt (ad_authorFeedSequence value); CBytes (ad_candidateDigest value);
              CBytes (ad_canonicalCandidate value)]).

Definition suffixToCbor (value : ChronologAdmittedSuffix) : result CodecError CborValue :=
  schema (length (su_groupId value) =? 32)%nat ≫= λ _,
  requireIndex (su_replayFromIndex value) ≫= λ _,
  requireIndex (su_targetOrderLength value) ≫= λ _,
  schema (su_replayFromIndex value + zlen (su_transactions value) =? su_targetOrderLength value) ≫= λ _,
  targetDigest ← requireDigest (su_targetOrderDigest value);
  transactions ← mapR admittedTransactionToCbor (su_transactions value);
  Ok (CMap (integerMap
    [(0, Some (CInt 1)); (1, Some (CBytes (su_groupId value))); (2, Some (CInt (su_replayFromIndex value)));
     (3, Some (CInt (su_targetOrderLength value))); (4, Some (CBytes targetDigest)); (5, Some (CArray transactions))])).

Definition encodeAdmittedSuffix (value : ChronologAdmittedSuffix) : result CodecError bytes :=
  v ← suffixToCbor value; coded (encodeCanonicalCbor v).

Definition admittedTransactionFromCbor (value : CborValue) : result CodecError AdmittedTransaction :=
  tuple ← coded (expectArray value);
  schema (length tuple =? 4)%nat ≫= λ _,
  canonicalCandidate ← coded (expectBytes (item tuple 3) None);
  core ← decodeTransactionCore canonicalCandidate;
  again ← encodeTransactionCore core;
  schema (every_byte again canonicalCandidate) ≫= λ _,
  txId ← coded (expectBytes (item tuple 0) None);
  sequence ← coded (expectBigint (item tuple 1));
  candidateDigest ← coded (expectBytes (item tuple 2) (Some 32%nat));
  Ok (mkAdmitted txId sequence candidateDigest canonicalCandidate core).

Definition checkAdmitted (value : AdmittedTransaction) : result CodecError unit :=
  schema (0 <? length (ad_txId value))%nat ≫= λ _, in_range (0 <=? ad_authorFeedSequence value).

Definition suffixFromMap (map : IntegerMap) : result CodecError ChronologAdmittedSuffix :=
  coded (assertKnownIntegerKeys map [0; 1; 2; 3; 4; 5]) ≫= λ _,
  expect_version map 0 1 ≫= λ _,
  items ← field (λ v, coded (expectArray v)) map 5;
  transactions ← mapR admittedTransactionFromCbor items;
  eachR checkAdmitted transactions ≫= λ _,
  replayFromIndex ← field (uint_up_to MAX_SAFE_INTEGER) map 2;
  targetOrderLength ← field (uint_up_to MAX_SAFE_INTEGER) map 3;
  schema (replayFromIndex + zlen transactions =? targetOrderLength) ≫= λ _,
  groupId ← field (bytes_of_length 32) map 1;
  targetDigest ← field (bytes_of_length 32) map 4;
  Ok (mkSuffix groupId replayFromIndex targetOrderLength targetDigest transactions).

Definition decodeAdmittedSuffix (limits : DecodeLimits) (b : bytes) : result CodecError ChronologAdmittedSuffix :=
  map ← root limits b; suffixFromMap map.

(** ** Continuations *)

Definition continuationToCbor (value : ChronologMaterializationContinuation) : result CodecError CborValue :=
  requireIndex (cn_nextOrderIndex value) ≫= λ _,
  invocationDigest ← requireDigest (cn_invocationDigest value);
  partialDatabase ← exactDatabaseRefToCbor (cn_partialDatabase value);
  prefixDigest ← requireDigest (cn_prefixOrderDigest value);
  Ok (CMap (integerMap
    [(0, Some (CInt 1)); (1, Some (CBytes invocationDigest)); (2, Some partialDatabase);
     (3, Some (CInt (cn_nextOrderIndex value))); (4, Some (CBytes prefixDigest))])).

Definition encodeMaterializationContinuation (value : ChronologMaterializationContinuation) : result CodecError bytes :=
  v ← continuationToCbor value; coded (encodeCanonicalCbor v).

Definition continuationFromMap (map : IntegerMap) : result CodecError ChronologMaterializationContinuation :=
  coded (assertKnownIntegerKeys map [0; 1; 2; 3; 4]) ≫= λ _,
  expect_version map 0 1 ≫= λ _,
  invocationDigest ← field (bytes_of_length 32) map 1;
  partialDatabase ← field exactDatabaseRefFromCbor map 2;
  nextOrderIndex ← field (uint_up_to MAX_SAFE_INTEGER) map 3;
  prefixDigest ← field (bytes_of_length 32) map 4;
  Ok (mkContinuation invocationDigest partialDatabase nextOrderIndex prefixDigest).

Definition decodeMaterializationContinuation (limits : DecodeLimits) (b : bytes) :
    result CodecError ChronologMaterializationContinuation :=
  map ← root limits b; continuationFromMap map.

(** ** Outcomes *)

Definition completedToCbor (value : ChronologCompletedMaterialization) : result CodecError CborValue :=
  outputDatabase ← exactDatabaseRefToCbor (cp_outputDatabase value);
  manifest ← exactArtifactRefToCbor (cp_materializationManifest value);
  outcomeChanges ← exactArtifactRefToCbor (cp_outcomeChanges value);
  orderLength ← requireIndex (cp_orderLength value);
  orderDigest ← requireDigest (cp_orderDigest value);
  replayFromIndex ← requireIndex (cp_replayFromIndex value);
  stateDigest ← contentIdToCbor (cp_stateDigest value);
  Ok (CMap (integerMap
    [(0, Some (CInt 1)); (1, Some (CInt 1)); (2, Some outputDatabase); (3, Some manifest); (4, Some outcomeChanges);
     (5, Some (CInt orderLength)); (6, Some (CBytes orderDigest)); (7, Some (CInt replayFromIndex));
     (8, Some stateDigest)])).

Definition unchangedToCbor (value : ChronologUnchangedMaterialization) : result CodecError CborValue :=
  outputDatabase ← exactDatabaseRefToCbor (un_outputDatabase value);
  manifest ← exactArtifactRefToCbor (un_materializationManifest value);
  orderLength ← requireIndex (un_orderLength value);
  orderDigest ← requireDigest (un_orderDigest value);
  stateDigest ← contentIdToCbor (un_stateDigest value);
  Ok (CMap (integerMap
    [(0, Some (CInt 1)); (1, Some (CInt 2)); (2, Some outputDatabase); (3, Some manifest);
     (5, Some (CInt orderLength)); (6, Some (CBytes orderDigest)); (8, Some stateDigest)])).

Definition checkpointedToCbor (value : ChronologCheckpointedMaterialization) : result CodecError CborValue :=
  partialDatabase ← exactDatabaseRefToCbor (ck_partialDatabase value);
  continuation ← exactArtifactRefToCbor (ck_continuation value);
  nextOrderIndex ← requireIndex (ck_nextOrderIndex value);
  prefixDigest ← requireDigest (ck_prefixOrderDigest value);
  Ok (CMap (integerMap
    [(0, Some (CInt 1)); (1, Some (CInt 3)); (2, Some partialDatabase); (3, Some continuation);
     (5, Some (CInt nextOrderIndex)); (6, Some (CBytes prefixDigest))])).

Definition outcomeToCbor (value : ChronologMaterializationOutcome) : result CodecError CborValue :=
  match value with
  | completed value => completedToCbor value
  | unchanged value => unchangedToCbor value
  | checkpointed value => checkpointedToCbor value
  end.

Definition encodeMaterializationOutcome (value : ChronologMaterializationOutcome) : result CodecError bytes :=
  v ← outcomeToCbor value; coded (encodeCanonicalCbor v).

Definition completedFromMap (map : IntegerMap) : result CodecError ChronologCompletedMaterialization :=
  manifest ← field exactArtifactRefFromCbor map 3;
  outcomeChanges ← field exactArtifactRefFromCbor map 4;
  schema (has_kind materialization_manifest manifest) ≫= λ _,
  schema (has_kind outcome_changes outcomeChanges) ≫= λ _,
  outputDatabase ← field exactDatabaseRefFromCbor map 2;
  orderLength ← field (uint_up_to MAX_SAFE_INTEGER) map 5;
  orderDigest ← field (bytes_of_length 32) map 6;
  replayFromIndex ← field (uint_up_to MAX_SAFE_INTEGER) map 7;
  stateDigest ← field contentIdFromCbor map 8;
  Ok (mkCompleted outputDatabase manifest outcomeChanges orderLength orderDigest replayFromIndex stateDigest).

Definition unchangedFromMap (map : IntegerMap) : result CodecError ChronologUnchangedMaterialization :=
  manifest ← field exactArtifactRefFromCbor map 3;
  schema (has_kind materialization_manifest manifest) ≫= λ _,
  outputDatabase ← field exactDatabaseRefFromCbor map 2;
  orderLength ← field (uint_up_to MAX_SAFE_INTEGER) map 5;
  orderDigest ← field (bytes_of_length 32) map 6;
  stateDigest ← field contentIdFromCbor map 8;
  Ok (mkUnchanged outputDatabase manifest orderLength orderDigest stateDigest).

Definition checkpointedFromMap (map : IntegerMap) : result CodecError ChronologCheckpointedMaterialization :=
  continuation ← field exactArtifactRefFromCbor map 3;
  schema (has_kind continuation_artifact continuation) ≫= λ _,
  partialDatabase ← field exactDatabaseRefFromCbor map 2;
  nextOrderIndex ← field (uint_up_to MAX_SAFE_INTEGER) map 5;
  prefixDigest ← field (bytes_of_length 32) map 6;
  Ok (mkCheckpointed partialDatabase continuation nextOrderIndex prefixDigest).

Definition outcomeFromMap (map : IntegerMap) : result CodecError ChronologMaterializationOutcome :=
  coded (assertKnownIntegerKeys map [0; 1; 2; 3; 4; 5; 6; 7; 8]) ≫= λ _,
  expect_version map 0 1 ≫= λ _,
  kind ← field (λ v, coded (expectBigint v)) map 1;
  if kind =? 1 then x ← completedFromMap map; Ok (completed x)
  else if kind =? 2 then x ← unchangedFromMap map; Ok (unchanged x)
  else schema (kind =? 3) ≫= λ _, x ← checkpointedFromMap map; Ok (checkpointed x).

Definition decodeMaterializationOutcome (limits : DecodeLimits) (b : bytes) :
    result CodecError ChronologMaterializationOutcome :=
  map ← root limits b; outcomeFromMap map.

(** ** Differential observations *)

Definition observationToCbor (value : DifferentialObservation) : result CodecError CborValue :=
  orderLength ← requireIndex (ob_orderLength value);
  orderDigest ← requireDigest (ob_orderDigest value);
  stateDigest ← contentIdToCbor (ob_stateDigest value);
  protectedLog ← requireDigest (ob_protectedLogDigest value);
  outcomeSet ← requireDigest (ob_outcomeSetDigest value);
  queryResult ← requireDigest (ob_queryResultDigest value);
  rejection ← requireDigest (ob_rejectionAttributionDigest value);
  Ok (CMap (integerMap
    [(0, Some (CInt 1)); (1, Some (CInt orderLength)); (2, Some (CBytes orderDigest)); (3, Some stateDigest);
     (4, Some (CBytes protectedLog)); (5, Some (CBytes outcomeSet)); (6, Some (CBytes queryResult));
     (7, Some (CBytes rejection))])).

Definition encodeDifferentialObservation (value : DifferentialObservation) : result CodecError bytes :=
  v ← observationToCbor value; coded (encodeCanonicalCbor v).

Definition observationFromMap (map : IntegerMap) : result CodecError DifferentialObservation :=
  coded (assertKnownIntegerKeys map [0; 1; 2; 3; 4; 5; 6; 7]) ≫= λ _,
  expect_version map 0 1 ≫= λ _,
  orderLength ← field (uint_up_to MAX_SAFE_INTEGER) map 1;
  orderDigest ← field (bytes_of_length 32) map 2;
  stateDigest ← field contentIdFromCbor map 3;
  protectedLog ← field (bytes_of_length 32) map 4;
  outcomeSet ← field (bytes_of_length 32) map 5;
  queryResult ← field (bytes_of_length 32) map 6;
  rejection ← field (bytes_of_length 32) map 7;
  Ok (mkObservation orderLength orderDigest stateDigest protectedLog outcomeSet queryResult rejection).

Definition decodeDifferentialObservation (limits : DecodeLimits) (b : bytes) :
    result CodecError DifferentialObservation :=
  map ← root limits b; observationFromMap map.

(** ** Fixtures *)

(** The first index where the two differ, or the difference of the lengths. *)
Definition compareEncodings (left right : bytes) : Z :=
  match first_difference left right with Some order => order | None => zlen left - zlen right end.

Definition objectRefBytes (ref : ExactObjectRef) : result CodecError bytes :=
  v ← exactObjectRefToCbor ref; coded (encodeCanonicalCbor v).

Definition compareObjectRefs (left right : ExactObjectRef) : result CodecError Z :=
  leftBytes ← objectRefBytes left; rightBytes ← objectRefBytes right;
  Ok (compareEncodings leftBytes rightBytes).

Definition compareKeyedRefs {A} (left right : bytes * A) : Z := compareEncodings left.1 right.1.

(** [[...l].sort((a, b) => compareObjectRefs(ref(a), ref(b)))]: with two or more
    elements every reference is encoded. *)
Definition sort_by_ref {A} (ref : A → ExactObjectRef) (l : list A) : result CodecError (list A) :=
  if (length l <=? 1)%nat then Ok l
  else keyed ← mapR (λ x, k ← objectRefBytes (ref x); Ok (k, x)) l;
       Ok ((js_sort compareKeyedRefs keyed).*2).

(** [for (index = 1; ...)] over neighbours. *)
Fixpoint each_neighbour {A} (check : A → A → result CodecError unit) (l : list A) : result CodecError unit :=
  match l with
  | a :: ((b :: _) as rest) => check a b ≫= λ _, each_neighbour check rest
  | _ => Ok tt
  end.

Definition name_fits (name : jsstring) : bool := (0 <? zlen name) && (zlen name <=? 256).

Definition fixtureObjectToCbor (object : DifferentialFixtureObject) : result CodecError CborValue :=
  ref ← exactObjectRefToCbor (fo_ref object); Ok (CArray [ref; CBytes (fo_bytes object)]).

Definition fixtureToCbor (value : DifferentialMaterializationFixture) : result CodecError CborValue :=
  schema (name_fits (fx_name value)) ≫= λ _,
  decodeMaterializationInvocation MATERIALIZER_DECODE_LIMITS (fx_invocation value) ≫= λ _,
  objects ← sort_by_ref fo_ref (fx_objects value);
  each_neighbour (λ a b, order ← compareObjectRefs (fo_ref a) (fo_ref b); schema (negb (order =? 0))) objects ≫= λ _,
  items ← mapR fixtureObjectToCbor objects;
  Ok (CMap (integerMap
    [(0, Some (CInt 1)); (1, Some (CText (fx_name value))); (2, Some (CBytes (fx_invocation value)));
     (3, Some (CArray items))])).

Definition encodeDifferentialFixture (value : DifferentialMaterializationFixture) : result CodecError bytes :=
  v ← fixtureToCbor value; coded (encodeCanonicalCbor v).

Definition fixtureObjectFromCbor (value : CborValue) : result CodecError DifferentialFixtureObject :=
  tuple ← coded (expectArray value);
  schema (length tuple =? 2)%nat ≫= λ _,
  ref ← exactObjectRefFromCbor (item tuple 0);
  b ← coded (expectBytes (item tuple 1) None);
  Ok (mkFixtureObject ref b).

Definition decodeDifferentialFixture (limits : DecodeLimits) (b : bytes) :
    result CodecError DifferentialMaterializationFixture :=
  map ← root limits b;
  coded (assertKnownIntegerKeys map [0; 1; 2; 3]) ≫= λ _,
  expect_version map 0 1 ≫= λ _,
  name ← field (λ v, coded (expectString v)) map 1;
  schema (name_fits name) ≫= λ _,
  invocation ← field (λ v, coded (expectBytes v None)) map 2;
  decodeMaterializationInvocation limits invocation ≫= λ _,
  items ← field (λ v, coded (expectArray v)) map 3;
  objects ← mapR fixtureObjectFromCbor items;
  each_neighbour (λ a b, order ← compareObjectRefs (fo_ref a) (fo_ref b); schema (order <? 0)) objects ≫= λ _,
  Ok (mkFixture name invocation objects).

(** ** Digests *)

Definition sameBytes (left right : bytes) : bool :=
  if negb (length left =? length right)%nat then false
  else foldl Z.lor 0 (zip_with (λ l r, Z.lxor (val l) (val r)) left right) =? 0.

(** [new DataView(new ArrayBuffer(4)).setUint32(0, length, false)] *)
Definition length_frame (b : bytes) : bytes := be_bytes 4 (zlen b).

Definition framedBytes (domain : jsstring) (payload : bytes) : result CodecError bytes :=
  domainBytes ← coded (utf8 domain);
  Ok (concatBytes [length_frame domainBytes; domainBytes; [x00]; payload]).

Definition orderBytes (transactionIds : list bytes) : result CodecError bytes :=
  framed ← mapR (λ transactionId, schema (0 <? length transactionId)%nat ≫= λ _,
                    Ok (concatBytes [length_frame transactionId; transactionId])) transactionIds;
  framedBytes (js "chronolog/admitted-order/v1") (concatBytes framed).

Section digests.
Context (sha256 : bytes → bytes).

Definition digestFramed (domain : jsstring) (payload : bytes) : result CodecError bytes :=
  b ← framedBytes domain payload; Ok (sha256 b).

Definition digestMaterializationInvocation (value : ChronologMaterializationInvocation) : result CodecError bytes :=
  b ← encodeMaterializationInvocation value; digestFramed (js "chronolog/materialization-invocation/v1") b.

Definition digestAdmittedOrder (transactionIds : list bytes) : result CodecError bytes :=
  b ← orderBytes transactionIds; Ok (sha256 b).
End digests.
