(* ===== verification/MaterializerTheorems.v ===== *)
(** * The materialisation contract: one form per message

    Invocations, continuations, completed outcomes and observations are written
    and read exactly; admitted suffixes too, as long as their candidates stay
    within the materializer's limits; the digest of an admitted order names the
    list of its transactions. *)

From Stdlib Require Import Strings.Byte Strings.String Sorting.Sorted.
From stdpp Require Import base list option numbers sets sorting.
From S2P Require Import Prelude JsMap Bytes Text Cbor CborProofs Schema CborTheorems Domains Messages Logical LogicalTheorems Sql SqlProofs SqlTheorems Transaction ExecManifest ExecManifestTheorems MaterializerCodec.

#[local] Open Scope Z_scope.

(** * Exact references: their codecs read what they write

    The interface [StrictCodec] that the codecs of the materialisation contract
    satisfy, its instances for fields and for the exact references of
    [MaterializerCodec], and the tactics that prove one from the definitions. *)

(** ** The interface *)

(** Whatever is read can be written, with the encoding it was read from, and is
    one of the values of [wf]; those are read back from what they are written as. *)
Class StrictCodec {A} (from : CborValue → result CodecError A) (to : A → result CodecError CborValue)
    (wf : A → Prop) : Prop := {
  strict_written v x : encodable v → from v = Ok x → wf x ∧ ∃ w, to x = Ok w ∧ same_encoding v w;
  strict_read w x : to x = Ok w → wf x → from w = Ok x;
}.

Lemma strict_exact {A} (from : CborValue → result CodecError A) (to : A → CborValue) (wf : A → Prop) :
  (∀ v x, from v = Ok x ↔ v = to x ∧ wf x) → StrictCodec from (λ x, Ok (to x)) wf.
Proof.
  intros H. split.
  - intros v x _ [-> Hw]%H. split; [done|]. by exists (to x).
  - intros w x [= <-] Hw. by apply H.
Qed.

Section fields.
Context {A} {from : CborValue → result CodecError A} {to wf} `{!StrictCodec from to wf}.

(** A field of a map that was read. *)
Lemma field_written m k x : encodable (CMap m) → field from m k = Ok x →
  wf x ∧ ∃ v w, map_get (KInt k) m = Some v ∧ to x = Ok w ∧ same_encoding v w.
Proof.
  unfold field. intros Hm H. inv_ok. rename x0 into v. rewrite coded_Ok, required_Ok in *.
  destruct (strict_written v x) as (Hw & w & Hto & Hs); [by eapply encodable_field|done|]. eauto 10.
Qed.

(** A field of a record that was written. *)
Lemma field_read es k w x : NoDup es.*1 → (k, Some w) ∈ es → to x = Ok w → wf x → field from (integerMap es) k = Ok x.
Proof.
  intros Hnd Hin Hto Hw. unfold field. rewrite (required_integerMap _ _ w) by done.
  cbn [coded mbind result_bind]. by apply strict_read.
Qed.

(** A nullable value, whose form is not null. *)
Lemma nullable_codec : (∀ x w, to x = Ok w → w ≠ CNull) →
  StrictCodec (from_nullable from) (to_nullable to) (λ o, match o with Some x => wf x | None => True end).
Proof.
  intros Hnn. split.
  - intros v x Hv H. assert (v = CNull ∨ v ≠ CNull) as [->|Hne] by (destruct v; by (left + right)).
    { injection H as <-. split; [done|]. by exists CNull. }
    assert ((y ← from v; Ok (Some y)) = Ok x) as Hx by (by destruct v). inv_ok. subst.
    rename select (from v = Ok _) into Hf. destruct (strict_written v _ Hv Hf) as (Hw & w & Hto & Hs). eauto.
  - intros w [x|]; cbn [to_nullable]; [|by intros [= <-]]. intros Hto Hw.
    assert (from_nullable from w = (y ← from w; Ok (Some y))) as ->
      by (pose proof (Hnn _ _ Hto); by destruct w).
    by rewrite (strict_read _ _ Hto Hw).
Qed.
End fields.

(** ** Fields of a plain type *)

Lemma expectUint_Ok v n max : expectUint v max = Ok n ↔ v = CInt n ∧ 0 ≤ n ≤ max ∧ n ≤ MAX_SAFE_INTEGER.
Proof.
  unfold expectUint, canonicalInvariant. split.
  - intros H. inv_ok. rewrite expectBigint_Ok in *. subst. split; [done|lia].
  - intros (-> & H1 & H2). cbn [expectBigint mbind result_bind]. by rewrite !(proj2 (Z.leb_le _ _)) by lia.
Qed.

#[export] Instance uint_strict max :
  StrictCodec (uint_up_to max) (λ n, Ok (CInt n)) (λ n, 0 ≤ n ≤ max ∧ n ≤ MAX_SAFE_INTEGER).
Proof. apply strict_exact. intros v x. unfold uint_up_to. by rewrite coded_Ok, expectUint_Ok. Qed.

#[export] Instance bytes_strict n : StrictCodec (bytes_of_length n) (λ b, Ok (CBytes b)) (λ b, length b = n).
Proof. apply strict_exact. intros v x. unfold bytes_of_length. by rewrite coded_Ok, expectBytes_sized. Qed.

#[export] Instance any_bytes_strict :
  StrictCodec (λ v, coded (expectBytes v None)) (λ b, Ok (CBytes b)) (λ _, True).
Proof. apply strict_exact. intros v x. rewrite coded_Ok, expectBytes_any. naive_solver. Qed.

#[export] Instance bigint_strict : StrictCodec (λ v, coded (expectBigint v)) (λ n, Ok (CInt n)) (λ _, True).
Proof. apply strict_exact. intros v x. rewrite coded_Ok, expectBigint_Ok. naive_solver. Qed.

#[export] Instance string_strict : StrictCodec (λ v, coded (expectString v)) (λ s, Ok (CText s)) (λ _, True).
Proof. apply strict_exact. intros v x. rewrite coded_Ok, expectString_Ok. naive_solver. Qed.

#[export] Instance items_strict : StrictCodec (λ v, coded (expectArray v)) (λ l, Ok (CArray l)) (λ _, True).
Proof. apply strict_exact. intros v x. rewrite coded_Ok, expectArray_Ok. naive_solver. Qed.

#[export] Instance entries_strict : StrictCodec (λ v, coded (expectMap v)) (λ m, Ok (CMap m)) (λ _, True).
Proof. apply strict_exact. intros v x. rewrite coded_Ok, expectMap_Ok. naive_solver. Qed.

#[export] Instance hash_algorithms : CodeTable HASH_ALGORITHMS. Proof. code_table. Qed.
#[export] Instance artifact_kinds : CodeTable ARTIFACT_KINDS. Proof. code_table. Qed.

(** Positions counted from one. *)
Lemma table1_strict {A} `{EqDecision A} (table : list A) `{!CodeTable table} :
  zlen table < MAX_SAFE_INTEGER → StrictCodec (from_table1 table) (λ x, Ok (CInt (index_of table x + 1))) (λ _, True).
Proof.
  intros Hsmall. apply strict_exact. intros v x.
  pose proof (from_table_Ok table (CInt (index_of table x)) x) as [_ Hx]. specialize (Hx eq_refl).
  unfold from_table in Hx. inv_ok. rename x0 into i. rewrite coded_Ok, expectUint64_Ok in *. destruct_and!. simplify_eq.
  destruct (table !! Z.to_nat (index_of table x)) as [y|] eqn:E; [|done]. inv_ok. subst y.
  pose proof (lookup_lt_Some _ _ _ E) as Hlt. unfold zlen in Hsmall.
  unfold from_table1, uint_up_to. split.
  - intros Hn. inv_ok. rename x0 into n. rewrite coded_Ok, expectUint_Ok in *. destruct_and!. subst v. split; [|done].
    destruct (Z.eqb_spec n 0); [done|]. destruct (table !! Z.to_nat (n - 1)) as [y|] eqn:En; [|done]. inv_ok. subst y.
    pose proof (NoDup_lookup _ _ _ _ table_distinct E En). f_equal. lia.
  - intros [-> _]. rewrite (proj2 (coded_Ok _ (index_of table x + 1))) by (apply expectUint_Ok; split; [done|lia]).
    cbn [mbind result_bind]. destruct (Z.eqb_spec (index_of table x + 1) 0); [lia|].
    replace (index_of table x + 1 - 1) with (index_of table x) by lia. by rewrite E.
Qed.
#[export] Instance algorithm_strict : StrictCodec (from_table1 HASH_ALGORITHMS) _ _ := table1_strict HASH_ALGORITHMS eq_refl.
#[export] Instance kind_strict : StrictCodec (from_table1 ARTIFACT_KINDS) _ _ := table1_strict ARTIFACT_KINDS eq_refl.

(** ** Tactics *)

(** The fields of a map that was read, as they would be written. *)
Ltac fields_written Hm :=
  repeat match goal with
  | H : field _ ?m _ = Ok _ |- _ =>
      let Hto := fresh "Hto" in
      apply (field_written _ _ _ Hm) in H as (? & ? & ? & ? & Hto & ?); try (apply Ok_inj in Hto; subst)
  end.

(** The decoders keep format versions to 32 bits; the encoders write any positive
    safe integer. *)
Definition version_fits (n : Z) : Prop := n ≤ UINT32_MAX.

(** A condition one of the two directions checks. *)
Ltac holds :=
  first [apply schema_Ok | apply ensure_Ok | idtac];
  first [ assumption | reflexivity | apply index_of_nonneg, _ | by apply Nat.eqb_eq | by apply Z.eqb_eq
        | unfold version_fits, safe_positive, is_uint, UINT32_MAX, MAX_SAFE_INTEGER in *; lia | done ].

(** Runs a writer or a reader: its checks hold and its parts are known. *)
Ltac run part :=
  repeat first
    [ apply bind_unit; split; [holds|]
    | apply bind_Ok; eexists; split; [part|] ].

Ltac written_part := first [eassumption | by apply safeIndex_Ok | done].
Ltac read_part :=
  first [ done
        | eapply field_read; [literal_nodup | find_field | first [eassumption | reflexivity] | first [assumption | done | holds]] ].

(** The two directions of a codec of records. *)
Ltac strict_map Hv :=
  let H := fresh "H" in
  intros ? ? Hv H; inv_ok; subst; read_facts;
  repeat match goal with H : expectMap _ = Ok _ |- _ => apply expectMap_Ok in H end; subst;
  fields_written Hv.

Ltac same_fields Hv := same_record Hv; constructor; assumption.

Ltac known_map :=
  cbn [expectMap coded mbind result_bind]; rewrite integerMap_known by (literal_nodup || done);
  cbn [coded mbind result_bind].

(** ** Exact references *)

#[export] Instance content_id_strict : StrictCodec contentIdFromCbor contentIdToCbor (λ _, True).
Proof.
  split.
  - unfold contentIdFromCbor. strict_map Hv. split; [done|]. eexists. split.
    + unfold contentIdToCbor. cbn [ci_algorithm ci_digest]. run written_part. done.
    + same_fields Hv.
  - unfold contentIdToCbor, contentIdFromCbor. intros w x H _. inv_ok. subst. read_facts. known_map.
    run read_part. by destruct x.
Qed.

#[export] Instance codec_id_strict : StrictCodec codecIdFromCbor codecIdToCbor (λ _, True).
Proof.
  split.
  - unfold codecIdFromCbor. strict_map Hv. split; [done|]. eexists. split.
    + unfold codecIdToCbor. cbn [co_number co_version]. run written_part. done.
    + same_fields Hv.
  - unfold codecIdToCbor, codecIdFromCbor. intros w x H _. inv_ok. subst. read_facts. known_map.
    run read_part. by destruct x.
Qed.

#[export] Instance object_ref_strict : StrictCodec exactObjectRefFromCbor exactObjectRefToCbor (λ _, True).
Proof.
  split.
  - unfold exactObjectRefFromCbor. strict_map Hv. split; [done|]. eexists. split.
    + unfold exactObjectRefToCbor. cbn [or_storeId or_codec or_contentId]. run written_part. done.
    + same_fields Hv.
  - unfold exactObjectRefToCbor, exactObjectRefFromCbor. intros w x H _. inv_ok. subst. read_facts. known_map.
    run read_part. by destruct x.
Qed.

#[export] Instance dolt_chunk_strict :
  StrictCodec doltChunkFromCbor doltChunkToCbor (λ c, version_fits (dc_doltFormatVersion c)).
Proof.
  split.
  - unfold doltChunkFromCbor. strict_map Hv. split; [simpl; holds|]. eexists. split.
    + unfold doltChunkToCbor. cbn [dc_doltFormatVersion dc_contentId]. run written_part. done.
    + same_fields Hv.
  - unfold doltChunkToCbor, doltChunkFromCbor. intros w x H Hw. inv_ok. subst. read_facts. known_map.
    run read_part. by destruct x.
Qed.

#[export] Instance state_digest_strict :
  StrictCodec stateDigestFromCbor stateDigestToCbor (λ d, version_fits (sd_stateFormatVersion d)).
Proof.
  split.
  - unfold stateDigestFromCbor. strict_map Hv. split; [simpl; holds|]. eexists. split.
    + unfold stateDigestToCbor. cbn [sd_stateFormatVersion sd_contentId]. run written_part. done.
    + same_fields Hv.
  - unfold stateDigestToCbor, stateDigestFromCbor. intros w x H Hw. inv_ok. subst. read_facts. known_map.
    run read_part. by destruct x.
Qed.

Definition database_fits (d : ExactDatabaseRef) : Prop :=
  version_fits (dr_doltFormatVersion d) ∧ version_fits (sd_stateFormatVersion (dr_stateDigest d)).

#[export] Instance database_ref_strict : StrictCodec exactDatabaseRefFromCbor exactDatabaseRefToCbor database_fits.
Proof.
  split.
  - unfold exactDatabaseRefFromCbor. strict_map Hv. split; [split; simpl; holds|]. eexists. split.
    + unfold exactDatabaseRefToCbor. cbn [dr_storeId dr_doltFormatVersion dr_canonicalGenesisCommit dr_commitHash dr_stateDigest].
      run written_part. done.
    + same_fields Hv.
  - unfold exactDatabaseRefToCbor, exactDatabaseRefFromCbor. intros w x H [Hw1 Hw2]. inv_ok. subst. read_facts.
    rewrite Z.eqb_eq in *.
    assert (safe_positive (dr_doltFormatVersion x) = true) as Hp.
    { rename select (doltChunkToCbor (dr_commitHash x) = Ok _) into Hc. unfold doltChunkToCbor in Hc. inv_ok. read_facts. congruence. }
    known_map. unfold version_fits in *. run read_part. by destruct x.
Qed.

Definition artifact_fits (a : ExactArtifactRef) : Prop := version_fits (ar_formatVersion a).

#[export] Instance artifact_ref_strict : StrictCodec exactArtifactRefFromCbor exactArtifactRefToCbor artifact_fits.
Proof.
  split.
  - unfold exactArtifactRefFromCbor. strict_map Hv. split; [unfold artifact_fits; simpl; holds|]. eexists. split.
    + unfold exactArtifactRefToCbor. cbn [ar_kind ar_formatVersion ar_object]. run written_part. done.
    + same_fields Hv.
  - unfold exactArtifactRefToCbor, exactArtifactRefFromCbor, artifact_fits. intros w x H Hw. inv_ok. subst. read_facts.
    known_map. run read_part. by destruct x.
Qed.

(** The encoder of an input does not look at the kind of its manifest. *)
Definition input_fits (i : MaterializationInput) : Prop :=
  has_kind materialization_manifest (mi_manifest i) = true ∧ artifact_fits (mi_manifest i) ∧ database_fits (mi_database i).

#[export] Instance input_strict : StrictCodec inputFromCbor inputToCbor input_fits.
Proof.
  split.
  - unfold inputFromCbor. strict_map Hv. split; [by split_and!|]. eexists. split.
    + unfold inputToCbor. cbn [mi_manifest mi_database]. run written_part. done.
    + same_fields Hv.
  - unfold inputToCbor, inputFromCbor. intros w x H (Hk & Ha & Hd). inv_ok. subst. read_facts.
    known_map. run read_part. by destruct x.
Qed.

Lemma artifact_not_null x w : exactArtifactRefToCbor x = Ok w → w ≠ CNull.
Proof. unfold exactArtifactRefToCbor. intros H. inv_ok. by subst. Qed.
Lemma input_not_null x w : inputToCbor x = Ok w → w ≠ CNull.
Proof. unfold inputToCbor. intros H. inv_ok. by subst. Qed.

#[export] Instance nullable_artifact_strict : StrictCodec (from_nullable exactArtifactRefFromCbor) _ _ :=
  nullable_codec artifact_not_null.
#[export] Instance nullable_input_strict : StrictCodec (from_nullable inputFromCbor) _ _ :=
  nullable_codec input_not_null.

(** ** Whole messages *)

(** A codec of messages: the map inside, with its encoding. *)
Class MessageCodec {A} (from : IntegerMap → result CodecError A) (to : A → result CodecError CborValue)
    (wf : A → Prop) : Prop := {
  message_written m x : encodable (CMap m) → from m = Ok x → wf x ∧ ∃ w, to x = Ok w ∧ same_encoding (CMap m) w;
  message_read w x : to x = Ok w → wf x → ∃ m, w = CMap m ∧ from m = Ok x;
}.

(** What is needed of the limits to read back what was written: the form is in
    the order of its keys, and its parts are within them. *)
Definition message_fits (limits : DecodeLimits) (v : CborValue) : Prop := fits limits 0 v = true ∧ canonical_form v = v.

Section messages.
Context {A} {from : IntegerMap → result CodecError A} {to wf} `{!MessageCodec from to wf}.

Lemma message_decoded limits b x : (m ← root limits b; from m) = Ok x →
  (v ← to x; coded (encodeCanonicalCbor v)) = Ok b ∧ wf x.
Proof.
  unfold root. intros H. inv_ok. read_facts. rewrite expectMap_Ok in *. subst. rename x0 into m.
  match goal with H : assertCanonicalCbor _ _ = Ok _ |- _ => apply assert_sound in H as Hb end.
  destruct (message_written m x) as (Hw & w & Hto & Hs); [by exists b|done|]. split; [|done].
  rewrite Hto. cbn [mbind result_bind]. apply coded_Ok. unfold same_encoding in Hs. congruence.
Qed.

Lemma message_encoded limits b x : zlen b ≤ maxBytes limits → (∀ v, to x = Ok v → message_fits limits v) → wf x →
  (v ← to x; coded (encodeCanonicalCbor v)) = Ok b → (m ← root limits b; from m) = Ok x.
Proof.
  intros Hlen Hfits Hw H. inv_ok. rename x0 into v. rename select (to x = Ok v) into Hv. apply coded_Ok in H.
  destruct (message_read _ _ Hv Hw) as (m & -> & Hm). destruct (Hfits _ Hv) as [Hf Hc]. unfold root.
  rewrite (assert_complete limits b (CMap m)) by done. exact Hm.
Qed.

Lemma message_exact limits b x : zlen b ≤ maxBytes limits → (∀ v, to x = Ok v → message_fits limits v) →
  (m ← root limits b; from m) = Ok x ↔ (v ← to x; coded (encodeCanonicalCbor v)) = Ok b ∧ wf x.
Proof.
  intros Hlen Hfits. split; [apply message_decoded|]. intros [H Hw]. by eapply message_encoded.
Qed.
End messages.

Lemma version_known m k n : expect_version m k n = Ok tt ↔ map_get (KInt k) m = Some (CInt n).
Proof.
  unfold expect_version, field. split.
  - intros H. inv_ok. read_facts. rewrite required_Ok, Z.eqb_eq in *. by subst.
  - intros H. rewrite (proj2 (required_Ok _ _ _) H). cbn [coded expectBigint mbind result_bind]. by rewrite Z.eqb_refl.
Qed.

Lemma version_written es k n : NoDup es.*1 → (k, Some (CInt n)) ∈ es → expect_version (integerMap es) k n = Ok tt.
Proof. intros Hnd Hin. apply version_known. by apply integerMap_get. Qed.

(** The start of both directions of a message codec. *)
Ltac strict_message Hv :=
  let H := fresh "H" in
  intros ? ? Hv H; inv_ok; subst; read_facts;
  repeat match goal with H : expect_version _ _ _ = Ok ?u |- _ => destruct u; apply version_known in H end;
  fields_written Hv.

Ltac read_check := first [apply version_written; [literal_nodup|find_field] | holds].

Ltac run_message :=
  repeat first
    [ apply bind_unit; split; [read_check|]
    | apply bind_Ok; eexists; split; [read_part|] ].

Lemma requireIndex_Ok n i : requireIndex n = Ok i ↔ i = n ∧ is_uint n = true.
Proof. unfold requireIndex, in_range. destruct (is_uint n); simpl; naive_solver. Qed.

Lemma uint_index n : 0 ≤ n ≤ MAX_SAFE_INTEGER ∧ n ≤ MAX_SAFE_INTEGER → requireIndex n = Ok n.
Proof. intros H. apply requireIndex_Ok. split; [done|]. unfold is_uint. lia. Qed.
Lemma is_uint_range n : is_uint n = true → 0 ≤ n ≤ MAX_SAFE_INTEGER ∧ n ≤ MAX_SAFE_INTEGER.
Proof. unfold is_uint. lia. Qed.

Ltac written_field :=
  first [ eassumption | by apply uint_index | by apply requireDigest_Ok | done ].

Ltac index_facts :=
  repeat match goal with
  | H : requireIndex _ = Ok _ |- _ => apply requireIndex_Ok in H as [? ?]
  | H : is_uint _ = true |- _ => apply is_uint_range in H
  end; subst.

(** ** Continuations and observations *)

#[export] Instance continuation_codec : MessageCodec continuationFromMap continuationToCbor
  (λ c, database_fits (cn_partialDatabase c)).
Proof.
  split.
  - unfold continuationFromMap. strict_message Hv. split; [done|]. eexists. split.
    + unfold continuationToCbor.
      cbn [cn_nextOrderIndex cn_invocationDigest cn_partialDatabase cn_prefixOrderDigest]. run written_field. done.
    + same_fields Hv.
  - unfold continuationToCbor, continuationFromMap. intros w x H Hw. inv_ok. read_facts. index_facts.
    eexists. split; [done|]. known_map. run_message. by destruct x.
Qed.

#[export] Instance observation_codec : MessageCodec observationFromMap observationToCbor (λ _, True).
Proof.
  split.
  - unfold observationFromMap. strict_message Hv. split; [done|]. eexists. split.
    + unfold observationToCbor.
      cbn [ob_orderLength ob_orderDigest ob_stateDigest ob_protectedLogDigest ob_outcomeSetDigest
           ob_queryResultDigest ob_rejectionAttributionDigest]. run written_field. done.
    + same_fields Hv.
  - unfold observationToCbor, observationFromMap. intros w x H Hw. inv_ok. read_facts. index_facts.
    eexists. split; [done|]. known_map. run_message. by destruct x.
Qed.

(** ** Invocations *)

Definition invocation_fits (i : ChronologMaterializationInvocation) : Prop :=
  match iv_previous i with Some x => input_fits x | None => True end ∧
  input_fits (iv_replayBase i) ∧ artifact_fits (iv_admittedSuffix i) ∧ artifact_fits (iv_executionManifest i) ∧
  match iv_continuation i with Some x => artifact_fits x | None => True end.

Lemma is_null_true v : is_null v = true ↔ v = CNull.
Proof. split; [by destruct v|by intros ->]. Qed.

(** The context of an invocation that was read. *)
Lemma context_written m g : encodable (CMap m) → assertKnownIntegerKeys m [0; 1; 2] = Ok tt →
  map_get (KInt 1) m = Some CNull → map_get (KInt 2) m = Some CNull → field (bytes_of_length 32) m 0 = Ok g →
  length g = 32%nat ∧
  same_encoding (CMap m) (CMap (integerMap [(0, Some (CBytes g)); (1, Some CNull); (2, Some CNull)])).
Proof. intros Hv Hk H1 H2 H. fields_written Hv. split; [done|]. same_record Hv; by constructor. Qed.

Lemma nullable_field_written {A} (from : CborValue → result CodecError A) to wf `{!StrictCodec from to wf} m k v x :
  encodable (CMap m) → map_get (KInt k) m = Some v → from v = Ok x → wf x ∧ ∃ w, to x = Ok w ∧ same_encoding v w.
Proof. intros Hm Hk. apply strict_written. by eapply encodable_field. Qed.

Lemma map_field m k c : field (λ v, coded (expectMap v)) m k = Ok c → map_get (KInt k) m = Some (CMap c).
Proof. unfold field. intros H. inv_ok. read_facts. rewrite expectMap_Ok, required_Ok in *. by subst. Qed.

Lemma invocation_written m i : encodable (CMap m) → invocationFromMap m = Ok i →
  invocation_fits i ∧ ∃ w, invocationToCbor i = Ok w ∧ same_encoding (CMap m) w.
Proof.
  unfold invocationFromMap. intros Hv H. inv_ok. subst. read_facts. rewrite is_null_true, required_Ok in *. subst.
  repeat match goal with H : expect_version _ _ _ = Ok ?u |- _ => destruct u; apply version_known in H end.
  rename select (field (λ v, coded (expectMap v)) m 2 = Ok _) into Hc. apply map_field in Hc.
  repeat match goal with H : assertKnownIntegerKeys _ _ = Ok ?u |- _ => is_var u; destruct u end.
  match goal with H : assertKnownIntegerKeys ?c [0; 1; 2] = Ok tt, H' : field (bytes_of_length 32) ?c 0 = Ok _ |- _ =>
    apply context_written in H' as [Hg Hcs]; [|by eapply encodable_field|done..]; clear H end.
  repeat match goal with
  | H : from_nullable _ _ = Ok _, Hk : map_get _ m = Some ?v |- _ =>
      match type of H with from_nullable _ v = _ =>
        apply (nullable_field_written _ _ _ _ _ _ _ Hv Hk) in H as (? & ? & ? & ?) end
  end.
  fields_written Hv. split; [by split_and!|]. eexists. split.
  - unfold invocationToCbor.
    cbn [iv_context iv_previous iv_replayBase iv_admittedSuffix iv_executionManifest iv_continuation iv_expectedEngineDigest
         iv_expectedExecutionManifestDigest iv_expectedPreviousOrderDigest iv_replayFromIndex iv_targetOrderLength
         iv_targetOrderDigest mc_groupId mc_logicalTimeMs mc_entropySeed].
    apply bind_unit. split; [holds|]. apply bind_unit; split; [done|]. apply bind_unit; split; [done|].
    do 3 (apply bind_unit; split; [holds|]). do 2 (apply bind_Ok; eexists; split; [by apply uint_index|]).
    run written_field. done.
  - same_record Hv; constructor; assumption.
Qed.

Lemma invocation_read w i : invocationToCbor i = Ok w → invocation_fits i →
  ∃ m, w = CMap m ∧ invocationFromMap m = Ok i.
Proof.
  unfold invocationToCbor, invocationFromMap, invocation_fits. intros H (Hp & Hb & Hs & Hm & Hc). inv_ok. read_facts. index_facts.
  rewrite bool_decide_eq_true in *. eexists. split; [done|]. known_map.
  do 2 (apply bind_unit; split; [read_check|]). apply bind_Ok. eexists. split; [read_part|].
  rewrite integerMap_known by (literal_nodup || done). cbn [coded mbind result_bind].
  do 4 (erewrite required_integerMap by read_side; cbn [coded mbind result_bind is_null schema ensure]).
  do 2 (apply bind_Ok; eexists; split; [read_part|]).
  apply bind_Ok; eexists; split; [apply strict_read; [eassumption|done]|].
  do 3 (apply bind_unit; split; [holds|]). do 2 (apply bind_Ok; eexists; split; [read_part|]).
  apply bind_unit; split; [holds|]. apply bind_Ok; eexists; split; [read_part|].
  apply bind_Ok; eexists; split; [apply strict_read; [eassumption|done]|].
  run_message. destruct i as [[g t e]]; simpl in *. by subst.
Qed.

#[export] Instance invocation_message : MessageCodec invocationFromMap invocationToCbor invocation_fits.
Proof. split; [apply invocation_written|apply invocation_read]. Qed.

(** ** Outcomes *)

Definition outcome_fits (o : ChronologMaterializationOutcome) : Prop :=
  match o with
  | completed c => database_fits (cp_outputDatabase c) ∧
      artifact_fits (cp_materializationManifest c) ∧ has_kind materialization_manifest (cp_materializationManifest c) = true ∧
      artifact_fits (cp_outcomeChanges c) ∧ has_kind outcome_changes (cp_outcomeChanges c) = true
  | unchanged u => database_fits (un_outputDatabase u) ∧
      artifact_fits (un_materializationManifest u) ∧ has_kind materialization_manifest (un_materializationManifest u) = true
  | checkpointed k => database_fits (ck_partialDatabase k) ∧
      artifact_fits (ck_continuation k) ∧ has_kind continuation_artifact (ck_continuation k) = true
  end.

(** The fields each kind of outcome has; the decoder accepts all nine for each. *)
Definition outcome_keys (o : ChronologMaterializationOutcome) : list Z :=
  match o with
  | completed _ => [0; 1; 2; 3; 4; 5; 6; 7; 8]
  | unchanged _ => [0; 1; 2; 3; 5; 6; 8]
  | checkpointed _ => [0; 1; 2; 3; 5; 6]
  end.

Lemma kind_field m k z : field (λ v, coded (expectBigint v)) m k = Ok z → map_get (KInt k) m = Some (CInt z).
Proof. unfold field. intros H. inv_ok. read_facts. rewrite required_Ok in *. by subst. Qed.

(** The fields of a kind, as a record of that kind writes them. *)
Lemma completed_written m c : encodable (CMap m) → completedFromMap m = Ok c →
  map_get (KInt 0) m = Some (CInt 1) → map_get (KInt 1) m = Some (CInt 1) →
  outcome_fits (completed c) ∧ ∃ w, completedToCbor c = Ok w ∧
    (assertKnownIntegerKeys m [0; 1; 2; 3; 4; 5; 6; 7; 8] = Ok tt → same_encoding (CMap m) w).
Proof.
  unfold completedFromMap. intros Hv H Hver Hkind. inv_ok. subst. read_facts. fields_written Hv.
  split; [by split_and!|]. eexists. split.
  - unfold completedToCbor. cbn [cp_outputDatabase cp_materializationManifest cp_outcomeChanges cp_orderLength
      cp_orderDigest cp_replayFromIndex cp_stateDigest]. run written_field. done.
  - intros Hk. same_record Hv; constructor; assumption.
Qed.

Lemma unchanged_written m u : encodable (CMap m) → unchangedFromMap m = Ok u →
  map_get (KInt 0) m = Some (CInt 1) → map_get (KInt 1) m = Some (CInt 2) →
  outcome_fits (unchanged u) ∧ ∃ w, unchangedToCbor u = Ok w ∧
    (assertKnownIntegerKeys m [0; 1; 2; 3; 5; 6; 8] = Ok tt → same_encoding (CMap m) w).
Proof.
  unfold unchangedFromMap. intros Hv H Hver Hkind. inv_ok. subst. read_facts. fields_written Hv.
  split; [by split_and!|]. eexists. split.
  - unfold unchangedToCbor. cbn [un_outputDatabase un_materializationManifest un_orderLength un_orderDigest un_stateDigest].
    run written_field. done.
  - intros Hk. same_record Hv; constructor; assumption.
Qed.

Lemma checkpointed_written m k : encodable (CMap m) → checkpointedFromMap m = Ok k →
  map_get (KInt 0) m = Some (CInt 1) → map_get (KInt 1) m = Some (CInt 3) →
  outcome_fits (checkpointed k) ∧ ∃ w, checkpointedToCbor k = Ok w ∧
    (assertKnownIntegerKeys m [0; 1; 2; 3; 5; 6] = Ok tt → same_encoding (CMap m) w).
Proof.
  unfold checkpointedFromMap. intros Hv H Hver Hkind. inv_ok. subst. read_facts. fields_written Hv.
  split; [by split_and!|]. eexists. split.
  - unfold checkpointedToCbor. cbn [ck_partialDatabase ck_continuation ck_nextOrderIndex ck_prefixOrderDigest].
    run written_field. done.
  - intros Hk. same_record Hv; constructor; assumption.
Qed.

Lemma outcome_written m o : encodable (CMap m) → outcomeFromMap m = Ok o →
  outcome_fits o ∧ ∃ w, outcomeToCbor o = Ok w ∧
    (assertKnownIntegerKeys m (outcome_keys o) = Ok tt → same_encoding (CMap m) w).
Proof.
  unfold outcomeFromMap. intros Hv H. inv_ok. read_facts.
  match goal with H : expect_version _ _ _ = Ok ?u |- _ => destruct u; apply version_known in H end.
  rename select (field _ m 1 = Ok _) into Hk. apply kind_field in Hk.
  repeat (case_match; [rewrite Z.eqb_eq in *; subst; inv_ok; subst|]).
  - by apply completed_written.
  - by apply unchanged_written.
  - inv_ok. read_facts. rewrite Z.eqb_eq in *. subst. by apply checkpointed_written.
Qed.

Lemma outcome_read w o : outcomeToCbor o = Ok w → outcome_fits o → ∃ m, w = CMap m ∧ outcomeFromMap m = Ok o.
Proof.
  unfold outcomeFromMap. destruct o as [c|u|k]; cbn [outcomeToCbor outcome_fits].
  - unfold completedToCbor. intros H Hw. destruct_and!. inv_ok. read_facts. index_facts. eexists. split; [done|]. known_map.
    apply bind_unit; split; [read_check|]. apply bind_Ok; eexists; split; [read_part|]. cbn [Z.eqb Pos.eqb].
    unfold completedFromMap. apply bind_Ok. exists c. split; [|done]. run_message. by destruct c.
  - unfold unchangedToCbor. intros H Hw. destruct_and!. inv_ok. read_facts. index_facts. eexists. split; [done|].
    rewrite integerMap_known; [|literal_nodup|by set_solver]. cbn [coded mbind result_bind].
    apply bind_unit; split; [read_check|]. apply bind_Ok; eexists; split; [read_part|]. cbn [Z.eqb Pos.eqb].
    unfold unchangedFromMap. apply bind_Ok. exists u. split; [|done]. run_message. by destruct u.
  - unfold checkpointedToCbor. intros H Hw. destruct_and!. inv_ok. read_facts. index_facts. eexists. split; [done|].
    rewrite integerMap_known; [|literal_nodup|by set_solver]. cbn [coded mbind result_bind].
    apply bind_unit; split; [read_check|]. apply bind_Ok; eexists; split; [read_part|]. cbn [Z.eqb Pos.eqb].
    apply bind_unit; split; [done|].
    unfold checkpointedFromMap. apply bind_Ok. exists k. split; [|done]. run_message. by destruct k.
Qed.

(** ** Within the decoder's limits

    The forms of this contract are records of bounded depth with small fields: what
    is written is in canonical order and within the materializer's limits. *)

#[export] Instance materializer_limits : RecordLimits MATERIALIZER_DECODE_LIMITS.
Proof. by split; vm_compute. Qed.

#[local] Abbreviation tidy := (CborTheorems.tidy MATERIALIZER_DECODE_LIMITS).

Lemma index_range {A} `{EqDecision A} (table : list A) `{!CodeTable table} x : 0 ≤ index_of table x < zlen table.
Proof.
  unfold index_of. destruct (list_find (λ y, y = x) table) as [[i y]|] eqn:Hf.
  - apply list_find_Some in Hf as (Hi & _ & _). apply lookup_lt_Some in Hi. unfold zlen. lia.
  - apply list_find_None in Hf. rewrite Forall_forall in Hf. by destruct (Hf x (table_complete x)).
Qed.

Ltac tidy_facts :=
  read_facts; index_facts; unfold safe_positive, UINT32_MAX in *; rewrite ?andb_true_iff, ?Z.ltb_lt, ?Z.leb_le in *.

Lemma content_id_tidy x w : contentIdToCbor x = Ok w → tidy 1 w.
Proof.
  unfold contentIdToCbor. intros H. inv_ok. subst. tidy_facts.
  pose proof (index_range HASH_ALGORITHMS (ci_algorithm x)) as Hi. change (zlen HASH_ALGORITHMS) with 3 in Hi.
  change 1 with (0 + 1). tidy_map.
Qed.

Lemma codec_id_tidy x w : codecIdToCbor x = Ok w → tidy 1 w.
Proof. unfold codecIdToCbor. intros H. inv_ok. subst. tidy_facts. change 1 with (0 + 1). tidy_map. Qed.

Lemma object_ref_tidy x w : exactObjectRefToCbor x = Ok w → tidy 2 w.
Proof.
  unfold exactObjectRefToCbor. intros H. inv_ok. subst.
  rename select (codecIdToCbor _ = Ok _) into Hc. rename select (contentIdToCbor _ = Ok _) into Hi.
  apply codec_id_tidy in Hc. apply content_id_tidy in Hi. change 2 with (1 + 1). tidy_map.
Qed.

Lemma dolt_chunk_tidy x w : doltChunkToCbor x = Ok w → tidy 2 w.
Proof.
  unfold doltChunkToCbor. intros H. inv_ok. subst. tidy_facts.
  rename select (contentIdToCbor _ = Ok _) into Hi. apply content_id_tidy in Hi. change 2 with (1 + 1). tidy_map.
Qed.

Lemma state_digest_tidy x w : stateDigestToCbor x = Ok w → tidy 2 w.
Proof.
  unfold stateDigestToCbor. intros H. inv_ok. subst. tidy_facts.
  rename select (contentIdToCbor _ = Ok _) into Hi. apply content_id_tidy in Hi. change 2 with (1 + 1). tidy_map.
Qed.

Lemma dolt_chunk_version x w : doltChunkToCbor x = Ok w → 0 < dc_doltFormatVersion x ≤ MAX_SAFE_INTEGER.
Proof. unfold doltChunkToCbor. intros H. inv_ok. tidy_facts. lia. Qed.

Lemma database_ref_tidy x w : exactDatabaseRefToCbor x = Ok w → tidy 3 w.
Proof.
  unfold exactDatabaseRefToCbor. intros H. inv_ok. subst. rewrite !schema_Ok, Z.eqb_eq in *.
  rename select (doltChunkToCbor (dr_commitHash x) = Ok _) into Hc.
  rename select (doltChunkToCbor (dr_canonicalGenesisCommit x) = Ok _) into Hg.
  rename select (stateDigestToCbor _ = Ok _) into Hs.
  apply dolt_chunk_version in Hc as Hver. apply dolt_chunk_tidy in Hc, Hg. apply state_digest_tidy in Hs.
  assert (dr_doltFormatVersion x = dc_doltFormatVersion (dr_commitHash x)) by (unfold schema, ensure in *; repeat case_match; lia).
  change 3 with (2 + 1). tidy_map.
Qed.

Lemma artifact_ref_tidy x w : exactArtifactRefToCbor x = Ok w → tidy 3 w.
Proof.
  unfold exactArtifactRefToCbor. intros H. inv_ok. subst. tidy_facts.
  rename select (exactObjectRefToCbor _ = Ok _) into Ho. apply object_ref_tidy in Ho.
  pose proof (index_range ARTIFACT_KINDS (ar_kind x)) as Hi. change (zlen ARTIFACT_KINDS) with 5 in Hi.
  change 3 with (2 + 1). tidy_map.
Qed.

Lemma input_tidy x w : inputToCbor x = Ok w → tidy 4 w.
Proof.
  unfold inputToCbor. intros H. inv_ok. subst.
  rename select (exactArtifactRefToCbor _ = Ok _) into Ha. rename select (exactDatabaseRefToCbor _ = Ok _) into Hd.
  apply artifact_ref_tidy in Ha. apply database_ref_tidy in Hd. change 4 with (3 + 1). tidy_map.
Qed.

Lemma nullable_tidy {A} (to : A → result CodecError CborValue) d o w : 0 ≤ d →
  (∀ x w, to x = Ok w → tidy d w) → to_nullable to o = Ok w → tidy d w.
Proof. intros Hd Hto. destruct o as [x|]; cbn [to_nullable]; [apply Hto|]. intros [= <-]. by apply tidy_null. Qed.

Lemma invocation_tidy x w : invocationToCbor x = Ok w → tidy 5 w.
Proof.
  unfold invocationToCbor. intros H. inv_ok. subst. read_facts. index_facts.
  repeat match goal with
  | H : to_nullable inputToCbor _ = Ok _ |- _ => apply (nullable_tidy _ 4 _ _ ltac:(lia) input_tidy) in H
  | H : to_nullable exactArtifactRefToCbor _ = Ok _ |- _ => apply (nullable_tidy _ 3 _ _ ltac:(lia) artifact_ref_tidy) in H
  | H : inputToCbor _ = Ok _ |- _ => apply input_tidy in H
  | H : exactArtifactRefToCbor _ = Ok _ |- _ => apply artifact_ref_tidy in H
  end.
  assert (tidy 1 (CMap (integerMap [(0, Some (CBytes (mc_groupId (iv_context x)))); (1, Some CNull); (2, Some CNull)])))
    by (change 1 with (0 + 1); tidy_map).
  change 5 with (4 + 1). tidy_map.
Qed.

Lemma continuation_tidy x w : continuationToCbor x = Ok w → tidy 4 w.
Proof.
  unfold continuationToCbor. intros H. inv_ok. subst. read_facts. index_facts.
  rename select (exactDatabaseRefToCbor _ = Ok _) into Hd. apply database_ref_tidy in Hd. change 4 with (3 + 1). tidy_map.
Qed.

Lemma observation_tidy x w : observationToCbor x = Ok w → tidy 2 w.
Proof.
  unfold observationToCbor. intros H. inv_ok. subst. read_facts. index_facts.
  rename select (contentIdToCbor _ = Ok _) into Hc. apply content_id_tidy in Hc. change 2 with (1 + 1). tidy_map.
Qed.

Lemma outcome_tidy o w : outcomeToCbor o = Ok w → tidy 4 w.
Proof.
  destruct o as [c|u|k]; cbn [outcomeToCbor]; unfold completedToCbor, unchangedToCbor, checkpointedToCbor;
    intros H; inv_ok; subst; read_facts; index_facts;
    repeat match goal with
    | H : exactDatabaseRefToCbor _ = Ok _ |- _ => apply database_ref_tidy in H
    | H : exactArtifactRefToCbor _ = Ok _ |- _ => apply artifact_ref_tidy in H
    | H : contentIdToCbor _ = Ok _ |- _ => apply content_id_tidy in H
    end; change 4 with (3 + 1); tidy_map.
Qed.

Lemma message_tidy {A} (from : IntegerMap → result CodecError A) to wf `{!MessageCodec from to wf} d b x :
  (∀ w, to x = Ok w → tidy d w) → d ≤ 64 → zlen b ≤ maxBlobBytes MATERIALIZER_DECODE_LIMITS →
  (m ← root MATERIALIZER_DECODE_LIMITS b; from m) = Ok x ↔ (v ← to x; coded (encodeCanonicalCbor v)) = Ok b ∧ wf x.
Proof.
  intros Htidy Hd Hlen. split; [apply message_decoded|]. intros [H Hw]. inv_ok. rename x0 into v. apply coded_Ok in H.
  rename select (to x = Ok v) into Hv. destruct (message_read _ _ Hv Hw) as (m & -> & Hm). unfold root.
  by rewrite (tidy_asserted d (CMap m) b) by (done || by apply Htidy).
Qed.

(** the codec of materialisation invocations.  Bytes (of at most the size of
    a byte string) are read as an invocation exactly when they are what that
    invocation is written as and its references are ones the decoder takes:
    format versions of 32 bits and manifests of the kind a materialisation
    manifest has.  The digest of an invocation, which a continuation is bound to,
    is therefore that of its content: the base, the suffix, the manifest and the
    target order it was made for. *)
Theorem invocation_codec b i : zlen b ≤ maxBlobBytes MATERIALIZER_DECODE_LIMITS →
  decodeMaterializationInvocation MATERIALIZER_DECODE_LIMITS b = Ok i ↔
  encodeMaterializationInvocation i = Ok b ∧ invocation_fits i.
Proof. intros Hlen. by apply (message_tidy invocationFromMap invocationToCbor _ 5); [apply invocation_tidy|..]. Qed.

Lemma continuation_codec_exact b c : zlen b ≤ maxBlobBytes MATERIALIZER_DECODE_LIMITS →
  decodeMaterializationContinuation MATERIALIZER_DECODE_LIMITS b = Ok c ↔
  encodeMaterializationContinuation c = Ok b ∧ database_fits (cn_partialDatabase c).
Proof. intros Hlen. by apply (message_tidy continuationFromMap continuationToCbor (λ c, database_fits (cn_partialDatabase c)) 4); [apply continuation_tidy|..]. Qed.

Lemma observation_codec_exact b o : zlen b ≤ maxBlobBytes MATERIALIZER_DECODE_LIMITS →
  decodeDifferentialObservation MATERIALIZER_DECODE_LIMITS b = Ok o ↔ encodeDifferentialObservation o = Ok b.
Proof.
  intros Hlen. etrans; [apply (message_tidy observationFromMap observationToCbor _ 2); [apply observation_tidy|done..]|].
  unfold encodeDifferentialObservation. tauto.
Qed.

(** The bytes hold a field that outcomes of this kind do not have. *)
Definition spare_fields (b : bytes) (o : ChronologMaterializationOutcome) : Prop :=
  ∃ m, root MATERIALIZER_DECODE_LIMITS b = Ok m ∧ assertKnownIntegerKeys m (outcome_keys o) ≠ Ok tt.

(** the codec of materialisation outcomes.  A completed, unchanged or
    checkpointed outcome whose references the decoder takes is read back from its
    bytes; and the bytes an outcome was read from are its encoding unless they
    hold a field that its kind does not have, which a completed outcome never
    does: two different byte strings can be read as the same unchanged or
    checkpointed outcome, but not as the same completed one. *)
Theorem outcome_codec b o : zlen b ≤ maxBlobBytes MATERIALIZER_DECODE_LIMITS →
  (encodeMaterializationOutcome o = Ok b → outcome_fits o →
     decodeMaterializationOutcome MATERIALIZER_DECODE_LIMITS b = Ok o) ∧
  (decodeMaterializationOutcome MATERIALIZER_DECODE_LIMITS b = Ok o →
     outcome_fits o ∧ (encodeMaterializationOutcome o = Ok b ∨ spare_fields b o)) ∧
  (∀ c, decodeMaterializationOutcome MATERIALIZER_DECODE_LIMITS b = Ok (completed c) → ¬ spare_fields b (completed c)).
Proof.
  intros Hlen. split_and!.
  - unfold encodeMaterializationOutcome, decodeMaterializationOutcome. intros H Hw. inv_ok. rename x into v. apply coded_Ok in H.
    rename select (outcomeToCbor o = Ok v) into Hv. destruct (outcome_read _ _ Hv Hw) as (m & -> & Hm). unfold root.
    by rewrite (tidy_asserted 4 (CMap m) b) by (done || by eapply outcome_tidy).
  - unfold decodeMaterializationOutcome. intros H. apply bind_Ok in H as (m & Hr & H).
    pose proof Hr as Hb. unfold root in Hb. inv_ok. read_facts. rewrite expectMap_Ok in *. subst.
    match goal with H : assertCanonicalCbor _ _ = Ok _ |- _ => apply assert_sound in H as Henc end.
    destruct (outcome_written m o) as (Hw & w & Hto & Hs); [by exists b|done|]. split; [done|].
    destruct (assertKnownIntegerKeys m (outcome_keys o)) as [[]|e] eqn:Hk; [left|right; exists m; split; [done|by rewrite Hk]].
    unfold encodeMaterializationOutcome. rewrite Hto. cbn [mbind result_bind]. apply coded_Ok.
    specialize (Hs eq_refl). unfold same_encoding in Hs. congruence.
  - intros c H (m & Hr & Hk). unfold decodeMaterializationOutcome in H. rewrite Hr in H. cbn [mbind result_bind] in H.
    unfold outcomeFromMap in H. inv_ok. read_facts. by destruct x.
Qed.

(** ** Admitted suffixes *)

(** The encoder checks a candidate against its own limits, which allow shorter
    arrays than those of the transaction decoder. *)
Definition candidate_within (t : AdmittedTransaction) : Prop :=
  ∃ v, assertCanonicalCbor MATERIALIZER_DECODE_LIMITS (ad_canonicalCandidate t) = Ok v.

(** The core of a transaction is what its candidate is read as. *)
Definition candidate_of (t : AdmittedTransaction) : Prop := decodeTransactionCore (ad_canonicalCandidate t) = Ok (ad_core t).

Lemma every_byte_same b : every_byte b b = true.
Proof. unfold every_byte. rewrite firstn_all. by apply bool_decide_eq_true. Qed.

Lemma candidate_nonempty t : candidate_within t → (0 <? length (ad_canonicalCandidate t))%nat = true.
Proof.
  intros [v Hv]. apply assert_sound, encode_size in Hv. unfold zlen in Hv. apply Nat.ltb_lt. lia.
Qed.

Lemma admitted_written v t : admittedTransactionFromCbor v = Ok t → checkAdmitted t = Ok tt → candidate_of t ∧
  (candidate_within t → admittedTransactionToCbor t = Ok v).
Proof.
  unfold admittedTransactionFromCbor, checkAdmitted. intros H Hc. inv_ok. subst. read_facts. split_items x0. simplify_eq.
  split; [done|]. intros Hin. pose proof (candidate_nonempty _ Hin) as Hne. destruct Hin as [cv Hcv].
  cbn [ad_canonicalCandidate ad_txId ad_authorFeedSequence] in *. unfold admittedTransactionToCbor.
  cbn [ad_txId ad_authorFeedSequence ad_candidateDigest ad_canonicalCandidate].
  do 4 (apply bind_unit; split; [holds|]). apply bind_Ok. exists cv. split; [by rewrite Hcv|].
  apply bind_Ok. eexists. split; [by apply coded_Ok, (assert_sound _ _ _ Hcv)|].
  apply bind_unit. split; [apply schema_Ok, every_byte_same|done].
Qed.

Lemma admitted_read v t : admittedTransactionToCbor t = Ok v → candidate_of t →
  admittedTransactionFromCbor v = Ok t ∧ checkAdmitted t = Ok tt ∧ candidate_within t.
Proof.
  unfold admittedTransactionToCbor, candidate_of. intros H Hcore. inv_ok. subst. read_facts. split_and!.
  - unfold admittedTransactionFromCbor. read_back. rewrite Hcore. cbn [mbind result_bind].
    destruct (transaction_exact _ _ Hcore) as [-> _]. cbn [mbind result_bind]. rewrite every_byte_same.
    cbn [schema ensure mbind result_bind]. read_back. by destruct t.
  - unfold checkAdmitted. apply bind_unit. split; holds.
  - eexists. eassumption.
Qed.

Lemma admitted_list_written items ts : mapR admittedTransactionFromCbor items = Ok ts → eachR checkAdmitted ts = Ok tt →
  Forall candidate_of ts ∧ (Forall candidate_within ts → mapR admittedTransactionToCbor ts = Ok items).
Proof.
  rewrite eachR_Ok, !mapR_Ok. induction 1 as [|v t items ts Hv _ IH]; [split; [done|constructor]|].
  intros [Hc Hcs]%Forall_cons. destruct (admitted_written _ _ Hv Hc) as [H1 H2], (IH Hcs) as [H3 H4].
  split; [by constructor|]. intros [? ?]%Forall_cons. constructor; auto.
Qed.

Lemma admitted_list_read items ts : mapR admittedTransactionToCbor ts = Ok items → Forall candidate_of ts →
  mapR admittedTransactionFromCbor items = Ok ts ∧ eachR checkAdmitted ts = Ok tt ∧ Forall candidate_within ts.
Proof.
  rewrite eachR_Ok, !mapR_Ok. induction 1 as [|t v ts items Hv _ IH]; [by intros _; split_and!|].
  intros [Hc Hcs]%Forall_cons. destruct (admitted_read _ _ Hv Hc) as (H1 & H2 & H3), (IH Hcs) as (H4 & H5 & H6).
  split_and!; by constructor.
Qed.

Lemma suffix_written m s : encodable (CMap m) → suffixFromMap m = Ok s →
  Forall candidate_of (su_transactions s) ∧
  (Forall candidate_within (su_transactions s) → ∃ w, suffixToCbor s = Ok w ∧ same_encoding (CMap m) w).
Proof.
  unfold suffixFromMap. intros Hv H. inv_ok. subst. read_facts.
  match goal with H : expect_version _ _ _ = Ok ?u |- _ => destruct u; apply version_known in H end.
  match goal with H : eachR _ _ = Ok ?u |- _ => destruct u end.
  rename select (field (λ v, coded (expectArray v)) m 5 = Ok _) into Hl. unfold field in Hl. inv_ok. read_facts.
  rewrite required_Ok in *. rename select (mapR _ _ = Ok _) into Hts.
  destruct (admitted_list_written _ _ Hts ltac:(done)) as [Hof Hwrite]. cbn [su_transactions].
  split; [done|]. intros Hin. specialize (Hwrite Hin). fields_written Hv. eexists. split.
  - unfold suffixToCbor. cbn [su_groupId su_replayFromIndex su_targetOrderLength su_targetOrderDigest su_transactions].
    apply bind_unit; split; [holds|]. do 2 (apply bind_Ok; eexists; split; [by apply uint_index|]).
    run written_field. done.
  - same_record Hv; constructor; assumption.
Qed.

Lemma suffix_read w s : suffixToCbor s = Ok w → Forall candidate_of (su_transactions s) →
  Forall candidate_within (su_transactions s) ∧ ∃ m, w = CMap m ∧ suffixFromMap m = Ok s.
Proof.
  unfold suffixToCbor, suffixFromMap. intros H Hof. inv_ok. read_facts. index_facts.
  rename select (mapR _ _ = Ok _) into Hts. destruct (admitted_list_read _ _ Hts Hof) as (Hread & Hchk & Hin).
  split; [done|]. eexists. split; [done|]. known_map. apply bind_unit; split; [read_check|].
  apply bind_Ok; eexists; split; [read_part|]. apply bind_Ok; eexists; split; [exact Hread|].
  run_message. by destruct s.
Qed.

(** Sequence numbers of 64 bits and no more transactions than an array may have. *)
Definition suffix_small (s : ChronologAdmittedSuffix) : Prop :=
  zlen (su_transactions s) ≤ maxArrayItems MATERIALIZER_DECODE_LIMITS ∧
  Forall (λ t, ad_authorFeedSequence t ≤ MAX_UINT64) (su_transactions s).

Lemma suffix_tidy s w : suffixToCbor s = Ok w → suffix_small s → tidy 3 w.
Proof.
  unfold suffixToCbor. intros H [Hn Hseq]. inv_ok. subst. read_facts. index_facts.
  match goal with H : mapR _ _ = Ok ?l |- _ => rename H into Hts, l into items end.
  pose proof (mapR_length _ _ _ Hts) as Hlen. apply mapR_Ok in Hts. assert (Forall (tidy 1) items) as Hitems.
  { clear -Hts Hseq. induction Hts as [|t v ts items Ht _ IH]; [done|]. apply Forall_cons in Hseq as [Hs Hseq].
    constructor; [|by apply IH]. unfold admittedTransactionToCbor in Ht. inv_ok. subst. read_facts.
    apply (tidy_array 0); [done|lia|].
    repeat (apply Forall_cons; split; [first [apply tidy_bytes; [apply _|lia] | apply tidy_int; [apply _|lia..]]|]); done. }
  assert (tidy 2 (CArray items)) by (apply (tidy_array 1); [unfold zlen in *; lia|lia|done]).
  change 3 with (2 + 1). tidy_map.
Qed.

(** the codec of admitted suffixes, the ordered transactions a materializer
    replays.  The transactions of a suffix that was read are the ones their
    candidate bytes encode, they continue the order from the replay index to its
    target length without a gap, and the suffix is written as the bytes it was
    read from, provided every candidate stays within the materializer's limits;
    conversely every suffix of such transactions is read back from its bytes. *)
Theorem suffix_codec b s : zlen b ≤ maxBlobBytes MATERIALIZER_DECODE_LIMITS → suffix_small s →
  (decodeAdmittedSuffix MATERIALIZER_DECODE_LIMITS b = Ok s ∧ Forall candidate_within (su_transactions s) ↔
   encodeAdmittedSuffix s = Ok b ∧ Forall candidate_of (su_transactions s)) ∧
  (decodeAdmittedSuffix MATERIALIZER_DECODE_LIMITS b = Ok s →
   su_replayFromIndex s + zlen (su_transactions s) = su_targetOrderLength s ∧
   Forall (λ t, encodeTransactionCore (ad_core t) = Ok (ad_canonicalCandidate t)) (su_transactions s)).
Proof.
  intros Hlen Hsmall. unfold decodeAdmittedSuffix, encodeAdmittedSuffix. split; [split|].
  - intros [H Hin]. unfold root in H. inv_ok. read_facts. rewrite expectMap_Ok in *. subst. rename x into m.
    match goal with H : assertCanonicalCbor _ _ = Ok _ |- _ => apply assert_sound in H as Henc end.
    destruct (suffix_written m s) as [Hof Hw]; [by exists b|done|]. destruct (Hw Hin) as (w & Hto & Hs). split; [|done].
    rewrite Hto. cbn [mbind result_bind]. apply coded_Ok. unfold same_encoding in Hs. congruence.
  - intros [H Hof]. inv_ok. rename x into v. apply coded_Ok in H. rename select (suffixToCbor s = Ok v) into Hv.
    destruct (suffix_read _ _ Hv Hof) as (Hin & m & -> & Hm). split; [|done]. unfold root.
    by rewrite (tidy_asserted 3 (CMap m) b) by (done || by eapply suffix_tidy).
  - intros H. unfold root in H. inv_ok. read_facts. rewrite expectMap_Ok in *. subst. rename x into m.
    match goal with H : assertCanonicalCbor _ _ = Ok _ |- _ => apply assert_sound in H as Henc end.
    destruct (suffix_written m s) as [Hof _]; [by exists b|done|]. split.
    + unfold suffixFromMap in *. inv_ok. subst. read_facts. rewrite Z.eqb_eq in *. done.
    + eapply Forall_impl; [exact Hof|]. intros t Ht. by apply transaction_exact.
Qed.

(** ** The digest of an admitted order *)

Definition frame (b : bytes) : bytes := length_frame b ++ b.

Lemma frame_app_inj a b u v : zlen a < 2 ^ 32 → zlen b < 2 ^ 32 → frame a ++ u = frame b ++ v → a = b ∧ u = v.
Proof.
  unfold frame, length_frame. rewrite <-!app_assoc. intros Ha Hb H.
  apply app_inj_1 in H as [Hl H]; [|by rewrite !be_bytes_length].
  apply (f_equal be_value) in Hl. rewrite !be_value_bytes in Hl.
  pose proof (zlen_nonneg a). pose proof (zlen_nonneg b). rewrite !Z.mod_small in Hl by (simpl; lia).
  apply app_inj_1 in H as [-> ->]; [done|]. unfold zlen in Hl. lia.
Qed.

Lemma frames_inj l1 : ∀ l2, Forall (λ b, zlen b < 2 ^ 32) l1 → Forall (λ b, zlen b < 2 ^ 32) l2 →
  mjoin (frame <$> l1) = mjoin (frame <$> l2) → l1 = l2.
Proof.
  induction l1 as [|a l1 IH]; intros [|b l2] H1 H2 H; [done|..].
  - by destruct (length_frame b) eqn:E; [|discriminate].
  - by destruct (length_frame a) eqn:E; [|discriminate].
  - apply Forall_cons in H1 as [Ha H1]. apply Forall_cons in H2 as [Hb H2].
    rewrite !fmap_cons in H. cbn [mjoin list_join] in H. apply frame_app_inj in H as [-> H]; [|done..].
    f_equal. by apply IH.
Qed.

Definition ORDER_DOMAIN : bytes := match utf8 (js "chronolog/admitted-order/v1") with Ok b => b | Err _ => [] end.

Lemma order_framed p : framedBytes (js "chronolog/admitted-order/v1") p = Ok (frame ORDER_DOMAIN ++ x00 :: p).
Proof.
  unfold framedBytes. assert (utf8 (js "chronolog/admitted-order/v1") = Ok ORDER_DOMAIN) as -> by (vm_compute; reflexivity).
  cbn [coded mbind result_bind]. rewrite !concatBytes_cons, concatBytes_nil, app_nil_r. unfold frame. by rewrite <-app_assoc.
Qed.

Lemma orderBytes_Ok ids b : orderBytes ids = Ok b ↔
  Forall (λ id, id ≠ []) ids ∧ b = frame ORDER_DOMAIN ++ x00 :: mjoin (frame <$> ids).
Proof.
  unfold orderBytes. split.
  - intros H. inv_ok. rename x into fs. rename select (mapR _ _ = Ok fs) into Hf. apply mapR_Ok in Hf.
    assert (Forall (λ id, id ≠ []) ids ∧ fs = frame <$> ids) as [Hne ->].
    { clear H. induction Hf as [|id f ids fs Hf _ [IH1 IH2]]; [done|]. inv_ok. read_facts. subst.
      split; [constructor; [by intros ->|done]|]. rewrite fmap_cons. f_equal.
      by rewrite !concatBytes_cons, concatBytes_nil, app_nil_r. }
    split; [done|]. rewrite order_framed in H. by apply Ok_inj in H.
  - intros [Hne ->]. rewrite (mapR_total _ frame).
    + cbn [mbind result_bind]. by rewrite order_framed.
    + eapply Forall_impl; [exact Hne|]. simpl. intros id Hid. rewrite (proj2 (schema_Ok _ tt)) by (by destruct id).
      cbn [mbind result_bind]. by rewrite !concatBytes_cons, concatBytes_nil, app_nil_r.
Qed.

(** the digest of an admitted order binds the whole order.  Two lists of
    transaction identifiers (of less than 4 GiB each) with the same digest are the
    same list, in the same order and cut at the same places, or the two byte
    strings that were hashed are a SHA-256 collision; there is a digest exactly
    when no identifier is empty. *)
Theorem order_digest_binds (sha256 : bytes → bytes) ids1 ids2 d :
  Forall (λ id, zlen id < 2 ^ 32) ids1 → Forall (λ id, zlen id < 2 ^ 32) ids2 →
  digestAdmittedOrder sha256 ids1 = Ok d → digestAdmittedOrder sha256 ids2 = Ok d →
  Forall (λ id, id ≠ []) ids1 ∧
  (ids1 = ids2 ∨ ∃ b1 b2, orderBytes ids1 = Ok b1 ∧ orderBytes ids2 = Ok b2 ∧ collision sha256 b1 b2).
Proof.
  unfold digestAdmittedOrder. intros L1 L2 (b1 & E1 & D1)%bind_Ok (b2 & E2 & D2)%bind_Ok.
  apply Ok_inj in D1, D2.
  pose proof E1 as [N1 F1]%orderBytes_Ok. pose proof E2 as [N2 F2]%orderBytes_Ok. split; [done|].
  destruct (decide (b1 = b2)) as [Heq|Hne]; [left|right; exists b1, b2; split_and!; [done..|]; split; [done|congruence]].
  rewrite F1, F2 in Heq. apply app_inv_head in Heq. injection Heq as Heq. by apply frames_inj.
Qed.

(** ** A small suffix *)

Definition sample_object (n : byte) : ExactObjectRef :=
  mkObjectRef [x61; n] (mkCodecId 1 0) (mkContentId sha2_256 (replicate 32 n)).
Definition sample_chunk (n : byte) : DoltChunkId := mkDoltChunkId 1 (mkContentId dolt_blake3_160 (replicate 20 n)).
Definition sample_database : ExactDatabaseRef :=
  mkDatabaseRef [x61] 1 (sample_chunk x01) (sample_chunk x02) (mkStateDigest 1 (mkContentId blake3_256 (replicate 32 x03))).
Definition sample_artifact (kind : ChronologArtifactKind) (n : byte) : ExactArtifactRef := mkArtifactRef kind 1 (sample_object n).
Definition sample_input : MaterializationInput :=
  mkMaterializationInput (sample_artifact materialization_manifest x04) sample_database.
Definition sample_invocation : ChronologMaterializationInvocation :=
  mkInvocation (mkMaterializationContext (replicate 32 x01) None None) None sample_input
    (sample_artifact admitted_suffix x05) (sample_artifact execution_manifest x06) None
    (replicate 32 x01) (replicate 32 x07) (replicate 32 x08) 2 3 (replicate 32 x09).

Ltac fits_concretely :=
  unfold invocation_fits, outcome_fits, input_fits, artifact_fits, database_fits, version_fits; simpl; split_and!;
  first [exact I | reflexivity | vm_compute; discriminate].

Lemma invocation_codec_witness : ∃ b, encodeMaterializationInvocation sample_invocation = Ok b ∧
  decodeMaterializationInvocation MATERIALIZER_DECODE_LIMITS b = Ok sample_invocation.
Proof.
  eexists. split; [vm_compute; reflexivity|]. apply invocation_codec.
  - vm_compute. discriminate.
  - split; [vm_compute; reflexivity|]. fits_concretely.
Defined.

Definition sample_suffix : ChronologAdmittedSuffix :=
  mkSuffix (replicate 32 x01) 2 3 (replicate 32 x09)
    [mkAdmitted [x01] 7 (replicate 32 x0a)
       (match encodeTransactionCore sample_core with Ok b => b | Err _ => [] end) sample_core].

Lemma suffix_codec_witness : ∃ b, encodeAdmittedSuffix sample_suffix = Ok b ∧
  decodeAdmittedSuffix MATERIALIZER_DECODE_LIMITS b = Ok sample_suffix.
Proof.
  eexists. split; [vm_compute; reflexivity|].
  refine (proj1 (proj2 (proj1 (suffix_codec _ sample_suffix _ _)) _)).
  - vm_compute. discriminate.
  - split; [vm_compute; discriminate|]. repeat constructor. vm_compute. discriminate.
  - split; [vm_compute; reflexivity|]. repeat constructor.
Defined.

Lemma order_digest_binds_witness : Forall (λ id : bytes, id ≠ []) [[x01]; [x02; x03]].
Proof.
  refine (proj1 (order_digest_binds id [[x01]; [x02; x03]] [[x01]; [x02; x03]] _ _ _ eq_refl _)).
  - repeat constructor.
  - repeat constructor.
  - vm_compute. reflexivity.
Defined.

Definition sample_unchanged : ChronologUnchangedMaterialization :=
  mkUnchanged sample_database (sample_artifact materialization_manifest x04) 3 (replicate 32 x09)
    (mkContentId sha2_256 (replicate 32 x0b)).

Lemma outcome_codec_witness : ∃ b, encodeMaterializationOutcome (unchanged sample_unchanged) = Ok b ∧
  decodeMaterializationOutcome MATERIALIZER_DECODE_LIMITS b = Ok (unchanged sample_unchanged).
Proof.
  eexists. split; [vm_compute; reflexivity|]. refine (proj1 (outcome_codec _ (unchanged sample_unchanged) _) _ _).
  - vm_compute. discriminate.
  - vm_compute. reflexivity.
  - fits_concretely.
Defined.

(** ** The exceptions *)

(** An unchanged outcome with a spare field 7 is read as the outcome without it. *)
Definition with_spare : result CodecError bytes :=
  v ← unchangedToCbor sample_unchanged;
  match v with CMap m => coded (encodeCanonicalCbor (CMap (m ++ [(KInt 7, CNull)]))) | _ => Err (Coded SCHEMA_INVALID) end.

Example outcome_two_forms : ∃ b b', encodeMaterializationOutcome (unchanged sample_unchanged) = Ok b ∧ with_spare = Ok b' ∧
  b ≠ b' ∧ decodeMaterializationOutcome MATERIALIZER_DECODE_LIMITS b' = Ok (unchanged sample_unchanged).
Proof.
  do 2 eexists. split_and!; [vm_compute; reflexivity..| |vm_compute; reflexivity]. vm_compute. discriminate.
Qed.

(** An input whose manifest is of another kind is written, but not read. *)
Example wrong_kind_written :
  (v ← inputToCbor (mkMaterializationInput (sample_artifact continuation_artifact x04) sample_database); inputFromCbor v) =
  Err (Coded SCHEMA_INVALID).
Proof. vm_compute. reflexivity. Qed.

(** A format version of more than 32 bits is written, but not read. *)
Example wide_version_written :
  (v ← exactArtifactRefToCbor (mkArtifactRef admitted_suffix (2 ^ 32) (sample_object x01)); exactArtifactRefFromCbor v) =
  Err (Coded INTEGER_OUT_OF_RANGE).
Proof. vm_compute. reflexivity. Qed.
