(* ===== verification/MaterializerRunner.v ===== *)
(** * Resolving an invocation: [packages/materializer/src/runner.ts] and [differential.ts]

    What a materializer does before it executes anything: read exactly the objects
    the invocation names, decode them and check them against the digests and
    positions the invocation pins.  The store the objects come from and the
    execution kernel are parameters; a reader works on a state of its own, so that
    any stateful store can be one.  The sample reader over a fixture and the
    comparison of backends on a fixture are those of [differential.ts]. *)

From Stdlib Require Import Strings.Byte Strings.String.
From stdpp Require Import base list option numbers.
From S2P Require Import Prelude JsMap Bytes Text JsNumber Cbor CborProofs Schema Domains Messages Logical Sql Transaction ExecManifest MaterializerCodec.

#[local] Open Scope Z_scope.

Inductive RunnerError :=
  | MATERIALIZER_EXACT_OBJECT_MISSING
  | MATERIALIZER_EXECUTION_MANIFEST_DIGEST_MISMATCH
  | MATERIALIZER_ENGINE_DIGEST_MISMATCH
  | MATERIALIZER_GROUP_MISMATCH
  | MATERIALIZER_SUFFIX_IDENTITY_MISMATCH
  | MATERIALIZER_TRANSACTION_GROUP_MISMATCH
  | MATERIALIZER_CANDIDATE_DIGEST_MISMATCH
  | MATERIALIZER_CONTINUATION_INVOCATION_MISMATCH
  | MATERIALIZER_CONTINUATION_POSITION_INVALID
  | MATERIALIZER_PURE_CONTEXT_INVALID
  | MATERIALIZER_OBJECT_TYPE_ALIAS
  | DIFFERENTIAL_EXACT_OBJECT_MISSING
  | DIFFERENTIAL_EXACT_OBJECT_REF_MISMATCH
  | DIFFERENTIAL_EXACT_OBJECT_DIGEST_MISMATCH
  | DIFFERENTIAL_OBJECT_VERIFIER_REQUIRED (algorithm : ContentHashAlgorithm)
  | DIFFERENTIAL_BACKEND_REQUIRED
  | DIFFERENTIAL_BACKEND_DUPLICATE (name : jsstring)
  | DIFFERENTIAL_BACKEND_NON_CANONICAL (name : jsstring)
  | DIFFERENTIAL_MISMATCH (fixtureName baseline candidate : jsstring)
  | RunnerCodec (e : CodecError)
  | ReaderFailed.

Definition runner_coded {A} (r : result CodecError A) : result RunnerError A :=
  match r with Ok a => Ok a | Err e => Err (RunnerCodec e) end.

(** A computation that does not touch the state. *)
Definition pure_run {S A} (r : result RunnerError A) : SE S RunnerError A := λ s, (s, r).

(** [if (!condition) throw new MaterializerContractError(code)] *)
Definition contract (condition : bool) (code : RunnerError) : result RunnerError unit := ensure condition code.

(** [ExactObjectReader]: the bytes of exactly the given reference, or an error. *)
Record ExactObjectReader (S : Type) := mkReader { readExact : ExactObjectRef → SE S RunnerError bytes }.
Arguments mkReader {S}.
Arguments readExact {S}.

Record ResolvedMaterializationInvocation := mkResolved {
  rv_invocation : ChronologMaterializationInvocation;
  rv_executionManifest : ExecutionManifest;
  rv_admittedSuffix : ChronologAdmittedSuffix;
  rv_continuation : option ChronologMaterializationContinuation;
  rv_exactReadSet : list ExactObjectRef;
}.

(** ** Identities *)

Definition algorithm_name (a : ContentHashAlgorithm) : jsstring :=
  js (match a with
      | sha2_256 => "sha2-256"
      | blake3_256 => "blake3-256"
      | dolt_blake3_160 => "dolt-blake3-160"
      end%string).

Definition bytesText (b : bytes) : jsstring := mjoin (hex_byte <$> b).

(** [[...].join(':')] *)
Definition objectIdentity (ref : ExactObjectRef) : jsstring :=
  bytesText (or_storeId ref) ++ [58] ++ js_decimal (co_number (or_codec ref)) ++ [58] ++
  js_decimal (co_version (or_codec ref)) ++ [58] ++ algorithm_name (ci_algorithm (or_contentId ref)) ++ [58] ++
  bytesText (ci_digest (or_contentId ref)).

(** The loop of [uniqueArtifacts]; [identities] and [result] grow together. *)
Fixpoint unique_from (identities : jsmap jsstring ExactArtifactRef) (result : list ExactArtifactRef)
    (artifacts : list ExactArtifactRef) : Prelude.result RunnerError (list ExactArtifactRef) :=
  match artifacts with
  | [] => Ok result
  | artifact :: artifacts' =>
      let identity := objectIdentity (ar_object artifact) in
      match map_get identity identities with
      | Some known =>
          contract (bool_decide (ar_kind known = ar_kind artifact) && (ar_formatVersion known =? ar_formatVersion artifact))
            MATERIALIZER_OBJECT_TYPE_ALIAS ≫= λ _,
          unique_from identities result artifacts'
      | None => unique_from (map_set identity artifact identities) (result ++ [artifact]) artifacts'
      end
  end.
Definition uniqueArtifacts (artifacts : list ExactArtifactRef) : Prelude.result RunnerError (list ExactArtifactRef) :=
  unique_from [] [] artifacts.

(** The references an invocation names, in the order of the code. *)
Definition requested (i : ChronologMaterializationInvocation) : list ExactArtifactRef :=
  omap id [mi_manifest <$> iv_previous i; Some (mi_manifest (iv_replayBase i)); Some (iv_admittedSuffix i);
           Some (iv_executionManifest i); iv_continuation i].

Definition assertPureV1Context (i : ChronologMaterializationInvocation) : result RunnerError unit :=
  contract (bool_decide (mc_logicalTimeMs (iv_context i) = None) && bool_decide (mc_entropySeed (iv_context i) = None))
    MATERIALIZER_PURE_CONTEXT_INVALID.

Section runner.
Context (toLowerCase : jsstring → jsstring) (sha256 : bytes → bytes).

(** ** Checks *)

Definition check_transaction (groupId : bytes) (t : AdmittedTransaction) : result RunnerError unit :=
  contract (sameBytes (tx_groupId (ad_core t)) groupId) MATERIALIZER_TRANSACTION_GROUP_MISMATCH ≫= λ _,
  digest ← runner_coded (coded (transactionDigest sha256 (ad_canonicalCandidate t)));
  contract (sameBytes digest (ad_candidateDigest t)) MATERIALIZER_CANDIDATE_DIGEST_MISMATCH.

Definition check_continuation (i : ChronologMaterializationInvocation)
    (continuation : option ChronologMaterializationContinuation) : result RunnerError unit :=
  match continuation with
  | None => Ok tt
  | Some c =>
      digest ← runner_coded (digestMaterializationInvocation sha256 i);
      contract (sameBytes (cn_invocationDigest c) digest) MATERIALIZER_CONTINUATION_INVOCATION_MISMATCH ≫= λ _,
      contract (negb ((cn_nextOrderIndex c <? iv_replayFromIndex i) || (iv_targetOrderLength i <? cn_nextOrderIndex c)))
        MATERIALIZER_CONTINUATION_POSITION_INVALID
  end.

(** Everything that is done with the bytes once they are read. *)
Definition resolve_with (i : ChronologMaterializationInvocation) (unique : list ExactArtifactRef)
    (bytesByIdentity : jsmap jsstring bytes) : result RunnerError ResolvedMaterializationInvocation :=
  let bytesFor (artifact : ExactArtifactRef) : result RunnerError bytes :=
    match map_get (objectIdentity (ar_object artifact)) bytesByIdentity with
    | Some b => Ok b
    | None => Err MATERIALIZER_EXACT_OBJECT_MISSING
    end in
  executionManifest ← (b ← bytesFor (iv_executionManifest i);
                       runner_coded (decodeExecutionManifest toLowerCase IR_DECODE_LIMITS b));
  admittedSuffix ← (b ← bytesFor (iv_admittedSuffix i);
                    runner_coded (decodeAdmittedSuffix MATERIALIZER_DECODE_LIMITS b));
  continuation ← match iv_continuation i with
                 | None => Ok None
                 | Some ref => b ← bytesFor ref;
                     c ← runner_coded (decodeMaterializationContinuation MATERIALIZER_DECODE_LIMITS b);
                     Ok (Some c)
                 end;
  manifestDigest ← runner_coded (digestExecutionManifest toLowerCase sha256 executionManifest);
  contract (sameBytes manifestDigest (iv_expectedExecutionManifestDigest i))
    MATERIALIZER_EXECUTION_MANIFEST_DIGEST_MISMATCH ≫= λ _,
  contract (sameBytes (em_engineDigest executionManifest) (iv_expectedEngineDigest i))
    MATERIALIZER_ENGINE_DIGEST_MISMATCH ≫= λ _,
  contract (sameBytes (su_groupId admittedSuffix) (mc_groupId (iv_context i))) MATERIALIZER_GROUP_MISMATCH ≫= λ _,
  contract ((su_replayFromIndex admittedSuffix =? iv_replayFromIndex i) &&
            (su_targetOrderLength admittedSuffix =? iv_targetOrderLength i) &&
            sameBytes (su_targetOrderDigest admittedSuffix) (iv_targetOrderDigest i))
    MATERIALIZER_SUFFIX_IDENTITY_MISMATCH ≫= λ _,
  mapR (check_transaction (mc_groupId (iv_context i))) (su_transactions admittedSuffix) ≫= λ _,
  check_continuation i continuation ≫= λ _,
  exactReadSet ← runner_coded (sort_by_ref id (ar_object <$> unique));
  Ok (mkResolved i executionManifest admittedSuffix continuation exactReadSet).

(** ** Reading *)

Section reading.
Context {S : Type} (objects : ExactObjectReader S).

(** [for (const artifact of unique) bytesByIdentity.set(..., await objects.readExact(...))] *)
Fixpoint read_all (bytesByIdentity : jsmap jsstring bytes) (unique : list ExactArtifactRef) :
    SE S RunnerError (jsmap jsstring bytes) :=
  match unique with
  | [] => mret bytesByIdentity
  | artifact :: unique' =>
      b ← readExact objects (ar_object artifact);
      read_all (map_set (objectIdentity (ar_object artifact)) b bytesByIdentity) unique'
  end.

Definition resolveDecodedMaterializationInvocation (i : ChronologMaterializationInvocation) :
    SE S RunnerError ResolvedMaterializationInvocation :=
  _ ← pure_run (assertPureV1Context i);
  unique ← pure_run (uniqueArtifacts (requested i));
  bytesByIdentity ← read_all [] unique;
  pure_run (resolve_with i unique bytesByIdentity).

Definition resolveMaterializationInvocation (invocationBytes : bytes) :
    SE S RunnerError ResolvedMaterializationInvocation :=
  i ← pure_run (runner_coded (decodeMaterializationInvocation MATERIALIZER_DECODE_LIMITS invocationBytes));
  resolveDecodedMaterializationInvocation i.

Definition runMaterializationInvocation
    (materialize : ResolvedMaterializationInvocation → SE S RunnerError ChronologMaterializationOutcome)
    (invocationBytes : bytes) : SE S RunnerError ChronologMaterializationOutcome :=
  resolved ← resolveMaterializationInvocation invocationBytes;
  materialize resolved.
End reading.

(** ** Fixtures: [differential.ts] *)

(** [`${text(storeId)}:${number}:${version}:${algorithm}:${text(digest)}`] *)
Definition identity (ref : ExactObjectRef) : jsstring :=
  bytesText (or_storeId ref) ++ js ":" ++ js_decimal (co_number (or_codec ref)) ++ js ":" ++
  js_decimal (co_version (or_codec ref)) ++ js ":" ++ algorithm_name (ci_algorithm (or_contentId ref)) ++ js ":" ++
  bytesText (ci_digest (or_contentId ref)).

Definition sameRef (left right : ExactObjectRef) : bool :=
  sameBytes (or_storeId left) (or_storeId right) &&
  (co_number (or_codec left) =? co_number (or_codec right)) &&
  (co_version (or_codec left) =? co_version (or_codec right)) &&
  bool_decide (ci_algorithm (or_contentId left) = ci_algorithm (or_contentId right)) &&
  sameBytes (ci_digest (or_contentId left)) (ci_digest (or_contentId right)).

Definition verifyBuiltIn (ref : ExactObjectRef) (b : bytes) : result RunnerError bool :=
  contract (bool_decide (ci_algorithm (or_contentId ref) = sha2_256))
    (DIFFERENTIAL_OBJECT_VERIFIER_REQUIRED (ci_algorithm (or_contentId ref))) ≫= λ _,
  Ok (sameBytes (sha256 b) (ci_digest (or_contentId ref))).

(** [ExactObjectVerifier], when one is given. *)
Definition ExactObjectVerifier : Type := ExactObjectRef → bytes → result RunnerError bool.

Definition createFixtureObjectReader {S} (fixture : DifferentialMaterializationFixture)
    (verifier : option ExactObjectVerifier) : ExactObjectReader S :=
  let objects := map_of_entries ((λ object, (identity (fo_ref object), object)) <$> fx_objects fixture) in
  mkReader (λ ref, pure_run (
    object ← match map_get (identity ref) objects with Some o => Ok o | None => Err DIFFERENTIAL_EXACT_OBJECT_MISSING end;
    contract (sameRef ref (fo_ref object)) DIFFERENTIAL_EXACT_OBJECT_REF_MISMATCH ≫= λ _,
    valid ← match verifier with
            | None => verifyBuiltIn ref (fo_bytes object)
            | Some verify => verify ref (fo_bytes object)
            end;
    contract valid DIFFERENTIAL_EXACT_OBJECT_DIGEST_MISMATCH ≫= λ _,
    Ok (fo_bytes object))).

Section backends.
Context {S : Type}.

Record DifferentialMaterializerBackend := mkBackend {
  bk_name : jsstring;
  bk_run : bytes → SE S RunnerError bytes;
}.

Definition createInProcessDifferentialBackend (name : jsstring)
    (materialize : ResolvedMaterializationInvocation → SE S RunnerError ChronologMaterializationOutcome)
    (project : ChronologMaterializationOutcome → ResolvedMaterializationInvocation → SE S RunnerError DifferentialObservation)
    (verifier : option ExactObjectVerifier) : DifferentialMaterializerBackend :=
  mkBackend name (λ fixtureBytes,
    fixture ← pure_run (runner_coded (decodeDifferentialFixture MATERIALIZER_DECODE_LIMITS fixtureBytes));
    resolved ← resolveMaterializationInvocation (createFixtureObjectReader fixture verifier) (fx_invocation fixture);
    outcome ← materialize resolved;
    observation ← project outcome resolved;
    pure_run (runner_coded (encodeDifferentialObservation observation))).

(** The loop over the backends: [baseline] is the first canonical answer and the
    name it came from. *)
Fixpoint run_backends (fixtureName : jsstring) (fixtureBytes : bytes) (baseline : option (bytes * jsstring))
    (results : jsmap jsstring DifferentialObservation) (backends : list DifferentialMaterializerBackend) :
    SE S RunnerError (jsmap jsstring DifferentialObservation) :=
  match backends with
  | [] => mret results
  | backend :: backends' =>
      _ ← pure_run (contract (negb (map_has (bk_name backend) results)) (DIFFERENTIAL_BACKEND_DUPLICATE (bk_name backend)));
      resolved ← bk_run backend fixtureBytes;
      observation ← pure_run (runner_coded (decodeDifferentialObservation MATERIALIZER_DECODE_LIMITS resolved));
      canonical ← pure_run (runner_coded (encodeDifferentialObservation observation));
      _ ← pure_run (contract (sameBytes canonical resolved) (DIFFERENTIAL_BACKEND_NON_CANONICAL (bk_name backend)));
      baseline' ← pure_run (match baseline with
        | None => Ok (canonical, bk_name backend)
        | Some (baselineBytes, baselineName) =>
            contract (sameBytes baselineBytes canonical)
              (DIFFERENTIAL_MISMATCH fixtureName baselineName (bk_name backend)) ≫= λ _,
            Ok (baselineBytes, baselineName)
        end);
      run_backends fixtureName fixtureBytes (Some baseline') (map_set (bk_name backend) observation results) backends'
  end.

Definition runDifferentialFixture (fixture : DifferentialMaterializationFixture)
    (backends : list DifferentialMaterializerBackend) : SE S RunnerError (jsmap jsstring DifferentialObservation) :=
  _ ← pure_run (contract (negb (length backends =? 0)%nat) DIFFERENTIAL_BACKEND_REQUIRED);
  fixtureBytes ← pure_run (runner_coded (encodeDifferentialFixture fixture));
  run_backends (fx_name fixture) fixtureBytes None [] backends.
End backends.
End runner.
