(* ===== verification/RunnerTheorems.v ===== *)
(** * Resolved invocations: exactly the named objects, exactly the pinned content

    An invocation that resolves was given the objects it names and no others, each
    read once; what was decoded from them has the digests and positions the
    invocation pins.  Backends that pass a differential fixture answered with the
    same observation. *)

From Stdlib Require Import Strings.Byte Strings.String Sorting.Sorted.
From stdpp Require Import base list option numbers sets sorting.
From S2P Require Import Prelude JsMap Bytes Text JsNumber Cbor CborProofs CborTheorems Schema Domains Messages Logical LogicalTheorems Sql SqlProofs SqlTheorems Transaction ExecManifest ExecManifestTheorems MaterializerCodec MaterializerTheorems MaterializerRunner.

#[local] Open Scope Z_scope.

Lemma sameBytes_spec a b : sameBytes a b = true ↔ a = b.
Proof. apply equalBytes_spec. Qed.

Lemma runner_coded_Ok {A} (r : result CodecError A) a : runner_coded r = Ok a ↔ r = Ok a.
Proof. destruct r; simpl; naive_solver. Qed.

Lemma contract_Ok c e u : contract c e = Ok u ↔ c = true.
Proof. apply ensure_Ok. Qed.

(** ** Identities *)

(** Text before the first colon. *)
Lemma colon_split (a b r t : jsstring) : 58 ∉ a → 58 ∉ b → a ++ 58 :: r = b ++ 58 :: t → a = b ∧ r = t.
Proof.
  revert b. induction a as [|x a IH]; intros [|y b] Ha Hb Heq; simplify_eq/=.
  - done.
  - destruct Hb. left.
  - destruct Ha. left.
  - destruct (IH b) as [-> ->]; [intros ?; apply Ha; by right|intros ?; apply Hb; by right|done|done].
Qed.

Lemma hex_digit_colon n : 0 ≤ n < 16 → hex_digit n ≠ 58.
Proof. unfold hex_digit. intros. case_match; lia. Qed.

Lemma bytesText_colon b : 58 ∉ bytesText b.
Proof.
  unfold bytesText. induction b as [|x b IH]; [apply not_elem_of_nil|]. rewrite fmap_cons. cbn [mjoin list_join].
  pose proof (val_range x). rewrite elem_of_app. intros [Hc|Hc]; [|done]. unfold hex_byte in Hc.
  apply elem_of_cons in Hc as [Hc|Hc]; [|apply list_elem_of_singleton in Hc]; symmetry in Hc; revert Hc; apply hex_digit_colon.
  - split; [apply Z.div_pos; lia|apply Z.div_lt_upper_bound; lia].
  - apply Z.mod_pos_bound. lia.
Qed.

Lemma bytesText_inj a b : bytesText a = bytesText b → a = b.
Proof. apply bytesToHex_inj. Qed.

Lemma decimal_colon n : 0 ≤ n → 58 ∉ js_decimal n.
Proof.
  intros Hn Hin. destruct (js_decimal_nonneg n Hn) as (_ & H & _). rewrite forallb_forall in H.
  by apply list_elem_of_In, H in Hin.
Qed.

Lemma algorithm_colon a : 58 ∉ algorithm_name a.
Proof. destruct a; by apply (bool_decide_unpack _). Qed.

Lemma algorithm_name_inj a b : algorithm_name a = algorithm_name b → a = b.
Proof. by destruct a, b. Qed.

(** A reference whose codec has natural numbers, as every decoded one has. *)
Definition ref_natural (ref : ExactObjectRef) : Prop := 0 ≤ co_number (or_codec ref) ∧ 0 ≤ co_version (or_codec ref).

Lemma objectIdentity_inj r1 r2 : ref_natural r1 → ref_natural r2 → objectIdentity r1 = objectIdentity r2 → r1 = r2.
Proof.
  unfold objectIdentity. cbn [app]. intros [N1 V1] [N2 V2] H.
  apply colon_split in H as [Hs H]; [|apply bytesText_colon..]. apply bytesText_inj in Hs.
  apply colon_split in H as [Hn H]; [|by apply decimal_colon..]. apply js_decimal_inj in Hn; [|done..].
  apply colon_split in H as [Hv H]; [|by apply decimal_colon..]. apply js_decimal_inj in Hv; [|done..].
  apply colon_split in H as [Ha Hd]; [|apply algorithm_colon..]. apply algorithm_name_inj in Ha. apply bytesText_inj in Hd.
  destruct r1 as [s1 [n1 v1] [a1 d1]], r2 as [s2 [n2 v2] [a2 d2]]; simpl in *. congruence.
Qed.

Lemma identity_same ref : identity ref = objectIdentity ref.
Proof. done. Qed.

(** ** Unique artifacts *)

Definition artifact_natural (a : ExactArtifactRef) : Prop := ref_natural (ar_object a).

(** What the loop maintains: the map finds the artifacts collected so far. *)
Definition collected (ids : jsmap jsstring ExactArtifactRef) (u : list ExactArtifactRef) : Prop :=
  NoDup (ar_object <$> u) ∧ Forall artifact_natural u ∧
  ∀ key a, map_get key ids = Some a ↔ a ∈ u ∧ key = objectIdentity (ar_object a).

Lemma collected_fresh ids u a : collected ids u → artifact_natural a → map_get (objectIdentity (ar_object a)) ids = None →
  collected (map_set (objectIdentity (ar_object a)) a ids) (u ++ [a]).
Proof.
  intros (Hnd & Hnat & Hids) Ha Hnone.
  assert (∀ x, x ∈ u → ar_object x ≠ ar_object a) as Hfresh.
  { intros x Hx Heq. assert (map_get (objectIdentity (ar_object a)) ids = Some x); [|congruence].
    apply Hids. by rewrite <-Heq. }
  split_and!.
  - rewrite fmap_app. apply NoDup_app. split_and!; [done| |apply NoDup_singleton].
    intros o (x & -> & Hx)%list_elem_of_fmap Ho%list_elem_of_singleton. by apply (Hfresh x).
  - apply Forall_app. by split; [|constructor].
  - intros key x. rewrite elem_of_app, list_elem_of_singleton.
    destruct (decide (key = objectIdentity (ar_object a))) as [->|Hne].
    + rewrite map_get_set_eq. split; [intros [= <-]; by split; [right|]|].
      intros [[Hx| ->] Hkey]; [|done]. exfalso. apply (Hfresh x Hx). symmetry. rewrite Forall_forall in Hnat.
      apply objectIdentity_inj; [done|by apply Hnat|done].
    + rewrite map_get_set_ne by done. rewrite Hids. split; [intros [? ?]; by split; [left|]|].
      intros [[Hx| ->] Hkey]; [done|]. done.
Qed.

Lemma unique_from_Ok ids u l u' : collected ids u → Forall artifact_natural l → unique_from ids u l = Ok u' →
  NoDup (ar_object <$> u') ∧ ∀ a, a ∈ u' ↔ a ∈ u ∨ a ∈ l.
Proof.
  revert ids u. induction l as [|a l IH]; intros ids u Hc Hl; cbn [unique_from].
  - intros [= <-]. destruct Hc as [? _]. split; [done|]. intros a. split; [by left|]. intros [?|?%elem_of_nil]; done.
  - apply Forall_cons in Hl as [Ha Hl]. destruct (map_get (objectIdentity (ar_object a)) ids) as [known|] eqn:E.
    + intros (_ & Hsame%contract_Ok & H)%bind_Ok. apply andb_true_iff in Hsame as [Hk%bool_decide_eq_true Hv%Z.eqb_eq].
      assert (known = a) as ->.
      { destruct Hc as (_ & Hnat & Hids). apply Hids in E as [Hin Heq]. rewrite Forall_forall in Hnat.
        apply objectIdentity_inj in Heq; [|done|by apply Hnat]. destruct known, a; simpl in *; congruence. }
      assert (a ∈ u) by (by apply Hc in E as [? _]).
      destruct (IH _ _ Hc Hl H) as [? Hu]. split; [done|]. intros x. rewrite Hu, elem_of_cons. naive_solver.
    + intros H. destruct (IH _ _ (collected_fresh _ _ _ Hc Ha E) Hl H) as [? Hu]. split; [done|].
      intros x. rewrite Hu, elem_of_cons, elem_of_app, list_elem_of_singleton. naive_solver.
Qed.

Lemma uniqueArtifacts_Ok l u : Forall artifact_natural l → uniqueArtifacts l = Ok u →
  NoDup (ar_object <$> u) ∧ ∀ a, a ∈ u ↔ a ∈ l.
Proof.
  intros Hl H. destruct (unique_from_Ok [] [] l u) as [? Hu]; [|done..|].
  - split_and!; [constructor..|]. intros key a. rewrite elem_of_nil. by split; [|intros [? _]].
  - split; [done|]. intros a. rewrite Hu, elem_of_nil. naive_solver.
Qed.

(** ** Reading *)

(** A reader that records what it is asked for. *)
Definition recording {S} (objects : ExactObjectReader S) : ExactObjectReader (S * list ExactObjectRef) :=
  mkReader (λ ref s, let (s', r) := readExact objects ref s.1 in ((s', s.2 ++ [ref]), r)).

Section reading_proofs.
Context {S : Type} (objects : ExactObjectReader S).

(** The references are asked for one by one, up to the first that fails. *)
Lemma read_all_log m unique s log s' log' r :
  read_all (recording objects) m unique (s, log) = ((s', log'), r) →
  ∃ n, log' = log ++ take n (ar_object <$> unique) ∧ ((∃ m', r = Ok m') → n = length unique).
Proof.
  revert m s log. induction unique as [|a unique IH]; intros m s log; cbn [read_all].
  - unfold mret, SE_ret. intros [= <- <- <-]. exists 0%nat. by rewrite take_0, app_nil_r.
  - unfold mbind, SE_bind. cbn [readExact recording fst snd].
    destruct (readExact objects (ar_object a) s) as [s1 [b|e]] eqn:E.
    + intros H. apply IH in H as (n & -> & Hn). exists (Datatypes.S n). rewrite fmap_cons. cbn [take length].
      rewrite <-app_assoc. split; [done|]. intros Hr. by rewrite Hn.
    + intros [= <- <- <-]. exists 1%nat. rewrite fmap_cons. cbn [take]. rewrite take_0. split; [done|]. by intros [? [=]].
Qed.

(** After the loop the map holds, for every artifact, bytes the reader gave for it. *)
Definition given (ref : ExactObjectRef) (b : bytes) : Prop := ∃ s s', readExact objects ref s = (s', Ok b).

Lemma read_all_given m unique s s' m' :
  (∀ key b, map_get key m = Some b → ∃ ref, key = objectIdentity ref ∧ ref_natural ref ∧ given ref b) →
  Forall artifact_natural unique → read_all objects m unique s = (s', Ok m') →
  (∀ key b, map_get key m' = Some b → ∃ ref, key = objectIdentity ref ∧ ref_natural ref ∧ given ref b).
Proof.
  revert m s. induction unique as [|a unique IH]; intros m s Hm Hnat; cbn [read_all].
  - unfold mret, SE_ret. by intros [= <- <-].
  - apply Forall_cons in Hnat as [Ha Hnat]. unfold mbind, SE_bind.
    destruct (readExact objects (ar_object a) s) as [s1 [b|e]] eqn:E; [|done]. apply IH; [|done].
    intros key c. destruct (decide (key = objectIdentity (ar_object a))) as [->|Hne].
    + rewrite map_get_set_eq. intros [= <-]. exists (ar_object a). split_and!; [done..|]. by exists s, s1.
    + rewrite map_get_set_ne by done. apply Hm.
Qed.
End reading_proofs.

(** ** Resolution *)

Lemma sort_by_ref_perm {A} (ref : A → ExactObjectRef) l l' : sort_by_ref ref l = Ok l' → l' ≡ₚ l.
Proof.
  unfold sort_by_ref. case_match; [by intros [= <-]|]. intros (keyed & Hk & [= <-])%bind_Ok.
  rewrite js_sort_perm. apply mapR_Ok in Hk.
  assert (keyed.*2 = l) as ->; [|done]. clear -Hk. induction Hk as [|x p l ps Hp _ IH]; [done|].
  rewrite fmap_cons, IH. inv_ok. by subst.
Qed.

Section resolution.
Context (toLowerCase : jsstring → jsstring) (sha256 : bytes → bytes).

Lemma resolve_steps {S} (objects : ExactObjectReader S) i s s' v :
  resolveDecodedMaterializationInvocation toLowerCase sha256 objects i s = (s', Ok v) →
  ∃ u m, assertPureV1Context i = Ok tt ∧ uniqueArtifacts (requested i) = Ok u ∧
    read_all objects [] u s = (s', Ok m) ∧ resolve_with toLowerCase sha256 i u m = Ok v.
Proof.
  unfold resolveDecodedMaterializationInvocation, mbind, SE_bind, pure_run.
  destruct (assertPureV1Context i) as [[]|]; [|done]. destruct (uniqueArtifacts (requested i)) as [u|]; [|done].
  destruct (read_all objects [] u s) as [s1 [m|]] eqn:E; [|done]. intros [= <- Hv]. eauto 10.
Qed.

(** What the read set of a resolved invocation is. *)
Lemma resolve_with_read_set i u m v : resolve_with toLowerCase sha256 i u m = Ok v →
  rv_exactReadSet v ≡ₚ ar_object <$> u.
Proof.
  unfold resolve_with. intros H. inv_ok. subst. cbn [rv_exactReadSet]. rewrite runner_coded_Ok in *.
  by eapply sort_by_ref_perm.
Qed.

Lemma decoded_reads {S} (objects : ExactObjectReader S) i s s' log r :
  Forall artifact_natural (requested i) →
  resolveDecodedMaterializationInvocation toLowerCase sha256 (recording objects) i (s, []) = ((s', log), r) →
  NoDup log ∧ (∀ ref, ref ∈ log → ref ∈ ar_object <$> requested i) ∧
  (∀ v, r = Ok v → log ≡ₚ rv_exactReadSet v ∧ ∀ ref, ref ∈ ar_object <$> requested i → ref ∈ log).
Proof.
  intros Hnat H. destruct (uniqueArtifacts (requested i)) as [u|e] eqn:Hu.
  2: { unfold resolveDecodedMaterializationInvocation, mbind, SE_bind, pure_run in H. rewrite Hu in H.
       destruct (assertPureV1Context i) as [[]|]; injection H as <- <- <-;
         (split_and!; [constructor|by intros ? ?%elem_of_nil|done]). }
  destruct (uniqueArtifacts_Ok _ _ Hnat Hu) as [Hnd Hin].
  assert (∀ ref, ref ∈ ar_object <$> u ↔ ref ∈ ar_object <$> requested i) as Hrefs.
  { intros ref. rewrite !list_elem_of_fmap. by setoid_rewrite Hin. }
  assert (∃ n, log = take n (ar_object <$> u) ∧ ((∃ v, r = Ok v) → n = length u)) as (n & Hlog & Hn).
  { unfold resolveDecodedMaterializationInvocation, mbind, SE_bind, pure_run in H. rewrite Hu in H.
    destruct (assertPureV1Context i) as [[]|]; [|injection H as <- <- <-; exists 0%nat; split; [done|by intros [? [=]]]].
    destruct (read_all (recording objects) [] u (s, [])) as [[s1 log1] r1] eqn:E.
    destruct (read_all_log _ _ _ _ _ _ _ _ E) as (n & Hl & Hn). cbn [app] in Hl. subst log1. exists n.
    destruct r1; injection H as <- <- <-; (split; [done|]); [intros _; apply Hn; eauto|by intros [? [=]]]. }
  subst log. split_and!.
  - eapply sublist_NoDup; [exact Hnd|]. apply sublist_take.
  - intros ref (k & Hk & _)%elem_of_take. by apply Hrefs, (list_elem_of_lookup_2 _ k).
  - intros v ->. rewrite (Hn ltac:(eauto)), firstn_all2 by (by rewrite length_fmap).
    apply resolve_steps in H as (u' & m & _ & Hu' & _ & Hv). assert (u' = u) as -> by congruence.
    split; [symmetry; by eapply resolve_with_read_set|]. intros ref. by rewrite Hrefs.
Qed.

(** What a resolved invocation holds, of what the invocation pins. *)
Record pinned {S} (objects : ExactObjectReader S) (i : ChronologMaterializationInvocation)
    (v : ResolvedMaterializationInvocation) : Prop := {
  pin_invocation : rv_invocation v = i;
  pin_pure : mc_logicalTimeMs (iv_context i) = None ∧ mc_entropySeed (iv_context i) = None;
  pin_manifest : ∃ b, given objects (ar_object (iv_executionManifest i)) b ∧
    decodeExecutionManifest toLowerCase IR_DECODE_LIMITS b = Ok (rv_executionManifest v);
  pin_manifest_digest :
    digestExecutionManifest toLowerCase sha256 (rv_executionManifest v) = Ok (iv_expectedExecutionManifestDigest i);
  pin_engine : em_engineDigest (rv_executionManifest v) = iv_expectedEngineDigest i;
  pin_suffix : ∃ b, given objects (ar_object (iv_admittedSuffix i)) b ∧
    decodeAdmittedSuffix MATERIALIZER_DECODE_LIMITS b = Ok (rv_admittedSuffix v);
  pin_suffix_identity :
    su_groupId (rv_admittedSuffix v) = mc_groupId (iv_context i) ∧
    su_replayFromIndex (rv_admittedSuffix v) = iv_replayFromIndex i ∧
    su_targetOrderLength (rv_admittedSuffix v) = iv_targetOrderLength i ∧
    su_targetOrderDigest (rv_admittedSuffix v) = iv_targetOrderDigest i;
  pin_transactions : Forall (λ t, tx_groupId (ad_core t) = mc_groupId (iv_context i) ∧
    transactionDigest sha256 (ad_canonicalCandidate t) = Ok (ad_candidateDigest t)) (su_transactions (rv_admittedSuffix v));
  pin_continuation : match iv_continuation i, rv_continuation v with
    | None, None => True
    | Some ref, Some c => (∃ b, given objects (ar_object ref) b ∧
          decodeMaterializationContinuation MATERIALIZER_DECODE_LIMITS b = Ok c) ∧
        digestMaterializationInvocation sha256 i = Ok (cn_invocationDigest c) ∧
        iv_replayFromIndex i ≤ cn_nextOrderIndex c ≤ iv_targetOrderLength i
    | _, _ => False
    end;
}.

Lemma transactions_checked groupId ts us : mapR (check_transaction sha256 groupId) ts = Ok us →
  Forall (λ t, tx_groupId (ad_core t) = groupId ∧
    transactionDigest sha256 (ad_canonicalCandidate t) = Ok (ad_candidateDigest t)) ts.
Proof.
  rewrite mapR_Ok. induction 1 as [|t u ts us Ht _ IH]; constructor; [|done]. unfold check_transaction in Ht.
  apply bind_Ok in Ht as (? & Hg%contract_Ok & Ht). apply bind_Ok in Ht as (d & Hd & Ht%contract_Ok).
  apply runner_coded_Ok, coded_Ok in Hd. apply sameBytes_spec in Hg, Ht. by subst.
Qed.

Lemma continuation_checked i c u : check_continuation sha256 i (Some c) = Ok u →
  digestMaterializationInvocation sha256 i = Ok (cn_invocationDigest c) ∧
  iv_replayFromIndex i ≤ cn_nextOrderIndex c ≤ iv_targetOrderLength i.
Proof.
  unfold check_continuation. intros (d & Hd%runner_coded_Ok & H)%bind_Ok.
  apply bind_Ok in H as (? & Hs%contract_Ok & Hp%contract_Ok). apply sameBytes_spec in Hs as ->.
  split; [done|]. lia.
Qed.

(** The bytes found for a reference were given for it. *)
Lemma found_given {S} (objects : ExactObjectReader S) (m : jsmap jsstring bytes) ref b :
  (∀ key b, map_get key m = Some b → ∃ r, key = objectIdentity r ∧ ref_natural r ∧ given objects r b) →
  ref_natural ref → map_get (objectIdentity ref) m = Some b → given objects ref b.
Proof. intros Hm Hr H. apply Hm in H as (r & Heq & Hn & Hg). by apply objectIdentity_inj in Heq as ->. Qed.

Lemma decoded_pinned {S} (objects : ExactObjectReader S) i s s' v :
  Forall artifact_natural (requested i) →
  resolveDecodedMaterializationInvocation toLowerCase sha256 objects i s = (s', Ok v) → pinned objects i v.
Proof.
  intros Hnat (u & m & Hpure & Hu & Hread & Hv)%resolve_steps.
  destruct (uniqueArtifacts_Ok _ _ Hnat Hu) as [_ Hin].
  assert (Forall artifact_natural u) as Hnu.
  { rewrite Forall_forall in *. intros a Ha. by apply Hnat, Hin. }
  pose proof (read_all_given objects [] u s s' m ltac:(done) Hnu Hread) as Hm.
  rewrite Forall_forall in Hnat.
  assert (artifact_natural (iv_executionManifest i) ∧ artifact_natural (iv_admittedSuffix i)) as [Nm Ns].
  { split; apply Hnat; unfold requested; apply list_elem_of_omap; eexists; (split; [|done]); set_solver. }
  unfold assertPureV1Context in Hpure. apply contract_Ok, andb_true_iff in Hpure as [Ht%bool_decide_eq_true He%bool_decide_eq_true].
  unfold resolve_with in Hv. inv_ok. subst. rewrite contract_Ok in *.
  repeat match goal with H : runner_coded _ = Ok _ |- _ => apply runner_coded_Ok in H end.
  repeat match goal with H : match map_get _ m with _ => _ end = Ok _ |- _ =>
    destruct (map_get _ m) eqn:? in H; [apply Ok_inj in H; subst|discriminate H] end.
  rewrite !andb_true_iff, !sameBytes_spec, !Z.eqb_eq in *. destruct_and!.
  split; cbn [rv_invocation rv_executionManifest rv_admittedSuffix rv_continuation]; try done.
  - eexists. split; [by eapply found_given|done].
  - congruence.
  - eexists. split; [by eapply found_given|done].
  - by eapply transactions_checked.
  - destruct (iv_continuation i) as [ref|] eqn:Hc; inv_ok; subst; [|done].
    match goal with H : match map_get ?k m with _ => _ end = Ok _ |- _ => destruct (map_get k m) eqn:?; [|done] end.
    inv_ok. subst. rewrite runner_coded_Ok in *.
    match goal with H : check_continuation _ _ _ = Ok _ |- _ => apply continuation_checked in H as [? ?] end.
    split; [|done]. eexists. split; [|done]. eapply found_given; [done| |done].
    apply Hnat. unfold requested. rewrite Hc. apply list_elem_of_omap. eexists. split; [|done]. set_solver.
Qed.

(** The references of an invocation that was read have natural codec numbers. *)
Lemma artifact_written_natural a w : exactArtifactRefToCbor a = Ok w → artifact_natural a.
Proof.
  unfold exactArtifactRefToCbor, artifact_natural, ref_natural. intros H. inv_ok.
  rename select (exactObjectRefToCbor _ = Ok _) into Ho. unfold exactObjectRefToCbor in Ho. inv_ok.
  rename select (codecIdToCbor _ = Ok _) into Hc. unfold codecIdToCbor in Hc. inv_ok. read_facts. lia.
Qed.

Lemma decoded_natural limits b i : decodeMaterializationInvocation limits b = Ok i → Forall artifact_natural (requested i).
Proof.
  intros H. apply (message_decoded limits b i) in H as [H _]. unfold invocationToCbor in H. inv_ok.
  apply Forall_forall. intros a (o & Ho & Hoa)%list_elem_of_omap. simpl in Hoa. subst o.
  repeat match goal with H : inputToCbor _ = Ok _ |- _ => unfold inputToCbor in H; inv_ok end.
  repeat apply elem_of_cons in Ho as [Ho|Ho]; [..|by apply elem_of_nil in Ho]; try injection Ho as ->;
    try (by eapply artifact_written_natural).
  - destruct (iv_previous i) as [p|]; [injection Ho as ->|done]. cbn [to_nullable] in *.
    rename select (inputToCbor p = Ok _) into Hp. unfold inputToCbor in Hp. inv_ok. by eapply artifact_written_natural.
  - rewrite <-Ho in *. cbn [to_nullable] in *. by eapply artifact_written_natural.
Qed.

(** a materializer reads exactly what its invocation names.  Whatever the
    store answers and whatever fails, no object is asked for that the invocation
    does not name and none is asked for twice; when the invocation resolves,
    every object it names was read and the read set that is reported is the set
    of the objects that were read. *)
Theorem reads_exact {S} (objects : ExactObjectReader S) b s s' log r :
  resolveMaterializationInvocation toLowerCase sha256 (recording objects) b (s, []) = ((s', log), r) →
  NoDup log ∧
  (∀ ref, ref ∈ log → ∃ i, decodeMaterializationInvocation MATERIALIZER_DECODE_LIMITS b = Ok i ∧
     ref ∈ ar_object <$> requested i) ∧
  (∀ v, r = Ok v → log ≡ₚ rv_exactReadSet v ∧ ∀ ref, ref ∈ ar_object <$> requested (rv_invocation v) → ref ∈ log).
Proof.
  unfold resolveMaterializationInvocation, mbind, SE_bind, pure_run.
  destruct (decodeMaterializationInvocation MATERIALIZER_DECODE_LIMITS b) as [i|] eqn:Hi; cbn [runner_coded].
  2: { intros [= <- <- <-]. split_and!; [constructor|by intros ? ?%elem_of_nil|done]. }
  intros H. pose proof (decoded_natural _ _ _ Hi) as Hnat.
  destruct (decoded_reads _ _ _ _ _ _ Hnat H) as (Hnd & Hin & Hv). split_and!; [done|by eauto|].
  intros v ->. destruct (Hv v eq_refl) as [Hp Hall]. split; [done|].
  by rewrite (pin_invocation _ _ _ (decoded_pinned _ _ _ _ _ Hnat H)).
Qed.

(** C20: an invocation resolves only to what it pins.  The manifest is the one the
    store gave for the named object, with the expected digest and engine; the
    suffix is the one given for the named object, of the right group, replay
    index, target length and target order; every transaction in it belongs to the
    group and has the digest it was admitted under; a continuation belongs to
    this very invocation and resumes inside its range; and no clock or entropy
    reaches the kernel. *)
Theorem resolution_pinned {S} (objects : ExactObjectReader S) b s s' v :
  resolveMaterializationInvocation toLowerCase sha256 objects b s = (s', Ok v) →
  ∃ i, decodeMaterializationInvocation MATERIALIZER_DECODE_LIMITS b = Ok i ∧ pinned objects i v.
Proof.
  unfold resolveMaterializationInvocation, mbind, SE_bind, pure_run.
  destruct (decodeMaterializationInvocation MATERIALIZER_DECODE_LIMITS b) as [i|] eqn:Hi; cbn [runner_coded]; [|done].
  intros H. exists i. split; [done|]. eapply decoded_pinned; [by eapply decoded_natural|done].
Qed.
End resolution.

(** ** Differential fixtures *)

Lemma sameRef_spec a b : sameRef a b = true ↔ a = b.
Proof.
  unfold sameRef. rewrite !andb_true_iff, !sameBytes_spec, !Z.eqb_eq, bool_decide_eq_true.
  destruct a as [s1 [n1 v1] [a1 d1]], b as [s2 [n2 v2] [a2 d2]]; simpl. naive_solver.
Qed.

(** The built-in verification: an object of the fixture, with the digest its
    reference names. *)
Lemma fixture_reader_exact sha256 {S} fixture ref (s s' : S) b :
  readExact (createFixtureObjectReader sha256 fixture None) ref s = (s', Ok b) →
  s' = s ∧ mkFixtureObject ref b ∈ fx_objects fixture ∧
  ci_algorithm (or_contentId ref) = sha2_256 ∧ sha256 b = ci_digest (or_contentId ref).
Proof.
  cbn [readExact createFixtureObjectReader]. unfold pure_run. intros [= <- H]. split; [done|].
  apply bind_Ok in H as (o & Ho & H). apply bind_Ok in H as (? & Hs%contract_Ok%sameRef_spec & H).
  apply bind_Ok in H as (valid & Hv & H). apply bind_Ok in H as (? & Hvalid%contract_Ok & [= <-]). subst valid.
  unfold verifyBuiltIn in Hv. apply bind_Ok in Hv as (? & Ha%contract_Ok%bool_decide_eq_true & [= Hd%sameBytes_spec]).
  split_and!; [|done..]. destruct (map_get (identity ref) _) as [o'|] eqn:E; [|done]. injection Ho as ->.
  apply map_of_entries_elem in E as (object & [= _ ->] & Hx)%list_elem_of_fmap. subst ref. by destruct object.
Qed.

Section backends_proofs.
Context {S : Type}.
Implicit Types backends : list (DifferentialMaterializerBackend (S:=S)).

(** The observations so far are the one the baseline bytes encode. *)
Definition agreed (baseline : option (bytes * jsstring)) (results : jsmap jsstring DifferentialObservation) : Prop :=
  map_wf results ∧
  match baseline with
  | None => results = []
  | Some (b, _) => ∃ o, encodeDifferentialObservation o = Ok b ∧
      decodeDifferentialObservation MATERIALIZER_DECODE_LIMITS b = Ok o ∧ Forall (λ e, e.2 = o) results
  end.

Lemma run_backends_agree name b baseline results backends s s' results' :
  agreed baseline results → run_backends name b baseline results backends s = (s', Ok results') →
  map_keys results' = map_keys results ++ (bk_name <$> backends) ∧ NoDup (map_keys results') ∧
  (results' = [] ∨ ∃ o, Forall (λ e, e.2 = o) results').
Proof.
  revert baseline results s. induction backends as [|k backends IH]; intros baseline results s [Hwf Hb];
    cbn [run_backends].
  - unfold mret, SE_ret. intros [= <- <-]. rewrite app_nil_r. split_and!; [done|exact Hwf|].
    destruct baseline as [[bb bn]|]; [right; destruct Hb as (o & _ & _ & Ho); by exists o|by left].
  - unfold mbind, SE_bind, pure_run. destruct (contract (negb _) _) as [u|] eqn:Hdup; [|done].
    apply contract_Ok, negb_true_iff, map_has_false in Hdup.
    destruct (bk_run k b s) as [s1 [answer|]]; [|done].
    destruct (decodeDifferentialObservation _ answer) as [o|] eqn:Ho; [|done]. cbn [runner_coded].
    destruct (encodeDifferentialObservation o) as [canonical|] eqn:Hcan; [|done]. cbn [runner_coded].
    destruct (contract (sameBytes canonical answer) _) as [u'|] eqn:Hsame; [|done].
    apply contract_Ok, sameBytes_spec in Hsame. subst canonical.
    set (next := match baseline with None => _ | Some _ => _ end). destruct next as [baseline'|] eqn:Hnext; [|done].
    intros H. unfold next in Hnext.
    assert (agreed (Some baseline') (map_set (bk_name k) o results)) as Hag.
    { split; [by apply map_wf_set|]. rewrite map_set_fresh by done.
      destruct baseline as [[bb bn]|].
      - apply bind_Ok in Hnext as (? & Hbb%contract_Ok%sameBytes_spec & [= <-]). subst bb.
        destruct Hb as (o' & He & Hd & Hall). exists o'. split_and!; [done..|]. apply Forall_app. split; [done|].
        constructor; [|done]. simpl. congruence.
      - injection Hnext as <-. subst results. exists o. split_and!; [done..|]. by constructor. }
    destruct (IH _ _ _ Hag H) as (Hk & Hnd & Hres). split_and!; [|done..].
    rewrite Hk, map_set_fresh by done. unfold map_keys. rewrite fmap_app, fmap_cons, <-app_assoc. done.
Qed.

(** backends that pass a differential fixture agree.  When the comparison
    returns, there was at least one backend, no two of them had the same name,
    there is a result for each of them in their order, and all the results are
    one observation: the same order, state, protected log, outcomes, query
    results and rejections. *)
Theorem backends_agree fixture backends s s' results :
  runDifferentialFixture fixture backends s = (s', Ok results) →
  backends ≠ [] ∧ NoDup (bk_name <$> backends) ∧ map_keys results = bk_name <$> backends ∧
  ∃ o, ∀ name r, map_get name results = Some r → r = o.
Proof.
  unfold runDifferentialFixture, mbind, SE_bind, pure_run.
  destruct (contract _ _) as [u|] eqn:Hne; [|done]. apply contract_Ok, negb_true_iff, Nat.eqb_neq in Hne.
  destruct (encodeDifferentialFixture fixture) as [b|]; [|done]. cbn [runner_coded]. intros H.
  apply run_backends_agree in H as (Hk & Hnd & Hres); [|split; [apply map_wf_nil|done]].
  cbn [map_keys fmap list_fmap app] in Hk. rewrite Hk in Hnd. split_and!; [by destruct backends|done..|].
  destruct Hres as [->|[o Ho]]; [by destruct backends|]. exists o. intros name r Hr%map_get_Some_elem.
  rewrite Forall_forall in Ho. by apply (Ho (name, r)).
Qed.
End backends_proofs.

(** ** A small fixture *)

(** A digest of 32 bytes for the examples: a length and the last bytes. *)
Definition short_digest (b : bytes) : bytes := be_bytes 4 (zlen b) ++ take 28 (reverse b ++ replicate 28 x00).

Definition bytes_or_nil {E} (r : result E bytes) : bytes := match r with Ok b => b | Err _ => [] end.

Definition stored (b : bytes) : ExactObjectRef := mkObjectRef [x61] (mkCodecId 1 0) (mkContentId sha2_256 (short_digest b)).

Definition manifest_bytes : bytes := bytes_or_nil (encodeExecutionManifest ascii_lower sample_manifest).
Definition fixture_suffix : ChronologAdmittedSuffix :=
  let candidate := bytes_or_nil (encodeTransactionCore sample_core) in
  mkSuffix (replicate 32 x01) 2 3 (replicate 32 x09)
    [mkAdmitted [x01] 7 (bytes_or_nil (transactionDigest short_digest candidate)) candidate sample_core].
Definition suffix_bytes : bytes := bytes_or_nil (encodeAdmittedSuffix fixture_suffix).
Definition base_bytes : bytes := [x62; x61; x73; x65].

Definition fixture_invocation : ChronologMaterializationInvocation :=
  mkInvocation (mkMaterializationContext (replicate 32 x01) None None) None
    (mkMaterializationInput (mkArtifactRef materialization_manifest 1 (stored base_bytes)) sample_database)
    (mkArtifactRef admitted_suffix 1 (stored suffix_bytes)) (mkArtifactRef execution_manifest 1 (stored manifest_bytes)) None
    (em_engineDigest sample_manifest) (bytes_or_nil (digestExecutionManifest ascii_lower short_digest sample_manifest))
    (replicate 32 x08) 2 3 (replicate 32 x09).
Definition invocation_bytes : bytes := bytes_or_nil (encodeMaterializationInvocation fixture_invocation).

Definition sample_fixture : DifferentialMaterializationFixture :=
  mkFixture (js "small") invocation_bytes
    [mkFixtureObject (stored manifest_bytes) manifest_bytes; mkFixtureObject (stored base_bytes) base_bytes;
     mkFixtureObject (stored suffix_bytes) suffix_bytes].

Definition sample_reader {S} : ExactObjectReader S := createFixtureObjectReader short_digest sample_fixture None.

Definition sample_resolved : result RunnerError ResolvedMaterializationInvocation :=
  (resolveMaterializationInvocation ascii_lower short_digest sample_reader invocation_bytes tt).2.

Example sample_resolves : match sample_resolved with Ok v => rv_executionManifest v = sample_manifest | Err _ => False end.
Proof. vm_compute. reflexivity. Qed.

(** A computation that returned. *)
Lemma returned {S A} (p : S * result RunnerError A) :
  match p.2 with Ok _ => true | Err _ => false end = true → ∃ s a, p = (s, Ok a).
Proof. destruct p as [s [a|]]; [eauto|done]. Qed.

Lemma reads_exact_witness : ∃ s log v,
  resolveMaterializationInvocation ascii_lower short_digest (recording sample_reader) invocation_bytes (tt, []) = ((s, log), Ok v) ∧
  NoDup log ∧ log ≡ₚ rv_exactReadSet v.
Proof.
  destruct (returned (resolveMaterializationInvocation ascii_lower short_digest (recording sample_reader)
    invocation_bytes (tt, []))) as ([s log] & v & E); [vm_compute; reflexivity|].
  exists s, log, v. split; [exact E|].
  destruct (reads_exact ascii_lower short_digest sample_reader invocation_bytes tt s log (Ok v) E) as (Hnd & _ & Hv).
  split; [exact Hnd|]. exact (proj1 (Hv v eq_refl)).
Defined.

Lemma resolution_pinned_witness : ∃ i v,
  decodeMaterializationInvocation MATERIALIZER_DECODE_LIMITS invocation_bytes = Ok i ∧
  pinned ascii_lower short_digest (S:=unit) sample_reader i v.
Proof.
  destruct (returned (resolveMaterializationInvocation ascii_lower short_digest sample_reader invocation_bytes tt))
    as (s & v & E); [vm_compute; reflexivity|].
  destruct (resolution_pinned ascii_lower short_digest sample_reader invocation_bytes tt s v E) as (i & Hi & Hp).
  exists i, v. split; [exact Hi|exact Hp].
Defined.

Definition sample_observation : DifferentialObservation :=
  mkObservation 3 (replicate 32 x01) (mkContentId sha2_256 (replicate 32 x02)) (replicate 32 x03) (replicate 32 x04)
    (replicate 32 x05) (replicate 32 x06).

(** Two backends that resolve the fixture and observe the same. *)
Definition sample_backend (name : jsstring) : DifferentialMaterializerBackend (S:=unit) :=
  createInProcessDifferentialBackend ascii_lower short_digest name
    (λ v, mret (unchanged sample_unchanged)) (λ _ _, mret sample_observation) None.

Lemma backends_agree_witness : ∃ s results,
  runDifferentialFixture sample_fixture [sample_backend (js "node"); sample_backend (js "workerd")] tt = (s, Ok results) ∧
  ∃ o, ∀ name r, map_get name results = Some r → r = o.
Proof.
  destruct (returned (runDifferentialFixture sample_fixture [sample_backend (js "node"); sample_backend (js "workerd")] tt))
    as (s & results & E); [vm_compute; reflexivity|].
  exists s, results. split; [exact E|].
  destruct (backends_agree sample_fixture _ tt s results E) as (_ & _ & _ & Ho). exact Ho.
Defined.
