(* ===== verification/Workerd.v ===== *)
(** * The workerd runtime: [packages/runtime-workerd/src/]

    A database kernel, code that is not trusted, materializes inside a worker.
    controller.ts mediates what it asks of its host and checks what it made of it;
    coordinator.ts names an execution by its inputs, follows it and checks the
    response; publication.ts moves a mutable reference to the selected output.

    The kernel may have many requests under way: [begin_call] is what the controller
    does when a request arrives, [end_call] what it does when the host has answered,
    and [controller_step] interleaves them in any order.  Host, kernel, the client of
    the coordinator and the publication backend are parameters. *)

From Stdlib Require Import Strings.Byte Strings.String Sorting.Sorted.
From stdpp Require Import base list option numbers sets relations.
From S2P Require Import Prelude JsMap Bytes Text Cbor CborProofs CborTheorems Schema Domains Messages CapCodecProofs Logical LogicalTheorems MaterializerCodec MaterializerTheorems MaterializerRunner RunnerTheorems SqlProofs.

#[local] Open Scope Z_scope.

(** ** Data: [types.ts] *)

Inductive ChronologDatabaseInputName := name_previous | name_replayBase.
Inductive ChronologOutputSelector := output_materialized | output_checkpoint.
Inductive ChronologArtifactSelector := select_materializationManifest | select_outcomeChanges | select_continuation.

#[export] Instance input_name_eq_dec : EqDecision ChronologDatabaseInputName.
Proof. solve_decision. Defined.
#[export] Instance output_selector_eq_dec : EqDecision ChronologOutputSelector.
Proof. solve_decision. Defined.
#[export] Instance artifact_selector_eq_dec : EqDecision ChronologArtifactSelector.
Proof. solve_decision. Defined.

Record ChronologCompatibilityTuple := mkCompatibility { ct_engineDigest : bytes; ct_executionManifestDigest : bytes }.

Record ChronologTypedArtifactWrite := mkWrite {
  tw_selector : ChronologArtifactSelector;
  tw_kind : ChronologArtifactKind;
  tw_formatVersion : Z;
  tw_canonicalBytes : bytes;
}.

Record ChronologNamedDatabaseOutput := mkDatabaseOutput { do_name : ChronologOutputSelector; do_ref : ExactDatabaseRef }.
Record ChronologNamedArtifactOutput := mkArtifactOutput { ao_name : ChronologArtifactSelector; ao_ref : ExactArtifactRef }.

(** [version] is the literal 1. *)
Record ChronologReducerResult := mkReducerResult {
  rr_compatibility : ChronologCompatibilityTuple;
  rr_outputs : list ChronologNamedDatabaseOutput;
  rr_artifacts : list ChronologNamedArtifactOutput;
  rr_applicationResult : bytes;
  rr_exactReadSet : list ExactObjectRef;
}.

Record NamedInput := mkNamedInput { ni_name : ChronologDatabaseInputName; ni_ref : ExactDatabaseRef }.

Record ChronologExecutionRequest := mkExecutionRequest {
  xr_executionKey : bytes;
  xr_invocation : bytes;
  xr_inputs : list NamedInput;
  xr_compatibility : ChronologCompatibilityTuple;
}.

Record ChronologExecutionResponse := mkExecutionResponse { xs_executionKey : bytes; xs_result : ChronologReducerResult }.

Record ChronologPublicationRequest := mkPublication {
  pb_executionKey : bytes;
  pb_refName : jsstring;
  pb_selectedOutput : ChronologNamedDatabaseOutput;
  pb_expectedCurrent : option ExactDatabaseRef;
}.

Inductive WorkerdError :=
  | CHRONOLOG_NAMED_INPUT_SET_MISMATCH
  | CHRONOLOG_REPLAY_BASE_MISSING
  | CHRONOLOG_REPLAY_BASE_MISMATCH
  | CHRONOLOG_PREVIOUS_INPUT_PRESENCE_MISMATCH
  | CHRONOLOG_PREVIOUS_INPUT_MISMATCH
  | CHRONOLOG_ENGINE_COMPATIBILITY_MISMATCH
  | CHRONOLOG_EXECUTION_COMPATIBILITY_MISMATCH
  | CHRONOLOG_PRIVATE_OUTPUT_INVALID
  | CHRONOLOG_TYPED_ARTIFACT_INVALID
  | CHRONOLOG_TYPED_ARTIFACT_RECEIPT_MISMATCH
  | CHRONOLOG_PRIVATE_OUTPUT_UNKNOWN
  | CHRONOLOG_FINALIZE_INVALID
  | CHRONOLOG_CHECKPOINT_INVALID
  | CHRONOLOG_OUTPUT_LIFECYCLE_MISMATCH
  | CHRONOLOG_OUTPUT_DATABASE_SUBSTITUTION
  | CHRONOLOG_UNCHANGED_MANIFEST_SUBSTITUTION
  | CHRONOLOG_ARTIFACT_SELECTOR_MISMATCH
  | CHRONOLOG_ARTIFACT_SUBSTITUTION
  | CHRONOLOG_COORDINATOR_INPUTS_INVALID
  | CHRONOLOG_EXECUTION_IDENTITY_MISMATCH
  | CHRONOLOG_RESPONSE_COMPATIBILITY_MISMATCH
  | CHRONOLOG_APPLICATION_RESULT_NON_CANONICAL
  | CHRONOLOG_EXACT_READ_SET_NON_CANONICAL
  | CHRONOLOG_OUTPUT_SELECTOR_MISMATCH
  | CHRONOLOG_OUTPUT_SUBSTITUTION
  | CHRONOLOG_REF_NAME_EMPTY
  | CHRONOLOG_PUBLICATION_REQUIRES_COMPLETED_OUTPUT
  | CHRONOLOG_CAS_APPLIED_REF_MISMATCH
  | WorkerdCodec (e : CodecError)
  | WorkerdRunner (e : RunnerError)
  | ServiceFailed.

Definition workerd_coded {A} (r : result CodecError A) : result WorkerdError A :=
  match r with Ok x => Ok x | Err e => Err (WorkerdCodec e) end.

(** ** References *)

Definition databaseBytes (ref : ExactDatabaseRef) : result CodecError bytes :=
  v ← exactDatabaseRefToCbor ref; coded (encodeCanonicalCbor v).

Definition sameDatabase (left right : ExactDatabaseRef) : result WorkerdError bool :=
  a ← workerd_coded (databaseBytes left); b ← workerd_coded (databaseBytes right); Ok (sameBytes a b).

(** The comparison of the controller. *)
Definition sameArtifact (left right : ExactArtifactRef) : bool :=
  bool_decide (ar_kind left = ar_kind right) && (ar_formatVersion left =? ar_formatVersion right) &&
  sameBytes (or_storeId (ar_object left)) (or_storeId (ar_object right)) &&
  (co_number (or_codec (ar_object left)) =? co_number (or_codec (ar_object right))) &&
  (co_version (or_codec (ar_object left)) =? co_version (or_codec (ar_object right))) &&
  bool_decide (ci_algorithm (or_contentId (ar_object left)) = ci_algorithm (or_contentId (ar_object right))) &&
  sameBytes (ci_digest (or_contentId (ar_object left))) (ci_digest (or_contentId (ar_object right))).

(** The comparison of the coordinator. *)
Definition sameArtifactBytes (left right : ExactArtifactRef) : result WorkerdError bool :=
  a ← workerd_coded (v ← exactArtifactRefToCbor left; coded (encodeCanonicalCbor v));
  b ← workerd_coded (v ← exactArtifactRefToCbor right; coded (encodeCanonicalCbor v));
  Ok (sameBytes a b).

(** ** The controller: [controller.ts] *)

(** The [inputs] of the host, by name. *)
Definition HostInputs : Type := jsmap ChronologDatabaseInputName ExactDatabaseRef.

Definition assertNamedInputs (previous : option ExactDatabaseRef) (replayBase : ExactDatabaseRef) (inputs : HostInputs) :
    result WorkerdError unit :=
  ensure (length inputs =? (match previous with None => 1 | Some _ => 2 end))%nat CHRONOLOG_NAMED_INPUT_SET_MISMATCH ≫= λ _,
  match map_get name_replayBase inputs with
  | None => Err CHRONOLOG_REPLAY_BASE_MISSING
  | Some replay =>
      same ← sameDatabase replay replayBase;
      ensure same CHRONOLOG_REPLAY_BASE_MISMATCH ≫= λ _,
      match previous, map_get name_previous inputs with
      | None, None => Ok tt
      | Some p, Some injected => same ← sameDatabase p injected; ensure same CHRONOLOG_PREVIOUS_INPUT_MISMATCH
      | _, _ => Err CHRONOLOG_PREVIOUS_INPUT_PRESENCE_MISMATCH
      end
  end.

Definition assertCompatibility (invocation : ChronologMaterializationInvocation) (actual : ChronologCompatibilityTuple) :
    result WorkerdError unit :=
  ensure (sameBytes (iv_expectedEngineDigest invocation) (ct_engineDigest actual)) CHRONOLOG_ENGINE_COMPATIBILITY_MISMATCH ≫= λ _,
  ensure (sameBytes (iv_expectedExecutionManifestDigest invocation) (ct_executionManifestDigest actual))
    CHRONOLOG_EXECUTION_COMPATIBILITY_MISMATCH.

Definition artifactKind (selector : ChronologArtifactSelector) : ChronologArtifactKind :=
  match selector with
  | select_materializationManifest => materialization_manifest
  | select_outcomeChanges => outcome_changes
  | select_continuation => continuation_artifact
  end.

Definition assertArtifactRequest (request : ChronologTypedArtifactWrite) : result WorkerdError unit :=
  ensure (bool_decide (tw_kind request = artifactKind (tw_selector request)) && safe_positive (tw_formatVersion request))
    CHRONOLOG_TYPED_ARTIFACT_INVALID.

Definition assertWrittenArtifact (request : ChronologTypedArtifactWrite) (ref : ExactArtifactRef) : result WorkerdError unit :=
  ensure (bool_decide (ar_kind ref = tw_kind request) && (ar_formatVersion ref =? tw_formatVersion request))
    CHRONOLOG_TYPED_ARTIFACT_RECEIPT_MISMATCH.

Section controller.
(** Private databases, told apart as objects. *)
Context {D : Type} `{!EqDecision D}.

(** The arrays of [runChronologWorkerdController]. *)
Record Session := mkSession {
  ss_reads : list ExactObjectRef;
  ss_created : list D;
  ss_finalized : list ExactDatabaseRef;
  ss_checkpointed : list ExactDatabaseRef;
  ss_artifacts : list (ChronologTypedArtifactWrite * ExactArtifactRef);
}.

(** What the kernel asks for; names are whatever it passes. *)
Inductive Call :=
  | call_read (ref : ExactObjectRef)
  | call_create (name : jsstring) (from : ChronologDatabaseInputName)
  | call_write (request : ChronologTypedArtifactWrite)
  | call_finalize (name : jsstring) (output : D)
  | call_checkpoint (selector : jsstring) (output : D) (nextOrderIndex : Z).

Inductive Answer := answer_bytes (b : bytes) | answer_output (output : D) | answer_artifact (ref : ExactArtifactRef) | answer_database (ref : ExactDatabaseRef).

Definition assertOutputCreation (name : jsstring) (from : ChronologDatabaseInputName) (inputs : HostInputs) (created : nat) :
    result WorkerdError unit :=
  ensure (bool_decide (name = js "materialized") && map_has from inputs && (created =? 0)%nat) CHRONOLOG_PRIVATE_OUTPUT_INVALID.

Definition assertKnownOutput (output : D) (created : list D) : result WorkerdError unit :=
  ensure (bool_decide (created = [output])) CHRONOLOG_PRIVATE_OUTPUT_UNKNOWN.

(** A method of the kernel's context up to its [await]. *)
Definition begin_call (inputs : HostInputs) (s : Session) (c : Call) : result WorkerdError Session :=
  match c with
  | call_read ref => Ok (mkSession (ss_reads s ++ [ref]) (ss_created s) (ss_finalized s) (ss_checkpointed s) (ss_artifacts s))
  | call_create name from => assertOutputCreation name from inputs (length (ss_created s)) ≫= λ _, Ok s
  | call_write request => assertArtifactRequest request ≫= λ _, Ok s
  | call_finalize name output =>
      assertKnownOutput output (ss_created s) ≫= λ _,
      ensure (bool_decide (name = js "materialized") && (length (ss_finalized s) =? 0)%nat && (length (ss_checkpointed s) =? 0)%nat)
        CHRONOLOG_FINALIZE_INVALID ≫= λ _, Ok s
  | call_checkpoint selector output nextOrderIndex =>
      assertKnownOutput output (ss_created s) ≫= λ _,
      ensure (bool_decide (selector = js "checkpoint") && is_uint nextOrderIndex && (length (ss_checkpointed s) =? 0)%nat &&
              (length (ss_finalized s) =? 0)%nat) CHRONOLOG_CHECKPOINT_INVALID ≫= λ _, Ok s
  end.

(** The rest of the method, with the answer of the host. *)
Definition end_call (s : Session) (c : Call) (a : Answer) : result WorkerdError Session :=
  match c, a with
  | call_read _, answer_bytes _ => Ok s
  | call_create _ _, answer_output output =>
      Ok (mkSession (ss_reads s) (ss_created s ++ [output]) (ss_finalized s) (ss_checkpointed s) (ss_artifacts s))
  | call_write request, answer_artifact ref =>
      assertWrittenArtifact request ref ≫= λ _,
      Ok (mkSession (ss_reads s) (ss_created s) (ss_finalized s) (ss_checkpointed s) (ss_artifacts s ++ [(request, ref)]))
  | call_finalize _ _, answer_database ref =>
      Ok (mkSession (ss_reads s) (ss_created s) (ss_finalized s ++ [ref]) (ss_checkpointed s) (ss_artifacts s))
  | call_checkpoint _ _ _, answer_database ref =>
      Ok (mkSession (ss_reads s) (ss_created s) (ss_finalized s) (ss_checkpointed s ++ [ref]) (ss_artifacts s))
  | _, _ => Err ServiceFailed
  end.

(** A running kernel: the session, the requests under way, and what the host did. *)
Record Controller := mkController { ct_session : Session; ct_pending : list Call; ct_ledger : list (Call * Answer) }.

(** A request arrives (a refused one changes nothing); the host answers one of those
    under way, and the answer is taken or refused; or the host fails. *)
Inductive controller_step (inputs : HostInputs) : Controller → Controller → Prop :=
  | step_call s pending ledger c s' : begin_call inputs s c = Ok s' →
      controller_step inputs (mkController s pending ledger) (mkController s' (pending ++ [c]) ledger)
  | step_answer s pending ledger i c a s' : pending !! i = Some c → end_call s c a = Ok s' →
      controller_step inputs (mkController s pending ledger) (mkController s' (delete i pending) (ledger ++ [(c, a)]))
  | step_refused s pending ledger i c a e : pending !! i = Some c → end_call s c a = Err e →
      controller_step inputs (mkController s pending ledger) (mkController s (delete i pending) (ledger ++ [(c, a)]))
  | step_failed s pending ledger i c : pending !! i = Some c →
      controller_step inputs (mkController s pending ledger) (mkController s (delete i pending) ledger).

(** *** The check of the outcome *)

Definition requireLifecycle (valid : bool) : result WorkerdError unit := ensure valid CHRONOLOG_OUTPUT_LIFECYCLE_MISMATCH.

Definition requireDatabase (actual : ExactDatabaseRef) (expected : option ExactDatabaseRef) : result WorkerdError unit :=
  match expected with
  | None => Err CHRONOLOG_OUTPUT_DATABASE_SUBSTITUTION
  | Some e => same ← sameDatabase actual e; ensure same CHRONOLOG_OUTPUT_DATABASE_SUBSTITUTION
  end.

Definition requireArtifact (writes : list (ChronologTypedArtifactWrite * ExactArtifactRef)) (expected : ChronologArtifactSelector * ExactArtifactRef) :
    result WorkerdError ChronologNamedArtifactOutput :=
  match list_find (λ w : ChronologTypedArtifactWrite * ExactArtifactRef, tw_selector w.1 = expected.1) writes with
  | Some (_, write) => ensure (sameArtifact write.2 expected.2) CHRONOLOG_ARTIFACT_SUBSTITUTION ≫= λ _, Ok (mkArtifactOutput expected.1 expected.2)
  | None => Err CHRONOLOG_ARTIFACT_SUBSTITUTION
  end.

Definition requireArtifacts (writes : list (ChronologTypedArtifactWrite * ExactArtifactRef)) (expected : list (ChronologArtifactSelector * ExactArtifactRef)) :
    result WorkerdError (list ChronologNamedArtifactOutput) :=
  ensure (length writes =? length expected)%nat CHRONOLOG_ARTIFACT_SELECTOR_MISMATCH ≫= λ _, mapR (requireArtifact writes) expected.

Definition validateOutcome (outcome : ChronologMaterializationOutcome) (previous : option MaterializationInput) (replayBase : MaterializationInput) (s : Session) :
    result WorkerdError (list ChronologNamedDatabaseOutput * list ChronologNamedArtifactOutput) :=
  let lifecycle (created finalized checkpointed : nat) :=
    requireLifecycle ((length (ss_created s) =? created)%nat && (length (ss_finalized s) =? finalized)%nat && (length (ss_checkpointed s) =? checkpointed)%nat) in
  match outcome with
  | completed c =>
      lifecycle 1%nat 1%nat 0%nat ≫= λ _,
      requireDatabase (cp_outputDatabase c) (head (ss_finalized s)) ≫= λ _,
      artifacts ← requireArtifacts (ss_artifacts s)
        [(select_materializationManifest, cp_materializationManifest c); (select_outcomeChanges, cp_outcomeChanges c)];
      Ok ([mkDatabaseOutput output_materialized (cp_outputDatabase c)], artifacts)
  | checkpointed k =>
      lifecycle 1%nat 0%nat 1%nat ≫= λ _,
      requireDatabase (ck_partialDatabase k) (head (ss_checkpointed s)) ≫= λ _,
      artifacts ← requireArtifacts (ss_artifacts s) [(select_continuation, ck_continuation k)];
      Ok ([mkDatabaseOutput output_checkpoint (ck_partialDatabase k)], artifacts)
  | unchanged u =>
      lifecycle 0%nat 0%nat 0%nat ≫= λ _,
      let kept := default replayBase previous in
      requireDatabase (un_outputDatabase u) (Some (mi_database kept)) ≫= λ _,
      artifacts ← (match ss_artifacts s with
        | [] => ensure (sameArtifact (un_materializationManifest u) (mi_manifest kept)) CHRONOLOG_UNCHANGED_MANIFEST_SUBSTITUTION ≫= λ _,
                Ok [mkArtifactOutput select_materializationManifest (un_materializationManifest u)]
        | writes => requireArtifacts writes [(select_materializationManifest, un_materializationManifest u)]
        end);
      Ok ([mkDatabaseOutput output_materialized (un_outputDatabase u)], artifacts)
  end.

(** [sorted.filter((ref, index) => index === 0 || ...)] *)
Fixpoint drop_repeated_refs (previous : option ExactObjectRef) (sorted : list ExactObjectRef) : result CodecError (list ExactObjectRef) :=
  match sorted with
  | [] => Ok []
  | ref :: rest =>
      fresh ← (match previous with None => Ok true | Some p => order ← compareObjectRefs p ref; Ok (negb (order =? 0)) end);
      kept ← drop_repeated_refs (Some ref) rest;
      Ok (if fresh : bool then ref :: kept else kept)
  end.

Definition uniqueReads (reads : list ExactObjectRef) : result CodecError (list ExactObjectRef) :=
  sorted ← sort_by_ref id reads; drop_repeated_refs None sorted.

(** What follows [await kernel.materialize(...)]. *)
Definition conclude (compatibility : ChronologCompatibilityTuple) (invocation : ChronologMaterializationInvocation)
    (outcome : ChronologMaterializationOutcome) (s : Session) : result WorkerdError ChronologReducerResult :=
  selected ← validateOutcome outcome (iv_previous invocation) (iv_replayBase invocation) s;
  applicationResult ← workerd_coded (encodeMaterializationOutcome outcome);
  exactReadSet ← workerd_coded (uniqueReads (ss_reads s));
  Ok (mkReducerResult compatibility selected.1 selected.2 applicationResult exactReadSet).

(** What precedes it; [reads] are those of the resolution. *)
Definition recording {S} (readExact : ExactObjectRef → SE S RunnerError bytes) : ExactObjectReader (S * list ExactObjectRef) :=
  mkReader (λ ref s, let (h, r) := readExact ref s.1 in ((h, s.2 ++ [ref]), r)).

Definition prepare {S} (toLowerCase : jsstring → jsstring) (sha256 : bytes → bytes) (readExact : ExactObjectRef → SE S RunnerError bytes)
    (inputs : HostInputs) (compatibility : ChronologCompatibilityTuple) (invocationBytes : bytes) :
    SE (S * list ExactObjectRef) WorkerdError ResolvedMaterializationInvocation := λ s,
  match workerd_coded (decodeMaterializationInvocation MATERIALIZER_DECODE_LIMITS invocationBytes) with
  | Err e => (s, Err e)
  | Ok invocation =>
      match (assertNamedInputs (mi_database <$> iv_previous invocation) (mi_database (iv_replayBase invocation)) inputs ≫= λ _,
             assertCompatibility invocation compatibility) with
      | Err e => (s, Err e)
      | Ok _ =>
          let (s', r) := resolveDecodedMaterializationInvocation toLowerCase sha256 (recording readExact) invocation s in
          (s', match r with Ok v => Ok v | Err e => Err (WorkerdRunner e) end)
      end
  end.

Definition started (reads : list ExactObjectRef) : Controller := mkController (mkSession reads [] [] [] []) [] [].
End controller.
Arguments Session D : clear implicits.
Arguments Call D : clear implicits.
Arguments Answer D : clear implicits.
Arguments Controller D : clear implicits.

(** ** The coordinator: [coordinator.ts] *)

Record ChronologCoordinatorInvocation := mkCoordinatorInvocation {
  ci_invocation : bytes;
  ci_inputs : list NamedInput;
  ci_compatibility : ChronologCompatibilityTuple;
}.

Definition EXECUTION_KEY_DOMAIN : jsstring := js "chronolog/workerd-execution-key/v1".

Definition input_order (name : ChronologDatabaseInputName) : Z := match name with name_previous => 0 | name_replayBase => 1 end.
Definition compareInputs (left right : NamedInput) : Z := input_order (ni_name left) - input_order (ni_name right).

Definition canonicalInputs (inputs : list NamedInput) : result WorkerdError (list NamedInput) :=
  let result := js_sort compareInputs inputs in
  ensure (bool_decide (NoDup (ni_name <$> result)) && bool_decide (name_replayBase ∈ ni_name <$> result))
    CHRONOLOG_COORDINATOR_INPUTS_INVALID ≫= λ _, Ok result.

Definition namedInputToCbor (input : NamedInput) : result CodecError CborValue :=
  ref ← exactDatabaseRefToCbor (ni_ref input);
  Ok (CMap (integerMap [(0, Some (CInt (match ni_name input with name_previous => 1 | name_replayBase => 2 end))); (1, Some ref)])).

Definition compatibilityToCbor (value : ChronologCompatibilityTuple) : CborValue :=
  CMap (integerMap [(0, Some (CBytes (ct_engineDigest value))); (1, Some (CBytes (ct_executionManifestDigest value)))]).

Definition executionPayload (value : ChronologCoordinatorInvocation) (inputs : list NamedInput) : result CodecError bytes :=
  items ← mapR namedInputToCbor inputs;
  coded (encodeCanonicalCbor (CMap (integerMap [(0, Some (CInt 1)); (1, Some (CBytes (ci_invocation value)));
    (2, Some (CArray items)); (3, Some (compatibilityToCbor (ci_compatibility value)))]))).

Definition selectorsForOutcome (outcome : ChronologMaterializationOutcome) :
    list ChronologNamedDatabaseOutput * list ChronologNamedArtifactOutput :=
  match outcome with
  | completed c =>
      ([mkDatabaseOutput output_materialized (cp_outputDatabase c)],
       [mkArtifactOutput select_materializationManifest (cp_materializationManifest c); mkArtifactOutput select_outcomeChanges (cp_outcomeChanges c)])
  | unchanged u =>
      ([mkDatabaseOutput output_materialized (un_outputDatabase u)], [mkArtifactOutput select_materializationManifest (un_materializationManifest u)])
  | checkpointed k =>
      ([mkDatabaseOutput output_checkpoint (ck_partialDatabase k)], [mkArtifactOutput select_continuation (ck_continuation k)])
  end.

(** The loops of [assertOutputs] and [assertArtifacts]: both lists at once. *)
Fixpoint assert_each {A} (same : A → A → result WorkerdError bool) (error : WorkerdError) (actual expected : list A) : result WorkerdError unit :=
  match actual, expected with
  | candidate :: actual', selected :: expected' =>
      ok ← same candidate selected; ensure ok error ≫= λ _, assert_each same error actual' expected'
  | _, _ => Ok tt
  end.

Definition same_output (candidate selected : ChronologNamedDatabaseOutput) : result WorkerdError bool :=
  if bool_decide (do_name candidate = do_name selected) then sameDatabase (do_ref candidate) (do_ref selected) else Ok false.

Definition same_artifact_output (candidate selected : ChronologNamedArtifactOutput) : result WorkerdError bool :=
  if bool_decide (ao_name candidate = ao_name selected) then sameArtifactBytes (ao_ref candidate) (ao_ref selected) else Ok false.

Definition assertOutputs (actual expected : list ChronologNamedDatabaseOutput) : result WorkerdError unit :=
  ensure (length actual =? length expected)%nat CHRONOLOG_OUTPUT_SELECTOR_MISMATCH ≫= λ _,
  assert_each same_output CHRONOLOG_OUTPUT_SUBSTITUTION actual expected.

Definition assertArtifacts (actual expected : list ChronologNamedArtifactOutput) : result WorkerdError unit :=
  ensure (length actual =? length expected)%nat CHRONOLOG_ARTIFACT_SELECTOR_MISMATCH ≫= λ _,
  assert_each same_artifact_output CHRONOLOG_ARTIFACT_SUBSTITUTION actual expected.

Definition assertResponseCompatibility (expected actual : ChronologCompatibilityTuple) : result WorkerdError unit :=
  ensure (sameBytes (ct_engineDigest expected) (ct_engineDigest actual) &&
          sameBytes (ct_executionManifestDigest expected) (ct_executionManifestDigest actual)) CHRONOLOG_RESPONSE_COMPATIBILITY_MISMATCH.

(** The loop over neighbours of the read set. *)
Fixpoint assert_ascending (previous : option ExactObjectRef) (reads : list ExactObjectRef) : result WorkerdError unit :=
  match reads with
  | [] => Ok tt
  | ref :: rest =>
      (match previous with
       | None => Ok tt
       | Some p => order ← workerd_coded (compareObjectRefs p ref); ensure (order <? 0) CHRONOLOG_EXACT_READ_SET_NON_CANONICAL
       end) ≫= λ _, assert_ascending (Some ref) rest
  end.

Definition validateChronologExecutionResponse (request : ChronologExecutionRequest) (response : ChronologExecutionResponse) :
    result WorkerdError ChronologMaterializationOutcome :=
  let r := xs_result response in
  ensure (sameBytes (xr_executionKey request) (xs_executionKey response)) CHRONOLOG_EXECUTION_IDENTITY_MISMATCH ≫= λ _,
  assertResponseCompatibility (xr_compatibility request) (rr_compatibility r) ≫= λ _,
  outcome ← workerd_coded (decodeMaterializationOutcome MATERIALIZER_DECODE_LIMITS (rr_applicationResult r));
  again ← workerd_coded (encodeMaterializationOutcome outcome);
  ensure (sameBytes again (rr_applicationResult r)) CHRONOLOG_APPLICATION_RESULT_NON_CANONICAL ≫= λ _,
  assertOutputs (rr_outputs r) (selectorsForOutcome outcome).1 ≫= λ _,
  assertArtifacts (rr_artifacts r) (selectorsForOutcome outcome).2 ≫= λ _,
  assert_ascending None (rr_exactReadSet r) ≫= λ _,
  Ok outcome.

(** Produces data only; it moves no reference. *)
Definition createChronologPublicationRequest (response : ChronologExecutionResponse) (refName : jsstring) (expectedCurrent : option ExactDatabaseRef) :
    result WorkerdError ChronologPublicationRequest :=
  ensure (negb (zlen refName =? 0)) CHRONOLOG_REF_NAME_EMPTY ≫= λ _,
  match list_find (λ output, do_name output = output_materialized) (rr_outputs (xs_result response)) with
  | None => Err CHRONOLOG_PUBLICATION_REQUIRES_COMPLETED_OUTPUT
  | Some (_, selected) => Ok (mkPublication (xs_executionKey response) refName selected expectedCurrent)
  end.

(** [ChronologReducerCoordinatorClient]: it runs a request and finds what became of one. *)
Record CoordinatorClient (S : Type) := mkClient {
  cc_run : ChronologExecutionRequest → SE S WorkerdError ChronologExecutionResponse;
  cc_follow : bytes → SE S WorkerdError (option ChronologExecutionResponse);
}.
Arguments mkClient {S}.
Arguments cc_run {S}.
Arguments cc_follow {S}.

Section coordinator.
Context (sha256 : bytes → bytes).

Definition createChronologExecutionRequest (value : ChronologCoordinatorInvocation) : result WorkerdError ChronologExecutionRequest :=
  inputs ← canonicalInputs (ci_inputs value);
  payload ← workerd_coded (executionPayload value inputs);
  framed ← workerd_coded (framedBytes EXECUTION_KEY_DOMAIN payload);
  Ok (mkExecutionRequest (sha256 framed) (ci_invocation value) inputs (ci_compatibility value)).

Definition pure_workerd {S A} (r : result WorkerdError A) : SE S WorkerdError A := λ s, (s, r).

(** [try { await client.run(request) } catch { await client.follow(key) }]: a failure
    says nothing about whether the run took place. *)
Definition run_or_follow {S} (client : CoordinatorClient S) (request : ChronologExecutionRequest) : SE S WorkerdError ChronologExecutionResponse := λ s,
  match cc_run client request s with
  | (s', Ok response) => (s', Ok response)
  | (s', Err error) =>
      match cc_follow client (xr_executionKey request) s' with
      | (s'', Ok (Some followed)) => (s'', Ok followed)
      | (s'', Ok None) => (s'', Err error)
      | (s'', Err e) => (s'', Err e)
      end
  end.

Definition executeChronologMaterialization {S} (client : CoordinatorClient S) (invocation : ChronologCoordinatorInvocation) :
    SE S WorkerdError ChronologExecutionResponse :=
  request ← pure_workerd (createChronologExecutionRequest invocation);
  response ← run_or_follow client request;
  pure_workerd (validateChronologExecutionResponse request response) ;;
  mret response.
End coordinator.

(** ** Publication: [publication.ts] *)

Record ChronologCasRefState := mkRefState { rf_generation : option Z; rf_current : option ExactDatabaseRef }.

Inductive PublicationStatus := published | already_current | publication_conflict.
#[export] Instance PublicationStatus_eq_dec : EqDecision PublicationStatus.
Proof. solve_decision. Defined.

Record ChronologWorkerdPublicationResult := mkWorkerdResult {
  wr_status : PublicationStatus; wr_generation : option Z; wr_current : option ExactDatabaseRef }.

Definition publicationResult (status : PublicationStatus) (state : ChronologCasRefState) : ChronologWorkerdPublicationResult :=
  mkWorkerdResult status (rf_generation state) (rf_current state).

(** The comparison that also takes null. *)
Definition sameRefs (left right : option ExactDatabaseRef) : result WorkerdError bool :=
  match left, right with Some l, Some r => sameDatabase l r | None, None => Ok true | _, _ => Ok false end.

Record CasRequest := mkCasRequest {
  cq_refName : jsstring;
  cq_expectedGeneration : option Z;
  cq_expectedCurrent : option ExactDatabaseRef;
  cq_selected : ExactDatabaseRef;
  cq_executionKey : bytes;
}.

(** [ChronologCasPublicationBackend]. *)
Class CasBackend (B : Type) := {
  verifyExactOutput : ChronologPublicationRequest → SE B WorkerdError unit;
  readRef : jsstring → SE B WorkerdError ChronologCasRefState;
  compareAndSwapRef : CasRequest → SE B WorkerdError (bool * ChronologCasRefState);
}.

Section publication.
Context {B : Type} `{!CasBackend B}.

(** The [try] block. *)
Definition exchange (request : ChronologPublicationRequest) (before : ChronologCasRefState) : SE B WorkerdError ChronologWorkerdPublicationResult :=
  let selected := do_ref (pb_selectedOutput request) in
  exchanged ← compareAndSwapRef (mkCasRequest (pb_refName request) (rf_generation before) (pb_expectedCurrent request) selected (pb_executionKey request));
  same ← pure_workerd (sameRefs (rf_current exchanged.2) (Some selected));
  if exchanged.1 : bool then
    pure_workerd (ensure same CHRONOLOG_CAS_APPLIED_REF_MISMATCH) ;;
    mret (publicationResult published exchanged.2)
  else mret (publicationResult (if same : bool then already_current else publication_conflict) exchanged.2).

(** The [catch] block. *)
Definition reconcile (request : ChronologPublicationRequest) (error : WorkerdError) : SE B WorkerdError ChronologWorkerdPublicationResult :=
  reconciled ← readRef (pb_refName request);
  selected ← pure_workerd (sameRefs (rf_current reconciled) (Some (do_ref (pb_selectedOutput request))));
  if selected : bool then mret (publicationResult already_current reconciled)
  else
    unmoved ← pure_workerd (sameRefs (rf_current reconciled) (pb_expectedCurrent request));
    if unmoved : bool then pure_workerd (Err error) else mret (publicationResult publication_conflict reconciled).

(** [try { ... } catch (error) { ... }] *)
Definition exchange_or_reconcile (request : ChronologPublicationRequest) (before : ChronologCasRefState) : SE B WorkerdError ChronologWorkerdPublicationResult := λ b,
  match exchange request before b with
  | (b', Ok r) => (b', Ok r)
  | (b', Err error) => reconcile request error b'
  end.

Definition publishChronologCasIntent (request : ChronologPublicationRequest) : SE B WorkerdError ChronologWorkerdPublicationResult :=
  verifyExactOutput request ;;
  before ← readRef (pb_refName request);
  current ← pure_workerd (sameRefs (rf_current before) (Some (do_ref (pb_selectedOutput request))));
  if current : bool then mret (publicationResult already_current before)
  else
    expected ← pure_workerd (sameRefs (rf_current before) (pb_expectedCurrent request));
    if expected : bool then
      exchange_or_reconcile request before
    else mret (publicationResult publication_conflict before).
End publication.

Lemma workerd_coded_Ok {A} (r : result CodecError A) x : workerd_coded r = Ok x ↔ r = Ok x.
Proof. destruct r; simpl; naive_solver. Qed.

(** ** The order of references *)

Lemma sgn_strict {A} (cmp cmp' : A → A → Z) `{!StrictComparator cmp} :
  (∀ x y, Z.sgn (cmp' x y) = Z.sgn (cmp x y)) → StrictComparator cmp'.
Proof.
  intros Hs. assert (∀ x y, (cmp' x y < 0 ↔ cmp x y < 0) ∧ (0 < cmp' x y ↔ 0 < cmp x y) ∧ (cmp' x y = 0 ↔ cmp x y = 0)) as Hx.
  { intros x y. specialize (Hs x y). lia. }
  split; [split|].
  - intros x. pose proof (Hx x x). pose proof (cmp_refl (cmp:=cmp) x). lia.
  - intros x y. pose proof (Hx x y). pose proof (Hx y x). pose proof (cmp_flip (cmp:=cmp) x y). lia.
  - intros x y z H1 H2. pose proof (cmp_trans (cmp:=cmp) x y z). pose proof (Hx x y). pose proof (Hx y z). pose proof (Hx x z). lia.
  - intros x y H. by apply (cmp_eq (cmp:=cmp)), Hx.
Qed.

#[export] Instance compareEncodings_strict : StrictComparator compareEncodings.
Proof.
  apply (sgn_strict compareBytes); [apply compareBytes_strict|]. intros x y. unfold compareEncodings, compareBytes, zlen. case_match; [done|].
  destruct (Nat.eqb_spec (length x) (length y)), (Nat.ltb_spec (length x) (length y)); lia.
Qed.

Lemma compareObjectRefs_Ok l r o : compareObjectRefs l r = Ok o ↔
  ∃ a b, objectRefBytes l = Ok a ∧ objectRefBytes r = Ok b ∧ o = compareEncodings a b.
Proof.
  unfold compareObjectRefs. rewrite bind_Ok. split.
  - intros (a & Ha & (b & Hb & [= <-])%bind_Ok). by exists a, b.
  - intros (a & b & Ha & Hb & ->). exists a. split; [done|]. rewrite Hb. done.
Qed.

Definition ref_le (x y : ExactObjectRef) : Prop := ∀ a b, objectRefBytes x = Ok a → objectRefBytes y = Ok b → compareEncodings a b ≤ 0.

Lemma sorted_refs l l' : sort_by_ref id l = Ok l' → StronglySorted ref_le l'.
Proof.
  unfold sort_by_ref. destruct (Nat.leb_spec (length l) 1) as [Hl|_].
  - intros [= <-]. destruct l as [|x [|? ?]]; [constructor|by repeat constructor|simpl in Hl; lia].
  - intros (keyed & Hk & [= <-])%bind_Ok. assert (Forall (λ p : bytes * ExactObjectRef, objectRefBytes p.2 = Ok p.1) keyed) as Hkeys.
    { apply mapR_Ok in Hk. clear -Hk. induction Hk as [|x p l ps Hp _ IH]; constructor; [|done]. apply bind_Ok in Hp as (k & Hk & [= <-]). done. }
    assert (Comparator (compareKeyedRefs (A:=ExactObjectRef))) by (apply (comparator_on fst compareEncodings)).
    pose proof (js_sort_sorted compareKeyedRefs keyed) as Hs. rewrite <-(js_sort_perm compareKeyedRefs keyed) in Hkeys.
    induction Hs as [|p ps Hs IH Hp]; [constructor|]. apply Forall_cons in Hkeys as [Hpk Hkeys]. rewrite fmap_cons. constructor; [by apply IH|].
    apply Forall_fmap, Forall_forall. intros q Hq a b Ha Hb. rewrite Forall_forall in Hp, Hkeys. specialize (Hp q Hq). specialize (Hkeys q Hq).
    unfold compareKeyedRefs in Hp. simpl in Hb. congruence.
Qed.

Lemma dropped_ascend l : ∀ p q out, objectRefBytes q = objectRefBytes p → StronglySorted ref_le (p :: l) →
  drop_repeated_refs (Some p) l = Ok out → assert_ascending (Some q) out = Ok tt.
Proof.
  induction l as [|x l IH]; intros p q out Hq Hs H; cbn [drop_repeated_refs] in H; [by injection H as <-|].
  apply StronglySorted_inv in Hs as [Hs Hp]. apply Forall_cons in Hp as [Hpx _]. apply bind_Ok in H as (fresh & Hf & H).
  apply bind_Ok in H as (kept & Hk & [= <-]). apply bind_Ok in Hf as (o & Ho & [= <-]).
  apply compareObjectRefs_Ok in Ho as (a & b & Ha & Hb & ->). destruct (Z.eqb_spec (compareEncodings a b) 0) as [Hz|Hz]; cbn [negb].
  - apply (IH x q); [|done..]. apply cmp_eq in Hz as ->. congruence.
  - cbn [assert_ascending]. rewrite (proj2 (compareObjectRefs_Ok q x (compareEncodings a b))) by (exists a, b; split_and!; congruence).
    cbn [workerd_coded mbind result_bind]. specialize (Hpx a b Ha Hb). rewrite (proj2 (Z.ltb_lt _ _)) by lia. cbn [ensure mbind result_bind]. by apply (IH x x).
Qed.

Lemma dropped_covers l : ∀ p out, drop_repeated_refs (Some p) l = Ok out →
  (∀ x, x ∈ l → objectRefBytes x = objectRefBytes p ∨ ∃ x', x' ∈ out ∧ objectRefBytes x' = objectRefBytes x) ∧ out ⊆ l.
Proof.
  induction l as [|y l IH]; intros p out H; cbn [drop_repeated_refs] in H; [injection H as <-; split; [by intros x ?%not_elem_of_nil|done]|].
  apply bind_Ok in H as (fresh & Hf & H). apply bind_Ok in H as (kept & Hk & [= <-]). apply bind_Ok in Hf as (o & Ho & [= <-]).
  destruct (IH _ _ Hk) as [Hc Hsub]. apply compareObjectRefs_Ok in Ho as (a & b & Ha & Hb & ->).
  destruct (Z.eqb_spec (compareEncodings a b) 0) as [Hz|Hz]; cbn [negb].
  - apply cmp_eq in Hz as ->. split; [|set_solver]. intros x [->|Hx]%elem_of_cons; [left; congruence|].
    destruct (Hc x Hx) as [Hx'|]; [left; congruence|by right].
  - split; [|set_solver]. intros x [->|Hx]%elem_of_cons; [right; exists y; by split; [left|]|]. right.
    destruct (Hc x Hx) as [Hx'|(x' & ? & ?)]; [exists y; by split; [left|]|exists x'; by split; [right|]].
Qed.

(** The reads of a result: strictly ascending, all of them, and no others. *)
Lemma uniqueReads_Ok reads out : uniqueReads reads = Ok out →
  assert_ascending None out = Ok tt ∧ (∀ x, x ∈ reads → ∃ x', x' ∈ out ∧ objectRefBytes x' = objectRefBytes x) ∧ out ⊆ reads.
Proof.
  unfold uniqueReads. intros (sorted & Hs & H)%bind_Ok. pose proof (sort_by_ref_perm _ _ _ Hs) as Hp. apply sorted_refs in Hs.
  assert (∀ x, x ∈ reads ↔ x ∈ sorted) as Hin by (intros x; by rewrite Hp). destruct sorted as [|x l]; cbn [drop_repeated_refs] in H.
  - injection H as <-. split; [done|]. split; [intros x Hx%Hin; by apply not_elem_of_nil in Hx|set_solver].
  - cbn [mbind result_bind] in H. apply bind_Ok in H as (kept & Hk & [= <-]). destruct (dropped_covers _ _ _ Hk) as [Hc Hsub]. split_and!.
    + cbn [assert_ascending mbind result_bind]. by apply (dropped_ascend l x x).
    + intros y [->|Hy]%Hin%elem_of_cons; [exists x; by split; [left|]|]. destruct (Hc y Hy) as [Hy'|(x' & ? & ?)]; [exists x; by split; [left|]|exists x'; by split; [right|]].
    + intros y [->|Hy]%elem_of_cons; apply Hin; [by left|right; by apply Hsub].
Qed.

(** ** What the kernel of the controller did *)

Section controlled.
Context {D : Type} `{!EqDecision D} (inputs : HostInputs).

(** What the host answered and the controller took, of each sort. *)
Definition creation (entry : Call D * Answer D) : option D :=
  match entry with (call_create _ _, answer_output output) => Some output | _ => None end.
Definition finalization (entry : Call D * Answer D) : option (D * ExactDatabaseRef) :=
  match entry with (call_finalize _ output, answer_database ref) => Some (output, ref) | _ => None end.
Definition checkpointing (entry : Call D * Answer D) : option (D * ExactDatabaseRef) :=
  match entry with (call_checkpoint _ output _, answer_database ref) => Some (output, ref) | _ => None end.
Definition written (entry : Call D * Answer D) : option (ChronologTypedArtifactWrite * ExactArtifactRef) :=
  match entry with
  | (call_write request, answer_artifact ref) => if assertWrittenArtifact request ref is Ok _ then Some (request, ref) else None
  | _ => None
  end.

(** What holds of a request that was let through. *)
Definition call_fit (s : Session D) (c : Call D) : Prop :=
  match c with
  | call_read ref => ref ∈ ss_reads s
  | call_create name from => name = js "materialized" ∧ map_has from inputs = true
  | call_write request => assertArtifactRequest request = Ok tt
  | call_finalize name output => name = js "materialized" ∧ head (ss_created s) = Some output
  | call_checkpoint selector output nextOrderIndex =>
      selector = js "checkpoint" ∧ is_uint nextOrderIndex = true ∧ head (ss_created s) = Some output
  end.

Record accounted (reads : list ExactObjectRef) (c : Controller D) : Prop := mkAccounted {
  ac_created : ss_created (ct_session c) = omap creation (ct_ledger c);
  ac_finalized : ss_finalized (ct_session c) = (omap finalization (ct_ledger c)).*2;
  ac_checkpointed : ss_checkpointed (ct_session c) = (omap checkpointing (ct_ledger c)).*2;
  ac_artifacts : ss_artifacts (ct_session c) = omap written (ct_ledger c);
  ac_reads : reads ⊆ ss_reads (ct_session c);
  ac_calls : Forall (call_fit (ct_session c)) (ct_pending c ++ (ct_ledger c).*1);
}.

(** Sessions only grow. *)
Definition grows (s s' : Session D) : Prop := ss_reads s ⊆ ss_reads s' ∧ ss_created s `prefix_of` ss_created s'.

Lemma call_fit_grows s s' c : grows s s' → call_fit s c → call_fit s' c.
Proof.
  intros [Hr [l Hc]]. destruct c; cbn [call_fit]; [apply Hr|done|done| |]; rewrite Hc; destruct (ss_created s); [by intros [? ?]|done|by intros (? & ? & ?)|done].
Qed.

Lemma begin_call_Ok s c s' : begin_call inputs s c = Ok s' →
  call_fit s' c ∧ grows s s' ∧ ss_created s' = ss_created s ∧ ss_finalized s' = ss_finalized s ∧ ss_checkpointed s' = ss_checkpointed s ∧
  ss_artifacts s' = ss_artifacts s.
Proof.
  unfold begin_call, assertOutputCreation, assertKnownOutput, grows. destruct c; cbn [call_fit]; intros H; inv_ok; subst;
    rewrite ?ensure_Ok, ?andb_true_iff, ?bool_decide_eq_true in *; destruct_and?; simpl; split_and!; try done; try set_solver;
    match goal with H : ss_created _ = [_] |- _ => by rewrite H | _ => by destruct x end.
Qed.

Lemma end_call_Ok s c a s' : end_call s c a = Ok s' →
  ss_reads s' = ss_reads s ∧ ss_created s' = ss_created s ++ option_list (creation (c, a)) ∧
  ss_finalized s' = ss_finalized s ++ (option_list (finalization (c, a))).*2 ∧
  ss_checkpointed s' = ss_checkpointed s ++ (option_list (checkpointing (c, a))).*2 ∧
  ss_artifacts s' = ss_artifacts s ++ option_list (written (c, a)).
Proof.
  destruct c, a; cbn [end_call creation finalization checkpointing written]; intros H; inv_ok; subst; simpl; rewrite ?app_nil_r; try done.
  rename select (assertWrittenArtifact _ _ = Ok _) into Hw. by rewrite Hw.
Qed.

(** An answer that is refused counts for nothing. *)
Lemma end_call_Err s c a e : end_call s c a = Err e →
  creation (c, a) = None ∧ finalization (c, a) = None ∧ checkpointing (c, a) = None ∧ written (c, a) = None.
Proof.
  destruct c, a; cbn [end_call creation finalization checkpointing written]; try done.
  intros H. by destruct (assertWrittenArtifact _ _).
Qed.

Lemma omap_snoc {A B} (f : A → option B) l x : omap f (l ++ [x]) = omap f l ++ option_list (f x).
Proof. rewrite omap_app. simpl. by destruct (f x). Qed.

(** The requests known after one of those under way is answered. *)
Lemma answered_calls P (pending : list (Call D)) (ledger : list (Call D * Answer D)) i c a : pending !! i = Some c →
  Forall P (pending ++ ledger.*1) → Forall P (delete i pending ++ (ledger ++ [(c, a)]).*1).
Proof.
  intros Hi. rewrite fmap_app, !Forall_app. intros [Hp Hl]. split_and!; [|done|].
  - rewrite (delete_Permutation pending i c Hi) in Hp. by apply Forall_cons in Hp as [_ Hp].
  - constructor; [|constructor]. exact (Forall_lookup_1 _ _ _ _ Hp Hi).
Qed.

Lemma step_accounted reads c c' : controller_step inputs c c' → accounted reads c → accounted reads c'.
Proof.
  intros H [H1 H2 H3 H4 H5 H6]; destruct H as [s p l c s' H|s p l i c a s' Hi H|s p l i c a e Hi H|s p l i c Hi]; cbn [ct_session ct_ledger ct_pending] in *.
  - apply begin_call_Ok in H as (Hfit & Hg & Hc & Hf & Hk & Ha). constructor; cbn [ct_session ct_ledger ct_pending]; try congruence.
    + etrans; [done|apply Hg].
    + rewrite <-app_assoc, !Forall_app in *. destruct H6 as [H6 H7]. split_and!; [|by repeat constructor|];
        (eapply Forall_impl; [done|intros; by eapply call_fit_grows]).
  - apply end_call_Ok in H as (Hr & Hc & Hf & Hk & Ha). constructor; cbn [ct_session ct_ledger ct_pending]; rewrite ?omap_snoc; try (rewrite ?fmap_app; congruence); [by rewrite Hr|].
    eapply Forall_impl; [by apply (answered_calls _ _ _ i c a Hi)|]. intros x. apply call_fit_grows. split; [by rewrite Hr|rewrite Hc; by eexists].
  - apply end_call_Err in H as (Hc & Hf & Hk & Ha). constructor; cbn [ct_session ct_ledger ct_pending]; rewrite ?omap_snoc, ?Hc, ?Hf, ?Hk, ?Ha, ?app_nil_r; try done.
    by apply answered_calls.
  - constructor; try done. cbn [ct_session ct_ledger ct_pending]. rewrite (delete_Permutation p i c Hi) in H6. by apply Forall_cons in H6 as [_ H6].
Qed.

Lemma reached_accounted reads c : rtc (controller_step inputs) (started reads) c → accounted reads c.
Proof.
  intros H. apply (rtc_ind_r (accounted reads) (started reads)) in H; [done| |].
  - by constructor.
  - intros y z _ Hs Hy. by eapply step_accounted.
Qed.

(** An artifact of a selector that the host took down for the kernel. *)
Definition was_written (ledger : list (Call D * Answer D)) (selector : ChronologArtifactSelector) (ref : ExactArtifactRef) : Prop :=
  ∃ request stored, (call_write request, answer_artifact stored) ∈ ledger ∧ tw_selector request = selector ∧
    assertArtifactRequest request = Ok tt ∧ ar_kind stored = artifactKind selector ∧ sameArtifact stored ref = true.

(** What the host must have done for an outcome. *)
Definition backed (kept : MaterializationInput) (ledger : list (Call D * Answer D)) (outcome : ChronologMaterializationOutcome) : Prop :=
  match outcome with
  | completed c => ∃ output ref,
      omap creation ledger = [output] ∧ omap finalization ledger = [(output, ref)] ∧ omap checkpointing ledger = [] ∧
      sameDatabase (cp_outputDatabase c) ref = Ok true ∧
      was_written ledger select_materializationManifest (cp_materializationManifest c) ∧
      was_written ledger select_outcomeChanges (cp_outcomeChanges c) ∧ length (omap written ledger) = 2%nat
  | checkpointed k => ∃ output ref,
      omap creation ledger = [output] ∧ omap finalization ledger = [] ∧ omap checkpointing ledger = [(output, ref)] ∧
      sameDatabase (ck_partialDatabase k) ref = Ok true ∧
      was_written ledger select_continuation (ck_continuation k) ∧ length (omap written ledger) = 1%nat
  | unchanged u =>
      omap creation ledger = [] ∧ omap finalization ledger = [] ∧ omap checkpointing ledger = [] ∧
      sameDatabase (un_outputDatabase u) (mi_database kept) = Ok true ∧
      (if omap written ledger is [] then sameArtifact (un_materializationManifest u) (mi_manifest kept) = true
       else was_written ledger select_materializationManifest (un_materializationManifest u) ∧ length (omap written ledger) = 1%nat)
  end.

Lemma requireDatabase_Ok actual expected : requireDatabase actual expected = Ok tt → ∃ e, expected = Some e ∧ sameDatabase actual e = Ok true.
Proof. unfold requireDatabase. destruct expected; intros H; inv_ok. subst. by eexists. Qed.

Lemma accounted_written reads c entry : accounted reads c → entry ∈ ss_artifacts (ct_session c) →
  (call_write entry.1, answer_artifact entry.2) ∈ ct_ledger c ∧ assertArtifactRequest entry.1 = Ok tt ∧ assertWrittenArtifact entry.1 entry.2 = Ok tt.
Proof.
  intros [_ _ _ -> _ Hc] [[call answer] [Hin Hw]]%list_elem_of_omap. destruct call, answer; try discriminate. cbn [written] in Hw.
  destruct (assertWrittenArtifact _ _) as [[]|e] eqn:He; [|done]. injection Hw as <-. split_and!; [done| |done].
  apply Forall_app in Hc as [_ Hc]. rewrite Forall_forall in Hc. apply (Hc (call_write request)). by apply (list_elem_of_fmap_2 fst) in Hin.
Qed.

Lemma requireArtifact_Ok reads c expected named : accounted reads c → requireArtifact (ss_artifacts (ct_session c)) expected = Ok named →
  named = mkArtifactOutput expected.1 expected.2 ∧ was_written (ct_ledger c) expected.1 expected.2.
Proof.
  unfold requireArtifact. intros Hacc H. destruct (list_find _ _) as [[i write]|] eqn:Hfind; [|done]. inv_ok. subst. split; [done|].
  apply list_find_Some in Hfind as (Hin%list_elem_of_lookup_2 & Hsel & _). destruct (accounted_written _ _ _ Hacc Hin) as (Hl & Hr & Hk).
  exists write.1, write.2. split_and!; try done. unfold assertWrittenArtifact, assertArtifactRequest in *. rewrite ensure_Ok, andb_true_iff, bool_decide_eq_true in *.
  rewrite <-Hsel. destruct_and?. congruence.
Qed.

Lemma requireArtifacts_Ok reads c expected named : accounted reads c → requireArtifacts (ss_artifacts (ct_session c)) expected = Ok named →
  named = (λ e : ChronologArtifactSelector * ExactArtifactRef, mkArtifactOutput e.1 e.2) <$> expected ∧
  Forall (λ e, was_written (ct_ledger c) e.1 e.2) expected ∧ length (omap written (ct_ledger c)) = length expected.
Proof.
  unfold requireArtifacts. intros Hacc H. inv_ok. rename select (_ = true) into Hlen. apply Nat.eqb_eq in Hlen. rewrite (ac_artifacts _ _ Hacc) in Hlen.
  apply mapR_Ok in H. split_and!; [| |done]; clear Hlen; induction H as [|e n es ns He _ IH]; try constructor; try done;
    apply (requireArtifact_Ok _ _ _ _ Hacc) in He as [-> He]; [by rewrite IH|done].
Qed.

(** A private database that was finalized, or checkpointed, is the first created. *)
Lemma accounted_output reads c output ref : accounted reads c →
  (output, ref) ∈ omap finalization (ct_ledger c) ∨ (output, ref) ∈ omap checkpointing (ct_ledger c) → head (omap creation (ct_ledger c)) = Some output.
Proof.
  intros [<- _ _ _ _ Hc] Hin. apply Forall_app in Hc as [_ Hc]. rewrite Forall_forall in Hc.
  destruct Hin as [[[call answer] [Hin Hw]]%list_elem_of_omap|[[call answer] [Hin Hw]]%list_elem_of_omap]; destruct call, answer; try discriminate;
    injection Hw as <- <-; apply (list_elem_of_fmap_2 fst), Hc in Hin; cbn [call_fit fst] in Hin; by destruct_and?.
Qed.

Lemma one_output (l : list (D * ExactDatabaseRef)) : length l.*2 = 1%nat → ∃ output ref, l = [(output, ref)].
Proof. destruct l as [|[output ref] [|? ?]]; simpl; intros; try lia. by exists output, ref. Qed.

Lemma no_output (l : list (D * ExactDatabaseRef)) : length l.*2 = 0%nat → l = [].
Proof. by destruct l. Qed.

Lemma only_head {A} (l : list A) x : length l = 1%nat → head l = Some x → l = [x].
Proof. destruct l as [|y [|? ?]]; simpl; intros; try lia. congruence. Qed.

Lemma lifecycle_Ok (created finalized checkpointed : nat) (s : Session D) u :
  requireLifecycle ((length (ss_created s) =? created)%nat && (length (ss_finalized s) =? finalized)%nat && (length (ss_checkpointed s) =? checkpointed)%nat) = Ok u →
  length (ss_created s) = created ∧ length (ss_finalized s) = finalized ∧ length (ss_checkpointed s) = checkpointed.
Proof. unfold requireLifecycle. rewrite ensure_Ok, !andb_true_iff, !Nat.eqb_eq. naive_solver. Qed.

Lemma validateOutcome_Ok reads c outcome previous replayBase selected : accounted reads c →
  validateOutcome outcome previous replayBase (ct_session c) = Ok selected →
  selected = selectorsForOutcome outcome ∧ backed (default replayBase previous) (ct_ledger c) outcome.
Proof.
  intros Hacc H. pose proof (ac_created _ _ Hacc) as Hcr. pose proof (ac_finalized _ _ Hacc) as Hfi. pose proof (ac_checkpointed _ _ Hacc) as Hck.
  unfold validateOutcome in H. destruct outcome as [o|o|o]; inv_ok; subst; repeat match goal with
    | H : requireLifecycle _ = Ok _ |- _ => apply lifecycle_Ok in H as (Hn1 & Hn2 & Hn3)
    | H : requireDatabase _ _ = Ok ?u |- _ => destruct u; apply requireDatabase_Ok in H as (e & He & Hsame)
    | H : requireArtifacts _ _ = Ok _ |- _ => apply (requireArtifacts_Ok _ _ _ _ Hacc) in H as (-> & Hw & Hlen) end;
    rewrite ?Hcr, ?Hfi, ?Hck in *; cbn [backed selectorsForOutcome].
  - split; [done|]. apply one_output in Hn2 as (output & ref & Hf). apply no_output in Hn3. rewrite Hf in He. injection He as <-.
    rewrite !Forall_cons in Hw. destruct Hw as (? & ? & _). exists output, ref. split_and!; try done.
    apply only_head; [done|]. apply (accounted_output _ _ output ref Hacc). rewrite Hf. left. by left.
  - apply nil_length_inv in Hn1. apply no_output in Hn2, Hn3. injection He as <-.
    rewrite <-(ac_artifacts _ _ Hacc). destruct (ss_artifacts (ct_session c)) as [|w ws] eqn:Hws; inv_ok; subst; [by split_and!|].
    rename select (requireArtifacts _ _ = Ok _) into Ha. rewrite <-Hws in Ha. apply (requireArtifacts_Ok _ _ _ _ Hacc) in Ha as (-> & Hw & Hlen).
    rewrite Forall_singleton in Hw. rewrite <-(ac_artifacts _ _ Hacc), Hws in Hlen. cbn beta in Hw. by split_and!.
  - split; [done|]. apply one_output in Hn3 as (output & ref & Hf). apply no_output in Hn2. rewrite Hf in He. injection He as <-.
    rewrite Forall_singleton in Hw. exists output, ref. split_and!; try done.
    apply only_head; [done|]. apply (accounted_output _ _ output ref Hacc). rewrite Hf. right. by left.
Qed.

(** C28: Whatever the kernel asks for, in whatever order the host answers, and
    however many requests are under way at once, a result of the controller is
    backed by what the host did.  Its outputs and artifacts are those the outcome
    names, its application result is the encoding of the outcome.  A completed
    outcome means that the host created one private database, finalized that one
    once, to the database the outcome names, checkpointed none, and took down the
    two artifacts, of their kinds; a checkpointed one likewise; an unchanged one
    that the host created nothing and the database is the one the invocation came
    with.  The read set lists, in strictly ascending order, everything that was
    asked for and answered, and the reads of the resolution. *)
Theorem controller_result_backed reads c compatibility invocation outcome r :
  rtc (controller_step inputs) (started reads) c →
  conclude compatibility invocation outcome (ct_session c) = Ok r →
  rr_compatibility r = compatibility ∧
  (rr_outputs r, rr_artifacts r) = selectorsForOutcome outcome ∧
  encodeMaterializationOutcome outcome = Ok (rr_applicationResult r) ∧
  backed (default (iv_replayBase invocation) (iv_previous invocation)) (ct_ledger c) outcome ∧
  assert_ascending None (rr_exactReadSet r) = Ok tt ∧
  (∀ ref, (ref ∈ reads ∨ ∃ answer, (call_read ref, answer) ∈ ct_ledger c) →
     ∃ listed, listed ∈ rr_exactReadSet r ∧ objectRefBytes listed = objectRefBytes ref).
Proof.
  intros Hacc%reached_accounted H. unfold conclude in H. inv_ok. subst. cbn [rr_compatibility rr_outputs rr_artifacts rr_applicationResult rr_exactReadSet].
  rename select (validateOutcome _ _ _ _ = Ok _) into Hv. apply (validateOutcome_Ok _ _ _ _ _ _ Hacc) in Hv as [-> Hb].
  repeat match goal with H : workerd_coded _ = Ok _ |- _ => apply workerd_coded_Ok in H end. rename select (uniqueReads _ = Ok _) into Hu. apply uniqueReads_Ok in Hu as (Ha & Hc & _).
  split_and!; try done; [by destruct (selectorsForOutcome outcome)|]. intros ref Hin. apply Hc. destruct Hacc as [_ _ _ _ Hr Hf].
  destruct Hin as [Hin|[answer Hin]]; [by apply Hr|]. apply Forall_app in Hf as [_ Hf]. rewrite Forall_forall in Hf.
  by apply (Hf (call_read ref)), (list_elem_of_fmap_2 fst _ (call_read ref, answer)).
Qed.

(** The same steps as a script. *)
Inductive Move := arrives (c : Call D) | answered (i : nat) (a : Answer D) | fails (i : nat).

Definition controller_move (m : Move) (c : Controller D) : option (Controller D) :=
  match m with
  | arrives call =>
      match begin_call inputs (ct_session c) call with
      | Ok s' => Some (mkController s' (ct_pending c ++ [call]) (ct_ledger c))
      | Err _ => None
      end
  | answered i answer =>
      call ← ct_pending c !! i;
      Some (mkController (match end_call (ct_session c) call answer with Ok s' => s' | Err _ => ct_session c end)
        (delete i (ct_pending c)) (ct_ledger c ++ [(call, answer)]))
  | fails i => call ← ct_pending c !! i; Some (mkController (ct_session c) (delete i (ct_pending c)) (ct_ledger c))
  end.

Fixpoint controller_moves (ms : list Move) (c : Controller D) : option (Controller D) :=
  match ms with [] => Some c | m :: ms' => c' ← controller_move m c; controller_moves ms' c' end.

Lemma controller_move_step m c c' : controller_move m c = Some c' → controller_step inputs c c'.
Proof.
  destruct c as [s p l]. destruct m as [call|i a|i]; cbn [controller_move ct_session ct_pending ct_ledger].
  - destruct (begin_call inputs s call) eqn:He; intros [= <-]. by apply step_call.
  - intros (call & Hc & [= <-])%bind_Some. destruct (end_call s call a) eqn:He; by econstructor.
  - intros (call & Hc & [= <-])%bind_Some. by econstructor.
Qed.

Lemma controller_moves_reach ms : ∀ c c', controller_moves ms c = Some c' → rtc (controller_step inputs) c c'.
Proof.
  induction ms as [|m ms IH]; cbn [controller_moves]; intros c c' H; [by injection H as ->|].
  apply bind_Some in H as (c1 & H1%controller_move_step & H). eapply rtc_l; [done|by apply IH].
Qed.
End controlled.
Arguments Move D : clear implicits.

(** Two creations in flight at once are both let through; the second leaves the
    controller without a result.  In the session below one is refused, and a write
    and a read are under way when the database is finalized. *)
Definition sample_compatibility : ChronologCompatibilityTuple := mkCompatibility (replicate 32 x07) (replicate 32 x08).
Definition sample_completed : ChronologCompletedMaterialization :=
  mkCompleted sample_database (sample_artifact materialization_manifest x04) (sample_artifact outcome_changes x0a) 3 (replicate 32 x09) 2
    (mkContentId sha2_256 (replicate 32 x0b)).
Definition sample_inputs : HostInputs := [(name_replayBase, sample_database)].
Definition sample_write (selector : ChronologArtifactSelector) : ChronologTypedArtifactWrite := mkWrite selector (artifactKind selector) 1 [x01].
Definition sample_moves : list (Move nat) :=
  [arrives (call_create (js "materialized") name_replayBase); answered 0 (answer_output 7%nat);
   arrives (call_write (sample_write select_outcomeChanges)); arrives (call_read (sample_object x05));
   arrives (call_write (sample_write select_materializationManifest)); arrives (call_finalize (js "materialized") 7%nat);
   answered 3 (answer_database sample_database); answered 2 (answer_artifact (sample_artifact materialization_manifest x04));
   answered 1 (answer_bytes [x01]); answered 0 (answer_artifact (sample_artifact outcome_changes x0a))].

Definition sample_session : option (Controller nat) := controller_moves sample_inputs sample_moves (started [sample_object x06; sample_object x05]).

Definition sample_result : result WorkerdError ChronologReducerResult :=
  match sample_session with
  | Some c => conclude sample_compatibility sample_invocation (completed sample_completed) (ct_session c)
  | None => Err ServiceFailed
  end.

Lemma controller_result_backed_witness : ∃ c r, sample_session = Some c ∧ sample_result = Ok r ∧
  rr_exactReadSet r = [sample_object x05; sample_object x06] ∧
  (rr_outputs r, rr_artifacts r) = selectorsForOutcome (completed sample_completed).
Proof.
  do 2 eexists. do 3 (split; [vm_compute; reflexivity|]).
  refine (proj1 (proj2 (controller_result_backed sample_inputs [sample_object x06; sample_object x05] _ sample_compatibility sample_invocation (completed sample_completed) _ _ _))).
  - apply (controller_moves_reach sample_inputs sample_moves). vm_compute. reflexivity.
  - vm_compute. reflexivity.
Defined.

Example two_creations_conclude_nothing : ∀ c,
  controller_moves sample_inputs [arrives (call_create (js "materialized") name_replayBase); arrives (call_create (js "materialized") name_replayBase);
    answered 1 (answer_output 7%nat); answered 0 (answer_output 8%nat)] (started []) = Some c →
  ∀ outcome, conclude sample_compatibility sample_invocation outcome (ct_session c) = Err CHRONOLOG_OUTPUT_LIFECYCLE_MISMATCH.
Proof. intros c [= <-] []; reflexivity. Qed.

(** ** The coordinator and what it accepts *)

Definition ref_encodes (ref : ExactDatabaseRef) : Prop := ∃ w, exactDatabaseRefToCbor ref = Ok w ∧ encodable w.
Definition artifact_encodes (ref : ExactArtifactRef) : Prop := ∃ w, exactArtifactRefToCbor ref = Ok w ∧ encodable w.

Lemma encodes_same ref : ref_encodes ref → sameDatabase ref ref = Ok true.
Proof.
  intros (w & Hw & [b Hb]). unfold sameDatabase, databaseBytes. rewrite Hw. cbn [mbind result_bind]. rewrite Hb. simpl. by rewrite (proj2 (sameBytes_spec b b)).
Qed.

Lemma artifact_encodes_same ref : artifact_encodes ref → sameArtifactBytes ref ref = Ok true.
Proof.
  intros (w & Hw & [b Hb]). unfold sameArtifactBytes. rewrite Hw. cbn [mbind result_bind]. rewrite Hb. simpl. by rewrite (proj2 (sameBytes_spec b b)).
Qed.

(** A field of a written record can be written. *)
Ltac entry_encodable He :=
  eapply encodable_written; [exact He|literal_nodup|by repeat (apply list_elem_of_here || apply list_elem_of_further)].

(** The references of an outcome that was written can be written. *)
Lemma outcome_refs_encode outcome b : encodeMaterializationOutcome outcome = Ok b →
  Forall (λ o, ref_encodes (do_ref o)) (selectorsForOutcome outcome).1 ∧ Forall (λ a, artifact_encodes (ao_ref a)) (selectorsForOutcome outcome).2.
Proof.
  unfold encodeMaterializationOutcome. intros (w & Hw & Hb)%bind_Ok. apply coded_Ok in Hb.
  assert (encodable w) as He by (by exists b). clear Hb.
  destruct outcome as [o|o|o]; cbn [outcomeToCbor selectorsForOutcome fst snd] in *;
    unfold completedToCbor, unchangedToCbor, checkpointedToCbor in Hw; inv_ok; subst;
    rewrite ?Forall_cons, ?Forall_nil; split_and!; try exact I; eexists; (split; [eassumption|entry_encodable He]).
Qed.

Lemma assert_each_refl {A} (same : A → A → result WorkerdError bool) error l : Forall (λ x, same x x = Ok true) l → assert_each same error l l = Ok tt.
Proof. induction 1 as [|x l Hx _ IH]; [done|]. cbn [assert_each]. rewrite Hx. cbn [mbind result_bind ensure]. done. Qed.

Lemma accepts_own_outputs outcome b : encodeMaterializationOutcome outcome = Ok b →
  assertOutputs (selectorsForOutcome outcome).1 (selectorsForOutcome outcome).1 = Ok tt ∧
  assertArtifacts (selectorsForOutcome outcome).2 (selectorsForOutcome outcome).2 = Ok tt.
Proof.
  intros [Hd Ha]%outcome_refs_encode. unfold assertOutputs, assertArtifacts. rewrite !Nat.eqb_refl. cbn [ensure mbind result_bind].
  split; apply assert_each_refl; (eapply Forall_impl; [eassumption|]); intros x Hx; unfold same_output, same_artifact_output;
    rewrite bool_decide_eq_true_2 by done; by first [apply encodes_same | apply artifact_encodes_same].
Qed.

Lemma outcome_decodes outcome b : encodeMaterializationOutcome outcome = Ok b → outcome_fits outcome → zlen b ≤ maxBlobBytes MATERIALIZER_DECODE_LIMITS →
  decodeMaterializationOutcome MATERIALIZER_DECODE_LIMITS b = Ok outcome.
Proof.
  unfold encodeMaterializationOutcome, decodeMaterializationOutcome. intros (v & Hv & H)%bind_Ok Hw Hlen. apply coded_Ok in H.
  destruct (outcome_read _ _ Hv Hw) as (m & -> & Hm). unfold root. by rewrite (tidy_asserted 4 (CMap m) b) by (done || by eapply outcome_tidy).
Qed.

Lemma requireArtifacts_names writes expected named : requireArtifacts writes expected = Ok named →
  named = (λ e : ChronologArtifactSelector * ExactArtifactRef, mkArtifactOutput e.1 e.2) <$> expected.
Proof.
  unfold requireArtifacts. intros (_ & _ & H)%bind_Ok. apply mapR_Ok in H. induction H as [|e n es ns He _ IH]; [done|]. rewrite fmap_cons, <-IH. f_equal.
  unfold requireArtifact in He. destruct (list_find _ _) as [[? ?]|]; [|done]. by inv_ok.
Qed.

Lemma validateOutcome_selects {D} outcome previous replayBase (s : Session D) selected :
  validateOutcome outcome previous replayBase s = Ok selected → selected = selectorsForOutcome outcome.
Proof.
  unfold validateOutcome. destruct outcome as [o|o|o]; intros H; [|destruct (ss_artifacts s)|]; inv_ok; subst;
    try (rename select (requireArtifacts _ _ = Ok _) into Ha; apply requireArtifacts_names in Ha as ->); done.
Qed.

Lemma conclude_accepted compatibility invocation outcome {D} (s : Session D) r : conclude compatibility invocation outcome s = Ok r →
  rr_compatibility r = compatibility ∧ encodeMaterializationOutcome outcome = Ok (rr_applicationResult r) ∧
  rr_outputs r = (selectorsForOutcome outcome).1 ∧ rr_artifacts r = (selectorsForOutcome outcome).2 ∧ assert_ascending None (rr_exactReadSet r) = Ok tt.
Proof.
  intros H. unfold conclude in H. inv_ok. subst. cbn [rr_compatibility rr_outputs rr_artifacts rr_applicationResult rr_exactReadSet].
  repeat match goal with H : workerd_coded _ = Ok _ |- _ => apply workerd_coded_Ok in H end.
  rename select (uniqueReads _ = Ok _) into Hu. apply uniqueReads_Ok in Hu as (Ha & _ & _). rename select (validateOutcome _ _ _ _ = Ok _) into Hv.
  assert (x = selectorsForOutcome outcome) as ->; [|by split_and!]. by eapply validateOutcome_selects.
Qed.

(** C29: The two halves agree on what the formats can carry.  Of what the controller
    concludes, in whatever state its session is, the coordinator that sent the request
    accepts exactly the outcomes whose references its decoder takes ([outcome_fits]: an
    encoder also writes a format version of more than 32 bits, which is refused), provided
    that the encoded outcome is not longer than a byte string may be.  It reads that
    outcome back from the response, and finds its references named and ordered as
    it expects and the read set ascending.  So an execution returns the response if the
    client delivers it, and also if the client fails after the run and the response is
    found under the execution key. *)
Theorem controller_result_accepted sha256 {S} (client : CoordinatorClient S) value request invocation {D} (session : Session D) outcome r s :
  createChronologExecutionRequest sha256 value = Ok request →
  conclude (xr_compatibility request) invocation outcome session = Ok r →
  zlen (rr_applicationResult r) ≤ maxBlobBytes MATERIALIZER_DECODE_LIMITS →
  let response := mkExecutionResponse (xr_executionKey request) r in
  (validateChronologExecutionResponse request response = Ok outcome ↔ outcome_fits outcome) ∧
  (outcome_fits outcome →
     (∀ s1, cc_run client request s = (s1, Ok response) →
        executeChronologMaterialization sha256 client value s = (s1, Ok response)) ∧
     (∀ s1 e s2, cc_run client request s = (s1, Err e) → cc_follow client (xr_executionKey request) s1 = (s2, Ok (Some response)) →
        executeChronologMaterialization sha256 client value s = (s2, Ok response))).
Proof.
  intros Hreq (Hcomp & He & Ho & Ha & Hr)%conclude_accepted Hlen response.
  assert (validateChronologExecutionResponse request response = Ok outcome ↔ outcome_fits outcome) as Hvalid.
  { unfold validateChronologExecutionResponse, response. cbn [xs_result xs_executionKey]. split.
    { intros H. inv_ok. subst. repeat match goal with H : workerd_coded _ = Ok _ |- _ => apply workerd_coded_Ok in H end.
      by eapply (proj1 (proj2 (outcome_codec _ _ Hlen))). }
    intros Hfits. unfold assertResponseCompatibility.
    rewrite Hcomp, !(proj2 (sameBytes_spec _ _) eq_refl), (outcome_decodes _ _ He Hfits Hlen). cbn. rewrite He. cbn.
    rewrite (proj2 (sameBytes_spec _ _) eq_refl). cbn. destruct (accepts_own_outputs _ _ He) as [H1 H2]. by rewrite Ho, Ha, H1, H2, Hr. }
  split; [done|]. intros Hfits. apply Hvalid in Hfits. clear Hvalid.
  unfold executeChronologMaterialization, run_or_follow, pure_workerd. split.
  - intros s1 Hrun. cbv [mbind mret SE_bind SE_ret]. rewrite Hreq, Hrun. by rewrite Hfits.
  - intros s1 e s2 Hrun Hf. cbv [mbind mret SE_bind SE_ret]. rewrite Hreq, Hrun, Hf. by rewrite Hfits.
Qed.

(** *** What an execution key stands for *)

#[export] Instance compareInputs_comparator : Comparator compareInputs.
Proof. unfold compareInputs. split; intros; lia. Qed.

Lemma compareInputs_zero x y : compareInputs x y = 0 → ni_name x = ni_name y.
Proof. unfold compareInputs. destruct (ni_name x), (ni_name y); simpl; intros; lia || done. Qed.

(** The order the inputs are given in does not matter. *)
Lemma canonicalInputs_perm l1 l2 : l1 ≡ₚ l2 → canonicalInputs l1 = canonicalInputs l2.
Proof.
  intros Hp. unfold canonicalInputs. assert (ni_name <$> js_sort compareInputs l1 ≡ₚ ni_name <$> js_sort compareInputs l2) as Hn by (by rewrite !js_sort_perm, Hp).
  rewrite (bool_decide_ext (NoDup (ni_name <$> js_sort compareInputs l1)) (NoDup (ni_name <$> js_sort compareInputs l2))) by (by rewrite Hn).
  rewrite (bool_decide_ext (name_replayBase ∈ ni_name <$> js_sort compareInputs l1) (name_replayBase ∈ ni_name <$> js_sort compareInputs l2)) by (by rewrite Hn).
  destruct (bool_decide (NoDup _)) eqn:Hd; [|done]. apply bool_decide_eq_true in Hd. rewrite <-Hn in Hd. f_equal. 
  assert (js_sort compareInputs l2 = js_sort compareInputs l1) as ->; [|done]. apply js_sort_perm_strict; [apply _|done|].
  pose proof (js_sort_sorted compareInputs l1) as Hs. clear Hn. induction Hs as [|x l _ IH Hx]; [constructor|].
  rewrite fmap_cons in Hd. apply NoDup_cons in Hd as [Hni Hd]. constructor; [by apply IH|]. rewrite Forall_forall in Hx |- *. intros y Hy.
  destruct (Z.eq_dec (compareInputs x y) 0) as [Hz|]; [|specialize (Hx y Hy); lia]. apply compareInputs_zero in Hz.
  destruct Hni. rewrite Hz. by apply (list_elem_of_fmap_2 ni_name).
Qed.

Definition same_input (x y : NamedInput) : Prop := ni_name x = ni_name y ∧ sameDatabase (ni_ref x) (ni_ref y) = Ok true.

Lemma input_determined x y v w : namedInputToCbor x = Ok v → namedInputToCbor y = Ok w → encodable v → canonical_form v = canonical_form w → same_input x y.
Proof.
  unfold namedInputToCbor. intros Hv Hw He Heq. inv_ok. subst. rename x into i, y into j.
  rename select (exactDatabaseRefToCbor (ni_ref i) = Ok _) into Hi. rename select (exactDatabaseRefToCbor (ni_ref j) = Ok _) into Hj.
  field_eq Heq 0 E0. field_eq Heq 1 E1. split.
  - destruct (ni_name i), (ni_name j); done.
  - destruct (database_ref_tidy _ _ Hi) as [Ti _], (database_ref_tidy _ _ Hj) as [Tj _]. rewrite Ti, Tj in E1. injection E1 as ->.
    assert (encodable x0) as [b Hb] by entry_encodable He.
    unfold sameDatabase, databaseBytes. rewrite Hi, Hj. cbn [mbind result_bind]. rewrite Hb. cbn. by rewrite (proj2 (sameBytes_spec b b)).
Qed.

Definition KEY_DOMAIN : bytes := match utf8 EXECUTION_KEY_DOMAIN with Ok b => b | Err _ => [] end.

Lemma key_framed p : framedBytes EXECUTION_KEY_DOMAIN p = Ok (frame KEY_DOMAIN ++ x00 :: p).
Proof.
  unfold framedBytes. assert (utf8 EXECUTION_KEY_DOMAIN = Ok KEY_DOMAIN) as -> by (vm_compute; reflexivity).
  cbn [coded mbind result_bind]. rewrite !concatBytes_cons, concatBytes_nil, app_nil_r. unfold frame. by rewrite <-app_assoc.
Qed.

Lemma compatibility_flat c : canonical_form (compatibilityToCbor c) = compatibilityToCbor c.
Proof. unfold compatibilityToCbor. apply integerMap_canonical; [done|]. repeat constructor; intros v [= <-]; done. Qed.

Lemma payload_determined v1 v2 i1 i2 p : executionPayload v1 i1 = Ok p → executionPayload v2 i2 = Ok p → zlen p ≤ MAX_SAFE_INTEGER →
  ci_invocation v1 = ci_invocation v2 ∧ ci_compatibility v1 = ci_compatibility v2 ∧ Forall2 same_input i1 i2.
Proof.
  unfold executionPayload. intros (w1 & Hw1 & H1)%bind_Ok (w2 & Hw2 & H2)%bind_Ok Hlen. apply coded_Ok in H1, H2.
  pose proof (encode_injective _ _ _ H1 H2 Hlen) as Heq. field_eq Heq 1 E1. field_eq Heq 2 E2.
  assert (encodable (CArray w1)) as He by entry_encodable (ex_intro _ p H1 : encodable _).
  pose proof (encodable_array w1) as Harr. specialize (λ v, Harr v He).
  split_and!; [by injection E1| |].
  - clear -Heq. remember (compatibilityToCbor (ci_compatibility v1)) as c1 eqn:Hc1. remember (compatibilityToCbor (ci_compatibility v2)) as c2 eqn:Hc2.
    field_eq Heq 3 E3. injection E3 as E3. rewrite Hc1, Hc2, !compatibility_flat in E3. unfold compatibilityToCbor in E3.
    destruct (ci_compatibility v1), (ci_compatibility v2). vm_compute in E3. congruence.
  - clear -Hw1 Hw2 Harr E2. injection E2 as E2. apply mapR_Ok in Hw1, Hw2. revert i2 w2 Hw2 E2.
    induction Hw1 as [|x v i1 w1 Hx _ IH]; intros i2 w2 Hw2; destruct Hw2 as [|y w i2 w2 Hy Hw2]; try done.
    rewrite !fmap_cons. intros [= Hvw Hrest]. constructor; [|eapply IH; [|done..]; intros; apply Harr; by right].
    eapply input_determined; [done..| |done]. apply Harr. by left.
Qed.

Lemma request_key sha256 value r : createChronologExecutionRequest sha256 value = Ok r ↔
  ∃ inputs p, canonicalInputs (ci_inputs value) = Ok inputs ∧ executionPayload value inputs = Ok p ∧
    r = mkExecutionRequest (sha256 (frame KEY_DOMAIN ++ x00 :: p)) (ci_invocation value) inputs (ci_compatibility value).
Proof.
  unfold createChronologExecutionRequest. split.
  - intros (i & Hi & (p & Hp & H)%bind_Ok)%bind_Ok. apply workerd_coded_Ok in Hp. rewrite key_framed in H. injection H as <-. by exists i, p.
  - intros (i & p & Hi & Hp & ->). rewrite Hi. cbn [mbind result_bind]. rewrite Hp. cbn [workerd_coded mbind result_bind]. by rewrite key_framed.
Qed.

(** C30: The execution key stands for the execution.  Two requests with one key
    have the same invocation, the same compatibility tuple and, name by name,
    inputs with the same bytes, or else the two byte strings that were hashed are a
    SHA-256 collision; and the order in which the caller lists the inputs has no
    part in it. *)
Theorem execution_key_binds sha256 v1 v2 r1 r2 :
  createChronologExecutionRequest sha256 v1 = Ok r1 → createChronologExecutionRequest sha256 v2 = Ok r2 →
  (∀ p, executionPayload v1 (xr_inputs r1) = Ok p → zlen p ≤ MAX_SAFE_INTEGER) →
  (xr_executionKey r1 = xr_executionKey r2 →
     (xr_invocation r1 = xr_invocation r2 ∧ xr_compatibility r1 = xr_compatibility r2 ∧ Forall2 same_input (xr_inputs r1) (xr_inputs r2)) ∨
     ∃ p1 p2, executionPayload v1 (xr_inputs r1) = Ok p1 ∧ executionPayload v2 (xr_inputs r2) = Ok p2 ∧
       collision sha256 (frame KEY_DOMAIN ++ x00 :: p1) (frame KEY_DOMAIN ++ x00 :: p2)) ∧
  (∀ inputs, inputs ≡ₚ ci_inputs v1 →
     createChronologExecutionRequest sha256 (mkCoordinatorInvocation (ci_invocation v1) inputs (ci_compatibility v1)) = Ok r1).
Proof.
  intros H1 (i2 & p2 & Hi2 & Hp2 & ->)%request_key Hlen. split.
  - apply request_key in H1 as (i1 & p1 & Hi1 & Hp1 & ->). cbn [xr_executionKey xr_invocation xr_compatibility xr_inputs] in *. intros Hkey.
    destruct (decide (p1 = p2)) as [->|Hne].
    + left. eapply payload_determined; [done..|by apply Hlen].
    + right. exists p1, p2. split_and!; [done..|]. split; [|done]. intros [= ?]%app_inv_head. done.
  - intros inputs Hp. apply request_key in H1 as (i1 & p1 & Hi1 & Hp1 & ->). apply request_key. exists i1, p1.
    cbn [ci_inputs]. by rewrite (canonicalInputs_perm _ _ Hp).
Qed.

Definition sample_value (inputs : list NamedInput) : ChronologCoordinatorInvocation :=
  mkCoordinatorInvocation [x01; x02] inputs sample_compatibility.

Definition sample_request : result WorkerdError ChronologExecutionRequest :=
  createChronologExecutionRequest id (sample_value [mkNamedInput name_replayBase sample_database; mkNamedInput name_previous sample_database]).

Lemma execution_key_binds_witness : ∃ r, sample_request = Ok r ∧
  createChronologExecutionRequest id (sample_value [mkNamedInput name_previous sample_database; mkNamedInput name_replayBase sample_database]) = Ok r.
Proof.
  destruct sample_request as [r|] eqn:Hr; [|vm_compute in Hr; discriminate]. exists r. split; [done|].
  refine (proj2 (execution_key_binds id _ _ r r Hr Hr _) _ (Permutation_swap _ _ _)).
  vm_compute in Hr. injection Hr as <-. intros p Hp. vm_compute in Hp. injection Hp as <-. vm_compute. discriminate.
Defined.

(** A client that loses the reply of the run. *)
Definition sample_reply : option ChronologExecutionResponse :=
  match createChronologExecutionRequest id (sample_value [mkNamedInput name_replayBase sample_database]), sample_result with
  | Ok request, Ok r => Some (mkExecutionResponse (xr_executionKey request) r)
  | _, _ => None
  end.
Definition forgetful_client : CoordinatorClient (option ChronologExecutionResponse) :=
  mkClient (λ _ _, (sample_reply, Err ServiceFailed)) (λ _ s, (s, Ok s)).

Lemma controller_result_accepted_witness : ∃ response,
  sample_reply = Some response ∧
  executeChronologMaterialization id forgetful_client (sample_value [mkNamedInput name_replayBase sample_database]) None = (sample_reply, Ok response).
Proof.
  destruct sample_session as [c|] eqn:Hc; [|vm_compute in Hc; discriminate].
  destruct (createChronologExecutionRequest id (sample_value [mkNamedInput name_replayBase sample_database])) as [request|] eqn:Hreq; [|vm_compute in Hreq; discriminate].
  destruct sample_result as [r|] eqn:Hr; [|vm_compute in Hr; discriminate].
  exists (mkExecutionResponse (xr_executionKey request) r). unfold sample_reply. rewrite Hreq, Hr. split; [done|].
  refine (proj2 (proj2 (controller_result_accepted id forgetful_client _ request sample_invocation (ct_session c) (completed sample_completed) r None Hreq _ _) _) _ ServiceFailed _ _ _).
  - vm_compute in Hreq. injection Hreq as <-. vm_compute in Hc. injection Hc as <-. vm_compute in Hr. injection Hr as <-. vm_compute. reflexivity.
  - vm_compute in Hr. injection Hr as <-. vm_compute. discriminate.
  - fits_concretely.
  - cbn. unfold sample_reply. rewrite Hreq, Hr. reflexivity.
  - reflexivity.
Defined.

(** ** Publication *)

(** [moves] are the exchanges the backend applied for this publisher, of which no
    other operation makes any.  An exchange that succeeds says whether it was
    applied; one that fails may have been. *)
Class CasLaws (B : Type) `{!CasBackend B} := {
  moves : B → list CasRequest;
  verify_moves r b b' x : verifyExactOutput r b = (b', x) → moves b' = moves b;
  read_moves n b b' x : readRef n b = (b', x) → moves b' = moves b;
  swap_applied q b b' s : compareAndSwapRef q b = (b', Ok (true, s)) → moves b' = moves b ++ [q];
  swap_refused q b b' s : compareAndSwapRef q b = (b', Ok (false, s)) → moves b' = moves b;
  swap_failed q b b' e : compareAndSwapRef q b = (b', Err e) → moves b' = moves b ∨ moves b' = moves b ++ [q];
}.

Section published.
Context {B : Type} `{!CasBackend B} `{!CasLaws B}.

Definition selected_of (request : ChronologPublicationRequest) : ExactDatabaseRef := do_ref (pb_selectedOutput request).

(** The exchange a publication makes: from what it expected to find and found. *)
Definition its_move (request : ChronologPublicationRequest) (before : ChronologCasRefState) : CasRequest :=
  mkCasRequest (pb_refName request) (rf_generation before) (pb_expectedCurrent request) (selected_of request) (pb_executionKey request).

Definition status_means (request : ChronologPublicationRequest) (made : list CasRequest) (result : ChronologWorkerdPublicationResult) : Prop :=
  match wr_status result with
  | published => length made = 1%nat ∧ sameRefs (wr_current result) (Some (selected_of request)) = Ok true
  | already_current => sameRefs (wr_current result) (Some (selected_of request)) = Ok true
  | publication_conflict => sameRefs (wr_current result) (Some (selected_of request)) = Ok false
  end.

Lemma se_bind_inv {S A C} (m : SE S WorkerdError A) (k : A → SE S WorkerdError C) s s' x : (m ≫= k) s = (s', x) →
  (∃ e, m s = (s', Err e) ∧ x = Err e) ∨ ∃ s1 a, m s = (s1, Ok a) ∧ k a s1 = (s', x).
Proof.
  cbv [mbind SE_bind]. destruct (m s) as [s1 [a|e]] eqn:Hm; intros H; [right; by exists s1, a|left]. injection H as <- <-. by exists e.
Qed.

Lemma reconcile_means request error b b' x : reconcile request error b = (b', x) →
  moves b' = moves b ∧ ∀ result, x = Ok result → ∀ made, status_means request made result.
Proof.
  unfold reconcile. intros [(e & H & ->)|(b1 & st & Hr & H)]%se_bind_inv; [split; [by eapply read_moves|done]|].
  rewrite <-(read_moves _ _ _ _ Hr). apply se_bind_inv in H as [(e & H & ->)|(b2 & sel & Hs & H)]; [by injection H as <- _|].
  injection Hs as -> Hs. destruct sel.
  - injection H as <- <-. split; [done|]. intros result [= <-] made. exact Hs.
  - apply se_bind_inv in H as [(e & H & ->)|(b3 & un & Hu & H)]; [by injection H as <- _|]. injection Hu as -> Hu.
    destruct un; injection H as <- <-; split; try done. intros result [= <-] made. exact Hs.
Qed.

Lemma exchange_means request before b b' x : exchange request before b = (b', x) →
  ∃ made, moves b' = moves b ++ made ∧ (made = [] ∨ made = [its_move request before]) ∧ ∀ result, x = Ok result → status_means request made result.
Proof.
  unfold exchange. fold (selected_of request). fold (its_move request before).
  intros [(e & H & ->)|(b1 & [applied st] & Hx & H)]%se_bind_inv.
  { destruct (swap_failed _ _ _ _ H) as [Hm|Hm]; [exists []|exists [its_move request before]]; rewrite Hm, ?app_nil_r; split_and!; try done; by (left + right). }
  exists (if applied then [its_move request before] else []).
  assert (moves b1 = moves b ++ (if applied then [its_move request before] else [])) as Hm.
  { destruct applied; [by eapply swap_applied|rewrite app_nil_r; by eapply swap_refused]. }
  assert (b1 = b' ∧ ∀ result, x = Ok result → status_means request (if applied then [its_move request before] else []) result) as [<- Hr];
    [|split_and!; [done| |done]; destruct applied; auto].
  apply se_bind_inv in H as [(e & H & ->)|(b2 & same & Hs & H)]; [by injection H as <- _|]. injection Hs as -> Hs. cbn [fst snd] in *.
  destruct applied.
  - apply se_bind_inv in H as [(e & H & ->)|(b3 & u & Hu & H)]; [by injection H as <- _|]. injection Hu as -> Hu. injection H as <- <-.
    split; [done|]. intros result [= <-]. apply ensure_Ok in Hu as ->. by split.
  - injection H as <- <-. split; [done|]. intros result [= <-]. destruct same; exact Hs.
Qed.

Lemma exchange_or_reconcile_means request before b b' x : exchange_or_reconcile request before b = (b', x) →
  ∃ made, moves b' = moves b ++ made ∧ (made = [] ∨ made = [its_move request before]) ∧ ∀ result, x = Ok result → status_means request made result.
Proof.
  unfold exchange_or_reconcile. destruct (exchange request before b) as [b1 [result|e]] eqn:He; intros H;
    destruct (exchange_means _ _ _ _ _ He) as (made & Hm & Hmade & Hr); exists made; [by injection H as <- <-|].
  destruct (reconcile_means _ _ _ _ _ H) as [Hsame Hmeans]. split_and!; [congruence|done|]. intros result Hx. by apply Hmeans.
Qed.

(** C31: A publication moves the reference at most once, and only after the output
    was verified, from the reference it expected and found, at the generation it
    found it, to the selected output.  This holds however the backend fails, also
    when an exchange fails of which nobody can say whether it was applied: it is
    not repeated.  [published] means one exchange of its own; that, and
    [already_current], that the reference was last seen at the selected output;
    [publication_conflict], that it was last seen elsewhere. *)
Theorem publication_moves_once request b b' x : publishChronologCasIntent request b = (b', x) →
  ∃ made, moves b' = moves b ++ made ∧
    (made = [] ∨ ∃ b1 b2 before, verifyExactOutput request b = (b1, Ok tt) ∧ readRef (pb_refName request) b1 = (b2, Ok before) ∧
       sameRefs (rf_current before) (pb_expectedCurrent request) = Ok true ∧
       sameRefs (rf_current before) (Some (selected_of request)) = Ok false ∧ made = [its_move request before]) ∧
    ∀ result, x = Ok result → status_means request made result.
Proof.
  unfold publishChronologCasIntent. intros [(e & H & ->)|(b1 & [] & Hv & H)]%se_bind_inv.
  { exists []. rewrite app_nil_r. split_and!; [by eapply verify_moves|by left|done]. }
  apply se_bind_inv in H as [(e & H & ->)|(b2 & before & Hr & H)].
  { exists []. rewrite app_nil_r. split_and!; [|by left|done]. rewrite <-(verify_moves _ _ _ _ Hv). by eapply read_moves. }
  rewrite <-(verify_moves _ _ _ _ Hv), <-(read_moves _ _ _ _ Hr).
  apply se_bind_inv in H as [(e & H & ->)|(b3 & current & Hs & H)].
  { injection H as -> _. exists []. rewrite app_nil_r. split_and!; [done|by left|done]. }
  injection Hs as -> Hs. destruct current.
  { injection H as <- <-. exists []. rewrite app_nil_r. split_and!; [done|by left|]. intros result [= <-]. exact Hs. }
  apply se_bind_inv in H as [(e & H & ->)|(b4 & expected & Hx & H)].
  { injection H as -> _. exists []. rewrite app_nil_r. split_and!; [done|by left|done]. }
  injection Hx as -> Hx. destruct expected.
  - apply exchange_or_reconcile_means in H as (made & Hm & Hmade & Hmeans). exists made. split_and!; [done| |done].
    destruct Hmade as [->| ->]; [by left|right; by exists b1, b4, before].
  - injection H as <- <-. exists []. rewrite app_nil_r. split_and!; [done|by left|]. intros result [= <-]. exact Hs.
Qed.
End published.

(** A backend that applies an exchange and then fails. *)
#[local] Instance lossy_backend : CasBackend (option ExactDatabaseRef * list CasRequest) := {|
  verifyExactOutput _ b := (b, Ok tt);
  readRef _ b := (b, Ok (mkRefState (Some (zlen b.2)) b.1));
  compareAndSwapRef q b :=
    match sameRefs b.1 (cq_expectedCurrent q) with
    | Ok true => ((Some (cq_selected q), b.2 ++ [q]), Err ServiceFailed)
    | _ => (b, Ok (false, mkRefState (Some (zlen b.2)) b.1))
    end;
|}.
#[local] Instance lossy_laws : CasLaws (option ExactDatabaseRef * list CasRequest).
Proof.
  refine {| moves b := b.2 |}; simpl; intros; repeat case_match; simplify_eq; try done. by right.
Defined.

Definition sample_publication : ChronologPublicationRequest :=
  mkPublication (replicate 32 x01) (js "main") (mkDatabaseOutput output_materialized sample_database) None.

Lemma publication_moves_once_witness : ∃ b' result, publishChronologCasIntent sample_publication (None, []) = (b', Ok result) ∧
  wr_status result = already_current ∧ ∃ made, b'.2 = made ∧
    (made = [] ∨ ∃ b1 b2 before, verifyExactOutput sample_publication (None, []) = (b1, Ok tt) ∧ readRef (js "main") b1 = (b2, Ok before) ∧
       sameRefs (rf_current before) None = Ok true ∧ sameRefs (rf_current before) (Some sample_database) = Ok false ∧ made = [its_move sample_publication before]).
Proof.
  destruct (publishChronologCasIntent sample_publication (None, [])) as [b' [result|e]] eqn:H; [|vm_compute in H; discriminate].
  exists b', result. split; [done|]. split; [vm_compute in H; injection H as <- <-; reflexivity|].
  destruct (publication_moves_once sample_publication (None, []) _ _ H) as (made & Hm & Hmade & _). exists made. split; [exact Hm|exact Hmade].
Defined.
