(* ===== verification/Blobs.v ===== *)
(** * Content-addressed blobs: [packages/node-core/src/blobs.ts]

    The stores that keep the chunks of large envelope payloads under their
    digests, the read-through replication of one, and the splitting of a payload
    into chunks and its reassembly.  The network ([fetch]) is a parameter, and so
    is the file system, through [FileSystem].  The stores share one state type, so
    that a replicated store can be built from others. *)

From Stdlib Require Import Strings.Byte Strings.String.
From stdpp Require Import base list option numbers.
From S2P Require Import Prelude JsMap Bytes JsNumber Cbor Messages CapTypes FileSystem.

#[local] Open Scope Z_scope.

Inductive BlobError :=
  | BLOB_CHUNK_DIGEST_MISMATCH
  | BLOB_DIGEST_INVALID
  | BLOB_REMOTE_READ_ONLY
  | BLOB_REMOTE_HTTP (status : Z)
  | BLOB_REMOTE_SIZE_LIMIT
  | BLOB_REMOTE_FETCH_FAILED
  | BLOB_PAYLOAD_INLINE_ELIGIBLE
  | BLOB_PAYLOAD_LIMIT
  | BLOB_CHUNK_MISSING (digest : jsstring)
  | BLOB_OPTIONS_INVALID
  | BlobCoded (code : ErrorCode)
  | BlobFile (e : FsError)
  | BlobNetwork.

Definition blob_coded {A} (r : result ErrorCode A) : result BlobError A :=
  match r with Ok a => Ok a | Err code => Err (BlobCoded code) end.

(** [ContentAddressedBlobStore] *)
Record BlobStore (S : Type) := mkBlobStore {
  blob_put : bytes → bytes → SE S BlobError unit;
  blob_get : bytes → SE S BlobError (option bytes);
}.
Arguments mkBlobStore {S}.
Arguments blob_put {S}.
Arguments blob_get {S}.

(** A computation that does not touch the state. *)
Definition pure_blob {S A} (r : result BlobError A) : SE S BlobError A := λ s, (s, r).

(** [try { m } catch (error) { handler(error) }] *)
Definition try_catch {S E A} (m : SE S E A) (handler : E → SE S E A) : SE S E A := λ s,
  match m s with (s', Err e) => handler e s' | other => other end.

Section blobs.
Context (sha256 : bytes → bytes).

Definition verifyChunk (digest b : bytes) : result BlobError unit :=
  if negb (length digest =? 32)%nat then Err BLOB_CHUNK_DIGEST_MISMATCH
  else
  h ← blob_coded (payloadChunkDigest sha256 b);
  ensure (equalBytes h digest) BLOB_CHUNK_DIGEST_MISMATCH.

(** ** [MemoryBlobStore] *)

Definition MemoryBlobStore : BlobStore (jsmap jsstring bytes) := {|
    blob_put := λ digest b,
    pure_blob (verifyChunk digest b) ;; modify (map_set (bytesToHex digest) b);
    blob_get := λ digest values, (values, Ok (map_get (bytesToHex digest) values));
    |}.

(** ** [FileBlobStore] *)

Section files.
Context {F : Type} `{!FileSystem bytes F} (root pid : jsstring).

Definition lift_file {A} (m : SE F FsError A) : SE F BlobError A := λ f,
  let (f', r) := m f in (f', match r with Ok a => Ok a | Err e => Err (BlobFile e) end).

(** [join(this.root, identity.slice(0, 2), identity.slice(2))] for a normal [root] *)
Definition blob_path (digest : bytes) : result BlobError path :=
  let identity := bytesToHex digest in
  ensure (length digest =? 32)%nat BLOB_DIGEST_INVALID ≫= λ _,
  Ok (root ++ [47] ++ take 2 identity ++ [47] ++ drop 2 identity).

Definition isMissing (e : BlobError) : bool := match e with BlobFile ENOENT => true | _ => false end.

(** [`${path}.${process.pid}.tmp`] *)
Definition blob_temporary (p : path) : path := p ++ [46] ++ pid ++ js ".tmp".

Definition file_blob_put (digest b : bytes) : SE F BlobError unit :=
  pure_blob (verifyChunk digest b) ;;
  p ← pure_blob (blob_path digest);
  present ← try_catch
  (existing ← lift_file (readFileSync p); pure_blob (verifyChunk digest existing) ;; mret true)
  (λ e, if isMissing e then mret false else throw e);
  if (present : bool) then mret tt
  else
  lift_file (mkdirSync (dirname p)) ;;
  lift_file (writeFileSync (blob_temporary p) b) ;;
  lift_file (fsyncSync (blob_temporary p)) ;;
  lift_file (renameSync (blob_temporary p) p).

Definition file_blob_get (digest : bytes) : SE F BlobError (option bytes) :=
  try_catch
  (p ← pure_blob (blob_path digest);
    value ← lift_file (readFileSync p);
    pure_blob (verifyChunk digest value) ;;
    mret (Some value))
  (λ e, if isMissing e then mret None else throw e).

Definition FileBlobStore : BlobStore F := mkBlobStore file_blob_put file_blob_get.
End files.

(** ** [HttpBlobStore] *)

Record HttpResponse := mkResponse {
    hr_status : Z;
    hr_contentLength : option jsstring;
    hr_body : bytes;
}.

Section http.
Context {N : Type} (fetch : jsstring → option jsstring → SE N BlobError HttpResponse)
  (baseUrl : jsstring) (token : option jsstring) (maximumChunkBytes : Z).

(** The declared length is not a number, or too large. *)
Definition length_refused (declared : option jsstring) : bool :=
  match declared with
  | None => false
  | Some d => negb ((0 <? length d)%nat && forallb is_digit d) || (maximumChunkBytes <? digits_value d)
  end.

Definition http_blob_get (digest : bytes) : SE N BlobError (option bytes) :=
  pure_blob (ensure (length digest =? 32)%nat BLOB_DIGEST_INVALID) ;;
  response ← fetch (baseUrl ++ js "/blobs/" ++ bytesToHex digest) token;
  if hr_status response =? 404 then mret None
  else if negb ((200 <=? hr_status response) && (hr_status response <=? 299))
  then throw (BLOB_REMOTE_HTTP (hr_status response))
  else if length_refused (hr_contentLength response) then throw BLOB_REMOTE_SIZE_LIMIT
  else if maximumChunkBytes <? zlen (hr_body response) then throw BLOB_REMOTE_SIZE_LIMIT
  else pure_blob (verifyChunk digest (hr_body response)) ;; mret (Some (hr_body response)).

Definition HttpBlobStore : BlobStore N := mkBlobStore (λ _ _, throw BLOB_REMOTE_READ_ONLY) http_blob_get.
End http.

(** ** [ReplicatedBlobStore] *)

Section replicated.
Context {S : Type} (local : BlobStore S).

(** The loop over the remotes with the error of the last one that failed. *)
Fixpoint fetch_remotes (digest : bytes) (remotes : list (BlobStore S)) (lastError : option BlobError) :
  SE S BlobError (option bytes) :=
  match remotes with
  | [] => match lastError with Some _ => throw BLOB_REMOTE_FETCH_FAILED | None => mret None end
  | remote :: remotes' => λ s,
    match (value ← blob_get remote digest;
        match value with
        | None => mret None
        | Some v => blob_put local digest v ;; mret (Some v)
        end) s with
    | (s', Ok None) => fetch_remotes digest remotes' lastError s'
    | (s', Ok (Some v)) => (s', Ok (Some v))
    | (s', Err e) => fetch_remotes digest remotes' (Some e) s'
    end
  end.

Definition replicated_get (remotes : list (BlobStore S)) (digest : bytes) : SE S BlobError (option bytes) :=
  found ← blob_get local digest;
  match found with Some b => mret (Some b) | None => fetch_remotes digest remotes None end.

Definition ReplicatedBlobStore (remotes : list (BlobStore S)) : BlobStore S :=
  mkBlobStore (blob_put local) (replicated_get remotes).
End replicated.

(** ** Payloads *)

Record EnvelopeBlobOptions (S : Type) := mkBlobOptions {
    bo_store : BlobStore S;
    bo_maxInlineBytes : Z;
    bo_chunkBytes : Z;
}.
Arguments mkBlobOptions {S}.
Arguments bo_store {S}.
Arguments bo_maxInlineBytes {S}.
Arguments bo_chunkBytes {S}.

Definition validateOptions {S} (options : EnvelopeBlobOptions S) : result BlobError unit :=
  ensure ((0 <=? bo_maxInlineBytes options) && (bo_maxInlineBytes options <=? MAX_SAFE_INTEGER) &&
    (1 <=? bo_chunkBytes options) && (bo_chunkBytes options <=? 4 * 1024 * 1024)) BLOB_OPTIONS_INVALID.

(** [for (let offset = 0; offset < bytes.length; offset += chunkBytes)]: each
    round removes at least one byte, so the length is enough fuel. *)
Fixpoint split_chunks (fuel : nat) (size : nat) (b : bytes) : list bytes :=
  match fuel, b with
  | _, [] => []
  | O, _ => []
  | S fuel', _ => take size b :: split_chunks fuel' size (drop size b)
  end.

(** [Promise.all(chunks.map(...))]: every put is started, in order, and runs
    whatever becomes of the others; the first failure is reported. *)
Fixpoint put_chunks {S} (store : BlobStore S) (entries : list (PayloadChunk * bytes)) : SE S BlobError unit := λ s,
  match entries with
  | [] => (s, Ok tt)
  | (chunk, b) :: rest =>
    let (s1, r1) := blob_put store (chunk_digest chunk) b s in
    let (s2, r2) := put_chunks store rest s1 in
    (s2, match r1 with Ok _ => r2 | Err e => Err e end)
  end.

Definition storeEnvelopePayload {S} (b : bytes) (options : EnvelopeBlobOptions S) :
  SE S BlobError PayloadManifest :=
  pure_blob (validateOptions options) ;;
  pure_blob (ensure (negb (zlen b <=? bo_maxInlineBytes options)) BLOB_PAYLOAD_INLINE_ELIGIBLE) ;;
  let chunks := split_chunks (length b) (Z.to_nat (bo_chunkBytes options)) b in
  manifest ← pure_blob (blob_coded (createPayloadManifest sha256 chunks));
  put_chunks (bo_store options) (zip (pm_chunks manifest) chunks) ;;
  mret manifest.

Fixpoint get_chunks {S} (store : BlobStore S) (chunks : list PayloadChunk) : SE S BlobError (list bytes) :=
  match chunks with
  | [] => mret []
  | chunk :: chunks' =>
    value ← blob_get store (chunk_digest chunk);
    match value with
    | None => throw (BLOB_CHUNK_MISSING (bytesToHex (chunk_digest chunk)))
    | Some v => vs ← get_chunks store chunks'; mret (v :: vs)
    end
  end.

Definition loadEnvelopePayload {S} (manifest : PayloadManifest) (store : BlobStore S) (maximumBytes : Z) :
  SE S BlobError bytes :=
  pure_blob (ensure (negb (maximumBytes <? pm_totalSize manifest)) BLOB_PAYLOAD_LIMIT) ;;
  chunks ← get_chunks store (pm_chunks manifest);
  pure_blob (blob_coded (verifyPayloadManifest sha256 manifest chunks)).
End blobs.
Arguments mkBlobOptions {S}.
Arguments bo_store {S}.
Arguments bo_maxInlineBytes {S}.
Arguments bo_chunkBytes {S}.

(** The default of the parameter [maximumBytes]. *)
Definition DEFAULT_MAXIMUM_PAYLOAD : Z := 16 * 1024 * 1024.
