(* ===== verification/BlobsTheorems.v ===== *)
(** * Content-addressed storage of payloads

    [ContentStore] is what [storeEnvelopePayload] and [loadEnvelopePayload] may
    expect of a blob store, whatever else happens to it: what it returns has the
    digest asked for, and what it has accepted stays.  The stores in memory and in
    files satisfy it, and a replicated store does when its local part does,
    however its remotes behave.  Payload storage is proved against the interface. *)

From Stdlib Require Import Strings.Byte.
From stdpp Require Import base list option numbers sets.
From S2P Require Import Prelude JsMap Bytes JsNumber Cbor Domains Messages CapTypes FileSystem Blobs.

#[local] Open Scope Z_scope.

Section stores.
Context (sha256 : bytes → bytes).

(** [has s d]: the store holds contents with the digest [d]; [good] is the
    invariant of the store. *)
Definition extends {S} (good : S → Prop) (has : S → bytes → Prop) (s s' : S) : Prop :=
  good s' ∧ ∀ d, has s d → has s' d.

Class ContentStore {S} (store : BlobStore S) (good : S → Prop) (has : S → bytes → Prop) : Prop := {
    put_law d b s s' r : good s → blob_put store d b s = (s', r) →
    extends good has s s' ∧ (r = Ok tt → verifyChunk sha256 d b = Ok tt ∧ has s' d);
    get_law d s s' r : good s → blob_get store d s = (s', r) →
    extends good has s s' ∧
    match r with
    | Ok (Some b) => verifyChunk sha256 d b = Ok tt
    | Ok None => ¬ has s d
    | Err _ => True
    end;
}.

Lemma extends_refl {S} (good : S → Prop) (has : S → bytes → Prop) s : good s → extends good has s s.
Proof. by split. Qed.
Lemma extends_trans {S} (good : S → Prop) (has : S → bytes → Prop) s1 s2 s3 :
  extends good has s1 s2 → extends good has s2 s3 → extends good has s1 s3.
Proof. intros [_ H1] [G H2]. split; auto. Qed.

Lemma verifyChunk_Ok d b u :
  verifyChunk sha256 d b = Ok u → length d = 32%nat ∧ payloadChunkDigest sha256 b = Ok d.
Proof.
  unfold verifyChunk, blob_coded. destruct (length d =? 32)%nat eqn:Hl; [|by intros]. apply Nat.eqb_eq in Hl. cbn [negb].
  destruct (payloadChunkDigest sha256 b) as [h|]; [|discriminate]. cbn [mbind result_bind].
  intros H%ensure_Ok. apply equalBytes_spec in H as ->. done.
Qed.

Lemma bytesToHex_length x : length (bytesToHex x) = (2 * length x)%nat.
Proof.
  induction x as [|y x IH]; [done|]. change (bytesToHex (y :: x)) with (hex_byte y ++ bytesToHex x).
  rewrite length_app, IH. simpl. lia.
Qed.

Ltac step_se := unfold pure_blob, mbind, SE_bind, mret, SE_ret, modify, throw, try_catch in *.

(** ** In memory *)

Definition memory_has (values : jsmap jsstring bytes) (d : bytes) : Prop :=
  is_Some (map_get (bytesToHex d) values).

(** Only verified chunks enter the map. *)
Definition memory_good (values : jsmap jsstring bytes) : Prop :=
  ∀ d b, map_get (bytesToHex d) values = Some b → verifyChunk sha256 d b = Ok tt.

#[export] Instance memory_content : ContentStore (MemoryBlobStore sha256) memory_good memory_has.
Proof.
  split.
  - intros d b s s' r Hg. simpl. step_se.
    destruct (verifyChunk sha256 d b) as [[]|e] eqn:Hv; intros [= <- <-]; [|split; [by apply extends_refl|done]].
    split; [split|].
    + intros d' b'. rewrite map_get_set. case_decide as Hd; [|apply Hg].
      apply (inj bytesToHex) in Hd as ->. congruence.
    + intros d' Hd'. unfold memory_has. rewrite map_get_set. case_decide; [by eexists|done].
    + intros _. split; [done|]. unfold memory_has. rewrite map_get_set_eq. by eexists.
  - intros d s s' r Hg [= <- <-]. split; [by apply extends_refl|].
    destruct (map_get _ s) as [b|] eqn:E; [by apply Hg|]. unfold memory_has. rewrite E. by intros [? [=]].
Qed.

(** ** In files *)

Section files.
Context {F : Type} `{!FileSystem bytes F, !FileSystemLaws bytes F} (root pid : jsstring).

Definition file_has (f : F) (d : bytes) : Prop :=
  ∃ p b, blob_path root d = Ok p ∧ view f p = Some b ∧ verifyChunk sha256 d b = Ok tt.

Lemma blob_path_length d p : blob_path root d = Ok p → length p = (length root + 66)%nat.
Proof.
  unfold blob_path. intros H. inv_ok. apply Nat.eqb_eq in H0. subst p.
  rewrite !length_app, length_take, length_drop, bytesToHex_length, H0. simpl. lia.
Qed.

Lemma blob_path_inj d d' p : blob_path root d = Ok p → blob_path root d' = Ok p → d = d'.
Proof.
  unfold blob_path. intros H1 H2. inv_ok. rewrite <-H2 in H1. apply app_inv_head in H1.
  injection H1 as H1. apply (inj bytesToHex).
  apply Nat.eqb_eq in H, H0.
  assert (∀ x : bytes, length x = 32%nat → ∃ a b c, bytesToHex x = a :: b :: c) as Hx.
  { intros [|y z] Hy; [done|]. by eexists _, _, _. }
  destruct (Hx d) as (a & b & c & E); [done|]. destruct (Hx d') as (a' & b' & c' & E'); [done|].
  rewrite E, E' in H1. rewrite E, E'. simpl in H1. rewrite !drop_0 in H1. congruence.
Qed.

Lemma blob_temporary_ne d d' p q : blob_path root d = Ok p → blob_path root d' = Ok q → q ≠ blob_temporary pid p.
Proof.
  intros Hp%blob_path_length Hq%blob_path_length ->. unfold blob_temporary in Hq.
  rewrite !length_app in Hq. simpl in Hq. lia.
Qed.

Lemma file_extends f f' : (∀ d p, blob_path root d = Ok p → keeps f f' p) → extends (λ _, True) file_has f f'.
Proof.
  intros Hk. split; [done|]. intros d (p & b & Hp & Hb & Hv). exists p, b. split; [done|].
  by rewrite (keeps_view _ _ _ (Hk d p Hp)).
Qed.

Lemma lift_file_inv {A} (m : SE F FsError A) f f' r : lift_file m f = (f', r) →
  ∃ r', m f = (f', r') ∧ r = match r' with Ok a => Ok a | Err e => Err (BlobFile e) end.
Proof. unfold lift_file. destruct (m f) as [f1 r1]. intros [= <- <-]. by eexists. Qed.

(** The attempt to read an existing chunk changes nothing. *)
Lemma file_read d p f f' r : blob_path root d = Ok p → lift_file (readFileSync p) f = (f', r) →
  extends (λ _, True) file_has f f' ∧
  match r with Ok b => view f p = Some b | Err e => isMissing e = true → view f p = None end.
Proof.
  intros Hp (r' & Hr & ->)%lift_file_inv. destruct (read_law _ _ _ _ Hr) as [K V].
  split; [apply file_extends; auto|]. by destruct r' as [b|[]].
Qed.

Lemma file_write d p b f f' r : blob_path root d = Ok p → verifyChunk sha256 d b = Ok tt →
  (lift_file (mkdirSync (dirname p)) ;;
    lift_file (writeFileSync (blob_temporary pid p) b) ;;
    lift_file (fsyncSync (blob_temporary pid p)) ;;
    lift_file (renameSync (blob_temporary pid p) p)) f = (f', r) →
  extends (λ _, True) file_has f f' ∧ (r = Ok tt → file_has f' d).
Proof.
  intros Hp Hv. unfold mbind, SE_bind. set (tmp := blob_temporary pid p).
  assert (∀ d' q, blob_path root d' = Ok q → q ≠ tmp) as Hne by (intros; by eapply blob_temporary_ne).
  destruct (lift_file (mkdirSync _) f) as [f1 r1] eqn:E1. apply lift_file_inv in E1 as (r1' & E1 & ->).
  assert (extends (λ _, True) file_has f f1) as X1 by (apply file_extends; intros; by eapply mkdir_law).
  destruct r1' as [[]|e]; [|intros [= <- <-]; by split].
  destruct (lift_file (writeFileSync _ _) f1) as [f2 r2] eqn:E2. apply lift_file_inv in E2 as (r2' & E2 & ->).
  destruct (write_law _ _ _ _ _ E2) as [K2 V2].
  assert (extends (λ _, True) file_has f f2) as X2.
  { eapply extends_trans; [done|]. apply file_extends. intros d' q Hq. apply K2. by eapply Hne. }
  destruct r2' as [[]|e]; [|intros [= <- <-]; by split]. specialize (V2 eq_refl).
  destruct (lift_file (fsyncSync _) f2) as [f3 r3] eqn:E3. apply lift_file_inv in E3 as (r3' & E3 & ->).
  destruct (sync_law _ _ _ _ E3) as [K3 _].
  assert (extends (λ _, True) file_has f f3) as X3.
  { eapply extends_trans; [done|]. by apply file_extends. }
  destruct r3' as [[]|e]; [|intros [= <- <-]; by split].
  destruct (lift_file (renameSync _ _) f3) as [f4 r4] eqn:E4. apply lift_file_inv in E4 as (r4' & E4 & ->).
  destruct (rename_law _ _ _ _ _ E4) as [K4 R4]; [by apply not_eq_sym, (Hne d)|]. intros [= <- <-].
  destruct r4' as [[]|e].
  - destruct R4 as [V4 _]. rewrite (keeps_view _ _ _ (K3 tmp)), V2 in V4.
    assert (file_has f4 d) as Hd by (by exists p, b). split; [|done].
    eapply extends_trans; [exact X3|]. split; [done|]. intros d' (q & b' & Hq & Hb & Hv').
    destruct (decide (q = p)) as [->|Hqp]; [by rewrite (blob_path_inj d' d p)|].
    exists q, b'. split_and!; [done| |done]. rewrite (keeps_view _ _ _ (K4 q (Hne d' q Hq) Hqp)). done.
  - destruct R4 as [_ Kp]. split; [|done]. eapply extends_trans; [exact X3|]. apply file_extends.
    intros d' q Hq. destruct (decide (q = p)) as [->|Hqp]; [done|]. apply K4; [by eapply Hne|done].
Qed.

#[export] Instance file_content : ContentStore (FileBlobStore sha256 root pid) (λ _, True) file_has.
Proof.
  split.
  - intros d b f f' r _. cbn [blob_put FileBlobStore]. unfold file_blob_put. unfold pure_blob, mbind at 1, SE_bind at 1.
    destruct (verifyChunk sha256 d b) as [[]|e] eqn:Hv; [|intros [= <- <-]; split; [by apply extends_refl|done]].
    unfold mbind at 1, SE_bind at 1.
    destruct (blob_path root d) as [p|e] eqn:Hp; [|intros [= <- <-]; split; [by apply extends_refl|done]].
    unfold mbind at 1, SE_bind at 1, try_catch at 1. unfold mbind at 1, SE_bind at 1.
    destruct (lift_file (readFileSync p) f) as [f1 r1] eqn:E1. destruct (file_read d p f f1 r1 Hp E1) as [X1 V1].
    destruct r1 as [b'|e].
    + unfold mbind, SE_bind, mret, SE_ret. destruct (verifyChunk sha256 d b') as [[]|e] eqn:Hv'.
      * intros [= <- <-]. split; [done|]. intros _. split; [done|]. apply X1. by exists p, b'.
      * destruct (isMissing e) eqn:He.
        { destruct e as [| | | | | | | | | | |[]|]; try discriminate He.
          exfalso. revert Hv'. clear. unfold verifyChunk, blob_coded, ensure, mbind, result_bind.
          repeat case_match; naive_solver. }
        unfold throw. by intros [= <- <-].
    + destruct (isMissing e) eqn:He; unfold mret, SE_ret, throw; [|by intros [= <- <-]].
      intros Hw. destruct (file_write d p b f1 f' r Hp Hv Hw) as [X2 Hd].
      split; [by eapply extends_trans|]. auto.
  - intros d f f' r _. cbn [blob_get FileBlobStore]. unfold file_blob_get, try_catch, pure_blob, mbind, SE_bind, mret, SE_ret.
    destruct (blob_path root d) as [p|e] eqn:Hp.
    + destruct (lift_file (readFileSync p) f) as [f1 r1] eqn:E1. destruct (file_read d p f f1 r1 Hp E1) as [X1 V1].
      destruct r1 as [b|e].
      * destruct (verifyChunk sha256 d b) as [[]|e] eqn:Hv; [by intros [= <- <-]|].
        destruct (isMissing e) eqn:He; intros [= <- <-]; [|done]. split; [done|].
        intros (q & b' & Hq & Hb & Hv'). congruence.
      * destruct (isMissing e) eqn:He; intros [= <- <-]; [|done]. split; [done|].
        intros (q & b' & Hq & Hb & Hv'). specialize (V1 eq_refl). congruence.
    + unfold blob_path in Hp. apply bind_Err in Hp as [Hp|(? & _ & [=])].
      destruct (length d =? 32)%nat; [discriminate|]. injection Hp as <-.
      intros [= <- <-]. split; [by apply extends_refl|done].
Qed.
End files.
(** ** Replicated *)

Section replicated.
Context {S : Type} (local : BlobStore S) (good : S → Prop) (has : S → bytes → Prop)
  `{!ContentStore local good has} (remotes : list (BlobStore S)).

(** The remotes may fail, refuse or lie, as long as reading from them does not
    damage the local store. *)
Definition harmless (remote : BlobStore S) : Prop :=
  ∀ d s s' r, good s → blob_get remote d s = (s', r) → extends good has s s'.

Lemma fetch_remotes_law d rs : Forall harmless rs → ∀ last s s' r, good s →
  fetch_remotes local d rs last s = (s', r) →
  extends good has s s' ∧ (∀ b, r = Ok (Some b) → verifyChunk sha256 d b = Ok tt).
Proof.
  induction 1 as [|remote rs Hr _ IH]; intros last s s' r Hg; cbn [fetch_remotes].
  - unfold throw, mret, SE_ret. destruct last; intros [= <- <-]; (split; [by apply extends_refl|done]).
  - unfold mbind, SE_bind. destruct (blob_get remote d s) as [s1 r1] eqn:E1.
    pose proof (Hr _ _ _ _ Hg E1) as X1. destruct r1 as [[v|]|e]; unfold mret, SE_ret.
    + destruct (blob_put local d v s1) as [s2 r2] eqn:E2. destruct (put_law _ _ _ _ _ (proj1 X1) E2) as [X2 V2].
      assert (extends good has s s2) as X by (by eapply extends_trans). destruct r2 as [[]|e].
      * intros [= <- <-]. split; [done|]. intros b [= <-]. by apply V2.
      * intros Hf. destruct (IH _ _ _ _ (proj1 X) Hf) as [X3 V3]. split; [by eapply extends_trans|done].
    + intros Hf. destruct (IH _ _ _ _ (proj1 X1) Hf) as [X3 V3]. split; [by eapply extends_trans|done].
    + intros Hf. destruct (IH _ _ _ _ (proj1 X1) Hf) as [X3 V3]. split; [by eapply extends_trans|done].
Qed.

Lemma replicated_content : Forall harmless remotes → ContentStore (ReplicatedBlobStore local remotes) good has.
Proof.
  intros Hr. split; [exact (put_law (store:=local))|].
  intros d s s' r Hg. cbn [blob_get ReplicatedBlobStore]. unfold replicated_get, mbind, SE_bind.
  destruct (blob_get local d s) as [s1 r1] eqn:E1. destruct (get_law _ _ _ _ Hg E1) as [X1 V1].
  destruct r1 as [[v|]|e]; unfold mret, SE_ret; [by intros [= <- <-]| |by intros [= <- <-]].
  intros Hf. destruct (fetch_remotes_law d remotes Hr _ _ _ _ (proj1 X1) Hf) as [X2 V2].
  split; [by eapply extends_trans|]. destruct r as [[b|]|]; auto.
Qed.
End replicated.

(** ** Payloads over any content store *)

Section payloads.
Context {S : Type} (store : BlobStore S) (good : S → Prop) (has : S → bytes → Prop)
  `{!ContentStore store good has}.

Lemma put_chunks_law entries : ∀ s s' r, good s → put_chunks store entries s = (s', r) →
  extends good has s s' ∧ (r = Ok tt → Forall (λ e, has s' (chunk_digest e.1)) entries).
Proof.
  induction entries as [|[c b] entries IH]; intros s s' r Hg; cbn [put_chunks].
  { intros [= <- <-]. split; [by apply extends_refl|done]. }
  destruct (blob_put store (chunk_digest c) b s) as [s1 r1] eqn:E1.
  destruct (put_law _ _ _ _ _ Hg E1) as [X1 V1].
  destruct (put_chunks store entries s1) as [s2 r2] eqn:E2. destruct (IH _ _ _ (proj1 X1) E2) as [X2 V2].
  intros [= <- <-]. split; [by eapply extends_trans|]. destruct r1 as [[]|]; [|done]. intros Hr.
  constructor; [apply X2, V1; done|auto].
Qed.

Lemma get_chunks_law cs : ∀ s s' r, good s → Forall (λ c, has s (chunk_digest c)) cs →
  get_chunks store cs s = (s', r) →
  match r with
  | Ok vs => Forall2 (λ c v, payloadChunkDigest sha256 v = Ok (chunk_digest c)) cs vs
  | Err e => ∃ d t t', blob_get store d t = (t', Err e)
  end.
Proof.
  induction cs as [|c cs IH]; intros s s' r Hg Hh; cbn [get_chunks].
  { intros [= <- <-]. constructor. }
  apply Forall_cons_1 in Hh as [Hc Hcs]. unfold mbind, SE_bind at 1.
  destruct (blob_get store (chunk_digest c) s) as [s1 r1] eqn:E1. destruct (get_law _ _ _ _ Hg E1) as [X1 V1].
  destruct r1 as [[v|]|e]; [|done|intros [= <- <-]; by exists (chunk_digest c), s, s1].
  unfold SE_bind. destruct (get_chunks store cs s1) as [s2 r2] eqn:E2.
  pose proof (IH _ _ _ (proj1 X1) (Forall_impl _ _ _ Hcs (λ c, proj2 X1 _)) E2) as V2.
  destruct r2 as [vs|e]; intros [= <- <-]; [|done]. constructor; [by eapply verifyChunk_Ok|done].
Qed.
End payloads.

Lemma split_chunks_join size b fuel : (1 ≤ size)%nat → (length b ≤ fuel)%nat →
  concatBytes (split_chunks fuel size b) = b.
Proof.
  intros Hs. revert b. induction fuel as [|fuel IH]; intros [|x b] Hl; try done; simpl in Hl; [lia|].
  cbn [split_chunks]. rewrite concatBytes_cons, IH; [apply take_drop|]. rewrite length_drop. simpl. lia.
Qed.

(** Chunks with the digests of others are the others, or there is a collision. *)
Lemma chunks_agree chunks cs vs :
  mapR (λ chunk, digest ← payloadChunkDigest sha256 chunk; Ok (mkChunk digest (zlen chunk))) chunks = Ok cs →
  Forall2 (λ c v, payloadChunkDigest sha256 v = Ok (chunk_digest c)) cs vs →
  vs = chunks ∨ ∃ c v, c ∈ chunks ∧ collision sha256 (preimage DpayloadChunk c) (preimage DpayloadChunk v).
Proof.
  intros Hcs%mapR_Ok. revert vs. induction Hcs as [|chunk c chunks cs Hc _ IH]; intros vs Hvs.
  { inversion Hvs. by left. }
  apply Forall2_cons_inv_l in Hvs as (v & vs' & Hv & Hvs & ->). inv_ok. subst c. simpl in Hv.
  destruct (hashDomain_inj sha256 DpayloadChunk chunk DpayloadChunk v x) as [[_ ->]|Hx]; [done|done| |].
  - destruct (IH _ Hvs) as [->|(c & w & Hin & Hx)]; [by left|]. right. exists c, w. split; [by right|done].
  - right. exists chunk, v. split; [left|done].
Qed.

Lemma create_manifest_inv chunks m : createPayloadManifest sha256 chunks = Ok m →
  pm_totalSize m = zlen (concatBytes chunks) ∧
  mapR (λ chunk, digest ← payloadChunkDigest sha256 chunk; Ok (mkChunk digest (zlen chunk))) chunks = Ok (pm_chunks m).
Proof. unfold createPayloadManifest. intros H. inv_ok. by subst. Qed.

Lemma store_inv {S} (store : BlobStore S) good has inline size p s s' m :
  ContentStore store good has → good s →
  storeEnvelopePayload sha256 p (mkBlobOptions store inline size) s = (s', Ok m) →
  let chunks := split_chunks (length p) (Z.to_nat size) p in
  concatBytes chunks = p ∧ createPayloadManifest sha256 chunks = Ok m ∧
  Forall (λ c, has s' (chunk_digest c)) (pm_chunks m).
Proof.
  intros Hstore Hg. unfold storeEnvelopePayload, pure_blob, mbind, SE_bind, mret, SE_ret.
  cbn [bo_store bo_chunkBytes bo_maxInlineBytes].
  destruct (validateOptions _) as [u|] eqn:Hv; [|done].
  unfold validateOptions in Hv. apply ensure_Ok in Hv. cbn [bo_chunkBytes bo_maxInlineBytes] in Hv.
  destruct (ensure _ _) as [u'|]; [|done].
  set (chunks := split_chunks _ _ _).
  destruct (createPayloadManifest sha256 chunks) as [m'|] eqn:Hm; [|done]. cbn [blob_coded].
  destruct (put_chunks store _ s) as [s1 r1] eqn:Ep. eapply put_chunks_law in Ep as [_ Hp]; [|done..].
  destruct r1 as [[]|]; [|done]. intros [= <- <-]. split_and!; [|done|].
  - apply split_chunks_join; lia.
  - specialize (Hp eq_refl). apply create_manifest_inv in Hm as [_ Hcs%mapR_length].
    apply Forall_forall. intros c Hc. rewrite Forall_forall in Hp.
    rewrite <-(fst_zip (pm_chunks m') chunks) in Hc by (rewrite Hcs; reflexivity). apply list_elem_of_fmap in Hc as (e & -> & He). auto.
Qed.

Lemma store_options {S} (store : BlobStore S) inline size p s s' m :
  storeEnvelopePayload sha256 p (mkBlobOptions store inline size) s = (s', Ok m) → 1 ≤ size ≤ 4 * 1024 * 1024.
Proof.
  unfold storeEnvelopePayload, pure_blob, mbind, SE_bind. destruct (validateOptions _) as [u|] eqn:Hv; [|done].
  unfold validateOptions in Hv. apply ensure_Ok in Hv. cbn [bo_chunkBytes bo_maxInlineBytes] in Hv. lia.
Qed.

Lemma store_extends {S} (store : BlobStore S) good has inline size p s s' r :
  ContentStore store good has → good s →
  storeEnvelopePayload sha256 p (mkBlobOptions store inline size) s = (s', r) → extends good has s s'.
Proof.
  intros Hstore Hg. unfold storeEnvelopePayload, pure_blob, mbind, SE_bind, mret, SE_ret.
  destruct (validateOptions _) as [u|]; [|intros [= <- <-]; by apply extends_refl].
  destruct (ensure _ _) as [u'|]; [|intros [= <- <-]; by apply extends_refl].
  destruct (blob_coded _) as [m'|]; [|intros [= <- <-]; by apply extends_refl].
  cbn [bo_store]. destruct (put_chunks store _ s) as [s1 r1] eqn:Ep.
  eapply put_chunks_law in Ep as [Hp _]; [|done..]. by destruct r1 as [[]|]; intros [= <- <-].
Qed.
End stores.

(** A payload stored in any content store can be loaded again for as long as
    the store keeps what it holds: with a limit that admits it, loading yields
    the payload, unless the store itself fails or two different chunks with the
    same SHA-256 digest have been found.  A chunk is never missing. *)
Theorem stored_payload_loads sha256 {S} (store : BlobStore S) good has inline size p s s' m t t' limit r :
  ContentStore sha256 store good has → good s →
  storeEnvelopePayload sha256 p (mkBlobOptions store inline size) s = (s', Ok m) →
  extends good has s' t → zlen p ≤ limit →
  loadEnvelopePayload sha256 m store limit t = (t', r) →
  r = Ok p ∨
  (∃ e d u u', r = Err e ∧ blob_get store d u = (u', Err e)) ∨
  (∃ c v, collision sha256 (preimage DpayloadChunk c) (preimage DpayloadChunk v)).
Proof.
  intros Hstore Hg Hs Hx Hl. eapply store_inv in Hs as (Hn & Hm & Hput); [|done|done].
  destruct (create_manifest_inv _ _ _ Hm) as (Hsize & Hcs). rewrite Hn in Hsize.
  unfold loadEnvelopePayload, pure_blob, mbind, SE_bind. rewrite Hsize.
  rewrite (proj2 (Z.ltb_ge _ _) Hl). cbn [negb ensure].
  destruct (get_chunks store (pm_chunks m) t) as [t1 r1] eqn:Eg.
  eapply get_chunks_law in Eg; [|exact Hstore|exact (proj1 Hx)|eapply Forall_impl; [exact Hput|intros c; apply Hx]].
  destruct r1 as [vs|e]; [|intros [= <- <-]; right; left; naive_solver].
  destruct (chunks_agree _ _ _ _ Hcs Eg) as [->|(c & v & _ & Hc)]; [|intros _; right; right; naive_solver].
  rewrite (manifest_accepts _ _ _ Hm), Hn. intros [= <- <-]. by left.
Qed.

(** A digest for examples: the last 32 bytes of the padded input. *)
Definition tail_digest (b : bytes) : bytes := take 32 (reverse b ++ replicate 32 x00).

Lemma empty_memory_good sha256 : memory_good sha256 [].
Proof. intros d b [=]. Qed.

Lemma stored_payload_loads_witness :
  let store := MemoryBlobStore tail_digest in
  let stored := storeEnvelopePayload tail_digest [x01; x02; x03; x01; x02; x03; x04] (mkBlobOptions store 4 3) [] in
  ∃ s m t r, stored = (s, Ok m) ∧ length s = 2%nat ∧ loadEnvelopePayload tail_digest m store 7 s = (t, r) ∧
    (r = Ok [x01; x02; x03; x01; x02; x03; x04] ∨
     (∃ e d u u', r = Err e ∧ blob_get store d u = (u', Err e)) ∨
     ∃ c v, collision tail_digest (preimage DpayloadChunk c) (preimage DpayloadChunk v)).
Proof.
  eexists _, _, _, _. split; [vm_compute; reflexivity|]. split; [reflexivity|]. split; [vm_compute; reflexivity|].
  eapply (stored_payload_loads tail_digest) with (good := memory_good tail_digest) (has := memory_has)
    (inline := 4) (size := 3) (s := []) (limit := 7).
  - apply memory_content.
  - apply empty_memory_good.
  - vm_compute. reflexivity.
  - apply extends_refl. eapply (store_extends tail_digest (MemoryBlobStore tail_digest) (memory_good tail_digest)
      memory_has 4 3 [x01; x02; x03; x01; x02; x03; x04] []); [apply memory_content|apply empty_memory_good|].
    vm_compute. reflexivity.
  - vm_compute. discriminate.
  - vm_compute. reflexivity.
Defined.
