(* ===== verification/Hpke.v ===== *)
(** * Hybrid public key encryption: [packages/crypto/src/hpke.ts]

    HPKE in base mode (RFC 9180) with X25519, HKDF-SHA256 and AES-256-GCM, as the
    code builds it from WebCrypto's primitives.  Those are parameters: HMAC-SHA256,
    the import, agreement and generation of X25519 keys, AES-GCM.  Key agreement
    and encryption are proved to fit together: what is sealed for a public key is
    opened with its private key in the same context. *)

From Stdlib Require Import Strings.Byte Strings.String.
From stdpp Require Import base list option numbers.
From S2P Require Import Prelude Bytes Text Cbor Int64 Entropy.

#[local] Open Scope Z_scope.

(** A computation that cannot fail, and one that does not touch the state. *)
Definition draw {S E A} (f : S → S * A) : SE S E A := λ s, let (s', a) := f s in (s', Ok a).
Definition pure_result {S E A} (r : result E A) : SE S E A := λ s, (s, r).

Definition HPKE_SUITE : jsstring := js "DHKEM(X25519,HKDF-SHA256)/HKDF-SHA256/AES-256-GCM".

Definition KEM_ID : bytes := [x00; x20].
Definition KDF_ID : bytes := [x00; x01].
Definition AEAD_ID : bytes := [x00; x02].
Definition KEM_SUITE_ID : bytes := concatBytes [textEncode (js "KEM"); KEM_ID].
Definition HPKE_SUITE_ID : bytes := concatBytes [textEncode (js "HPKE"); KEM_ID; KDF_ID; AEAD_ID].
Definition HPKE_VERSION : bytes := textEncode (js "HPKE-v1").
Definition HASH_SIZE : Z := 32.

Definition i2osp (value : Z) (len : nat) : result ErrorCode bytes :=
  protocolInvariant (is_safe_integer value && (0 <=? value) && (value <? 2 ^ (8 * Z.of_nat len))) INTEGER_OUT_OF_RANGE ≫= λ _,
  Ok (be_bytes len value).

(** [HpkeCiphertext] *)
Record HpkeCiphertext := mkHpke { hc_encapsulatedKey : bytes; hc_ciphertext : bytes }.

Section hpke.
Context (hmac_sha256 : bytes → bytes → bytes).
(** X25519 [CryptoKey]s: [importKey('raw', ...)], [deriveBits] (256 bits) and
    [generateKey] with the exported public key. *)
Context {XPrivate XPublic S : Type} (x25519_import : bytes → option XPublic)
  (x25519_derive : XPrivate → XPublic → option bytes) (x25519_generate : S → S * (XPrivate * bytes)).
(** AES-256-GCM with a 128-bit tag: key, nonce, additional data, text. *)
Context (aes_encrypt : bytes → bytes → bytes → bytes → bytes)
  (aes_decrypt : bytes → bytes → bytes → bytes → option bytes).

(** ** HKDF *)

Definition hkdfExtract (salt ikm : bytes) : bytes :=
  hmac_sha256 (if (length salt =? 0)%nat then replicate (Z.to_nat HASH_SIZE) x00 else salt) ikm.

(** The loop of [hkdfExpand]: [blocks] are joined already.  A round adds a block,
    so [length] rounds are enough. *)
Fixpoint expand_blocks (fuel : nat) (prk info : bytes) (len : Z) (previous blocks : bytes) (counter : Z) : bytes :=
  match fuel with
  | O => blocks
  | Datatypes.S fuel' =>
      if zlen blocks <? len then
        let previous' := hmac_sha256 prk (concatBytes [previous; info; [byte_of counter]]) in
        expand_blocks fuel' prk info len previous' (blocks ++ previous') (counter + 1)
      else blocks
  end.

Definition hkdfExpand (prk info : bytes) (len : Z) : result ErrorCode bytes :=
  protocolInvariant (len <=? 255 * HASH_SIZE) INTEGER_OUT_OF_RANGE ≫= λ _,
  Ok (take (Z.to_nat len) (expand_blocks (Z.to_nat len) prk info len [] [] 1)).

Definition labeledExtract (suiteId salt : bytes) (label : jsstring) (ikm : bytes) : result ErrorCode bytes :=
  name ← utf8 label; Ok (hkdfExtract salt (concatBytes [HPKE_VERSION; suiteId; name; ikm])).

Definition labeledExpand (suiteId prk : bytes) (label : jsstring) (info : bytes) (len : Z) : result ErrorCode bytes :=
  size ← i2osp len 2; name ← utf8 label;
  hkdfExpand prk (concatBytes [size; HPKE_VERSION; suiteId; name; info]) len.

(** ** Keys *)

Definition importX25519PublicKey (raw : bytes) : result ErrorCode XPublic :=
  protocolInvariant (length raw =? 32)%nat INVALID_KEY ≫= λ _,
  match x25519_import raw with Some key => Ok key | None => Err INVALID_KEY end.

Definition dh (privateKey : XPrivate) (publicKey : XPublic) : result ErrorCode bytes :=
  match x25519_derive privateKey publicKey with
  | Some bits => protocolInvariant (existsb (λ b, negb (val b =? 0)) bits) INVALID_KEY ≫= λ _, Ok bits
  | None => Err INVALID_KEY
  end.

Definition extractAndExpand (dhValue kemContext : bytes) : result ErrorCode bytes :=
  eaePrk ← labeledExtract KEM_SUITE_ID [] (js "eae_prk") dhValue;
  labeledExpand KEM_SUITE_ID eaePrk (js "shared_secret") kemContext HASH_SIZE.

(** Key and nonce. *)
Definition keySchedule (sharedSecret info : bytes) : result ErrorCode (bytes * bytes) :=
  pskIdHash ← labeledExtract HPKE_SUITE_ID [] (js "psk_id_hash") [];
  infoHash ← labeledExtract HPKE_SUITE_ID [] (js "info_hash") info;
  let keyScheduleContext := concatBytes [[x00]; pskIdHash; infoHash] in
  secret ← labeledExtract HPKE_SUITE_ID sharedSecret (js "secret") [];
  key ← labeledExpand HPKE_SUITE_ID secret (js "key") keyScheduleContext 32;
  nonce ← labeledExpand HPKE_SUITE_ID secret (js "base_nonce") keyScheduleContext 12;
  Ok (key, nonce).

Definition aesGcmOpen (key nonce ciphertext aad : bytes) : result ErrorCode bytes :=
  match aes_decrypt key nonce aad ciphertext with Some plaintext => Ok plaintext | None => Err INVALID_SIGNATURE end.

(** ** Sealing and opening *)

Definition hpkeSealBase (recipientPublicKeyBytes plaintext info aad : bytes) : SE S ErrorCode HpkeCiphertext :=
  recipientPublicKey ← pure_result (importX25519PublicKey recipientPublicKeyBytes);
  ephemeral ← draw x25519_generate;
  shared ← pure_result (dh ephemeral.1 recipientPublicKey);
  sharedSecret ← pure_result (extractAndExpand shared (concatBytes [ephemeral.2; recipientPublicKeyBytes]));
  context ← pure_result (keySchedule sharedSecret info);
  mret (mkHpke ephemeral.2 (aes_encrypt context.1 context.2 aad plaintext)).

Definition hpkeOpenBase (recipientPrivateKey : XPrivate)
    (recipientPublicKeyBytes encapsulatedKey ciphertext info aad : bytes) : result ErrorCode bytes :=
  protocolInvariant ((length recipientPublicKeyBytes =? 32) && (length encapsulatedKey =? 32))%nat INVALID_KEY ≫= λ _,
  ephemeralPublicKey ← importX25519PublicKey encapsulatedKey;
  shared ← dh recipientPrivateKey ephemeralPublicKey;
  sharedSecret ← extractAndExpand shared (concatBytes [encapsulatedKey; recipientPublicKeyBytes]);
  context ← keySchedule sharedSecret info;
  aesGcmOpen context.1 context.2 ciphertext aad.

(** ** Key derivation *)

Hypothesis hmac_length : ∀ key message, length (hmac_sha256 key message) = 32%nat.

(** The loop produces whole blocks of the specified stream until there are enough. *)
Lemma expand_blocks_stream fuel prk info len n : len ≤ Z.of_nat fuel + 32 * Z.of_nat n → ∃ m,
  expand_blocks fuel prk info len (hkdf_block hmac_sha256 prk info n) (hkdf_stream hmac_sha256 prk info n)
    (Z.of_nat n + 1) = hkdf_stream hmac_sha256 prk info m ∧
  len ≤ 32 * Z.of_nat m ∧ (m = n ∨ 32 * Z.of_nat m < len + 32).
Proof.
  revert n. induction fuel as [|fuel IH]; intros n Hf; [exists n; split_and!; [done|lia|by left]|].
  cbn [expand_blocks]. unfold zlen. rewrite hkdf_stream_length by done.
  destruct (Z.ltb_spec (Z.of_nat (32 * n)) len) as [Hl|Hl]; [|exists n; split_and!; [done|lia|by left]].
  destruct (IH (Datatypes.S n)) as (m & Hm & Hle & Hlt); [lia|]. exists m. split_and!; [|done|right; lia].
  rewrite <-Hm. unfold concatBytes. change (mjoin [?a; ?b; ?c]) with (a ++ b ++ c ++ []). rewrite app_nil_r.
  cbn [hkdf_block hkdf_stream]. by replace (Z.of_nat n + 1) with (Z.of_nat (Datatypes.S n)) by lia.
Qed.

(** The output of HKDF-Expand is a prefix of the specified stream, and the counter
    stays within its byte. *)
Lemma hkdfExpand_prefix prk info len : 0 ≤ len ≤ 255 * HASH_SIZE →
  hkdfExpand prk info len = Ok (take (Z.to_nat len) (hkdf_stream hmac_sha256 prk info 255)).
Proof.
  intros Hl. unfold hkdfExpand, protocolInvariant. rewrite (proj2 (Z.leb_le _ _)) by lia. cbn [ensure mbind result_bind].
  f_equal. destruct (expand_blocks_stream (Z.to_nat len) prk info len 0) as (m & Hm & Hle & _); [lia|].
  change (expand_blocks (Z.to_nat len) prk info len [] [] 1) with
    (expand_blocks (Z.to_nat len) prk info len (hkdf_block hmac_sha256 prk info 0) (hkdf_stream hmac_sha256 prk info 0) (Z.of_nat 0 + 1)).
  rewrite Hm. unfold HASH_SIZE in Hl. destruct (decide (m ≤ 255)%nat).
  - replace 255%nat with (255 - m + m)%nat by lia. rewrite hkdf_stream_take; [done|done|lia].
  - replace m with (m - 255 + 255)%nat by lia. rewrite hkdf_stream_take; [done|done|lia].
Qed.

Lemma i2osp_total value len : 0 ≤ value ≤ MAX_SAFE_INTEGER → value < 2 ^ (8 * Z.of_nat len) →
  i2osp value len = Ok (be_bytes len value).
Proof.
  intros Hv Hl. unfold i2osp, is_safe_integer, protocolInvariant.
  by rewrite !(proj2 (Z.leb_le _ _)), (proj2 (Z.ltb_lt _ _)) by lia.
Qed.

Lemma labeledExpand_total suiteId prk label name info len : utf8 label = Ok name → 0 ≤ len ≤ 255 * HASH_SIZE →
  ∃ out, labeledExpand suiteId prk label info len = Ok out ∧ length out = Z.to_nat len.
Proof.
  intros Hn Hl. unfold labeledExpand, HASH_SIZE in *.
  rewrite i2osp_total by (unfold MAX_SAFE_INTEGER; simpl; lia). rewrite Hn. cbn [mbind result_bind].
  rewrite hkdfExpand_prefix by done. eexists. split; [done|]. rewrite length_take, hkdf_stream_length by done. lia.
Qed.

Lemma extractAndExpand_total dhValue kemContext :
  ∃ out, extractAndExpand dhValue kemContext = Ok out ∧ length out = 32%nat.
Proof.
  unfold extractAndExpand, labeledExtract. destruct (utf8 (js "eae_prk")) eqn:He; [|by vm_compute in He].
  cbn [mbind result_bind]. by eapply labeledExpand_total; [vm_compute; reflexivity|].
Qed.

Lemma keySchedule_total sharedSecret info :
  ∃ key nonce, keySchedule sharedSecret info = Ok (key, nonce) ∧ length key = 32%nat ∧ length nonce = 12%nat.
Proof.
  unfold keySchedule, labeledExtract.
  destruct (utf8 (js "psk_id_hash")) eqn:H1; [|by vm_compute in H1].
  destruct (utf8 (js "info_hash")) eqn:H2; [|by vm_compute in H2].
  destruct (utf8 (js "secret")) eqn:H3; [|by vm_compute in H3]. cbn [mbind result_bind].
  match goal with |- context [labeledExpand ?a ?b ?c ?d 32] =>
    destruct (labeledExpand_total a b c _ d 32 eq_refl) as (key & -> & Hk); [done|] end.
  match goal with |- context [labeledExpand ?a ?b ?c ?d 12] =>
    destruct (labeledExpand_total a b c _ d 12 eq_refl) as (nonce & Hn & Hl); [done|] end.
  cbn [mbind result_bind] in *. rewrite Hn. cbn [mbind result_bind].
  by exists key, nonce.
Qed.

(** ** Agreement *)

(** What WebCrypto promises of X25519: a private key has a public key of 32 bytes
    that can be imported, a generated pair belongs together, and both sides of an
    agreement derive the same bits. *)
Context (x25519_public : XPrivate → bytes).

Record X25519Laws : Prop := {
  x_length k : length (x25519_public k) = 32%nat;
  x_imports k : ∃ p, x25519_import (x25519_public k) = Some p;
  x_generated s s' k b : x25519_generate s = (s', (k, b)) → b = x25519_public k;
  x_agree a b pa pb : x25519_import (x25519_public a) = Some pa → x25519_import (x25519_public b) = Some pb →
    x25519_derive a pb = x25519_derive b pa;
}.

Hypothesis laws : X25519Laws.
Hypothesis aes_roundtrip : ∀ key nonce ad pt, aes_decrypt key nonce ad (aes_encrypt key nonce ad pt) = Some pt.

Lemma import_own k p : x25519_import (x25519_public k) = Some p → importX25519PublicKey (x25519_public k) = Ok p.
Proof.
  intros Hp. unfold importX25519PublicKey, protocolInvariant. rewrite x_length by done. cbn [Nat.eqb ensure mbind result_bind].
  by rewrite Hp.
Qed.

(** Both sides derive one secret or refuse it with the same error. *)
Lemma dh_agree a b pa pb : x25519_import (x25519_public a) = Some pa → x25519_import (x25519_public b) = Some pb →
  dh a pb = dh b pa.
Proof. intros Ha Hb. unfold dh. by rewrite (x_agree laws a b pa pb). Qed.

Lemma dh_error a p e : dh a p = Err e → e = INVALID_KEY.
Proof.
  unfold dh, protocolInvariant. destruct (x25519_derive a p); [|congruence]. destruct (existsb _ _); cbn; congruence.
Qed.

(** Sealing for the key of [recipient]: it fails only when the agreement does, and
    what it returns opens. *)
Lemma seal_opens recipient plaintext info aad s s' r :
  hpkeSealBase (x25519_public recipient) plaintext info aad s = (s', r) →
  match r with
  | Ok c => length (hc_encapsulatedKey c) = 32%nat ∧
      hpkeOpenBase recipient (x25519_public recipient) (hc_encapsulatedKey c) (hc_ciphertext c) info aad = Ok plaintext
  | Err e => e = INVALID_KEY
  end.
Proof.
  unfold hpkeSealBase, pure_result, draw, mbind, SE_bind, mret, SE_ret.
  destruct (x_imports laws recipient) as [p Hp]. rewrite (import_own _ _ Hp).
  destruct (x25519_generate s) as [s1 [k b]] eqn:Hg. apply (x_generated laws) in Hg as ->.
  destruct (x_imports laws k) as [pk Hk]. cbn [fst snd]. pose proof (dh_agree _ _ _ _ Hk Hp) as Hdh.
  destruct (dh k p) as [shared|e] eqn:Hd; [|intros [= <- <-]; by eapply dh_error].
  destruct (extractAndExpand_total shared (concatBytes [x25519_public k; x25519_public recipient])) as (secret & Hs & _).
  rewrite Hs. destruct (keySchedule_total secret info) as (key & nonce & Hks & _). rewrite Hks. intros [= <- <-].
  cbn [hc_encapsulatedKey hc_ciphertext fst snd]. rewrite x_length by done. split; [done|].
  unfold hpkeOpenBase, protocolInvariant. rewrite !x_length by done. cbn [Nat.eqb andb ensure mbind result_bind].
  rewrite (import_own _ _ Hk). cbn [mbind result_bind]. rewrite <-Hdh. cbn [mbind result_bind].
  rewrite Hs. cbn [mbind result_bind]. rewrite Hks. cbn [mbind result_bind fst snd]. unfold aesGcmOpen.
  by rewrite aes_roundtrip.
Qed.
End hpke.

(** ** Stand-ins *)

(** A key agreement with the laws of X25519, for examples: keys are 32 bytes, a
    public key is the private one, and the derived bits are their sum. *)
Definition toy_x_public (k : bytes) : bytes := take 32 (k ++ replicate 32 x00).
Definition toy_x_import (b : bytes) : option bytes := Some b.
Definition toy_x_derive (a b : bytes) : option bytes :=
  Some (be_bytes 32 (be_value (toy_x_public a) + be_value b)).
Definition toy_x_generate (counter : nat) : nat * (bytes * bytes) :=
  let k := be_bytes 32 (Z.of_nat counter) in (S counter, (k, toy_x_public k)).

Lemma toy_x_laws : X25519Laws toy_x_import toy_x_derive toy_x_generate toy_x_public.
Proof.
  split; unfold toy_x_import, toy_x_derive, toy_x_generate.
  - intros k. unfold toy_x_public. rewrite length_take, length_app, length_replicate. lia.
  - intros k. by eexists.
  - by intros s s' k b [= <- <- <-].
  - intros a b pa pb [= <-] [= <-]. do 2 f_equal. lia.
Qed.
