(* ===== verification/Wire.v ===== *)
(** * Signed messages on the wire: [packages/node-core/src/wire.ts], [cipher.ts]

    A candidate, attestation or heartbeat is signed in the domain of its type,
    written as a five-element array, sealed under the current encryption epoch
    when the group is encrypted, and put into an envelope, inline or as chunks in
    a blob store.  Ed25519, AES-GCM and the random source are parameters; the
    state [S] is that of the blob store and the random source. *)

From Stdlib Require Import Strings.Byte.
From stdpp Require Import base list option numbers.
From S2P Require Import Prelude JsMap Bytes JsNumber Cbor Domains Schema Messages Blobs.

#[local] Open Scope Z_scope.

Inductive WireError :=
  | WIRE_WRONG_GROUP
  | WIRE_BLOB_STORE_REQUIRED
  | WIRE_DIGEST_MISMATCH
  | WIRE_ENCRYPTION_REQUIRED
  | WIRE_ENCRYPTION_EPOCH_UNKNOWN
  | WIRE_SCHEMA_INVALID
  | WIRE_TYPE_MISMATCH
  | WIRE_SIGNATURE_INVALID
  | EPOCH_CONTENT_KEY_INVALID
  | EPOCH_CIPHERTEXT_INVALID
  | EPOCH_CIPHER_CURRENT_UNAVAILABLE
  | EPOCH_CIPHER_CURRENT_REMOVAL_PROHIBITED
  | EPOCH_CIPHER_ID_INVALID
  | WireCoded (code : ErrorCode)
  | WireBlob (e : BlobError).

Definition wire_coded {A} (r : result ErrorCode A) : result WireError A :=
  match r with Ok a => Ok a | Err code => Err (WireCoded code) end.

Definition pure_wire {S A} (r : result WireError A) : SE S WireError A := λ s, (s, r).

Definition lift_blob {S A} (m : SE S BlobError A) : SE S WireError A := λ s,
  let (s', r) := m s in (s', match r with Ok a => Ok a | Err e => Err (WireBlob e) end).

(** ** Messages *)

Inductive WireType := WTcandidate | WTattestation | WTheartbeat.

#[export] Instance WireType_eq_dec : EqDecision WireType.
Proof. solve_decision. Defined.
#[export] Instance EnvelopeMessageType_eq_dec : EqDecision EnvelopeMessageType.
Proof. solve_decision. Defined.

Record SignedWireMessage := mkWire {
  wm_type : WireType;
  wm_payload : bytes;
  wm_signer : bytes;
  wm_signature : bytes;
}.

Definition message_type (t : WireType) : EnvelopeMessageType :=
  match t with WTcandidate => MTcandidate | WTattestation => MTattestation | WTheartbeat => MTheartbeat end.

Definition WIRE_TYPES : list WireType := [WTcandidate; WTattestation; WTheartbeat].

(** [WIRE_TYPES.indexOf(type)], -1 for the other message types. *)
Definition wire_index (t : EnvelopeMessageType) : Z :=
  match list_find (λ w, message_type w = t) WIRE_TYPES with Some (i, _) => Z.of_nat i | None => -1 end.

Definition domainFor (t : WireType) : ProtocolDomain :=
  match t with WTcandidate => Dtransaction | WTattestation => Dattestation | WTheartbeat => Dheartbeat end.

Definition signedWireToCanonicalValue (message : SignedWireMessage) : CborValue :=
  CArray [CInt 1; CInt (wire_index (message_type (wm_type message))); CBytes (wm_payload message);
          CBytes (wm_signer message); CBytes (wm_signature message)].

Definition envelopeAssociatedData (groupRoute : bytes) (t : EnvelopeMessageType) (epochId : bytes) :
    result ErrorCode bytes :=
  encodeCanonicalCbor (CArray [CInt 1; CBytes groupRoute; CInt (wire_index t); CBytes epochId]).

(** ** Ciphers *)

(** [EnvelopeCipher] *)
Record EnvelopeCipher (S : Type) := mkCipher {
  ec_epochId : bytes;
  ec_seal : bytes → bytes → SE S WireError bytes;
  ec_open : bytes → bytes → SE S WireError bytes;
}.
Arguments mkCipher {S}.
Arguments ec_epochId {S}.
Arguments ec_seal {S}.
Arguments ec_open {S}.

(** [EnvelopeCipherResolver] *)
Record EnvelopeCipherResolver (S : Type) := mkResolver {
  er_current : result WireError (EnvelopeCipher S);
  er_resolve : bytes → option (EnvelopeCipher S);
}.
Arguments mkResolver {S}.
Arguments er_current {S}.
Arguments er_resolve {S}.

Inductive CipherOption (S : Type) :=
  | one_cipher (c : EnvelopeCipher S)
  | cipher_resolver (r : EnvelopeCipherResolver S).
Arguments one_cipher {S}.
Arguments cipher_resolver {S}.

(** [isCipherResolver(cipher) ? cipher.current() : cipher] *)
Definition current_cipher {S} (cipher : CipherOption S) : result WireError (EnvelopeCipher S) :=
  match cipher with one_cipher c => Ok c | cipher_resolver r => er_current r end.

(** [isCipherResolver(cipher) ? cipher.resolve(epochId) : cipher] *)
Definition resolved_cipher {S} (cipher : CipherOption S) (epochId : bytes) : option (EnvelopeCipher S) :=
  match cipher with one_cipher c => Some c | cipher_resolver r => er_resolve r epochId end.

Section epochs.
(** AES-256-GCM with a 128-bit tag: key, nonce, additional data, text. *)
Context (aes_encrypt : bytes → bytes → bytes → bytes → bytes)
  (aes_decrypt : bytes → bytes → bytes → bytes → option bytes).
Context {S : Type} (getRandomValues : nat → SE S WireError bytes).

(** [EncryptedEpochPayload] *)
Record EncryptedEpochPayload := mkEncrypted { ep_epoch : Z; ep_nonce : bytes; ep_ciphertext : bytes }.

Definition payloadAad (epoch : Z) (associatedData : bytes) : result ErrorCode bytes :=
  encodeCanonicalCbor (CMap (integerMap [(0, Some (CInt 1)); (1, Some (CInt epoch)); (2, Some (CBytes associatedData))])).

Definition encryptEpochPayload (contentKey : bytes) (epoch : Z) (plaintext associatedData : bytes) :
  SE S WireError EncryptedEpochPayload :=
  pure_wire (wire_coded (protocolInvariant (length contentKey =? 32)%nat INVALID_KEY)) ;;
  nonce ← getRandomValues 12;
  aad ← pure_wire (wire_coded (payloadAad epoch associatedData));
  mret (mkEncrypted epoch nonce (aes_encrypt contentKey nonce aad plaintext)).

Definition decryptEpochPayload (contentKey : bytes) (payload : EncryptedEpochPayload) (associatedData : bytes) :
  result ErrorCode bytes :=
  protocolInvariant (length contentKey =? 32)%nat INVALID_KEY ≫= λ _,
  protocolInvariant (length (ep_nonce payload) =? 12)%nat SCHEMA_INVALID ≫= λ _,
  match payloadAad (ep_epoch payload) associatedData with
  | Err _ => Err INVALID_SIGNATURE
  | Ok aad =>
    match aes_decrypt contentKey (ep_nonce payload) aad (ep_ciphertext payload) with
    | Some plaintext => Ok plaintext
    | None => Err INVALID_SIGNATURE
    end
  end.

Definition epoch_seal (key : bytes) (epoch : Z) (plaintext associatedData : bytes) : SE S WireError bytes :=
  encrypted ← encryptEpochPayload key epoch plaintext associatedData;
  pure_wire (wire_coded (encodeCanonicalCbor
      (CArray [CInt 1; CInt (ep_epoch encrypted); CBytes (ep_nonce encrypted); CBytes (ep_ciphertext encrypted)]))).

Definition epoch_open (key : bytes) (epoch : Z) (ciphertext associatedData : bytes) : result WireError bytes :=
  value ← wire_coded (assertCanonical ciphertext);
  match value with
  | CArray [CInt version; CInt e; CBytes nonce; CBytes text] =>
    if (version =? 1) && (e =? epoch)
    then wire_coded (decryptEpochPayload key (mkEncrypted e nonce text) associatedData)
    else Err EPOCH_CIPHERTEXT_INVALID
  | _ => Err EPOCH_CIPHERTEXT_INVALID
  end.

Definition createEpochEnvelopeCipher (contentKey : bytes) (epoch : Z) : result WireError (EnvelopeCipher S) :=
  ensure (length contentKey =? 32)%nat EPOCH_CONTENT_KEY_INVALID ≫= λ _,
  epochId ← wire_coded (encodeCanonicalCbor (CInt epoch));
  Ok (mkCipher epochId (epoch_seal contentKey epoch) (λ ct ad, pure_wire (epoch_open contentKey epoch ct ad))).

(** *** [EpochCipherRing] *)

Record EpochCipherRing := mkRing {
    ring_epochs : jsmap jsstring (EnvelopeCipher S);
    ring_currentKey : option jsstring;
}.

Definition empty_ring : EpochCipherRing := mkRing [] None.

Definition epochKey (value : bytes) : jsstring := bytesToHex value.

Definition install (contentKey : bytes) (epoch : Z) (makeCurrent : bool) :
  SE EpochCipherRing WireError (EnvelopeCipher S) := λ ring,
  match createEpochEnvelopeCipher contentKey epoch with
  | Err e => (ring, Err e)
  | Ok cipher =>
    let key := epochKey (ec_epochId cipher) in
    match map_get key (ring_epochs ring) with
    | Some existing =>
      (if makeCurrent then mkRing (ring_epochs ring) (Some key) else ring, Ok existing)
    | None =>
      (mkRing (map_set key cipher (ring_epochs ring))
        (if makeCurrent || bool_decide (ring_currentKey ring = None) then Some key else ring_currentKey ring),
        Ok cipher)
    end
  end.

Definition ring_current (ring : EpochCipherRing) : result WireError (EnvelopeCipher S) :=
  match ring_currentKey ring with
  | None => Err EPOCH_CIPHER_CURRENT_UNAVAILABLE
  | Some key =>
    match map_get key (ring_epochs ring) with Some c => Ok c | None => Err EPOCH_CIPHER_CURRENT_UNAVAILABLE end
  end.

Definition ring_resolve (epochId : bytes) (ring : EpochCipherRing) : option (EnvelopeCipher S) :=
  map_get (epochKey epochId) (ring_epochs ring).

Definition ring_remove (epoch : Z) : SE EpochCipherRing WireError unit := λ ring,
  match encodeCanonicalCbor (CInt epoch) with
  | Err code => (ring, Err (WireCoded code))
  | Ok epochId =>
    let key := epochKey epochId in
    if bool_decide (Some key = ring_currentKey ring) then (ring, Err EPOCH_CIPHER_CURRENT_REMOVAL_PROHIBITED)
    else (mkRing (map_delete key (ring_epochs ring)) (ring_currentKey ring), Ok tt)
  end.

Definition ring_epoch (cipher : EnvelopeCipher S) : result WireError Z :=
  value ← wire_coded (assertCanonical (ec_epochId cipher));
  match value with CInt epoch => Ok epoch | _ => Err EPOCH_CIPHER_ID_INVALID end.

Definition ring_epoch_list (ring : EpochCipherRing) : result WireError (list Z) :=
  values ← mapR ring_epoch (map_values (ring_epochs ring));
  Ok (js_sort (λ a b, if a <? b then -1 else if b <? a then 1 else 0) values).

(** The ring as a resolver. *)
Definition ring_resolver (ring : EpochCipherRing) : EnvelopeCipherResolver S :=
  mkResolver (ring_current ring) (λ epochId, ring_resolve epochId ring).
End epochs.

(** ** Envelopes *)

Section envelopes.
Context (sha256 : bytes → bytes).
(** WebCrypto's Ed25519: signing with a private key may fail. *)
Context (ed25519_verify : bytes → bytes → bytes → bool) {Key : Type} (ed25519_sign : Key → bytes → option bytes).
Context {S : Type}.

Record Ed25519KeyPair := mkKeyPair { publicKeyBytes : bytes; privateKey : Key }.

Definition signDomain (domain : ProtocolDomain) (payload : bytes) (key : Key) : result ErrorCode bytes :=
  match domainSeparatedBytes domain payload with
  | Ok message => match ed25519_sign key message with Some signature => Ok signature | None => Err INVALID_KEY end
  | Err _ => Err INVALID_KEY
  end.

(** [cipher === undefined ? undefined : ...] for the two directions. *)
Definition sealing_cipher (cipher : option (CipherOption S)) : result WireError (option (EnvelopeCipher S)) :=
  match cipher with None => Ok None | Some c => Some <$> current_cipher c end.

Definition opening_cipher (epoch : option bytes) (cipher : option (CipherOption S)) : option (EnvelopeCipher S) :=
  match epoch, cipher with Some e, Some c => resolved_cipher c e | _, _ => None end.

(** [activeCipher === undefined ? wire : await activeCipher.seal(wire, ...)] *)
Definition seal_wire (groupRoute : bytes) (t : WireType) (wire : bytes) (activeCipher : option (EnvelopeCipher S)) :
  SE S WireError bytes :=
  match activeCipher with
  | None => mret wire
  | Some c =>
    ad ← pure_wire (wire_coded (envelopeAssociatedData groupRoute (message_type t) (ec_epochId c)));
    ec_seal c wire ad
  end.

Definition payload_field (envelopePayload : bytes) (blobs : option (EnvelopeBlobOptions S)) :
  SE S WireError EnvelopePayload :=
  match blobs with
  | Some options =>
    if bo_maxInlineBytes options <? zlen envelopePayload
    then m ← lift_blob (storeEnvelopePayload sha256 envelopePayload options); mret (manifest m)
    else mret (inline envelopePayload)
  | None => mret (inline envelopePayload)
  end.

Definition encodeSignedEnvelope (groupRoute : bytes) (t : WireType) (payload : bytes) (signer : Ed25519KeyPair)
  (cipher : option (CipherOption S)) (blobs : option (EnvelopeBlobOptions S)) : SE S WireError bytes :=
  activeCipher ← pure_wire (sealing_cipher cipher);
  signature ← pure_wire (wire_coded (signDomain (domainFor t) payload (privateKey signer)));
  wire ← pure_wire (wire_coded (encodeCanonicalCbor
      (signedWireToCanonicalValue (mkWire t payload (publicKeyBytes signer) signature))));
  let epochId := ec_epochId <$> activeCipher in
  envelopePayload ← seal_wire groupRoute t wire activeCipher;
  payloadField ← payload_field envelopePayload blobs;
  digest ← pure_wire (wire_coded (hashDomain sha256 Denvelope envelopePayload));
  pure_wire (wire_coded (encodeEnvelope (mkEnvelope groupRoute (message_type t) epochId digest payloadField))).

Definition payload_bytes (envelope : ChronologEnvelope) (blobStore : option (BlobStore S)) : SE S WireError bytes :=
  match env_payload envelope with
  | inline _ => pure_wire (wire_coded (resolveEnvelopePayload sha256 envelope []))
  | manifest m =>
    match blobStore with
    | None => throw WIRE_BLOB_STORE_REQUIRED
    | Some store => lift_blob (loadEnvelopePayload sha256 m store DEFAULT_MAXIMUM_PAYLOAD)
    end
  end.

(** The check of the epoch and [activeCipher === undefined ? payloadBytes : await activeCipher.open(...)];
    a message without an epoch has no active cipher. *)
Definition open_wire (expectedGroupRoute : bytes) (envelope : ChronologEnvelope) (payloadBytes : bytes)
  (activeCipher : option (EnvelopeCipher S)) : SE S WireError bytes :=
  match env_encryptionEpoch envelope with
  | None => mret payloadBytes
  | Some epoch =>
    match activeCipher with
    | None => throw WIRE_ENCRYPTION_EPOCH_UNKNOWN
    | Some c =>
      pure_wire (ensure (equalBytes epoch (ec_epochId c)) WIRE_ENCRYPTION_EPOCH_UNKNOWN) ;;
      ad ← pure_wire (wire_coded (envelopeAssociatedData expectedGroupRoute (env_messageType envelope) epoch));
      ec_open c payloadBytes ad
    end
  end.

(** The checks on the decoded array, from the schema to the signature. *)
Definition check_wire (envelope : ChronologEnvelope) (value : CborValue) : result WireError SignedWireMessage :=
  match value with
  | CArray [CInt version; CInt typeIndex; CBytes payload; CBytes signer; CBytes signature] =>
    if negb (version =? 1) then Err WIRE_SCHEMA_INVALID
    else if (typeIndex <? 0) || (zlen WIRE_TYPES <=? typeIndex) then Err WIRE_SCHEMA_INVALID
    else match WIRE_TYPES !! Z.to_nat typeIndex with
    | None => Err WIRE_TYPE_MISMATCH
    | Some t =>
      ensure (bool_decide (message_type t = env_messageType envelope)) WIRE_TYPE_MISMATCH ≫= λ _,
      ensure (verifyDomain ed25519_verify (domainFor t) payload signature signer) WIRE_SIGNATURE_INVALID ≫= λ _,
      Ok (mkWire t payload signer signature)
    end
  | _ => Err WIRE_SCHEMA_INVALID
  end.

Definition decodeSignedEnvelope (encoded expectedGroupRoute : bytes) (cipher : option (CipherOption S))
  (blobStore : option (BlobStore S)) : SE S WireError SignedWireMessage :=
  envelope ← pure_wire (wire_coded (decodeEnvelope encoded));
  pure_wire (ensure (equalBytes (env_groupRoute envelope) expectedGroupRoute) WIRE_WRONG_GROUP) ;;
  payloadBytes ← payload_bytes envelope blobStore;
  digest ← pure_wire (wire_coded (hashDomain sha256 Denvelope payloadBytes));
  pure_wire (ensure (equalBytes digest (env_payloadDigest envelope)) WIRE_DIGEST_MISMATCH) ;;
  let activeCipher := opening_cipher (env_encryptionEpoch envelope) cipher in
  pure_wire (ensure (Bool.eqb (bool_decide (env_encryptionEpoch envelope = None))
      (match cipher with None => true | Some _ => false end)) WIRE_ENCRYPTION_REQUIRED) ;;
  wireBytes ← open_wire expectedGroupRoute envelope payloadBytes activeCipher;
  value ← pure_wire (wire_coded (assertCanonical wireBytes));
  pure_wire (check_wire envelope value).
End envelopes.
Arguments mkKeyPair {Key}.
Arguments publicKeyBytes {Key}.
Arguments privateKey {Key}.
