(* ===== verification/Epochs.v ===== *)
(** * Encryption epochs: the manifests of [packages/crypto/src/epoch.ts]

    The content key of an epoch is sealed for every reader with HPKE, in a context
    that names the group, the epoch, the epoch before it and the reader; the list
    of these wraps is signed by the root.  (The encryption of payloads under a
    content key is in [Wire].)  WebCrypto's primitives and the random source are
    parameters, [S] is the state of the latter. *)

From Stdlib Require Import Strings.Byte Strings.String.
From stdpp Require Import base list option numbers.
From S2P Require Import Prelude JsMap Bytes Text Cbor Schema Domains Messages CapCodec Hpke Wire.

#[local] Open Scope Z_scope.

Record EpochRecipient := mkRecipient { rp_recipientId : bytes; rp_publicKey : bytes }.

Record EpochKeyWrap := mkWrap {
  kw_recipientId : bytes;
  kw_recipientPublicKey : bytes;
  kw_encapsulatedKey : bytes;
  kw_ciphertext : bytes;
}.

Record EpochManifest := mkEpochManifest {
  eh_groupId : bytes;
  eh_epoch : Z;
  eh_previousEpochDigest : option bytes;
  eh_suite : jsstring;
  eh_createdAtMs : Z;
  eh_wraps : list EpochKeyWrap;
}.

Record SignedEpochManifest := mkSignedEpoch {
  se_manifest : EpochManifest;
  se_signerPublicKey : bytes;
  se_signature : bytes;
}.

Record CreatedEpoch := mkCreatedEpoch { ce_signedManifest : SignedEpochManifest; ce_contentKey : bytes }.

(** ** Encoding *)

Definition nullable_bytes (o : option bytes) : CborValue := match o with Some b => CBytes b | None => CNull end.

Definition wrapContext (groupId : bytes) (epoch : Z) (previous : option bytes) (recipientId : bytes) :
    result ErrorCode bytes :=
  encodeCanonicalCbor (CMap (integerMap [(0, Some (CBytes groupId)); (1, Some (CInt epoch));
    (2, Some (nullable_bytes previous)); (3, Some (CBytes recipientId)); (4, Some (CText HPKE_SUITE))])).

Definition wrapToCbor (value : EpochKeyWrap) : CborValue :=
  CMap (integerMap [(0, Some (CBytes (kw_recipientId value))); (1, Some (CBytes (kw_recipientPublicKey value)));
    (2, Some (CBytes (kw_encapsulatedKey value))); (3, Some (CBytes (kw_ciphertext value)))]).

Definition compareWraps (a b : EpochKeyWrap) : Z := compareBytes (kw_recipientId a) (kw_recipientId b).

(** The loop over neighbours. *)
Fixpoint no_neighbours (sorted : list EpochKeyWrap) : result ErrorCode unit :=
  match sorted with
  | a :: (b :: _) as rest =>
      protocolInvariant (negb (compareBytes (kw_recipientId a) (kw_recipientId b) =? 0)) SCHEMA_INVALID ≫= λ _,
      no_neighbours rest
  | _ => Ok tt
  end.

Definition epochManifestToCbor (value : EpochManifest) : result ErrorCode CborValue :=
  protocolInvariant (0 <=? eh_epoch value) INTEGER_OUT_OF_RANGE ≫= λ _,
  protocolInvariant (bool_decide (eh_suite value = HPKE_SUITE)) SCHEMA_INVALID ≫= λ _,
  protocolInvariant (0 <? length (eh_wraps value))%nat SCHEMA_INVALID ≫= λ _,
  let sorted := js_sort compareWraps (eh_wraps value) in
  no_neighbours sorted ≫= λ _,
  Ok (CMap (integerMap [(0, Some (CInt 1)); (1, Some (CBytes (eh_groupId value))); (2, Some (CInt (eh_epoch value)));
    (3, Some (nullable_bytes (eh_previousEpochDigest value))); (4, Some (CText (eh_suite value)));
    (5, Some (CInt (eh_createdAtMs value))); (6, Some (CArray (wrapToCbor <$> sorted)))])).

Definition encodeEpochManifest (value : EpochManifest) : result ErrorCode bytes :=
  v ← epochManifestToCbor value; encodeCanonicalCbor v.

Definition wrapFromCbor (item : CborValue) : result ErrorCode EpochKeyWrap :=
  wrap ← expectMap item;
  assertKnownIntegerKeys wrap [0; 1; 2; 3] ≫= λ _,
  recipientId ← bytes_field wrap 0 None;
  recipientPublicKey ← bytes_field wrap 1 (Some 32%nat);
  encapsulatedKey ← bytes_field wrap 2 (Some 32%nat);
  ciphertext ← bytes_field wrap 3 None;
  Ok (mkWrap recipientId recipientPublicKey encapsulatedKey ciphertext).

Definition previousFromCbor (value : CborValue) : result ErrorCode (option bytes) :=
  match value with CNull => Ok None | CBytes b => Ok (Some b) | _ => Err SCHEMA_INVALID end.

Definition epochManifestFromCbor (value : CborValue) : result ErrorCode EpochManifest :=
  map ← expectMap value;
  assertKnownIntegerKeys map [0; 1; 2; 3; 4; 5; 6] ≫= λ _,
  expectVersion map 1 ≫= λ _,
  previous ← (v ← required map 3; previousFromCbor v);
  suite ← string_field map 4;
  protocolInvariant (bool_decide (suite = HPKE_SUITE)) SCHEMA_INVALID ≫= λ _,
  groupId ← bytes_field map 1 None;
  epoch ← uint64_field map 2;
  createdAtMs ← uint64_field map 5;
  items ← array_field map 6;
  wraps ← mapR wrapFromCbor items;
  let manifest := mkEpochManifest groupId epoch previous suite createdAtMs wraps in
  epochManifestToCbor manifest ≫= λ _,
  Ok manifest.

Definition decodeEpochManifest (b : bytes) : result ErrorCode EpochManifest :=
  value ← assertCanonical b; epochManifestFromCbor value.

Definition encodeSignedEpochManifest (value : SignedEpochManifest) : result ErrorCode bytes :=
  payload ← encodeEpochManifest (se_manifest value);
  encodeCanonicalCbor (CMap (integerMap [(0, Some (CInt 1)); (1, Some (CBytes payload));
    (2, Some (CBytes (se_signerPublicKey value))); (3, Some (CBytes (se_signature value)))])).

Definition signedEpochFromCbor (value : CborValue) : result ErrorCode SignedEpochManifest :=
  map ← expectMap value;
  assertKnownIntegerKeys map [0; 1; 2; 3] ≫= λ _,
  expectVersion map 1 ≫= λ _,
  payload ← bytes_field map 1 None;
  manifest ← decodeEpochManifest payload;
  signerPublicKey ← bytes_field map 2 (Some 32%nat);
  signature ← bytes_field map 3 (Some 64%nat);
  Ok (mkSignedEpoch manifest signerPublicKey signature).

Definition decodeSignedEpochManifest (b : bytes) : result ErrorCode SignedEpochManifest :=
  value ← assertCanonical b; signedEpochFromCbor value.

(** ** Keys of an epoch *)

Section keys.
Context (hmac_sha256 : bytes → bytes → bytes).
Context {XPrivate XPublic S : Type} (x25519_import : bytes → option XPublic)
  (x25519_derive : XPrivate → XPublic → option bytes) (x25519_generate : S → S * (XPrivate * bytes)).
Context (aes_encrypt : bytes → bytes → bytes → bytes → bytes)
  (aes_decrypt : bytes → bytes → bytes → bytes → option bytes).
Context (getRandomValues : nat → S → S * bytes).
Context (ed25519_verify : bytes → bytes → bytes → bool) {Key : Type} (ed25519_sign : Key → bytes → option bytes).

#[local] Abbreviation hpkeSealBase := (hpkeSealBase hmac_sha256 x25519_import x25519_derive x25519_generate aes_encrypt).
#[local] Abbreviation hpkeOpenBase := (hpkeOpenBase hmac_sha256 x25519_import x25519_derive aes_decrypt).

Record EpochInput := mkEpochInput {
  ei_groupId : bytes;
  ei_epoch : Z;
  ei_previousEpochDigest : option bytes;
  ei_createdAtMs : Z;
  ei_recipients : list EpochRecipient;
  ei_signerPublicKey : bytes;
  ei_signerPrivateKey : Key;
  ei_contentKey : option bytes;
}.

Definition compareRecipients (a b : EpochRecipient) : Z := compareBytes (rp_recipientId a) (rp_recipientId b).

(** The loop over the sorted recipients; [previous] is the one before, if any. *)
Fixpoint seal_wraps (input : EpochInput) (contentKey : bytes) (previous : option EpochRecipient)
    (recipients : list EpochRecipient) : SE S ErrorCode (list EpochKeyWrap) :=
  match recipients with
  | [] => mret []
  | recipient :: recipients' =>
      pure_result (match previous with
        | Some p => protocolInvariant (negb (compareBytes (rp_recipientId p) (rp_recipientId recipient) =? 0)) SCHEMA_INVALID
        | None => Ok tt
        end) ;;
      context ← pure_result (wrapContext (ei_groupId input) (ei_epoch input) (ei_previousEpochDigest input) (rp_recipientId recipient));
      sealed ← hpkeSealBase (rp_publicKey recipient) contentKey context context;
      wraps ← seal_wraps input contentKey (Some recipient) recipients';
      mret (mkWrap (rp_recipientId recipient) (rp_publicKey recipient) (hc_encapsulatedKey sealed) (hc_ciphertext sealed) :: wraps)
  end.

(** [input.contentKey?.slice() ?? getRandomValues(new Uint8Array(32))] *)
Definition content_key (input : EpochInput) : SE S ErrorCode bytes :=
  match ei_contentKey input with Some key => mret key | None => draw (getRandomValues 32) end.

Definition createEpochManifest (input : EpochInput) : SE S ErrorCode CreatedEpoch :=
  contentKey ← content_key input;
  pure_result (protocolInvariant (length contentKey =? 32)%nat SCHEMA_INVALID) ;;
  let recipients := js_sort compareRecipients (ei_recipients input) in
  pure_result (protocolInvariant (0 <? length recipients)%nat SCHEMA_INVALID) ;;
  wraps ← seal_wraps input contentKey None recipients;
  let manifest := mkEpochManifest (ei_groupId input) (ei_epoch input) (ei_previousEpochDigest input) HPKE_SUITE
                    (ei_createdAtMs input) wraps in
  encoded ← pure_result (encodeEpochManifest manifest);
  signature ← pure_result (signDomain ed25519_sign DepochManifest encoded (ei_signerPrivateKey input));
  mret (mkCreatedEpoch (mkSignedEpoch manifest (ei_signerPublicKey input) signature) contentKey).

Definition verifyEpochManifest (value : SignedEpochManifest) (trustedSigner : bytes) : result ErrorCode bool :=
  if equalBytes (se_signerPublicKey value) trustedSigner
  then encoded ← encodeEpochManifest (se_manifest value);
       Ok (verifyDomain ed25519_verify DepochManifest encoded (se_signature value) trustedSigner)
  else Ok false.

Definition unwrapEpochKey (signedManifest : SignedEpochManifest) (trustedSigner recipientId : bytes)
    (recipientPrivateKey : XPrivate) : result ErrorCode bytes :=
  verified ← verifyEpochManifest signedManifest trustedSigner;
  protocolInvariant verified INVALID_SIGNATURE ≫= λ _,
  let manifest := se_manifest signedManifest in
  match list_find (λ candidate, equalBytes (kw_recipientId candidate) recipientId = true) (eh_wraps manifest) with
  | None => Err INVALID_KEY
  | Some (_, wrap) =>
      context ← wrapContext (eh_groupId manifest) (eh_epoch manifest) (eh_previousEpochDigest manifest) recipientId;
      key ← hpkeOpenBase recipientPrivateKey (kw_recipientPublicKey wrap) (kw_encapsulatedKey wrap)
              (kw_ciphertext wrap) context context;
      protocolInvariant (length key =? 32)%nat INVALID_KEY ≫= λ _,
      Ok key
  end.

End keys.
