(* ===== verification/WireTheorems.v ===== *)
(** * Signed envelopes: what is written is read, and only that

    The round trip of a signed message through signature, encryption, chunking
    and both encodings; what acceptance of an envelope establishes; and the
    invariant of the ring of epoch keys. *)

From Stdlib Require Import Strings.Byte.
From stdpp Require Import base list option numbers sets.
From S2P Require Import Prelude JsMap Bytes JsNumber Cbor CborProofs Domains Schema Messages Blobs BlobsTheorems Wire.

#[local] Open Scope Z_scope.

(** ** Sizes *)

Lemma wire_head_size major n h : encodeHead major n = Ok h → zlen h ≤ 9.
Proof.
  unfold encodeHead. intros H. inv_ok. repeat case_match; inv_ok; subst; unfold zlen; simpl;
    rewrite ?be_bytes_length; lia.
Qed.

Lemma encodeByteString_upper b bs : encodeByteString b = Ok bs → zlen bs ≤ zlen b + 9.
Proof.
  unfold encodeByteString. intros H. inv_ok. subst. rename select (encodeHead _ _ = Ok _) into Hh.
  apply wire_head_size in Hh. rewrite concatBytes_cons, concatBytes_cons, concatBytes_nil, app_nil_r, zlen_app. lia.
Qed.

Lemma encodeBigint_upper z bs : small_int z = true → encodeBigint z = Ok bs → zlen bs ≤ 9.
Proof.
  unfold small_int, encodeBigint. intros Hs H. case_match eqn:E; [by eapply wire_head_size|].
  exfalso. revert Hs E. unfold MAX_UINT64. case_match; lia.
Qed.

(** The most an item of a message takes. *)
Definition item_size (v : CborValue) : Z :=
  match v with CBytes b => zlen b + 9 | _ => 9 end.

Definition flat (v : CborValue) : bool := match v with CInt z => small_int z | CBytes _ => true | _ => false end.

Lemma flat_size v bs : flat v = true → encodeCanonicalCbor v = Ok bs → zlen bs ≤ item_size v.
Proof.
  destruct v; try done; cbn [flat item_size encodeCanonicalCbor]; intros Hf H.
  - by eapply encodeBigint_upper.
  - by apply encodeByteString_upper.
Qed.

Lemma flat_array_size l bs : forallb flat l = true → encodeCanonicalCbor (CArray l) = Ok bs →
  zlen bs ≤ 9 + foldr (λ v n, item_size v + n) 0 l.
Proof.
  cbn [encodeCanonicalCbor]. intros Hl H. inv_ok. subst. rename select (encodeHead _ _ = Ok _) into Hh.
  apply wire_head_size in Hh. rename select (mapR _ _ = Ok _) into Hm. apply mapR_Ok in Hm.
  rewrite concatBytes_cons, zlen_app.
  enough (zlen (concatBytes x0) ≤ foldr (λ v n, item_size v + n) 0 l) by lia.
  clear Hh. induction Hm as [|v b l bs Hv _ IH]; [done|]. cbn [forallb] in Hl.
  apply andb_true_iff in Hl as [Hf Hl]. rewrite concatBytes_cons, zlen_app. cbn [foldr].
  apply flat_size in Hv; [|done]. specialize (IH Hl). lia.
Qed.

Lemma flat_array_read l bs : forallb flat l = true → zlen l ≤ 100 →
  encodeCanonicalCbor (CArray l) = Ok bs → zlen bs ≤ maxBytes DEFAULT_DECODE_LIMITS →
  assertCanonical bs = Ok (CArray l).
Proof.
  intros Hl Hn Henc Hmax. assert (shape DEFAULT_DECODE_LIMITS 0 (CArray l) = true) as Hs.
  { cbn [shape]. repeat (apply andb_true_iff; split); [done|by apply Z.leb_le; simpl; lia|by apply Z.leb_le; unfold MAX_SAFE_INTEGER; lia|].
    rewrite forallb_forall in *. intros v Hv. specialize (Hl v Hv). by destruct v. }
  apply assert_complete; [by eapply default_fits| |done|done].
  cbn [canonical_form]. f_equal. clear -Hl. induction l as [|v l IH]; [done|]. cbn [forallb] in Hl.
  apply andb_true_iff in Hl as [Hv Hl]. cbn [fmap list_fmap]. f_equal; [by destruct v|]. by apply IH.
Qed.

(** A flat array is at least as long as each byte string in it. *)
Lemma flat_array_item l bs b : encodeCanonicalCbor (CArray l) = Ok bs → CBytes b ∈ l → zlen b ≤ zlen bs.
Proof.
  intros Henc Hb. destruct (encode_array_item _ _ _ Henc Hb) as (c & Hc & Hle).
  apply encodeByteString_size in Hc. lia.
Qed.

(** ** Manifests of stored payloads *)

Section manifests.
Context (sha256 : bytes → bytes).
Hypothesis sha256_length : ∀ b, length (sha256 b) = 32%nat.

Lemma hashDomain_length d p h : hashDomain sha256 d p = Ok h → length h = 32%nat.
Proof. intros ->%hashDomain_Ok. apply sha256_length. Qed.

Lemma split_chunks_count fuel size b : (1 ≤ size)%nat → (length b ≤ fuel)%nat →
  zlen (split_chunks fuel size b) * Z.of_nat size ≤ zlen b + Z.of_nat size - 1.
Proof.
  intros Hs. revert b. induction fuel as [|fuel IH]; intros b Hb.
  { destruct b; [|simpl in Hb; lia]. unfold zlen. simpl. lia. }
  destruct b as [|x b]; [unfold zlen; simpl; lia|].
  cbn [split_chunks]. specialize (IH (drop size (x :: b))). unfold zlen in *. rewrite length_drop in IH.
  simpl length in *. destruct (decide (size ≤ S (length b))%nat); [nia|].
  rewrite drop_ge by (simpl; lia). destruct fuel; simpl; nia.
Qed.

Lemma concat_sizes chunks cs :
  mapR (λ chunk, digest ← payloadChunkDigest sha256 chunk; Ok (mkChunk digest (zlen chunk))) chunks = Ok cs →
  zlen (concatBytes chunks) = foldr (λ c sum, chunk_size c + sum) 0 cs ∧
  Forall (λ c, length (chunk_digest c) = 32%nat ∧ 0 ≤ chunk_size c ≤ zlen (concatBytes chunks)) cs.
Proof.
  intros Hcs%mapR_Ok. induction Hcs as [|chunk c chunks cs Hc _ [IH1 IH2]]; [done|]. inv_ok. subst c.
  rewrite concatBytes_cons, zlen_app. split; [simpl; lia|]. constructor.
  - split; [by eapply hashDomain_length|]. simpl. pose proof (zlen_nonneg (concatBytes chunks)).
    pose proof (zlen_nonneg chunk). lia.
  - eapply Forall_impl; [exact IH2|]. simpl. intros c [? ?]. pose proof (zlen_nonneg chunk). lia.
Qed.

Lemma created_manifest_valid chunks m :
  createPayloadManifest sha256 chunks = Ok m → zlen (concatBytes chunks) ≤ MAX_SAFE_INTEGER → manifest_valid m.
Proof.
  unfold createPayloadManifest, protocolInvariant. intros H Hn. inv_ok. subst.
  rename select (mapR _ _ = Ok _) into Hcs. pose proof (mapR_length _ _ _ Hcs) as Hl.
  destruct (concat_sizes _ _ Hcs) as [Hsum Hall]. unfold manifest_valid. cbn [pm_chunks pm_totalDigest pm_totalSize].
  rename select ((0 <? _)%nat = true) into Hne. apply Nat.ltb_lt in Hne.
  split_and!; [intros E; rewrite E in Hl; by destruct chunks; [simpl in Hne; lia|]|by eapply hashDomain_length|unfold MAX_SAFE_INTEGER, MAX_UINT64 in *; lia| |done].
  eapply Forall_impl; [exact Hall|]. intros c [? ?]. unfold chunk_valid, MAX_SAFE_INTEGER, MAX_UINT64 in *. split; [done|lia].
Qed.
End manifests.

(** ** Ciphers *)

(** The room the encodings and the cipher need around a payload. *)
Definition WIRE_OVERHEAD : Z := 512.
Definition WIRE_LIMIT : Z := 16 * 1024 * 1024.

Section ciphers.
Context {S : Type} (good : S → Prop).

(** What [k] seals, [k'] opens. *)
Class CipherPair (k k' : EnvelopeCipher S) : Prop := {
    pair_epoch : ec_epochId k' = ec_epochId k;
    pair_good pt ad s s' r : good s → ec_seal k pt ad s = (s', r) → good s';
    pair_opens pt ad s s' ct t : ec_seal k pt ad s = (s', Ok ct) → zlen pt + 200 ≤ WIRE_LIMIT →
    zlen pt ≤ zlen ct ≤ zlen pt + 200 ∧ ec_open k' ct ad t = (t, Ok pt);
}.

(** The reader finds the cipher the writer currently uses. *)
Definition ciphers_match (writer reader : option (CipherOption S)) : Prop :=
  match writer, reader with
  | None, None => True
  | Some c, Some c' => ∀ k, current_cipher c = Ok k →
    ∃ k', resolved_cipher c' (ec_epochId k) = Some k' ∧ CipherPair k k'
  | _, _ => False
  end.

Context (aes_encrypt : bytes → bytes → bytes → bytes → bytes)
  (aes_decrypt : bytes → bytes → bytes → bytes → option bytes) (getRandomValues : nat → SE S WireError bytes).

(** AES-GCM decrypts what it encrypted and adds a tag of 16 bytes; the random
    source yields as many bytes as asked for. *)
Record CryptoLaws : Prop := {
    aes_roundtrip key nonce ad pt : aes_decrypt key nonce ad (aes_encrypt key nonce ad pt) = Some pt;
    aes_length key nonce ad pt : length (aes_encrypt key nonce ad pt) = (length pt + 16)%nat;
    random_length n s s' b : getRandomValues n s = (s', Ok b) → length b = n;
    random_good n s s' r : good s → getRandomValues n s = (s', r) → good s';
}.

Lemma epoch_seal_inv key epoch pt ad s s' ct :
  epoch_seal aes_encrypt getRandomValues key epoch pt ad s = (s', Ok ct) →
  ∃ nonce aad, getRandomValues 12 s = (s', Ok nonce) ∧ length key = 32%nat ∧ payloadAad epoch ad = Ok aad ∧
  encodeCanonicalCbor (CArray [CInt 1; CInt epoch; CBytes nonce; CBytes (aes_encrypt key nonce aad pt)]) = Ok ct.
Proof.
  unfold epoch_seal, encryptEpochPayload, pure_wire, mbind, SE_bind, mret, SE_ret, protocolInvariant.
  destruct (length key =? 32)%nat eqn:Hk; cbn [ensure wire_coded]; [|done].
  destruct (getRandomValues 12 s) as [s1 [nonce|]]; [|done].
  destruct (payloadAad epoch ad) as [aad|]; cbn [wire_coded]; [|done]. cbn [ep_epoch ep_nonce ep_ciphertext].
  destruct (encodeCanonicalCbor _) as [b|] eqn:He; cbn [wire_coded]; [|done]. intros [= <- <-].
  exists nonce, aad. apply Nat.eqb_eq in Hk. done.
Qed.

Lemma epoch_array_flat epoch a b : small_int epoch = true →
  forallb flat [CInt 1; CInt epoch; CBytes a; CBytes b] = true.
Proof. intros H. cbn [forallb flat andb]. by rewrite H. Qed.

Lemma epoch_cipher_pair key epoch k : CryptoLaws → small_int epoch = true →
  createEpochEnvelopeCipher aes_encrypt aes_decrypt getRandomValues key epoch = Ok k → CipherPair k k.
Proof.
  intros [Hrt Hlen Hrl Hrg] Hep. unfold createEpochEnvelopeCipher. intros H. inv_ok. subst k. split; [done|..].
  - intros pt ad s s' r Hg. cbn [ec_seal]. unfold epoch_seal, encryptEpochPayload, pure_wire, mbind, SE_bind, mret, SE_ret.
    intros E. repeat case_match; simplify_eq; eauto.
  - intros pt ad s s' ct t (nonce & aad & Hn & Hk & Ha & Hct)%epoch_seal_inv Hpt. apply Hrl in Hn as Hnl.
    assert (zlen (aes_encrypt key nonce aad pt) = zlen pt + 16) as Hc by (unfold zlen; rewrite Hlen; lia).
    assert (zlen pt ≤ zlen ct) as Hlow.
    { enough (zlen (aes_encrypt key nonce aad pt) ≤ zlen ct) by lia.
      eapply flat_array_item; [exact Hct|]. do 3 right. left. }
    assert (zlen ct ≤ zlen pt + 200) as Hup.
    { apply flat_array_size in Hct; [|by apply epoch_array_flat]. cbn [foldr item_size] in Hct.
      assert (zlen nonce = 12) by (unfold zlen; lia). lia. }
    split; [lia|]. cbn [ec_open]. unfold pure_wire, epoch_open.
    erewrite flat_array_read; [|by apply epoch_array_flat|done|exact Hct|unfold WIRE_LIMIT in *; simpl; lia].
    cbn [wire_coded mbind result_bind]. rewrite Z.eqb_refl, Z.eqb_refl. cbn [andb].
    unfold decryptEpochPayload, protocolInvariant. cbn [ep_nonce ep_epoch ep_ciphertext].
    rewrite Hk, Hnl. cbn [Nat.eqb ensure mbind result_bind]. rewrite Ha, Hrt. done.
Qed.
End ciphers.

(** ** Envelopes *)

Section envelopes.
Context (sha256 : bytes → bytes) (ed25519_verify : bytes → bytes → bytes → bool)
  {Key : Type} (ed25519_sign : Key → bytes → option bytes) {S : Type}.

(** A key pair signs what its public key verifies, with signatures of 64 bytes. *)
Definition key_pair_law (signer : Ed25519KeyPair) : Prop :=
  length (publicKeyBytes signer) = 32%nat ∧
  ∀ message signature, ed25519_sign (privateKey signer) message = Some signature →
  length signature = 64%nat ∧ ed25519_verify message signature (publicKeyBytes signer) = true.

Lemma signDomain_verifies signer d p sg : key_pair_law signer → signDomain ed25519_sign d p (privateKey signer) = Ok sg →
  length sg = 64%nat ∧ verifyDomain ed25519_verify d p sg (publicKeyBytes signer) = true.
Proof.
  intros [Hk Hlaw]. unfold signDomain, verifyDomain. rewrite domainSeparatedBytes_total.
  destruct (ed25519_sign _ _) as [sg'|] eqn:E; [|done]. intros [= <-]. destruct (Hlaw _ _ E) as [-> Hv].
  rewrite Hk. done.
Qed.

Lemma wire_index_type t : 0 ≤ wire_index (message_type t) < 3 ∧
  WIRE_TYPES !! Z.to_nat (wire_index (message_type t)) = Some t.
Proof. by destruct t. Qed.

Lemma check_wire_complete e m :
  env_messageType e = message_type (wm_type m) →
  verifyDomain ed25519_verify (domainFor (wm_type m)) (wm_payload m) (wm_signature m) (wm_signer m) = true →
  check_wire ed25519_verify e (signedWireToCanonicalValue m) = Ok m.
Proof.
  intros He Hv. unfold check_wire, signedWireToCanonicalValue. cbn [Z.eqb negb].
  destruct (wire_index_type (wm_type m)) as [Hi Hl]. change (zlen WIRE_TYPES) with 3.
  rewrite (proj2 (Z.ltb_ge _ _)), (proj2 (Z.leb_gt _ _)) by lia. cbn [orb]. rewrite Hl.
  rewrite bool_decide_true by done. cbn [ensure mbind result_bind]. rewrite Hv. by destruct m.
Qed.

Lemma check_wire_sound e v m : check_wire ed25519_verify e v = Ok m →
  v = signedWireToCanonicalValue m ∧ env_messageType e = message_type (wm_type m) ∧
  verifyDomain ed25519_verify (domainFor (wm_type m)) (wm_payload m) (wm_signature m) (wm_signer m) = true.
Proof.
  unfold check_wire. intros H. repeat (case_match; try discriminate). inv_ok. subst. cbn.
  rewrite bool_decide_eq_true in *. rename select (negb _ = false) into H1. apply negb_false_iff, Z.eqb_eq in H1 as ->.
  rename select (_ || _ = false) into H2. apply orb_false_iff in H2 as [H2 H3].
  split; [|done]. unfold signedWireToCanonicalValue. cbn [wm_type wm_payload wm_signer wm_signature].
  do 3 f_equal. apply Z.ltb_ge in H2. apply Z.leb_gt in H3. change (zlen WIRE_TYPES) with 3 in H3.
  assert (z0 = 0 ∨ z0 = 1 ∨ z0 = 2) as [-> | [-> | ->]] by lia; simplify_eq/=; done.
Qed.

(** The parts of an encoded message. *)
Lemma encode_signed_inv route t payload signer cipher blobs s s' encoded :
  encodeSignedEnvelope sha256 ed25519_sign route t payload signer cipher blobs s = (s', Ok encoded) →
  ∃ (active : option (EnvelopeCipher S)) sg wire sealed field digest (s1 : S),
  sealing_cipher cipher = Ok active ∧
  signDomain ed25519_sign (domainFor t) payload (privateKey signer) = Ok sg ∧
  encodeCanonicalCbor (signedWireToCanonicalValue (mkWire t payload (publicKeyBytes signer) sg)) = Ok wire ∧
  seal_wire route t wire active s = (s1, Ok sealed) ∧
  payload_field sha256 sealed blobs s1 = (s', Ok field) ∧
  hashDomain sha256 Denvelope sealed = Ok digest ∧
  encodeEnvelope (mkEnvelope route (message_type t) (ec_epochId <$> active) digest field) = Ok encoded.
Proof.
  unfold encodeSignedEnvelope, pure_wire, mbind, SE_bind, mret, SE_ret.
  destruct (sealing_cipher cipher) as [active|]; [|done].
  destruct (signDomain _ _ _ _) as [sg|] eqn:Hsg; cbn [wire_coded]; [|done].
  destruct (encodeCanonicalCbor _) as [wire|] eqn:Hw; cbn [wire_coded]; [|done].
  destruct (seal_wire route t wire active s) as [s1 [sealed|]] eqn:Ha; [|done].
  destruct (payload_field _ _ _ s1) as [s2 [field|]] eqn:Hf; [|done].
  destruct (hashDomain _ _ _) as [digest|] eqn:Hh; cbn [wire_coded]; [|done].
  destruct (encodeEnvelope _) as [b|] eqn:He; cbn [wire_coded]; [|done]. intros [= <- <-].
  by exists active, sg, wire, sealed, field, digest, s1.
Qed.

Lemma payload_field_inv p blobs (s s' : S) field : payload_field sha256 p blobs s = (s', Ok field) →
  (field = inline p ∧ s' = s) ∨
  (∃ o m, blobs = Some o ∧ field = manifest m ∧ storeEnvelopePayload sha256 p o s = (s', Ok m)).
Proof.
  unfold payload_field, lift_blob, mbind, SE_bind, mret, SE_ret.
  destruct blobs as [o|]; [|intros [= <- <-]; by left]. case_match; [|intros [= <- <-]; by left].
  destruct (storeEnvelopePayload sha256 p o s) as [s1 [m|]] eqn:E; [|done]. intros [= <- <-]. right. by exists o, m.
Qed.

Context (good : S → Prop) (has : S → bytes → Prop) (blobs : option (EnvelopeBlobOptions S)) (blobStore : option (BlobStore S)).

(** The reader looks chunks up where the writer put them, and the chunks of a
    payload of [n] bytes are few enough for a manifest. *)
Definition blobs_match (n : Z) : Prop :=
  match blobs with
  | None => True
  | Some o => blobStore = Some (bo_store o) ∧ ContentStore sha256 (bo_store o) good has ∧
    n ≤ 999999 * bo_chunkBytes o
  end.

(** The ways the store can get in the way. *)
Definition store_failed (r : result WireError SignedWireMessage) : Prop :=
  ∃ store e d u u', blobStore = Some store ∧ r = Err (WireBlob e) ∧ blob_get store d u = (u', Err e).
Definition chunk_collision : Prop :=
  ∃ c v, collision sha256 (preimage DpayloadChunk c) (preimage DpayloadChunk v).

Hypothesis sha256_length : ∀ b, length (sha256 b) = 32%nat.

Lemma field_fits p n s s' field : good s → blobs_match n → zlen p ≤ n → n ≤ WIRE_LIMIT →
  payload_field sha256 p blobs s = (s', Ok field) →
  payload_valid field ∧ payload_fits field.
Proof.
  intros Hg Hb Hp Hn [[-> _]|(o & m & Ho & -> & Hs)]%payload_field_inv; [done|].
  unfold blobs_match in Hb. rewrite Ho in Hb. destruct Hb as (_ & Hc & Hcount). destruct o as [store inline size].
  cbn [bo_store bo_chunkBytes] in *.
  pose proof (store_options _ _ _ _ _ _ _ _ Hs) as Hsize.
  destruct (store_inv _ _ _ _ _ _ _ _ _ _ Hc Hg Hs) as (Hj & Hm & _). split; cbn [payload_valid payload_fits].
  - eapply created_manifest_valid; [done|exact Hm|]. rewrite Hj. unfold WIRE_LIMIT, MAX_SAFE_INTEGER in *. lia.
  - apply create_manifest_inv in Hm as [_ Hcs%mapR_length]. unfold manifest_fits, zlen. rewrite Hcs.
    pose proof (split_chunks_count (length p) (Z.to_nat size) p ltac:(lia) ltac:(lia)) as Hk.
    unfold zlen in *. rewrite Z2Nat.id in Hk by lia. change (maxArrayItems DEFAULT_DECODE_LIMITS) with 1000000. apply Z.mul_le_mono_pos_r with size; [lia|]. etrans; [exact Hk|lia].
Qed.

Lemma read_payload p n (s s' t t' : S) field digest route mt epoch r : good s → blobs_match n → zlen p ≤ n → n ≤ WIRE_LIMIT →
  payload_field sha256 p blobs s = (s', Ok field) → hashDomain sha256 Denvelope p = Ok digest →
  extends good has s' t →
  payload_bytes sha256 (mkEnvelope route mt epoch digest field) blobStore t = (t', r) →
  r = Ok p ∨ (∃ store e d u u', blobStore = Some store ∧ r = Err (WireBlob e) ∧ blob_get store d u = (u', Err e)) ∨
  chunk_collision.
Proof.
  intros Hg Hb Hp Hn Hf Hd Hx. unfold payload_bytes. cbn [env_payload].
  apply payload_field_inv in Hf as [[-> _]|(o & m & Ho & -> & Hs)].
  - unfold resolveEnvelopePayload, pure_wire. cbn [env_payload env_payloadDigest mbind result_bind].
    unfold payloadDigest, protocolInvariant. rewrite Hd. cbn [mbind result_bind]. rewrite equalBytes_refl.
    cbn. intros [= <- <-]. by left.
  - unfold blobs_match in Hb. rewrite Ho in Hb. destruct Hb as (Hbs & Hc & _). rewrite Hbs.
    destruct o as [store inl size]. cbn [bo_store] in *. unfold lift_blob.
    destruct (loadEnvelopePayload sha256 m store _ t) as [t1 r1] eqn:El. intros [= <- <-].
    assert (zlen p ≤ DEFAULT_MAXIMUM_PAYLOAD) as Hl by (unfold WIRE_LIMIT, DEFAULT_MAXIMUM_PAYLOAD in *; lia).
    destruct (stored_payload_loads sha256 store good has inl size p s s' m t t1 _ r1 Hc Hg Hs Hx Hl El)
      as [->|[(e & d & u & u' & -> & Hget)|Hcol]].
    + by left.
    + right. left. by exists store, e, d, u, u'.
    + right. right. exact Hcol.
Qed.

(** The sealed message, its size, and how the reader opens it. *)
Lemma seal_read writer reader active route t wire (s s1 : S) sealed digest field : good s →
  ciphers_match good writer reader → sealing_cipher writer = Ok active → zlen wire + 200 ≤ WIRE_LIMIT →
  seal_wire route t wire active s = (s1, Ok sealed) →
  good s1 ∧ zlen sealed ≤ zlen wire + 200 ∧ ∀ t2,
  let envelope := mkEnvelope route (message_type t) (ec_epochId <$> active) digest field in
  Bool.eqb (bool_decide (ec_epochId <$> active = None)) (match reader with None => true | Some _ => false end) = true ∧
  open_wire route envelope sealed (opening_cipher (ec_epochId <$> active) reader) t2 = (t2, Ok wire).
Proof.
  intros Hg Hm Ha Hw. unfold seal_wire, open_wire, mret, SE_ret, pure_wire. destruct active as [k|].
  - unfold mbind, SE_bind. destruct (envelopeAssociatedData _ _ _) as [ad|] eqn:Had; cbn [wire_coded]; [|done].
    intros Hs. unfold sealing_cipher in Ha. destruct writer as [c|]; [|done].
    apply fmap_Ok in Ha as (x & Hc & Hxk). simplify_eq.
    destruct reader as [c'|]; [|done]. destruct (Hm _ Hc) as (k' & Hr & [He Hpg Ho]).
    split; [by eapply Hpg|]. split; [by eapply (Ho _ _ _ _ _ s)|]. intros t2. cbn [fmap option_fmap option_map].
    split; [done|]. cbn [env_encryptionEpoch opening_cipher]. rewrite Hr, He, equalBytes_refl. cbn [ensure env_messageType].
    rewrite Had. cbn [wire_coded]. by eapply Ho.
  - intros [= <- <-]. unfold sealing_cipher in Ha. destruct writer as [c|]; [by inv_ok|].
    destruct reader as [c'|]; [done|]. split; [done|]. split; [lia|]. done.
Qed.

Lemma wire_bounds m wire : length (wm_signer m) = 32%nat → length (wm_signature m) = 64%nat →
  encodeCanonicalCbor (signedWireToCanonicalValue m) = Ok wire →
  zlen wire ≤ zlen (wm_payload m) + 200 ∧
  (zlen wire ≤ WIRE_LIMIT → assertCanonical wire = Ok (signedWireToCanonicalValue m)).
Proof.
  intros Hs Hg Hw. assert (forallb flat [CInt 1; CInt (wire_index (message_type (wm_type m))); CBytes (wm_payload m);
    CBytes (wm_signer m); CBytes (wm_signature m)] = true) as Hf by (by destruct (wm_type m)).
  split.
  - apply flat_array_size in Hw; [|done]. cbn [foldr item_size] in Hw. unfold zlen in *. rewrite Hs, Hg in Hw. lia.
  - intros Hl. by apply flat_array_read.
Qed.

(** What a signed message becomes on its way: it arrives, or the store failed,
    or SHA-256 did. *)
Definition arrives (message : SignedWireMessage) (r : result WireError SignedWireMessage) : Prop :=
  r = Ok message ∨ store_failed r ∨ chunk_collision.

Lemma encode_good writer reader route t payload signer (s s' : S) encoded :
  key_pair_law signer → ciphers_match good writer reader → good s →
  zlen payload + WIRE_OVERHEAD ≤ WIRE_LIMIT → blobs_match (zlen payload + WIRE_OVERHEAD) →
  encodeSignedEnvelope sha256 ed25519_sign route t payload signer writer blobs s = (s', Ok encoded) → good s'.
Proof.
  intros Hk Hm Hg Hn Hb (active & sg & wire & sealed & field & digest & s1 & Ha & Hsg & Hw & Hs & Hf & _)%encode_signed_inv.
  unfold WIRE_OVERHEAD in *. destruct (signDomain_verifies _ _ _ _ Hk Hsg) as [Hsl _].
  destruct (wire_bounds (mkWire t payload (publicKeyBytes signer) sg) wire) as [Hwl _]; [apply Hk|done|done|].
  cbn [wm_payload] in Hwl.
  edestruct (seal_read writer reader active route t wire s s1 sealed digest field) as (Hg1 & _); [done..|lia|done|].
  apply payload_field_inv in Hf as [[_ ->]|(o & m & Ho & _ & Hf)]; [done|].
  unfold blobs_match in Hb. rewrite Ho in Hb. destruct o as [store inl size], Hb as (_ & Hc & _).
  by eapply (store_extends sha256 store good has inl size sealed s1 s').
Qed.

(** a signed message written for a group, encrypted or not, inline or in
    chunks, is read back with its type, payload, signer and signature by any node
    that has the epoch key and the blob store, unless the store fails or a SHA-256
    collision between chunks has been found.  The bound leaves 512 bytes of the 16
    MiB limit for the wrapping. *)
Theorem signed_envelope_roundtrip writer reader route t payload signer (s s' u u' : S) encoded r :
  key_pair_law signer → ciphers_match good writer reader → good s →
  zlen payload + WIRE_OVERHEAD ≤ WIRE_LIMIT → blobs_match (zlen payload + WIRE_OVERHEAD) →
  encodeSignedEnvelope sha256 ed25519_sign route t payload signer writer blobs s = (s', Ok encoded) →
  zlen encoded ≤ WIRE_LIMIT → extends good has s' u →
  decodeSignedEnvelope sha256 ed25519_verify encoded route reader blobStore u = (u', r) →
  ∃ signature, signDomain ed25519_sign (domainFor t) payload (privateKey signer) = Ok signature ∧
  arrives (mkWire t payload (publicKeyBytes signer) signature) r.
Proof.
  intros Hk Hm Hg Hn Hb (active & sg & wire & sealed & field & digest & s1 & Ha & Hsg & Hw & Hs & Hf & Hd & He)%encode_signed_inv Hel Hx.
  intros Hdecode. exists sg. split; [done|]. revert Hdecode. unfold WIRE_OVERHEAD in *.
  destruct (signDomain_verifies _ _ _ _ Hk Hsg) as [Hsl Hv].
  destruct (wire_bounds (mkWire t payload (publicKeyBytes signer) sg) wire) as [Hwl Hwr]; [apply Hk|done|done|].
  cbn [wm_payload] in Hwl.
  edestruct (seal_read writer reader active route t wire s s1 sealed digest field) as (Hg1 & Hsize & Hopen); [done..|lia|done|].
  destruct (field_fits sealed (zlen payload + 512) s1 s' field) as [Hfv Hff]; [done|done|lia|lia|done|].
  assert (decodeEnvelope encoded = Ok (mkEnvelope route (message_type t) (ec_epochId <$> active) digest field)) as Hdec.
  { apply envelope_read_back; [exact Hel|done|done|]. split; [by eapply hashDomain_length|done]. }
  unfold decodeSignedEnvelope, pure_wire, mbind, SE_bind. rewrite Hdec. cbn [wire_coded env_groupRoute].
  rewrite equalBytes_refl. cbn [ensure].
  destruct (payload_bytes sha256 _ blobStore u) as [u1 r1] eqn:Ep.
  eapply (read_payload sealed (zlen payload + 512) s1 s') in Ep as [->|[(store & e & d & w & w' & Hbs & -> & Hget)|Hcol]];
    [| |intros _; by right; right|exact Hg1|exact Hb|lia|lia|exact Hf|exact Hd|exact Hx].
  2: { intros [= <- <-]. right. left. by exists store, e, d, w, w'. }
  rewrite Hd. cbn [wire_coded env_payloadDigest]. rewrite equalBytes_refl. cbn [ensure env_encryptionEpoch].
  destruct (Hopen u1) as [He1 Ho]. rewrite He1. cbn [ensure]. rewrite Ho, Hwr by lia. cbn [wire_coded].
  rewrite check_wire_complete by done. intros [= <- <-]. by left.
Qed.

(** *** Acceptance *)

Lemma open_wire_inv route e sealed active (s s' : S) wire :
  open_wire route e sealed active s = (s', Ok wire) →
  match env_encryptionEpoch e with
  | None => wire = sealed
  | Some epoch => ∃ k ad, active = Some k ∧ ec_epochId k = epoch ∧
    envelopeAssociatedData route (env_messageType e) epoch = Ok ad ∧ ec_open k sealed ad s = (s', Ok wire)
  end.
Proof.
  unfold open_wire. destruct (env_encryptionEpoch e) as [epoch|]; [|by intros [= <- <-]].
  destruct active as [k|]; [|done]. unfold pure_wire, mbind, SE_bind.
  destruct (equalBytes epoch (ec_epochId k)) eqn:He; cbn [ensure]; [|done]. apply equalBytes_spec in He.
  destruct (envelopeAssociatedData _ _ _) as [ad|] eqn:Had; cbn [wire_coded]; [|done]. intros Ho. by exists k, ad.
Qed.

(** What acceptance of [encoded] as the message [m] establishes. *)
Record accepted (encoded route : bytes) (cipher : option (CipherOption S)) (m : SignedWireMessage)
  (e : ChronologEnvelope) (sealed wire : bytes) : Prop := {
    accepted_exact : encodeEnvelope e = Ok encoded;
    accepted_route : env_groupRoute e = route;
    accepted_type : env_messageType e = message_type (wm_type m);
    accepted_digest : hashDomain sha256 Denvelope sealed = Ok (env_payloadDigest e);
    accepted_inline : ∀ p, env_payload e = inline p → p = sealed;
    accepted_stored : blobStore = None → env_payload e = inline sealed;
    accepted_plain : cipher = None → env_encryptionEpoch e = None ∧ wire = sealed;
    accepted_sealed : ∀ c, cipher = Some c → ∃ k ad u u', env_encryptionEpoch e = Some (ec_epochId k) ∧
    resolved_cipher c (ec_epochId k) = Some k ∧
    envelopeAssociatedData route (message_type (wm_type m)) (ec_epochId k) = Ok ad ∧
    ec_open k sealed ad u = (u', Ok wire);
    accepted_wire : encodeCanonicalCbor (signedWireToCanonicalValue m) = Ok wire;
    accepted_signature :
    verifyDomain ed25519_verify (domainFor (wm_type m)) (wm_payload m) (wm_signature m) (wm_signer m) = true;
}.

Lemma payload_bytes_inline e p (s s' : S) sealed :
  payload_bytes sha256 e blobStore s = (s', Ok sealed) → env_payload e = inline p → p = sealed.
Proof.
  unfold payload_bytes. intros H Hp. rewrite Hp in H. unfold pure_wire in H. injection H as _ H.
  destruct (resolveEnvelopePayload sha256 e []) as [q|] eqn:Hr; [|done]. injection H as ->.
  unfold resolveEnvelopePayload in Hr. rewrite Hp in Hr. inv_ok. by subst.
Qed.

Lemma payload_bytes_no_store e (s s' : S) sealed :
  payload_bytes sha256 e blobStore s = (s', Ok sealed) → blobStore = None → env_payload e = inline sealed.
Proof.
  intros H Hn. destruct (env_payload e) as [p|m] eqn:Hp.
  - by rewrite (payload_bytes_inline e p s s' sealed).
  - unfold payload_bytes in H. rewrite Hp, Hn in H. done.
Qed.

Lemma decode_accepts encoded route cipher (s s' : S) m :
  decodeSignedEnvelope sha256 ed25519_verify encoded route cipher blobStore s = (s', Ok m) →
  ∃ e sealed wire, accepted encoded route cipher m e sealed wire.
Proof.
  unfold decodeSignedEnvelope, pure_wire, mbind, SE_bind.
  destruct (decodeEnvelope encoded) as [e|] eqn:He; cbn [wire_coded]; [|done].
  destruct (equalBytes (env_groupRoute e) route) eqn:Hr; cbn [ensure]; [|done]. apply equalBytes_spec in Hr.
  destruct (payload_bytes sha256 e blobStore s) as [s1 [sealed|]] eqn:Hp; [|done].
  destruct (hashDomain sha256 Denvelope sealed) as [digest|] eqn:Hh; cbn [wire_coded]; [|done].
  destruct (equalBytes digest (env_payloadDigest e)) eqn:Hd; cbn [ensure]; [|done]. apply equalBytes_spec in Hd as ->.
  destruct (Bool.eqb _ _) eqn:Hc; cbn [ensure]; [|done]. apply eqb_prop in Hc.
  destruct (open_wire route e sealed _ s1) as [s2 [wire|]] eqn:Ho; [|done].
  destruct (assertCanonical wire) as [v|] eqn:Hv; cbn [wire_coded]; [|done]. intros [= <- Hw].
  apply check_wire_sound in Hw as (-> & Ht & Hsig). exists e, sealed, wire.
  apply open_wire_inv in Ho. split; try done.
  - by apply envelope_exact in He as [He _].
  - intros p. by eapply payload_bytes_inline.
  - by eapply payload_bytes_no_store.
  - intros ->. rewrite bool_decide_eq_true in Hc. by rewrite Hc in *.
  - intros c ->. rewrite bool_decide_eq_false in Hc. destruct (env_encryptionEpoch e) as [epoch|]; [|done].
    destruct Ho as (k & ad & Hk & <- & Had & Ho). rewrite Ht in Had. by exists k, ad, s1, s2.
  - by eapply assert_sound.
Qed.
End envelopes.

(** C34: an envelope accepted as a message of a group is canonical, names that
    group and the type of the message, carries the digest of its payload, is
    encrypted exactly when the group is and under an epoch whose key the reader
    holds, with group, type and epoch as associated data, and contains the message
    with a valid signature in the domain of its type.  A message in the clear and
    inline has only one accepted encoding. *)
Theorem accepted_message_authentic sha256 verify {S} encoded route cipher store (s s' : S) m :
  decodeSignedEnvelope sha256 verify encoded route cipher store s = (s', Ok m) →
  (∃ e sealed wire, accepted sha256 verify store encoded route cipher m e sealed wire) ∧
  (cipher = None → store = None → ∀ encoded' t t',
    decodeSignedEnvelope sha256 verify encoded' route cipher store t = (t', Ok m) → encoded' = encoded).
Proof.
  intros H. split; [by eapply decode_accepts|]. intros -> -> encoded' t t' H'.
  apply decode_accepts in H as (e & sealed & wire & [Hx Hr Ht Hd _ Hi Hp _ Hw _]).
  apply decode_accepts in H' as (e' & sealed' & wire' & [Hx' Hr' Ht' Hd' _ Hi' Hp' _ Hw' _]).
  destruct (Hp eq_refl) as [Hn ->], (Hp' eq_refl) as [Hn' ->].
  specialize (Hi eq_refl). specialize (Hi' eq_refl). assert (sealed' = sealed) as -> by congruence.
  enough (e' = e) by congruence. destruct e, e'; simpl in *; congruence.
Qed.

(** ** The ring of epoch keys *)

Section ring.
Context {S : Type} (good : S → Prop) (aes_encrypt : bytes → bytes → bytes → bytes → bytes)
  (aes_decrypt : bytes → bytes → bytes → bytes → option bytes) (getRandomValues : nat → SE S WireError bytes).

Inductive RingCommand := InstallKey (contentKey : bytes) (epoch : Z) (makeCurrent : bool) | RemoveEpoch (epoch : Z).

(** A caller may ignore the result of a command. *)
Definition ring_step (ring : EpochCipherRing (S:=S)) (c : RingCommand) : EpochCipherRing (S:=S) :=
  match c with
  | InstallKey key epoch makeCurrent => (install aes_encrypt aes_decrypt getRandomValues key epoch makeCurrent ring).1
  | RemoveEpoch epoch => (ring_remove epoch ring).1
  end.

Definition ring_run (ring : EpochCipherRing (S:=S)) (cs : list RingCommand) : EpochCipherRing (S:=S) :=
  foldl ring_step ring cs.

Definition command_epoch (c : RingCommand) : Z := match c with InstallKey _ e _ | RemoveEpoch e => e end.

Record ring_wf (ring : EpochCipherRing (S:=S)) : Prop := {
    ring_filed key c : map_get key (ring_epochs ring) = Some c →
    key = epochKey (ec_epochId c) ∧ CipherPair good c c;
    ring_has_current : match ring_currentKey ring with
    | Some key => is_Some (map_get key (ring_epochs ring))
    | None => ring_epochs ring = []
    end;
}.

Lemma map_set_ne_nil {K V} `{EqDecision K} (k : K) (v : V) m : map_set k v m ≠ [].
Proof. intros H. pose proof (map_get_set_eq k v m) as Hg. by rewrite H in Hg. Qed.

Lemma ring_step_keys ring c : map_wf (ring_epochs ring) → map_wf (ring_epochs (ring_step ring c)).
Proof.
  intros Hwf. destruct c as [key epoch mc|epoch]; cbn [ring_step].
  - unfold install. destruct (createEpochEnvelopeCipher _ _ _ key epoch) as [k|]; [|done].
    destruct (map_get _ _); [by destruct mc|]. by apply map_wf_set.
  - unfold ring_remove. destruct (encodeCanonicalCbor (CInt epoch)) as [id|]; [|done].
    case_bool_decide; [done|]. by apply map_wf_delete.
Qed.

Lemma ring_run_keys cs : ∀ ring, map_wf (ring_epochs ring) → map_wf (ring_epochs (ring_run ring cs)).
Proof.
  induction cs as [|c cs IH]; intros ring Hwf; [done|]. cbn [ring_run foldl]. by apply IH, ring_step_keys.
Qed.

Lemma ring_step_wf ring c : CryptoLaws good aes_encrypt aes_decrypt getRandomValues →
  small_int (command_epoch c) = true → map_wf (ring_epochs ring) → ring_wf ring → ring_wf (ring_step ring c).
Proof.
  intros Hlaws He Hwf [Hf Hc]. destruct c as [key epoch mc|epoch]; cbn [ring_step].
  - unfold install. destruct (createEpochEnvelopeCipher _ _ _ key epoch) as [k|] eqn:Hk; [|by split].
    pose proof (epoch_cipher_pair good _ _ _ key epoch k Hlaws He Hk) as Hpair.
    destruct (map_get (epochKey (ec_epochId k)) (ring_epochs ring)) as [x|] eqn:Hx.
    + destruct mc; [|by split]. split; [done|]. cbn. by rewrite Hx.
    + split; cbn [ring_epochs ring_currentKey fst].
      * intros key' c. rewrite map_get_set. case_decide as Hkk; [intros [= <-]; by subst|apply Hf].
      * destruct (mc || _) eqn:Hm; [by rewrite map_get_set_eq|].
        apply orb_false_iff in Hm as [_ Hm]. rewrite bool_decide_eq_false in Hm.
        destruct (ring_currentKey ring) as [ck|]; [|done]. rewrite map_get_set. case_decide; [done|exact Hc].
  - unfold ring_remove. destruct (encodeCanonicalCbor (CInt epoch)) as [id|]; [|by split].
    case_bool_decide as Hcur; [by split|]. split; cbn [ring_epochs ring_currentKey fst].
    + intros key c. rewrite map_get_delete by done. case_decide; [done|apply Hf].
    + destruct (ring_currentKey ring) as [ck|]; [|by rewrite Hc].
      rewrite map_get_delete by done. case_decide; [congruence|exact Hc].
Qed.

(** Other commands leave a filed cipher alone. *)
Lemma ring_step_keeps ring c key k : map_wf (ring_epochs ring) → map_get key (ring_epochs ring) = Some k →
  (∀ id, c = RemoveEpoch (command_epoch c) → encodeCanonicalCbor (CInt (command_epoch c)) = Ok id → epochKey id ≠ key) →
  map_get key (ring_epochs (ring_step ring c)) = Some k.
Proof.
  intros Hwf Hk Hr. destruct c as [ck epoch mc|epoch]; cbn [ring_step].
  - unfold install. destruct (createEpochEnvelopeCipher _ _ _ ck epoch) as [n|]; [|done].
    destruct (map_get (epochKey (ec_epochId n)) (ring_epochs ring)) as [x|] eqn:Hx; [by destruct mc|].
    cbn [ring_epochs fst]. rewrite map_get_set. case_decide; [by simplify_eq|done].
  - unfold ring_remove. cbn [command_epoch] in Hr.
    destruct (encodeCanonicalCbor (CInt epoch)) as [id|] eqn:He; [|done].
    case_bool_decide; [done|]. cbn [ring_epochs fst]. rewrite map_get_delete by done.
    case_decide as Hd; [|done]. exfalso. by apply (Hr id eq_refl eq_refl).
Qed.

Lemma ring_run_keeps cs : ∀ ring key k, map_wf (ring_epochs ring) → map_get key (ring_epochs ring) = Some k →
  (∀ e id, RemoveEpoch e ∈ cs → encodeCanonicalCbor (CInt e) = Ok id → epochKey id ≠ key) →
  map_get key (ring_epochs (ring_run ring cs)) = Some k.
Proof.
  induction cs as [|c cs IH]; intros ring key k Hwf Hk Hr; [done|]. cbn [ring_run foldl]. apply IH.
  - by apply ring_step_keys.
  - apply ring_step_keeps; [done|done|]. intros id Hc He. eapply Hr; [|done]. rewrite <-Hc. left.
  - intros e id Hin. apply Hr. by right.
Qed.

Lemma ring_run_wf cs : ∀ ring, CryptoLaws good aes_encrypt aes_decrypt getRandomValues →
  Forall (λ c, small_int (command_epoch c) = true) cs → map_wf (ring_epochs ring) → ring_wf ring → ring_wf (ring_run ring cs).
Proof.
  induction cs as [|c cs IH]; intros ring Hlaws Hcs Hk Hwf; [done|]. apply Forall_cons_1 in Hcs as [Hc Hcs].
  cbn [ring_run foldl]. apply IH; [done|done|by apply ring_step_keys|]. by apply ring_step_wf.
Qed.

Lemma empty_ring_wf : ring_wf empty_ring.
Proof. split; [done|reflexivity]. Qed.
End ring.

Lemma ring_matches {S} (good : S → Prop) aes_encrypt aes_decrypt random ring cs :
  map_wf (ring_epochs ring) → ring_wf good ring →
  (∀ e k, RemoveEpoch e ∈ cs → ring_current ring = Ok k → encodeCanonicalCbor (CInt e) ≠ Ok (ec_epochId k)) →
  ciphers_match good (Some (cipher_resolver (ring_resolver ring)))
    (Some (cipher_resolver (ring_resolver (ring_run aes_encrypt aes_decrypt random ring cs)))).
Proof.
  intros Hwf [Hf _] Hr k Hk. cbn [current_cipher ring_resolver er_current] in Hk. pose proof Hk as Hcur.
  unfold ring_current in Hk. destruct (ring_currentKey ring) as [key|]; [|done].
  destruct (map_get key (ring_epochs ring)) as [x|] eqn:Hx; [|done]. injection Hk as ->.
  destruct (Hf _ _ Hx) as [-> Hpair]. exists k. split; [|done].
  apply ring_run_keeps; [done|done|]. intros e id He Hid Hkey. unfold epochKey in Hkey.
  apply (inj bytesToHex) in Hkey as ->. by apply (Hr e k).
Qed.

(** whatever keys are installed and removed, the ring can always seal once it
    holds a key: its current epoch is never lost, every key is found under its own
    epoch, and what the ring sealed under its current epoch it opens after any
    further commands that do not remove that epoch. *)
Theorem epoch_ring_serves {S} (good : S → Prop) aes_encrypt aes_decrypt random cs cs' :
  CryptoLaws good aes_encrypt aes_decrypt random →
  Forall (λ c, small_int (command_epoch c) = true) cs →
  let run := ring_run aes_encrypt aes_decrypt random in
  let ring := run empty_ring cs in let later := run ring cs' in
  (ring_epochs ring ≠ [] → ∃ k, ring_current ring = Ok k) ∧
  (∀ id k, ring_resolve id ring = Some k → ec_epochId k = id) ∧
  ((∀ e k, RemoveEpoch e ∈ cs' → ring_current ring = Ok k → encodeCanonicalCbor (CInt e) ≠ Ok (ec_epochId k)) →
    ciphers_match good (Some (cipher_resolver (ring_resolver ring))) (Some (cipher_resolver (ring_resolver later)))).
Proof.
  intros Hlaws Hcs run ring later.
  pose proof (ring_run_wf good _ _ _ cs empty_ring Hlaws Hcs map_wf_nil (empty_ring_wf good)) as Hwf.
  fold run in Hwf. fold ring in Hwf. split_and!.
  - intros Hne. unfold ring_current. destruct Hwf as [_ Hc]. destruct (ring_currentKey ring); [|done].
    destruct Hc as [k ->]. by exists k.
  - intros id k Hk. apply (ring_filed _ _ Hwf) in Hk as [Hk _]. unfold epochKey in Hk. by apply (inj bytesToHex) in Hk.
  - apply ring_matches; [apply ring_run_keys, map_wf_nil|done].
Qed.

(** ** Instances *)

(** Stand-ins with the laws of the real primitives, for examples. *)
Definition toy_encrypt (key nonce ad pt : bytes) : bytes := pt ++ replicate 16 x00.
Definition toy_decrypt (key nonce ad ct : bytes) : option bytes := Some (take (length ct - 16) ct).
Definition toy_random {S} (n : nat) : SE S WireError bytes := λ s, (s, Ok (replicate n x07)).
Definition toy_sign (key : unit) (message : bytes) : option bytes := Some (take 64 (message ++ replicate 64 x00)).
Definition toy_verify (message signature publicKey : bytes) : bool :=
  bool_decide (toy_sign tt message = Some signature).
Definition toy_pair : Ed25519KeyPair (Key:=unit) := mkKeyPair (replicate 32 x05) tt.

Lemma toy_crypto {S} (good : S → Prop) : CryptoLaws good toy_encrypt toy_decrypt toy_random.
Proof.
  split; unfold toy_encrypt, toy_decrypt, toy_random.
  - intros _ _ _ pt. rewrite length_app, length_replicate, Nat.add_sub. f_equal. by rewrite take_app_length.
  - intros. by rewrite length_app, length_replicate.
  - intros n s s' b [= <- <-]. apply length_replicate.
  - by intros n s s' r Hg [= <- <-].
Qed.

Lemma toy_pair_law : key_pair_law toy_verify toy_sign toy_pair.
Proof.
  split; [done|]. intros m sg Hs. split; [|by apply bool_decide_eq_true]. 
  assert (sg = take 64 (m ++ replicate 64 x00)) as -> by (unfold toy_sign in Hs; congruence).
  rewrite length_take, length_app, length_replicate. lia.
Qed.

Lemma tail_digest_length b : length (tail_digest b) = 32%nat.
Proof. unfold tail_digest. rewrite length_take, length_app, length_reverse, length_replicate. lia. Qed.

Definition sample_ring : EpochCipherRing (S:=jsmap jsstring bytes) :=
  ring_run toy_encrypt toy_decrypt toy_random empty_ring [InstallKey (replicate 32 x09) 4 false].
Definition later_ring : EpochCipherRing (S:=jsmap jsstring bytes) :=
  ring_run toy_encrypt toy_decrypt toy_random sample_ring
    [InstallKey (replicate 32 x0a) 5 true; RemoveEpoch 3].

Lemma epoch_ring_serves_witness :
  (∃ k, ring_current sample_ring = Ok k) ∧
  ciphers_match (memory_good tail_digest) (Some (cipher_resolver (ring_resolver sample_ring)))
    (Some (cipher_resolver (ring_resolver later_ring))).
Proof.
  destruct (epoch_ring_serves (memory_good tail_digest) toy_encrypt toy_decrypt toy_random
    [InstallKey (replicate 32 x09) 4 false] [InstallKey (replicate 32 x0a) 5 true; RemoveEpoch 3]
    (toy_crypto _)) as (H1 & _ & H2).
  - repeat constructor.
  - split; [apply H1; intros Hn; apply (f_equal length) in Hn; vm_compute in Hn; discriminate|].
    apply H2. intros e k He Hk.
    assert (e = 3) as -> by set_solver.
    apply (f_equal (λ r, match r with Ok c => ec_epochId c | Err _ => [] end)) in Hk. cbn beta iota in Hk.
    rewrite <-Hk. vm_compute. discriminate.
Defined.

(** A message of the sample ring, with chunks of 100 bytes in a memory store. *)
Definition sample_blobs : EnvelopeBlobOptions (jsmap jsstring bytes) :=
  mkBlobOptions (MemoryBlobStore tail_digest) 100 100.

Lemma sample_rings_match : ciphers_match (memory_good tail_digest)
  (Some (cipher_resolver (ring_resolver sample_ring))) (Some (cipher_resolver (ring_resolver later_ring))).
Proof.
  apply ring_matches; [apply ring_run_keys, map_wf_nil| |].
  - apply ring_run_wf; [apply toy_crypto|by repeat constructor|apply map_wf_nil|apply empty_ring_wf].
  - intros e k He Hk. assert (e = 3) as -> by set_solver.
    apply (f_equal (λ r, match r with Ok c => ec_epochId c | Err _ => [] end)) in Hk. cbn beta iota in Hk.
    rewrite <-Hk. vm_compute. discriminate.
Qed.

Lemma sample_blobs_match : blobs_match tail_digest (memory_good tail_digest) memory_has (Some sample_blobs)
  (Some (MemoryBlobStore tail_digest)) (zlen [x02; x03] + WIRE_OVERHEAD).
Proof. split; [done|]. split; [apply memory_content|vm_compute; discriminate]. Qed.

Lemma signed_envelope_roundtrip_witness : ∃ stored encoded u r,
  let writer := Some (cipher_resolver (ring_resolver sample_ring)) in
  let reader := Some (cipher_resolver (ring_resolver later_ring)) in
  encodeSignedEnvelope tail_digest toy_sign [x01] WTheartbeat [x02; x03] toy_pair writer (Some sample_blobs) []
    = (stored, Ok encoded) ∧ length stored = 2%nat ∧
  decodeSignedEnvelope tail_digest toy_verify encoded [x01] reader (Some (MemoryBlobStore tail_digest)) stored = (u, r) ∧
  ∃ signature, signDomain toy_sign Dheartbeat [x02; x03] tt = Ok signature ∧
    arrives tail_digest (Some (MemoryBlobStore tail_digest)) (mkWire WTheartbeat [x02; x03] (replicate 32 x05) signature) r.
Proof.
  eexists _, _, _, _. cbv zeta. split; [vm_compute; reflexivity|]. split; [vm_compute; reflexivity|].
  split; [vm_compute; reflexivity|].
  eapply (signed_envelope_roundtrip tail_digest toy_verify toy_sign (memory_good tail_digest) memory_has
    (Some sample_blobs) (Some (MemoryBlobStore tail_digest)) tail_digest_length
    (Some (cipher_resolver (ring_resolver sample_ring))) (Some (cipher_resolver (ring_resolver later_ring)))
    [x01] WTheartbeat [x02; x03] toy_pair []).
  - exact toy_pair_law.
  - exact sample_rings_match.
  - apply empty_memory_good.
  - vm_compute. discriminate.
  - exact sample_blobs_match.
  - vm_compute. reflexivity.
  - vm_compute. discriminate.
  - apply extends_refl.
    eapply (encode_good tail_digest toy_verify toy_sign (memory_good tail_digest) memory_has (Some sample_blobs)
      (Some (MemoryBlobStore tail_digest)) (Some (cipher_resolver (ring_resolver sample_ring))) _
      [x01] WTheartbeat [x02; x03] toy_pair []);
      [exact toy_pair_law|exact sample_rings_match|apply empty_memory_good|vm_compute; discriminate
      |exact sample_blobs_match|vm_compute; reflexivity].
  - vm_compute. reflexivity.
Defined.

Lemma accepted_message_authentic_witness : ∃ encoded m e sealed wire,
  encodeSignedEnvelope tail_digest toy_sign [x01] WTcandidate [x02; x03] toy_pair None None tt = (tt, Ok encoded) ∧
  decodeSignedEnvelope tail_digest toy_verify encoded [x01] None None tt = (tt, Ok m) ∧
  accepted tail_digest toy_verify (S:=unit) None encoded [x01] None m e sealed wire.
Proof.
  eexists _, _.
  destruct (accepted_message_authentic tail_digest toy_verify (S:=unit)
    (match encodeSignedEnvelope tail_digest toy_sign [x01] WTcandidate [x02; x03] toy_pair None None tt with
     | (_, Ok b) => b | _ => [] end) [x01] None None tt tt
    (match signDomain toy_sign Dtransaction [x02; x03] tt with
     | Ok sg => mkWire WTcandidate [x02; x03] (replicate 32 x05) sg
     | Err _ => mkWire WTcandidate [] [] [] end)) as [(e & sealed & wire & H) _];
    [vm_compute; reflexivity|].
  exists e, sealed, wire. split; [vm_compute; reflexivity|]. split; [vm_compute; reflexivity|]. exact H.
Defined.
