(* ===== verification/EpochTheorems.v ===== *)
(** * Theorems on encryption epochs

    The codec of epoch manifests: what is written is read back with its wraps in
    order, what is read in order is what was written, and wraps in another order are
    read too.  Key delivery: a manifest verifies, each recipient unwraps the content
    key from it and nobody else finds a wrap. *)

From Stdlib Require Import Strings.Byte Strings.String Sorting.Sorted.
From stdpp Require Import base list option numbers sets sorting.
From S2P Require Import Prelude JsMap Bytes Text Cbor CborProofs CborTheorems Schema Domains Messages CapTypes CapCodec CapCodecProofs Reducer ReducerProofs LogTheorems Entropy Hpke Wire WireTheorems Epochs.

#[local] Open Scope Z_scope.

(** ** The order of wraps *)

#[export] Instance compareWraps_comparator : Comparator compareWraps := comparator_on kw_recipientId compareBytes.

Definition in_order (m : EpochManifest) : EpochManifest :=
  mkEpochManifest (eh_groupId m) (eh_epoch m) (eh_previousEpochDigest m) (eh_suite m) (eh_createdAtMs m)
    (js_sort compareWraps (eh_wraps m)).

Definition wraps_ascend (wraps : list EpochKeyWrap) : Prop := StronglySorted (λ a b, compareWraps a b < 0) wraps.

(** On a sorted list the loop over neighbours finds every repetition. *)
Lemma no_neighbours_Ok l : StronglySorted (λ a b, compareWraps a b ≤ 0) l → no_neighbours l = Ok tt ↔ wraps_ascend l.
Proof.
  unfold wraps_ascend. induction 1 as [|a l Hl IH Ha]; [split; [constructor|done]|].
  destruct l as [|b l]; [split; [repeat constructor|done]|].
  change (no_neighbours (a :: b :: l)) with
    (protocolInvariant (negb (compareWraps a b =? 0)) SCHEMA_INVALID ≫= λ _, no_neighbours (b :: l)).
  apply Forall_cons in Ha as [Hab Ha]. split.
  - unfold protocolInvariant. intros H. inv_ok. rewrite negb_true_iff, Z.eqb_neq in *. apply IH in H as Hs.
    constructor; [done|]. constructor; [lia|]. inversion_clear Hs as [|? ? _ Hb]. eapply Forall_impl; [exact Hb|].
    simpl. intros c Hc. eapply (cmp_lt_trans compareWraps a b c); lia.
  - intros H. inversion_clear H as [|? ? Hs Hf]. apply Forall_cons in Hf as [Hlt _]. unfold protocolInvariant.
    rewrite (proj2 (Z.eqb_neq _ _)) by lia. by apply IH.
Qed.

Lemma ascend_sorted l : wraps_ascend l → StronglySorted (λ a b, compareWraps a b ≤ 0) l.
Proof. apply StronglySorted_weaken. intros. lia. Qed.

Lemma ascend_id m : wraps_ascend (eh_wraps m) → in_order m = m.
Proof. intros H. unfold in_order. rewrite js_sort_id by (apply _ || by apply ascend_sorted). by destruct m. Qed.

(** When a manifest has a form, and which. *)
Definition manifest_form (m : EpochManifest) : CborValue :=
  CMap (integerMap [(0, Some (CInt 1)); (1, Some (CBytes (eh_groupId m))); (2, Some (CInt (eh_epoch m)));
    (3, Some (nullable_bytes (eh_previousEpochDigest m))); (4, Some (CText (eh_suite m)));
    (5, Some (CInt (eh_createdAtMs m))); (6, Some (CArray (wrapToCbor <$> eh_wraps m)))]).

Record manifest_valid (m : EpochManifest) : Prop := {
  valid_epoch : 0 ≤ eh_epoch m;
  valid_suite : eh_suite m = HPKE_SUITE;
  valid_wraps : eh_wraps m ≠ [];
  valid_unique : wraps_ascend (eh_wraps (in_order m));
}.

Lemma epochManifestToCbor_Ok m v : epochManifestToCbor m = Ok v ↔ manifest_valid m ∧ v = manifest_form (in_order m).
Proof.
  unfold epochManifestToCbor, protocolInvariant. pose proof (js_sort_sorted compareWraps (eh_wraps m)) as Hs.
  split.
  - intros H. inv_ok. subst. rewrite Z.leb_le, bool_decide_eq_true, Nat.ltb_lt in *.
    rename select (no_neighbours _ = Ok _) into Hn. match type of Hn with _ = Ok ?u => destruct u end.
    apply no_neighbours_Ok in Hn; [|done]. split; [|done]. split; [done..| |done].
    destruct (eh_wraps m); [simpl in *; lia|done].
  - intros [[He Hsu Hw Hu] ->]. rewrite (proj2 (Z.leb_le _ _)), bool_decide_eq_true_2, (proj2 (Nat.ltb_lt _ _)) by
      (done || by destruct (eh_wraps m); [|simpl; lia]). cbn [ensure mbind result_bind].
    by rewrite (proj2 (no_neighbours_Ok _ Hs)).
Qed.

Lemma encode_form m b : encodeEpochManifest m = Ok b ↔ manifest_valid m ∧ encodeCanonicalCbor (manifest_form (in_order m)) = Ok b.
Proof.
  unfold encodeEpochManifest. rewrite bind_Ok. split.
  - intros (v & [Hv ->]%epochManifestToCbor_Ok & Hb). done.
  - intros [Hv Hb]. exists (manifest_form (in_order m)). split; [by apply epochManifestToCbor_Ok|done].
Qed.

(** ** Reading *)

Lemma wrap_strict : strict_codec (λ w, Ok (wrapToCbor w)) wrapFromCbor.
Proof.
  intros v w b. unfold wrapFromCbor. intros H Hb. inv_ok. cap_facts. subst. known_encoding Hb Henc. by eexists.
Qed.

Lemma previous_read v o : previousFromCbor v = Ok o ↔ v = nullable_bytes o.
Proof. destruct v, o; simpl; naive_solver. Qed.

(** The fields are within their types, as [EpochManifest] promises them. *)
Definition wrap_sized (w : EpochKeyWrap) : Prop :=
  length (kw_recipientPublicKey w) = 32%nat ∧ length (kw_encapsulatedKey w) = 32%nat.

Definition manifest_sized (m : EpochManifest) : Prop :=
  eh_epoch m ≤ MAX_UINT64 ∧ 0 ≤ eh_createdAtMs m ≤ MAX_UINT64 ∧ Forall wrap_sized (eh_wraps m).

Lemma wrap_read_sized v w : wrapFromCbor v = Ok w → wrap_sized w.
Proof. unfold wrapFromCbor. intros H. inv_ok. cap_facts. by subst. Qed.

Lemma wraps_read items wraps : mapR wrapFromCbor items = Ok wraps → Forall wrap_sized wraps.
Proof.
  intros H%mapR_Ok. induction H as [|v w items wraps Hw _ IH]; [done|]. constructor; [by eapply wrap_read_sized|done].
Qed.

Lemma wraps_mapR wraps : mapR (λ w, Ok (E:=ErrorCode) (wrapToCbor w)) wraps = Ok (wrapToCbor <$> wraps).
Proof. apply mapR_total. by apply Forall_true. Qed.

Lemma manifest_read v b m : epochManifestFromCbor v = Ok m → encodeCanonicalCbor v = Ok b →
  manifest_valid m ∧ manifest_sized m ∧ encodeCanonicalCbor (manifest_form m) = Ok b.
Proof.
  unfold epochManifestFromCbor, protocolInvariant. intros H Hb. inv_ok. cap_facts. subst.
  rename select (previousFromCbor _ = Ok _) into Hp. apply previous_read in Hp. subst.
  rename select (mapR wrapFromCbor _ = Ok _) into Hw. pose proof (wraps_read _ _ Hw) as Hsized.
  match type of Hw with mapR _ ?items = _ =>
    match goal with Hf : map_get _ _ = Some (CArray items) |- _ => destruct (item_encoding _ _ _ _ Hb Hf) as [sb Hsb] end end.
  destruct (strict_codec_array _ _ _ _ _ wrap_strict Hw Hsb) as (ws & Hws & Hsame).
  rewrite wraps_mapR in Hws. apply Ok_inj in Hws. subst ws. known_encoding Hb Henc.
  rename select (epochManifestToCbor _ = Ok _) into Hv. apply epochManifestToCbor_Ok in Hv as [Hv _].
  split; [done|]. split; [split_and!; simpl; try done; try lia|].
  rewrite <-Henc. unfold manifest_form. symmetry. same_fields.
Qed.

Lemma decoded_manifest b m : decodeEpochManifest b = Ok m →
  manifest_valid m ∧ manifest_sized m ∧ encodeCanonicalCbor (manifest_form m) = Ok b ∧ zlen b ≤ MAX_SAFE_INTEGER.
Proof.
  unfold decodeEpochManifest. intros H. inv_ok. rename select (assertCanonical b = Ok _) into Hb.
  apply assertCanonical_size in Hb as Hlen. apply assert_sound in Hb.
  destruct (manifest_read _ _ _ H Hb) as (Hv & Hs & He). done.
Qed.

(** ** Writing *)

Lemma wrap_form_inj w w' : canonical_form (wrapToCbor w) = canonical_form (wrapToCbor w') → w = w'.
Proof.
  unfold wrapToCbor. intros Heq. field_eq Heq 0 E0. field_eq Heq 1 E1. field_eq Heq 2 E2. field_eq Heq 3 E3.
  destruct w, w'; simpl in *; congruence.
Qed.

Lemma wraps_form_inj l l' : canonical_form (CArray (wrapToCbor <$> l)) = canonical_form (CArray (wrapToCbor <$> l')) → l = l'.
Proof.
  intros H. assert (canonical_form <$> (wrapToCbor <$> l) = canonical_form <$> (wrapToCbor <$> l')) as Hl by (cbn [canonical_form] in H; congruence). clear H. rename Hl into H. revert l' H.
  induction l as [|w l IH]; intros [|w' l']; rewrite ?fmap_cons; try done. intros H.
  f_equal; [apply wrap_form_inj, (f_equal (hd CNull) H)|apply IH, (f_equal tl H)].
Qed.

Lemma nullable_bytes_inj o o' : canonical_form (nullable_bytes o) = canonical_form (nullable_bytes o') → o = o'.
Proof. destruct o, o'; simpl; congruence. Qed.

(** Manifests with the same bytes are the same up to the order of their wraps. *)
Lemma manifest_form_inj m m' b : encodeCanonicalCbor (manifest_form m) = Ok b →
  encodeCanonicalCbor (manifest_form m') = Ok b → zlen b ≤ MAX_SAFE_INTEGER → m = m'.
Proof.
  unfold manifest_form. intros H H' Hlen. pose proof (encode_injective _ _ _ H H' Hlen) as Heq.
  field_eq Heq 1 E1. field_eq Heq 2 E2. field_eq Heq 3 E3. field_eq Heq 4 E4. field_eq Heq 5 E5. field_eq Heq 6 E6.
  injection E3 as E3. injection E6 as E6. apply nullable_bytes_inj in E3.
  destruct m, m'; simpl in *. simplify_eq. f_equal. apply wraps_form_inj. cbn [canonical_form]. congruence.
Qed.

Lemma wrap_written w : wrap_sized w → wrapFromCbor (wrapToCbor w) = Ok w.
Proof.
  intros [H1 H2]. unfold wrapFromCbor, wrapToCbor. cbn [expectMap mbind result_bind].
  rewrite integerMap_known by (literal_nodup || done). cbn [mbind result_bind]. read_record. by destruct w.
Qed.

Lemma wraps_written l : Forall wrap_sized l → mapR wrapFromCbor (wrapToCbor <$> l) = Ok l.
Proof. induction 1 as [|w l Hw _ IH]; [done|]. rewrite fmap_cons. cbn [mapR]. by rewrite wrap_written, IH. Qed.

Lemma sized_in_order m : manifest_sized m → manifest_sized (in_order m).
Proof. intros (He & Hc & Hw). split; [done|]. split; [done|].
  unfold in_order. simpl. by rewrite js_sort_perm. Qed.

Lemma valid_in_order m : manifest_valid m → manifest_valid (in_order m).
Proof.
  intros [He Hs Hw Hu]. split; [done..| |]; unfold in_order in *; simpl in *.
  - intros Hn. apply Hw, Permutation_nil_r. by rewrite <-Hn, js_sort_perm.
  - by rewrite js_sort_id by (apply _ || by apply ascend_sorted).
Qed.

Lemma string_read es k t : NoDup es.*1 → (k, Some (CText t)) ∈ es → string_field (integerMap es) k = Ok t.
Proof. intros Hnd Hin. apply string_field_Ok. by apply integerMap_get. Qed.
Lemma array_read es k l : NoDup es.*1 → (k, Some (CArray l)) ∈ es → array_field (integerMap es) k = Ok l.
Proof. intros Hnd Hin. apply array_field_Ok. by apply integerMap_get. Qed.

Lemma wrap_tidy w : tidy DEFAULT_DECODE_LIMITS 1 (wrapToCbor w).
Proof. unfold wrapToCbor. change 1 with (0 + 1). tidy_map. Qed.

Lemma suite_fits : text_fits DEFAULT_DECODE_LIMITS HPKE_SUITE = true.
Proof. by vm_compute. Qed.

Lemma nullable_bytes_tidy o d : 0 ≤ d → tidy DEFAULT_DECODE_LIMITS d (nullable_bytes o).
Proof. intros Hd. destruct o; simpl; [by apply tidy_bytes; [apply _|]|by apply tidy_null; [apply _|]]. Qed.

Lemma manifest_tidy m : manifest_valid m → manifest_sized m →
  zlen (eh_wraps m) ≤ maxArrayItems DEFAULT_DECODE_LIMITS → tidy DEFAULT_DECODE_LIMITS 3 (manifest_form m).
Proof.
  intros [He Hs _ _] (He' & Hc & _) Hn. unfold manifest_form. rewrite Hs.
  assert (tidy DEFAULT_DECODE_LIMITS 2 (CArray (wrapToCbor <$> eh_wraps m))).
  { apply (tidy_array 1); [unfold zlen in *; by rewrite length_fmap|lia|].
    apply Forall_fmap, Forall_true. intros w. apply wrap_tidy. }
  pose proof (nullable_bytes_tidy (eh_previousEpochDigest m) 2 ltac:(lia)).
  assert (tidy DEFAULT_DECODE_LIMITS 2 (CText HPKE_SUITE)) by (apply tidy_text; [apply _|lia|apply suite_fits]).
  change 3 with (2 + 1). tidy_map.
Qed.

Lemma manifest_written m : manifest_valid m → manifest_sized m → epochManifestFromCbor (manifest_form m) = Ok m.
Proof.
  intros Hv (He & Hc & Hw). unfold epochManifestFromCbor, manifest_form. cbn [expectMap mbind result_bind].
  rewrite integerMap_known by (literal_nodup || done). cbn [mbind result_bind]. read_record.
  rewrite (proj2 (previous_read _ _) eq_refl). cbn [mbind result_bind].
  erewrite string_read by read_side. cbn [mbind result_bind]. unfold protocolInvariant.
  rewrite bool_decide_eq_true_2 by apply Hv. cbn [ensure mbind result_bind].
  pose proof (valid_epoch _ Hv). read_record. erewrite array_read by read_side. cbn [mbind result_bind].
  rewrite wraps_written by done. cbn [mbind result_bind].
  destruct m as [g e p s c w]. cbn [eh_groupId eh_epoch eh_previousEpochDigest eh_suite eh_createdAtMs eh_wraps].
  by rewrite (proj2 (epochManifestToCbor_Ok (mkEpochManifest g e p s c w) _) (conj Hv eq_refl)).
Qed.

Lemma epoch_codec_read b m : encodeEpochManifest m = Ok b → manifest_sized m →
  zlen (eh_wraps m) ≤ maxArrayItems DEFAULT_DECODE_LIMITS → zlen b ≤ maxBlobBytes DEFAULT_DECODE_LIMITS →
  decodeEpochManifest b = Ok (in_order m).
Proof.
  intros [Hv Hb]%encode_form Hs Hn Hlen. apply valid_in_order in Hv. apply sized_in_order in Hs.
  unfold decodeEpochManifest, assertCanonical. assert (tidy DEFAULT_DECODE_LIMITS 3 (manifest_form (in_order m))).
  { apply manifest_tidy; [done..|]. unfold in_order, zlen in *. simpl. by rewrite js_sort_length. }
  rewrite (tidy_asserted 3 (manifest_form (in_order m)) b) by done. cbn [mbind result_bind]. by apply manifest_written.
Qed.

(** the codec of epoch manifests.  A manifest that can be encoded, with fields
    of their declared sizes, is read back from its bytes with its wraps in the order
    of their recipients; manifests with the same bytes are the same up to that
    order.  The decoder also accepts wraps in another order: the bytes a manifest
    was read from are its encoding exactly when they list the wraps in order, so
    that signature and digest, which are taken of the encoding, do not depend on
    the bytes that were received. *)
Theorem epoch_manifest_codec b m :
  (encodeEpochManifest m = Ok b → manifest_sized m → zlen (eh_wraps m) ≤ maxArrayItems DEFAULT_DECODE_LIMITS →
     zlen b ≤ maxBlobBytes DEFAULT_DECODE_LIMITS → decodeEpochManifest b = Ok (in_order m)) ∧
  (∀ m', encodeEpochManifest m = Ok b → encodeEpochManifest m' = Ok b → zlen b ≤ MAX_SAFE_INTEGER →
     in_order m = in_order m') ∧
  (decodeEpochManifest b = Ok m → encodeEpochManifest m = Ok b ↔ wraps_ascend (eh_wraps m)).
Proof.
  split_and!.
  - apply epoch_codec_read.
  - intros m' [_ H]%encode_form [_ H']%encode_form Hlen. by eapply manifest_form_inj.
  - intros (Hv & _ & Hb & Hlen)%decoded_manifest. split.
    + intros [_ Hb']%encode_form. rewrite (manifest_form_inj _ _ _ Hb Hb' Hlen). apply (valid_unique _ Hv).
    + intros Ha. apply encode_form. split; [done|]. by rewrite ascend_id.
Qed.

(** ** Key delivery *)

Section delivery.
Context (hmac_sha256 : bytes → bytes → bytes) (hmac_length : ∀ key message, length (hmac_sha256 key message) = 32%nat).
Context {XPrivate XPublic S : Type} (x25519_import : bytes → option XPublic)
  (x25519_derive : XPrivate → XPublic → option bytes) (x25519_generate : S → S * (XPrivate * bytes))
  (x25519_public : XPrivate → bytes)
  (x_laws : X25519Laws x25519_import x25519_derive x25519_generate x25519_public).
Context (aes_encrypt : bytes → bytes → bytes → bytes → bytes) (aes_decrypt : bytes → bytes → bytes → bytes → option bytes)
  (aes_roundtrip : ∀ key nonce ad pt, aes_decrypt key nonce ad (aes_encrypt key nonce ad pt) = Some pt).
Context (getRandomValues : nat → S → S * bytes).
Context (ed25519_verify : bytes → bytes → bytes → bool) {Key : Type} (ed25519_sign : Key → bytes → option bytes).

#[local] Abbreviation seal_wraps := (seal_wraps hmac_sha256 x25519_import x25519_derive x25519_generate aes_encrypt).
#[local] Abbreviation hpkeSealBase := (hpkeSealBase hmac_sha256 x25519_import x25519_derive x25519_generate aes_encrypt).
#[local] Abbreviation hpkeOpenBase := (hpkeOpenBase hmac_sha256 x25519_import x25519_derive aes_decrypt).
#[local] Abbreviation createEpochManifest :=
  (createEpochManifest hmac_sha256 x25519_import x25519_derive x25519_generate aes_encrypt getRandomValues ed25519_sign).
#[local] Abbreviation verifyEpochManifest := (verifyEpochManifest ed25519_verify).
#[local] Abbreviation unwrapEpochKey := (unwrapEpochKey hmac_sha256 x25519_import x25519_derive aes_decrypt ed25519_verify).

Lemma seal_sized pk pt info aad s s' c : hpkeSealBase pk pt info aad s = (s', Ok c) →
  length pk = 32%nat ∧ length (hc_encapsulatedKey c) = 32%nat.
Proof.
  unfold Hpke.hpkeSealBase, pure_result, draw, mbind, SE_bind, mret, SE_ret, importX25519PublicKey, protocolInvariant.
  destruct (length pk =? 32)%nat eqn:Hpk; cbn [ensure mbind result_bind]; [|done]. apply Nat.eqb_eq in Hpk.
  destruct (x25519_import pk) as [p|]; [|done]. destruct (x25519_generate s) as [s1 [k b]] eqn:Hg.
  apply (x_generated _ _ _ _ x_laws) in Hg as ->. intros H. repeat case_match; simplify_eq. cbn [hc_encapsulatedKey snd].
  split; [done|]. by eapply x_length.
Qed.

(** A wrap made for a recipient: it carries the recipient's identity and key, and
    opens with the private key to the content key. *)
Record wraps_key (input : EpochInput (Key:=Key)) (contentKey : bytes) (r : EpochRecipient) (w : EpochKeyWrap) : Prop := {
  wk_id : kw_recipientId w = rp_recipientId r;
  wk_key : kw_recipientPublicKey w = rp_publicKey r;
  wk_sized : wrap_sized w;
  wk_opens : ∃ context,
    wrapContext (ei_groupId input) (ei_epoch input) (ei_previousEpochDigest input) (rp_recipientId r) = Ok context ∧
    ∀ sk, x25519_public sk = rp_publicKey r →
      hpkeOpenBase sk (kw_recipientPublicKey w) (kw_encapsulatedKey w) (kw_ciphertext w) context context = Ok contentKey;
}.

Lemma seal_wraps_made input contentKey recipients : ∀ previous s s' wraps,
  seal_wraps input contentKey previous recipients s = (s', Ok wraps) →
  Forall2 (wraps_key input contentKey) recipients wraps.
Proof.
  induction recipients as [|r rs IH]; intros previous s s' wraps; cbn [Epochs.seal_wraps].
  { intros [= <- <-]. constructor. }
  unfold pure_result, mbind, SE_bind, mret, SE_ret. destruct (match previous with Some p => _ | None => _ end); [|done].
  destruct (wrapContext _ _ _ _) as [context|] eqn:Hc; [|done].
  destruct (hpkeSealBase (rp_publicKey r) contentKey context context s) as [s1 [c|]] eqn:Hs; [|done].
  destruct (seal_wraps input contentKey (Some r) rs s1) as [s2 [ws|]] eqn:Hr; [|done].
  intros [= <- <-]. constructor; [|by eapply IH]. destruct (seal_sized _ _ _ _ _ _ _ Hs). split; [done..|].
  exists context. split; [done|]. intros sk Hsk. cbn [kw_recipientPublicKey kw_encapsulatedKey kw_ciphertext].
  rewrite <-Hsk in *. by apply (seal_opens hmac_sha256 x25519_import x25519_derive x25519_generate aes_encrypt
    aes_decrypt hmac_length x25519_public x_laws aes_roundtrip sk _ _ _ s s1 (Ok c)).
Qed.

(** What a created epoch is made of. *)
Record epoch_made (input : EpochInput (Key:=Key)) (created : CreatedEpoch) : Prop := {
  made_manifest : se_manifest (ce_signedManifest created) =
    mkEpochManifest (ei_groupId input) (ei_epoch input) (ei_previousEpochDigest input) HPKE_SUITE (ei_createdAtMs input)
      (eh_wraps (se_manifest (ce_signedManifest created)));
  made_signer : se_signerPublicKey (ce_signedManifest created) = ei_signerPublicKey input;
  made_key : length (ce_contentKey created) = 32%nat;
  made_given key : ei_contentKey input = Some key → ce_contentKey created = key;
  made_wraps : Forall2 (wraps_key input (ce_contentKey created)) (js_sort compareRecipients (ei_recipients input))
    (eh_wraps (se_manifest (ce_signedManifest created)));
  made_signed : ∃ encoded, encodeEpochManifest (se_manifest (ce_signedManifest created)) = Ok encoded ∧
    signDomain ed25519_sign DepochManifest encoded (ei_signerPrivateKey input) = Ok (se_signature (ce_signedManifest created));
}.

Lemma create_made input s s' created : createEpochManifest input s = (s', Ok created) → epoch_made input created.
Proof.
  unfold Epochs.createEpochManifest, pure_result, draw, mbind, SE_bind, mret, SE_ret, protocolInvariant.
  intros H. destruct (content_key getRandomValues input s) as [s1 [key|]] eqn:Hkey; [|done].
  assert (∀ k, ei_contentKey input = Some k → key = k) as Hgiven.
  { intros k Hk. unfold content_key in Hkey. rewrite Hk in Hkey. by injection Hkey. }
  destruct (length key =? 32)%nat eqn:Hlen; cbn [ensure] in H; [|done]. apply Nat.eqb_eq in Hlen.
  destruct (0 <? _)%nat; cbn [ensure] in H; [|done].
  destruct (seal_wraps input key None _ s1) as [s2 [wraps|]] eqn:Hw; [|done]. apply seal_wraps_made in Hw.
  destruct (encodeEpochManifest _) as [encoded|] eqn:He; [|done].
  destruct (signDomain _ _ _ _) as [signature|] eqn:Hs; [|done]. injection H as _ <-. by split; eauto.
Qed.

#[local] Instance compareRecipients_comparator : Comparator compareRecipients := comparator_on rp_recipientId compareBytes.

Lemma made_ids input created : epoch_made input created →
  kw_recipientId <$> eh_wraps (se_manifest (ce_signedManifest created)) =
  rp_recipientId <$> js_sort compareRecipients (ei_recipients input).
Proof.
  intros Hm. pose proof (made_wraps _ _ Hm) as Hw. induction Hw as [|r w rs ws [Hid _ _ _] _ IH]; [done|].
  by rewrite !fmap_cons, IH, Hid.
Qed.

(** The wraps are in the order of their recipients, none of whom has two. *)
Lemma made_ascend input created : epoch_made input created → wraps_ascend (eh_wraps (se_manifest (ce_signedManifest created))).
Proof.
  intros Hm. destruct (made_signed _ _ Hm) as (encoded & [Hv _]%encode_form & _). pose proof (valid_unique _ Hv) as Hu.
  unfold in_order in Hu. cbn [eh_wraps] in Hu. rewrite js_sort_id in Hu; [done|].
  unfold compareWraps. apply (StronglySorted_on kw_recipientId (λ a b, compareBytes a b ≤ 0)).
  rewrite (made_ids _ _ Hm). apply (StronglySorted_on rp_recipientId (λ a b, compareBytes a b ≤ 0)), (js_sort_sorted compareRecipients).
Qed.

Lemma made_sized input created : epoch_made input created → Forall wrap_sized (eh_wraps (se_manifest (ce_signedManifest created))).
Proof. intros Hm. pose proof (made_wraps _ _ Hm) as Hw. induction Hw as [|r w rs ws [_ _ Hs _] _ IH]; by constructor. Qed.

(** Searching a list of wraps with distinct recipients. *)
Lemma find_wrap wraps w : wraps_ascend wraps → w ∈ wraps →
  ∃ i, list_find (λ c, equalBytes (kw_recipientId c) (kw_recipientId w) = true) wraps = Some (i, w).
Proof.
  intros Ha Hw. destruct (list_find_elem_of (λ c, equalBytes (kw_recipientId c) (kw_recipientId w) = true) wraps w Hw)
    as [[i w'] Hf]; [by apply equalBytes_spec|]. exists i. rewrite Hf. do 2 f_equal.
  apply list_find_Some in Hf as (Hi & Heq%equalBytes_spec & _). apply list_elem_of_lookup_2 in Hi.
  apply (strictly_sorted_inj compareWraps wraps w' w); [done..| |]; unfold compareWraps; rewrite Heq, cmp_refl; done.
Qed.

Lemma signed_written signed b payload : encodeSignedEpochManifest signed = Ok b →
  encodeEpochManifest (se_manifest signed) = Ok payload → decodeEpochManifest payload = Ok (se_manifest signed) →
  length (se_signerPublicKey signed) = 32%nat → length (se_signature signed) = 64%nat →
  zlen b ≤ maxBlobBytes DEFAULT_DECODE_LIMITS → decodeSignedEpochManifest b = Ok signed.
Proof.
  unfold encodeSignedEpochManifest. intros H Hp Hd Hk Hs Hlen. rewrite Hp in H. cbn [mbind result_bind] in H.
  unfold decodeSignedEpochManifest, assertCanonical. match type of H with encodeCanonicalCbor ?v = _ =>
    assert (tidy DEFAULT_DECODE_LIMITS 1 v) by (change 1 with (0 + 1); tidy_map); rewrite (tidy_asserted 1 v b) by done end.
  cbn [mbind result_bind]. unfold signedEpochFromCbor. cbn [expectMap mbind result_bind].
  rewrite integerMap_known by (literal_nodup || done). cbn [mbind result_bind]. read_record. rewrite Hd.
  cbn [mbind result_bind]. read_record. by destruct signed.
Qed.

(** An outer array is no shorter than a byte string in it. *)
Lemma signed_payload_size signed b payload : encodeSignedEpochManifest signed = Ok b →
  encodeEpochManifest (se_manifest signed) = Ok payload → zlen payload ≤ zlen b.
Proof.
  unfold encodeSignedEpochManifest. intros H Hp. rewrite Hp in H. cbn [mbind result_bind] in H.
  eapply (encode_map_item _ _ (KInt 1) (CBytes payload)) in H as [_ (vb & Hvb & Hle)].
  - etrans; [|exact Hle]. cbn [encodeCanonicalCbor] in Hvb. unfold encodeByteString in Hvb. inv_ok. subst.
    rewrite !concatBytes_cons, concatBytes_nil, app_nil_r, zlen_app. pose proof (zlen_nonneg x). lia.
  - apply map_get_Some_elem, integerMap_get; [literal_nodup|find_field].
Qed.

Lemma made_verifies input created : epoch_made input created →
  key_pair_law ed25519_verify ed25519_sign (mkKeyPair (ei_signerPublicKey input) (ei_signerPrivateKey input)) →
  length (se_signature (ce_signedManifest created)) = 64%nat ∧
  verifyEpochManifest (ce_signedManifest created) (ei_signerPublicKey input) = Ok true.
Proof.
  intros Hm Hk. destruct (made_signed _ _ Hm) as (encoded & He & Hs).
  destruct (signDomain_verifies ed25519_verify ed25519_sign _ _ _ _ Hk Hs) as [Hl Hv]. split; [done|].
  cbn [publicKeyBytes] in Hv.
  unfold Epochs.verifyEpochManifest. rewrite (made_signer _ _ Hm), (proj2 (equalBytes_spec _ _) eq_refl), He.
  cbn [mbind result_bind]. by rewrite Hv.
Qed.

(** The key of a recipient, and of nobody else. *)
Lemma made_unwraps input created : epoch_made input created →
  verifyEpochManifest (ce_signedManifest created) (ei_signerPublicKey input) = Ok true →
  (∀ r sk, r ∈ ei_recipients input → x25519_public sk = rp_publicKey r →
     unwrapEpochKey (ce_signedManifest created) (ei_signerPublicKey input) (rp_recipientId r) sk = Ok (ce_contentKey created)) ∧
  (∀ id sk, id ∉ rp_recipientId <$> ei_recipients input →
     unwrapEpochKey (ce_signedManifest created) (ei_signerPublicKey input) id sk = Err INVALID_KEY).
Proof.
  intros Hm Hv. unfold Epochs.unwrapEpochKey. rewrite Hv. cbn [mbind result_bind protocolInvariant ensure]. split.
  - intros r sk Hr Hsk. rewrite <-(elem_of_js_sort compareRecipients) in Hr.
    apply list_elem_of_lookup in Hr as [i Hi].
    destruct (Forall2_lookup_l _ _ _ _ _ (made_wraps _ _ Hm) Hi) as (w & Hw & [Hid _ _ (context & Hc & Hopen)]).
    apply list_elem_of_lookup_2 in Hw. destruct (find_wrap _ _ (made_ascend _ _ Hm) Hw) as [j Hf]. rewrite <-Hid, Hf.
    rewrite Hid. rewrite (made_manifest _ _ Hm) at 1 2 3. cbn [eh_groupId eh_epoch eh_previousEpochDigest]. rewrite Hc.
    cbn [mbind result_bind]. rewrite (Hopen sk Hsk). cbn [mbind result_bind]. unfold protocolInvariant.
    by rewrite (made_key _ _ Hm).
  - intros id sk Hid. destruct (list_find _ _) as [[i w]|] eqn:Hf; [|done]. destruct Hid.
    apply list_find_Some in Hf as (Hi & Heq%equalBytes_spec & _). subst id.
    apply list_elem_of_lookup_2, (list_elem_of_fmap_2 kw_recipientId) in Hi. rewrite (made_ids _ _ Hm) in Hi.
    by rewrite js_sort_perm in Hi.
Qed.

(** A created manifest survives its encoding. *)
Lemma made_travels input created b : epoch_made input created →
  key_pair_law ed25519_verify ed25519_sign (mkKeyPair (ei_signerPublicKey input) (ei_signerPrivateKey input)) →
  encodeSignedEpochManifest (ce_signedManifest created) = Ok b → zlen b ≤ maxBlobBytes DEFAULT_DECODE_LIMITS →
  ei_epoch input ≤ MAX_UINT64 → 0 ≤ ei_createdAtMs input ≤ MAX_UINT64 →
  zlen (ei_recipients input) ≤ maxArrayItems DEFAULT_DECODE_LIMITS →
  decodeSignedEpochManifest b = Ok (ce_signedManifest created).
Proof.
  intros Hm Hk Hb Hlen He Hc Hcount. destruct (made_verifies _ _ Hm Hk) as [Hsl _].
  destruct (made_signed _ _ Hm) as (payload & Hp & _). pose proof (signed_payload_size _ _ _ Hb Hp) as Hsize.
  eapply signed_written; [done..| |rewrite (made_signer _ _ Hm); apply Hk|done|done].
  rewrite <-(ascend_id _ (made_ascend _ _ Hm)). apply epoch_codec_read; [done| | |lia].
  - split; [by rewrite (made_manifest _ _ Hm)|]. split; [by rewrite (made_manifest _ _ Hm)|by apply (made_sized _ _ Hm)].
  - pose proof (Forall2_length _ _ _ (made_wraps _ _ Hm)) as Hw. rewrite js_sort_length in Hw. unfold zlen in *. lia.
Qed.

(** C17: an epoch manifest delivers its key to its recipients and to nobody else.
    With the laws of Ed25519, X25519 and AES-GCM: what [createEpochManifest]
    returns verifies under the signer's key; every recipient, with the private key
    of the public key it was listed with, unwraps the content key (the one that was
    asked for, if any); an identity that was not listed is told that it has no
    wrap; and the manifest survives its encoding. *)
Theorem epoch_keys_delivered input s s' created b :
  key_pair_law ed25519_verify ed25519_sign (mkKeyPair (ei_signerPublicKey input) (ei_signerPrivateKey input)) →
  createEpochManifest input s = (s', Ok created) →
  verifyEpochManifest (ce_signedManifest created) (ei_signerPublicKey input) = Ok true ∧
  (∀ r sk, r ∈ ei_recipients input → x25519_public sk = rp_publicKey r →
     unwrapEpochKey (ce_signedManifest created) (ei_signerPublicKey input) (rp_recipientId r) sk = Ok (ce_contentKey created)) ∧
  (∀ key, ei_contentKey input = Some key → ce_contentKey created = key) ∧
  (∀ id sk, id ∉ rp_recipientId <$> ei_recipients input →
     unwrapEpochKey (ce_signedManifest created) (ei_signerPublicKey input) id sk = Err INVALID_KEY) ∧
  (encodeSignedEpochManifest (ce_signedManifest created) = Ok b → zlen b ≤ maxBlobBytes DEFAULT_DECODE_LIMITS →
   ei_epoch input ≤ MAX_UINT64 → 0 ≤ ei_createdAtMs input ≤ MAX_UINT64 →
   zlen (ei_recipients input) ≤ maxArrayItems DEFAULT_DECODE_LIMITS →
   decodeSignedEpochManifest b = Ok (ce_signedManifest created)).
Proof.
  intros Hk Hm%create_made. destruct (made_verifies _ _ Hm Hk) as [Hsl Hv]. destruct (made_unwraps _ _ Hm Hv) as [Hr Hn].
  split_and!; [done..|apply (made_given _ _ Hm)|done|]. by apply made_travels.
Qed.
End delivery.

(** ** A sample epoch *)

Definition toy_values (n : nat) (counter : nat) : nat * bytes := (S counter, replicate n (byte_of (Z.of_nat counter))).
Definition reader_key (n : byte) : bytes := toy_x_public (replicate 32 n).

Definition sample_epoch_input : EpochInput := mkEpochInput [x01] 4 (Some (replicate 32 x02)) 1700000000000
  [mkRecipient [x52] (reader_key x0b); mkRecipient [x51] (reader_key x0a)] (publicKeyBytes toy_pair) tt None.

Definition sample_epoch : CreatedEpoch :=
  Eval vm_compute in
  match createEpochManifest sample_hmac toy_x_import toy_x_derive toy_x_generate toy_encrypt toy_values toy_sign
    sample_epoch_input 7%nat with
  | (_, Ok created) => created
  | (_, Err _) => mkCreatedEpoch (mkSignedEpoch (mkEpochManifest [] 0 None [] 0 []) [] []) []
  end.

Lemma toy_aes key nonce ad pt : toy_decrypt key nonce ad (toy_encrypt key nonce ad pt) = Some pt.
Proof. apply (aes_roundtrip _ _ _ _ (toy_crypto (λ _ : unit, True))). Qed.

Definition sample_reader : EpochRecipient := mkRecipient [x52] (reader_key x0b).

Lemma epoch_keys_delivered_witness :
  let signer := ei_signerPublicKey sample_epoch_input in
  let unwrap := unwrapEpochKey sample_hmac toy_x_import toy_x_derive toy_decrypt toy_verify (ce_signedManifest sample_epoch) signer in
  verifyEpochManifest toy_verify (ce_signedManifest sample_epoch) signer = Ok true ∧
  unwrap (rp_recipientId sample_reader) (replicate 32 x0b) = Ok (ce_contentKey sample_epoch) ∧
  unwrap [x53] (replicate 32 x0b) = Err INVALID_KEY.
Proof.
  destruct (epoch_keys_delivered sample_hmac sample_hmac_length toy_x_import toy_x_derive toy_x_generate toy_x_public
    toy_x_laws toy_encrypt toy_decrypt toy_aes toy_values toy_verify toy_sign sample_epoch_input 7%nat 10%nat sample_epoch []
    toy_pair_law) as (Hv & Hr & _ & Hn & _); [vm_compute; reflexivity|].
  cbv zeta. split; [exact Hv|]. split.
  - apply (Hr sample_reader); [left|reflexivity].
  - apply Hn, (bool_decide_unpack _). vm_compute. exact I.
Defined.

(** The manifest of the sample with its wraps exchanged: another byte string, which
    is read, verifies and has the same digest. *)
Definition exchanged (m : EpochManifest) : CborValue :=
  manifest_form (mkEpochManifest (eh_groupId m) (eh_epoch m) (eh_previousEpochDigest m) (eh_suite m) (eh_createdAtMs m)
    (reverse (eh_wraps m))).

Example epoch_two_forms :
  let b := toy_bytes (encodeEpochManifest (se_manifest (ce_signedManifest sample_epoch))) in
  let b' := toy_bytes (encodeCanonicalCbor (exchanged (se_manifest (ce_signedManifest sample_epoch)))) in
  b ≠ b' ∧ (decodeEpochManifest b' ≫= encodeEpochManifest) = Ok b.
Proof. split; [|vm_compute; reflexivity]. apply (bool_decide_unpack _). vm_compute. exact I. Qed.

Lemma epoch_manifest_codec_witness : ∃ b,
  encodeEpochManifest (se_manifest (ce_signedManifest sample_epoch)) = Ok b ∧
  decodeEpochManifest b = Ok (in_order (se_manifest (ce_signedManifest sample_epoch))).
Proof.
  eexists. split; [vm_compute; reflexivity|].
  refine (proj1 (epoch_manifest_codec _ _) _ _ _ _); [vm_compute; reflexivity| |by vm_compute..].
  split; [by vm_compute|]. split; [by vm_compute|]. by repeat constructor.
Defined.
