(* ===== verification/Async.v ===== *)
(** * Asynchronous code: [packages/node-core/src/async.ts] and [async] functions

    An [async] function runs without interruption from one [await] to the next;
    between them any other code may run on the shared state.  [proc] is such a
    function: an action on the state, a point where it yields, a result.  Sequential
    execution ([run]) and execution one turn at a time ([turn]) are two readings of
    the same program, so properties of either can be stated.  The [Mutex], a chain of
    promises, is modelled as it is and proved to be a lock with a line. *)

From stdpp Require Import base list option numbers.
From S2P Require Import Prelude JsMap.

(** ** Programs with [await] *)

#[local] Set Warnings "-register-all".
Inductive proc (S E A : Type) : Type :=
  | Ret (a : A)
  | Throw (e : E)
  | Act (f : S → S * proc S E A)
  | Await (p : proc S E A).
Arguments Ret {S E A} a.
Arguments Throw {S E A} e.
Arguments Act {S E A} f.
Arguments Await {S E A} p.

Definition proc_nested_ind {S E A} (P : proc S E A → Prop) (HRet : ∀ a, P (Ret a)) (HThrow : ∀ e, P (Throw e))
    (HAct : ∀ f, (∀ s, P (f s).2) → P (Act f)) (HAwait : ∀ p, P p → P (Await p)) : ∀ p, P p :=
  fix go p :=
    match p with
    | Ret a => HRet a
    | Throw e => HThrow e
    | Act f => HAct f (λ s, match f s as x return P x.2 with (_, q) => go q end)
    | Await q => HAwait q (go q)
    end.

Section proc.
Context {S E : Type}.

Fixpoint proc_bind {A B} (f : A → proc S E B) (p : proc S E A) : proc S E B :=
  match p with
  | Ret a => f a
  | Throw e => Throw e
  | Act g => Act (λ s, let (s', q) := g s in (s', proc_bind f q))
  | Await q => Await (proc_bind f q)
  end.

#[global] Instance proc_mret : MRet (proc S E) := @Ret S E.
#[global] Instance proc_mbind : MBind (proc S E) := @proc_bind.

(** [try { p } catch (error) { handler(error) }] *)
Fixpoint proc_catch {A} (handler : E → proc S E A) (p : proc S E A) : proc S E A :=
  match p with
  | Ret a => Ret a
  | Throw e => handler e
  | Act g => Act (λ s, let (s', q) := g s in (s', proc_catch handler q))
  | Await q => Await (proc_catch handler q)
  end.

(** [await p]: the result arrives in a later turn. *)
Fixpoint awaiting {A} (p : proc S E A) : proc S E A :=
  match p with
  | Ret a => Await (Ret a)
  | Throw e => Await (Throw e)
  | Act g => Act (λ s, let (s', q) := g s in (s', awaiting q))
  | Await q => Await (awaiting q)
  end.

(** Synchronous code. *)
Definition sync {A} (m : SE S E A) : proc S E A :=
  Act (λ s, let (s', r) := m s in (s', match r with Ok a => Ret a | Err e => Throw e end)).

(** A call of a service that answers at some later time. *)
Definition service {A} (m : SE S E A) : proc S E A := Await (awaiting (sync m)).

(** All turns in a row. *)
Fixpoint run {A} (p : proc S E A) (s : S) : S * result E A :=
  match p with
  | Ret a => (s, Ok a)
  | Throw e => (s, Err e)
  | Act f => let (s', q) := f s in run q s'
  | Await q => run q s
  end.

(** One turn: up to the next [await], or to the end. *)
Fixpoint turn {A} (p : proc S E A) (s : S) : S * proc S E A :=
  match p with
  | Act f => let (s', q) := f s in turn q s'
  | Await q => (s, q)
  | _ => (s, p)
  end.

Lemma run_bind {A B} (p : proc S E A) (f : A → proc S E B) s :
  run (p ≫= f) s = match run p s with (s', Ok a) => run (f a) s' | (s', Err e) => (s', Err e) end.
Proof.
  revert s. induction p as [a|e|g IH|q IH] using proc_nested_ind; intros s; cbn; [done|done| |apply IH].
  specialize (IH s). destruct (g s) as [s' q]. apply IH.
Qed.

Lemma run_catch {A} handler (p : proc S E A) s :
  run (proc_catch handler p) s = match run p s with (s', Ok a) => (s', Ok a) | (s', Err e) => run (handler e) s' end.
Proof.
  revert s. induction p as [a|e|g IH|q IH] using proc_nested_ind; intros s; cbn; [done|done| |apply IH].
  specialize (IH s). destruct (g s) as [s' q]. apply IH.
Qed.

Lemma run_awaiting {A} (p : proc S E A) s : run (awaiting p) s = run p s.
Proof.
  revert s. induction p as [a|e|g IH|q IH] using proc_nested_ind; intros s; cbn; [done|done| |apply IH].
  specialize (IH s). destruct (g s) as [s' q]. apply IH.
Qed.

Lemma run_sync {A} (m : SE S E A) s : run (sync m) s = m s.
Proof. cbn. by destruct (m s) as [s' [a|e]]. Qed.

Lemma run_service {A} (m : SE S E A) s : run (service m) s = m s.
Proof. unfold service. cbn [run]. rewrite run_awaiting. apply run_sync. Qed.

(** Taking turns without interference is running. *)
Lemma run_turn {A} (p : proc S E A) s : run p s = let (s', q) := turn p s in run q s'.
Proof.
  revert s. induction p as [a|e|g IH|q IH] using proc_nested_ind; intros s; cbn; [done|done| |done].
  specialize (IH s). destruct (g s) as [s' q]. apply IH.
Qed.

(** ** Rely and guarantee *)

(** From [s], with other code moving the state along [R] at every [await], each
    action of the program moves it along [G], and the result satisfies [Q]. *)
Fixpoint rg {A} (R G : S → S → Prop) (p : proc S E A) (Q : result E A → S → Prop) (s : S) : Prop :=
  match p with
  | Ret a => Q (Ok a) s
  | Throw e => Q (Err e) s
  | Act f => let (s', q) := f s in G s s' ∧ rg R G q Q s'
  | Await q => ∀ s', R s s' → rg R G q Q s'
  end.

Section rules.
Context (R G : S → S → Prop).

Lemma rg_mono {A} (p : proc S E A) (Q Q' : result E A → S → Prop) s :
  (∀ r s', Q r s' → Q' r s') → rg R G p Q s → rg R G p Q' s.
Proof.
  intros HQ. revert s. induction p as [a|e|g IH|q IH] using proc_nested_ind; intros s; cbn; [apply HQ|apply HQ| |].
  - specialize (IH s). destruct (g s) as [s' q]. intros [H1 H2]. split; [done|]. by apply IH.
  - intros H s' Hs. by apply IH, H.
Qed.

Lemma rg_bind {A B} (p : proc S E A) (f : A → proc S E B) Q s :
  rg R G p (λ r s', match r with Ok a => rg R G (f a) Q s' | Err e => Q (Err e) s' end) s → rg R G (p ≫= f) Q s.
Proof.
  revert s. induction p as [a|e|g IH|q IH] using proc_nested_ind; intros s; cbn; [done|done| |].
  - specialize (IH s). destruct (g s) as [s' q]. intros [H1 H2]. split; [done|]. by apply IH.
  - intros H s' Hs. by apply IH, H.
Qed.

Lemma rg_catch {A} handler (p : proc S E A) Q s :
  rg R G p (λ r s', match r with Ok a => Q (Ok a) s' | Err e => rg R G (handler e) Q s' end) s →
  rg R G (proc_catch handler p) Q s.
Proof.
  revert s. induction p as [a|e|g IH|q IH] using proc_nested_ind; intros s; cbn; [done|done| |].
  - specialize (IH s). destruct (g s) as [s' q]. intros [H1 H2]. split; [done|]. by apply IH.
  - intros H s' Hs. by apply IH, H.
Qed.

Lemma rg_awaiting {A} (p : proc S E A) Q s :
  rg R G p (λ r s', ∀ s2, R s' s2 → Q r s2) s → rg R G (awaiting p) Q s.
Proof.
  revert s. induction p as [a|e|g IH|q IH] using proc_nested_ind; intros s; cbn; [done|done| |].
  - specialize (IH s). destruct (g s) as [s' q]. intros [H1 H2]. split; [done|]. by apply IH.
  - intros H s' Hs. by apply IH, H.
Qed.

Lemma rg_sync {A} (m : SE S E A) Q s : G s (m s).1 → Q (m s).2 (m s).1 → rg R G (sync m) Q s.
Proof. cbn. by destruct (m s) as [s' [a|e]]. Qed.

Lemma rg_service {A} (m : SE S E A) (Q : result E A → S → Prop) s :
  (∀ s1, R s s1 → G s1 (m s1).1 ∧ ∀ s2, R (m s1).1 s2 → Q (m s1).2 s2) → rg R G (service m) Q s.
Proof. intros H s1 Hs. destruct (H s1 Hs). by apply rg_awaiting, rg_sync. Qed.

(** *** Soundness *)

(** For the program alone. *)
Lemma rg_run {A} (p : proc S E A) Q s : (∀ s, R s s) → rg R G p Q s → Q (run p s).2 (run p s).1.
Proof.
  intros HR. revert s. induction p as [a|e|g IH|q IH] using proc_nested_ind; intros s; cbn; [done|done| |].
  - specialize (IH s). destruct (g s) as [s' q]. intros [_ H]. by apply IH.
  - intros H. apply IH, H, HR.
Qed.

(** For a turn among others: what is left of the program is good from every state
    the others can lead to. *)
Definition resumable {A} (p : proc S E A) (Q : result E A → S → Prop) (s : S) : Prop := ∀ s', R s s' → rg R G p Q s'.

Lemma resumable_later {A} (p : proc S E A) Q s s' : (∀ a b c, R a b → R b c → R a c) →
  R s s' → resumable p Q s → resumable p Q s'.
Proof. intros HR Hs Hp s2 H2. eapply Hp, HR; done. Qed.

Lemma rg_turn {A} (p : proc S E A) Q s :
  (∀ s, G s s) → (∀ a b c, G a b → G b c → G a c) →
  (∀ r s1 s2, R s1 s2 → Q r s1 → Q r s2) →
  rg R G p Q s → G s (turn p s).1 ∧ resumable (turn p s).2 Q (turn p s).1.
Proof.
  intros Hrefl Htrans HQ. revert s. induction p as [a|e|g IH|q IH] using proc_nested_ind; intros s; cbn.
  - intros H. split; [done|]. intros s' Hs. cbn. by eapply HQ.
  - intros H. split; [done|]. intros s' Hs. cbn. by eapply HQ.
  - specialize (IH s). destruct (g s) as [s' q]. intros [H1 H2]. destruct (IH s' H2). split; [by eapply Htrans|done].
  - intros H. split; [done|]. done.
Qed.
End rules.

(** Any program, where nothing is asked of it. *)
Lemma rg_trivial {A} (p : proc S E A) s : rg (λ _ _, True) (λ _ _, True) p (λ _ _, True) s.
Proof.
  revert s. induction p as [a|e|g IH|q IH] using proc_nested_ind; intros s; cbn; [done|done| |auto].
  specialize (IH s). by destruct (g s) as [s' q].
Qed.

(** A result that holds whatever the others do holds beside one that relies on them. *)
Lemma rg_and {A} (R G : S → S → Prop) (p : proc S E A) (Q Q' : result E A → S → Prop) s :
  rg R G p Q s → rg (λ _ _, True) (λ _ _, True) p Q' s → rg R G p (λ r s', Q r s' ∧ Q' r s') s.
Proof.
  revert s. induction p as [a|e|g IH|q IH] using proc_nested_ind; intros s; cbn; [done|done| |].
  - specialize (IH s). destruct (g s) as [s' q]. intros [H1 H2] [_ H3]. split; [done|]. by apply IH.
  - intros H1 H2 s' Hs. by apply IH; [apply H1|apply H2].
Qed.

(** ** Ends *)

(** The result of a program that has nothing left to do. *)
Definition finished {A} (p : proc S E A) : option (result E A) :=
  match p with Ret a => Some (Ok a) | Throw e => Some (Err e) | _ => None end.

(** The end of a turn that ends the program, and of one that does not: the result need
    not outlast what the others do later. *)
Lemma rg_turn_end {A} (R G : S → S → Prop) (p : proc S E A) Q s :
  (∀ s, R s s) → (∀ s, G s s) → (∀ a b c, G a b → G b c → G a c) → rg R G p Q s →
  G s (turn p s).1 ∧
  match finished (turn p s).2 with
  | Some r => Q r (turn p s).1
  | None => resumable R G (turn p s).2 Q (turn p s).1
  end.
Proof.
  intros HR Hrefl Htrans. revert s. induction p as [a|e|g IH|q IH] using proc_nested_ind; intros s; cbn; [done|done| |].
  - specialize (IH s). destruct (g s) as [s' q]. intros [H1 H2]. destruct (IH s' H2). split; [by eapply Htrans|done].
  - intros H. split; [done|]. specialize (H s (HR s)) as Hs. destruct q; cbn; try exact H; exact Hs.
Qed.
End proc.

(** ** [Mutex] *)

Section mutex.
Context {S E J A : Type} (program : J → proc S E A).

(** One call of [run]: the promise it waits for, the promise it has installed as the
    tail, and how far it has come. *)
Inductive Phase := awaiting_previous | in_operation (rest : proc S E A) | returned (r : result E A).
Record Call := mkCall { call_job : J; call_previous : nat; call_own : nat; call_phase : Phase }.

(** The promises made so far and whether they are resolved; a promise is its index. *)
Record Mutex := mkMutex { mx_promises : list bool; mx_tail : nat; mx_calls : list Call }.

Definition new_Mutex : Mutex := mkMutex [true] 0 [].

(** [run] up to its first [await]: it takes the tail and leaves a promise of its own. *)
Definition mutex_run (job : J) (m : Mutex) : Mutex :=
  let own := length (mx_promises m) in
  mkMutex (mx_promises m ++ [false]) own (mx_calls m ++ [mkCall job (mx_tail m) own awaiting_previous]).

Definition set_phase (i : nat) (phase : Phase) (m : Mutex) : Mutex :=
  mkMutex (mx_promises m) (mx_tail m)
  (alter (λ c, mkCall (call_job c) (call_previous c) (call_own c) phase) i (mx_calls m)).
Definition resolve (promise : nat) (m : Mutex) : Mutex :=
  mkMutex (<[promise := true]> (mx_promises m)) (mx_tail m) (mx_calls m).

(** What the [i]-th call does next, if it can: enter the operation when the promise it
    waits for is resolved, take the operation's next turn, or leave through [finally]
    once the operation has settled, with a value or with an error.  An operation that
    awaits something that never settles takes no further turn. *)
Definition mutex_resume (i : nat) (s : S) (m : Mutex) : option (S * Mutex) :=
  c ← mx_calls m !! i;
  match call_phase c with
  | awaiting_previous =>
    if default false (mx_promises m !! call_previous c)
    then let (s', p) := turn (program (call_job c)) s in Some (s', set_phase i (in_operation p) m)
    else None
  | in_operation p =>
    match finished p with
    | None => let (s', p') := turn p s in Some (s', set_phase i (in_operation p') m)
    | Some r => Some (s, set_phase i (returned r) (resolve (call_own c) m))
    end
  | returned _ => None
  end.

Definition mutex_step (x y : S * Mutex) : Prop := ∃ i, mutex_resume i x.1 x.2 = Some y.

(** *** What its users rely on *)

(** At most one job inside, the others in line. *)
Record Lock := mkLock { lk_holder : option (J * proc S E A); lk_line : list J }.

Definition enqueue (job : J) (l : Lock) : Lock := mkLock (lk_holder l) (lk_line l ++ [job]).

Inductive lock_step : S * Lock → S * Lock → Prop :=
  | lock_acquire s job q :
  lock_step (s, mkLock None (job :: q)) ((turn (program job) s).1, mkLock (Some (job, (turn (program job) s).2)) q)
  | lock_turn s job p q : finished p = None →
  lock_step (s, mkLock (Some (job, p)) q) ((turn p s).1, mkLock (Some (job, (turn p s).2)) q)
  | lock_release s job p q r : finished p = Some r → lock_step (s, mkLock (Some (job, p)) q) (s, mkLock None q).

(** The chain of promises with these calls returned, this one inside, these waiting. *)
Definition chain_calls (gone : list (J * result E A)) (l : Lock) : list (J * Phase) :=
  ((λ x, (x.1, returned x.2)) <$> gone) ++ ((λ x, (x.1, in_operation x.2)) <$> option_list (lk_holder l)) ++
  ((λ job, (job, awaiting_previous)) <$> lk_line l).
Definition chain (gone : list (J * result E A)) (l : Lock) : Mutex :=
  let calls := chain_calls gone l in
  mkMutex (replicate (Datatypes.S (length gone)) true ++ replicate (length calls - length gone) false) (length calls)
  (imap (λ i x, mkCall x.1 i (Datatypes.S i) x.2) calls).
Definition represents (m : Mutex) (l : Lock) : Prop := ∃ gone, m = chain gone l.

(** *** Proofs *)

Lemma mutex_run_chain job gone l : mutex_run job (chain gone l) = chain gone (enqueue job l).
Proof.
  unfold mutex_run, chain. cbn [mx_promises mx_tail mx_calls].
  assert (chain_calls gone (enqueue job l) = chain_calls gone l ++ [(job, awaiting_previous)]) as ->.
  { unfold chain_calls, enqueue. cbn. by rewrite fmap_app, !app_assoc. }
  set (calls := chain_calls gone l). assert (length gone ≤ length calls) as Hle.
  { subst calls. unfold chain_calls. rewrite !length_app, length_fmap. lia. }
  rewrite !length_app, !length_replicate. cbn [length]. f_equal; [|lia|].
  - rewrite <-app_assoc. f_equal. replace (length calls + 1 - length gone) with (Datatypes.S (length calls - length gone)) by lia.
    by rewrite replicate_S_end.
  - rewrite imap_app. cbn. do 3 f_equal; lia.
Qed.

(** What each call of the chain can do. *)
Lemma resume_gone gone l i s : i < length gone → mutex_resume i s (chain gone l) = None.
Proof.
  intros Hi. unfold mutex_resume, chain. cbn [mx_calls mx_promises]. rewrite list_lookup_imap. unfold chain_calls.
  rewrite lookup_app_l by by rewrite length_fmap. rewrite list_lookup_fmap.
  by destruct (lookup_lt_is_Some_2 gone i Hi) as [x ->].
Qed.

(** The promise of the call before the [i]-th one. *)
Lemma chain_promise gone l i : mx_promises (chain gone l) !! i = Some true ↔ i ≤ length gone.
Proof.
  unfold chain. cbn [mx_promises]. destruct (decide (i ≤ length gone)) as [Hi|Hi].
  - rewrite lookup_app_l by (rewrite length_replicate; lia). rewrite lookup_replicate. split; [done|lia].
  - rewrite lookup_app_r by (rewrite length_replicate; lia). rewrite lookup_replicate. naive_solver.
Qed.

(** The calls behind the first one that has not returned only wait. *)
Lemma waits_behind gone l i s : length gone < i → mutex_resume i s (chain gone l) = None.
Proof.
  intros Hi. unfold mutex_resume. destruct (mx_calls (chain gone l) !! i) as [c|] eqn:Hc; [|done].
  assert (call_previous c = i ∧ call_phase c = awaiting_previous) as [Hprev Hphase].
  { unfold chain, chain_calls in Hc. cbn [mx_calls] in Hc. rewrite list_lookup_imap in Hc.
    rewrite lookup_app_r in Hc by (rewrite length_fmap; lia). rewrite length_fmap in Hc.
    apply fmap_Some in Hc as (x & Hx & ->). cbn [call_previous call_phase]. split; [done|].
    assert (x ∈ (λ job, (job, awaiting_previous)) <$> lk_line l) as (job & -> & _)%list_elem_of_fmap; [|done].
    destruct (lk_holder l) as [h|]; cbn in Hx; [|by eapply list_elem_of_lookup_2].
    destruct (i - length gone) as [|k] eqn:Hk; [lia|]. by eapply list_elem_of_lookup_2. }
  cbn [mbind option_bind]. rewrite Hphase, Hprev. destruct (mx_promises (chain gone l) !! i) as [[|]|] eqn:Hp; [|done..].
  apply chain_promise in Hp. lia.
Qed.

(** The first one that has not returned. *)
Definition first_of (gone : list (J * result E A)) (l : Lock) (job : J) (phase : Phase) (line : list (J * Phase)) : Prop :=
  chain_calls gone l = ((λ x, (x.1, returned x.2)) <$> gone) ++ (job, phase) :: line.

Lemma chain_first gone l job phase line : first_of gone l job phase line →
  mx_calls (chain gone l) !! length gone = Some (mkCall job (length gone) (Datatypes.S (length gone)) phase).
Proof.
  intros Hl. unfold chain. cbn [mx_calls]. rewrite list_lookup_imap, Hl, lookup_app_r by by rewrite length_fmap.
  by rewrite length_fmap, Nat.sub_diag.
Qed.

Lemma alter_first (f : Call → Call) (g : nat → J * Phase → Call) G x y line : f (g (length G) x) = g (length G) y →
  alter f (length G) (imap g (G ++ x :: line)) = imap g (G ++ y :: line).
Proof.
  intros Hf. rewrite !imap_app, alter_app_r_alt by by rewrite length_imap. rewrite length_imap, Nat.sub_diag.
  cbn. by rewrite Nat.add_0_r, Hf.
Qed.

Lemma set_phase_first gone l l' job old phase line : first_of gone l job old line → first_of gone l' job phase line →
  set_phase (length gone) phase (chain gone l) = chain gone l'.
Proof.
  intros Hl Hl'. unfold set_phase, chain. cbn [mx_promises mx_tail mx_calls]. rewrite Hl, Hl', !length_app. f_equal.
  rewrite <-(length_fmap (λ x, (x.1, returned x.2)) gone). by apply alter_first.
Qed.

(** Leaving through [finally]. *)
Lemma chain_return gone job p r q :
  set_phase (length gone) (returned r) (resolve (Datatypes.S (length gone)) (chain gone (mkLock (Some (job, p)) q))) =
  chain (gone ++ [(job, r)]) (mkLock None q).
Proof.
  unfold set_phase, resolve, chain. cbn [mx_promises mx_tail mx_calls].
  assert (chain_calls (gone ++ [(job, r)]) (mkLock None q) =
    ((λ x, (x.1, returned x.2)) <$> gone) ++ (job, returned r) :: ((λ job, (job, awaiting_previous)) <$> q)) as ->.
  { unfold chain_calls. cbn. by rewrite fmap_app, <-app_assoc. }
  change (chain_calls gone (mkLock (Some (job, p)) q)) with
    (((λ x, (x.1, returned x.2)) <$> gone) ++ (job, in_operation p) :: ((λ job, (job, awaiting_previous)) <$> q)).
  rewrite !length_app, !length_fmap. cbn [length]. rewrite length_fmap. f_equal.
  - rewrite insert_app_r_alt by by rewrite length_replicate. rewrite length_replicate, Nat.sub_diag.
    replace (length gone + Datatypes.S (length q) - length gone) with (Datatypes.S (length q)) by lia.
    replace (length gone + Datatypes.S (length q) - (length gone + 1)) with (length q) by lia.
    replace (Datatypes.S (length gone + 1)) with (Datatypes.S (length gone) + 1) by lia. by rewrite replicate_add, <-app_assoc.
  - rewrite <-(length_fmap (λ x, (x.1, returned x.2)) gone). by apply alter_first.
Qed.

Lemma resume_first gone l s : mutex_resume (length gone) s (chain gone l) =
  match l with
  | mkLock None [] => None
  | mkLock None (job :: q) =>
    Some ((turn (program job) s).1, chain gone (mkLock (Some (job, (turn (program job) s).2)) q))
  | mkLock (Some (job, p)) q =>
    match finished p with
    | None => Some ((turn p s).1, chain gone (mkLock (Some (job, (turn p s).2)) q))
    | Some r => Some (s, chain (gone ++ [(job, r)]) (mkLock None q))
    end
  end.
Proof.
  pose proof (proj2 (chain_promise gone l (length gone)) (le_n _)) as Hpromise. unfold mutex_resume.
  destruct l as [[[job p]|] q]; [|destruct q as [|job q]].
  - rewrite (chain_first gone _ job (in_operation p) ((λ job, (job, awaiting_previous)) <$> q)) by done.
    cbn [mbind option_bind call_phase call_own]. destruct (finished p) as [r|]; [|destruct (turn p s) as [s' p']]; do 2 f_equal.
    + apply chain_return.
    + by eapply set_phase_first.
  - unfold chain, chain_calls. cbn [mx_calls lk_holder lk_line option_list]. rewrite list_lookup_imap, !app_nil_r.
    rewrite lookup_ge_None_2; [done|]. by rewrite length_fmap.
  - rewrite (chain_first gone _ job awaiting_previous ((λ job, (job, awaiting_previous)) <$> q)) by done.
    cbn [mbind option_bind call_phase call_previous call_job]. rewrite Hpromise. cbn [default].
    destruct (turn (program job) s) as [s' p']. do 2 f_equal. by eapply set_phase_first.
Qed.

Lemma chain_steps gone l s y : mutex_step (s, chain gone l) y ↔ mutex_resume (length gone) s (chain gone l) = Some y.
Proof.
  split; [|by exists (length gone)]. intros [i Hi]. cbn [fst snd] in Hi.
  destruct (lt_eq_lt_dec i (length gone)) as [[Hlt| <-]|Hgt]; [by rewrite resume_gone in Hi|done|by rewrite waits_behind in Hi].
Qed.

(** C35: The mutex, a chain of promises, is a lock with a line, exactly.  A call of [run]
    queues up behind the calls before it.  Whatever the chain can do is to let the first
    call in line enter when nobody is inside, to let the one inside take a turn, or to
    let it leave once its operation has settled, with a value or an error; and whenever
    the lock allows one of these, the chain can do it, so no wake-up is lost.  While the
    operation inside has not settled, nobody else moves: one that awaits something that
    never settles keeps the mutex for ever. *)
Theorem mutex_is_lock : represents new_Mutex (mkLock None []) ∧
  ∀ m l, represents m l →
  (∀ job, represents (mutex_run job m) (enqueue job l)) ∧
  (∀ s s' m', mutex_step (s, m) (s', m') → ∃ l', lock_step (s, l) (s', l') ∧ represents m' l') ∧
  (∀ s s' l', lock_step (s, l) (s', l') → ∃ m', mutex_step (s, m) (s', m') ∧ represents m' l') ∧
  ∀ job p s s' m', lk_holder l = Some (job, p) → finished p = None → mutex_step (s, m) (s', m') →
  s' = (turn p s).1 ∧ represents m' (mkLock (Some (job, (turn p s).2)) (lk_line l)).
Proof.
  split; [by exists []|]. intros m l [gone ->]. split_and!.
  - intros job. exists gone. apply mutex_run_chain.
  - intros s s' m' Hs%chain_steps. rewrite resume_first in Hs. destruct l as [[[job p]|] [|job' q]].
    + destruct (finished p) eqn:Hp; injection Hs as <- <-; eexists; (split; [by econstructor|by eexists]).
    + destruct (finished p) eqn:Hp; injection Hs as <- <-; eexists; (split; [by econstructor|by eexists]).
    + done.
    + injection Hs as <- <-. eexists. split; [by econstructor|by eexists].
  - intros s s' l' Hs. inversion Hs as [s1 job q|s1 job p q Hp|s1 job p q r Hp]; subst; eexists;
      (split; [apply chain_steps; rewrite resume_first, ?Hp; reflexivity|by eexists]).
  - intros job p s s' m' Hl Hp Hs%chain_steps. rewrite resume_first in Hs. destruct l as [h q]. cbn in Hl. subst h.
    rewrite Hp in Hs. injection Hs as <- <-. split; [done|by eexists].
Qed.
End mutex.

(** Two calls: the first throws, and the second enters after it. *)
Definition sample_job (job : nat) : proc nat unit unit :=
  match job with O => Throw tt | _ => Act (λ s, (s + job, Await (Ret tt))) end.

Lemma mutex_is_lock_witness (m := mutex_run 1 (mutex_run 0 (new_Mutex (S:=nat) (E:=unit) (A:=unit)))) :
  mutex_resume sample_job 1 5 m = None ∧
  ∃ m', mutex_step sample_job (5, m) (5, m') ∧ represents m' (mkLock (Some (0, Throw tt)) [1]) ∧
  ∃ m'', mutex_step sample_job (5, m') (5, m'') ∧ represents m'' (mkLock None [1]).
Proof.
  split; [reflexivity|]. destruct (mutex_is_lock sample_job) as [H0 H].
  destruct (H _ _ H0) as (Hcall & _). destruct (H _ _ (Hcall 0)) as (Hcall' & _).
  destruct (H _ _ (Hcall' 1)) as (_ & _ & Hstep & _).
  destruct (Hstep 5 5 (mkLock (Some (0, Throw tt)) [1])) as (m' & Hm & Hr); [exact (lock_acquire sample_job 5 0 [1])|].
  exists m'. split; [exact Hm|]. split; [exact Hr|]. destruct (H _ _ Hr) as (_ & _ & Hstep' & _).
  destruct (Hstep' 5 5 (mkLock None [1])) as (m'' & Hm' & Hr'); [by eapply lock_release|]. exists m''. by split.
Defined.
