(* ===== verification/Governance.v ===== *)
(** * The governance control plane: [packages/node-core/src/governance.ts]

    The administration of a group: capability revisions, recoveries and epoch
    manifests travel as signed envelopes on the feeds; every node follows them and
    keeps the membership snapshot of each revision, the chain of epochs and the
    content keys it could unwrap.  [ingest] runs inside the mutex; the operations of
    an administrator read the state, build a record outside of it, publish it and
    ingest it.  WebCrypto, the transport, the clock and the callback of the host are
    parameters; [W] is the state of what lies outside. *)

From Stdlib Require Import Strings.Byte Strings.String.
From stdpp Require Import base list option numbers.
From S2P Require Import Prelude JsMap Bytes Text JsNumber Cbor Schema Domains Messages CapTypes CapCodec Reducer FeedForks Hpke Wire Epochs Async.

#[local] Open Scope Z_scope.

(** ** Text of a feed identifier *)

(** [new TextDecoder().decode(b)]: a malformed sequence becomes U+FFFD, up to the
    first byte that does not continue it. *)
Fixpoint lossy_scalars (b : bytes) : list Z :=
  match b with
  | [] => []
  | b0 :: r0 =>
      if val b0 <? 0x80 then val b0 :: lossy_scalars r0
      else if between 0xC2 (val b0) 0xDF then
        match r0 with
        | b1 :: r1 =>
            if continuation b1 then ((val b0 - 0xC0) * 64 + (val b1 - 0x80)) :: lossy_scalars r1
            else 0xFFFD :: lossy_scalars r0
        | [] => [0xFFFD]
        end
      else if between 0xE0 (val b0) 0xEF then
        match r0 with
        | b1 :: r1 =>
            if second_ok b0 b1 then
              match r1 with
              | b2 :: r2 =>
                  if continuation b2
                  then ((val b0 - 0xE0) * 4096 + (val b1 - 0x80) * 64 + (val b2 - 0x80)) :: lossy_scalars r2
                  else 0xFFFD :: lossy_scalars r1
              | [] => [0xFFFD]
              end
            else 0xFFFD :: lossy_scalars r0
        | [] => [0xFFFD]
        end
      else if between 0xF0 (val b0) 0xF4 then
        match r0 with
        | b1 :: r1 =>
            if second_ok b0 b1 then
              match r1 with
              | b2 :: r2 =>
                  if continuation b2 then
                    match r2 with
                    | b3 :: r3 =>
                        if continuation b3
                        then ((val b0 - 0xF0) * 262144 + (val b1 - 0x80) * 4096 + (val b2 - 0x80) * 64 + (val b3 - 0x80))
                               :: lossy_scalars r3
                        else 0xFFFD :: lossy_scalars r2
                    | [] => [0xFFFD]
                    end
                  else 0xFFFD :: lossy_scalars r1
              | [] => [0xFFFD]
              end
            else 0xFFFD :: lossy_scalars r0
        | [] => [0xFFFD]
        end
      else 0xFFFD :: lossy_scalars r0
  end.

Definition feedAuthor (value : bytes) : jsstring := mjoin (units_of <$> lossy_scalars (strip_bom value)).

(** ** Data *)

Inductive GovernanceMessageType := GMcapability | GMrecovery | GMepochManifest.

#[export] Instance GovernanceMessageType_eq_dec : EqDecision GovernanceMessageType.
Proof. solve_decision. Defined.

Definition governance_type (t : GovernanceMessageType) : EnvelopeMessageType :=
  match t with GMcapability => MTcapability | GMrecovery => MTrecovery | GMepochManifest => MTepochManifest end.

Definition governance_of (t : EnvelopeMessageType) : option GovernanceMessageType :=
  match t with
  | MTcapability => Some GMcapability
  | MTrecovery => Some GMrecovery
  | MTepochManifest => Some GMepochManifest
  | _ => None
  end.

Definition governanceDomain (t : GovernanceMessageType) : ProtocolDomain :=
  match t with GMcapability => DcapabilityRevision | GMrecovery => Drecovery | GMepochManifest => DepochManifest end.

Inductive GovernanceEventType := capability_event | recovery_event | epoch_rotated | historical_access_granted.

Record GovernanceEvent := mkGovernanceEvent {
  ge_revision : Z;
  ge_type : GovernanceEventType;
  ge_recordId : jsstring;
  ge_membershipRevision : bytes;
  ge_epoch : option Z;
  ge_historyReopened : bool;
}.

(** What the host is told when a recovery reopens history. *)
Record HistoryReopening := mkReopening { hr_id : jsstring; hr_membershipRevision : bytes; hr_reason : jsstring }.

Inductive GovernanceError (E : Type) :=
| GOVERNANCE_CAPABILITY_FEED_UNAUTHORIZED
| GOVERNANCE_PAYLOAD_INVALID
| GOVERNANCE_AUDIT_READER_REQUIRED
| GOVERNANCE_EPOCH_INVALID
| GOVERNANCE_EPOCH_CHAIN_INVALID
| GOVERNANCE_HISTORICAL_EPOCH_UNKNOWN
| GOVERNANCE_CAPABILITY_FEED_OWNER_REQUIRED
| GOVERNANCE_ENVELOPE_INVALID
| GOVERNANCE_ENVELOPE_DIGEST_MISMATCH
| GOVERNANCE_ENVELOPE_SIGNATURE_INVALID
| BROADCASTER_CLOSED
| GovernanceCoded (code : ErrorCode)
| GovernanceOutside (e : E).
Arguments GOVERNANCE_CAPABILITY_FEED_UNAUTHORIZED {E}.
Arguments GOVERNANCE_PAYLOAD_INVALID {E}.
Arguments GOVERNANCE_AUDIT_READER_REQUIRED {E}.
Arguments GOVERNANCE_EPOCH_INVALID {E}.
Arguments GOVERNANCE_EPOCH_CHAIN_INVALID {E}.
Arguments GOVERNANCE_HISTORICAL_EPOCH_UNKNOWN {E}.
Arguments GOVERNANCE_CAPABILITY_FEED_OWNER_REQUIRED {E}.
Arguments GOVERNANCE_ENVELOPE_INVALID {E}.
Arguments GOVERNANCE_ENVELOPE_DIGEST_MISMATCH {E}.
Arguments GOVERNANCE_ENVELOPE_SIGNATURE_INVALID {E}.
Arguments BROADCASTER_CLOSED {E}.
Arguments GovernanceCoded {E} code.
Arguments GovernanceOutside {E} e.

(** [CapabilityChange]; the grants are without their [validFromRevision]. *)
Record CapabilityChange := mkChange {
  ch_grants : list CapabilityGrant;
  ch_revocations : list bytes;
  ch_validationPolicies : list ValidationPolicy;
  ch_successorRootPublicKey : option bytes;
  ch_successorCapabilityLogFeed : option bytes;
}.

Definition with_validFrom (revision : Z) (g : CapabilityGrant) : CapabilityGrant :=
  mkGrant (g_subjectId g) (g_signingPublicKey g) (g_transportAuthor g) (g_role g) revision (g_validUntilRevision g)
    (g_organization g) (g_validatorClass g) (g_minimumAuthorTimestampMs g) (g_readerScope g) (g_hpkePublicKey g).

(** What WebCrypto offers, with the state [W] its random source is part of; [B] is
    the state the ciphers of a ring run on. *)
Record WebCrypto (Key XPrivate XPublic W B : Type) := mkWebCrypto {
  wc_sha256 : bytes → bytes;
  wc_hmac : bytes → bytes → bytes;
  wc_verify : bytes → bytes → bytes → bool;
  wc_sign : Key → bytes → option bytes;
  wc_import : bytes → option XPublic;
  wc_derive : XPrivate → XPublic → option bytes;
  wc_generate : W → W * (XPrivate * bytes);
  wc_encrypt : bytes → bytes → bytes → bytes → bytes;
  wc_decrypt : bytes → bytes → bytes → bytes → option bytes;
  wc_random : nat → W → W * bytes;
  wc_cipherRandom : nat → SE B WireError bytes;
}.
Arguments wc_sha256 {_ _ _ _ _}.
Arguments wc_hmac {_ _ _ _ _}.
Arguments wc_verify {_ _ _ _ _}.
Arguments wc_sign {_ _ _ _ _}.
Arguments wc_import {_ _ _ _ _}.
Arguments wc_derive {_ _ _ _ _}.
Arguments wc_generate {_ _ _ _ _}.
Arguments wc_encrypt {_ _ _ _ _}.
Arguments wc_decrypt {_ _ _ _ _}.
Arguments wc_random {_ _ _ _ _}.
Arguments wc_cipherRandom {_ _ _ _ _}.

Section governance.
Context {Key XPrivate XPublic W B E : Type} (crypto : WebCrypto Key XPrivate XPublic W B).

#[local] Abbreviation Error := (GovernanceError E).
#[local] Abbreviation sha256 := (wc_sha256 crypto).

(** [GovernanceControlPlaneOptions]; [go_history] and [go_publish] are those of the
    transport, [go_now] is the clock, in whole milliseconds. *)
Record GovernanceOptions := mkGovernanceOptions {
  go_genesis : SignedGenesis;
  go_groupRoute : bytes;
  go_transportIdentity : jsstring;
  go_publish : bytes → Z → W → W * result E TransportRecord;
  go_identity : Ed25519KeyPair (Key:=Key);
  go_recipient : option (bytes * XPrivate);
  go_now : W → Z;
  go_onHistoryReopened : option (HistoryReopening → W → W * result E unit);
}.

(** ** State *)

(** The fields that only [ingest] changes. *)
Record Ledger := mkLedger {
  lg_snapshot : CapabilitySnapshot;
  lg_snapshots : jsmap jsstring CapabilitySnapshot;
  lg_currentEpoch : Z;
  lg_epochManifests : jsmap Z SignedEpochManifest;
  lg_epochDigests : jsmap Z bytes;
}.

Record Governance := mkGovernance {
  gv_ledger : Ledger;
  gv_seen : jsset jsstring;
  gv_eventRevision : Z;
  gv_events : list GovernanceEvent;
  gv_closed : bool;
  gv_contentKeys : jsmap Z bytes;
  gv_cipherRing : EpochCipherRing (S:=B);
  gv_world : W;
}.

Definition set_ledger v g := mkGovernance v (gv_seen g) (gv_eventRevision g) (gv_events g) (gv_closed g)
  (gv_contentKeys g) (gv_cipherRing g) (gv_world g).
Definition set_seen v g := mkGovernance (gv_ledger g) v (gv_eventRevision g) (gv_events g) (gv_closed g)
  (gv_contentKeys g) (gv_cipherRing g) (gv_world g).
Definition set_emitted revision events g := mkGovernance (gv_ledger g) (gv_seen g) revision events (gv_closed g)
  (gv_contentKeys g) (gv_cipherRing g) (gv_world g).
Definition set_closed v g := mkGovernance (gv_ledger g) (gv_seen g) (gv_eventRevision g) (gv_events g) v
  (gv_contentKeys g) (gv_cipherRing g) (gv_world g).
Definition set_contentKeys v g := mkGovernance (gv_ledger g) (gv_seen g) (gv_eventRevision g) (gv_events g) (gv_closed g)
  v (gv_cipherRing g) (gv_world g).
Definition set_cipherRing v g := mkGovernance (gv_ledger g) (gv_seen g) (gv_eventRevision g) (gv_events g) (gv_closed g)
  (gv_contentKeys g) v (gv_world g).
Definition set_world v g := mkGovernance (gv_ledger g) (gv_seen g) (gv_eventRevision g) (gv_events g) (gv_closed g)
  (gv_contentKeys g) (gv_cipherRing g) v.

Abbreviation governed := (SE Governance Error).
Abbreviation async := (proc Governance Error).

Definition look {A} (f : Governance → A) : governed A := λ g, (g, Ok (f g)).
Definition write (f : Governance → Governance) : governed unit := λ g, (f g, Ok tt).
Definition of_code {A} (r : result ErrorCode A) : governed A := λ g,
  (g, match r with Ok a => Ok a | Err code => Err (GovernanceCoded code) end).
Definition of_result {A} (r : result Error A) : governed A := λ g, (g, r).
Definition outside {A} (m : W → W * result E A) : governed A := λ g,
  let (w, r) := m (gv_world g) in
  (set_world w g, match r with Ok a => Ok a | Err e => Err (GovernanceOutside e) end).

(** Cryptography that draws from the random source. *)
Definition drawing {A} (m : SE W ErrorCode A) : governed A := λ g,
  let (w, r) := m (gv_world g) in
  (set_world w g, match r with Ok a => Ok a | Err code => Err (GovernanceCoded code) end).

Definition snapshot_of (g : Governance) : CapabilitySnapshot := lg_snapshot (gv_ledger g).

(** ** Envelopes *)

Definition encodeGovernanceEnvelope (groupRoute : bytes) (t : GovernanceMessageType) (payload : bytes)
    (signer : Ed25519KeyPair (Key:=Key)) : result ErrorCode bytes :=
  signature ← signDomain (wc_sign crypto) (governanceDomain t) payload (privateKey signer);
  wire ← encodeCanonicalCbor (CArray [CInt 1; CBytes payload; CBytes (publicKeyBytes signer); CBytes signature]);
  digest ← hashDomain sha256 Denvelope wire;
  encodeEnvelope (mkEnvelope groupRoute (governance_type t) None digest (inline wire)).

Definition gov_coded {A} (r : result ErrorCode A) : result Error A :=
  match r with Ok a => Ok a | Err code => Err (GovernanceCoded code) end.

Definition decodeGovernanceEnvelope (b groupRoute : bytes) : result Error (GovernanceMessageType * bytes) :=
  envelope ← gov_coded (decodeEnvelope b);
  match governance_of (env_messageType envelope), env_payload envelope with
  | Some t, inline wire =>
      ensure (equalBytes (env_groupRoute envelope) groupRoute && bool_decide (env_encryptionEpoch envelope = None))
        GOVERNANCE_ENVELOPE_INVALID ≫= λ _,
      digest ← gov_coded (hashDomain sha256 Denvelope wire);
      ensure (equalBytes digest (env_payloadDigest envelope)) GOVERNANCE_ENVELOPE_DIGEST_MISMATCH ≫= λ _,
      value ← gov_coded (assertCanonical wire);
      match value with
      | CArray [CInt version; CBytes payload; CBytes signer; CBytes signature] =>
          ensure (version =? 1) GOVERNANCE_ENVELOPE_INVALID ≫= λ _,
          ensure (verifyDomain (wc_verify crypto) (governanceDomain t) payload signature signer)
            GOVERNANCE_ENVELOPE_SIGNATURE_INVALID ≫= λ _,
          Ok (t, payload)
      | _ => Err GOVERNANCE_ENVELOPE_INVALID
      end
  | _, _ => Err GOVERNANCE_ENVELOPE_INVALID
  end.

(** [typeof tagged[0] !== 'bigint' || !(tagged[1] instanceof Uint8Array)] and the rest *)
Definition tagged_payload (payload : bytes) : result Error (Z * bytes) :=
  value ← gov_coded (assertCanonical payload);
  match value with
  | CArray [CInt tag; CBytes inner] => Ok (tag, inner)
  | _ => Err GOVERNANCE_PAYLOAD_INVALID
  end.

Definition tag_payload (tag : Z) (inner : bytes) : result ErrorCode bytes := encodeCanonicalCbor (CArray [CInt tag; CBytes inner]).

(** ** The control plane *)

Context (options : GovernanceOptions).

Definition rememberSnapshot (snapshot : CapabilitySnapshot) (ledger : Ledger) : Ledger :=
  mkLedger (lg_snapshot ledger) (map_set (bytesToHex (cs_revisionDigest snapshot)) snapshot (lg_snapshots ledger))
    (lg_currentEpoch ledger) (lg_epochManifests ledger) (lg_epochDigests ledger).

(** [GovernanceControlPlane.create] and the constructor *)
Definition create_governance (cipherRing : EpochCipherRing (S:=B)) (w : W) : result ErrorCode Governance :=
  snapshot ← reduceCapabilityLog sha256 (wc_verify crypto) (go_genesis options) [];
  Ok (mkGovernance (rememberSnapshot snapshot (mkLedger snapshot [] (-1) [] [])) [] 0 [] false [] cipherRing w).

Definition snapshotForRevision (digest : bytes) (g : Governance) : option CapabilitySnapshot :=
  map_get (bytesToHex digest) (lg_snapshots (gv_ledger g)).

Definition currentEpoch (g : Governance) : option Z :=
  if lg_currentEpoch (gv_ledger g) <? 0 then None else Some (lg_currentEpoch (gv_ledger g)).

Definition emit (t : GovernanceEventType) (recordId : jsstring) (epoch : option Z) : governed unit := λ g,
  let revision := gv_eventRevision g + 1 in
  if gv_closed g then (set_emitted revision (gv_events g) g, Err BROADCASTER_CLOSED)
  else
    let event := mkGovernanceEvent revision t recordId (cs_revisionDigest (snapshot_of g)) epoch
                   (cs_historyReopened (snapshot_of g)) in
    (set_emitted revision (gv_events g ++ [event]) g, Ok tt).

(** [this.#snapshot = snapshot; this.#rememberSnapshot(this.#snapshot)] *)
Definition install_snapshot (snapshot : CapabilitySnapshot) (g : Governance) : Governance :=
  let l := gv_ledger g in
  set_ledger (rememberSnapshot snapshot
    (mkLedger snapshot (lg_snapshots l) (lg_currentEpoch l) (lg_epochManifests l) (lg_epochDigests l))) g.

Definition assertCapabilityFeedOwner (g : Governance) : result Error unit :=
  ensure (bool_decide (go_transportIdentity options = feedAuthor (cs_capabilityLogFeed (snapshot_of g))))
    GOVERNANCE_CAPABILITY_FEED_OWNER_REQUIRED.

Definition nullableBytesEqual (left right : option bytes) : bool :=
  match left, right with
  | None, None => true
  | Some l, Some r => equalBytes l r
  | _, _ => false
  end.

(** *** Epochs *)

Definition previous_digest (l : Ledger) : option bytes :=
  if lg_currentEpoch l <? 0 then None else map_get (lg_currentEpoch l) (lg_epochDigests l).

(** The synchronous part: the chain of epochs grows by one, or the epoch is known. *)
Definition record_epoch (signed : SignedEpochManifest) (historical : bool) (digest : bytes) : governed unit := λ g,
  let l := gv_ledger g in
  let manifest := se_manifest signed in
  if negb historical then
    let expectedEpoch := lg_currentEpoch l + 1 in
    if negb (eh_epoch manifest =? expectedEpoch) || negb (nullableBytesEqual (eh_previousEpochDigest manifest) (previous_digest l))
    then (g, Err GOVERNANCE_EPOCH_CHAIN_INVALID)
    else (set_ledger (mkLedger (lg_snapshot l) (lg_snapshots l) (eh_epoch manifest)
            (map_set (eh_epoch manifest) signed (lg_epochManifests l))
            (map_set (eh_epoch manifest) digest (lg_epochDigests l))) g, Ok tt)
  else if negb (map_has (eh_epoch manifest) (lg_epochManifests l)) then (g, Err GOVERNANCE_HISTORICAL_EPOCH_UNKNOWN)
  else (g, Ok tt).

Definition unwrap_for (recipient : bytes * XPrivate) (signed : SignedEpochManifest) (trustedSigner : bytes) : result ErrorCode bytes :=
  unwrapEpochKey (wc_hmac crypto) (wc_import crypto) (wc_derive crypto) (wc_decrypt crypto) (wc_verify crypto)
    signed trustedSigner recipient.1 recipient.2.

Definition install_key (key : bytes) (epoch : Z) (makeCurrent : bool) : governed unit := λ g,
  let (ring, r) := install (wc_encrypt crypto) (wc_decrypt crypto) (wc_cipherRandom crypto) key epoch makeCurrent (gv_cipherRing g) in
  (set_cipherRing ring g, match r with Ok _ => Ok tt | Err (WireCoded code) => Err (GovernanceCoded code) | Err _ => Err (GovernanceCoded INVALID_KEY) end).

(** The [try] block of [#ingestEpoch]: any error inside it is ignored. *)
Definition take_key (signed : SignedEpochManifest) (historical : bool) : async unit :=
  match go_recipient options with
  | None => mret tt
  | Some recipient =>
      proc_catch (λ _, mret tt)
        (signer ← sync (look (λ g, cs_rootAdminPublicKey (snapshot_of g)));
         key ← awaiting (sync (of_code (unwrap_for recipient signed signer)));
         sync (write (λ g, set_contentKeys (map_set (eh_epoch (se_manifest signed)) key (gv_contentKeys g)) g) ;;
               install_key key (eh_epoch (se_manifest signed)) (negb historical)))
  end.

Definition ingestEpoch (signed : SignedEpochManifest) (historical : bool) (recordId : jsstring) : async unit :=
  snapshot ← sync (look snapshot_of);
  sync (of_result (ensure (equalBytes (eh_groupId (se_manifest signed)) (cs_groupId snapshot)) GOVERNANCE_EPOCH_INVALID)) ;;
  verified ← awaiting (sync (of_code (verifyEpochManifest (wc_verify crypto) signed (cs_rootAdminPublicKey snapshot))));
  sync (of_result (ensure verified GOVERNANCE_EPOCH_INVALID)) ;;
  digest ← awaiting (sync (of_code (encoded ← encodeEpochManifest (se_manifest signed); hashDomain sha256 DepochManifest encoded)));
  sync (record_epoch signed historical digest) ;;
  take_key signed historical ;;
  sync (emit (if historical then historical_access_granted else epoch_rotated) recordId (Some (eh_epoch (se_manifest signed)))).

(** *** Ingestion *)

Definition ingestCapability (inner : bytes) (recordId : jsstring) : async unit :=
  signed ← sync (of_code (decodeSignedCapabilityRevision inner));
  current ← sync (look snapshot_of);
  next ← awaiting (sync (of_code (applyCapabilityRevision sha256 (wc_verify crypto) current signed)));
  sync (write (install_snapshot next) ;; emit capability_event recordId None).

Definition reopened (recovery : RecoveryRecord) (snapshot : CapabilitySnapshot) : HistoryReopening :=
  mkReopening (bytesToHex (default [] (cs_recoveryEventDigest snapshot))) (cs_revisionDigest snapshot)
    (default [] (ry_reopeningReason (rr_payload recovery))).

Definition tell_reopened (recovery : RecoveryRecord) (snapshot : CapabilitySnapshot) : governed unit :=
  if ry_reopenHistory (rr_payload recovery) then
    match go_onHistoryReopened options with
    | Some callback => outside (callback (reopened recovery snapshot))
    | None => mret tt
    end
  else mret tt.

Definition ingestRecovery (inner : bytes) (recordId : jsstring) : async unit :=
  recovery ← sync (of_code (decodeRecoveryRecord inner));
  current ← sync (look snapshot_of);
  next ← awaiting (sync (of_code (applyRecoveryRecord sha256 (wc_verify crypto) current recovery)));
  sync (write (install_snapshot next) ;; tell_reopened recovery next ;; emit recovery_event recordId None).

(** [#ingest] *)
Definition ingest (record : TransportRecord) : async bool :=
  seen ← sync (look (λ g, set_has (tr_id record) (gv_seen g)));
  if (seen : bool) then mret false else
  match decodeGovernanceEnvelope (tr_payload record) (go_groupRoute options) with
  | Err _ => awaiting (mret false)
  | Ok (t, payload) =>
      awaiting (mret tt) ;;
      feed ← sync (look (λ g, feedAuthor (cs_capabilityLogFeed (snapshot_of g))));
      sync (of_result (ensure (bool_decide (t = GMrecovery) || bool_decide (tr_author record = feed))
                         GOVERNANCE_CAPABILITY_FEED_UNAUTHORIZED)) ;;
      tagged ← sync (of_result (tagged_payload payload));
      match t with
      | GMcapability => ingestCapability tagged.2 (tr_id record)
      | GMrecovery => ingestRecovery tagged.2 (tr_id record)
      | GMepochManifest =>
          signed ← sync (of_code (decodeSignedEpochManifest tagged.2));
          ingestEpoch signed (tagged.1 =? 2) (tr_id record)
      end ;;
      sync (write (λ g, set_seen (set_add (tr_id record) (gv_seen g)) g)) ;;
      mret true
  end.

(** [start]: the history, record after record; an error ends it.  ([#consume] does
    the same with the records that arrive later.) *)
Fixpoint ingest_all (records : list TransportRecord) : async unit :=
  match records with
  | [] => mret tt
  | record :: records' => ingest record ;; ingest_all records'
  end.

(** *** Administration

    Each operation up to the record it publishes; the caller then ingests it. *)

(** [#publish] up to [transport.publish] *)
Definition publish_record (t : GovernanceMessageType) (payload : bytes) : async TransportRecord :=
  envelope ← awaiting (sync (of_code (encodeGovernanceEnvelope (go_groupRoute options) t payload (go_identity options))));
  timestampMs ← sync (look (λ g, go_now options (gv_world g)));
  service (outside (go_publish options envelope timestampMs)).

Definition signCapabilityRevision (revision : CapabilityRevision) (rootPrivateKey : Key) : result ErrorCode SignedCapabilityRevision :=
  encoded ← encodeCapabilityRevision revision;
  signature ← signDomain (wc_sign crypto) DcapabilityRevision encoded rootPrivateKey;
  Ok (mkSignedRevision revision signature).

Definition next_revision (change : CapabilityChange) (snapshot : CapabilitySnapshot) : CapabilityRevision :=
  let revisionNumber := cs_revision snapshot + 1 in
  mkRevision (cs_groupId snapshot) revisionNumber (cs_revisionDigest snapshot) (cs_rootAdminPublicKey snapshot)
    (with_validFrom revisionNumber <$> ch_grants change) (ch_revocations change) (ch_validationPolicies change)
    (ch_successorRootPublicKey change) (ch_successorCapabilityLogFeed change).

Definition capability_change_record (change : CapabilityChange) (rootPrivateKey : Key) :
    async (TransportRecord * SignedCapabilityRevision) :=
  revision ← sync (g ← look id; of_result (assertCapabilityFeedOwner g) ;; mret (next_revision change (snapshot_of g)));
  signed ← awaiting (sync (of_code (signCapabilityRevision revision rootPrivateKey)));
  payload ← sync (of_code (inner ← encodeSignedCapabilityRevision signed; tag_payload 1 inner));
  record ← publish_record GMcapability payload;
  mret (record, signed).

Definition recovery_change_record (recovery : RecoveryRecord) : async TransportRecord :=
  payload ← sync (of_code (inner ← encodeRecoveryRecord recovery; tag_payload 1 inner));
  publish_record GMrecovery payload.

(** The active readers of a snapshot.  ([hpkePublicKey!]: a reader has one.) *)
Definition active_readers (snapshot : CapabilitySnapshot) : list EffectiveCapability :=
  filter (λ c, bool_decide (g_role (ec_grant c) = reader) && isCapabilityActive c (cs_revision snapshot) = true)
    (map_values (cs_capabilities snapshot)).

Definition recipient_of (c : EffectiveCapability) : EpochRecipient :=
  mkRecipient (g_subjectId (ec_grant c)) (default [] (g_hpkePublicKey (ec_grant c))).

Definition create_epoch (input : EpochInput (Key:=Key)) : SE W ErrorCode CreatedEpoch :=
  createEpochManifest (wc_hmac crypto) (wc_import crypto) (wc_derive crypto) (wc_generate crypto) (wc_encrypt crypto)
    (wc_random crypto) (wc_sign crypto) input.

Definition rotation_input (rootPrivateKey : Key) (contentKey : option bytes) (g : Governance) : EpochInput (Key:=Key) :=
  mkEpochInput (cs_groupId (snapshot_of g)) (lg_currentEpoch (gv_ledger g) + 1) (previous_digest (gv_ledger g))
    (go_now options (gv_world g)) (recipient_of <$> active_readers (snapshot_of g))
    (cs_rootAdminPublicKey (snapshot_of g)) rootPrivateKey contentKey.

Definition epoch_rotation_record (rootPrivateKey : Key) (contentKey : option bytes) :
    async (TransportRecord * SignedEpochManifest) :=
  input ← sync (g ← look id; of_result (assertCapabilityFeedOwner g) ;; mret (rotation_input rootPrivateKey contentKey g));
  created ← service (drawing (create_epoch input));
  sync (write (λ g, set_contentKeys (map_set (ei_epoch input) (ce_contentKey created) (gv_contentKeys g)) g)) ;;
  payload ← sync (of_code (inner ← encodeSignedEpochManifest (ce_signedManifest created); tag_payload 1 inner));
  record ← publish_record GMepochManifest payload;
  mret (record, ce_signedManifest created).

(** The audit reader [grantHistoricalAccess] looks for, and the keys it goes through. *)
Definition audit_reader (subjectId : bytes) (snapshot : CapabilitySnapshot) : option EffectiveCapability :=
  snd <$> list_find (λ c, bool_decide (g_role (ec_grant c) = reader) && bool_decide (g_readerScope (ec_grant c) = Some scope_audit) &&
                       equalBytes (g_subjectId (ec_grant c)) subjectId && isCapabilityActive c (cs_revision snapshot) = true)
    (map_values (cs_capabilities snapshot)).

Definition history_start (subjectId : bytes) : governed (EffectiveCapability * list (Z * bytes)) :=
  g ← look id;
  of_result (assertCapabilityFeedOwner g) ;;
  match audit_reader subjectId (snapshot_of g) with
  | None => throw GOVERNANCE_AUDIT_READER_REQUIRED
  | Some r => mret (r, js_sort (λ a b, if a.1 <? b.1 then -1 else if b.1 <? a.1 then 1 else 0) (gv_contentKeys g))
  end.

Definition history_input (r : EffectiveCapability) (subjectId : bytes) (rootPrivateKey : Key) (epoch : Z) (key : bytes)
    (original : SignedEpochManifest) (g : Governance) : EpochInput (Key:=Key) :=
  mkEpochInput (cs_groupId (snapshot_of g)) epoch (eh_previousEpochDigest (se_manifest original)) (go_now options (gv_world g))
    [mkRecipient subjectId (default [] (g_hpkePublicKey (ec_grant r)))] (cs_rootAdminPublicKey (snapshot_of g)) rootPrivateKey (Some key).

(** One round of the loop: [None] for an epoch without a manifest. *)
Definition history_record (r : EffectiveCapability) (subjectId : bytes) (rootPrivateKey : Key) (entry : Z * bytes) :
    async (option TransportRecord) :=
  found ← sync (look (λ g, (λ original, history_input r subjectId rootPrivateKey entry.1 entry.2 original g) <$>
                             map_get entry.1 (lg_epochManifests (gv_ledger g))));
  match found with
  | None => mret None
  | Some input =>
      created ← service (drawing (create_epoch input));
      payload ← sync (of_code (inner ← encodeSignedEpochManifest (ce_signedManifest created); tag_payload 2 inner));
      record ← publish_record GMepochManifest payload;
      mret (Some record)
  end.

(** The operations themselves, when nothing else runs. *)
Definition publishCapabilityChange (change : CapabilityChange) (rootPrivateKey : Key) : async SignedCapabilityRevision :=
  sent ← capability_change_record change rootPrivateKey; ingest sent.1 ;; mret sent.2.

Definition revoke_capabilities (capabilityIds : list bytes) (rootPrivateKey : Key) : async SignedCapabilityRevision :=
  publishCapabilityChange (mkChange [] capabilityIds [] None None) rootPrivateKey.

Definition publishRecovery (recovery : RecoveryRecord) : async unit :=
  record ← recovery_change_record recovery; ingest record ;; mret tt.

Definition rotateEpoch (rootPrivateKey : Key) (contentKey : option bytes) : async SignedEpochManifest :=
  sent ← epoch_rotation_record rootPrivateKey contentKey; ingest sent.1 ;; mret sent.2.

Fixpoint grant_history (r : EffectiveCapability) (subjectId : bytes) (rootPrivateKey : Key) (entries : list (Z * bytes))
    (published : Z) : async Z :=
  match entries with
  | [] => mret published
  | entry :: entries' =>
      sent ← history_record r subjectId rootPrivateKey entry;
      match sent with
      | None => grant_history r subjectId rootPrivateKey entries' published
      | Some record => ingest record ;; grant_history r subjectId rootPrivateKey entries' (published + 1)
      end
  end.

Definition grantHistoricalAccess (subjectId : bytes) (rootPrivateKey : Key) : async Z :=
  start ← sync (history_start subjectId);
  grant_history start.1 subjectId rootPrivateKey start.2 0.

Definition capabilityIdsForSubject (subjectId : bytes) (g : Governance) : result ErrorCode (list bytes) :=
  mapR (λ c, capabilityId sha256 (ec_grant c))
    (filter (λ c, equalBytes (g_subjectId (ec_grant c)) subjectId && isCapabilityActive c (cs_revision (snapshot_of g)) = true)
      (map_values (cs_capabilities (snapshot_of g)))).
End governance.
