(* ===== verification/GovernanceTheorems.v ===== *)
(** * A running control plane

    The control plane of [Governance] as a system of programs: one record at a time
    is ingested inside the mutex, operations of the administrator run beside it,
    records arrive and the world changes at any time.  In every reachable system
    the membership is the log reduced from genesis and the epochs are an unbroken
    signed chain; what was learnt is never taken back. *)

From Stdlib Require Import Strings.Byte Strings.String.
From stdpp Require Import base list option numbers sets relations.
From S2P Require Import Prelude JsMap Bytes Text JsNumber Cbor Schema Domains Messages CapTypes CapCodec Reducer ReducerProofs FeedForks Hpke Wire Epochs Async Governance.

#[local] Open Scope Z_scope.

Section system.
Context {Key XPrivate XPublic W B E : Type} (crypto : WebCrypto Key XPrivate XPublic W B).
Context (options : GovernanceOptions (Key:=Key) (XPrivate:=XPrivate) (W:=W) (E:=E)).

#[local] Abbreviation Plane := (Governance (W:=W) (B:=B)).
#[local] Abbreviation async := (proc Plane (GovernanceError E)).
#[local] Abbreviation log_step := (log_step (wc_sha256 crypto) (wc_verify crypto)).
#[local] Abbreviation ingest := (ingest crypto options).

(** ** The system *)

(** A task is what is left of an operation: programs that end in a record to
    ingest, if any, each started after the one before it.  One record at a time is inside
    the mutex, which is what its promise chain does ([Async.mutex_is_lock]); the first
    turn of an ingestion may come later than its entering, which allows more
    interleavings than the code has. *)
Record GovSystem := mkGovSystem {
  gs_state : Plane;
  gs_holder : option (async bool);
  gs_queue : list TransportRecord;
  gs_tasks : list (list (async (option TransportRecord)));
}.

Definition sends {A} (p : async (TransportRecord * A)) : list (async (option TransportRecord)) := [sent ← p; mret (Some sent.1)].

Inductive gov_step : GovSystem → GovSystem → Prop :=
| gov_arrive g h q ts record : gov_step (mkGovSystem g h q ts) (mkGovSystem g h (q ++ [record]) ts)
| gov_acquire g record q ts : gov_step (mkGovSystem g None (record :: q) ts) (mkGovSystem g (Some (ingest record)) q ts)
| gov_turn g p q ts : gov_step (mkGovSystem g (Some p) q ts) (mkGovSystem (turn p g).1 (Some (turn p g).2) q ts)
| gov_release g p q ts r : finished p = Some r → gov_step (mkGovSystem g (Some p) q ts) (mkGovSystem g None q ts)
| gov_change g h q ts change key :
    gov_step (mkGovSystem g h q ts) (mkGovSystem g h q (ts ++ [sends (capability_change_record crypto options change key)]))
| gov_recovery g h q ts recovery :
    gov_step (mkGovSystem g h q ts) (mkGovSystem g h q (ts ++ [[record ← recovery_change_record crypto options recovery; mret (Some record)]]))
| gov_rotation g h q ts key contentKey :
    gov_step (mkGovSystem g h q ts) (mkGovSystem g h q (ts ++ [sends (epoch_rotation_record crypto options key contentKey)]))
| gov_history g h q ts subjectId key r entries : history_start options subjectId g = (g, Ok (r, entries)) →
    gov_step (mkGovSystem g h q ts) (mkGovSystem g h q (ts ++ [history_record crypto options r subjectId key <$> entries]))
| gov_task g h q ts1 p rest ts2 :
    gov_step (mkGovSystem g h q (ts1 ++ (p :: rest) :: ts2))
      (mkGovSystem (turn p g).1 h q (ts1 ++ ((turn p g).2 :: rest) :: ts2))
| gov_sent g h q ts1 record rest ts2 :
    gov_step (mkGovSystem g h q (ts1 ++ (Ret (Some record) :: rest) :: ts2)) (mkGovSystem g h (q ++ [record]) (ts1 ++ rest :: ts2))
| gov_skipped g h q ts1 rest ts2 :
    gov_step (mkGovSystem g h q (ts1 ++ (Ret None :: rest) :: ts2)) (mkGovSystem g h q (ts1 ++ rest :: ts2))
| gov_abandoned g h q ts1 task ts2 : gov_step (mkGovSystem g h q (ts1 ++ task :: ts2)) (mkGovSystem g h q (ts1 ++ ts2))
| gov_close g h q ts : gov_step (mkGovSystem g h q ts) (mkGovSystem (set_closed true g) h q ts)
| gov_world g h q ts w : gov_step (mkGovSystem g h q ts) (mkGovSystem (set_world w g) h q ts).

Inductive reachable_gov : GovSystem → Prop :=
| gov_first ring w g : create_governance crypto options ring w = Ok g → reachable_gov (mkGovSystem g None [] [])
| gov_next s s' : reachable_gov s → gov_step s s' → reachable_gov s'.

(** ** The invariant *)

(** A snapshot of the log, between genesis and the current one. *)
Definition on_log (start current v : CapabilitySnapshot) : Prop := rtc log_step start v ∧ rtc log_step v current.

(** The epoch [e] of a ledger: signed by a root of the log and linked to the epoch
    before it by its digest. *)
Record epoch_linked (start : CapabilitySnapshot) (l : Ledger) (e : Z) (signed : SignedEpochManifest) : Prop := {
  el_epoch : eh_epoch (se_manifest signed) = e;
  el_group : eh_groupId (se_manifest signed) = cs_groupId start;
  el_signed : ∃ v, on_log start (lg_snapshot l) v ∧
    verifyEpochManifest (wc_verify crypto) signed (cs_rootAdminPublicKey v) = Ok true;
  el_digest : ∃ encoded d, encodeEpochManifest (se_manifest signed) = Ok encoded ∧
    hashDomain (wc_sha256 crypto) DepochManifest encoded = Ok d ∧ map_get e (lg_epochDigests l) = Some d;
  el_previous : eh_previousEpochDigest (se_manifest signed) = (if e =? 0 then None else map_get (e - 1) (lg_epochDigests l));
}.

Record ledger_inv (l : Ledger) : Prop := {
  li_log : ∃ start, reduceCapabilityLog (wc_sha256 crypto) (wc_verify crypto) (go_genesis options) [] = Ok start ∧
    rtc log_step start (lg_snapshot l) ∧
    (∀ k v, map_get k (lg_snapshots l) = Some v → k = bytesToHex (cs_revisionDigest v) ∧ on_log start (lg_snapshot l) v) ∧
    (∀ e signed, map_get e (lg_epochManifests l) = Some signed → epoch_linked start l e signed);
  li_current : map_get (bytesToHex (cs_revisionDigest (lg_snapshot l))) (lg_snapshots l) = Some (lg_snapshot l);
  li_epoch : -1 ≤ lg_currentEpoch l;
  li_epochs e : is_Some (map_get e (lg_epochManifests l)) ↔ 0 ≤ e ≤ lg_currentEpoch l;
  li_digests e : is_Some (map_get e (lg_epochDigests l)) ↔ 0 ≤ e ≤ lg_currentEpoch l;
}.

(** What a ledger knows, a later one knows. *)
Record extends_ledger (l l' : Ledger) : Prop := {
  xl_log : rtc log_step (lg_snapshot l) (lg_snapshot l');
  xl_epoch : lg_currentEpoch l ≤ lg_currentEpoch l';
  xl_manifests e x : map_get e (lg_epochManifests l) = Some x → map_get e (lg_epochManifests l') = Some x;
  xl_digests e x : map_get e (lg_epochDigests l) = Some x → map_get e (lg_epochDigests l') = Some x;
  xl_snapshots k : is_Some (map_get k (lg_snapshots l)) → is_Some (map_get k (lg_snapshots l'));
}.

#[local] Instance extends_ledger_preorder : PreOrder extends_ledger.
Proof.
  split.
  - intros l. by split.
  - intros l1 l2 l3 [H1 H2 H3 H4 H5] [H6 H7 H8 H9 H10]. split; [by etrans|lia|eauto..].
Qed.

(** Genesis. *)
Lemma ledger_created ring w g : create_governance crypto options ring w = Ok g → ledger_inv (gv_ledger g).
Proof.
  unfold create_governance. intros H. inv_ok. subst. rename x into start.
  split; cbn [gv_ledger rememberSnapshot lg_snapshot lg_snapshots lg_currentEpoch lg_epochManifests lg_epochDigests map_set].
  - exists start. split; [done|]. split; [done|]. split; [|done]. intros k v. cbn [map_get]. case_decide; [|done].
    intros [= <-]. by subst.
  - cbn [map_get]. by rewrite decide_True.
  - done.
  - intros e. cbn. split; [by intros []|lia].
  - intros e. cbn. split; [by intros []|lia].
Qed.

(** A step of the log. *)
Lemma ledger_advances (g : Plane) next : ledger_inv (gv_ledger g) → log_step (snapshot_of g) next →
  ledger_inv (gv_ledger (install_snapshot next g)) ∧ extends_ledger (gv_ledger g) (gv_ledger (install_snapshot next g)).
Proof.
  intros [(start & Hs & Hlog & Hold & Hep) Hc He Hes Hds] Hstep. unfold snapshot_of in Hstep.
  assert (rtc log_step (lg_snapshot (gv_ledger g)) next) as Hn by (by eapply rtc_l).
  assert (∀ v, on_log start (lg_snapshot (gv_ledger g)) v → on_log start next v) as Hon.
  { intros v [H1 H2]. split; [done|by etrans]. }
  split; [split|split]; unfold install_snapshot, set_ledger, rememberSnapshot;
    cbn [gv_ledger lg_snapshot lg_snapshots lg_currentEpoch lg_epochManifests lg_epochDigests]; try done.
  - exists start. split; [done|]. split; [by etrans|]. split.
    + intros k v. rewrite map_get_set. case_decide as Hk; [intros [= <-]; split; [done|]; split; [by etrans|done]|].
      intros Hv. destruct (Hold _ _ Hv). split; [done|by apply Hon].
    + intros e signed Hsg. destruct (Hep _ _ Hsg) as [H1 H2 (v & Hv & H3) H4 H5]. split; try done. exists v.
      split; [by apply Hon|done].
  - by rewrite map_get_set_eq.
  - intros k Hk. rewrite map_get_set. case_decide; [by eexists|done].
Qed.

Lemma nullableBytesEqual_spec a b : nullableBytesEqual a b = true ↔ a = b.
Proof. destruct a, b; simpl; rewrite ?equalBytes_spec; naive_solver. Qed.

(** A further epoch, or one that is known. *)
Lemma ledger_records (g : Plane) signed historical digest encoded : ledger_inv (gv_ledger g) →
  eh_groupId (se_manifest signed) = cs_groupId (snapshot_of g) →
  verifyEpochManifest (wc_verify crypto) signed (cs_rootAdminPublicKey (snapshot_of g)) = Ok true →
  encodeEpochManifest (se_manifest signed) = Ok encoded →
  hashDomain (wc_sha256 crypto) DepochManifest encoded = Ok digest →
  let g' := (record_epoch (E:=E) signed historical digest g).1 in
  ledger_inv (gv_ledger g') ∧ extends_ledger (gv_ledger g) (gv_ledger g').
Proof.
  intros Hinv Hg Hv He Hd. unfold record_epoch.
  destruct historical; cbn [negb]; [destruct (map_has _ _); by split|].
  destruct (negb _ || negb _) eqn:Hc; [by split|]. apply orb_false_iff in Hc as [Hep Hprev].
  rewrite negb_false_iff in Hep, Hprev. apply Z.eqb_eq in Hep. apply nullableBytesEqual_spec in Hprev.
  destruct Hinv as [(start & Hs & Hlog & Hold & Hlinks) Hcur Hle Hms Hds]. cbn zeta. cbn [fst]. rewrite Hep.
  set (l := gv_ledger g) in *. assert (map_get (lg_currentEpoch l + 1) (lg_epochManifests l) = None) as Hfresh.
  { apply eq_None_not_Some. intros H%Hms. lia. }
  assert (map_get (lg_currentEpoch l + 1) (lg_epochDigests l) = None) as Hfresh'.
  { apply eq_None_not_Some. intros H%Hds. lia. }
  assert (∀ e x, e ≠ lg_currentEpoch l + 1 → map_get e (map_set (lg_currentEpoch l + 1) x (lg_epochDigests l)) =
    map_get e (lg_epochDigests l)) as Hsame by (intros; by apply map_get_set_ne).
  split; [split|split]; unfold set_ledger; cbn [gv_ledger lg_snapshot lg_snapshots lg_currentEpoch lg_epochManifests lg_epochDigests];
    try done; try lia.
  - exists start. split; [done|]. split; [done|]. split; [done|]. intros e sg. rewrite map_get_set. case_decide as He1.
    + intros [= <-]. subst e. split; cbn [lg_snapshot lg_epochDigests]; [done| | | |].
      * rewrite Hg. unfold snapshot_of. apply log_steps_evolve in Hlog as (_ & _ & Hgr & _). exact Hgr.
      * exists (snapshot_of g). split; [split; [done|apply rtc_refl]|done].
      * exists encoded, digest. split; [done|]. split; [done|]. apply map_get_set_eq.
      * rewrite Hprev. unfold previous_digest. fold l. destruct (Z.ltb_spec (lg_currentEpoch l) 0) as [Hneg|Hpos].
        -- by rewrite (proj2 (Z.eqb_eq _ _)) by lia.
        -- rewrite (proj2 (Z.eqb_neq _ _)), Hsame by lia. f_equal. lia.
    + intros Hsg. assert (0 ≤ e ≤ lg_currentEpoch l) as Hr by (by apply Hms; eexists).
      destruct (Hlinks _ _ Hsg) as [H1 H2 H3 (en & d & H4 & H5 & H6) H7].
      split; cbn [lg_snapshot lg_epochDigests]; [done|done|done| |].
      * exists en, d. split; [done|]. split; [done|]. by rewrite Hsame.
      * rewrite H7. destruct (e =? 0); [done|]. rewrite Hsame by lia. done.
  - intros e. rewrite map_get_set. case_decide; [split; [lia|by eexists]|]. rewrite Hms. lia.
  - intros e. rewrite map_get_set. case_decide; [split; [lia|by eexists]|]. rewrite Hds. lia.
  - intros e x Hx. rewrite map_get_set. case_decide; [congruence|done].
  - intros e x Hx. rewrite map_get_set. case_decide; [congruence|done].
Qed.

(** ** The programs *)

(** What the programs beside the mutex may do to the state. *)
#[local] Abbreviation keys_kept g g' := (∀ e, is_Some (map_get e (gv_contentKeys g)) → is_Some (map_get e (gv_contentKeys g'))).
Definition keeps (g g' : Plane) : Prop := gv_ledger g' = gv_ledger g ∧ gv_seen g' = gv_seen g ∧ keys_kept g g'.

(** What the holder of the mutex does to it. *)
Definition grows (g g' : Plane) : Prop :=
  ledger_inv (gv_ledger g) → ledger_inv (gv_ledger g') ∧ extends_ledger (gv_ledger g) (gv_ledger g') ∧
    (∀ id, set_has id (gv_seen g) = true → set_has id (gv_seen g') = true) ∧ keys_kept g g'.

#[local] Instance keeps_preorder : PreOrder keeps.
Proof.
  split; [by intros g; split_and!|]. intros g1 g2 g3 (H1 & H2 & H3) (H4 & H5 & H6). split_and!; [congruence..|]. intros e He. by apply H6, H3.
Qed.
#[local] Instance grows_preorder : PreOrder grows.
Proof.
  split; [by intros g Hg|]. intros g1 g2 g3 H12 H23 Hi. destruct (H12 Hi) as (Hi2 & Hx & Hs & Hk).
  destruct (H23 Hi2) as (Hi3 & Hx' & Hs' & Hk'). split_and!; [done|by etrans|eauto|]. intros e He. by apply Hk', Hk.
Qed.

Lemma keeps_grows g g' : keeps g g' → grows g g'.
Proof. intros (Hl & Hs & Hk) Hi. rewrite Hl, Hs. by split_and!. Qed.

Lemma keeps_set_key e key (g : Plane) : keeps g (set_contentKeys (map_set e key (gv_contentKeys g)) g).
Proof.
  split_and!; [done|done|]. intros e' He. cbn [set_contentKeys gv_contentKeys]. rewrite map_get_set. case_decide; [by eexists|done].
Qed.

#[local] Abbreviation holds := (rg keeps grows).
#[local] Abbreviation quiet p := (∀ g, rg (λ _ _ : Plane, True) keeps p (λ _ _, True) g).

(** The programs of an administrator only touch the keys, the ring and the world. *)
Lemma quiet_bind {A C} (p : async A) (f : A → async C) : quiet p → (∀ a, quiet (f a)) → quiet (p ≫= f).
Proof.
  intros Hp Hf g. apply rg_bind. eapply rg_mono; [|apply Hp]. intros [a|e] g' _; [apply Hf|done].
Qed.
Lemma quiet_ret {A} (a : A) : quiet (mret a : async A).
Proof. done. Qed.
Lemma quiet_sync {A} (m : SE Plane (GovernanceError E) A) : (∀ g, keeps g (m g).1) → quiet (sync m).
Proof. intros Hm g. by apply rg_sync. Qed.
Lemma quiet_awaiting {A} (p : async A) : quiet p → quiet (awaiting p).
Proof. intros Hp g. apply rg_awaiting. eapply rg_mono; [|apply Hp]. done. Qed.
Lemma quiet_service {A} (m : SE Plane (GovernanceError E) A) : (∀ g, keeps g (m g).1) → quiet (service m).
Proof. intros Hm g. apply rg_service. auto. Qed.

Lemma keeps_pure {A} (f : Plane → result (GovernanceError E) A) g : keeps g ((λ g, (g, f g)) g).1.
Proof. by split. Qed.
Lemma keeps_outside {A} (m : W → W * result E A) g : keeps g (outside (B:=B) m g).1.
Proof. unfold outside. by destruct (m _). Qed.
Lemma keeps_drawing {A} (m : SE W ErrorCode A) g : keeps g (drawing (B:=B) (E:=E) m g).1.
Proof. unfold drawing. by destruct (m _). Qed.

Ltac quiet :=
  repeat first
    [ apply quiet_bind; [|intros ?] | apply quiet_ret | apply quiet_awaiting
    | apply quiet_service; intros ?; first [apply keeps_outside | apply keeps_drawing]
    | apply quiet_sync; intros ?; first [by split | apply keeps_set_key | apply keeps_pure] ].

Lemma owner_read {A} (f : Plane → A) (g : Plane) :
  keeps g ((g0 ← look id; of_result (assertCapabilityFeedOwner options g0) ;; mret (f g0)) g).1.
Proof. unfold mbind, SE_bind, mret, SE_ret, look, of_result. cbn. by destruct (assertCapabilityFeedOwner options g). Qed.

Lemma change_quiet change key : quiet (capability_change_record crypto options change key).
Proof.
  unfold capability_change_record. apply quiet_bind; [apply quiet_sync; apply owner_read|intros ?]. quiet.
Qed.

Lemma recovery_quiet recovery : quiet (recovery_change_record crypto options recovery).
Proof. unfold recovery_change_record. quiet. Qed.

Lemma rotation_quiet key contentKey : quiet (epoch_rotation_record crypto options key contentKey).
Proof.
  unfold epoch_rotation_record. apply quiet_bind; [apply quiet_sync; apply owner_read|intros ?]. quiet.
Qed.

Lemma history_quiet r subjectId key entry : quiet (history_record crypto options r subjectId key entry).
Proof.
  unfold history_record. apply quiet_bind; [apply quiet_sync; intros ?; by split|]. intros [input|]; quiet.
Qed.

(** Inside the mutex: steps that leave the ledger alone. *)
Lemma holds_keeps {A} (p : async A) Q g : (∀ r g', Q r g') → quiet p → holds p Q g.
Proof.
  intros HQ Hp. specialize (Hp g). revert g Hp.
  induction p as [a|e|f IH|q IH] using proc_nested_ind; intros g; cbn; [by auto..| |].
  - specialize (IH g). destruct (f g) as [g' q]. intros [Hk H]. split; [by apply keeps_grows|by apply IH].
  - intros H g' _. by apply IH, H.
Qed.

Lemma grows_install g next g' : log_step (snapshot_of g) next → gv_ledger g' = gv_ledger (install_snapshot next g) →
  gv_seen g' = gv_seen g → keys_kept g g' → grows g g'.
Proof. intros Hs Hl Hsn Hk Hi. rewrite Hl, Hsn. destruct (ledger_advances g next Hi Hs). by split_and!. Qed.

Lemma emit_keeps t id epoch (g : Plane) : keeps g (emit (E:=E) t id epoch g).1.
Proof. unfold emit. by destruct (gv_closed g). Qed.

Lemma tell_keeps recovery snapshot (g : Plane) : keeps g (tell_reopened options recovery snapshot g).1.
Proof.
  unfold tell_reopened. destruct (ry_reopenHistory _); [|by split].
  destruct (go_onHistoryReopened options); [apply keeps_outside|by split].
Qed.

(** The synchronous end of an ingestion that moves the log. *)
Lemma installed_grows {A} next (m : SE Plane (GovernanceError E) A) g : log_step (snapshot_of g) next →
  (∀ g', keeps g' (m g').1) → grows g ((write (install_snapshot next) ;; m) g).1.
Proof.
  intros Hs Hm. unfold mbind, SE_bind, write. destruct (Hm (install_snapshot next g)) as (Hl & Hn & Hk).
  by apply (grows_install g next).
Qed.

Lemma holds_then {A C} (m : SE Plane (GovernanceError E) A) (f : A → async C) g :
  (m g).1 = g → (∀ a, (m g).2 = Ok a → holds (f a) (λ _ _, True) g) → holds (sync m ≫= f) (λ _ _, True) g.
Proof.
  intros Hm Hf. apply rg_bind, rg_sync; [by rewrite Hm|]. destruct (m g) as [g' [a|e]]; simpl in *; subst; [by apply Hf|done].
Qed.

Lemma holds_after {A C} (m : SE Plane (GovernanceError E) A) (f : A → async C) g :
  (m g).1 = g → (∀ a g', (m g).2 = Ok a → keeps g g' → holds (f a) (λ _ _, True) g') →
  holds (awaiting (sync m) ≫= f) (λ _ _, True) g.
Proof.
  intros Hm Hf. apply rg_bind, rg_awaiting, rg_sync; [by rewrite Hm|].
  destruct (m g) as [g' [a|e]]; simpl in *; subst; [|done]. intros g2 Hk. by apply Hf.
Qed.

Lemma holds_pause {C} (f : unit → async C) g :
  (∀ g', holds (f tt) (λ _ _, True) g') → holds (awaiting (mret tt) ≫= f) (λ _ _, True) g.
Proof. intros Hf. apply rg_bind, rg_awaiting. intros g' _. apply Hf. Qed.

Lemma of_code_Ok {A} (r : result ErrorCode A) (g : Plane) a : (of_code (E:=E) r g).2 = Ok a → r = Ok a.
Proof. unfold of_code. simpl. destruct r; congruence. Qed.

Lemma capability_holds inner id g : holds (ingestCapability (E:=E) crypto inner id) (λ _ _, True) g.
Proof.
  unfold ingestCapability. apply holds_then; [done|]. intros signed _. apply holds_then; [done|]. intros current [= <-].
  apply holds_after; [done|]. intros next g' Hn%of_code_Ok [Hl _]. apply rg_sync; [|done].
  apply installed_grows; [|apply emit_keeps]. apply step_revision with signed. unfold snapshot_of in *. by rewrite Hl.
Qed.

Lemma recovery_holds inner id g : holds (ingestRecovery crypto options inner id) (λ _ _, True) g.
Proof.
  unfold ingestRecovery. apply holds_then; [done|]. intros recovery _. apply holds_then; [done|]. intros current [= <-].
  apply holds_after; [done|]. intros next g' Hn%of_code_Ok [Hl _]. apply rg_sync; [|done].
  apply installed_grows; [apply step_recovery with recovery; unfold snapshot_of in *; by rewrite Hl|].
  intros g2. unfold mbind, SE_bind. pose proof (tell_keeps recovery next g2) as Ht.
  destruct (tell_reopened options recovery next g2) as [g3 [[]|e]]; [|done]. etrans; [exact Ht|apply emit_keeps].
Qed.

Lemma take_key_quiet signed historical : quiet (take_key crypto options signed historical).
Proof.
  unfold take_key. destruct (go_recipient options) as [recipient|]; [|apply quiet_ret].
  intros g. apply rg_catch. eapply rg_mono; [intros r g' _; by destruct r|].
  apply quiet_bind; [quiet|intros signer]. apply quiet_bind; [quiet|intros key]. apply quiet_sync. intros g'.
  unfold mbind, SE_bind, write, install_key.
  destruct (keeps_set_key (eh_epoch (se_manifest signed)) key g') as (H1 & H2 & H3).
  by destruct (install _ _ _ _ _ _ _).
Qed.

Lemma epoch_holds signed historical id g : holds (ingestEpoch crypto options signed historical id) (λ _ _, True) g.
Proof.
  unfold ingestEpoch. apply holds_then; [done|]. intros snapshot [= <-]. apply holds_then; [done|].
  intros ? Hg. unfold of_result in Hg. cbn [snd] in Hg. apply ensure_Ok, equalBytes_spec in Hg.
  apply holds_after; [done|]. intros verified g1 Hv%of_code_Ok [Hl1 _]. apply holds_then; [done|].
  intros ? Hok. unfold of_result in Hok. cbn [snd] in Hok. apply ensure_Ok in Hok. subst verified.
  apply holds_after; [done|]. intros digest g2 Hd%of_code_Ok [Hl2 _]. inv_ok. rename x into encoded.
  apply rg_bind, rg_sync.
  - intros Hi. unfold snapshot_of in *. rewrite <-Hl1, <-Hl2 in Hg, Hv.
    edestruct (ledger_records g2 signed historical digest encoded) as [H1 H2]; [done..|]. split_and!; [done|done|..];
      unfold record_epoch; intros k Hk; repeat case_match; done.
  - destruct (record_epoch signed historical digest g2).2; [|done]. apply holds_keeps; [done|].
    apply quiet_bind; [apply take_key_quiet|intros ?]. apply quiet_sync, emit_keeps.
Qed.

Lemma seen_grows (g : Plane) id : grows g (set_seen (set_add id (gv_seen g)) g).
Proof.
  intros Hi. split_and!; [done|done| |done]. intros k. unfold set_has, set_add, set_seen. cbn [gv_seen].
  rewrite !map_has_true, map_get_set. case_decide; [by eexists|done].
Qed.

Lemma ingest_holds record g : holds (ingest record) (λ _ _, True) g.
Proof.
  unfold Governance.ingest. apply holds_then; [done|]. intros seen _. destruct seen; [done|].
  destruct (decodeGovernanceEnvelope _ _ _) as [[t payload]|]; [|done].
  apply holds_pause. intros g1. apply holds_then; [done|]. intros feed _. apply holds_then; [done|].
  intros ? _. apply holds_then; [done|]. intros tagged _.
  assert (∀ g, holds (sync (write (E:=E) (λ g, set_seen (set_add (tr_id record) (gv_seen g)) g)) ≫= λ _, mret true) (λ _ _, True) g) as Hseen.
  { intros g2. apply rg_bind, rg_sync; [apply seen_grows|done]. }
  apply rg_bind. eapply rg_mono; [intros [?|?] g2 _; [apply Hseen|done]|].
  destruct t; [apply capability_holds|apply recovery_holds|].
  apply holds_then; [done|]. intros signed _. apply epoch_holds.
Qed.

(** ** Reachable systems *)

Record gov_inv (s : GovSystem) : Prop := {
  gv_ok : ledger_inv (gv_ledger (gs_state s));
  gv_holder p : gs_holder s = Some p → resumable keeps grows p (λ _ _, True) (gs_state s);
  gv_tasks : Forall (Forall (λ p, quiet p)) (gs_tasks s);
}.

Definition advances (s s' : GovSystem) : Prop := grows (gs_state s) (gs_state s').

(** A state that others left the ledger of alone. *)
Lemma holder_later (g g' : Plane) h : keeps g g' →
  (∀ p : async bool, h = Some p → resumable keeps grows p (λ _ _, True) g) →
  (∀ p : async bool, h = Some p → resumable keeps grows p (λ _ _, True) g').
Proof. intros Hk Hh p Hp g2 H2. apply (Hh p Hp). by etrans. Qed.

Lemma quiet_turn {A} (p : async A) g : quiet p → keeps g (turn p g).1 ∧ quiet (turn p g).2.
Proof.
  intros Hp. destruct (rg_turn (λ _ _ : Plane, True) keeps p (λ _ _, True) g) as [H1 H2];
    [apply reflexivity|apply keeps_preorder|done|apply Hp|]. split; [done|]. intros g'. by apply H2.
Qed.

Lemma inv_quiet g g' h q ts q' ts' : keeps g g' → gov_inv (mkGovSystem g h q ts) → Forall (Forall (λ p, quiet p)) ts' →
  gov_inv (mkGovSystem g' h q' ts') ∧ advances (mkGovSystem g h q ts) (mkGovSystem g' h q' ts').
Proof.
  intros Hk [Hi Hh Ht] Ht'. cbn [gs_state gs_holder gs_tasks] in *. split; [split|by apply keeps_grows]; cbn [gs_state gs_holder gs_tasks].
  - destruct Hk as [Hl _]. by rewrite Hl.
  - by eapply holder_later.
  - done.
Qed.

Lemma step_advances s s' : gov_step s s' → gov_inv s → gov_inv s' ∧ advances s s'.
Proof.
  destruct 1; intros Hinv; pose proof (gv_tasks _ Hinv) as Hts; cbn [gs_tasks] in Hts.
  - by eapply inv_quiet.
  - split; [|done]. destruct Hinv as [Hi _ Ht]. split; [done| |done]. intros p [= <-] g' _. apply ingest_holds.
  - destruct Hinv as [Hi Hh Ht]. cbn [gs_state gs_holder gs_tasks] in *.
    destruct (rg_turn keeps grows p (λ _ _, True) g) as [Hg Hr]; [apply reflexivity|apply grows_preorder|done|by apply (Hh p)|].
    split; [|exact Hg]. split; [by apply Hg| |done]. by intros p' [= <-].
  - split; [|done]. destruct Hinv as [Hi Hh Ht]. by split.
  - eapply inv_quiet; [done|done|]. apply Forall_app. split; [done|]. apply Forall_singleton, Forall_singleton.
    apply quiet_bind; [apply change_quiet|]. intros ?. apply quiet_ret.
  - eapply inv_quiet; [done|done|]. apply Forall_app. split; [done|]. apply Forall_singleton, Forall_singleton.
    apply quiet_bind; [apply recovery_quiet|]. intros ?. apply quiet_ret.
  - eapply inv_quiet; [done|done|]. apply Forall_app. split; [done|]. apply Forall_singleton, Forall_singleton.
    apply quiet_bind; [apply rotation_quiet|]. intros ?. apply quiet_ret.
  - eapply inv_quiet; [done|done|]. apply Forall_app. split; [done|]. constructor; [|done].
    apply Forall_fmap, Forall_true. intros entry. intros g0. apply history_quiet.
  - apply Forall_app in Hts as [H1 H2]. apply Forall_cons in H2 as [H2 H3]. apply Forall_cons in H2 as [Hp Hrest].
    destruct (quiet_turn p g Hp) as [Hk Hq]. eapply inv_quiet; [done|done|]. apply Forall_app. split; [done|].
    constructor; [by constructor|done].
  - apply Forall_app in Hts as [H1 H2]. apply Forall_cons in H2 as [H2 H3]. apply Forall_cons in H2 as [_ Hrest].
    eapply inv_quiet; [done|done|]. apply Forall_app. split; [done|]. by constructor.
  - apply Forall_app in Hts as [H1 H2]. apply Forall_cons in H2 as [H2 H3]. apply Forall_cons in H2 as [_ Hrest].
    eapply inv_quiet; [done|done|]. apply Forall_app. split; [done|]. by constructor.
  - apply Forall_app in Hts as [H1 H2]. apply Forall_cons in H2 as [_ H3].
    eapply inv_quiet; [done|done|]. by apply Forall_app.
  - by eapply inv_quiet.
  - by eapply inv_quiet.
Qed.

Lemma reachable_gov_inv s : reachable_gov s → gov_inv s.
Proof.
  induction 1 as [ring w g Hg|s s' _ IH Hstep]; [|by eapply step_advances].
  split; [by eapply ledger_created|done|done].
Qed.

Lemma steps_advance s s' : rtc gov_step s s' → gov_inv s → gov_inv s' ∧ advances s s'.
Proof.
  induction 1 as [s|s1 s2 s3 H12 _ IH]; [by split|]. intros Hi. destruct (step_advances _ _ H12 Hi) as [Hi2 Ha].
  destruct (IH Hi2) as [Hi3 Ha']. split; [done|]. unfold advances in *. by etrans.
Qed.

(** C15: governance is an append-only log under every interleaving.  In every
    reachable system of a control plane, with records arriving in any order and any
    number of them invalid, operations of the administrator interleaved with
    ingestions, callbacks that fail, and the plane closed at any time: the
    membership is the one reduced from the genesis of the group by accepted
    revisions and recoveries; every remembered snapshot is a point of that log,
    filed under its digest; the known epochs are those from 0 to the current one,
    each signed by a root of that log and linked to the epoch before it by its
    digest.  And what it knows it keeps: a later system has a longer log, still
    answers every digest that it answered with a snapshot, has the same manifest and the
    same digest for every epoch that was known, has seen every record that was, and has
    a content key for every epoch it had one for.  That key need not be the same: it is
    replaced when a rotation overtakes another ([rotation_replaces_key]). *)
Theorem governance_log_grows s s' : reachable_gov s → rtc gov_step s s' →
  let l := gv_ledger (gs_state s) in let l' := gv_ledger (gs_state s') in
  ledger_inv l ∧ ledger_inv l' ∧ extends_ledger l l' ∧
  (∀ id, set_has id (gv_seen (gs_state s)) = true → set_has id (gv_seen (gs_state s')) = true) ∧
  ∀ e, is_Some (map_get e (gv_contentKeys (gs_state s))) → is_Some (map_get e (gv_contentKeys (gs_state s'))).
Proof.
  intros Hr Hs. cbv zeta. apply reachable_gov_inv in Hr as Hi. destruct (steps_advance _ _ Hs Hi) as [Hi' Ha].
  destruct (Ha (gv_ok _ Hi)) as (H1 & H2 & H3 & H4). split_and!; [apply (gv_ok _ Hi)|done..].
Qed.
End system.
