(* ===== verification/GovernanceDelivery.v ===== *)
(** * Keys reach the readers

    The rotation of an epoch, from the administrator to a reader: the content key is
    sealed for the active readers, signed, wrapped into an envelope, published,
    ingested elsewhere and installed in the ring of ciphers there. *)

From Stdlib Require Import Strings.Byte Strings.String.
From stdpp Require Import base list option numbers sets relations.
From S2P Require Import Prelude JsMap Bytes Text JsNumber Cbor CborProofs CborTheorems Schema Domains Messages CapTypes CapCodec Reducer ReducerProofs FeedForks Entropy Hpke Wire WireTheorems Epochs EpochTheorems Async Governance.

#[local] Open Scope Z_scope.

Section delivery.
Context {Key XPrivate XPublic W B E : Type} (crypto : WebCrypto Key XPrivate XPublic W B).
Context (x25519_public : XPrivate → bytes).

(** What the primitives promise. *)
Record WebCryptoLaws : Prop := {
  wl_digest b : length (wc_sha256 crypto b) = 32%nat;
  wl_hmac key message : length (wc_hmac crypto key message) = 32%nat;
  wl_x25519 : X25519Laws (wc_import crypto) (wc_derive crypto) (wc_generate crypto) x25519_public;
  wl_aes key nonce ad pt : wc_decrypt crypto key nonce ad (wc_encrypt crypto key nonce ad pt) = Some pt;
}.

Context (laws : WebCryptoLaws).

#[local] Abbreviation Plane := (Governance (W:=W) (B:=B)).
#[local] Abbreviation key_pair := (key_pair_law (wc_verify crypto) (wc_sign crypto)).

(** ** Envelopes *)

Lemma encode_uint z : 0 ≤ z ≤ MAX_UINT64 → ∃ b, encodeCanonicalCbor (CInt z) = Ok b.
Proof.
  intros Hz. cbn [encodeCanonicalCbor]. unfold encodeBigint. rewrite (proj2 (Z.ltb_ge z 0)), (proj2 (Z.leb_le z MAX_UINT64)) by lia.
  unfold encodeHead, canonicalInvariant. rewrite (proj2 (Z.leb_le 0 z)), (proj2 (Z.leb_le z MAX_UINT64)) by lia.
  cbn [andb ensure mbind result_bind]. repeat case_match; by eexists.
Qed.

Lemma tag_read tag inner b : 0 ≤ tag ≤ MAX_UINT64 → tag_payload tag inner = Ok b →
  zlen b ≤ maxBytes DEFAULT_DECODE_LIMITS → tagged_payload (E:=E) b = Ok (tag, inner).
Proof.
  intros Ht Hb Hlen. unfold tagged_payload. unfold tag_payload in Hb. erewrite flat_array_read; [|..|exact Hb|done].
  - done.
  - cbn [forallb flat andb]. by rewrite small_uint.
  - done.
Qed.

(** The parts of an envelope are within it. *)
Lemma inline_within e wire b : env_payload e = inline wire → encodeEnvelope e = Ok b → zlen wire ≤ zlen b.
Proof.
  intros Hp. unfold encodeEnvelope, payloadToCbor. rewrite Hp. intros H. inv_ok. subst.
  match type of H with encodeCanonicalCbor (CMap ?m) = _ =>
    destruct (encode_map_item m b (KInt 5) (CArray [CInt 0; CBytes wire]) H) as [_ (vb & Hvb & Hle)] end.
  - apply map_get_Some_elem, integerMap_get; [literal_nodup|find_field].
  - etrans; [|exact Hle]. eapply flat_array_item; [exact Hvb|]. right. left.
Qed.

Lemma envelope_travels route t payload signer b : key_pair signer →
  encodeGovernanceEnvelope crypto route t payload signer = Ok b → zlen b ≤ maxBytes DEFAULT_DECODE_LIMITS →
  decodeGovernanceEnvelope (E:=E) crypto b route = Ok (t, payload) ∧ zlen payload ≤ maxBytes DEFAULT_DECODE_LIMITS.
Proof.
  intros Hk H Hlen. unfold encodeGovernanceEnvelope in H. apply bind_Ok in H as (signature & Hs & H).
  apply bind_Ok in H as (wire & Hw & H). apply bind_Ok in H as (digest & Hd & H).
  destruct (signDomain_verifies _ _ _ _ _ _ Hk Hs) as [Hsl Hv].
  assert (zlen wire ≤ zlen b) as Hwl by (by eapply inline_within; [|exact H]). pose proof (hashDomain_length _ (wl_digest laws) _ _ _ Hd) as Hdl.
  assert (zlen payload ≤ zlen wire) by (eapply flat_array_item; [exact Hw|right; left]). split; [|lia].
  unfold decodeGovernanceEnvelope. match type of H with encodeEnvelope ?e = _ => rewrite (envelope_read_back b e Hlen) by done end.
  cbn [gov_coded mbind result_bind env_messageType env_payload].
  assert (governance_of (governance_type t) = Some t) as -> by (by destruct t).
  cbn [env_groupRoute env_encryptionEpoch env_payloadDigest]. rewrite (proj2 (equalBytes_spec route route) eq_refl), bool_decide_eq_true_2 by done.
  cbn [andb ensure mbind result_bind]. rewrite Hd. cbn [gov_coded mbind result_bind].
  rewrite (proj2 (equalBytes_spec digest digest) eq_refl). cbn [ensure mbind result_bind].
  erewrite flat_array_read; [|..|exact Hw|lia]; [|done|done]. cbn [gov_coded mbind result_bind].
  rewrite Z.eqb_refl. cbn [ensure mbind result_bind]. by rewrite Hv.
Qed.

(** ** The administrator *)

(** Runs the next step of a program and keeps the case in which it returned. *)
Lemma run_returned {A C} (p : proc Plane (GovernanceError E) A) (f : A → proc Plane (GovernanceError E) C) g g' c :
  run (p ≫= f) g = (g', Ok c) → ∃ s a, run p g = (s, Ok a) ∧ run (f a) s = (g', Ok c).
Proof. rewrite run_bind. destruct (run p g) as [s [a|e]]; [|done]. by exists s, a. Qed.

Ltac run_next H :=
  let s := fresh "s" in let a := fresh "a" in let Hr := fresh "Hr" in
  apply run_returned in H as (s & a & Hr & H); rewrite ?run_awaiting, ?run_service, ?run_sync in Hr.

Lemma run_then {A C} (p : proc Plane (GovernanceError E) A) (h : A → proc Plane (GovernanceError E) C) g s a : run p g = (s, Ok a) → run (p ≫= h) g = run (h a) s.
Proof. intros Hp. by rewrite run_bind, Hp. Qed.

Ltac run_step := erewrite run_then; [|rewrite ?run_awaiting, ?run_sync; first [reflexivity | eassumption]]; cbn beta.

Section administrator.
Context (options : GovernanceOptions (Key:=Key) (XPrivate:=XPrivate) (W:=W) (E:=E)).

Lemma owner_checked {A} (f : Plane → A) g s a :
  (g0 ← look id; of_result (assertCapabilityFeedOwner options g0) ;; mret (f g0)) g = (s, Ok a) →
  s = g ∧ a = f g ∧ assertCapabilityFeedOwner options g = Ok tt.
Proof.
  unfold mbind, SE_bind, mret, SE_ret, look, of_result. cbn.
  destruct (assertCapabilityFeedOwner options g) as [[]|]; [|done]. by intros [= <- <-].
Qed.

Lemma of_code_run {A} (r : result ErrorCode A) (g s : Plane) a : of_code (E:=E) r g = (s, Ok a) → s = g ∧ r = Ok a.
Proof. unfold of_code. destruct r; [|done]. by intros [= <- <-]. Qed.

Lemma rotation_sent key contentKey g g' record signed :
  run (epoch_rotation_record crypto options key contentKey) g = (g', Ok (record, signed)) →
  let input := rotation_input options key contentKey g in
  ∃ w1 created inner payload envelope ts w2,
    assertCapabilityFeedOwner options g = Ok tt ∧ create_epoch crypto input (gv_world g) = (w1, Ok created) ∧
    signed = ce_signedManifest created ∧ encodeSignedEpochManifest signed = Ok inner ∧ tag_payload 1 inner = Ok payload ∧
    encodeGovernanceEnvelope crypto (go_groupRoute options) GMepochManifest payload (go_identity options) = Ok envelope ∧
    go_publish options envelope ts w1 = (w2, Ok record) ∧
    map_get (ei_epoch input) (gv_contentKeys g') = Some (ce_contentKey created).
Proof.
  unfold epoch_rotation_record, publish_record. intros H. run_next H. apply owner_checked in Hr as (-> & -> & Ho).
  run_next H. unfold drawing in Hr. destruct (create_epoch _ _ _) as [w1 [created|]] eqn:Hc; [|done]. injection Hr as <- <-.
  run_next H. injection Hr as <- <-. run_next H. apply of_code_run in Hr as [-> Hp]. apply bind_Ok in Hp as (inner & Hi & Hp).
  apply run_returned in H as (s3 & rec & Hpub & H). cbn in H. injection H as <- <- <-.
  run_next Hpub. apply of_code_run in Hr as [-> He]. run_next Hpub. injection Hr as <- <-.
  rewrite run_service in Hpub. unfold outside in Hpub.
  match type of Hpub with context [go_publish ?o ?e ?t ?w] => destruct (go_publish o e t w) as [w2 [r|]] eqn:Hsent end; [|done].
  injection Hpub as <- <-. do 7 eexists. split_and!; try done. cbn [set_world gv_contentKeys set_contentKeys]. apply map_get_set_eq.
Qed.
End administrator.

(** ** A follower *)

Section follower.
Context (options : GovernanceOptions (Key:=Key) (XPrivate:=XPrivate) (W:=W) (E:=E)).

(** The record of a new epoch, ingested. *)
Record epoch_accepted (f : Plane) (record : TransportRecord) (signed : SignedEpochManifest) (digest : bytes) : Prop := {
  ea_new : set_has (tr_id record) (gv_seen f) = false;
  ea_open : gv_closed f = false;
  ea_author : tr_author record = feedAuthor (cs_capabilityLogFeed (snapshot_of f));
  ea_payload : ∃ payload inner, decodeGovernanceEnvelope (E:=E) crypto (tr_payload record) (go_groupRoute options) = Ok (GMepochManifest, payload) ∧
    tagged_payload (E:=E) payload = Ok (1, inner) ∧ decodeSignedEpochManifest inner = Ok signed;
  ea_group : eh_groupId (se_manifest signed) = cs_groupId (snapshot_of f);
  ea_verified : verifyEpochManifest (wc_verify crypto) signed (cs_rootAdminPublicKey (snapshot_of f)) = Ok true;
  ea_digest : ∃ encoded, encodeEpochManifest (se_manifest signed) = Ok encoded ∧ hashDomain (wc_sha256 crypto) DepochManifest encoded = Ok digest;
}.

Lemma epoch_ingested f record signed digest f1 f2 : epoch_accepted f record signed digest →
  record_epoch (E:=E) signed false digest f = (f1, Ok tt) → run (take_key crypto options signed false) f1 = (f2, Ok tt) →
  gv_closed f2 = false →
  ∃ f', run (ingest crypto options record) f = (f', Ok true) ∧ gv_ledger f' = gv_ledger f2 ∧
    gv_contentKeys f' = gv_contentKeys f2 ∧ gv_cipherRing f' = gv_cipherRing f2 ∧ set_has (tr_id record) (gv_seen f') = true.
Proof.
  intros [Hn Ho Ha (payload & inner & Henv & Htag & Hdec) Hg Hv (encoded & He & Hd)] Hr Hk Hc.
  set (emitted := (emit (E:=E) epoch_rotated (tr_id record) (Some (eh_epoch (se_manifest signed))) f2).1).
  exists (set_seen (set_add (tr_id record) (gv_seen emitted)) emitted). split; [|].
  - unfold ingest. run_step. rewrite Hn. rewrite Henv. run_step. run_step.
    rewrite Ha, (bool_decide_eq_true_2 _ eq_refl), orb_true_r. run_step.
    erewrite run_then by (rewrite run_sync; unfold of_result; rewrite Htag; reflexivity). cbn beta.
    erewrite run_then; [reflexivity|]. erewrite run_then by (rewrite run_sync; unfold of_code; cbn [snd]; rewrite Hdec; reflexivity).
    cbn beta. unfold ingestEpoch. run_step. rewrite Hg, (proj2 (equalBytes_spec _ _) eq_refl). run_step.
    erewrite run_then by (rewrite run_awaiting, run_sync; unfold of_code; rewrite Hv; reflexivity). cbn beta. run_step.
    erewrite run_then by (rewrite run_awaiting, run_sync, He; unfold of_code; cbn [mbind result_bind]; rewrite Hd; reflexivity). cbn beta.
    erewrite run_then by (rewrite run_sync; exact Hr). cbn beta. erewrite run_then by exact Hk. cbn beta.
    rewrite run_sync. unfold emitted, emit. by rewrite Hc.
  - unfold emitted, emit. rewrite Hc. cbn [fst]. split_and!; try done. cbn [set_seen gv_seen]. unfold set_has, set_add.
    by rewrite map_has_true, map_get_set_eq.
Qed.

(** The ring serves the epoch with the key, as its current one; a cipher the ring had
    for the epoch before is kept. *)
Definition serves (ring : EpochCipherRing (S:=B)) (before : EpochCipherRing (S:=B)) (epoch : Z) (key : bytes) : Prop :=
  ∃ id cipher, encodeCanonicalCbor (CInt epoch) = Ok id ∧ ring_currentKey ring = Some (epochKey id) ∧
    ring_current ring = Ok cipher ∧
    (ring_resolve id before = None →
     createEpochEnvelopeCipher (wc_encrypt crypto) (wc_decrypt crypto) (wc_cipherRandom crypto) key epoch = Ok cipher).

Lemma install_serves key epoch before : length key = 32%nat → 0 ≤ epoch ≤ MAX_UINT64 →
  ∃ ring c, install (wc_encrypt crypto) (wc_decrypt crypto) (wc_cipherRandom crypto) key epoch true before = (ring, Ok c) ∧
    serves ring before epoch key.
Proof.
  intros Hk He. unfold install. destruct (createEpochEnvelopeCipher _ _ _ key epoch) as [cipher|] eqn:Hc.
  - pose proof Hc as Hc'. unfold createEpochEnvelopeCipher in Hc'. inv_ok. subst cipher. cbn [ec_epochId].
    rename x0 into id. rename select (wire_coded _ = Ok id) into Hid.
    assert (encodeCanonicalCbor (CInt epoch) = Ok id) by (destruct (encodeCanonicalCbor (CInt epoch)); simpl in Hid; congruence).
    destruct (map_get (epochKey id) (ring_epochs before)) as [existing|] eqn:Hm.
    + eexists _, _. split; [done|]. exists id, existing. split_and!; [done|done| |].
      * unfold ring_current. cbn [ring_currentKey ring_epochs]. by rewrite Hm.
      * unfold ring_resolve. congruence.
    + eexists _, _. split; [done|]. eexists id, _. split_and!; [done|done| |done].
      unfold ring_current. cbn [ring_currentKey ring_epochs orb]. by rewrite map_get_set_eq.
  - exfalso. unfold createEpochEnvelopeCipher in Hc. rewrite Hk in Hc. cbn [Nat.eqb ensure mbind result_bind] in Hc.
    destruct (encode_uint epoch He) as [id Hid]. by rewrite Hid in Hc.
Qed.

Lemma unwrapped_length recipient signed signer key : unwrap_for crypto recipient signed signer = Ok key → length key = 32%nat.
Proof.
  unfold unwrap_for, unwrapEpochKey, protocolInvariant. intros H. apply bind_Ok in H as (? & _ & H). apply bind_Ok in H as (? & _ & H).
  destruct (list_find _ _) as [[]|]; [|done]. apply bind_Ok in H as (? & _ & H). apply bind_Ok in H as (? & _ & H).
  apply bind_Ok in H as (? & Hl%ensure_Ok & H). injection H as <-. by apply Nat.eqb_eq.
Qed.

Lemma key_taken (f : Plane) signed recipient key : go_recipient options = Some recipient →
  unwrap_for crypto recipient signed (cs_rootAdminPublicKey (snapshot_of f)) = Ok key → length key = 32%nat →
  0 ≤ eh_epoch (se_manifest signed) ≤ MAX_UINT64 →
  ∃ f2, run (take_key crypto options signed false) f = (f2, Ok tt) ∧ gv_ledger f2 = gv_ledger f ∧ gv_closed f2 = gv_closed f ∧
    gv_contentKeys f2 = map_set (eh_epoch (se_manifest signed)) key (gv_contentKeys f) ∧
    serves (gv_cipherRing f2) (gv_cipherRing f) (eh_epoch (se_manifest signed)) key.
Proof.
  intros Hr Hu Hk He. unfold take_key. rewrite Hr, run_catch. run_step.
  erewrite run_then by (rewrite run_awaiting, run_sync; unfold of_code; rewrite Hu; reflexivity). cbn beta. rewrite run_sync.
  unfold mbind, SE_bind, write, install_key. cbn [set_contentKeys gv_cipherRing negb].
  destruct (install_serves key (eh_epoch (se_manifest signed)) (gv_cipherRing f) Hk He) as (ring & c & -> & Hs).
  eexists. by split_and!.
Qed.

Lemma key_missed (f : Plane) signed : (∀ recipient, go_recipient options = Some recipient →
    ∃ e, unwrap_for crypto recipient signed (cs_rootAdminPublicKey (snapshot_of f)) = Err e) →
  run (take_key crypto options signed false) f = (f, Ok tt).
Proof.
  intros H. unfold take_key. destruct (go_recipient options) as [recipient|]; [|done]. destruct (H _ eq_refl) as [e He].
  rewrite run_catch. run_step. rewrite run_bind, run_awaiting, run_sync. unfold of_code. by rewrite He.
Qed.

(** The key is taken or missed, and the record is accepted all the same. *)
Lemma key_offered (f : Plane) signed : 0 ≤ eh_epoch (se_manifest signed) ≤ MAX_UINT64 →
  ∃ f2, run (take_key crypto options signed false) f = (f2, Ok tt) ∧ gv_ledger f2 = gv_ledger f ∧ gv_closed f2 = gv_closed f ∧
    (∀ recipient key, go_recipient options = Some recipient →
       unwrap_for crypto recipient signed (cs_rootAdminPublicKey (snapshot_of f)) = Ok key →
       gv_contentKeys f2 = map_set (eh_epoch (se_manifest signed)) key (gv_contentKeys f) ∧
       serves (gv_cipherRing f2) (gv_cipherRing f) (eh_epoch (se_manifest signed)) key) ∧
    ((∀ recipient, go_recipient options = Some recipient →
       ∃ e, unwrap_for crypto recipient signed (cs_rootAdminPublicKey (snapshot_of f)) = Err e) → f2 = f).
Proof.
  intros He. destruct (go_recipient options) as [recipient|] eqn:Hr.
  - destruct (unwrap_for crypto recipient signed (cs_rootAdminPublicKey (snapshot_of f))) as [key|e] eqn:Hu.
    + destruct (key_taken _ _ _ _ Hr Hu (unwrapped_length _ _ _ _ Hu) He) as (f2 & H & Hl & Hc & Hk & Hs). exists f2.
      split_and!; try done; [naive_solver congruence|]. intros H'. destruct (H' _ eq_refl) as [e He']. congruence.
    + exists f. split_and!; try done; [|naive_solver congruence]. apply key_missed. naive_solver.
  - exists f. split_and!; try done. apply key_missed. naive_solver.
Qed.
End follower.

(** ** What ends a start *)

Section refusals.
Context (options : GovernanceOptions (Key:=Key) (XPrivate:=XPrivate) (W:=W) (E:=E)).

(** The envelope of a record, as the plane reads it. *)
Definition reads_as (record : TransportRecord) (t : GovernanceMessageType) (inner : bytes) : Prop :=
  ∃ payload tag, decodeGovernanceEnvelope (E:=E) crypto (tr_payload record) (go_groupRoute options) = Ok (t, payload) ∧
    tagged_payload (E:=E) payload = Ok (tag, inner).

(** A recovery that was applied does not apply again. *)
Lemma recovery_applies_once s r s' : applyRecoveryRecord (wc_sha256 crypto) (wc_verify crypto) s r = Ok s' →
  applyRecoveryRecord (wc_sha256 crypto) (wc_verify crypto) s' r = Err INVALID_SIGNATURE.
Proof.
  intros (b & _ & _ & _ & _ & _ & _ & _ & _ & _ & ->)%recovery_step. unfold applyRecoveryRecord, verifyRecoveryRecord.
  cbn [cs_revision]. by rewrite Z.leb_refl, !orb_true_r.
Qed.

Lemma foreign_record_refused record t inner g : reads_as record t inner → t ≠ GMrecovery →
  tr_author record ≠ feedAuthor (cs_capabilityLogFeed (snapshot_of g)) → set_has (tr_id record) (gv_seen g) = false →
  run (ingest crypto options record) g = (g, Err GOVERNANCE_CAPABILITY_FEED_UNAUTHORIZED).
Proof.
  intros (payload & tag & Henv & _) Ht Ha Hn. unfold ingest. run_step. rewrite Hn, Henv. run_step. run_step.
  rewrite !bool_decide_eq_false_2 by done. by rewrite run_bind, run_sync.
Qed.

Lemma recovery_read record inner recovery g : reads_as record GMrecovery inner → decodeRecoveryRecord inner = Ok recovery →
  set_has (tr_id record) (gv_seen g) = false →
  run (ingest crypto options record) g =
  match applyRecoveryRecord (wc_sha256 crypto) (wc_verify crypto) (snapshot_of g) recovery with
  | Err code => (g, Err (GovernanceCoded code))
  | Ok next => run (sync (write (install_snapshot next) ;; tell_reopened options recovery next ;; emit recovery_event (tr_id record) None) ;;
                 sync (write (λ g, set_seen (set_add (tr_id record) (gv_seen g)) g)) ;; mret true) g
  end.
Proof.
  intros (payload & tag & Henv & Htag) Hd Hn. unfold ingest. run_step. rewrite Hn, Henv. run_step. run_step.
  rewrite bool_decide_eq_true_2 by done. run_step.
  erewrite run_then by (rewrite run_sync; unfold of_result; rewrite Htag; reflexivity). cbn beta zeta. cbn [snd].
  unfold ingestRecovery. rewrite run_bind, !run_bind, run_sync. unfold of_code at 1. rewrite Hd. rewrite run_bind, run_sync.
  unfold look at 1. rewrite run_bind, run_awaiting, run_sync. unfold of_code.
  destruct (applyRecoveryRecord _ _ _ _) as [next|]; [|done]. by rewrite run_bind.
Qed.

Lemma recovery_installed recovery next id (g g' : Plane) :
  run (sync (write (install_snapshot next) ;; tell_reopened options recovery next ;; emit recovery_event id None) ;;
       sync (write (λ g, set_seen (set_add id (gv_seen g)) g)) ;; mret true) g = (g', Ok true) → snapshot_of g' = next.
Proof.
  rewrite run_bind, run_sync. unfold mbind at 1, SE_bind at 1, write at 1. unfold mbind at 1, SE_bind at 1.
  destruct (tell_reopened _ _ _ _) as [g1 [[]|]] eqn:Ht; [|done].
  assert (snapshot_of g1 = next) as Hs.
  { unfold tell_reopened, outside in Ht. repeat case_match; by injection Ht as <-. }
  unfold emit. destruct (gv_closed g1); [done|]. cbn. by intros [= <-].
Qed.

(** one record can end the start of a control plane.  [start] ingests the history
    record after record and passes the first error on.  An envelope that is signed
    with any key and holds a capability revision or an epoch manifest, on a feed that
    is not the administrator's, is such an error: whatever follows it is not
    ingested.  So is a valid recovery that a second participant relayed: the record
    has another identifier, and the recovery does not apply twice. *)
Theorem start_ends_early g record rest :
  set_has (tr_id record) (gv_seen g) = false →
  (∀ t inner, reads_as record t inner → t ≠ GMrecovery → tr_author record ≠ feedAuthor (cs_capabilityLogFeed (snapshot_of g)) →
     run (ingest_all crypto options (record :: rest)) g = (g, Err GOVERNANCE_CAPABILITY_FEED_UNAUTHORIZED)) ∧
  (∀ inner recovery again g', reads_as record GMrecovery inner → reads_as again GMrecovery inner →
     decodeRecoveryRecord inner = Ok recovery → set_has (tr_id again) (gv_seen g') = false →
     run (ingest crypto options record) g = (g', Ok true) →
     run (ingest_all crypto options (record :: again :: rest)) g = (g', Err (GovernanceCoded INVALID_SIGNATURE))).
Proof.
  intros Hn. split.
  - intros t inner Hr Ht Ha. cbn [ingest_all]. by rewrite run_bind, (foreign_record_refused _ t inner).
  - intros inner recovery again g' Hr Hr2 Hd Hn2 Hrun. cbn [ingest_all]. rewrite run_bind, Hrun, run_bind.
    rewrite (recovery_read _ _ _ _ Hr2 Hd Hn2). rewrite (recovery_read _ _ _ _ Hr Hd Hn) in Hrun.
    destruct (applyRecoveryRecord _ _ (snapshot_of g) recovery) as [next|] eqn:Ha; [|done].
    rewrite (recovery_installed _ _ _ _ _ Hrun).
    by rewrite (recovery_applies_once _ _ _ Ha).
Qed.
End refusals.

(** ** From the administrator to a reader *)

(** The transport delivers what was published, from the feed of its owner. *)
Definition transport_law (options : GovernanceOptions (Key:=Key) (XPrivate:=XPrivate) (W:=W) (E:=E)) : Prop :=
  ∀ envelope ts w w' record, go_publish options envelope ts w = (w', Ok record) →
    tr_payload record = envelope ∧ tr_author record = go_transportIdentity options.

(** The rotation is within the limits of the formats. *)
Record rotation_fits (options : GovernanceOptions (Key:=Key) (XPrivate:=XPrivate) (W:=W) (E:=E)) (g : Plane) (record : TransportRecord) : Prop := {
  rf_epoch : -1 ≤ lg_currentEpoch (gv_ledger g) < MAX_UINT64;
  rf_now : 0 ≤ go_now options (gv_world g) ≤ MAX_UINT64;
  rf_readers : zlen (active_readers (snapshot_of g)) ≤ maxArrayItems DEFAULT_DECODE_LIMITS;
  rf_record : zlen (tr_payload record) ≤ maxBytes DEFAULT_DECODE_LIMITS;
}.

Lemma rotation_made admin key contentKey g g' record signed :
  key_pair (mkKeyPair (cs_rootAdminPublicKey (snapshot_of g)) key) → key_pair (go_identity admin) → transport_law admin →
  run (epoch_rotation_record crypto admin key contentKey) g = (g', Ok (record, signed)) → rotation_fits admin g record →
  let epoch := lg_currentEpoch (gv_ledger g) + 1 in
  ∃ created payload inner,
    epoch_made (wc_hmac crypto) (wc_import crypto) (wc_derive crypto) x25519_public (wc_decrypt crypto) (wc_sign crypto)
      (rotation_input admin key contentKey g) created ∧
    signed = ce_signedManifest created ∧
    verifyEpochManifest (wc_verify crypto) signed (cs_rootAdminPublicKey (snapshot_of g)) = Ok true ∧
    tr_author record = feedAuthor (cs_capabilityLogFeed (snapshot_of g)) ∧
    decodeGovernanceEnvelope (E:=E) crypto (tr_payload record) (go_groupRoute admin) = Ok (GMepochManifest, payload) ∧
    tagged_payload (E:=E) payload = Ok (1, inner) ∧ decodeSignedEpochManifest inner = Ok signed ∧
    map_get epoch (gv_contentKeys g') = Some (ce_contentKey created).
Proof.
  intros Hroot Hid Htr Hrun [Hep Hnow Hrd Hrec] epoch.
  destruct (rotation_sent _ _ _ _ _ _ _ Hrun) as (w1 & created & inner & payload & envelope & ts & w2 & Ho & Hc & -> & Hi & Ht & He & Hp & Hk).
  apply Htr in Hp as [<- Ha]. destruct (envelope_travels _ _ _ _ _ Hid He Hrec) as [Henv Hpl].
  assert (zlen inner ≤ zlen payload) by (eapply flat_array_item; [exact Ht|right; left]).
  pose proof (create_made _ (wl_hmac laws) _ _ _ _ (wl_x25519 laws) _ _ (wl_aes laws) _ _ _ _ _ _ Hc) as Hm.
  assert (key_pair (mkKeyPair (ei_signerPublicKey (rotation_input admin key contentKey g))
    (ei_signerPrivateKey (rotation_input admin key contentKey g)))) as Hk' by exact Hroot.
  destruct (made_verifies _ _ _ _ _ _ _ _ _ Hm Hk') as [_ Hv].
  exists created, payload, inner. split_and!; try done.
  - unfold assertCapabilityFeedOwner in Ho. apply ensure_Ok, bool_decide_eq_true in Ho. congruence.
  - apply tag_read; [done|done|lia].
  - eapply (made_travels _ _ _ _ _ _ _ _ _ _ Hm Hk' Hi); [cbn [maxBlobBytes maxBytes DEFAULT_DECODE_LIMITS] in *; lia|cbn; lia|done|].
    cbn [ei_recipients rotation_input]. unfold zlen in *. by rewrite length_fmap.
Qed.

(** The next link of the chain is accepted by whoever holds the same ledger. *)
Lemma rotation_chained (admin : GovernanceOptions (Key:=Key) (XPrivate:=XPrivate) (W:=W) (E:=E)) key contentKey (g f : Plane) created digest :
  gv_ledger f = gv_ledger g →
  epoch_made (wc_hmac crypto) (wc_import crypto) (wc_derive crypto) x25519_public (wc_decrypt crypto) (wc_sign crypto)
    (rotation_input admin key contentKey g) created →
  let signed := ce_signedManifest created in
  let l := gv_ledger f in
  let epoch := lg_currentEpoch l + 1 in
  eh_groupId (se_manifest signed) = cs_groupId (snapshot_of f) ∧ eh_epoch (se_manifest signed) = epoch ∧
  record_epoch (E:=E) signed false digest f =
    (set_ledger (mkLedger (lg_snapshot l) (lg_snapshots l) epoch (map_set epoch signed (lg_epochManifests l))
       (map_set epoch digest (lg_epochDigests l))) f, Ok tt).
Proof.
  intros Hl Hm signed l epoch. pose proof (made_manifest _ _ _ _ _ _ _ _ Hm) as Hman. fold signed in Hman. unfold snapshot_of.
  assert (eh_epoch (se_manifest signed) = epoch) as He by (rewrite Hman; unfold epoch, l; by rewrite Hl).
  assert (eh_previousEpochDigest (se_manifest signed) = previous_digest l) as Hp by (rewrite Hman; unfold l; by rewrite Hl).
  assert (∀ d, nullableBytesEqual d d = true) as Hn by (intros [d|]; [apply equalBytes_spec|]; done).
  split_and!; [rewrite Hman, Hl; done|done|]. unfold record_epoch. rewrite He, Hp. fold l epoch. by rewrite Z.eqb_refl, Hn.
Qed.

(** A capability of the snapshot that lets its subject read now. *)
Record reads_now (s : CapabilitySnapshot) (c : EffectiveCapability) : Prop := {
  rn_member : c ∈ map_values (cs_capabilities s);
  rn_role : g_role (ec_grant c) = reader;
  rn_active : isCapabilityActive c (cs_revision s) = true;
}.

Lemma active_readers_spec s c : c ∈ active_readers s ↔ reads_now s c.
Proof.
  unfold active_readers. rewrite list_elem_of_filter, andb_true_iff, bool_decide_eq_true.
  split; [intros [[? ?] ?]; by split|by intros [? ? ?]].
Qed.

(** C16: a rotation of the epoch reaches the active readers, and only them.  With the
    laws of the primitives and a transport that delivers what was published: the
    record the administrator's rotation published is ingested by any node of the
    group that holds the same ledger, and moves its chain on by the epoch, which
    changes nothing of the membership.  A node whose identity is an active reader of
    the snapshot, with the private key of the HPKE key it was granted with, then
    holds the administrator's content key, and its ring serves the epoch as the
    current one; a node whose identity is not among the active readers, one that was
    revoked for instance, ingests the record too, and gets neither the key nor a
    cipher. *)
Theorem rotation_reaches_readers (admin follower : GovernanceOptions (Key:=Key) (XPrivate:=XPrivate) (W:=W) (E:=E)) key contentKey g g' record signed f :
  key_pair (mkKeyPair (cs_rootAdminPublicKey (snapshot_of g)) key) → key_pair (go_identity admin) → transport_law admin →
  run (epoch_rotation_record crypto admin key contentKey) g = (g', Ok (record, signed)) → rotation_fits admin g record →
  gv_ledger f = gv_ledger g → go_groupRoute follower = go_groupRoute admin → gv_closed f = false →
  set_has (tr_id record) (gv_seen f) = false →
  let epoch := lg_currentEpoch (gv_ledger g) + 1 in
  ∃ f' sent, run (ingest crypto follower record) f = (f', Ok true) ∧
    map_get epoch (gv_contentKeys g') = Some sent ∧
    lg_currentEpoch (gv_ledger f') = epoch ∧ map_get epoch (lg_epochManifests (gv_ledger f')) = Some signed ∧
    snapshot_of f' = snapshot_of f ∧
    (∀ c sk, reads_now (snapshot_of g) c → go_recipient follower = Some (g_subjectId (ec_grant c), sk) →
       g_hpkePublicKey (ec_grant c) = Some (x25519_public sk) →
       map_get epoch (gv_contentKeys f') = Some sent ∧ serves (gv_cipherRing f') (gv_cipherRing f) epoch sent) ∧
    ((∀ recipient c, go_recipient follower = Some recipient → reads_now (snapshot_of g) c →
        g_subjectId (ec_grant c) ≠ recipient.1) →
     gv_contentKeys f' = gv_contentKeys f ∧ gv_cipherRing f' = gv_cipherRing f).
Proof.
  intros Hroot Hid Htr Hrun Hfits Hl Hroute Hopen Hnew epoch.
  destruct (rotation_made _ _ _ _ _ _ _ Hroot Hid Htr Hrun Hfits) as (created & payload & inner & Hm & -> & Hv & Ha & Henv & Htag & Hdec & Hk).
  destruct (made_signed _ _ _ _ _ _ _ _ Hm) as (encoded & Henc & _). destruct Hfits as [Hep _ _ _].
  destruct (hashDomain_total (wc_sha256 crypto) DepochManifest encoded) as [digest Hd].
  destruct (rotation_chained admin key contentKey g f created digest Hl Hm) as (Hg & He & Hrec).
  match type of Hrec with _ = (?s, _) => set (f1 := s) in Hrec end.
  assert (snapshot_of f1 = snapshot_of f) as Hs1 by done. assert (snapshot_of f = snapshot_of g) as Hs by (unfold snapshot_of; by rewrite Hl).
  destruct (key_offered follower f1 (ce_signedManifest created)) as (f2 & Hrun2 & Hl2 & Hc2 & Htake & Hmiss); [rewrite He, Hl; lia|].
  destruct (epoch_ingested follower f record (ce_signedManifest created) digest f1 f2) as (f' & Hrun' & Hl' & Hck & Hring & _);
    [|exact Hrec|exact Hrun2|by rewrite Hc2|].
  { split; [done|done|by rewrite Hs| |done|by rewrite Hs|by exists encoded]. exists payload, inner. by rewrite Hroute. }
  exists f', (ce_contentKey created). rewrite Hl', Hl2. unfold snapshot_of. rewrite Hl', Hl2. unfold f1. cbn [gv_ledger set_ledger lg_currentEpoch lg_epochManifests lg_snapshot].
  rewrite Hl. fold epoch. rewrite map_get_set_eq. split_and!; try done.
  - intros c sk Hc Hrecipient Hpk. rewrite Hck, Hring.
    destruct (Htake _ (ce_contentKey created) Hrecipient) as [Hck2 Hserve]; [|by rewrite He, Hl in Hck2, Hserve; rewrite Hck2, map_get_set_eq].
    rewrite Hs1, Hs. apply (proj1 (made_unwraps _ _ _ _ _ _ _ _ _ Hm Hv) (recipient_of c)); [by apply list_elem_of_fmap_2, active_readers_spec|].
    cbn [recipient_of rp_publicKey]. by rewrite Hpk.
  - intros Hno. rewrite Hck, Hring, Hmiss; [done|]. intros recipient Hr. exists INVALID_KEY. rewrite Hs1, Hs.
    apply (proj2 (made_unwraps _ _ _ _ _ _ _ _ _ Hm Hv)). cbn [ei_recipients rotation_input]. rewrite <-list_fmap_compose.
    intros (c & Hrc & Hc%active_readers_spec)%list_elem_of_fmap. by apply (Hno _ c Hr).
Qed.
End delivery.
