(* ===== verification/GovernanceSample.v ===== *)
(** * A small group, administered

    A group with two readers and stand-ins for the cryptography, on which the
    theorems about governance are applied, and the runs of the control plane that
    show what its start and its operations do not promise. *)

From Stdlib Require Import Strings.Byte Strings.String.
From stdpp Require Import base list option numbers sets relations.
From S2P Require Import Prelude JsMap Bytes Text JsNumber Cbor Schema Domains Messages CapTypes CapCodec Reducer ReducerProofs LogTheorems FeedForks Blobs BlobsTheorems Entropy Hpke Wire WireTheorems Epochs EpochTheorems Async Governance GovernanceTheorems GovernanceDelivery.

#[local] Open Scope Z_scope.

(** ** The group *)

Definition plane_crypto : WebCrypto unit bytes bytes nat unit :=
  mkWebCrypto _ _ _ _ _ tail_digest sample_hmac WireTheorems.toy_verify toy_sign toy_x_import toy_x_derive toy_x_generate
    toy_encrypt toy_decrypt toy_values toy_random.

Lemma plane_laws : WebCryptoLaws plane_crypto toy_x_public.
Proof. split; [apply tail_digest_length|apply sample_hmac_length|apply toy_x_laws|apply toy_aes]. Qed.

Definition plane_reader (subject key : byte) (from : Z) : CapabilityGrant :=
  mkGrant [subject] (toy_key subject) None reader from None None None None (Some scope_snapshot) (Some (reader_key key)).

Definition plane_signed (d : ProtocolDomain) (m : result ErrorCode bytes) : bytes :=
  toy_bytes (encoded ← m; signDomain toy_sign d encoded tt).

Definition plane_manifest : GenesisManifest :=
  mkGenesis [x01] [x02] (publicKeyBytes toy_pair) [x41] [toy_key x11; toy_key x12; toy_key x13] 2
    [toy_validator x20 0 100; plane_reader x51 x0a 0; plane_reader x52 x0b 0] [mkPolicy 1 1 [(js "gold", 1)] [js "org"]]
    (mkClock 1000 2000 500) (mkResource 1048576 1000 100 100) (js "suite") 1700000000000.

Definition plane_genesis : SignedGenesis :=
  mkSignedGenesis plane_manifest (plane_signed Dgenesis (encodeGenesisManifest plane_manifest)).

(** A transport whose records are numbered by the counter of the world. *)
Definition plane_publish (author : jsstring) (envelope : bytes) (timestampMs : Z) (w : nat) : nat * result Empty_set TransportRecord :=
  (S w, Ok (mkTransportRecord [Z.of_nat w] author (Z.of_nat w) None (Some timestampMs) envelope)).

Definition plane_options (me : jsstring) (recipient : option (bytes * bytes)) :
    GovernanceOptions (Key:=unit) (XPrivate:=bytes) (W:=nat) (E:=Empty_set) :=
  mkGovernanceOptions plane_genesis [x07] me (plane_publish me) toy_pair recipient (λ w, 1700000001000 + Z.of_nat w) None.

Definition plane_admin := plane_options (js "A") None.
Definition plane_follower := plane_options (js "B") (Some ([x52], replicate 32 x0b)).
Definition plane_outsider := plane_options (js "C") (Some ([x53], replicate 32 x0b)).

Lemma plane_transport me recipient : transport_law (plane_options me recipient).
Proof. intros envelope ts w w' record [= <- <-]. done. Qed.

(** The state after a program, started where the group begins. *)
Definition plane_start (options : GovernanceOptions (Key:=unit) (XPrivate:=bytes) (W:=nat) (E:=Empty_set)) :
    option (Governance (W:=nat) (B:=unit)) :=
  match create_governance plane_crypto options empty_ring 10%nat with Ok g => Some g | Err _ => None end.

Definition empty_plane : Governance (W:=nat) (B:=unit) :=
  mkGovernance (mkLedger (mkCapSnapshot [] 0 [] [] [] [] [] [] 0 false None) [] (-1) [] []) [] 0 [] false [] empty_ring 0%nat.

Definition plane_state : Governance (W:=nat) (B:=unit) := Eval vm_compute in default empty_plane (plane_start plane_admin).

Lemma plane_created : create_governance plane_crypto plane_admin empty_ring 10%nat = Ok plane_state.
Proof. vm_compute. reflexivity. Qed.

(** ** A rotation *)

(** What a program returned, or the given value. *)
Definition outcome {A} (r : result (GovernanceError Empty_set) A) (a : A) : A := match r with Ok x => x | Err _ => a end.

Definition no_record : TransportRecord := mkTransportRecord [] [] 0 None None [].

Definition rotation_run := Eval vm_compute in run (epoch_rotation_record plane_crypto plane_admin tt None) plane_state.
Definition rotation_record : TransportRecord * SignedEpochManifest :=
  Eval vm_compute in outcome rotation_run.2 (no_record, ce_signedManifest sample_epoch).

Lemma rotation_ran : run (epoch_rotation_record plane_crypto plane_admin tt None) plane_state =
  (rotation_run.1, Ok (rotation_record.1, rotation_record.2)).
Proof. vm_compute. reflexivity. Qed.

Lemma rotation_reaches_readers_witness :
  (∃ f' sent, run (ingest plane_crypto plane_follower rotation_record.1) plane_state = (f', Ok true) ∧
     map_get 0 (gv_contentKeys rotation_run.1) = Some sent ∧ map_get 0 (gv_contentKeys f') = Some sent ∧
     lg_currentEpoch (gv_ledger f') = 0) ∧
  (∃ f', run (ingest plane_crypto plane_outsider rotation_record.1) plane_state = (f', Ok true) ∧ gv_contentKeys f' = [] ∧
     lg_currentEpoch (gv_ledger f') = 0).
Proof.
  assert (rotation_fits plane_admin plane_state rotation_record.1) as Hfits by (by split; vm_compute).
  split.
  - destruct (rotation_reaches_readers plane_crypto toy_x_public plane_laws plane_admin plane_follower tt None plane_state
      rotation_run.1 rotation_record.1 rotation_record.2 plane_state toy_pair_law toy_pair_law (plane_transport _ _)
      rotation_ran Hfits eq_refl eq_refl eq_refl eq_refl) as (f' & sent & Hrun & Hsent & He & _ & _ & Hreader & _).
    exists f', sent. split; [exact Hrun|]. split; [exact Hsent|].
    destruct (Hreader (mkEffective (nth_id 2 (snapshot_of plane_state)) (plane_reader x52 x0b 0) 0 None) (replicate 32 x0b)) as [Hk _].
    + split; [|reflexivity..]. apply (list_elem_of_lookup_2 _ 2). vm_compute. reflexivity.
    + reflexivity.
    + reflexivity.
    + by split.
  - destruct (rotation_reaches_readers plane_crypto toy_x_public plane_laws plane_admin plane_outsider tt None plane_state
      rotation_run.1 rotation_record.1 rotation_record.2 plane_state toy_pair_law toy_pair_law (plane_transport _ _)
      rotation_ran Hfits eq_refl eq_refl eq_refl eq_refl) as (f' & sent & Hrun & _ & He & _ & _ & _ & Hnot).
    exists f'. split; [exact Hrun|]. destruct Hnot as [Hk _]; [|by split]. intros recipient c [= <-] [Hc _ _].
    assert (Forall (λ c, g_subjectId (ec_grant c) ≠ [x53]) (map_values (cs_capabilities (snapshot_of plane_state)))) as Hall
      by (apply (bool_decide_unpack _); vm_compute; exact I).
    exact (proj1 (Forall_forall _ _) Hall c Hc).
Defined.

(** ** The plane as a system *)

#[local] Abbreviation System := (GovSystem (W:=nat) (B:=unit) (E:=Empty_set)).
#[local] Abbreviation plane_step := (gov_step plane_crypto plane_follower).

(** Inside the mutex, a program can run to its end. *)
Lemma hold_run options (p : proc (Governance (W:=nat) (B:=unit)) (GovernanceError Empty_set) bool) : ∀ g q ts,
  rtc (gov_step plane_crypto options) (mkGovSystem (turn p g).1 (Some (turn p g).2) q ts) (mkGovSystem (run p g).1 None q ts).
Proof.
  induction p as [a|e|f IH|p IH] using proc_nested_ind; intros g q ts; cbn [turn run fst snd].
  - apply rtc_once. by eapply gov_release.
  - apply rtc_once. by eapply gov_release.
  - specialize (IH g). destruct (f g) as [g' p']. apply IH.
  - eapply rtc_l; [apply gov_turn|apply IH].
Qed.

(** A record that arrives can be ingested. *)
Lemma arrive_run record g ts : rtc plane_step (mkGovSystem g None [] ts)
  (mkGovSystem (run (ingest plane_crypto plane_follower record) g).1 None [] ts).
Proof.
  eapply rtc_l; [apply (gov_arrive _ _ _ _ _ _ record)|]. eapply rtc_l; [apply gov_acquire|]. eapply rtc_l; [apply gov_turn|].
  apply hold_run.
Qed.

Definition first_system : System := mkGovSystem plane_state None [] [].
Definition followed_system : System :=
  mkGovSystem (run (ingest plane_crypto plane_follower rotation_record.1) plane_state).1 None [] [].

(** A follower from its start to the first epoch. *)
Lemma governance_log_grows_witness :
  rtc plane_step first_system followed_system ∧
  lg_currentEpoch (gv_ledger (gs_state followed_system)) = 0 ∧
  ledger_inv plane_crypto plane_follower (gv_ledger (gs_state followed_system)) ∧
  extends_ledger plane_crypto (gv_ledger (gs_state first_system)) (gv_ledger (gs_state followed_system)).
Proof.
  assert (rtc plane_step first_system followed_system) as Hsteps by apply arrive_run.
  destruct (governance_log_grows plane_crypto plane_follower first_system followed_system) as (_ & Hi & He & _).
  - eapply (gov_first plane_crypto plane_follower empty_ring 10%nat). vm_compute. reflexivity.
  - exact Hsteps.
  - split; [exact Hsteps|]. split; [vm_compute; reflexivity|]. split; [exact Hi|exact He].
Defined.

(** ** Two rotations at once *)

#[local] Abbreviation admin_step := (gov_step plane_crypto plane_admin).
#[local] Abbreviation Task := (proc (Governance (W:=nat) (B:=unit)) (GovernanceError Empty_set) (option TransportRecord)).

Definition result_proc {A} (r : result (GovernanceError Empty_set) A) : proc (Governance (W:=nat) (B:=unit)) (GovernanceError Empty_set) A :=
  match r with Ok a => Ret a | Err e => Throw e end.

(** A task can run to its end. *)
Lemma task_run (p : Task) : ∀ g q ts1 ts2, rtc admin_step (mkGovSystem g None q (ts1 ++ [p] :: ts2))
  (mkGovSystem (run p g).1 None q (ts1 ++ [result_proc (run p g).2] :: ts2)).
Proof.
  assert (∀ (p : Task) g q ts1 ts2, rtc admin_step (mkGovSystem (turn p g).1 None q (ts1 ++ [(turn p g).2] :: ts2))
    (mkGovSystem (run p g).1 None q (ts1 ++ [result_proc (run p g).2] :: ts2))) as Hend.
  { clear p. induction p as [a|e|f IH|p IH] using proc_nested_ind; intros g q ts1 ts2; cbn [turn run fst snd]; [done|done| |].
    - specialize (IH g). destruct (f g) as [g' p']. apply IH.
    - eapply rtc_l; [apply gov_task|apply IH]. }
  intros g q ts1 ts2. eapply rtc_l; [apply gov_task|apply Hend].
Qed.

Definition rotation_task (key : byte) : Task :=
  sent ← epoch_rotation_record plane_crypto plane_admin tt (Some (replicate 32 key)); mret (Some sent.1).

(** The first rotation sends its record, the second starts and sends its own, and the
    record of the first is accepted. *)
Definition sent_first := Eval vm_compute in run (rotation_task x61) plane_state.
Definition sent_second := Eval vm_compute in run (rotation_task x62) sent_first.1.
Definition first_accepted := Eval vm_compute in
  run (ingest plane_crypto plane_admin (default no_record (outcome sent_first.2 None))) sent_second.1.

(** The epoch that is accepted is the first one's, and readers get its key, but the
    plane of the administrator is left with the key of the second, which it would hand
    to those it grants access to the past. *)
Theorem rotation_replaces_key : ∃ s s' : System,
  reachable_gov plane_crypto plane_admin s ∧ rtc admin_step s s' ∧
  map_get 0 (gv_contentKeys (gs_state s)) = Some (replicate 32 x61) ∧
  map_get 0 (gv_contentKeys (gs_state s')) = Some (replicate 32 x62) ∧
  (∃ signed, map_get 0 (lg_epochManifests (gv_ledger (gs_state s'))) = Some signed ∧
    outcome (run (epoch_rotation_record plane_crypto plane_admin tt (Some (replicate 32 x61))) plane_state).2
      (no_record, ce_signedManifest sample_epoch) = (default no_record (outcome sent_first.2 None), signed)) ∧
  first_accepted.2 = Ok true.
Proof.
  set (start := mkGovSystem plane_state None [] [] : System).
  set (record := default no_record (outcome sent_first.2 None)).
  set (s := mkGovSystem sent_first.1 None [] [[result_proc sent_first.2]] : System).
  assert (rtc admin_step start s) as H1.
  { eapply rtc_l; [apply (gov_rotation _ _ _ _ _ _ tt (Some (replicate 32 x61)))|].
    assert (run (rotation_task x61) plane_state = sent_first) as Hr by (vm_compute; reflexivity).
    pose proof (task_run (rotation_task x61) plane_state [] [] []) as H. rewrite Hr in H. exact H. }
  assert (rtc admin_step s (mkGovSystem sent_second.1 None [] [[result_proc sent_first.2]; [result_proc sent_second.2]])) as H2.
  { eapply rtc_l; [apply (gov_rotation _ _ _ _ _ _ tt (Some (replicate 32 x62)))|].
    assert (run (rotation_task x62) sent_first.1 = sent_second) as Hr by (vm_compute; reflexivity).
    pose proof (task_run (rotation_task x62) sent_first.1 [] [[result_proc sent_first.2]] []) as H. rewrite Hr in H. exact H. }
  assert (rtc admin_step (mkGovSystem sent_second.1 None [] [[result_proc sent_first.2]; [result_proc sent_second.2]])
    (mkGovSystem first_accepted.1 None [] [[]; [result_proc sent_second.2]])) as H3.
  { assert (result_proc sent_first.2 = Ret (Some record)) as -> by (vm_compute; reflexivity).
    eapply rtc_l; [apply (gov_sent _ _ _ _ _ [] record [])|]. eapply rtc_l; [apply gov_acquire|]. eapply rtc_l; [apply gov_turn|].
    assert (run (ingest plane_crypto plane_admin record) sent_second.1 = first_accepted) as <- by (vm_compute; reflexivity).
    apply hold_run. }
  exists s, (mkGovSystem first_accepted.1 None [] [[]; [result_proc sent_second.2]]). split_and!.
  - assert (reachable_gov plane_crypto plane_admin start) as Hstart.
    { eapply (gov_first plane_crypto plane_admin empty_ring 10%nat). vm_compute. reflexivity. }
    clear -H1 Hstart. induction H1; [done|]. apply IHrtc. by eapply gov_next.
  - by etrans.
  - vm_compute. reflexivity.
  - vm_compute. reflexivity.
  - eexists. split; vm_compute; reflexivity.
  - vm_compute. reflexivity.
Qed.

(** ** Starts that end early *)

Definition foreign_record : TransportRecord :=
  Eval vm_compute in outcome (run (publish_record plane_crypto (plane_options (js "C") None) GMcapability
    (toy_bytes (tag_payload 1 [x00]))) plane_state).2 no_record.

Definition plane_recovery : RecoveryRecord :=
  let payload := mkRecoveryPayload [x01] 0 (cs_revisionDigest (snapshot_of plane_state)) 1 (toy_key x14) [x44]
    [toy_validator x23 1 200] false None in
  let signature := plane_signed Drecovery (encodeRecoveryPayload payload) in
  mkRecoveryRecord payload [mkRecoverySignature 0 signature; mkRecoverySignature 2 signature].

(** The recovery as two participants relay it. *)
Definition relayed (me : jsstring) (w : nat) : TransportRecord :=
  outcome (run (recovery_change_record plane_crypto (plane_options me None) plane_recovery) (set_world w plane_state)).2 no_record.

Definition relayed_once := Eval vm_compute in relayed (js "B") 20%nat.
Definition relayed_twice := Eval vm_compute in relayed (js "C") 21%nat.

(** A stranger's record keeps the plane from the administrator's rotation, and the
    second relay of a recovery keeps it from what the new root publishes. *)
Lemma start_ends_early_witness :
  run (ingest_all plane_crypto plane_follower [foreign_record; rotation_record.1]) plane_state =
    (plane_state, Err GOVERNANCE_CAPABILITY_FEED_UNAUTHORIZED) ∧
  ∃ g', run (ingest plane_crypto plane_follower relayed_once) plane_state = (g', Ok true) ∧
    run (ingest_all plane_crypto plane_follower [relayed_once; relayed_twice; rotation_record.1]) plane_state =
      (g', Err (GovernanceCoded INVALID_SIGNATURE)).
Proof.
  split.
  - apply (proj1 (start_ends_early plane_crypto plane_follower plane_state foreign_record [rotation_record.1] eq_refl) GMcapability [x00]).
    + exists (toy_bytes (tag_payload 1 [x00])), 1. split; vm_compute; reflexivity.
    + discriminate.
    + apply (bool_decide_unpack _). vm_compute. exact I.
  - eexists. split; [vm_compute; reflexivity|].
    eapply (proj2 (start_ends_early plane_crypto plane_follower plane_state relayed_once [rotation_record.1] eq_refl)
      (toy_bytes (encodeRecoveryRecord plane_recovery)) plane_recovery relayed_twice).
    + exists (toy_bytes (inner ← encodeRecoveryRecord plane_recovery; tag_payload 1 inner)), 1. split; vm_compute; reflexivity.
    + exists (toy_bytes (inner ← encodeRecoveryRecord plane_recovery; tag_payload 1 inner)), 1. split; vm_compute; reflexivity.
    + vm_compute. reflexivity.
    + vm_compute. reflexivity.
    + vm_compute. reflexivity.
Defined.

(** ** A reader with two grants *)

(** The reader of the sample is granted audit access, with the key of another device, beside its
    snapshot access. *)
Definition regranted : Governance (W:=nat) (B:=unit) :=
  (run (publishCapabilityChange plane_crypto plane_admin
     (mkChange [mkGrant [x52] (toy_key x52) None reader 0 None None None None (Some scope_audit) (Some (reader_key x0c))] [] [] None None)
     tt) plane_state).1.

(** Both grants are active, and no epoch can be rotated until one of them is revoked. *)
Example two_grants_block_rotation :
  length (active_readers (snapshot_of regranted)) = 3%nat ∧
  (run (rotateEpoch plane_crypto plane_admin tt None) regranted).2 = Err (GovernanceCoded SCHEMA_INVALID).
Proof. split; vm_compute; reflexivity. Qed.
