(* ===== verification/Node.v ===== *)
(** * The node: [packages/node-core/src/node.ts]

    The state a node keeps beside its control store, and its handlers: starting,
    publishing a transaction or a heartbeat, and ingesting the records the
    transport delivers.  Handlers are programs with [await] ([Async]); everything
    outside the package, namely the membership resolver, the transport, the clock,
    the blob store behind the envelopes and the materialisation runtime, answers
    from an external state [W] that may change at every [await].  When a timer
    fires, the subscribers of the events and the shutdown are not modelled; what the
    timer of the ingestion retries runs is ([retry_turn]).

    [n_outbox] is a history variable: the messages handed to the transport, in
    order. *)

From Stdlib Require Import Strings.Byte Strings.String.
From stdpp Require Import base list option numbers.
From S2P Require Import Prelude JsMap Bytes JsNumber Text Cbor Domains Messages StoreTypes ControlStore CapTypes FeedForks Membership Logical Sql Transaction MaterializerCodec Blobs Wire Async.

#[local] Open Scope Z_scope.

(** ** Errors *)

(** The codes of [TerminalIngestError]. *)
Inductive TerminalCode :=
  | INVALID_SIGNED_ENVELOPE
  | INVALID_CANDIDATE_PAYLOAD | INVALID_ATTESTATION_PAYLOAD | INVALID_HEARTBEAT_PAYLOAD
  | CANDIDATE_WRONG_GROUP | CANDIDATE_SIGNER_MISMATCH | CANDIDATE_TRANSPORT_AUTHOR_UNAUTHORIZED
  | CANDIDATE_EXECUTION_MANIFEST_DIGEST_MISMATCH | CANDIDATE_SQL_INVALID
  | ATTESTATION_WRONG_GROUP | ATTESTATION_SIGNER_MISMATCH | ATTESTATION_TRANSPORT_AUTHOR_UNAUTHORIZED
  | HEARTBEAT_WRONG_GROUP | HEARTBEAT_SIGNER_MISMATCH | HEARTBEAT_TRANSPORT_AUTHOR_UNAUTHORIZED
  | HEARTBEAT_VALIDATOR_UNAUTHORIZED.

(** The codes of the other errors of the class. *)
Inductive NodeCode :=
  | NODE_INVALID_RETRY_CAPACITY | NODE_NOT_STARTED | NODE_CLOSED | NODE_FEED_FORK_QUARANTINED
  | NODE_NOT_VALIDATOR | NODE_VALIDATOR_CAPABILITY_UNAVAILABLE | VALIDATOR_UNAUTHORIZED
  | LOCAL_TRANSPORT_AUTHOR_UNAUTHORIZED | WRITER_UNAUTHORIZED | AUTHOR_TIMESTAMP_OUT_OF_RANGE
  | TRANSACTION_NONCE_TOO_SHORT | VALIDATOR_POLICY_VERSION_MISMATCH | INVALID_VALIDATION_THRESHOLD
  | MEMBERSHIP_RESOLVER_RETURNED_UNKNOWN_ATTESTATION | ADMITTED_CANDIDATE_PAYLOAD_MISSING
  | MATERIALIZATION_PUBLICATION_RESULT_MISMATCH | MATERIALIZATION_RECONCILIATION_RESULT_MISMATCH | FEED_FORK_QUARANTINED (author : jsstring).

Inductive NodeError (E FE : Type) :=
  | TerminalIngestError (code : TerminalCode)
  | ControlStoreConflictError (code : ConflictCode)
  | ControlStoreFailed (e : StoreError E)
  | FeedForkFailed (e : FeedError FE)
  | NodeFailed (code : NodeCode)
  | ProtocolError (code : ErrorCode)
  | CodecFailed (e : CodecError)
  | WireFailed (e : WireError)
  | ServiceFailed.
Arguments TerminalIngestError {E FE} code.
Arguments ControlStoreConflictError {E FE} code.
Arguments ControlStoreFailed {E FE} e.
Arguments FeedForkFailed {E FE} e.
Arguments NodeFailed {E FE} code.
Arguments ProtocolError {E FE} code.
Arguments CodecFailed {E FE} e.
Arguments WireFailed {E FE} e.
Arguments ServiceFailed {E FE}.

(** ** Events and messages *)

Inductive RevisionReason := reason_candidate | reason_attestation | reason_heartbeat | reason_materialized | reason_error.

Record NodeRevisionEvent := mkEvent { re_revision : Z; re_reason : RevisionReason; re_txId : option bytes }.

(** What the node hands to the transport. *)
Inductive Outgoing :=
  | out_candidate (core : TransactionCore)
  | out_attestation (attestation : ValidatorAttestation)
  | out_heartbeat (heartbeat : Messages.ValidatorHeartbeat).

Record ValidatorOptions := mkValidatorOptions {
  vo_capabilityId : bytes;
  vo_policyVersion : option Z;
  vo_cutoffLagMs : option Z;
  vo_maxFutureSkewMs : option Z;
  vo_initialAcceptedAboveMs : option Z;
}.

Record OperationalMembershipState := mkMembershipState {
  ms_membershipRevision : bytes;
  ms_validationPolicy : bytes;
  ms_validatorCapability : option bytes;
}.

Record PublishTransactionInput := mkPublishInput {
  pi_program : SqlTransactionProgram;
  pi_authorTimestampMs : option Z;
  pi_nonce : option bytes;
  pi_metadata : option (jsmap jsstring bytes);
  pi_membershipRevision : option bytes;
  pi_validationPolicy : option bytes;
}.

Record PublishedTransaction := mkPublishedTransaction {
  pt_txId : bytes;
  pt_txIdText : jsstring;
  pt_candidateDigest : bytes;
  pt_core : TransactionCore;
}.

(** [feedStates] of a transport status: feed and the end of its contiguous prefix. *)
Abbreviation FeedStates := (list (jsstring * jsstring)).

(** A run of the retry timer: the records kept for another attempt are ingested, the
    answer of [transport.history()] is awaited, its records are ingested. *)
Inductive RetryRun :=
  | retrying (records : list TransportRecord)
  | reading_history
  | listing (history : list TransportRecord).

Section node.
Context {P E FP FE W : Type} `{!Persistence P E, !FeedForkPersistence FP FE}.
Context (sha256 : bytes → bytes) (ed25519_verify : bytes → bytes → bytes → bool) {Key : Type}
  (ed25519_sign : Key → bytes → option bytes).

Abbreviation Error := (NodeError E FE).
Abbreviation call := (SE W Error).

(** [MembershipResolver]; the optional methods are options. *)
Record MembershipResolver := mkMembershipResolver {
    mr_canWrite : AdmissionContext → call bool;
    mr_canValidate : CandidateAdmissionContext → call bool;
    mr_threshold : AdmissionContext → call Z;
    mr_canHeartbeat : option (ValidatorAuthorityContext → call bool);
    mr_canUseTransportAuthor : option (TransportAuthorContext → call bool);
    mr_policyVersion : option (AdmissionContext → call Z);
    mr_selectAdmission : option (AdmissionContext → list StoredAttestation → call (list StoredAttestation));
}.

(** [ChronologMaterializationRuntime]: the coordinator, the published revision the
    queries read, and the publications. *)
Record MaterializationRuntime := mkMaterializationRuntime {
    mat_materialize : list AdmittedTransaction → call (option CoordinatedMaterialization);
    mat_queries : W → MaterializedRevisionSnapshot;
    mat_publish : MaterializationPublicationRequest → call MaterializationPublicationResult;
    mat_reconcile : Z → option Z → call MaterializationPublicationResult;
}.

(** [ChronologTransport], as far as the node uses it. *)
Record ChronologTransport := mkTransport {
    ct_identity : jsstring;
    ct_publish : bytes → call TransportRecord;
    ct_feedStates : call (option FeedStates);
}.

Record ChronologNodeOptions := mkNodeOptions {
no_groupId : bytes;
no_groupRoute : option bytes;
no_membershipRevision : bytes;
no_validationPolicy : bytes;
no_identity : Ed25519KeyPair (Key:=Key);
no_transport : ChronologTransport;
no_materialization : MaterializationRuntime;
no_membership : MembershipResolver;
no_membershipState : option (W → OperationalMembershipState);
no_validator : option ValidatorOptions;
no_now : W → Z;
no_random : nat → W → W * bytes;
no_envelopeCipher : option (CipherOption W);
no_blobPayloads : option (EnvelopeBlobOptions W);
no_maximumRetryRecords : option Z;
(** [compileSqlProgram] of the compiler package: whether it accepts a program *)
no_compileSqlProgram : SqlTransactionProgram → bool;
(** [String.prototype.localeCompare], which orders the feeds in snapshots *)
no_localeCompare : jsstring → jsstring → Z;
}.

(** ** State *)

(** The fields concerned with ingestion. *)
Record Ingestion := mkIngestion {
    in_seen : jsset jsstring;
    in_retryRecords : jsmap jsstring TransportRecord;
    in_retryOverflow : bool;
    in_ingestionError : option Error;
}.

Record ChronologNode := mkNode {
    n_control : world P;
    n_forks : feed_world (P:=FP);
    n_ingestion : Ingestion;
    n_candidateCores : jsmap jsstring TransactionCore;
    n_revision : Z;
    n_events : list NodeRevisionEvent;
    n_lastError : option Error;
    n_acceptedAboveMs : Z;
    n_lastAuthoredTimestampMs : Z;
    n_materializationPending : bool;
    n_replayedOutcomes : jsset jsstring;
    n_started : bool;
    n_outbox : list Outgoing;
    n_world : W;
}.

Definition set_control v n := mkNode v (n_forks n) (n_ingestion n) (n_candidateCores n) (n_revision n) (n_events n)
  (n_lastError n) (n_acceptedAboveMs n) (n_lastAuthoredTimestampMs n) (n_materializationPending n) (n_replayedOutcomes n) (n_started n)
  (n_outbox n) (n_world n).
Definition set_forks v n := mkNode (n_control n) v (n_ingestion n) (n_candidateCores n) (n_revision n) (n_events n)
  (n_lastError n) (n_acceptedAboveMs n) (n_lastAuthoredTimestampMs n) (n_materializationPending n) (n_replayedOutcomes n) (n_started n)
  (n_outbox n) (n_world n).
Definition set_ingestion v n := mkNode (n_control n) (n_forks n) v (n_candidateCores n) (n_revision n) (n_events n)
  (n_lastError n) (n_acceptedAboveMs n) (n_lastAuthoredTimestampMs n) (n_materializationPending n) (n_replayedOutcomes n) (n_started n)
  (n_outbox n) (n_world n).
Definition set_cores v n := mkNode (n_control n) (n_forks n) (n_ingestion n) v (n_revision n) (n_events n)
  (n_lastError n) (n_acceptedAboveMs n) (n_lastAuthoredTimestampMs n) (n_materializationPending n) (n_replayedOutcomes n) (n_started n)
  (n_outbox n) (n_world n).
Definition set_emitted revision events n := mkNode (n_control n) (n_forks n) (n_ingestion n) (n_candidateCores n)
  revision events (n_lastError n) (n_acceptedAboveMs n) (n_lastAuthoredTimestampMs n) (n_materializationPending n) (n_replayedOutcomes n)
  (n_started n) (n_outbox n) (n_world n).
Definition set_lastError v n := mkNode (n_control n) (n_forks n) (n_ingestion n) (n_candidateCores n) (n_revision n)
  (n_events n) v (n_acceptedAboveMs n) (n_lastAuthoredTimestampMs n) (n_materializationPending n) (n_replayedOutcomes n) (n_started n)
  (n_outbox n) (n_world n).
Definition set_acceptedAboveMs v n := mkNode (n_control n) (n_forks n) (n_ingestion n) (n_candidateCores n)
  (n_revision n) (n_events n) (n_lastError n) v (n_lastAuthoredTimestampMs n) (n_materializationPending n) (n_replayedOutcomes n) (n_started n)
  (n_outbox n) (n_world n).
Definition set_lastAuthored v n := mkNode (n_control n) (n_forks n) (n_ingestion n) (n_candidateCores n)
  (n_revision n) (n_events n) (n_lastError n) (n_acceptedAboveMs n) v (n_materializationPending n) (n_replayedOutcomes n) (n_started n)
  (n_outbox n) (n_world n).
Definition set_pending v n := mkNode (n_control n) (n_forks n) (n_ingestion n) (n_candidateCores n) (n_revision n)
  (n_events n) (n_lastError n) (n_acceptedAboveMs n) (n_lastAuthoredTimestampMs n) v (n_replayedOutcomes n) (n_started n) (n_outbox n)
  (n_world n).
Definition set_replayedOutcomes v n := mkNode (n_control n) (n_forks n) (n_ingestion n) (n_candidateCores n) (n_revision n)
  (n_events n) (n_lastError n) (n_acceptedAboveMs n) (n_lastAuthoredTimestampMs n) (n_materializationPending n) v (n_started n)
  (n_outbox n) (n_world n).
Definition set_started v n := mkNode (n_control n) (n_forks n) (n_ingestion n) (n_candidateCores n) (n_revision n)
  (n_events n) (n_lastError n) (n_acceptedAboveMs n) (n_lastAuthoredTimestampMs n) (n_materializationPending n) (n_replayedOutcomes n) v
  (n_outbox n) (n_world n).
Definition set_outbox v n := mkNode (n_control n) (n_forks n) (n_ingestion n) (n_candidateCores n) (n_revision n)
  (n_events n) (n_lastError n) (n_acceptedAboveMs n) (n_lastAuthoredTimestampMs n) (n_materializationPending n) (n_replayedOutcomes n)
  (n_started n) v (n_world n).
Definition set_world v n := mkNode (n_control n) (n_forks n) (n_ingestion n) (n_candidateCores n) (n_revision n)
  (n_events n) (n_lastError n) (n_acceptedAboveMs n) (n_lastAuthoredTimestampMs n) (n_materializationPending n) (n_replayedOutcomes n)
  (n_started n) (n_outbox n) v.

(** ** Lifting *)

Abbreviation node := (SE ChronologNode Error).
Abbreviation async := (proc ChronologNode Error).

Definition fails {A} (code : NodeCode) : node A := throw (NodeFailed code).
(** [invalid(code)] *)
Definition invalid {A} (code : TerminalCode) : node A := throw (TerminalIngestError code).

Definition store_error (e : StoreError E) : Error :=
  match e with Conflict code => ControlStoreConflictError code | other => ControlStoreFailed other end.

Definition control {A} (m : op P E A) : node A := λ n,
  let (w, r) := m (n_control n) in
  (set_control w n, match r with Ok a => Ok a | Err e => Err (store_error e) end).

Definition forks {A} (m : fop (P:=FP) (E:=FE) A) : node A := λ n,
  let (w, r) := m (n_forks n) in
  (set_forks w n, match r with Ok a => Ok a | Err e => Err (FeedForkFailed e) end).

(** A synchronous read of the state. *)
Definition look {A} (f : ChronologNode → A) : node A := λ n, (n, Ok (f n)).
Definition write (f : ChronologNode → ChronologNode) : node unit := λ n, (f n, Ok tt).
Definition check {A} (r : result ErrorCode A) : node A := λ n,
  (n, match r with Ok a => Ok a | Err code => Err (ProtocolError code) end).

(** A call of the outside world. *)
Definition outside {A} (m : call A) : node A := λ n, let (w, r) := m (n_world n) in (set_world w n, r).
Definition ask {A} (m : call A) : async A := service (outside m).

Context (options : ChronologNodeOptions).

Definition identity : bytes := publicKeyBytes (no_identity options).
Definition transport_identity : jsstring := ct_identity (no_transport options).
Definition groupRoute : bytes := default (no_groupId options) (no_groupRoute options).
Definition maximumRetryRecords : Z := default 4096 (no_maximumRetryRecords options).

(** ** Small helpers *)

Definition clockNow : node Z := look (λ n, no_now options (n_world n)).

Definition emit (reason : RevisionReason) (txId : option bytes) : node unit := write (λ n,
    let revision := Z.max (n_revision n + 1) (sequence (w_store (n_control n))) in
    set_emitted revision (n_events n ++ [mkEvent revision reason txId]) n).

Definition recordError (error : Error) : node unit :=
  write (set_lastError (Some error)) ;; emit reason_error None.

Definition recordIngestionError (error : Error) : node unit :=
  write (λ n, let i := n_ingestion n in
    set_ingestion (mkIngestion (in_seen i) (in_retryRecords i) (in_retryOverflow i) (Some error)) n) ;;
  emit reason_error None.

Definition membershipState (n : ChronologNode) : OperationalMembershipState :=
  match no_membershipState options with
  | Some state => state (n_world n)
  | None => mkMembershipState (no_membershipRevision options) (no_validationPolicy options)
    (vo_capabilityId <$> no_validator options)
  end.
Definition membershipRevision (n : ChronologNode) : bytes := ms_membershipRevision (membershipState n).
Definition validationPolicy (n : ChronologNode) : bytes := ms_validationPolicy (membershipState n).
Definition validatorCapability (n : ChronologNode) : option bytes := ms_validatorCapability (membershipState n).
Definition executionManifestDigest (n : ChronologNode) : bytes := rs_executionManifestDigest (mat_queries (no_materialization options) (n_world n)).

Definition assertReady : node unit :=
  started ← look n_started;
  if negb started then fails NODE_NOT_STARTED else
  isQuarantined ← look (λ n, FeedForks.quarantined (fw_registry (n_forks n)) None);
  if (isQuarantined : bool) then fails NODE_FEED_FORK_QUARANTINED else mret tt.

(** *** Cutoffs *)

Definition advanceValidatorCutoff (now : Z) : node unit :=
  match no_validator options with
  | None => mret tt
  | Some v =>
    let proposed := Z.max 0 (now - default 60000 (vo_cutoffLagMs v)) in
    write (λ n, if n_acceptedAboveMs n <? proposed then set_acceptedAboveMs proposed n else n)
  end.

Definition persistValidatorCutoff : node unit :=
  match no_validator options with
  | None => mret tt
  | Some _ => cutoff ← look n_acceptedAboveMs; control (ControlStore.persistValidatorCutoff identity cutoff)
  end.

(** *** Authorisation *)

Definition membershipAllowsTransportAuthor (transportAuthor : jsstring) (role : CapabilityRole) (signingId : bytes)
  (membershipRevision : bytes) (validatorCapability : option bytes) : async bool :=
  match mr_canUseTransportAuthor (no_membership options) with
  | None => awaiting (mret (bool_decide (transportAuthor = transport_identity) && equalBytes signingId identity))
  | Some f => ask (f (mkTransportContext (no_groupId options) membershipRevision role signingId transportAuthor validatorCapability))
  end.

Definition canUseTransportAuthor (record : TransportRecord) (role : CapabilityRole) (signingId : bytes)
  (membershipRevision : bytes) (validatorCapability : option bytes) : async bool :=
  membershipAllowsTransportAuthor (tr_author record) role signingId membershipRevision validatorCapability.

Definition heartbeatAuthorized (context : ValidatorAuthorityContext) : async bool :=
  match mr_canHeartbeat (no_membership options) with
  | Some f => ask (f context)
  | None =>
    current ← sync (look (λ n, (membershipRevision n, validationPolicy n)));
    if negb (equalBytes (vac_membershipRevision context) current.1) then awaiting (mret false)
    else ask (mr_canValidate (no_membership options)
      (mkCandidateContext (mkAdmissionContext (vac_groupId context) (vac_membershipRevision context) current.2
          (vac_validatorId context)) (vac_validatorId context) (vac_validatorCapability context)))
  end.

(** The context of the writer of a transaction. *)
Definition writerContext (core : TransactionCore) : AdmissionContext :=
  mkAdmissionContext (tx_groupId core) (tx_membershipRevision core) (tx_validationPolicy core) (tx_authorId core).

Definition expectedPolicyVersion (core : TransactionCore) : async Z :=
  match mr_policyVersion (no_membership options) with
  | Some f => ask (f (writerContext core))
  | None => awaiting (mret 1)
  end.

(** ** Envelopes and the transport *)

Definition wire_call {A} (m : SE W WireError A) : call A := λ w,
  let (w', r) := m w in (w', match r with Ok a => Ok a | Err e => Err (WireFailed e) end).

(** [await encodeSignedEnvelope(...)] and [await transport.publish(envelope)] *)
Definition signedEnvelope (t : WireType) (payload : bytes) : async bytes :=
  ask (wire_call (encodeSignedEnvelope sha256 ed25519_sign groupRoute t payload (no_identity options)
      (no_envelopeCipher options) (no_blobPayloads options))).

Definition transport_publish (message : Outgoing) (envelope : bytes) : async TransportRecord :=
  service (write (λ n, set_outbox (n_outbox n ++ [message]) n) ;; outside (ct_publish (no_transport options) envelope)).

Definition decodeRecord (record : TransportRecord) : async SignedWireMessage :=
  proc_catch (λ _, Throw (TerminalIngestError INVALID_SIGNED_ENVELOPE))
  (ask (wire_call (decodeSignedEnvelope sha256 ed25519_verify (tr_payload record) groupRoute
        (no_envelopeCipher options) (bo_store <$> no_blobPayloads options)))).

Definition decoded {X A} (r : result X A) (code : TerminalCode) : node A :=
  match r with Ok a => mret a | Err _ => invalid code end.
Definition decodeCandidate (encoded : bytes) : node TransactionCore :=
  decoded (decodeTransactionCore encoded) INVALID_CANDIDATE_PAYLOAD.
Definition decodeAttestation (encoded : bytes) : node ValidatorAttestation :=
  decoded (decodeValidatorAttestation encoded) INVALID_ATTESTATION_PAYLOAD.
Definition decodeHeartbeat (encoded : bytes) : node Messages.ValidatorHeartbeat :=
  decoded (decodeValidatorHeartbeat encoded) INVALID_HEARTBEAT_PAYLOAD.

(** ** Admission *)

(** The comparisons of an attestation with the candidate that need no service. *)
Definition attests (candidate : StoredCandidate) (core : TransactionCore) (attestation : StoredAttestation) : bool :=
  equalBytes (sa_txId attestation) (sc_txId candidate) &&
  equalBytes (sa_candidateDigest attestation) (sc_candidateDigest candidate) &&
  equalBytes (sa_membershipRevision attestation) (tx_membershipRevision core) &&
  (sa_authorTimestampMs attestation =? tx_authorTimestampMs core) &&
  (sa_acceptedAboveMs attestation <? sa_authorTimestampMs attestation).

Definition isValidAdmissionProof (candidate : StoredCandidate) (core : TransactionCore) (attestation : StoredAttestation) :
  async bool :=
  if negb (attests candidate core attestation) then awaiting (mret false)
  else
  version ← expectedPolicyVersion core;
  if negb (sa_policyVersion attestation =? version) then awaiting (mret false)
  else
  transportAuthorized ←
  match mr_canUseTransportAuthor (no_membership options) with
  | Some f => ask (f (mkTransportContext (tx_groupId core) (tx_membershipRevision core) validator
        (sa_validatorId attestation) (sa_transportAuthor attestation) (Some (sa_validatorCapability attestation))))
  | None => awaiting (mret (bool_decide (sa_transportAuthor attestation = transport_identity) &&
        equalBytes (sa_validatorId attestation) identity))
  end;
  if negb transportAuthorized then awaiting (mret false)
  else ask (mr_canValidate (no_membership options)
    (mkCandidateContext (writerContext core) (sa_validatorId attestation) (sa_validatorCapability attestation))).

(** The loop over the attestations: the first valid one of each validator. *)
Fixpoint eligibleAttestations (candidate : StoredCandidate) (core : TransactionCore) (known : list StoredAttestation)
  (validators : jsset jsstring) (eligible : list StoredAttestation) : async (list StoredAttestation) :=
  match known with
  | [] => mret eligible
  | attestation :: known' =>
    let key := idKey (sa_validatorId attestation) in
    if set_has key validators then eligibleAttestations candidate core known' validators eligible
    else
    valid ← isValidAdmissionProof candidate core attestation;
    if (valid : bool)
    then eligibleAttestations candidate core known' (set_add key validators) (eligible ++ [attestation])
    else eligibleAttestations candidate core known' validators eligible
  end.

Definition admitCandidate (txId : bytes) (proof : list StoredAttestation) : node unit :=
  control (setCandidateState txId admissible (Some (sa_attestationId <$> proof)) None) ;;
  write (set_pending true).

Definition evaluateAdmission (txId : bytes) (core : TransactionCore) : async unit :=
  found ← sync (look (λ n, getCandidate (w_store (n_control n)) txId));
  match found with
  | None => mret tt
  | Some candidate =>
    if negb (bool_decide (sc_state candidate = pending_validation)) then mret tt
    else
    threshold ← ask (mr_threshold (no_membership options) (writerContext core));
    if negb ((1 <=? threshold) && (threshold <=? MAX_SAFE_INTEGER)) then sync (fails INVALID_VALIDATION_THRESHOLD)
    else
    known ← sync (look (λ n, attestationsFor (w_store (n_control n)) txId));
    eligible ← eligibleAttestations candidate core known [] [];
    match mr_selectAdmission (no_membership options) with
    | Some select =>
      customSelection ← ask (select (writerContext core) eligible);
      match customSelection with
      | [] => mret tt
      | _ =>
        if forallb (λ item, bool_decide (idKey (sa_attestationId item) ∈ idKey ∘ sa_attestationId <$> eligible)) customSelection
        then sync (admitCandidate txId customSelection)
        else sync (fails MEMBERSHIP_RESOLVER_RETURNED_UNKNOWN_ATTESTATION)
      end
    | None =>
      awaiting (mret tt) ;;
      if zlen eligible <? threshold then mret tt
      else sync (admitCandidate txId (take (Z.to_nat threshold) eligible))
    end
  end.

(** ** Validation *)

Definition encodes {A} (r : result ErrorCode A) : async A := sync (check r).

(** The part of [#maybeAttest] before its first [await]: the cutoff the node
    commits itself to, and whether the candidate lies above it. *)
Definition attestable (v : ValidatorOptions) (core : TransactionCore) : node bool :=
  now ← clockNow;
  advanceValidatorCutoff now ;;
  persistValidatorCutoff ;;
  acceptedAbove ← look n_acceptedAboveMs;
  let futureLimit := now + default 30000 (vo_maxFutureSkewMs v) in
  mret (negb ((futureLimit <? tx_authorTimestampMs core) || (tx_authorTimestampMs core <=? acceptedAbove))).

Definition maybeAttest (txId : bytes) (candidate : StoredCandidate) (core : TransactionCore) : async unit :=
  match no_validator options with
  | None => mret tt
  | Some v =>
    capability ← sync (look validatorCapability);
    match capability with
    | None => mret tt
    | Some capability =>
      inWindow ← sync (attestable v core);
      if negb inWindow then mret tt else
      mayValidate ← ask (mr_canValidate (no_membership options)
        (mkCandidateContext (writerContext core) identity capability));
      if negb mayValidate then mret tt else
      allowed ← membershipAllowsTransportAuthor transport_identity validator identity (tx_membershipRevision core) (Some capability);
      if negb allowed then sync (fails LOCAL_TRANSPORT_AUTHOR_UNAUTHORIZED) else
      attested ← sync (look (λ n, existsb (λ item, equalBytes (sa_validatorId item) identity)
          (attestationsFor (w_store (n_control n)) txId)));
      if (attested : bool) then mret tt else
      policyVersion ← expectedPolicyVersion core;
      if policyVersion <? 0 then mret tt else
      if negb (default policyVersion (vo_policyVersion v) =? policyVersion)
      then sync (fails VALIDATOR_POLICY_VERSION_MISMATCH) else
      acceptedAbove ← sync (look n_acceptedAboveMs);
      let attestation := mkAttestation (tx_groupId core) (tx_membershipRevision core) capability txId identity
      (tx_authorTimestampMs core) acceptedAbove (sc_candidateDigest candidate) admit_decision policyVersion in
      payload ← encodes (encodeValidatorAttestation attestation);
      envelope ← signedEnvelope WTattestation payload;
      transport_publish (out_attestation attestation) envelope ;;
      mret tt
    end
  end.

(** ** Ingestion *)

Definition ingestCandidate (record : TransportRecord) (canonical signer : bytes) : async unit :=
  core ← sync (decodeCandidate canonical);
  if negb (equalBytes (tx_groupId core) (no_groupId options)) then sync (invalid CANDIDATE_WRONG_GROUP) else
  if negb (equalBytes (tx_authorId core) signer) then sync (invalid CANDIDATE_SIGNER_MISMATCH) else
  allowed ← canUseTransportAuthor record writer signer (tx_membershipRevision core) None;
  if negb allowed then sync (invalid CANDIDATE_TRANSPORT_AUTHOR_UNAUTHORIZED) else
  manifest ← sync (look executionManifestDigest);
  if negb (equalBytes (tx_executionManifestDigest core) manifest)
  then sync (invalid CANDIDATE_EXECUTION_MANIFEST_DIGEST_MISMATCH) else
  if negb (no_compileSqlProgram options (tx_program core)) then sync (invalid CANDIDATE_SQL_INVALID) else
  candidateDigest ← awaiting (encodes (transactionDigest sha256 canonical));
  txId ← encodes (utf8 (tr_id record));
  canWrite ← ask (mr_canWrite (no_membership options) (writerContext core));
  orderKey ← encodes (transactionOrderKey (tx_authorTimestampMs core) (tx_authorId core)
    (mkTransportIdentity (tr_sequence record) txId));
  let candidate := mkCandidate txId (tx_groupId core) candidateDigest (tx_validationPolicy core) orderKey (Some canonical)
  (if (canWrite : bool) then pending_validation else unauthorized)
  (if canWrite then None else Some (js "WRITER_UNAUTHORIZED")) [] in
  inserted ← sync (control (putCandidate (mkCandidateInput txId (tx_groupId core) candidateDigest (tx_validationPolicy core)
        orderKey (Some canonical) (sc_state candidate) (sc_stateReason candidate) (Some []))));
  sync (write (λ n, set_cores (map_set (idKey txId) core (n_candidateCores n)) n)) ;;
  sync (if (inserted.1 : bool) then emit reason_candidate (Some txId) else mret tt) ;;
  if (canWrite : bool)
  then awaiting (evaluateAdmission txId core) ;; awaiting (maybeAttest txId candidate core)
  else mret tt.

Definition ingestAttestation (record : TransportRecord) (encoded signer : bytes) : async unit :=
  value ← sync (decodeAttestation encoded);
  if negb (equalBytes (at_groupId value) (no_groupId options)) then sync (invalid ATTESTATION_WRONG_GROUP) else
  if negb (equalBytes (at_validatorId value) signer) then sync (invalid ATTESTATION_SIGNER_MISMATCH) else
  allowed ← canUseTransportAuthor record validator signer (at_membershipRevision value) (Some (at_validatorCapability value));
  if negb allowed then sync (invalid ATTESTATION_TRANSPORT_AUTHOR_UNAUTHORIZED) else
  acceptedAbove ← sync (look n_acceptedAboveMs);
  sync (if equalBytes (at_validatorId value) identity && bool_decide (tr_author record = transport_identity) &&
    (acceptedAbove <? at_acceptedAboveMs value)
    then write (set_acceptedAboveMs (at_acceptedAboveMs value)) ;; persistValidatorCutoff
    else mret tt) ;;
  core ← sync (look (λ n, map_get (idKey (at_txId value)) (n_candidateCores n)));
  attestationId ← encodes (utf8 (tr_id record));
  inserted ← sync (control (putAttestation (mkStoredAttestation attestationId (at_txId value) (at_validatorId value)
        (at_validatorCapability value) (at_membershipRevision value) (at_candidateDigest value) (tr_sequence record)
        (at_authorTimestampMs value) (at_acceptedAboveMs value) (at_policyVersion value) (tr_author record))));
  sync (if (inserted.1 : bool) then emit reason_attestation (Some (at_txId value)) else mret tt) ;;
  match core with
  | Some core => awaiting (evaluateAdmission (at_txId value) core)
  | None => mret tt
  end.

(** A decimal of the transport status. *)
Definition canonical_decimal (text : jsstring) : bool :=
  match text with
  | [] => false
  | [c] => is_digit c
  | c :: rest => (49 <=? c) && (c <=? 57) && forallb is_digit rest
  end.

Definition isFeedContiguous (record : TransportRecord) : async bool :=
  states ← ask (ct_feedStates (no_transport options));
  match list_find (λ feed : jsstring * jsstring, feed.1 = tr_author record) (default [] states) with
  | None => awaiting (mret false)
  | Some (_, feed) =>
    awaiting (mret (canonical_decimal feed.2 && (tr_sequence record <=? digits_value feed.2)))
  end.

Definition ingestHeartbeat (record : TransportRecord) (encoded signer : bytes) : async unit :=
  heartbeat ← sync (decodeHeartbeat encoded);
  if negb (equalBytes (hb_groupId heartbeat) (no_groupId options)) then sync (invalid HEARTBEAT_WRONG_GROUP) else
  if negb (equalBytes (hb_validatorId heartbeat) signer) then sync (invalid HEARTBEAT_SIGNER_MISMATCH) else
  allowed ← canUseTransportAuthor record validator signer (hb_membershipRevision heartbeat) (Some (hb_validatorCapability heartbeat));
  if negb allowed then sync (invalid HEARTBEAT_TRANSPORT_AUTHOR_UNAUTHORIZED) else
  authorized ← heartbeatAuthorized (mkAuthorityContext (hb_groupId heartbeat) (hb_membershipRevision heartbeat)
    (hb_validatorId heartbeat) (hb_validatorCapability heartbeat));
  if negb authorized then sync (invalid HEARTBEAT_VALIDATOR_UNAUTHORIZED) else
  acceptedAbove ← sync (look n_acceptedAboveMs);
  sync (if equalBytes (hb_validatorId heartbeat) identity && (acceptedAbove <? hb_acceptanceCutoffMs heartbeat)
    then write (set_acceptedAboveMs (hb_acceptanceCutoffMs heartbeat)) ;; persistValidatorCutoff
    else mret tt) ;;
  heartbeatId ← encodes (utf8 (tr_id record));
  contiguous ← isFeedContiguous record;
  recorded ← sync (control (recordHeartbeat (mkStoredHeartbeat heartbeatId (hb_validatorId heartbeat)
        (hb_validatorCapability heartbeat) (hb_membershipRevision heartbeat) (tr_sequence record)
        (hb_acceptanceCutoffMs heartbeat) contiguous)));
  sync (match recorded with Some _ => emit reason_heartbeat None | None => mret tt end).

(** *** [ingest], inside the mutex *)

Definition on_ingestion (f : Ingestion → Ingestion) : node unit := write (λ n, set_ingestion (f (n_ingestion n)) n).

Definition markSeen (id : jsstring) : node unit := on_ingestion (λ i,
    mkIngestion (set_add id (in_seen i)) (in_retryRecords i) (in_retryOverflow i) (in_ingestionError i)).

Definition dropRetry (id : jsstring) : node unit := on_ingestion (λ i,
    mkIngestion (in_seen i) (map_delete id (in_retryRecords i)) (in_retryOverflow i) (in_ingestionError i)).

(** [if (this.#retryRecords.size === 0 && !this.#retryOverflow) this.#ingestionError = undefined] *)
Definition clearIngestionError : node unit := on_ingestion (λ i,
    if (length (in_retryRecords i) =? 0)%nat && negb (in_retryOverflow i)
    then mkIngestion (in_seen i) (in_retryRecords i) (in_retryOverflow i) None else i).

(** A transiently failed record is kept for another attempt while there is room. *)
Definition keepForRetry (record : TransportRecord) : node unit := on_ingestion (λ i,
    if map_has (tr_id record) (in_retryRecords i) || (zlen (in_retryRecords i) <? maximumRetryRecords)
    then mkIngestion (in_seen i) (map_set (tr_id record) record (in_retryRecords i)) (in_retryOverflow i) (in_ingestionError i)
    else mkIngestion (in_seen i) (in_retryRecords i) true (in_ingestionError i)).

(** The three kinds of messages a node takes; others are ignored. *)
Definition is_wire_type (t : EnvelopeMessageType) : bool :=
  match t with MTcandidate | MTattestation | MTheartbeat => true | _ => false end.

(** The body of the [try] block. *)
Definition ingest_record (record : TransportRecord) : async unit :=
  continuity ← sync (forks (observe (no_localeCompare options) record));
  match continuity with
  | discarded => sync (markSeen (tr_id record))
  | quarantined_feed =>
    sync (markSeen (tr_id record) ;; recordError (NodeFailed (FEED_FORK_QUARANTINED (tr_author record))))
  | _ =>
    envelope ← encodes (decodeEnvelope (tr_payload record));
    if negb (is_wire_type (env_messageType envelope)) then sync (markSeen (tr_id record))
    else
    wire ← awaiting (decodeRecord record);
    awaiting (match wm_type wire with
      | WTcandidate => ingestCandidate record (wm_payload wire) (wm_signer wire)
      | WTattestation => ingestAttestation record (wm_payload wire) (wm_signer wire)
      | WTheartbeat => ingestHeartbeat record (wm_payload wire) (wm_signer wire)
      end) ;;
    sync (markSeen (tr_id record) ;; dropRetry (tr_id record) ;; clearIngestionError)
  end.

(** The [catch] block; it also schedules the next attempt. *)
Definition ingest_failed (record : TransportRecord) (error : Error) : async unit := sync
  match error with
  | TerminalIngestError _ => markSeen (tr_id record) ;; dropRetry (tr_id record) ;; emit reason_error None
  | ControlStoreConflictError _ => markSeen (tr_id record) ;; dropRetry (tr_id record) ;; recordError error
  | _ => keepForRetry record ;; recordIngestionError error
  end.

Definition ingest (record : TransportRecord) : async unit :=
  seen ← sync (look (λ n, set_has (tr_id record) (in_seen (n_ingestion n))));
  if (seen : bool) then mret tt
  else proc_catch (ingest_failed record) (ingest_record record).

(** *** The timer of [#scheduleIngestionRetry] *)

Definition setRetryOverflow (overflow : bool) : node unit := on_ingestion (λ i,
    mkIngestion (in_seen i) (in_retryRecords i) overflow (in_ingestionError i)).

Definition retry_start (n : ChronologNode) : RetryRun := retrying (map_values (in_retryRecords (n_ingestion n))).

(** One turn of its program: the state, the record that [ingest] is called with, and
    what is left of the program. *)
Definition retry_turn (run : RetryRun) (n : ChronologNode) : ChronologNode * option TransportRecord * option RetryRun :=
  let i := n_ingestion n in
  let full := maximumRetryRecords <=? zlen (in_retryRecords i) in
  match run with
  | retrying (record :: records) => (n, Some record, Some (retrying records))
  | retrying [] =>
    if in_retryOverflow i && negb full then ((setRetryOverflow false n).1, None, Some reading_history) else (n, None, None)
  | reading_history => (n, None, Some reading_history)
  | listing (record :: history) =>
    if set_has (tr_id record) (in_seen i) || map_has (tr_id record) (in_retryRecords i) then (n, None, Some (listing history))
    else if full then ((setRetryOverflow true n).1, None, None)
    else (n, Some record, Some (listing history))
  | listing [] => (n, None, None)
  end.

(** The turn in which the answer of [transport.history()] arrives. *)
Definition retry_answered (answer : result Error (list TransportRecord)) (n : ChronologNode) : ChronologNode * option RetryRun :=
  match answer with
  | Ok history => (n, Some (listing history))
  | Err error => (((setRetryOverflow true ;; recordError error) n).1, None)
  end.

(** ** Materialisation *)

(** The admitted transaction of a stored candidate. *)
Definition admittedTransaction (n : ChronologNode) (candidate : StoredCandidate) : option AdmittedTransaction :=
  match map_get (idKey (sc_txId candidate)) (n_candidateCores n), sc_canonicalPayload candidate with
  | Some core, Some payload =>
    Some (mkAdmitted (sc_txId candidate) (ok_authorFeedSequence (sc_orderKey candidate)) (sc_candidateDigest candidate)
      payload core)
  | _, _ => None
  end.

(** The order handed to the materializer. *)
Definition admittedTransactions : node (list AdmittedTransaction) := λ n,
  (n, match orderedCandidates (w_store (n_control n)) with
    | Ok candidates =>
      match mapM (admittedTransaction n) candidates with
      | Some ordered => Ok ordered
      | None => Err (NodeFailed ADMITTED_CANDIDATE_PAYLOAD_MISSING)
      end
    | Err code => Err (ControlStoreConflictError code)
    end).

(** The outcomes that a replay changed. *)
Definition replayed (changes : list MaterializationOutcomeChange) (outcomes : jsset jsstring) : jsset jsstring :=
  foldl (λ known change,
    match oc_previous change with
    | Some previous => if bool_decide (previous = oc_current change) then known else set_add (idKey (oc_txId change)) known
    | None => known
    end) outcomes changes.

Definition same_revision (published : MaterializedRevisionSnapshot) (revision : Z) (orderLength : Z) (manifestDigest : bytes) : bool :=
  (rs_revision published =? revision) && (rs_orderLength published =? orderLength) &&
  equalBytes (rs_executionManifestDigest published) manifestDigest.

Definition reconcileMaterializer : async unit :=
  pending ← sync (look n_materializationPending);
  if negb pending then mret tt else
  ordered ← sync admittedTransactions;
  coordinated ← ask (mat_materialize (no_materialization options) ordered);
  match coordinated with
  | None => mret tt
  | Some c =>
    published ← ask (mat_publish (no_materialization options) (cm_publication c));
    if same_revision (pr_snapshot published) (mv_revision (cm_revision c)) (mv_orderLength (cm_revision c))
    (mv_manifestDigest (cm_revision c))
    then mret tt else sync (fails MATERIALIZATION_PUBLICATION_RESULT_MISMATCH)
  end ;;
  reconciled ← ask (mat_reconcile (no_materialization options) (zlen ordered) (mv_revision ∘ cm_revision <$> coordinated));
  queries ← sync (look (λ n, mat_queries (no_materialization options) (n_world n)));
  if negb (same_revision (pr_snapshot reconciled) (rs_revision queries) (rs_orderLength queries)
    (rs_executionManifestDigest queries) && (rs_orderLength (pr_snapshot reconciled) =? zlen ordered))
  then sync (fails MATERIALIZATION_RECONCILIATION_RESULT_MISMATCH) else
  sync (write (set_pending false) ;;
    match coordinated with
    | None => mret tt
    | Some c =>
      write (λ n, set_replayedOutcomes (replayed (mv_outcomeChanges (cm_revision c)) (n_replayedOutcomes n)) n) ;;
      emit reason_materialized None
    end).

(** The job of the materialisation timers, inside the mutex; a failure is recorded and
    another attempt scheduled. *)
Definition materialization_job : async unit :=
  pending ← sync (look n_materializationPending);
  if negb pending then mret tt
  else proc_catch (λ error, sync (recordError error)) (awaiting reconcileMaterializer).

(** ** Publishing *)

(** The heartbeat is built in the turn in which its cutoff was persisted. *)
Definition heartbeat_message (capability : bytes) : node Messages.ValidatorHeartbeat :=
  now ← clockNow;
  advanceValidatorCutoff now ;;
  persistValidatorCutoff ;;
  look (λ n, Messages.mkHeartbeat (no_groupId options) (membershipRevision n) capability identity (n_acceptedAboveMs n)).

(** [publishHeartbeat] up to its final [await this.ingest(record)]. *)
Definition heartbeat_record : async TransportRecord :=
  sync assertReady ;;
  match no_validator options with
  | None => sync (fails NODE_NOT_VALIDATOR)
  | Some _ =>
    capability ← sync (look validatorCapability);
    match capability with
    | None => sync (fails NODE_VALIDATOR_CAPABILITY_UNAVAILABLE)
    | Some capability =>
      revision ← sync (look membershipRevision);
      authorized ← heartbeatAuthorized (mkAuthorityContext (no_groupId options) revision identity capability);
      if negb authorized then sync (fails VALIDATOR_UNAUTHORIZED) else
      revision' ← sync (look membershipRevision);
      allowed ← membershipAllowsTransportAuthor transport_identity validator identity revision' (Some capability);
      if negb allowed then sync (fails LOCAL_TRANSPORT_AUTHOR_UNAUTHORIZED) else
      heartbeat ← sync (heartbeat_message capability);
      payload ← encodes (encodeValidatorHeartbeat heartbeat);
      envelope ← signedEnvelope WTheartbeat payload;
      transport_publish (out_heartbeat heartbeat) envelope
    end
  end.

Definition publishHeartbeat : async unit := record ← heartbeat_record; awaiting (ingest record).

Definition randomBytes (length : nat) : node bytes := λ n,
  let (w, b) := no_random options length (n_world n) in (set_world w n, Ok b).

Definition nextAuthorTimestamp : node Z :=
  now ← clockNow;
  look (λ n, let wallClock := Z.max 0 now in
    if n_lastAuthoredTimestampMs n <? wallClock then wallClock else n_lastAuthoredTimestampMs n + 1).

Definition allocateTransactionContext : node (Z * bytes) :=
  authorTimestampMs ← nextAuthorTimestamp;
  write (set_lastAuthored authorTimestampMs) ;;
  nonce ← randomBytes 32;
  mret (authorTimestampMs, nonce).

Definition reserveTransactionContext : node (Z * bytes) := assertReady ;; allocateTransactionContext.

(** The timestamp and nonce of a transaction: the caller's, or fresh ones. *)
Definition publish_context (input : PublishTransactionInput) : node (Z * bytes) :=
  match pi_authorTimestampMs input, pi_nonce input with
  | None, None => allocateTransactionContext
  | timestamp, nonce =>
    t ← match timestamp with Some t => mret t | None => nextAuthorTimestamp end;
    b ← match nonce with Some b => mret b | None => randomBytes 32 end;
    mret (t, b)
  end.

(** The synchronous part of [publish]: the transaction that will be sent. *)
Definition prepare_transaction (input : PublishTransactionInput) : node TransactionCore :=
  assertReady ;;
  (if no_compileSqlProgram options (pi_program input) then mret tt else throw ServiceFailed) ;;
  revision ← look (λ n, default (membershipRevision n) (pi_membershipRevision input));
  policy ← look (λ n, default (validationPolicy n) (pi_validationPolicy input));
  allocated ← publish_context input;
  let timestamp := (allocated : Z * bytes).1 in
  if (timestamp <? 0) || (2 ^ 63 - 1 <? timestamp) then fails AUTHOR_TIMESTAMP_OUT_OF_RANGE else
  if (length allocated.2 <? 16)%nat then fails TRANSACTION_NONCE_TOO_SHORT else
  write (λ n, if n_lastAuthoredTimestampMs n <? timestamp then set_lastAuthored timestamp n else n) ;;
  look (λ n, mkCore (no_groupId options) revision policy identity timestamp allocated.2 (executionManifestDigest n)
    (pi_program input) (pi_metadata input)).

Definition encodeCore (core : TransactionCore) : node bytes := λ n,
  (n, match encodeTransactionCore core with Ok b => Ok b | Err e => Err (CodecFailed e) end).

(** [publish] up to [await this.ingest(record)]. *)
Definition transaction_record (input : PublishTransactionInput) : async (TransportRecord * bytes * TransactionCore) :=
  core ← sync (prepare_transaction input);
  canWrite ← ask (mr_canWrite (no_membership options) (writerContext core));
  if negb canWrite then sync (fails WRITER_UNAUTHORIZED) else
  allowed ← membershipAllowsTransportAuthor transport_identity writer (tx_authorId core) (tx_membershipRevision core) None;
  if negb allowed then sync (fails LOCAL_TRANSPORT_AUTHOR_UNAUTHORIZED) else
  canonical ← sync (encodeCore core);
  candidateDigest ← awaiting (encodes (transactionDigest sha256 canonical));
  envelope ← signedEnvelope WTcandidate canonical;
  record ← transport_publish (out_candidate core) envelope;
  mret (record, candidateDigest, core).

Definition publish (input : PublishTransactionInput) : async PublishedTransaction :=
  sent ← transaction_record input;
  awaiting (ingest sent.1.1) ;;
  txId ← encodes (utf8 (tr_id sent.1.1));
  mret (mkPublishedTransaction txId (tr_id sent.1.1) sent.1.2 sent.2).

(** ** Starting *)

(** The largest element, or the initial one: [values.reduce((m, v) => v > m ? v : m, initial)] *)
Definition maximum (initial : Z) (values : list Z) : Z := foldl (λ m v, if m <? v then v else m) initial values.

Definition persistedCutoffs (s : ControlStore) : list Z :=
  match validatorCutoff s identity with Some v => [v] | None => [] end ++
  (sh_acceptanceCutoffMs <$> filter (λ h, equalBytes (sh_validatorId h) identity = true) (map_values (heartbeats s))) ++
  (sa_acceptedAboveMs <$> filter (λ a, equalBytes (sa_validatorId a) identity = true) (map_values (attestations s))).

Definition authoredTimestamps (s : ControlStore) : list Z :=
  (ok_authorTimestampMs ∘ sc_orderKey) <$>
  filter (λ c, equalBytes (ok_authorId (sc_orderKey c)) identity = true) (map_values (candidates s)).

(** The constructor, for a control store and a fork registry already opened. *)
Definition new_ChronologNode (controlStore : world P) (feedForks : feed_world (P:=FP)) (w : W) : result Error ChronologNode :=
  ensure ((1 <=? maximumRetryRecords) && (maximumRetryRecords <=? MAX_SAFE_INTEGER)) (NodeFailed NODE_INVALID_RETRY_CAPACITY) ≫= λ _,
  let s := w_store controlStore in
  Ok (mkNode controlStore feedForks (mkIngestion [] [] false None) [] (sequence s) [] None
    (maximum (default 0 (no_validator options ≫= vo_initialAcceptedAboveMs)) (persistedCutoffs s))
    (maximum (-1) (authoredTimestamps s)) false [] false [] w).

(** The cutoff a record of the node's own feed announces. *)
Definition announced_cutoff (wire : SignedWireMessage) : option Z :=
  if negb (equalBytes (wm_signer wire) identity) then None
  else match wm_type wire with
  | WTattestation =>
    match decodeValidatorAttestation (wm_payload wire) with
    | Ok a => if equalBytes (at_groupId a) (no_groupId options) && equalBytes (at_validatorId a) identity
      then Some (at_acceptedAboveMs a) else None
    | Err _ => None
    end
  | WTheartbeat =>
    match decodeValidatorHeartbeat (wm_payload wire) with
    | Ok h => if equalBytes (hb_groupId h) (no_groupId options) && equalBytes (hb_validatorId h) identity
      then Some (hb_acceptanceCutoffMs h) else None
    | Err _ => None
    end
  | WTcandidate => None
  end.

(** The loop of [#recoverValidatorCutoff] over the history. *)
Fixpoint recovered_cutoff (recovered : Z) (history : list TransportRecord) : async Z :=
  match history with
  | [] => mret recovered
  | record :: history' =>
    if negb (bool_decide (tr_author record = transport_identity)) then recovered_cutoff recovered history'
    else
    wire ← proc_catch (λ _, mret None) (wire ← decodeRecord record; mret (Some wire));
    match wire ≫= announced_cutoff with
    | Some cutoff => recovered_cutoff (if recovered <? cutoff then cutoff else recovered) history'
    | None => recovered_cutoff recovered history'
    end
  end.

Definition recoverValidatorCutoff (history : list TransportRecord) : async unit :=
  match no_validator options with
  | None => mret tt
  | Some _ =>
    initial ← sync (look n_acceptedAboveMs);
    recovered ← recovered_cutoff initial history;
    sync (write (set_acceptedAboveMs recovered) ;; persistValidatorCutoff)
  end.

(** [start] with the history of the transport, up to the subscription. *)
Definition start (history : list TransportRecord) : async unit :=
  started ← sync (look n_started);
  if (started : bool) then mret tt
  else
  awaiting (recoverValidatorCutoff history) ;;
  sync (write (set_started true)) ;;
  foldr (λ record rest, awaiting (ingest record) ;; rest) (mret tt) history.
End node.
