(* ===== verification/NodeProofs.v ===== *)
(** * The node under interleaving: the rely-guarantee proof

    The handlers of a node share its state and may interleave at every [await].
    [progress] is what each of their actions does to the state, whatever the
    others did before: the control store moves by its own well-formed commands,
    cutoffs, seen records and published messages are never taken back.
    [node_inv] is the invariant of the messages sent and the candidates admitted. *)

From Stdlib Require Import Strings.Byte.
From stdpp Require Import base list option numbers sets.
From S2P Require Import Prelude JsMap Bytes JsNumber Text Cbor Domains Messages StoreTypes ControlStore StoreInvariant StoreTheorems CapTypes FeedForks Membership Logical Sql Transaction Blobs Wire Async Node.

#[local] Open Scope Z_scope.

(** ** What the store commands of a node do to candidates and attestations *)

Section store_effects.
Context {P E : Type} `{!Persistence P E}.

Lemma append_attestations body s : attestations (appendDelta body s).1 = attestations s.
Proof. exact (f_equal attestations (appendDelta_frame body s)). Qed.

Lemma insertOrder_attestations c s : attestations (insertOrder (E:=E) c s).1 = attestations s.
Proof.
  unfold insertOrder. destruct (search_order _ _ _ _ _); [|done]. destruct (_ && _); [done|].
  cbv zeta. match goal with |- context [appendDelta ?b ?s1] =>
    pose proof (appendDelta_frame b s1) as Hf; destruct (appendDelta b s1) as [s2 d] end.
  exact (f_equal attestations Hf).
Qed.

Definition same_attestations (s : ControlStore) {A} (r : result (StoreError E) A) (w : world P) : Prop :=
  attestations (w_store w) = attestations s.

Ltac frame_attestations :=
  repeat (walk_step || case_match); simplify_eq; unfold same_attestations; cbn [w_store];
  rewrite ?append_attestations, ?insertOrder_attestations, ?append_attestations; done.

Lemma putCandidate_attestations input w : wp (putCandidate input) (same_attestations (w_store w)) w.
Proof. unfold putCandidate. frame_attestations. Qed.
Lemma recordHeartbeat_attestations h w : wp (recordHeartbeat h) (same_attestations (w_store w)) w.
Proof. unfold recordHeartbeat. frame_attestations. Qed.
Lemma persistCutoff_attestations id v w : wp (ControlStore.persistValidatorCutoff id v) (same_attestations (w_store w)) w.
Proof. unfold ControlStore.persistValidatorCutoff. frame_attestations. Qed.
Lemma setCandidateState_attestations txId state proof reason w :
  wp (setCandidateState txId state proof reason) (same_attestations (w_store w)) w.
Proof. unfold setCandidateState. frame_attestations. Qed.

(** A new attestation is added, none is replaced. *)
Lemma putAttestation_attestations a w :
  wp (putAttestation a) (λ _ w', attestations (w_store w') = attestations (w_store w) ∨
    attestations (w_store w') = map_set (idKey (sa_attestationId a)) a (attestations (w_store w))) w.
Proof.
  unfold putAttestation. repeat (walk_step || case_match); simplify_eq; cbn [w_store]; rewrite ?append_attestations; auto.
Qed.

Lemma putAttestation_grows a w :
  wp (putAttestation a) (λ _ w', ∀ k b, map_get k (attestations (w_store w)) = Some b →
    map_get k (attestations (w_store w')) = Some b) w.
Proof.
  unfold putAttestation. apply wp_bind, wp_reads.
  destruct (map_get (idKey (sa_attestationId a)) (attestations (w_store w))) as [e|] eqn:He.
  { repeat (walk_step || case_match); simplify_eq; done. }
  assert (∀ k b, map_get k (attestations (w_store w)) = Some b →
    map_get k (map_set (idKey (sa_attestationId a)) a (attestations (w_store w))) = Some b) as Hk.
  { intros k b Hb. rewrite map_get_set. case_decide; [congruence|done]. }
  repeat (walk_step || case_match); simplify_eq; cbn [w_store]; rewrite ?append_attestations; exact Hk.
Qed.

(** A new candidate is added as it is, and an old one stays. *)
Lemma putCandidate_candidates input w :
  wp (putCandidate input) (λ r w',
    (candidates (w_store w') = candidates (w_store w) ∨
      (map_get (idKey (in_txId input)) (candidates (w_store w)) = None ∧
        candidates (w_store w') = map_set (idKey (in_txId input)) (candidate_of_input input) (candidates (w_store w)))) ∧
    (∀ a, r = Ok a → ∃ c, map_get (idKey (in_txId input)) (candidates (w_store w')) = Some c ∧
      sameCandidateIdentity c (candidate_of_input input) = true)) w.
Proof.
  unfold putCandidate. apply wp_bind, wp_reads.
  destruct (map_get (idKey (in_txId input)) (candidates (w_store w))) as [e|] eqn:He.
  - destruct (sameCandidateIdentity e (candidate_of_input input)) eqn:Hs; cbn [negb].
    + apply wp_ret. split; [by left|]. intros _ _. by exists e.
    + apply wp_conflict. split; [by left|done].
  - assert (sameCandidateIdentity (candidate_of_input input) (candidate_of_input input) = true) as Hrefl.
    { unfold sameCandidateIdentity, bytesEqual, sameValue. by rewrite ?equalBytes_refl, ?bool_decide_true by done. }
    repeat (walk_step || case_match); simplify_eq; cbn [w_store];
      rewrite ?append_candidates, ?(proj1 (insertOrder_fields _ _)), ?append_candidates;
      (split; [by right|try done]); intros; eexists; (split; [apply map_get_set_eq|done]).
Qed.

(** A change of state replaces the candidate, with the proof given. *)
Lemma setCandidateState_candidates txId state proof reason w :
  wp (setCandidateState txId state (Some proof) reason) (λ _ w',
    candidates (w_store w') = candidates (w_store w) ∨
    ∃ c reason', map_get (idKey txId) (candidates (w_store w)) = Some c ∧
    candidates (w_store w') = map_set (idKey txId) (mkCandidate (sc_txId c) (sc_groupId c) (sc_candidateDigest c)
      (sc_validationPolicy c) (sc_orderKey c) (sc_canonicalPayload c) state reason' proof) (candidates (w_store w))) w.
Proof.
  unfold setCandidateState. apply wp_bind, wp_reads_result. unfold requiredCandidate.
  destruct (map_get (idKey txId) (candidates (w_store w))) as [c|] eqn:Hc; [|by left].
  repeat (walk_step || case_match); simplify_eq; cbn [w_store default];
    rewrite ?append_candidates, ?(proj1 (insertOrder_fields _ _)), ?append_candidates;
    first [by left|right; by eexists _, _].
Qed.

(** A persisted cutoff is the one in the store. *)
Lemma persistCutoff_result id v w :
  wp (ControlStore.persistValidatorCutoff id v) (λ r w', r = Ok tt → validatorCutoff (w_store w') id = Some v) w.
Proof.
  unfold ControlStore.persistValidatorCutoff, validatorCutoff. apply wp_bind, wp_reads.
  destruct (match _ with Some _ => _ | None => _ end) eqn:Hlow; [by apply wp_conflict|].
  case_bool_decide as Hp; [apply wp_ret; intros _; exact Hp|].
  destruct p_saveValidatorCutoff as [save|]; repeat walk_step; try done;
    cbn [w_store validatorCutoffs set_validatorCutoffs]; try (intros _; apply map_get_set_eq).
  case_match; repeat walk_step; done.
Qed.
(** The persistence layer saves whatever it is asked to save. *)
Definition saves_reliable : Prop :=
  match p_saveValidatorCutoff with
  | Some save => ∀ cutoff (disk : P), (save cutoff disk).2 = Ok tt
  | None => ∀ snapshot (disk : P), (p_save snapshot disk).2 = Ok tt
  end.

(** A cutoff that does not go back is saved then. *)
Lemma persistCutoff_saves id v w : saves_reliable → (∀ p, validatorCutoff (w_store w) id = Some p → p ≤ v) →
  validatorCutoff (w_store (ControlStore.persistValidatorCutoff id v w).1) id = Some v.
Proof.
  intros Hrel Hle. unfold saves_reliable in Hrel.
  change (wp (ControlStore.persistValidatorCutoff id v) (λ _ w', validatorCutoff (w_store w') id = Some v) w).
  unfold ControlStore.persistValidatorCutoff, validatorCutoff in *. apply wp_bind, wp_reads.
  destruct (match _ with Some _ => _ | None => _ end) eqn:Hlow.
  { destruct (map_get _ _) as [p|]; [|done]. specialize (Hle p eq_refl). lia. }
  case_bool_decide as Hp; [apply wp_ret; exact Hp|].
  assert (∀ (m : SE P E unit) Q w, (∀ disk, (m disk).2 = Ok tt) → (∀ disk, Q (Ok tt) (mkWorld (w_store w) disk)) →
    wp (persistence m) Q w) as Hsaved.
  { intros m Q w' Hm HQ. unfold wp, persistence. specialize (Hm (w_disk w')). destruct (m (w_disk w')) as [d r].
    cbn in Hm. subst r. apply HQ. }
  destruct p_saveValidatorCutoff as [save|].
  - apply wp_bind, Hsaved; [apply Hrel|]. intros disk. apply wp_updates, map_get_set_eq.
  - apply wp_bind, wp_updates, wp_bind, wp_reads, wp_catching, Hsaved; [apply Hrel|]. intros disk. apply map_get_set_eq.
Qed.
End store_effects.

(** ** Progress *)

Section progress.
Context {P E FP FE W : Type} `{!Persistence P E, !FeedForkPersistence FP FE}.
Context (sha256 : bytes → bytes) (ed25519_verify : bytes → bytes → bytes → bool) {Key : Type}
  (ed25519_sign : Key → bytes → option bytes).
Context (options : ChronologNodeOptions (E:=E) (FE:=FE) (W:=W) (Key:=Key)).

Abbreviation Node := (ChronologNode (P:=P) (E:=E) (FP:=FP) (FE:=FE) (W:=W)).

Definition store_of (n : Node) : ControlStore := w_store (n_control n).
Definition seen (n : Node) (id : jsstring) : Prop := set_has id (in_seen (n_ingestion n)) = true.
(** The record is done with, or kept for another attempt. *)
Definition in_kept (i : Ingestion (E:=E) (FE:=FE)) (id : jsstring) : Prop :=
  set_has id (in_seen i) = true ∨ map_has id (in_retryRecords i) = true.
Definition kept (n : Node) (id : jsstring) : Prop := in_kept (n_ingestion n) id.
(** The history of the transport has to be read again. *)
Definition overflowing (n : Node) : Prop := in_retryOverflow (n_ingestion n) = true.
Definition cutoff_of (n : Node) : option Z := validatorCutoff (store_of n) (identity options).

Definition store_run (w : world P) (cs : list command) : world P := foldl (λ w c, exec c w) w cs.

(** The commands a node gives its store. *)
Definition node_command (c : command) : Prop :=
  command_ok c ∧
  match c with
  | PutCandidate _ | PutAttestation _ | SetCandidateState _ _ _ _ | RecordHeartbeat _ | PersistValidatorCutoff _ _ => True
  | _ => False
  end.

(** The cutoff of a validator is the one in its store. *)
Definition synced (n : Node) : Prop := no_validator options ≠ None → cutoff_of n = Some (n_acceptedAboveMs n).

(** What an action does to the state. *)
Record progress (n n' : Node) : Prop := {
    pr_store : ∃ cs, Forall node_command cs ∧ n_control n' = store_run (n_control n) cs;
    pr_above : n_acceptedAboveMs n ≤ n_acceptedAboveMs n';
    pr_outbox : ∃ sent, n_outbox n' = n_outbox n ++ sent;
    pr_seen id : seen n id → seen n' id;
    pr_revision : n_revision n ≤ n_revision n';
    pr_kept id : kept n id → kept n' id;
    pr_synced : saves_reliable (P:=P) (E:=E) → synced n → synced n';
}.

Lemma progress_refl n : progress n n.
Proof. split; [by exists []|lia|exists []; by rewrite app_nil_r|done|lia|done|done]. Qed.

Lemma progress_trans n1 n2 n3 : progress n1 n2 → progress n2 n3 → progress n1 n3.
Proof.
  intros [(cs1 & H1 & E1) A1 (l1 & O1) S1 R1 T1 Y1] [(cs2 & H2 & E2) A2 (l2 & O2) S2 R2 T2 Y2]. split; [|lia| |auto|lia|auto|auto].
  - exists (cs1 ++ cs2). split; [by apply Forall_app|]. unfold store_run in *. by rewrite E2, E1, foldl_app.
  - exists (l1 ++ l2). by rewrite O2, O1, app_assoc.
Qed.

(** *** What follows for the store *)

Lemma exec_cutoffs c (w : world P) : map_wf (validatorCutoffs (w_store w)) →
  map_wf (validatorCutoffs (w_store (exec c w))) ∧
  cutoffs_advance (validatorCutoffs (w_store w)) (validatorCutoffs (w_store (exec c w))).
Proof.
  intros Hwf. destruct c; cbn [exec].
  1: by rewrite (wp_elim _ _ _ (proj2 (putCandidate_frame input w))).
  1: by rewrite (wp_elim _ _ _ (proj2 (proj2 (putAttestation_frame attestation w)))).
  1: by rewrite (wp_elim _ _ _ (proj2 (evaluateAdmission_frame txId evaluator w))).
  1: by rewrite (wp_elim _ _ _ (proj2 (setCandidateState_frame txId state proof reason w))).
  1: by rewrite (wp_elim _ _ _ (proj2 (recordHeartbeat_frame heartbeat w))).
  1: by rewrite (wp_elim _ _ _ (proj2 (proj2 (publishMaterializedHead_frame head w)))).
  1: by rewrite (wp_elim _ _ _ (proj2 (proj2 (putCheckpoint_frame checkpoint w)))).
  1: by rewrite (wp_elim _ _ _ (proj2 (proj2 (recordHistoryReopening_frame reopening w)))).
  2: by rewrite flush_frame.
  split; [|apply (wp_elim _ _ _ (persistValidatorCutoff_advances validatorId acceptedAboveMs w Hwf))].
  change (wp (ControlStore.persistValidatorCutoff validatorId acceptedAboveMs) (λ _ w', map_wf (validatorCutoffs (w_store w'))) w).
  unfold ControlStore.persistValidatorCutoff.
  repeat (walk_step || case_match); simplify_eq; cbn [w_store validatorCutoffs set_validatorCutoffs];
    repeat first [done|apply map_wf_set|apply map_wf_delete].
Qed.

Lemma store_run_cutoffs cs : ∀ w : world P, map_wf (validatorCutoffs (w_store w)) →
  map_wf (validatorCutoffs (w_store (store_run w cs))) ∧
  cutoffs_advance (validatorCutoffs (w_store w)) (validatorCutoffs (w_store (store_run w cs))).
Proof.
  induction cs as [|c cs IH]; intros w Hwf; [by split|]. cbn [store_run foldl].
  destruct (exec_cutoffs c w Hwf) as [Hwf' Ha]. destruct (IH _ Hwf') as [Hwf2 Ha2]. split; [done|].
  intros k v Hk. apply Ha in Hk as (v1 & Hk & Hv). apply Ha2 in Hk as (v2 & Hk & Hv2). exists v2. split; [done|lia].
Qed.

(** A candidate keeps its identity, its state only advances. *)
Lemma store_run_advances cs : ∀ (w : world P) k c, map_get k (candidates (w_store w)) = Some c →
  ∃ c', map_get k (candidates (w_store (store_run w cs))) = Some c' ∧ StoreTheorems.identity c' = StoreTheorems.identity c.
Proof.
  induction cs as [|cmd cs IH]; intros w k c Hc; [by exists c|]. cbn [store_run foldl].
  destruct (exec_advances cmd w k c Hc) as (c1 & Hc1 & Hid & _).
  destruct (IH _ _ _ Hc1) as (c2 & Hc2 & Hid2). exists c2. split; [done|congruence].
Qed.

Lemma store_run_attestations cs : Forall node_command cs → ∀ (w : world P) k a,
  map_get k (attestations (w_store w)) = Some a → map_get k (attestations (w_store (store_run w cs))) = Some a.
Proof.
  induction 1 as [|c cs [_ Hc] _ IH]; intros w k a Ha; [done|]. cbn [store_run foldl]. apply IH.
  destruct c; cbn [exec]; try done.
  - by rewrite (wp_elim _ _ _ (putCandidate_attestations input w)).
  - by apply (wp_elim _ _ _ (putAttestation_grows attestation w)).
  - by rewrite (wp_elim _ _ _ (setCandidateState_attestations txId state proof reason w)).
  - by rewrite (wp_elim _ _ _ (recordHeartbeat_attestations heartbeat w)).
  - by rewrite (wp_elim _ _ _ (persistCutoff_attestations validatorId acceptedAboveMs w)).
Qed.

Definition attestation_keys (s : ControlStore) : Prop :=
  ∀ k a, map_get k (attestations s) = Some a → k = idKey (sa_attestationId a).

Lemma store_run_attestation_keys cs : Forall node_command cs → ∀ w : world P,
  attestation_keys (w_store w) → attestation_keys (w_store (store_run w cs)).
Proof.
  induction 1 as [|c cs [_ Hc] _ IH]; intros w Hw; [done|]. cbn [store_run foldl]. apply IH. unfold attestation_keys in *.
  destruct c; cbn [exec]; try done.
  - by rewrite (wp_elim _ _ _ (putCandidate_attestations input w)).
  - destruct (wp_elim _ _ _ (putAttestation_attestations attestation w)) as [->| ->]; [done|].
    intros k a. rewrite map_get_set. case_decide; [intros [= <-]; done|apply Hw].
  - by rewrite (wp_elim _ _ _ (setCandidateState_attestations txId state proof reason w)).
  - by rewrite (wp_elim _ _ _ (recordHeartbeat_attestations heartbeat w)).
  - by rewrite (wp_elim _ _ _ (persistCutoff_attestations validatorId acceptedAboveMs w)).
Qed.

(** ** The invariant *)

(** The message has what it takes to be sent. *)
Definition sendable (n : Node) (m : Outgoing) : Prop :=
  match m with
  | out_candidate _ => True
  | out_heartbeat h => hb_acceptanceCutoffMs h ≤ n_acceptedAboveMs n ∧ ∃ v, cutoff_of n = Some v ∧ hb_acceptanceCutoffMs h ≤ v
  | out_attestation a => at_acceptedAboveMs a < at_authorTimestampMs a ∧ at_acceptedAboveMs a ≤ n_acceptedAboveMs n ∧
      no_validator options ≠ None
  end.

(** The stored candidate [key] is the transaction [core]. *)
Definition core_at (n : Node) (key : jsstring) (core : TransactionCore) : Prop :=
  ∃ c payload, map_get key (candidates (store_of n)) = Some c ∧ sc_canonicalPayload c = Some payload ∧
  decodeTransactionCore payload = Ok core ∧ transactionDigest sha256 payload = Ok (sc_candidateDigest c).

(** The attestation is for this candidate, and above the cutoff it declares. *)
Definition covers (c : StoredCandidate) (core : TransactionCore) (a : StoredAttestation) : Prop :=
  sa_txId a = sc_txId c ∧ sa_candidateDigest a = sc_candidateDigest c ∧ sa_membershipRevision a = tx_membershipRevision core ∧
  sa_authorTimestampMs a = tx_authorTimestampMs core ∧ sa_acceptedAboveMs a < sa_authorTimestampMs a.

(** The resolver gave this answer. *)
Definition answered {A} (m : SE W (NodeError E FE) A) (a : A) : Prop := ∃ w w', m w = (w', Ok a).

(** The resolver has answered that this attestation may be counted: it carries the
    policy version in force, came over a feed its validator may use, and its validator
    may validate. *)
Record approved (core : TransactionCore) (a : StoredAttestation) : Prop := {
    ap_version : match mr_policyVersion (no_membership options) with
    | Some f => answered (f (writerContext core)) (sa_policyVersion a)
    | None => sa_policyVersion a = 1
    end;
    ap_author : match mr_canUseTransportAuthor (no_membership options) with
    | Some f => answered (f (mkTransportContext (tx_groupId core) (tx_membershipRevision core) validator (sa_validatorId a)
          (sa_transportAuthor a) (Some (sa_validatorCapability a)))) true
    | None => sa_transportAuthor a = transport_identity options ∧ sa_validatorId a = identity options
    end;
    ap_validator : answered (mr_canValidate (no_membership options)
      (mkCandidateContext (writerContext core) (sa_validatorId a) (sa_validatorCapability a))) true;
}.

(** A stored attestation that counts for the candidate. *)
Definition counts (n : Node) (c : StoredCandidate) (core : TransactionCore) (a : StoredAttestation) : Prop :=
  map_get (idKey (sa_attestationId a)) (attestations (store_of n)) = Some a ∧
  covers c core a ∧ approved core a.

(** What the rule of admission says of a proof.  With the threshold rule, it has as many
    attestations as the resolver asked for, of different validators; a rule of the
    resolver itself was given attestations that count, of different validators, and
    answered with a selection from them: the proof. *)
Definition selected (n : Node) (c : StoredCandidate) (core : TransactionCore) (atts : list StoredAttestation) : Prop :=
  match mr_selectAdmission (no_membership options) with
  | None => NoDup (sa_validatorId <$> atts) ∧ answered (mr_threshold (no_membership options) (writerContext core)) (zlen atts)
  | Some select => ∃ eligible selection, answered (select (writerContext core) eligible) selection ∧
      NoDup (sa_validatorId <$> eligible) ∧ Forall (counts n c core) eligible ∧
      sa_attestationId <$> selection = sa_attestationId <$> atts ∧ atts ⊆ eligible
  end.

(** The proof of an admission: attestations that count, as the rule wants them. *)
Definition justified (n : Node) (c : StoredCandidate) : Prop :=
  ∃ core payload atts, sc_canonicalPayload c = Some payload ∧ decodeTransactionCore payload = Ok core ∧
  transactionDigest sha256 payload = Ok (sc_candidateDigest c) ∧
  atts ≠ [] ∧ sc_proofAttestationIds c = sa_attestationId <$> atts ∧ Forall (counts n c core) atts ∧
  selected n c core atts.

(** The retry set has its capacity. *)
Definition bounded_retries (i : Ingestion (E:=E) (FE:=FE)) : Prop := zlen (in_retryRecords i) ≤ maximumRetryRecords options.

Record node_inv (n : Node) : Prop := {
    ni_cutoffs : map_wf (validatorCutoffs (store_of n));
    ni_attestations : attestation_keys (store_of n);
    ni_sent : Forall (sendable n) (n_outbox n);
    ni_cores key core : map_get key (n_candidateCores n) = Some core → core_at n key core;
    ni_admitted key c : map_get key (candidates (store_of n)) = Some c → sc_state c = admissible → justified n c;
    ni_retry : bounded_retries (n_ingestion n);
}.

(** What the handlers rely on, and what they guarantee: no handler drops the note that
    the history has to be read again, which is left to the retry timer. *)
Definition rely (n n' : Node) : Prop := progress n n' ∧ (node_inv n → node_inv n').
Definition guar (n n' : Node) : Prop := rely n n' ∧ (overflowing n → overflowing n').

Lemma rely_refl n : rely n n.
Proof. split; [apply progress_refl|done]. Qed.
Lemma rely_trans n1 n2 n3 : rely n1 n2 → rely n2 n3 → rely n1 n3.
Proof. intros [P1 I1] [P2 I2]. split; [by eapply progress_trans|auto]. Qed.
Lemma guar_refl n : guar n n.
Proof. split; [apply rely_refl|done]. Qed.
Lemma guar_trans n1 n2 n3 : guar n1 n2 → guar n2 n3 → guar n1 n3.
Proof. intros [R1 O1] [R2 O2]. split; [by eapply rely_trans|auto]. Qed.
Lemma guar_rely n n' : guar n n' → rely n n'.
Proof. by intros [H _]. Qed.
Lemma guar_node_inv n n' : guar n n' → node_inv n → node_inv n'.
Proof. intros [[_ H] _]. exact H. Qed.

(** *** Facts that last *)

Lemma cutoff_lasts n n' v : map_wf (validatorCutoffs (store_of n)) → progress n n' →
  cutoff_of n = Some v → ∃ v', cutoff_of n' = Some v' ∧ v ≤ v'.
Proof.
  intros Hwf [(cs & _ & Hs) _ _ _ _ _ _] Hv. unfold cutoff_of, store_of in *. rewrite Hs.
  destruct (store_run_cutoffs cs (n_control n) Hwf) as [_ Ha]. by apply Ha in Hv.
Qed.

Lemma sendable_lasts n n' m : map_wf (validatorCutoffs (store_of n)) → progress n n' → sendable n m → sendable n' m.
Proof.
  intros Hwf Hp. destruct m as [core|a|h]; simpl; [done| |].
  - pose proof (pr_above _ _ Hp). intros (? & ? & ?). split_and!; [done|lia|done].
  - pose proof (pr_above _ _ Hp). intros (? & v & Hv & Hle). destruct (cutoff_lasts n n' v Hwf Hp Hv) as (v' & Hv' & Hle').
    split; [lia|]. exists v'. split; [done|lia].
Qed.

Lemma core_lasts n n' key core : progress n n' → core_at n key core → core_at n' key core.
Proof.
  intros [(cs & _ & Hs) _ _ _ _ _ _] (c & payload & Hc & Hp & Hd & Hg).
  destruct (store_run_advances cs (n_control n) key c Hc) as (c' & Hc' & Hid).
  unfold StoreTheorems.identity in Hid. simplify_eq. exists c', payload. unfold store_of. rewrite Hs.
  split_and!; [done|congruence|done|congruence].
Qed.

Lemma counts_lasts n n' c c' core a : progress n n' → sc_txId c' = sc_txId c →
  sc_candidateDigest c' = sc_candidateDigest c → counts n c core a → counts n' c' core a.
Proof.
  intros [(cs & Hcs & Hs) _ _ _ _ _ _] Hx Hd (Ha & Hat & Hap). split_and!; [|by unfold covers in *; rewrite Hx, Hd|done].
  unfold store_of. rewrite Hs. by apply store_run_attestations.
Qed.

Lemma justified_lasts n n' c : progress n n' → justified n c → justified n' c.
Proof.
  intros Hp (core & payload & atts & H1 & H2 & H3 & H4 & H5 & H6 & H7). exists core, payload, atts.
  assert (∀ l, Forall (counts n c core) l → Forall (counts n' c core) l) as Hcounts.
  { intros l Hl. eapply Forall_impl; [exact Hl|]. intros a. by apply counts_lasts. }
  split_and!; try done; [by apply Hcounts|]. unfold selected in *. destruct (mr_selectAdmission _); [|done].
  destruct H7 as (eligible & selection & ? & ? & ? & ? & ?). exists eligible, selection. split_and!; try done. by apply Hcounts.
Qed.

(** ** Actions *)

Lemma rely_inv (n n' : Node) : progress n n' →
  (∀ m, m ∈ n_outbox n' → m ∈ n_outbox n ∨ sendable n' m) →
  (∀ key core, map_get key (n_candidateCores n') = Some core → map_get key (n_candidateCores n) = Some core ∨ core_at n' key core) →
  (∀ key c, map_get key (candidates (store_of n')) = Some c → sc_state c = admissible →
    map_get key (candidates (store_of n)) = Some c ∨ justified n' c) →
  (bounded_retries (n_ingestion n) → bounded_retries (n_ingestion n')) →
  rely n n'.
Proof.
  intros Hp Hm Hc Ha Hr. split; [done|]. intros [Hw Hk Hs Hcores Hadm Hret]. rewrite Forall_forall in Hs.
  destruct (pr_store _ _ Hp) as (cs & Hcs & E1). split.
  - unfold store_of. rewrite E1. by apply store_run_cutoffs.
  - unfold store_of. rewrite E1. by apply store_run_attestation_keys.
  - apply Forall_forall. intros m [Hin|?]%Hm; [|done]. by eapply sendable_lasts, Hs.
  - intros key core [Hk1|?]%Hc; [|done]. by eapply core_lasts, Hcores.
  - intros key c Hk1 Hst. destruct (Ha key c Hk1 Hst) as [Hk'|?]; [|done]. by eapply justified_lasts, Hadm.
  - auto.
Qed.

(** Nothing but bookkeeping. *)
Lemma rely_quiet (n n' : Node) : n_control n' = n_control n → n_candidateCores n' = n_candidateCores n →
  n_outbox n' = n_outbox n → n_acceptedAboveMs n' = n_acceptedAboveMs n → (∀ id, seen n id → seen n' id) →
  n_revision n ≤ n_revision n' → (∀ id, kept n id → kept n' id) →
  (bounded_retries (n_ingestion n) → bounded_retries (n_ingestion n')) → rely n n'.
Proof.
  intros H1 H2 H3 H4 H5 H6 H7 H8. apply rely_inv; [..|done].
  - split; [exists []; by rewrite H1|lia|exists []; by rewrite H3, app_nil_r|done|done|done|].
    intros _. unfold synced, cutoff_of, store_of. by rewrite H1, H4.
  - intros m. rewrite H3. auto.
  - intros key core. rewrite H2. auto.
  - intros key c. unfold store_of. rewrite H1. auto.
Qed.

Lemma guar_quiet (n n' : Node) : n_control n' = n_control n → n_candidateCores n' = n_candidateCores n →
  n_outbox n' = n_outbox n → n_acceptedAboveMs n' = n_acceptedAboveMs n → (∀ id, seen n id → seen n' id) →
  n_revision n ≤ n_revision n' → (∀ id, kept n id → kept n' id) →
  (bounded_retries (n_ingestion n) → bounded_retries (n_ingestion n')) → (overflowing n → overflowing n') → guar n n'.
Proof. intros. by split; [apply rely_quiet|]. Qed.

(** A command of the store that leaves the cutoffs alone. *)
Lemma guar_command (n : Node) (w : world P) c : node_command c → w = exec c (n_control n) →
  validatorCutoffs (w_store w) = validatorCutoffs (store_of n) →
  (∀ key x, map_get key (candidates (w_store w)) = Some x → sc_state x = admissible →
    map_get key (candidates (store_of n)) = Some x ∨ justified (set_control w n) x) →
  guar n (set_control w n).
Proof.
  intros Hc Hw Hv Ha. split; [|done]. apply rely_inv; [|auto..].
  split; [exists [c]; split; [by constructor|by rewrite Hw]|done|exists []; by rewrite app_nil_r|done|done|done|].
  intros _. unfold synced, cutoff_of, store_of, validatorCutoff in *. cbn [n_control set_control n_acceptedAboveMs]. by rewrite Hv.
Qed.

(** A synchronous block all of whose actions are allowed. *)
Abbreviation node := (SE Node (NodeError E FE)).
Definition moves {A} (m : node A) : Prop := ∀ n, guar n (m n).1.

Lemma moves_ret {A} (a : A) : moves (mret a).
Proof. intros n. apply guar_refl. Qed.
Lemma moves_throw {A} e : moves (throw (A:=A) e).
Proof. intros n. apply guar_refl. Qed.
Lemma moves_look {A} (f : Node → A) : moves (look f).
Proof. intros n. apply guar_refl. Qed.
Lemma moves_check {A} (r : result ErrorCode A) : moves (check r).
Proof. intros n. apply guar_refl. Qed.
Lemma moves_bind {A B} (m : node A) (f : A → node B) : moves m → (∀ a, moves (f a)) → moves (m ≫= f).
Proof.
  intros Hm Hf n. specialize (Hm n). unfold mbind, SE_bind. destruct (m n) as [n' [a|e]]; [|done].
  eapply guar_trans; [exact Hm|apply Hf].
Qed.
Lemma moves_write (f : Node → Node) : (∀ n, guar n (f n)) → moves (write f).
Proof. intros Hf n. apply Hf. Qed.
Lemma moves_outside {A} (m : SE W (NodeError E FE) A) : moves (outside m).
Proof. intros n. unfold outside. destruct (m (n_world n)) as [w r]. by apply guar_quiet. Qed.
Lemma moves_forks {A} (m : fop (P:=FP) (E:=FE) A) : moves (forks m).
Proof. intros n. unfold forks. destruct (m (n_forks n)) as [w r]. by apply guar_quiet. Qed.

Lemma moves_emit reason txId : moves (emit reason txId).
Proof. apply moves_write. intros n. apply guar_quiet; simpl; try done; lia. Qed.
Lemma moves_recordError error : moves (recordError error).
Proof.
  apply moves_bind; [|intros _; apply moves_emit]. apply moves_write. intros n. by apply guar_quiet.
Qed.
Lemma set_has_add (x y : jsstring) l : set_has x (set_add y l) = true ↔ x = y ∨ set_has x l = true.
Proof. unfold set_has, set_add. rewrite !map_has_true, map_get_set. case_decide; naive_solver. Qed.

Lemma moves_on_ingestion f : (∀ i id, set_has id (in_seen i) = true → set_has id (in_seen (f i)) = true) →
  (∀ i id, in_kept i id → in_kept (f i) id) → (∀ i, bounded_retries i → bounded_retries (f i)) →
  (∀ i, in_retryOverflow i = true → in_retryOverflow (f i) = true) → moves (on_ingestion f).
Proof.
  intros Hf Hs Hb Ho. apply moves_write. intros n.
  apply guar_quiet; try done; [intros id; apply Hf|intros id; apply Hs|apply Hb|apply Ho].
Qed.
Lemma moves_markSeen id : moves (markSeen id).
Proof.
  apply moves_on_ingestion; [..|done|done]; intros i id'; unfold in_kept; cbn [in_seen in_retryRecords];
    rewrite set_has_add; tauto.
Qed.
Lemma map_delete_length {K A} `{!EqDecision K} (k : K) (m : jsmap K A) : zlen (map_delete k m) ≤ zlen m.
Proof. unfold zlen. induction m as [|[k' v] m IH]; cbn; [done|]. case_decide; cbn; lia. Qed.
Lemma map_set_length {K A} `{!EqDecision K} (k : K) (v : A) (m : jsmap K A) :
  zlen (map_set k v m) = if map_has k m then zlen m else zlen m + 1.
Proof.
  unfold zlen, map_has. induction m as [|[k' v'] m IH]; cbn; [done|]. repeat case_decide; cbn; try done; [].
  destruct (bool_decide _) in *; lia.
Qed.
(** A record leaves the retry set as it is seen. *)
Lemma moves_finish {A} id (m : node A) : moves m → moves (markSeen id ;; dropRetry id ;; m).
Proof.
  intros Hm n. set (n' := (dropRetry id (markSeen id n).1).1). eapply (guar_trans _ n'); [|apply Hm].
  apply guar_quiet; try done; [intros id'..|]; unfold kept, seen, in_kept, bounded_retries, n';
    cbn [dropRetry markSeen on_ingestion write fst n_ingestion set_ingestion in_seen in_retryRecords in_retryOverflow].
  - rewrite set_has_add. tauto.
  - rewrite set_has_add, !map_has_true. destruct (decide (id' = id)); [by auto|]. rewrite map_get_delete_ne by done. tauto.
  - pose proof (map_delete_length id (in_retryRecords (n_ingestion n))). lia.
Qed.
Lemma moves_clearIngestionError : moves clearIngestionError.
Proof. apply moves_on_ingestion; [intros i id; by case_match..| |]; intros i; by case_match. Qed.
Lemma moves_keepForRetry record : moves (keepForRetry options record).
Proof.
  apply moves_on_ingestion; [intros i id; by case_match| | |intros i; by case_match].
  - intros i id. unfold in_kept. case_match; cbn [in_seen in_retryRecords]; [|tauto].
    rewrite !map_has_true, map_get_set. case_decide; naive_solver.
  - intros i. unfold bounded_retries. case_match eqn:Hroom; cbn [in_retryRecords]; [|done]. rewrite map_set_length.
    destruct (map_has _ _); [done|]. cbn in Hroom. lia.
Qed.
Lemma moves_recordIngestionError error : moves (recordIngestionError error).
Proof.
  apply moves_bind; [|intros _; apply moves_emit]. apply moves_write. intros n. by apply guar_quiet.
Qed.

(** The commands that leave the candidates alone. *)
Lemma moves_control {A} (m : op P E A) c : node_command c → (∀ w, (m w).1 = exec c w) →
  (∀ w, candidates (w_store (exec c w)) = candidates (w_store w)) →
  (∀ w, validatorCutoffs (w_store (exec c w)) = validatorCutoffs (w_store w)) → moves (control m).
Proof.
  intros Hc He Hs Hv n. unfold control. specialize (He (n_control n)). destruct (m (n_control n)) as [w r]. cbn [fst] in *.
  apply (guar_command n w c Hc He); [by rewrite He, Hv|]. intros key x. rewrite He, Hs. auto.
Qed.

Lemma moves_putAttestation a : moves (control (putAttestation a)).
Proof.
  apply moves_control with (PutAttestation a); [done|done| |].
  - intros w. apply (wp_elim _ _ _ (proj1 (putAttestation_frame a w))).
  - intros w. apply (wp_elim _ _ _ (proj2 (proj2 (putAttestation_frame a w)))).
Qed.
Lemma moves_recordHeartbeat h : moves (control (recordHeartbeat h)).
Proof.
  apply moves_control with (RecordHeartbeat h); [done|done| |].
  - intros w. apply (wp_elim _ _ _ (proj1 (recordHeartbeat_frame h w))).
  - intros w. apply (wp_elim _ _ _ (proj2 (recordHeartbeat_frame h w))).
Qed.

(** *** Raising the cutoff and persisting it, in one turn *)

Lemma guar_persist n v : n_acceptedAboveMs n ≤ v → guar n (persistValidatorCutoff options (set_acceptedAboveMs v n)).1.
Proof.
  intros Hv. unfold persistValidatorCutoff. destruct (no_validator options) as [vo|] eqn:Hvo.
  2: { split; [|done]. apply rely_inv; [|auto..].
    split; [by exists []|done|exists []; by rewrite app_nil_r|done|done|done|by intros _ _ []]. }
  unfold mbind, SE_bind, look, control. cbn [n_acceptedAboveMs set_acceptedAboveMs n_control].
  pose proof (persistCutoff_saves (identity options) v (n_control n)) as Hsave.
  pose proof (wp_elim _ _ _ (proj1 (persistValidatorCutoff_frame (identity options) v (n_control n)))) as Hc.
  assert (exec (PersistValidatorCutoff (identity options) v) (n_control n) =
    (ControlStore.persistValidatorCutoff (identity options) v (n_control n)).1) as He by done.
  destruct (ControlStore.persistValidatorCutoff (identity options) v (n_control n)) as [w r]. cbn [fst] in *.
  split; [|done]. apply rely_inv; [|auto..|].
  - split; [|done|exists []; by rewrite app_nil_r|done|done|done|].
    + exists [PersistValidatorCutoff (identity options) v]. split; [by constructor|exact (eq_sym He)].
    + intros Hrel Hs _. specialize (Hs ltac:(by rewrite Hvo)). apply (Hsave Hrel).
      intros p. unfold cutoff_of, store_of in Hs. rewrite Hs. intros [= <-]. exact Hv.
  - intros key x. unfold store_of. cbn [n_control set_control]. rewrite Hc. auto.
  - done.
Qed.

Lemma set_above_same (n : Node) : set_acceptedAboveMs (n_acceptedAboveMs n) n = n.
Proof. by destruct n. Qed.

(** What [advanceValidatorCutoff] does. *)
Lemma advance_raises now (n : Node) : ∃ v, n_acceptedAboveMs n ≤ v ∧
  advanceValidatorCutoff options now n = (set_acceptedAboveMs v n, Ok tt).
Proof.
  unfold advanceValidatorCutoff, write. destruct (no_validator options); [case_match eqn:Hlt|];
    (eexists; split; [|by first [reflexivity|rewrite set_above_same]]); lia.
Qed.

Lemma moves_advance_persist {A} now (m : node A) : moves m →
  moves (advanceValidatorCutoff options now ;; persistValidatorCutoff options ;; m).
Proof.
  intros Hm n. unfold mbind at 1, SE_bind at 1. destruct (advance_raises now n) as (v & Hv & ->).
  pose proof (guar_persist n v Hv) as Hg. unfold mbind, SE_bind.
  destruct (persistValidatorCutoff options (set_acceptedAboveMs v n)) as [n' [[]|e]]; cbn [fst] in *; [|done].
  eapply guar_trans; [exact Hg|apply Hm].
Qed.

Lemma moves_raise n v : n_acceptedAboveMs n < v → guar n ((write (set_acceptedAboveMs v) ;; persistValidatorCutoff options) n).1.
Proof. intros Hv. apply (guar_persist n v). lia. Qed.

(** ** Programs *)

Abbreviation async := (proc Node (NodeError E FE)).

(** From every good state, with the others interfering, the program is within its
    guarantee. *)
Definition calm {A} (p : async A) : Prop := ∀ n, node_inv n → rg rely guar p (λ _ n', node_inv n') n.

Lemma calm_ret {A} (a : A) : calm (Ret a).
Proof. by intros n. Qed.
Lemma calm_throw {A} e : calm (A:=A) (Throw e).
Proof. by intros n. Qed.
Lemma calm_bind {A B} (p : async A) (f : A → async B) : calm p → (∀ a, calm (f a)) → calm (p ≫= f).
Proof.
  intros Hp Hf n Hn. apply rg_bind. eapply rg_mono; [|by apply Hp]. intros [a|e] n' Hn'; [by apply Hf|done].
Qed.
Lemma calm_catch {A} (p : async A) handler : calm p → (∀ e, calm (handler e)) → calm (proc_catch handler p).
Proof.
  intros Hp Hf n Hn. apply rg_catch. eapply rg_mono; [|by apply Hp]. intros [a|e] n' Hn'; [done|by apply Hf].
Qed.
Lemma calm_awaiting {A} (p : async A) : calm p → calm (awaiting p).
Proof.
  intros Hp n Hn. apply rg_awaiting. eapply rg_mono; [|by apply Hp]. intros r n1 Hn1 n2 [_ H]. auto.
Qed.
Lemma calm_sync {A} (m : node A) : moves m → calm (sync m).
Proof. intros Hm n Hn. apply rg_sync; [apply Hm|]. by eapply guar_node_inv. Qed.
Lemma calm_service {A} (m : node A) : moves m → calm (service m).
Proof.
  intros Hm n Hn. apply rg_service. intros n1 [_ H1]. split; [apply Hm|]. intros n2 [_ H2].
  by apply H2, (guar_node_inv n1 _ (Hm n1)), H1.
Qed.
Lemma calm_ask {A} (m : SE W (NodeError E FE) A) : calm (ask m).
Proof. apply calm_service, moves_outside. Qed.
Lemma calm_encodes {A} (r : result ErrorCode A) : calm (encodes r).
Proof. apply calm_sync, moves_check. Qed.

(** A read and what follows it in the same turn. *)
Lemma rg_look {A B} (g : Node → A) (f : A → async B) Q n :
  rg rely guar (f (g n)) Q n → rg rely guar (sync (look g) ≫= f) Q n.
Proof. intros H. apply rg_bind, rg_sync; [apply guar_refl|exact H]. Qed.

(** The same with a fact the others cannot destroy. *)
Definition lasting (F : Node → Prop) : Prop := ∀ n n', node_inv n → rely n n' → F n → F n'.
Definition calm_from (F : Node → Prop) {A} (p : async A) : Prop :=
  ∀ n, node_inv n → F n → rg rely guar p (λ _ n', node_inv n' ∧ F n') n.

Lemma calm_from_bind F {A B} (p : async A) (f : A → async B) :
  calm_from F p → (∀ a n, node_inv n → F n → rg rely guar (f a) (λ _ n', node_inv n') n) →
  ∀ n, node_inv n → F n → rg rely guar (p ≫= f) (λ _ n', node_inv n') n.
Proof.
  intros Hp Hf n Hn HF. apply rg_bind. eapply rg_mono; [|by apply Hp]. intros [a|e] n' [Hn' HF']; [by apply Hf|done].
Qed.

Lemma rg_frame F {A} (p : async A) : lasting F → ∀ n, node_inv n → F n →
  rg rely guar p (λ _ n', node_inv n') n → rg rely guar p (λ _ n', node_inv n' ∧ F n') n.
Proof.
  intros HF. induction p as [r|e|g IH|q IH] using proc_nested_ind; intros n Hn Hf; cbn; [done|done| |].
  - specialize (IH n). destruct (g n) as [n' q]. intros [Hg Hq]. split; [done|].
    apply IH; [by eapply guar_node_inv|eapply HF; [done|by apply guar_rely|done]|done].
  - intros H n' Hn'. apply IH; [by apply Hn'|by eapply HF|by apply H].
Qed.

Lemma calm_frame F {A} (p : async A) : lasting F → calm p → calm_from F p.
Proof. intros HF Hp n Hn Hf. apply rg_frame; auto. Qed.

(** Running a calm program first keeps the fact. *)
Lemma rg_calm_bind F {A B} (p : async A) (f : A → async B) n : lasting F → calm p → node_inv n → F n →
  (∀ a n', node_inv n' → F n' → rg rely guar (f a) (λ _ n', node_inv n') n') →
  rg rely guar (p ≫= f) (λ _ n', node_inv n') n.
Proof. intros HF Hp Hn Hf Hk. eapply (calm_from_bind F); [by apply calm_frame|done|done|done]. Qed.

(** *** Authorisation *)

Lemma calm_transport_author author role id revision capability :
  calm (membershipAllowsTransportAuthor options author role id revision capability).
Proof.
  unfold membershipAllowsTransportAuthor. destruct (mr_canUseTransportAuthor _); [apply calm_ask|].
  apply calm_awaiting, calm_ret.
Qed.
Lemma calm_heartbeatAuthorized context : calm (heartbeatAuthorized options context).
Proof.
  unfold heartbeatAuthorized. destruct (mr_canHeartbeat _); [apply calm_ask|].
  apply calm_bind; [apply calm_sync, moves_look|]. intros [r p]. destruct (negb _); [|apply calm_ask].
  apply calm_awaiting, calm_ret.
Qed.
Lemma calm_expectedPolicyVersion core : calm (expectedPolicyVersion options core).
Proof.
  unfold expectedPolicyVersion. destruct (mr_policyVersion _); [apply calm_ask|]. apply calm_awaiting, calm_ret.
Qed.
Lemma calm_signedEnvelope t payload : calm (signedEnvelope sha256 ed25519_sign options t payload).
Proof. apply calm_ask. Qed.
Lemma calm_decodeRecord record : calm (decodeRecord sha256 ed25519_verify options record).
Proof. apply calm_catch; [apply calm_ask|]. intros e. apply calm_throw. Qed.
Lemma calm_isFeedContiguous record : calm (isFeedContiguous options record).
Proof.
  unfold isFeedContiguous. apply calm_bind; [apply calm_ask|]. intros states.
  destruct (list_find _ _) as [[i feed]|]; apply calm_awaiting, calm_ret.
Qed.

(** *** Sending *)

(** A message that stays sendable is handed to the transport. *)
Lemma rg_transport_publish m envelope n : lasting (λ n, sendable n m) → node_inv n → sendable n m →
  rg rely guar (transport_publish options m envelope) (λ _ n', node_inv n') n.
Proof.
  intros HF Hn Hm. unfold transport_publish. apply rg_service. intros n1 Hn1.
  assert (node_inv n1) as Hi1 by (by apply Hn1). assert (sendable n1 m) as Hm1 by exact (HF n n1 Hn Hn1 Hm).
  set (n2 := set_outbox (n_outbox n1 ++ [m]) n1).
  assert (guar n1 n2) as Hg.
  { split; [|done]. apply rely_inv; [split; [by exists []|done|by exists [m]|done|done|done|done]| |auto..].
    intros x [Hx|Hx%list_elem_of_singleton]%elem_of_app; [by left|]. subst x. by right. }
  assert (guar n1 ((write (λ n, set_outbox (n_outbox n ++ [m]) n) ;; outside (ct_publish (no_transport options) envelope)) n1).1) as Hg2.
  { eapply guar_trans; [exact Hg|]. apply moves_outside. }
  split; [exact Hg2|]. intros n3 Hn3. by apply Hn3, (guar_node_inv _ _ Hg2).
Qed.

Lemma sendable_lasting m : lasting (λ n, sendable n m).
Proof. intros n n' Hn [Hp _]. apply sendable_lasts; [apply Hn|done]. Qed.

Ltac step_calm := first
  [ apply calm_ret | apply calm_throw | apply calm_ask | apply calm_encodes | apply calm_transport_author
    | apply calm_heartbeatAuthorized | apply calm_expectedPolicyVersion | apply calm_signedEnvelope
    | apply calm_decodeRecord | apply calm_isFeedContiguous
    | apply calm_sync, moves_throw | apply calm_sync, moves_look
    | apply calm_bind; [|intros ?] | apply calm_awaiting ].

Lemma persist_result n n' r : persistValidatorCutoff options n = (n', r) → r = Ok tt → no_validator options ≠ None →
  cutoff_of n' = Some (n_acceptedAboveMs n') ∧ n_acceptedAboveMs n' = n_acceptedAboveMs n.
Proof.
  unfold persistValidatorCutoff. destruct (no_validator options) as [vo|]; [|done].
  unfold mbind, SE_bind, look, control.
  destruct (ControlStore.persistValidatorCutoff (identity options) (n_acceptedAboveMs n) (n_control n)) as [w r'] eqn:Hp.
  intros [= <- <-]. destruct r' as [[]|e]; [|done]. intros _ _. split; [|done].
  pose proof (persistCutoff_result (identity options) (n_acceptedAboveMs n) (n_control n)) as Hr.
  unfold wp in Hr. rewrite Hp in Hr. by apply Hr.
Qed.

(** The heartbeat is built in the turn that persisted its cutoff. *)
Lemma moves_heartbeat_message capability : moves (heartbeat_message options capability).
Proof.
  apply moves_bind; [apply moves_look|]. intros now. apply moves_advance_persist, moves_look.
Qed.

Lemma heartbeat_message_sendable capability n n' h : no_validator options ≠ None →
  heartbeat_message options capability n = (n', Ok h) → sendable n' (out_heartbeat h).
Proof.
  intros Hv. unfold heartbeat_message, clockNow, look, mbind, SE_bind.
  destruct (advanceValidatorCutoff options (no_now options (n_world n)) n) as [n1 [[]|]]; [|done].
  destruct (persistValidatorCutoff options n1) as [n2 r] eqn:Hp. destruct r as [[]|]; [|done].
  destruct (persist_result _ _ _ Hp eq_refl Hv) as [Hc _]. intros [= <- <-]. split; [done|]. exists (n_acceptedAboveMs n2). by split.
Qed.

Lemma moves_assertReady : moves assertReady.
Proof.
  apply moves_bind; [apply moves_look|]. intros started. destruct (negb started); [apply moves_throw|].
  apply moves_bind; [apply moves_look|]. intros [|]; [apply moves_throw|apply moves_ret].
Qed.

Lemma calm_heartbeat_record : calm (heartbeat_record sha256 ed25519_sign options).
Proof.
  unfold heartbeat_record. apply calm_bind; [apply calm_sync, moves_assertReady|].
  intros _. destruct (no_validator options) as [vo|] eqn:Hvo; [|apply calm_sync, moves_throw].
  step_calm; [step_calm|]. destruct a as [capability|]; [|step_calm].
  do 2 (step_calm; [step_calm|]). destruct (negb _); [step_calm|].
  do 2 (step_calm; [step_calm|]). destruct (negb _); [step_calm|].
  intros n Hn. apply rg_bind, rg_sync; [apply moves_heartbeat_message|].
  pose proof (guar_node_inv _ _ (moves_heartbeat_message capability n) Hn) as Hn'.
  destruct (heartbeat_message options capability n) as [n1 [h|e]] eqn:Hh; [|done]. cbn [fst snd] in *.
  apply heartbeat_message_sendable in Hh; [|by rewrite Hvo].
  eapply (rg_calm_bind _ _ _ _ (sendable_lasting (out_heartbeat h))); [step_calm|done|done|].
  intros payload n2 Hn2 Hs2.
  eapply (rg_calm_bind _ _ _ _ (sendable_lasting (out_heartbeat h))); [step_calm|done|done|].
  intros envelope n3 Hn3 Hs3. by apply rg_transport_publish; [apply sendable_lasting|..].
Qed.

Lemma calm_transaction_record input : calm (transaction_record sha256 ed25519_sign options input).
Proof.
  unfold transaction_record. apply calm_bind.
  { apply calm_sync. unfold prepare_transaction. apply moves_bind; [apply moves_assertReady|]. intros _.
    apply moves_bind; [case_match; [apply moves_ret|apply moves_throw]|]. intros _.
    do 2 (apply moves_bind; [apply moves_look|intros ?]).
    assert (∀ k, moves (randomBytes options k)) as Hrandom.
    { intros k n. unfold randomBytes. destruct (no_random options k (n_world n)). by apply guar_quiet. }
    assert (moves (nextAuthorTimestamp options)) as Hnext by (apply moves_bind; [apply moves_look|intros ?; apply moves_look]).
    assert (∀ g, moves (write (λ n, set_lastAuthored (g n) n))) as Hset.
    { intros g. apply moves_write. intros n. by apply guar_quiet. }
    apply moves_bind.
    { unfold publish_context, allocateTransactionContext.
      destruct (pi_authorTimestampMs input), (pi_nonce input);
        repeat (apply moves_bind; [first [apply moves_ret|apply Hnext|apply Hrandom|apply (Hset (λ _, _))]|intros ?]);
        apply moves_ret. }
    intros allocated. case_match; [apply moves_throw|]. case_match; [apply moves_throw|].
    apply moves_bind; [|intros _; apply moves_look].
    apply moves_write. intros n. case_match; [|apply guar_refl]. by apply guar_quiet. }
  intros core. step_calm; [step_calm|]. destruct (negb _); [step_calm|]. step_calm; [step_calm|]. destruct (negb _); [step_calm|].
  step_calm; [by apply calm_sync; intros n; apply guar_refl|].
  step_calm; [apply calm_awaiting; step_calm|]. step_calm; [step_calm|].
  apply calm_bind; [|intros r; apply calm_ret].
  intros n Hn. apply rg_transport_publish; [apply sendable_lasting|done|exact I].
Qed.

(** *** Programs whose results matter *)

Definition yields {A} (p : async A) (Q : A → Prop) : Prop :=
  ∀ n, node_inv n → rg rely guar p (λ r n', node_inv n' ∧ ∀ a, r = Ok a → Q a) n.

Lemma yields_calm {A} (p : async A) Q : yields p Q → calm p.
Proof. intros Hp n Hn. eapply rg_mono; [|by apply Hp]. by intros r n' [H _]. Qed.
Lemma calm_yields {A} (p : async A) : calm p → yields p (λ _, True).
Proof. intros Hp n Hn. eapply rg_mono; [|by apply Hp]. done. Qed.
Lemma yields_ret {A} (a : A) (Q : A → Prop) : Q a → yields (Ret a) Q.
Proof. intros HQ n Hn. cbn. split; [done|]. by intros x [= <-]. Qed.
Lemma yields_bind {A B} (p : async A) (f : A → async B) Q Q' :
  yields p Q → (∀ a, Q a → yields (f a) Q') → yields (p ≫= f) Q'.
Proof.
  intros Hp Hf n Hn. apply rg_bind. eapply rg_mono; [|by apply Hp]. intros [a|e] n' [Hn' HQ]; [apply Hf; auto|done].
Qed.
Lemma yields_awaiting {A} (p : async A) Q : yields p Q → yields (awaiting p) Q.
Proof.
  intros Hp n Hn. apply rg_awaiting. eapply rg_mono; [|by apply Hp]. intros r n1 [Hn1 HQ] n2 [_ H]. auto.
Qed.
Lemma yields_ask {A} (m : SE W (NodeError E FE) A) : yields (ask m) (answered m).
Proof.
  intros n Hn. apply rg_service. intros n1 Hn1. split; [apply moves_outside|]. intros n2 Hn2.
  split; [by apply Hn2, (guar_node_inv _ _ (moves_outside m n1)), Hn1|]. unfold outside. destruct (m (n_world n1)) as [w r] eqn:Hm. cbn.
  intros a ->. by eexists _, _.
Qed.

(** A program that yields, with a lasting fact carried along. *)
Lemma rg_yields_bind F {A B} (p : async A) (f : A → async B) Q n : lasting F → yields p Q → node_inv n → F n →
  (∀ a n', Q a → node_inv n' → F n' → rg rely guar (f a) (λ _ n', node_inv n') n') →
  rg rely guar (p ≫= f) (λ _ n', node_inv n') n.
Proof.
  intros HF Hp Hn Hf Hk. apply rg_bind.
  enough (∀ n, node_inv n → F n → rg rely guar p (λ r n', node_inv n' ∧ ∀ a, r = Ok a → Q a) n →
    rg rely guar p (λ r n', (node_inv n' ∧ F n') ∧ ∀ a, r = Ok a → Q a) n) as H.
  { eapply rg_mono; [|apply H; [done|done|by apply Hp]]. intros [a|e] n' [[Hn' Hf'] HQ]; [apply Hk; auto|done]. }
  clear Hp Hk Hn Hf n. induction p as [r|e|g IH|q IH] using proc_nested_ind; intros n Hn Hf; cbn; [naive_solver|naive_solver| |].
  - specialize (IH n). destruct (g n) as [n' q]. intros [Hg Hq]. split; [done|].
    apply IH; [by eapply guar_node_inv|exact (HF n n' Hn (guar_rely _ _ Hg) Hf)|done].
  - intros H n' Hn'. apply IH; [by apply Hn'|exact (HF n n' Hn Hn' Hf)|by apply H].
Qed.

(** *** Admission *)

Lemma attests_covers candidate core a : attests candidate core a = true → covers candidate core a.
Proof.
  unfold attests, covers. rewrite !andb_true_iff, !equalBytes_spec. intros [[[[-> ->] ->] H1] H2]. split_and!; try done; lia.
Qed.

Lemma yields_policyVersion core : yields (expectedPolicyVersion options core)
  (λ v, match mr_policyVersion (no_membership options) with Some f => answered (f (writerContext core)) v | None => v = 1 end).
Proof.
  unfold expectedPolicyVersion. destruct (mr_policyVersion _); [apply yields_ask|by apply yields_awaiting, yields_ret].
Qed.

Lemma yields_isValidAdmissionProof candidate core a :
  yields (isValidAdmissionProof options candidate core a) (λ b, b = true → covers candidate core a ∧ approved core a).
Proof.
  unfold isValidAdmissionProof. destruct (attests candidate core a) eqn:Ha; cbn [negb];
    [|by apply yields_awaiting, yields_ret].
  eapply yields_bind; [apply yields_policyVersion|]. intros version Hversion.
  destruct (sa_policyVersion a =? version) eqn:Hv; cbn [negb]; [|by apply yields_awaiting, yields_ret].
  apply Z.eqb_eq in Hv as <-.
  eapply (yields_bind _ _ (λ b, b = true → match mr_canUseTransportAuthor (no_membership options) with
    | Some f => answered (f (mkTransportContext (tx_groupId core) (tx_membershipRevision core) validator (sa_validatorId a)
    (sa_transportAuthor a) (Some (sa_validatorCapability a)))) true
    | None => sa_transportAuthor a = transport_identity options ∧ sa_validatorId a = identity options
    end)).
  { destruct (mr_canUseTransportAuthor _).
    - intros n Hn. eapply rg_mono; [|by apply yields_ask]. intros r n' [Hn' Hr]. split; [done|]. intros b Hb ->. by apply Hr.
    - apply yields_awaiting, yields_ret. by rewrite andb_true_iff, bool_decide_eq_true, equalBytes_spec. }
  intros authorized Hauthor. destruct authorized; cbn [negb]; [|by apply yields_awaiting, yields_ret].
  intros n Hn. eapply rg_mono; [|by apply yields_ask]. intros r n' [Hn' Hr]. split; [done|]. intros b Hb Htrue.
  subst b. split; [by apply attests_covers|]. split; [done|by apply Hauthor|by apply Hr].
Qed.

(** The attestations collected so far count, and are of different validators. *)
Definition collected (candidate : StoredCandidate) (core : TransactionCore) (known : list StoredAttestation)
  (validators : jsset jsstring) (eligible : list StoredAttestation) : Prop :=
  NoDup (sa_validatorId <$> eligible) ∧
  Forall (λ a, a ∈ known ∧ covers candidate core a ∧ approved core a ∧
    set_has (idKey (sa_validatorId a)) validators = true) eligible.

Lemma yields_eligible candidate core all known : ∀ validators eligible, (∀ a, a ∈ known → a ∈ all) →
  collected candidate core all validators eligible →
  yields (eligibleAttestations options candidate core known validators eligible)
  (λ l, ∃ vs, collected candidate core all vs l).
Proof.
  induction known as [|a known IH]; intros validators eligible Hall Hc; cbn [eligibleAttestations].
  { apply yields_ret. by exists validators. }
  destruct (set_has (idKey (sa_validatorId a)) validators) eqn:Hv.
  { apply IH; [|done]. intros x Hx. apply Hall. by right. }
  eapply yields_bind; [apply yields_isValidAdmissionProof|]. intros valid Hvalid.
  assert (∀ x, x ∈ known → x ∈ all) as Hall' by (intros x Hx; apply Hall; by right).
  destruct valid; [|by apply IH]. apply IH; [done|]. destruct Hc as [Hnd Hf], (Hvalid eq_refl) as [Hat Hap]. split.
  - rewrite fmap_app. apply NoDup_app. split; [done|]. split; [|by apply NoDup_singleton].
    intros id Hid Hid'%list_elem_of_singleton. subst id. apply list_elem_of_fmap in Hid as (x & Hx & Hin).
    rewrite Forall_forall in Hf. destruct (Hf x Hin) as (_ & _ & _ & Hs). rewrite <-Hx in Hs. congruence.
  - apply Forall_app. split.
    + eapply Forall_impl; [exact Hf|]. intros x (H1 & H2 & H3 & H4). split_and!; [done..|].
      unfold set_has, set_add in *. rewrite map_has_true in *. rewrite map_get_set. case_decide; [by eexists|done].
    + apply Forall_singleton. split_and!; [apply Hall; left|done|done|].
      unfold set_has, set_add. rewrite map_has_true, map_get_set_eq. by eexists.
Qed.

(** What the evaluation of a candidate knows throughout. *)
Definition evaluating (txId : bytes) (core : TransactionCore) (candidate : StoredCandidate) (known : list StoredAttestation)
  (n : Node) : Prop :=
  core_at n (idKey txId) core ∧
  (∃ c, map_get (idKey txId) (candidates (store_of n)) = Some c ∧ StoreTheorems.identity c = StoreTheorems.identity candidate) ∧
  Forall (λ a, map_get (idKey (sa_attestationId a)) (attestations (store_of n)) = Some a) known.

Lemma evaluating_lasting txId core candidate known : lasting (evaluating txId core candidate known).
Proof.
  intros n n' Hn [Hp _] (Hc & (c & Hg & Hid) & Hk). split_and!.
  - by eapply core_lasts.
  - destruct (pr_store _ _ Hp) as (cs & _ & Hs). unfold store_of. rewrite Hs.
    destruct (store_run_advances cs (n_control n) _ _ Hg) as (c' & Hc' & Hid'). exists c'. split; [done|congruence].
  - destruct (pr_store _ _ Hp) as (cs & Hcs & Hs). eapply Forall_impl; [exact Hk|]. intros a Ha. unfold store_of. rewrite Hs.
    by apply store_run_attestations.
Qed.

(** Admission with a proof that counts. *)
Lemma rg_admit txId core candidate known proof atts n : evaluating txId core candidate known n → node_inv n →
  sa_attestationId <$> proof = sa_attestationId <$> atts → atts ≠ [] →
  Forall (λ a, a ∈ known ∧ covers candidate core a ∧ approved core a) atts →
  match mr_selectAdmission (no_membership options) with
  | None => NoDup (sa_validatorId <$> atts) ∧ answered (mr_threshold (no_membership options) (writerContext core)) (zlen atts)
  | Some select => ∃ eligible, answered (select (writerContext core) eligible) proof ∧ NoDup (sa_validatorId <$> eligible) ∧
      Forall (λ a, a ∈ known ∧ covers candidate core a ∧ approved core a) eligible ∧ atts ⊆ eligible
  end →
  rg rely guar (sync (admitCandidate txId proof)) (λ _ n', node_inv n') n.
Proof.
  intros (Hcore & (c & Hc & Hid) & Hknown) Hn Hids Hne Hatts Hrule.
  assert (guar n (admitCandidate txId proof n).1) as Hg; [|apply rg_sync; [done|by eapply guar_node_inv]].
  unfold admitCandidate. unfold mbind, SE_bind, control.
  pose proof (setCandidateState_candidates txId admissible (sa_attestationId <$> proof) None (n_control n)) as Heff.
  pose proof (setCandidateState_attestations txId admissible (Some (sa_attestationId <$> proof)) None (n_control n)) as Hsame.
  pose proof (wp_elim _ _ _ (proj2 (setCandidateState_frame txId admissible (Some (sa_attestationId <$> proof)) None (n_control n)))) as Hcutoffs.
  unfold wp, same_attestations in Heff, Hsame.
  destruct (setCandidateState txId admissible (Some (sa_attestationId <$> proof)) None (n_control n)) as [w r] eqn:Hset.
  cbn [fst snd] in Heff, Hsame, Hcutoffs.
  assert (guar n (set_control w n)) as Hg.
  { apply (guar_command n w (SetCandidateState txId admissible (Some (sa_attestationId <$> proof)) None));
      [done|cbn [exec]; by rewrite Hset|exact Hcutoffs|].
    intros key x Hx Hst. destruct Heff as [Heq|(c1 & reason & Hc1 & Heq)]; rewrite Heq in Hx; [by left|].
    rewrite map_get_set in Hx. case_decide; [|by left]. subst key. right. injection Hx as <-.
    assert (c1 = c) as -> by (unfold store_of in *; congruence).
    destruct Hcore as (c2 & payload & Hc2 & Hp & Hd & Hdig). assert (c2 = c) as -> by (unfold store_of in *; congruence).
    unfold StoreTheorems.identity in Hid. injection Hid as Hi1 Hi2 Hi3 Hi4 Hi5 Hi6.
    set (c' := mkCandidate _ _ _ _ _ _ _ _ _).
    assert (∀ l, Forall (λ a, a ∈ known ∧ covers candidate core a ∧ approved core a) l →
      Forall (counts (set_control w n) c' core) l) as Hcounts.
    { intros l Hl. rewrite Forall_forall in Hknown. eapply Forall_impl; [exact Hl|]. intros a (Hin & Hat & Hap).
      split_and!; [|by unfold covers in *; cbn; rewrite Hi1, Hi3|done].
      unfold store_of. cbn [n_control set_control]. rewrite Hsame. by apply Hknown. }
    exists core, payload, atts. split_and!; try done; [by apply Hcounts|].
    unfold selected. destruct (mr_selectAdmission _) as [select|]; [|exact Hrule].
    destruct Hrule as (eligible & Hsel & Hnd & Hel & Hsub). exists eligible, proof. split_and!; try done. by apply Hcounts. }
  destruct r as [ds|e]; [|exact Hg]. eapply guar_trans; [exact Hg|]. by apply guar_quiet.
Qed.

Lemma known_stored n txId : attestation_keys (store_of n) →
  Forall (λ a, map_get (idKey (sa_attestationId a)) (attestations (store_of n)) = Some a) (attestationsFor (store_of n) txId).
Proof.
  intros Hk. apply Forall_forall. intros a Ha. unfold attestationsFor in Ha.
  destruct (map_get _ _) as [refs|]; [|by inversion Ha].
  apply list_elem_of_omap in Ha as (ref & _ & Hr). by rewrite <-(Hk ref a Hr).
Qed.

Lemma custom_proof (selection eligible : list StoredAttestation) :
  forallb (λ item, bool_decide (idKey (sa_attestationId item) ∈ (idKey ∘ sa_attestationId) <$> eligible)) selection = true →
  ∃ atts, sa_attestationId <$> selection = sa_attestationId <$> atts ∧ Forall (λ a, a ∈ eligible) atts ∧
  length atts = length selection.
Proof.
  induction selection as [|item selection IH]; cbn [forallb]; intros H.
  { by exists []. }
  apply andb_true_iff in H as [Hi Hs]. destruct (IH Hs) as (atts & He & Hf & Hl). rewrite bool_decide_eq_true in Hi.
  apply list_elem_of_fmap in Hi as (a & Ha & Hin). simpl in Ha. apply (inj idKey) in Ha.
  exists (a :: atts). cbn. split_and!; [by rewrite Ha, He|by constructor|by rewrite Hl].
Qed.

Lemma rg_evaluateAdmission txId core n : node_inv n → core_at n (idKey txId) core →
  rg rely guar (evaluateAdmission options txId core) (λ _ n', node_inv n') n.
Proof.
  intros Hn Hcore. unfold evaluateAdmission. apply rg_look. unfold getCandidate.
  destruct (map_get (idKey txId) (candidates (w_store (n_control n)))) as [candidate|] eqn:Hc; [|done].
  destruct (negb _); [done|].
  assert (evaluating txId core candidate [] n) as Hev by (split_and!; [done|by exists candidate|done]).
  eapply (rg_yields_bind _ _ _ _ _ (evaluating_lasting txId core candidate []) (yields_ask _)); [done|done|].
  clear n Hn Hcore Hc Hev. intros threshold n Hth Hn Hev.
  destruct ((1 <=? threshold) && (threshold <=? MAX_SAFE_INTEGER)) eqn:Hr; cbn [negb];
    [|by apply rg_sync; [apply guar_refl|]].
  apply rg_look. set (known := attestationsFor (w_store (n_control n)) txId).
  assert (evaluating txId core candidate known n) as Hev'.
  { destruct Hev as (H1 & H2 & _). split_and!; [done|done|]. apply known_stored, Hn. }
  eapply (rg_yields_bind _ _ _ _ _ (evaluating_lasting txId core candidate known)
    (yields_eligible candidate core known known [] [] (λ a H, H) ltac:(split; [apply NoDup_nil_2|apply Forall_nil_2])));
    [done|done|].
  clearbody known. clear n Hn Hev Hev'. intros eligible n (vs & Hnd & Hel) Hn Hev.
  destruct (mr_selectAdmission (no_membership options)) as [select|] eqn:Hsel.
  - eapply (rg_yields_bind _ _ _ _ _ (evaluating_lasting txId core candidate known) (yields_ask _)); [done|done|].
    clear n Hn Hev. intros selection n Hanswer Hn Hev. destruct selection as [|item selection]; [done|].
    destruct (forallb _ (item :: selection)) eqn:Hall; [|by apply rg_sync; [apply guar_refl|]].
    destruct (custom_proof _ _ Hall) as (atts & Hids & Hin & Hlen).
    assert (Forall (λ a, a ∈ known ∧ covers candidate core a ∧ approved core a) eligible) as Hel'.
    { eapply Forall_impl; [exact Hel|]. intros a (H1 & H2 & H3 & _). done. }
    rewrite Forall_forall in Hin. eapply rg_admit with (atts := atts); [exact Hev|done|done|by destruct atts| |].
    + rewrite Forall_forall in Hel' |- *. intros a Ha. by apply Hel', Hin.
    + rewrite Hsel. by exists eligible.
  - eapply (rg_calm_bind _ _ _ _ (evaluating_lasting txId core candidate known) (calm_awaiting _ (calm_ret tt))); [done|done|].
    clear n Hn Hev. intros [] n Hn Hev.
    destruct (zlen eligible <? threshold) eqn:Hlt; [done|]. apply Z.ltb_ge in Hlt.
    assert (zlen (take (Z.to_nat threshold) eligible) = threshold) as Hlen by (unfold zlen in *; rewrite length_take; lia).
    eapply rg_admit with (atts := take (Z.to_nat threshold) eligible); [exact Hev|done|done| | |].
    + intros Hnil. rewrite Hnil in Hlen. unfold zlen in Hlen. simpl in Hlen. lia.
    + apply Forall_take. eapply Forall_impl; [exact Hel|]. intros a (H1 & H2 & H3 & _). done.
    + rewrite Hsel. split; [|by rewrite Hlen].
      rewrite fmap_take. by eapply sublist_NoDup, sublist_take.
Qed.

(** *** Attesting *)

Lemma encoded_attestation_above a b : encodeValidatorAttestation a = Ok b → at_acceptedAboveMs a < at_authorTimestampMs a.
Proof.
  unfold encodeValidatorAttestation, attestationToCbor, protocolInvariant. intros H. inv_ok. lia.
Qed.

Lemma calm_maybeAttest txId candidate core :
  calm (maybeAttest sha256 ed25519_sign options txId candidate core).
Proof.
  unfold maybeAttest. destruct (no_validator options) as [vo|] eqn:Hvo; [|apply calm_ret].
  step_calm; [step_calm|]. destruct a as [capability|]; [|step_calm].
  step_calm.
  { apply calm_sync. unfold attestable. apply moves_bind; [apply moves_look|]. intros now.
    apply moves_advance_persist, moves_bind; [apply moves_look|]. intros above. apply moves_ret. }
  destruct (negb _); [step_calm|]. step_calm; [step_calm|]. destruct (negb _); [step_calm|].
  step_calm; [step_calm|]. destruct (negb _); [step_calm|]. step_calm; [step_calm|].
  match goal with |- calm (if ?b then _ else _) => destruct b; [step_calm|] end.
  step_calm; [step_calm|]. destruct (_ <? 0); [step_calm|]. destruct (negb _); [step_calm|].
  intros n Hn. apply rg_look.
  set (a4 := mkAttestation _ _ _ _ _ _ _ _ _ _).
  unfold encodes. apply rg_bind, rg_sync; [apply guar_refl|]. unfold check. cbn [fst snd].
  destruct (encodeValidatorAttestation a4) as [payload|] eqn:Henc; [|done].
  assert (sendable n (out_attestation a4)) as Hs by (split_and!; [by eapply encoded_attestation_above|done|by rewrite Hvo]).
  eapply (rg_calm_bind _ _ _ _ (sendable_lasting (out_attestation a4))); [step_calm|done|done|].
  intros envelope n2 Hn2 Hs2. apply rg_bind.
  eapply rg_mono; [|apply rg_transport_publish; [apply sendable_lasting|done|done]]. intros [r|e] n3 Hn3; done.
Qed.

(** *** Ingestion *)

Lemma yields_encodes {A} (r : result ErrorCode A) : yields (encodes r) (λ a, r = Ok a).
Proof.
  intros n Hn. apply rg_sync; [apply guar_refl|]. split; [done|]. unfold check. cbn. destruct r as [x|]; [by intros a [= ->]|done].
Qed.
Lemma yields_decoded {X A} (r : result X A) code : yields (sync (decoded r code)) (λ a, r = Ok a).
Proof.
  intros n Hn. apply rg_sync; [destruct r; apply guar_refl|]. destruct r; split; try done. by intros x [= ->].
Qed.
Lemma core_lasting key core : lasting (λ n, core_at n key core).
Proof. intros n n' _ [Hp _]. by apply core_lasts. Qed.

(** A candidate enters the store as pending or unauthorised, with its transaction. *)
Lemma rg_putCandidate txId core payload digest orderKey state reason n B (f : _ → async B) : state ≠ admissible →
  ok_txId orderKey = txId → decodeTransactionCore payload = Ok core → transactionDigest sha256 payload = Ok digest →
  node_inv n →
  (∀ a n', node_inv n' → core_at n' (idKey txId) core → rg rely guar (f a) (λ _ n', node_inv n') n') →
  rg rely guar (sync (control (putCandidate (mkCandidateInput txId (tx_groupId core) digest (tx_validationPolicy core) orderKey
          (Some payload) state reason (Some [])))) ≫= f) (λ _ n', node_inv n') n.
Proof.
  intros Hst Hok Hdec Hdig Hn Hf. set (input := mkCandidateInput _ _ _ _ _ _ _ _ _).
  pose proof (putCandidate_candidates input (n_control n)) as Heff. unfold wp in Heff.
  apply rg_bind. unfold control.
  destruct (putCandidate input (n_control n)) as [w r] eqn:Hput. cbn [fst snd] in Heff. destruct Heff as [Heff Hres].
  assert (guar n (set_control w n)) as Hg.
  { apply (guar_command n w (PutCandidate input)); [split; [exact Hok|done]|cbn [exec]; by rewrite Hput| |].
    { pose proof (wp_elim _ _ _ (proj2 (putCandidate_frame input (n_control n)))) as Hv. rewrite Hput in Hv. exact Hv. }
    intros key x Hx Hs. destruct Heff as [Heq|[_ Heq]]; rewrite Heq in Hx; [by left|].
    rewrite map_get_set in Hx. case_decide; [|by left]. injection Hx as <-. done. }
  apply rg_sync; rewrite Hput; [exact Hg|]. pose proof (guar_node_inv _ _ Hg Hn) as Hn'. cbn [fst snd]. destruct r as [a|e]; [|exact Hn'].
  apply Hf; [exact Hn'|]. destruct (Hres a eq_refl) as (c & Hc & Hsame).
  unfold sameCandidateIdentity, sameValue in Hsame. rewrite bool_decide_eq_true in Hsame. injection Hsame as _ _ Hcd _ _ Hcp.
  exists c, payload. split_and!; [exact Hc|by rewrite Hcp|done|by rewrite Hcd].
Qed.

Lemma calm_ingestCandidate record canonical signer :
  calm (ingestCandidate sha256 ed25519_sign options record canonical signer).
Proof.
  unfold ingestCandidate. eapply yields_calm, yields_bind; [apply yields_decoded|]. intros core Hdec. apply calm_yields.
  repeat (destruct (negb _); [apply calm_sync, moves_throw|]).
  step_calm; [apply calm_transport_author|]. destruct (negb _); [step_calm|]. step_calm; [step_calm|].
  do 2 (destruct (negb _); [step_calm|]).
  eapply yields_calm, yields_bind; [apply yields_awaiting, yields_encodes|]. intros digest Hdig.
  eapply yields_bind; [apply yields_encodes|]. intros txId _. apply calm_yields.
  step_calm; [step_calm|]. rename a1 into canWrite.
  eapply yields_calm, yields_bind; [apply yields_encodes|]. intros orderKey Hkey. apply calm_yields.
  assert (ok_txId orderKey = txId) as Hok.
  { unfold transactionOrderKey, protocolInvariant in Hkey. inv_ok. by subst. }
  intros n Hn. cbn [sc_state sc_stateReason]. apply rg_putCandidate; [by destruct canWrite|done|done|done|done|].
  clear n Hn. intros inserted n Hn Hcore. apply rg_bind, rg_sync.
  { split; [|done]. apply rely_inv; [split; [by exists []|done|exists []; by rewrite app_nil_r|done|done|done|done]|auto| |auto..].
    intros key x. cbn [n_candidateCores set_cores write fst]. rewrite map_get_set. case_decide; [|auto].
    intros [= <-]. right. by subst. }
  set (n1 := (write _ n).1). cbn [snd write].
  assert (node_inv n1) as Hn1.
  { destruct Hn as [H1 H2 H3 H4 H5 H6]. split; [exact H1|exact H2|exact H3| |exact H5|exact H6]. intros key x.
    cbn [n_candidateCores set_cores write fst]. unfold n1. cbn. rewrite map_get_set. case_decide; [|apply H4].
    intros [= <-]. by subst. }
  assert (core_at n1 (idKey txId) core) as Hcore1 by exact Hcore.
  eapply (rg_calm_bind _ _ _ _ (core_lasting (idKey txId) core)); [|done|done|].
  { apply calm_sync. case_match; [apply moves_emit|apply moves_ret]. }
  intros [] n2 Hn2 Hcore2. destruct canWrite; [|done].
  apply rg_bind, rg_awaiting. eapply rg_mono; [|by apply rg_evaluateAdmission].
  intros r n3 Hn3 n4 [_ Hn4]. destruct r as [[]|e]; [|by apply Hn4]. apply calm_awaiting; [apply calm_maybeAttest|by apply Hn4].
Qed.

(** A cutoff of the node's own feed raises its own. *)
Lemma rg_raise {B} (condition : bool) (v : Z) (k : async B) n : node_inv n → (∀ n', node_inv n' → rg rely guar k (λ _ n', node_inv n') n') →
  rg rely guar (acceptedAbove ← sync (look n_acceptedAboveMs);
    sync (if condition && (acceptedAbove <? v)
      then write (set_acceptedAboveMs v) ;; persistValidatorCutoff options else mret tt) ;; k) (λ _ n', node_inv n') n.
Proof.
  intros Hn Hk. apply rg_look, rg_bind.
  set (m := if condition && _ then _ else _). assert (guar n (m n).1) as Hg.
  { unfold m. destruct (condition && _) eqn:Hc; [|apply guar_refl]. apply moves_raise. lia. }
  apply rg_sync; [exact Hg|]. destruct (m n) as [n' [[]|e]]; cbn [fst snd] in *; [apply Hk|]; by eapply guar_node_inv.
Qed.

Lemma calm_ingestAttestation record encoded signer : calm (ingestAttestation options record encoded signer).
Proof.
  unfold ingestAttestation. step_calm; [eapply yields_calm, yields_decoded|]. rename a into value.
  repeat (destruct (negb _); [apply calm_sync, moves_throw|]).
  step_calm; [apply calm_transport_author|]. destruct (negb _); [step_calm|].
  intros n Hn. apply rg_raise; [done|]. clear n Hn. intros n Hn. apply rg_look.
  set (found := map_get _ _). assert (∀ core, found = Some core → core_at n (idKey (at_txId value)) core) as Hfound.
  { intros core Hc. by apply (ni_cores _ Hn). }
  clearbody found.
  set (F := λ n, ∀ core, found = Some core → core_at n (idKey (at_txId value)) core).
  assert (lasting F) as HF by (intros n1 n2 _ [Hp _] H core Hc; eapply core_lasts; eauto).
  eapply (rg_calm_bind F); [done|step_calm|done|exact Hfound|]. intros attestationId n1 Hn1 Hf1.
  eapply (rg_calm_bind F); [done|apply calm_sync, moves_putAttestation|done|exact Hf1|]. intros inserted n2 Hn2 Hf2.
  eapply (rg_calm_bind F); [done| |done|exact Hf2|].
  { apply calm_sync. case_match; [apply moves_emit|apply moves_ret]. }
  intros [] n3 Hn3 Hf3. destruct found as [core|]; [|done]. apply rg_awaiting.
  eapply rg_mono; [|by apply rg_evaluateAdmission, Hf3]. intros r n4 Hn4 n5 [_ Hn5]. auto.
Qed.

Lemma calm_ingestHeartbeat record encoded signer : calm (ingestHeartbeat options record encoded signer).
Proof.
  unfold ingestHeartbeat. step_calm; [eapply yields_calm, yields_decoded|]. rename a into heartbeat.
  repeat (destruct (negb _); [apply calm_sync, moves_throw|]).
  step_calm; [apply calm_transport_author|]. destruct (negb _); [step_calm|].
  step_calm; [step_calm|]. destruct (negb _); [step_calm|].
  intros n Hn. apply rg_raise; [done|]. change (calm (heartbeatId ← encodes (utf8 (tr_id record));
    contiguous ← isFeedContiguous options record;
    recorded ← sync (control (recordHeartbeat (mkStoredHeartbeat heartbeatId (hb_validatorId heartbeat)
    (hb_validatorCapability heartbeat) (hb_membershipRevision heartbeat) (tr_sequence record)
    (hb_acceptanceCutoffMs heartbeat) contiguous)));
    sync (match recorded with Some _ => emit reason_heartbeat None | None => mret tt end))).
  do 2 (step_calm; [step_calm|]). step_calm; [apply calm_sync, moves_recordHeartbeat|].
  apply calm_sync. case_match; [apply moves_emit|apply moves_ret].
Qed.

Lemma calm_ingest record : calm (ingest sha256 ed25519_verify ed25519_sign options record).
Proof.
  unfold ingest. step_calm; [step_calm|]. match goal with |- calm (if ?b then _ else _) => destruct b; [step_calm|] end.
  apply calm_catch.
  - unfold ingest_record. step_calm; [apply calm_sync, moves_forks|].
    assert (calm (envelope ← encodes (decodeEnvelope (tr_payload record));
      if negb (is_wire_type (env_messageType envelope)) then sync (markSeen (tr_id record))
      else
      wire ← awaiting (decodeRecord sha256 ed25519_verify options record);
      awaiting (match wm_type wire with
      | WTcandidate => ingestCandidate sha256 ed25519_sign options record (wm_payload wire) (wm_signer wire)
      | WTattestation => ingestAttestation options record (wm_payload wire) (wm_signer wire)
      | WTheartbeat => ingestHeartbeat options record (wm_payload wire) (wm_signer wire)
      end) ;;
      sync (markSeen (tr_id record) ;; dropRetry (tr_id record) ;; clearIngestionError))) as Hmain.
    { step_calm; [step_calm|]. destruct (negb _); [apply calm_sync, moves_markSeen|].
      step_calm; [apply calm_awaiting, calm_decodeRecord|].
      step_calm; [apply calm_awaiting; case_match; [apply calm_ingestCandidate|apply calm_ingestAttestation|apply calm_ingestHeartbeat]|].
      apply calm_sync, moves_finish, moves_clearIngestionError. }
    destruct a; [exact Hmain|exact Hmain|apply calm_sync, moves_markSeen|].
    apply calm_sync, moves_bind; [apply moves_markSeen|]. intros _. apply moves_recordError.
  - intros error. apply calm_sync.
    assert (moves (keepForRetry options record ;; recordIngestionError error)) as Hretry.
    { apply moves_bind; [apply moves_keepForRetry|]. intros _. apply moves_recordIngestionError. }
    destruct error; try exact Hretry; apply moves_finish; [apply moves_emit|apply moves_recordError].
Qed.
End progress.
