(* ===== verification/NodeTheorems.v ===== *)
(** * What holds of every running node

    The invariant of the systems of [NodeSystem], proved once for every step, and the
    theorems on reachable systems: admissions rest on attestations that count,
    announced cutoffs stay, the materializer gets exactly the order of the store, no
    record the transport delivered is lost. *)

From Stdlib Require Import Strings.Byte.
From stdpp Require Import base list option numbers sets sorting relations.
From S2P Require Import CapTypes Policy PolicyProofs Reducer MembershipTheorems.
From S2P Require Import Prelude JsMap Bytes Text Cbor Domains Messages StoreTypes ControlStore StoreInvariant StoreTheorems JsNumber CapTypes FeedForks Membership Logical Sql Transaction MaterializerCodec Blobs Wire Async Node NodeProofs.

#[local] Open Scope Z_scope.

(** * A running node: [packages/node-core/src/node.ts] and [Mutex] of [async.ts]

    A node at work is a system of programs that take turns on its state: at most one
    job holds the mutex, the others wait in line ([Async.lock_step], which is what the
    promise chain of [Mutex] does: [Async.mutex_is_lock]); publications, heartbeats and
    the runs of the retry timer go on beside it; the world outside changes at any time.
    [step] has one constructor for each way the system moves.  A program whose service
    never answers takes no further turn, and keeps the mutex if it holds it.  A node is
    opened on the store its last life left ([boot]).  The theorems hold in every
    reachable system, that is for every interleaving and every number of restarts. *)

Section system.
Context {P E FP FE W : Type} `{!Persistence P E, !FeedForkPersistence FP FE}.
Context (sha256 : bytes → bytes) (ed25519_verify : bytes → bytes → bytes → bool) {Key : Type}
  (ed25519_sign : Key → bytes → option bytes).
Context (options : ChronologNodeOptions (E:=E) (FE:=FE) (W:=W) (Key:=Key)).

Abbreviation Node := (ChronologNode (P:=P) (E:=E) (FP:=FP) (FE:=FE) (W:=W)).
Abbreviation async := (proc Node (NodeError E FE)).
Abbreviation node_inv := (node_inv sha256 options).
Abbreviation guar := (guar sha256 options).

(** ** The system *)

(** What runs inside the mutex. *)
Inductive Job := ingestion (record : TransportRecord) | materialization.

Definition job_program (job : Job) : async unit :=
  match job with
  | ingestion record => ingest sha256 ed25519_verify ed25519_sign options record
  | materialization => materialization_job options
  end.

(** A run of the retry timer is kept with the records that had been delivered when it
    asked for the history; [sys_delivered] are all the records delivered in this life,
    those of the history it began with included. *)
Record System := mkSystem {
    sys_node : Node;
    sys_holder : option (Job * async unit);
    sys_queue : list Job;
    sys_tasks : list (async TransportRecord);
    sys_retries : list (RetryRun * list TransportRecord);
    sys_delivered : list TransportRecord;
}.

(** A publication until its record is handed to [ingest]. *)
Definition publish_task (input : PublishTransactionInput) : async TransportRecord :=
  sent ← transaction_record sha256 ed25519_sign options input; mret sent.1.1.

(** A run of the retry timer calls [ingest] through the mutex.  The model does not make
    it wait for the end of each call before it goes on, which allows more interleavings
    than the code has.  The answer to [transport.history()] has every record that had
    been delivered when it was asked for. *)
Inductive step : System → System → Prop :=
  | step_deliver n h q ts rs ds record :
  step (mkSystem n h q ts rs ds) (mkSystem n h (q ++ [ingestion record]) ts rs (record :: ds))
  | step_materialize n h q ts rs ds : step (mkSystem n h q ts rs ds) (mkSystem n h (q ++ [materialization]) ts rs ds)
  | step_mutex n h q ts rs ds n' h' q' : lock_step job_program (n, mkLock h q) (n', mkLock h' q') →
  step (mkSystem n h q ts rs ds) (mkSystem n' h' q' ts rs ds)
  | step_heartbeat n h q ts rs ds :
  step (mkSystem n h q ts rs ds) (mkSystem n h q (ts ++ [heartbeat_record sha256 ed25519_sign options]) rs ds)
  | step_publish n h q ts rs ds input :
  step (mkSystem n h q ts rs ds) (mkSystem n h q (ts ++ [publish_task input]) rs ds)
  | step_task n h q ts1 p ts2 rs ds :
  step (mkSystem n h q (ts1 ++ p :: ts2) rs ds) (mkSystem (turn p n).1 h q (ts1 ++ (turn p n).2 :: ts2) rs ds)
  | step_sent n h q ts1 record ts2 rs ds :
  step (mkSystem n h q (ts1 ++ Ret record :: ts2) rs ds)
  (mkSystem n h (q ++ [ingestion record]) (ts1 ++ ts2) rs (record :: ds))
  | step_refused n h q ts1 e ts2 rs ds :
  step (mkSystem n h q (ts1 ++ Throw e :: ts2) rs ds) (mkSystem n h q (ts1 ++ ts2) rs ds)
  | step_timer_failed n h q ts1 e ts2 rs ds :
  step (mkSystem n h q (ts1 ++ Throw e :: ts2) rs ds) (mkSystem (recordError e n).1 h q (ts1 ++ ts2) rs ds)
  | step_reserve n h q ts rs ds :
  step (mkSystem n h q ts rs ds) (mkSystem (reserveTransactionContext options n).1 h q ts rs ds)
  | step_retry_fires n h q ts rs ds :
  step (mkSystem n h q ts rs ds) (mkSystem n h q ts (rs ++ [(retry_start n, [])]) ds)
  | step_retry n h q ts rs1 run asked rs2 ds n' record run' : retry_turn options run n = (n', record, run') →
  step (mkSystem n h q ts (rs1 ++ (run, asked) :: rs2) ds)
  (mkSystem n' h (q ++ option_list (ingestion <$> record)) ts
    (rs1 ++ option_list ((λ r, (r, match run with retrying _ => ds | _ => asked end)) <$> run') ++ rs2) ds)
  | step_history n h q ts rs1 asked rs2 ds answer n' run' : (∀ history, answer = Ok history → asked ⊆ history) →
  retry_answered answer n = (n', run') →
  step (mkSystem n h q ts (rs1 ++ (reading_history, asked) :: rs2) ds)
  (mkSystem n' h q ts (rs1 ++ option_list ((λ r, (r, asked)) <$> run') ++ rs2) ds)
  | step_world n h q ts rs ds w : step (mkSystem n h q ts rs ds) (mkSystem (set_world w n) h q ts rs ds).

(** The start of a node: the constructor, the recovery of its cutoff from the history
    of its feed, and the history in line. *)
Definition boot (controlStore : world P) (feedForks : feed_world (P:=FP)) (w : W) (history : list TransportRecord) :
  option System :=
  match new_ChronologNode options controlStore feedForks w with
  | Ok n =>
    match run (recoverValidatorCutoff sha256 ed25519_verify options history) n with
    | (n, Ok _) => Some (mkSystem (set_started true n) None (ingestion <$> history) [] [] history)
    | (_, Err _) => None
    end
  | Err _ => None
  end.

(** A node begins with an empty store, moves, and is started again on the store it
    left; the persistence layer, the fork registry and the history are whatever is
    found then. *)
Inductive reachable_system : System → Prop :=
  | sys_first maximum disk forks w history s : 1 ≤ maximum →
  boot (mkWorld (empty_store maximum) disk) forks w history = Some s → reachable_system s
  | sys_restart s disk forks w history s' : reachable_system s →
  boot (mkWorld (store_of (sys_node s)) disk) forks w history = Some s' → reachable_system s'
  | sys_step s s' : reachable_system s → step s s' → reachable_system s'.
End system.

(** ** The order only grows *)

Section order_growth.
Context {P E : Type} `{!Persistence P E}.

Definition order_length (s : ControlStore) : nat := length (orderedTxIds s).

Lemma append_order body s : order_length (appendDelta body s).1 = order_length s.
Proof. exact (f_equal order_length (appendDelta_frame body s)). Qed.

Lemma insertOrder_order c s : (order_length s ≤ order_length (insertOrder (E:=E) c s).1)%nat.
Proof.
  unfold insertOrder. destruct (search_order _ _ _ _ _) as [low|]; [|done]. destruct (_ && _); [done|].
  cbv zeta. match goal with |- context [appendDelta ?b ?s1] =>
    pose proof (append_order b s1) as Hf; destruct (appendDelta b s1) as [s2 d] end.
  cbn [fst] in *. rewrite Hf. unfold order_length, splice_insert. cbn [orderedTxIds set_orderedTxIds].
  rewrite length_app. cbn [length]. rewrite length_take, length_drop. lia.
Qed.

Definition order_grown (s : ControlStore) {A} (r : result (StoreError E) A) (w : world P) : Prop :=
  (order_length s ≤ order_length (w_store w))%nat.

Ltac grow_order :=
  repeat (walk_step || case_match); simplify_eq; unfold order_grown; cbn [w_store];
  repeat (rewrite append_order || (etrans; [|apply insertOrder_order])); exact (le_n _).

Lemma exec_order c (w : world P) : node_command c →
  (order_length (w_store w) ≤ order_length (w_store (exec c w)))%nat.
Proof.
  intros [_ Hc]. destruct c; try done; cbn [exec].
  - apply (wp_elim (putCandidate input) (order_grown (w_store w))). unfold putCandidate. grow_order.
  - apply (wp_elim (putAttestation attestation) (order_grown (w_store w))). unfold putAttestation. grow_order.
  - apply (wp_elim (setCandidateState txId state proof reason) (order_grown (w_store w))). unfold setCandidateState. grow_order.
  - apply (wp_elim (recordHeartbeat heartbeat) (order_grown (w_store w))). unfold recordHeartbeat. grow_order.
  - apply (wp_elim (ControlStore.persistValidatorCutoff validatorId acceptedAboveMs) (order_grown (w_store w))).
    unfold ControlStore.persistValidatorCutoff. grow_order.
Qed.

Lemma store_run_order cs : Forall node_command cs → ∀ w : world P,
  (order_length (w_store w) ≤ order_length (w_store (store_run w cs)))%nat.
Proof.
  induction 1 as [|c cs Hc _ IH]; intros w; [done|]. cbn [store_run foldl]. etrans; [by apply (exec_order c)|apply IH].
Qed.

(** The store keeps its invariant as long as the order fits. *)
Lemma store_run_sound cs : Forall node_command cs → ∀ w : world P, store_inv (w_store w) →
  order_capacity (w_store (store_run w cs)) → store_inv (w_store (store_run w cs)).
Proof.
  induction 1 as [|c cs Hc Hcs IH]; intros w Hw; [done|]. cbn [store_run foldl]. intros Hcap. apply IH; [|done].
  apply exec_sound; [done| |apply Hc]. unfold order_capacity in *.
  pose proof (exec_order c w Hc). pose proof (store_run_order cs Hcs (exec c w)) as H2. unfold order_length, store_run in *. lia.
Qed.
End order_growth.

Section system.
Context {P E FP FE W : Type} `{!Persistence P E, !FeedForkPersistence FP FE}.
Context (sha256 : bytes → bytes) (ed25519_verify : bytes → bytes → bytes → bool) {Key : Type}
  (ed25519_sign : Key → bytes → option bytes).
Context (options : ChronologNodeOptions (E:=E) (FE:=FE) (W:=W) (Key:=Key)).

Abbreviation Node := (ChronologNode (P:=P) (E:=E) (FP:=FP) (FE:=FE) (W:=W)).
Abbreviation async := (proc Node (NodeError E FE)).
Abbreviation Sys := (System (P:=P) (E:=E) (FP:=FP) (FE:=FE) (W:=W)).
Abbreviation node_inv := (node_inv sha256 options).
Abbreviation guar := (guar (P:=P) (FP:=FP) sha256 options).
Abbreviation rely := (rely (P:=P) (FP:=FP) sha256 options).
Abbreviation calm := (calm (P:=P) (FP:=FP) sha256 options).
Abbreviation moves := (moves (P:=P) (FP:=FP) sha256 options).

(** ** Materialisation *)

Lemma moves_set_pending v : moves (write (set_pending (FP:=FP) v)).
Proof. apply moves_write. intros n. by apply guar_quiet. Qed.

Lemma calm_reconcile : calm (reconcileMaterializer options).
Proof.
  unfold reconcileMaterializer. apply calm_bind; [apply calm_sync, moves_look|]. intros pending.
  destruct (negb pending); [apply calm_ret|]. apply calm_bind; [by apply calm_sync; intros n; apply guar_refl|].
  intros ordered. apply calm_bind; [apply calm_ask|]. intros coordinated. apply calm_bind.
  { destruct coordinated as [c|]; [|apply calm_ret]. apply calm_bind; [apply calm_ask|]. intros published.
    case_match; [apply calm_ret|apply calm_sync, moves_throw]. }
  intros _. apply calm_bind; [apply calm_ask|]. intros reconciled. apply calm_bind; [apply calm_sync, moves_look|].
  intros queries. destruct (negb _); [apply calm_sync, moves_throw|]. apply calm_sync, moves_bind; [apply moves_set_pending|].
  intros _. destruct coordinated as [c|]; [|apply moves_ret]. apply moves_bind; [|intros _; apply moves_emit].
  apply moves_write. intros n. by apply guar_quiet.
Qed.

Lemma calm_materialization_job : calm (materialization_job options).
Proof.
  unfold materialization_job. apply calm_bind; [apply calm_sync, moves_look|]. intros pending.
  destruct (negb pending); [apply calm_ret|]. apply calm_catch; [apply calm_awaiting, calm_reconcile|].
  intros e. apply calm_sync, moves_recordError.
Qed.

(** ** Ingestion settles its record *)

(** The end of a program, whatever came before. *)
Abbreviation ends p Q := (∀ n : Node, rg (λ _ _, True) (λ _ _, True) p Q n).

Lemma ends_bind {A B} (p : async A) (f : A → async B) Q : (∀ a, ends (f a) Q) → (∀ e n, Q (Err e) n) → ends (p ≫= f) Q.
Proof.
  intros Hf He n. apply rg_bind. eapply rg_mono; [|apply rg_trivial]. intros [a|e] n' _; [apply Hf|apply He].
Qed.
Lemma ends_sync {A} (m : SE Node (NodeError E FE) A) Q : (∀ n, Q (m n).2 (m n).1) → ends (sync m) Q.
Proof. intros Hm n. by apply rg_sync. Qed.

Definition closed_record (record : TransportRecord) (r : result (NodeError E FE) unit) (n : Node) : Prop :=
  ∀ a, r = Ok a → seen n (tr_id record).

(** Done with, kept for another attempt, or left to the next reading of the history. *)
Definition settled (n : Node) (id : jsstring) : Prop := kept n id ∨ overflowing n.

Lemma seen_settled (n : Node) id : seen n id → settled n id.
Proof. intros H. by left; left. Qed.
Lemma settled_guar (n n' : Node) id : guar n n' → settled n id → settled n' id.
Proof. intros [[Hp _] Ho] [H|H]; [left; by apply (pr_kept _ _ _ Hp)|right; by apply Ho]. Qed.

Lemma markSeen_seen id (n : Node) : seen (markSeen id n).1 id.
Proof. unfold seen. cbn. apply set_has_add. by left. Qed.

Lemma ingest_record_settles record : ends (ingest_record sha256 ed25519_verify ed25519_sign options record) (closed_record record).
Proof.
  unfold ingest_record. apply ends_bind; [|done]. intros continuity.
  assert (ends (envelope ← encodes (decodeEnvelope (tr_payload record));
    if negb (is_wire_type (env_messageType envelope)) then sync (markSeen (tr_id record))
    else
    wire ← awaiting (decodeRecord sha256 ed25519_verify options record);
    awaiting (match wm_type wire with
    | WTcandidate => ingestCandidate sha256 ed25519_sign options record (wm_payload wire) (wm_signer wire)
    | WTattestation => ingestAttestation options record (wm_payload wire) (wm_signer wire)
    | WTheartbeat => ingestHeartbeat options record (wm_payload wire) (wm_signer wire)
    end) ;;
    sync (markSeen (tr_id record) ;; dropRetry (tr_id record) ;; clearIngestionError)) (closed_record record)) as Hmain.
  { apply ends_bind; [|done]. intros envelope. destruct (negb _).
    { apply ends_sync. intros n a _. apply markSeen_seen. }
    apply ends_bind; [|done]. intros wire. apply ends_bind; [|done]. intros _. apply ends_sync. intros n a _.
    apply (pr_seen _ _ _ (proj1 (proj1 (moves_clearIngestionError sha256 options _)))).
    exact (markSeen_seen (tr_id record) n). }
  destruct continuity; [exact Hmain|exact Hmain| |]; apply ends_sync; intros n a _; apply markSeen_seen.
Qed.

Lemma keepForRetry_settles record (n : Node) : settled (keepForRetry options record n).1 (tr_id record).
Proof.
  unfold settled, kept, in_kept, overflowing, keepForRetry, on_ingestion, write. cbn [fst n_ingestion set_ingestion].
  case_match; [|by right]. left. right. cbn [in_retryRecords]. apply map_has_true. rewrite map_get_set_eq. by eexists.
Qed.

(** [ingest] does not throw, and its record is settled at the end. *)
Lemma ingest_settles record : ends (ingest sha256 ed25519_verify ed25519_sign options record)
  (λ r n, r = Ok tt ∧ settled n (tr_id record)).
Proof.
  intros n. unfold ingest. apply rg_bind, rg_sync; [done|]. cbn [look fst snd].
  destruct (set_has _ _) eqn:Hseen; [by split; [|left; left]|].
  apply rg_catch. eapply rg_mono; [|apply ingest_record_settles]. intros [[]|e] n1; [intros H; split; [done|by eapply seen_settled, H]|].
  intros _. assert (∀ m : SE Node (NodeError E FE) unit, moves m → (∀ n, (m n).2 = Ok tt) →
    ends (sync (markSeen (tr_id record) ;; dropRetry (tr_id record) ;; m)) (λ r n, r = Ok tt ∧ settled n (tr_id record))) as Hseen'.
  { intros m Hm Hok. apply ends_sync. intros n2. split; [apply Hok|].
    apply (settled_guar _ _ _ (Hm _)), seen_settled, (markSeen_seen (tr_id record) n2). }
  assert (ends (sync (keepForRetry options record ;; recordIngestionError e)) (λ r n, r = Ok tt ∧ settled n (tr_id record))) as Hkept.
  { apply ends_sync. intros n2. split; [done|].
    apply (settled_guar _ _ _ (moves_recordIngestionError sha256 options e _)), keepForRetry_settles. }
  unfold ingest_failed. destruct e; [apply Hseen'; [apply moves_emit|done]|apply Hseen'; [apply moves_recordError|done]|exact (Hkept n1)..].
Qed.

(** ** Starting *)

Lemma set_world_set w w' (n : Node) : set_world w (set_world w' n) = set_world w n.
Proof. by destruct n. Qed.

(** The recovery reads the history and ends at or above the cutoff it began with. *)
Lemma recovered_cutoff_run history : ∀ v (n : Node), ∃ w,
  (run (recovered_cutoff sha256 ed25519_verify options v history) n).1 = set_world w n ∧
  ∀ a, (run (recovered_cutoff sha256 ed25519_verify options v history) n).2 = Ok a → v ≤ a.
Proof.
  induction history as [|record history IH]; intros v n; cbn [recovered_cutoff].
  { exists (n_world n). split; [by destruct n|]. intros a [= ->]. lia. }
  destruct (negb _); [apply IH|]. rewrite run_bind, run_catch, run_bind. unfold decodeRecord.
  rewrite run_catch. unfold ask. rewrite run_service. unfold outside.
  destruct (wire_call _ (n_world n)) as [w [wire|e]]; cbn [run mret proc_mret mbind option_bind].
  - destruct (announced_cutoff options wire) as [cutoff|] eqn:Hc.
    + destruct (IH (if v <? cutoff then cutoff else v) (set_world w n)) as (w' & Hw & Ha).
      exists w'. split; [rewrite Hw; apply set_world_set|]. intros a ?%Ha. destruct (Z.ltb_spec v cutoff); lia.
    + destruct (IH v (set_world w n)) as (w' & Hw & Ha). exists w'. split; [rewrite Hw; apply set_world_set|done].
  - destruct (IH v (set_world w n)) as (w' & Hw & Ha). exists w'. split; [rewrite Hw; apply set_world_set|done].
Qed.

Lemma guar_world w (n : Node) : guar n (set_world w n).
Proof. by apply guar_quiet. Qed.

Lemma recover_guar history (n : Node) :
  guar n (run (recoverValidatorCutoff sha256 ed25519_verify options history) n).1.
Proof.
  unfold recoverValidatorCutoff. destruct (no_validator options) as [v|]; [|apply guar_refl].
  rewrite run_bind, run_sync. cbn [look]. rewrite run_bind.
  destruct (recovered_cutoff_run history (n_acceptedAboveMs n) n) as (w & Hw & Ha).
  destruct (run (recovered_cutoff _ _ _ _ _) n) as [n1 [a|e]]; cbn [fst snd] in *; subst n1; [|apply guar_world].
  rewrite run_sync. specialize (Ha a eq_refl). eapply guar_trans; [apply (guar_world w)|].
  exact (guar_persist sha256 options (set_world w n) a Ha).
Qed.

(** What a node asks of the store it is opened on. *)
Record store_good (s : ControlStore) : Prop := {
    sg_cutoffs : map_wf (validatorCutoffs s);
    sg_attestations : attestation_keys s;
    sg_admitted key c (n : Node) : store_of n = s → map_get key (candidates s) = Some c → sc_state c = admissible →
    justified sha256 options n c;
    sg_inv : order_capacity s → store_inv s;
}.

Lemma justified_store (n n' : Node) c : store_of n' = store_of n → justified sha256 options n c → justified sha256 options n' c.
Proof.
  intros Hs (core & payload & atts & H1 & H2 & H3 & H4 & H5 & H6 & H7). exists core, payload, atts.
  assert (∀ l, Forall (counts options n c core) l → Forall (counts options n' c core) l) as Hcounts.
  { intros l Hl. eapply Forall_impl; [exact Hl|]. intros a. unfold counts. by rewrite Hs. }
  split_and!; try done; [by apply Hcounts|]. unfold selected in *. destruct (mr_selectAdmission _); [|done].
  destruct H7 as (eligible & selection & ? & ? & ? & ? & ?). exists eligible, selection. split_and!; try done. by apply Hcounts.
Qed.

Lemma empty_good maximum : 1 ≤ maximum → store_good (empty_store maximum).
Proof. intros H. split; [apply NoDup_nil_2|done|done|by intros _; apply empty_inv]. Qed.

Lemma node_good (n : Node) : node_inv n → (order_capacity (store_of n) → store_inv (store_of n)) → store_good (store_of n).
Proof.
  intros [H1 H2 H3 H4 H5 H6] Hs. split; [done|done| |done]. intros key c n' Hn Hc Hst. by eapply justified_store, H5.
Qed.

Lemma guar_capacity (n n' : Node) : progress options n n' → (order_capacity (store_of n) → store_inv (store_of n)) →
  order_capacity (store_of n') → store_inv (store_of n').
Proof.
  intros Hp Hs Hcap. destruct (pr_store _ _ _ Hp) as (cs & Hcs & Hrun). unfold store_of in *. rewrite Hrun in *.
  apply store_run_sound; [done| |done]. apply Hs. unfold order_capacity in *.
  pose proof (store_run_order cs Hcs (n_control n)). unfold order_length in *. lia.
Qed.

Lemma new_node_inv control forks w (n : Node) : store_good (w_store control) →
  new_ChronologNode options control forks w = Ok n → node_inv n ∧ n_control n = control ∧ n_outbox n = [].
Proof.
  intros [H1 H2 H3 H4]. unfold new_ChronologNode. unfold ensure. destruct (_ && _) eqn:Hmax; [|done].
  cbn [mbind result_bind]. intros [= <-]. split; [|done]. split; [done|done|by constructor|done| |].
  - intros key c Hc Hst. by apply (H3 key c).
  - change (0 ≤ maximumRetryRecords options). lia.
Qed.

(** ** The invariant of a system *)

(** What a job has done when it ends. *)
Definition job_done (job : Job) (r : result (NodeError E FE) unit) (n : Node) : Prop :=
  match job with ingestion record => r = Ok tt ∧ settled n (tr_id record) | materialization => True end.

Lemma job_good job (n : Node) : node_inv n →
  rg rely guar (job_program sha256 ed25519_verify ed25519_sign options job) (job_done job) n.
Proof.
  intros Hn. destruct job as [record|]; cbn [job_program].
  - eapply rg_mono; [|apply rg_and; [by apply calm_ingest|apply ingest_settles]]. by intros r n' [_ H].
  - eapply rg_mono; [|by apply calm_materialization_job]. done.
Qed.

Abbreviation left_of p Q n := (resumable rely guar p Q n).

(** A delivered record waits in line, is inside the mutex, is done with, is kept for
    another attempt, or is covered by the history: the node knows that it has to read it
    again, or a run of the retry timer that asked for it after the record was delivered
    waits for it or has the record still before it. *)
Definition covered (run : RetryRun * list TransportRecord) (record : TransportRecord) : Prop :=
  match run.1 with
  | retrying _ => False
  | reading_history => record ∈ run.2
  | listing history => record ∈ history
  end.

Definition accounted (s : Sys) (record : TransportRecord) : Prop :=
  ingestion record ∈ sys_queue s ∨
  (∃ p, sys_holder s = Some (ingestion record, p) ∧ finished p = None) ∨
  kept (sys_node s) (tr_id record) ∨ overflowing (sys_node s) ∨
  ∃ run, run ∈ sys_retries s ∧ covered run record.

(** The part of the invariant about the state and the programs. *)
Record sys_good (s : Sys) : Prop := {
    sv_node : node_inv (sys_node s);
    sv_store : order_capacity (store_of (sys_node s)) → store_inv (store_of (sys_node s));
    sv_synced : saves_reliable (P:=P) (E:=E) → synced options (sys_node s);
    sv_holder job p : sys_holder s = Some (job, p) → finished p = None → left_of p (job_done job) (sys_node s);
    sv_tasks : Forall (λ p, left_of p (λ _ n, node_inv n) (sys_node s)) (sys_tasks s);
}.

Record sys_inv (s : Sys) : Prop := {
    sv_good : sys_good s;
    sv_records record : record ∈ sys_delivered s → accounted s record;
}.

Lemma calm_left {A} (p : async A) (n : Node) : node_inv n → calm p → left_of p (λ _ n, node_inv n) n.
Proof. intros Hn Hp n' [_ Hg]. auto. Qed.

Lemma left_later {A} (p : async A) Q (n n' : Node) : rely n n' → left_of p Q n → left_of p Q n'.
Proof. intros Hg. apply resumable_later; [apply rely_trans|done]. Qed.

Lemma task_turn {A} (p : async A) (n : Node) : left_of p (λ _ n, node_inv n) n →
  guar n (turn p n).1 ∧ left_of (turn p n).2 (λ _ n, node_inv n) (turn p n).1.
Proof.
  intros Hp. apply rg_turn; [apply guar_refl|apply guar_trans|by intros r n1 n2 [_ H]|]. apply Hp, rely_refl.
Qed.

Lemma reserve_guar (n : Node) : guar n (reserveTransactionContext options n).1.
Proof.
  apply moves_bind; [apply moves_assertReady|]. intros _. apply moves_bind; [apply moves_bind; intros; apply moves_look|].
  intros t. apply moves_bind; [by apply moves_write; intros m; apply guar_quiet|]. intros _.
  apply moves_bind; [|intros; apply moves_ret]. intros m. unfold randomBytes. destruct (no_random options 32 (n_world m)).
  by apply guar_quiet.
Qed.

(** A change of the node within what the others rely on, and new programs beside the
    old ones. *)
Lemma good_move (s s' : Sys) : sys_good s → rely (sys_node s) (sys_node s') →
  (∀ job p, sys_holder s' = Some (job, p) → sys_holder s = Some (job, p) ∨
    (finished p = None → left_of p (job_done job) (sys_node s'))) →
  (∀ p, p ∈ sys_tasks s' → p ∈ sys_tasks s ∨ left_of p (λ _ n, node_inv n) (sys_node s')) →
  sys_good s'.
Proof.
  intros [Hn Hs Hy Hh Ht] [Hp Hi] Hh' Ht'. rewrite Forall_forall in Ht. split.
  - auto.
  - by eapply guar_capacity.
  - intros Hr. by apply (pr_synced _ _ _ Hp), Hy.
  - intros job p [H|H]%Hh' Hf; [|by apply H]. by eapply left_later, Hh.
  - apply Forall_forall. intros p [H|H]%Ht'; [|done]. by eapply left_later, Ht.
Qed.

(** Records stay accounted for when the line and the runs only grow. *)
Lemma accounted_move (s s' : Sys) record : accounted s record → guar (sys_node s) (sys_node s') →
  sys_queue s ⊆ sys_queue s' → sys_holder s' = sys_holder s → sys_retries s ⊆ sys_retries s' → accounted s' record.
Proof.
  intros Ha [[Hp _] Ho] Hq Hh Hr. unfold accounted in *. rewrite Hh. destruct Ha as [H|[H|[H|[H|(run & H & Hc)]]]].
  - left. by apply Hq.
  - by right; left.
  - do 2 right. left. by apply (pr_kept _ _ _ Hp).
  - do 3 right. left. by apply Ho.
  - do 4 right. exists run. split; [by apply Hr|done].
Qed.

Lemma calm_publish_task input : calm (publish_task sha256 ed25519_sign options input).
Proof. apply calm_bind; [apply calm_transaction_record|]. intros sent. apply calm_ret. Qed.

(** Moves of the node beside the mutex and the retry runs. *)
Lemma inv_move (s s' : Sys) : sys_inv s → guar (sys_node s) (sys_node s') →
  sys_queue s ⊆ sys_queue s' → sys_holder s' = sys_holder s → sys_retries s ⊆ sys_retries s' →
  (∀ p, p ∈ sys_tasks s' → p ∈ sys_tasks s ∨ left_of p (λ _ n, node_inv n) (sys_node s')) →
  (∀ record, record ∈ sys_delivered s' → record ∈ sys_delivered s ∨ accounted s' record) →
  sys_inv s'.
Proof.
  intros [Hs Hr] Hg Hq Hh Hrs Ht Hd. split.
  - apply (good_move s); [done|by apply guar_rely| |done]. intros job p. rewrite Hh. auto.
  - intros record [H|H]%Hd; [|done]. by apply (accounted_move s); [apply Hr|..].
Qed.

(** What happens inside the mutex. *)
Lemma lock_inv (n : Node) h q ts rs ds n' h' q' : sys_inv (mkSystem n h q ts rs ds) →
  lock_step (job_program sha256 ed25519_verify ed25519_sign options) (n, mkLock h q) (n', mkLock h' q') →
  sys_inv (mkSystem n' h' q' ts rs ds).
Proof.
  intros [Hs Hr] Hl. pose proof (sv_node _ Hs) as Hn. cbn in Hn, Hr.
  assert (∀ job p, left_of p (job_done job) n → h' = Some (job, (turn p n).2) → n' = (turn p n).1 →
    (∀ record, accounted (mkSystem n h q ts rs ds) record →
      job = ingestion record ∨ accounted (mkSystem n None q' ts rs ds) record) →
    sys_inv (mkSystem n' h' q' ts rs ds)) as Hturn.
  { intros job p Hleft -> -> Hacc.
    destruct (rg_turn_end _ _ p (job_done job) n (rely_refl _ _) (guar_refl _ _) (guar_trans _ _) (Hleft n (rely_refl _ _ n))) as [Hg He].
    split.
    - apply (good_move _ _ Hs); cbn; [by apply guar_rely| |auto]. intros job' p' [= <- <-]. right. intros Hf. by rewrite Hf in He.
    - intros record Hd. destruct (Hacc record (Hr record Hd)) as [-> |H].
      + destruct (finished (turn p n).2) as [r|] eqn:Hf; [|by right; left; eexists].
        destruct He as [_ [H|H]]; [by do 2 right; left|by do 3 right; left].
      + assert (accounted (mkSystem (turn p n).1 None q' ts rs ds) record) as H' by by apply (accounted_move _ _ _ H).
        destruct H' as [H'|[(p' & [=] & _)|H']]; [by left|by do 2 right]. }
  inversion Hl as [n1 job q1|n1 job p q1 Hp|n1 job p q1 r Hp]; subst.
  - apply (Hturn job (job_program sha256 ed25519_verify ed25519_sign options job)); [|done|done|].
    { intros n1 [_ H1]. by apply job_good, H1. }
    intros record [[?|?]%elem_of_cons|[(p & [=] & _)|H]]; [by left|by right; left|by right; do 2 right].
  - apply (Hturn job p); [exact (sv_holder _ Hs job p eq_refl Hp)|done|done|].
    intros record [H|[(p' & [= -> _] & _)|H]]; [by right; left|by left|by right; do 2 right].
  - split; [apply (good_move _ _ Hs); cbn; auto using rely_refl; done|]. intros record Hd.
    destruct (Hr record Hd) as [H|[(p' & [= -> ->] & Hf)|H]]; [by left|congruence|by do 2 right].
Qed.

(** A turn of the retry timer's program. *)
Lemma retry_inv (n n' : Node) h q q' ts rs1 run runs rs2 ds : sys_inv (mkSystem n h q ts (rs1 ++ run :: rs2) ds) →
  rely n n' → q ⊆ q' →
  (∀ record, record ∈ ds → overflowing n → overflowing n' ∨ ∃ run', run' ∈ runs ∧ covered run' record) →
  (∀ record, covered run record → accounted (mkSystem n' h q' ts (rs1 ++ runs ++ rs2) ds) record) →
  sys_inv (mkSystem n' h q' ts (rs1 ++ runs ++ rs2) ds).
Proof.
  intros [Hs Hr] Hg Hq Ho Hrun. split; [apply (good_move _ _ Hs); cbn; auto|].
  intros record Hd. cbn in Hr, Hd. destruct (Hr record Hd) as [H|[H|[H|[H|(run' & H & Hc)]]]].
  - left. by apply Hq.
  - by right; left.
  - do 2 right. left. destruct Hg as [Hp _]. by apply (pr_kept _ _ _ Hp).
  - destruct (Ho record Hd H) as [H1|(run' & H1 & H2)]; [by do 3 right; left|].
    do 4 right. exists run'. split; [cbn; set_solver|done].
  - apply elem_of_app in H as [H|[-> |H]%elem_of_cons]; [|by apply Hrun|];
      do 4 right; exists run'; (split; [cbn; set_solver|done]).
Qed.

Lemma rely_overflow b (n : Node) : rely n (setRetryOverflow b n).1.
Proof. by apply rely_quiet. Qed.

Lemma retry_turn_inv (n : Node) h q ts rs1 run asked rs2 ds n' record run' :
  sys_inv (mkSystem n h q ts (rs1 ++ (run, asked) :: rs2) ds) → retry_turn options run n = (n', record, run') →
  sys_inv (mkSystem n' h (q ++ option_list (ingestion <$> record)) ts
    (rs1 ++ option_list ((λ r, (r, match run with retrying _ => ds | _ => asked end)) <$> run') ++ rs2) ds).
Proof.
  intros Hs Hturn. unfold retry_turn in Hturn.
  assert (∀ l, q ⊆ q ++ l) as Hq by set_solver.
  destruct run as [[|r records]| |[|r history]].
  - destruct (_ && _); injection Hturn as <- <- <-; (eapply retry_inv; [exact Hs|try apply rely_overflow; try apply rely_refl|done| |by intros x []]);
      intros x Hx Hover; [right|by left]. exists (reading_history, ds). split; [by left|done].
  - injection Hturn as <- <- <-. eapply retry_inv; [exact Hs|apply rely_refl|done|by intros; left|by intros x []].
  - injection Hturn as <- <- <-. eapply retry_inv; [exact Hs|apply rely_refl|done|by intros; left|].
    intros x Hx. do 4 right. exists (reading_history, asked). split; [cbn; set_solver|done].
  - injection Hturn as <- <- <-. eapply retry_inv; [exact Hs|apply rely_refl|done|by intros; left|]. by intros x Hx%not_elem_of_nil.
  - destruct (set_has _ _ || map_has _ _) eqn:Hk; [|destruct (maximumRetryRecords options <=? _)]; injection Hturn as <- <- <-.
    + eapply retry_inv; [exact Hs|apply rely_refl|done|by intros; left|]. intros x [-> |Hx]%elem_of_cons.
      * do 2 right. left. by apply orb_true_iff in Hk.
      * do 4 right. exists (listing history, asked). split; [cbn; set_solver|done].
    + eapply retry_inv; [exact Hs|apply rely_overflow|done|by intros; left|]. intros x _. by do 3 right; left.
    + eapply retry_inv; [exact Hs|apply rely_refl|done|by intros; left|]. intros x [-> |Hx]%elem_of_cons.
      * left. cbn. set_solver.
      * do 4 right. exists (listing history, asked). split; [cbn; set_solver|done].
Qed.

Lemma history_inv (n : Node) h q ts rs1 asked rs2 ds answer n' run' :
  sys_inv (mkSystem n h q ts (rs1 ++ (reading_history, asked) :: rs2) ds) →
  (∀ history, answer = Ok history → asked ⊆ history) → retry_answered answer n = (n', run') →
  sys_inv (mkSystem n' h q ts (rs1 ++ option_list ((λ r, (r, asked)) <$> run') ++ rs2) ds).
Proof.
  intros Hs Hsub Ha. unfold retry_answered in Ha. destruct answer as [history|e]; injection Ha as <- <-.
  - eapply retry_inv; [exact Hs|apply rely_refl|done|by intros; left|]. intros x Hx. do 4 right.
    exists (listing history, asked). split; [cbn; set_solver|by apply Hsub].
  - assert (guar (setRetryOverflow true n).1 (recordError e (setRetryOverflow true n).1).1) as Hg by apply moves_recordError.
    assert (overflowing ((setRetryOverflow true ;; recordError e) n).1) as Ho by exact (proj2 Hg eq_refl).
    eapply retry_inv; [exact Hs|eapply rely_trans; [apply rely_overflow|apply guar_rely, Hg]|done|by intros; left|].
    intros x _. by do 3 right; left.
Qed.

Lemma step_inv (s s' : Sys) : sys_inv s → step sha256 ed25519_verify ed25519_sign options s s' → sys_inv s'.
Proof.
  intros Hs Hstep. pose proof (sv_node _ (sv_good _ Hs)) as Hn.
  pose proof (proj1 (Forall_forall _ _) (sv_tasks _ (sv_good _ Hs))) as Ht.
  destruct Hstep; cbn [sys_node sys_tasks] in Hn, Ht.
  - apply (inv_move _ _ Hs); cbn; auto using guar_refl; [set_solver|]. intros r [-> |H]%elem_of_cons; [right|by left].
    left. cbn. set_solver.
  - apply (inv_move _ _ Hs); cbn; auto using guar_refl. set_solver.
  - by eapply lock_inv.
  - apply (inv_move _ _ Hs); cbn; auto using guar_refl. intros p [H| ->%list_elem_of_singleton]%elem_of_app; [by left|right].
    by apply calm_left, calm_heartbeat_record.
  - apply (inv_move _ _ Hs); cbn; auto using guar_refl. intros p [H| ->%list_elem_of_singleton]%elem_of_app; [by left|right].
    by apply calm_left, calm_publish_task.
  - destruct (task_turn p n) as [Hg Hl]; [apply Ht; set_solver|].
    apply (inv_move _ _ Hs); cbn; auto. intros p' Hp'.
    apply elem_of_app in Hp' as [H|[->|H]%elem_of_cons]; [left; set_solver|by right|left; set_solver].
  - apply (inv_move _ _ Hs); cbn; auto using guar_refl; [set_solver|set_solver|]. intros r [-> |H]%elem_of_cons; [right|by left].
    left. cbn. set_solver.
  - apply (inv_move _ _ Hs); cbn; auto using guar_refl. set_solver.
  - apply (inv_move _ _ Hs); cbn; auto; [apply moves_recordError|]. set_solver.
  - apply (inv_move _ _ Hs); cbn; auto using reserve_guar.
  - apply (inv_move _ _ Hs); cbn; auto using guar_refl. set_solver.
  - by eapply retry_turn_inv.
  - by eapply history_inv.
  - apply (inv_move _ _ Hs); cbn; auto using guar_world.
Qed.

(** The recovery of the cutoff ends with the cutoff saved. *)
Lemma recover_synced history (n n' : Node) :
  run (recoverValidatorCutoff sha256 ed25519_verify options history) n = (n', Ok tt) → synced options n'.
Proof.
  intros Hrun Hv. unfold recoverValidatorCutoff in Hrun. destruct (no_validator options) as [v|] eqn:Hvo; [|done].
  rewrite run_bind, run_sync in Hrun. cbn [look] in Hrun. rewrite run_bind in Hrun.
  destruct (run (recovered_cutoff _ _ _ _ _) n) as [n1 [a|e]]; [|done]. rewrite run_sync in Hrun.
  unfold write, mbind, SE_bind in Hrun.
  destruct (persist_result _ _ _ _ Hrun eq_refl) as [Hc _]; [by rewrite Hvo|exact Hc].
Qed.

Lemma boot_inv control forks w history (s : Sys) : store_good (w_store control) →
  boot sha256 ed25519_verify options control forks w history = Some s → sys_inv s.
Proof.
  intros Hg. unfold boot. destruct (new_ChronologNode _ _ _ _) as [n|] eqn:Hnew; [|done].
  destruct (new_node_inv _ _ _ _ Hg Hnew) as (Hn & Hc & _).
  pose proof (recover_guar history n) as Hr. destruct (run _ n) as [n1 [[]|]] eqn:Hrun; [|done]. intros [= <-]. cbn [fst] in Hr.
  assert (rely n (set_started true n1)) as Hgs by (eapply rely_trans; [apply guar_rely, Hr|by apply rely_quiet]).
  split; [split|]; cbn [sys_node sys_holder sys_tasks sys_delivered].
  - by apply Hgs.
  - apply (guar_capacity n); [apply Hgs|]. unfold store_of. rewrite Hc. apply Hg.
  - intros _. exact (recover_synced _ _ _ Hrun).
  - done.
  - constructor.
  - intros record Hd. left. cbn. by apply list_elem_of_fmap_2.
Qed.

Lemma reachable_system_inv s : reachable_system sha256 ed25519_verify ed25519_sign options s → sys_inv s.
Proof.
  induction 1 as [maximum disk forks w history s Hm Hb|s disk forks w history s' _ IH Hb|s s' _ IH Hs].
  - eapply boot_inv; [|exact Hb]. by apply empty_good.
  - eapply boot_inv; [|exact Hb]. apply node_good; apply (sv_good _ IH).
  - by eapply step_inv.
Qed.

(** *** The cutoff of a new life *)

Lemma maximum_ge values : ∀ initial, initial ≤ maximum initial values ∧ ∀ v, v ∈ values → v ≤ maximum initial values.
Proof.
  induction values as [|x values IH]; intros initial; cbn [maximum foldl]; [split; [done|set_solver]|].
  destruct (IH (if initial <? x then x else initial)) as [H1 H2]. fold (maximum (if initial <? x then x else initial) values).
  destruct (Z.ltb_spec initial x); (split; [lia|]); intros v [->|?]%elem_of_cons; auto; lia.
Qed.

Lemma boot_cutoff control forks w history (s : Sys) v : store_good (w_store control) →
  boot sha256 ed25519_verify options control forks w history = Some s →
  validatorCutoff (w_store control) (identity options) = Some v → v ≤ n_acceptedAboveMs (sys_node s).
Proof.
  intros Hg Hb Hv. unfold boot in Hb. destruct (new_ChronologNode _ _ _ _) as [n|] eqn:Hnew; [|done].
  pose proof (recover_guar history n) as [[Hr _] _]. destruct (run _ n) as [n1 [[]|]]; [|done]. injection Hb as <-.
  cbn [fst] in Hr. etrans; [|apply (pr_above _ _ _ Hr)]. unfold new_ChronologNode in Hnew. destruct (ensure _ _); [|done].
  cbn [mbind result_bind] in Hnew. injection Hnew as <-. cbn [n_acceptedAboveMs].
  apply (maximum_ge _ _). unfold persistedCutoffs. rewrite Hv. set_solver.
Qed.

(** *** The order handed to the materializer *)

Lemma mapM_length_elem {A B} (f : A → option B) l l' : mapM f l = Some l' → Forall2 (λ x y, f x = Some y) l l'.
Proof. by rewrite mapM_Some. Qed.

Lemma admittedTransaction_spec (n : Node) c t : node_inv n → map_get (idKey (sc_txId c)) (candidates (store_of n)) = Some c →
  admittedTransaction n c = Some t →
  ad_txId t = sc_txId c ∧ ad_authorFeedSequence t = ok_authorFeedSequence (sc_orderKey c) ∧
  decodeTransactionCore (ad_canonicalCandidate t) = Ok (ad_core t) ∧
  transactionDigest sha256 (ad_canonicalCandidate t) = Ok (ad_candidateDigest t).
Proof.
  intros Hn Hc. unfold admittedTransaction. destruct (map_get _ (n_candidateCores n)) as [core|] eqn:Hcore; [|done].
  destruct (sc_canonicalPayload c) as [payload|] eqn:Hp; [|done]. intros [= <-]. cbn.
  apply (ni_cores _ _ _ Hn) in Hcore as (c' & payload' & Hc' & Hp' & Hd & Hg). simplify_eq. done.
Qed.

Lemma spec_order_elem (s : ControlStore) c : store_inv s → c ∈ spec_order s →
  map_get (idKey (sc_txId c)) (candidates s) = Some c ∧ sc_state c = admissible.
Proof.
  intros [Hf _] Hi. pose proof (fi_candidates _ Hf) as [Hwf Hc]. unfold spec_order in Hi.
  apply elem_of_js_sort, list_elem_of_filter in Hi as [Hst ([k c'] & -> & Hin)%list_elem_of_fmap]. cbn in *.
  destruct (Hc _ _ Hin) as [-> _]. split; [by apply map_wf_get|done].
Qed.

Lemma admitted_spec (n : Node) l : node_inv n → store_inv (store_of n) → (admittedTransactions n).2 = Ok l →
  Forall2 (λ c t, c ∈ spec_order (store_of n) ∧ admittedTransaction n c = Some t) (spec_order (store_of n)) l.
Proof.
  intros Hn Hs. unfold admittedTransactions. cbn [snd]. fold (store_of n). rewrite (orderedCandidates_spec _ Hs).
  destruct (mapM _ _) as [l'|] eqn:Hm; [|done]. intros [= ->]. apply mapM_length_elem in Hm.
  apply Forall2_same_length_lookup_2; [by eapply Forall2_length|]. intros i c t Hc Ht.
  split; [by eapply list_elem_of_lookup_2|exact (Forall2_lookup_lr _ _ _ _ _ _ Hm Hc Ht)].
Qed.

(** *** The theorems *)

(** The custom rule is that of [CapabilityMembershipResolver]: what it answers is what
    [selectAdmission] returns on the snapshots of a reduced membership log. *)
Definition capability_rule (select : AdmissionContext → list StoredAttestation → SE W (NodeError E FE) (list StoredAttestation)) : Prop :=
  ∀ context eligible w w' selection, select context eligible w = (w', Ok selection) →
  ∃ snapshots, reduced_snapshots sha256 ed25519_verify snapshots ∧
  selectAdmission snapshots context eligible = Ok selection.

(** The proof of an admission meets the policy that the transaction pins: its
    attestations count and are of different validators, and the capabilities behind
    them, all different and active validators of the pinned snapshot, satisfy the policy. *)
Definition policy_met (n : Node) (c : StoredCandidate) : Prop :=
  ∃ core payload proof snapshots snapshot policy evidence,
  sc_canonicalPayload c = Some payload ∧ decodeTransactionCore payload = Ok core ∧
  sc_proofAttestationIds c = sa_attestationId <$> proof ∧ Forall (counts options n c core) proof ∧
  NoDup (sa_validatorId <$> proof) ∧
  reduced_snapshots sha256 ed25519_verify snapshots ∧
  pinned_snapshot snapshots (writerContext core) = Some snapshot ∧
  policyById snapshot (tx_validationPolicy core) = Some policy ∧
  Forall2 (backs snapshot policy proof) evidence proof ∧
  NoDup (ev_capabilityId <$> evidence) ∧ satisfies policy evidence.

(** The elements of a list that are chosen by different values of a function of theirs. *)
Lemma NoDup_fmap_sub {A B} (f : A → B) l l' : NoDup (f <$> l) → NoDup l' → l' ⊆ l → NoDup (f <$> l').
Proof.
  intros Hl Hl' Hsub. induction Hl' as [|x l' Hx _ IH]; [apply NoDup_nil_2|]. rewrite fmap_cons. apply NoDup_cons. split; [|set_solver].
  intros (y & Hf & Hy)%list_elem_of_fmap. enough (x = y) by congruence.
  apply list_elem_of_lookup in Hy as [j Hj]. assert (x ∈ l) as [i Hi]%list_elem_of_lookup by set_solver.
  assert (y ∈ l) as [k Hk]%list_elem_of_lookup by (apply Hsub; right; by eapply list_elem_of_lookup_2).
  assert (i = k) as -> by (eapply (NoDup_lookup _ i k (f x) Hl); rewrite list_lookup_fmap; [by rewrite Hi|by rewrite Hk, Hf]).
  congruence.
Qed.

Lemma capability_policy_met (n : Node) c select : mr_selectAdmission (no_membership options) = Some select →
  capability_rule select → justified sha256 options n c → policy_met n c.
Proof.
  intros Hsel Hrule (core & payload & atts & Hp & Hd & _ & Hne & Hids & _ & Hselected).
  unfold selected in Hselected. rewrite Hsel in Hselected.
  destruct Hselected as (eligible & selection & (w & w' & Hanswer) & Hnd & Hcounts & Hsame & _).
  destruct (Hrule _ _ _ _ _ Hanswer) as (snapshots & Hred & Hadm).
  destruct (pinned_snapshot snapshots (writerContext core)) as [snapshot|] eqn:Hsnap.
  2: { unfold selectAdmission in Hadm. rewrite Hsnap in Hadm. injection Hadm as <-. by destruct atts. }
  destruct (policyById snapshot (tx_validationPolicy core)) as [policy|] eqn:Hpol.
  2: { unfold selectAdmission in Hadm. rewrite Hsnap, (pinned_policy_spec _ _ _ Hsnap) in Hadm. cbn in Hadm. rewrite Hpol in Hadm.
    injection Hadm as <-. by destruct atts. }
  destruct (selectAdmission_spec _ _ _ Hred _ _ _ eligible Hsnap Hpol) as (e & _ & sel & Hsel' & Hcase).
  rewrite Hadm in Hsel'. injection Hsel' as <-. destruct (pe_satisfied e); [|destruct Hcase as [-> _]; by destruct atts].
  destruct Hcase as (Hbacks & Hsat & Hcaps).
  assert (selection ⊆ eligible) as Hsub.
  { intros a [i Hi]%list_elem_of_lookup. destruct (Forall2_lookup_r _ _ _ _ _ Hbacks Hi) as (x & _ & Ha & _). done. }
  assert (NoDup selection) as Hdistinct.
  { apply NoDup_alt. intros i j a Hi Hj.
    destruct (Forall2_lookup_r _ _ _ _ _ Hbacks Hi) as (x & Hx & _ & cx & Hcx & ->).
    destruct (Forall2_lookup_r _ _ _ _ _ Hbacks Hj) as (y & Hy & _ & cy & Hcy & ->). simplify_eq.
    eapply (NoDup_lookup _ i j _ Hcaps); rewrite list_lookup_fmap; [by rewrite Hx|by rewrite Hy]. }
  exists core, payload, selection, snapshots, snapshot, policy, (pe_selected e). split_and!; try done.
  - congruence.
  - rewrite Forall_forall in Hcounts |- *. intros a Ha. by apply Hcounts, Hsub.
  - by eapply NoDup_fmap_sub.
  - apply Forall2_same_length_lookup in Hbacks as [Hlen Hbacks]. apply Forall2_same_length_lookup. split; [done|].
    intros i x a Hx Ha. destruct (Hbacks i x a Hx Ha) as [_ Hc]. split; [by eapply list_elem_of_lookup_2|exact Hc].
Qed.

(** C10: However the handlers of a node interleave, and over any number of restarts, a
    candidate that its store holds as admissible has a proof that justifies it: its
    payload is the transaction with its digest, and the proof names stored attestations
    of this very transaction, digest, revision and timestamp, above the cutoff they
    declare, of validators the resolver accepted.  With the threshold rule they are of
    different validators and exactly as many as the threshold the resolver gave; with a
    rule of the resolver's own they are the attestations it selected among those that
    count; and where that rule is the one of the capability log, they are of different
    validators whose capabilities satisfy the policy the transaction pins. *)
Theorem admissions_justified (s : Sys) key c : reachable_system sha256 ed25519_verify ed25519_sign options s →
  map_get key (candidates (store_of (sys_node s))) = Some c → sc_state c = admissible →
  justified sha256 options (sys_node s) c ∧
  ∀ select, mr_selectAdmission (no_membership options) = Some select → capability_rule select → policy_met (sys_node s) c.
Proof.
  intros Hs%reachable_system_inv Hk Hst.
  assert (justified sha256 options (sys_node s) c) as Hj by (by eapply ni_admitted; [apply (sv_node _ (sv_good _ Hs))|..]).
  split; [exact Hj|]. intros select Hsel Hrule. by eapply capability_policy_met.
Qed.

(** The cutoff a message announces. *)
Definition announced (m : Outgoing) : option Z :=
  match m with
  | out_candidate _ => None
  | out_attestation a => Some (at_acceptedAboveMs a)
  | out_heartbeat h => Some (hb_acceptanceCutoffMs h)
  end.
Definition is_heartbeat (m : Outgoing) : bool := match m with out_heartbeat _ => true | _ => false end.

(** C11: What a validator has announced stays.  In every reachable state each attestation
    handed to the transport is above the cutoff it declares, and no announced cutoff is
    above the one the node now keeps to.  The cutoff of every heartbeat, and, as long as
    the persistence layer saves what it is asked to save, that of every attestation too,
    is at or below the persisted cutoff; and a node started again on the store begins
    at or above it. *)
Theorem announced_cutoffs_kept (s : Sys) (n := sys_node s) : reachable_system sha256 ed25519_verify ed25519_sign options s →
  (∀ a, out_attestation a ∈ n_outbox n → at_acceptedAboveMs a < at_authorTimestampMs a) ∧
  ∀ m v, m ∈ n_outbox n → announced m = Some v →
  v ≤ n_acceptedAboveMs n ∧
  (is_heartbeat m = true ∨ saves_reliable (P:=P) (E:=E) →
    (∃ c, validatorCutoff (store_of n) (identity options) = Some c ∧ v ≤ c) ∧
    ∀ disk (forks : feed_world (P:=FP)) w history (s' : Sys),
    boot sha256 ed25519_verify options (mkWorld (store_of n) disk) forks w history = Some s' →
    v ≤ n_acceptedAboveMs (sys_node s')).
Proof.
  intros Hs%reachable_system_inv%sv_good. pose proof (proj1 (Forall_forall _ _) (ni_sent _ _ _ (sv_node _ Hs))) as Hsent.
  split; [intros a Ha; apply (Hsent _ Ha)|]. intros m v Hm Hv. specialize (Hsent m Hm).
  assert (v ≤ n_acceptedAboveMs n ∧ (is_heartbeat m = true ∨ saves_reliable (P:=P) (E:=E) →
    ∃ c, validatorCutoff (store_of n) (identity options) = Some c ∧ v ≤ c)) as [Habove Hcut].
  { destruct m as [core|a|h]; [done|injection Hv as <-..].
    - destruct Hsent as (_ & Habove & Hvo). split; [exact Habove|]. intros [[=]|Hrel].
      exists (n_acceptedAboveMs n). split; [exact (sv_synced _ Hs Hrel Hvo)|exact Habove].
    - destruct Hsent as [Habove Hcut]. by split. }
  split; [exact Habove|]. intros H. destruct (Hcut H) as (c & Hc & Hle). split; [by exists c|].
  intros disk forks w history s' Hb. etrans; [exact Hle|]. eapply boot_cutoff; [|exact Hb|exact Hc].
  apply node_good; apply Hs.
Qed.

(** C12: The list a node hands to its materializer is the order of the store, in every
    reachable state: one entry per admissible candidate, sorted by the order key, with
    the candidate's identifier and feed sequence, and a payload that has the candidate's
    digest and decodes to the transaction that is handed over with it. *)
Theorem materializer_input_exact (s : Sys) l (n := sys_node s) : reachable_system sha256 ed25519_verify ed25519_sign options s →
  order_capacity (store_of n) → (admittedTransactions n).2 = Ok l →
  StronglySorted (λ a b, compareCandidates a b < 0) (spec_order (store_of n)) ∧
  Forall2 (λ c t, ad_txId t = sc_txId c ∧ ad_authorFeedSequence t = ok_authorFeedSequence (sc_orderKey c) ∧
    ad_candidateDigest t = sc_candidateDigest c ∧
    decodeTransactionCore (ad_canonicalCandidate t) = Ok (ad_core t) ∧
    transactionDigest sha256 (ad_canonicalCandidate t) = Ok (ad_candidateDigest t)) (spec_order (store_of n)) l.
Proof.
  intros Hs%reachable_system_inv Hcap Hl. pose proof (sv_store _ (sv_good _ Hs) Hcap) as Hst. pose proof (sv_node _ (sv_good _ Hs)) as Hn.
  split; [by apply spec_order_sorted|]. eapply Forall2_impl; [by apply admitted_spec|]. intros c t [Hc Ht].
  destruct (spec_order_elem _ _ Hst Hc) as [Hget _].
  destruct (admittedTransaction_spec _ c t Hn Hget Ht) as (H1 & H2 & H3 & H4). split_and!; try done.
  unfold admittedTransaction in Ht. repeat case_match; by simplify_eq.
Qed.


(** *** Errors *)

(** A new record that the fork registry lets through. *)
Definition observed (record : TransportRecord) (n n1 : Node) : Prop :=
  set_has (tr_id record) (in_seen (n_ingestion n)) = false ∧
  (forks (observe (no_localeCompare options) record) n = (n1, Ok FeedForks.accepted) ∨
    forks (observe (no_localeCompare options) record) n = (n1, Ok duplicate)).

Lemma observed_same record (n n1 : Node) : observed record n n1 →
  n_ingestion n1 = n_ingestion n ∧ n_control n1 = n_control n ∧ n_world n1 = n_world n.
Proof.
  unfold observed, forks. destruct (observe _ _ (n_forks n)) as [w r]. intros [_ [[= <- _]|[= <- _]]]; done.
Qed.

Lemma ingest_unfold record (n n1 : Node) : observed record n n1 →
  run (ingest sha256 ed25519_verify ed25519_sign options record) n =
  match run (envelope ← encodes (decodeEnvelope (tr_payload record));
      if negb (is_wire_type (env_messageType envelope)) then sync (markSeen (tr_id record))
      else
      wire ← awaiting (decodeRecord sha256 ed25519_verify options record);
      awaiting (match wm_type wire with
        | WTcandidate => ingestCandidate sha256 ed25519_sign options record (wm_payload wire) (wm_signer wire)
        | WTattestation => ingestAttestation options record (wm_payload wire) (wm_signer wire)
        | WTheartbeat => ingestHeartbeat options record (wm_payload wire) (wm_signer wire)
        end) ;;
      sync (markSeen (tr_id record) ;; dropRetry (tr_id record) ;; clearIngestionError)) n1 with
  | (n2, Ok a) => (n2, Ok a)
  | (n2, Err e) => run (ingest_failed options record e) n2
  end.
Proof.
  intros [Hseen Hobs]. unfold ingest. rewrite run_bind, run_sync. cbn [look]. rewrite Hseen, run_catch. unfold ingest_record.
  rewrite run_bind, run_sync. by destruct Hobs as [-> | ->].
Qed.

(** What a node does with a record it cannot read.  If the envelope itself does not
    decode, the failure counts as transient: the record is not marked as seen, and is
    kept for another attempt or left to the history.  If the envelope decodes but its
    message cannot be opened, for whatever reason (a bad signature, but also a blob that
    could not be fetched or an epoch key not installed yet), the record is seen and never
    tried again in this life, where docs/blob-replication.md promises that failures of
    the network and of integrity are retried.  Neither touches the control store. *)
Theorem unreadable_records_classified record (n n1 : Node) (n' := (run (ingest sha256 ed25519_verify ed25519_sign options record) n).1) :
  observed record n n1 →
  (∀ code, decodeEnvelope (tr_payload record) = Err code →
    ¬ seen n' (tr_id record) ∧ n_control n' = n_control n ∧
    (map_get (tr_id record) (in_retryRecords (n_ingestion n')) = Some record ∨ in_retryOverflow (n_ingestion n') = true)) ∧
  (∀ envelope w e, decodeEnvelope (tr_payload record) = Ok envelope → is_wire_type (env_messageType envelope) = true →
    decodeSignedEnvelope sha256 ed25519_verify (tr_payload record) (groupRoute options) (no_envelopeCipher options)
    (bo_store <$> no_blobPayloads options) (n_world n) = (w, Err e) →
    seen n' (tr_id record) ∧ n_control n' = n_control n).
Proof.
  intros Hobs. destruct (observed_same _ _ _ Hobs) as (Hi & Hc & Hw). subst n'. rewrite (ingest_unfold _ _ _ Hobs), run_bind.
  unfold encodes. rewrite run_sync. unfold check. split.
  - intros code ->. unfold ingest_failed. rewrite run_sync.
    unfold seen, keepForRetry, recordIngestionError, on_ingestion, write, emit, mbind, SE_bind. cbn -[map_set map_has].
    rewrite Hi. case_match; cbn -[map_set map_has]; (split; [destruct Hobs as [Hs _]; by rewrite Hs|]); (split; [done|]); [left|by right].
    apply map_get_set_eq.
  - intros envelope w e -> Hwire Hdec. rewrite Hwire. cbn [negb]. rewrite run_bind, run_awaiting. unfold decodeRecord.
    rewrite run_catch. unfold ask. rewrite run_service. unfold outside, wire_call. rewrite Hw, Hdec. cbn [run]. unfold ingest_failed.
    rewrite run_sync. split; [exact (markSeen_seen (tr_id record) _)|exact Hc].
Qed.
End system.
