(* ===== verification/NodeSample.v ===== *)
(** * A node at work, on concrete inputs

    One validating node with a transport that keeps a feed in memory and a clock that
    is set from outside.  [follow] runs a schedule, one choice per step of the system;
    the states it reaches are the concrete instances of the theorems on running
    nodes, and one of its schedules is the overtaking of an attestation by a
    heartbeat. *)

From Stdlib Require Import Strings.Byte Strings.String.
From stdpp Require Import base list option numbers sets sorting relations.
From S2P Require Import CapTypes Reducer LogTheorems MembershipTheorems.
From S2P Require Import Prelude JsMap Bytes JsNumber Text Cbor Domains Messages StoreTypes ControlStore StoreInvariant StoreTheorems CapTypes FeedForks Membership Logical Sql Transaction MaterializerCodec Blobs BlobsTheorems Wire WireTheorems Async Node NodeProofs NodeTheorems.

#[local] Open Scope Z_scope.

(** ** Schedules *)

Section schedule.
Context {P E FP FE W : Type} `{!Persistence P E, !FeedForkPersistence FP FE}.
Context (sha256 : bytes → bytes) (ed25519_verify : bytes → bytes → bytes → bool) {Key : Type}
  (ed25519_sign : Key → bytes → option bytes).
Context (options : ChronologNodeOptions (E:=E) (FE:=FE) (W:=W) (Key:=Key)).

Abbreviation Sys := (System (P:=P) (E:=E) (FP:=FP) (FE:=FE) (W:=W)).

Inductive Choice :=
  | Enqueue (job : W → option Job)
  | Acquire
  | Hold
  | Release
  | BeginHeartbeat
  | BeginPublish (input : PublishTransactionInput)
  | Continue
  | Sent
  | Fire
  | Retry
  | Change (f : W → W).

(** The schedule runs the first publication or heartbeat, and the first run of the retry
    timer; a turn of a program that has ended changes nothing. *)
Definition choose (c : Choice) (s : Sys) : option Sys :=
  let '(mkSystem n h q ts rs ds) := s in
  match c with
  | Enqueue job => (λ j, mkSystem n h (q ++ [j]) ts rs (match j with ingestion r => r :: ds | materialization => ds end)) <$> job (n_world n)
  | Acquire =>
    match h, q with
    | None, job :: q =>
      let p := job_program sha256 ed25519_verify ed25519_sign options job in
      Some (mkSystem (turn p n).1 (Some (job, (turn p n).2)) q ts rs ds)
    | _, _ => None
    end
  | Hold =>
    match h with
    | Some (job, p) =>
      match finished p with
      | None => Some (mkSystem (turn p n).1 (Some (job, (turn p n).2)) q ts rs ds)
      | Some _ => Some s
      end
    | None => None
    end
  | Release =>
    match h with
    | Some (job, p) => match finished p with Some _ => Some (mkSystem n None q ts rs ds) | None => None end
    | None => None
    end
  | BeginHeartbeat => Some (mkSystem n h q (ts ++ [heartbeat_record sha256 ed25519_sign options]) rs ds)
  | BeginPublish input => Some (mkSystem n h q (ts ++ [publish_task sha256 ed25519_sign options input]) rs ds)
  | Continue => match ts with p :: ts => Some (mkSystem (turn p n).1 h q ((turn p n).2 :: ts) rs ds) | [] => None end
  | Sent => match ts with Ret record :: ts => Some (mkSystem n h (q ++ [ingestion record]) ts rs (record :: ds)) | _ => None end
  | Fire => Some (mkSystem n h q ts (rs ++ [(retry_start n, [])]) ds)
  | Retry =>
    match rs with
    | (run, asked) :: rs =>
      let '(n', record, run') := retry_turn options run n in
      Some (mkSystem n' h (q ++ option_list (ingestion <$> record)) ts
          (option_list ((λ r, (r, match run with retrying _ => ds | _ => asked end)) <$> run') ++ rs) ds)
    | [] => None
    end
  | Change f => Some (mkSystem (set_world (f (n_world n)) n) h q ts rs ds)
  end.

Definition follow (cs : list Choice) (s : option Sys) : option Sys := foldl (λ s c, s ≫= choose c) s cs.

Lemma choose_step c s s' : choose c s = Some s' → s' = s ∨ step sha256 ed25519_verify ed25519_sign options s s'.
Proof.
  destruct s as [n h q ts rs ds]. destruct c; cbn -[retry_turn].
  - destruct (job (n_world n)) as [[record|]|]; [| |done]; intros [= <-]; right; [apply step_deliver|apply step_materialize].
  - destruct h, q; try done. intros [= <-]. right. apply step_mutex, lock_acquire.
  - destruct h as [[job p]|]; [|done]. destruct (finished p) eqn:Hf; intros [= <-]; [by left|right]. by apply step_mutex, lock_turn.
  - destruct h as [[job p]|]; [|done]. destruct (finished p) eqn:Hf; [|done]. intros [= <-]. right. by eapply step_mutex, lock_release.
  - intros [= <-]. right. apply step_heartbeat.
  - intros [= <-]. right. apply step_publish.
  - destruct ts as [|p ts]; [done|]. intros [= <-]. right. apply (step_task _ _ _ _ n h q []).
  - destruct ts as [|[record| | |] ts]; try done. intros [= <-]. right. apply (step_sent _ _ _ _ n h q []).
  - intros [= <-]. right. apply step_retry_fires.
  - destruct rs as [|[run asked] rs]; [done|]. destruct (retry_turn options run n) as [[n' record] run'] eqn:Hr.
    intros [= <-]. right. by apply (step_retry _ _ _ _ n h q ts []).
  - intros [= <-]. right. apply step_world.
Qed.

Lemma follow_reachable cs : ∀ s s', reachable_system sha256 ed25519_verify ed25519_sign options s →
  follow cs (Some s) = Some s' → reachable_system sha256 ed25519_verify ed25519_sign options s'.
Proof.
  induction cs as [|c cs IH]; intros s s' Hs; cbn; [by intros [= <-]|].
  destruct (choose c s) as [s1|] eqn:Hc.
  { apply IH. destruct (choose_step _ _ _ Hc) as [-> |Hstep]; [done|by eapply sys_step]. }
  assert (follow cs None = None) as Hnone by (clear; induction cs; [done|by cbn]). unfold follow in Hnone. by rewrite Hnone.
Qed.
End schedule.

(** ** The node *)

(** The clock and the node's own feed. *)
Definition World := (Z * list TransportRecord)%type.

Definition sample_me : jsstring := js "@me".

Definition record_id (index : nat) : jsstring := js "record" ++ [Z.of_nat index + 48].

Definition sample_publish (payload : bytes) : SE World (NodeError Empty_set Empty_set) TransportRecord := λ w,
  let index := length w.2 in
  let record := mkTransportRecord (record_id index) sample_me (Z.of_nat index + 1)
    (match index with O => None | S i => Some (record_id i) end) (Some w.1) payload in
  ((w.1, w.2 ++ [record]), Ok record).

Definition answer {A} (a : A) : SE World (NodeError Empty_set Empty_set) A := λ w, (w, Ok a).

Definition sample_transport : ChronologTransport (E:=Empty_set) (FE:=Empty_set) (W:=World) :=
  mkTransport sample_me sample_publish (answer None).

(** Every writer may write, the node validates alone. *)
Definition sample_membership : MembershipResolver (E:=Empty_set) (FE:=Empty_set) (W:=World) :=
  mkMembershipResolver (λ _, answer true) (λ _, answer true) (λ _, answer 1) None None None None.

Definition sample_materialization : MaterializationRuntime (E:=Empty_set) (FE:=Empty_set) (W:=World) :=
  mkMaterializationRuntime (λ _, answer None) (λ _, mkRevisionSnapshot 0 0 (replicate 32 x06))
    (λ _, answer (mkPublicationResult (mkRevisionSnapshot 0 0 []) None))
    (λ _ _, answer (mkPublicationResult (mkRevisionSnapshot 0 0 []) None)).

Definition sample_options : ChronologNodeOptions (E:=Empty_set) (FE:=Empty_set) (W:=World) (Key:=unit) :=
  mkNodeOptions (replicate 32 x01) None (replicate 32 x02) (replicate 32 x03) toy_pair sample_transport
    sample_materialization sample_membership None
    (Some (mkValidatorOptions (replicate 32 x09) None None None None))
    fst (λ k w, (w, replicate k x07)) None None None (λ _, true) (λ _ _, 0).

Abbreviation SampleSystem := (System (P:=unit) (E:=Empty_set) (FP:=unit) (FE:=Empty_set) (W:=World)).

#[local] Existing Instance NullPersistence.
#[local] Existing Instance NoFeedPersistence.

Definition sample_start : option SampleSystem :=
  boot tail_digest toy_verify sample_options (mkWorld (empty_store 100) tt) (mkFeedWorld empty_registry tt) (100000, []) [].

Definition sample_input : PublishTransactionInput := mkPublishInput sample_program None None None None None.

Definition own_record (index : nat) : Choice (W:=World) := Enqueue (λ w, ingestion <$> w.2 !! index).

(** A transaction is published, attested and admitted. *)
Definition admission_schedule : list (Choice (W:=World)) :=
  BeginPublish sample_input :: replicate 20 Continue ++ Sent :: Acquire :: replicate 60 Hold ++
  Release :: own_record 1 :: Acquire :: replicate 60 Hold ++ [Release].

Definition sample_run (cs : list (Choice (W:=World))) : option SampleSystem :=
  follow tail_digest toy_verify toy_sign sample_options cs sample_start.

(** The same node, its clock moved on while an attestation is being signed, and a
    heartbeat that goes out before it. *)
Definition overtaking_schedule : list (Choice (W:=World)) :=
  BeginPublish sample_input :: replicate 20 Continue ++ Sent :: Acquire :: replicate 17 Hold ++
  Change (λ w, (300000, w.2)) :: BeginHeartbeat :: replicate 20 Continue ++ [Hold].

Definition sample_reachable_system : SampleSystem → Prop := reachable_system tail_digest toy_verify toy_sign sample_options.

Lemma sample_follow cs s : sample_run cs = Some s → sample_reachable_system s.
Proof.
  assert (∃ s0, sample_start = Some s0) as [s0 H0] by (eexists; vm_compute; reflexivity).
  unfold sample_run. rewrite H0. apply follow_reachable. eapply (sys_first _ _ _ _ 100 tt); [lia|exact H0].
Qed.

(** What a system shows. *)
Definition outbox_of (s : SampleSystem) : list Outgoing := n_outbox (sys_node s).
Definition candidates_of (s : SampleSystem) : jsmap jsstring StoredCandidate := candidates (store_of (sys_node s)).

Lemma get_system (o : option SampleSystem) {A} (f : SampleSystem → A) a : f <$> o = Some a → ∃ s, o = Some s ∧ f s = a.
Proof. destruct o as [s|]; [|done]. intros [= H]. by exists s. Qed.

(** The messages end with a heartbeat and an attestation it covers. *)
Definition overtaken (sent : list Outgoing) : bool :=
  match sent with
  | [out_candidate _; out_heartbeat h; out_attestation a] => at_authorTimestampMs a <=? hb_acceptanceCutoffMs h
  | _ => false
  end.

Lemma sample_overtaken_outbox : overtaken ∘ outbox_of <$> sample_run overtaking_schedule = Some true.
Proof. vm_compute. reflexivity. Qed.

(** A reachable state in which an attestation went out after a heartbeat whose cutoff
    it does not exceed: the two are not ordered by the mutex, and the attestation was
    built before the cutoff advanced. *)
Theorem heartbeat_overtakes_attestation : ∃ s core h a,
  sample_reachable_system s ∧ outbox_of s = [out_candidate core; out_heartbeat h; out_attestation a] ∧
  at_authorTimestampMs a <= hb_acceptanceCutoffMs h.
Proof.
  destruct (get_system (sample_run overtaking_schedule) _ _ sample_overtaken_outbox) as (s & Hs & Ho). exists s.
  apply sample_follow in Hs. unfold overtaken, compose in Ho. repeat case_match; try done.
  apply Z.leb_le in Ho. by do 3 eexists.
Qed.

(** ** Instances of the theorems *)

Definition admitted_view (s : SampleSystem) : bool :=
  match candidates_of s, (admittedTransactions (sys_node s)).2 with
  | [(key, c)], Ok [t] => bool_decide (sc_state c = admissible) && (Z.of_nat (length (orderedTxIds (store_of (sys_node s)))) <? 2 ^ 31)
  | _, _ => false
  end.

Lemma sample_admitted_view : admitted_view <$> sample_run admission_schedule = Some true.
Proof. vm_compute. reflexivity. Qed.

(** *** A node whose resolver asks the capability log *)

Definition policy_genesis : SignedGenesis := mkSignedGenesis
  (mkGenesis (replicate 32 x01) (replicate 32 x02) (toy_key x10) [x03] [toy_key x11; toy_key x12; toy_key x13] 2
    [toy_validator x20 0 100; toy_writer x21 0] [mkPolicy 1 1 [(js "gold", 1)] [js "org"]]
    (mkClock 1000 2000 500) (mkResource 1048576 1000 100 100) (js "suite") 1700000000000)
  toy_signature.

Definition policy_snapshot : CapabilitySnapshot :=
  Eval vm_compute in match genesisSnapshot toy_sha256 LogTheorems.toy_verify policy_genesis with
  | Ok s => s
  | Err _ => toy_snapshot
  end.

Definition policy_resolver (revision : bytes) : option CapabilitySnapshot := Some policy_snapshot.

Lemma policy_resolver_reduced : reduced_snapshots toy_sha256 LogTheorems.toy_verify policy_resolver.
Proof. intros d s [= <-]. eexists. apply (chain_genesis _ _ policy_genesis); vm_compute; reflexivity. Qed.

Definition policy_id : bytes := match cs_policies policy_snapshot with (_, p) :: _ => ep_id p | [] => [] end.

Definition policy_select (context : AdmissionContext) (eligible : list StoredAttestation) :
  SE World (NodeError Empty_set Empty_set) (list StoredAttestation) := λ w,
  (w, match selectAdmission policy_resolver context eligible with Ok selection => Ok selection | Err _ => Err ServiceFailed end).

Definition policy_options : ChronologNodeOptions (E:=Empty_set) (FE:=Empty_set) (W:=World) (Key:=unit) :=
  mkNodeOptions (replicate 32 x01) None (cs_revisionDigest policy_snapshot) policy_id (mkKeyPair (toy_key x20) tt) sample_transport
    sample_materialization
    (mkMembershipResolver (λ _, answer true) (λ _, answer true) (λ _, answer 1) None None None (Some policy_select)) None
    (Some (mkValidatorOptions (nth_id 0 policy_snapshot) None None None None))
    fst (λ k w, (w, replicate k x07)) None None None (λ _, true) (λ _ _, 0).

Definition policy_run : option SampleSystem :=
  follow toy_sha256 LogTheorems.toy_verify toy_sign policy_options admission_schedule
    (boot toy_sha256 LogTheorems.toy_verify policy_options (mkWorld (empty_store 100) tt) (mkFeedWorld empty_registry tt) (100000, []) []).

Lemma policy_admitted_view : admitted_view <$> policy_run = Some true.
Proof. vm_compute. reflexivity. Qed.

Lemma policy_reachable s : policy_run = Some s →
  reachable_system toy_sha256 LogTheorems.toy_verify toy_sign policy_options s.
Proof.
  unfold policy_run. assert (∃ s0 : SampleSystem, boot toy_sha256 LogTheorems.toy_verify policy_options
    (mkWorld (empty_store 100) tt) (mkFeedWorld empty_registry tt) (100000, []) [] = Some s0) as [s0 H0]
    by (eexists; vm_compute; reflexivity).
  rewrite H0. apply follow_reachable. eapply (sys_first _ _ _ _ 100 tt); [lia|exact H0].
Qed.

Lemma policy_select_rule : capability_rule toy_sha256 LogTheorems.toy_verify policy_select.
Proof.
  intros context eligible w w' selection H. exists policy_resolver. split; [exact policy_resolver_reduced|].
  unfold policy_select in H. destruct (selectAdmission policy_resolver context eligible); [congruence|done].
Qed.

Lemma admissions_justified_witness : ∃ s key c,
  reachable_system toy_sha256 LogTheorems.toy_verify toy_sign policy_options s ∧
  candidates_of s = [(key, c)] ∧ sc_state c = admissible ∧
  justified toy_sha256 policy_options (sys_node s) c ∧ policy_met toy_sha256 LogTheorems.toy_verify policy_options (sys_node s) c.
Proof.
  destruct (get_system policy_run _ _ policy_admitted_view) as (s & Hs & Hv).
  apply policy_reachable in Hs. unfold admitted_view in Hv.
  destruct (candidates_of s) as [|[key c] [|]] eqn:Hc; [discriminate Hv| |discriminate Hv].
  destruct (admittedTransactions (sys_node s)).2 as [[|t [|]]|]; try discriminate Hv.
  apply andb_prop in Hv as [Hst%bool_decide_eq_true _]. exists s, key, c. split; [exact Hs|]. split; [exact Hc|]. split; [exact Hst|].
  destruct (admissions_justified toy_sha256 LogTheorems.toy_verify toy_sign policy_options s key c Hs) as [Hj Hp]; [|exact Hst|].
  { change (map_get key (candidates_of s) = Some c). rewrite Hc. cbn. by rewrite decide_True. }
  split; [exact Hj|]. exact (Hp policy_select eq_refl policy_select_rule).
Defined.

Lemma materializer_input_exact_witness : ∃ s c t,
  sample_reachable_system s ∧ spec_order (store_of (sys_node s)) = [c] ∧ (admittedTransactions (sys_node s)).2 = Ok [t] ∧
  ad_txId t = sc_txId c ∧ decodeTransactionCore (ad_canonicalCandidate t) = Ok (ad_core t).
Proof.
  destruct (get_system (sample_run admission_schedule) _ _ sample_admitted_view) as (s & Hs & Hv).
  apply sample_follow in Hs. unfold admitted_view in Hv.
  destruct (candidates_of s) as [|[key c] [|]] eqn:Hc; [discriminate Hv| |discriminate Hv].
  destruct (admittedTransactions (sys_node s)).2 as [[|t [|]]|] eqn:Ht; try discriminate Hv.
  apply andb_prop in Hv as [_ Hcap%Z.ltb_lt].
  destruct (materializer_input_exact tail_digest toy_verify toy_sign sample_options s [t] Hs Hcap Ht) as [_ Hf].
  apply Forall2_cons_inv_r in Hf as (c' & l & (H1 & _ & _ & H2 & _) & Hnil & Hl). apply Forall2_nil_inv_r in Hnil as ->.
  exists s, c', t. split; [exact Hs|]. split; [exact Hl|]. split; [exact Ht|]. by split.
Defined.

Lemma null_saves : saves_reliable (P:=unit) (E:=Empty_set).
Proof. done. Qed.

(** Both messages' cutoffs are persisted. *)
Lemma announced_cutoffs_kept_witness : ∃ s h a v,
  sample_reachable_system s ∧ out_heartbeat h ∈ outbox_of s ∧ out_attestation a ∈ outbox_of s ∧
  validatorCutoff (store_of (sys_node s)) (identity sample_options) = Some v ∧
  hb_acceptanceCutoffMs h ≤ v ∧ at_acceptedAboveMs a ≤ v.
Proof.
  destruct (get_system (sample_run overtaking_schedule) _ _ sample_overtaken_outbox) as (s & Hs & Ho).
  apply sample_follow in Hs. unfold overtaken, compose in Ho. exists s.
  destruct (outbox_of s) as [|[core| |] [|[| |h] [|[|a|] l]]] eqn:Hout; try discriminate Ho. exists h, a.
  assert (∀ m, m ∈ outbox_of s → m ∈ n_outbox (sys_node s)) as Hin by done. rewrite Hout in Hin.
  destruct (announced_cutoffs_kept tail_digest toy_verify toy_sign sample_options s Hs) as [_ H].
  destruct (H (out_heartbeat h) (hb_acceptanceCutoffMs h)) as [_ Hh]; [apply Hin; set_solver|done|].
  destruct (H (out_attestation a) (at_acceptedAboveMs a)) as [_ Ha]; [apply Hin; set_solver|done|].
  destruct Hh as [(v & Hv & Hle) _]; [by left|]. destruct Ha as [(v' & Hv' & Hle') _]; [right; exact null_saves|].
  exists v. split; [exact Hs|]. split; [set_solver|]. split; [set_solver|]. split; [exact Hv|]. split; [exact Hle|].
  rewrite Hv in Hv'. injection Hv' as <-. exact Hle'.
Defined.

(** A record with no envelope in it, and one whose envelope holds a message of a
    stranger's route. *)
Definition unreadable_record : TransportRecord := mkTransportRecord (js "bad") (js "@other") 1 None (Some 0) [].
Definition foreign_payload : bytes :=
  match (encodeSignedEnvelope tail_digest toy_sign (replicate 32 x08) WTheartbeat [x01] toy_pair None None (0, @nil TransportRecord)).2 with
  | Ok b => b | Err _ => [] end.
Definition foreign_record : TransportRecord := mkTransportRecord (js "foreign") (js "@other") 1 None (Some 0) foreign_payload.

Definition sample_node : ChronologNode (P:=unit) (E:=Empty_set) (FP:=unit) (FE:=Empty_set) (W:=World) :=
  mkNode (mkWorld (empty_store 100) tt) (mkFeedWorld empty_registry tt) (mkIngestion [] [] false None) [] 0 [] None 0 0 false []
    true [] (100000, []).

(** A node with room for one record to retry. *)
Definition small_options : ChronologNodeOptions (E:=Empty_set) (FE:=Empty_set) (W:=World) (Key:=unit) :=
  mkNodeOptions (replicate 32 x01) None (replicate 32 x02) (replicate 32 x03) toy_pair sample_transport
    sample_materialization sample_membership None None
    fst (λ k w, (w, replicate k x07)) None None (Some 1) (λ _, true) (λ _ _, 0).

Definition second_record : TransportRecord := mkTransportRecord (js "worse") (js "@third") 1 None (Some 0) [].

(** Two records that fail: the first fills the set, the second is left to the history;
    then the retry timer fires. *)
Definition overflow_schedule : list (Choice (W:=World)) :=
  [Enqueue (λ _, Some (ingestion unreadable_record)); Acquire; Hold; Hold; Release;
    Enqueue (λ _, Some (ingestion second_record)); Acquire; Hold; Hold; Release; Fire; Retry].

Definition small_run : option SampleSystem :=
  follow tail_digest toy_verify toy_sign small_options overflow_schedule
    (boot tail_digest toy_verify small_options (mkWorld (empty_store 100) tt) (mkFeedWorld empty_registry tt) (100000, []) []).

Definition overflow_view (s : SampleSystem) : bool :=
  let i := n_ingestion (sys_node s) in
  match sys_delivered s, sys_queue s, sys_retries s, sys_holder s with
  | [record; _], [ingestion r], [(retrying [], _)], None =>
    bool_decide (tr_id record = js "worse") && bool_decide (tr_id r ≠ js "worse") &&
    negb (map_has (js "worse") (in_retryRecords i)) && negb (set_has (js "worse") (in_seen i))
  | _, _, _, _ => false
  end.

Lemma small_run_view : overflow_view <$> small_run = Some true.
Proof. vm_compute. reflexivity. Qed.

Lemma small_reachable s : small_run = Some s → reachable_system tail_digest toy_verify toy_sign small_options s.
Proof.
  unfold small_run. assert (∃ s0 : SampleSystem, boot tail_digest toy_verify small_options (mkWorld (empty_store 100) tt)
    (mkFeedWorld empty_registry tt) (100000, []) [] = Some s0) as [s0 H0] by (eexists; vm_compute; reflexivity).
  rewrite H0. apply follow_reachable. eapply (sys_first _ _ _ _ 100 tt); [lia|exact H0].
Qed.

Lemma unreadable_records_classified_witness :
  (¬ seen (run (ingest tail_digest toy_verify toy_sign sample_options unreadable_record) sample_node).1 (js "bad")) ∧
  seen (run (ingest tail_digest toy_verify toy_sign sample_options foreign_record) sample_node).1 (js "foreign").
Proof.
  split.
  - destruct (unreadable_records_classified tail_digest toy_verify toy_sign sample_options unreadable_record sample_node
      (forks (observe (no_localeCompare sample_options) unreadable_record) sample_node).1) as [H _].
    { split; [reflexivity|left; vm_compute; reflexivity]. }
    destruct (H CBOR_INVALID) as [H1 _]; [vm_compute; reflexivity|exact H1].
  - destruct (unreadable_records_classified tail_digest toy_verify toy_sign sample_options foreign_record sample_node
      (forks (observe (no_localeCompare sample_options) foreign_record) sample_node).1) as [_ H].
    { split; [reflexivity|left; vm_compute; reflexivity]. }
    eapply H; [vm_compute; reflexivity|vm_compute; reflexivity|vm_compute; reflexivity].
Defined.
