(* ===== verification/NodeOrder.v ===== *)
(** * What a node announces, in order

    A validator announces cutoffs, in heartbeats and in attestations.  When its
    handlers run one after the other, each to its end, the announced cutoffs never go
    down and no attestation is for a transaction at or below a cutoff announced
    before it.  [NodeSample] has a schedule of the interleaved system in which a
    heartbeat overtakes an attestation, so the hypothesis is needed. *)

From Stdlib Require Import Strings.Byte.
From stdpp Require Import base list option numbers sets sorting relations.
From S2P Require Import Prelude JsMap Bytes JsNumber Text Cbor Domains Messages StoreTypes ControlStore StoreInvariant StoreTheorems CapTypes FeedForks Membership Logical Sql Transaction MaterializerCodec Blobs BlobsTheorems Wire WireTheorems Async Node NodeProofs NodeTheorems NodeSample.

#[local] Open Scope Z_scope.

Section order.
Context {P E FP FE W : Type} `{!Persistence P E, !FeedForkPersistence FP FE}.
Context (sha256 : bytes → bytes) (ed25519_verify : bytes → bytes → bytes → bool) {Key : Type}
  (ed25519_sign : Key → bytes → option bytes).
Context (options : ChronologNodeOptions (E:=E) (FE:=FE) (W:=W) (Key:=Key)).

Abbreviation Node := (ChronologNode (P:=P) (E:=E) (FP:=FP) (FE:=FE) (W:=W)).
Abbreviation node := (SE Node (NodeError E FE)).
Abbreviation async := (proc Node (NodeError E FE)).

(** The handlers of a node, run to their ends. *)
Inductive Handler :=
  | serve_heartbeat
  | serve_publish (input : PublishTransactionInput)
  | serve_ingest (record : TransportRecord)
  | serve_materialization
  | serve_world (w : W).

Definition serve (n : Node) (handler : Handler) : Node :=
  match handler with
  | serve_heartbeat => (run (publishHeartbeat sha256 ed25519_verify ed25519_sign options) n).1
  | serve_publish input => (run (publish sha256 ed25519_verify ed25519_sign options input) n).1
  | serve_ingest record => (run (ingest sha256 ed25519_verify ed25519_sign options record) n).1
  | serve_materialization => (run (materialization_job options) n).1
  | serve_world w => set_world w n
  end.

(** The cutoffs announced so far are sorted and at or below the node's own. *)
Definition cutoffs_ordered (n : Node) : Prop :=
  StronglySorted Z.le (omap announced (n_outbox n)) ∧ Forall (λ v, v ≤ n_acceptedAboveMs n) (omap announced (n_outbox n)).

(** ** Programs that send nothing *)

Definition hush (n n' : Node) : Prop := n_outbox n' = n_outbox n ∧ n_acceptedAboveMs n ≤ n_acceptedAboveMs n'.

Lemma hush_refl n : hush n n.
Proof. by split. Qed.
Lemma hush_trans n1 n2 n3 : hush n1 n2 → hush n2 n3 → hush n1 n3.
Proof. intros [O1 A1] [O2 A2]. split; [congruence|lia]. Qed.

Lemma hush_ordered n n' : hush n n' → cutoffs_ordered n → cutoffs_ordered n'.
Proof. intros [Ho Ha] [H1 H2]. unfold cutoffs_ordered. rewrite Ho. split; [done|]. eapply Forall_impl; [exact H2|]. cbn. lia. Qed.

Definition hushed {A} (m : node A) : Prop := ∀ n, hush n (m n).1.

Lemma hushed_ret {A} (a : A) : hushed (mret a).
Proof. intros n. apply hush_refl. Qed.
Lemma hushed_throw {A} e : hushed (throw (A:=A) e).
Proof. intros n. apply hush_refl. Qed.
Lemma hushed_look {A} (f : Node → A) : hushed (look f).
Proof. intros n. apply hush_refl. Qed.
Lemma hushed_check {A} (r : result ErrorCode A) : hushed (check r).
Proof. intros n. apply hush_refl. Qed.
Lemma hushed_bind {A B} (m : node A) (f : A → node B) : hushed m → (∀ a, hushed (f a)) → hushed (m ≫= f).
Proof.
  intros Hm Hf n. specialize (Hm n). unfold mbind, SE_bind. destruct (m n) as [n' [a|e]]; [|done].
  eapply hush_trans; [exact Hm|apply Hf].
Qed.
Lemma hushed_control {A} (m : op P E A) : hushed (control m).
Proof. intros n. unfold control. destruct (m (n_control n)). by split. Qed.
Lemma hushed_forks {A} (m : fop (P:=FP) (E:=FE) A) : hushed (forks m).
Proof. intros n. unfold forks. destruct (m (n_forks n)). by split. Qed.
Lemma hushed_outside {A} (m : SE W (NodeError E FE) A) : hushed (outside m).
Proof. intros n. unfold outside. destruct (m (n_world n)). by split. Qed.
Lemma hushed_write f : (∀ n, hush n (f n)) → hushed (write f).
Proof. intros Hf n. apply Hf. Qed.

Ltac quiet := repeat first
  [ apply hushed_ret | apply hushed_throw | apply hushed_look | apply hushed_check | apply hushed_control | apply hushed_forks
    | apply hushed_outside | apply hushed_bind; [|intros ?] | apply hushed_write; intros ?; split; [done|cbn; lia]
    | progress case_match ].

Lemma hushed_persist : hushed (persistValidatorCutoff options).
Proof. unfold persistValidatorCutoff. quiet. Qed.
Lemma hushed_advance now : hushed (advanceValidatorCutoff options now).
Proof.
  unfold advanceValidatorCutoff. case_match; [|quiet]. apply hushed_write. intros n.
  case_match eqn:Hlt; [|apply hush_refl]. split; [done|cbn; lia].
Qed.
Lemma hushed_on_ingestion f : hushed (on_ingestion f).
Proof. unfold on_ingestion. quiet. Qed.

(** *** With [await] *)

Definition silent {A} (p : async A) : Prop := ∀ n, rg (λ _ _, True) hush p (λ _ _, True) n.

Lemma silent_run {A} (p : async A) n : silent p → hush n (run p n).1.
Proof.
  intros Hp. specialize (Hp n). revert n Hp. induction p as [a|e|g IH|q IH] using proc_nested_ind; intros n; cbn;
    [intros; apply hush_refl|intros; apply hush_refl| |intros H; by apply IH, H].
  specialize (IH n). destruct (g n) as [n' q]. intros [H1 H2]. eapply hush_trans; [exact H1|by apply IH].
Qed.

Lemma silent_ret {A} (a : A) : silent (Ret a).
Proof. by intros n. Qed.
Lemma silent_throw {A} e : silent (A:=A) (Throw e).
Proof. by intros n. Qed.
Lemma silent_bind {A B} (p : async A) (f : A → async B) : silent p → (∀ a, silent (f a)) → silent (p ≫= f).
Proof. intros Hp Hf n. apply rg_bind. eapply rg_mono; [|apply Hp]. intros [a|e] n' _; [apply Hf|done]. Qed.
Lemma silent_catch {A} (p : async A) handler : silent p → (∀ e, silent (handler e)) → silent (proc_catch handler p).
Proof. intros Hp Hf n. apply rg_catch. eapply rg_mono; [|apply Hp]. intros [a|e] n' _; [done|apply Hf]. Qed.
Lemma silent_awaiting {A} (p : async A) : silent p → silent (awaiting p).
Proof. intros Hp n. apply rg_awaiting. eapply rg_mono; [|apply Hp]. done. Qed.
Lemma silent_sync {A} (m : node A) : hushed m → silent (sync m).
Proof. intros Hm n. by apply rg_sync. Qed.
Lemma silent_ask {A} (m : SE W (NodeError E FE) A) : silent (ask m).
Proof. intros n. apply rg_service. intros n1 _. split; [apply hushed_outside|done]. Qed.

Ltac hushing := repeat first
  [ apply silent_ret | apply silent_throw | apply silent_ask | apply silent_awaiting
    | apply silent_sync; first [apply hushed_persist | apply hushed_advance | apply hushed_on_ingestion | by quiet]
    | apply silent_bind; [|intros ?] | progress case_match ].

Lemma silent_transport_author author role id revision capability :
  silent (membershipAllowsTransportAuthor options author role id revision capability).
Proof. unfold membershipAllowsTransportAuthor. hushing. Qed.
Lemma silent_heartbeatAuthorized context : silent (heartbeatAuthorized options context).
Proof. unfold heartbeatAuthorized. hushing. Qed.
Lemma silent_policyVersion core : silent (expectedPolicyVersion options core).
Proof. unfold expectedPolicyVersion. hushing. Qed.
Lemma silent_decodeRecord record : silent (decodeRecord sha256 ed25519_verify options record).
Proof. unfold decodeRecord. apply silent_catch; intros; hushing. Qed.
Lemma silent_proof candidate core a : silent (isValidAdmissionProof options candidate core a).
Proof.
  unfold isValidAdmissionProof. case_match; [hushing|]. apply silent_bind; [apply silent_policyVersion|]. intros v. hushing.
Qed.
Lemma silent_eligible candidate core known : ∀ validators eligible,
  silent (eligibleAttestations options candidate core known validators eligible).
Proof.
  induction known as [|a known IH]; intros validators eligible; cbn; [apply silent_ret|]. case_match; [apply IH|].
  apply silent_bind; [apply silent_proof|]. intros [|]; apply IH.
Qed.
Lemma silent_evaluate txId core : silent (evaluateAdmission options txId core).
Proof.
  unfold evaluateAdmission. apply silent_bind; [hushing|]. intros [candidate|]; [|hushing]. case_match; [hushing|].
  apply silent_bind; [hushing|]. intros threshold. case_match; [hushing|]. apply silent_bind; [hushing|]. intros known.
  apply silent_bind; [apply silent_eligible|]. intros eligible. unfold admitCandidate. hushing.
Qed.
Lemma silent_raise {B} (condition : bool) v (k : async B) : silent k →
  silent (acceptedAbove ← sync (look n_acceptedAboveMs);
    sync (if condition && (acceptedAbove <? v)
      then write (set_acceptedAboveMs v) ;; persistValidatorCutoff options else mret tt) ;; k).
Proof.
  intros Hk n. apply rg_bind, rg_sync; [apply hush_refl|]. cbn [look fst snd]. apply rg_bind. set (m := if condition && _ then _ else _). assert (hush n (m n).1) as Hm.
  { unfold m. destruct (condition && _) eqn:Hc; [|apply hush_refl]. eapply hush_trans; [|apply hushed_persist].
    split; [done|cbn; lia]. }
  apply rg_sync; [exact Hm|]. destruct (m n).2; [apply Hk|done].
Qed.

Lemma silent_ingestAttestation record encoded signer : silent (ingestAttestation options record encoded signer).
Proof.
  unfold ingestAttestation, decodeAttestation, decoded. apply silent_bind; [hushing|]. intros value.
  do 2 (case_match; [hushing|]). apply silent_bind; [apply silent_transport_author|]. intros allowed. case_match; [hushing|].
  apply silent_raise. apply silent_bind; [hushing|]. intros core. apply silent_bind; [unfold encodes; hushing|]. intros id.
  do 2 (apply silent_bind; [unfold emit; hushing|intros ?]). destruct core as [core|]; [|hushing].
  apply silent_awaiting, silent_evaluate.
Qed.

Lemma silent_ingestHeartbeat record encoded signer : silent (ingestHeartbeat options record encoded signer).
Proof.
  unfold ingestHeartbeat, decodeHeartbeat, decoded. apply silent_bind; [hushing|]. intros heartbeat.
  do 2 (case_match; [hushing|]). apply silent_bind; [apply silent_transport_author|]. intros allowed. case_match; [hushing|].
  apply silent_bind; [apply silent_heartbeatAuthorized|]. intros authorized. case_match; [hushing|].
  apply silent_raise. apply silent_bind; [unfold encodes; hushing|]. intros id.
  apply silent_bind; [unfold isFeedContiguous; hushing|]. intros contiguous. unfold emit. hushing.
Qed.

(** ** Handlers *)

Definition keeps {A} (p : async A) : Prop := ∀ n, cutoffs_ordered n → cutoffs_ordered (run p n).1.

Lemma silent_keeps {A} (p : async A) : silent p → keeps p.
Proof. intros Hp n. by apply hush_ordered, silent_run. Qed.
Lemma keeps_bind {A B} (p : async A) (f : A → async B) : keeps p → (∀ a, keeps (f a)) → keeps (p ≫= f).
Proof.
  intros Hp Hf n Hn. rewrite run_bind. specialize (Hp n Hn). destruct (run p n) as [n' [a|e]]; [by apply Hf|done].
Qed.
Lemma keeps_catch {A} (p : async A) handler : keeps p → (∀ e, keeps (handler e)) → keeps (proc_catch handler p).
Proof.
  intros Hp Hf n Hn. rewrite run_catch. specialize (Hp n Hn). destruct (run p n) as [n' [a|e]]; [done|by apply Hf].
Qed.
Lemma keeps_awaiting {A} (p : async A) : keeps p → keeps (awaiting p).
Proof. intros Hp n. rewrite run_awaiting. apply Hp. Qed.

(** A message that announces the node's own cutoff. *)
Lemma keeps_send m t payload n : (∀ v, announced m = Some v → v = n_acceptedAboveMs n) → cutoffs_ordered n →
  cutoffs_ordered (run (envelope ← signedEnvelope sha256 ed25519_sign options t payload; transport_publish options m envelope) n).1.
Proof.
  intros Hm Hn. rewrite run_bind. unfold signedEnvelope, ask. rewrite run_service. unfold outside.
  destruct (wire_call _ (n_world n)) as [w [envelope|e]]; [|by eapply hush_ordered; [|exact Hn]].
  unfold transport_publish. rewrite run_service. unfold mbind, SE_bind, write, outside.
  destruct (ct_publish _ _ _) as [w' r]. destruct Hn as [Hs Hf]. unfold cutoffs_ordered. cbn.
  rewrite omap_app. cbn. destruct (announced m) as [v|] eqn:Ha; cbn; [|by rewrite app_nil_r].
  rewrite (Hm v eq_refl). split; [|by apply Forall_app; repeat constructor].
  apply StronglySorted_app. split_and!; [|done|by repeat constructor]. rewrite Forall_forall in Hf.
  intros x y Hx ->%list_elem_of_singleton. by apply Hf.
Qed.

Ltac keep_silent := apply silent_keeps; unfold encodes, clockNow, emit; hushing; fail.

Lemma hushed_heartbeat_message capability n : hush n (heartbeat_message options capability n).1 ∧
  ∀ h, (heartbeat_message options capability n).2 = Ok h →
  hb_acceptanceCutoffMs h = n_acceptedAboveMs (heartbeat_message options capability n).1.
Proof.
  unfold heartbeat_message, clockNow, look, mbind, SE_bind. set (now := no_now options (n_world n)).
  pose proof (hushed_advance now n) as H1. destruct (advanceValidatorCutoff options now n) as [n1 [[]|]]; [|done].
  pose proof (hushed_persist n1) as H2. destruct (persistValidatorCutoff options n1) as [n2 [[]|]]; cbn in *.
  - split; [by eapply hush_trans|]. by intros h [= <-].
  - split; [by eapply hush_trans|done].
Qed.

Lemma keeps_heartbeat_record : keeps (heartbeat_record sha256 ed25519_sign options).
Proof.
  unfold heartbeat_record. apply keeps_bind; [apply silent_keeps; unfold assertReady; hushing|]. intros _.
  destruct (no_validator options) as [vo|]; [|keep_silent]. apply keeps_bind; [keep_silent|]. intros [capability|]; [|keep_silent].
  apply keeps_bind; [keep_silent|]. intros revision. apply keeps_bind; [apply silent_keeps, silent_heartbeatAuthorized|].
  intros authorized. case_match; [keep_silent|]. apply keeps_bind; [keep_silent|]. intros revision'.
  apply keeps_bind; [apply silent_keeps, silent_transport_author|]. intros allowed. case_match; [keep_silent|].
  intros n Hn. rewrite run_bind, run_sync. destruct (hushed_heartbeat_message capability n) as [Hh Hc].
  destruct (heartbeat_message options capability n) as [n1 [h|e]]; [|by eapply hush_ordered]. cbn [fst snd] in *.
  rewrite run_bind. unfold encodes. rewrite run_sync. unfold check.
  destruct (encodeValidatorHeartbeat h) as [payload|]; [|by eapply hush_ordered].
  apply keeps_send; [|by eapply hush_ordered]. intros v [= <-]. by apply Hc.
Qed.

Lemma keeps_maybeAttest txId candidate core : keeps (maybeAttest sha256 ed25519_sign options txId candidate core).
Proof.
  unfold maybeAttest. destruct (no_validator options) as [vo|]; [|keep_silent].
  apply keeps_bind; [keep_silent|]. intros [capability|]; [|keep_silent]. apply keeps_bind.
  { apply silent_keeps, silent_sync. unfold attestable, clockNow. apply hushed_bind; [quiet|]. intros now.
    apply hushed_bind; [apply hushed_advance|]. intros _. apply hushed_bind; [apply hushed_persist|]. intros _. quiet. }
  intros inWindow. case_match; [keep_silent|]. apply keeps_bind; [keep_silent|]. intros may. case_match; [keep_silent|].
  apply keeps_bind; [apply silent_keeps, silent_transport_author|]. intros allowed. case_match; [keep_silent|].
  apply keeps_bind; [keep_silent|]. intros [|]; [keep_silent|].
  apply keeps_bind; [apply silent_keeps, silent_policyVersion|]. intros version. do 2 (case_match; [keep_silent|]).
  intros n Hn. rewrite run_bind, run_sync. cbn [look fst snd]. rewrite run_bind. unfold encodes. rewrite run_sync. unfold check.
  set (a := mkAttestation _ _ _ _ _ _ _ _ _ _). destruct (encodeValidatorAttestation a) as [payload|]; [|done].
  pose proof (keeps_send (out_attestation a) WTattestation payload n) as Hsend. rewrite run_bind in Hsend. rewrite run_bind.
  assert (cutoffs_ordered n) as Hn' by done. specialize (Hsend ltac:(by intros v [= <-]) Hn').
  destruct (run (signedEnvelope _ _ _ _ _) n) as [n1 [envelope|]]; [|done]. rewrite run_bind.
  destruct (run (transport_publish _ _ _) n1) as [n2 [record|]]; exact Hsend.
Qed.

Lemma keeps_ingestCandidate record canonical signer : keeps (ingestCandidate sha256 ed25519_sign options record canonical signer).
Proof.
  unfold ingestCandidate, decodeCandidate, decoded. apply keeps_bind; [keep_silent|]. intros core.
  do 2 (case_match; [keep_silent|]). apply keeps_bind; [apply silent_keeps, silent_transport_author|]. intros allowed.
  case_match; [keep_silent|]. apply keeps_bind; [keep_silent|]. intros manifest. do 2 (case_match; [keep_silent|]).
  do 6 (apply keeps_bind; [keep_silent|intros ?]). apply keeps_bind; [keep_silent|intros ?].
  case_match; [|keep_silent]. apply keeps_bind; [apply silent_keeps, silent_awaiting, silent_evaluate|]. intros _.
  apply keeps_awaiting, keeps_maybeAttest.
Qed.

Lemma keeps_ingest record : keeps (ingest sha256 ed25519_verify ed25519_sign options record).
Proof.
  unfold ingest. apply keeps_bind; [keep_silent|]. intros [|]; [keep_silent|].
  apply keeps_catch; [|intros e; unfold ingest_failed; apply silent_keeps, silent_sync; unfold markSeen, dropRetry,
    keepForRetry, recordIngestionError, recordError, emit; case_match; repeat (apply hushed_bind; [|intros ?]);
    first [apply hushed_on_ingestion|quiet]].
  assert (∀ id, silent (sync (markSeen id))) as Hseen by (intros id; apply silent_sync, hushed_on_ingestion).
  assert (keeps (envelope ← encodes (decodeEnvelope (tr_payload record));
    if negb (is_wire_type (env_messageType envelope)) then sync (markSeen (tr_id record))
    else
    wire ← awaiting (decodeRecord sha256 ed25519_verify options record);
    awaiting (match wm_type wire with
    | WTcandidate => ingestCandidate sha256 ed25519_sign options record (wm_payload wire) (wm_signer wire)
    | WTattestation => ingestAttestation options record (wm_payload wire) (wm_signer wire)
    | WTheartbeat => ingestHeartbeat options record (wm_payload wire) (wm_signer wire)
    end) ;;
    sync (markSeen (tr_id record) ;; dropRetry (tr_id record) ;; clearIngestionError))) as Hmain.
  { apply keeps_bind; [keep_silent|]. intros envelope. case_match; [by apply silent_keeps|].
    apply keeps_bind; [by apply silent_keeps, silent_awaiting, silent_decodeRecord|]. intros wire. apply keeps_bind.
    - apply keeps_awaiting. case_match; [apply keeps_ingestCandidate|apply silent_keeps, silent_ingestAttestation|
        apply silent_keeps, silent_ingestHeartbeat].
    - intros _. apply silent_keeps, silent_sync. repeat (apply hushed_bind; [|intros ?]); apply hushed_on_ingestion. }
  unfold ingest_record. apply keeps_bind; [keep_silent|].
  intros continuity. destruct continuity; [exact Hmain|exact Hmain|by apply silent_keeps|].
  apply silent_keeps, silent_sync. apply hushed_bind; [apply hushed_on_ingestion|]. intros _. unfold recordError, emit. quiet.
Qed.

Lemma keeps_transaction_record input : keeps (transaction_record sha256 ed25519_sign options input).
Proof.
  unfold transaction_record. apply keeps_bind.
  { apply silent_keeps, silent_sync. unfold prepare_transaction, assertReady, publish_context, allocateTransactionContext,
      nextAuthorTimestamp, clockNow.
    assert (∀ k, hushed (randomBytes options k)) as Hr.
    { intros k n. unfold randomBytes. destruct (no_random options k (n_world n)). by split. }
    repeat first [apply Hr|progress quiet]. apply hushed_write. intros n. case_match; by split. }
  intros core. apply keeps_bind; [keep_silent|]. intros may. case_match; [keep_silent|].
  apply keeps_bind; [apply silent_keeps, silent_transport_author|]. intros allowed. case_match; [keep_silent|].
  apply keeps_bind; [by apply silent_keeps, silent_sync; intros n; apply hush_refl|]. intros canonical.
  apply keeps_bind; [keep_silent|]. intros digest. intros n Hn.
  pose proof (keeps_send (out_candidate core) WTcandidate canonical n ltac:(by intros v) Hn) as Hsend.
  rewrite run_bind in Hsend. rewrite run_bind. destruct (run (signedEnvelope _ _ _ _ _) n) as [n1 [envelope|]]; [|done].
  rewrite run_bind. destruct (run (transport_publish _ _ _) n1) as [n2 [record|]]; exact Hsend.
Qed.

Lemma keeps_serve n handler : cutoffs_ordered n → cutoffs_ordered (serve n handler).
Proof.
  intros Hn. destruct handler; cbn [serve].
  - revert n Hn. apply keeps_bind; [apply keeps_heartbeat_record|]. intros r. apply keeps_awaiting, keeps_ingest.
  - revert n Hn. apply keeps_bind; [apply keeps_transaction_record|]. intros sent.
    apply keeps_bind; [apply keeps_awaiting, keeps_ingest|]. intros _. keep_silent.
  - by apply keeps_ingest.
  - revert n Hn. change (keeps (materialization_job options)). apply silent_keeps. unfold materialization_job.
    apply silent_bind; [hushing|]. intros pending. case_match; [hushing|].
    apply silent_catch; [|intros e; unfold recordError, emit; hushing]. apply silent_awaiting.
    unfold reconcileMaterializer, admittedTransactions, emit. apply silent_bind; [hushing|]. intros p. case_match; [hushing|].
    apply silent_bind; [by apply silent_sync; intros n; apply hush_refl|]. intros ordered. hushing.
  - done.
Qed.

(** What the order of the cutoffs says about two messages. *)
Lemma ordered_messages n before m between m' after v v' : cutoffs_ordered n →
  n_outbox n = before ++ m :: between ++ m' :: after → announced m = Some v → announced m' = Some v' → v ≤ v'.
Proof.
  intros [Hs _] Ho Hm Hm'. rewrite Ho in Hs. rewrite !omap_app in Hs. cbn in Hs. rewrite Hm, omap_app in Hs. cbn in Hs.
  rewrite Hm' in Hs. apply StronglySorted_app in Hs as (_ & _ & Hs). apply StronglySorted_cons in Hs as [Hs _].
  rewrite Forall_forall in Hs. apply Hs. set_solver.
Qed.

Lemma calm_run {A} (p : async A) n : calm sha256 options p → node_inv sha256 options n → node_inv sha256 options (run p n).1.
Proof. intros Hp Hn. exact (rg_run _ _ p _ n (rely_refl sha256 options) (Hp n Hn)). Qed.

Lemma serve_inv n handler : node_inv sha256 options n → node_inv sha256 options (serve n handler).
Proof.
  intros Hn. destruct handler; cbn [serve]; try apply calm_run; try done.
  - apply calm_bind; [apply calm_heartbeat_record|]. intros r. apply calm_awaiting, calm_ingest.
  - apply calm_bind; [apply calm_transaction_record|]. intros sent. apply calm_bind; [apply calm_awaiting, calm_ingest|].
    intros _. apply calm_bind; [apply calm_encodes|]. intros id. apply calm_ret.
  - apply calm_ingest.
  - apply calm_materialization_job.
  - by apply (guar_world sha256 options w n).
Qed.

(** C14: When the handlers of a node run one after the other, the cutoffs it announces
    never go down: whichever of two messages is the earlier, heartbeat or attestation,
    its cutoff is at or below that of the later one.  And a validator never attests
    what it has already closed: the transaction of an attestation lies strictly above
    every cutoff announced before it, and above the one the attestation declares. *)
Theorem attestations_above_announced (s : System) handlers (n := foldl serve (sys_node s) handlers) :
  reachable_system sha256 ed25519_verify ed25519_sign options s → n_outbox (sys_node s) = [] →
  (∀ before m between m' after v v', n_outbox n = before ++ m :: between ++ m' :: after →
    announced m = Some v → announced m' = Some v' → v ≤ v') ∧
  (∀ before m between a after v, n_outbox n = before ++ m :: between ++ out_attestation a :: after →
    announced m = Some v → v < at_authorTimestampMs a) ∧
  ∀ a, out_attestation a ∈ n_outbox n → at_acceptedAboveMs a < at_authorTimestampMs a.
Proof.
  intros Hs%reachable_system_inv%sv_good Hempty.
  assert (∀ hs n0, node_inv sha256 options n0 → cutoffs_ordered n0 →
    node_inv sha256 options (foldl serve n0 hs) ∧ cutoffs_ordered (foldl serve n0 hs)) as Hfold.
  { induction hs as [|h hs IH]; intros n0 H1 H2; [done|]. apply IH; [by apply serve_inv|by apply keeps_serve]. }
  destruct (Hfold handlers (sys_node s)) as [Hi Hc]; [apply Hs|split; rewrite Hempty; constructor|]. fold n in Hi, Hc.
  assert (∀ a, out_attestation a ∈ n_outbox n → at_acceptedAboveMs a < at_authorTimestampMs a) as Habove.
  { intros a Ha. pose proof (proj1 (Forall_forall _ _) (ni_sent _ _ _ Hi) _ Ha) as [H _]. exact H. }
  split_and!; [by intros; eapply ordered_messages| |exact Habove]. intros before m between a after v Hout Hm.
  assert (v ≤ at_acceptedAboveMs a) by (by eapply ordered_messages). pose proof (Habove a). rewrite Hout in *. set_solver by lia.
Qed.
End order.

(** ** On the sample node *)

#[local] Existing Instance NullPersistence.
#[local] Existing Instance NoFeedPersistence.

Definition sample_serve (s : SampleSystem) : list Outgoing :=
  n_outbox (foldl (serve tail_digest toy_verify toy_sign sample_options) (sys_node s)
    [serve_heartbeat; serve_publish NodeSample.sample_input]).

Definition served_view (s : SampleSystem) : bool :=
  match outbox_of s, sample_serve s with [], [out_heartbeat _; out_candidate _; out_attestation _] => true | _, _ => false end.

Lemma sample_served_view : served_view <$> sample_run [] = Some true.
Proof. vm_compute. reflexivity. Qed.

Lemma attestations_above_announced_witness : ∃ s h core a,
  sample_reachable_system s ∧ sample_serve s = [out_heartbeat h; out_candidate core; out_attestation a] ∧
  hb_acceptanceCutoffMs h ≤ at_acceptedAboveMs a ∧ hb_acceptanceCutoffMs h < at_authorTimestampMs a.
Proof.
  destruct (get_system (sample_run []) _ _ sample_served_view) as (s & Hs & Hv). apply sample_follow in Hs.
  unfold served_view in Hv. destruct (outbox_of s) eqn:Ho; [|discriminate Hv].
  destruct (sample_serve s) as [|[| |h] [|[core| |] [|[|a|] [|]]]] eqn:Hout; try discriminate Hv.
  exists s, h, core, a. split; [exact Hs|]. split; [exact Hout|].
  destruct (attestations_above_announced tail_digest toy_verify toy_sign sample_options s [serve_heartbeat; serve_publish NodeSample.sample_input] Hs Ho) as (H1 & H2 & _).
  split; [exact (H1 [] (out_heartbeat h) [out_candidate core] (out_attestation a) [] _ _ Hout eq_refl eq_refl)|
    exact (H2 [] (out_heartbeat h) [out_candidate core] a [] _ Hout eq_refl)].
Defined.
