(* ===== verification/Snapshots.v ===== *)
(** * Trusted snapshots: [packages/node-core/src/snapshots.ts], [snapshot-archive.ts]

    A snapshot is a database together with a manifest that an authorized signer
    signed.  An archive is a directory with both and an index of their digests; it is
    staged next to the database it replaces, checked, and then renamed over it.

    [String.prototype.localeCompare] depends on the host's collation and is a
    parameter, as are SHA-256, Ed25519, [JSON.parse] and [JSON.stringify], the random
    suffix of the staged file and the check of the database, which is the caller's. *)

From Stdlib Require Import Strings.Byte Strings.String.
From stdpp Require Import base list option numbers.
From S2P Require Import Prelude JsMap Bytes Text Cbor Schema Domains Messages Wire JsNumber SnapshotCodec FileSystem.

#[local] Open Scope Z_scope.

(** ** Manifests *)

Record SnapshotFeedHead := mkFeedHead { sh_feedId : jsstring; sh_sequence : Z; sh_recordId : jsstring }.

(** The field [version] is the literal 1. *)
Record TrustedSnapshotManifest := mkSnapshotManifest {
  sm_groupId : bytes;
  sm_executionManifestDigest : bytes;
  sm_materializedRevision : Z;
  sm_orderLength : Z;
  sm_databaseContentHash : jsstring;
  sm_transactionLogDigest : bytes;
  sm_feedHeads : list SnapshotFeedHead;
  sm_createdAtMs : Z;
}.

Record SignedSnapshotManifest := mkSignedSnapshot {
  sg_manifest : TrustedSnapshotManifest;
  sg_signer : bytes;
  sg_signature : bytes;
}.

(** The [expectations] of [assertSnapshotTrust]. *)
Record SnapshotExpectations := mkExpectations {
  xp_groupId : bytes;
  xp_executionManifestDigest : bytes;
  xp_authorizedSigners : list bytes;
  xp_minimumRevision : option Z;
}.

Inductive SnapshotError :=
  | SnapshotCoded (code : ErrorCode)
  | SNAPSHOT_SIGNER_UNAUTHORIZED
  | SNAPSHOT_SIGNATURE_INVALID
  | SNAPSHOT_GROUP_MISMATCH
  | SNAPSHOT_EXECUTION_MANIFEST_MISMATCH
  | SNAPSHOT_REVISION_ROLLBACK
  | SNAPSHOT_SIGNED_SCHEMA_INVALID
  | SNAPSHOT_MANIFEST_SCHEMA_INVALID
  | SNAPSHOT_MANIFEST_INVALID
  | SNAPSHOT_FEED_HEADS_NON_CANONICAL
  | SNAPSHOT_FEED_HEAD_INVALID
  | SNAPSHOT_ARCHIVE_INDEX_INVALID
  | SNAPSHOT_ARCHIVE_SIZE_MISMATCH
  | SNAPSHOT_ARCHIVE_DIGEST_MISMATCH
  | SNAPSHOT_STAGED_DATABASE_INVALID
  | SNAPSHOT_STAGE_NOT_ATOMIC
  | JSON_SYNTAX
  | FileFailed (e : FsError).

Definition snapshot_coded {A} (r : result ErrorCode A) : result SnapshotError A :=
  match r with Ok x => Ok x | Err e => Err (SnapshotCoded e) end.

Section manifests.
Context (localeCompare : jsstring → jsstring → Z).

Definition compareHeads (left right : SnapshotFeedHead) : Z := localeCompare (sh_feedId left) (sh_feedId right).

Definition canonicalFeedHeads (heads : list SnapshotFeedHead) : list SnapshotFeedHead := js_sort compareHeads heads.

Definition head_valid (head : SnapshotFeedHead) : bool :=
  negb ((zlen (sh_feedId head) =? 0) || (zlen (sh_recordId head) =? 0) || (sh_sequence head <? 1)).

Definition validateManifest (value : TrustedSnapshotManifest) : result SnapshotError unit :=
  ensure ((zlen (sm_groupId value) =? 32) && (zlen (sm_executionManifestDigest value) =? 32) &&
          (zlen (sm_transactionLogDigest value) =? 32) && (0 <=? sm_materializedRevision value) &&
          (Z.abs (sm_orderLength value) <=? MAX_SAFE_INTEGER) && (0 <=? sm_orderLength value) &&
          negb (zlen (sm_databaseContentHash value) =? 0) && (zlen (sm_databaseContentHash value) <=? 256) &&
          (0 <=? sm_createdAtMs value)) SNAPSHOT_MANIFEST_INVALID ≫= λ _,
  let heads := canonicalFeedHeads (sm_feedHeads value) in
  ensure (bool_decide (sh_feedId <$> heads = sh_feedId <$> sm_feedHeads value)) SNAPSHOT_FEED_HEADS_NON_CANONICAL ≫= λ _,
  ensure (bool_decide (NoDup (sh_feedId <$> heads)) && forallb head_valid heads) SNAPSHOT_FEED_HEAD_INVALID.

Definition headToCbor (head : SnapshotFeedHead) : CborValue :=
  CArray [CText (sh_feedId head); CInt (sh_sequence head); CText (sh_recordId head)].

Definition snapshotToCbor (value : TrustedSnapshotManifest) : result SnapshotError CborValue :=
  validateManifest value ≫= λ _,
  Ok (CMap (integerMap [
    (0, Some (CInt 1));
    (1, Some (CBytes (sm_groupId value)));
    (2, Some (CBytes (sm_executionManifestDigest value)));
    (3, Some (CInt (sm_materializedRevision value)));
    (4, Some (CInt (sm_orderLength value)));
    (5, Some (CText (sm_databaseContentHash value)));
    (6, Some (CBytes (sm_transactionLogDigest value)));
    (7, Some (CArray (headToCbor <$> canonicalFeedHeads (sm_feedHeads value))));
    (8, Some (CInt (sm_createdAtMs value)))])).

Definition encodeSnapshotManifest (value : TrustedSnapshotManifest) : result SnapshotError bytes :=
  v ← snapshotToCbor value; snapshot_coded (encodeCanonicalCbor v).

Definition headFromCbor (raw : CborValue) : result SnapshotError SnapshotFeedHead :=
  match raw with
  | CArray [CText feedId; CInt sequence; CText recordId] => Ok (mkFeedHead feedId sequence recordId)
  | _ => Err SNAPSHOT_MANIFEST_SCHEMA_INVALID
  end.

Definition snapshot_field (map : IntegerMap) (key : Z) : result SnapshotError CborValue := snapshot_coded (required map key).

(** The checks once the fields have their types. *)
Definition manifest_of (g e : bytes) (r n : Z) (h : jsstring) (t : bytes) (raw : list CborValue) (c : Z) :
    result SnapshotError TrustedSnapshotManifest :=
  ensure (negb ((n <? 0) || (MAX_SAFE_INTEGER <? n))) SNAPSHOT_MANIFEST_SCHEMA_INVALID ≫= λ _,
  feedHeads ← mapR headFromCbor raw;
  let manifest := mkSnapshotManifest g e r n h t feedHeads c in
  validateManifest manifest ≫= λ _, Ok manifest.

Definition snapshotFromCbor (value : CborValue) : result SnapshotError TrustedSnapshotManifest :=
  map ← snapshot_coded (expectMap value);
  ensure ((zlen map =? 9) && match map_get (KInt 0) map with Some (CInt 1) => true | _ => false end) SNAPSHOT_MANIFEST_SCHEMA_INVALID ≫= λ _,
  groupId ← snapshot_field map 1;
  executionManifestDigest ← snapshot_field map 2;
  materializedRevision ← snapshot_field map 3;
  orderLength ← snapshot_field map 4;
  databaseContentHash ← snapshot_field map 5;
  transactionLogDigest ← snapshot_field map 6;
  rawHeads ← snapshot_field map 7;
  createdAtMs ← snapshot_field map 8;
  match groupId, executionManifestDigest, materializedRevision, orderLength, databaseContentHash, transactionLogDigest, rawHeads, createdAtMs with
  | CBytes g, CBytes e, CInt r, CInt n, CText h, CBytes t, CArray raw, CInt c => manifest_of g e r n h t raw c
  | _, _, _, _, _, _, _, _ => Err SNAPSHOT_MANIFEST_SCHEMA_INVALID
  end.

Definition encodeSignedSnapshotManifest (value : SignedSnapshotManifest) : result SnapshotError bytes :=
  m ← snapshotToCbor (sg_manifest value);
  snapshot_coded (encodeCanonicalCbor (CArray [CInt 1; m; CBytes (sg_signer value); CBytes (sg_signature value)])).

Definition decodeSignedSnapshotManifest (b : bytes) : result SnapshotError SignedSnapshotManifest :=
  value ← snapshot_coded (assertCanonicalCbor DEFAULT_DECODE_LIMITS b);
  items ← snapshot_coded (expectArray value);
  match items with
  | [CInt 1; m; signer; signature] =>
      manifest ← snapshotFromCbor m;
      signer ← snapshot_coded (expectBytes signer None);
      signature ← snapshot_coded (expectBytes signature None);
      Ok (mkSignedSnapshot manifest signer signature)
  | _ => Err SNAPSHOT_SIGNED_SCHEMA_INVALID
  end.

Section trust.
Context (ed25519_verify : bytes → bytes → bytes → bool) {Key : Type} (ed25519_sign : Key → bytes → option bytes).

Definition signSnapshotManifest (manifest : TrustedSnapshotManifest) (signer : Ed25519KeyPair) : result SnapshotError SignedSnapshotManifest :=
  encoded ← encodeSnapshotManifest manifest;
  signature ← snapshot_coded (signDomain ed25519_sign DsnapshotManifest encoded (privateKey signer));
  Ok (mkSignedSnapshot manifest (publicKeyBytes signer) signature).

Definition assertSnapshotTrust (signed : SignedSnapshotManifest) (expectations : SnapshotExpectations) : result SnapshotError TrustedSnapshotManifest :=
  encoded ← encodeSignedSnapshotManifest signed;
  canonical ← decodeSignedSnapshotManifest encoded;
  let manifest := sg_manifest canonical in
  ensure (existsb (λ signer, equalBytes signer (sg_signer canonical)) (xp_authorizedSigners expectations)) SNAPSHOT_SIGNER_UNAUTHORIZED ≫= λ _,
  payload ← encodeSnapshotManifest manifest;
  ensure (verifyDomain ed25519_verify DsnapshotManifest payload (sg_signature canonical) (sg_signer canonical)) SNAPSHOT_SIGNATURE_INVALID ≫= λ _,
  ensure (equalBytes (sm_groupId manifest) (xp_groupId expectations)) SNAPSHOT_GROUP_MISMATCH ≫= λ _,
  ensure (equalBytes (sm_executionManifestDigest manifest) (xp_executionManifestDigest expectations)) SNAPSHOT_EXECUTION_MANIFEST_MISMATCH ≫= λ _,
  ensure (negb (sm_materializedRevision manifest <? default 0 (xp_minimumRevision expectations))) SNAPSHOT_REVISION_ROLLBACK ≫= λ _,
  Ok manifest.

End trust.

End manifests.

(** ** Archives *)

Record ArchiveEntry := mkEntry { ae_bytes : Z; ae_sha256 : jsstring }.

(** The names of the two files are literals of the type. *)
Record SnapshotArchiveIndex := mkIndex { ai_database : ArchiveEntry; ai_signedManifest : ArchiveEntry }.

Definition ARCHIVE_FORMAT : jsstring := js "chronolog-snapshot-archive-v1".
Definition DATABASE_FILE : jsstring := js "application.db".
Definition MANIFEST_FILE : jsstring := js "snapshot.cbor".

Definition entry_value (file : jsstring) (e : ArchiveEntry) : jsvalue :=
  VObject [(js "file", VString file); (js "bytes", VNumber (ae_bytes e)); (js "sha256", VString (ae_sha256 e))].

Definition index_value (index : SnapshotArchiveIndex) : jsvalue :=
  VObject [(js "format", VString ARCHIVE_FORMAT); (js "database", entry_value DATABASE_FILE (ai_database index));
    (js "signedManifest", entry_value MANIFEST_FILE (ai_signedManifest index))].

(** [/^[0-9a-f]{64}$/u] *)
Definition is_sha256_hex (s : jsstring) : bool :=
  (zlen s =? 64) && forallb (λ c, ((48 <=? c) && (c <=? 57)) || ((97 <=? c) && (c <=? 102))) s.

Definition is_string (value : option jsvalue) (s : jsstring) : bool :=
  match value with Some (VString t) => bool_decide (t = s) | _ => false end.

(** [validEntry] with the entry it accepts.  A parsed object has each key once, so it
    has the three keys in some order. *)
Definition validEntry (value : option jsvalue) (file : jsstring) : option ArchiveEntry :=
  match value with
  | Some (VObject fields) =>
      if (zlen fields =? 3) && is_string (map_get (js "file") fields) file then
        match map_get (js "bytes") fields, map_get (js "sha256") fields with
        | Some (VNumber n), Some (VString h) =>
            if (Z.abs n <=? MAX_SAFE_INTEGER) && (0 <=? n) && is_sha256_hex h then Some (mkEntry n h) else None
        | _, _ => None
        end
      else None
  | _ => None
  end.

Definition parseIndex (value : jsvalue) : result SnapshotError SnapshotArchiveIndex :=
  match value with
  | VObject record =>
      if is_string (map_get (js "format") record) ARCHIVE_FORMAT then
        match validEntry (map_get (js "database") record) DATABASE_FILE, validEntry (map_get (js "signedManifest") record) MANIFEST_FILE with
        | Some d, Some m => Ok (mkIndex d m)
        | _, _ => Err SNAPSHOT_ARCHIVE_INDEX_INVALID
        end
      else Err SNAPSHOT_ARCHIVE_INDEX_INVALID
  | _ => Err SNAPSHOT_ARCHIVE_INDEX_INVALID
  end.

(** [path.join] of a directory and a name. *)
Definition join (directory name : path) : path := directory ++ js "/" ++ name.

Record StagedSnapshotArchive := mkStaged { sd_databasePath : path; sd_manifest : TrustedSnapshotManifest; sd_archiveDirectory : path }.

Definition DEFAULT_MAXIMUM_DATABASE : Z := 64 * 1024 * 1024 * 1024.

Section archives.
Context {F : Type} `{!FileSystem bytes F}.
Context (sha256 : bytes → bytes) (JSON_parse : bytes → option jsvalue) (JSON_stringify : jsvalue → bytes).
Context (localeCompare : jsstring → jsstring → Z).
Context (ed25519_verify : bytes → bytes → bytes → bool).

Definition fs_op {A} (m : SE F FsError A) : SE F SnapshotError A := λ f,
  let (f', r) := m f in (f', match r with Ok x => Ok x | Err e => Err (FileFailed e) end).

Definition pure_snapshot {A} (r : result SnapshotError A) : SE F SnapshotError A := λ f, (f, r).

(** [copyFile]: the contents are read and written; with [COPYFILE_EXCL] the target
    must not exist. *)
Definition copyFile (from to : path) : SE F FsError unit := t ← readFileSync from; writeFileSync to t.

Definition exclusive (p : path) (m : SE F FsError unit) : SE F FsError unit := λ f,
  if existsSync p f then (f, Err EOTHER) else m f.

Definition syncFile (p : path) : SE F FsError unit := fsyncSync p.
Definition syncDirectory (p : path) : SE F FsError unit := fsyncSync p.

Definition evidence_of (value : bytes) : ArchiveEntry := mkEntry (zlen value) (bytesToHex (sha256 value)).

Definition evidence (p : path) : SE F SnapshotError ArchiveEntry := value ← fs_op (readFileSync p); mret (evidence_of value).

(** [stat] is a read as well; the size and the digest are compared. *)
Definition assertEvidence (p : path) (expected : ArchiveEntry) (maximum : Z) : SE F SnapshotError unit :=
  metadata ← fs_op (readFileSync p);
  pure_snapshot (ensure ((zlen metadata =? ae_bytes expected) && (zlen metadata <=? maximum)) SNAPSHOT_ARCHIVE_SIZE_MISMATCH) ;;
  actual ← evidence p;
  pure_snapshot (ensure (bool_decide (ae_sha256 actual = ae_sha256 expected)) SNAPSHOT_ARCHIVE_DIGEST_MISMATCH).

(** [mkdir] without [recursive] fails if the directory exists; [flag: wx] makes the
    writes fail if the file does. *)
Definition exportSnapshotArchive (archiveDirectory databasePath : path) (signedManifest : SignedSnapshotManifest) : SE F SnapshotError unit :=
  fs_op (mkdirSync archiveDirectory) ;;
  manifestBytes ← pure_snapshot (encodeSignedSnapshotManifest localeCompare signedManifest);
  let database := join archiveDirectory DATABASE_FILE in
  let manifestPath := join archiveDirectory MANIFEST_FILE in
  fs_op (copyFile databasePath database) ;;
  fs_op (exclusive manifestPath (writeFileSync manifestPath manifestBytes)) ;;
  d ← evidence database;
  m ← evidence manifestPath;
  let index := join archiveDirectory (js "archive.json") in
  fs_op (exclusive index (writeFileSync index (JSON_stringify (index_value (mkIndex d m))))).

(** [try { await options.validateDatabase(databasePath, manifest) } catch ...]: the
    check reads files and throws when it fails. *)
Definition check_database (validateDatabase : F → bool) : SE F SnapshotError unit := λ f,
  (f, ensure (validateDatabase f) SNAPSHOT_STAGED_DATABASE_INVALID).

Definition stageSnapshotArchive (archiveDirectory targetDatabasePath : path) (expectations : SnapshotExpectations)
    (validateDatabase : path → TrustedSnapshotManifest → F → bool) (maximumDatabaseBytes : option Z) (suffix : jsstring) :
    SE F SnapshotError StagedSnapshotArchive :=
  text ← fs_op (readFileSync (join archiveDirectory (js "archive.json")));
  value ← pure_snapshot (match JSON_parse text with Some v => Ok v | None => Err JSON_SYNTAX end);
  index ← pure_snapshot (parseIndex value);
  let databaseSource := join archiveDirectory DATABASE_FILE in
  let manifestSource := join archiveDirectory MANIFEST_FILE in
  assertEvidence databaseSource (ai_database index) (default DEFAULT_MAXIMUM_DATABASE maximumDatabaseBytes) ;;
  assertEvidence manifestSource (ai_signedManifest index) (1024 * 1024) ;;
  encoded ← fs_op (readFileSync manifestSource);
  signed ← pure_snapshot (decodeSignedSnapshotManifest localeCompare encoded);
  manifest ← pure_snapshot (assertSnapshotTrust localeCompare ed25519_verify signed expectations);
  let databasePath := targetDatabasePath ++ js ".snapshot-stage-" ++ suffix in
  fs_op (copyFile databaseSource databasePath) ;;
  fs_op (syncFile databasePath) ;;
  check_database (validateDatabase databasePath manifest) ;;
  mret (mkStaged databasePath manifest archiveDirectory).

Definition commitStagedSnapshot (staged : StagedSnapshotArchive) (targetDatabasePath backupPath : path) : SE F SnapshotError unit :=
  pure_snapshot (ensure (negb (bool_decide (sd_databasePath staged = targetDatabasePath) ||
      negb (bool_decide (dirname (sd_databasePath staged) = dirname targetDatabasePath)))) SNAPSHOT_STAGE_NOT_ATOMIC) ;;
  fs_op (exclusive backupPath (copyFile targetDatabasePath backupPath)) ;;
  fs_op (syncFile backupPath) ;;
  fs_op (renameSync (sd_databasePath staged) targetDatabasePath) ;;
  fs_op (syncDirectory (dirname targetDatabasePath)).

End archives.
