(* ===== verification/SnapshotTheorems.v ===== *)
(** * What a trusted snapshot is, and that its files survive crashes

    A manifest is trusted exactly under the stated conditions; an archive that was
    exported is staged as it was; replacing the database leaves, after a crash at any
    point, the old one or the new one. *)

From Stdlib Require Import Strings.Byte Strings.String.
From stdpp Require Import base countable list option numbers sets.
From S2P Require Import Prelude JsMap Bytes Text Cbor CborProofs CborTheorems Schema Domains Messages CapCodecProofs LogTheorems Wire JsNumber SnapshotCodec FileSystem Snapshots.

#[local] Open Scope Z_scope.

(** ** The codec of manifests *)

Lemma snapshot_coded_Ok {A} (r : result ErrorCode A) x : snapshot_coded r = Ok x ↔ r = Ok x.
Proof. destruct r; simpl; naive_solver. Qed.

(** A map of the right size with all the keys has no others. *)
Lemma size_known (m : IntegerMap) keys : NoDup m.*1 → NoDup keys → length m = length keys →
  (∀ k, k ∈ keys → is_Some (map_get (KInt k) m)) → assertKnownIntegerKeys m keys = Ok tt.
Proof.
  intros Hm Hk Hlen Hall. assert (KInt <$> keys ⊆+ m.*1) as Hsub.
  { apply NoDup_submseteq; [apply NoDup_fmap_2_strong; [intros ? ? _ _; by intros [= ->]|done]|]. intros k (z & -> & Hz)%list_elem_of_fmap. destruct (Hall z Hz) as [v Hv].
    apply map_get_Some_elem in Hv. by apply (list_elem_of_fmap_2 fst) in Hv. }
  apply submseteq_length_Permutation in Hsub; [|by rewrite !length_fmap, Hlen].
  apply assertKnownIntegerKeys_Ok, Forall_forall. intros k Hin. rewrite <-Hsub in Hin. apply list_elem_of_fmap in Hin as (z & -> & Hz). by exists z.
Qed.

(** A permutation with the same distinct labels is the list itself. *)
Lemma same_labels {A B} (f : A → B) l l' : l' ≡ₚ l → f <$> l' = f <$> l → NoDup (f <$> l) → l' = l.
Proof.
  intros Hp Hf Hnd. apply list_eq_same_length with (n := length l); [done|by apply Permutation_length|].
  intros i x y Hi Hx Hy. assert (x ∈ l) as Hin by (rewrite <-Hp; by eapply list_elem_of_lookup_2).
  apply list_elem_of_lookup in Hin as [j Hj]. apply (f_equal (lookup i)) in Hf. rewrite !list_lookup_fmap, Hx, Hy in Hf. injection Hf as Hf.
  assert (j = i) as -> by (eapply NoDup_lookup; [exact Hnd|by rewrite list_lookup_fmap, Hj|by rewrite list_lookup_fmap, Hy, Hf]). congruence.
Qed.

Section manifests.
Context (localeCompare : jsstring → jsstring → Z).
#[local] Abbreviation validateManifest := (validateManifest localeCompare).
#[local] Abbreviation snapshotToCbor := (snapshotToCbor localeCompare).
#[local] Abbreviation snapshotFromCbor := (snapshotFromCbor localeCompare).
#[local] Abbreviation encodeSnapshotManifest := (encodeSnapshotManifest localeCompare).
#[local] Abbreviation encodeSigned := (encodeSignedSnapshotManifest localeCompare).
#[local] Abbreviation decodeSigned := (decodeSignedSnapshotManifest localeCompare).

Definition snapshot_form (m : TrustedSnapshotManifest) : CborValue :=
  CMap (integerMap [(0, Some (CInt 1)); (1, Some (CBytes (sm_groupId m))); (2, Some (CBytes (sm_executionManifestDigest m)));
    (3, Some (CInt (sm_materializedRevision m))); (4, Some (CInt (sm_orderLength m))); (5, Some (CText (sm_databaseContentHash m)));
    (6, Some (CBytes (sm_transactionLogDigest m))); (7, Some (CArray (headToCbor <$> sm_feedHeads m))); (8, Some (CInt (sm_createdAtMs m)))]).

(** The heads of a valid manifest are in order. *)
Lemma valid_heads m u : validateManifest m = Ok u → canonicalFeedHeads localeCompare (sm_feedHeads m) = sm_feedHeads m.
Proof.
  unfold Snapshots.validateManifest. intros H. apply bind_Ok in H as (? & _ & H). apply bind_Ok in H as (? & Hs%ensure_Ok & H).
  apply ensure_Ok, andb_true_iff in H as [Hnd%bool_decide_eq_true _]. apply bool_decide_eq_true in Hs.
  apply (same_labels sh_feedId); [apply js_sort_perm|done|by rewrite <-Hs].
Qed.

Lemma snapshotToCbor_Ok m v : snapshotToCbor m = Ok v ↔ validateManifest m = Ok tt ∧ v = snapshot_form m.
Proof.
  unfold Snapshots.snapshotToCbor. rewrite bind_Ok. split.
  - intros ([] & Hv & [= <-]). split; [done|]. unfold snapshot_form. by rewrite (valid_heads _ _ Hv).
  - intros [Hv ->]. exists tt. split; [done|]. unfold snapshot_form. by rewrite (valid_heads _ _ Hv).
Qed.

Lemma head_read v h : headFromCbor v = Ok h → v = headToCbor h.
Proof.
  unfold headFromCbor, headToCbor. destruct v as [| | | | |l|]; try done.
  destruct l as [|[] [|[] [|[] [|? ?]]]]; try done. by intros [= <-].
Qed.

Lemma heads_read items heads : mapR headFromCbor items = Ok heads → items = headToCbor <$> heads.
Proof. intros H%mapR_Ok. induction H as [|v h items heads Hh _ IH]; [done|]. rewrite fmap_cons. f_equal; [by apply head_read|done]. Qed.

Lemma heads_written heads : mapR headFromCbor (headToCbor <$> heads) = Ok heads.
Proof. induction heads as [|[f s r] heads IH]; [done|]. rewrite fmap_cons. cbn [mapR]. by rewrite IH. Qed.

Lemma snapshot_field_Ok m k v : snapshot_field m k = Ok v ↔ map_get (KInt k) m = Some v.
Proof. unfold snapshot_field. by rewrite snapshot_coded_Ok, required_Ok. Qed.

(** What is read is valid and has the bytes it was read from. *)
Lemma snapshot_read v b m : snapshotFromCbor v = Ok m → encodeCanonicalCbor v = Ok b →
  validateManifest m = Ok tt ∧ encodeCanonicalCbor (snapshot_form m) = Ok b.
Proof.
  unfold Snapshots.snapshotFromCbor. intros H Hb. apply bind_Ok in H as (map & Hm & H). apply snapshot_coded_Ok, expectMap_Ok in Hm. subst v.
  apply bind_Ok in H as (? & Hsize%ensure_Ok & H). apply andb_true_iff in Hsize as [Hsize%Z.eqb_eq H0].
  do 8 (apply bind_Ok in H as (? & ?%snapshot_field_Ok & H)).
  repeat match type of H with match ?x with _ => _ end = _ => destruct x; try done end.
  unfold Snapshots.manifest_of in H. apply bind_Ok in H as (? & _ & H). apply bind_Ok in H as (heads & Hh & H).
  apply bind_Ok in H as ([] & Hv & [= <-]). split; [done|]. apply heads_read in Hh. subst.
  assert (map_get (KInt 0) map = Some (CInt 1)) as Hversion by (destruct (map_get _ _) as [[]|]; try done; by repeat case_match).
  assert (assertKnownIntegerKeys map [0; 1; 2; 3; 4; 5; 6; 7; 8] = Ok tt) as Hknown.
  { apply size_known; [by eapply encode_map_NoDup|literal_nodup|unfold zlen in Hsize; cbn [length]; lia|].
    intros k Hk. rewrite !elem_of_cons, elem_of_nil in Hk. naive_solver. }
  pose proof (record_encoding _ _ _ Hb Hknown ltac:(literal_nodup)) as Henc. fold_read Henc. exact Henc.
Qed.

Definition signed_form (s : SignedSnapshotManifest) : CborValue :=
  CArray [CInt 1; snapshot_form (sg_manifest s); CBytes (sg_signer s); CBytes (sg_signature s)].

Lemma encode_signed s b : encodeSigned s = Ok b ↔ validateManifest (sg_manifest s) = Ok tt ∧ encodeCanonicalCbor (signed_form s) = Ok b.
Proof.
  unfold encodeSignedSnapshotManifest, signed_form. rewrite bind_Ok. split.
  - intros (v & [Hv ->]%snapshotToCbor_Ok & H%snapshot_coded_Ok). done.
  - intros [Hv H]. exists (snapshot_form (sg_manifest s)). split; [by apply snapshotToCbor_Ok|by apply snapshot_coded_Ok].
Qed.

Lemma snapshot_strict b s : decodeSigned b = Ok s → encodeSigned s = Ok b ∧ zlen b ≤ MAX_SAFE_INTEGER.
Proof.
  unfold decodeSignedSnapshotManifest. intros H. apply bind_Ok in H as (v & Ha%snapshot_coded_Ok & H).
  pose proof (assertCanonical_size b v Ha) as Hlen. apply assert_sound in Ha.
  apply bind_Ok in H as (items & Hi%snapshot_coded_Ok & H). apply expectArray_Ok in Hi. subst v.
  assert (∃ m k g, items = [CInt 1; m; k; g]) as (m & k & g & ->).
  { destruct items as [|[| |z| | | |] [|m [|k [|g [|? ?]]]]]; try done; repeat case_match; try done; by eexists _, _, _. }
  apply bind_Ok in H as (manifest & Hm & H). apply bind_Ok in H as (signer & Hk%snapshot_coded_Ok & H).
  apply bind_Ok in H as (signature & Hg%snapshot_coded_Ok & [= <-]). apply expectBytes_any in Hk, Hg. subst. split; [|done].
  assert (∃ mb, encodeCanonicalCbor m = Ok mb) as [mb Hmb].
  { destruct (encode_array_item _ _ m Ha) as (mb & Hmb & _); [by right; left|]. by exists mb. }
  destruct (snapshot_read _ _ _ Hm Hmb) as [Hv Hf]. apply encode_signed. split; [done|]. rewrite <-Ha. unfold signed_form.
  apply array_same_encoding. unfold same_encoding.
  repeat (apply Forall2_cons; split); [done|cbn [sg_manifest]; by rewrite Hf|done|done|by apply Forall2_nil].
Qed.

Lemma heads_form_inj (l l' : list SnapshotFeedHead) : headToCbor <$> l = headToCbor <$> l' → l = l'.
Proof.
  revert l'. induction l as [|[f s r] l IH]; intros [|[f' s' r'] l']; rewrite ?fmap_cons; try done. unfold headToCbor. intros [= -> -> -> H].
  f_equal. by apply IH.
Qed.

Lemma heads_canonical (l : list SnapshotFeedHead) : canonical_form <$> (headToCbor <$> l) = headToCbor <$> l.
Proof. induction l as [|h l IH]; [done|]. rewrite !fmap_cons, IH. done. Qed.

Lemma quadruple_form a v w u v' w' u' : canonical_form (CArray [a; v; w; u]) = canonical_form (CArray [a; v'; w'; u']) →
  canonical_form v = canonical_form v' ∧ canonical_form w = canonical_form w' ∧ canonical_form u = canonical_form u'.
Proof. cbn [canonical_form fmap list_fmap]. by intros [= -> -> ->]. Qed.

(** A signed manifest is determined by its bytes. *)
Lemma snapshot_injective s s' b : encodeSigned s = Ok b → encodeSigned s' = Ok b → zlen b ≤ MAX_SAFE_INTEGER → s = s'.
Proof.
  intros [_ H]%encode_signed [_ H']%encode_signed Hlen. pose proof (encode_injective _ _ _ H H' Hlen) as Heq.
  unfold signed_form in Heq. destruct s as [m k g], s' as [m' k' g']. cbn [sg_manifest sg_signer sg_signature] in *.
  assert (canonical_form (snapshot_form m) = canonical_form (snapshot_form m') ∧ k = k' ∧ g = g') as (Hm & -> & ->).
  { apply quadruple_form in Heq as (Hm & Hk & Hg). injection Hk as ->. injection Hg as ->. done. }
  f_equal. unfold snapshot_form in Hm. field_eq Hm 1 E1. field_eq Hm 2 E2. field_eq Hm 3 E3. field_eq Hm 4 E4. field_eq Hm 5 E5. field_eq Hm 6 E6.
  field_eq Hm 7 E7. field_eq Hm 8 E8. apply Some_inj in E7. injection E7 as E7.
  rewrite !heads_canonical in E7. apply heads_form_inj in E7. destruct m, m'. simpl in *. by simplify_eq.
Qed.

(** ** Trust *)

Section trust.
Context (ed25519_verify : bytes → bytes → bytes → bool).
#[local] Abbreviation assertSnapshotTrust := (assertSnapshotTrust localeCompare ed25519_verify).

(** What is expected of a signed manifest. *)
Record trusted (s : SignedSnapshotManifest) (e : SnapshotExpectations) : Prop := {
    trusted_signer : sg_signer s ∈ xp_authorizedSigners e;
    trusted_signature : ∃ payload, encodeSnapshotManifest (sg_manifest s) = Ok payload ∧
      verifyDomain ed25519_verify DsnapshotManifest payload (sg_signature s) (sg_signer s) = true;
    trusted_group : sm_groupId (sg_manifest s) = xp_groupId e;
    trusted_execution : sm_executionManifestDigest (sg_manifest s) = xp_executionManifestDigest e;
    trusted_revision : default 0 (xp_minimumRevision e) ≤ sm_materializedRevision (sg_manifest s);
}.

(** The fields and the bytes are within the limits of the decoder. *)
Definition head_fits (h : SnapshotFeedHead) : Prop :=
  text_fits DEFAULT_DECODE_LIMITS (sh_feedId h) = true ∧ text_fits DEFAULT_DECODE_LIMITS (sh_recordId h) = true ∧ sh_sequence h ≤ MAX_UINT64.

Record readable (s : SignedSnapshotManifest) : Prop := {
    readable_numbers : sm_materializedRevision (sg_manifest s) ≤ MAX_UINT64 ∧ sm_createdAtMs (sg_manifest s) ≤ MAX_UINT64;
    readable_hash : text_fits DEFAULT_DECODE_LIMITS (sm_databaseContentHash (sg_manifest s)) = true;
    readable_heads : zlen (sm_feedHeads (sg_manifest s)) ≤ maxArrayItems DEFAULT_DECODE_LIMITS;
    readable_head : Forall head_fits (sm_feedHeads (sg_manifest s));
    readable_size : ∃ b, encodeSigned s = Ok b ∧ zlen b ≤ maxBlobBytes DEFAULT_DECODE_LIMITS;
}.

Lemma authorized_spec k l : existsb (λ signer, equalBytes signer k) l = true ↔ k ∈ l.
Proof.
  rewrite existsb_exists. split.
  - intros (x & Hx & ->%equalBytes_spec). by apply list_elem_of_In.
  - intros Hk. exists k. split; [by apply list_elem_of_In|by apply equalBytes_spec].
Qed.

(** The conditions, once the manifest has been read back. *)
Lemma trusted_checks s e m :
  (ensure (existsb (λ signer, equalBytes signer (sg_signer s)) (xp_authorizedSigners e)) SNAPSHOT_SIGNER_UNAUTHORIZED ≫= λ _,
   payload ← encodeSnapshotManifest (sg_manifest s);
   ensure (verifyDomain ed25519_verify DsnapshotManifest payload (sg_signature s) (sg_signer s)) SNAPSHOT_SIGNATURE_INVALID ≫= λ _,
   ensure (equalBytes (sm_groupId (sg_manifest s)) (xp_groupId e)) SNAPSHOT_GROUP_MISMATCH ≫= λ _,
   ensure (equalBytes (sm_executionManifestDigest (sg_manifest s)) (xp_executionManifestDigest e)) SNAPSHOT_EXECUTION_MANIFEST_MISMATCH ≫= λ _,
   ensure (negb (sm_materializedRevision (sg_manifest s) <? default 0 (xp_minimumRevision e))) SNAPSHOT_REVISION_ROLLBACK ≫= λ _,
   Ok (sg_manifest s)) = Ok m ↔ trusted s e ∧ m = sg_manifest s.
Proof.
  split.
  - intros H. apply bind_Ok in H as (? & H1%ensure_Ok & H). apply bind_Ok in H as (payload & Hp & H). do 4 (apply bind_Ok in H as (? & ?%ensure_Ok & H)).
    injection H as <-. split; [|done]. split; [by apply authorized_spec|by exists payload|by apply equalBytes_spec|by apply equalBytes_spec|].
    rename select (negb _ = true) into Hr. apply negb_true_iff, Z.ltb_ge in Hr. exact Hr.
  - intros [[H1 (payload & Hp & Hv) Hg He Hr] ->]. rewrite (proj2 (authorized_spec _ _) H1), Hp. cbn [ensure mbind result_bind].
    rewrite Hv, (proj2 (equalBytes_spec _ _) Hg), (proj2 (equalBytes_spec _ _) He), (proj2 (Z.ltb_ge _ _) Hr). done.
Qed.

Lemma accepted_trusted s e m : assertSnapshotTrust s e = Ok m → trusted s e ∧ m = sg_manifest s.
Proof.
  unfold Snapshots.assertSnapshotTrust. intros H. apply bind_Ok in H as (b & Hb & H). apply bind_Ok in H as (c & Hc & H).
  apply snapshot_strict in Hc as [Hc Hlen]. assert (c = s) as -> by (by eapply snapshot_injective). by apply trusted_checks.
Qed.

Lemma head_tidy h : head_fits h → head_valid h = true → tidy DEFAULT_DECODE_LIMITS 1 (headToCbor h).
Proof.
  intros (Hf & Hr & Hs) Hv. unfold head_valid in Hv. apply negb_true_iff, orb_false_iff in Hv as [_ Hv%Z.ltb_ge].
  unfold headToCbor. change 1 with (0 + 1). apply tidy_array; [done..|].
  repeat (apply Forall_cons; split); [apply tidy_text; [apply _|done..]|apply tidy_int; [apply _|done|lia]|apply tidy_text; [apply _|done..]|by apply Forall_nil].
Qed.

Lemma signed_tidy s : readable s → validateManifest (sg_manifest s) = Ok tt → tidy DEFAULT_DECODE_LIMITS 4 (signed_form s).
Proof.
  intros [[Hr Hc] Hh Hn Hf _] Hv. pose proof (valid_heads _ _ Hv) as Hsorted. unfold Snapshots.validateManifest in Hv.
  apply bind_Ok in Hv as (? & Hfields%ensure_Ok & Hv). apply bind_Ok in Hv as (? & _ & Hv%ensure_Ok). rewrite Hsorted in Hv.
  apply andb_true_iff in Hv as [_ Hv]. rewrite !andb_true_iff, !Z.leb_le in Hfields. destruct Hfields as ((((((((_ & _) & _) & ?) & ?) & ?) & _) & _) & ?).
  assert (tidy DEFAULT_DECODE_LIMITS 2 (CArray (headToCbor <$> sm_feedHeads (sg_manifest s)))) as Hheads.
  { change 2 with (1 + 1). apply tidy_array; [unfold zlen in *; by rewrite length_fmap|done|]. apply Forall_fmap, Forall_forall. intros h Hin.
    rewrite Forall_forall in Hf. apply head_tidy; [by apply Hf|]. rewrite forallb_forall in Hv. by apply Hv, list_elem_of_In. }
  assert (tidy DEFAULT_DECODE_LIMITS 2 (CText (sm_databaseContentHash (sg_manifest s)))) by (by apply tidy_text; [apply _|..]).
  assert (tidy DEFAULT_DECODE_LIMITS 3 (snapshot_form (sg_manifest s))) as Hform by (unfold snapshot_form; change 3 with (2 + 1); tidy_map).
  unfold signed_form. change 4 with (3 + 1). apply tidy_array; [done..|].
  repeat (apply Forall_cons; split); [by apply tidy_int; [apply _|..]|done|by apply tidy_bytes; [apply _|..]|by apply tidy_bytes; [apply _|..]|by apply Forall_nil].
Qed.

Lemma snapshot_written m : validateManifest m = Ok tt → snapshotFromCbor (snapshot_form m) = Ok m.
Proof.
  intros Hv. unfold Snapshots.snapshotFromCbor, snapshot_form. cbn [expectMap snapshot_coded mbind result_bind]. unfold snapshot_field.
  erewrite !required_integerMap by read_side. cbn [snapshot_coded mbind result_bind].
  change (manifest_of localeCompare (sm_groupId m) (sm_executionManifestDigest m) (sm_materializedRevision m) (sm_orderLength m)
    (sm_databaseContentHash m) (sm_transactionLogDigest m) (headToCbor <$> sm_feedHeads m) (sm_createdAtMs m) = Ok m).
  pose proof Hv as Hn. unfold Snapshots.validateManifest in Hn. apply bind_Ok in Hn as (? & Hn%ensure_Ok & _). rewrite !andb_true_iff, !Z.leb_le in Hn.
  unfold manifest_of. rewrite (proj2 (Z.ltb_ge _ _)), (proj2 (Z.ltb_ge _ _)) by lia. cbn [orb negb ensure mbind result_bind].
  rewrite heads_written. cbn [mbind result_bind]. destruct m. cbn in *. by rewrite Hv.
Qed.

Lemma signed_snapshot_written s b : readable s → encodeSigned s = Ok b → decodeSigned b = Ok s.
Proof.
  intros Hr Hb. pose proof (readable_size _ Hr) as (b' & Hb' & Hlen). assert (b' = b) as -> by congruence.
  apply encode_signed in Hb as [Hv Hb]. pose proof (signed_tidy _ Hr Hv) as Ht. unfold decodeSignedSnapshotManifest.
  rewrite (tidy_asserted 4 (signed_form s) b) by done. unfold signed_form. cbn [snapshot_coded expectArray mbind result_bind].
  rewrite snapshot_written by done. cbn [mbind result_bind expectBytes snapshot_coded]. by destruct s.
Qed.

(** a snapshot is trusted exactly under the stated conditions.  A manifest that is
    accepted is the one that was signed, its signer is one of those authorized, the
    signature is on the encoding of the manifest under the domain of snapshots, it is of
    the expected group and execution manifest and not older than the least revision
    expected; and a manifest for which all this holds and whose fields and bytes are
    within the limits of the decoder is accepted. *)
Theorem snapshot_trust_exact s e :
  (∀ m, assertSnapshotTrust s e = Ok m → trusted s e ∧ m = sg_manifest s) ∧
  (readable s → trusted s e → assertSnapshotTrust s e = Ok (sg_manifest s)).
Proof.
  split; [apply accepted_trusted|]. intros Hr Ht. destruct (readable_size _ Hr) as (b & Hb & _).
  unfold Snapshots.assertSnapshotTrust. rewrite Hb. cbn [mbind result_bind]. rewrite (signed_snapshot_written _ _ Hr Hb). by apply trusted_checks.
Qed.
End trust.
End manifests.

(** ** Files *)

Section files.
Context {F : Type} `{!FileSystem bytes F, !FileSystemLaws bytes F}.

(** Nothing but perhaps [ps] changed. *)
Definition untouched (ps : list path) (f f' : F) : Prop := ∀ q, q ∉ ps → keeps f f' q.

Lemma untouched_refl ps f : untouched ps f f.
Proof. intros q _. apply keeps_same. Qed.
Lemma untouched_trans ps f1 f2 f3 : untouched ps f1 f2 → untouched ps f2 f3 → untouched ps f1 f3.
Proof. intros H H' q Hq. eapply keeps_trans; [by apply H|by apply H']. Qed.
Lemma untouched_more ps ps' f f' : ps ⊆ ps' → untouched ps f f' → untouched ps' f f'.
Proof. intros Hs H q Hq. apply H. by intros ?%Hs. Qed.

Lemma fs_op_Ok {A} (m : SE F FsError A) f f' x : fs_op m f = (f', Ok x) ↔ m f = (f', Ok x).
Proof. unfold fs_op. destruct (m f) as [g [y|e]]; naive_solver. Qed.

Lemma pure_Ok {A} (r : result SnapshotError A) f f' x : pure_snapshot (F:=F) r f = (f', Ok x) ↔ f' = f ∧ r = Ok x.
Proof. unfold pure_snapshot. naive_solver. Qed.

Lemma then_Ok {E A B} (m : SE F E A) (k : A → SE F E B) f f' y :
  (m ≫= k) f = (f', Ok y) ↔ ∃ g x, m f = (g, Ok x) ∧ k x g = (f', Ok y).
Proof. unfold mbind, SE_bind. destruct (m f) as [g [x|e]]; naive_solver. Qed.

Lemma read_Ok p f f' t : readFileSync p f = (f', Ok t) → view f p = Some t ∧ untouched [] f f'.
Proof. intros H. destruct (read_law _ _ _ _ H) as [K V]. split; [done|]. by intros q _. Qed.

Lemma copy_Ok from to f f' u : copyFile from to f = (f', Ok u) →
  ∃ t, view f from = Some t ∧ view f' to = Some t ∧ untouched [to] f f'.
Proof.
  unfold copyFile. rewrite then_Ok. intros (g & t & [Hv Hk]%read_Ok & Hw). destruct (write_law _ _ _ _ _ Hw) as [K V].
  exists t. destruct u. split; [done|]. split; [by apply V|]. eapply untouched_trans; [eapply untouched_more, Hk; set_solver|].
  intros q Hq. apply K. set_solver.
Qed.

Lemma exclusive_Ok p m f f' u : exclusive p m f = (f', Ok u) → m f = (f', Ok u).
Proof. unfold exclusive. by case_match. Qed.

(** ** Replacement *)

Lemma then_cases {E A B} (m : SE F E A) (k : A → SE F E B) f f' r : (m ≫= k) f = (f', r) →
  ∃ g, (∃ e, m f = (g, Err e) ∧ f' = g ∧ r = Err e) ∨ (∃ x, m f = (g, Ok x) ∧ k x g = (f', r)).
Proof. unfold mbind, SE_bind. destruct (m f) as [g [x|e]]; naive_solver. Qed.

Lemma fs_op_cases {A} (m : SE F FsError A) f f' r : fs_op m f = (f', r) → ∃ r', m f = (f', r') ∧ ∀ x, r = Ok x → r' = Ok x.
Proof. unfold fs_op. destruct (m f) as [g [x|e]]; intros [= <- <-]; eexists; split; naive_solver. Qed.

Lemma fs_op_Err {A} (m : SE F FsError A) f f' e : fs_op m f = (f', Err e) → ∃ e', m f = (f', Err e').
Proof. unfold fs_op. destruct (m f) as [g [x|e']]; naive_solver. Qed.

Lemma backup_untouched from to f f' r : exclusive to (copyFile from to) f = (f', r) → untouched [to] f f'.
Proof.
  unfold exclusive. case_match; [intros [= <- <-]; apply untouched_refl|]. unfold copyFile. intros H'.
  destruct (then_cases _ _ _ _ _ H') as (g & [(e & Hr & -> & ->)|(t & Hr & Hw)]); destruct (read_law _ _ _ _ Hr) as [K _].
  - intros q _. apply K.
  - destruct (write_law _ _ _ _ _ Hw) as [K' _]. intros q Hq. eapply keeps_trans; [apply K|apply K'; set_solver].
Qed.

(** The outcome of a commit. *)
Definition committed (staged : StagedSnapshotArchive) (target backup : path) (new : bytes) (f f' : F) (r : result SnapshotError unit) : Prop :=
  (∀ c, survives f' target c → survives f target c ∨ c = Some new) ∧
  untouched [target; sd_databasePath staged; backup] f f' ∧
  (r = Ok tt → durable f' target (Some new) ∧ view f' backup = view f target ∧
     (dirname backup = dirname target → durable f' backup (view f target))).

(** A commit that stopped before the rename. *)
Lemma committed_stop staged target backup new f f' e : backup ≠ target → untouched [backup] f f' → committed staged target backup new f f' (Err e).
Proof.
  intros Hne K. split_and!; [|eapply untouched_more, K; set_solver|done]. intros c Hc. left. apply (keeps_survives _ _ _ (K target ltac:(set_solver))), Hc.
Qed.

(** C27: the database is replaced at once.  Whatever happens while a staged database is
    committed, a crash at any point leaves under the name of the target what could be
    there before or the staged database, and no other file but the staged one and the
    backup is affected.  When the commit has returned, the staged database is the target
    whatever happens, and the backup has the contents that the target had; a crash
    cannot lose the backup if it is in the directory of the target. *)
Theorem snapshot_commit_crash_safe staged target backup new f f' r :
  commitStagedSnapshot staged target backup f = (f', r) →
  view f (sd_databasePath staged) = Some new → synced f (sd_databasePath staged) → backup ∉ [target; sd_databasePath staged] →
  (∀ c, survives f' target c → survives f target c ∨ c = Some new) ∧
  untouched [target; sd_databasePath staged; backup] f f' ∧
  (r = Ok tt → durable f' target (Some new) ∧ view f' backup = view f target ∧
     (dirname backup = dirname target → durable f' backup (view f target))).
Proof.
  change (commitStagedSnapshot staged target backup f = (f', r) → view f (sd_databasePath staged) = Some new →
    synced f (sd_databasePath staged) → backup ∉ [target; sd_databasePath staged] → committed staged target backup new f f' r).
  intros H Hnew Hsync [Hbt Hbs]%not_elem_of_cons. apply not_elem_of_cons in Hbs as [Hbs _]. unfold commitStagedSnapshot in H.
  destruct (then_cases _ _ _ _ _ H) as (g & [(e & [= <- _] & -> & ->)|(u & [= <- Hu] & H')]); [by apply committed_stop, untouched_refl|].
  assert (sd_databasePath staged ≠ target) as Hne.
  { intros Heq. rewrite (bool_decide_eq_true_2 _ Heq) in Hu. done. }
  clear H Hu. destruct (then_cases _ _ _ _ _ H') as (f1 & Hf1). assert (untouched [backup] f f1) as K1.
  { destruct Hf1 as [(e & Hm & _)|(x & Hm & _)]; apply fs_op_cases in Hm as (r' & Hm & _); by eapply backup_untouched. }
  destruct Hf1 as [(e & _ & -> & ->)|(x & Hcopy & H2)]; [by apply committed_stop|]. apply fs_op_Ok, exclusive_Ok, copy_Ok in Hcopy as (t & Ht & Hb & _).
  destruct (then_cases _ _ _ _ _ H2) as (f2 & Hf2). assert (untouched [] f1 f2) as K2.
  { destruct Hf2 as [(e & Hm & _)|([] & Hm & _)]; apply fs_op_cases in Hm as (r' & Hm & _); destruct (sync_law _ _ _ _ Hm) as [K _]; intros q _; apply K. }
  assert (untouched [backup] f f2) as K12 by (eapply untouched_trans; [exact K1|eapply untouched_more, K2; set_solver]).
  destruct Hf2 as [(e & _ & -> & ->)|([] & Hsy & H3)]; [by apply committed_stop|]. apply fs_op_Ok in Hsy. destruct (sync_law _ _ _ _ Hsy) as [_ S2].
  destruct (S2 eq_refl) as [Sb _]. destruct (then_cases _ _ _ _ _ H3) as (f3 & [(e & Hm & -> & ->)|([] & Hm & H4)]).
  { apply committed_stop; [done|]. apply fs_op_Err in Hm as (e' & Hm). destruct (rename_law _ _ _ _ _ Hm Hne) as [K [Ka Kb]].
    eapply untouched_trans; [exact K12|]. intros q _. destruct (decide (q = sd_databasePath staged)) as [->|]; [done|].
    destruct (decide (q = target)) as [->|]; [done|by apply K]. }
  apply fs_op_Ok in Hm. destruct (rename_law _ _ _ _ _ Hm Hne) as [K3 [V3 R3]].
  assert (keeps f f2 (sd_databasePath staged)) as Ks by (apply K12; set_solver). assert (keeps f f2 target) as Kt by (apply K12; set_solver).
  destruct (R3 (keeps_synced _ _ _ Ks Hsync)) as [S3 C3]. rewrite (keeps_view _ _ _ Ks), Hnew in V3, C3.
  assert (∃ r', fsyncSync (dirname target) f3 = (f', r') ∧ (r = Ok tt → r' = Ok tt)) as (r' & H5 & Hr').
  { apply fs_op_cases in H4 as (r' & H5 & Hr'). exists r'. split; [exact H5|apply Hr']. }
  destruct (sync_law _ _ _ _ H5) as [K4 S4].
  split; [|split].
  - intros c Hc. apply (keeps_survives _ _ _ (K4 target)), C3 in Hc as [Hc|Hc]; [left; by apply (keeps_survives _ _ _ Kt)|by right].
  - intros q Hq. eapply keeps_trans; [apply K12; set_solver|]. eapply keeps_trans; [apply K3; set_solver|apply K4].
  - intros Hr. destruct (S4 (Hr' Hr)) as [_ D4]. assert (view f' backup = view f target) as Hv.
    { rewrite (keeps_view _ _ _ (K4 backup)), (keeps_view _ _ _ (K3 backup ltac:(set_solver) ltac:(set_solver))), (keeps_view _ _ _ (K2 backup (not_elem_of_nil _))). by rewrite Hb, Ht. }
    split_and!; [|done|].
    + split; [by rewrite (keeps_view _ _ _ (K4 target))|]. intros c Hc. rewrite (D4 target eq_refl S3 c Hc). exact V3.
    + intros Hdir. split; [done|]. intros c Hc. rewrite (D4 backup Hdir (keeps_synced _ _ _ (K3 backup ltac:(set_solver) ltac:(set_solver)) Sb) c Hc).
      by rewrite <-Hv, (keeps_view _ _ _ (K4 backup)).
Qed.
End files.

(** ** Archives *)

Section archives.
Context {F : Type} `{!FileSystem bytes F, !FileSystemLaws bytes F}.
Context (sha256 : bytes → bytes) (JSON_parse : bytes → option jsvalue) (JSON_stringify : jsvalue → bytes).
Context (localeCompare : jsstring → jsstring → Z) (ed25519_verify : bytes → bytes → bytes → bool).

Lemma evidence_Ok p f f' e : evidence sha256 p f = (f', Ok e) → ∃ t, view f p = Some t ∧ e = evidence_of sha256 t ∧ untouched [] f f'.
Proof. unfold evidence. rewrite then_Ok. intros (g & t & [Hv Hk]%fs_op_Ok%read_Ok & [= <- <-]). by exists t. Qed.

Lemma assertEvidence_Ok p e maximum f f' u : assertEvidence sha256 p e maximum f = (f', Ok u) →
  ∃ t, view f p = Some t ∧ e = evidence_of sha256 t ∧ zlen t ≤ maximum ∧ untouched [] f f'.
Proof.
  unfold assertEvidence. rewrite then_Ok. intros (g & t & [Hv Hk]%fs_op_Ok%read_Ok & H). rewrite then_Ok in H.
  destruct H as (g' & ? & [-> Hs%ensure_Ok]%pure_Ok & H). rewrite then_Ok in H. destruct H as (g' & a & (t' & Ht & -> & Hk')%evidence_Ok & H).
  apply pure_Ok in H as [-> Hd%ensure_Ok%bool_decide_eq_true]. apply andb_true_iff in Hs as [Hs%Z.eqb_eq Hm%Z.leb_le].
  assert (t' = t) as -> by (rewrite (keeps_view _ _ _ (Hk p (not_elem_of_nil _))) in Ht; congruence).
  exists t. split_and!; [done| |done|by eapply untouched_trans]. destruct e. unfold evidence_of in *. simpl in *. congruence.
Qed.

Lemma join_inj d a b : join d a = join d b → a = b.
Proof. unfold join. by intros ?%app_inv_head%app_inv_head. Qed.

(** What a directory holds after an export. *)
Lemma exported db d s f f' : exportSnapshotArchive sha256 JSON_stringify localeCompare d db s f = (f', Ok tt) →
  ∃ t b, view f db = Some t ∧ encodeSignedSnapshotManifest localeCompare s = Ok b ∧
    view f' (join d (js "archive.json")) = Some (JSON_stringify (index_value (mkIndex (evidence_of sha256 t) (evidence_of sha256 b)))).
Proof.
  unfold exportSnapshotArchive. rewrite then_Ok. intros (f1 & ? & H1%fs_op_Ok & H). pose proof (mkdir_law _ _ _ _ H1) as K1.
  rewrite then_Ok in H. destruct H as (f2 & b & [-> Hb]%pure_Ok & H). rewrite then_Ok in H.
  destruct H as (f3 & ? & (t & Ht & Ht3 & K3)%fs_op_Ok%copy_Ok & H). rewrite then_Ok in H.
  destruct H as (f4 & [] & H4%fs_op_Ok%exclusive_Ok & H). destruct (write_law _ _ _ _ _ H4) as [K4 V4]. rewrite then_Ok in H.
  destruct H as (f5 & e & (t' & Ht' & -> & K5)%evidence_Ok & H). rewrite then_Ok in H.
  destruct H as (f6 & e & (b' & Hb' & -> & K6)%evidence_Ok & H). apply fs_op_Ok, exclusive_Ok in H. destruct (write_law _ _ _ _ _ H) as [_ V].
  assert (join d DATABASE_FILE ≠ join d MANIFEST_FILE) as Hne by (by intros ?%join_inj).
  exists t, b. split; [by rewrite <-(keeps_view _ _ _ (K1 db))|]. split; [done|]. rewrite V by done. repeat f_equal.
  - rewrite (keeps_view _ _ _ (K4 _ Hne)), Ht3 in Ht'. congruence.
  - rewrite (keeps_view _ _ _ (K5 _ (not_elem_of_nil _))), (V4 eq_refl) in Hb'. congruence.
Qed.

Lemma valid_entry_value file e x : validEntry (Some (entry_value file e)) file = Some x → x = e.
Proof.
  unfold validEntry, entry_value.
  replace (map_get (js "file") _) with (Some (VString file)) by reflexivity.
  replace (map_get (js "bytes") _) with (Some (VNumber (ae_bytes e))) by reflexivity.
  replace (map_get (js "sha256") _) with (Some (VString (ae_sha256 e))) by reflexivity.
  destruct (_ && _); [|done]. destruct (_ && _); [|done]. intros [= <-]. by destruct e.
Qed.

Lemma parse_index_value index i : parseIndex (index_value index) = Ok i → i = index.
Proof.
  unfold parseIndex, index_value.
  replace (map_get (js "database") _) with (Some (entry_value DATABASE_FILE (ai_database index))) by reflexivity.
  replace (map_get (js "signedManifest") _) with (Some (entry_value MANIFEST_FILE (ai_signedManifest index))) by reflexivity.
  destruct (is_string _ _); [|done]. destruct (validEntry _ DATABASE_FILE) eqn:Hd; [|done]. destruct (validEntry _ MANIFEST_FILE) eqn:Hm; [|done].
  apply valid_entry_value in Hd, Hm. intros [= <-]. subst. by destruct index.
Qed.

(** What is staged is what the index of the archive describes, and trusted. *)
Lemma staged_described d target e check maximum suffix f f' staged :
  stageSnapshotArchive sha256 JSON_parse localeCompare ed25519_verify d target e check maximum suffix f = (f', Ok staged) →
  ∃ text value index t b s,
    view f (join d (js "archive.json")) = Some text ∧ JSON_parse text = Some value ∧ parseIndex value = Ok index ∧
    ai_database index = evidence_of sha256 t ∧ ai_signedManifest index = evidence_of sha256 b ∧ zlen t ≤ default DEFAULT_MAXIMUM_DATABASE maximum ∧
    decodeSignedSnapshotManifest localeCompare b = Ok s ∧ trusted localeCompare ed25519_verify s e ∧ sd_manifest staged = sg_manifest s ∧
    sd_databasePath staged = target ++ js ".snapshot-stage-" ++ suffix ∧
    view f' (sd_databasePath staged) = Some t ∧ synced f' (sd_databasePath staged) ∧ untouched [sd_databasePath staged] f f'.
Proof.
  unfold stageSnapshotArchive. rewrite then_Ok. intros (f1 & text & [Htext K1]%fs_op_Ok%read_Ok & H).
  rewrite then_Ok in H. destruct H as (? & value & [-> Hvalue]%pure_Ok & H). rewrite then_Ok in H. destruct H as (? & index & [-> Hindex]%pure_Ok & H).
  rewrite then_Ok in H. destruct H as (f2 & ? & (t & Ht & Hd & Hmax & K2)%assertEvidence_Ok & H).
  rewrite then_Ok in H. destruct H as (f3 & ? & (b & Hb & Hm & _ & K3)%assertEvidence_Ok & H).
  rewrite then_Ok in H. destruct H as (f4 & b' & [Hb' K4]%fs_op_Ok%read_Ok & H). rewrite then_Ok in H. destruct H as (? & s & [-> Hs]%pure_Ok & H).
  rewrite then_Ok in H. destruct H as (? & m & [-> [Htrust ->]%accepted_trusted]%pure_Ok & H).
  rewrite then_Ok in H. destruct H as (f5 & ? & (t' & Ht' & Hview & K5)%fs_op_Ok%copy_Ok & H).
  rewrite then_Ok in H. destruct H as (f6 & [] & H6%fs_op_Ok & H). destruct (sync_law _ _ _ _ H6) as [K6 S6].
  rewrite then_Ok in H. unfold check_database in H. destruct H as (? & ? & [= -> _] & [= <- <-]). cbn [sd_databasePath sd_manifest].
  pose proof (untouched_trans _ _ _ _ (untouched_trans _ _ _ _ (untouched_trans _ _ _ _ K1 K2) K3) K4) as K14.
  assert (b' = b) as -> by (rewrite (keeps_view _ _ _ (K3 _ (not_elem_of_nil _))) in Hb'; congruence).
  assert (t' = t) as ->.
  { pose proof (untouched_trans _ _ _ _ (untouched_trans _ _ _ _ K2 K3) K4) as K24. rewrite (keeps_view _ _ _ (K24 _ (not_elem_of_nil _))) in Ht'. congruence. }
  exists text, value, index, t, b, s. destruct (JSON_parse text) as [v|]; [|done]. injection Hvalue as ->. split_and!; try done.
  - by rewrite (keeps_view _ _ _ (K6 _)).
  - by apply S6.
  - eapply untouched_trans; [eapply untouched_more, K14; set_solver|]. eapply untouched_trans; [exact K5|]. intros q _. apply K6.
Qed.

(** C26: an archive cannot be altered unnoticed.  If the index of an exported archive is
    as it was written, whatever became of its other files, then staging it either fails
    or puts next to the target, on stable storage, a database with the contents that were
    exported, together with the manifest that was exported, which is trusted; or else the
    files show a collision of SHA-256.  No other file changes. *)
Theorem staged_archive_intact d db signed f f1 g g' target e check maximum suffix staged :
  (∀ index, JSON_parse (JSON_stringify (index_value index)) = Some (index_value index)) →
  exportSnapshotArchive sha256 JSON_stringify localeCompare d db signed f = (f1, Ok tt) →
  view g (join d (js "archive.json")) = view f1 (join d (js "archive.json")) →
  stageSnapshotArchive sha256 JSON_parse localeCompare ed25519_verify d target e check maximum suffix g = (g', Ok staged) →
  ((view g' (sd_databasePath staged) = view f db ∧ synced g' (sd_databasePath staged) ∧
    sd_manifest staged = sg_manifest signed ∧ trusted localeCompare ed25519_verify signed e) ∨
   ∃ x y, collision sha256 x y) ∧
  untouched [sd_databasePath staged] g g'.
Proof.
  intros Hjson (t & b & Ht & Hb & Hindex)%exported Hsame Hstage.
  destruct (staged_described _ _ _ _ _ _ _ _ _ Hstage) as
    (text & value & index & t' & b' & s & Htext & Hvalue & Hi & Hd & Hm & _ & Hs & Htrust & Hman & _ & Hview & Hsync & K).
  split; [|exact K]. rewrite Hsame, Hindex in Htext. injection Htext as <-. rewrite Hjson in Hvalue. injection Hvalue as <-.
  apply parse_index_value in Hi as ->. cbn [ai_database ai_signedManifest] in Hd, Hm. unfold evidence_of in Hd, Hm.
  injection Hd as _ Hd%bytesToHex_inj. injection Hm as _ Hm%bytesToHex_inj.
  destruct (decide (t = t')) as [->|Hne]; [|right; by exists t, t']. destruct (decide (b = b')) as [->|Hne]; [|right; by exists b, b'].
  left. apply snapshot_strict in Hs as [Hs Hlen]. assert (s = signed) as -> by (by eapply snapshot_injective). by rewrite Hview, Ht.
Qed.
End archives.

(** ** A small archive *)

Definition sample_verify (message signature key : bytes) : bool := bool_decide (signature = replicate 64 x07).

Definition sample_manifest : TrustedSnapshotManifest :=
  mkSnapshotManifest (replicate 32 x01) (replicate 32 x02) 3 5 (js "hash") (replicate 32 x03) [mkFeedHead (js "@a") 2 (js "%r")] 1000.

Definition sample_signed : SignedSnapshotManifest := mkSignedSnapshot sample_manifest (replicate 32 x09) (replicate 64 x07).

Definition sample_expectations : SnapshotExpectations :=
  mkExpectations (replicate 32 x01) (replicate 32 x02) [replicate 32 x09] (Some 3).

Definition no_collation (a b : jsstring) : Z := 0.

Definition sample_signed_bytes : bytes :=
  ltac:(let r := eval vm_compute in (encodeSignedSnapshotManifest no_collation sample_signed) in match r with Ok ?b => exact b end).

Definition sample_manifest_bytes : bytes :=
  ltac:(let r := eval vm_compute in (encodeSnapshotManifest no_collation sample_manifest) in match r with Ok ?b => exact b end).

Lemma sample_readable : readable no_collation sample_signed.
Proof.
  split; [split; by vm_compute|by vm_compute|by vm_compute| |exists sample_signed_bytes; split; by vm_compute].
  apply Forall_cons; split; [split_and!; by vm_compute|by apply Forall_nil].
Qed.

Lemma sample_trusted : trusted no_collation sample_verify sample_signed sample_expectations.
Proof.
  split; [by left|exists sample_manifest_bytes; split; by vm_compute|done|done|by vm_compute].
Qed.

Lemma snapshot_trust_exact_witness :
  readable no_collation sample_signed ∧ assertSnapshotTrust no_collation sample_verify sample_signed sample_expectations = Ok sample_manifest.
Proof.
  split; [exact sample_readable|].
  exact (proj2 (snapshot_trust_exact no_collation sample_verify sample_signed sample_expectations) sample_readable sample_trusted).
Defined.

(** A text for the indices of archives: the binary digits of a number that stands for
    sizes and digests. *)
Fixpoint digits_of (p : positive) : bytes :=
  match p with xH => [] | xO p => x00 :: digits_of p | xI p => x01 :: digits_of p end.
Fixpoint of_digits (b : bytes) : positive :=
  match b with [] => xH | x00 :: b => xO (of_digits b) | _ :: b => xI (of_digits b) end.

Lemma of_digits_of p : of_digits (digits_of p) = p.
Proof. induction p as [p IH|p IH|]; simpl; by rewrite ?IH. Qed.

Definition sample_stringify (v : jsvalue) : bytes :=
  match v with
  | VObject [_; (_, VObject [_; (_, VNumber n); (_, VString h)]); (_, VObject [_; (_, VNumber n'); (_, VString h')])] =>
      digits_of (encode (n, h, n', h'))
  | _ => []
  end.

Definition sample_JSON_parse (b : bytes) : option jsvalue :=
  (λ '(n, h, n', h'), index_value (mkIndex (mkEntry n h) (mkEntry n' h'))) <$> (decode (of_digits b) : option (Z * jsstring * Z * jsstring)).

Lemma sample_json index : sample_JSON_parse (sample_stringify (index_value index)) = Some (index_value index).
Proof.
  destruct index as [[n h] [n' h']]. unfold sample_JSON_parse.
  change (sample_stringify _) with (digits_of (encode (n, h, n', h'))). by rewrite of_digits_of, countable.decode_encode.
Qed.

Definition sample_sha256 (b : bytes) : bytes := take 32 (b ++ replicate 32 x00).

Definition sample_disk : CacheDisk bytes := [(js "/d/app.db", Clean (Some [x2a; x2b]) [])].

Definition sample_exported : CacheDisk bytes :=
  (exportSnapshotArchive (FileSystem0 := cache_disk) sample_sha256 sample_stringify no_collation (js "/a") (js "/d/app.db") sample_signed sample_disk).1.

Definition sample_stage : CacheDisk bytes * result SnapshotError StagedSnapshotArchive :=
  stageSnapshotArchive (FileSystem0 := cache_disk) sample_sha256 sample_JSON_parse no_collation sample_verify (js "/a") (js "/e/app.db")
    sample_expectations (λ _ _ _, true) None (js "00") sample_exported.

Definition sample_staged : StagedSnapshotArchive := mkStaged (js "/e/app.db.snapshot-stage-00") sample_manifest (js "/a").

Lemma staged_archive_intact_witness :
  sample_stage.2 = Ok sample_staged ∧
  (view (FileSystem := cache_disk) sample_stage.1 (js "/e/app.db.snapshot-stage-00") = Some [x2a; x2b] ∨ ∃ x y, collision sample_sha256 x y).
Proof.
  assert (sample_stage = (sample_stage.1, Ok sample_staged)) as H by (vm_compute; reflexivity).
  split; [vm_compute; reflexivity|].
  destruct (staged_archive_intact (FileSystem0 := cache_disk) (FileSystemLaws0 := cache_disk_laws) sample_sha256 sample_JSON_parse sample_stringify
    no_collation sample_verify (js "/a") (js "/d/app.db") sample_signed sample_disk sample_exported sample_exported sample_stage.1 (js "/e/app.db")
    sample_expectations (λ _ _ _, true) None (js "00") sample_staged sample_json ltac:(vm_compute; reflexivity) eq_refl H) as [[(Hv & _)|Hc] _].
  - left. exact Hv.
  - right. exact Hc.
Defined.

(** The backup in a directory of its own. *)
Definition commit_disk : CacheDisk bytes :=
  [(js "/e/app.db", Clean (Some [x01]) []); (js "/e/app.db.snapshot-stage-00", Clean (Some [x2a; x2b]) [])].

Definition sample_commit : CacheDisk bytes * result SnapshotError unit :=
  commitStagedSnapshot (FileSystem0 := cache_disk) sample_staged (js "/e/app.db") (js "/b/old.db") commit_disk.

Lemma snapshot_commit_crash_safe_witness :
  sample_commit.2 = Ok tt ∧ durable (FileSystem0 := cache_disk) sample_commit.1 (js "/e/app.db") (Some [x2a; x2b]).
Proof.
  split; [vm_compute; reflexivity|].
  refine (proj1 (proj2 (proj2 (snapshot_commit_crash_safe (FileSystem0 := cache_disk) (FileSystemLaws0 := cache_disk_laws) sample_staged
    (js "/e/app.db") (js "/b/old.db") [x2a; x2b] commit_disk sample_commit.1 sample_commit.2 (surjective_pairing sample_commit) _ _ _)) _)).
  - vm_compute. reflexivity.
  - vm_compute. exact I.
  - apply (bool_decide_unpack _). vm_compute. exact I.
  - vm_compute. reflexivity.
Defined.

(** In a directory of its own the backup is not safe: its contents are synced, but not
    its name. *)
Example backup_can_be_lost :
  sample_commit.2 = Ok tt ∧ survives (FileSystem0 := cache_disk) sample_commit.1 (js "/b/old.db") None.
Proof.
  split; [vm_compute; reflexivity|]. apply cache_survives.
  replace (entry_of sample_commit.1 (js "/b/old.db")) with (Clean (Some [x01]) [None]) by (vm_compute; reflexivity). right. by left.
Qed.
